(* ===== verification/_CoqProject ===== *)
-Q . S2P
Prelude.v
Constants.v
Serializer.v
ChunkInfo.v
MorselInfo.v
ValidityMask.v
Statistics.v
UpdateSegment.v
UpdateKinds.v
TransactionManager.v
SnapshotKeys.v
UndoBuffer.v
Hugeint.v
CastHelpers.v
Date.v
Arithmetic.v
StringCast.v
Timestamp.v
Interval.v
CatalogSet.v
SegmentStore.v
CatalogStore.v
SegmentTree.v
DataTable.v
TableCommit.v
LocalStorage.v
TableStore.v
ArtKey.v
ArtNode.v
ArtTree.v
ArtScan.v
CatalogCodec.v
TableVersions.v
WriteAheadLog.v
BlockManager.v
DatabaseFile.v
ValueCodec.v
ColumnSegment.v
ColumnData.v
ColumnRows.v
ColumnAppend.v
ColumnCheckpoint.v
CheckpointManager.v
StandardColumn.v
