(* ===== verification/Prelude.v ===== *)
(** * GuinsooDB: transactions, versioned storage, catalog, index, files and value types

    GuinsooDB is an embedded analytical database.  A query is parsed, planned
    and executed over vectors of values; tables are stored in morsels of rows
    and columns in segments; every change belongs to a transaction, which sees a
    snapshot of the database; committed changes go to a log, and a checkpoint
    writes the whole database to one file.  This development verifies the core
    that makes this correct, from the transaction manager to the blocks of the
    file, and the types whose values SQL computes with.

    ** The parts and the files

    Concurrency control (src/src/transaction/, src/src/storage/table/):
    - TransactionManager: transaction_manager.cpp.  Start times, transaction
      ids, commit ids, the lists of active, recently committed and old
      transactions, cleanup and checkpoints.  The record [TransactionManager] is
      the class; one definition per method; the methods that release the lock
      on the way are two atomic parts, and [run] interleaves them.
    - UndoBuffer: undo_buffer.cpp and the pushes of transaction.cpp, as bytes in
      chunks.
    - ChunkInfo and MorselInfo: chunk_info.cpp, morsel_info.cpp.  Which
      transaction inserted and deleted each row.
    - UpdateSegment and UpdateKinds: update_segment.cpp.  In-place updates with
      chains of replaced values, as a heap of linked nodes; the types of columns
      are instances of a class.
    - SnapshotKeys, SegmentStore: the update entries of commit_state.cpp,
      rollback_state.cpp and cleanup_state.cpp, which put update segments under
      the manager through its interface.
    Tables (src/src/storage/):
    - SegmentTree: table/segment_tree.cpp, the search for the segment of a row.
    - DataTable: the rows of data_table.cpp: appends, deletions, scans, fetches.
    - TableCommit: the versions while a transaction with several entries commits.
    - LocalStorage: local_storage.cpp with chunk_collection.cpp.
    - TableStore: appended and deleted rows in commit_state.cpp,
      rollback_state.cpp, cleanup_state.cpp, and the commit of transaction.cpp,
      under the manager.
    Catalog (src/src/catalog/):
    - CatalogSet and CatalogStore: catalog_set.cpp and dependency_manager.cpp,
      alone and under the manager.
    Index (src/src/execution/index/art/):
    - ArtKey: art_key.cpp and bit_operations.cpp.  Values as strings of bytes.
    - ArtNode: leaf.cpp, node.cpp, node4.cpp, node16.cpp, node48.cpp, node256.cpp.
    - ArtTree: the point operations of art.cpp, and those on chunks.
    - ArtScan: the iterator and the range scans of art.cpp.
    Files (src/src/storage/):
    - CatalogCodec: how types, columns, constraints, catalog entries and ALTER
      statements are serialized (src/src/common/types.cpp, src/src/parser/,
      src/src/catalog/catalog_entry/).
    - WriteAheadLog: write_ahead_log.cpp, wal_replay.cpp.
    - BlockManager: the blocks of single_file_block_manager.cpp with their
      checksums, and the chains of meta_block_writer.cpp and meta_block_reader.cpp.
    - DatabaseFile: creation, opening and headers in single_file_block_manager.cpp,
      and crashes.
    - TableVersions: the version information of tables in checkpoints.
    - CheckpointManager: checkpoint_manager.cpp with the writers and readers of
      tables in checkpoint/.
    Columns (src/src/storage/, src/src/storage/table/):
    - ValueCodec: how values (value.cpp) and statistics are serialized.
    - ColumnSegment: numeric_segment.cpp and validity_segment.cpp, on the bytes of
      a block.
    - ColumnData: column_data.cpp with transient_segment.cpp, persistent_segment.cpp
      and the walk over update segments of update_segment.cpp: appends, reverted
      appends, checkpoints, loading.
    - ColumnRows, ColumnAppend, ColumnCheckpoint: the rows that a column has, and
      what appends and checkpoints do to them.
    - StandardColumn: BIGINT columns with their validity columns as the columns of
      CheckpointManager.
    Data (src/src/common/, src/src/storage/statistics/):
    - ValidityMask: validity_mask.hpp and .cpp.
    - Statistics: numeric_statistics.cpp, string_statistics.cpp and their bases.
    - Serializer: serializer.hpp and the buffers of common/serializer/.
    - Constants: constants.cpp and the identifiers of a transaction.
    Values (src/src/common/types/, src/src/common/operator/,
    src/src/function/scalar/operators/):
    - Hugeint: hugeint.cpp.  128-bit integers from two halves.
    - CastHelpers: cast_helpers.hpp and .cpp.  Numbers and decimals to texts.
    - Date, Timestamp, Interval: date.cpp, time.cpp, timestamp.cpp, interval.cpp and
      the operators on them.
    - Arithmetic: the integer and decimal operators of add.cpp, subtract.cpp and
      multiply.cpp, and the integer casts of cast_operators.cpp.
    - StringCast: the casts of texts to numbers and of decimals of
      cast_operators.cpp.
    - Prelude (this file): machine integers, exceptions, loops, arrays.

    ** How the parts interact

    The manager drives a store through [TransactionEffects]: it commits, rolls
    back and cleans up what the undo buffer of a transaction lists.  Update
    segments, the catalog and the rows of tables are three such stores.  A
    commit first writes its entries to the log (Serializer, CatalogCodec,
    WriteAheadLog), appends the rows of its local storage to the table and then
    stamps them.  A checkpoint writes catalog entries and tables through two
    meta block writers into blocks that the active header does not use
    (BlockManager, CheckpointManager), marks the checkpoint in the log, makes the
    new root durable with a header (DatabaseFile) and empties the log.  After a
    restart the header gives the root, the catalog and the tables are loaded
    from it, and the log is replayed unless it ends with this checkpoint.

    ** How the code is modelled

    A w-bit integer is a [Z], and [wrapU] and [wrapS] are written where a result
    is stored.  A function that throws returns [res]; a function that changes a
    state and throws returns [out], which keeps the state that was reached.
    Undefined behaviour (an access out of bounds, a buffer that is too small) is
    an exception of its own, and the theorems show that it does not happen.
    Pointers are locations of a heap where they are shared and changed, positions
    otherwise.  A file is the map from locations to what was written there,
    together with the sequence of writes and syncs; [crashes] says which contents
    can remain.  Constants such as the size of a vector are those of the code
    and are kept opaque where they are large.

    Loops are structural recursions over a list, over the bits of a number or
    over a fuel that is computed from the arguments, and the theorems show that it
    is enough: one round per byte of a key for descents in the radix tree, the
    entries left on the stack ([it_todo]) for its scans, one per vector for table
    scans, one per row for appends and their commits, one per segment for the
    search of a segment tree, one per byte for the chains of meta blocks and for
    the replay of a log, the bytes left for nested types, the rows for the version
    tree, 400-year cycles and characters for dates and the parser of intervals.

    Interfaces between components are type classes: [Serializer] and
    [Deserializer] for the buffers, the files and the chains of blocks, [Codec]
    for what is serialized (the trees of the parser and data chunks are
    parameters with this class), [UpdateKind] for column types,
    [TransactionEffects] with [SnapshotStore] for what the manager does to a
    store, [ReplayTarget] for what replay calls, [ColumnStorage] for what a
    checkpoint asks of a column, [DecimalNumber] for the physical types of
    decimals.  A client is proved against the class and an implementation
    discharges it.

    ** What the theorems show

    - Snapshot isolation: in every run of any number of transactions, with
      commits, rollbacks and cleanups between, what a running transaction reads
      of a column with updates, which rows of a table it scans and which catalog
      entries it finds (in catalogs with lower-case names and without renames)
      does not change because of others; its abstract version holds for every
      store that keeps the promises of the interface.
    - The manager: an invariant of all reachable states, what garbage collection
      keeps, when a checkpoint may be written.
    - Versions and tables: the fast paths of scans agree with the rule for one row;
      operations on morsels, tables, local storage and chains of updates refine
      operations on lists; write-write conflicts are found exactly; a commit
      publishes all changes and a rollback none.
    - Catalog, for lower-case names and without renames: conflicts, and that
      commit, rollback and cleanup of one transaction change nothing for the
      others and follow no invalid pointer.  The invariant [catalog_inv] excludes
      renames, and concrete runs show that the code breaks each of these
      theorems with them.
    - Index: keys are ordered as the values are; the tree is a finite map; scans
      return the rows between their bounds, for keys that are not prefixes of each
      other.
    - Files: what was written is read back, with writers working side by side; a
      log of whole transactions is replayed one by one, and one with a torn end not
      at all; a crash in a checkpoint leaves the old database or the new one if
      the free list goes to a block that was free, and may lose it otherwise; a
      checkpoint and a restart keep catalog, tables and committed rows.
    - Storage of values: round trips; a zone map never hides a row.
    - Values: arithmetic is exact or refused, except the portable body of the
      signed 64-bit multiplication, whose limits the theorem states; printed
      numbers, dates and intervals read back; the calendar; the loops end.
    Lemmas next to these theorems show by concrete runs where the code does not
    do what it is meant to do; the manifest lists them as findings.

    ** Not modelled

    - The SQL front end (parser, transformer, binder, planner, optimiser) and query
      execution: expression trees and plans whose meaning is SQL itself.  The
      expressions and statements that catalog entries contain are parameters.
    - Vectors, the function library apart from the operators above, strings, blobs
      and nested values, floating point: their results depend on memory layout,
      Unicode tables and the C library.
    - String columns of update segments: their values live in a string heap.
    - Segments of strings, and the scans and filters of columns over vectors;
      the scans that are modelled say which rows are visible.
    - The buffer manager: which blocks are in memory does not change what they
      hold.  Locks are modelled by the atomic parts they protect.
    - Binding and creating what a checkpoint or the log contains: the binder and
      the client context.
    - The CSV reader and writer, the client API, parallel execution, the shell, the
      extensions and the third-party code. *)

From Stdlib Require Export ZArith Lia Sorted.
From stdpp Require Export base list numbers option gmap strings sorting.

#[global] Open Scope Z_scope.

(** ** Machine integers

    A [w]-bit unsigned integer is a [Z] in [0, 2^w); a [w]-bit signed integer
    is a [Z] in [-2^(w-1), 2^(w-1)).  [wrapU] and [wrapS] are the conversions
    the C++ code performs when a result is stored back in the type. *)

Declare Scope guinsoo_scope.
Delimit Scope guinsoo_scope with guinsoo.

Definition wrapU (w z : Z) : Z := z mod 2 ^ w.

Definition wrapS (w z : Z) : Z := (z + 2 ^ (w - 1)) mod 2 ^ w - 2 ^ (w - 1).

Definition inU (w z : Z) : Prop := 0 <= z < 2 ^ w.

Definition inS (w z : Z) : Prop := - 2 ^ (w - 1) <= z < 2 ^ (w - 1).

Abbreviation u64 := (wrapU 64).
Abbreviation s64 := (wrapS 64).

(** ** Exceptions

    The exception classes of src/src/include/guinsoodb/common/exception.hpp
    that the modelled code throws, each with the message it carries.
    [UndefinedBehaviour] is not one of them: it marks the runs of the model in
    which the C++ program has no defined behaviour (an access out of bounds),
    so that the theorems can state when this cannot happen. *)

Inductive exception : Set :=
| Exception (msg : string)
| TransactionException (msg : string)
| CatalogException (msg : string)
| OutOfRangeException (msg : string)
| ValueOutOfRangeException (msg : string)
| ConversionException (msg : string)
| SerializationException (msg : string)
| InvalidInputException (msg : string)
| NotImplementedException (msg : string)
| InternalException (msg : string)
| InvalidTypeException (msg : string)
| ConstraintException (msg : string)
| IOException (msg : string)
| UndefinedBehaviour (msg : string).

#[global] Instance exception_eq_dec : EqDecision exception.
Proof. solve_decision. Defined.

(** A computation that returns or throws. *)
Inductive res (A : Type) : Type :=
| Ok (a : A)
| Throw (e : exception).
Arguments Ok {_} _.
Arguments Throw {_} _.

#[global] Instance res_ret : MRet res := λ A a, Ok a.
#[global] Instance res_bind : MBind res := λ A B f m,
  match m with Ok a => f a | Throw e => Throw e end.

(** A computation that runs to completion or throws part-way, in which case
    the state reached so far is kept: C++ mutations are not undone by a throw. *)
Inductive out (S A : Type) : Type :=
| Ret (s : S) (a : A)
| Raise (s : S) (e : exception).
Arguments Ret {_ _} _ _.
Arguments Raise {_ _} _ _.

Definition out_state {S A} (o : out S A) : S :=
  match o with Ret s _ => s | Raise s _ => s end.

(** ** Counted loops

    [for_ a b body s] is [for (i = a; i < b; i++) s = body(i, s)]. *)
Definition for_ {S : Type} (a b : nat) (body : nat → S → S) (s : S) : S :=
  foldl (λ s i, body i s) s (seq a (b - a)).

(** [fill_range a b v l] is [for (i = a; i < b; i++) l[i] = v]. *)
Definition fill_range {A : Type} (a b : nat) (v : A) (l : list A) : list A :=
  for_ a b (λ i l, <[i := v]> l) l.

(** [scatter rows v l] is [for (i = 0; i < count; i++) l[rows[i]] = v]. *)
Definition scatter {A : Type} (rows : list nat) (v : A) (l : list A) : list A :=
  foldl (λ l r, <[r := v]> l) l rows.

(** ** Lemmas *)

Lemma wrapU_range w z : 0 <= w → inU w (wrapU w z).
Proof. intros. unfold inU, wrapU. apply Z.mod_pos_bound. lia. Qed.

Lemma wrapS_range w z : 0 < w → inS w (wrapS w z).
Proof.
  intros Hw. unfold inS, wrapS.
  pose proof (Z.mod_pos_bound (z + 2 ^ (w - 1)) (2 ^ w) ltac:(lia)).
  assert (2 ^ w = 2 * 2 ^ (w - 1)).
  { rewrite <-Z.pow_succ_r by lia. f_equal. lia. }
  lia.
Qed.

Lemma wrapU_small w z : inU w z → wrapU w z = z.
Proof. apply Z.mod_small. Qed.

Lemma wrapS_small w z : 0 < w → inS w z → wrapS w z = z.
Proof.
  intros Hw [Hl Hr]. unfold wrapS.
  assert (2 ^ w = 2 * 2 ^ (w - 1)).
  { rewrite <-Z.pow_succ_r by lia. f_equal. lia. }
  rewrite Z.mod_small by lia. lia.
Qed.

Section for_lemmas.
Context {S : Type}.
Implicit Types (s : S) (body : nat → S → S).

Lemma for_done a b body s : (b <= a)%nat → for_ a b body s = s.
Proof. intros. unfold for_. by replace (b - a)%nat with 0%nat by lia. Qed.

Lemma for_last a b body s :
  (a <= b)%nat → for_ a (Datatypes.S b) body s = body b (for_ a b body s).
Proof.
  intros. unfold for_. replace (Datatypes.S b - a)%nat with (b - a + 1)%nat by lia.
  rewrite seq_app, foldl_app. simpl. do 2 f_equal. lia.
Qed.

Lemma for_first a b body s :
  (a < b)%nat → for_ a b body s = for_ (Datatypes.S a) b body (body a s).
Proof.
  intros. unfold for_. by replace (b - a)%nat with (Datatypes.S (b - Datatypes.S a)) by lia.
Qed.

(** The invariant rule of counted loops. *)
Lemma for_ind (P : nat → S → Prop) a b body s :
  (a <= b)%nat →
  P a s →
  (∀ i s, (a <= i < b)%nat → P i s → P (Datatypes.S i) (body i s)) →
  P b (for_ a b body s).
Proof.
  intros Hab H0 Hstep.
  assert (∀ n, (a + n <= b)%nat → P (a + n)%nat (for_ a (a + n) body s)) as Hn.
  { induction n as [|n IH]; intros Hle.
    - rewrite Nat.add_0_r. by rewrite for_done by lia.
    - replace (a + Datatypes.S n)%nat with (Datatypes.S (a + n)) by lia.
      rewrite for_last by lia. apply Hstep; [lia|]. apply IH. lia. }
  specialize (Hn (b - a)%nat). replace (a + (b - a))%nat with b in Hn by lia.
  apply Hn. lia.
Qed.
End for_lemmas.

(** Lists of lists, one cell at a time. *)
Lemma sum_list_cons x l : sum_list (x :: l) = (x + sum_list l)%nat.
Proof. done. Qed.

Lemma join_cons {A} (x : list A) l : mjoin (x :: l) = x ++ mjoin l.
Proof. done. Qed.

Section array_lemmas.
Context {A : Type}.
Implicit Types (l : list A) (v : A).

Lemma length_fill_range a b v l : length (fill_range a b v l) = length l.
Proof.
  unfold fill_range, for_. generalize (seq a (b - a)) as is_. intros is_.
  revert l. induction is_ as [|i is_ IH]; intros l; simpl; [done|].
  by rewrite IH, length_insert.
Qed.

Lemma length_scatter rows v l : length (scatter rows v l) = length l.
Proof.
  unfold scatter. revert l. induction rows as [|r rows IH]; intros l; simpl; [done|].
  by rewrite IH, length_insert.
Qed.

Lemma scatter_lookup rows v l i :
  (i < length l)%nat →
  scatter rows v l !! i = if decide (i ∈ rows) then Some v else l !! i.
Proof.
  unfold scatter. revert l. induction rows as [|r rows IH]; intros l Hi.
  { rewrite decide_False by apply not_elem_of_nil. done. }
  cbn [foldl].
  rewrite IH by (by rewrite length_insert).
  destruct (decide (i = r)) as [->|Hne].
  - rewrite list_lookup_insert_eq by done.
    rewrite (decide_True (P := r ∈ r :: rows)) by left. by case_decide.
  - rewrite list_lookup_insert_ne by done.
    destruct (decide (i ∈ rows)), (decide (i ∈ r :: rows)) as [Hc|Hc];
      rewrite elem_of_cons in Hc; naive_solver.
Qed.

Lemma fill_range_scatter a b v l : fill_range a b v l = scatter (seq a (b - a)) v l.
Proof. done. Qed.

Lemma fill_range_lookup a b v l i :
  (i < length l)%nat →
  fill_range a b v l !! i = if decide (a <= i < b)%nat then Some v else l !! i.
Proof.
  intros Hi. rewrite fill_range_scatter, scatter_lookup by done.
  destruct (decide (i ∈ seq a (b - a))) as [H|H], (decide (a <= i < b)%nat);
    rewrite elem_of_seq in H; done || lia.
Qed.

(** [for (i = 0; i < m; i++) if (p(i)) l[i] = f(i)] *)
Lemma for_cond_insert (p : nat → bool) (f : nat → A) m l :
  let l' := for_ 0 m (λ i l, if p i then <[i := f i]> l else l) l in
  length l' = length l ∧
  ∀ j, (j < length l)%nat →
    l' !! j = if (j <? m)%nat && p j then Some (f j) else l !! j.
Proof.
  set (P := λ (i : nat) (l' : list A), length l' = length l ∧
    ∀ j, (j < length l)%nat → l' !! j = if (j <? i)%nat && p j then Some (f j) else l !! j).
  apply (for_ind P); [lia| |].
  { split; [done|]. intros j Hj. by destruct (Nat.ltb_spec j 0); [lia|]. }
  intros i l' Hi [Hlen Hl']. split.
  { destruct (p i); [by rewrite length_insert|done]. }
  intros j Hj. destruct (decide (i = j)) as [->|Hne].
  - replace (j <? S j)%nat with true by (symmetry; apply Nat.ltb_lt; lia).
    cbn [andb]. destruct (p j).
    + apply list_lookup_insert_eq. lia.
    + rewrite Hl' by done. by destruct (Nat.ltb_spec j j); [lia|].
  - replace (j <? S i)%nat with (j <? i)%nat.
    + destruct (p i); [rewrite list_lookup_insert_ne by done|]; by apply Hl'.
    + destruct (Nat.ltb_spec j i), (Nat.ltb_spec j (S i)); lia || done.
Qed.

(** [for (i = 0; i < count; i++) l[sel[i]] = v] *)
Lemma for_gather_insert `{!Inhabited A} (sel : list nat) count v l :
  (count <= length sel)%nat →
  for_ 0 count (λ i l, <[sel !!! i := v]> l) l = scatter (take count sel) v l.
Proof.
  intros Hc. set (P := λ (i : nat) (l' : list A), l' = scatter (take i sel) v l).
  apply (for_ind P); [lia|done|]. intros i l' Hi ->. unfold P, scatter.
  destruct (lookup_lt_is_Some_2 sel i ltac:(lia)) as [x Hx].
  rewrite (take_S_r _ _ x), foldl_app by done. simpl.
  by rewrite (list_lookup_total_correct _ _ _ Hx).
Qed.
End array_lemmas.

(** ** Automation *)

Create HintDb guinsoo.
#[export] Hint Resolve wrapU_range wrapS_range : guinsoo.
#[export] Hint Rewrite @length_fill_range @length_scatter @length_insert
  @length_replicate @length_app @length_take @length_drop @length_fmap : lengths.

(** Rewrite list lengths and call [lia]. *)
Ltac len := autorewrite with lengths in *; try lia.

(** Turn the boolean comparisons of the code into propositions, everywhere. *)
Ltac bools :=
  repeat match goal with
  | H : context [Z.ltb ?x ?y] |- _ => destruct (Z.ltb_spec x y)
  | H : context [Z.leb ?x ?y] |- _ => destruct (Z.leb_spec x y)
  | H : context [Z.eqb ?x ?y] |- _ => destruct (Z.eqb_spec x y)
  | H : context [Nat.ltb ?x ?y] |- _ => destruct (Nat.ltb_spec x y)
  | H : context [Nat.leb ?x ?y] |- _ => destruct (Nat.leb_spec x y)
  | H : context [Nat.eqb ?x ?y] |- _ => destruct (Nat.eqb_spec x y)
  | |- context [Z.ltb ?x ?y] => destruct (Z.ltb_spec x y)
  | |- context [Z.leb ?x ?y] => destruct (Z.leb_spec x y)
  | |- context [Z.eqb ?x ?y] => destruct (Z.eqb_spec x y)
  | |- context [Nat.ltb ?x ?y] => destruct (Nat.ltb_spec x y)
  | |- context [Nat.leb ?x ?y] => destruct (Nat.leb_spec x y)
  | |- context [Nat.eqb ?x ?y] => destruct (Nat.eqb_spec x y)
  end; simpl in *.
