(* ===== verification/Constants.v ===== *)
(** * Constants and identifiers shared by the engine

    Models src/src/common/constants.cpp, the vector size of
    src/src/include/guinsoodb/common/vector_size.hpp and the record of
    src/src/include/guinsoodb/transaction/transaction.hpp that every
    visibility decision reads.  Theorems: the identifier ranges are disjoint,
    and [NextPowerOfTwo] is the least power of two that is at least its
    argument. *)

From S2P Require Import Prelude.

(** ** Identifiers ([transaction_t] is a [uint64_t]) *)

Definition TRANSACTION_ID_START : Z := 4611686018427388000.

Definition NOT_DELETED_ID : Z := (2 ^ 64 - 1) - 1.

Definition MAXIMUM_QUERY_ID : Z := 2 ^ 64 - 1.

Definition INVALID_INDEX : Z := u64 (-1).

(** [Z.to_nat] keeps the literal binary, so that [lia] sees the number. *)
Definition STANDARD_VECTOR_SIZE : nat := Z.to_nat 1024.

Definition MORSEL_VECTOR_COUNT : nat := Z.to_nat 100.

Definition MORSEL_SIZE : nat := (STANDARD_VECTOR_SIZE * MORSEL_VECTOR_COUNT)%nat.

(** The scalar members of [class Transaction].  The undo buffer and the
    transaction-local storage are separate components of the model. *)
Record Transaction : Set := mkTransaction {
  start_time : Z;
  transaction_id : Z;
  commit_id : Z;
  highest_active_query : Z;
  active_query : Z;
  catalog_version : Z;
  is_invalidated : bool;
}.

#[global] Instance Transaction_eq_dec : EqDecision Transaction.
Proof. solve_decision. Defined.

(** The constructor of [class Transaction]. *)
Definition Transaction_new (start_time transaction_id catalog_version : Z) : Transaction :=
  mkTransaction start_time transaction_id 0 0 MAXIMUM_QUERY_ID catalog_version false.

Definition Transaction_set_commit_id (t : Transaction) (c : Z) : Transaction :=
  mkTransaction (start_time t) (transaction_id t) c (highest_active_query t)
    (active_query t) (catalog_version t) (is_invalidated t).

Definition Transaction_set_highest_active_query (t : Transaction) (q : Z) : Transaction :=
  mkTransaction (start_time t) (transaction_id t) (commit_id t) q
    (active_query t) (catalog_version t) (is_invalidated t).

(** A snapshot: start times are below the identifiers of running transactions. *)
Definition snapshot (st tid : Z) : Prop :=
  0 <= st < TRANSACTION_ID_START - 1 ∧ TRANSACTION_ID_START <= tid.

(** ** [NextPowerOfTwo], on [uint64_t] *)

Definition NextPowerOfTwo (v : Z) : Z :=
  let v := u64 (v - 1) in
  let v := Z.lor v (Z.shiftr v 1) in
  let v := Z.lor v (Z.shiftr v 2) in
  let v := Z.lor v (Z.shiftr v 4) in
  let v := Z.lor v (Z.shiftr v 8) in
  let v := Z.lor v (Z.shiftr v 16) in
  let v := Z.lor v (Z.shiftr v 32) in
  u64 (v + 1).

(** ** Lemmas *)

Lemma STANDARD_VECTOR_SIZE_pos : (0 < STANDARD_VECTOR_SIZE)%nat.
Proof. unfold STANDARD_VECTOR_SIZE. lia. Qed.

Lemma MORSEL_SIZE_eq : MORSEL_SIZE = Z.to_nat 102400.
Proof. reflexivity. Qed.

Lemma id_ranges :
  0 < TRANSACTION_ID_START < NOT_DELETED_ID ∧ NOT_DELETED_ID < MAXIMUM_QUERY_ID.
Proof. unfold TRANSACTION_ID_START, NOT_DELETED_ID, MAXIMUM_QUERY_ID. lia. Qed.

#[export] Hint Resolve STANDARD_VECTOR_SIZE_pos id_ranges : guinsoo.

(** Or-ing in shifted copies spreads the top bits of a number downwards:
    bit [i] of the result is set when one of the bits [i .. i+2n-1] of the
    argument is.  [smear n x] says that bits [i .. i+n-1] were collected. *)
Definition smear (n x y : Z) : Prop :=
  ∀ i, 0 <= i → Z.testbit y i = true ↔ ∃ k, 0 <= k < n ∧ Z.testbit x (i + k) = true.

Lemma smear_1 x : smear 1 x x.
Proof.
  intros i Hi. split.
  - intros H. exists 0. split; [lia|]. by rewrite Z.add_0_r.
  - intros (k & Hk & H). replace k with 0 in H by lia. by rewrite Z.add_0_r in H.
Qed.

Lemma smear_step n x y : 0 < n → smear n x y → smear (2 * n) x (Z.lor y (Z.shiftr y n)).
Proof.
  intros Hn Hy i Hi. rewrite Z.lor_spec, Z.shiftr_spec, orb_true_iff by lia.
  rewrite (Hy i), (Hy (i + n)) by lia. split.
  - intros [(k & Hk & H)|(k & Hk & H)]; [exists k; split; [lia|done]|].
    exists (n + k). split; [lia|]. by rewrite Z.add_assoc.
  - intros (k & Hk & H). destruct (decide (k < n)); [left; exists k; split; [lia|done]|].
    right. exists (k - n). split; [lia|]. by replace (i + n + (k - n)) with (i + k) by lia.
Qed.

(** A full smear of a positive 64-bit number is a block of ones. *)
Lemma smear_ones x y :
  0 < x < 2 ^ 64 → 0 <= y → smear 64 x y → y = Z.ones (Z.log2 x + 1).
Proof.
  intros Hx Hy0 Hs. pose proof (Z.log2_nonneg x). apply Z.bits_inj'. intros i Hi.
  rewrite Z.testbit_ones_nonneg by lia.
  assert (Z.log2 x < 64) by (apply Z.log2_lt_pow2; lia).
  destruct (Z.ltb_spec i (Z.log2 x + 1)).
  - apply Hs; [done|]. exists (Z.log2 x - i). split; [lia|].
    replace (i + (Z.log2 x - i)) with (Z.log2 x) by lia. apply Z.bit_log2. lia.
  - apply not_true_iff_false. intros Hb. apply Hs in Hb as (k & Hk & Hb); [|done].
    rewrite Z.bits_above_log2 in Hb by lia. done.
Qed.

Lemma NextPowerOfTwo_ones v :
  2 <= v <= 2 ^ 64 → NextPowerOfTwo v = u64 (2 ^ (Z.log2 (v - 1) + 1)).
Proof.
  intros Hv. unfold NextPowerOfTwo.
  set (x := u64 (v - 1)).
  assert (x = v - 1) as Hx by (apply wrapU_small; unfold inU; lia).
  cbv zeta.
  set (y := Z.lor _ _).
  assert (smear 64 x y) as Hs.
  { pose proof (smear_step 1 x _ eq_refl (smear_1 x)) as H1.
    pose proof (smear_step 2 x _ eq_refl H1) as H2.
    pose proof (smear_step 4 x _ eq_refl H2) as H4.
    pose proof (smear_step 8 x _ eq_refl H4) as H8.
    pose proof (smear_step 16 x _ eq_refl H8) as H16.
    exact (smear_step 32 x _ eq_refl H16). }
  assert (0 <= y) as Hy.
  { subst y. repeat (rewrite Z.lor_nonneg || rewrite Z.shiftr_nonneg || split || lia). }
  rewrite (smear_ones x y) by (done || lia).
  rewrite Z.ones_equiv, Hx. f_equal. lia.
Qed.

(** [NextPowerOfTwo] returns the least power of two that is at least its
    argument; up to [2 ^ 63] the 64-bit arithmetic does not wrap around. *)
Theorem NextPowerOfTwo_spec v :
  1 <= v <= 2 ^ 63 →
  ∃ k, 0 <= k <= 63 ∧ NextPowerOfTwo v = 2 ^ k ∧ v <= 2 ^ k ∧ 2 ^ k < 2 * v.
Proof.
  intros Hv. destruct (decide (v = 1)) as [->|Hne].
  { exists 0. split_and!; try lia. by vm_compute. }
  rewrite NextPowerOfTwo_ones by lia.
  pose proof (Z.log2_spec (v - 1) ltac:(lia)) as [Hlo Hhi].
  pose proof (Z.log2_nonneg (v - 1)).
  assert (Z.log2 (v - 1) < 63) by (apply Z.log2_lt_pow2; lia).
  exists (Z.log2 (v - 1) + 1).
  assert (2 ^ (Z.log2 (v - 1) + 1) = 2 * 2 ^ Z.log2 (v - 1)) as Hp.
  { rewrite <-Z.pow_succ_r by lia. f_equal. }
  assert (2 ^ (Z.log2 (v - 1) + 1) <= 2 ^ 63) by (apply Z.pow_le_mono_r; lia).
  split_and!; try lia. rewrite wrapU_small; [done|]. unfold inU. lia.
Qed.

Lemma NextPowerOfTwo_spec_witness :
  ∃ k, 0 <= k <= 63 ∧ NextPowerOfTwo 1000 = 2 ^ k ∧ 1000 <= 2 ^ k ∧ 2 ^ k < 2 * 1000.
Proof. apply (NextPowerOfTwo_spec 1000). lia. Defined.
