(* ===== verification/Serializer.v ===== *)
(** * Binary serialization

    Models src/src/include/guinsoodb/common/serializer.hpp,
    src/src/common/serializer.cpp and the buffers of
    src/src/common/serializer/: the in-memory [BufferedSerializer] and
    [BufferedDeserializer], and the file-backed [BufferedFileWriter] and
    [BufferedFileReader].  The abstract classes of serializer.hpp are the type
    classes [Serializer] and [Deserializer], which state what a client may
    rely on (an append-only byte sequence, a read cursor on one); the four
    buffers are their instances.  Clients (chunk infos, the write-ahead log)
    are verified against the classes. *)

From S2P Require Import Prelude.

(** ** Memory: little-endian values and [memcpy] into an array *)

Fixpoint le_encode (n : nat) (z : Z) : list Z :=
  match n with
  | O => []
  | S n => (z mod 256) :: le_encode n (z / 256)
  end.

Fixpoint le_decode (bs : list Z) : Z :=
  match bs with
  | [] => 0
  | b :: bs => b + 256 * le_decode bs
  end.

(** [memcpy(data + off, buffer, size)] *)
Definition memcpy_at (off : nat) (buffer data : list Z) : list Z :=
  take off data ++ buffer ++ drop (off + length buffer) data.

(** ** The abstract classes *)

Class Serializer (S : Type) : Type := {
  ser_ok : S → Prop;
  WriteData : S → list Z → S;
  written : S → list Z;
  WriteData_ok s b : ser_ok s → ser_ok (WriteData s b);
  WriteData_written s b : ser_ok s → written (WriteData s b) = written s ++ b;
}.

Class Deserializer (D : Type) : Type := {
  des_ok : D → Prop;
  ReadData : D → nat → res (list Z * D);
  remaining : D → list Z;
  ReadData_enough d n :
    des_ok d → (n <= length (remaining d))%nat →
    ∃ d', ReadData d n = Ok (take n (remaining d), d') ∧
          des_ok d' ∧ remaining d' = drop n (remaining d);
  ReadData_short d n :
    des_ok d → (length (remaining d) < n)%nat → ∃ e, ReadData d n = Throw e;
}.

Section Writing.
Context {S : Type} `{!Serializer S}.

(** [template <class T> void Write(T element)], [n] being [sizeof(T)]. *)
Definition Write (n : nat) (s : S) (element : Z) : S := WriteData s (le_encode n element).

Definition WriteString (s : S) (val : list Z) : S :=
  let s := Write 4 s (Z.of_nat (length val)) in
  if (0 <? length val)%nat then WriteData s val else s.

Definition WriteStringVector (s : S) (list_ : list (list Z)) : S :=
  let s := Write 4 s (Z.of_nat (length list_)) in
  foldl WriteString s list_.

(** [Serialize] of the element is the argument [ser]. *)
Definition WriteList {T} (ser : S → T → S) (s : S) (list_ : list T) : S :=
  let s := Write 4 s (Z.of_nat (length list_)) in
  foldl ser s list_.

Definition WriteOptional {T} (ser : S → T → S) (s : S) (element : option T) : S :=
  let s := Write 1 s (if element then 1 else 0) in
  match element with Some e => ser s e | None => s end.
End Writing.

Section Reading.
Context {D : Type} `{!Deserializer D}.

(** [template <class T> T Read()], for an unsigned [T] of [n] bytes. *)
Definition Read (n : nat) (d : D) : res (Z * D) :=
  '(bs, d) ← ReadData d n; Ok (le_decode bs, d).

(** [template <class T> T Read()], for [int64_t]. *)
Definition ReadInt64 (d : D) : res (Z * D) :=
  '(z, d) ← Read 8 d; Ok (s64 z, d).

(** [template <> string Deserializer::Read()] *)
Definition ReadString (d : D) : res (list Z * D) :=
  '(size, d) ← Read 4 d;
  ReadData d (Z.to_nat size).

Fixpoint Read_times {T} (n : nat) (des : D → res (T * D)) (d : D) : res (list T * D) :=
  match n with
  | O => Ok ([], d)
  | Datatypes.S n =>
      '(x, d) ← des d;
      '(xs, d) ← Read_times n des d;
      Ok (x :: xs, d)
  end.

Definition ReadStringVector (d : D) : res (list (list Z) * D) :=
  '(sz, d) ← Read 4 d;
  Read_times (Z.to_nat sz) ReadString d.

Definition ReadList {T} (des : D → res (T * D)) (d : D) : res (list T * D) :=
  '(select_count, d) ← Read 4 d;
  Read_times (Z.to_nat select_count) des d.

Definition ReadOptional {T} (des : D → res (T * D)) (d : D) : res (option T * D) :=
  '(has_entry, d) ← Read 1 d;
  if has_entry =? 0 then Ok (None, d)
  else '(x, d) ← des d; Ok (Some x, d).
End Reading.

(** ** [BufferedSerializer]: a heap array that doubles when it is full *)

Record BufferedSerializer : Set := mkBufferedSerializer {
  bs_maximum_size : nat;
  bs_data : list Z;
  bs_size : nat;
}.

Definition BufferedSerializer_new (maximum_size : nat) : BufferedSerializer :=
  mkBufferedSerializer maximum_size (replicate maximum_size 0) 0.

(** [do { maximum_size *= 2; } while (need > maximum_size);] *)
Fixpoint grow (fuel maximum_size need : nat) : option nat :=
  let maximum_size := (maximum_size * 2)%nat in
  if (maximum_size <? need)%nat
  then match fuel with O => None | S fuel => grow fuel maximum_size need end
  else Some maximum_size.

Definition BufferedSerializer_WriteData (s : BufferedSerializer) (buffer : list Z)
    : BufferedSerializer :=
  let write_size := length buffer in
  let need := (bs_size s + write_size)%nat in
  let s :=
    if (bs_maximum_size s <=? need)%nat then
      match grow need (bs_maximum_size s) need with
      | Some m =>
          mkBufferedSerializer m
            (memcpy_at 0 (take (bs_size s) (bs_data s)) (replicate m 0)) (bs_size s)
      | None => s
      end
    else s in
  mkBufferedSerializer (bs_maximum_size s) (memcpy_at (bs_size s) buffer (bs_data s)) need.

(** ** [BufferedDeserializer]: [ptr] and [endptr] on one array *)

Record BufferedDeserializer : Set := mkBufferedDeserializer {
  bd_data : list Z;
  bd_ptr : nat;
  bd_endptr : nat;
}.

Definition BufferedDeserializer_new (data : list Z) : BufferedDeserializer :=
  mkBufferedDeserializer data 0 (length data).

Definition BufferedDeserializer_ReadData (d : BufferedDeserializer) (read_size : nat)
    : res (list Z * BufferedDeserializer) :=
  if (bd_endptr d <? bd_ptr d + read_size)%nat then
    Throw (SerializationException
             "Failed to deserialize: not enough data in buffer to fulfill read request")
  else
    Ok (take read_size (drop (bd_ptr d) (bd_data d)),
        mkBufferedDeserializer (bd_data d) (bd_ptr d + read_size) (bd_endptr d)).

(** ** [BufferedFileWriter]: a 4 KB buffer in front of a file opened for append *)

Definition FILE_BUFFER_SIZE : nat := Z.to_nat 4096.

Record BufferedFileWriter : Set := mkBufferedFileWriter {
  fw_file : list Z;
  fw_data : list Z;
  fw_offset : nat;
  fw_total_written : nat;
}.

Definition BufferedFileWriter_new (file : list Z) : BufferedFileWriter :=
  mkBufferedFileWriter file (replicate FILE_BUFFER_SIZE 0) 0 0.

Definition BufferedFileWriter_GetTotalWritten (w : BufferedFileWriter) : nat :=
  (fw_total_written w + fw_offset w)%nat.

Definition BufferedFileWriter_Flush (w : BufferedFileWriter) : BufferedFileWriter :=
  if (fw_offset w =? 0)%nat then w
  else mkBufferedFileWriter (fw_file w ++ take (fw_offset w) (fw_data w)) (fw_data w) 0
         (fw_total_written w + fw_offset w).

(** The body of the copy loop: append a piece that fits, flush a full buffer. *)
Definition BufferedFileWriter_WriteChunk (w : BufferedFileWriter) (piece : list Z)
    : BufferedFileWriter :=
  let w := mkBufferedFileWriter (fw_file w) (memcpy_at (fw_offset w) piece (fw_data w))
             (fw_offset w + length piece) (fw_total_written w) in
  if (fw_offset w =? FILE_BUFFER_SIZE)%nat then BufferedFileWriter_Flush w else w.

(** [to_write] of the copy loop. *)
Definition BufferedFileWriter_to_write (w : BufferedFileWriter) (buffer : list Z) : nat :=
  (length buffer `min` (FILE_BUFFER_SIZE - fw_offset w))%nat.

(** One round of the copy loop per call; [fuel] bounds the rounds. *)
Fixpoint BufferedFileWriter_WriteData_loop (fuel : nat) (w : BufferedFileWriter)
    (buffer : list Z) : BufferedFileWriter :=
  match fuel, buffer with
  | O, _ | _, [] => w
  | S fuel, _ :: _ =>
      BufferedFileWriter_WriteData_loop fuel
        (BufferedFileWriter_WriteChunk w (take (BufferedFileWriter_to_write w buffer) buffer))
        (drop (BufferedFileWriter_to_write w buffer) buffer)
  end.

Definition BufferedFileWriter_WriteData (w : BufferedFileWriter) (buffer : list Z)
    : BufferedFileWriter :=
  BufferedFileWriter_WriteData_loop (length buffer) w buffer.

Definition BufferedFileWriter_Truncate (w : BufferedFileWriter) (size : nat)
    : BufferedFileWriter :=
  mkBufferedFileWriter (take size (fw_file w)) (fw_data w) 0 (fw_total_written w).

(** ** [BufferedFileReader]: the same buffer in front of a file being read *)

Record BufferedFileReader : Set := mkBufferedFileReader {
  fr_file : list Z;
  fr_pos : nat;
  fr_data : list Z;
  fr_offset : nat;
  fr_read_data : nat;
  fr_total_read : nat;
}.

Definition BufferedFileReader_new (file : list Z) : BufferedFileReader :=
  mkBufferedFileReader file 0 (replicate FILE_BUFFER_SIZE 0) 0 0 0.

(** [fs.Read(handle, data, FILE_BUFFER_SIZE)]: the next bytes of the file. *)
Definition fs_Read (r : BufferedFileReader) : list Z :=
  take FILE_BUFFER_SIZE (drop (fr_pos r) (fr_file r)).

(** [to_read] of the copy loop; [need] is [end_ptr - target_buffer]. *)
Definition fr_to_read (r : BufferedFileReader) (need : nat) : nat :=
  (need `min` (fr_read_data r - fr_offset r))%nat.

(** The state after copying [k] buffered bytes. *)
Definition fr_advance (r : BufferedFileReader) (k : nat) : BufferedFileReader :=
  mkBufferedFileReader (fr_file r) (fr_pos r) (fr_data r) (fr_offset r + k)
    (fr_read_data r) (fr_total_read r).

(** The state after refilling an exhausted buffer. *)
Definition fr_refill (r : BufferedFileReader) : BufferedFileReader :=
  mkBufferedFileReader (fr_file r) (fr_pos r + length (fs_Read r))
    (memcpy_at 0 (fs_Read r) (fr_data r)) 0 (length (fs_Read r))
    (fr_total_read r + fr_read_data r).

(** [acc] is what was copied so far. *)
Fixpoint BufferedFileReader_ReadData_loop (fuel : nat) (r : BufferedFileReader)
    (need : nat) (acc : list Z) : res (list Z * BufferedFileReader) :=
  let to_read := fr_to_read r need in
  let acc := acc ++ take to_read (drop (fr_offset r) (fr_data r)) in
  let r := fr_advance r to_read in
  let need := (need - to_read)%nat in
  if (0 <? need)%nat then
    let r := fr_refill r in
    if (fr_read_data r =? 0)%nat then
      Throw (SerializationException "not enough data in file to deserialize result")
    else match fuel with
         | O => Throw (InternalException "out of fuel")
         | S fuel => BufferedFileReader_ReadData_loop fuel r need acc
         end
  else Ok (acc, r).

Definition BufferedFileReader_ReadData (r : BufferedFileReader) (read_size : nat)
    : res (list Z * BufferedFileReader) :=
  BufferedFileReader_ReadData_loop read_size r read_size [].

Definition BufferedFileReader_Finished (r : BufferedFileReader) : bool :=
  (fr_total_read r + fr_offset r =? length (fr_file r))%nat.

(** ** Lemmas: memory *)

Lemma FILE_BUFFER_SIZE_pos : (0 < FILE_BUFFER_SIZE)%nat.
Proof. unfold FILE_BUFFER_SIZE. lia. Qed.

#[global] Opaque FILE_BUFFER_SIZE.

Lemma length_le_encode n z : length (le_encode n z) = n.
Proof. revert z. induction n as [|n IH]; intros z; simpl; [done|]. by rewrite IH. Qed.

Lemma le_decode_encode n z : 0 <= z < 2 ^ (8 * Z.of_nat n) → le_decode (le_encode n z) = z.
Proof.
  revert z. induction n as [|n IH]; intros z Hz; cbn [le_encode le_decode].
  { simpl in Hz. lia. }
  rewrite IH.
  - pose proof (Z.div_mod z 256 ltac:(lia)). lia.
  - replace (8 * Z.of_nat (S n)) with (8 + 8 * Z.of_nat n) in Hz by lia.
    rewrite Z.pow_add_r in Hz by lia. change (2 ^ 8) with 256 in Hz.
    split; [apply Z.div_pos; lia|apply Z.div_lt_upper_bound; lia].
Qed.

Lemma le_encode_mod n z k : le_encode n (z + k * 2 ^ (8 * Z.of_nat n)) = le_encode n z.
Proof.
  revert z. induction n as [|n IH]; intros z; cbn [le_encode]; [done|].
  replace (8 * Z.of_nat (S n)) with (8 * Z.of_nat n + 8) by lia. rewrite Z.pow_add_r by lia.
  rewrite (Z.mul_assoc k). change (2 ^ 8) with 256. rewrite Z.mod_add, Z.div_add by lia. by rewrite IH.
Qed.

Lemma le_decode_encode_mod n z : le_decode (le_encode n z) = z mod 2 ^ (8 * Z.of_nat n).
Proof.
  assert (0 < 2 ^ (8 * Z.of_nat n)) by (apply Z.pow_pos_nonneg; lia).
  assert (le_encode n z = le_encode n (z mod 2 ^ (8 * Z.of_nat n))) as ->.
  { rewrite <-(le_encode_mod n (z mod 2 ^ (8 * Z.of_nat n)) (z / 2 ^ (8 * Z.of_nat n))). f_equal. pose proof (Z.div_mod z (2 ^ (8 * Z.of_nat n))). lia. }
  apply le_decode_encode. by apply Z.mod_pos_bound.
Qed.

Lemma s64_le_decode z : - 2 ^ 63 <= z < 2 ^ 63 → s64 (le_decode (le_encode 8 z)) = z.
Proof.
  intros Hz. assert (le_encode 8 z = le_encode 8 (u64 z)) as ->.
  { rewrite <-(le_encode_mod 8 (u64 z) (z / 2 ^ 64)). f_equal. unfold wrapU. pose proof (Z.div_mod z (2 ^ 64)). simpl. lia. }
  rewrite le_decode_encode by (apply (wrapU_range 64); lia).
  unfold wrapS, wrapU. rewrite Zplus_mod_idemp_l. apply (wrapS_small 64); [lia|]. split; simpl; lia.
Qed.

Lemma length_memcpy_at off buffer data :
  (off + length buffer <= length data)%nat → length (memcpy_at off buffer data) = length data.
Proof. intros. unfold memcpy_at. len. Qed.

Lemma take_memcpy_at off buffer data :
  (off <= length data)%nat →
  take (off + length buffer) (memcpy_at off buffer data) = take off data ++ buffer.
Proof.
  intros. unfold memcpy_at. rewrite app_assoc, take_app_le by len.
  apply take_ge. len.
Qed.

#[export] Hint Rewrite length_le_encode : lengths.

(** ** The four buffers implement the classes *)

Lemma grow_enough fuel m need :
  (0 < m)%nat → (need <= m * 2 ^ (S fuel))%nat →
  ∃ m', grow fuel m need = Some m' ∧ (m * 2 <= m')%nat ∧ (need <= m')%nat.
Proof.
  revert m. induction fuel as [|fuel IH]; intros m Hm Hneed; cbn [grow];
    destruct (Nat.ltb_spec (m * 2) need).
  - simpl in Hneed. lia.
  - eauto with lia.
  - destruct (IH (m * 2)%nat) as (m' & -> & ? & ?); [lia| |eauto with lia].
    rewrite (Nat.pow_succ_r' 2 (S fuel)) in Hneed. lia.
  - eauto with lia.
Qed.

Lemma pow2_gt n : (n < 2 ^ n)%nat.
Proof. apply Nat.pow_gt_lin_r. lia. Qed.

Definition BufferedSerializer_ok (s : BufferedSerializer) : Prop :=
  (0 < bs_maximum_size s)%nat ∧ length (bs_data s) = bs_maximum_size s ∧
  (bs_size s <= bs_maximum_size s)%nat.

(** The buffer is large enough for every write: nothing is stored past its end. *)
Lemma BufferedSerializer_WriteData_spec s b :
  BufferedSerializer_ok s →
  BufferedSerializer_ok (BufferedSerializer_WriteData s b) ∧
  take (bs_size (BufferedSerializer_WriteData s b))
       (bs_data (BufferedSerializer_WriteData s b)) = take (bs_size s) (bs_data s) ++ b.
Proof.
  intros (Hpos & Hlen & Hsz). unfold BufferedSerializer_WriteData.
  destruct (Nat.leb_spec (bs_maximum_size s) (bs_size s + length b)) as [Hle|Hgt].
  - destruct (grow_enough (bs_size s + length b) (bs_maximum_size s) (bs_size s + length b))
      as (m & -> & Hm1 & Hm2).
    { done. }
    { rewrite Nat.pow_succ_r'. pose proof (pow2_gt (bs_size s + length b)). nia. }
    cbn [bs_size bs_data bs_maximum_size].
    set (d := memcpy_at 0 _ _).
    assert (length d = m) as Hd.
    { subst d. rewrite length_memcpy_at; len. }
    assert (take (bs_size s) d = take (bs_size s) (bs_data s)) as Hpre.
    { pose proof (take_memcpy_at 0 (take (bs_size s) (bs_data s)) (replicate m 0)) as H.
      rewrite take_0, app_nil_l in H. rewrite Nat.add_0_l in H.
      rewrite length_take_le in H by lia. apply H. lia. }
    split.
    + split_and!; cbn; [lia| |lia]. rewrite length_memcpy_at; lia.
    + rewrite take_memcpy_at by lia. by rewrite Hpre.
  - cbn [bs_size bs_data bs_maximum_size]. split.
    + split_and!; cbn; [lia| |lia]. rewrite length_memcpy_at; lia.
    + rewrite take_memcpy_at by lia. done.
Qed.

#[export] Program Instance BufferedSerializer_Serializer : Serializer BufferedSerializer := {
  ser_ok := BufferedSerializer_ok;
  WriteData := BufferedSerializer_WriteData;
  written s := take (bs_size s) (bs_data s);
}.
Next Obligation. intros s b Hs. by apply BufferedSerializer_WriteData_spec. Qed.
Next Obligation. intros s b Hs. by apply BufferedSerializer_WriteData_spec. Qed.

Definition BufferedDeserializer_ok (d : BufferedDeserializer) : Prop :=
  (bd_ptr d <= bd_endptr d)%nat ∧ (bd_endptr d <= length (bd_data d))%nat.

#[export] Program Instance BufferedDeserializer_Deserializer : Deserializer BufferedDeserializer := {
  des_ok := BufferedDeserializer_ok;
  ReadData := BufferedDeserializer_ReadData;
  remaining d := drop (bd_ptr d) (take (bd_endptr d) (bd_data d));
}.
Next Obligation.
  intros [l p e] n [Hp He] Hn. simpl in *. unfold BufferedDeserializer_ReadData; simpl.
  rewrite length_drop, length_take_le in Hn by lia.
  destruct (Nat.ltb_spec e (p + n)); [lia|]. eexists. split; [|split].
  - do 2 f_equal. rewrite !skipn_firstn_comm, take_take. f_equal. lia.
  - split; simpl; lia.
  - simpl. by rewrite drop_drop.
Qed.
Next Obligation.
  intros [l p e] n [Hp He] Hn. simpl in *. unfold BufferedDeserializer_ReadData; simpl.
  rewrite length_drop, length_take_le in Hn by lia.
  destruct (Nat.ltb_spec e (p + n)); [eauto|lia].
Qed.

Definition BufferedFileWriter_ok (w : BufferedFileWriter) : Prop :=
  length (fw_data w) = FILE_BUFFER_SIZE ∧ (fw_offset w < FILE_BUFFER_SIZE)%nat.

Definition BufferedFileWriter_written (w : BufferedFileWriter) : list Z :=
  fw_file w ++ take (fw_offset w) (fw_data w).

Lemma BufferedFileWriter_Flush_written w :
  BufferedFileWriter_written (BufferedFileWriter_Flush w) = BufferedFileWriter_written w.
Proof.
  unfold BufferedFileWriter_Flush, BufferedFileWriter_written.
  destruct (Nat.eqb_spec (fw_offset w) 0) as [->|]; [done|]. simpl.
  by rewrite take_0, app_nil_r.
Qed.

Lemma BufferedFileWriter_WriteChunk_spec w piece :
  BufferedFileWriter_ok w → (fw_offset w + length piece <= FILE_BUFFER_SIZE)%nat →
  BufferedFileWriter_ok (BufferedFileWriter_WriteChunk w piece) ∧
  BufferedFileWriter_written (BufferedFileWriter_WriteChunk w piece) =
    BufferedFileWriter_written w ++ piece.
Proof.
  intros [Hlen Hoff] Hfit. unfold BufferedFileWriter_WriteChunk.
  set (w1 := mkBufferedFileWriter _ _ _ _).
  assert (length (fw_data w1) = FILE_BUFFER_SIZE) as Hlen1.
  { subst w1. cbn [fw_data]. rewrite length_memcpy_at; lia. }
  assert (fw_offset w1 = (fw_offset w + length piece)%nat) as Ho1 by done.
  assert (BufferedFileWriter_written w1 = BufferedFileWriter_written w ++ piece) as Hw1.
  { unfold BufferedFileWriter_written, w1. cbn [fw_file fw_data fw_offset].
    rewrite take_memcpy_at by lia. by rewrite app_assoc. }
  clearbody w1. destruct (Nat.eqb_spec (fw_offset w1) FILE_BUFFER_SIZE) as [He|Hne].
  - rewrite BufferedFileWriter_Flush_written. split; [|done].
    unfold BufferedFileWriter_Flush. pose proof FILE_BUFFER_SIZE_pos.
    destruct (Nat.eqb_spec (fw_offset w1) 0); [lia|]. by split.
  - split; [|done]. split; [done|lia].
Qed.

Lemma BufferedFileWriter_to_write_spec w x b :
  BufferedFileWriter_ok w →
  (0 < BufferedFileWriter_to_write w (x :: b) <= length (x :: b))%nat ∧
  (fw_offset w + BufferedFileWriter_to_write w (x :: b) <= FILE_BUFFER_SIZE)%nat.
Proof. intros [Hlen Hoff]. unfold BufferedFileWriter_to_write. cbn [length]. lia. Qed.

#[local] Opaque BufferedFileWriter_to_write.

Lemma BufferedFileWriter_WriteData_loop_nil fuel w :
  BufferedFileWriter_WriteData_loop fuel w [] = w.
Proof. by destruct fuel. Qed.

Lemma BufferedFileWriter_WriteData_loop_cons fuel w x b :
  BufferedFileWriter_WriteData_loop (S fuel) w (x :: b) =
    BufferedFileWriter_WriteData_loop fuel
      (BufferedFileWriter_WriteChunk w (take (BufferedFileWriter_to_write w (x :: b)) (x :: b)))
      (drop (BufferedFileWriter_to_write w (x :: b)) (x :: b)).
Proof. reflexivity. Qed.

Lemma BufferedFileWriter_WriteData_loop_spec fuel w b :
  (length b <= fuel)%nat → BufferedFileWriter_ok w →
  BufferedFileWriter_ok (BufferedFileWriter_WriteData_loop fuel w b) ∧
  BufferedFileWriter_written (BufferedFileWriter_WriteData_loop fuel w b) =
    BufferedFileWriter_written w ++ b.
Proof.
  revert w b. induction fuel as [|fuel IH]; intros w [|x b'] Hf Hok;
    try by rewrite BufferedFileWriter_WriteData_loop_nil, app_nil_r.
  { simpl in Hf. lia. }
  rewrite BufferedFileWriter_WriteData_loop_cons.
  pose proof (BufferedFileWriter_to_write_spec w x b' Hok) as [Htw Hfit].
  set (b := x :: b') in *. set (tw := BufferedFileWriter_to_write w b) in *. clearbody tw b.
  destruct (BufferedFileWriter_WriteChunk_spec w (take tw b)) as [Hok1 Hw1];
    [done|rewrite length_take; lia|].
  destruct (IH (BufferedFileWriter_WriteChunk w (take tw b)) (drop tw b))
    as [Hok2 Hw2]; [rewrite length_drop; lia|done|].
  split; [done|]. by rewrite Hw2, Hw1, <-app_assoc, take_drop.
Qed.

#[export] Program Instance BufferedFileWriter_Serializer : Serializer BufferedFileWriter := {
  ser_ok := BufferedFileWriter_ok;
  WriteData := BufferedFileWriter_WriteData;
  written := BufferedFileWriter_written;
}.
Next Obligation. intros w b Hw. by apply BufferedFileWriter_WriteData_loop_spec. Qed.
Next Obligation. intros w b Hw. by apply BufferedFileWriter_WriteData_loop_spec. Qed.

(** The buffer of the reader holds the [fr_read_data] bytes before [fr_pos]. *)
Definition BufferedFileReader_ok (r : BufferedFileReader) : Prop :=
  length (fr_data r) = FILE_BUFFER_SIZE ∧
  (fr_offset r <= fr_read_data r)%nat ∧ (fr_read_data r <= FILE_BUFFER_SIZE)%nat ∧
  (fr_total_read r + fr_read_data r = fr_pos r)%nat ∧ (fr_pos r <= length (fr_file r))%nat ∧
  take (fr_read_data r) (fr_data r) = take (fr_read_data r) (drop (fr_total_read r) (fr_file r)).

Definition BufferedFileReader_remaining (r : BufferedFileReader) : list Z :=
  drop (fr_total_read r + fr_offset r) (fr_file r).

Lemma BufferedFileReader_new_ok file : BufferedFileReader_ok (BufferedFileReader_new file).
Proof. unfold BufferedFileReader_ok. cbn -[FILE_BUFFER_SIZE]. rewrite length_replicate. split_and!; done || lia. Qed.

(** The unread bytes of the buffer are the next bytes of the file. *)
Lemma BufferedFileReader_buffered r k :
  BufferedFileReader_ok r → (fr_offset r + k <= fr_read_data r)%nat →
  take k (drop (fr_offset r) (fr_data r)) = take k (BufferedFileReader_remaining r).
Proof.
  intros (Hlen & Ho & Hr & Ht & Hp & Hbuf) Hk. unfold BufferedFileReader_remaining.
  apply (f_equal (λ l, take k (drop (fr_offset r) l))) in Hbuf.
  rewrite !skipn_firstn_comm, !take_take, drop_drop in Hbuf.
  rewrite !Nat.min_l in Hbuf by lia. done.
Qed.

Lemma fr_advance_ok r k :
  BufferedFileReader_ok r → (fr_offset r + k <= fr_read_data r)%nat →
  BufferedFileReader_ok (fr_advance r k) ∧
  BufferedFileReader_remaining (fr_advance r k) = drop k (BufferedFileReader_remaining r).
Proof.
  intros (Hlen & Ho & Hr & Ht & Hp & Hbuf) Hk. split; [split_and!; simpl; done || lia|].
  unfold BufferedFileReader_remaining; simpl. rewrite drop_drop. f_equal. lia.
Qed.

Lemma fr_refill_ok r :
  BufferedFileReader_ok r → fr_offset r = fr_read_data r →
  BufferedFileReader_ok (fr_refill r) ∧
  BufferedFileReader_remaining (fr_refill r) = BufferedFileReader_remaining r ∧
  length (fs_Read r) = (FILE_BUFFER_SIZE `min` length (BufferedFileReader_remaining r))%nat.
Proof.
  intros (Hlen & Ho & Hr & Ht & Hp & Hbuf) Heq.
  assert (length (fs_Read r) <= FILE_BUFFER_SIZE)%nat as Hg.
  { unfold fs_Read. rewrite length_take. lia. }
  unfold BufferedFileReader_remaining, BufferedFileReader_ok, fr_refill.
  cbn [fr_file fr_pos fr_data fr_offset fr_read_data fr_total_read].
  rewrite length_memcpy_at by lia. split_and!; try lia.
  - unfold fs_Read. rewrite length_take, length_drop. lia.
  - pose proof (take_memcpy_at 0 (fs_Read r) (fr_data r) ltac:(lia)) as H.
    rewrite Nat.add_0_l, take_0, app_nil_l in H. rewrite H, Ht.
    unfold fs_Read. by rewrite length_take, <-take_take, (take_ge (drop _ _) (length _)).
  - f_equal. lia.
  - unfold fs_Read. rewrite length_take, length_drop, length_drop. lia.
Qed.

(** One call of the copy loop, whatever the fuel: it returns what was asked
    for exactly when the file holds that much, and no fuel runs out. *)
Lemma BufferedFileReader_ReadData_loop_spec fuel r need acc :
  BufferedFileReader_ok r →
  (need <= fuel + (fr_read_data r - fr_offset r))%nat →
  if (need <=? length (BufferedFileReader_remaining r))%nat
  then ∃ r', BufferedFileReader_ReadData_loop fuel r need acc =
               Ok (acc ++ take need (BufferedFileReader_remaining r), r') ∧
             BufferedFileReader_ok r' ∧
             BufferedFileReader_remaining r' = drop need (BufferedFileReader_remaining r)
  else ∃ e, BufferedFileReader_ReadData_loop fuel r need acc = Throw e ∧
            e ≠ InternalException "out of fuel".
Proof.
  revert r need acc. induction fuel as [|fuel IH]; intros r need acc Hok Hfuel;
    pose proof (Nat.min_spec need (fr_read_data r - fr_offset r)) as Hmin;
    fold (fr_to_read r need) in Hmin; cbn [BufferedFileReader_ReadData_loop];
    generalize dependent (fr_to_read r need); intros k Hmin;
    pose proof Hok as (_ & Ho & _);
    destruct (fr_advance_ok r k Hok ltac:(lia)) as [Hok1 Hrem1];
    rewrite (BufferedFileReader_buffered r k) by (done || lia);
    assert (k <= length (BufferedFileReader_remaining r))%nat as Hk by
      (destruct Hok as (_ & _ & _ & ? & ? & _); unfold BufferedFileReader_remaining;
       rewrite length_drop; lia);
    (destruct (Nat.ltb_spec 0 (need - k)) as [Hlt|Hge];
     [|replace need with k by lia; destruct (Nat.leb_spec k (length (BufferedFileReader_remaining r)));
       [eauto|lia]]).
  { lia. }
  destruct (fr_refill_ok (fr_advance r k) Hok1) as (Hok2 & Hrem2 & Hlen).
  { simpl. lia. }
  pose proof FILE_BUFFER_SIZE_pos as Hpos.
  assert (fr_read_data (fr_refill (fr_advance r k)) =
    (FILE_BUFFER_SIZE `min` length (BufferedFileReader_remaining (fr_advance r k)))%nat) as Hrd by done.
  assert (fr_offset (fr_refill (fr_advance r k)) = 0%nat) as Ho2 by done.
  rewrite Hrem1, length_drop in Hrd. rewrite Hrem1 in Hrem2.
  destruct (Nat.eqb_spec (fr_read_data (fr_refill (fr_advance r k))) 0) as [Hz|Hnz].
  { destruct (Nat.leb_spec need (length (BufferedFileReader_remaining r))); [lia|eauto]. }
  specialize (IH (fr_refill (fr_advance r k)) (need - k)%nat
                (acc ++ take k (BufferedFileReader_remaining r)) Hok2 ltac:(lia)).
  rewrite Hrem2, length_drop in IH.
  destruct (Nat.leb_spec (need - k) (length (BufferedFileReader_remaining r) - k)),
    (Nat.leb_spec need (length (BufferedFileReader_remaining r))); try lia; [|done].
  destruct IH as (r' & -> & Hok' & Hrem'). exists r'. split; [|split; [done|]].
  - rewrite <-app_assoc. do 3 f_equal. rewrite <-(take_drop k (take need _)).
    rewrite take_take, Nat.min_l by lia. by rewrite skipn_firstn_comm.
  - rewrite Hrem', drop_drop. f_equal. lia.
Qed.

#[export] Program Instance BufferedFileReader_Deserializer : Deserializer BufferedFileReader := {
  des_ok := BufferedFileReader_ok;
  ReadData := BufferedFileReader_ReadData;
  remaining := BufferedFileReader_remaining;
}.
Next Obligation.
  intros r n Hok Hn.
  pose proof (BufferedFileReader_ReadData_loop_spec n r n [] Hok ltac:(lia)) as H.
  by rewrite (proj2 (Nat.leb_le _ _) Hn) in H.
Qed.
Next Obligation.
  intros r n Hok Hn.
  pose proof (BufferedFileReader_ReadData_loop_spec n r n [] Hok ltac:(lia)) as H.
  rewrite (proj2 (Nat.leb_gt _ _) Hn) in H. destruct H as (e & He & _). eauto.
Qed.

(** ** Codecs: what a writer emits, what a reader accepts *)

Definition encodes {S} `{!Serializer S} (f : S → S) (bytes : list Z) : Prop :=
  ∀ s, ser_ok s → ser_ok (f s) ∧ written (f s) = written s ++ bytes.

Definition decodes {D} `{!Deserializer D} {T} (f : D → res (T * D)) (bytes : list Z) (v : T) : Prop :=
  ∀ d rest, des_ok d → remaining d = bytes ++ rest →
    ∃ d', f d = Ok (v, d') ∧ des_ok d' ∧ remaining d' = rest.

Definition string_bytes (val : list Z) : list Z := le_encode 4 (Z.of_nat (length val)) ++ val.

(** A length that fits the [uint32_t] prefix. *)
Definition short {A} (l : list A) : Prop := Z.of_nat (length l) < 2 ^ 32.

Section codec_lemmas.
Context {S : Type} `{!Serializer S} {D : Type} `{!Deserializer D}.

Lemma encodes_WriteData b : encodes (λ s : S, WriteData s b) b.
Proof. intros s Hs. split; [by apply WriteData_ok|by apply WriteData_written]. Qed.

Lemma encodes_seq (f g : S → S) b1 b2 :
  encodes f b1 → encodes g b2 → encodes (λ s, g (f s)) (b1 ++ b2).
Proof.
  intros Hf Hg s Hs. destruct (Hf s Hs) as [Hs1 Hw1]. destruct (Hg _ Hs1) as [Hs2 Hw2].
  split; [done|]. by rewrite Hw2, Hw1, app_assoc.
Qed.

Lemma encodes_foldl {T} (ser : S → T → S) (bytes_of : T → list Z) (l : list T) :
  (∀ x, encodes (λ s, ser s x) (bytes_of x)) → encodes (λ s, foldl ser s l) (l ≫= bytes_of).
Proof.
  intros Hser. induction l as [|x l IH]; cbn [foldl].
  - intros s Hs. by rewrite app_nil_r.
  - apply (encodes_seq (λ s, ser s x) (λ s, foldl ser s l)); [apply Hser|apply IH].
Qed.

Lemma encodes_WriteString v : encodes (λ s : S, WriteString s v) (string_bytes v).
Proof.
  unfold WriteString, string_bytes. destruct (Nat.ltb_spec 0 (length v)).
  - apply (encodes_seq (λ s, Write 4 s _) (λ s, WriteData s v)); apply encodes_WriteData.
  - destruct v; [|simpl in *; lia]. rewrite app_nil_r. apply encodes_WriteData.
Qed.

Lemma encodes_WriteStringVector l :
  encodes (λ s : S, WriteStringVector s l)
    (le_encode 4 (Z.of_nat (length l)) ++ (l ≫= string_bytes)).
Proof.
  apply (encodes_seq (λ s, Write 4 s _) (λ s, foldl WriteString s l));
    [apply encodes_WriteData|]. apply encodes_foldl, encodes_WriteString.
Qed.

Lemma decodes_ReadData b : decodes (λ d : D, ReadData d (length b)) b b.
Proof.
  intros d rest Hd Hrem. destruct (ReadData_enough d (length b) Hd) as (d' & Hr & Hd' & Hrem').
  { rewrite Hrem. len. }
  exists d'. rewrite Hr, Hrem', Hrem, take_app_length, drop_app_length. done.
Qed.

Lemma decodes_Read n z :
  0 <= z < 2 ^ (8 * Z.of_nat n) → decodes (λ d : D, Read n d) (le_encode n z) z.
Proof.
  intros Hz d rest Hd Hrem. unfold Read.
  destruct (decodes_ReadData (le_encode n z) d rest Hd Hrem) as (d' & Hr & Hd' & Hrem').
  rewrite length_le_encode in Hr. exists d'. cbn. rewrite Hr. cbn.
  by rewrite le_decode_encode.
Qed.

Lemma decodes_ReadInt64 z : - 2 ^ 63 <= z < 2 ^ 63 → decodes (λ d : D, ReadInt64 d) (le_encode 8 z) z.
Proof.
  intros Hz d rest Hd Hrem. destruct (decodes_ReadData (le_encode 8 z) d rest Hd Hrem) as (d' & Hr & Hd' & Hrem').
  rewrite length_le_encode in Hr. exists d'. unfold ReadInt64, Read. rewrite Hr. cbn [mbind res_bind]. by rewrite s64_le_decode.
Qed.

Lemma decodes_bind {T U} (f : D → res (T * D)) (g : T → D → res (U * D)) b1 b2 v u :
  decodes f b1 v → decodes (g v) b2 u →
  decodes (λ d, '(x, d) ← f d; g x d) (b1 ++ b2) u.
Proof.
  intros Hf Hg d rest Hd Hrem. rewrite <-app_assoc in Hrem.
  destruct (Hf d _ Hd Hrem) as (d1 & Hr1 & Hd1 & Hrem1).
  destruct (Hg d1 _ Hd1 Hrem1) as (d2 & Hr2 & Hd2 & Hrem2).
  exists d2. cbn. by rewrite Hr1.
Qed.

Lemma decodes_ret {T} (v : T) : decodes (λ d : D, Ok (v, d)) [] v.
Proof. intros d rest Hd Hrem. by exists d. Qed.

Lemma decodes_times {T} (des : D → res (T * D)) (bytes_of : T → list Z) (l : list T) :
  Forall (λ x, decodes des (bytes_of x) x) l →
  decodes (Read_times (length l) des) (l ≫= bytes_of) l.
Proof.
  induction 1 as [|x l Hx Hl IH]; cbn [Read_times length]; [apply decodes_ret|].
  rewrite bind_cons. apply decodes_bind with x; [done|].
  rewrite <-(app_nil_r (l ≫= bytes_of)).
  apply decodes_bind with l; [done|]. apply decodes_ret.
Qed.

Lemma decodes_ReadString v : short v → decodes (λ d : D, ReadString d) (string_bytes v) v.
Proof.
  intros Hv. apply decodes_bind with (Z.of_nat (length v)).
  - apply decodes_Read. split; [lia|exact Hv].
  - rewrite Nat2Z.id. apply decodes_ReadData.
Qed.

Lemma decodes_ReadStringVector l :
  short l → Forall short l →
  decodes (λ d : D, ReadStringVector d)
    (le_encode 4 (Z.of_nat (length l)) ++ (l ≫= string_bytes)) l.
Proof.
  intros Hl Hs. apply decodes_bind with (Z.of_nat (length l)).
  - apply decodes_Read. split; [lia|exact Hl].
  - rewrite Nat2Z.id. apply decodes_times. eapply Forall_impl; [exact Hs|].
    intros v. apply decodes_ReadString.
Qed.
End codec_lemmas.

(** whatever vector of strings is written through any [Serializer] can be
    read back by any [Deserializer] positioned at those bytes, which is left
    at what follows them. *)
Theorem string_vector_roundtrip {S D} `{!Serializer S, !Deserializer D}
    (l : list (list Z)) (s : S) (d : D) (before rest : list Z) :
  short l → Forall short l → ser_ok s → written s = before → des_ok d →
  written (WriteStringVector s l) ++ rest = before ++ remaining d →
  ∃ d', ReadStringVector d = Ok (l, d') ∧ remaining d' = rest.
Proof.
  intros Hl Hs Hok Hbefore Hd Heq.
  destruct (encodes_WriteStringVector l s Hok) as [_ Hw].
  rewrite Hw, Hbefore, <-app_assoc in Heq. apply app_inv_head in Heq.
  destruct (decodes_ReadStringVector l Hl Hs d rest Hd) as (d' & Hr & _ & Hrem); [done|].
  by exists d'.
Qed.

(** a vector of strings written to a file through the 4 KB buffer of
    [BufferedFileWriter] and flushed is read back by [BufferedFileReader],
    which then reports the end of the file. *)
Theorem file_roundtrip (l : list (list Z)) :
  short l → Forall short l →
  ∃ r, ReadStringVector (BufferedFileReader_new
          (fw_file (BufferedFileWriter_Flush (WriteStringVector (BufferedFileWriter_new []) l))))
       = Ok (l, r) ∧ BufferedFileReader_Finished r = true.
Proof.
  intros Hl Hs. set (w0 := BufferedFileWriter_new []).
  assert (ser_ok w0) as Hw0.
  { split; [apply length_replicate|apply FILE_BUFFER_SIZE_pos]. }
  destruct (encodes_WriteStringVector l w0 Hw0) as [_ Hw].
  set (w := WriteStringVector w0 l) in *.
  assert (fw_file (BufferedFileWriter_Flush w) = written w) as Hfile.
  { cbn. unfold BufferedFileWriter_Flush, BufferedFileWriter_written.
    destruct (Nat.eqb_spec (fw_offset w) 0) as [->|]; [by rewrite take_0, app_nil_r|done]. }
  rewrite Hfile, Hw. set (file := _ ++ _).
  destruct (decodes_ReadStringVector l Hl Hs (BufferedFileReader_new file) [])
    as (r & Hr & (_ & ? & _ & ? & ? & _) & Hrem).
  { apply BufferedFileReader_new_ok. }
  { by rewrite app_nil_r. }
  exists r. split; [done|]. unfold BufferedFileReader_Finished. apply Nat.eqb_eq.
  apply (f_equal length) in Hrem. cbn in Hrem. unfold BufferedFileReader_remaining in Hrem.
  rewrite length_drop in Hrem. lia.
Qed.

Lemma file_roundtrip_witness :
  short [[104; 105]; []; [0; 255]] ∧
  ∃ r, ReadStringVector (BufferedFileReader_new
          (fw_file (BufferedFileWriter_Flush
             (WriteStringVector (BufferedFileWriter_new []) [[104; 105]; []; [0; 255]]))))
       = Ok ([[104; 105]; []; [0; 255]], r) ∧ BufferedFileReader_Finished r = true.
Proof.
  split; [reflexivity|]. apply (file_roundtrip [[104; 105]; []; [0; 255]]); [reflexivity|].
  repeat constructor.
Defined.

Lemma string_vector_roundtrip_witness :
  ∃ d', ReadStringVector (BufferedDeserializer_new
           (written (WriteStringVector (BufferedSerializer_new 4) [[7; 8; 9]]) ++ [42]))
        = Ok ([[7; 8; 9]], d') ∧ remaining d' = [42].
Proof.
  apply (string_vector_roundtrip [[7; 8; 9]] (BufferedSerializer_new 4)
           (BufferedDeserializer_new
              (written (WriteStringVector (BufferedSerializer_new 4) [[7; 8; 9]]) ++ [42])) [] [42]).
  - reflexivity.
  - repeat constructor.
  - vm_compute. split_and!; [lia|done|lia].
  - reflexivity.
  - vm_compute. split; lia.
  - vm_compute. reflexivity.
Defined.
