(* ===== verification/ChunkInfo.v ===== *)
(** * Version information of a vector of rows

    Models src/src/storage/table/chunk_info.cpp: which transaction inserted
    and which deleted each of the (at most) [STANDARD_VECTOR_SIZE] rows of a
    vector.  [ChunkConstantInfo] gives one answer for all rows,
    [ChunkVectorInfo] one per row with two shortcuts ([same_inserted_id],
    [any_deleted]) that [GetSelVector] exploits.

    Theorems: the shortcuts are sound (the selection vector is exactly the
    rows the per-row [Fetch] accepts), every operation keeps the shortcut
    invariant, [Delete] fails exactly on a conflict, and what is written by
    [Serialize] is read back with the committed visibility. *)

From S2P Require Import Prelude Constants Serializer.

(** ** Visibility *)

Definition UseVersion (start_time transaction_id id : Z) : bool :=
  (id <? start_time) || (id =? transaction_id).

(** The overload on a [Transaction]. *)
Definition UseVersion_txn (transaction : Transaction) (id : Z) : bool :=
  UseVersion (start_time transaction) (transaction_id transaction) id.

(** ** [ChunkConstantInfo] *)

Record ChunkConstantInfo : Set := mkChunkConstantInfo {
  cc_start : nat;
  cc_insert_id : Z;
  cc_delete_id : Z;
}.

Definition ChunkConstantInfo_new (start : nat) : ChunkConstantInfo :=
  mkChunkConstantInfo start 0 NOT_DELETED_ID.

(** Returns the count; the selection vector is passed through. *)
Definition ChunkConstantInfo_GetSelVector (c : ChunkConstantInfo) (transaction : Transaction)
    (sel_vector : list nat) (max_count : nat) : nat * list nat :=
  if UseVersion_txn transaction (cc_insert_id c) &&
     negb (UseVersion_txn transaction (cc_delete_id c))
  then (max_count, sel_vector) else (0%nat, sel_vector).

Definition ChunkConstantInfo_Fetch (c : ChunkConstantInfo) (transaction : Transaction)
    (row : nat) : bool :=
  UseVersion_txn transaction (cc_insert_id c) &&
  negb (UseVersion_txn transaction (cc_delete_id c)).

Definition ChunkConstantInfo_CommitAppend (c : ChunkConstantInfo) (commit_id : Z)
    (start end_ : nat) : ChunkConstantInfo :=
  mkChunkConstantInfo (cc_start c) commit_id (cc_delete_id c).

(** ** [ChunkVectorInfo] *)

Record ChunkVectorInfo : Set := mkChunkVectorInfo {
  cv_start : nat;
  inserted : list Z;
  insert_id : Z;
  same_inserted_id : bool;
  deleted : list Z;
  any_deleted : bool;
}.

Definition ChunkVectorInfo_new (start : nat) : ChunkVectorInfo :=
  mkChunkVectorInfo start (replicate STANDARD_VECTOR_SIZE 0) 0 true
    (replicate STANDARD_VECTOR_SIZE NOT_DELETED_ID) false.

(** [if (keep(i)) sel_vector.set_index(count++, i)], for every [i < max_count]. *)
Definition select_loop (keep : nat → bool) (max_count : nat) (sel_vector : list nat)
    : nat * list nat :=
  for_ 0 max_count
    (λ i '(count, sel), if keep i then (S count, <[count := i]> sel) else (count, sel))
    (0%nat, sel_vector).

Definition ChunkVectorInfo_GetSelVector (v : ChunkVectorInfo) (start_time transaction_id : Z)
    (sel_vector : list nat) (max_count : nat) : nat * list nat :=
  if same_inserted_id v && negb (any_deleted v) then
    if UseVersion start_time transaction_id (insert_id v)
    then (max_count, sel_vector) else (0%nat, sel_vector)
  else if same_inserted_id v then
    if negb (UseVersion start_time transaction_id (insert_id v)) then (0%nat, sel_vector)
    else select_loop (λ i, negb (UseVersion start_time transaction_id (deleted v !!! i)))
           max_count sel_vector
  else if negb (any_deleted v) then
    select_loop (λ i, UseVersion start_time transaction_id (inserted v !!! i))
      max_count sel_vector
  else
    select_loop (λ i, UseVersion start_time transaction_id (inserted v !!! i) &&
                      negb (UseVersion start_time transaction_id (deleted v !!! i)))
      max_count sel_vector.

Definition ChunkVectorInfo_Fetch (v : ChunkVectorInfo) (transaction : Transaction)
    (row : nat) : bool :=
  UseVersion_txn transaction (inserted v !!! row) &&
  negb (UseVersion_txn transaction (deleted v !!! row)).

(** The conflict check of [Delete]: the first exception in row order. *)
Fixpoint check_delete (v : ChunkVectorInfo) (rows : list nat) : option exception :=
  match rows with
  | [] => None
  | r :: rows =>
      if negb (deleted v !!! r =? NOT_DELETED_ID) then
        Some (TransactionException "Conflict on tuple deletion!")
      else if TRANSACTION_ID_START <=? inserted v !!! r then
        Some (TransactionException "Deleting non-committed tuples is not supported (for now...)")
      else check_delete v rows
  end.

Definition ChunkVectorInfo_Delete (v : ChunkVectorInfo) (transaction : Transaction)
    (rows : list nat) : out ChunkVectorInfo unit :=
  let v := mkChunkVectorInfo (cv_start v) (inserted v) (insert_id v) (same_inserted_id v)
             (deleted v) true in
  match check_delete v rows with
  | Some e => Raise v e
  | None =>
      Ret (mkChunkVectorInfo (cv_start v) (inserted v) (insert_id v) (same_inserted_id v)
             (scatter rows (transaction_id transaction) (deleted v)) (any_deleted v)) tt
  end.

Definition ChunkVectorInfo_CommitDelete (v : ChunkVectorInfo) (commit_id : Z)
    (rows : list nat) : ChunkVectorInfo :=
  mkChunkVectorInfo (cv_start v) (inserted v) (insert_id v) (same_inserted_id v)
    (scatter rows commit_id (deleted v)) (any_deleted v).

Definition ChunkVectorInfo_Append (v : ChunkVectorInfo) (start end_ : nat) (commit_id : Z)
    : ChunkVectorInfo :=
  let '(iid, same) :=
    if (start =? 0)%nat then (commit_id, same_inserted_id v)
    else if negb (insert_id v =? commit_id) then (NOT_DELETED_ID, false)
    else (insert_id v, same_inserted_id v) in
  mkChunkVectorInfo (cv_start v) (fill_range start end_ commit_id (inserted v)) iid same
    (deleted v) (any_deleted v).

Definition ChunkVectorInfo_CommitAppend (v : ChunkVectorInfo) (commit_id : Z)
    (start end_ : nat) : ChunkVectorInfo :=
  mkChunkVectorInfo (cv_start v) (fill_range start end_ commit_id (inserted v))
    (if same_inserted_id v then commit_id else insert_id v) (same_inserted_id v)
    (deleted v) (any_deleted v).

(** ** [ChunkInfo]: the two cases, and the virtual methods *)

Inductive ChunkInfo : Set :=
| ConstantInfo (c : ChunkConstantInfo)
| VectorInfo (v : ChunkVectorInfo).

Definition ChunkInfo_GetSelVector (info : ChunkInfo) (transaction : Transaction)
    (sel_vector : list nat) (max_count : nat) : nat * list nat :=
  match info with
  | ConstantInfo c => ChunkConstantInfo_GetSelVector c transaction sel_vector max_count
  | VectorInfo v =>
      ChunkVectorInfo_GetSelVector v (start_time transaction) (transaction_id transaction)
        sel_vector max_count
  end.

Definition ChunkInfo_Fetch (info : ChunkInfo) (transaction : Transaction) (row : nat) : bool :=
  match info with
  | ConstantInfo c => ChunkConstantInfo_Fetch c transaction row
  | VectorInfo v => ChunkVectorInfo_Fetch v transaction row
  end.

Definition ChunkInfo_CommitAppend (info : ChunkInfo) (commit_id : Z) (start end_ : nat)
    : ChunkInfo :=
  match info with
  | ConstantInfo c => ConstantInfo (ChunkConstantInfo_CommitAppend c commit_id start end_)
  | VectorInfo v => VectorInfo (ChunkVectorInfo_CommitAppend v commit_id start end_)
  end.

(** ** Serialization.  [enum class ChunkInfoType : uint8_t], by its values. *)

Definition CONSTANT_INFO : Z := 0.
Definition VECTOR_INFO : Z := 1.
Definition EMPTY_INFO : Z := 2.

Section Serialize.
Context {S : Type} `{!Serializer S}.

Definition ChunkConstantInfo_Serialize (c : ChunkConstantInfo) (serializer : S) : S :=
  let is_deleted := (TRANSACTION_ID_START <=? cc_insert_id c) ||
                    (cc_delete_id c <? TRANSACTION_ID_START) in
  if negb is_deleted then Write 1 serializer EMPTY_INFO
  else
    let serializer := Write 1 serializer CONSTANT_INFO in
    Write 8 serializer (Z.of_nat (cc_start c)).

(** [deleted_tuples[sel.get_index(i)] = false] for the selected rows. *)
Definition deleted_tuples (count : nat) (sel : list nat) : list bool :=
  for_ 0 count (λ i d, <[sel !!! i := false]> d) (replicate STANDARD_VECTOR_SIZE true).

Definition bool_byte (b : bool) : Z := if b then 1 else 0.

Definition ChunkVectorInfo_Serialize (v : ChunkVectorInfo) (serializer : S) : S :=
  let '(count, sel) :=
    ChunkVectorInfo_GetSelVector v (TRANSACTION_ID_START - 1) INVALID_INDEX
      (replicate STANDARD_VECTOR_SIZE 0%nat) STANDARD_VECTOR_SIZE in
  if (count =? STANDARD_VECTOR_SIZE)%nat then Write 1 serializer EMPTY_INFO
  else if (count =? 0)%nat then
    let serializer := Write 1 serializer CONSTANT_INFO in
    Write 8 serializer (Z.of_nat (cv_start v))
  else
    let serializer := Write 1 serializer VECTOR_INFO in
    let serializer := Write 8 serializer (Z.of_nat (cv_start v)) in
    WriteData serializer (bool_byte <$> deleted_tuples count sel).

Definition ChunkInfo_Serialize (info : ChunkInfo) (serializer : S) : S :=
  match info with
  | ConstantInfo c => ChunkConstantInfo_Serialize c serializer
  | VectorInfo v => ChunkVectorInfo_Serialize v serializer
  end.
End Serialize.

Section Deserialize.
Context {D : Type} `{!Deserializer D}.

Definition ChunkConstantInfo_Deserialize (source : D) : res (ChunkInfo * D) :=
  '(start, source) ← Read 8 source;
  Ok (ConstantInfo (mkChunkConstantInfo (Z.to_nat start) 0 0), source).

Definition ChunkVectorInfo_Deserialize (source : D) : res (ChunkInfo * D) :=
  '(start, source) ← Read 8 source;
  let result := ChunkVectorInfo_new (Z.to_nat start) in
  '(bytes, source) ← ReadData source STANDARD_VECTOR_SIZE;
  let del := for_ 0 STANDARD_VECTOR_SIZE
               (λ i d, if negb (bytes !!! i =? 0) then <[i := 0]> d else d) (deleted result) in
  Ok (VectorInfo (mkChunkVectorInfo (cv_start result) (inserted result) (insert_id result)
                    (same_inserted_id result) del true), source).

(** [None] is the [nullptr] returned for [EMPTY_INFO]. *)
Definition ChunkInfo_Deserialize (source : D) : res (option ChunkInfo * D) :=
  '(type, source) ← Read 1 source;
  if type =? EMPTY_INFO then Ok (None, source)
  else if type =? CONSTANT_INFO then
    '(info, source) ← ChunkConstantInfo_Deserialize source; Ok (Some info, source)
  else if type =? VECTOR_INFO then
    '(info, source) ← ChunkVectorInfo_Deserialize source; Ok (Some info, source)
  else Throw (SerializationException
                "Could not deserialize Chunk Info Type: unrecognized type").
End Deserialize.

(** ** Specification

    The rows a scan reads after [GetSelVector], following the comment in
    chunk_info.hpp: all of them when the count is [max_count], the entries of
    the selection vector otherwise. *)
Definition sel_rows (max_count : nat) (r : nat * list nat) : list nat :=
  if (r.1 =? max_count)%nat then seq 0 max_count else take r.1 r.2.

(** Row [i] is visible at snapshot ([st], [tid]). *)
Definition visible (st tid : Z) (v : ChunkVectorInfo) (i : nat) : bool :=
  UseVersion st tid (inserted v !!! i) && negb (UseVersion st tid (deleted v !!! i)).

(** A snapshot that does not see [NOT_DELETED_ID] as a deletion. *)
Definition snapshot_ok (st tid : Z) : Prop := st <= NOT_DELETED_ID ∧ tid ≠ NOT_DELETED_ID.

(** The invariant of a vector of which the first [n] rows were appended. *)
Record ChunkVectorInfo_ok (v : ChunkVectorInfo) (n : nat) : Prop := {
  cv_inserted_len : length (inserted v) = STANDARD_VECTOR_SIZE;
  cv_deleted_len : length (deleted v) = STANDARD_VECTOR_SIZE;
  cv_count : (n <= STANDARD_VECTOR_SIZE)%nat;
  cv_same : same_inserted_id v = true → ∀ i, (i < n)%nat → inserted v !!! i = insert_id v;
  cv_none : any_deleted v = false →
            ∀ i, (i < STANDARD_VECTOR_SIZE)%nat → deleted v !!! i = NOT_DELETED_ID;
}.

(** ** Lemmas *)

#[global] Opaque STANDARD_VECTOR_SIZE.

Lemma UseVersion_true st tid id : UseVersion st tid id = true ↔ id < st ∨ id = tid.
Proof. unfold UseVersion. rewrite orb_true_iff, Z.ltb_lt, Z.eqb_eq. done. Qed.

Lemma UseVersion_false st tid id : UseVersion st tid id = false ↔ st <= id ∧ id ≠ tid.
Proof. unfold UseVersion. rewrite orb_false_iff, Z.ltb_ge, Z.eqb_neq. done. Qed.

Lemma UseVersion_not_deleted st tid :
  snapshot_ok st tid → UseVersion st tid NOT_DELETED_ID = false.
Proof. intros [? ?]. apply UseVersion_false. split; [lia|done]. Qed.

Lemma lookup_total_scatter rows x (l : list Z) i :
  (i < length l)%nat →
  scatter rows x l !!! i = if decide (i ∈ rows) then x else l !!! i.
Proof.
  intros Hi. rewrite !list_lookup_total_alt, scatter_lookup by done. by case_decide.
Qed.

Lemma lookup_total_fill_range a b x (l : list Z) i :
  (i < length l)%nat →
  fill_range a b x l !!! i = if decide (a <= i < b)%nat then x else l !!! i.
Proof.
  intros Hi. rewrite !list_lookup_total_alt, fill_range_lookup by done. by case_decide.
Qed.

(** The selection loop collects the accepted indexes in order. *)
Lemma select_loop_spec keep m sel :
  (m <= length sel)%nat →
  let r := select_loop keep m sel in
  r.1 = length (List.filter keep (seq 0 m)) ∧ take r.1 r.2 = List.filter keep (seq 0 m) ∧
  length r.2 = length sel.
Proof.
  intros Hm.
  set (P := λ (i : nat) (r : nat * list nat),
    r.1 = length (List.filter keep (seq 0 i)) ∧ take r.1 r.2 = List.filter keep (seq 0 i) ∧
    length r.2 = length sel).
  apply (for_ind P); [lia|done|]. intros i [c s] Hi (Hc & Ht & Hl). simpl in *.
  assert (c <= i)%nat as Hci.
  { rewrite Hc. etransitivity; [apply filter_length_le|]. by rewrite length_seq. }
  unfold P. rewrite seq_S, List.filter_app. simpl. destruct (keep i); simpl.
  - rewrite length_app, length_insert. simpl. split_and!; [lia| |done].
    rewrite <-Ht, (take_S_r _ _ i) by (apply list_lookup_insert_eq; lia).
    by rewrite take_insert_ge.
  - by rewrite app_nil_r.
Qed.

Lemma filter_all {A} (f : A → bool) (l : list A) :
  (∀ x, x ∈ l → f x = true) → List.filter f l = l.
Proof.
  induction l as [|x l IH]; intros H; simpl; [done|].
  rewrite H by left. f_equal. apply IH. intros y Hy. apply H. by right.
Qed.

Lemma filter_none {A} (f : A → bool) (l : list A) :
  (∀ x, x ∈ l → f x = false) → List.filter f l = [].
Proof.
  induction l as [|x l IH]; intros H; simpl; [done|].
  rewrite H by left. apply IH. intros y Hy. apply H. by right.
Qed.

Lemma filter_ext_elem {A} (f g : A → bool) (l : list A) :
  (∀ x, x ∈ l → f x = g x) → List.filter f l = List.filter g l.
Proof.
  induction l as [|x l IH]; intros H; simpl; [done|].
  rewrite (H x) by left. rewrite IH; [done|]. intros y Hy. apply H. by right.
Qed.

Lemma filter_full_eq {A} (f : A → bool) (l : list A) :
  length (List.filter f l) = length l → List.filter f l = l.
Proof.
  induction l as [|x l IH]; simpl; [done|]. destruct (f x); simpl; intros H.
  - f_equal. apply IH. lia.
  - pose proof (filter_length_le f l). lia.
Qed.

Lemma sel_rows_select keep m sel :
  (m <= length sel)%nat →
  sel_rows m (select_loop keep m sel) = List.filter keep (seq 0 m).
Proof.
  intros Hm. destruct (select_loop_spec keep m sel Hm) as (Hc & Ht & _). unfold sel_rows.
  destruct (Nat.eqb_spec (select_loop keep m sel).1 m) as [He|]; [|done].
  symmetry. apply filter_full_eq. rewrite length_seq. congruence.
Qed.

Lemma sel_rows_none m sel f :
  (∀ i, (i < m)%nat → f i = false) → sel_rows m (0%nat, sel) = List.filter f (seq 0 m).
Proof.
  intros Hf. rewrite filter_none by (intros i [_ Hi]%elem_of_seq; apply Hf; lia).
  unfold sel_rows. cbn [fst snd]. destruct (Nat.eqb_spec 0 m) as [<-|]; done.
Qed.

(** The insertion id [GetSelVector] looks at. *)
Definition eff_inserted (v : ChunkVectorInfo) (i : nat) : Z :=
  if same_inserted_id v then insert_id v else inserted v !!! i.

Definition eff_visible (st tid : Z) (v : ChunkVectorInfo) (i : nat) : bool :=
  UseVersion st tid (eff_inserted v i) && negb (UseVersion st tid (deleted v !!! i)).

(** The four specialised paths compute one filter. *)
Lemma GetSelVector_eff v n st tid sel max_count :
  ChunkVectorInfo_ok v n → snapshot_ok st tid →
  (max_count <= STANDARD_VECTOR_SIZE)%nat → length sel = STANDARD_VECTOR_SIZE →
  sel_rows max_count (ChunkVectorInfo_GetSelVector v st tid sel max_count) =
    List.filter (eff_visible st tid v) (seq 0 max_count).
Proof.
  intros Hok Hsnap Hmax Hsel.
  assert (any_deleted v = false → ∀ i, (i < max_count)%nat →
            UseVersion st tid (deleted v !!! i) = false) as Hnone.
  { intros ? i ?. rewrite (cv_none _ _ Hok) by (done || lia).
    by apply UseVersion_not_deleted. }
  unfold ChunkVectorInfo_GetSelVector, eff_visible, eff_inserted.
  destruct (same_inserted_id v), (any_deleted v); cbn [andb negb];
    try specialize (Hnone eq_refl).
  - destruct (UseVersion st tid (insert_id v)); cbn [negb andb].
    + by rewrite sel_rows_select by lia.
    + by apply sel_rows_none.
  - destruct (UseVersion st tid (insert_id v)); cbn [negb andb].
    + unfold sel_rows; simpl. rewrite Nat.eqb_refl. symmetry. apply filter_all.
      intros i [_ Hi]%elem_of_seq. by rewrite Hnone by lia.
    + by apply sel_rows_none.
  - by rewrite sel_rows_select by lia.
  - rewrite sel_rows_select by lia. apply filter_ext_elem.
    intros i [_ Hi]%elem_of_seq. by rewrite Hnone, andb_true_r by lia.
Qed.

Lemma eff_visible_visible v n st tid i :
  ChunkVectorInfo_ok v n → (i < n)%nat → eff_visible st tid v i = visible st tid v i.
Proof.
  intros Hok Hi. unfold eff_visible, visible, eff_inserted.
  destruct (same_inserted_id v) eqn:Hs; [|done]. by rewrite (cv_same _ _ Hok Hs i Hi).
Qed.

Lemma ChunkVectorInfo_new_ok start n :
  (n <= STANDARD_VECTOR_SIZE)%nat → ChunkVectorInfo_ok (ChunkVectorInfo_new start) n.
Proof.
  intros Hn. split; cbn [inserted deleted same_inserted_id insert_id any_deleted ChunkVectorInfo_new].
  - apply length_replicate.
  - apply length_replicate.
  - done.
  - intros _ i Hi. apply lookup_total_replicate_2. lia.
  - intros _ i Hi. by apply lookup_total_replicate_2.
Qed.

Lemma Append_ok v n start end_ id :
  ChunkVectorInfo_ok v n → (start <= n)%nat → (start <= end_ <= STANDARD_VECTOR_SIZE)%nat →
  ChunkVectorInfo_ok (ChunkVectorInfo_Append v start end_ id) end_.
Proof.
  intros [Hi Hd Hn Hs Hnd] Hst Hend. unfold ChunkVectorInfo_Append.
  destruct (Nat.eqb_spec start 0) as [->|Hne];
    [|destruct (Z.eqb_spec (insert_id v) id) as [Heq|Hneq]]; cbn [negb];
    (split; cbn [inserted deleted same_inserted_id insert_id any_deleted];
      [by rewrite length_fill_range|done|lia| |done]); intros Hsame i Hlt; try done;
    rewrite lookup_total_fill_range by lia; case_decide; try done; try lia.
  rewrite Hs by (done || lia). done.
Qed.

Lemma CommitAppend_ok v n start end_ id :
  ChunkVectorInfo_ok v n →
  (same_inserted_id v = true → start = 0%nat ∧ (n <= end_)%nat) →
  ChunkVectorInfo_ok (ChunkVectorInfo_CommitAppend v id start end_) n.
Proof.
  intros [Hi Hd Hn Hs Hnd] Hcov. unfold ChunkVectorInfo_CommitAppend.
  split; cbn [inserted deleted same_inserted_id insert_id any_deleted];
    [by rewrite length_fill_range|done|done| |done].
  intros Hsame i Hlt. destruct (Hcov Hsame) as [-> Hend]. rewrite Hsame.
  rewrite lookup_total_fill_range by lia. by case_decide; [|lia].
Qed.

Lemma Delete_ok v n t rows :
  ChunkVectorInfo_ok v n → ChunkVectorInfo_ok (out_state (ChunkVectorInfo_Delete v t rows)) n.
Proof.
  intros [Hi Hd Hn Hs Hnd]. unfold ChunkVectorInfo_Delete.
  case_match; simpl; split; cbn [inserted deleted same_inserted_id insert_id any_deleted];
    try done; by rewrite ?length_scatter.
Qed.

Lemma CommitDelete_ok v n id rows :
  ChunkVectorInfo_ok v n → any_deleted v = true →
  ChunkVectorInfo_ok (ChunkVectorInfo_CommitDelete v id rows) n.
Proof.
  intros [Hi Hd Hn Hs Hnd] Hany.
  split; cbn [inserted deleted same_inserted_id insert_id any_deleted ChunkVectorInfo_CommitDelete];
    try done; [by rewrite length_scatter|]. by rewrite Hany.
Qed.

#[export] Hint Resolve ChunkVectorInfo_new_ok Append_ok CommitAppend_ok Delete_ok CommitDelete_ok
  : guinsoo.

Lemma check_delete_None v rows :
  check_delete v rows = None ↔
  ∀ r, r ∈ rows → deleted v !!! r = NOT_DELETED_ID ∧ inserted v !!! r < TRANSACTION_ID_START.
Proof.
  induction rows as [|r rows IH]; simpl.
  { split; [intros _ r Hr; by apply elem_of_nil in Hr|done]. }
  setoid_rewrite elem_of_cons.
  destruct (Z.eqb_spec (deleted v !!! r) NOT_DELETED_ID) as [He|Hne]; simpl.
  - destruct (Z.leb_spec TRANSACTION_ID_START (inserted v !!! r)).
    + split; [done|]. intros Hall. specialize (Hall r (or_introl eq_refl)). lia.
    + rewrite IH. naive_solver.
  - split; [done|]. intros Hall. by destruct (Hall r (or_introl eq_refl)).
Qed.

Lemma check_delete_Some v rows e :
  check_delete v rows = Some e →
  ∃ r, r ∈ rows ∧
    (deleted v !!! r ≠ NOT_DELETED_ID ∨ TRANSACTION_ID_START <= inserted v !!! r).
Proof.
  induction rows as [|r rows IH]; simpl; [done|].
  destruct (Z.eqb_spec (deleted v !!! r) NOT_DELETED_ID) as [He|Hne]; simpl.
  - destruct (Z.leb_spec TRANSACTION_ID_START (inserted v !!! r)); intros Hc.
    + exists r. split; [left|by right].
    + destruct (IH Hc) as (r' & Hr' & H'). exists r'. split; [by right|done].
  - intros _. exists r. split; [left|by left].
Qed.

(** the selection vector is exactly the rows whose insertion is visible
    and whose deletion is not: the four specialised paths of [GetSelVector]
    agree with the per-row check of [Fetch]. *)
Theorem GetSelVector_correct v n transaction sel max_count :
  ChunkVectorInfo_ok v n →
  snapshot_ok (start_time transaction) (transaction_id transaction) →
  (max_count <= n)%nat → length sel = STANDARD_VECTOR_SIZE →
  sel_rows max_count (ChunkInfo_GetSelVector (VectorInfo v) transaction sel max_count) =
    List.filter (ChunkInfo_Fetch (VectorInfo v) transaction) (seq 0 max_count).
Proof.
  intros Hok Hsnap Hmax Hsel. pose proof (cv_count _ _ Hok). cbn [ChunkInfo_GetSelVector].
  rewrite (GetSelVector_eff v n) by (done || lia). apply filter_ext_elem.
  intros i [_ Hi]%elem_of_seq. apply (eff_visible_visible v n); [done|lia].
Qed.

(** every operation on a [ChunkVectorInfo] keeps its shortcut flags
    truthful: an append to the next rows, the commit of an append, a
    deletion (also one that is refused) and the commit or rollback of it. *)
Theorem ChunkVectorInfo_ops_ok v n :
  ChunkVectorInfo_ok v n →
  (∀ start end_ id, (start <= n)%nat → (start <= end_ <= STANDARD_VECTOR_SIZE)%nat →
     ChunkVectorInfo_ok (ChunkVectorInfo_Append v start end_ id) end_) ∧
  (∀ start end_ id, (same_inserted_id v = true → start = 0%nat ∧ (n <= end_)%nat) →
     ChunkVectorInfo_ok (ChunkVectorInfo_CommitAppend v id start end_) n) ∧
  (∀ t rows, ChunkVectorInfo_ok (out_state (ChunkVectorInfo_Delete v t rows)) n ∧
     ∀ id, ChunkVectorInfo_ok
             (ChunkVectorInfo_CommitDelete (out_state (ChunkVectorInfo_Delete v t rows)) id rows) n).
Proof.
  intros Hok. split_and!; eauto with guinsoo. intros t rows. split; [eauto with guinsoo|].
  intros id. apply CommitDelete_ok; [eauto with guinsoo|].
  unfold ChunkVectorInfo_Delete. by case_match.
Qed.

(** [Delete] refuses exactly when a row is already deleted (by anybody)
    or not committed, and then changes no version; otherwise the deleting
    transaction stops seeing the rows, every other snapshot taken before it
    commits sees what it saw, and [CommitDelete] with [NOT_DELETED_ID] (the
    rollback) restores the versions. *)
Theorem Delete_spec v n t rows :
  ChunkVectorInfo_ok v n → Forall (λ r, r < STANDARD_VECTOR_SIZE)%nat rows →
  match ChunkVectorInfo_Delete v t rows with
  | Raise v' _ =>
      (∃ r, r ∈ rows ∧
         (deleted v !!! r ≠ NOT_DELETED_ID ∨ TRANSACTION_ID_START <= inserted v !!! r)) ∧
      inserted v' = inserted v ∧ deleted v' = deleted v
  | Ret v' _ =>
      (∀ r, r ∈ rows →
         deleted v !!! r = NOT_DELETED_ID ∧ inserted v !!! r < TRANSACTION_ID_START ∧
         ChunkVectorInfo_Fetch v' t r = false) ∧
      (∀ u i, (i < STANDARD_VECTOR_SIZE)%nat →
         snapshot_ok (start_time u) (transaction_id u) → start_time u <= transaction_id t →
         transaction_id u ≠ transaction_id t ∨ i ∉ rows →
         ChunkVectorInfo_Fetch v' u i = ChunkVectorInfo_Fetch v u i) ∧
      inserted v' = inserted v ∧
      deleted (ChunkVectorInfo_CommitDelete v' NOT_DELETED_ID rows) = deleted v
  end.
Proof.
  intros Hok Hrows. pose proof (cv_deleted_len _ _ Hok) as Hlen.
  rewrite Forall_forall in Hrows. unfold ChunkVectorInfo_Delete.
  set (v0 := mkChunkVectorInfo _ _ _ _ _ true).
  destruct (check_delete v0 rows) as [e|] eqn:Hc.
  { apply check_delete_Some in Hc. done. }
  rewrite check_delete_None in Hc. subst v0. cbn [inserted deleted] in *.
  unfold ChunkVectorInfo_Fetch, UseVersion_txn. cbn [inserted deleted]. split_and!.
  - intros r Hr. destruct (Hc r Hr) as [Hd Hi]. split_and!; [done..|].
    rewrite lookup_total_scatter by (rewrite Hlen; auto). rewrite decide_True by done.
    rewrite (proj2 (UseVersion_true _ _ (transaction_id t))) by (by right). by rewrite andb_false_r.
  - intros u i Hi Hsnap Hst Hcase. f_equal. f_equal.
    rewrite lookup_total_scatter by (by rewrite Hlen). case_decide as Hin; [|done].
    destruct Hcase as [Hne|?]; [|done]. destruct (Hc i Hin) as [-> _].
    rewrite UseVersion_not_deleted by done. apply UseVersion_false. split; [done|congruence].
  - done.
  - cbn [deleted ChunkVectorInfo_CommitDelete]. apply list_eq_same_length with (length (deleted v)).
    { done. } { by rewrite !length_scatter. }
    intros i x y Hi. rewrite !scatter_lookup by (rewrite ?length_scatter; done).
    case_decide as Hin; [|congruence]. destruct (Hc i Hin) as [Hd _].
    intros [= <-] Hy. by rewrite (list_lookup_total_correct _ _ _ Hy) in Hd.
Qed.

(** What a reader sees of a chunk whose version information was reloaded:
    [None] means that no row was deleted. *)
Definition loaded_Fetch (info : option ChunkInfo) (transaction : Transaction) (row : nat) : bool :=
  match info with Some info => ChunkInfo_Fetch info transaction row | None => true end.

(** The committed state at the time of a checkpoint. *)
Definition committed (v : ChunkVectorInfo) (i : nat) : bool :=
  visible (TRANSACTION_ID_START - 1) INVALID_INDEX v i.

Lemma checkpoint_snapshot_ok : snapshot_ok (TRANSACTION_ID_START - 1) INVALID_INDEX.
Proof. split; vm_compute; done. Qed.

Lemma deleted_tuples_lookup count sel i :
  (count <= length sel)%nat → (i < STANDARD_VECTOR_SIZE)%nat →
  deleted_tuples count sel !! i = Some (negb (bool_decide (i ∈ take count sel))).
Proof.
  intros Hc Hi. unfold deleted_tuples. rewrite for_gather_insert by done.
  rewrite scatter_lookup by (by rewrite length_replicate).
  rewrite lookup_replicate_2 by done.
  case_decide; [by rewrite bool_decide_true|by rewrite bool_decide_false].
Qed.

Lemma length_deleted_tuples count sel :
  (count <= length sel)%nat → length (deleted_tuples count sel) = STANDARD_VECTOR_SIZE.
Proof.
  intros Hc. unfold deleted_tuples. rewrite for_gather_insert by done.
  by rewrite length_scatter, length_replicate.
Qed.

Lemma elem_of_filter_seq f m i :
  i ∈ List.filter f (seq 0 m) ↔ (i < m)%nat ∧ f i = true.
Proof. rewrite list_elem_of_In, filter_In, <-list_elem_of_In, elem_of_seq. intuition lia. Qed.

Lemma GetSelVector_bounds v st tid sel max_count :
  (max_count <= length sel)%nat →
  let r := ChunkVectorInfo_GetSelVector v st tid sel max_count in
  (r.1 <= max_count)%nat ∧ length r.2 = length sel.
Proof.
  intros Hm. assert (∀ keep, let r := select_loop keep max_count sel in
    (r.1 <= max_count)%nat ∧ length r.2 = length sel) as Hloop.
  { intros keep. destruct (select_loop_spec keep max_count sel Hm) as (Hc & _ & Hl).
    cbv zeta. rewrite Hc, Hl. split; [|done]. etransitivity; [apply filter_length_le|]. by rewrite length_seq. }
  unfold ChunkVectorInfo_GetSelVector.
  destruct (same_inserted_id v), (any_deleted v), (UseVersion st tid (insert_id v));
    cbn [andb negb]; try apply Hloop; cbn [fst snd]; split; lia || done.
Qed.

(** What [Serialize] counts as present. *)
Definition info_committed (info : ChunkInfo) (i : nat) : bool :=
  match info with
  | ConstantInfo c => (cc_insert_id c <? TRANSACTION_ID_START) &&
                      negb (cc_delete_id c <? TRANSACTION_ID_START)
  | VectorInfo v => committed v i
  end.

Definition ChunkInfo_ok (info : ChunkInfo) (n : nat) : Prop :=
  match info with ConstantInfo _ => True | VectorInfo v => ChunkVectorInfo_ok v n end.

Definition ChunkInfo_start (info : ChunkInfo) : nat :=
  match info with ConstantInfo c => cc_start c | VectorInfo v => cv_start v end.

(** The three images of a chunk info on disk, and what they load as. *)
Section images.
Context {D : Type} `{!Deserializer D}.

Lemma decodes_empty : decodes (λ d : D, ChunkInfo_Deserialize d) (le_encode 1 EMPTY_INFO) None.
Proof.
  rewrite <-(app_nil_r (le_encode _ _)).
  apply decodes_bind with EMPTY_INFO; [by apply decodes_Read|]. apply decodes_ret.
Qed.

Lemma decodes_constant start :
  Z.of_nat start < 2 ^ 64 →
  decodes (λ d : D, ChunkInfo_Deserialize d)
    (le_encode 1 CONSTANT_INFO ++ le_encode 8 (Z.of_nat start))
    (Some (ConstantInfo (mkChunkConstantInfo start 0 0))).
Proof.
  intros Hs. apply decodes_bind with CONSTANT_INFO; [by apply decodes_Read|].
  change (CONSTANT_INFO =? EMPTY_INFO) with false. rewrite Z.eqb_refl. cbv iota.
  rewrite <-(app_nil_r (le_encode 8 _)).
  apply decodes_bind with (ConstantInfo (mkChunkConstantInfo start 0 0)); [|apply decodes_ret].
  rewrite <-(app_nil_r (le_encode 8 _)).
  apply decodes_bind with (Z.of_nat start); [apply decodes_Read; split; [lia|exact Hs]|].
  rewrite Nat2Z.id. apply decodes_ret.
Qed.

(** The deletion flags [del] after loading. *)
Definition loaded_deleted (del : list bool) : list Z :=
  for_ 0 STANDARD_VECTOR_SIZE
    (λ i d, if negb ((bool_byte <$> del) !!! i =? 0) then <[i := 0]> d else d)
    (replicate STANDARD_VECTOR_SIZE NOT_DELETED_ID).

Definition loaded_vector (start : nat) (del : list bool) : ChunkVectorInfo :=
  mkChunkVectorInfo start (replicate STANDARD_VECTOR_SIZE 0) 0 true (loaded_deleted del) true.

Lemma decodes_vector start del :
  Z.of_nat start < 2 ^ 64 → length del = STANDARD_VECTOR_SIZE →
  decodes (λ d : D, ChunkInfo_Deserialize d)
    (le_encode 1 VECTOR_INFO ++ le_encode 8 (Z.of_nat start) ++ (bool_byte <$> del))
    (Some (VectorInfo (loaded_vector start del))).
Proof.
  intros Hs Hlen. apply decodes_bind with VECTOR_INFO; [by apply decodes_Read|].
  change (VECTOR_INFO =? EMPTY_INFO) with false. change (VECTOR_INFO =? CONSTANT_INFO) with false.
  rewrite Z.eqb_refl. cbv iota.
  rewrite <-(app_nil_r (le_encode 8 _ ++ _)).
  apply decodes_bind with (VectorInfo (loaded_vector start del)); [|apply decodes_ret].
  apply decodes_bind with (Z.of_nat start); [apply decodes_Read; split; [lia|exact Hs]|].
  rewrite <-(app_nil_r (bool_byte <$> del)), <-Hlen, <-(length_fmap bool_byte del).
  apply (decodes_bind (λ d, ReadData d _) (λ bytes d, Ok (VectorInfo _, d))) with (bool_byte <$> del);
    [apply decodes_ReadData|].
  rewrite length_fmap, Hlen, Nat2Z.id. apply decodes_ret.
Qed.
End images.

Lemma loaded_deleted_lookup (del : list bool) i :
  length del = STANDARD_VECTOR_SIZE → (i < STANDARD_VECTOR_SIZE)%nat →
  loaded_deleted del !!! i = if (del !!! i : bool) then 0 else NOT_DELETED_ID.
Proof.
  intros Hlen Hi. unfold loaded_deleted.
  destruct (for_cond_insert (λ i, negb ((bool_byte <$> del) !!! i =? 0)) (λ _, 0)
              STANDARD_VECTOR_SIZE (replicate STANDARD_VECTOR_SIZE NOT_DELETED_ID)) as [_ Hl].
  rewrite list_lookup_total_alt, Hl by (by rewrite length_replicate).
  rewrite lookup_replicate_2 by done. rewrite (proj2 (Nat.ltb_lt _ _) Hi). cbn [andb].
  rewrite (list_lookup_total_fmap bool_byte del i) by lia. by destruct (del !!! i).
Qed.

Lemma loaded_vector_Fetch start del u i :
  length del = STANDARD_VECTOR_SIZE → (i < STANDARD_VECTOR_SIZE)%nat →
  0 < start_time u → snapshot_ok (start_time u) (transaction_id u) →
  ChunkVectorInfo_Fetch (loaded_vector start del) u i = negb (del !!! i).
Proof.
  intros Hlen Hi Hst Hsnap. unfold ChunkVectorInfo_Fetch, UseVersion_txn. cbn [inserted deleted loaded_vector].
  rewrite lookup_total_replicate_2, loaded_deleted_lookup by done.
  rewrite (proj2 (UseVersion_true _ _ 0)) by (left; lia). cbn [andb]. f_equal.
  destruct (del !!! i); [apply UseVersion_true; left; lia|by apply UseVersion_not_deleted].
Qed.

Lemma constant_deleted_Fetch start u i :
  ChunkInfo_Fetch (ConstantInfo (mkChunkConstantInfo start 0 0)) u i = false.
Proof. cbn. unfold ChunkConstantInfo_Fetch. cbn. by destruct (UseVersion_txn u 0). Qed.

Lemma encodes_constant {S} `{!Serializer S} start :
  encodes (λ s : S, Write 8 (Write 1 s CONSTANT_INFO) (Z.of_nat start))
    (le_encode 1 CONSTANT_INFO ++ le_encode 8 (Z.of_nat start)).
Proof.
  apply (encodes_seq (λ s, Write 1 s CONSTANT_INFO) (λ s, Write 8 s (Z.of_nat start)));
    apply encodes_WriteData.
Qed.

Lemma encodes_vector {S} `{!Serializer S} start bytes :
  encodes (λ s : S, WriteData (Write 8 (Write 1 s VECTOR_INFO) (Z.of_nat start)) bytes)
    (le_encode 1 VECTOR_INFO ++ le_encode 8 (Z.of_nat start) ++ bytes).
Proof.
  apply (encodes_seq (λ s, Write 1 s VECTOR_INFO)
           (λ s, WriteData (Write 8 s (Z.of_nat start)) bytes)); [apply encodes_WriteData|].
  apply (encodes_seq (λ s, Write 8 s (Z.of_nat start)) (λ s, WriteData s bytes));
    apply encodes_WriteData.
Qed.

Lemma ConstantInfo_image {S D} `{!Serializer S, !Deserializer D} (c : ChunkConstantInfo) :
  Z.of_nat (cc_start c) < 2 ^ 64 →
  ∃ bytes loaded,
    encodes (λ s : S, ChunkConstantInfo_Serialize c s) bytes ∧
    decodes (λ d : D, ChunkInfo_Deserialize d) bytes loaded ∧
    ∀ u i, loaded_Fetch loaded u i = info_committed (ConstantInfo c) i.
Proof.
  intros Hstart. unfold ChunkConstantInfo_Serialize. cbn [info_committed].
  destruct (Z.leb_spec TRANSACTION_ID_START (cc_insert_id c)),
    (Z.ltb_spec (cc_insert_id c) TRANSACTION_ID_START),
    (Z.ltb_spec (cc_delete_id c) TRANSACTION_ID_START); try lia; cbn [orb negb andb];
    [eexists _, _; split; [apply encodes_constant|
      split; [by apply decodes_constant|intros; apply constant_deleted_Fetch]]..|].
  eexists _, _. split; [apply encodes_WriteData|]. split; [apply decodes_empty|done].
Qed.

(** What [Serialize] emits for a chunk loads as an equivalent chunk. *)
Lemma ChunkInfo_Serialize_image {S D} `{!Serializer S, !Deserializer D} (info : ChunkInfo) n :
  ChunkInfo_ok info n → Z.of_nat (ChunkInfo_start info) < 2 ^ 64 →
  ∃ bytes loaded,
    encodes (λ s : S, ChunkInfo_Serialize info s) bytes ∧
    decodes (λ d : D, ChunkInfo_Deserialize d) bytes loaded ∧
    ∀ u i, (i < n)%nat → 0 < start_time u → snapshot_ok (start_time u) (transaction_id u) →
      loaded_Fetch loaded u i = info_committed info i.
Proof.
  intros Hok Hstart. destruct info as [c|v]; cbn [ChunkInfo_Serialize ChunkInfo_start] in *.
  { destruct (ConstantInfo_image (S := S) (D := D) c Hstart) as (b & l & ? & ? & ?). eauto 10. }
  cbn [ChunkInfo_ok info_committed] in *. pose proof (cv_count _ _ Hok) as Hn.
  unfold ChunkVectorInfo_Serialize.
  pose proof (GetSelVector_eff v n _ _ (replicate STANDARD_VECTOR_SIZE 0%nat) STANDARD_VECTOR_SIZE
    Hok checkpoint_snapshot_ok (le_n _) (length_replicate _ _)) as Hrows.
  destruct (GetSelVector_bounds v (TRANSACTION_ID_START - 1) INVALID_INDEX
    (replicate STANDARD_VECTOR_SIZE 0%nat) STANDARD_VECTOR_SIZE) as [Hcnt Hlen].
  { by rewrite length_replicate. }
  destruct (ChunkVectorInfo_GetSelVector _ _ _ _ _) as [count sel]. cbn [fst snd] in *.
  rewrite length_replicate in Hlen. unfold sel_rows in Hrows. cbn [fst snd] in Hrows.
  assert (∀ i, (i < n)%nat → committed v i = true ↔
    i ∈ if (count =? STANDARD_VECTOR_SIZE)%nat then seq 0 STANDARD_VECTOR_SIZE else take count sel)
    as Hcomm.
  { intros i Hi. rewrite Hrows, elem_of_filter_seq.
    rewrite (eff_visible_visible v n) by done. intuition lia. }
  destruct (Nat.eqb_spec count STANDARD_VECTOR_SIZE) as [->|Hne].
  { eexists _, _. split; [apply encodes_WriteData|]. split; [apply decodes_empty|].
    intros u i Hi _ _. symmetry. apply Hcomm; [done|]. apply elem_of_seq. lia. }
  destruct (Nat.eqb_spec count 0) as [->|Hne0].
  { eexists _, _. split; [apply encodes_constant|].
    split; [by apply decodes_constant|]. intros u i Hi _ _. cbn [loaded_Fetch].
    rewrite constant_deleted_Fetch. symmetry. apply not_true_iff_false. rewrite Hcomm by done.
    apply not_elem_of_nil. }
  exists (le_encode 1 VECTOR_INFO ++ le_encode 8 (Z.of_nat (cv_start v)) ++
          (bool_byte <$> deleted_tuples count sel)), (Some (VectorInfo (loaded_vector (cv_start v) (deleted_tuples count sel)))).
  pose proof (length_deleted_tuples count sel ltac:(lia)) as Hdl. split; [|split].
  - apply encodes_vector.
  - by apply decodes_vector.
  - intros u i Hi Hst Hsnap. cbn [loaded_Fetch ChunkInfo_Fetch].
    rewrite loaded_vector_Fetch by (done || lia).
    rewrite list_lookup_total_alt, deleted_tuples_lookup by lia. cbn [default from_option].
    unfold id. rewrite negb_involutive. apply eq_true_iff_eq. rewrite bool_decide_eq_true. by rewrite Hcomm.
Qed.

(** version information survives a checkpoint: what [Serialize] writes
    through any serializer is read back by any deserializer as a chunk whose
    rows are visible to a later transaction exactly when they were committed
    and not deleted. *)
Theorem ChunkInfo_roundtrip {S D} `{!Serializer S, !Deserializer D}
    (info : ChunkInfo) (n : nat) (s : S) (d : D) (rest : list Z) :
  ChunkInfo_ok info n → Z.of_nat (ChunkInfo_start info) < 2 ^ 64 → ser_ok s → des_ok d →
  written (ChunkInfo_Serialize info s) ++ rest = written s ++ remaining d →
  ∃ loaded d', ChunkInfo_Deserialize d = Ok (loaded, d') ∧ remaining d' = rest ∧
    ∀ u i, (i < n)%nat → 0 < start_time u → snapshot_ok (start_time u) (transaction_id u) →
      loaded_Fetch loaded u i = info_committed info i.
Proof.
  intros Hok Hstart Hs Hd Heq.
  destruct (ChunkInfo_Serialize_image (S := S) (D := D) info n Hok Hstart)
    as (bytes & loaded & Henc & Hdec & Hview).
  destruct (Henc s Hs) as [_ Hw]. rewrite Hw, <-app_assoc in Heq. apply app_inv_head in Heq.
  destruct (Hdec d rest Hd) as (d' & Hr & _ & Hrem); [done|]. eauto.
Qed.

(** *** Witnesses *)

(** Five rows inserted by two transactions, row 1 deleted at time 7. *)
Definition example_vector : ChunkVectorInfo :=
  mkChunkVectorInfo 0 ([3; 3; 3; 5; 5] ++ replicate (STANDARD_VECTOR_SIZE - 5) 0) NOT_DELETED_ID false
    ([NOT_DELETED_ID; 7] ++ replicate (STANDARD_VECTOR_SIZE - 2) NOT_DELETED_ID) true.

Lemma example_vector_ok : ChunkVectorInfo_ok example_vector 5.
Proof.
  split; [vm_compute; done|vm_compute; done| |done|done].
  apply Nat.leb_le. vm_compute. done.
Qed.

Lemma GetSelVector_correct_witness :
  sel_rows 5 (ChunkInfo_GetSelVector (VectorInfo example_vector)
                (Transaction_new 6 (TRANSACTION_ID_START + 4) 0)
                (replicate STANDARD_VECTOR_SIZE 0%nat) 5) = [0; 1; 2; 3; 4]%nat.
Proof.
  rewrite (GetSelVector_correct example_vector 5 (Transaction_new 6 (TRANSACTION_ID_START + 4) 0)).
  - vm_compute. reflexivity.
  - apply example_vector_ok.
  - split; vm_compute; done.
  - lia.
  - apply length_replicate.
Defined.

Lemma ChunkVectorInfo_ops_ok_witness :
  ChunkVectorInfo_ok (ChunkVectorInfo_Append example_vector 5 9 (TRANSACTION_ID_START + 1)) 9.
Proof.
  apply (proj1 (ChunkVectorInfo_ops_ok example_vector 5 example_vector_ok)); [lia|].
  split; [lia|]. apply Nat.leb_le. vm_compute. reflexivity.
Defined.

Lemma Delete_spec_witness :
  match ChunkVectorInfo_Delete example_vector
          (Transaction_new 6 (TRANSACTION_ID_START + 4) 0) [0; 3]%nat with
  | Raise _ _ => False
  | Ret v' _ => deleted (ChunkVectorInfo_CommitDelete v' NOT_DELETED_ID [0; 3]%nat) =
                deleted example_vector
  end.
Proof.
  pose proof (Delete_spec example_vector 5 (Transaction_new 6 (TRANSACTION_ID_START + 4) 0)
                [0; 3]%nat example_vector_ok) as H.
  assert (Forall (λ r, r < STANDARD_VECTOR_SIZE)%nat [0; 3]%nat) as Hr.
  { repeat constructor; apply Nat.leb_le; vm_compute; reflexivity. }
  specialize (H Hr). revert H.
  destruct (ChunkVectorInfo_Delete _ _ _) as [v' ?|v' e] eqn:E.
  - intros (_ & _ & _ & H). exact H.
  - vm_compute in E. discriminate E.
Defined.

Lemma ChunkInfo_roundtrip_witness :
  ∃ loaded d',
    ChunkInfo_Deserialize (BufferedDeserializer_new
      (written (ChunkInfo_Serialize (VectorInfo example_vector) (BufferedSerializer_new 16)) ++ []))
      = Ok (loaded, d') ∧ remaining d' = [] ∧
    ∀ u i, (i < 5)%nat → 0 < start_time u → snapshot_ok (start_time u) (transaction_id u) →
      loaded_Fetch loaded u i = info_committed (VectorInfo example_vector) i.
Proof.
  apply (ChunkInfo_roundtrip (VectorInfo example_vector) 5 (BufferedSerializer_new 16)
    (BufferedDeserializer_new
      (written (ChunkInfo_Serialize (VectorInfo example_vector) (BufferedSerializer_new 16)) ++ [])) []).
  - apply example_vector_ok.
  - reflexivity.
  - split_and!; cbn; lia || done.
  - split; cbn [bd_ptr bd_endptr bd_data BufferedDeserializer_new]; lia.
  - vm_compute. reflexivity.
Defined.
