(* ===== verification/MorselInfo.v ===== *)
(** * Version information of a morsel of rows

    Models src/src/storage/table/morsel_info.cpp: a morsel is a range of
    [MORSEL_SIZE] rows with one optional [ChunkInfo] per vector.  Appending
    creates constant infos for whole vectors and vector infos for partial
    ones; deleting converts a constant info to a vector info, marks the rows
    vector by vector and records each batch in the undo buffer of the
    transaction.

    The specification view is [version m r], the pair of the transaction ids
    that inserted and deleted row [r].  Theorems: each operation changes this
    pair for exactly the rows it was asked to change, and what a failing
    [Delete] has already marked is exactly what it recorded for rollback. *)

From S2P Require Import Prelude Constants Serializer ChunkInfo.

(** ** State *)

(** [SegmentBase::start] and [VersionNode::info]; the root is created lazily. *)
Record MorselInfo : Set := mkMorselInfo {
  m_start : nat;
  m_root : option (list (option ChunkInfo));
}.

Definition MorselInfo_new (start : nat) : MorselInfo := mkMorselInfo start None.

(** [make_unique<VersionNode>()] *)
Definition VersionNode_new : list (option ChunkInfo) := replicate MORSEL_VECTOR_COUNT None.

Definition root_infos (m : MorselInfo) : list (option ChunkInfo) :=
  default VersionNode_new (m_root m).

Definition set_info (m : MorselInfo) (k : nat) (info : option ChunkInfo) : MorselInfo :=
  mkMorselInfo (m_start m) (Some (<[k := info]> (root_infos m))).

(** ** Reading *)

Definition MorselInfo_GetChunkInfo (m : MorselInfo) (vector_idx : nat) : option ChunkInfo :=
  match m_root m with
  | None => None
  | Some infos => default None (infos !! vector_idx)
  end.

Definition MorselInfo_GetSelVector (m : MorselInfo) (transaction : Transaction)
    (vector_idx : nat) (sel_vector : list nat) (max_count : nat) : nat * list nat :=
  match MorselInfo_GetChunkInfo m vector_idx with
  | None => (max_count, sel_vector)
  | Some info => ChunkInfo_GetSelVector info transaction sel_vector max_count
  end.

Definition MorselInfo_Fetch (m : MorselInfo) (transaction : Transaction) (row : nat) : bool :=
  let vector_index := (row / STANDARD_VECTOR_SIZE)%nat in
  match MorselInfo_GetChunkInfo m vector_index with
  | None => true
  | Some info =>
      ChunkInfo_Fetch info transaction (row - vector_index * STANDARD_VECTOR_SIZE)%nat
  end.

(** ** Appending *)

(** The part of vector [vector_idx] that rows [morsel_start, morsel_end) cover. *)
Definition vector_part (morsel_start morsel_end vector_idx : nat) : nat * nat :=
  let start_vector_idx := (morsel_start / STANDARD_VECTOR_SIZE)%nat in
  let end_vector_idx := ((morsel_end - 1) / STANDARD_VECTOR_SIZE)%nat in
  ((if vector_idx =? start_vector_idx
    then morsel_start - start_vector_idx * STANDARD_VECTOR_SIZE else 0)%nat,
   (if vector_idx =? end_vector_idx
    then morsel_end - end_vector_idx * STANDARD_VECTOR_SIZE else STANDARD_VECTOR_SIZE)%nat).

(** The loop body of [Append].  An existing constant info is excluded by the
    assertion of the source; the model leaves it alone. *)
Definition append_vector (morsel_start morsel_end : nat) (commit_id : Z)
    (vector_idx : nat) (m : MorselInfo) : MorselInfo :=
  let '(start, end_) := vector_part morsel_start morsel_end vector_idx in
  let first_row := (m_start m + vector_idx * STANDARD_VECTOR_SIZE)%nat in
  if (start =? 0)%nat && (end_ =? STANDARD_VECTOR_SIZE)%nat then
    set_info m vector_idx
      (Some (ConstantInfo (mkChunkConstantInfo first_row commit_id NOT_DELETED_ID)))
  else
    match MorselInfo_GetChunkInfo m vector_idx with
    | None =>
        set_info m vector_idx
          (Some (VectorInfo (ChunkVectorInfo_Append (ChunkVectorInfo_new first_row)
                               start end_ commit_id)))
    | Some (VectorInfo v) =>
        set_info m vector_idx (Some (VectorInfo (ChunkVectorInfo_Append v start end_ commit_id)))
    | Some (ConstantInfo _) => m
    end.

Definition MorselInfo_Append (m : MorselInfo) (morsel_start count : nat) (commit_id : Z)
    : MorselInfo :=
  let morsel_end := (morsel_start + count)%nat in
  let m := mkMorselInfo (m_start m) (Some (root_infos m)) in
  let start_vector_idx := (morsel_start / STANDARD_VECTOR_SIZE)%nat in
  let end_vector_idx := ((morsel_end - 1) / STANDARD_VECTOR_SIZE)%nat in
  for_ start_vector_idx (S end_vector_idx) (append_vector morsel_start morsel_end commit_id) m.

(** The loop body of [CommitAppend].  The source dereferences the info, which
    exists for a row that was appended by a transaction. *)
Definition commit_append_vector (morsel_start morsel_end : nat) (commit_id : Z)
    (vector_idx : nat) (m : MorselInfo) : MorselInfo :=
  let '(start, end_) := vector_part morsel_start morsel_end vector_idx in
  match MorselInfo_GetChunkInfo m vector_idx with
  | Some info => set_info m vector_idx (Some (ChunkInfo_CommitAppend info commit_id start end_))
  | None => m
  end.

Definition MorselInfo_CommitAppend (m : MorselInfo) (commit_id : Z) (morsel_start count : nat)
    : MorselInfo :=
  let morsel_end := (morsel_start + count)%nat in
  let start_vector_idx := (morsel_start / STANDARD_VECTOR_SIZE)%nat in
  let end_vector_idx := ((morsel_end - 1) / STANDARD_VECTOR_SIZE)%nat in
  for_ start_vector_idx (S end_vector_idx) (commit_append_vector morsel_start morsel_end commit_id) m.

Definition MorselInfo_RevertAppend (m : MorselInfo) (morsel_start : nat) : MorselInfo :=
  match m_root m with
  | None => m
  | Some infos =>
      let start_row := (morsel_start - m_start m)%nat in
      let start_vector_idx :=
        ((start_row + (STANDARD_VECTOR_SIZE - 1)) / STANDARD_VECTOR_SIZE)%nat in
      mkMorselInfo (m_start m)
        (Some (fill_range start_vector_idx MORSEL_VECTOR_COUNT None infos))
  end.

(** ** Deleting *)

(** [struct DeleteInfo] of the undo buffer; [vinfo] points to the chunk of
    vector [di_vector]. *)
Record DeleteInfo : Set := mkDeleteInfo {
  di_vector : nat;
  di_rows : list nat;
  di_base_row : nat;
}.

(** [class VersionDeleteState], with the entries pushed to the undo buffer. *)
Record VersionDeleteState : Set := mkVersionDeleteState {
  vd_info : MorselInfo;
  vd_current_chunk : option nat;
  vd_rows : list nat;
  vd_undo : list DeleteInfo;
}.

Definition VersionDeleteState_Flush (transaction : Transaction) (d : VersionDeleteState)
    : out VersionDeleteState unit :=
  match vd_rows d, vd_current_chunk d with
  | [], _ => Ret d tt
  | _, None => Raise d (UndefinedBehaviour "null current_info")
  | rows, Some k =>
      match MorselInfo_GetChunkInfo (vd_info d) k with
      | Some (VectorInfo v) =>
          match ChunkVectorInfo_Delete v transaction rows with
          | Raise v e =>
              Raise (mkVersionDeleteState (set_info (vd_info d) k (Some (VectorInfo v)))
                       (vd_current_chunk d) rows (vd_undo d)) e
          | Ret v _ =>
              Ret (mkVersionDeleteState (set_info (vd_info d) k (Some (VectorInfo v)))
                     (vd_current_chunk d) []
                     (vd_undo d ++ [mkDeleteInfo k rows
                        (m_start (vd_info d) + k * STANDARD_VECTOR_SIZE)])) tt
          end
      | _ => Raise d (UndefinedBehaviour "current_info is not a vector info")
      end
  end.

(** The [ChunkVectorInfo] that replaces the info of a vector: a new one, one
    converted from a constant info, or the one that is there. *)
Definition vector_info_of (first_row : nat) (info : option ChunkInfo) : ChunkVectorInfo :=
  let new_info := ChunkVectorInfo_new first_row in
  match info with
  | None => new_info
  | Some (ConstantInfo constant) =>
      mkChunkVectorInfo first_row
        (fill_range 0 STANDARD_VECTOR_SIZE (cc_insert_id constant) (inserted new_info))
        (cc_insert_id constant) (same_inserted_id new_info)
        (deleted new_info) (any_deleted new_info)
  | Some (VectorInfo v) => v
  end.

(** Make sure that vector [k] has a [ChunkVectorInfo]. *)
Definition ensure_vector_info (m : MorselInfo) (k : nat) : MorselInfo :=
  let first_row := (m_start m + k * STANDARD_VECTOR_SIZE)%nat in
  set_info m k (Some (VectorInfo (vector_info_of first_row (MorselInfo_GetChunkInfo m k)))).

(** [rows[count++] = idx_in_vector], in an array of [STANDARD_VECTOR_SIZE]. *)
Definition VersionDeleteState_push (idx_in_vector : nat) (d : VersionDeleteState)
    : out VersionDeleteState unit :=
  if (length (vd_rows d) <? STANDARD_VECTOR_SIZE)%nat then
    Ret (mkVersionDeleteState (vd_info d) (vd_current_chunk d)
           (vd_rows d ++ [idx_in_vector]) (vd_undo d)) tt
  else Raise d (UndefinedBehaviour "rows[count] is out of bounds").

Definition VersionDeleteState_Delete (transaction : Transaction) (row_id : nat)
    (d : VersionDeleteState) : out VersionDeleteState unit :=
  let vector_idx := (row_id / STANDARD_VECTOR_SIZE)%nat in
  let idx_in_vector := (row_id - vector_idx * STANDARD_VECTOR_SIZE)%nat in
  if decide (vd_current_chunk d = Some vector_idx) then
    VersionDeleteState_push idx_in_vector d
  else
    match VersionDeleteState_Flush transaction d with
    | Raise d e => Raise d e
    | Ret d _ =>
        if (vector_idx <? MORSEL_VECTOR_COUNT)%nat then
          VersionDeleteState_push idx_in_vector
            (mkVersionDeleteState (ensure_vector_info (vd_info d) vector_idx)
               (Some vector_idx) (vd_rows d) (vd_undo d))
        else Raise d (UndefinedBehaviour "root->info[vector_idx] is out of bounds")
    end.

Fixpoint delete_loop (transaction : Transaction) (start : nat) (ids : list nat)
    (d : VersionDeleteState) : out VersionDeleteState unit :=
  match ids with
  | [] => VersionDeleteState_Flush transaction d
  | id :: ids =>
      if (id <? start)%nat then Raise d (UndefinedBehaviour "ids[ridx] - this->start is negative")
      else
        match VersionDeleteState_Delete transaction (id - start) d with
        | Raise d e => Raise d e
        | Ret d _ => delete_loop transaction start ids d
        end
  end.

(** Returns the morsel and the entries pushed to the undo buffer. *)
Definition MorselInfo_Delete (m : MorselInfo) (transaction : Transaction) (ids : list nat)
    : out (MorselInfo * list DeleteInfo) unit :=
  match delete_loop transaction (m_start m) ids (mkVersionDeleteState m None [] []) with
  | Ret d _ => Ret (vd_info d, vd_undo d) tt
  | Raise d e => Raise (vd_info d, vd_undo d) e
  end.

(** [info->vinfo->CommitDelete(id, info->rows, info->count)], used by commit
    (with the commit id) and by rollback (with [NOT_DELETED_ID]). *)
Definition DeleteInfo_apply (id : Z) (m : MorselInfo) (info : DeleteInfo) : MorselInfo :=
  match MorselInfo_GetChunkInfo m (di_vector info) with
  | Some (VectorInfo v) =>
      set_info m (di_vector info)
        (Some (VectorInfo (ChunkVectorInfo_CommitDelete v id (di_rows info))))
  | _ => m
  end.

(** ** Specification *)

(** The ids that inserted and deleted row [i] of a vector. *)
Definition info_version (info : option ChunkInfo) (i : nat) : Z * Z :=
  match info with
  | None => (0, NOT_DELETED_ID)
  | Some (ConstantInfo c) => (cc_insert_id c, cc_delete_id c)
  | Some (VectorInfo v) => (inserted v !!! i, deleted v !!! i)
  end.

(** The ids that inserted and deleted row [r] of the morsel. *)
Definition version (m : MorselInfo) (r : nat) : Z * Z :=
  info_version (MorselInfo_GetChunkInfo m (r / STANDARD_VECTOR_SIZE))
    (r mod STANDARD_VECTOR_SIZE).

(** The rows of vector [k] among the first [n] rows. *)
Definition rows_of (n k : nat) : nat :=
  ((n - k * STANDARD_VECTOR_SIZE) `min` STANDARD_VECTOR_SIZE)%nat.

(** A vector of which the first [n] rows were appended. *)
Definition info_ok (info : option ChunkInfo) (n : nat) : Prop :=
  match info with
  | None => True
  | Some (ConstantInfo _) => n = STANDARD_VECTOR_SIZE
  | Some (VectorInfo v) =>
      n ≠ 0%nat ∧ ChunkVectorInfo_ok v n ∧
      ∀ i, (n <= i < STANDARD_VECTOR_SIZE)%nat → deleted v !!! i = NOT_DELETED_ID
  end.

(** A morsel of which the first [n] rows were appended. *)
Record MorselInfo_ok (m : MorselInfo) (n : nat) : Prop := {
  m_len : length (root_infos m) = MORSEL_VECTOR_COUNT;
  m_rows : (n <= MORSEL_SIZE)%nat;
  m_infos : ∀ k, (k < MORSEL_VECTOR_COUNT)%nat → info_ok (MorselInfo_GetChunkInfo m k) (rows_of n k);
}.

(** ** Lemmas: positions *)

Abbreviation VS := STANDARD_VECTOR_SIZE.

(** [r] is row [i] of vector [k]. *)
Lemma row_split r : r = (r / VS * VS + r mod VS)%nat ∧ (r mod VS < VS)%nat.
Proof.
  pose proof STANDARD_VECTOR_SIZE_pos. split; [|apply Nat.mod_upper_bound; lia].
  rewrite Nat.mul_comm. apply Nat.div_mod_eq.
Qed.

Lemma row_join k i : (i < VS)%nat → ((k * VS + i) / VS = k ∧ (k * VS + i) mod VS = i)%nat.
Proof.
  intros Hi. split.
  - rewrite Nat.div_add_l by lia. rewrite Nat.div_small by done. lia.
  - rewrite Nat.add_comm, Nat.Div0.mod_add. by apply Nat.mod_small.
Qed.

Lemma row_sub r : (r - r / VS * VS = r mod VS)%nat.
Proof. destruct (row_split r) as [H _]. lia. Qed.

Lemma lex_le (a b i j : nat) :
  (i < VS)%nat → (j < VS)%nat →
  (a * VS + i <= b * VS + j)%nat ↔ (a < b)%nat ∨ a = b ∧ (i <= j)%nat.
Proof.
  intros Hi Hj. split.
  - intros H. destruct (lt_eq_lt_dec a b) as [[?| ->]|Hlt]; [by left|right; lia|].
    assert ((b + 1) * VS <= a * VS)%nat by (apply Nat.mul_le_mono_r; lia). lia.
  - intros [Hlt|[-> ?]]; [|lia].
    assert ((a + 1) * VS <= b * VS)%nat by (apply Nat.mul_le_mono_r; lia). lia.
Qed.

(** The parts handed to the vectors make up the range. *)
Lemma vector_part_spec ms me k i :
  (ms < me)%nat → (i < VS)%nat →
  (ms <= k * VS + i < me)%nat ↔
  (ms / VS <= k <= (me - 1) / VS)%nat ∧
  ((vector_part ms me k).1 <= i < (vector_part ms me k).2)%nat.
Proof.
  intros Hlt Hi. destruct (row_split ms) as [Hms Hims], (row_split (me - 1)) as [Hme Hime].
  unfold vector_part. cbn [fst snd].
  set (a := (ms / VS)%nat) in *. set (b := ((me - 1) / VS)%nat) in *.
  pose proof (lex_le a k (ms mod VS) i Hims Hi) as H1.
  pose proof (lex_le k b i ((me - 1) mod VS) Hi Hime) as H2.
  rewrite <-Hms in H1. rewrite <-Hme in H2.
  destruct (Nat.eqb_spec k a) as [Hka|Hka], (Nat.eqb_spec k b) as [Hkb|Hkb]; lia.
Qed.

Lemma vector_part_le ms me k :
  (ms < me)%nat → (ms / VS <= k <= (me - 1) / VS)%nat →
  ((vector_part ms me k).1 < (vector_part ms me k).2 <= VS)%nat.
Proof.
  intros Hlt Hk. destruct (row_split ms) as [Hms Hims], (row_split (me - 1)) as [Hme Hime].
  unfold vector_part. cbn [fst snd].
  set (a := (ms / VS)%nat) in *. set (b := ((me - 1) / VS)%nat) in *.
  pose proof (lex_le a b (ms mod VS) ((me - 1) mod VS) Hims Hime) as H1.
  rewrite <-Hms, <-Hme in H1.
  destruct (Nat.eqb_spec k a) as [Hka|Hka], (Nat.eqb_spec k b) as [Hkb|Hkb]; lia.
Qed.


Lemma row_vector_lt r : (r < MORSEL_SIZE)%nat → (r / VS < MORSEL_VECTOR_COUNT)%nat.
Proof. intros H. apply Nat.Div0.div_lt_upper_bound. exact H. Qed.

Lemma row_lt k i : (k < MORSEL_VECTOR_COUNT)%nat → (i < VS)%nat → (k * VS + i < MORSEL_SIZE)%nat.
Proof.
  intros Hk Hi. unfold MORSEL_SIZE.
  assert ((k + 1) * VS <= MORSEL_VECTOR_COUNT * VS)%nat by (apply Nat.mul_le_mono_r; lia). lia.
Qed.

Lemma rows_of_lt n k i : (i < VS)%nat → (i < rows_of n k)%nat ↔ (k * VS + i < n)%nat.
Proof. intros Hi. unfold rows_of. lia. Qed.

Lemma rows_of_le n k : (rows_of n k <= VS)%nat.
Proof. unfold rows_of. lia. Qed.

Lemma version_join m k i :
  (i < VS)%nat → version m (k * VS + i) = info_version (MorselInfo_GetChunkInfo m k) i.
Proof. intros Hi. unfold version. by destruct (row_join k i Hi) as [-> ->]. Qed.

(** The part of a vector that an append covers starts after the rows it has. *)
Lemma vector_part_rows ms me k :
  (ms < me)%nat → (ms / VS <= k <= (me - 1) / VS)%nat →
  vector_part ms me k = (rows_of ms k, rows_of me k).
Proof.
  intros Hlt Hk. destruct (row_split ms) as [Hms Hims], (row_split (me - 1)) as [Hme Hime].
  unfold vector_part, rows_of.
  set (a := (ms / VS)%nat) in *. set (b := ((me - 1) / VS)%nat) in *.
  pose proof (lex_le a k (ms mod VS) 0 Hims ltac:(lia)) as H1.
  pose proof (lex_le k b (VS - 1) ((me - 1) mod VS) ltac:(lia) Hime) as H2.
  pose proof (lex_le k b 0 ((me - 1) mod VS) ltac:(lia) Hime) as H3.
  rewrite <-Hms in H1. rewrite <-Hme in H2, H3.
  clearbody a b.
  destruct (Nat.eqb_spec k a) as [Hka|Hka], (Nat.eqb_spec k b) as [Hkb|Hkb]; subst; f_equal; try lia.
Qed.

(** A vector outside of an appended range keeps its number of rows. *)
Lemma rows_of_outside ms me k :
  (ms < me)%nat → ¬ (ms / VS <= k <= (me - 1) / VS)%nat → rows_of me k = rows_of ms k.
Proof.
  intros Hlt Hk. destruct (row_split ms) as [Hms Hims], (row_split (me - 1)) as [Hme Hime].
  unfold rows_of.
  set (a := (ms / VS)%nat) in *. set (b := ((me - 1) / VS)%nat) in *.
  pose proof (lex_le (k + 1) a 0 (ms mod VS) ltac:(lia) Hims) as H1.
  pose proof (lex_le k b 0 ((me - 1) mod VS) ltac:(lia) Hime) as H3.
  pose proof (lex_le a b (ms mod VS) ((me - 1) mod VS) Hims Hime) as H4.
  rewrite <-Hms in H1, H4. rewrite <-Hme in H3, H4. lia.
Qed.

(** ** Lemmas: updating vectors *)

Lemma MVC_pos : (0 < MORSEL_VECTOR_COUNT)%nat.
Proof. apply Nat.ltb_lt. vm_compute. reflexivity. Qed.

#[global] Opaque MORSEL_VECTOR_COUNT.

Lemma length_set_info m k info : length (root_infos (set_info m k info)) = length (root_infos m).
Proof. cbn. apply length_insert. Qed.

Lemma GetChunkInfo_root m k :
  length (root_infos m) = MORSEL_VECTOR_COUNT → (k < MORSEL_VECTOR_COUNT)%nat →
  root_infos m !! k = Some (MorselInfo_GetChunkInfo m k).
Proof.
  unfold MorselInfo_GetChunkInfo, root_infos. destruct (m_root m) as [infos|]; cbn.
  - intros Hl Hk. destruct (lookup_lt_is_Some_2 infos k) as [x ->]; [lia|done].
  - intros _ Hk. by apply lookup_replicate_2.
Qed.

Lemma GetChunkInfo_set_info m k info j :
  length (root_infos m) = MORSEL_VECTOR_COUNT → (k < MORSEL_VECTOR_COUNT)%nat →
  MorselInfo_GetChunkInfo (set_info m k info) j =
    if decide (j = k) then info else MorselInfo_GetChunkInfo m j.
Proof.
  intros Hl Hk. unfold MorselInfo_GetChunkInfo at 1, set_info. cbn [m_root].
  destruct (decide (j = k)) as [->|Hne].
  - by rewrite list_lookup_insert_eq by lia.
  - rewrite list_lookup_insert_ne by done.
    destruct (decide (j < MORSEL_VECTOR_COUNT)%nat).
    + by rewrite GetChunkInfo_root by done.
    + rewrite lookup_ge_None_2 by lia. unfold MorselInfo_GetChunkInfo, root_infos in *.
      destruct (m_root m) as [infos|]; cbn in *; [|done]. by rewrite lookup_ge_None_2 by lia.
Qed.

Lemma GetChunkInfo_touch m k :
  MorselInfo_GetChunkInfo (mkMorselInfo (m_start m) (Some (root_infos m))) k =
  MorselInfo_GetChunkInfo m k.
Proof.
  unfold MorselInfo_GetChunkInfo, root_infos. cbn [m_root]. destruct (m_root m); cbn; [done|].
  unfold VersionNode_new. destruct (decide (k < MORSEL_VECTOR_COUNT)%nat).
  - by rewrite lookup_replicate_2.
  - rewrite lookup_ge_None_2; [done|]. rewrite length_replicate. lia.
Qed.

(** [m'] is [m] with the info of the vectors in [[a, b)] mapped by [g]. *)
Definition mapped (g : nat → option ChunkInfo → option ChunkInfo) (a b : nat)
    (m m' : MorselInfo) : Prop :=
  m_start m' = m_start m ∧ length (root_infos m') = MORSEL_VECTOR_COUNT ∧
  ∀ k, MorselInfo_GetChunkInfo m' k =
    if decide (a <= k < b)%nat then g k (MorselInfo_GetChunkInfo m k)
    else MorselInfo_GetChunkInfo m k.

Lemma for_mapped g f m a b :
  length (root_infos m) = MORSEL_VECTOR_COUNT → (a <= b <= MORSEL_VECTOR_COUNT)%nat →
  (∀ k m', (k < MORSEL_VECTOR_COUNT)%nat → m_start m' = m_start m →
     length (root_infos m') = MORSEL_VECTOR_COUNT → mapped g k (S k) m' (f k m')) →
  mapped g a b m (for_ a b f m).
Proof.
  intros Hl Hab Hf. apply (for_ind (λ i m', mapped g a i m m')); [lia| |].
  { split_and!; [done..|]. intros k. by case_decide; [lia|]. }
  intros i m' Hi (Hs & Hl' & Hg). destruct (Hf i m') as (Hs' & Hl'' & Hg'); [lia|done..|].
  split_and!; [congruence|done|]. intros k. rewrite Hg', Hg.
  destruct (decide (i <= k < S i)%nat), (decide (a <= k < S i)%nat),
    (decide (a <= k < i)%nat); (done || lia).
Qed.

Lemma set_info_mapped g m k info :
  (k < MORSEL_VECTOR_COUNT)%nat → length (root_infos m) = MORSEL_VECTOR_COUNT →
  g k (MorselInfo_GetChunkInfo m k) = info → mapped g k (S k) m (set_info m k info).
Proof.
  intros Hk Hl Hg. split_and!; [done|by rewrite length_set_info|].
  intros j. rewrite GetChunkInfo_set_info by done.
  destruct (decide (j = k)) as [->|]; [by rewrite decide_True by lia|by rewrite decide_False by lia].
Qed.

Lemma same_mapped g m k :
  length (root_infos m) = MORSEL_VECTOR_COUNT →
  g k (MorselInfo_GetChunkInfo m k) = MorselInfo_GetChunkInfo m k → mapped g k (S k) m m.
Proof.
  intros Hl Hg. split_and!; [done..|]. intros j. case_decide; [|done].
  by replace j with k by lia.
Qed.

(** An operation that maps the infos of some vectors, described row by row. *)
Lemma mapped_version g a b m m' n n' (F : nat → Z * Z → Z * Z) :
  mapped g a b m m' → MorselInfo_ok m n → (n' <= MORSEL_SIZE)%nat →
  (∀ k, (k < MORSEL_VECTOR_COUNT)%nat → (a <= k < b)%nat →
     info_ok (MorselInfo_GetChunkInfo m k) (rows_of n k) →
     info_ok (g k (MorselInfo_GetChunkInfo m k)) (rows_of n' k) ∧
     ∀ i, (i < VS)%nat → info_version (g k (MorselInfo_GetChunkInfo m k)) i =
       F (k * VS + i)%nat (info_version (MorselInfo_GetChunkInfo m k) i)) →
  (∀ k, (k < MORSEL_VECTOR_COUNT)%nat → ¬ (a <= k < b)%nat →
     (info_ok (MorselInfo_GetChunkInfo m k) (rows_of n k) →
      info_ok (MorselInfo_GetChunkInfo m k) (rows_of n' k)) ∧
     ∀ i v, (i < VS)%nat → F (k * VS + i)%nat v = v) →
  MorselInfo_ok m' n' ∧ ∀ r, (r < MORSEL_SIZE)%nat → version m' r = F r (version m r).
Proof.
  intros (Hs & Hl & Hg) [Hlen Hn Hinf] Hn' Hin Hout. split.
  - split; [done..|]. intros k Hk. rewrite Hg. case_decide as Hd.
    + by apply Hin; auto.
    + apply Hout; auto.
  - intros r Hr. destruct (row_split r) as [Hsplit Hmod]. pose proof (row_vector_lt r Hr) as Hk.
    unfold version. rewrite Hg.
    assert (F r = F (r / VS * VS + r mod VS)%nat) as -> by (by rewrite <-Hsplit).
    case_decide as Hd.
    + apply Hin; auto.
    + by rewrite (proj2 (Hout _ Hk Hd)).
Qed.

(** *** Append *)

(** What [append_vector] does to the info of its vector. *)
Definition append_info (ms ms_end base : nat) (id : Z) (k : nat) (info : option ChunkInfo)
    : option ChunkInfo :=
  let '(start, end_) := vector_part ms ms_end k in
  if (start =? 0)%nat && (end_ =? VS)%nat then
    Some (ConstantInfo (mkChunkConstantInfo (base + k * VS) id NOT_DELETED_ID))
  else
    match info with
    | None => Some (VectorInfo (ChunkVectorInfo_Append (ChunkVectorInfo_new (base + k * VS)) start end_ id))
    | Some (VectorInfo v) => Some (VectorInfo (ChunkVectorInfo_Append v start end_ id))
    | Some (ConstantInfo c) => Some (ConstantInfo c)
    end.

Lemma append_vector_mapped ms me id k m :
  (k < MORSEL_VECTOR_COUNT)%nat → length (root_infos m) = MORSEL_VECTOR_COUNT →
  mapped (append_info ms me (m_start m) id) k (S k) m (append_vector ms me id k m).
Proof.
  intros Hk Hl. unfold append_vector.
  destruct (vector_part ms me k) as [start end_] eqn:Hp.
  destruct ((start =? 0)%nat && (end_ =? VS)%nat) eqn:Hfull.
  { apply set_info_mapped; [done..|]. unfold append_info. by rewrite Hp, Hfull. }
  destruct (MorselInfo_GetChunkInfo m k) as [[c|v]|] eqn:Hi;
    (apply set_info_mapped || apply same_mapped); try done;
    unfold append_info; by rewrite Hp, Hfull, Hi.
Qed.

Lemma ChunkVectorInfo_Append_fields v start end_ id :
  inserted (ChunkVectorInfo_Append v start end_ id) = fill_range start end_ id (inserted v) ∧
  deleted (ChunkVectorInfo_Append v start end_ id) = deleted v.
Proof.
  unfold ChunkVectorInfo_Append. destruct (if (start =? 0)%nat then _ else _). done.
Qed.

(** The version of row [i] after an append to rows [[start, end_)]. *)
Lemma Append_version v n start end_ id i :
  ChunkVectorInfo_ok v n → (i < VS)%nat →
  info_version (Some (VectorInfo (ChunkVectorInfo_Append v start end_ id))) i =
    (if decide (start <= i < end_)%nat then id else inserted v !!! i, deleted v !!! i).
Proof.
  intros Hok Hi. cbn [info_version].
  destruct (ChunkVectorInfo_Append_fields v start end_ id) as [-> ->].
  rewrite lookup_total_fill_range; [done|]. by rewrite (cv_inserted_len _ _ Hok).
Qed.

Lemma new_version start i :
  (i < VS)%nat →
  info_version (Some (VectorInfo (ChunkVectorInfo_new start))) i = (0, NOT_DELETED_ID).
Proof.
  intros Hi. cbn [info_version inserted deleted ChunkVectorInfo_new].
  by rewrite !lookup_total_replicate_2.
Qed.

Lemma Append_info_ok v n end_ id :
  ChunkVectorInfo_ok v n → (n < end_ <= VS)%nat →
  (∀ i, (n <= i < VS)%nat → deleted v !!! i = NOT_DELETED_ID) →
  info_ok (Some (VectorInfo (ChunkVectorInfo_Append v n end_ id))) end_ ∧
  ∀ i, (i < VS)%nat →
    info_version (Some (VectorInfo (ChunkVectorInfo_Append v n end_ id))) i =
    if decide (n <= i < end_)%nat then (id, NOT_DELETED_ID)
    else info_version (Some (VectorInfo v)) i.
Proof.
  intros Hok He Hdel. split.
  - split_and!; [lia| |].
    + apply Append_ok with n; [done|lia..].
    + destruct (ChunkVectorInfo_Append_fields v n end_ id) as [_ ->]. intros; apply Hdel; lia.
  - intros i Hi. rewrite (Append_version v n) by done. case_decide; [|done].
    by rewrite Hdel by lia.
Qed.

Lemma append_info_spec base id info n end_ k ms me :
  vector_part ms me k = (n, end_) → (n < end_ <= VS)%nat → info_ok info n →
  info_ok (append_info ms me base id k info) end_ ∧
  ∀ i, (i < VS)%nat → info_version (append_info ms me base id k info) i =
    if decide (n <= i < end_)%nat then (id, NOT_DELETED_ID) else info_version info i.
Proof.
  intros Hp Hse Hok. unfold append_info. rewrite Hp.
  destruct ((n =? 0)%nat && (end_ =? VS)%nat) eqn:Hfull.
  { apply andb_true_iff in Hfull as [->%Nat.eqb_eq ->%Nat.eqb_eq].
    split; [done|]. intros i Hi. by rewrite decide_True by lia. }
  destruct info as [[c|v]|]; cbn [info_ok] in Hok.
  - lia.
  - destruct Hok as (_ & Hok & Hdel). by apply Append_info_ok.
  - destruct (Append_info_ok (ChunkVectorInfo_new (base + k * VS)) n end_ id) as [Hi Hv];
      [apply ChunkVectorInfo_new_ok; lia|done| |].
    + intros i Hi. apply lookup_total_replicate_2. lia.
    + split; [done|]. intros i Hlt. rewrite Hv by done. case_decide; [done|].
      by apply new_version.
Qed.

Lemma MorselInfo_Append_mapped m n count id :
  MorselInfo_ok m n → (0 < count)%nat → (n + count <= MORSEL_SIZE)%nat →
  mapped (append_info n (n + count) (m_start m) id)
    (n / VS) (S ((n + count - 1) / VS)) m (MorselInfo_Append m n count id).
Proof.
  intros Hok Hc Hle.
  set (m0 := mkMorselInfo (m_start m) (Some (root_infos m))).
  assert (mapped (append_info n (n + count) (m_start m) id)
            (n / VS) (S ((n + count - 1) / VS)) m0 (MorselInfo_Append m n count id)) as (? & ? & Hg).
  { apply for_mapped.
    - apply (m_len _ _ Hok).
    - pose proof (row_vector_lt (n + count - 1) ltac:(lia)).
      pose proof (Nat.Div0.div_le_mono n (n + count - 1) VS ltac:(lia)). lia.
    - intros k m' Hk Hs Hl. cbn [m_start] in Hs. rewrite <-Hs. by apply append_vector_mapped. }
  split_and!; [done..|]. intros k. rewrite Hg. unfold m0. by rewrite GetChunkInfo_touch.
Qed.

(** Appending [count] rows after the first [n] makes exactly the new rows
    belong to the appending transaction; the versions of all other rows are
    untouched and the version information stays well-formed, whatever mix of
    constant and per-row infos the range touches. *)
Lemma MorselInfo_Append_spec m n count id :
  MorselInfo_ok m n → (0 < count)%nat → (n + count <= MORSEL_SIZE)%nat →
  MorselInfo_ok (MorselInfo_Append m n count id) (n + count) ∧
  ∀ r, (r < MORSEL_SIZE)%nat →
    version (MorselInfo_Append m n count id) r =
      if decide (n <= r < n + count)%nat then (id, NOT_DELETED_ID) else version m r.
Proof.
  intros Hok Hc Hle. pose proof (MorselInfo_Append_mapped m n count id Hok Hc Hle) as Hmap'.
  refine (mapped_version _ _ _ _ _ _ _
    (λ r v, if decide (n <= r < n + count)%nat then (id, NOT_DELETED_ID) else v) Hmap' Hok Hle _ _).
  - intros k Hk Hin Hinfo.
    pose proof (vector_part_le n (n + count) k ltac:(lia) ltac:(lia)) as Hpart.
    pose proof (vector_part_rows n (n + count) k ltac:(lia) ltac:(lia)) as Hp.
    rewrite Hp in Hpart. cbn [fst snd] in Hpart.
    destruct (append_info_spec (m_start m) id (MorselInfo_GetChunkInfo m k) _ _ k _ _
                Hp Hpart Hinfo) as [Hi Hv].
    split; [done|]. intros i Hlt. rewrite Hv by done.
    pose proof (rows_of_lt n k i Hlt). pose proof (rows_of_lt (n + count) k i Hlt).
    apply decide_ext. lia.
  - intros k Hk Hout. split; [by rewrite (rows_of_outside n (n + count) k) by lia|].
    intros i v Hi. rewrite decide_False; [done|].
    rewrite (vector_part_spec n (n + count) k i) by lia. lia.
Qed.

(** *** Commit and rollback of an append *)

Definition commit_append_info (ms me : nat) (id : Z) (k : nat) (info : option ChunkInfo)
    : option ChunkInfo :=
  (λ info, ChunkInfo_CommitAppend info id (vector_part ms me k).1 (vector_part ms me k).2) <$> info.

Lemma commit_append_vector_mapped ms me id k m :
  (k < MORSEL_VECTOR_COUNT)%nat → length (root_infos m) = MORSEL_VECTOR_COUNT →
  mapped (commit_append_info ms me id) k (S k) m (commit_append_vector ms me id k m).
Proof.
  intros Hk Hl. unfold commit_append_vector.
  destruct (vector_part ms me k) as [start end_] eqn:Hp.
  destruct (MorselInfo_GetChunkInfo m k) as [info|] eqn:Hi;
    (apply set_info_mapped || apply same_mapped); try done;
    unfold commit_append_info; by rewrite Hp, Hi.
Qed.

Lemma commit_append_info_spec ms me id tid k n info :
  let a := (vector_part ms me k).1 in
  let b := (vector_part ms me k).2 in
  (a < b <= n)%nat → info_ok info n → tid ≠ 0 → (n <= VS)%nat →
  (∀ i, (i < n)%nat → (info_version info i).1 = tid ↔ (a <= i < b)%nat) →
  info_ok (commit_append_info ms me id k info) n ∧
  ∀ i, (i < VS)%nat → info_version (commit_append_info ms me id k info) i =
    if decide (a <= i < b)%nat then (id, (info_version info i).2) else info_version info i.
Proof.
  intros a b Hab Hok Htid HnVS Hrange. unfold commit_append_info. fold a b.
  pose proof (proj2 (Hrange a ltac:(lia)) ltac:(lia)) as Ha.
  destruct info as [[c|v]|]; cbn [fmap option_fmap option_map ChunkInfo_CommitAppend info_ok info_version fst snd] in *.
  - split; [done|]. intros i Hi. rewrite decide_True; [done|]. apply Hrange; [lia|done].
  - destruct Hok as (Hn & Hok & Hdel).
    assert (same_inserted_id v = true → a = 0%nat ∧ (n <= b)%nat) as Hsame.
    { intros Hs. assert (∀ i, (i < n)%nat → (a <= i < b)%nat) as Hall.
      { intros i Hi. apply Hrange; [done|].
        rewrite <-Ha. by rewrite !(cv_same _ _ Hok Hs) by lia. }
      pose proof (Hall 0%nat ltac:(lia)). pose proof (Hall (n - 1)%nat ltac:(lia)). lia. }
    split.
    + split_and!; [done|by apply CommitAppend_ok|done].
    + intros i Hi. cbn [inserted deleted ChunkVectorInfo_CommitAppend].
      rewrite lookup_total_fill_range by (by rewrite (cv_inserted_len _ _ Hok)).
      by case_decide.
  - congruence.
Qed.

Lemma MorselInfo_CommitAppend_mapped m s count id :
  length (root_infos m) = MORSEL_VECTOR_COUNT → (0 < count)%nat → (s + count <= MORSEL_SIZE)%nat →
  mapped (commit_append_info s (s + count) id)
    (s / VS) (S ((s + count - 1) / VS)) m (MorselInfo_CommitAppend m id s count).
Proof.
  intros Hl Hc Hle. apply for_mapped; [done| |].
  - pose proof (row_vector_lt (s + count - 1) ltac:(lia)).
    pose proof (Nat.Div0.div_le_mono s (s + count - 1) VS ltac:(lia)). lia.
  - intros k m' Hk Hs Hl'. by apply commit_append_vector_mapped.
Qed.

(** Committing an append turns the transaction's id into the commit id on
    exactly the appended rows, provided these are the rows the transaction
    inserted (all rows of the same transaction are committed together); the
    deletion ids and every other row are untouched. *)
Lemma MorselInfo_CommitAppend_spec m n s count tid id :
  MorselInfo_ok m n → (0 < count)%nat → (s + count <= n)%nat → tid ≠ 0 →
  (∀ r, (r < n)%nat → (version m r).1 = tid ↔ (s <= r < s + count)%nat) →
  MorselInfo_ok (MorselInfo_CommitAppend m id s count) n ∧
  ∀ r, (r < MORSEL_SIZE)%nat →
    version (MorselInfo_CommitAppend m id s count) r =
      if decide (s <= r < s + count)%nat then (id, (version m r).2) else version m r.
Proof.
  intros Hok Hc Hle Htid Hrange. pose proof (m_rows _ _ Hok) as Hn.
  pose proof (MorselInfo_CommitAppend_mapped m s count id (m_len _ _ Hok) Hc ltac:(lia)) as Hmap.
  refine (mapped_version _ _ _ _ _ _ _
    (λ r v, if decide (s <= r < s + count)%nat then (id, v.2) else v) Hmap Hok Hn _ _).
  - intros k Hk Hin Hinfo.
    pose proof (vector_part_le s (s + count) k ltac:(lia) ltac:(lia)) as Hpart.
    pose proof (λ i, vector_part_spec s (s + count) k i ltac:(lia)) as Hspec.
    assert ((vector_part s (s + count) k).2 <= rows_of n k)%nat as Hend.
    { rewrite (vector_part_rows s (s + count) k) by lia. cbn [snd]. unfold rows_of. lia. }
    destruct (commit_append_info_spec s (s + count) id tid k (rows_of n k)
      (MorselInfo_GetChunkInfo m k)) as [Hi Hv]; [lia|done|done|apply rows_of_le| |].
    { intros i Hi. pose proof (rows_of_le n k).
      assert (i < VS)%nat as HiVS by lia. pose proof (proj1 (rows_of_lt n k i HiVS) Hi) as Hr.
      specialize (Hrange _ Hr). rewrite version_join in Hrange by done.
      rewrite Hrange, Hspec by done. lia. }
    split; [done|]. intros i Hlt. rewrite Hv by done. apply decide_ext.
    rewrite Hspec by done. lia.
  - intros k Hk Hout. split; [done|].
    intros i v Hi. rewrite decide_False; [done|].
    rewrite (vector_part_spec s (s + count) k i) by lia. lia.
Qed.

Lemma ChunkVectorInfo_ok_mono v n n' :
  ChunkVectorInfo_ok v n → (n' <= n)%nat → ChunkVectorInfo_ok v n'.
Proof.
  intros [? ? ? Hs ?] Hle. split; [done|done|lia| |done]. intros Hsame i Hi. apply Hs; [done|lia].
Qed.

(** The first vector that [RevertAppend] resets. *)
Lemma revert_vector s k : (k < (s + (VS - 1)) / VS)%nat ↔ (k * VS < s)%nat.
Proof.
  pose proof STANDARD_VECTOR_SIZE_pos.
  destruct (row_split (s + (VS - 1))) as [Hs Hi].
  set (a := ((s + (VS - 1)) / VS)%nat) in *.
  pose proof (lex_le (k + 1) a 0 ((s + (VS - 1)) mod VS) ltac:(lia) Hi) as H1.
  rewrite <-Hs in H1. lia.
Qed.

Lemma RevertAppend_mapped m n s :
  MorselInfo_ok m n → (s <= n)%nat →
  mapped (λ _ _, None) ((s + (VS - 1)) / VS) MORSEL_VECTOR_COUNT m
    (MorselInfo_RevertAppend m (m_start m + s)).
Proof.
  intros Hok Hs. pose proof (m_len _ _ Hok) as Hl. unfold MorselInfo_RevertAppend.
  replace (m_start m + s - m_start m)%nat with s by lia.
  destruct (m_root m) as [infos|] eqn:Hr.
  - split_and!; [done| |].
    + cbn. unfold root_infos in Hl. rewrite Hr in Hl. cbn in Hl.
      by rewrite length_fill_range.
    + intros k. unfold MorselInfo_GetChunkInfo. rewrite Hr. cbn [m_root].
      unfold root_infos in Hl. rewrite Hr in Hl. cbn in Hl.
      destruct (decide (k < length infos)%nat).
      * rewrite fill_range_lookup by done. by case_decide.
      * rewrite !lookup_ge_None_2; [by case_decide|lia|].
        rewrite length_fill_range. lia.
  - split_and!; [done..|]. intros k. unfold MorselInfo_GetChunkInfo. rewrite Hr. by case_decide.
Qed.

Lemma info_ok_cut info n s k :
  info_ok info (rows_of n k) → (k * VS < s)%nat → (s <= n)%nat →
  (∀ c, info = Some (ConstantInfo c) → (S k * VS <= s)%nat) →
  (∀ i, (i < VS)%nat → (s <= k * VS + i < n)%nat → (info_version info i).2 = NOT_DELETED_ID) →
  info_ok info (rows_of s k).
Proof.
  intros Hok Hk Hs Hcst Hdel. destruct info as [[c|v]|]; cbn [info_ok] in *; [| |done].
  - specialize (Hcst c eq_refl). unfold rows_of. lia.
  - destruct Hok as (Hn & Hok & Hd). pose proof (rows_of_le s k).
    pose proof STANDARD_VECTOR_SIZE_pos. split_and!.
    + unfold rows_of. lia.
    + apply (ChunkVectorInfo_ok_mono _ _ _ Hok). unfold rows_of. lia.
    + intros i Hi. destruct (decide (i < rows_of n k)%nat) as [Hlt|Hge].
      * apply (Hdel i); [lia|]. rewrite rows_of_lt in Hlt by lia.
        pose proof (rows_of_lt s k i ltac:(lia)). lia.
      * apply Hd. lia.
Qed.

(** Rolling back an append at row [s] of the morsel keeps the rows before
    it exactly as they were and leaves a well-formed morsel to which the next
    append can be applied, provided no constant info straddles the cut and the
    removed rows were not deleted. *)
Lemma MorselInfo_RevertAppend_spec m n s :
  MorselInfo_ok m n → (s <= n)%nat →
  (∀ r, (s <= r < n)%nat → (version m r).2 = NOT_DELETED_ID) →
  (∀ k c, MorselInfo_GetChunkInfo m k = Some (ConstantInfo c) → (S k * VS <= s ∨ s <= k * VS)%nat) →
  MorselInfo_ok (MorselInfo_RevertAppend m (m_start m + s)) s ∧
  ∀ r, (r < MORSEL_SIZE)%nat →
    version (MorselInfo_RevertAppend m (m_start m + s)) r =
      if decide (r / VS < (s + (VS - 1)) / VS)%nat then version m r else (0, NOT_DELETED_ID).
Proof.
  intros Hok Hs Hdel Hcst. pose proof (m_rows _ _ Hok) as Hn.
  refine (mapped_version _ _ _ _ _ _ _
    (λ r v, if decide (r / VS < (s + (VS - 1)) / VS)%nat then v else (0, NOT_DELETED_ID))
    (RevertAppend_mapped m n s Hok Hs) Hok _ _ _); [lia| |].
  - intros k Hk Hin _. split; [done|]. intros i Hi.
    rewrite decide_False; [done|]. destruct (row_join k i Hi) as [-> _]. lia.
  - intros k Hk Hout. pose proof (revert_vector s k) as Hrv. split.
    + intros Hinfo. apply (info_ok_cut _ n); [done|lia|done| |].
      * intros c Hc. destruct (Hcst k c Hc); lia.
      * intros i Hi Hr. rewrite <-version_join by done. by apply Hdel.
    + intros i v Hi. rewrite decide_True; [done|]. destruct (row_join k i Hi) as [-> _]. lia.
Qed.

(** *** Reading *)

(** Row visibility at the snapshot of a transaction. *)
Definition row_visible (t : Transaction) (v : Z * Z) : bool :=
  UseVersion_txn t v.1 && negb (UseVersion_txn t v.2).

Lemma Fetch_version m t r :
  0 < start_time t → snapshot_ok (start_time t) (transaction_id t) →
  MorselInfo_Fetch m t r = row_visible t (version m r).
Proof.
  intros Hst Hsnap. unfold MorselInfo_Fetch, version. rewrite row_sub.
  destruct (MorselInfo_GetChunkInfo m (r / VS)) as [[c|v]|]; [done..|].
  unfold row_visible, UseVersion_txn. cbn [info_version fst snd].
  rewrite UseVersion_not_deleted by done.
  by rewrite (proj2 (UseVersion_true _ _ 0)) by (left; lia).
Qed.

(** what a scan of a vector selects is what fetching its rows one by one
    accepts, and both are the snapshot's view of the rows' versions. *)
Theorem MorselInfo_scan_fetch m n t k sel max_count :
  MorselInfo_ok m n → (k < MORSEL_VECTOR_COUNT)%nat → (max_count <= rows_of n k)%nat →
  0 < start_time t → snapshot_ok (start_time t) (transaction_id t) → length sel = VS →
  sel_rows max_count (MorselInfo_GetSelVector m t k sel max_count) =
    List.filter (λ i, MorselInfo_Fetch m t (k * VS + i)) (seq 0 max_count) ∧
  ∀ r, MorselInfo_Fetch m t r = row_visible t (version m r).
Proof.
  intros Hok Hk Hmax Hst Hsnap Hsel. split; [|intros; by apply Fetch_version].
  pose proof (rows_of_le n k). pose proof (m_infos _ _ Hok k Hk) as Hinfo.
  erewrite filter_ext_elem; cycle 1.
  { intros i [_ Hi]%elem_of_seq. rewrite Fetch_version by done.
    rewrite version_join by lia. reflexivity. }
  unfold MorselInfo_GetSelVector.
  destruct (MorselInfo_GetChunkInfo m k) as [[c|v]|]; cbn [ChunkInfo_GetSelVector].
  - unfold ChunkConstantInfo_GetSelVector. case_match eqn:Hc.
    + rewrite filter_all by done. unfold sel_rows. cbn [fst]. by rewrite Nat.eqb_refl.
    + by apply sel_rows_none.
  - destruct Hinfo as (_ & Hv & _). rewrite (GetSelVector_eff v (rows_of n k)) by (done || lia).
    apply filter_ext_elem. intros i [_ Hi]%elem_of_seq.
    apply (eff_visible_visible v (rows_of n k)); [done|lia].
  - unfold sel_rows. cbn [fst]. rewrite Nat.eqb_refl. symmetry. apply filter_all.
    intros i _. unfold row_visible, UseVersion_txn. cbn [info_version fst snd].
    rewrite UseVersion_not_deleted by done.
    by rewrite (proj2 (UseVersion_true _ _ 0)) by (left; lia).
Qed.

(** *** Delete *)

(** The rows (of the morsel) that an undo entry covers. *)
Definition DeleteInfo_rows (e : DeleteInfo) : list nat :=
  (λ i, di_vector e * VS + i)%nat <$> di_rows e.

Definition undo_rows (undo : list DeleteInfo) : list nat := undo ≫= DeleteInfo_rows.

(** Changing the info of one vector. *)
Lemma set_info_version m n k info (F : nat → Z * Z → Z * Z) :
  MorselInfo_ok m n → (k < MORSEL_VECTOR_COUNT)%nat → info_ok info (rows_of n k) →
  (∀ i, (i < VS)%nat → info_version info i =
     F (k * VS + i)%nat (info_version (MorselInfo_GetChunkInfo m k) i)) →
  (∀ j i v, j ≠ k → (i < VS)%nat → F (j * VS + i)%nat v = v) →
  MorselInfo_ok (set_info m k info) n ∧
  ∀ r, (r < MORSEL_SIZE)%nat → version (set_info m k info) r = F r (version m r).
Proof.
  intros Hok Hk Hinfo Hin Hout.
  refine (mapped_version (λ _ _, info) k (S k) _ _ n n F _ Hok (m_rows _ _ Hok) _ _).
  - by apply set_info_mapped; [|apply (m_len _ _ Hok)|].
  - intros j _ Hj _. by replace j with k by lia.
  - intros j _ Hj. split; [done|]. intros i v. apply Hout. lia.
Qed.

Lemma elem_of_vector_rows k rows j i :
  (i < VS)%nat → Forall (λ i, i < VS)%nat rows →
  (j * VS + i)%nat ∈ (λ i, k * VS + i)%nat <$> rows ↔ j = k ∧ i ∈ rows.
Proof.
  intros Hi Hrows. rewrite Forall_forall in Hrows. rewrite list_elem_of_fmap. split.
  - intros (x & Heq & Hx). specialize (Hrows x Hx).
    destruct (row_join j i Hi) as [Hj1 Hj2]. destruct (row_join k x Hrows) as [Hk1 Hk2].
    rewrite Heq in Hj1, Hj2. split; [congruence|]. by replace i with x by congruence.
  - intros [-> Hx]. by exists i.
Qed.

Lemma vector_info_of_spec first_row info n :
  info_ok info n → n ≠ 0%nat → (n <= VS)%nat →
  (∀ c, info = Some (ConstantInfo c) → cc_delete_id c = NOT_DELETED_ID) →
  info_ok (Some (VectorInfo (vector_info_of first_row info))) n ∧
  ∀ i, (i < VS)%nat →
    info_version (Some (VectorInfo (vector_info_of first_row info))) i = info_version info i.
Proof.
  intros Hok Hn Hle Hlive. destruct info as [[c|v]|]; cbn [vector_info_of].
  - specialize (Hlive c eq_refl). cbn [info_ok info_version] in *. split.
    + split_and!; [done| |].
      * split; cbn [inserted deleted same_inserted_id insert_id any_deleted ChunkVectorInfo_new].
        -- by rewrite length_fill_range, length_replicate.
        -- apply length_replicate.
        -- done.
        -- intros _ i Hi. rewrite lookup_total_fill_range by (rewrite length_replicate; lia).
           by rewrite decide_True by lia.
        -- intros _ i Hi. by apply lookup_total_replicate_2.
      * intros i Hi. apply lookup_total_replicate_2. lia.
    + intros i Hi. cbn [inserted deleted ChunkVectorInfo_new].
      rewrite lookup_total_fill_range by (by rewrite length_replicate).
      rewrite decide_True by lia. rewrite lookup_total_replicate_2 by done. by rewrite Hlive.
  - done.
  - split; [|intros i Hi; by apply new_version]. split_and!; [done|by apply ChunkVectorInfo_new_ok|].
    intros i Hi. apply lookup_total_replicate_2. lia.
Qed.

Lemma ensure_vector_info_spec m n k :
  MorselInfo_ok m n → (k < MORSEL_VECTOR_COUNT)%nat → rows_of n k ≠ 0%nat →
  (∀ c, MorselInfo_GetChunkInfo m k = Some (ConstantInfo c) → cc_delete_id c = NOT_DELETED_ID) →
  MorselInfo_ok (ensure_vector_info m k) n ∧
  ∀ r, (r < MORSEL_SIZE)%nat → version (ensure_vector_info m k) r = version m r.
Proof.
  intros Hok Hk Hn Hlive. unfold ensure_vector_info.
  destruct (vector_info_of_spec (m_start m + k * VS) (MorselInfo_GetChunkInfo m k) (rows_of n k))
    as [Hi Hv]; [apply (m_infos _ _ Hok k Hk)|done|apply rows_of_le|done|].
  by apply (set_info_version m n k _ (λ _ v, v)).
Qed.

(** An undo entry that refers to a vector with deletions. *)
Definition entry_ok (m : MorselInfo) (e : DeleteInfo) : Prop :=
  (di_vector e < MORSEL_VECTOR_COUNT)%nat ∧ Forall (λ i, i < VS)%nat (di_rows e) ∧
  ∃ v, MorselInfo_GetChunkInfo m (di_vector e) = Some (VectorInfo v) ∧ any_deleted v = true.

(** The state of a deletion of which the rows [flushed] were marked and the
    rows [pending] are collected. *)
Record delete_inv (m : MorselInfo) (n : nat) (tid : Z) (flushed : list nat)
    (d : VersionDeleteState) : Prop := {
  di_ok : MorselInfo_ok (vd_info d) n;
  di_start : m_start (vd_info d) = m_start m;
  di_versions : ∀ r, (r < MORSEL_SIZE)%nat → version (vd_info d) r =
    if decide (r ∈ flushed) then ((version m r).1, tid) else version m r;
  di_undo : undo_rows (vd_undo d) = flushed;
  di_undo_ok : Forall (entry_ok (vd_info d)) (vd_undo d);
  di_flushed : ∀ r, r ∈ flushed → (r < n)%nat ∧ (version m r).2 = NOT_DELETED_ID ∧
    (version m r).1 < TRANSACTION_ID_START;
  di_constants : ∀ k c, MorselInfo_GetChunkInfo (vd_info d) k = Some (ConstantInfo c) →
    MorselInfo_GetChunkInfo m k = Some (ConstantInfo c);
  di_rows_lt : Forall (λ i, i < VS)%nat (vd_rows d);
  di_current : match vd_current_chunk d with
    | None => vd_rows d = []
    | Some k => (k < MORSEL_VECTOR_COUNT)%nat ∧
        (∃ v, MorselInfo_GetChunkInfo (vd_info d) k = Some (VectorInfo v)) ∧
        Forall (λ i, k * VS + i < n)%nat (vd_rows d)
    end;
}.

(** The rows collected in [d] that are not yet marked. *)
Definition pending (d : VersionDeleteState) : list nat :=
  match vd_current_chunk d with
  | None => []
  | Some k => (λ i, k * VS + i)%nat <$> vd_rows d
  end.

Definition is_TransactionException (e : exception) : bool :=
  match e with TransactionException _ => true | _ => false end.

Lemma check_delete_exception v rows e :
  check_delete v rows = Some e → is_TransactionException e = true.
Proof.
  induction rows as [|r rows IH]; simpl; [done|].
  repeat case_match; naive_solver.
Qed.

(** Deleting rows of a vector, on its version pairs. *)
Lemma Delete_version v n t rows :
  info_ok (Some (VectorInfo v)) n → Forall (λ i, i < n)%nat rows →
  match ChunkVectorInfo_Delete v t rows with
  | Ret v' _ =>
      info_ok (Some (VectorInfo v')) n ∧ any_deleted v' = true ∧
      (∀ i, i ∈ rows → (info_version (Some (VectorInfo v)) i).2 = NOT_DELETED_ID ∧
                       (info_version (Some (VectorInfo v)) i).1 < TRANSACTION_ID_START) ∧
      (∀ i, (i < VS)%nat → info_version (Some (VectorInfo v')) i =
         if decide (i ∈ rows) then (inserted v !!! i, transaction_id t)
         else info_version (Some (VectorInfo v)) i)
  | Raise v' e =>
      info_ok (Some (VectorInfo v')) n ∧ any_deleted v' = true ∧ is_TransactionException e = true ∧
      (∃ i, i ∈ rows ∧ ((info_version (Some (VectorInfo v)) i).2 ≠ NOT_DELETED_ID ∨
                        TRANSACTION_ID_START <= (info_version (Some (VectorInfo v)) i).1)) ∧
      (∀ i, info_version (Some (VectorInfo v')) i = info_version (Some (VectorInfo v)) i)
  end.
Proof.
  intros (Hn & Hok & Hdel) Hrows. pose proof (Delete_ok v n t rows Hok) as Hok'.
  pose proof (cv_deleted_len _ _ Hok) as Hlen. pose proof (cv_count _ _ Hok) as Hcnt.
  rewrite Forall_forall in Hrows.
  unfold ChunkVectorInfo_Delete in *. set (v0 := mkChunkVectorInfo _ _ _ _ _ true) in *.
  destruct (check_delete v0 rows) as [e|] eqn:Hc; cbn [out_state] in Hok'.
  - split_and!; [done|done|by eapply check_delete_exception|by apply check_delete_Some in Hc|done].
  - rewrite check_delete_None in Hc. split_and!; [|done|done|].
    + split_and!; [done|done|]. intros i Hi. cbn [deleted].
      rewrite lookup_total_scatter by (subst v0; cbn [deleted]; lia).
      rewrite decide_False; [by apply Hdel|]. intros Hin. specialize (Hrows i Hin). lia.
    + intros i Hi. cbn [info_version inserted deleted].
      rewrite lookup_total_scatter by (subst v0; cbn [deleted]; lia). by case_decide.
Qed.

Lemma undo_rows_app l1 l2 : undo_rows (l1 ++ l2) = undo_rows l1 ++ undo_rows l2.
Proof. apply bind_app. Qed.

(** Replacing the info of the current vector by another vector info keeps what
    the invariant says about infos. *)
Lemma entry_ok_set_info m k v e :
  length (root_infos m) = MORSEL_VECTOR_COUNT → (k < MORSEL_VECTOR_COUNT)%nat →
  (MorselInfo_GetChunkInfo m k ≠ None → any_deleted v = true) →
  entry_ok m e → entry_ok (set_info m k (Some (VectorInfo v))) e.
Proof.
  intros Hl Hk Hv (? & ? & v' & He & ?). split_and!; [done..|].
  rewrite GetChunkInfo_set_info by done. case_decide as Hd; [|eauto].
  exists v. split; [done|]. apply Hv. rewrite <-Hd, He. done.
Qed.

Lemma constants_set_info m k v j c :
  length (root_infos m) = MORSEL_VECTOR_COUNT → (k < MORSEL_VECTOR_COUNT)%nat →
  MorselInfo_GetChunkInfo (set_info m k (Some (VectorInfo v))) j = Some (ConstantInfo c) →
  MorselInfo_GetChunkInfo m j = Some (ConstantInfo c).
Proof. intros Hl Hk. rewrite GetChunkInfo_set_info by done. by case_decide. Qed.

(** The pending rows were marked in the info [v'] and recorded. *)
Lemma mark_inv m n tid flushed info k rows undo v v' base :
  delete_inv m n tid flushed (mkVersionDeleteState info (Some k) rows undo) →
  MorselInfo_GetChunkInfo info k = Some (VectorInfo v) →
  info_ok (Some (VectorInfo v')) (rows_of n k) → any_deleted v' = true →
  (∀ i, i ∈ rows → (info_version (Some (VectorInfo v)) i).2 = NOT_DELETED_ID ∧
                   (info_version (Some (VectorInfo v)) i).1 < TRANSACTION_ID_START) →
  (∀ i, (i < VS)%nat → info_version (Some (VectorInfo v')) i =
     if decide (i ∈ rows) then (inserted v !!! i, tid)
     else info_version (Some (VectorInfo v)) i) →
  tid ≠ NOT_DELETED_ID →
  delete_inv m n tid (flushed ++ ((λ i, k * VS + i)%nat <$> rows))
    (mkVersionDeleteState (set_info info k (Some (VectorInfo v'))) (Some k) []
       (undo ++ [mkDeleteInfo k rows base])).
Proof.
  intros [Hok Hst Hver Hundo Huok Hfl Hcst Hrlt (Hk & _ & Hn)] Hv Hok' Hany Hpre Hv' Htid.
  cbn [vd_info vd_undo vd_rows vd_current_chunk] in *.
  set (new := (λ i, k * VS + i)%nat <$> rows). pose proof (m_len _ _ Hok) as Hl.
  destruct (set_info_version info n k (Some (VectorInfo v'))
    (λ r v, if decide (r ∈ new) then (v.1, tid) else v) Hok Hk Hok') as [Ho Hvs].
  { intros i Hi. rewrite Hv' by done. rewrite Hv.
    pose proof (elem_of_vector_rows k rows k i Hi Hrlt) as Hel. fold new in Hel.
    destruct (decide (i ∈ rows)), (decide (k * VS + i ∈ new)%nat); naive_solver. }
  { intros j i v0 Hj Hi. rewrite decide_False; [done|].
    unfold new. rewrite elem_of_vector_rows by done. naive_solver. }
  assert (∀ r, r ∈ new → (r < n)%nat ∧ (version info r).2 = NOT_DELETED_ID ∧
            (version info r).1 < TRANSACTION_ID_START) as Hnew.
  { intros r (i & -> & Hi)%list_elem_of_fmap. rewrite Forall_forall in Hrlt, Hn.
    rewrite version_join by auto. rewrite Hv. split; [auto|]. by apply Hpre. }
  pose proof (m_rows _ _ Hok) as Hn'.
  split; cbn [vd_info vd_undo vd_rows vd_current_chunk]; [done|done| | | | | | |].
  - intros r Hr. rewrite Hvs, Hver by done.
    destruct (decide (r ∈ flushed)), (decide (r ∈ new)), (decide (r ∈ flushed ++ new)) as [Ha|Ha];
      rewrite elem_of_app in Ha; naive_solver.
  - rewrite undo_rows_app, Hundo. unfold undo_rows. cbn. by rewrite app_nil_r.
  - apply Forall_app. split.
    + eapply Forall_impl; [exact Huok|]. intros e. by apply entry_ok_set_info.
    + constructor; [|constructor]. split_and!; [done|done|]. exists v'. cbn [di_vector].
      by rewrite GetChunkInfo_set_info, decide_True by done.
  - intros r [Hr|Hr]%elem_of_app; [by apply Hfl|]. destruct (Hnew r Hr) as (Hlt & Hd & Hi).
    split; [done|]. rewrite Hver in Hd, Hi by lia. case_decide; [naive_solver|done].
  - intros j c Hj. apply Hcst. by eapply constants_set_info.
  - constructor.
  - split_and!; [done| |constructor].
    exists v'. by rewrite GetChunkInfo_set_info, decide_True by done.
Qed.

(** The pending rows were refused: no version changed. *)
Lemma refuse_inv m n tid flushed info k rows undo v v' :
  delete_inv m n tid flushed (mkVersionDeleteState info (Some k) rows undo) →
  MorselInfo_GetChunkInfo info k = Some (VectorInfo v) →
  info_ok (Some (VectorInfo v')) (rows_of n k) → any_deleted v' = true →
  (∀ i, info_version (Some (VectorInfo v')) i = info_version (Some (VectorInfo v)) i) →
  delete_inv m n tid flushed
    (mkVersionDeleteState (set_info info k (Some (VectorInfo v'))) (Some k) rows undo).
Proof.
  intros [Hok Hst Hver Hundo Huok Hfl Hcst Hrlt (Hk & _ & Hn)] Hv Hok' Hany Hv'.
  cbn [vd_info vd_undo vd_rows vd_current_chunk] in *. pose proof (m_len _ _ Hok) as Hl.
  destruct (set_info_version info n k (Some (VectorInfo v')) (λ _ v, v) Hok Hk Hok') as [Ho Hvs].
  { intros i Hi. by rewrite Hv, Hv'. } { done. }
  split; cbn [vd_info vd_undo vd_rows vd_current_chunk]; try done.
  - intros r Hr. rewrite Hvs by done. by apply Hver.
  - eapply Forall_impl; [exact Huok|]. intros e. by apply entry_ok_set_info.
  - intros j c Hj. apply Hcst. by eapply constants_set_info.
  - split_and!; [done| |done]. exists v'. by rewrite GetChunkInfo_set_info, decide_True by done.
Qed.

(** [Flush] marks the pending rows and records them, or changes no version. *)
Lemma Flush_inv m n t flushed d :
  delete_inv m n (transaction_id t) flushed d → transaction_id t ≠ NOT_DELETED_ID →
  match VersionDeleteState_Flush t d with
  | Ret d' _ =>
      delete_inv m n (transaction_id t) (flushed ++ pending d) d' ∧
      vd_rows d' = [] ∧ vd_current_chunk d' = vd_current_chunk d
  | Raise d' e => delete_inv m n (transaction_id t) flushed d' ∧ is_TransactionException e = true
  end.
Proof.
  intros Hinv Htid. destruct d as [info cc rows undo].
  unfold VersionDeleteState_Flush, pending. cbn [vd_info vd_undo vd_rows vd_current_chunk].
  destruct cc as [k|]; cycle 1.
  { pose proof (di_current _ _ _ _ _ Hinv) as Hr. cbn in Hr. subst rows.
    by rewrite app_nil_r. }
  destruct (decide (rows = [])) as [->|Hne]; [by rewrite app_nil_r|].
  pose proof (di_current _ _ _ _ _ Hinv) as (Hk & (v & Hv) & Hn).
  cbn [vd_info vd_undo vd_rows vd_current_chunk] in *.
  pose proof (m_infos _ _ (di_ok _ _ _ _ _ Hinv) k Hk) as Hinfo. cbn [vd_info] in Hinfo.
  rewrite Hv in Hinfo.
  assert (Forall (λ i, i < rows_of n k)%nat rows) as Hlt.
  { pose proof (di_rows_lt _ _ _ _ _ Hinv) as Hrlt. cbn [vd_rows] in Hrlt.
    rewrite Forall_forall in *. intros i Hi. apply rows_of_lt; auto. }
  pose proof (Delete_version v (rows_of n k) t rows Hinfo Hlt) as Hdel.
  destruct rows as [|r0 rows]; [done|]. rewrite Hv.
  destruct (ChunkVectorInfo_Delete v t (r0 :: rows)) as [v' u|v' e].
  - destruct Hdel as (Hok' & Hany & Hpre & Hv'). split_and!; [|done..]. by eapply mark_inv.
  - destruct Hdel as (Hok' & Hany & He & _ & Hv'). split; [|done]. by eapply refuse_inv.
Qed.

(** Collecting one more row. *)
Lemma push_inv m n tid flushed d k i :
  delete_inv m n tid flushed d → vd_current_chunk d = Some k →
  (i < VS)%nat → (k * VS + i < n)%nat → (length (vd_rows d) < VS)%nat →
  ∃ d', VersionDeleteState_push i d = Ret d' tt ∧ delete_inv m n tid flushed d' ∧
    pending d' = pending d ++ [k * VS + i]%nat.
Proof.
  intros [Hok Hst Hver Hundo Huok Hfl Hcst Hrlt Hcur] Hk Hi Hn Hlen.
  destruct d as [info cc rows undo]. cbn [vd_info vd_undo vd_rows vd_current_chunk] in *. subst cc.
  unfold VersionDeleteState_push. cbn [vd_info vd_undo vd_rows vd_current_chunk].
  rewrite (proj2 (Nat.ltb_lt _ _) Hlen). eexists. split; [done|]. split.
  - destruct Hcur as (? & ? & ?). split; try done; cbn [vd_rows vd_current_chunk vd_info].
    + by apply Forall_app_2; [|constructor].
    + split_and!; [done..|]. by apply Forall_app_2; [|constructor].
  - unfold pending. cbn [vd_current_chunk vd_rows]. by rewrite fmap_app.
Qed.

(** Moving on to vector [k]. *)
Lemma switch_inv m n tid flushed info cc undo k :
  delete_inv m n tid flushed (mkVersionDeleteState info cc [] undo) →
  (k < MORSEL_VECTOR_COUNT)%nat → rows_of n k ≠ 0%nat →
  (∀ c, MorselInfo_GetChunkInfo m k = Some (ConstantInfo c) → cc_delete_id c = NOT_DELETED_ID) →
  delete_inv m n tid flushed
    (mkVersionDeleteState (ensure_vector_info info k) (Some k) [] undo).
Proof.
  intros [Hok Hst Hver Hundo Huok Hfl Hcst Hrlt Hcur] Hk Hn Hlive.
  cbn [vd_info vd_undo vd_rows vd_current_chunk] in *. pose proof (m_len _ _ Hok) as Hl.
  destruct (ensure_vector_info_spec info n k Hok Hk Hn) as [Ho Hv]; [by auto|].
  split; cbn [vd_info vd_undo vd_rows vd_current_chunk]; try done.
  - intros r Hr. rewrite Hv by done. by apply Hver.
  - rewrite Forall_forall in *. intros e He. destruct (Huok e He) as (Hd & Hr & v & Hg & Ha).
    split_and!; [done..|]. unfold ensure_vector_info.
    rewrite GetChunkInfo_set_info by done. case_decide as Hdk; [|eauto].
    subst k. rewrite Hg. cbn [vector_info_of]. eauto.
  - intros j c Hj. apply Hcst. by eapply constants_set_info.
  - split_and!; [done| |constructor]. unfold ensure_vector_info.
    rewrite GetChunkInfo_set_info, decide_True by done. eauto.
Qed.

(** [Delete] of one row. *)
Lemma Delete_row_inv m n t flushed d r :
  delete_inv m n (transaction_id t) flushed d → transaction_id t ≠ NOT_DELETED_ID →
  (r < n)%nat → (length (pending d) < VS)%nat →
  (∀ c, MorselInfo_GetChunkInfo m (r / VS) = Some (ConstantInfo c) →
        cc_delete_id c = NOT_DELETED_ID) →
  match VersionDeleteState_Delete t r d with
  | Ret d' _ => ∃ flushed', delete_inv m n (transaction_id t) flushed' d' ∧
      flushed' ++ pending d' = flushed ++ pending d ++ [r]
  | Raise d' e => ∃ flushed', delete_inv m n (transaction_id t) flushed' d' ∧
      is_TransactionException e = true
  end.
Proof.
  intros Hinv Htid Hr Hlen Hlive. destruct (row_split r) as [Hsplit Hmod].
  pose proof (m_rows _ _ (di_ok _ _ _ _ _ Hinv)) as HnM.
  pose proof (row_vector_lt r ltac:(lia)) as Hk.
  unfold VersionDeleteState_Delete. rewrite row_sub. case_decide as Hcc.
  - destruct (push_inv m n _ flushed d _ (r mod VS) Hinv Hcc) as (d' & -> & Hd' & Hp);
      [done|by rewrite <-Hsplit| |].
    { revert Hlen. unfold pending. rewrite Hcc. by rewrite length_fmap. }
    exists flushed. split; [done|]. by rewrite Hp, <-Hsplit.
  - pose proof (Flush_inv m n t flushed d Hinv Htid) as Hf.
    destruct (VersionDeleteState_Flush t d) as [d1 ?|d1 e]; [|naive_solver].
    destruct Hf as (Hinv1 & Hr1 & _). rewrite (proj2 (Nat.ltb_lt _ _) Hk).
    destruct d1 as [info1 cc1 rows1 undo1]. cbn [vd_info vd_rows vd_undo] in *. subst rows1.
    destruct (push_inv m n _ _ _ (r / VS) (r mod VS)
      (switch_inv _ _ _ _ _ _ _ (r / VS) Hinv1 Hk ltac:(unfold rows_of; lia) Hlive))
      as (d' & -> & Hd' & Hp); [done|done|by rewrite <-Hsplit|cbn; lia|].
    exists (flushed ++ pending d). split; [done|]. rewrite Hp, <-Hsplit.
    unfold pending at 2. cbn [vd_current_chunk vd_rows fmap list_fmap app]. by rewrite <-app_assoc.
Qed.

Lemma delete_loop_inv m n t ids flushed d :
  delete_inv m n (transaction_id t) flushed d → transaction_id t ≠ NOT_DELETED_ID →
  (length (flushed ++ pending d) + length ids <= VS)%nat →
  (∀ id, id ∈ ids → (m_start m <= id < m_start m + n)%nat ∧
     ∀ c, MorselInfo_GetChunkInfo m ((id - m_start m) / VS) = Some (ConstantInfo c) →
          cc_delete_id c = NOT_DELETED_ID) →
  match delete_loop t (m_start m) ids d with
  | Ret d' _ => delete_inv m n (transaction_id t)
      (flushed ++ pending d ++ ((λ id, id - m_start m)%nat <$> ids)) d'
  | Raise d' e => ∃ flushed', delete_inv m n (transaction_id t) flushed' d' ∧
      is_TransactionException e = true
  end.
Proof.
  revert flushed d. induction ids as [|id ids IH]; intros flushed d Hinv Htid Hlen Hids;
    cbn [delete_loop].
  { pose proof (Flush_inv m n t flushed d Hinv Htid) as Hf. cbn. rewrite app_nil_r.
    destruct (VersionDeleteState_Flush t d); naive_solver. }
  destruct (Hids id ltac:(left)) as [Hid Hlive].
  destruct (Nat.ltb_spec id (m_start m)); [lia|].
  autorewrite with lengths in Hlen. cbn [length] in Hlen.
  pose proof (Delete_row_inv m n t flushed d (id - m_start m) Hinv Htid ltac:(lia) ltac:(lia) Hlive)
    as Hstep.
  destruct (VersionDeleteState_Delete t (id - m_start m) d) as [d1 ?|d1 e]; [|done].
  destruct Hstep as (flushed1 & Hinv1 & Heq).
  specialize (IH flushed1 d1 Hinv1 Htid). rewrite fmap_cons.
  replace (flushed ++ pending d ++ (id - m_start m)%nat :: ((λ id, id - m_start m)%nat <$> ids))
    with (flushed1 ++ pending d1 ++ ((λ id, id - m_start m)%nat <$> ids)).
  - apply IH.
    + rewrite Heq. autorewrite with lengths. cbn [length]. lia.
    + intros id' Hid'. apply Hids. by right.
  - rewrite app_assoc, Heq, <-!app_assoc. done.
Qed.

(** Writing the id of a commit or of a rollback to the rows of undo entries. *)
Lemma DeleteInfo_apply_spec m n id e :
  MorselInfo_ok m n → entry_ok m e → (∀ r, r ∈ DeleteInfo_rows e → (r < n)%nat) →
  MorselInfo_ok (DeleteInfo_apply id m e) n ∧
  (∀ e', entry_ok m e' → entry_ok (DeleteInfo_apply id m e) e') ∧
  ∀ r, (r < MORSEL_SIZE)%nat → version (DeleteInfo_apply id m e) r =
    if decide (r ∈ DeleteInfo_rows e) then ((version m r).1, id) else version m r.
Proof.
  intros Hok (Hk & Hrows & v & Hv & Hany) Hlt. unfold DeleteInfo_apply. rewrite Hv.
  set (v' := ChunkVectorInfo_CommitDelete v id (di_rows e)). pose proof (m_len _ _ Hok) as Hl.
  pose proof (m_infos _ _ Hok _ Hk) as Hinfo. rewrite Hv in Hinfo.
  destruct Hinfo as (Hn & Hcv & Hdel). pose proof (cv_deleted_len _ _ Hcv) as Hdl.
  destruct (set_info_version m n (di_vector e) (Some (VectorInfo v'))
    (λ r v, if decide (r ∈ DeleteInfo_rows e) then (v.1, id) else v) Hok Hk) as [Ho Hvs];
    [| | |split_and!; [done|intros e'; by apply entry_ok_set_info|done]].
  - split_and!; [done|by apply CommitDelete_ok|]. intros i Hi. cbn [deleted v' ChunkVectorInfo_CommitDelete].
    rewrite lookup_total_scatter by lia. rewrite decide_False; [by apply Hdel|].
    intros Hin. specialize (Hlt (di_vector e * VS + i)%nat). rewrite <-rows_of_lt in Hlt by lia.
    specialize (Hlt ltac:(apply elem_of_vector_rows; [lia|done|done])). lia.
  - intros i Hi. rewrite Hv. cbn [info_version inserted deleted v' ChunkVectorInfo_CommitDelete fst].
    rewrite lookup_total_scatter by lia.
    pose proof (elem_of_vector_rows (di_vector e) (di_rows e) (di_vector e) i Hi Hrows) as Hel.
    unfold DeleteInfo_rows.
    destruct (decide (i ∈ di_rows e)), (decide (di_vector e * VS + i ∈ _)%nat); naive_solver.
  - intros j i v0 Hj Hi. rewrite decide_False; [done|].
    unfold DeleteInfo_rows. rewrite elem_of_vector_rows by done. naive_solver.
Qed.

Lemma foldl_DeleteInfo_apply m n id undo :
  MorselInfo_ok m n → Forall (entry_ok m) undo → (∀ r, r ∈ undo_rows undo → (r < n)%nat) →
  MorselInfo_ok (foldl (DeleteInfo_apply id) m undo) n ∧
  ∀ r, (r < MORSEL_SIZE)%nat → version (foldl (DeleteInfo_apply id) m undo) r =
    if decide (r ∈ undo_rows undo) then ((version m r).1, id) else version m r.
Proof.
  revert m. induction undo as [|e undo IH]; intros m Hok Hund Hlt; cbn [foldl].
  { split; [done|]. intros r Hr. by rewrite decide_False by apply not_elem_of_nil. }
  apply Forall_cons in Hund as [He Hund].
  change (undo_rows (e :: undo)) with (DeleteInfo_rows e ++ undo_rows undo) in *.
  destruct (DeleteInfo_apply_spec m n id e Hok He) as (Ho & Hkeep & Hv).
  { intros r Hr. apply Hlt. apply elem_of_app. by left. }
  destruct (IH _ Ho) as [Ho' Hv'].
  { eapply Forall_impl; [exact Hund|]. done. }
  { intros r Hr. apply Hlt. apply elem_of_app. by right. }
  split; [done|]. intros r Hr. rewrite Hv', Hv by done.
  destruct (decide (r ∈ DeleteInfo_rows e)), (decide (r ∈ undo_rows undo)),
    (decide (r ∈ DeleteInfo_rows e ++ undo_rows undo)) as [Ha|Ha];
    rewrite elem_of_app in Ha; naive_solver.
Qed.

Lemma Delete_inv_result m n t ids :
  MorselInfo_ok m n → transaction_id t ≠ NOT_DELETED_ID → (length ids <= VS)%nat →
  (∀ id, id ∈ ids → (m_start m <= id < m_start m + n)%nat ∧
     ∀ c, MorselInfo_GetChunkInfo m ((id - m_start m) / VS) = Some (ConstantInfo c) →
          cc_delete_id c = NOT_DELETED_ID) →
  ∃ d, out_state (MorselInfo_Delete m t ids) = (vd_info d, vd_undo d) ∧
    ∃ flushed, delete_inv m n (transaction_id t) flushed d ∧
      match MorselInfo_Delete m t ids with
      | Ret _ _ => flushed = (λ id, id - m_start m)%nat <$> ids
      | Raise _ e => is_TransactionException e = true
      end.
Proof.
  intros Hok Htid Hlen Hids. unfold MorselInfo_Delete.
  set (d0 := mkVersionDeleteState m None [] []).
  assert (delete_inv m n (transaction_id t) [] d0) as Hinv.
  { split; cbn [vd_info vd_undo vd_rows vd_current_chunk d0]; auto using Forall_nil_2.
    intros r Hr. by apply elem_of_nil in Hr. }
  pose proof (delete_loop_inv m n t ids [] d0 Hinv Htid ltac:(cbn; lia) Hids) as Hloop.
  destruct (delete_loop t (m_start m) ids d0) as [d ?|d e]; exists d; (split; [done|]).
  - eexists. split; [exact Hloop|]. done.
  - destruct Hloop as (fl & ? & ?). eauto.
Qed.

(** A deletion marks exactly the rows it was given with the id of the
    transaction, or fails with a transaction conflict.  In both cases the undo
    entries cover exactly the rows that were marked, in order; committing them
    writes the commit id to exactly those rows, and rolling them back restores
    every row to the version it had before. *)
Lemma MorselInfo_Delete_spec m n t ids :
  MorselInfo_ok m n → transaction_id t ≠ NOT_DELETED_ID → (length ids <= VS)%nat →
  (∀ id, id ∈ ids → (m_start m <= id < m_start m + n)%nat ∧
     ∀ c, MorselInfo_GetChunkInfo m ((id - m_start m) / VS) = Some (ConstantInfo c) →
          cc_delete_id c = NOT_DELETED_ID) →
  let '(m', undo) := out_state (MorselInfo_Delete m t ids) in
  match MorselInfo_Delete m t ids with
  | Ret _ _ => undo_rows undo = (λ id, id - m_start m)%nat <$> ids
  | Raise _ e => is_TransactionException e = true
  end ∧
  MorselInfo_ok m' n ∧
  (∀ commit_id, MorselInfo_ok (foldl (DeleteInfo_apply commit_id) m' undo) n) ∧
  MorselInfo_ok (foldl (DeleteInfo_apply NOT_DELETED_ID) m' (reverse undo)) n ∧
  (∀ r, r ∈ undo_rows undo → (version m r).2 = NOT_DELETED_ID ∧
                              (version m r).1 < TRANSACTION_ID_START) ∧
  ∀ r, (r < MORSEL_SIZE)%nat →
    version m' r = (if decide (r ∈ undo_rows undo) then ((version m r).1, transaction_id t)
                    else version m r) ∧
    (∀ commit_id, version (foldl (DeleteInfo_apply commit_id) m' undo) r =
      if decide (r ∈ undo_rows undo) then ((version m r).1, commit_id) else version m r) ∧
    version (foldl (DeleteInfo_apply NOT_DELETED_ID) m' (reverse undo)) r = version m r.
Proof.
  intros Hok Htid Hlen Hids.
  destruct (Delete_inv_result m n t ids Hok Htid Hlen Hids) as (d & -> & fl & Hinv & Hout).
  destruct Hinv as [Hok' Hst Hver Hundo Huok Hfl _ _ _]. subst fl.
  split; [by destruct (MorselInfo_Delete m t ids)|].
  assert (∀ u, u ≡ₚ vd_undo d → ∀ id,
      MorselInfo_ok (foldl (DeleteInfo_apply id) (vd_info d) u) n ∧
      ∀ r, (r < MORSEL_SIZE)%nat → version (foldl (DeleteInfo_apply id) (vd_info d) u) r =
        if decide (r ∈ undo_rows (vd_undo d)) then ((version m r).1, id) else version m r) as Happly.
  { intros u Hu id. assert (∀ x, x ∈ undo_rows u ↔ x ∈ undo_rows (vd_undo d)) as Hel.
    { intros x. unfold undo_rows. by rewrite Hu. }
    destruct (foldl_DeleteInfo_apply (vd_info d) n id u Hok') as [Ho Hvs];
      [by rewrite Hu|intros x Hx; by apply Hfl, Hel|].
    split; [done|]. intros r Hr. rewrite Hvs, Hver by done. specialize (Hel r).
    destruct (decide (r ∈ undo_rows u)), (decide (r ∈ undo_rows (vd_undo d))); naive_solver. }
  split_and!; [done|intros; by apply Happly|apply Happly, reverse_Permutation|
    intros r Hr; by apply Hfl|].
  intros r Hr. split_and!; [by apply Hver|intros; by apply Happly|].
  rewrite (proj2 (Happly _ (reverse_Permutation _) _)) by done. case_decide as Hin; [|done].
  destruct (Hfl r Hin) as (_ & <- & _). by destruct (version m r).
Qed.

(** ** Refinement

    The abstract morsel is the list of its rows' versions. *)

Record refines (m : MorselInfo) (vs : list (Z * Z)) : Prop := {
  rf_ok : MorselInfo_ok m (length vs);
  rf_version : ∀ r v, vs !! r = Some v → version m r = v;
}.

(** The abstract operations. *)
Definition append_versions (count : nat) (id : Z) (vs : list (Z * Z)) : list (Z * Z) :=
  vs ++ replicate count (id, NOT_DELETED_ID).

Definition commit_versions (s count : nat) (id : Z) (vs : list (Z * Z)) : list (Z * Z) :=
  imap (λ r v, if decide (s <= r < s + count)%nat then (id, v.2) else v) vs.

Definition delete_versions (rows : list nat) (id : Z) (vs : list (Z * Z)) : list (Z * Z) :=
  imap (λ r v, if decide (r ∈ rows) then (v.1, id) else v) vs.

Lemma refines_new start : refines (MorselInfo_new start) [].
Proof.
  split; [|done]. split; [apply length_replicate|cbn; lia|]. intros k Hk. done.
Qed.

Lemma refines_imap m (vs : list (Z * Z)) F :
  MorselInfo_ok m (length vs) →
  (∀ r v, vs !! r = Some v → version m r = F r v) → refines m (imap F vs).
Proof.
  intros Hok Hv. split; [by rewrite length_imap|]. intros r v.
  rewrite list_lookup_imap. destruct (vs !! r) as [w|] eqn:Hw; cbn; [|done].
  intros [= <-]. by apply Hv.
Qed.

Lemma refines_lt m vs r v :
  refines m vs → vs !! r = Some v → (r < length vs ∧ r < MORSEL_SIZE)%nat.
Proof.
  intros [Hok _] Hr. apply lookup_lt_Some in Hr. pose proof (m_rows _ _ Hok). lia.
Qed.

Lemma refines_Append m vs count id :
  refines m vs → (0 < count)%nat → (length vs + count <= MORSEL_SIZE)%nat →
  refines (MorselInfo_Append m (length vs) count id) (append_versions count id vs).
Proof.
  intros Hrf Hc Hle. pose proof Hrf as [Hok Hv].
  destruct (MorselInfo_Append_spec m (length vs) count id Hok Hc Hle) as [Ho Hver].
  split; unfold append_versions.
  { by rewrite length_app, length_replicate. }
  intros r v [Hr|[Hge Hr]]%lookup_app_Some.
  - pose proof (refines_lt m vs r v Hrf Hr). rewrite Hver by lia.
    rewrite decide_False by lia. by apply Hv.
  - apply lookup_replicate in Hr as [-> Hlt]. rewrite Hver by lia. by rewrite decide_True by lia.
Qed.

Lemma refines_CommitAppend m vs s count tid id :
  refines m vs → (0 < count)%nat → (s + count <= length vs)%nat → tid ≠ 0 →
  (∀ r v, vs !! r = Some v → v.1 = tid ↔ (s <= r < s + count)%nat) →
  refines (MorselInfo_CommitAppend m id s count) (commit_versions s count id vs).
Proof.
  intros Hrf Hc Hle Htid Hown. pose proof Hrf as [Hok Hv].
  destruct (MorselInfo_CommitAppend_spec m (length vs) s count tid id Hok Hc Hle Htid) as [Ho Hver].
  { intros r [v Hr]%lookup_lt_is_Some_2. rewrite (Hv _ _ Hr). by apply Hown. }
  apply refines_imap; [done|]. intros r v Hr. pose proof (refines_lt m vs r v Hrf Hr).
  by rewrite Hver, (Hv _ _ Hr) by lia.
Qed.

Lemma refines_RevertAppend m vs s :
  refines m vs → (s <= length vs)%nat →
  (∀ r v, vs !! r = Some v → (s <= r)%nat → v.2 = NOT_DELETED_ID) →
  (∀ k c, MorselInfo_GetChunkInfo m k = Some (ConstantInfo c) → (S k * VS <= s ∨ s <= k * VS)%nat) →
  refines (MorselInfo_RevertAppend m (m_start m + s)) (take s vs).
Proof.
  intros Hrf Hs Hdel Hcst. pose proof Hrf as [Hok Hv].
  destruct (MorselInfo_RevertAppend_spec m (length vs) s Hok Hs) as [Ho Hver]; [|done|].
  { intros r [Hr1 [v Hr]%lookup_lt_is_Some_2]. rewrite (Hv _ _ Hr). by eapply Hdel. }
  split; [by rewrite length_take_le by done|]. intros r v [Hr Hlt]%lookup_take_Some.
  pose proof (refines_lt m vs r v Hrf Hr). rewrite Hver by lia.
  rewrite decide_True; [by apply Hv|]. apply revert_vector.
  destruct (row_split r) as [Heq _]. lia.
Qed.

(** C10: on the list of its rows' versions, appending to a morsel with enough
    room adds rows that belong to the transaction, committing the append of all
    rows of a transaction replaces its id by the commit id on exactly those
    rows, and reverting it, for rows that nobody deleted and a place that cuts
    no constant info, cuts the list: whatever mix of constant and per-row infos,
    created lazily vector by vector, the range touches. *)
Theorem MorselInfo_refinement m vs :
  refines m vs →
  (∀ count id, (0 < count)%nat → (length vs + count <= MORSEL_SIZE)%nat →
     refines (MorselInfo_Append m (length vs) count id) (append_versions count id vs)) ∧
  (∀ s count tid id, (0 < count)%nat → (s + count <= length vs)%nat → tid ≠ 0 →
     (∀ r v, vs !! r = Some v → v.1 = tid ↔ (s <= r < s + count)%nat) →
     refines (MorselInfo_CommitAppend m id s count) (commit_versions s count id vs)) ∧
  (∀ s, (s <= length vs)%nat →
     (∀ r v, vs !! r = Some v → (s <= r)%nat → v.2 = NOT_DELETED_ID) →
     (∀ k c, MorselInfo_GetChunkInfo m k = Some (ConstantInfo c) →
        (S k * VS <= s ∨ s <= k * VS)%nat) →
     refines (MorselInfo_RevertAppend m (m_start m + s)) (take s vs)).
Proof.
  intros Hrf. split_and!.
  - intros; by apply refines_Append.
  - intros; by eapply refines_CommitAppend.
  - intros; by apply refines_RevertAppend.
Qed.

(** C19: a deletion in a morsel marks exactly the rows it was given with the
    id of the transaction, or fails with a transaction exception (never out
    of bounds).  The undo entries it pushed cover exactly what it marked:
    committing them writes the commit id to exactly those rows, and rolling
    them back in reverse, also after a failure half-way, restores every
    version. *)
Theorem MorselInfo_Delete_refinement m vs t ids :
  refines m vs → transaction_id t ≠ NOT_DELETED_ID → (length ids <= VS)%nat →
  (∀ id, id ∈ ids → (m_start m <= id < m_start m + length vs)%nat ∧
     ∀ c, MorselInfo_GetChunkInfo m ((id - m_start m) / VS) = Some (ConstantInfo c) →
          cc_delete_id c = NOT_DELETED_ID) →
  let rows := (λ id, id - m_start m)%nat <$> ids in
  match MorselInfo_Delete m t ids with
  | Ret (m', undo) _ =>
      refines m' (delete_versions rows (transaction_id t) vs) ∧
      (∀ commit_id, refines (foldl (DeleteInfo_apply commit_id) m' undo)
                      (delete_versions rows commit_id vs)) ∧
      refines (foldl (DeleteInfo_apply NOT_DELETED_ID) m' (reverse undo)) vs
  | Raise (m', undo) e =>
      is_TransactionException e = true ∧
      refines (foldl (DeleteInfo_apply NOT_DELETED_ID) m' (reverse undo)) vs
  end.
Proof.
  intros Hrf Htid Hlen Hids rows. pose proof Hrf as [Hok Hv].
  pose proof (MorselInfo_Delete_spec m (length vs) t ids Hok Htid Hlen Hids) as Hspec.
  destruct (MorselInfo_Delete m t ids) as [[m' undo] ?|[m' undo] e]; cbn [out_state] in Hspec;
    destruct Hspec as (Hres & Hok' & Hcok & Hrok & _ & Hvs).
  all: assert (refines (foldl (DeleteInfo_apply NOT_DELETED_ID) m' (reverse undo)) vs) as Hback
    by (split; [done|]; intros r v Hr; pose proof (refines_lt m vs r v Hrf Hr);
        rewrite (proj2 (proj2 (Hvs r ltac:(lia)))); by apply Hv).
  2: done.
  subst rows. rewrite <-Hres. split_and!; [..|done].
  - apply refines_imap; [done|]. intros r v Hr. pose proof (refines_lt m vs r v Hrf Hr).
    rewrite (proj1 (Hvs r ltac:(lia))). by rewrite (Hv _ _ Hr).
  - intros cid. apply refines_imap; [done|]. intros r v Hr. pose proof (refines_lt m vs r v Hrf Hr).
    rewrite (proj1 (proj2 (Hvs r ltac:(lia)))). by rewrite (Hv _ _ Hr).
Qed.

(** *** Witnesses *)

(** 1500 rows appended by one transaction: a constant and a partial vector. *)
Definition example_morsel : MorselInfo :=
  MorselInfo_Append (MorselInfo_new 0) 0 (Z.to_nat 1500) (TRANSACTION_ID_START + 7).

Definition example_versions : list (Z * Z) :=
  replicate (Z.to_nat 1500) (TRANSACTION_ID_START + 7, NOT_DELETED_ID).

Lemma le_by_compute (a b : nat) : (a <=? b)%nat = true → (a <= b)%nat.
Proof. apply Nat.leb_le. Qed.

Lemma live_constant info :
  match info with Some (ConstantInfo c) => cc_delete_id c =? NOT_DELETED_ID | _ => true end = true →
  ∀ c, info = Some (ConstantInfo c) → cc_delete_id c = NOT_DELETED_ID.
Proof. intros H c ->. by apply Z.eqb_eq. Qed.

Lemma example_morsel_refines : refines example_morsel example_versions.
Proof.
  apply (refines_Append (MorselInfo_new 0) [] (Z.to_nat 1500) (TRANSACTION_ID_START + 7)).
  - apply refines_new.
  - lia.
  - apply le_by_compute. vm_compute. reflexivity.
Qed.

Lemma MorselInfo_refinement_witness :
  refines (MorselInfo_CommitAppend example_morsel 9 0 (Z.to_nat 1500))
    (commit_versions 0 (Z.to_nat 1500) 9 example_versions) ∧
  refines (MorselInfo_RevertAppend example_morsel (m_start example_morsel + 0)) [].
Proof.
  destruct (MorselInfo_refinement example_morsel example_versions example_morsel_refines)
    as (_ & Hcommit & Hrevert). split.
  - apply (Hcommit 0%nat (Z.to_nat 1500) (TRANSACTION_ID_START + 7)).
    + lia.
    + unfold example_versions. rewrite length_replicate. lia.
    + vm_compute. discriminate.
    + intros r v [-> Hr]%lookup_replicate. cbn [fst]. lia.
  - apply (Hrevert 0%nat).
    + lia.
    + intros r v [-> _]%lookup_replicate _. done.
    + intros k c _. right. lia.
Defined.

Definition example_committed : MorselInfo :=
  MorselInfo_CommitAppend example_morsel 9 0 (Z.to_nat 1500).

Definition example_committed_versions : list (Z * Z) :=
  commit_versions 0 (Z.to_nat 1500) 9 example_versions.

Lemma example_ids id :
  id ∈ [3; Z.to_nat 1030; 4]%nat →
  (m_start example_committed <= id <
   m_start example_committed + length example_committed_versions)%nat ∧
  ∀ c, MorselInfo_GetChunkInfo example_committed ((id - m_start example_committed) / VS) =
         Some (ConstantInfo c) → cc_delete_id c = NOT_DELETED_ID.
Proof.
  intros Hid.
  repeat (apply elem_of_cons in Hid as [->|Hid]); [| | |by apply elem_of_nil in Hid].
  all: split; [split; apply le_by_compute; vm_compute; reflexivity|].
  all: apply live_constant; vm_compute; reflexivity.
Qed.

Lemma example_committed_refines : refines example_committed example_committed_versions.
Proof.
  apply (refines_CommitAppend _ _ _ _ (TRANSACTION_ID_START + 7)).
  - apply example_morsel_refines.
  - lia.
  - unfold example_versions. rewrite length_replicate. lia.
  - vm_compute. discriminate.
  - intros r v [-> Hr]%lookup_replicate. cbn [fst]. lia.
Qed.

Lemma MorselInfo_Delete_refinement_witness :
  match MorselInfo_Delete example_committed (Transaction_new 10 (TRANSACTION_ID_START + 8) 0)
          [3; Z.to_nat 1030; 4]%nat with
  | Ret (m', undo) _ =>
      refines m' (delete_versions [3; Z.to_nat 1030; 4]%nat (TRANSACTION_ID_START + 8)
                    example_committed_versions)
  | Raise _ _ => False
  end.
Proof.
  pose proof (MorselInfo_Delete_refinement example_committed example_committed_versions
    (Transaction_new 10 (TRANSACTION_ID_START + 8) 0) [3; Z.to_nat 1030; 4]%nat
    example_committed_refines ltac:(vm_compute; discriminate)
    ltac:(apply le_by_compute; vm_compute; reflexivity) example_ids) as H.
  destruct (MorselInfo_Delete _ _ _) as [[m' undo] u|[m' undo] e] eqn:E.
  - exact (proj1 H).
  - vm_compute in E. discriminate E.
Defined.

Lemma MorselInfo_scan_fetch_witness :
  sel_rows 5 (MorselInfo_GetSelVector example_morsel
                (Transaction_new 10 (TRANSACTION_ID_START + 7) 0) 1 (replicate VS 0%nat) 5) =
  [0; 1; 2; 3; 4]%nat.
Proof.
  rewrite (proj1 (MorselInfo_scan_fetch example_morsel (length example_versions)
    (Transaction_new 10 (TRANSACTION_ID_START + 7) 0) 1 (replicate VS 0%nat) 5
    (rf_ok _ _ example_morsel_refines) ltac:(apply le_by_compute; vm_compute; reflexivity)
    ltac:(apply le_by_compute; vm_compute; reflexivity) ltac:(reflexivity)
    ltac:(split; vm_compute; discriminate) (length_replicate _ _))).
  vm_compute. reflexivity.
Defined.
