(* ===== verification/ValidityMask.v ===== *)
(** * Validity masks

    Models src/src/include/guinsoodb/common/types/validity_mask.hpp and
    src/src/common/types/validity_mask.cpp: which rows of a vector are not
    NULL, as a lazily allocated array of 64-bit words.  A null pointer means
    that every row is valid.

    Masks are values here: the buffers that [Initialize(other)] and [Combine]
    share in the source are never written through one of their owners by the
    operations below without being read only through the result.

    Theorems: [RowIsValid] and [Set] behave as a map from rows to booleans on
    top of the bit arithmetic, [Combine] is the row-wise conjunction,
    [CheckAllValid] and the bulk operations agree with the row view, and
    [Slice] shifts the rows for offsets below 64, except for the last word. *)

From S2P Require Import Prelude Constants.

(** ** Representation *)

Definition BITS_PER_VALUE : nat := Z.to_nat 64.

(** [~validity_t(0)] *)
Definition MAX_ENTRY : Z := 2 ^ 64 - 1.

(** [validity_t *validity_mask]: null, or the words. *)
Definition ValidityMask : Set := option (list Z).

Definition EntryCount (count : nat) : nat :=
  ((count + (BITS_PER_VALUE - 1)) / BITS_PER_VALUE)%nat.

Definition STANDARD_ENTRY_COUNT : nat := EntryCount STANDARD_VECTOR_SIZE.

(** [ValidityData(count)] *)
Definition ValidityData_new (count : nat) : list Z := replicate (EntryCount count) MAX_ENTRY.

(** [ValidityData(original, count)] *)
Definition ValidityData_copy (original : list Z) (count : nat) : list Z :=
  for_ 0 (EntryCount count) (λ i d, <[i := original !!! i]> d) (replicate (EntryCount count) 0).

Definition ValidityMask_Initialize (count : nat) : ValidityMask := Some (ValidityData_new count).

Definition ValidityMask_Copy (other : ValidityMask) (count : nat) : ValidityMask :=
  match other with
  | None => None
  | Some words => Some (ValidityData_copy words count)
  end.

(** ** Reading *)

Definition AllValid (m : ValidityMask) : bool := match m with None => true | Some _ => false end.

Definition IsMaskSet (m : ValidityMask) : bool := match m with None => false | Some _ => true end.

Definition GetValidityEntry (m : ValidityMask) (entry_idx : nat) : Z :=
  match m with None => MAX_ENTRY | Some words => words !!! entry_idx end.

Definition NoneValid_entry (entry : Z) : bool := entry =? 0.

Definition AllValid_entry (entry : Z) : bool := entry =? MAX_ENTRY.

(** [entry & (validity_t(1) << validity_t(idx_in_entry))], as a condition. *)
Definition RowIsValid_entry (entry : Z) (idx_in_entry : nat) : bool :=
  negb (Z.land entry (Z.shiftl 1 (Z.of_nat idx_in_entry)) =? 0).

Definition GetEntryIndex (row_idx : nat) : nat * nat :=
  ((row_idx / BITS_PER_VALUE)%nat, (row_idx mod BITS_PER_VALUE)%nat).

Definition RowIsValidUnsafe (m : ValidityMask) (row_idx : nat) : bool :=
  let '(entry_idx, idx_in_entry) := GetEntryIndex row_idx in
  RowIsValid_entry (GetValidityEntry m entry_idx) idx_in_entry.

Definition RowIsValid (m : ValidityMask) (row_idx : nat) : bool :=
  match m with None => true | Some _ => RowIsValidUnsafe m row_idx end.

Definition CheckAllValid (m : ValidityMask) (count : nat) : bool :=
  match m with
  | None => true
  | Some words =>
      let entry_count := EntryCount count in
      let valid_count :=
        for_ 0 entry_count (λ i c, (c + if AllValid_entry (words !!! i) then 1 else 0)%nat) 0%nat in
      (valid_count =? entry_count)%nat
  end.

(** ** Writing *)

Definition SetValidUnsafe (words : list Z) (row_idx : nat) : list Z :=
  let '(entry_idx, idx_in_entry) := GetEntryIndex row_idx in
  <[entry_idx := Z.lor (words !!! entry_idx) (Z.shiftl 1 (Z.of_nat idx_in_entry))]> words.

Definition SetValid (m : ValidityMask) (row_idx : nat) : ValidityMask :=
  match m with None => None | Some words => Some (SetValidUnsafe words row_idx) end.

Definition SetInvalidUnsafe (words : list Z) (row_idx : nat) : list Z :=
  let '(entry_idx, idx_in_entry) := GetEntryIndex row_idx in
  <[entry_idx := Z.land (words !!! entry_idx) (Z.lnot (Z.shiftl 1 (Z.of_nat idx_in_entry)))]> words.

(** [EnsureWritable], and the same allocation in [SetInvalid]. *)
Definition writable (m : ValidityMask) : list Z :=
  match m with None => ValidityData_new STANDARD_VECTOR_SIZE | Some words => words end.

Definition SetInvalid (m : ValidityMask) (row_idx : nat) : ValidityMask :=
  Some (SetInvalidUnsafe (writable m) row_idx).

Definition ValidityMask_Set (m : ValidityMask) (row_idx : nat) (valid : bool) : ValidityMask :=
  if valid then SetValid m row_idx else SetInvalid m row_idx.

Definition SetAllInvalid (m : ValidityMask) (count : nat) : ValidityMask :=
  Some (fill_range 0 (EntryCount count) 0 (writable m)).

Definition SetAllValid (m : ValidityMask) (count : nat) : ValidityMask :=
  Some (fill_range 0 (EntryCount count) MAX_ENTRY (writable m)).

(** The shortcut for two masks with the same buffer computes the same words. *)
Definition ValidityMask_Combine (m other : ValidityMask) (count : nat) : ValidityMask :=
  match other, m with
  | None, _ => m
  | Some _, None => other
  | Some other_data, Some data =>
      Some (for_ 0 (EntryCount count)
              (λ i result_data, <[i := Z.land (data !!! i) (other_data !!! i)]> result_data)
              (ValidityData_new count))
  end.

Definition ValidityMask_Resize (m : ValidityMask) (old_size new_size : nat) : ValidityMask :=
  match m with
  | Some words =>
      let new_size_count := EntryCount new_size in
      let old_size_count := EntryCount old_size in
      let new_owned_data := replicate new_size_count 0 in
      let new_owned_data :=
        for_ 0 old_size_count (λ i d, <[i := words !!! i]> d) new_owned_data in
      Some (fill_range old_size_count new_size_count MAX_ENTRY new_owned_data)
  | None => ValidityMask_Initialize new_size
  end.

(** [sub_units] as the source computes it: the modulus binds tighter than the
    difference.  A shift of a 64-bit word by 64 bits or more is undefined. *)
Definition slice_sub_units (offset : nat) : nat :=
  let entire_units := (offset / BITS_PER_VALUE)%nat in
  (offset - entire_units mod BITS_PER_VALUE)%nat.

Definition slice_word (lo hi : Z) (sub_units : nat) : Z :=
  Z.lor (Z.shiftr lo (Z.of_nat sub_units))
        (u64 (Z.shiftl hi (Z.of_nat (BITS_PER_VALUE - sub_units)))).

Definition ValidityMask_Slice (other : ValidityMask) (offset : nat) : res ValidityMask :=
  match other with
  | None => Ok None
  | Some other_words =>
      if (offset =? 0)%nat then Ok (Some other_words)
      else
        let words := ValidityData_new STANDARD_VECTOR_SIZE in
        let entire_units := (offset / BITS_PER_VALUE)%nat in
        let sub_units := slice_sub_units offset in
        let words :=
          if (0 <? entire_units)%nat then
            for_ 0 (STANDARD_ENTRY_COUNT - entire_units)
              (λ i w, <[i := other_words !!! (i + entire_units)%nat]> w) words
          else words in
        if (0 <? sub_units)%nat then
          if (BITS_PER_VALUE <=? sub_units)%nat then Throw (UndefinedBehaviour "shift of a word by 64 or more")
          else
            let last := (STANDARD_ENTRY_COUNT - 1)%nat in
            let words :=
              for_ 0 last
                (λ i w, <[i := slice_word (other_words !!! i) (other_words !!! S i) sub_units]> w)
                words in
            Ok (Some (<[last := Z.shiftr (words !!! last) (Z.of_nat sub_units)]> words))
        else Ok (Some words)
  end.

(** ** Specification *)

(** The rows a mask has room for. *)
Definition capacity (m : ValidityMask) : nat :=
  match m with
  | None => (EntryCount STANDARD_VECTOR_SIZE * BITS_PER_VALUE)%nat
  | Some words => (length words * BITS_PER_VALUE)%nat
  end.

(** The words are 64-bit unsigned integers. *)
Definition mask_ok (m : ValidityMask) : Prop :=
  match m with None => True | Some words => Forall (inU 64) words end.

(** ** Lemmas *)

#[global] Opaque BITS_PER_VALUE STANDARD_VECTOR_SIZE.

Lemma BITS_PER_VALUE_eq : BITS_PER_VALUE = Z.to_nat 64.
Proof. reflexivity. Qed.

Abbreviation bits := BITS_PER_VALUE.

Lemma entry_split r : r = (r / bits * bits + r mod bits)%nat ∧ (r mod bits < bits)%nat.
Proof.
  pose proof BITS_PER_VALUE_eq. split; [|apply Nat.mod_upper_bound; lia].
  rewrite Nat.mul_comm. apply Nat.div_mod_eq.
Qed.

(** Row [r] is in the first [EntryCount count] words when it is below [count]. *)
Lemma EntryCount_lt r count : (r < count)%nat → (r / bits < EntryCount count)%nat.
Proof.
  intros H. pose proof BITS_PER_VALUE_eq as Hb. unfold EntryCount.
  apply Nat.div_le_lower_bound; [lia|]. destruct (entry_split r) as [Hr _].
  rewrite Hb in *. lia.
Qed.

Lemma capacity_lt words r :
  (r < capacity (Some words))%nat → (r / bits < length words)%nat.
Proof. intros H. apply Nat.Div0.div_lt_upper_bound. cbn [capacity] in H. lia. Qed.

Lemma RowIsValid_entry_testbit e k : RowIsValid_entry e k = Z.testbit e (Z.of_nat k).
Proof.
  unfold RowIsValid_entry. rewrite Z.shiftl_1_l.
  destruct (Z.testbit e (Z.of_nat k)) eqn:Hb.
  - apply negb_true_iff, Z.eqb_neq. intros Hz.
    assert (Z.testbit (Z.land e (2 ^ Z.of_nat k)) (Z.of_nat k) = false) as Hc
      by (rewrite Hz; apply Z.bits_0).
    rewrite Z.land_spec, Hb, Z.pow2_bits_true in Hc by lia. done.
  - apply negb_false_iff, Z.eqb_eq. apply Z.bits_inj'. intros i Hi.
    rewrite Z.land_spec, Z.bits_0.
    destruct (decide (i = Z.of_nat k)) as [->|Hne]; [by rewrite Hb|].
    rewrite Z.pow2_bits_false by lia. apply andb_false_r.
Qed.

(** [RowIsValid] reads the bit of the row. *)
Lemma RowIsValid_testbit words r :
  RowIsValid (Some words) r = Z.testbit (words !!! (r / bits)%nat) (Z.of_nat (r mod bits)%nat).
Proof. unfold RowIsValid, RowIsValidUnsafe. cbn. apply RowIsValid_entry_testbit. Qed.

Lemma MAX_ENTRY_testbit k : (k < bits)%nat → Z.testbit MAX_ENTRY (Z.of_nat k) = true.
Proof.
  intros Hk. rewrite BITS_PER_VALUE_eq in Hk. change MAX_ENTRY with (Z.ones 64).
  apply Z.ones_spec_low. lia.
Qed.

Lemma RowIsValid_new count r :
  (r / bits < EntryCount count)%nat → RowIsValid (Some (ValidityData_new count)) r = true.
Proof.
  intros Hr. rewrite RowIsValid_testbit. unfold ValidityData_new.
  rewrite lookup_total_replicate_2 by done. apply MAX_ENTRY_testbit, entry_split.
Qed.

(** Updating the word of one row. *)
Lemma RowIsValid_insert words r s e :
  (r < capacity (Some words))%nat →
  RowIsValid (Some (<[(r / bits)%nat := e]> words)) s =
    if decide (s / bits = r / bits)%nat then Z.testbit e (Z.of_nat (s mod bits)%nat)
    else RowIsValid (Some words) s.
Proof.
  intros Hr%capacity_lt. rewrite !RowIsValid_testbit. case_decide as Hd.
  - by rewrite Hd, list_lookup_total_insert_eq by done.
  - by rewrite list_lookup_total_insert_ne by done.
Qed.

Lemma same_row r s : (s / bits = r / bits → s mod bits = r mod bits → s = r)%nat.
Proof. intros H1 H2. destruct (entry_split r) as [Hr _], (entry_split s) as [Hs _]. congruence. Qed.

Lemma RowIsValid_SetValidUnsafe words r s :
  (r < capacity (Some words))%nat →
  RowIsValid (Some (SetValidUnsafe words r)) s =
    if decide (s = r) then true else RowIsValid (Some words) s.
Proof.
  intros Hr. unfold SetValidUnsafe, GetEntryIndex. rewrite RowIsValid_insert by done.
  rewrite Z.lor_spec, Z.shiftl_1_l, RowIsValid_testbit.
  destruct (decide (s / bits = r / bits)%nat) as [He|He]; cycle 1.
  { rewrite decide_False by congruence. done. }
  rewrite He. destruct (decide (s = r)) as [->|Hne].
  - rewrite Z.pow2_bits_true by lia. apply orb_true_r.
  - rewrite Z.pow2_bits_false, orb_false_r; [done|]. intros Heq.
    apply Hne, same_row; [done|lia].
Qed.

Lemma RowIsValid_SetInvalidUnsafe words r s :
  (r < capacity (Some words))%nat →
  RowIsValid (Some (SetInvalidUnsafe words r)) s =
    if decide (s = r) then false else RowIsValid (Some words) s.
Proof.
  intros Hr. unfold SetInvalidUnsafe, GetEntryIndex. rewrite RowIsValid_insert by done.
  rewrite Z.land_spec, Z.lnot_spec, Z.shiftl_1_l, RowIsValid_testbit by lia.
  destruct (decide (s / bits = r / bits)%nat) as [He|He]; cycle 1.
  { rewrite decide_False by congruence. done. }
  rewrite He. destruct (decide (s = r)) as [->|Hne].
  - rewrite Z.pow2_bits_true by lia. apply andb_false_r.
  - rewrite Z.pow2_bits_false, andb_true_r; [done|]. intros Heq.
    apply Hne, same_row; [done|lia].
Qed.

Lemma RowIsValid_writable m r :
  (r < capacity m)%nat → RowIsValid (Some (writable m)) r = RowIsValid m r.
Proof.
  destruct m as [words|]; [done|]. intros Hr. cbn [writable]. apply RowIsValid_new.
  apply Nat.Div0.div_lt_upper_bound. cbn [capacity] in Hr. lia.
Qed.

Lemma capacity_writable m : capacity (Some (writable m)) = capacity m.
Proof.
  destruct m; [done|]. cbn [writable capacity]. unfold ValidityData_new. by rewrite length_replicate.
Qed.

Lemma RowIsValid_Set m r valid s :
  (r < capacity m)%nat → (s < capacity m)%nat →
  RowIsValid (ValidityMask_Set m r valid) s = if decide (s = r) then valid else RowIsValid m s.
Proof.
  intros Hr Hs. unfold ValidityMask_Set. destruct valid.
  - destruct m as [words|]; cbn [SetValid]; [by apply RowIsValid_SetValidUnsafe|by case_decide].
  - unfold SetInvalid. rewrite <-(capacity_writable m) in *.
    rewrite RowIsValid_SetInvalidUnsafe by done. case_decide; [done|].
    apply RowIsValid_writable. by rewrite <-capacity_writable.
Qed.

Lemma capacity_Set m r valid : capacity (ValidityMask_Set m r valid) = capacity m.
Proof.
  unfold ValidityMask_Set. destruct valid.
  - destruct m as [words|]; [|done]. cbn. by rewrite length_insert.
  - unfold SetInvalid. rewrite <-(capacity_writable m). cbn. by rewrite length_insert.
Qed.

(** setting a row of a validity mask changes the validity of that row
    only: on top of lazily allocated 64-bit words, [Set] and [RowIsValid]
    behave as update and lookup of a map from rows to booleans. *)
Theorem ValidityMask_Set_spec m r valid s :
  (r < capacity m)%nat → (s < capacity m)%nat →
  RowIsValid (ValidityMask_Set m r valid) s = (if decide (s = r) then valid else RowIsValid m s) ∧
  capacity (ValidityMask_Set m r valid) = capacity m.
Proof. intros Hr Hs. split; [by apply RowIsValid_Set|apply capacity_Set]. Qed.

(** [for (i = 0; i < n; i++) d[i] = f(i)] *)
Lemma for_insert_lookup (f : nat → Z) n (d : list Z) j :
  (j < length d)%nat →
  for_ 0 n (λ i d, <[i := f i]> d) d !!! j = if (j <? n)%nat then f j else d !!! j.
Proof.
  intros Hj. destruct (for_cond_insert (λ _, true) f n d) as [_ H]. specialize (H j Hj).
  rewrite andb_true_r in H. rewrite !list_lookup_total_alt.
  rewrite H. by destruct (j <? n)%nat.
Qed.

Lemma length_for_insert (f : nat → Z) n (d : list Z) :
  length (for_ 0 n (λ i d, <[i := f i]> d) d) = length d.
Proof. apply (for_cond_insert (λ _, true) f n d). Qed.

(** [Combine] is the row-wise conjunction of two masks, through each of
    its shortcuts. *)
Theorem ValidityMask_Combine_spec m other count r :
  (r < count)%nat →
  RowIsValid (ValidityMask_Combine m other count) r = RowIsValid m r && RowIsValid other r.
Proof.
  intros Hr. unfold ValidityMask_Combine.
  destruct other as [other_data|]; [|by rewrite andb_true_r].
  destruct m as [data|]; [|done]. rewrite !RowIsValid_testbit.
  pose proof (EntryCount_lt r count Hr) as Hlt.
  rewrite for_insert_lookup by (unfold ValidityData_new; by rewrite length_replicate).
  by rewrite (proj2 (Nat.ltb_lt _ _) Hlt), Z.land_spec.
Qed.

Lemma count_all (p : nat → bool) n :
  let c := for_ 0 n (λ i c, (c + if p i then 1 else 0)%nat) 0%nat in
  (c <= n)%nat ∧ (c = n ↔ ∀ i, (i < n)%nat → p i = true).
Proof.
  set (P := λ (n c : nat), (c <= n)%nat ∧ (c = n ↔ ∀ i, (i < n)%nat → p i = true)).
  apply (for_ind P); [lia| |].
  { split; [lia|]. split; [intros _ i Hi; lia|done]. }
  intros i c Hi [Hle Hiff]. unfold P. destruct (p i) eqn:Hp.
  - split; [lia|]. split.
    + intros Hc j Hj. destruct (decide (j = i)) as [->|]; [done|].
      apply Hiff; lia.
    + intros Hall. rewrite (proj2 Hiff); [lia|]. intros j Hj. apply Hall. lia.
  - split; [lia|]. split; [lia|]. intros Hall. rewrite Hall in Hp by lia. done.
Qed.

Lemma max_entry_all e : inU 64 e → e = MAX_ENTRY ↔ ∀ k, (k < bits)%nat → Z.testbit e (Z.of_nat k) = true.
Proof.
  intros He. split.
  - intros -> k. apply MAX_ENTRY_testbit.
  - intros Hall. change MAX_ENTRY with (Z.ones 64). apply Z.bits_inj'. intros i Hi.
    rewrite Z.testbit_ones_nonneg by lia. destruct (Z.ltb_spec i 64).
    + specialize (Hall (Z.to_nat i)). rewrite Z2Nat.id in Hall by lia. apply Hall.
      rewrite BITS_PER_VALUE_eq. lia.
    + destruct He as [Hlo Hhi]. destruct (decide (e = 0)) as [->|]; [apply Z.bits_0|].
      apply Z.bits_above_log2; [done|]. apply Z.log2_lt_pow2; [lia|].
      apply Z.lt_le_trans with (2 ^ 64); [done|]. apply Z.pow_le_mono_r; lia.
Qed.

(** [CheckAllValid] answers whether every row of the words that hold the
    first [count] rows is valid; in particular a positive answer means that
    the first [count] rows are. *)
Theorem CheckAllValid_spec m count :
  mask_ok m → (EntryCount count * bits <= capacity m)%nat →
  CheckAllValid m count = true ↔
  ∀ r, (r < EntryCount count * bits)%nat → RowIsValid m r = true.
Proof.
  intros Hok Hcap. destruct m as [words|]; [|done]. unfold CheckAllValid. rewrite Nat.eqb_eq.
  rewrite (proj2 (count_all (λ i, AllValid_entry (words !!! i)) (EntryCount count))).
  pose proof BITS_PER_VALUE_eq as Hb. cbn [mask_ok capacity] in *.
  assert (∀ i, (i < EntryCount count)%nat → inU 64 (words !!! i)) as Hw.
  { intros i Hi. rewrite Forall_lookup in Hok.
    destruct (lookup_lt_is_Some_2 words i) as [w Hlk]; [nia|].
    rewrite (list_lookup_total_correct _ _ _ Hlk). by eapply Hok. }
  split.
  - intros Hall r Hr. rewrite RowIsValid_testbit.
    assert (r / bits < EntryCount count)%nat as Hlt by (apply Nat.Div0.div_lt_upper_bound; lia).
    specialize (Hall _ Hlt). unfold AllValid_entry in Hall. apply Z.eqb_eq in Hall.
    rewrite Hall. apply MAX_ENTRY_testbit, entry_split.
  - intros Hall i Hi. apply Z.eqb_eq, max_entry_all; [by apply Hw|]. intros k Hk.
    specialize (Hall (i * bits + k)%nat). rewrite RowIsValid_testbit in Hall.
    rewrite Nat.div_add_l, Nat.div_small, Nat.add_0_r in Hall by lia.
    rewrite (Nat.add_comm (i * bits)), Nat.Div0.mod_add, Nat.mod_small in Hall by lia.
    apply Hall. nia.
Qed.

Lemma RowIsValid_fill a b e words r :
  (r < capacity (Some words))%nat →
  RowIsValid (Some (fill_range a b e words)) r =
    if decide (a <= r / bits < b)%nat then Z.testbit e (Z.of_nat (r mod bits)%nat)
    else RowIsValid (Some words) r.
Proof.
  intros Hr%capacity_lt. rewrite !RowIsValid_testbit, !list_lookup_total_alt.
  rewrite fill_range_lookup by done. by case_decide.
Qed.

(** the bulk operations, [Resize] and [Copy] agree with the row view:
    marking the first [count] rows reaches whole words, a resize keeps the
    old rows and makes the new words valid, a copy keeps the first rows. *)
Theorem ValidityMask_bulk_spec m count r :
  (r < count)%nat → (EntryCount count * bits <= capacity m)%nat →
  RowIsValid (SetAllInvalid m count) r = false ∧
  RowIsValid (SetAllValid m count) r = true ∧
  RowIsValid (ValidityMask_Copy m count) r = RowIsValid m r ∧
  (∀ new_size, (count <= new_size)%nat → RowIsValid (ValidityMask_Resize m count new_size) r = RowIsValid m r) ∧
  (∀ new_size s, (EntryCount count * bits <= s < new_size)%nat →
     RowIsValid (ValidityMask_Resize m count new_size) s = true).
Proof.
  intros Hr Hcap. pose proof (EntryCount_lt r count Hr) as Hlt. pose proof BITS_PER_VALUE_eq as Hb.
  destruct (entry_split r) as [Hsplit Hmod].
  assert (r < capacity m)%nat as Hrc by nia. split_and!.
  - unfold SetAllInvalid. rewrite RowIsValid_fill by (by rewrite capacity_writable).
    rewrite decide_True by lia. apply Z.bits_0.
  - unfold SetAllValid. rewrite RowIsValid_fill by (by rewrite capacity_writable).
    rewrite decide_True by lia. by apply MAX_ENTRY_testbit.
  - destruct m as [words|]; [|done]. cbn [ValidityMask_Copy]. rewrite !RowIsValid_testbit.
    unfold ValidityData_copy. rewrite for_insert_lookup by (by rewrite length_replicate).
    by rewrite (proj2 (Nat.ltb_lt _ _) Hlt).
  - intros n Hn. pose proof (EntryCount_lt r n ltac:(lia)) as Hltn.
    destruct m as [words|]; cbn [ValidityMask_Resize]; [|by apply RowIsValid_new].
    rewrite RowIsValid_fill.
    + rewrite decide_False by lia. rewrite !RowIsValid_testbit.
      rewrite for_insert_lookup by (by rewrite length_replicate).
      by rewrite (proj2 (Nat.ltb_lt _ _) Hlt).
    + cbn [capacity]. rewrite length_for_insert, length_replicate. nia.
  - intros n s Hs. pose proof (EntryCount_lt s n ltac:(lia)) as Hltn.
    destruct (entry_split s) as [Hss Hsm].
    destruct m as [words|]; cbn [ValidityMask_Resize]; [|by apply RowIsValid_new].
    rewrite RowIsValid_fill.
    + rewrite decide_True; [by apply MAX_ENTRY_testbit|]. split; [|done].
      apply Nat.div_le_lower_bound; [lia|]. lia.
    + cbn [capacity]. rewrite length_for_insert, length_replicate. nia.
Qed.

(** *** Slicing *)

Lemma slice_word_testbit lo hi s k :
  0 <= hi → (0 < s < bits)%nat → (k < bits)%nat → inU 64 lo →
  Z.testbit (slice_word lo hi s) (Z.of_nat k) =
    if (k + s <? bits)%nat then Z.testbit lo (Z.of_nat (k + s))
    else Z.testbit hi (Z.of_nat (k + s - bits)).
Proof.
  intros Hhi Hs Hk Hlo. pose proof BITS_PER_VALUE_eq as Hb. unfold slice_word.
  rewrite Z.lor_spec, Z.shiftr_spec by lia. unfold wrapU.
  rewrite Z.mod_pow2_bits_low by lia. destruct (Nat.ltb_spec (k + s) bits).
  - rewrite (Z.shiftl_spec_low hi) by lia. rewrite orb_false_r. f_equal. lia.
  - rewrite Z.shiftl_spec by lia.
    rewrite (Z.bits_above_log2 lo); [cbn [orb]; f_equal; lia|apply Hlo|].
    destruct Hlo as [Hl1 Hl2]. destruct (decide (lo = 0)) as [->|]; [cbn; lia|].
    apply Z.log2_lt_pow2; [lia|]. apply Z.lt_le_trans with (2 ^ 64); [done|].
    apply Z.pow_le_mono_r; lia.
Qed.

(** slicing a mask by less than 64 rows shifts the validity of every row
    except those of the last word. *)
Theorem ValidityMask_Slice_spec words offset r :
  Forall (inU 64) words → length words = STANDARD_ENTRY_COUNT → (0 < offset < bits)%nat →
  (r < (STANDARD_ENTRY_COUNT - 1) * bits)%nat →
  ∃ m, ValidityMask_Slice (Some words) offset = Ok m ∧
       RowIsValid m r = RowIsValid (Some words) (r + offset).
Proof.
  intros Hok Hlen Hoff Hr. pose proof BITS_PER_VALUE_eq as Hb. unfold ValidityMask_Slice.
  destruct (Nat.eqb_spec offset 0); [lia|].
  assert (offset / bits = 0)%nat as Hdiv by (apply Nat.div_small; lia).
  assert (slice_sub_units offset = offset) as ->.
  { unfold slice_sub_units. rewrite Hdiv, Nat.Div0.mod_0_l. lia. }
  rewrite Hdiv. destruct (Nat.ltb_spec 0 0); [lia|]. destruct (Nat.ltb_spec 0 offset); [|lia].
  destruct (Nat.leb_spec bits offset); [lia|]. eexists. split; [done|].
  destruct (entry_split r) as [Hsplit Hmod].
  set (e := (r / bits)%nat) in *. set (k := (r mod bits)%nat) in *.
  assert (e < STANDARD_ENTRY_COUNT - 1)%nat as He by (apply Nat.Div0.div_lt_upper_bound; lia).
  assert (∀ i, (i < STANDARD_ENTRY_COUNT)%nat → inU 64 (words !!! i)) as Hw.
  { intros i Hi. rewrite Forall_lookup in Hok.
    destruct (lookup_lt_is_Some_2 words i) as [w Hlk]; [lia|].
    rewrite (list_lookup_total_correct _ _ _ Hlk). by eapply Hok. }
  rewrite RowIsValid_testbit. fold e k. rewrite list_lookup_total_insert_ne by lia.
  rewrite for_insert_lookup; cycle 1.
  { unfold ValidityData_new. rewrite length_replicate. unfold STANDARD_ENTRY_COUNT in He. lia. }
  rewrite (proj2 (Nat.ltb_lt _ _) He).
  rewrite slice_word_testbit by (lia || apply Hw; lia). rewrite RowIsValid_testbit.
  assert (r + offset = e * bits + (k + offset))%nat as -> by lia.
  rewrite Nat.div_add_l by lia.
  rewrite (Nat.add_comm (e * bits)), Nat.Div0.mod_add.
  destruct (Nat.ltb_spec (k + offset) bits).
  - by rewrite Nat.div_small, Nat.mod_small, Nat.add_0_r by lia.
  - assert ((k + offset) / bits = 1 ∧ (k + offset) mod bits = k + offset - bits)%nat as [-> ->].
    { split; [symmetry; apply (Nat.div_unique _ _ 1 (k + offset - bits)); lia|].
      symmetry. apply (Nat.mod_unique _ _ 1); lia. }
    by rewrite Nat.add_1_r.
Qed.

(** the rows of the last word are not shifted but reported as valid, and
    an offset beyond one word computes a shift distance that is not below 64. *)
Theorem ValidityMask_Slice_defects :
  let m := SetInvalid None (STANDARD_VECTOR_SIZE - 1) in
  RowIsValid m (STANDARD_VECTOR_SIZE - 1) = false ∧
  (∃ m', ValidityMask_Slice m 1 = Ok m' ∧ RowIsValid m' (STANDARD_VECTOR_SIZE - 2) = true) ∧
  ValidityMask_Slice m 65 = Throw (UndefinedBehaviour "shift of a word by 64 or more").
Proof.
  cbv zeta. split; [vm_compute; reflexivity|]. split; [|vm_compute; reflexivity].
  eexists. split; [vm_compute; reflexivity|]. vm_compute. reflexivity.
Qed.

(** *** Witnesses *)

Lemma ValidityMask_Set_spec_witness :
  RowIsValid (ValidityMask_Set (SetInvalid None 70) 3 false) 70 = false ∧
  capacity (ValidityMask_Set (SetInvalid None 70) 3 false) = capacity (SetInvalid None 70).
Proof.
  destruct (ValidityMask_Set_spec (SetInvalid None 70) 3 false 70) as [H1 H2].
  - apply Nat.ltb_lt. vm_compute. reflexivity.
  - apply Nat.ltb_lt. vm_compute. reflexivity.
  - split; [|exact H2]. rewrite H1. vm_compute. reflexivity.
Defined.

Lemma ValidityMask_Combine_spec_witness :
  RowIsValid (ValidityMask_Combine (SetInvalid None 7) (SetInvalid None 9) 100) 9 = false.
Proof.
  rewrite (ValidityMask_Combine_spec (SetInvalid None 7) (SetInvalid None 9) 100 9) by lia.
  vm_compute. reflexivity.
Defined.

Lemma CheckAllValid_spec_witness : CheckAllValid (SetValid (SetInvalid None 7) 7) 100 = true.
Proof.
  apply (CheckAllValid_spec (SetValid (SetInvalid None 7) 7) 100).
  - repeat constructor; vm_compute; congruence.
  - apply Nat.leb_le. vm_compute. reflexivity.
  - apply (CheckAllValid_spec (SetValid (SetInvalid None 7) 7) 100).
    + repeat constructor; vm_compute; congruence.
    + apply Nat.leb_le. vm_compute. reflexivity.
    + vm_compute. reflexivity.
Defined.

Lemma ValidityMask_bulk_spec_witness : RowIsValid (SetAllInvalid (SetInvalid None 7) 100) 8 = false.
Proof.
  refine (proj1 (ValidityMask_bulk_spec (SetInvalid None 7) 100 8 _ _)); [lia|].
  apply Nat.leb_le. vm_compute. reflexivity.
Defined.

Lemma ValidityMask_Slice_spec_witness :
  ∃ m, ValidityMask_Slice (SetInvalid None 64) 5 = Ok m ∧
       RowIsValid m 59 = RowIsValid (SetInvalid None 64) (59 + 5).
Proof.
  apply (ValidityMask_Slice_spec (SetInvalidUnsafe (ValidityData_new STANDARD_VECTOR_SIZE) 64) 5 59).
  - repeat constructor; vm_compute; congruence.
  - vm_compute. reflexivity.
  - split; apply Nat.ltb_lt; vm_compute; reflexivity.
  - apply Nat.ltb_lt. vm_compute. reflexivity.
Defined.
