(* ===== verification/Statistics.v ===== *)
(** * Column statistics and zone maps

    Models src/src/storage/statistics/numeric_statistics.cpp,
    string_statistics.cpp, validity_statistics.cpp and base_statistics.cpp:
    minimum and maximum of a segment (for strings: of the first eight bytes),
    updated on every write, merged, written to disk, and consulted by
    [CheckZonemap] to skip segments.

    Numeric values are integers; the analysis of a string by the vendored
    utf8proc library is a parameter.

    Theorems: a skipped segment has no row that satisfies the filter, for
    numeric and for (truncated) string statistics; numeric zone maps also
    skip whenever the bounds allow it; the on-disk format round-trips;
    [StringStatistics::Copy] loses a flag. *)

From S2P Require Import Prelude Constants Serializer.

(** ** Comparisons ([enum class ExpressionType], the members used here) *)

Inductive ExpressionType : Set :=
| COMPARE_EQUAL
| COMPARE_NOTEQUAL
| COMPARE_LESSTHAN
| COMPARE_GREATERTHAN
| COMPARE_LESSTHANOREQUALTO
| COMPARE_GREATERTHANOREQUALTO.

(** ** Validity statistics *)

Record ValidityStatistics : Set := mkValidityStatistics { has_null : bool }.

Definition ValidityStatistics_Combine (l r : option ValidityStatistics) : option ValidityStatistics :=
  match l, r with
  | None, None => None
  | None, Some r => Some r
  | Some l, None => Some l
  | Some l, Some r => Some (mkValidityStatistics (has_null l || has_null r))
  end.

Definition ValidityStatistics_Merge (s other : ValidityStatistics) : ValidityStatistics :=
  mkValidityStatistics (has_null s || has_null other).

(** [BaseStatistics::CanHaveNull], on [validity_stats] *)
Definition CanHaveNull (validity_stats : option ValidityStatistics) : bool :=
  match validity_stats with None => true | Some v => has_null v end.

(** [BaseStatistics::Merge], on [validity_stats] *)
Definition BaseStatistics_Merge (validity_stats other : option ValidityStatistics)
    : option ValidityStatistics :=
  match other with
  | None => validity_stats
  | Some o =>
      match validity_stats with
      | Some v => Some (ValidityStatistics_Merge v o)
      | None => Some o
      end
  end.

(** [BaseStatistics::Verify]: the pointer is dereferenced when it is null. *)
Definition BaseStatistics_Verify (validity_stats : option ValidityStatistics) (vector_has_null : bool)
    : res unit :=
  match validity_stats with
  | None => Throw (UndefinedBehaviour "null validity_stats")
  | Some _ => Ok tt
  end.

(** ** Numeric statistics *)

Record NumericStatistics : Set := mkNumericStatistics {
  ns_min : Z;
  ns_max : Z;
  ns_validity : option ValidityStatistics;
}.

(** [min = Value::MaximumValue(type); max = Value::MinimumValue(type)] *)
Definition NumericStatistics_new (type_minimum type_maximum : Z) : NumericStatistics :=
  mkNumericStatistics type_maximum type_minimum None.

(** [NumericStatistics::Update<T>], through [UpdateValue]. *)
Definition NumericStatistics_Update (s : NumericStatistics) (new_value : Z) : NumericStatistics :=
  mkNumericStatistics
    (if new_value <? ns_min s then new_value else ns_min s)
    (if ns_max s <? new_value then new_value else ns_max s)
    (ns_validity s).

Definition NumericStatistics_Merge (s other : NumericStatistics) : NumericStatistics :=
  mkNumericStatistics
    (if ns_min other <? ns_min s then ns_min other else ns_min s)
    (if ns_max s <? ns_max other then ns_max other else ns_max s)
    (BaseStatistics_Merge (ns_validity s) (ns_validity other)).

Definition NumericStatistics_CheckZonemap (s : NumericStatistics) (comparison_type : ExpressionType)
    (constant : Z) : res bool :=
  match comparison_type with
  | COMPARE_EQUAL => Ok ((ns_min s <=? constant) && (constant <=? ns_max s))
  | COMPARE_GREATERTHANOREQUALTO => Ok (constant <=? ns_max s)
  | COMPARE_GREATERTHAN => Ok (constant <? ns_max s)
  | COMPARE_LESSTHANOREQUALTO => Ok (ns_min s <=? constant)
  | COMPARE_LESSTHAN => Ok (ns_min s <? constant)
  | _ => Throw (InternalException "Operation not implemented")
  end.

(** ** String statistics *)

Definition MAX_STRING_MINMAX_SIZE : nat := 8.

Record StringStatistics : Set := mkStringStatistics {
  ss_min : list Z;
  ss_max : list Z;
  ss_has_unicode : bool;
  ss_max_string_length : Z;
  ss_has_overflow_strings : bool;
}.

Definition StringStatistics_new : StringStatistics :=
  mkStringStatistics (replicate MAX_STRING_MINMAX_SIZE 255) (replicate MAX_STRING_MINMAX_SIZE 0)
    false 0 false.

(** The copy starts from a new object and sets what [Copy] assigns. *)
Definition StringStatistics_Copy (s : StringStatistics) : StringStatistics :=
  mkStringStatistics (ss_min s) (ss_max s) (ss_has_unicode s) (ss_max_string_length s)
    (ss_has_overflow_strings StringStatistics_new).

(** The loop over the first [len] bytes; [data] has at least as many. *)
Fixpoint StringValueComparison (data : list Z) (len : nat) (comparison : list Z) : Z :=
  match len, data, comparison with
  | S len, d :: data, c :: comparison =>
      if d <? c then -1 else if c <? d then 1 else StringValueComparison data len comparison
  | _, _, _ => 0
  end.

Definition ConstructValue (data : list Z) : list Z :=
  let size := length data in
  let value_size := if (MAX_STRING_MINMAX_SIZE <? size)%nat then MAX_STRING_MINMAX_SIZE else size in
  take value_size data ++ replicate (MAX_STRING_MINMAX_SIZE - value_size) 0.

(** [enum class UnicodeType] *)
Inductive UnicodeType : Set := INVALID | ASCII | UNICODE.

Section update.
(** [Utf8Proc::Analyze], and whether the column is a [VARCHAR] *)
Variable Analyze : list Z → UnicodeType.
Variable is_varchar : bool.

Definition StringStatistics_Update (s : StringStatistics) (value : list Z) : res StringStatistics :=
  let size := Z.of_nat (length value) in
  let target := ConstructValue value in
  let min := if StringValueComparison target MAX_STRING_MINMAX_SIZE (ss_min s) <? 0
             then target else ss_min s in
  let max := if 0 <? StringValueComparison target MAX_STRING_MINMAX_SIZE (ss_max s)
             then target else ss_max s in
  let max_string_length := if ss_max_string_length s <? size then size else ss_max_string_length s in
  if is_varchar && negb (ss_has_unicode s) then
    match Analyze value with
    | UNICODE => Ok (mkStringStatistics min max true max_string_length (ss_has_overflow_strings s))
    | INVALID => Throw (InternalException "Invalid unicode detected in segment statistics update!")
    | ASCII => Ok (mkStringStatistics min max (ss_has_unicode s) max_string_length (ss_has_overflow_strings s))
    end
  else Ok (mkStringStatistics min max (ss_has_unicode s) max_string_length (ss_has_overflow_strings s)).
End update.

Definition StringStatistics_Merge (s other : StringStatistics) : StringStatistics :=
  mkStringStatistics
    (if StringValueComparison (ss_min other) MAX_STRING_MINMAX_SIZE (ss_min s) <? 0
     then ss_min other else ss_min s)
    (if 0 <? StringValueComparison (ss_max other) MAX_STRING_MINMAX_SIZE (ss_max s)
     then ss_max other else ss_max s)
    (ss_has_unicode s || ss_has_unicode other)
    (Z.max (ss_max_string_length s) (ss_max_string_length other))
    (ss_has_overflow_strings s || ss_has_overflow_strings other).

Definition StringStatistics_CheckZonemap (s : StringStatistics) (comparison_type : ExpressionType)
    (constant : list Z) : res bool :=
  let size := length constant in
  let value_size := if (MAX_STRING_MINMAX_SIZE <? size)%nat then MAX_STRING_MINMAX_SIZE else size in
  let min_comp := StringValueComparison constant value_size (ss_min s) in
  let max_comp := StringValueComparison constant value_size (ss_max s) in
  match comparison_type with
  | COMPARE_EQUAL => Ok ((0 <=? min_comp) && (max_comp <=? 0))
  | COMPARE_GREATERTHANOREQUALTO | COMPARE_GREATERTHAN => Ok (max_comp <=? 0)
  | COMPARE_LESSTHAN | COMPARE_LESSTHANOREQUALTO => Ok (0 <=? min_comp)
  | _ => Throw (InternalException "Operation not implemented")
  end.

(** *** On disk *)

Definition StringStatistics_Serialize {S} `{!Serializer S} (can_have_null : bool)
    (s : StringStatistics) (serializer : S) : S :=
  let serializer := Write 1 serializer (if can_have_null then 1 else 0) in
  let serializer := WriteData serializer (ss_min s) in
  let serializer := WriteData serializer (ss_max s) in
  let serializer := Write 1 serializer (if ss_has_unicode s then 1 else 0) in
  let serializer := Write 4 serializer (ss_max_string_length s) in
  Write 1 serializer (if ss_has_overflow_strings s then 1 else 0).

(** [BaseStatistics::Deserialize] for a [VARCHAR] column: the flag, then
    [StringStatistics::Deserialize]. *)
Definition StringStatistics_Deserialize {D} `{!Deserializer D} (source : D)
    : res (bool * StringStatistics * D) :=
  '(can_have_null, source) ← Read 1 source;
  '(min, source) ← ReadData source MAX_STRING_MINMAX_SIZE;
  '(max, source) ← ReadData source MAX_STRING_MINMAX_SIZE;
  '(has_unicode, source) ← Read 1 source;
  '(max_string_length, source) ← Read 4 source;
  '(has_overflow_strings, source) ← Read 1 source;
  Ok (negb (can_have_null =? 0),
      mkStringStatistics min max (negb (has_unicode =? 0)) max_string_length
        (negb (has_overflow_strings =? 0)), source).

(** ** Specification *)

(** The filter on an integer. *)
Definition holds (comparison_type : ExpressionType) (value constant : Z) : Prop :=
  match comparison_type with
  | COMPARE_EQUAL => value = constant
  | COMPARE_NOTEQUAL => value ≠ constant
  | COMPARE_LESSTHAN => value < constant
  | COMPARE_GREATERTHAN => constant < value
  | COMPARE_LESSTHANOREQUALTO => value <= constant
  | COMPARE_GREATERTHANOREQUALTO => constant <= value
  end.

(** Byte strings in lexicographic order: [Lt], [Eq] or [Gt]. *)
Fixpoint string_compare (a b : list Z) : comparison :=
  match a, b with
  | [], [] => Eq
  | [], _ :: _ => Lt
  | _ :: _, [] => Gt
  | x :: a, y :: b => match x ?= y with Eq => string_compare a b | c => c end
  end.

(** The filter on a string. *)
Definition string_holds (comparison_type : ExpressionType) (value constant : list Z) : Prop :=
  match comparison_type with
  | COMPARE_EQUAL => string_compare value constant = Eq
  | COMPARE_NOTEQUAL => string_compare value constant ≠ Eq
  | COMPARE_LESSTHAN => string_compare value constant = Lt
  | COMPARE_GREATERTHAN => string_compare value constant = Gt
  | COMPARE_LESSTHANOREQUALTO => string_compare value constant ≠ Gt
  | COMPARE_GREATERTHANOREQUALTO => string_compare value constant ≠ Lt
  end.

Definition is_bytes (l : list Z) : Prop := Forall (λ b, 0 <= b < 256) l.

(** ** Lemmas *)

(** The bounds after updates with [values]. *)
Lemma NumericStatistics_updates s values v :
  v ∈ values → ns_min (foldl NumericStatistics_Update s values) <= v <=
               ns_max (foldl NumericStatistics_Update s values).
Proof.
  assert (∀ s values, ns_min (foldl NumericStatistics_Update s values) <= ns_min s ∧
                      ns_max s <= ns_max (foldl NumericStatistics_Update s values)) as Hmono.
  { clear. intros s values. revert s. induction values as [|x values IH]; intros s; cbn [foldl]; [lia|].
    specialize (IH (NumericStatistics_Update s x)). cbn [NumericStatistics_Update ns_min ns_max] in IH.
    destruct (Z.ltb_spec x (ns_min s)), (Z.ltb_spec (ns_max s) x); lia. }
  revert s. induction values as [|x values IH]; intros s Hv; [by apply elem_of_nil in Hv|].
  cbn [foldl]. apply elem_of_cons in Hv as [->|Hv]; [|by apply IH].
  specialize (Hmono (NumericStatistics_Update s x) values).
  cbn [NumericStatistics_Update ns_min ns_max] in Hmono.
  destruct (Z.ltb_spec x (ns_min s)), (Z.ltb_spec (ns_max s) x); lia.
Qed.

(** C32: after any updates of two statistics of integers and their merge, a zone
    map check for =, <, <=, > or >= that answers no means that no written value
    satisfies the filter; and it answers yes only when some value between the
    bounds does. *)
Theorem NumericStatistics_CheckZonemap_sound s other values values' cmp constant b :
  cmp ≠ COMPARE_NOTEQUAL →
  let st := NumericStatistics_Merge (foldl NumericStatistics_Update s values)
              (foldl NumericStatistics_Update other values') in
  NumericStatistics_CheckZonemap st cmp constant = Ok b →
  (b = false → ∀ v, v ∈ values ++ values' → ¬ holds cmp v constant) ∧
  (b = true → ns_min st <= ns_max st → ∃ v, ns_min st <= v <= ns_max st ∧ holds cmp v constant).
Proof.
  intros Hcmp st Hck.
  assert (∀ v, v ∈ values ++ values' → ns_min st <= v <= ns_max st) as Hin.
  { intros v Hv. unfold st, NumericStatistics_Merge. cbn [ns_min ns_max].
    pose proof (NumericStatistics_updates s values v) as H1.
    pose proof (NumericStatistics_updates other values' v) as H2.
    set (a := foldl NumericStatistics_Update s values) in *.
    set (c := foldl NumericStatistics_Update other values') in *.
    apply elem_of_app in Hv as [Hv|Hv]; [specialize (H1 Hv)|specialize (H2 Hv)];
      destruct (Z.ltb_spec (ns_min c) (ns_min a)), (Z.ltb_spec (ns_max a) (ns_max c)); lia. }
  clearbody st. unfold NumericStatistics_CheckZonemap in Hck. split.
  - intros -> v Hv. specialize (Hin v Hv).
    destruct cmp; try done; injection Hck as Hck; cbn [holds];
      rewrite ?andb_false_iff, ?Z.leb_gt, ?Z.ltb_ge in Hck; lia.
  - intros -> Hne. destruct cmp; try done; injection Hck as Hck; cbn [holds];
      rewrite ?andb_true_iff, ?Z.leb_le, ?Z.ltb_lt in Hck.
    + exists constant. lia.
    + exists (ns_min st). lia.
    + exists (ns_max st). lia.
    + exists (ns_min st). lia.
    + exists (ns_max st). lia.
Qed.

(** *** Strings *)

Lemma StringValueComparison_range data len c :
  StringValueComparison data len c = -1 ∨ StringValueComparison data len c = 0 ∨
  StringValueComparison data len c = 1.
Proof.
  revert data c. induction len as [|len IH]; intros [|d data] [|x c]; cbn; auto.
  destruct (d <? x); [auto|]. destruct (x <? d); auto.
Qed.

(** The comparison is the lexicographic order of the prefixes. *)
Lemma StringValueComparison_compare data len c :
  (len <= length data)%nat → (len <= length c)%nat →
  StringValueComparison data len c =
    match string_compare (take len data) (take len c) with Lt => -1 | Eq => 0 | Gt => 1 end.
Proof.
  revert data c. induction len as [|len IH]; intros [|d data] [|x c] H1 H2; cbn in H1, H2; try lia; try done.
  cbn. destruct (Z.compare_spec d x) as [->|Hlt|Hgt].
  - rewrite Z.ltb_irrefl. apply IH; lia.
  - by rewrite (proj2 (Z.ltb_lt _ _) Hlt).
  - rewrite (proj2 (Z.ltb_ge _ _)) by lia. by rewrite (proj2 (Z.ltb_lt _ _) Hgt).
Qed.

Lemma string_compare_refl a : string_compare a a = Eq.
Proof. induction a as [|x a IH]; [done|]. cbn. by rewrite Z.compare_refl. Qed.

Lemma string_compare_antisym a b : string_compare b a = CompOpp (string_compare a b).
Proof.
  revert b. induction a as [|x a IH]; intros [|y b]; cbn; [done..|].
  rewrite (Z.compare_antisym x y). destruct (x ?= y); cbn; [apply IH|done..].
Qed.

(** Strictly smaller prefixes make strictly smaller strings. *)
Lemma string_compare_take n a b :
  string_compare (take n a) (take n b) ≠ Eq →
  string_compare a b = string_compare (take n a) (take n b).
Proof.
  revert n b. induction a as [|x a IH]; intros [|n] [|y b]; cbn; try done.
  destruct (x ?= y); [apply IH|done..].
Qed.

Lemma string_compare_trans_le a b c :
  string_compare a b ≠ Gt → string_compare b c ≠ Gt → string_compare a c ≠ Gt.
Proof.
  revert b c. induction a as [|x a IH]; intros [|y b] [|z c]; cbn; try done.
  destruct (Z.compare_spec x y), (Z.compare_spec y z), (Z.compare_spec x z);
    subst; try done; try lia. apply IH.
Qed.

Lemma string_compare_lt_le_trans a b c :
  string_compare a b = Lt → string_compare b c ≠ Gt → string_compare a c = Lt.
Proof.
  revert b c. induction a as [|x a IH]; intros [|y b] [|z c]; cbn; try done.
  destruct (Z.compare_spec x y), (Z.compare_spec y z), (Z.compare_spec x z);
    subst; try done; try lia. apply IH.
Qed.

Lemma string_compare_le_lt_trans a b c :
  string_compare a b ≠ Gt → string_compare b c = Lt → string_compare a c = Lt.
Proof.
  revert b c. induction a as [|x a IH]; intros [|y b] [|z c]; cbn; try done.
  destruct (Z.compare_spec x y), (Z.compare_spec y z), (Z.compare_spec x z);
    subst; try done; try lia. apply IH.
Qed.

(** A difference within [n] bytes, with the value padded by zeros, decides. *)
Lemma string_compare_pad n v c :
  is_bytes c → (n <= length c)%nat →
  let o := string_compare (take n v ++ replicate (n - length v) 0) (take n c) in
  o ≠ Eq → string_compare v c = o.
Proof.
  revert v c. induction n as [|n IH]; intros [|x v] [|y c] Hc Hlen; cbn in Hlen; try lia; cbn; try done.
  - apply Forall_cons in Hc as [Hy Hc]. destruct y as [|y|y]; [|done|lia].
    specialize (IH [] c Hc ltac:(lia)). rewrite take_nil, Nat.sub_0_r in IH. cbn in IH.
    intros Ho. specialize (IH Ho). rewrite <-IH. destruct c; [|done]. destruct n; [done|cbn in Hlen; lia].
  - apply Forall_cons in Hc as [_ Hc]. destruct (x ?= y); [|done..]. apply IH; [done|lia].
Qed.

Lemma length_ConstructValue v : length (ConstructValue v) = MAX_STRING_MINMAX_SIZE.
Proof.
  unfold ConstructValue. destruct (Nat.ltb_spec MAX_STRING_MINMAX_SIZE (length v));
    rewrite length_app, length_take, length_replicate; lia.
Qed.

Lemma ConstructValue_pad v :
  ConstructValue v =
  take MAX_STRING_MINMAX_SIZE v ++ replicate (MAX_STRING_MINMAX_SIZE - length v) 0.
Proof.
  unfold ConstructValue. destruct (Nat.ltb_spec MAX_STRING_MINMAX_SIZE (length v)).
  - do 2 f_equal. lia.
  - rewrite !take_ge by lia. done.
Qed.

(** The statistics cover a value: its truncation lies between the bounds. *)
Definition covers (s : StringStatistics) (v : list Z) : Prop :=
  string_compare (ss_min s) (ConstructValue v) ≠ Gt ∧
  string_compare (ConstructValue v) (ss_max s) ≠ Gt.

Definition StringStatistics_ok (s : StringStatistics) : Prop :=
  length (ss_min s) = MAX_STRING_MINMAX_SIZE ∧ length (ss_max s) = MAX_STRING_MINMAX_SIZE ∧
  is_bytes (ss_min s) ∧ is_bytes (ss_max s).

Lemma comparison_lt_0 a b :
  length a = MAX_STRING_MINMAX_SIZE → length b = MAX_STRING_MINMAX_SIZE →
  StringValueComparison a MAX_STRING_MINMAX_SIZE b =
    match string_compare a b with Lt => -1 | Eq => 0 | Gt => 1 end.
Proof.
  intros Ha Hb. rewrite StringValueComparison_compare by lia.
  by rewrite !take_ge by lia.
Qed.

(** The smaller and the larger of two bounds, as the code computes them. *)
Lemma pick_min a b :
  length a = MAX_STRING_MINMAX_SIZE → length b = MAX_STRING_MINMAX_SIZE →
  let m := if StringValueComparison a MAX_STRING_MINMAX_SIZE b <? 0 then a else b in
  (m = a ∨ m = b) ∧ string_compare m a ≠ Gt ∧ string_compare m b ≠ Gt.
Proof.
  intros Ha Hb. rewrite comparison_lt_0 by done. destruct (string_compare a b) eqn:Hc; cbn.
  - split; [by right|]. rewrite string_compare_antisym, Hc, string_compare_refl. done.
  - split; [by left|]. rewrite Hc, string_compare_refl. done.
  - split; [by right|]. rewrite string_compare_antisym, Hc, string_compare_refl. done.
Qed.

Lemma pick_max a b :
  length a = MAX_STRING_MINMAX_SIZE → length b = MAX_STRING_MINMAX_SIZE →
  let m := if 0 <? StringValueComparison a MAX_STRING_MINMAX_SIZE b then a else b in
  (m = a ∨ m = b) ∧ string_compare a m ≠ Gt ∧ string_compare b m ≠ Gt.
Proof.
  intros Ha Hb. rewrite comparison_lt_0 by done. destruct (string_compare a b) eqn:Hc; cbn.
  - split; [by right|]. rewrite Hc, string_compare_refl. done.
  - split; [by right|]. rewrite Hc, string_compare_refl. done.
  - split; [by left|]. rewrite (string_compare_antisym a b), Hc, string_compare_refl. done.
Qed.

Lemma ConstructValue_bytes v : is_bytes v → is_bytes (ConstructValue v).
Proof.
  intros Hv. rewrite ConstructValue_pad. apply Forall_app. split; [by apply Forall_take|].
  apply Forall_replicate. lia.
Qed.

(** Updates and merges widen the bounds. *)
Lemma StringStatistics_Update_covers Analyze is_varchar s value s' :
  StringStatistics_ok s → is_bytes value →
  StringStatistics_Update Analyze is_varchar s value = Ok s' →
  StringStatistics_ok s' ∧ covers s' value ∧ ∀ v, covers s v → covers s' v.
Proof.
  intros (Hl1 & Hl2 & Hb1 & Hb2) Hv Hup.
  pose proof (length_ConstructValue value) as Hlen. pose proof (ConstructValue_bytes value Hv) as Hcb.
  destruct (pick_min (ConstructValue value) (ss_min s) Hlen Hl1) as (Hm & Hm1 & Hm2).
  destruct (pick_max (ConstructValue value) (ss_max s) Hlen Hl2) as (HM & HM1 & HM2).
  unfold StringStatistics_Update in Hup. cbv zeta in Hup.
  set (mn := if _ <? 0 then _ else _) in *. set (mx := if 0 <? _ then _ else _) in *.
  assert (ss_min s' = mn ∧ ss_max s' = mx) as [Hmn Hmx].
  { destruct (is_varchar && _); [destruct (Analyze value)|]; by inversion Hup. }
  unfold StringStatistics_ok, covers. rewrite Hmn, Hmx.
  split_and!.
  - destruct Hm as [-> | ->]; done.
  - destruct HM as [-> | ->]; done.
  - destruct Hm as [-> | ->]; done.
  - destruct HM as [-> | ->]; done.
  - done.
  - done.
  - intros v [Hc1 Hc2]. split; [by apply (string_compare_trans_le _ (ss_min s))|].
    by apply (string_compare_trans_le _ (ss_max s)).
Qed.

Lemma StringStatistics_Merge_covers s other v :
  StringStatistics_ok s → StringStatistics_ok other → covers s v ∨ covers other v →
  covers (StringStatistics_Merge s other) v.
Proof.
  intros (Hl1 & Hl2 & _) (Ho1 & Ho2 & _) Hc. unfold covers, StringStatistics_Merge.
  cbn [ss_min ss_max].
  destruct (pick_min (ss_min other) (ss_min s) Ho1 Hl1) as (_ & Hm1 & Hm2).
  destruct (pick_max (ss_max other) (ss_max s) Ho2 Hl2) as (_ & HM1 & HM2).
  destruct Hc as [[Hc1 Hc2]|[Hc1 Hc2]]; split.
  - by apply (string_compare_trans_le _ (ss_min s)).
  - by apply (string_compare_trans_le _ (ss_max s)).
  - by apply (string_compare_trans_le _ (ss_min other)).
  - by apply (string_compare_trans_le _ (ss_max other)).
Qed.

(** An order of truncations is an order of their prefixes. *)
Lemma string_compare_take_le n a b :
  string_compare a b ≠ Gt → string_compare (take n a) (take n b) ≠ Gt.
Proof.
  intros H Hc. apply H. rewrite (string_compare_take n); [done|]. by rewrite Hc.
Qed.

(** Comparing the constant with a bound decides the order of the value. *)
Lemma zonemap_prefix v c bound :
  is_bytes c → length bound = MAX_STRING_MINMAX_SIZE →
  let value_size := if (MAX_STRING_MINMAX_SIZE <? length c)%nat
                    then MAX_STRING_MINMAX_SIZE else length c in
  (0 < StringValueComparison c value_size bound →
   string_compare (ConstructValue v) bound ≠ Gt → string_compare v c = Lt) ∧
  (StringValueComparison c value_size bound < 0 →
   string_compare bound (ConstructValue v) ≠ Gt → string_compare v c = Gt).
Proof.
  intros Hc Hb vs.
  assert (vs <= length c ∧ vs <= MAX_STRING_MINMAX_SIZE)%nat as [Hvs1 Hvs2].
  { unfold vs. destruct (Nat.ltb_spec MAX_STRING_MINMAX_SIZE (length c)); lia. }
  rewrite StringValueComparison_compare by lia.
  assert (take vs (ConstructValue v) = take vs v ++ replicate (vs - length v) 0) as Hpre.
  { rewrite ConstructValue_pad, take_app, take_take, length_take, take_replicate.
    f_equal; [f_equal; lia|f_equal; lia]. }
  pose proof (string_compare_pad vs v c Hc Hvs1) as Hpad. rewrite <-Hpre in Hpad. cbv zeta in Hpad.
  split; intros Hcmp Hle; apply (string_compare_take_le vs) in Hle.
  - destruct (string_compare (take vs c) (take vs bound)) eqn:Hcb; try lia.
    assert (string_compare (take vs (ConstructValue v)) (take vs c) = Lt) as Ho.
    { apply (string_compare_le_lt_trans _ (take vs bound)); [done|].
      by rewrite string_compare_antisym, Hcb. }
    by rewrite Hpad; rewrite Ho.
  - destruct (string_compare (take vs c) (take vs bound)) eqn:Hcb; try lia.
    assert (string_compare (take vs (ConstructValue v)) (take vs c) = Gt) as Ho.
    { rewrite string_compare_antisym.
      by rewrite (string_compare_lt_le_trans _ (take vs bound)). }
    by rewrite Hpad; rewrite Ho.
Qed.

(** The statistics after updates with [values], none of which was refused. *)
Fixpoint StringStatistics_updates (Analyze : list Z → UnicodeType) (is_varchar : bool)
    (s : StringStatistics) (values : list (list Z)) : res StringStatistics :=
  match values with
  | [] => Ok s
  | v :: values =>
      s ← StringStatistics_Update Analyze is_varchar s v;
      StringStatistics_updates Analyze is_varchar s values
  end.

Lemma StringStatistics_updates_covers Analyze is_varchar s values s' :
  StringStatistics_ok s → Forall is_bytes values →
  StringStatistics_updates Analyze is_varchar s values = Ok s' →
  StringStatistics_ok s' ∧ (∀ v, v ∈ values → covers s' v) ∧ ∀ v, covers s v → covers s' v.
Proof.
  revert s. induction values as [|x values IH]; intros s Hok Hb Hup; cbn in Hup.
  { injection Hup as <-. split_and!; [done| |done]. intros v Hv. by apply elem_of_nil in Hv. }
  apply Forall_cons in Hb as [Hx Hb].
  destruct (StringStatistics_Update Analyze is_varchar s x) as [s1|] eqn:Hs1; [|done].
  destruct (StringStatistics_Update_covers _ _ _ _ _ Hok Hx Hs1) as (Hok1 & Hcx & Hkeep).
  destruct (IH s1 Hok1 Hb Hup) as (Hok' & Hall & Hkeep'). split_and!; [done| |by auto].
  intros v [->|Hv]%elem_of_cons; auto.
Qed.

Lemma StringStatistics_new_ok : StringStatistics_ok StringStatistics_new.
Proof. split_and!; [done|done|..]; apply Forall_replicate; lia. Qed.

(** a segment of strings that a filter skips contains no string that
    satisfies it, although only the first eight bytes of the smallest and the
    largest string are kept and the constant may be shorter or longer. *)
Theorem StringStatistics_CheckZonemap_sound Analyze is_varchar values values' s s' cmp constant :
  Forall is_bytes (values ++ values') → is_bytes constant → cmp ≠ COMPARE_NOTEQUAL →
  StringStatistics_updates Analyze is_varchar StringStatistics_new values = Ok s →
  StringStatistics_updates Analyze is_varchar StringStatistics_new values' = Ok s' →
  StringStatistics_CheckZonemap (StringStatistics_Merge s s') cmp constant = Ok false →
  ∀ v, v ∈ values ++ values' → ¬ string_holds cmp v constant.
Proof.
  intros Hb Hc Hcmp Hs Hs' Hck v Hv. apply Forall_app in Hb as [Hb Hb'].
  destruct (StringStatistics_updates_covers _ _ _ _ _ StringStatistics_new_ok Hb Hs) as (Hok & Hcov & _).
  destruct (StringStatistics_updates_covers _ _ _ _ _ StringStatistics_new_ok Hb' Hs') as (Hok' & Hcov' & _).
  assert (covers (StringStatistics_Merge s s') v) as [Hmin Hmax].
  { apply StringStatistics_Merge_covers; [done..|]. apply elem_of_app in Hv as [?|?]; auto. }
  set (st := StringStatistics_Merge s s') in *.
  assert (length (ss_min st) = MAX_STRING_MINMAX_SIZE ∧ length (ss_max st) = MAX_STRING_MINMAX_SIZE)
    as [Hl1 Hl2].
  { destruct Hok as (? & ? & _), Hok' as (? & ? & _). unfold st, StringStatistics_Merge.
    cbn [ss_min ss_max]. split; by case_match. }
  destruct (zonemap_prefix v constant (ss_min st) Hc Hl1) as [_ Hlo].
  destruct (zonemap_prefix v constant (ss_max st) Hc Hl2) as [Hhi _].
  unfold StringStatistics_CheckZonemap in Hck.
  set (vs := if (_ <? _)%nat then _ else _) in *. clearbody st.
  destruct cmp; try done; injection Hck as Hck; intros Hh; unfold string_holds in Hh;
    rewrite ?andb_false_iff, ?Z.leb_gt in Hck; try destruct Hck as [Hck|Hck];
    first [specialize (Hlo Hck Hmin)|specialize (Hhi Hck Hmax)]; congruence.
Qed.

(** *** On disk *)

Definition flag_byte (b : bool) : Z := if b then 1 else 0.

Lemma flag_byte_eqb b : negb (flag_byte b =? 0) = b.
Proof. by destruct b. Qed.

Definition StringStatistics_bytes (can_have_null : bool) (s : StringStatistics) : list Z :=
  le_encode 1 (flag_byte can_have_null) ++ ss_min s ++ ss_max s ++
  le_encode 1 (flag_byte (ss_has_unicode s)) ++ le_encode 4 (ss_max_string_length s) ++
  le_encode 1 (flag_byte (ss_has_overflow_strings s)).

Lemma encodes_StringStatistics {S} `{!Serializer S} b s :
  encodes (λ x : S, StringStatistics_Serialize b s x) (StringStatistics_bytes b s).
Proof.
  unfold StringStatistics_Serialize, StringStatistics_bytes, Write.
  apply (encodes_seq (λ x, WriteData x (le_encode 1 (flag_byte b)))
    (λ x, WriteData (WriteData (WriteData (WriteData (WriteData x (ss_min s)) (ss_max s))
      (le_encode 1 (flag_byte (ss_has_unicode s)))) (le_encode 4 (ss_max_string_length s)))
      (le_encode 1 (flag_byte (ss_has_overflow_strings s))))); [apply encodes_WriteData|].
  apply (encodes_seq (λ x, WriteData x (ss_min s))
    (λ x, WriteData (WriteData (WriteData (WriteData x (ss_max s))
      (le_encode 1 (flag_byte (ss_has_unicode s)))) (le_encode 4 (ss_max_string_length s)))
      (le_encode 1 (flag_byte (ss_has_overflow_strings s))))); [apply encodes_WriteData|].
  apply (encodes_seq (λ x, WriteData x (ss_max s))
    (λ x, WriteData (WriteData (WriteData x
      (le_encode 1 (flag_byte (ss_has_unicode s)))) (le_encode 4 (ss_max_string_length s)))
      (le_encode 1 (flag_byte (ss_has_overflow_strings s))))); [apply encodes_WriteData|].
  apply (encodes_seq (λ x, WriteData x (le_encode 1 (flag_byte (ss_has_unicode s))))
    (λ x, WriteData (WriteData x (le_encode 4 (ss_max_string_length s)))
      (le_encode 1 (flag_byte (ss_has_overflow_strings s))))); [apply encodes_WriteData|].
  apply (encodes_seq (λ x, WriteData x (le_encode 4 (ss_max_string_length s)))
    (λ x, WriteData x (le_encode 1 (flag_byte (ss_has_overflow_strings s)))));
    apply encodes_WriteData.
Qed.

Lemma decodes_StringStatistics {D} `{!Deserializer D} b s :
  StringStatistics_ok s → 0 <= ss_max_string_length s < 2 ^ 32 →
  decodes (λ d : D, StringStatistics_Deserialize d) (StringStatistics_bytes b s) (b, s).
Proof.
  intros (Hl1 & Hl2 & _) Hlen. unfold StringStatistics_Deserialize, StringStatistics_bytes.
  assert (∀ c, 0 <= flag_byte c < 2 ^ (8 * Z.of_nat 1)) as Hf by (intros []; cbn; lia).
  eapply decodes_bind; [by apply decodes_Read|].
  eapply decodes_bind; [rewrite <-Hl1; apply decodes_ReadData|].
  eapply decodes_bind; [rewrite <-Hl2; apply decodes_ReadData|].
  eapply decodes_bind; [by apply decodes_Read|].
  eapply decodes_bind; [by apply decodes_Read|].
  rewrite <-(app_nil_r (le_encode 1 (flag_byte (ss_has_overflow_strings s)))).
  eapply decodes_bind; [by apply decodes_Read|].
  rewrite !flag_byte_eqb. destruct s. apply decodes_ret.
Qed.

(** string statistics written through any serializer are read back by any
    deserializer. *)
Theorem StringStatistics_roundtrip {S D} `{!Serializer S, !Deserializer D} b s (ser : S) (d : D)
    (rest : list Z) :
  StringStatistics_ok s → 0 <= ss_max_string_length s < 2 ^ 32 → ser_ok ser → des_ok d →
  written (StringStatistics_Serialize b s ser) ++ rest = written ser ++ remaining d →
  ∃ d', StringStatistics_Deserialize d = Ok (b, s, d') ∧ remaining d' = rest.
Proof.
  intros Hok Hlen Hs Hd Heq. destruct (encodes_StringStatistics b s ser Hs) as [_ Hw].
  rewrite Hw, <-app_assoc in Heq. apply app_inv_head in Heq.
  destruct (decodes_StringStatistics b s Hok Hlen d rest Hd) as (d' & Hr & _ & Hrem); [done|]. eauto.
Qed.

(** a copy of string statistics keeps everything except the flag that
    says whether there are overflow strings, which it resets; the check of the
    base class dereferences a null pointer exactly when there are no validity
    statistics. *)
Theorem Statistics_defects :
  (∀ s, let c := StringStatistics_Copy s in
     ss_min c = ss_min s ∧ ss_max c = ss_max s ∧ ss_has_unicode c = ss_has_unicode s ∧
     ss_max_string_length c = ss_max_string_length s ∧ ss_has_overflow_strings c = false) ∧
  ∀ b, BaseStatistics_Verify None b = Throw (UndefinedBehaviour "null validity_stats") ∧
       ∀ v, BaseStatistics_Verify (Some v) b = Ok tt.
Proof. split; [intros []|intros b]; done. Qed.

(** *** Witnesses *)

Lemma NumericStatistics_CheckZonemap_sound_witness :
  holds COMPARE_GREATERTHAN 10 9 ∧ ∀ v, v ∈ [3; 9; 4] ++ [7] → ¬ holds COMPARE_GREATERTHAN v 9.
Proof.
  split; [reflexivity|].
  refine (proj1 (NumericStatistics_CheckZonemap_sound (NumericStatistics_new (-128) 127)
    (NumericStatistics_new (-128) 127) [3; 9; 4] [7] COMPARE_GREATERTHAN 9 false _ _) eq_refl).
  - discriminate.
  - reflexivity.
Defined.

Lemma StringStatistics_CheckZonemap_sound_witness :
  COMPARE_GREATERTHANOREQUALTO ≠ COMPARE_NOTEQUAL ∧
  ∀ v, v ∈ [[97; 98]; [97; 98; 99; 100; 101; 102; 103; 104; 105]] ++ [[98]] →
  ¬ string_holds COMPARE_GREATERTHANOREQUALTO v [99].
Proof.
  split; [discriminate|].
  apply (StringStatistics_CheckZonemap_sound (λ _, ASCII) true
    [[97; 98]; [97; 98; 99; 100; 101; 102; 103; 104; 105]] [[98]]
    (mkStringStatistics [97; 98; 0; 0; 0; 0; 0; 0] [97; 98; 99; 100; 101; 102; 103; 104] false 9 false)
    (mkStringStatistics [98; 0; 0; 0; 0; 0; 0; 0] [98; 0; 0; 0; 0; 0; 0; 0] false 1 false)).
  - repeat constructor; lia.
  - repeat constructor; lia.
  - discriminate.
  - reflexivity.
  - reflexivity.
  - reflexivity.
Defined.

Lemma StringStatistics_roundtrip_witness :
  ∃ d', StringStatistics_Deserialize (BufferedDeserializer_new
          (written (StringStatistics_Serialize true StringStatistics_new (BufferedSerializer_new 16)) ++ []))
        = Ok (true, StringStatistics_new, d') ∧ remaining d' = [].
Proof.
  apply (StringStatistics_roundtrip true StringStatistics_new (BufferedSerializer_new 16)
    (BufferedDeserializer_new
      (written (StringStatistics_Serialize true StringStatistics_new (BufferedSerializer_new 16)) ++ [])) []).
  - apply StringStatistics_new_ok.
  - cbn. lia.
  - split_and!; cbn; lia || done.
  - split; cbn [bd_ptr bd_endptr bd_data BufferedDeserializer_new]; lia.
  - vm_compute. reflexivity.
Defined.
