(* ===== verification/UpdateSegment.v ===== *)
(** * In-place updates with version chains

    Models src/src/storage/table/update_segment.cpp and
    src/src/include/guinsoodb/transaction/update_info.hpp.  Per vector, the
    newest values live in a base [UpdateInfo]; each transaction that updated
    the vector has one [UpdateInfo] with the values it replaced, in a doubly
    linked list from newest to oldest.  A reader starts from the base table,
    applies the base info and then undoes, newest first, every update it must
    not see.

    The nodes live in a heap ([gmap] from locations) with their [prev] and
    [next] pointers, because the undo buffer of a transaction and the chain
    share them.  The element type is a parameter, as in the C++ templates; the
    function pointers the constructor selects by type are the operations of
    the class [UpdateKind], with one instance for numeric columns and one for
    validity masks.

    Theorems: the pointer operations implement insertion into and removal
    from a list; the two merges compute the union of sorted maps; a reader
    sees exactly the newest version visible to its snapshot; an update, its
    commit, its rollback and its cleanup change what they must and nothing a
    concurrent snapshot sees. *)

From S2P Require Import Prelude Constants Serializer ChunkInfo MorselInfo ValidityMask.

(** ** Nodes *)

Abbreviation loc := nat.

(** [struct UpdateInfo]: the first [N] entries of [tuples] and [tuple_data]. *)
Record UpdateInfo (T : Type) : Type := mkUpdateInfo {
  version_number : Z;
  ui_vector_index : nat;
  tuples : list nat;
  tuple_data : list T;
  prev : option loc;
  next : option loc;
}.
Arguments mkUpdateInfo {_} _ _ _ _ _ _.
Arguments version_number {_} _.
Arguments ui_vector_index {_} _.
Arguments tuples {_} _.
Arguments tuple_data {_} _.
Arguments prev {_} _.
Arguments next {_} _.

Abbreviation heap T := (gmap loc (UpdateInfo T)).

Section nodes.
Context {T : Type}.
Implicit Types (u : UpdateInfo T) (h : heap T).

Definition set_prev (p : option loc) u : UpdateInfo T :=
  mkUpdateInfo (version_number u) (ui_vector_index u) (tuples u) (tuple_data u) p (next u).

Definition set_next (n : option loc) u : UpdateInfo T :=
  mkUpdateInfo (version_number u) (ui_vector_index u) (tuples u) (tuple_data u) (prev u) n.

Definition set_version (v : Z) u : UpdateInfo T :=
  mkUpdateInfo v (ui_vector_index u) (tuples u) (tuple_data u) (prev u) (next u).

(** The arrays, with the new [N]. *)
Definition set_entries (entries : list (nat * T)) u : UpdateInfo T :=
  mkUpdateInfo (version_number u) (ui_vector_index u) entries.*1 entries.*2 (prev u) (next u).

Definition entries u : list (nat * T) := zip (tuples u) (tuple_data u).

(** Write through a pointer. *)
Definition store (l : loc) (f : UpdateInfo T → UpdateInfo T) h : heap T := alter f l h.

(** The nodes a loop [while (current) { ...; current = current->next; }] visits. *)
Fixpoint chain_from (fuel : nat) h (current : option loc) : list loc :=
  match fuel, current with
  | S fuel, Some l =>
      match h !! l with
      | Some u => l :: chain_from fuel h (next u)
      | None => []
      end
  | _, _ => []
  end.

Definition chain h (current : option loc) : list loc := chain_from (S (size h)) h current.

(** The nodes at the locations [ls]. *)
Definition nodes_at h (ls : list loc) : list (UpdateInfo T) := omap (λ l, h !! l) ls.
End nodes.

(** ** Reading *)

(** The condition of [UpdatesForTransaction] under which the old values of a
    node are used. *)
Definition skip_version (start_time transaction_id v : Z) : bool :=
  (start_time <? v) && negb (v =? transaction_id).

Section read.
Context {T : Type}.
Implicit Types (u : UpdateInfo T) (h : heap T).

Definition UpdatesForTransaction {A} h (current : option loc) (start_time transaction_id : Z)
    (callback : UpdateInfo T → A → A) (a : A) : A :=
  foldl (λ a u, if skip_version start_time transaction_id (version_number u)
                then callback u a else a)
    a (nodes_at h (chain h current)).

Definition MergeUpdateInfo (current : UpdateInfo T) (result_data : list T) : list T :=
  if (length (tuples current) =? STANDARD_VECTOR_SIZE)%nat then
    tuple_data current ++ drop (length (tuples current)) result_data
  else
    foldl (λ result_data '(t, v), <[t := v]> result_data) result_data (entries current).

Definition UpdateMergeFetch (start_time transaction_id : Z) h (info : option loc)
    (result : list T) : list T :=
  UpdatesForTransaction h info start_time transaction_id MergeUpdateInfo result.

(** The search loop of [TemplatedFetchRow], with its two [break]s. *)
Fixpoint fetch_row_loop (entries : list (nat * T)) (row_idx : nat) (result : T) : T :=
  match entries with
  | [] => result
  | (t, v) :: entries =>
      if (t =? row_idx)%nat then v
      else if (row_idx <? t)%nat then result
      else fetch_row_loop entries row_idx result
  end.

Definition TemplatedFetchRow (start_time transaction_id : Z) h (info : option loc)
    (row_idx : nat) (result : T) : T :=
  UpdatesForTransaction h info start_time transaction_id
    (λ current result, fetch_row_loop (entries current) row_idx result) result.
End read.

(** [MergeValidity], on the mask of the result vector. *)
Definition MergeValidity (current : UpdateInfo bool) (result_mask : ValidityMask) : ValidityMask :=
  foldl (λ result_mask '(t, b), ValidityMask_Set result_mask t b) result_mask (entries current).

Definition UpdateMergeValidity (start_time transaction_id : Z) (h : heap bool)
    (info : option loc) (result_mask : ValidityMask) : ValidityMask :=
  UpdatesForTransaction h info start_time transaction_id MergeValidity result_mask.

(** ** Writing *)

Section write.
Context {T : Type} `{!Inhabited T}.
Implicit Types (u : UpdateInfo T) (h : heap T).

(** The inner loops of [template RollbackUpdate<T>]: [base] is the rest of the
    base info from [base_offset]. *)
Fixpoint rollback_one (id : nat) (v : T) (base : list (nat * T)) : list (nat * T) :=
  match base with
  | [] => []
  | (t, x) :: base =>
      if (t <? id)%nat then (t, x) :: rollback_one id v base else (t, v) :: base
  end.

Definition RollbackUpdate_data (base rollback : list (nat * T)) : list (nat * T) :=
  foldl (λ base '(id, v), rollback_one id v base) base rollback.

(** [CleanupUpdateInternal]: unlink a node.  A node without [prev] is excluded
    by the assertion of the source. *)
Definition CleanupUpdateInternal h (info : loc) : heap T :=
  match h !! info with
  | None => h
  | Some u =>
      match prev u with
      | None => h
      | Some p =>
          let h := store p (set_next (next u)) h in
          match next u with
          | Some n => store n (set_prev (Some p)) h
          | None => h
          end
      end
  end.

(** The merge join of [CheckForConflicts]: both lists are sorted. *)
Fixpoint conflict_loop (ids : list nat) : list nat → bool :=
  fix inner (ts : list nat) : bool :=
    match ids, ts with
    | id :: ids', t :: ts' =>
        if (id =? t)%nat then true
        else if (id <? t)%nat then conflict_loop ids' ts
        else inner ts'
    | _, _ => false
    end.

(** Whether [CheckForConflicts] throws; the node it finds on the way is
    shadowed in [Update]. *)
Definition CheckForConflicts h (info : option loc) (transaction : Transaction)
    (ids : list nat) : bool :=
  existsb (λ u,
    negb (version_number u =? transaction_id transaction) &&
    (start_time transaction <? version_number u) && conflict_loop ids (tuples u))
    (nodes_at h (chain h info)).

(** The search for the transaction's own node. *)
Definition find_node h (current : option loc) (transaction_id : Z) : option loc :=
  List.find (λ l, match h !! l with
                  | Some u => version_number u =? transaction_id
                  | None => false
                  end) (chain h current).

(** [Transaction::CreateUpdateInfo]: a zero-filled entry of the undo buffer. *)
Definition CreateUpdateInfo h (transaction : Transaction) : loc * heap T :=
  let l := fresh (dom h) in
  (l, <[l := mkUpdateInfo (transaction_id transaction) 0 [] [] None None]> h).

(** Link a new, empty node behind the base info. *)
Definition insert_node h (base : loc) (vector_index : nat) (transaction : Transaction)
    : loc * heap T :=
  let '(node, h) := CreateUpdateInfo h transaction in
  let base_next := h !! base ≫= next in
  let h := store node (λ u, mkUpdateInfo (version_number u) vector_index [] [] (Some base) base_next) h in
  let h := match base_next with
           | Some n => store n (set_prev (Some node)) h
           | None => h
           end in
  (node, store base (set_next (Some node)) h).

(** The transaction's node, created if there is none: the node, the heap and
    the entry pushed to the undo buffer. *)
Definition own_node h (base : loc) (vector_index : nat) (transaction : Transaction)
    : loc * heap T * option loc :=
  match find_node h (h !! base ≫= next) (transaction_id transaction) with
  | Some node => (node, h, None)
  | None =>
      let '(node, h) := insert_node h base vector_index transaction in (node, h, Some node)
  end.

(** *** Merging *)

Fixpoint drop_below (id : nat) (l : list (nat * T)) : list (nat * T) :=
  match l with
  | (t, v) :: l' => if (t <? id)%nat then drop_below id l' else l
  | [] => []
  end.

Fixpoint take_below (id : nat) (l : list (nat * T)) : list (nat * T) :=
  match l with
  | (t, v) :: l' => if (t <? id)%nat then (t, v) :: take_below id l' else []
  | [] => []
  end.

(** The value at the head of [l] when it belongs to [id]. *)
Definition head_entry (id : nat) (l : list (nat * T)) : option T :=
  match l with
  | (t, v) :: _ => if (t =? id)%nat then Some v else None
  | [] => None
  end.

(** First part of [MergeUpdateLoopInternal]: the old values of the rows [ids]
    join those that the transaction's node already has ([upd]); [base] is the
    base info from [base_info_offset], [base_table] the base table. *)
Fixpoint merge_old (base_table : nat → T) (ids : list nat) (upd base : list (nat * T))
    : list (nat * T) :=
  match ids with
  | [] => upd
  | id :: ids =>
      let written := take_below id upd in
      let upd := drop_below id upd in
      match head_entry id upd with
      | Some v => written ++ (id, v) :: merge_old base_table ids (tail upd) base
      | None =>
          let base := drop_below id base in
          written ++ (id, default (base_table id) (head_entry id base))
            :: merge_old base_table ids upd base
      end
  end.

(** [MergeLoop] with the callbacks of [MergeUpdateLoopInternal]: [a] are the
    new values, [b] the old ones. *)
Fixpoint MergeLoop (a : list (nat * T)) : list (nat * T) → list (nat * T) :=
  fix inner (b : list (nat * T)) : list (nat * T) :=
    match a, b with
    | (a_id, av) :: a', (b_id, bv) :: b' =>
        if (a_id =? b_id)%nat then (a_id, av) :: MergeLoop a' b'
        else if (a_id <? b_id)%nat then (a_id, av) :: MergeLoop a' b
        else (b_id, bv) :: inner b'
    | [], b => b
    | a, [] => a
    end.
End write.

(** ** The function pointers of a segment

    What the constructor selects by the physical type of the column. *)
Class UpdateKind (T V St : Type) : Type := {
  (** [OP::Extract], and the reads of [InitializeUpdateData] / [...Validity] *)
  Extract : V → nat → T;
  (** [statistics_update_function]: the selected positions below [count] *)
  statistics_update : St → V → nat → St * list nat;
  (** the fast path at the start of [Update], for validity columns *)
  skip_update : V → V → bool;
  (** [BaseStatistics::Merge] *)
  MergeStatistics : St → St → St;
  (** [BaseStatistics::CreateEmpty] *)
  empty_statistics : St;
}.

(** What [Update] relies on. *)
Class UpdateKindLaws (T V St : Type) `{!UpdateKind T V St} : Prop := {
  statistics_update_sel st v count :
    StronglySorted lt (statistics_update st v count).2 ∧
    Forall (λ i, i < count)%nat (statistics_update st v count).2;
  skip_update_same upd base i j :
    skip_update upd base = true → Extract upd i = Extract base j;
}.

(** ** The segment *)

Record UpdateSegment (T St : Type) : Type := mkUpdateSegment {
  us_start : nat;
  us_root : option (list (option loc));
  us_heap : heap T;
  us_stats : St;
  us_column_stats : St;
}.
Arguments mkUpdateSegment {_ _} _ _ _ _ _.
Arguments us_start {_ _} _.
Arguments us_root {_ _} _.
Arguments us_heap {_ _} _.
Arguments us_stats {_ _} _.
Arguments us_column_stats {_ _} _.

Section segment.
Context {T V St : Type} `{!Inhabited T, !UpdateKind T V St}.
Implicit Types (g : UpdateSegment T St).

Definition UpdateSegment_new (start : nat) (column_stats : St) : UpdateSegment T St :=
  mkUpdateSegment start None ∅ empty_statistics column_stats.

Definition root_at g (vector_index : nat) : option loc :=
  match us_root g with
  | None => None
  | Some infos => default None (infos !! vector_index)
  end.

Definition UpdateSegment_HasUpdates g : bool :=
  match us_root g with Some _ => true | None => false end.

Definition UpdateSegment_HasUpdates_vector g (vector_index : nat) : bool :=
  match root_at g vector_index with Some _ => true | None => false end.

Definition HasUncommittedUpdates g (vector_index : nat) : bool :=
  match root_at g vector_index with
  | None => false
  | Some base =>
      match us_heap g !! base ≫= next with Some _ => true | None => false end
  end.

Definition ClearUpdates g : UpdateSegment T St :=
  mkUpdateSegment (us_start g) None ∅ empty_statistics (us_column_stats g).

Definition FetchUpdates g (transaction : Transaction) (vector_index : nat) (result : list T)
    : list T :=
  match root_at g vector_index with
  | None => result
  | Some base =>
      UpdateMergeFetch (start_time transaction) (transaction_id transaction) (us_heap g)
        (Some base) result
  end.

Definition FetchCommitted g (vector_index : nat) (result : list T) : list T :=
  match root_at g vector_index ≫= (λ base, us_heap g !! base) with
  | None => result
  | Some info => MergeUpdateInfo info result
  end.

(** [row_in_vector] as the source computes it: without the segment's start. *)
Definition UpdateSegment_FetchRow g (transaction : Transaction) (row_id : nat) (result : T) : T :=
  match us_root g with
  | None => result
  | Some _ =>
      let vector_index := ((row_id - us_start g) / STANDARD_VECTOR_SIZE)%nat in
      match root_at g vector_index with
      | None => result
      | Some base =>
          let row_in_vector := (row_id - vector_index * STANDARD_VECTOR_SIZE)%nat in
          TemplatedFetchRow (start_time transaction) (transaction_id transaction) (us_heap g)
            (Some base) row_in_vector result
      end
  end.

Definition UpdateSegment_RollbackUpdate g (info : loc) : UpdateSegment T St :=
  match us_heap g !! info with
  | None => g
  | Some u =>
      match root_at g (ui_vector_index u) with
      | None => g
      | Some base =>
          let h := store base
            (λ b, set_entries (RollbackUpdate_data (entries b) (entries u)) b) (us_heap g) in
          mkUpdateSegment (us_start g) (us_root g) (CleanupUpdateInternal h info)
            (us_stats g) (us_column_stats g)
      end
  end.

Definition CleanupUpdate g (info : loc) : UpdateSegment T St :=
  mkUpdateSegment (us_start g) (us_root g) (CleanupUpdateInternal (us_heap g) info)
    (us_stats g) (us_column_stats g).

(** The commit of an update: [info->version_number = commit_id]. *)
Definition UpdateInfo_Commit g (info : loc) (commit_id : Z) : UpdateSegment T St :=
  mkUpdateSegment (us_start g) (us_root g) (store info (set_version commit_id) (us_heap g))
    (us_stats g) (us_column_stats g).

(** [MergeUpdateLoopInternal]: the node first, then the base info. *)
Definition MergeUpdateLoopInternal (h : heap T) (base_info update_info : loc)
    (base_table_data update_vector_data : V) (ids : list (nat * nat)) : heap T :=
  let base := default [] (entries <$> h !! base_info) in
  let upd := default [] (entries <$> h !! update_info) in
  let h := store update_info (set_entries (merge_old (Extract base_table_data) ids.*1 upd base)) h in
  store base_info
    (set_entries (MergeLoop ((λ '(id, idx), (id, Extract update_vector_data idx)) <$> ids) base)) h.

(** [InitializeUpdateInfo]: the row numbers, relative to the vector. *)
Definition InitializeUpdateInfo (ids : list nat) (sel : list nat) (vector_offset : nat)
    : list (nat * nat) :=
  (λ i, (ids !!! i - vector_offset, i)%nat) <$> sel.

(** The two new infos of a vector that had no updates. *)
Definition initialize_vector (h : heap T) (transaction : Transaction) (update base_data : V)
    (vector_index : nat) (ids : list (nat * nat)) : loc * loc * heap T :=
  let base_info := fresh (dom h) in
  let h := <[base_info := mkUpdateInfo (TRANSACTION_ID_START - 1) vector_index ids.*1
               ((λ '(_, idx), Extract update idx) <$> ids) None None]> h in
  let '(transaction_node, h) := CreateUpdateInfo h transaction in
  let h := store transaction_node (λ u,
    mkUpdateInfo (version_number u) vector_index ids.*1
      ((λ '(id, _), Extract base_data id) <$> ids) (Some base_info) None) h in
  (base_info, transaction_node, store base_info (set_next (Some transaction_node)) h).

(** The result is the entry pushed to the undo buffer of the transaction. *)
Definition UpdateSegment_Update g (transaction : Transaction) (update : V) (ids : list nat)
    (base_data : V) : out (UpdateSegment T St) (option loc) :=
  match ids with
  | [] => Raise g (UndefinedBehaviour "ids[0] of an empty update")
  | first_id :: _ =>
      let vector_index := ((first_id - us_start g) / STANDARD_VECTOR_SIZE)%nat in
      let vector_offset := (us_start g + vector_index * STANDARD_VECTOR_SIZE)%nat in
      if negb (UpdateSegment_HasUpdates_vector g vector_index) && skip_update update base_data
      then Ret g None
      else
        let '(stats, sel) := statistics_update (us_stats g) update (length ids) in
        match sel with
        | [] => Ret (mkUpdateSegment (us_start g) (us_root g) (us_heap g) stats (us_column_stats g)) None
        | _ =>
            let root := default (replicate MORSEL_VECTOR_COUNT None) (us_root g) in
            let new_ids := InitializeUpdateInfo ids sel vector_offset in
            let column_stats := MergeStatistics (us_column_stats g) stats in
            match root !! vector_index with
            | None => Raise g (UndefinedBehaviour "root->info[vector_index] is out of bounds")
            | Some (Some base_info) =>
                let base_next := us_heap g !! base_info ≫= next in
                if CheckForConflicts (us_heap g) base_next transaction new_ids.*1 then
                  Raise (mkUpdateSegment (us_start g) (Some root) (us_heap g) stats (us_column_stats g))
                    (TransactionException "Conflict on update!")
                else
                  let '(node, h, created) := own_node (us_heap g) base_info vector_index transaction in
                  Ret (mkUpdateSegment (us_start g) (Some root)
                         (MergeUpdateLoopInternal h base_info node base_data update new_ids)
                         stats column_stats) created
            | Some None =>
                let '(base_info, node, h) :=
                  initialize_vector (us_heap g) transaction update base_data vector_index new_ids in
                Ret (mkUpdateSegment (us_start g) (Some (<[vector_index := Some base_info]> root)) h
                       stats column_stats) (Some node)
            end
        end
  end.
End segment.

(** ** Lemmas: sorted entries as finite maps *)

#[local] Arguments Nat.ltb : simpl never.
#[local] Arguments Nat.eqb : simpl never.

Section entries_lemmas.
Context {T : Type}.
Implicit Types (l upd base a b : list (nat * T)) (i id : nat).

(** The value of row [i] in a list of entries. *)
Fixpoint value_in l i : option T :=
  match l with
  | [] => None
  | (t, v) :: l => if decide (t = i) then Some v else value_in l i
  end.

Definition sorted_keys l : Prop := StronglySorted lt l.*1.

Lemma sorted_cons t v l : sorted_keys ((t, v) :: l) ↔ sorted_keys l ∧ Forall (λ p, t < p.1)%nat l.
Proof.
  unfold sorted_keys. cbn. split.
  - intros H. apply StronglySorted_inv in H as [Hs Hf]. split; [done|]. by rewrite Forall_fmap in Hf.
  - intros [Hs Hf]. constructor; [done|]. by rewrite Forall_fmap.
Qed.

Lemma value_in_above l i t : Forall (λ p, t < p.1)%nat l → (i <= t)%nat → value_in l i = None.
Proof.
  induction l as [|[x v] l IH]; [done|]. intros [Hx Hl]%Forall_cons Hi. cbn in *.
  rewrite decide_False by lia. by apply IH.
Qed.

Lemma value_in_Some l i v : value_in l i = Some v → i ∈ l.*1.
Proof.
  induction l as [|[t x] l IH]; cbn; [done|]. case_decide as Hd; [subst; left|right; auto].
Qed.

Lemma value_in_None l i : value_in l i = None ↔ i ∉ l.*1.
Proof.
  induction l as [|[t x] l IH]; cbn.
  { split; [intros _; apply not_elem_of_nil|done]. }
  rewrite elem_of_cons. case_decide; [naive_solver|]. rewrite IH. naive_solver.
Qed.

Lemma value_in_elem l i v : sorted_keys l → (i, v) ∈ l → value_in l i = Some v.
Proof.
  induction l as [|[t x] l IH]; intros Hs Hin; [by apply elem_of_nil in Hin|].
  apply sorted_cons in Hs as [Hs Hf]. cbn. apply elem_of_cons in Hin as [[= -> ->]|Hin].
  - by rewrite decide_True.
  - rewrite decide_False; [by apply IH|]. rewrite Forall_forall in Hf. specialize (Hf _ Hin).
    cbn in Hf. lia.
Qed.

Lemma below_app id l : take_below id l ++ drop_below id l = l.
Proof.
  induction l as [|[t v] l IH]; [done|]. cbn. destruct (t <? id)%nat; [|done]. cbn. by rewrite IH.
Qed.

Lemma take_below_lt id l : Forall (λ p, p.1 < id)%nat (take_below id l).
Proof.
  induction l as [|[t v] l IH]; cbn; [constructor|].
  destruct (Nat.ltb_spec t id); constructor; done.
Qed.

Lemma drop_below_ge id l : sorted_keys l → Forall (λ p, id <= p.1)%nat (drop_below id l).
Proof.
  induction l as [|[t v] l IH]; intros Hs; cbn; [constructor|]. apply sorted_cons in Hs as [Hs Hf].
  destruct (Nat.ltb_spec t id); [by apply IH|]. constructor; [done|].
  eapply Forall_impl; [exact Hf|]. cbn. lia.
Qed.

Lemma drop_below_sorted id l : sorted_keys l → sorted_keys (drop_below id l).
Proof.
  induction l as [|[t v] l IH]; intros Hs; cbn; [done|].
  destruct (t <? id)%nat; [|done]. apply IH. by apply sorted_cons in Hs as [? _].
Qed.

Lemma drop_below_Forall (P : nat * T → Prop) id l : Forall P l → Forall P (drop_below id l).
Proof.
  induction l as [|[t v] l IH]; intros Hf; cbn; [done|].
  destruct (t <? id)%nat; [|done]. apply IH. by apply Forall_cons in Hf as [_ ?].
Qed.

Lemma value_in_drop_below id l i : (id <= i)%nat → value_in (drop_below id l) i = value_in l i.
Proof.
  intros Hi. induction l as [|[t v] l IH]; [done|]. cbn.
  destruct (Nat.ltb_spec t id); [|done]. rewrite decide_False by lia. done.
Qed.

Lemma value_in_app l1 l2 i :
  value_in (l1 ++ l2) i = match value_in l1 i with Some v => Some v | None => value_in l2 i end.
Proof.
  induction l1 as [|[t v] l1 IH]; [done|]. cbn. case_decide; [done|]. apply IH.
Qed.

Lemma head_entry_drop_below id l :
  sorted_keys l → head_entry id (drop_below id l) = value_in l id.
Proof.
  intros Hs. rewrite <-(value_in_drop_below id l id) by lia.
  pose proof (drop_below_sorted id l Hs) as Hs'. pose proof (drop_below_ge id l Hs) as Hge.
  destruct (drop_below id l) as [|[t v] l']; [done|]. cbn.
  destruct (Nat.eqb_spec t id) as [->|Hne]; [by rewrite decide_True|].
  rewrite decide_False by done. apply sorted_cons in Hs' as [_ Hf].
  apply Forall_cons in Hge as [Hge _]. cbn in Hge. symmetry. eapply value_in_above; [exact Hf|lia].
Qed.

(** Two sorted lists, the first below the second. *)
Lemma sorted_app l1 l2 t :
  sorted_keys l1 → sorted_keys l2 → Forall (λ p, p.1 < t)%nat l1 → Forall (λ p, t <= p.1)%nat l2 →
  sorted_keys (l1 ++ l2).
Proof.
  intros H1 H2 Hf1 Hf2. induction l1 as [|[x v] l1 IH]; [done|]. cbn.
  apply sorted_cons in H1 as [H1 Hf]. apply Forall_cons in Hf1 as [Hx Hf1]. cbn in Hx.
  apply sorted_cons. split; [by apply IH|]. apply Forall_app. split; [done|].
  eapply Forall_impl; [exact Hf2|]. cbn. lia.
Qed.

Lemma take_below_sorted id l : sorted_keys l → sorted_keys (take_below id l).
Proof.
  induction l as [|[t v] l IH]; intros Hs; cbn; [done|].
  destruct (t <? id)%nat; [|constructor]. apply sorted_cons in Hs as [Hs Hf]. apply sorted_cons.
  split; [by apply IH|]. rewrite Forall_forall in *. intros p Hp. apply Hf.
  rewrite <-(below_app id l). apply elem_of_app. by left.
Qed.
End entries_lemmas.

Section merge_lemmas.
Context {T : Type}.
Implicit Types (l upd base a b : list (nat * T)) (i id : nat) (bt : nat → T).

Lemma merge_old_sorted bt ids upd base m :
  StronglySorted lt ids → sorted_keys upd →
  Forall (λ id, m <= id)%nat ids → Forall (λ p, m <= p.1)%nat upd →
  sorted_keys (merge_old bt ids upd base) ∧ Forall (λ p, m <= p.1)%nat (merge_old bt ids upd base).
Proof.
  revert upd base m. induction ids as [|id ids IH]; intros upd base m Hids Hupd Hmi Hmu; [done|].
  apply StronglySorted_inv in Hids as [Hids Hlt]. apply Forall_cons in Hmi as [Hm Hmi].
  pose proof (drop_below_sorted id upd Hupd) as Hds. pose proof (drop_below_ge id upd Hupd) as Hge.
  pose proof (take_below_sorted id upd Hupd) as Hts. pose proof (take_below_lt id upd) as Htl.
  assert (Forall (λ p, m <= p.1)%nat (take_below id upd)) as Htm.
  { rewrite <-(below_app id upd) in Hmu. by apply Forall_app in Hmu as [? _]. }
  assert (Forall (λ x, S id <= x)%nat ids) as Hids' by (eapply Forall_impl; [exact Hlt|]; cbn; lia).
  assert (∀ v rest, sorted_keys rest → Forall (λ p, S id <= p.1)%nat rest →
    sorted_keys (take_below id upd ++ (id, v) :: rest) ∧
    Forall (λ p, m <= p.1)%nat (take_below id upd ++ (id, v) :: rest)) as Hjoin.
  { intros v rest Hr Hrf. split.
    - apply (sorted_app _ _ id); [done| |done|].
      + apply sorted_cons. split; [done|]. eapply Forall_impl; [exact Hrf|]. cbn. lia.
      + constructor; [done|]. eapply Forall_impl; [exact Hrf|]. cbn. lia.
    - apply Forall_app. split; [done|]. constructor; [done|].
      eapply Forall_impl; [exact Hrf|]. cbn. lia. }
  cbn [merge_old]. destruct (drop_below id upd) as [|[t v] rest] eqn:Hd; cbn [head_entry tail].
  - apply Hjoin; by apply (IH [] _ (S id)).
  - apply sorted_cons in Hds as [Hrs Hrf]. apply Forall_cons in Hge as [Htge _]. cbn in Htge.
    destruct (Nat.eqb_spec t id) as [->|Hne].
    + apply Hjoin; apply (IH rest _ (S id)); try done; eapply Forall_impl; try exact Hrf; done.
    + apply Hjoin; apply (IH _ _ (S id)); try done; try (by apply sorted_cons);
        (constructor; [cbn; lia|]; eapply Forall_impl; [exact Hrf|]; cbn; lia).
Qed.

Lemma merge_old_value bt ids upd base i :
  StronglySorted lt ids → sorted_keys upd → sorted_keys base →
  value_in (merge_old bt ids upd base) i =
    match value_in upd i with
    | Some v => Some v
    | None => if decide (i ∈ ids) then Some (default (bt i) (value_in base i)) else None
    end.
Proof.
  revert upd base. induction ids as [|id ids IH]; intros upd base Hids Hupd Hbase.
  { cbn. rewrite decide_False by apply not_elem_of_nil. by destruct (value_in upd i). }
  apply StronglySorted_inv in Hids as [Hids Hlt]. rewrite Forall_forall in Hlt.
  pose proof (drop_below_sorted id upd Hupd) as Hds.
  pose proof (drop_below_sorted id base Hbase) as Hdb.
  cbn [merge_old]. rewrite !head_entry_drop_below by done.
  assert (value_in upd i = match value_in (take_below id upd) i with
            | Some v => Some v | None => value_in (drop_below id upd) i end) as Hsplit.
  { by rewrite <-value_in_app, below_app. }
  destruct (value_in upd id) as [v|] eqn:Hid.
  - rewrite value_in_app, Hsplit. destruct (value_in (take_below id upd) i); [done|]. cbn.
    rewrite <-(value_in_drop_below id upd id) in Hid by lia.
    pose proof (drop_below_ge id upd Hupd) as Hge.
    destruct (drop_below id upd) as [|[t x] rest]; [done|]. cbn in Hid |- *.
    apply sorted_cons in Hds as [Hrs Hrf]. apply Forall_cons in Hge as [Hge _]. cbn in Hge.
    case_decide as Ht; cycle 1.
    { rewrite (value_in_above rest id t) in Hid by (done || lia). done. }
    subst t. injection Hid as ->. destruct (decide (id = i)) as [->|Hne]; [done|].
    rewrite IH by done. destruct (value_in rest i); [done|].
    destruct (decide (i ∈ ids)), (decide (i ∈ id :: ids)) as [Hc|Hc];
      rewrite elem_of_cons in Hc; naive_solver.
  - rewrite value_in_app, Hsplit.
    destruct (value_in (take_below id upd) i) eqn:Htb; [done|]. cbn.
    destruct (decide (id = i)) as [->|Hne].
    + rewrite Hsplit in Hid. rewrite Hid. by rewrite decide_True by left.
    + rewrite IH by done. destruct (value_in (drop_below id upd) i); [done|].
      destruct (decide (i ∈ ids)) as [Hi|Hi], (decide (i ∈ id :: ids)) as [Hc|Hc];
        rewrite elem_of_cons in Hc; try naive_solver.
      do 2 f_equal. apply value_in_drop_below. specialize (Hlt i Hi). lia.
Qed.

Lemma MergeLoop_nil_r a : MergeLoop a [] = a.
Proof. by destruct a as [|[]]. Qed.

Lemma MergeLoop_cons ai av a bi bv b :
  MergeLoop ((ai, av) :: a) ((bi, bv) :: b) =
    if (ai =? bi)%nat then (ai, av) :: MergeLoop a b
    else if (ai <? bi)%nat then (ai, av) :: MergeLoop a ((bi, bv) :: b)
    else (bi, bv) :: MergeLoop ((ai, av) :: a) b.
Proof. done. Qed.

Lemma MergeLoop_spec a b :
  sorted_keys a → sorted_keys b →
  (∀ i, value_in (MergeLoop a b) i =
     match value_in a i with Some v => Some v | None => value_in b i end) ∧
  sorted_keys (MergeLoop a b) ∧
  ∀ m, Forall (λ p, m < p.1)%nat a → Forall (λ p, m < p.1)%nat b →
       Forall (λ p, m < p.1)%nat (MergeLoop a b).
Proof.
  revert b. induction a as [|[ai av] a IHa]; intros b Ha Hb.
  { destruct b; split_and!; auto. }
  induction b as [|[bi bv] b IHb].
  { rewrite MergeLoop_nil_r. split_and!; [|done|done]. intros i. by destruct (value_in _ i). }
  pose proof Ha as [Has Haf]%sorted_cons. pose proof Hb as [Hbs Hbf]%sorted_cons.
  rewrite MergeLoop_cons.
  destruct (Nat.eqb_spec ai bi) as [->|Hne]; [|destruct (Nat.ltb_spec ai bi)].
  - destruct (IHa b Has Hbs) as (Hv & Hs & Hm). split_and!.
    + intros i. cbn. case_decide; [done|]. apply Hv.
    + apply sorted_cons. split; [done|]. by apply Hm.
    + intros m [Hma ?]%Forall_cons [? ?]%Forall_cons. constructor; [done|]. by apply Hm.
  - destruct (IHa _ Has Hb) as (Hv & Hs & Hm). split_and!.
    + intros i. cbn [value_in]. case_decide as Hd; [done|]. rewrite Hv. done.
    + apply sorted_cons. split; [done|]. apply Hm; [done|]. constructor; [done|].
      eapply Forall_impl; [exact Hbf|]. cbn. lia.
    + intros m [Hma ?]%Forall_cons ?. constructor; [done|]. by apply Hm.
  - destruct (IHb Hbs) as (Hv & Hs & Hm). split_and!.
    + intros i. cbn [value_in]. destruct (decide (bi = i)) as [<-|Hne'].
      * rewrite decide_False by lia. by rewrite (value_in_above a bi ai) by (done || lia).
      * apply Hv.
    + apply sorted_cons. split; [done|]. apply Hm; [|done]. constructor; [cbn; lia|].
      eapply Forall_impl; [exact Haf|]. cbn. lia.
    + intros m ? [Hmb ?]%Forall_cons. constructor; [done|]. by apply Hm.
Qed.

Lemma rollback_one_spec id v base :
  sorted_keys base → id ∈ base.*1 →
  (rollback_one id v base).*1 = base.*1 ∧
  ∀ i, value_in (rollback_one id v base) i = if decide (i = id) then Some v else value_in base i.
Proof.
  induction base as [|[t x] base IH]; intros Hs Hin; [by apply elem_of_nil in Hin|].
  apply sorted_cons in Hs as [Hs Hf]. cbn in Hin |- *.
  destruct (Nat.ltb_spec t id).
  - apply elem_of_cons in Hin as [?|Hin]; [lia|]. destruct (IH Hs Hin) as [Hk Hv].
    split; [by cbn; rewrite Hk|]. intros i. cbn.
    destruct (decide (t = i)) as [<-|]; [by rewrite decide_False by lia|]. apply Hv.
  - apply elem_of_cons in Hin as [->|Hin].
    + split; [done|]. intros i. cbn. destruct (decide (t = i)), (decide (i = t)); congruence.
    + apply list_elem_of_fmap in Hin as ([y z] & Heq & Hin). cbn in Heq. subst.
      rewrite Forall_forall in Hf. specialize (Hf _ Hin). cbn in Hf. lia.
Qed.

Lemma RollbackUpdate_data_spec base rollback :
  sorted_keys base → sorted_keys rollback → rollback.*1 ⊆ base.*1 →
  (RollbackUpdate_data base rollback).*1 = base.*1 ∧
  ∀ i, value_in (RollbackUpdate_data base rollback) i =
    match value_in rollback i with Some v => Some v | None => value_in base i end.
Proof.
  unfold RollbackUpdate_data. revert base.
  induction rollback as [|[id v] rollback IH]; intros base Hb Hr Hsub; [done|].
  apply sorted_cons in Hr as [Hr Hf]. cbn [foldl].
  destruct (rollback_one_spec id v base Hb) as [Hk Hv].
  { apply Hsub. cbn. left. }
  destruct (IH (rollback_one id v base)) as [Hk' Hv']; [|done| |].
  { unfold sorted_keys. by rewrite Hk. }
  { rewrite Hk. intros x Hx. apply Hsub. cbn. by right. }
  split; [congruence|]. intros i. rewrite Hv', Hv. cbn.
  destruct (decide (id = i)) as [<-|Hne]; [|by rewrite decide_False by done].
  rewrite (value_in_above rollback id id) by (done || lia). by rewrite decide_True.
Qed.

Lemma conflict_loop_nil_r ids : conflict_loop ids [] = false.
Proof. by destruct ids. Qed.

Lemma conflict_loop_cons id ids t ts :
  conflict_loop (id :: ids) (t :: ts) =
    if (id =? t)%nat then true
    else if (id <? t)%nat then conflict_loop ids (t :: ts)
    else conflict_loop (id :: ids) ts.
Proof. done. Qed.

(** The merge join finds a common row if there is one. *)
Lemma conflict_loop_spec ids ts :
  StronglySorted lt ids → StronglySorted lt ts →
  conflict_loop ids ts = true ↔ ∃ i, i ∈ ids ∧ i ∈ ts.
Proof.
  revert ts. induction ids as [|id ids IHi]; intros ts Hi Ht.
  { split; [by destruct ts|]. intros (i & Hin & _). by apply elem_of_nil in Hin. }
  induction ts as [|t ts IHt].
  { rewrite conflict_loop_nil_r. split; [done|]. intros (i & _ & Hin). by apply elem_of_nil in Hin. }
  pose proof Hi as [His Hif]%StronglySorted_inv. pose proof Ht as [Hts Htf]%StronglySorted_inv.
  rewrite Forall_forall in Hif, Htf. rewrite conflict_loop_cons.
  destruct (Nat.eqb_spec id t) as [->|Hne]; [|destruct (Nat.ltb_spec id t)].
  - split; [|done]. intros _. exists t. split; left.
  - rewrite IHi by done. split; intros (i & Hin & Hint).
    + exists i. split; [by right|done].
    + apply elem_of_cons in Hin as [->|Hin]; [|by exists i].
      apply elem_of_cons in Hint as [->|Hint]; [lia|]. specialize (Htf _ Hint). lia.
  - rewrite IHt by done. split; intros (i & Hin & Hint).
    + exists i. split; [done|by right].
    + apply elem_of_cons in Hint as [->|Hint]; [|by exists i].
      apply elem_of_cons in Hin as [->|Hin]; [lia|]. specialize (Hif _ Hin). lia.
Qed.
End merge_lemmas.

(** ** Abstract version chains

    A node of the chain without its pointers, with the start time of the
    transaction that created it.  The chain goes from newest to oldest. *)

Record snode (T : Type) : Type := mkSnode {
  sn_start : Z;
  sn_version : Z;
  sn_entries : list (nat * T);
}.
Arguments mkSnode {_} _ _ _.
Arguments sn_start {_} _.
Arguments sn_version {_} _.
Arguments sn_entries {_} _.

Section abstract.
Context {T : Type}.
Implicit Types (n u w : snode T) (gs : list (snode T)) (base new : list (nat * T)) (r : nat).

(** Node [n] has an old value of row [r]. *)
Definition has n r : Prop := is_Some (value_in (sn_entries n) r).

#[global] Instance has_dec n r : Decision (has n r).
Proof. unfold has. apply _. Defined.

(** The newest value of row [r]: from the base info or the base table. *)
Definition current (bt : nat → T) base r : T := default (bt r) (value_in base r).

(** [u] is ahead of [w] in a chain: [u] became visible after the transaction
    of [w] started, and if both wrote a row then [u] saw the write of [w]. *)
Definition ahead u w : Prop :=
  sn_start w < sn_version u ∧ ∀ r, has u r → has w r → sn_version w <= sn_start u.

Record chain_inv base gs : Prop := {
  ci_base : sorted_keys base;
  ci_nodes : ∀ n, n ∈ gs → sorted_keys (sn_entries n) ∧ (sn_entries n).*1 ⊆ base.*1 ∧
                           sn_start n < sn_version n ∧ sn_start n < TRANSACTION_ID_START;
  ci_ahead : StronglySorted ahead gs;
  ci_versions : NoDup (sn_version <$> gs);
}.

(** A snapshot that the chain can be read with: its own node, if any, was
    created by the transaction with its start time. *)
Definition reader_ok (st tid : Z) gs : Prop :=
  ∀ n, n ∈ gs → sn_version n = tid → sn_start n = st.

(** What [UpdatesForTransaction] computes for one row. *)
Definition read_row (st tid : Z) gs (v : T) r : T :=
  foldl (λ v n, if skip_version st tid (sn_version n)
                then default v (value_in (sn_entries n) r) else v) v gs.

(** The versions of a row, newest first: who wrote it, and the value. *)
Fixpoint history gs (v : T) r : list (Z * T) :=
  match gs with
  | [] => [(0, v)]
  | n :: gs =>
      match value_in (sn_entries n) r with
      | Some old => (sn_version n, v) :: history gs old r
      | None => history gs v r
      end
  end.

(** The newest version that is visible; the oldest always is. *)
Fixpoint newest_visible (st tid : Z) (hist : list (Z * T)) (d : T) : T :=
  match hist with
  | [] => d
  | (ver, v) :: hist =>
      if skip_version st tid ver then newest_visible st tid hist v else v
  end.

Lemma skip_version_true st tid v : skip_version st tid v = true ↔ st < v ∧ v ≠ tid.
Proof. unfold skip_version. rewrite andb_true_iff, Z.ltb_lt, negb_true_iff, Z.eqb_neq. done. Qed.

Lemma skip_version_false st tid v : skip_version st tid v = false ↔ v <= st ∨ v = tid.
Proof.
  unfold skip_version. rewrite andb_false_iff, Z.ltb_ge, negb_false_iff, Z.eqb_eq. done.
Qed.

Lemma chain_inv_tail base n gs : chain_inv base (n :: gs) → chain_inv base gs.
Proof.
  intros [Hb Hn Ha Hv]. split; [done| | |].
  - intros m Hm. apply Hn. by right.
  - by apply StronglySorted_inv in Ha as [? _].
  - cbn in Hv. by apply NoDup_cons in Hv as [_ ?].
Qed.

Lemma reader_ok_tail st tid n gs : reader_ok st tid (n :: gs) → reader_ok st tid gs.
Proof. intros H m Hm. apply H. by right. Qed.

(** Once a reader sees a write of a row, it sees all older ones. *)
Lemma visible_tail base st tid n gs r :
  chain_inv base (n :: gs) → reader_ok st tid (n :: gs) → has n r →
  skip_version st tid (sn_version n) = false →
  ∀ w, w ∈ gs → has w r → skip_version st tid (sn_version w) = false.
Proof.
  intros Hinv Hrd Hn Hvis w Hw Hwr. pose proof (ci_ahead _ _ Hinv) as [_ Hf]%StronglySorted_inv.
  rewrite Forall_forall in Hf. destruct (Hf w Hw) as [_ Ho]. specialize (Ho r Hn Hwr).
  apply skip_version_false. left. apply skip_version_false in Hvis as [Hle|Heq].
  - destruct (ci_nodes _ _ Hinv n) as (_ & _ & Hlt & _); [left|]. lia.
  - rewrite (Hrd n) in Ho by (done || left). done.
Qed.

Lemma read_row_cons st tid n gs v r :
  read_row st tid (n :: gs) v r =
  read_row st tid gs (if skip_version st tid (sn_version n)
                      then default v (value_in (sn_entries n) r) else v) r.
Proof. done. Qed.

Lemma read_row_app st tid gs1 gs2 v r :
  read_row st tid (gs1 ++ gs2) v r = read_row st tid gs2 (read_row st tid gs1 v r) r.
Proof. apply foldl_app. Qed.

(** Nodes without the row do not matter. *)
Lemma read_row_not_has st tid n gs v r :
  ¬ has n r → read_row st tid (n :: gs) v r = read_row st tid gs v r.
Proof.
  intros Hn. rewrite read_row_cons. unfold has in Hn.
  destruct (value_in (sn_entries n) r); [naive_solver|]. by destruct (skip_version _ _ _).
Qed.

Lemma read_row_all_visible st tid gs v r :
  (∀ w, w ∈ gs → has w r → skip_version st tid (sn_version w) = false) → read_row st tid gs v r = v.
Proof.
  revert v. induction gs as [|n gs IH]; intros v Hall; [done|].
  assert (∀ w, w ∈ gs → has w r → skip_version st tid (sn_version w) = false) as Htl.
  { intros w Hw. apply Hall. by right. }
  destruct (decide (has n r)) as [Hn|Hn]; [|by rewrite read_row_not_has, IH].
  rewrite read_row_cons, (Hall n) by (done || left). by apply IH.
Qed.

Lemma history_cons_ex gs v r : ∃ p hist, history gs v r = p :: hist.
Proof.
  revert v. induction gs as [|n gs IH]; intros v; cbn; [eauto|].
  destruct (value_in _ _); [eauto|apply IH].
Qed.

(** A reader gets the newest version that its snapshot sees. *)
Lemma read_row_newest base st tid gs v r :
  chain_inv base gs → reader_ok st tid gs → 0 <= st →
  read_row st tid gs v r = newest_visible st tid (history gs v r) v.
Proof.
  intros Hinv Hrd Hst. revert v. induction gs as [|n gs IH]; intros v.
  { cbn. by rewrite (proj2 (skip_version_false st tid 0)) by lia. }
  specialize (IH (chain_inv_tail _ _ _ Hinv) (reader_ok_tail _ _ _ _ Hrd)).
  rewrite read_row_cons. cbn [history].
  destruct (value_in (sn_entries n) r) as [old|] eqn:Hv; cycle 1.
  { by destruct (skip_version st tid (sn_version n)); cbn [default from_option]; apply IH. }
  cbn [newest_visible default from_option]. destruct (skip_version st tid (sn_version n)) eqn:Hs.
  - rewrite IH. destruct (history_cons_ex gs old r) as ([ver x] & hist & Hh).
    unfold id. by rewrite Hh.
  - apply read_row_all_visible. eapply visible_tail; [done..| |done]. unfold has. by rewrite Hv.
Qed.

(** *** Update *)

(** The effect of an update on the chain: the transaction's node takes the
    old values of the rows it did not have, the base info the new ones. *)
Definition own_update (bt : nat → T) (tid : Z) (ids : list nat) base n : snode T :=
  if sn_version n =? tid
  then mkSnode (sn_start n) tid (merge_old bt ids (sn_entries n) base) else n.

(** Make sure that the transaction has a node. *)
Definition a_ensure (s tid : Z) gs : list (snode T) :=
  if existsb (λ n, sn_version n =? tid) gs then gs else mkSnode s tid [] :: gs.

Definition a_update (bt : nat → T) (s tid : Z) (ids : list nat) base gs : list (snode T) :=
  own_update bt tid ids base <$> a_ensure s tid gs.

(** No row of [ids] has an update that the transaction does not see. *)
Definition no_conflict (s tid : Z) (ids : list nat) gs : Prop :=
  ∀ n r, n ∈ gs → r ∈ ids → has n r → sn_version n <= s ∨ sn_version n = tid.

Lemma existsb_own tid gs :
  existsb (λ n, sn_version n =? tid) gs = true ↔ ∃ n, n ∈ gs ∧ sn_version n = tid.
Proof.
  rewrite existsb_exists. setoid_rewrite list_elem_of_In. by setoid_rewrite Z.eqb_eq.
Qed.

Lemma value_in_keys (l : list (nat * T)) r : is_Some (value_in l r) ↔ r ∈ l.*1.
Proof.
  rewrite <-not_eq_None_Some, value_in_None. split; [|naive_solver].
  intros Hn. by destruct (decide (r ∈ l.*1)).
Qed.

(** What a node of the chain becomes. *)
Lemma own_update_value bt tid ids base n r :
  StronglySorted lt ids → sorted_keys (sn_entries n) → sorted_keys base →
  value_in (sn_entries (own_update bt tid ids base n)) r =
    if decide (sn_version n = tid ∧ r ∈ ids ∧ ¬ has n r) then Some (current bt base r)
    else value_in (sn_entries n) r.
Proof.
  intros Hi Hn Hb. unfold own_update. destruct (Z.eqb_spec (sn_version n) tid) as [Heq|Hne].
  - cbn [sn_entries]. rewrite merge_old_value by done. unfold current.
    destruct (decide (sn_version n = tid ∧ r ∈ ids ∧ ¬ has n r)) as [Hd|Hd].
    + destruct Hd as (_ & Hin & Hno). unfold has in Hno. rewrite decide_True by done.
      destruct (value_in (sn_entries n) r); [naive_solver|done].
    + destruct (value_in (sn_entries n) r) eqn:Hv; [done|]. rewrite decide_False; [done|].
      intros Hin. apply Hd. split_and!; [done..|]. unfold has. rewrite Hv. by intros [? ?].
  - rewrite decide_False; [done|]. naive_solver.
Qed.

Lemma current_update bt base new r :
  sorted_keys base → sorted_keys new →
  current bt (MergeLoop new base) r = default (current bt base r) (value_in new r).
Proof.
  intros Hb Hn. unfold current. destruct (MergeLoop_spec new base Hn Hb) as [-> _].
  by destruct (value_in new r).
Qed.

Lemma a_ensure_inv s tid base gs :
  chain_inv base gs → s < TRANSACTION_ID_START → TRANSACTION_ID_START <= tid →
  chain_inv base (a_ensure s tid gs) ∧
  (∃ n, n ∈ a_ensure s tid gs ∧ sn_version n = tid) ∧
  (reader_ok s tid gs → reader_ok s tid (a_ensure s tid gs)) ∧
  (∀ st' tid' v r, read_row st' tid' (a_ensure s tid gs) v r = read_row st' tid' gs v r) ∧
  (∀ n r, n ∈ a_ensure s tid gs → has n r → n ∈ gs).
Proof.
  intros Hinv Hs Htid. unfold a_ensure. destruct (existsb _ gs) eqn:He.
  { apply existsb_own in He as (n & ? & ?). split_and!; eauto. }
  assert (∀ n, n ∈ gs → sn_version n ≠ tid) as Hno.
  { intros n Hn Heq. apply not_true_iff_false in He. apply He, existsb_own. eauto. }
  assert (∀ r, ¬ has (mkSnode s tid []) r) as Hempty by (intros r [? ?]; done).
  destruct Hinv as [Hb Hn Ha Hv]. split_and!.
  - split; [done| | |].
    + intros n [->|Hin]%elem_of_cons; [|by apply Hn]. cbn. split_and!; [constructor|set_solver|lia..].
    + constructor; [done|]. rewrite Forall_forall. intros w Hw. split.
      * cbn. destruct (Hn w Hw) as (_ & _ & _ & ?). lia.
      * intros r Hr. by apply Hempty in Hr.
    + cbn. constructor; [|done]. intros (n & Heq & Hin)%list_elem_of_fmap. by apply (Hno n).
  - eexists. split; [left|done].
  - intros Hrd n [->|Hin]%elem_of_cons Heq; [done|]. by apply Hrd.
  - intros. by rewrite read_row_not_has.
  - intros n r [->|Hin]%elem_of_cons Hr; [by apply Hempty in Hr|done].
Qed.

(** The transaction's node, the newer and the older ones. *)
Lemma split_own tid base gs :
  chain_inv base gs → (∃ n, n ∈ gs ∧ sn_version n = tid) →
  ∃ gs1 own gs2, gs = gs1 ++ own :: gs2 ∧ sn_version own = tid ∧
    (∀ u, u ∈ gs1 → sn_version u ≠ tid ∧ ahead u own) ∧
    (∀ w, w ∈ gs2 → sn_version w ≠ tid ∧ ahead own w).
Proof.
  intros [_ _ Ha Hv] (own & Hin & Hown). apply list_elem_of_split in Hin as (gs1 & gs2 & ->).
  exists gs1, own, gs2. split_and!; [done|done| |].
  - intros u Hu. split.
    + intros Heq. rewrite fmap_app, fmap_cons in Hv. apply NoDup_app in Hv as (_ & Hd & _).
      apply (Hd tid); [rewrite <-Heq; by apply list_elem_of_fmap_2|]. rewrite Hown. left.
    + apply (StronglySorted_app_1_elem_of _ _ _ _ _ Ha Hu). left.
  - intros w Hw. apply StronglySorted_app_1_r in Ha.
    apply StronglySorted_inv in Ha as [_ Hf]. rewrite Forall_forall in Hf. split; [|by apply Hf].
    intros Heq. rewrite fmap_app, fmap_cons in Hv. apply NoDup_app in Hv as (_ & _ & Hv).
    apply NoDup_cons in Hv as [Hni _]. apply Hni. rewrite Hown, <-Heq. by apply list_elem_of_fmap_2.
Qed.

Lemma own_update_other bt tid ids base gs :
  (∀ n, n ∈ gs → sn_version n ≠ tid) → own_update bt tid ids base <$> gs = gs.
Proof.
  induction gs as [|n gs IH]; intros Hno; [done|]. cbn. rewrite IH.
  - f_equal. unfold own_update. destruct (Z.eqb_spec (sn_version n) tid); [|done].
    by destruct (Hno n); [left|].
  - intros m Hm. apply Hno. by right.
Qed.

(** The update touches the transaction's node only. *)
Lemma own_update_split bt tid ids base gs1 own gs2 :
  sn_version own = tid → (∀ u, u ∈ gs1 → sn_version u ≠ tid) → (∀ w, w ∈ gs2 → sn_version w ≠ tid) →
  own_update bt tid ids base <$> gs1 ++ own :: gs2 = gs1 ++ own_update bt tid ids base own :: gs2.
Proof.
  intros Hown H1 H2. rewrite fmap_app, fmap_cons. by rewrite !own_update_other.
Qed.

(** The reads after an update. *)
Lemma a_update_read bt s tid new base gs r :
  sorted_keys new → chain_inv base gs → s < TRANSACTION_ID_START → TRANSACTION_ID_START <= tid →
  reader_ok s tid gs → no_conflict s tid new.*1 gs →
  let gs' := a_update bt s tid new.*1 base gs in
  let base' := MergeLoop new base in
  read_row s tid gs' (current bt base' r) r =
    default (read_row s tid gs (current bt base r) r) (value_in new r) ∧
  ∀ st' tid', skip_version st' tid' tid = true →
    read_row st' tid' gs' (current bt base' r) r = read_row st' tid' gs (current bt base r) r.
Proof.
  intros Hnew Hinv Hs Htid Hrd Hnc gs' base'.
  destruct (a_ensure_inv s tid base gs Hinv Hs Htid) as (Hinv' & Hex & Hrd' & Hread & Hhas).
  specialize (Hrd' Hrd).
  destruct (split_own tid base _ Hinv' Hex) as (gs1 & own & gs2 & Heq & Hown & H1 & H2).
  assert (gs' = gs1 ++ own_update bt tid new.*1 base own :: gs2) as ->.
  { unfold gs', a_update. rewrite Heq. apply own_update_split; naive_solver. }
  assert (sn_start own = s) as Hst.
  { apply Hrd'; [|done]. rewrite Heq. apply elem_of_app. right. left. }
  assert (∀ u, u ∈ gs1 → r ∈ new.*1 → ¬ has u r) as Hahead.
  { intros u Hu Hr Hur. destruct (H1 u Hu) as [Hne [Hlt _]].
    destruct (Hnc u r) as [?|?]; [|done|done|lia|done].
    apply (Hhas u r); [|done]. rewrite Heq. apply elem_of_app. by left. }
  assert (∀ st' tid' v, r ∈ new.*1 → read_row st' tid' gs1 v r = v) as Hgs1.
  { intros st' tid' v Hr. apply read_row_all_visible. intros w Hw Hwr. by apply Hahead in Hwr. }
  destruct (ci_nodes _ _ Hinv' own) as (Hso & _ & _ & _).
  { rewrite Heq. apply elem_of_app. right. left. }
  pose proof (ci_base _ _ Hinv) as Hb.
  pose proof (own_update_value bt tid new.*1 base own r Hnew Hso Hb) as Hval.
  unfold base'. rewrite current_update by done. split.
  - rewrite <-Hread, Heq. destruct (value_in new r) as [x|] eqn:Hx; cbn [default from_option].
    + unfold id. apply value_in_Some in Hx. apply read_row_all_visible. intros w Hw Hwr.
      apply skip_version_false. apply elem_of_app in Hw as [Hw|[->|Hw]%elem_of_cons].
      * by apply Hahead in Hwr.
      * right. unfold own_update. by rewrite (proj2 (Z.eqb_eq _ _) Hown).
      * apply (Hnc w r); [|done|done]. apply (Hhas w r); [|done]. rewrite Heq.
        apply elem_of_app. right. by right.
    + apply value_in_None in Hx. rewrite !read_row_app, !read_row_cons. f_equal.
      rewrite Hval, decide_False by naive_solver. unfold own_update.
      by rewrite (proj2 (Z.eqb_eq _ _) Hown), Hown.
  - intros st' tid' Hskip. rewrite <-Hread, Heq. rewrite !read_row_app, !read_row_cons.
    f_equal. rewrite Hval. unfold own_update at 1. rewrite (proj2 (Z.eqb_eq _ _) Hown), Hown.
    cbn [sn_version]. rewrite Hskip. destruct (value_in new r) as [x|] eqn:Hx.
    + apply value_in_Some in Hx. rewrite !Hgs1 by done.
      destruct (decide (has own r)) as [[y Hy]|Hno].
      * rewrite decide_False by (intros (_ & _ & Hc); apply Hc; by exists y). by rewrite Hy.
      * rewrite decide_True by done. unfold has in Hno.
        destruct (value_in (sn_entries own) r); [naive_solver|done].
    + apply value_in_None in Hx. by rewrite decide_False by naive_solver.
Qed.

(** Replacing a node, or the base info, by one with more rows. *)
Lemma replace_own_inv base base' gs1 own own' gs2 :
  chain_inv base (gs1 ++ own :: gs2) → sorted_keys base' → base.*1 ⊆ base'.*1 →
  sorted_keys (sn_entries own') → (sn_entries own').*1 ⊆ base'.*1 →
  sn_start own' < sn_version own' → sn_start own' < TRANSACTION_ID_START →
  (∀ u, u ∈ gs1 → sn_version u ≠ sn_version own' ∧ ahead u own') →
  (∀ w, w ∈ gs2 → sn_version w ≠ sn_version own' ∧ ahead own' w) →
  chain_inv base' (gs1 ++ own' :: gs2).
Proof.
  intros [Hb Hn Ha Hv] Hb' Hsub Hs Hk Hlt Hts H1 H2. split; [done| | |].
  - intros n Hin. assert (n = own' ∨ n ∈ gs1 ++ own :: gs2) as [->|Hold].
    { apply elem_of_app in Hin as [Hin|[->|Hin]%elem_of_cons]; [|by left|].
      - right. apply elem_of_app. by left.
      - right. apply elem_of_app. right. by right. }
    + done.
    + destruct (Hn n Hold) as (? & ? & ? & ?). split_and!; [done|set_solver|done..].
  - apply StronglySorted_app in Ha as (Hcross & Ha1 & Ha2).
    apply StronglySorted_inv in Ha2 as [Ha2 Hf2]. apply StronglySorted_app_2; [|done|].
    + intros u w Hu [->|Hw]%elem_of_cons; [by apply H1|]. apply Hcross; [done|by right].
    + constructor; [done|]. rewrite Forall_forall. intros w Hw. by apply H2.
  - rewrite fmap_app, fmap_cons in *. apply NoDup_app in Hv as (Hv1 & Hd & Hv2).
    apply NoDup_cons in Hv2 as [Hni Hv2]. apply NoDup_app. split_and!; [done| |].
    + intros v Hv [->|Hin]%elem_of_cons.
      * apply list_elem_of_fmap in Hv as (u & Heq & Hu). by destruct (H1 u Hu).
      * apply (Hd v Hv). by right.
    + apply NoDup_cons. split; [|done]. intros (w & Heq & Hw)%list_elem_of_fmap.
      by destruct (H2 w Hw).
Qed.

Lemma MergeLoop_keys new base r :
  sorted_keys new → sorted_keys base →
  r ∈ (MergeLoop new base).*1 ↔ r ∈ new.*1 ∨ r ∈ base.*1.
Proof.
  intros Hn Hb. rewrite <-!value_in_keys. destruct (MergeLoop_spec new base Hn Hb) as [-> _].
  destruct (value_in new r); [|naive_solver]. split; [by eauto|]. intros _. done.
Qed.

Lemma merge_old_sorted_0 bt ids (upd base : list (nat * T)) :
  StronglySorted lt ids → sorted_keys upd → sorted_keys (merge_old bt ids upd base).
Proof.
  intros Hi Hu. apply (merge_old_sorted bt ids upd base 0 Hi Hu);
    rewrite Forall_forall; intros; lia.
Qed.

(** The chain stays well-formed. *)
Lemma a_update_inv bt s tid new base gs :
  sorted_keys new → chain_inv base gs → s < TRANSACTION_ID_START → TRANSACTION_ID_START <= tid →
  reader_ok s tid gs → no_conflict s tid new.*1 gs →
  chain_inv (MergeLoop new base) (a_update bt s tid new.*1 base gs).
Proof.
  intros Hnew Hinv Hs Htid Hrd Hnc.
  destruct (a_ensure_inv s tid base gs Hinv Hs Htid) as (Hinv' & Hex & Hrd' & _ & Hhas).
  specialize (Hrd' Hrd). pose proof (ci_base _ _ Hinv) as Hb.
  destruct (split_own tid base _ Hinv' Hex) as (gs1 & own & gs2 & Heq & Hown & H1 & H2).
  unfold a_update. rewrite Heq. rewrite own_update_split by naive_solver.
  assert (own ∈ a_ensure s tid gs) as Hin by (rewrite Heq; apply elem_of_app; right; left).
  destruct (ci_nodes _ _ Hinv' own Hin) as (Hso & Hko & _ & _).
  assert (sn_start own = s) as Hst by (by apply Hrd').
  assert (∀ r, has (own_update bt tid new.*1 base own) r → has own r ∨ r ∈ new.*1) as Hgrow.
  { intros r. unfold has. rewrite own_update_value by done. case_decide; naive_solver. }
  assert (sn_version (own_update bt tid new.*1 base own) = tid ∧
          sn_start (own_update bt tid new.*1 base own) = s) as [Hv' Hs'].
  { unfold own_update. rewrite (proj2 (Z.eqb_eq _ _) Hown). done. }
  rewrite Heq in Hinv'. eapply replace_own_inv; [exact Hinv'|..]; rewrite ?Hv', ?Hs'.
  - by apply (MergeLoop_spec new base Hnew Hb).
  - intros r Hr. apply MergeLoop_keys; auto.
  - unfold own_update. rewrite (proj2 (Z.eqb_eq _ _) Hown). by apply merge_old_sorted_0.
  - intros r Hr. rewrite <-value_in_keys in Hr. apply MergeLoop_keys; [done..|].
    destruct (Hgrow r Hr) as [Ho|?]; [|by left]. right. apply Hko. by apply value_in_keys.
  - lia.
  - done.
  - intros u Hu. destruct (H1 u Hu) as [Hne [Hlt Hold]]. split; [done|]. split; [lia|].
    intros r Hur Hr. rewrite Hv'. destruct (Hgrow r Hr) as [Ho|Hid]; [rewrite <-Hown; by apply (Hold r)|].
    exfalso. destruct (Hnc u r) as [?|?]; [|done|done|lia|done].
    apply (Hhas u r); [|done]. rewrite Heq. apply elem_of_app. by left.
  - intros w Hw. destruct (H2 w Hw) as [Hne [Hlt Hold]]. split; [done|]. split; [by rewrite Hv', <-Hown|].
    intros r Hr Hwr. rewrite Hs'. destruct (Hgrow r Hr) as [Ho|Hid]; [rewrite <-Hst; by apply (Hold r)|].
    destruct (Hnc w r) as [?|?]; [|done|done|done|done].
    apply (Hhas w r); [|done]. rewrite Heq. apply elem_of_app. right. by right.
Qed.

(** *** Commit, rollback and cleanup *)

Definition a_commit (tid commit_id : Z) gs : list (snode T) :=
  (λ n, if sn_version n =? tid then mkSnode (sn_start n) commit_id (sn_entries n) else n) <$> gs.

Definition a_remove (v : Z) gs : list (snode T) := List.filter (λ n, negb (sn_version n =? v)) gs.

(** The nodes ahead of an uncommitted node share no row with it. *)
Lemma ahead_uncommitted base gs1 own gs2 u r :
  chain_inv base (gs1 ++ own :: gs2) → TRANSACTION_ID_START <= sn_version own →
  u ∈ gs1 → has own r → ¬ has u r.
Proof.
  intros [_ Hn Ha _] Htid Hu Ho Hur.
  assert (ahead u own) as [_ Hle] by (apply (StronglySorted_app_1_elem_of _ _ _ _ _ Ha Hu); left).
  specialize (Hle r Hur Ho). destruct (Hn u) as (_ & _ & _ & ?); [apply elem_of_app; by left|]. lia.
Qed.

Lemma filter_other v gs :
  (∀ n, n ∈ gs → sn_version n ≠ v) → a_remove v gs = gs.
Proof.
  intros Hno. unfold a_remove. apply filter_all. intros n Hn.
  apply negb_true_iff, Z.eqb_neq. by apply Hno.
Qed.

Lemma a_remove_split v gs1 own gs2 :
  sn_version own = v → (∀ u, u ∈ gs1 → sn_version u ≠ v) → (∀ w, w ∈ gs2 → sn_version w ≠ v) →
  a_remove v (gs1 ++ own :: gs2) = gs1 ++ gs2.
Proof.
  intros Hown H1 H2. unfold a_remove. rewrite List.filter_app. cbn.
  rewrite (proj2 (Z.eqb_eq _ _) Hown). cbn.
  pose proof (filter_other v gs1 H1) as E1. pose proof (filter_other v gs2 H2) as E2.
  unfold a_remove in E1, E2. by rewrite E1, E2.
Qed.

Lemma remove_inv base gs1 own gs2 :
  chain_inv base (gs1 ++ own :: gs2) → chain_inv base (gs1 ++ gs2).
Proof.
  intros [Hb Hn Ha Hv]. split; [done| | |].
  - intros n Hin. apply Hn. apply elem_of_app. apply elem_of_app in Hin as [?|?]; [by left|].
    right. by right.
  - apply StronglySorted_app in Ha as (Hcross & Ha1 & Ha2).
    apply StronglySorted_inv in Ha2 as [Ha2 _]. apply StronglySorted_app_2; [|done..].
    intros u w Hu Hw. apply Hcross; [done|by right].
  - rewrite fmap_app, fmap_cons in Hv. rewrite fmap_app.
    apply NoDup_app in Hv as (Hv1 & Hd & Hv2). apply NoDup_cons in Hv2 as [_ Hv2].
    apply NoDup_app. split_and!; [done| |done]. intros v Hv Hin. apply (Hd v Hv). by right.
Qed.

Lemma a_commit_split tid commit_id gs1 own gs2 :
  sn_version own = tid → (∀ u, u ∈ gs1 → sn_version u ≠ tid) → (∀ w, w ∈ gs2 → sn_version w ≠ tid) →
  a_commit tid commit_id (gs1 ++ own :: gs2) =
    gs1 ++ mkSnode (sn_start own) commit_id (sn_entries own) :: gs2.
Proof.
  intros Hown H1 H2. unfold a_commit. rewrite fmap_app, fmap_cons.
  rewrite (proj2 (Z.eqb_eq _ _) Hown).
  assert (∀ l : list (snode T), (∀ n, n ∈ l → sn_version n ≠ tid) →
    (λ n, if sn_version n =? tid then mkSnode (sn_start n) commit_id (sn_entries n) else n) <$> l = l)
    as Hid.
  { intros l Hl. rewrite <-(list_fmap_id l) at 2. apply list_fmap_ext. intros i n Hn.
    apply list_elem_of_lookup_2 in Hn. by rewrite (proj2 (Z.eqb_neq _ _) (Hl n Hn)). }
  by rewrite !Hid.
Qed.

(** Committing an update makes it visible to later snapshots and to nobody else. *)
Lemma a_commit_spec base gs tid commit_id :
  chain_inv base gs → (∃ n, n ∈ gs ∧ sn_version n = tid) → TRANSACTION_ID_START <= tid →
  (∀ n, n ∈ gs → sn_start n < commit_id ∧ sn_version n ≠ commit_id) →
  chain_inv base (a_commit tid commit_id gs) ∧
  (∀ st' tid' v r, skip_version st' tid' tid = true → skip_version st' tid' commit_id = true →
     read_row st' tid' (a_commit tid commit_id gs) v r = read_row st' tid' gs v r) ∧
  (∀ st' tid' v r, commit_id <= st' → (∃ n, n ∈ gs ∧ sn_version n = tid ∧ has n r) →
     reader_ok st' tid' (a_commit tid commit_id gs) →
     read_row st' tid' (a_commit tid commit_id gs) v r = v).
Proof.
  intros Hinv Hex Htid Hfresh.
  destruct (split_own tid base _ Hinv Hex) as (gs1 & own & gs2 & -> & Hown & H1 & H2).
  rewrite a_commit_split by naive_solver. set (own' := mkSnode _ _ _).
  assert (own ∈ gs1 ++ own :: gs2) as Hin by (apply elem_of_app; right; left).
  destruct (ci_nodes _ _ Hinv own Hin) as (Hso & Hko & _ & Hts).
  assert (chain_inv base (gs1 ++ own' :: gs2)) as Hinv'.
  { eapply replace_own_inv; [exact Hinv|..]; cbn [own' sn_start sn_version sn_entries]; try done.
    - apply (ci_base _ _ Hinv).
    - by apply Hfresh.
    - intros u Hu. split; [apply Hfresh; apply elem_of_app; by left|]. destruct (H1 u Hu) as [_ [Hlt _]].
      split; [done|]. intros r Hur Hor. exfalso.
      eapply (ahead_uncommitted base gs1 own gs2 u r); [done|by rewrite Hown|done..].
    - intros w Hw. destruct (H2 w Hw) as [_ [_ Hle]].
      destruct (Hfresh w) as [? ?]; [apply elem_of_app; right; by right|]. done. }
  split_and!; [done| |].
  - intros st' tid' v r Hs1 Hs2. rewrite !read_row_app, !read_row_cons. cbn [own' sn_version sn_entries].
    by rewrite Hs2, Hown, Hs1.
  - intros st' tid' v r Hle (n & Hn & Hnv & Hnr) Hrd.
    assert (n = own) as ->.
    { apply elem_of_app in Hn as [Hn|[->|Hn]%elem_of_cons]; [by destruct (H1 n Hn)|done|].
      by destruct (H2 n Hn). }
    rewrite read_row_app. rewrite (read_row_all_visible st' tid' gs1).
    + apply read_row_all_visible.
      assert (chain_inv base (own' :: gs2) ∧ reader_ok st' tid' (own' :: gs2)) as [Hi Hr'].
      { split; [|intros m Hm; apply Hrd; apply elem_of_app; by right].
        clear -Hinv'. induction gs1 as [|g gs1 IH]; [done|]. apply IH. by eapply chain_inv_tail. }
      intros w [->|Hw]%elem_of_cons Hwr; [apply skip_version_false; by left|].
      eapply (visible_tail base st' tid' own' gs2 r Hi Hr'); [done|apply skip_version_false; by left|done..].
    + intros w Hw Hwr. exfalso. eapply (ahead_uncommitted base gs1 own gs2 w r); [done|by rewrite Hown|done..].
Qed.

(** Rolling back an update restores what everybody else reads. *)
Lemma a_rollback_spec bt base gs tid own :
  chain_inv base gs → own ∈ gs → sn_version own = tid → TRANSACTION_ID_START <= tid →
  let base' := RollbackUpdate_data base (sn_entries own) in
  chain_inv base' (a_remove tid gs) ∧
  ∀ st' tid' r, skip_version st' tid' tid = true →
    read_row st' tid' (a_remove tid gs) (current bt base' r) r =
    read_row st' tid' gs (current bt base r) r.
Proof.
  intros Hinv Hin Hv Htid base'.
  destruct (split_own tid base _ Hinv) as (gs1 & own' & gs2 & -> & Hown & H1 & H2); [by eauto|].
  assert (own' = own) as ->.
  { apply elem_of_app in Hin as [Hn|[->|Hn]%elem_of_cons]; [by destruct (H1 _ Hn)|done|].
    by destruct (H2 _ Hn). }
  rewrite a_remove_split by naive_solver.
  destruct (ci_nodes _ _ Hinv own Hin) as (Hso & Hko & _ & _). pose proof (ci_base _ _ Hinv) as Hb.
  destruct (RollbackUpdate_data_spec base (sn_entries own) Hb Hso Hko) as [Hk Hval]. fold base' in Hk, Hval.
  split.
  - destruct (remove_inv _ _ _ _ Hinv) as [_ Hn Ha Hnd]. split; [|..|done|done].
    + unfold sorted_keys. by rewrite Hk.
    + intros n Hnin. rewrite Hk. by apply Hn.
  - intros st' tid' r Hskip. rewrite !read_row_app, read_row_cons, Hown, Hskip. f_equal.
    unfold current. rewrite Hval.
    destruct (value_in (sn_entries own) r) as [x|] eqn:Hx; [|done]. cbn.
    apply read_row_all_visible. intros w Hw Hwr. exfalso.
    eapply (ahead_uncommitted base gs1 own gs2 w r); [done|by rewrite Hown|done| |done].
    unfold has. by rewrite Hx.
Qed.

(** Removing a version that a snapshot sees does not change what it reads. *)
Lemma a_remove_read v gs st tid x r :
  skip_version st tid v = false → read_row st tid (a_remove v gs) x r = read_row st tid gs x r.
Proof.
  intros Hs. revert x. induction gs as [|n gs IH]; intros x; [done|].
  unfold a_remove. cbn [List.filter]. fold (a_remove v gs).
  destruct (Z.eqb_spec (sn_version n) v) as [Heq|]; cbn [negb]; rewrite read_row_cons.
  - rewrite Heq, Hs. apply IH.
  - rewrite read_row_cons. apply IH.
Qed.
End abstract.

(** ** The chain in the heap *)

(** [n] strictly increasing numbers below [n] are [0, ..., n - 1]. *)
Lemma strictly_sorted_seq_from (l : list nat) a :
  StronglySorted lt l → Forall (λ t, a <= t < a + length l)%nat l → l = seq a (length l).
Proof.
  revert a. induction l as [|x l IH]; intros a Hs Hf; [done|].
  apply StronglySorted_inv in Hs as [Hs Hlt]. apply Forall_cons in Hf as [Hx Hf]. cbn in *.
  assert (x = a) as ->.
  { destruct (decide (x = a)) as [|Hne]; [done|]. exfalso.
    assert (length (x :: l) <= length (seq (S a) (length l)))%nat as Hc.
    { apply submseteq_length, NoDup_submseteq.
      - constructor; [|].
        + intros Hin. rewrite Forall_forall in Hlt. specialize (Hlt x Hin). lia.
        + clear -Hs. induction Hs as [|y l Hs IH Hf]; constructor; [|done].
          intros Hin. rewrite Forall_forall in Hf. specialize (Hf y Hin). lia.
      - intros y Hy. apply elem_of_seq. rewrite Forall_forall in Hlt, Hf.
        apply elem_of_cons in Hy as [->|Hy]; [lia|]. specialize (Hlt y Hy). specialize (Hf y Hy). lia. }
    rewrite length_seq in Hc. cbn in Hc. lia. }
  f_equal. apply IH; [done|]. rewrite Forall_forall in *. intros y Hy.
  specialize (Hlt y Hy). specialize (Hf y Hy). lia.
Qed.

Lemma strictly_sorted_seq (l : list nat) :
  StronglySorted lt l → Forall (λ t, t < length l)%nat l → l = seq 0 (length l).
Proof.
  intros Hs Hf. apply strictly_sorted_seq_from; [done|]. eapply Forall_impl; [exact Hf|]. cbn. lia.
Qed.

Section rep.
Context {T : Type} `{!Inhabited T}.
Implicit Types (h : heap T) (u : UpdateInfo T) (n : snode T) (gs : list (snode T)) (l base : loc)
  (ls : list loc).

(** The nodes [ls] are linked in both directions, starting at [cur]. *)
Fixpoint linked h (p cur : option loc) ls : Prop :=
  match ls with
  | [] => cur = None
  | l :: ls => cur = Some l ∧ ∃ u, h !! l = Some u ∧ prev u = p ∧ linked h (Some l) (next u) ls
  end.

(** The node at [l] of vector [k] stores [n]. *)
Definition node_rep h (k : nat) l n : Prop :=
  ∃ u, h !! l = Some u ∧ version_number u = sn_version n ∧ entries u = sn_entries n ∧
    length (tuples u) = length (tuple_data u) ∧ ui_vector_index u = k ∧
    Forall (λ t, t < VS)%nat (tuples u).

(** The base info, as a node. *)
Definition base_node (es : list (nat * T)) : snode T := mkSnode 0 (TRANSACTION_ID_START - 1) es.

(** The chain of vector [k] at [base] is the base info [es] and the nodes [gs]. *)
Record rep h (k : nat) base ls (es : list (nat * T)) gs : Prop := {
  rp_linked : linked h None (Some base) (base :: ls);
  rp_nodup : NoDup (base :: ls);
  rp_base : node_rep h k base (base_node es);
  rp_nodes : Forall2 (node_rep h k) ls gs;
}.

Lemma linked_dom h p cur ls : linked h p cur ls → ∀ l, l ∈ ls → is_Some (h !! l).
Proof.
  revert p cur. induction ls as [|l ls IH]; intros p cur Hl x Hx; [by apply elem_of_nil in Hx|].
  destruct Hl as (_ & u & Hu & _ & Hl). apply elem_of_cons in Hx as [->|Hx]; [by exists u|eauto].
Qed.

Lemma linked_frame h h' p cur ls :
  (∀ l u, l ∈ ls → h !! l = Some u →
     ∃ u', h' !! l = Some u' ∧ prev u' = prev u ∧ next u' = next u) →
  linked h p cur ls → linked h' p cur ls.
Proof.
  revert p cur. induction ls as [|l ls IH]; intros p cur Hf Hl; [done|].
  destruct Hl as (Hc & u & Hu & Hp & Hl). destruct (Hf l u) as (u' & Hu' & Hp' & Hn'); [left|done|].
  split; [done|]. exists u'. split_and!; [done|congruence|]. rewrite Hn'. apply IH; [|done].
  intros x ux Hx. apply Hf. by right.
Qed.

Lemma chain_from_linked fuel h p cur ls :
  linked h p cur ls → (length ls < fuel)%nat → chain_from fuel h cur = ls.
Proof.
  revert p cur fuel. induction ls as [|l ls IH]; intros p cur fuel Hl Hf.
  { cbn in Hl. subst. by destruct fuel. }
  destruct Hl as (-> & u & Hu & _ & Hl). destruct fuel as [|fuel]; [cbn in Hf; lia|]. cbn.
  rewrite Hu. f_equal. eapply IH; [done|]. cbn in Hf. lia.
Qed.

(** The walk visits the whole list: the fuel is enough. *)
Lemma chain_linked h p cur ls : linked h p cur ls → NoDup ls → chain h cur = ls.
Proof.
  intros Hl Hnd. apply (chain_from_linked _ _ p); [done|].
  assert (size (list_to_set ls : gset loc) <= size (dom h : gset loc))%nat as Hle.
  { apply subseteq_size, elem_of_subseteq. intros x Hx. rewrite elem_of_list_to_set in Hx.
    apply (proj2 (elem_of_dom h x)). by eapply linked_dom. }
  rewrite size_list_to_set, size_dom in Hle by done. lia.
Qed.

Lemma rep_chain h k base ls es gs :
  rep h k base ls es gs →
  chain h (Some base) = base :: ls ∧ chain h (h !! base ≫= next) = ls.
Proof.
  intros [Hl Hnd _ _]. split; [by eapply chain_linked|].
  destruct Hl as (_ & u & Hu & _ & Hl). rewrite Hu. cbn. eapply chain_linked; [done|].
  by apply NoDup_cons in Hnd as [_ ?].
Qed.

(** A fold over the nodes that looks at their contents only. *)
Lemma foldl_nodes {A} h k ls gs (f : A → UpdateInfo T → A) (g : A → snode T → A) a :
  Forall2 (node_rep h k) ls gs →
  (∀ a u n, version_number u = sn_version n → entries u = sn_entries n →
     length (tuples u) = length (tuple_data u) → n ∈ gs → f a u = g a n) →
  foldl f a (nodes_at h ls) = foldl g a gs.
Proof.
  intros Hf. revert a. induction Hf as [|l n ls gs (u & Hu & Hv & He & Hlen & _) Hf IH]; intros a Hfg; [done|].
  unfold nodes_at. cbn [omap list_omap]. rewrite Hu. cbn [foldl].
  rewrite (Hfg a u n) by (done || left). apply IH. intros. apply Hfg; try done. by right.
Qed.

Lemma rep_all h k base ls es gs :
  rep h k base ls es gs → Forall2 (node_rep h k) (base :: ls) (base_node es :: gs).
Proof. intros [_ _ Hb Hn]. by constructor. Qed.

Lemma entries_keys u : length (tuples u) = length (tuple_data u) → (entries u).*1 = tuples u.
Proof. intros Hl. unfold entries. rewrite fst_zip; [done|lia]. Qed.

(** Merging one node into a result. *)
Lemma scatter_entries (es : list (nat * T)) (result : list T) i :
  sorted_keys es → (i < length result)%nat →
  foldl (λ result '(t, v), <[t := v]> result) result es !! i =
    match value_in es i with Some v => Some v | None => result !! i end.
Proof.
  revert result. induction es as [|[t v] es IH]; intros result Hs Hi; [done|].
  apply sorted_cons in Hs as [Hs Hf]. cbn [foldl value_in]. rewrite IH by (done || by rewrite length_insert).
  destruct (decide (t = i)) as [->|Hne].
  - rewrite (value_in_above es i i) by (done || lia). by apply list_lookup_insert_eq.
  - destruct (value_in es i); [done|]. by apply list_lookup_insert_ne.
Qed.

Lemma length_scatter_entries (es : list (nat * T)) (result : list T) :
  length (foldl (λ result '(t, v), <[t := v]> result) result es) = length result.
Proof.
  revert result. induction es as [|[t v] es IH]; intros result; cbn; [done|].
  by rewrite IH, length_insert.
Qed.

(** The special case for an update of all rows is the general case. *)
Lemma MergeUpdateInfo_lookup u (result : list T) i :
  sorted_keys (entries u) → length (tuples u) = length (tuple_data u) →
  Forall (λ t, t < VS)%nat (tuples u) → length result = VS → (i < VS)%nat →
  MergeUpdateInfo u result !! i =
    match value_in (entries u) i with Some v => Some v | None => result !! i end.
Proof.
  intros Hs Hlen Hlt Hr Hi. unfold MergeUpdateInfo.
  destruct (Nat.eqb_spec (length (tuples u)) VS) as [Hn|Hn]; [|by apply scatter_entries; [|lia]].
  assert (tuples u = seq 0 VS) as Hseq.
  { unfold sorted_keys in Hs. rewrite entries_keys in Hs by done.
    rewrite <-Hn. apply (strictly_sorted_seq (tuples u)); [done|]. by rewrite Hn. }
  assert (∃ v, tuple_data u !! i = Some v) as [v Hv] by (apply lookup_lt_is_Some_2; lia).
  rewrite lookup_app_l by lia. rewrite Hv. symmetry.
  rewrite (value_in_elem (entries u) i v); [done|done|]. apply list_elem_of_lookup.
  exists i. unfold entries. apply lookup_zip_with_Some. exists i, v. split_and!; [done| |done].
  rewrite Hseq. by apply lookup_seq_lt.
Qed.

Lemma length_MergeUpdateInfo u (result : list T) :
  length (tuples u) = length (tuple_data u) → length result = VS →
  length (MergeUpdateInfo u result) = VS.
Proof.
  intros Hlen Hr. unfold MergeUpdateInfo. destruct (Nat.eqb_spec (length (tuples u)) VS) as [Hn|Hn].
  - rewrite length_app, length_drop. lia.
  - by rewrite length_scatter_entries.
Qed.

Lemma foldl_merge h k ls gs st tid (result : list T) :
  Forall2 (node_rep h k) ls gs → (∀ n, n ∈ gs → sorted_keys (sn_entries n)) → length result = VS →
  let res := foldl (λ a u, if skip_version st tid (version_number u) then MergeUpdateInfo u a else a)
               result (nodes_at h ls) in
  length res = VS ∧ ∀ i, (i < VS)%nat → res !! i = Some (read_row st tid gs (result !!! i) i).
Proof.
  intros Hf. revert result.
  induction Hf as [|l n ls gs (u & Hu & Hv & He & Hlen & _ & Hlt) Hf IH]; intros result Hs Hr.
  { split; [done|]. intros i Hi. apply list_lookup_lookup_total_lt. lia. }
  cbv zeta. unfold nodes_at. cbn [omap list_omap]. rewrite Hu. cbn [foldl]. fold (nodes_at h ls).
  set (result' := if skip_version _ _ _ then _ else _).
  assert (length result' = VS ∧ ∀ i, (i < VS)%nat → result' !!! i =
    if skip_version st tid (sn_version n) then default (result !!! i) (value_in (sn_entries n) i)
    else result !!! i) as [Hl' Hv'].
  { unfold result'. rewrite Hv. destruct (skip_version st tid (sn_version n)); [|done].
    split; [by apply length_MergeUpdateInfo|]. intros i Hi.
    rewrite !list_lookup_total_alt, MergeUpdateInfo_lookup; [|rewrite He; apply Hs; left|done..].
    rewrite He. by destruct (value_in (sn_entries n) i). }
  destruct (IH result') as [Hlen' Hres]; [intros m Hm; apply Hs; by right|done|].
  split; [done|]. intros i Hi. rewrite Hres by done. by rewrite Hv', read_row_cons.
Qed.

Lemma skip_base st tid : snapshot st tid → skip_version st tid (TRANSACTION_ID_START - 1) = true.
Proof. intros [? ?]. apply skip_version_true. lia. Qed.

Lemma UpdateMergeFetch_rep h k base ls es gs st tid (result : list T) :
  rep h k base ls es gs → chain_inv es gs → snapshot st tid → length result = VS →
  length (UpdateMergeFetch st tid h (Some base) result) = VS ∧
  ∀ i, (i < VS)%nat → UpdateMergeFetch st tid h (Some base) result !! i =
    Some (read_row st tid gs (current (λ i, result !!! i) es i) i).
Proof.
  intros Hrep Hinv Hsnap Hr. unfold UpdateMergeFetch, UpdatesForTransaction.
  rewrite (proj1 (rep_chain _ _ _ _ _ _ Hrep)).
  destruct (foldl_merge h k (base :: ls) (base_node es :: gs) st tid result (rep_all _ _ _ _ _ _ Hrep))
    as [Hl Hv]; [|done|].
  { intros n [->|Hn]%elem_of_cons; [apply (ci_base _ _ Hinv)|by apply (ci_nodes _ _ Hinv)]. }
  split; [done|]. intros i Hi. rewrite Hv by done. rewrite read_row_cons. cbn [base_node sn_version].
  by rewrite skip_base.
Qed.

Lemma fetch_row_loop_value (es : list (nat * T)) r v :
  sorted_keys es → fetch_row_loop es r v = default v (value_in es r).
Proof.
  induction es as [|[t x] es IH]; intros Hs; [done|]. apply sorted_cons in Hs as [Hs Hf]. cbn.
  destruct (Nat.eqb_spec t r) as [->|Hne]; [by rewrite decide_True|]. rewrite decide_False by done.
  destruct (Nat.ltb_spec r t); [|by apply IH]. by rewrite (value_in_above es r t) by (done || lia).
Qed.

Lemma TemplatedFetchRow_rep h k base ls es gs st tid r v :
  rep h k base ls es gs → chain_inv es gs → snapshot st tid →
  TemplatedFetchRow st tid h (Some base) r v = read_row st tid gs (default v (value_in es r)) r.
Proof.
  intros Hrep Hinv Hsnap. unfold TemplatedFetchRow, UpdatesForTransaction.
  rewrite (proj1 (rep_chain _ _ _ _ _ _ Hrep)).
  rewrite (foldl_nodes h k (base :: ls) (base_node es :: gs) _
    (λ v n, if skip_version st tid (sn_version n) then default v (value_in (sn_entries n) r) else v) _
    (rep_all _ _ _ _ _ _ Hrep)).
  - cbn [foldl base_node sn_version]. by rewrite skip_base.
  - intros a u n Hv He _ Hn. rewrite Hv. destruct (skip_version _ _ _); [|done].
    rewrite He. apply fetch_row_loop_value.
    apply elem_of_cons in Hn as [->|Hn]; [apply (ci_base _ _ Hinv)|by apply (ci_nodes _ _ Hinv)].
Qed.

(** *** Conflicts, and the transaction's node *)

Lemma nodes_at_existsb h k ls gs (f : UpdateInfo T → bool) (g : snode T → bool) :
  Forall2 (node_rep h k) ls gs →
  (∀ u n, version_number u = sn_version n → entries u = sn_entries n →
     length (tuples u) = length (tuple_data u) → n ∈ gs → f u = g n) →
  existsb f (nodes_at h ls) = existsb g gs.
Proof.
  intros Hf. induction Hf as [|l n ls gs (u & Hu & Hv & He & Hlen & _) Hf IH]; intros Hfg; [done|].
  unfold nodes_at. cbn [omap list_omap]. rewrite Hu. cbn [existsb].
  rewrite (Hfg u n) by (done || left). f_equal. apply IH. intros. apply Hfg; try done. by right.
Qed.

Lemma CheckForConflicts_rep h k base ls es gs t ids :
  rep h k base ls es gs → chain_inv es gs → StronglySorted lt ids →
  CheckForConflicts h (h !! base ≫= next) t ids = false ↔
  no_conflict (start_time t) (transaction_id t) ids gs.
Proof.
  intros Hrep Hinv Hids. unfold CheckForConflicts. rewrite (proj2 (rep_chain _ _ _ _ _ _ Hrep)).
  rewrite (nodes_at_existsb h k ls gs _ (λ n,
    negb (sn_version n =? transaction_id t) && (start_time t <? sn_version n) &&
    conflict_loop ids (sn_entries n).*1) (rp_nodes _ _ _ _ _ _ Hrep)).
  2: { intros u n Hv He Hlen _. by rewrite Hv, <-He, entries_keys. }
  rewrite <-not_true_iff_false, existsb_exists. unfold no_conflict. split.
  - intros Hno n r Hn Hr Hhas. destruct (decide (sn_version n = transaction_id t)); [by right|left].
    destruct (decide (sn_version n <= start_time t)); [done|]. exfalso. apply Hno. exists n.
    split; [by apply list_elem_of_In|]. rewrite !andb_true_iff, negb_true_iff, Z.eqb_neq, Z.ltb_lt.
    split_and!; [done|lia|]. apply conflict_loop_spec; [done|by apply (ci_nodes _ _ Hinv)|].
    exists r. split; [done|]. by apply value_in_keys.
  - intros Hall (n & Hn & Hc). apply list_elem_of_In in Hn.
    rewrite !andb_true_iff, negb_true_iff, Z.eqb_neq, Z.ltb_lt in Hc. destruct Hc as [[Hne Hlt] Hc].
    apply conflict_loop_spec in Hc as (r & Hr & Hin); [|done|by apply (ci_nodes _ _ Hinv)].
    destruct (Hall n r Hn Hr) as [?|?]; [by apply value_in_keys|lia|done].
Qed.

(** The search finds the node of the transaction, which has a place in the chain. *)
Lemma find_node_rep h k base ls es gs tid :
  rep h k base ls es gs →
  match find_node h (h !! base ≫= next) tid with
  | Some l => ∃ ls1 ls2 gs1 own gs2, ls = ls1 ++ l :: ls2 ∧ gs = gs1 ++ own :: gs2 ∧
      sn_version own = tid ∧ Forall2 (node_rep h k) ls1 gs1 ∧ node_rep h k l own ∧
      Forall2 (node_rep h k) ls2 gs2
  | None => existsb (λ n, sn_version n =? tid) gs = false
  end.
Proof.
  intros Hrep. unfold find_node. rewrite (proj2 (rep_chain _ _ _ _ _ _ Hrep)).
  destruct Hrep as [_ _ _ Hf]. induction Hf as [|l n ls gs Hn Hf IH]; [done|].
  cbn [List.find existsb]. pose proof Hn as (u & -> & Hv & _). rewrite Hv.
  destruct (Z.eqb_spec (sn_version n) tid) as [Heq|Hne].
  - exists [], ls, [], n, gs. done.
  - destruct (List.find _ ls) as [l'|]; [|done].
    destruct IH as (ls1 & ls2 & gs1 & own & gs2 & -> & -> & ? & ? & ? & ?).
    exists (l :: ls1), ls2, (n :: gs1), own, gs2. split_and!; try done. by constructor.
Qed.

(** *** Writing through pointers *)

(** The contents and the links of a node. *)
Definition body u := (version_number u, ui_vector_index u, tuples u, tuple_data u).
Definition links u := (prev u, next u).

Lemma node_rep_body h h' k l n :
  body <$> h' !! l = body <$> h !! l → node_rep h k l n → node_rep h' k l n.
Proof.
  intros Hb (u & Hu & Hv & He & Hl & Hk & Hf). rewrite Hu in Hb. cbn in Hb.
  apply fmap_Some in Hb as (u' & Hu' & Hb). exists u'. unfold body, entries in *.
  injection Hb as E1 E2 E3 E4. rewrite <-E1, <-E2, <-E3, <-E4. done.
Qed.

Lemma nodes_rep_body h h' k ls gs :
  (∀ l, l ∈ ls → body <$> h' !! l = body <$> h !! l) →
  Forall2 (node_rep h k) ls gs → Forall2 (node_rep h' k) ls gs.
Proof.
  intros Hb Hf. induction Hf as [|l n ls gs Hn Hf IH]; constructor.
  - eapply node_rep_body; [|done]. apply Hb. left.
  - apply IH. intros. apply Hb. by right.
Qed.

Lemma linked_links h h' p cur ls :
  (∀ l, l ∈ ls → links <$> h' !! l = links <$> h !! l) → linked h p cur ls → linked h' p cur ls.
Proof.
  intros Hl. apply linked_frame. intros l u Hin Hu. specialize (Hl l Hin). rewrite Hu in Hl.
  apply fmap_Some in Hl as (u' & Hu' & Heq). exists u'. unfold links in Heq. naive_solver.
Qed.

Lemma store_lookup h l f l' :
  store l f h !! l' = if decide (l' = l) then f <$> h !! l' else h !! l'.
Proof.
  unfold store. destruct (decide (l' = l)) as [->|Hne]; [apply lookup_alter_eq|].
  by apply lookup_alter_ne.
Qed.

Lemma entries_set_entries es u : entries (set_entries es u) = es.
Proof. unfold entries, set_entries. cbn. apply zip_fst_snd. Qed.

(** Giving a node new entries. *)
Lemma node_rep_set_entries h k l n es :
  node_rep h k l n → Forall (λ t, t < VS)%nat es.*1 →
  node_rep (store l (set_entries es) h) k l (mkSnode (sn_start n) (sn_version n) es).
Proof.
  intros (u & Hu & Hv & _ & _ & Hk & _) Hes. exists (set_entries es u).
  rewrite store_lookup, decide_True, Hu by done. split_and!; try done.
  - apply entries_set_entries.
  - cbn. by rewrite !length_fmap.
Qed.

Lemma store_set_entries_links h l es l' :
  links <$> store l (set_entries es) h !! l' = links <$> h !! l'.
Proof. rewrite store_lookup. case_decide; [|done]. by destruct (h !! l'). Qed.

(** [MergeUpdateLoopInternal] rewrites the base info and one node. *)
Lemma rep_set_entries h k base ls1 l ls2 es gs1 own gs2 es' own' :
  rep h k base (ls1 ++ l :: ls2) es (gs1 ++ own :: gs2) → length ls1 = length gs1 →
  Forall (λ t, t < VS)%nat es'.*1 → Forall (λ t, t < VS)%nat own'.*1 →
  let h' := store base (set_entries es') (store l (set_entries own') h) in
  rep h' k base (ls1 ++ l :: ls2) es'
    (gs1 ++ mkSnode (sn_start own) (sn_version own) own' :: gs2) ∧
  ∀ x, x ≠ base → x ≠ l → h' !! x = h !! x.
Proof.
  intros [Hl Hnd Hb Hn] Hlen Hes' Hown' h'.
  assert (∀ x, x ≠ base → x ≠ l → h' !! x = h !! x) as Hother.
  { intros x Hx1 Hx2. unfold h'. by rewrite !store_lookup, !decide_False by done. }
  split; [|done]. pose proof Hnd as [Hnb Hndl]%NoDup_cons.
  apply NoDup_app in Hndl as (Hnd1 & Hdis & [Hnl Hnd2]%NoDup_cons).
  assert (base ≠ l) as Hbl.
  { intros ->. apply Hnb. apply elem_of_app. right. left. }
  apply Forall2_app_inv in Hn as [Hn1 [Hno Hn2]%Forall2_cons]; [|done].
  split; [|done| |].
  - eapply linked_links; [|exact Hl]. intros x _. unfold h'. by rewrite !store_set_entries_links.
  - apply (node_rep_set_entries (store l (set_entries own') h) k base (base_node es) es').
    + eapply node_rep_body; [|exact Hb]. by rewrite store_lookup, decide_False by done.
    + done.
  - apply Forall2_app; [|constructor].
    + eapply nodes_rep_body; [|exact Hn1]. intros x Hx. rewrite Hother; [done|..].
      * intros ->. apply Hnb. apply elem_of_app. by left.
      * intros ->. apply (Hdis l Hx). left.
    + apply (node_rep_body (store l (set_entries own') h)).
      * unfold h'. by rewrite store_lookup, decide_False by done.
      * by apply node_rep_set_entries.
    + eapply nodes_rep_body; [|exact Hn2]. intros x Hx. rewrite Hother; [done|..].
      * intros ->. apply Hnb. apply elem_of_app. right. by right.
      * intros ->. done.
Qed.

Lemma linked_head h p cur ls : linked h p cur ls → cur = head ls.
Proof. destruct ls; [done|]. by intros [-> _]. Qed.

(** The heap after [insert_node]. *)
Lemma insert_node_lookup h base k t ub :
  h !! base = Some ub →
  (∀ nx : loc, next ub = Some nx → nx ≠ base ∧ is_Some (h !! nx)) →
  let '(node, h') := insert_node h base k t in
  h !! node = None ∧
  h' !! base = Some (set_next (Some node) ub) ∧
  h' !! node = Some (mkUpdateInfo (transaction_id t) k [] [] (Some base) (next ub)) ∧
  ∀ x, x ≠ base → x ≠ node →
    h' !! x = if decide (Some x = next ub) then set_prev (Some node) <$> h !! x else h !! x.
Proof.
  intros Hub Hnx. unfold insert_node, CreateUpdateInfo. set (node := fresh (dom h)).
  assert (h !! node = None) as Hfresh by apply not_elem_of_dom, is_fresh.
  assert (base ≠ node) as Hbn by congruence.
  rewrite lookup_insert_ne, Hub by done. cbn [mbind option_bind].
  destruct (next ub) as [n|] eqn:Hn.
  - destruct (Hnx n eq_refl) as [Hnb [un Hun]]. assert (n ≠ node) as Hnn by congruence.
    split_and!; [done| | |].
    + rewrite !store_lookup. rewrite (decide_True (P := base = base)) by done.
      rewrite !(decide_False (P := base = _)) by done. by rewrite lookup_insert_ne, Hub.
    + rewrite !store_lookup. rewrite (decide_False (P := node = base)) by done.
      rewrite (decide_False (P := node = n)) by done. rewrite (decide_True (P := node = node)) by done.
      by rewrite lookup_insert_eq.
    + intros x Hxb Hxn. rewrite !store_lookup. rewrite (decide_False (P := x = base)) by done.
      rewrite (decide_False (P := x = node)) by done. rewrite lookup_insert_ne by done.
      destruct (decide (x = n)), (decide (Some x = Some n)); congruence.
  - split_and!; [done| | |].
    + rewrite !store_lookup. rewrite (decide_True (P := base = base)) by done.
      rewrite !(decide_False (P := base = _)) by done. by rewrite lookup_insert_ne, Hub.
    + rewrite !store_lookup. rewrite (decide_False (P := node = base)) by done.
      rewrite (decide_True (P := node = node)) by done. by rewrite lookup_insert_eq.
    + intros x Hxb Hxn. rewrite !store_lookup. rewrite (decide_False (P := x = base)) by done.
      rewrite (decide_False (P := x = node)) by done. by rewrite lookup_insert_ne by done.
Qed.

(** [insert_node] puts an empty node of the transaction in front. *)
Lemma insert_node_rep h k base ls es gs t :
  rep h k base ls es gs →
  let '(node, h') := insert_node h base k t in
  h !! node = None ∧
  rep h' k base (node :: ls) es (mkSnode (start_time t) (transaction_id t) [] :: gs) ∧
  ∀ x, x ∉ base :: ls → is_Some (h !! x) → h' !! x = h !! x.
Proof.
  intros [Hl Hnd Hb Hn]. destruct Hl as (_ & ub & Hub & Hpb & Hl).
  pose proof (linked_head _ _ _ _ Hl) as Hhead. pose proof (linked_dom _ _ _ _ Hl) as Hdom.
  pose proof Hnd as [Hnb Hndl]%NoDup_cons.
  assert (∀ nx : loc, next ub = Some nx → nx ∈ ls) as Hnls.
  { intros n Hn'. rewrite Hhead in Hn'. destruct ls; [done|]. injection Hn' as ->. left. }
  pose proof (insert_node_lookup h base k t ub Hub) as Hlk.
  destruct (insert_node h base k t) as [node h'].
  destruct Hlk as (Hfresh & Hb' & Hnode & Hother).
  { intros n Hn'. specialize (Hnls n Hn'). split; [by intros ->|by apply Hdom]. }
  assert (∀ x, x ∈ ls → x ≠ node ∧ x ≠ base) as Hne.
  { intros x Hx. split; [intros ->|by intros ->]. destruct (Hdom node Hx). congruence. }
  assert (∀ x, x ∈ base :: ls → body <$> h' !! x = body <$> h !! x) as Hbody.
  { intros x [->|Hx]%elem_of_cons; [by rewrite Hb', Hub|]. destruct (Hne x Hx) as [? ?].
    rewrite Hother by done. case_decide; [|done]. by destruct (h !! x). }
  split; [done|]. split.
  - split.
    + split; [done|]. exists (set_next (Some node) ub). split_and!; [done|done|].
      split; [done|]. eexists. split; [exact Hnode|]. split; [done|]. cbn [next].
      destruct ls as [|l ls]; [done|]. destruct Hl as (Hc & ul & Hul & Hpl & Hl).
      destruct (Hne l ltac:(left)) as [? ?]. split; [done|]. exists (set_prev (Some node) ul).
      split_and!; [by rewrite Hother, decide_True, Hul by done|done|].
      apply NoDup_cons in Hndl as [Hni Hndl].
      eapply linked_links; [|exact Hl]. intros x Hx.
      destruct (Hne x ltac:(by right)) as [? ?]. rewrite Hother by done.
      rewrite decide_False; [done|]. rewrite Hc. intros [= ->]. done.
    + apply NoDup_cons. split.
      * rewrite elem_of_cons. intros [->|?]; [congruence|done].
      * apply NoDup_cons. split; [|done]. intros Hin. by destruct (Hne node Hin).
    + eapply node_rep_body; [|exact Hb]. apply Hbody. left.
    + constructor.
      * eexists. split; [exact Hnode|]. split_and!; done.
      * eapply nodes_rep_body; [|exact Hn]. intros x Hx. apply Hbody. by right.
  - intros x Hx Hsx. rewrite not_elem_of_cons in Hx. destruct Hx as [Hxb Hxl].
    rewrite Hother; [|done|by intros ->; destruct Hsx; congruence].
    rewrite decide_False; [done|]. intros Heq. symmetry in Heq. by apply Hnls in Heq.
Qed.

(** The heap after unlinking [x]. *)
Lemma CleanupUpdateInternal_lookup h x ux pv l :
  h !! x = Some ux → prev ux = Some pv → (∀ nx : loc, next ux = Some nx → nx ≠ pv) →
  CleanupUpdateInternal h x !! l =
    if decide (l = pv) then set_next (next ux) <$> h !! l
    else if decide (Some l = next ux) then set_prev (Some pv) <$> h !! l else h !! l.
Proof.
  intros Hx Hp Hn. unfold CleanupUpdateInternal. rewrite Hx, Hp.
  destruct (next ux) as [nx|].
  - specialize (Hn nx eq_refl). rewrite !store_lookup.
    destruct (decide (l = pv)) as [->|Hne].
    + by rewrite (decide_False (P := pv = nx)) by done.
    + destruct (decide (l = nx)), (decide (Some l = Some nx)); congruence.
  - rewrite store_lookup. destruct (decide (l = pv)); [done|]. by rewrite decide_False by done.
Qed.

Lemma CleanupUpdateInternal_body h x l :
  body <$> CleanupUpdateInternal h x !! l = body <$> h !! l.
Proof.
  unfold CleanupUpdateInternal. destruct (h !! x) as [ux|]; [|done].
  destruct (prev ux) as [pv|]; [|done]. destruct (next ux); rewrite ?store_lookup;
    repeat case_decide; by destruct (h !! l).
Qed.

(** What is known of a node inside a linked list. *)
Lemma linked_middle h p cur ls1 pv x ls2 :
  linked h p cur (ls1 ++ pv :: x :: ls2) →
  ∃ ux, h !! x = Some ux ∧ prev ux = Some pv ∧ next ux = head ls2.
Proof.
  revert p cur. induction ls1 as [|l ls1 IH]; intros p cur.
  - intros (_ & upv & _ & _ & _ & ux & Hux & Hp & Hl). exists ux. split_and!; [done|done|].
    by apply linked_head in Hl.
  - intros (_ & u & _ & _ & Hl). by eapply IH.
Qed.

Lemma linked_unlink h p cur ls1 pv x ls2 :
  linked h p cur (ls1 ++ pv :: x :: ls2) → NoDup (ls1 ++ pv :: x :: ls2) →
  linked (CleanupUpdateInternal h x) p cur (ls1 ++ pv :: ls2).
Proof.
  intros Hl Hnd. destruct (linked_middle _ _ _ _ _ _ _ Hl) as (ux & Hux & Hp & Hn).
  pose proof Hnd as (Hnd1 & Hdis & Hnd2)%NoDup_app.
  apply NoDup_cons in Hnd2 as [Hpv Hnd2]. apply NoDup_cons in Hnd2 as [Hxn Hnd2].
  assert (∀ nx : loc, next ux = Some nx → nx ∈ ls2) as Hnx.
  { intros nx. rewrite Hn. destruct ls2; [done|]. intros [= ->]. left. }
  assert (∀ nx : loc, next ux = Some nx → nx ≠ pv) as Hnpv.
  { intros nx Hnx' ->. apply Hpv. right. by apply Hnx. }
  pose proof (λ l, CleanupUpdateInternal_lookup h x ux pv l Hux Hp Hnpv) as Hlk.
  revert p cur Hl. clear Hnd Hnd1. induction ls1 as [|l ls1 IH]; intros p cur Hl.
  - destruct Hl as (Hc & upv & Hupv & Hpp & _ & ux' & Hux' & _ & Hl). rewrite Hux in Hux'.
    injection Hux' as <-. split; [done|]. exists (set_next (next ux) upv).
    split_and!; [by rewrite Hlk, decide_True, Hupv by done|done|]. cbn [next set_next].
    destruct ls2 as [|y ls2]; [done|]. destruct Hl as (Hcy & uy & Huy & Hpy & Hl).
    apply NoDup_cons in Hnd2 as [Hyn _]. split; [done|]. exists (set_prev (Some pv) uy).
    split_and!; [|done|].
    + rewrite Hlk, decide_False, decide_True, Huy; [done|done|]. intros ->. apply Hpv. right. left.
    + eapply linked_links; [|exact Hl]. intros z Hz. rewrite Hlk.
      rewrite decide_False by (intros ->; apply Hpv; right; by right).
      rewrite decide_False; [done|]. rewrite Hcy. by intros [= ->].
  - destruct Hl as (Hc & u & Hu & Hpu & Hl). split; [done|].
    assert (l ∉ pv :: x :: ls2) as Hnl by (apply Hdis; left).
    exists u. split_and!; [|done|].
    + rewrite Hlk, decide_False, decide_False; [done|..].
      * intros Heq. symmetry in Heq. apply Hnx in Heq. apply Hnl. right. by right.
      * intros ->. apply Hnl. left.
    + apply IH; [|done]. intros y Hy. apply Hdis. by right.
Qed.

(** Removing a node from the chain. *)
Lemma CleanupUpdateInternal_rep h k base ls1 x ls2 es gs1 n gs2 :
  rep h k base (ls1 ++ x :: ls2) es (gs1 ++ n :: gs2) → length ls1 = length gs1 →
  rep (CleanupUpdateInternal h x) k base (ls1 ++ ls2) es (gs1 ++ gs2) ∧
  ∀ l, l ∉ base :: ls1 ++ x :: ls2 → CleanupUpdateInternal h x !! l = h !! l.
Proof.
  intros [Hl Hnd Hb Hn] Hlen.
  assert (∃ ls0 pv, base :: ls1 = ls0 ++ [pv]) as (ls0 & pv & Hsplit).
  { destruct (exists_last (l := base :: ls1)) as (ls0 & pv & ->); [done|]. eauto. }
  assert (base :: ls1 ++ x :: ls2 = ls0 ++ pv :: x :: ls2) as Heq.
  { change (base :: ls1 ++ x :: ls2) with ((base :: ls1) ++ x :: ls2). by rewrite Hsplit, <-app_assoc. }
  assert (base :: ls1 ++ ls2 = ls0 ++ pv :: ls2) as Heq'.
  { change (base :: ls1 ++ ls2) with ((base :: ls1) ++ ls2). by rewrite Hsplit, <-app_assoc. }
  apply Forall2_app_inv in Hn as [Hn1 [_ Hn2]%Forall2_cons]; [|done].
  split; [split|].
  - rewrite Heq'. rewrite Heq in Hl, Hnd. by apply linked_unlink.
  - rewrite Heq'. rewrite Heq in Hnd.
    eapply sublist_NoDup; [exact Hnd|]. apply sublist_app; [done|]. do 2 constructor. done.
  - eapply node_rep_body; [|exact Hb]. apply CleanupUpdateInternal_body.
  - apply Forall2_app; (eapply nodes_rep_body; [|done]); intros; apply CleanupUpdateInternal_body.
  - intros l Hnl. rewrite Heq in Hl, Hnl.
    destruct (linked_middle _ _ _ _ _ _ _ Hl) as (ux & Hux & Hp & Hnx).
    assert (∀ nx : loc, next ux = Some nx → nx ∈ ls2) as Hin.
    { intros nx. rewrite Hnx. destruct ls2; [done|]. intros [= ->]. left. }
    rewrite (CleanupUpdateInternal_lookup h x ux pv) by (done || intros nx Hx ->;
      rewrite Heq in Hnd; apply NoDup_app in Hnd as (_ & _ & [Hpv _]%NoDup_cons);
      apply Hpv; right; by apply Hin).
    rewrite decide_False by (intros ->; apply Hnl, elem_of_app; right; left).
    rewrite decide_False; [done|]. intros Hsx. symmetry in Hsx. apply Hin in Hsx.
    apply Hnl, elem_of_app. right. right. by right.
Qed.
End rep.

(** ** The segment *)

Lemma StronglySorted_lookup_lt {A} (R : relation A) (l : list A) i j x y :
  StronglySorted R l → (i < j)%nat → l !! i = Some x → l !! j = Some y → R x y.
Proof.
  intros Hs. revert i j. induction Hs as [|z l Hs IH Hf]; intros i j Hij Hx Hy; [done|].
  destruct j as [|j]; [lia|]. cbn in Hy. destruct i as [|i]; cbn in Hx.
  - injection Hx as ->. rewrite Forall_lookup in Hf. eauto.
  - apply (IH i j); [lia|done..].
Qed.

Section segment_lemmas.
Context {T V St : Type} `{!Inhabited T, !UpdateKind T V St, !UpdateKindLaws T V St}.
Implicit Types (g : UpdateSegment T St) (h : heap T) (gs : list (snode T)) (es : list (nat * T)).

(** Vector [k] of the segment has the base info [es] and the chain [gs]. *)
Definition vector_view g (k : nat) es gs : Prop :=
  chain_inv es gs ∧
  match root_at g k with
  | None => es = [] ∧ gs = []
  | Some base => ∃ ls, rep (us_heap g) k base ls es gs
  end.

(** The same with the locations [ls] of the nodes. *)
Definition located_view g (k : nat) (ls : list loc) es gs : Prop :=
  chain_inv es gs ∧
  match root_at g k with
  | None => ls = [] ∧ es = [] ∧ gs = []
  | Some base => rep (us_heap g) k base ls es gs
  end.

(** The node at [l] is [n] in the chain of vector [k]. *)
Definition view_node g (k : nat) es gs (l : loc) (n : snode T) : Prop :=
  chain_inv es gs ∧
  ∃ base ls1 ls2 gs1 gs2, root_at g k = Some base ∧ gs = gs1 ++ n :: gs2 ∧
    length ls1 = length gs1 ∧ rep (us_heap g) k base (ls1 ++ l :: ls2) es gs.

Lemma view_node_view g k es gs l n : view_node g k es gs l n → vector_view g k es gs ∧ n ∈ gs.
Proof.
  intros (Hinv & base & ls1 & ls2 & gs1 & gs2 & Hr & -> & _ & Hrep). split.
  - split; [done|]. rewrite Hr. by eexists.
  - apply elem_of_app. right. left.
Qed.

Lemma vector_view_located g k es gs : vector_view g k es gs ↔ ∃ ls, located_view g k ls es gs.
Proof.
  unfold vector_view, located_view. destruct (root_at g k); [naive_solver|]. split; [|naive_solver].
  intros [Hinv [-> ->]]. by exists [].
Qed.

Definition root_ok g : Prop :=
  match us_root g with Some infos => length infos = MORSEL_VECTOR_COUNT | None => True end.

(** The value of row [r] that a snapshot reads, over the base table [bt]. *)
Definition snapshot_value (st tid : Z) (bt : nat → T) es gs (r : nat) : T :=
  read_row st tid gs (current bt es r) r.

Lemma vector_view_empty g k : root_at g k = None → vector_view g k [] [].
Proof. intros Hr. split; [|by rewrite Hr]. split; [constructor| |constructor|constructor]. by intros n ?%elem_of_nil. Qed.

(** Changing the nodes of one vector does not change another. *)
Lemma rep_frame h h' k j base ls es gs (locs : list loc) :
  j ≠ k → (∀ x, x ∉ locs → is_Some (h !! x) → h' !! x = h !! x) →
  (∀ x u, x ∈ locs → h !! x = Some u → ui_vector_index u = k) →
  rep h j base ls es gs → rep h' j base ls es gs.
Proof.
  intros Hjk Hsame Hlocs Hrep. pose proof (rep_all _ _ _ _ _ _ Hrep) as Hall.
  assert (∀ x, x ∈ base :: ls → h' !! x = h !! x) as Heq.
  { intros x Hx. apply list_elem_of_lookup in Hx as [i Hi].
    destruct (Forall2_lookup_l _ _ _ _ _ Hall Hi) as (n & _ & u & Hu & _ & _ & _ & Hk & _).
    apply Hsame; [|by eexists]. intros Hin. specialize (Hlocs x u Hin Hu). congruence. }
  destruct Hrep as [Hl Hnd Hb Hn]. split; [|done| |].
  - eapply linked_links; [|exact Hl]. intros x Hx. by rewrite Heq.
  - eapply node_rep_body; [|exact Hb]. rewrite Heq; [done|left].
  - eapply nodes_rep_body; [|exact Hn]. intros x Hx. rewrite Heq; [done|by right].
Qed.

Lemma rep_index h k base ls es gs x u :
  rep h k base ls es gs → x ∈ base :: ls → h !! x = Some u → ui_vector_index u = k.
Proof.
  intros Hrep Hx Hu. apply list_elem_of_lookup in Hx as [i Hi].
  destruct (Forall2_lookup_l _ _ _ _ _ (rep_all _ _ _ _ _ _ Hrep) Hi)
    as (n & _ & u' & Hu' & _ & _ & _ & Hk & _). congruence.
Qed.

(** The selected row numbers are strictly increasing. *)
Lemma InitializeUpdateInfo_sorted ids sel offset :
  StronglySorted lt ids → StronglySorted lt sel → Forall (λ i, i < length ids)%nat sel →
  Forall (λ id, offset <= id)%nat ids →
  StronglySorted lt (InitializeUpdateInfo ids sel offset).*1.
Proof.
  intros Hids Hsel Hlt Hoff. unfold InitializeUpdateInfo. rewrite <-list_fmap_compose. unfold compose. cbn.
  assert (∀ i j, (i < j)%nat → (j < length ids)%nat → (offset <= ids !!! i < ids !!! j)%nat) as Hmono.
  { intros i j Hij Hj.
    destruct (lookup_lt_is_Some_2 ids i ltac:(lia)) as [x Hx].
    destruct (lookup_lt_is_Some_2 ids j Hj) as [y Hy].
    rewrite (list_lookup_total_correct _ _ _ Hx), (list_lookup_total_correct _ _ _ Hy).
    rewrite Forall_lookup in Hoff. split; [by eapply Hoff|].
    by eapply (StronglySorted_lookup_lt lt ids i j). }
  induction Hsel as [|i sel Hsel IH Hf]; cbn; constructor.
  - apply IH. by apply Forall_cons in Hlt as [_ ?].
  - apply Forall_cons in Hlt as [Hi Hlt]. rewrite Forall_fmap. rewrite Forall_forall in *.
    intros j Hj. cbn. specialize (Hmono i j (Hf j Hj) (Hlt j Hj)). lia.
Qed.

(** The new values of an update, by row. *)
Definition new_values (update : V) (ids : list (nat * nat)) : list (nat * T) :=
  (λ '(id, idx), (id, Extract update idx)) <$> ids.

Lemma new_values_keys update ids : (new_values update ids).*1 = ids.*1.
Proof. unfold new_values. rewrite <-list_fmap_compose. apply list_fmap_ext. by intros ? []. Qed.

Lemma entries_at h k l n : node_rep h k l n → default [] (entries <$> h !! l) = sn_entries n.
Proof. by intros (u & -> & _ & <- & _). Qed.

Lemma node_rep_lt h k l n : node_rep h k l n → Forall (λ t, t < VS)%nat (sn_entries n).*1.
Proof. intros (u & _ & _ & <- & Hlen & _ & Hf). by rewrite entries_keys. Qed.

Lemma no_own_twice es gs1 own gs2 :
  chain_inv es (gs1 ++ own :: gs2) →
  (∀ u, u ∈ gs1 → sn_version u ≠ sn_version own) ∧ (∀ w, w ∈ gs2 → sn_version w ≠ sn_version own).
Proof.
  intros [_ _ _ Hv]. rewrite fmap_app, fmap_cons in Hv.
  apply NoDup_app in Hv as (_ & Hd & [Hni _]%NoDup_cons). split.
  - intros u Hu Heq. apply (Hd (sn_version own)); [rewrite <-Heq; by apply list_elem_of_fmap_2|left].
  - intros w Hw Heq. apply Hni. rewrite <-Heq. by apply list_elem_of_fmap_2.
Qed.

(** Merging an update into the base info and the node of the transaction. *)
Lemma MergeUpdateLoopInternal_rep h k base ls1 l ls2 es gs1 own gs2 tid base_data update ids :
  rep h k base (ls1 ++ l :: ls2) es (gs1 ++ own :: gs2) → chain_inv es (gs1 ++ own :: gs2) →
  length ls1 = length gs1 → sn_version own = tid →
  StronglySorted lt ids.*1 → Forall (λ id, id < VS)%nat ids.*1 →
  let h' := MergeUpdateLoopInternal h base l base_data update ids in
  rep h' k base (ls1 ++ l :: ls2) (MergeLoop (new_values update ids) es)
    (own_update (Extract base_data) tid ids.*1 es <$> gs1 ++ own :: gs2) ∧
  ∀ x, x ∉ base :: ls1 ++ l :: ls2 → h' !! x = h !! x.
Proof.
  intros Hrep Hinv Hlen Hown Hids Hlt h'. pose proof Hrep as [_ _ Hb Hn].
  apply Forall2_app_inv in Hn as [_ [Hno _]%Forall2_cons]; [|done].
  destruct (no_own_twice _ _ _ _ Hinv) as [H1 H2]. rewrite Hown in H1, H2.
  rewrite own_update_split by done. unfold own_update. rewrite (proj2 (Z.eqb_eq _ _) Hown).
  destruct (ci_nodes _ _ Hinv own) as (Hso & _); [apply elem_of_app; right; left|].
  pose proof (ci_base _ _ Hinv) as Hsb.
  unfold h', MergeUpdateLoopInternal. rewrite (entries_at _ _ _ _ Hb), (entries_at _ _ _ _ Hno).
  cbn [base_node sn_entries]. rewrite <-Hown.
  assert (sorted_keys (new_values update ids)) as Hsn by (unfold sorted_keys; by rewrite new_values_keys).
  pose proof (node_rep_lt _ _ _ _ Hb) as Hltb. pose proof (node_rep_lt _ _ _ _ Hno) as Hlto.
  cbn [base_node sn_entries] in Hltb. rewrite Forall_forall in Hlt, Hltb, Hlto.
  destruct (rep_set_entries h k base ls1 l ls2 es gs1 own gs2
    (MergeLoop (new_values update ids) es)
    (merge_old (Extract base_data) ids.*1 (sn_entries own) es) Hrep Hlen) as [Hr Hf].
  - rewrite Forall_forall. intros r Hr. rewrite MergeLoop_keys in Hr by done.
    destruct Hr as [Hr|Hr]; [|by apply Hltb].
    rewrite new_values_keys in Hr. by apply Hlt.
  - rewrite Forall_forall. intros r Hr. rewrite <-value_in_keys, merge_old_value in Hr by done.
    destruct (value_in (sn_entries own) r) eqn:Hv; [apply Hlto; by eapply value_in_Some|].
    case_decide; [by apply Hlt|by destruct Hr].
  - split; [exact Hr|]. intros x Hx. apply Hf.
    + intros ->. apply Hx. left.
    + intros ->. apply Hx. right. apply elem_of_app. right. left.
Qed.

(** A vector without updates gets its two infos. *)
Lemma initialize_vector_rep h k t base_data update ids :
  StronglySorted lt ids.*1 → Forall (λ id, id < VS)%nat ids.*1 →
  let '(base, node, h') := initialize_vector h t update base_data k ids in
  rep h' k base [node] (new_values update ids)
    [mkSnode (start_time t) (transaction_id t)
       (merge_old (Extract base_data) ids.*1 [] [])] ∧
  (∀ x, is_Some (h !! x) → h' !! x = h !! x) ∧ h !! base = None ∧ h !! node = None.
Proof.
  intros Hids Hlt. unfold initialize_vector, CreateUpdateInfo. set (base := fresh (dom h)).
  set (h1 := <[base := _]> h). set (node := fresh (dom h1)).
  assert (h !! base = None) as Hfb by apply not_elem_of_dom, is_fresh.
  assert (h1 !! node = None) as Hfn by apply not_elem_of_dom, is_fresh.
  assert (node ≠ base) as Hne.
  { intros Heq. rewrite Heq in Hfn. unfold h1 in Hfn. by rewrite lookup_insert_eq in Hfn. }
  assert (h !! node = None) as Hfn' by (unfold h1 in Hfn; by rewrite lookup_insert_ne in Hfn by done).
  assert (merge_old (Extract base_data) ids.*1 [] [] =
          (λ '(id, _), (id, Extract base_data id)) <$> ids) as Hold.
  { clear. induction ids as [|[id idx] ids IH]; [done|]. cbn. by rewrite IH. }
  rewrite Hold. split.
  - split.
    + split; [done|]. eexists. rewrite !store_lookup. rewrite (decide_True (P := base = base)) by done.
      rewrite (decide_False (P := base = node)) by done. rewrite lookup_insert_ne by done.
      unfold h1 at 1. rewrite lookup_insert_eq. split_and!; [done|done|]. cbn [linked set_next next].
      split; [done|]. eexists. rewrite !store_lookup. rewrite (decide_False (P := node = base)) by done.
      rewrite (decide_True (P := node = node)) by done. rewrite lookup_insert_eq. done.
    + apply NoDup_cons. split; [by intros ?%list_elem_of_singleton|apply NoDup_singleton].
    + eexists. rewrite !store_lookup. rewrite (decide_True (P := base = base)) by done.
      rewrite (decide_False (P := base = node)) by done. rewrite lookup_insert_ne by done.
      unfold h1 at 1. rewrite lookup_insert_eq. split_and!; [done|done| | |done|done].
      * cbn. unfold entries, new_values. cbn. clear. induction ids as [|[] ids IH]; [done|]. cbn. by rewrite IH.
      * cbn. by rewrite !length_fmap.
    + constructor; [|done]. eexists. rewrite !store_lookup.
      rewrite (decide_False (P := node = base)) by done. rewrite (decide_True (P := node = node)) by done.
      rewrite lookup_insert_eq. split_and!; [done|done| | |done|done].
      * cbn. unfold entries. cbn. clear. induction ids as [|[] ids IH]; [done|]. cbn. by rewrite IH.
      * cbn. by rewrite !length_fmap.
  - split_and!; [|done|done]. intros x Hx. assert (x ≠ base ∧ x ≠ node) as [? ?].
    { destruct Hx as [y Hy]. split; intros ->; congruence. }
    rewrite !store_lookup, !decide_False by done. rewrite lookup_insert_ne by done.
    unfold h1. by rewrite lookup_insert_ne by done.
Qed.

Lemma root_lookup g k :
  root_ok g → (k < MORSEL_VECTOR_COUNT)%nat →
  default (replicate MORSEL_VECTOR_COUNT None) (us_root g) !! k = Some (root_at g k).
Proof.
  unfold root_ok, root_at. destruct (us_root g) as [infos|]; cbn; intros Hr Hk.
  - destruct (lookup_lt_is_Some_2 infos k) as [x ->]; [lia|done].
  - by apply lookup_replicate_2.
Qed.

Lemma root_at_default g k infos h (st cst : St) :
  root_ok g → (k < MORSEL_VECTOR_COUNT)%nat →
  default (replicate MORSEL_VECTOR_COUNT None) (us_root g) = infos →
  root_at (mkUpdateSegment (us_start g) (Some infos) h st cst) k = root_at g k.
Proof.
  intros Hr Hk <-. unfold root_at at 1. cbn [us_root]. by rewrite root_lookup.
Qed.

(** What an update was asked for: strictly increasing row ids of vector [k],
    by a transaction with a well-formed snapshot. *)
Record update_pre g (t : Transaction) (ids : list nat) (k : nat) es gs : Prop := {
  up_root : root_ok g;
  up_k : (k < MORSEL_VECTOR_COUNT)%nat;
  up_nonempty : ids ≠ [];
  up_sorted : StronglySorted lt ids;
  up_range : Forall (λ id, us_start g + k * VS <= id < us_start g + k * VS + VS)%nat ids;
  up_view : vector_view g k es gs;
  up_snapshot : snapshot (start_time t) (transaction_id t);
  up_reader : reader_ok (start_time t) (transaction_id t) gs;
}.

(** The rows an update writes, with the positions of their new values. *)
Definition update_rows g (update : V) (ids : list nat) (k : nat) : list (nat * nat) :=
  InitializeUpdateInfo ids (statistics_update (us_stats g) update (length ids)).2
    (us_start g + k * VS).

Lemma update_rows_ok g t update ids k es gs :
  update_pre g t ids k es gs →
  StronglySorted lt (update_rows g update ids k).*1 ∧
  Forall (λ id, id < VS)%nat (update_rows g update ids k).*1.
Proof.
  intros Hpre. destruct (statistics_update_sel (us_stats g) update (length ids)) as [Hs Hf].
  pose proof (up_range _ _ _ _ _ _ Hpre) as Hr. split.
  - apply InitializeUpdateInfo_sorted; [apply (up_sorted _ _ _ _ _ _ Hpre)|done..|].
    eapply Forall_impl; [exact Hr|]. cbn. lia.
  - unfold update_rows, InitializeUpdateInfo. rewrite <-list_fmap_compose, Forall_fmap.
    eapply Forall_impl; [exact Hf|]. intros i Hi. cbn.
    destruct (lookup_lt_is_Some_2 ids i Hi) as [x Hx]. rewrite (list_lookup_total_correct _ _ _ Hx).
    rewrite Forall_lookup in Hr. specialize (Hr i x Hx). lia.
Qed.

Lemma first_vector g t id ids k es gs :
  update_pre g t (id :: ids) k es gs → ((id - us_start g) / VS = k)%nat.
Proof.
  intros Hpre. pose proof (up_range _ _ _ _ _ _ Hpre) as [Hr _]%Forall_cons.
  symmetry. apply (Nat.div_unique _ _ _ (id - us_start g - k * VS)); lia.
Qed.

(** The view after a successful update. *)
Definition updated g (t : Transaction) (update : V) (ids : list nat) (base_data : V) (k : nat)
    es gs (es' : list (nat * T)) (gs' : list (snode T)) : Prop :=
  ∀ r, let new := new_values update (update_rows g update ids k) in
    snapshot_value (start_time t) (transaction_id t) (Extract base_data) es' gs' r =
      default (snapshot_value (start_time t) (transaction_id t) (Extract base_data) es gs r)
        (value_in new r) ∧
    ∀ st' tid', skip_version st' tid' (transaction_id t) = true →
      snapshot_value st' tid' (Extract base_data) es' gs' r =
      snapshot_value st' tid' (Extract base_data) es gs r.

Lemma a_update_updated g t update ids base_data k es gs :
  update_pre g t ids k es gs →
  no_conflict (start_time t) (transaction_id t) (update_rows g update ids k).*1 gs →
  let new := new_values update (update_rows g update ids k) in
  let es' := MergeLoop new es in
  let gs' := a_update (Extract base_data) (start_time t) (transaction_id t)
               (update_rows g update ids k).*1 es gs in
  chain_inv es' gs' ∧ updated g t update ids base_data k es gs es' gs'.
Proof.
  intros Hpre Hnc new es' gs'. destruct (update_rows_ok g t update ids k es gs Hpre) as [Hs _].
  destruct (up_snapshot _ _ _ _ _ _ Hpre) as [[_ Hst] Htid].
  assert (sorted_keys new) as Hn by (unfold sorted_keys, new; by rewrite new_values_keys).
  assert (new.*1 = (update_rows g update ids k).*1) as Hk by apply new_values_keys.
  unfold gs'. rewrite <-Hk in *. split.
  - apply a_update_inv; [done|apply (up_view _ _ _ _ _ _ Hpre)|lia|done| |done].
    apply (up_reader _ _ _ _ _ _ Hpre).
  - intros r. apply a_update_read; [done|apply (up_view _ _ _ _ _ _ Hpre)|lia|done| |done].
    apply (up_reader _ _ _ _ _ _ Hpre).
Qed.

(** The chain of a vector that has updates, after [Update]. *)
(** Who wrote a node. *)
Definition writer (n : snode T) : Z * Z := (sn_start n, sn_version n).

Lemma writer_own_update bt tid ids es gs :
  writer <$> (own_update bt tid ids es <$> gs) = writer <$> gs.
Proof.
  rewrite <-list_fmap_compose. apply list_fmap_ext. intros i n _. unfold compose, own_update, writer.
  destruct (Z.eqb_spec (sn_version n) tid) as [<-|]; done.
Qed.

(** The locations and the writers after an update that created a node. *)
Definition with_created {A} (created : option loc) (f : loc → A) (l : list A) : list A :=
  match created with Some x => f x :: l | None => l end.

Lemma update_existing_rep h k base ls es gs t update base_data rows :
  rep h k base ls es gs → chain_inv es gs → snapshot (start_time t) (transaction_id t) →
  StronglySorted lt rows.*1 → Forall (λ id, id < VS)%nat rows.*1 →
  let '(node, h1, created) := own_node h base k t in
  let h' := MergeUpdateLoopInternal h1 base node base_data update rows in
  let gs' := a_update (Extract base_data) (start_time t) (transaction_id t) rows.*1 es gs in
  rep h' k base (with_created created id ls) (MergeLoop (new_values update rows) es) gs' ∧
  writer <$> gs' = with_created created (λ _, (start_time t, transaction_id t)) (writer <$> gs) ∧
  (∀ l, created = Some l → h !! l = None) ∧
  ∀ x, x ∉ base :: ls → is_Some (h !! x) → h' !! x = h !! x.
Proof.
  intros Hrep Hinv [[_ Hst] Htid] Hs Hlt. unfold own_node.
  pose proof (find_node_rep h k base ls es gs (transaction_id t) Hrep) as Hfind.
  destruct (find_node h (h !! base ≫= next) (transaction_id t)) as [node|].
  - destruct Hfind as (ls1 & ls2 & gs1 & own & gs2 & -> & -> & Hown & Hf1 & Hno & Hf2).
    unfold a_update, a_ensure. rewrite (proj2 (existsb_own _ _));
      [|exists own; split; [apply elem_of_app; right; left|done]].
    destruct (MergeUpdateLoopInternal_rep h k base ls1 node ls2 es gs1 own gs2 (transaction_id t)
      base_data update rows Hrep Hinv (Forall2_length _ _ _ Hf1) Hown Hs Hlt) as [Hr Hfr].
    cbn [with_created]. split; [exact Hr|]. split; [apply writer_own_update|]. split; [done|].
    intros x Hx _. by apply Hfr.
  - pose proof (insert_node_rep h k base ls es gs t Hrep) as Hins.
    destruct (insert_node h base k t) as [node h1]. destruct Hins as (Hfresh & Hrep1 & Hfr1).
    destruct (a_ensure_inv (start_time t) (transaction_id t) es gs Hinv ltac:(lia) Htid) as (Hinv1 & _).
    unfold a_update. unfold a_ensure in *. rewrite Hfind in *.
    destruct (MergeUpdateLoopInternal_rep h1 k base [] node ls es [] _ gs (transaction_id t)
      base_data update rows Hrep1 Hinv1 eq_refl eq_refl Hs Hlt) as [Hr Hfr].
    cbn [with_created]. split; [exact Hr|]. split; [by rewrite writer_own_update|].
    split; [by intros l [= <-]|].
    intros x Hx Hsx. rewrite Hfr; [by apply Hfr1|]. cbn [app].
    rewrite not_elem_of_cons in Hx. rewrite !not_elem_of_cons. destruct Hx as [? ?].
    split_and!; [done| |done]. intros ->. destruct Hsx. congruence.
Qed.

(** The other vectors keep their view. *)
Definition others_kept g g' (k : nat) : Prop :=
  ∀ j es gs, j ≠ k → (j < MORSEL_VECTOR_COUNT)%nat → vector_view g j es gs → vector_view g' j es gs.

Definition others_located g g' (k : nat) : Prop :=
  ∀ j ls es gs, j ≠ k → (j < MORSEL_VECTOR_COUNT)%nat → located_view g j ls es gs → located_view g' j ls es gs.

Lemma others_located_kept g g' k : others_located g g' k → others_kept g g' k.
Proof.
  intros Ho j es gs Hj Hlt [ls Hv]%vector_view_located. apply vector_view_located. exists ls. by apply Ho.
Qed.

(** A change of the heap outside the other vectors' chains. *)
Lemma others_located_heap g g' k base ls es gs :
  rep (us_heap g) k base ls es gs →
  (∀ x, x ∉ base :: ls → is_Some (us_heap g !! x) → us_heap g' !! x = us_heap g !! x) →
  (∀ j, j ≠ k → (j < MORSEL_VECTOR_COUNT)%nat → root_at g' j = root_at g j) →
  others_located g g' k.
Proof.
  intros Hrep Hfr Hroot j ls' es' gs' Hj Hlt [Hinv Hv]. split; [done|]. rewrite Hroot by done.
  destruct (root_at g j) as [base'|]; [|done]. eapply rep_frame; [exact Hj|exact Hfr| |exact Hv].
  intros x u Hx Hu. by eapply rep_index.
Qed.

Lemma updated_nil g t update ids base_data k es gs :
  update_rows g update ids k = [] → updated g t update ids base_data k es gs es gs.
Proof. intros Hr r. unfold updated. cbv zeta. rewrite Hr. done. Qed.

Lemma updated_skip g t update ids base_data k :
  skip_update update base_data = true → updated g t update ids base_data k [] [] [] [].
Proof.
  intros Hskip r. cbv zeta. split; [|done]. unfold snapshot_value, current, read_row. cbn.
  destruct (value_in _ r) as [v|] eqn:Hv; [|done]. cbn.
  assert (∀ rows : list (nat * nat), value_in (new_values update rows) r = Some v →
    v = Extract base_data r) as H; [|by apply H in Hv].
  clear Hv. induction rows as [|[id idx] rows IH]; cbn; [done|]. case_decide; [|done].
  intros [= <-]. by apply skip_update_same.
Qed.

Lemma root_infos_length g : root_ok g → length (default (replicate MORSEL_VECTOR_COUNT None) (us_root g)) = MORSEL_VECTOR_COUNT.
Proof. unfold root_ok. destruct (us_root g); [done|]. intros _. apply length_replicate. Qed.

(** The result of a successful update, with the locations. *)
Definition update_result g g' (t : Transaction) (update : V) (ids : list nat) (base_data : V) (k : nat)
    (ls : list loc) es gs (created : option loc) : Prop :=
  root_ok g' ∧
  ∃ es' gs', located_view g' k (with_created created id ls) es' gs' ∧
    updated g t update ids base_data k es gs es' gs' ∧ others_located g g' k ∧
    writer <$> gs' = with_created created (λ _, (start_time t, transaction_id t)) (writer <$> gs) ∧
    ∀ l, created = Some l → us_heap g !! l = None.

(** The branch of [Update] for a vector without updates. *)
Lemma update_new_spec g t update ids base_data k stats cst :
  update_pre g t ids k [] [] → root_at g k = None →
  let root := default (replicate MORSEL_VECTOR_COUNT None) (us_root g) in
  let '(base, node, h') :=
    initialize_vector (us_heap g) t update base_data k (update_rows g update ids k) in
  let g' := mkUpdateSegment (us_start g) (Some (<[k := Some base]> root)) h' stats cst in
  update_result g g' t update ids base_data k [] [] [] (Some node).
Proof.
  intros Hpre Hnone root. destruct (update_rows_ok g t update ids k [] [] Hpre) as [Hs Hlt].
  pose proof (up_root _ _ _ _ _ _ Hpre) as Hro. pose proof (up_k _ _ _ _ _ _ Hpre) as Hk.
  pose proof (initialize_vector_rep (us_heap g) k t base_data update _ Hs Hlt) as Hrep.
  destruct (initialize_vector _ _ _ _ _ _) as [[base node] h'].
  destruct Hrep as (Hrep & Hfr & Hfb & Hfn).
  assert (no_conflict (T := T) (start_time t) (transaction_id t) (update_rows g update ids k).*1 []) as Hnc.
  { intros n r Hn. by apply elem_of_nil in Hn. }
  destruct (a_update_updated g t update ids base_data k [] [] Hpre Hnc) as [Hinv Hupd].
  pose proof (root_infos_length g Hro) as Hlr. fold root in Hlr.
  assert (a_update (Extract base_data) (start_time t) (transaction_id t)
    (update_rows g update ids k).*1 [] [] = [mkSnode (start_time t) (transaction_id t)
      (merge_old (Extract base_data) (update_rows g update ids k).*1 [] [])]) as Hau.
  { unfold a_update, a_ensure, own_update.
    cbn [existsb fmap list_fmap sn_version sn_start sn_entries]. by rewrite Z.eqb_refl. }
  split; [cbn; by rewrite length_insert|].
  eexists _, _. split_and!; [split; [exact Hinv|]|exact Hupd| |by rewrite Hau|by intros l [= <-]].
  - unfold root_at. cbn [us_root]. rewrite list_lookup_insert_eq by lia. cbn [default from_option id].
    rewrite Hau, MergeLoop_nil_r. exact Hrep.
  - intros j ls es gs Hj Hjlt [Hi Hv]. split; [done|]. unfold root_at at 1. cbn [us_root].
    rewrite list_lookup_insert_ne by done. unfold root. rewrite root_lookup by done.
    cbn [default from_option id]. destruct (root_at g j) as [base'|]; [|done].
    eapply (rep_frame _ _ k j _ _ _ _ [] Hj); [|by intros x u ?%elem_of_nil|exact Hv].
    intros x _. apply Hfr.
Qed.

(** The branch of [Update] for a vector with updates. *)
Lemma update_existing_spec g t update ids base_data k es gs base ls stats cst :
  update_pre g t ids k es gs → root_at g k = Some base → rep (us_heap g) k base ls es gs →
  no_conflict (start_time t) (transaction_id t) (update_rows g update ids k).*1 gs →
  let '(node, h1, created) := own_node (us_heap g) base k t in
  let g' := mkUpdateSegment (us_start g)
    (Some (default (replicate MORSEL_VECTOR_COUNT None) (us_root g)))
    (MergeUpdateLoopInternal h1 base node base_data update (update_rows g update ids k)) stats cst in
  update_result g g' t update ids base_data k ls es gs created.
Proof.
  intros Hpre Hbase Hrep Hnc. destruct (update_rows_ok g t update ids k es gs Hpre) as [Hs Hlt].
  destruct (up_view _ _ _ _ _ _ Hpre) as [Hinv _]. pose proof (up_root _ _ _ _ _ _ Hpre) as Hro.
  pose proof (update_existing_rep (us_heap g) k base ls es gs t update base_data _ Hrep Hinv
    (up_snapshot _ _ _ _ _ _ Hpre) Hs Hlt) as Hex.
  destruct (own_node (us_heap g) base k t) as [[node h1] created].
  destruct Hex as (Hrep' & Hw & Hfresh & Hfr).
  destruct (a_update_updated g t update ids base_data k es gs Hpre Hnc) as [Hinv' Hupd].
  split; [by apply root_infos_length|].
  eexists _, _. split_and!; [split; [exact Hinv'|]|exact Hupd| |exact Hw|exact Hfresh].
  - rewrite root_at_default, Hbase; [done|done|apply (up_k _ _ _ _ _ _ Hpre)|done].
  - eapply others_located_heap; [exact Hrep|exact Hfr|]. intros j _ Hj. by apply root_at_default.
Qed.

Lemma same_heap_located g k infos st cst :
  root_ok g → infos = default (replicate MORSEL_VECTOR_COUNT None) (us_root g) →
  let g' := mkUpdateSegment (us_start g) (Some infos) (us_heap g) st cst in
  root_ok g' ∧ others_located g g' k ∧
  ∀ ls es gs, (k < MORSEL_VECTOR_COUNT)%nat → located_view g k ls es gs → located_view g' k ls es gs.
Proof.
  intros Hro -> g'. split; [by apply root_infos_length|].
  assert (∀ j ls es gs, (j < MORSEL_VECTOR_COUNT)%nat → located_view g j ls es gs → located_view g' j ls es gs)
    as Hall.
  { intros j ls es gs Hj [Hinv Hv]. split; [done|]. unfold g'. rewrite root_at_default by done. exact Hv. }
  split; [|by apply Hall]. intros j ls es gs _. apply Hall.
Qed.

(** The whole of [Update], with the locations. *)
Lemma UpdateSegment_Update_located g t update ids base_data k ls es gs :
  update_pre g t ids k es gs → located_view g k ls es gs →
  let rows := (update_rows g update ids k).*1 in
  match UpdateSegment_Update g t update ids base_data with
  | Raise g' e =>
      e = TransactionException "Conflict on update!" ∧
      ¬ no_conflict (start_time t) (transaction_id t) rows gs ∧
      root_ok g' ∧ located_view g' k ls es gs ∧ others_located g g' k
  | Ret g' created =>
      no_conflict (start_time t) (transaction_id t) rows gs ∧
      update_result g g' t update ids base_data k ls es gs created
  end.
Proof.
  intros Hpre Hloc rows. destruct (update_rows_ok g t update ids k es gs Hpre) as [Hs _].
  destruct ids as [|id ids]; [by destruct (up_nonempty _ _ _ _ _ _ Hpre)|].
  pose proof (first_vector _ _ _ _ _ _ _ Hpre) as Hk. unfold UpdateSegment_Update. rewrite Hk.
  pose proof Hloc as [Hinv Hview]. pose proof (up_root _ _ _ _ _ _ Hpre) as Hro.
  pose proof (up_k _ _ _ _ _ _ Hpre) as HkC. unfold UpdateSegment_HasUpdates_vector.
  assert (no_conflict (T := T) (start_time t) (transaction_id t) rows []) as Hnil
    by (intros n r Hn; by apply elem_of_nil in Hn).
  destruct (negb _ && skip_update update base_data) eqn:Hskip.
  { apply andb_true_iff in Hskip as [Hno Hskip]. destruct (root_at g k) eqn:Hr; [done|].
    destruct Hview as (-> & -> & ->). split; [exact Hnil|]. split; [done|]. exists [], [].
    split_and!; [done|by apply updated_skip|by intros j|done|done]. }
  assert (rows = (InitializeUpdateInfo (id :: ids)
    (statistics_update (us_stats g) update (length (id :: ids))).2 (us_start g + k * VS)).*1) as Hrows by done.
  pose proof (update_new_spec g t update (id :: ids) base_data k) as Hnew.
  pose proof (update_existing_spec g t update (id :: ids) base_data k es gs) as Hexist.
  unfold update_rows in Hnew, Hexist.
  destruct (statistics_update (us_stats g) update (length (id :: ids))) as [stats sel] eqn:Hstat.
  cbn [snd] in *. destruct sel as [|i sel].
  { cbn in Hrows. split; [intros n r _ Hr; rewrite Hrows in Hr; by apply elem_of_nil in Hr|].
    split; [done|]. exists es, gs.
    split_and!; [done|apply updated_nil; unfold update_rows; by rewrite Hstat|by intros j|done|done]. }
  rewrite root_lookup by done. destruct (root_at g k) as [base|] eqn:Hroot; cycle 1.
  { destruct Hview as (-> & -> & ->).
    specialize (Hnew stats (MergeStatistics (us_column_stats g) stats) Hpre eq_refl).
    destruct (initialize_vector _ _ _ _ _ _) as [[base node] h']. by split; [exact Hnil|]. }
  rewrite <-Hrows.
  pose proof (CheckForConflicts_rep (us_heap g) k base ls es gs t rows Hview Hinv Hs) as Hcc.
  destruct (CheckForConflicts _ _ _ _) eqn:Hc.
  - destruct (same_heap_located g k _ stats (us_column_stats g) Hro eq_refl) as (? & ? & Hsame).
    split_and!; [done|intros Hn; by apply Hcc in Hn|done|by apply Hsame|done].
  - pose proof (proj1 Hcc eq_refl) as Hnc.
    specialize (Hexist base ls stats (MergeStatistics (us_column_stats g) stats) Hpre eq_refl Hview).
    rewrite <-Hrows in Hexist. specialize (Hexist Hnc).
    destruct (own_node (us_heap g) base k t) as [[node h1] created]. done.
Qed.

(** The node that an update created is the first of the chain. *)
Lemma created_node g k l ls es gs st tid ws :
  located_view g k (l :: ls) es gs → writer <$> gs = (st, tid) :: ws →
  ∃ n, view_node g k es gs l n ∧ sn_version n = tid.
Proof.
  intros [Hinv Hv] Hw. destruct gs as [|n gs]; [done|]. cbn in Hw. injection Hw as _ Hn _.
  exists n. split; [|done]. split; [done|]. destruct (root_at g k) as [base|]; [|naive_solver].
  by exists base, [], ls, [], gs.
Qed.

(** C24: an update by a transaction either fails, exactly when one of its rows
    has a version that its snapshot does not see, and then no value changes;
    or afterwards the transaction reads its new values, while every snapshot
    that does not see the transaction reads what it read before.  The chain
    stays well-formed, the entry pushed to the undo buffer is the node of the
    transaction in it, and the other vectors are not touched. *)
Theorem UpdateSegment_Update_spec g t update ids base_data k es gs :
  update_pre g t ids k es gs →
  let rows := (update_rows g update ids k).*1 in
  match UpdateSegment_Update g t update ids base_data with
  | Raise g' e =>
      e = TransactionException "Conflict on update!" ∧
      ¬ no_conflict (start_time t) (transaction_id t) rows gs ∧
      vector_view g' k es gs ∧ others_kept g g' k
  | Ret g' created =>
      no_conflict (start_time t) (transaction_id t) rows gs ∧
      ∃ es' gs', vector_view g' k es' gs' ∧ updated g t update ids base_data k es gs es' gs' ∧
        others_kept g g' k ∧
        ∀ l, created = Some l →
          ∃ n, view_node g' k es' gs' l n ∧ sn_version n = transaction_id t
  end.
Proof.
  intros Hpre rows. destruct (proj1 (vector_view_located _ _ _ _) (up_view _ _ _ _ _ _ Hpre)) as [ls Hloc].
  pose proof (UpdateSegment_Update_located g t update ids base_data k ls es gs Hpre Hloc) as Hu. cbn zeta in Hu.
  destruct (UpdateSegment_Update g t update ids base_data) as [g' created|g' e].
  - destruct Hu as (Hnc & _ & es' & gs' & Hv & Hupd & Ho & Hw & _). split; [done|]. exists es', gs'.
    split_and!; [apply vector_view_located; by eexists|done|by apply others_located_kept|].
    intros l ->. exact (created_node g' k l ls es' gs' _ _ _ Hv Hw).
  - destruct Hu as (He & Hnc & _ & Hv & Ho).
    split_and!; [done|done|apply vector_view_located; by eexists|by apply others_located_kept].
Qed.

(** *** Reading *)

Lemma FetchUpdates_view g t k es gs (result : list T) :
  vector_view g k es gs → snapshot (start_time t) (transaction_id t) → length result = VS →
  ∀ i, (i < VS)%nat → FetchUpdates g t k result !! i =
    Some (snapshot_value (start_time t) (transaction_id t) (λ i, result !!! i) es gs i).
Proof.
  intros [Hinv Hv] Hsnap Hlen i Hi. unfold FetchUpdates, snapshot_value.
  destruct (root_at g k) as [base|].
  - destruct Hv as [ls Hrep]. by apply (UpdateMergeFetch_rep (us_heap g) k base ls).
  - destruct Hv as [-> ->]. cbn. apply list_lookup_lookup_total_lt. lia.
Qed.

(** C6: reading a vector through the update chain gives, for every row, the
    newest version that the snapshot of the transaction sees: its own write,
    or the last one committed when it started, or the value of the base
    table. *)
Theorem FetchUpdates_snapshot g t k es gs (result : list T) i :
  vector_view g k es gs → snapshot (start_time t) (transaction_id t) →
  reader_ok (start_time t) (transaction_id t) gs → length result = VS → (i < VS)%nat →
  let newest := current (λ i, result !!! i) es i in
  FetchUpdates g t k result !! i =
    Some (newest_visible (start_time t) (transaction_id t) (history gs newest i) newest).
Proof.
  intros Hv Hsnap Hrd Hlen Hi newest. rewrite (FetchUpdates_view g t k es gs) by done.
  f_equal. unfold snapshot_value. eapply read_row_newest; [apply Hv|done|apply Hsnap].
Qed.

(** in a segment that starts at row 0, fetching one row agrees with
    fetching its vector. *)
Theorem FetchRow_FetchUpdates g t es gs (result : list T) row v :
  us_start g = 0%nat → us_root g ≠ None →
  vector_view g (row / VS) es gs → snapshot (start_time t) (transaction_id t) →
  length result = VS → result !! (row mod VS)%nat = Some v →
  Some (UpdateSegment_FetchRow g t row v) = FetchUpdates g t (row / VS) result !! (row mod VS)%nat.
Proof.
  intros Hstart Hroot Hv Hsnap Hlen Hres. destruct (row_split row) as [_ Hmod].
  rewrite (FetchUpdates_view g t _ es gs) by done. f_equal. unfold UpdateSegment_FetchRow.
  destruct (us_root g) as [infos|] eqn:Hr; [|done]. rewrite Hstart, Nat.sub_0_r, row_sub.
  destruct Hv as [Hinv Hv]. unfold snapshot_value, current.
  rewrite (list_lookup_total_correct _ _ _ Hres). destruct (root_at g (row / VS)) as [base|].
  - destruct Hv as [ls Hrep]. by eapply TemplatedFetchRow_rep.
  - by destruct Hv as [-> ->].
Qed.

(** *** Commit, rollback and cleanup *)

Lemma rep_set_version h k base ls1 l ls2 es gs1 n gs2 v :
  rep h k base (ls1 ++ l :: ls2) es (gs1 ++ n :: gs2) → length ls1 = length gs1 →
  rep (store l (set_version v) h) k base (ls1 ++ l :: ls2) es
    (gs1 ++ mkSnode (sn_start n) v (sn_entries n) :: gs2).
Proof.
  intros [Hl Hnd Hb Hn] Hlen. pose proof Hnd as [Hnb Hndl]%NoDup_cons.
  apply NoDup_app in Hndl as (Hnd1 & Hdis & [Hnl Hnd2]%NoDup_cons).
  apply Forall2_app_inv in Hn as [Hn1 [Hno Hn2]%Forall2_cons]; [|done].
  assert (∀ x, x ≠ l → store l (set_version v) h !! x = h !! x) as Hother.
  { intros x Hx. by rewrite store_lookup, decide_False. }
  split; [|done| |].
  - eapply linked_links; [|exact Hl]. intros x _. rewrite store_lookup.
    case_decide; [|done]. by destruct (h !! x).
  - eapply node_rep_body; [|exact Hb]. rewrite Hother; [done|]. intros ->.
    apply Hnb, elem_of_app. right. left.
  - apply Forall2_app; [|constructor].
    + eapply nodes_rep_body; [|exact Hn1]. intros x Hx. rewrite Hother; [done|].
      intros ->. apply (Hdis l Hx). left.
    + destruct Hno as (u & Hu & Hv & He & Hlu & Hk & Hf). exists (set_version v u).
      by rewrite store_lookup, decide_True, Hu by done.
    + eapply nodes_rep_body; [|exact Hn2]. intros x Hx. rewrite Hother; [done|]. by intros ->.
Qed.

(** committing an update makes it visible to exactly the later snapshots:
    they read, for its rows, what the transaction last wrote, and snapshots
    taken before the commit read what they read before. *)
Theorem UpdateInfo_Commit_spec g k es gs l n bt commit_id :
  view_node g k es gs l n → TRANSACTION_ID_START <= sn_version n →
  (∀ m, m ∈ gs → sn_start m < commit_id ∧ sn_version m ≠ commit_id) →
  commit_id < TRANSACTION_ID_START →
  let g' := UpdateInfo_Commit g l commit_id in
  let gs' := a_commit (sn_version n) commit_id gs in
  vector_view g' k es gs' ∧
  (∀ st tid r, snapshot st tid → tid ≠ sn_version n → st < commit_id →
     snapshot_value st tid bt es gs' r = snapshot_value st tid bt es gs r) ∧
  (∀ st tid r, commit_id <= st → has n r → reader_ok st tid gs' →
     snapshot_value st tid bt es gs' r =
     snapshot_value (sn_start n) (sn_version n) bt es gs r).
Proof.
  intros Hvn Htid Hfresh Hci g' gs'. pose proof (view_node_view _ _ _ _ _ _ Hvn) as [_ Hin].
  destruct Hvn as (Hinv & base & ls1 & ls2 & gs1 & gs2 & Hroot & Heq & Hlen & Hrep).
  destruct (a_commit_spec es gs (sn_version n) commit_id Hinv) as (Hinv' & Hold & Hnew); [by eauto|done..|].
  split_and!.
  - split; [done|]. unfold root_at. cbn. unfold root_at in Hroot. rewrite Hroot.
    exists (ls1 ++ l :: ls2). unfold gs'. rewrite Heq in Hinv, Hrep |- *.
    destruct (no_own_twice _ _ _ _ Hinv) as [H1 H2]. rewrite a_commit_split by done.
    by apply rep_set_version.
  - intros st tid r [[_ Hst] Ht] Hne Hlt. apply Hold; apply skip_version_true; lia.
  - intros st tid r Hle Hr Hrd. unfold snapshot_value. rewrite Hnew by eauto.
    rewrite Heq in Hinv |- *. symmetry. rewrite read_row_app.
    rewrite (read_row_all_visible _ _ gs1); cycle 1.
    { intros w Hw Hwr. exfalso. by eapply (ahead_uncommitted es gs1 n gs2 w r). }
    apply read_row_all_visible. intros w Hw Hwr.
    apply skip_version_false. apply elem_of_cons in Hw as [->|Hw]; [by right|left].
    pose proof (ci_ahead _ _ Hinv) as Ha. apply StronglySorted_app_1_r in Ha.
    apply StronglySorted_inv in Ha as [_ Hf]. rewrite Forall_forall in Hf.
    by apply (proj2 (Hf w Hw) r).
Qed.

(** The chain after a rollback. *)
Lemma RollbackUpdate_rep g k base ls1 l ls2 es gs1 n gs2 :
  root_at g k = Some base → chain_inv es (gs1 ++ n :: gs2) → length ls1 = length gs1 →
  rep (us_heap g) k base (ls1 ++ l :: ls2) es (gs1 ++ n :: gs2) →
  let g' := UpdateSegment_RollbackUpdate g l in
  us_root g' = us_root g ∧
  rep (us_heap g') k base (ls1 ++ ls2) (RollbackUpdate_data es (sn_entries n)) (gs1 ++ gs2) ∧
  ∀ x, x ∉ base :: ls1 ++ l :: ls2 → us_heap g' !! x = us_heap g !! x.
Proof.
  intros Hroot Hinv Hlen Hrep g'. set (es' := RollbackUpdate_data es (sn_entries n)).
  destruct (ci_nodes _ _ Hinv n) as (Hso & Hko & _); [apply elem_of_app; right; left|].
  pose proof (ci_base _ _ Hinv) as Hb. pose proof Hrep as [_ _ Hrb Hrn].
  apply Forall2_app_inv in Hrn as [_ [Hno _]%Forall2_cons]; [|done].
  destruct Hno as (u & Hu & Hv & He & Hlu & Hk & Hf).
  unfold g', UpdateSegment_RollbackUpdate. rewrite Hu, Hk, Hroot. cbn [us_root us_heap]. split; [done|].
  destruct Hrb as (ub & Hub & Hvb & Heb & Hlb & Hkb & Hfb).
  assert (store base (λ b, set_entries (RollbackUpdate_data (entries b) (entries u)) b) (us_heap g) =
          store base (set_entries es') (us_heap g)) as ->.
  { unfold store. apply alter_ext. intros x Hx. rewrite Hub in Hx. injection Hx as <-.
    cbn [base_node sn_entries] in Heb. by rewrite Heb, He. }
  destruct (CleanupUpdateInternal_rep (store base (set_entries es') (us_heap g)) k base ls1 l ls2 es' gs1 n gs2)
    as [Hr Hfr]; [|done|].
  - destruct Hrep as [Hl Hnd _ Hn]. split; [|done| |].
    + eapply linked_links; [|exact Hl]. intros x _. apply store_set_entries_links.
    + apply (node_rep_set_entries _ k base (base_node es) es'); [by exists ub|].
      unfold es'. destruct (RollbackUpdate_data_spec es (sn_entries n) Hb Hso Hko) as [-> _].
      by apply (node_rep_lt (us_heap g) k base (base_node es)); exists ub.
    + eapply nodes_rep_body; [|exact Hn]. intros x Hx. rewrite store_lookup, decide_False; [done|].
      intros ->. by apply NoDup_cons in Hnd as [? _].
  - split; [exact Hr|]. intros x Hx. rewrite Hfr by done. rewrite store_lookup, decide_False; [done|].
    intros ->. apply Hx. left.
Qed.

(** C27: rolling back an update of a running transaction removes its node and
    leaves what every other snapshot reads, now and later. *)
Theorem UpdateSegment_RollbackUpdate_spec g k es gs l n bt :
  view_node g k es gs l n → TRANSACTION_ID_START <= sn_version n →
  let g' := UpdateSegment_RollbackUpdate g l in
  let es' := RollbackUpdate_data es (sn_entries n) in
  let gs' := a_remove (sn_version n) gs in
  vector_view g' k es' gs' ∧
  ∀ st tid r, snapshot st tid → tid ≠ sn_version n →
    snapshot_value st tid bt es' gs' r = snapshot_value st tid bt es gs r.
Proof.
  intros Hvn Htid g' es' gs'. pose proof (view_node_view _ _ _ _ _ _ Hvn) as [_ Hin].
  destruct Hvn as (Hinv & base & ls1 & ls2 & gs1 & gs2 & Hroot & Heq & Hlen & Hrep).
  destruct (a_rollback_spec bt es gs (sn_version n) n Hinv Hin eq_refl Htid) as [Hinv' Hread].
  split.
  - split; [done|]. rewrite Heq in Hinv, Hrep. destruct (no_own_twice _ _ _ _ Hinv) as [H1 H2].
    destruct (RollbackUpdate_rep g k base ls1 l ls2 es gs1 n gs2 Hroot Hinv Hlen Hrep) as (Hr & Hrep' & _).
    unfold root_at in Hroot |- *. unfold g'. rewrite Hr, Hroot. exists (ls1 ++ ls2).
    unfold gs'. by rewrite Heq, a_remove_split by done.
  - intros st tid r [[_ Hst] Ht] Hne. apply Hread, skip_version_true. lia.
Qed.

(** unlinking a version does not change what a snapshot that sees it reads:
    a committed update can be cleaned up as soon as every running transaction
    started after its commit. *)
Theorem CleanupUpdate_spec g k es gs l n bt :
  view_node g k es gs l n →
  let g' := CleanupUpdate g l in
  let gs' := a_remove (sn_version n) gs in
  vector_view g' k es gs' ∧
  ∀ st tid r, sn_version n <= st → snapshot_value st tid bt es gs' r = snapshot_value st tid bt es gs r.
Proof.
  intros Hvn g' gs'. destruct Hvn as (Hinv & base & ls1 & ls2 & gs1 & gs2 & Hroot & Heq & Hlen & Hrep).
  split.
  - rewrite Heq in Hinv, Hrep. destruct (no_own_twice _ _ _ _ Hinv) as [H1 H2].
    unfold gs'. rewrite Heq, a_remove_split by done. split; [by eapply remove_inv|].
    unfold g', CleanupUpdate, root_at. cbn [us_root us_heap]. unfold root_at in Hroot. rewrite Hroot.
    exists (ls1 ++ ls2). by apply (CleanupUpdateInternal_rep _ k base ls1 l ls2 es gs1 n gs2).
  - intros st tid r Hle. apply a_remove_read, skip_version_false. by left.
Qed.
End segment_lemmas.
