(* ===== verification/UpdateKinds.v ===== *)
(** * The types of update segments

    Models the type dispatch of src/src/storage/table/update_segment.cpp (the
    seven [Get...Function] tables), [GetTypeIdSize] of
    src/src/common/types.cpp, and the two families of functions they select:
    numeric columns with their validity mask, and validity columns.  The two
    instances of [UpdateKind] discharge the laws under which the theorems on
    update segments are proved.

    Theorems: the tables agree with each other and with the size of the type;
    merging validity updates into a mask is the row-wise update; the range of
    a segment's statistics covers every value that was written. *)

From S2P Require Import Prelude Constants Serializer ChunkInfo MorselInfo ValidityMask Statistics.
From S2P Require Import UpdateSegment.

(** ** Physical types ([enum class PhysicalType], with its values) *)

Inductive PhysicalType : Set :=
| NA | BOOL | UINT8 | INT8 | UINT16 | INT16 | UINT32 | INT32 | UINT64 | INT64 | HALF_FLOAT | FLOAT
| DOUBLE | STRING | BINARY | FIXED_SIZE_BINARY | DATE32 | DATE64 | TIMESTAMP | TIME32 | TIME64
| INTERVAL | LIST | STRUCT | UNION | DICTIONARY | MAP | EXTENSION | FIXED_SIZE_LIST | DURATION
| LARGE_STRING | LARGE_BINARY | LARGE_LIST | VARCHAR | POINTER | HASH | INT128 | BIT | INVALID_TYPE.

Definition PhysicalType_value (type : PhysicalType) : Z :=
  match type with
  | NA => 0 | BOOL => 1 | UINT8 => 2 | INT8 => 3 | UINT16 => 4 | INT16 => 5 | UINT32 => 6
  | INT32 => 7 | UINT64 => 8 | INT64 => 9 | HALF_FLOAT => 10 | FLOAT => 11 | DOUBLE => 12
  | STRING => 13 | BINARY => 14 | FIXED_SIZE_BINARY => 15 | DATE32 => 16 | DATE64 => 17
  | TIMESTAMP => 18 | TIME32 => 19 | TIME64 => 20 | INTERVAL => 21 | LIST => 23 | STRUCT => 24
  | UNION => 25 | DICTIONARY => 26 | MAP => 27 | EXTENSION => 28 | FIXED_SIZE_LIST => 29
  | DURATION => 30 | LARGE_STRING => 31 | LARGE_BINARY => 32 | LARGE_LIST => 33 | VARCHAR => 200
  | POINTER => 202 | HASH => 203 | INT128 => 204 | BIT => 205 | INVALID_TYPE => 255
  end.

Definition TypeIsConstantSize (type : PhysicalType) : bool :=
  let v := PhysicalType_value type in
  ((1 <=? v) && (v <=? 12)) || ((15 <=? v) && (v <=? 21)) || (v =? 203) || (v =? 202) ||
  (v =? 21) || (v =? 204).

Definition TypeIsIntegral (type : PhysicalType) : bool :=
  let v := PhysicalType_value type in
  ((2 <=? v) && (v <=? 9)) || (v =? 203) || (v =? 202) || (v =? 204).

Definition TypeIsNumeric (type : PhysicalType) : bool :=
  let v := PhysicalType_value type in ((2 <=? v) && (v <=? 12)) || (v =? 204).

Definition TypeIsInteger (type : PhysicalType) : bool :=
  let v := PhysicalType_value type in ((2 <=? v) && (v <=? 9)) || (v =? 204).

(** The C++ types that the templates are instantiated with. *)
Inductive ctype : Set :=
| c_bool | int8_t | int16_t | int32_t | int64_t | uint8_t | uint16_t | uint32_t | uint64_t
| hugeint_t | c_float | c_double | interval_t | string_t.

Definition sizeof (c : ctype) : nat :=
  match c with
  | c_bool | int8_t | uint8_t => 1
  | int16_t | uint16_t => 2
  | int32_t | uint32_t | c_float => 4
  | int64_t | uint64_t | c_double => 8
  | hugeint_t | interval_t | string_t => 16
  end.

Definition GetTypeIdSize (type : PhysicalType) : res nat :=
  match type with
  | BIT | BOOL => Ok (sizeof c_bool)
  | INT8 => Ok (sizeof int8_t)
  | INT16 => Ok (sizeof int16_t)
  | INT32 => Ok (sizeof int32_t)
  | INT64 => Ok (sizeof int64_t)
  | UINT8 => Ok (sizeof uint8_t)
  | UINT16 => Ok (sizeof uint16_t)
  | UINT32 => Ok (sizeof uint32_t)
  | UINT64 => Ok (sizeof uint64_t)
  | INT128 => Ok (sizeof hugeint_t)
  | FLOAT => Ok (sizeof c_float)
  | DOUBLE => Ok (sizeof c_double)
  | HASH => Ok 8%nat
  | POINTER => Ok 8%nat
  | VARCHAR => Ok (sizeof string_t)
  | INTERVAL => Ok (sizeof interval_t)
  | STRUCT => Ok 0%nat
  | MAP => Ok 42%nat
  | LIST => Ok 16%nat
  | _ => Throw (ConversionException "Invalid PhysicalType")
  end.

(** ** The dispatch tables *)

(** A function of the validity family, or a template instance. *)
Inductive table_entry : Set :=
| ValidityFunction
| TemplateFunction (T : ctype)
| StringFunction.

Definition GetFetchUpdateFunction (type : PhysicalType) : res table_entry :=
  match type with
  | BIT => Ok ValidityFunction
  | BOOL | INT8 => Ok (TemplateFunction int8_t)
  | INT16 => Ok (TemplateFunction int16_t)
  | INT32 => Ok (TemplateFunction int32_t)
  | INT64 => Ok (TemplateFunction int64_t)
  | UINT8 => Ok (TemplateFunction uint8_t)
  | UINT16 => Ok (TemplateFunction uint16_t)
  | UINT32 => Ok (TemplateFunction uint32_t)
  | UINT64 => Ok (TemplateFunction uint64_t)
  | INT128 => Ok (TemplateFunction hugeint_t)
  | FLOAT => Ok (TemplateFunction c_float)
  | DOUBLE => Ok (TemplateFunction c_double)
  | INTERVAL => Ok (TemplateFunction interval_t)
  | VARCHAR => Ok (TemplateFunction string_t)
  | _ => Throw (NotImplementedException "Unimplemented type for update segment")
  end.

Definition GetFetchCommittedFunction (type : PhysicalType) : res table_entry :=
  match type with
  | BIT => Ok ValidityFunction
  | BOOL | INT8 => Ok (TemplateFunction int8_t)
  | INT16 => Ok (TemplateFunction int16_t)
  | INT32 => Ok (TemplateFunction int32_t)
  | INT64 => Ok (TemplateFunction int64_t)
  | UINT8 => Ok (TemplateFunction uint8_t)
  | UINT16 => Ok (TemplateFunction uint16_t)
  | UINT32 => Ok (TemplateFunction uint32_t)
  | UINT64 => Ok (TemplateFunction uint64_t)
  | INT128 => Ok (TemplateFunction hugeint_t)
  | FLOAT => Ok (TemplateFunction c_float)
  | DOUBLE => Ok (TemplateFunction c_double)
  | INTERVAL => Ok (TemplateFunction interval_t)
  | VARCHAR => Ok (TemplateFunction string_t)
  | _ => Throw (NotImplementedException "Unimplemented type for update segment")
  end.

Definition GetFetchRowFunction (type : PhysicalType) : res table_entry :=
  match type with
  | BIT => Ok ValidityFunction
  | BOOL | INT8 => Ok (TemplateFunction int8_t)
  | INT16 => Ok (TemplateFunction int16_t)
  | INT32 => Ok (TemplateFunction int32_t)
  | INT64 => Ok (TemplateFunction int64_t)
  | UINT8 => Ok (TemplateFunction uint8_t)
  | UINT16 => Ok (TemplateFunction uint16_t)
  | UINT32 => Ok (TemplateFunction uint32_t)
  | UINT64 => Ok (TemplateFunction uint64_t)
  | INT128 => Ok (TemplateFunction hugeint_t)
  | FLOAT => Ok (TemplateFunction c_float)
  | DOUBLE => Ok (TemplateFunction c_double)
  | INTERVAL => Ok (TemplateFunction interval_t)
  | VARCHAR => Ok (TemplateFunction string_t)
  | _ => Throw (NotImplementedException "Unimplemented type for update segment fetch row")
  end.

Definition GetRollbackUpdateFunction (type : PhysicalType) : res table_entry :=
  match type with
  | BIT => Ok (TemplateFunction c_bool)
  | BOOL | INT8 => Ok (TemplateFunction int8_t)
  | INT16 => Ok (TemplateFunction int16_t)
  | INT32 => Ok (TemplateFunction int32_t)
  | INT64 => Ok (TemplateFunction int64_t)
  | UINT8 => Ok (TemplateFunction uint8_t)
  | UINT16 => Ok (TemplateFunction uint16_t)
  | UINT32 => Ok (TemplateFunction uint32_t)
  | UINT64 => Ok (TemplateFunction uint64_t)
  | INT128 => Ok (TemplateFunction hugeint_t)
  | FLOAT => Ok (TemplateFunction c_float)
  | DOUBLE => Ok (TemplateFunction c_double)
  | INTERVAL => Ok (TemplateFunction interval_t)
  | VARCHAR => Ok (TemplateFunction string_t)
  | _ => Throw (NotImplementedException "Unimplemented type for uncompressed segment")
  end.

Definition GetInitializeUpdateFunction (type : PhysicalType) : res table_entry :=
  match type with
  | BIT => Ok ValidityFunction
  | BOOL | INT8 => Ok (TemplateFunction int8_t)
  | INT16 => Ok (TemplateFunction int16_t)
  | INT32 => Ok (TemplateFunction int32_t)
  | INT64 => Ok (TemplateFunction int64_t)
  | UINT8 => Ok (TemplateFunction uint8_t)
  | UINT16 => Ok (TemplateFunction uint16_t)
  | UINT32 => Ok (TemplateFunction uint32_t)
  | UINT64 => Ok (TemplateFunction uint64_t)
  | INT128 => Ok (TemplateFunction hugeint_t)
  | FLOAT => Ok (TemplateFunction c_float)
  | DOUBLE => Ok (TemplateFunction c_double)
  | INTERVAL => Ok (TemplateFunction interval_t)
  | VARCHAR => Ok (TemplateFunction string_t)
  | _ => Throw (NotImplementedException "Unimplemented type for update segment")
  end.

Definition GetMergeUpdateFunction (type : PhysicalType) : res table_entry :=
  match type with
  | BIT => Ok ValidityFunction
  | BOOL | INT8 => Ok (TemplateFunction int8_t)
  | INT16 => Ok (TemplateFunction int16_t)
  | INT32 => Ok (TemplateFunction int32_t)
  | INT64 => Ok (TemplateFunction int64_t)
  | UINT8 => Ok (TemplateFunction uint8_t)
  | UINT16 => Ok (TemplateFunction uint16_t)
  | UINT32 => Ok (TemplateFunction uint32_t)
  | UINT64 => Ok (TemplateFunction uint64_t)
  | INT128 => Ok (TemplateFunction hugeint_t)
  | FLOAT => Ok (TemplateFunction c_float)
  | DOUBLE => Ok (TemplateFunction c_double)
  | INTERVAL => Ok (TemplateFunction interval_t)
  | VARCHAR => Ok (TemplateFunction string_t)
  | _ => Throw (NotImplementedException "Unimplemented type for uncompressed segment")
  end.

Definition GetStatisticsUpdateFunction (type : PhysicalType) : res table_entry :=
  match type with
  | BIT => Ok ValidityFunction
  | BOOL | INT8 => Ok (TemplateFunction int8_t)
  | INT16 => Ok (TemplateFunction int16_t)
  | INT32 => Ok (TemplateFunction int32_t)
  | INT64 => Ok (TemplateFunction int64_t)
  | UINT8 => Ok (TemplateFunction uint8_t)
  | UINT16 => Ok (TemplateFunction uint16_t)
  | UINT32 => Ok (TemplateFunction uint32_t)
  | UINT64 => Ok (TemplateFunction uint64_t)
  | INT128 => Ok (TemplateFunction hugeint_t)
  | FLOAT => Ok (TemplateFunction c_float)
  | DOUBLE => Ok (TemplateFunction c_double)
  | INTERVAL => Ok (TemplateFunction interval_t)
  | VARCHAR => Ok StringFunction
  | _ => Throw (NotImplementedException "Unimplemented type for uncompressed segment")
  end.

(** The size of the elements that a table entry reads and writes; validity
    data is stored as [bool]. *)
Definition entry_size (e : table_entry) : nat :=
  match e with
  | ValidityFunction => sizeof c_bool
  | TemplateFunction T => sizeof T
  | StringFunction => sizeof string_t
  end.

Definition update_tables : list (PhysicalType → res table_entry) :=
  [GetFetchUpdateFunction; GetFetchCommittedFunction; GetFetchRowFunction;
   GetRollbackUpdateFunction; GetInitializeUpdateFunction; GetMergeUpdateFunction;
   GetStatisticsUpdateFunction].

(** ** Numeric columns *)

(** A flat vector of a numeric column. *)
Record FlatVector : Set := mkFlatVector {
  fv_data : list Z;
  fv_validity : ValidityMask;
}.

Definition TemplatedUpdateNumericStatistics (stats : NumericStatistics) (update : FlatVector)
    (count : nat) : NumericStatistics * list nat :=
  if AllValid (fv_validity update) then
    (for_ 0 count (λ i stats, NumericStatistics_Update stats (fv_data update !!! i)) stats,
     seq 0 count)
  else
    for_ 0 count (λ i '(stats, sel),
      if RowIsValid (fv_validity update) i
      then (NumericStatistics_Update stats (fv_data update !!! i), sel ++ [i])
      else (stats, sel)) (stats, []).

#[global] Instance NumericKind : UpdateKind Z FlatVector NumericStatistics := {
  Extract v i := fv_data v !!! i;
  statistics_update := TemplatedUpdateNumericStatistics;
  skip_update _ _ := false;
  MergeStatistics := NumericStatistics_Merge;
  (* the bounds of a 64-bit column *)
  empty_statistics := NumericStatistics_new (- 2 ^ 63) (2 ^ 63 - 1);
}.

(** ** Validity columns *)

Definition UpdateValidityStatistics (stats : ValidityStatistics) (update : ValidityMask)
    (count : nat) : ValidityStatistics * list nat :=
  (if negb (AllValid update) && negb (has_null stats) then
     mkValidityStatistics (existsb (λ i, negb (RowIsValid update i)) (seq 0 count))
   else stats, seq 0 count).

#[global] Instance ValidityKind : UpdateKind bool ValidityMask ValidityStatistics := {
  Extract v i := RowIsValid v i;
  statistics_update := UpdateValidityStatistics;
  skip_update update base := AllValid update && AllValid base;
  MergeStatistics := ValidityStatistics_Merge;
  empty_statistics := mkValidityStatistics false;
}.

(** [UpdateSegment::FetchUpdates] of a validity column, on the mask of the
    result vector. *)
Definition FetchUpdates_validity (g : UpdateSegment bool ValidityStatistics) (transaction : Transaction)
    (vector_index : nat) (result_mask : ValidityMask) : ValidityMask :=
  match root_at g vector_index with
  | None => result_mask
  | Some base =>
      UpdateMergeValidity (start_time transaction) (transaction_id transaction) (us_heap g) (Some base)
        result_mask
  end.

(** ** The laws *)

Lemma seq_sorted a n : StronglySorted lt (seq a n).
Proof.
  revert a. induction n as [|n IH]; intros a; cbn; constructor; [apply IH|].
  apply Forall_forall. intros x Hx%elem_of_seq. lia.
Qed.

Lemma sel_loop (p : nat → bool) (data : list Z) stats count :
  let r := for_ 0 count (λ i '(stats, sel),
    if p i then (NumericStatistics_Update stats (data !!! i), sel ++ [i]) else (stats, sel)) (stats, []) in
  r.2 = List.filter p (seq 0 count) ∧
  r.1 = foldl (λ s i, NumericStatistics_Update s (data !!! i)) stats (List.filter p (seq 0 count)).
Proof.
  set (P := λ (n : nat) (r : NumericStatistics * list nat), r.2 = List.filter p (seq 0 n) ∧
    r.1 = foldl (λ s i, NumericStatistics_Update s (data !!! i)) stats (List.filter p (seq 0 n))).
  apply (for_ind P); [lia|done|]. intros i [st sel] Hi [Hs Hst]. cbn [fst snd] in *. unfold P.
  rewrite seq_S, List.filter_app. cbn [List.filter Nat.add]. destruct (p i); cbn [fst snd].
  - rewrite foldl_app. cbn. rewrite <-Hst, Hs. done.
  - by rewrite app_nil_r.
Qed.

Lemma filter_sorted (p : nat → bool) (l : list nat) : StronglySorted lt l → StronglySorted lt (List.filter p l).
Proof.
  induction 1 as [|x l Hs IH Hf]; cbn; [constructor|]. destruct (p x); [|done].
  constructor; [done|]. rewrite Forall_forall in *. intros y Hy.
  rewrite list_elem_of_In in Hy. apply filter_In in Hy as [Hy _]. apply Hf. by apply list_elem_of_In.
Qed.

#[global] Instance NumericKindLaws : UpdateKindLaws Z FlatVector NumericStatistics.
Proof.
  split; [|done]. intros st v count. cbn. unfold TemplatedUpdateNumericStatistics.
  destruct (AllValid (fv_validity v)).
  - cbn. split; [apply seq_sorted|]. apply Forall_forall. intros i Hi%elem_of_seq. lia.
  - rewrite (proj1 (sel_loop (RowIsValid (fv_validity v)) (fv_data v) st count)). split.
    + apply filter_sorted, seq_sorted.
    + apply Forall_forall. intros i Hi. apply elem_of_filter_seq in Hi. lia.
Qed.

#[global] Instance ValidityKindLaws : UpdateKindLaws bool ValidityMask ValidityStatistics.
Proof.
  split.
  - intros st v count. cbn. split; [apply seq_sorted|]. apply Forall_forall. intros i Hi%elem_of_seq. lia.
  - intros upd base i j [H1 H2]%andb_true_iff. by destruct upd, base.
Qed.

(** ** Theorems *)

(** the seven dispatch tables accept the same types, and the functions they
    select for a type read and write elements of the size that the segment
    allocates for it. *)
Theorem update_tables_consistent type :
  (∀ f, f ∈ update_tables → ∃ msg, f type = Throw (NotImplementedException msg)) ∨
  ∃ size, GetTypeIdSize type = Ok size ∧
    ∀ f, f ∈ update_tables → ∃ e, f type = Ok e ∧ entry_size e = size.
Proof.
  destruct type;
    solve [left; intros f Hf; repeat (apply elem_of_cons in Hf as [->|Hf]; [by eexists|]);
           by apply elem_of_nil in Hf
          |right; eexists; split; [reflexivity|]; intros f Hf;
           repeat (apply elem_of_cons in Hf as [->|Hf]; [by eexists|]); by apply elem_of_nil in Hf].
Qed.

(** Merging one node into a mask. *)
Lemma MergeValidity_row u mask r :
  sorted_keys (entries u) → Forall (λ t, t < capacity mask)%nat (entries u).*1 → (r < capacity mask)%nat →
  RowIsValid (MergeValidity u mask) r =
    match value_in (entries u) r with Some b => b | None => RowIsValid mask r end ∧
  capacity (MergeValidity u mask) = capacity mask.
Proof.
  unfold MergeValidity. generalize (entries u) as es. intros es. revert mask.
  induction es as [|[t b] es IH]; intros mask Hs Hf Hr; [done|].
  apply sorted_cons in Hs as [Hs Hlt]. cbn in Hf. apply Forall_cons in Hf as [Ht Hf]. cbn [foldl].
  destruct (IH (ValidityMask_Set mask t b) Hs) as [Hv Hc].
  { by rewrite capacity_Set. } { by rewrite capacity_Set. }
  rewrite Hv, Hc, capacity_Set. split; [|done]. rewrite RowIsValid_Set by done. cbn [value_in].
  destruct (decide (t = r)) as [->|Hne].
  - rewrite (value_in_above es r r) by (done || lia). by rewrite decide_True.
  - destruct (value_in es r); [done|]. by rewrite decide_False.
Qed.

Lemma foldl_validity h k ls gs st tid mask r :
  Forall2 (node_rep h k) ls gs → (∀ n, n ∈ gs → sorted_keys (sn_entries n)) →
  (VS <= capacity mask)%nat → (r < VS)%nat →
  RowIsValid (foldl (λ a u, if skip_version st tid (version_number u) then MergeValidity u a else a)
    mask (nodes_at h ls)) r = read_row st tid gs (RowIsValid mask r) r.
Proof.
  intros Hf. revert mask.
  induction Hf as [|l n ls gs (u & Hu & Hv & He & Hlen & _ & Hlt) Hf IH]; intros mask Hs Hcap Hr; [done|].
  unfold nodes_at. cbn [omap list_omap]. rewrite Hu. cbn [foldl]. fold (nodes_at h ls).
  rewrite read_row_cons, Hv.
  destruct (skip_version st tid (sn_version n)); [|apply IH; [intros m Hm; apply Hs; by right|done..]].
  destruct (MergeValidity_row u mask r) as [Hrow Hc].
  - rewrite He. apply Hs. left.
  - rewrite entries_keys by done. eapply Forall_impl; [exact Hlt|]. cbn. lia.
  - lia.
  - rewrite IH; [|intros m Hm; apply Hs; by right|by rewrite Hc|done].
    rewrite Hrow, He. by destruct (value_in (sn_entries n) r).
Qed.

(** updates of NULL-ness are versioned like values: fetching the updates of
    a validity column into the mask of a vector gives, for every row, the
    newest validity that the snapshot sees. *)
Theorem FetchUpdates_validity_snapshot g t k es gs mask r :
  vector_view g k es gs → snapshot (start_time t) (transaction_id t) →
  reader_ok (start_time t) (transaction_id t) gs → (VS <= capacity mask)%nat → (r < VS)%nat →
  let newest := current (RowIsValid mask) es r in
  RowIsValid (FetchUpdates_validity g t k mask) r =
    newest_visible (start_time t) (transaction_id t) (history gs newest r) newest.
Proof.
  intros [Hinv Hv] Hsnap Hrd Hcap Hr newest. unfold FetchUpdates_validity.
  destruct (root_at g k) as [base|]; cycle 1.
  { destruct Hv as [-> ->]. cbn. by repeat case_match. }
  destruct Hv as [ls Hrep]. unfold UpdateMergeValidity, UpdatesForTransaction.
  rewrite (proj1 (rep_chain _ _ _ _ _ _ Hrep)).
  rewrite (foldl_validity (us_heap g) k _ _ _ _ mask r (rep_all _ _ _ _ _ _ Hrep)); [| |done|done].
  - rewrite read_row_cons. cbn [base_node sn_version]. rewrite skip_base by done.
    eapply read_row_newest; [done|done|apply Hsnap].
  - intros n [->|Hn]%elem_of_cons; [apply (ci_base _ _ Hinv)|by apply (ci_nodes _ _ Hinv)].
Qed.

Lemma for_foldl_seq (data : list Z) stats count :
  for_ 0 count (λ i stats, NumericStatistics_Update stats (data !!! i)) stats =
  foldl (λ s i, NumericStatistics_Update s (data !!! i)) stats (seq 0 count).
Proof. unfold for_. by rewrite Nat.sub_0_r. Qed.

(** the statistics of a numeric update cover every value that is not NULL,
    and exactly the rows that are not NULL are selected for the update. *)
Theorem numeric_statistics_cover stats update count i :
  i ∈ (TemplatedUpdateNumericStatistics stats update count).2 ↔
    (i < count)%nat ∧ RowIsValid (fv_validity update) i = true ∧
    ns_min (TemplatedUpdateNumericStatistics stats update count).1 <= fv_data update !!! i <=
    ns_max (TemplatedUpdateNumericStatistics stats update count).1.
Proof.
  assert ((TemplatedUpdateNumericStatistics stats update count).2 =
            List.filter (RowIsValid (fv_validity update)) (seq 0 count) ∧
          (TemplatedUpdateNumericStatistics stats update count).1 =
            foldl NumericStatistics_Update stats ((λ i, fv_data update !!! i) <$>
              List.filter (RowIsValid (fv_validity update)) (seq 0 count))) as [H2 H1].
  { rewrite foldl_fmap. unfold TemplatedUpdateNumericStatistics.
    destruct (fv_validity update) as [words|] eqn:Hval; cbn [AllValid].
    - apply (sel_loop (RowIsValid (Some words))).
    - cbn [fst snd]. rewrite filter_all by done. split; [done|]. apply for_foldl_seq. }
  rewrite H2, H1, elem_of_filter_seq. split; [|naive_solver]. intros [Hi Hv]. split_and!; [done|done|..];
    apply NumericStatistics_updates, list_elem_of_fmap; exists i; (split; [done|by apply elem_of_filter_seq]).
Qed.

(** the row of [FetchRow] is computed without the start of the segment.  In
    the second morsel of a table (102400 rows each), a transaction that wrote
    a row reads the old value back with [FetchRow], while [FetchUpdates] on
    the same vector returns the value it wrote. *)
Theorem FetchRow_start_defect :
  let start := (MORSEL_VECTOR_COUNT * STANDARD_VECTOR_SIZE)%nat in
  let t := Transaction_new 1 TRANSACTION_ID_START 0 in
  let update := mkFlatVector [42] None in
  let base := mkFlatVector (replicate STANDARD_VECTOR_SIZE 7) None in
  let g := UpdateSegment_new (T := Z) (V := FlatVector) start (NumericStatistics_new (- 2 ^ 63) (2 ^ 63 - 1)) in
  match UpdateSegment_Update g t update [(start + 3)%nat] base with
  | Ret g' _ =>
      UpdateSegment_FetchRow g' t (start + 3) 7 = 7 ∧
      FetchUpdates g' t 0 (fv_data base) !! 3%nat = Some 42
  | Raise _ _ => False
  end.
Proof. vm_compute. split; reflexivity. Qed.

(** ** Witnesses *)

(** A segment whose first vector was updated by one transaction: rows 3 and 5
    from 0 to 30 and 50. *)
Definition ex_stats : NumericStatistics := NumericStatistics_new (- 2 ^ 63) (2 ^ 63 - 1).

Definition ex_segment (v : Z) : UpdateSegment Z NumericStatistics :=
  mkUpdateSegment 0 (Some (Some 0%nat :: replicate 99 None))
    (<[0%nat := mkUpdateInfo (TRANSACTION_ID_START - 1) 0 [3%nat; 5%nat] [30; 50] None (Some 1%nat)]>
      {[1%nat := mkUpdateInfo v 0 [3%nat; 5%nat] [0; 0] (Some 0%nat) None]})
    ex_stats ex_stats.

Definition ex_entries : list (nat * Z) := [(3%nat, 30); (5%nat, 50)].

Definition ex_node (v : Z) : snode Z := mkSnode 1 v [(3%nat, 0); (5%nat, 0)].

Lemma ex_sorted {A} (a b : A) : sorted_keys [(3%nat, a); (5%nat, b)].
Proof. repeat constructor. Qed.

Lemma ex_chain_inv v : 1 < v → chain_inv ex_entries [ex_node v].
Proof.
  intros Hv. split.
  - apply ex_sorted.
  - intros n ->%list_elem_of_singleton. split; [apply ex_sorted|]. split; [done|].
    split; [done|]. by vm_compute.
  - repeat constructor.
  - apply NoDup_singleton.
Qed.

Lemma ex_view_node v : 1 < v → view_node (ex_segment v) 0 ex_entries [ex_node v] 1%nat (ex_node v).
Proof.
  intros Hv. split; [by apply ex_chain_inv|]. exists 0%nat, [], [], [], [].
  split; [done|]. split; [done|]. split; [done|].
  assert (Forall (λ t, t < VS)%nat [3%nat; 5%nat]) as Hlt.
  { repeat constructor; apply Nat.ltb_lt; by vm_compute. }
  split.
  - split; [done|]. eexists. split; [done|]. split; [done|]. split; [done|]. eexists. split; [done|]. done.
  - apply NoDup_ListNoDup. repeat constructor; cbn; lia.
  - eexists. split; [done|]. do 4 (split; [done|]). done.
  - constructor; [|constructor]. eexists. split; [done|]. do 4 (split; [done|]). done.
Qed.

Lemma ex_view v : 1 < v → vector_view (ex_segment v) 0 ex_entries [ex_node v].
Proof. intros Hv. by eapply view_node_view, ex_view_node. Qed.

(** A later transaction updates rows 4 and 5 of the committed segment. *)
Definition ex_transaction : Transaction := Transaction_new 3 (TRANSACTION_ID_START + 1) 0.

Lemma ex_snapshot : snapshot (start_time ex_transaction) (transaction_id ex_transaction).
Proof. vm_compute. split; [split|]; done. Qed.

Lemma ex_update_pre : update_pre (ex_segment 2) ex_transaction [4%nat; 5%nat] 0 ex_entries [ex_node 2].
Proof.
  split.
  - by vm_compute.
  - apply Nat.ltb_lt. by vm_compute.
  - done.
  - repeat constructor.
  - repeat constructor; try (apply Nat.ltb_lt; by vm_compute); apply Nat.leb_le; by vm_compute.
  - by apply ex_view.
  - apply ex_snapshot.
  - intros n ->%list_elem_of_singleton. by vm_compute.
Qed.

Lemma UpdateSegment_Update_spec_witness :
  update_pre (ex_segment 2) ex_transaction [4%nat; 5%nat] 0 ex_entries [ex_node 2] ∧
  ∃ g' created, UpdateSegment_Update (ex_segment 2) ex_transaction (mkFlatVector [400; 500] None)
    [4%nat; 5%nat] (mkFlatVector (replicate 1024 0) None) = Ret g' created ∧
  others_kept (ex_segment 2) g' 0.
Proof.
  split; [apply ex_update_pre|].
  pose proof (UpdateSegment_Update_spec (ex_segment 2) ex_transaction (mkFlatVector [400; 500] None)
    [4%nat; 5%nat] (mkFlatVector (replicate 1024 0) None) 0 ex_entries [ex_node 2] ex_update_pre) as H.
  destruct (UpdateSegment_Update _ _ _ _ _) as [g' c|g' e] eqn:Hu.
  - exists g', c. split; [done|]. destruct H as (_ & es' & gs' & _ & _ & Ho & _). exact Ho.
  - exfalso. revert Hu. vm_compute. discriminate.
Defined.

Lemma ex_reader st tid v : (v = tid → st = 1) → reader_ok st tid [ex_node v].
Proof. intros H n ->%list_elem_of_singleton Hv. by rewrite H. Qed.

Lemma FetchUpdates_snapshot_witness :
  vector_view (ex_segment 2) 0 ex_entries [ex_node 2] ∧
  FetchUpdates (ex_segment 2) ex_transaction 0 (replicate VS 0) !! 3%nat = Some 30.
Proof.
  split; [by apply ex_view|].
  rewrite (FetchUpdates_snapshot (ex_segment 2) ex_transaction 0 ex_entries [ex_node 2]).
  - by vm_compute.
  - by apply ex_view.
  - apply ex_snapshot.
  - by apply ex_reader.
  - apply length_replicate.
  - apply Nat.ltb_lt. by vm_compute.
Defined.

Lemma FetchRow_FetchUpdates_witness :
  UpdateSegment_FetchRow (ex_segment 2) ex_transaction 3 0 = 30 ∧
  Some (UpdateSegment_FetchRow (ex_segment 2) ex_transaction 3 0) =
    FetchUpdates (ex_segment 2) ex_transaction (3 / VS) (replicate VS 0) !! (3 mod VS)%nat.
Proof.
  split; [by vm_compute|].
  apply (FetchRow_FetchUpdates (ex_segment 2) ex_transaction ex_entries [ex_node 2]).
  - done.
  - done.
  - by apply ex_view.
  - apply ex_snapshot.
  - apply length_replicate.
  - by vm_compute.
Defined.

Lemma UpdateInfo_Commit_spec_witness :
  view_node (ex_segment TRANSACTION_ID_START) 0 ex_entries [ex_node TRANSACTION_ID_START] 1%nat
    (ex_node TRANSACTION_ID_START) ∧
  vector_view (UpdateInfo_Commit (ex_segment TRANSACTION_ID_START) 1%nat 2) 0 ex_entries [ex_node 2].
Proof.
  split; [by apply ex_view_node|].
  refine (proj1 (UpdateInfo_Commit_spec (ex_segment TRANSACTION_ID_START) 0 ex_entries
    [ex_node TRANSACTION_ID_START] 1%nat (ex_node TRANSACTION_ID_START) (λ _, 0) 2 _ _ _ _)).
  - by apply ex_view_node.
  - done.
  - intros m ->%list_elem_of_singleton. by vm_compute.
  - by vm_compute.
Defined.

Lemma UpdateSegment_RollbackUpdate_spec_witness :
  view_node (ex_segment TRANSACTION_ID_START) 0 ex_entries [ex_node TRANSACTION_ID_START] 1%nat
    (ex_node TRANSACTION_ID_START) ∧
  vector_view (UpdateSegment_RollbackUpdate (ex_segment TRANSACTION_ID_START) 1%nat) 0
    [(3%nat, 0); (5%nat, 0)] [].
Proof.
  split; [by apply ex_view_node|].
  refine (proj1 (UpdateSegment_RollbackUpdate_spec (ex_segment TRANSACTION_ID_START) 0
    ex_entries [ex_node TRANSACTION_ID_START] 1%nat (ex_node TRANSACTION_ID_START) (λ _, 0) _ _)).
  - by apply ex_view_node.
  - done.
Defined.

Lemma CleanupUpdate_spec_witness :
  view_node (ex_segment 2) 0 ex_entries [ex_node 2] 1%nat (ex_node 2) ∧
  vector_view (CleanupUpdate (ex_segment 2) 1%nat) 0 ex_entries [] ∧
  snapshot_value 3 (TRANSACTION_ID_START + 1) (λ _, 0) ex_entries [] 5 =
  snapshot_value 3 (TRANSACTION_ID_START + 1) (λ _, 0) ex_entries [ex_node 2] 5.
Proof.
  split; [by apply ex_view_node|].
  destruct (CleanupUpdate_spec (ex_segment 2) 0 ex_entries [ex_node 2] 1%nat (ex_node 2)
    (λ _, 0) (ex_view_node 2 eq_refl)) as [Hv Hs].
  split; [exact Hv|]. exact (Hs 3 (TRANSACTION_ID_START + 1) 5%nat ltac:(done)).
Defined.

(** A segment of a validity column: row 3 was set to NULL. *)
Definition ex_validity : UpdateSegment bool ValidityStatistics :=
  mkUpdateSegment 0 (Some (Some 0%nat :: replicate 99 None))
    (<[0%nat := mkUpdateInfo (TRANSACTION_ID_START - 1) 0 [3%nat; 5%nat] [false; true] None (Some 1%nat)]>
      {[1%nat := mkUpdateInfo 2 0 [3%nat; 5%nat] [true; false] (Some 0%nat) None]})
    (mkValidityStatistics true) (mkValidityStatistics true).

Lemma ex_validity_view :
  vector_view ex_validity 0 [(3%nat, false); (5%nat, true)] [mkSnode 1 2 [(3%nat, true); (5%nat, false)]].
Proof.
  assert (Forall (λ t, t < VS)%nat [3%nat; 5%nat]) as Hlt.
  { repeat constructor; apply Nat.ltb_lt; by vm_compute. }
  split; [|exists [1%nat]]; split.
  - apply ex_sorted.
  - intros n ->%list_elem_of_singleton. split; [apply ex_sorted|]. split; [done|].
    split; [done|]. by vm_compute.
  - repeat constructor.
  - apply NoDup_singleton.
  - split; [done|]. eexists. split; [done|]. split; [done|]. split; [done|]. eexists. split; [done|]. done.
  - apply NoDup_ListNoDup. repeat constructor; cbn; lia.
  - eexists. split; [done|]. do 4 (split; [done|]). done.
  - constructor; [|constructor]. eexists. split; [done|]. do 4 (split; [done|]). done.
Qed.

Lemma FetchUpdates_validity_snapshot_witness :
  RowIsValid (FetchUpdates_validity ex_validity (Transaction_new 1 (TRANSACTION_ID_START + 1) 0) 0
    (ValidityMask_Initialize VS)) 3 = true ∧
  RowIsValid (FetchUpdates_validity ex_validity (Transaction_new 3 (TRANSACTION_ID_START + 1) 0) 0
    (ValidityMask_Initialize VS)) 3 = false.
Proof.
  split;
    (rewrite (FetchUpdates_validity_snapshot ex_validity _ 0 [(3%nat, false); (5%nat, true)]
       [mkSnode 1 2 [(3%nat, true); (5%nat, false)]]);
     [by vm_compute|apply ex_validity_view|by vm_compute
     |by intros n ->%list_elem_of_singleton|apply Nat.leb_le; by vm_compute|apply Nat.ltb_lt; by vm_compute]).
Defined.
