(* ===== verification/TransactionManager.v ===== *)
(** * The transaction manager

    Models src/src/transaction/transaction_manager.cpp, its header, and the
    query numbers that src/src/main/client_context.cpp assigns.  The manager
    hands out start times, transaction ids and commit ids, decides when the
    undo buffer of a committed transaction can be cleaned up and when it can be
    freed, and keeps checkpoints apart from running transactions.

    A pointer to a transaction is its [transaction_id].  What a transaction
    does to the stored data is behind the class [TransactionEffects], as the
    manager only calls [Commit], [Rollback] and [Cleanup]; the class
    [SnapshotStore] states what it relies on.  [CommitTransaction] and
    [Checkpoint] release the transaction lock while they lock the clients, so
    each is two atomic parts, and a run of the system may interleave other
    operations between them.

    Theorems: the identifiers stay ordered in every reachable state; an
    operation never changes what another running transaction reads; garbage
    collection removes exactly what no running transaction or query needs; a
    forced checkpoint finds no transaction left; the checkpoint flag is held by
    at most one thread and always released.  The store of
    src/src/storage/table/update_segment.cpp keeps the promises (SegmentStore.v). *)

From S2P Require Import Prelude Constants.

(** ** State *)

Record StoredCatalogSet : Set := mkStoredCatalogSet {
  stored_set : nat;
  cs_highest_active_query : Z;
}.

Record TransactionManager : Set := mkTransactionManager {
  current_query_number : Z;
  current_start_timestamp : Z;
  current_transaction_id : Z;
  active_transactions : list Transaction;
  recently_committed_transactions : list Transaction;
  old_transactions : list Transaction;
  old_catalog_sets : list StoredCatalogSet;
  thread_is_checkpointing : bool;
}.

Definition TransactionManager_new : TransactionManager :=
  mkTransactionManager 1 0 TRANSACTION_ID_START [] [] [] [] false.

Definition set_checkpointing (b : bool) (m : TransactionManager) : TransactionManager :=
  mkTransactionManager (current_query_number m) (current_start_timestamp m) (current_transaction_id m)
    (active_transactions m) (recently_committed_transactions m) (old_transactions m)
    (old_catalog_sets m) b.

Definition set_active (ts : list Transaction) (m : TransactionManager) : TransactionManager :=
  mkTransactionManager (current_query_number m) (current_start_timestamp m) (current_transaction_id m)
    ts (recently_committed_transactions m) (old_transactions m)
    (old_catalog_sets m) (thread_is_checkpointing m).

(** The transaction behind a pointer, and a write through it. *)
Definition find_transaction (tid : Z) (ts : list Transaction) : option Transaction :=
  List.find (λ t, transaction_id t =? tid) ts.

Definition update_transaction (tid : Z) (f : Transaction → Transaction) (m : TransactionManager)
    : TransactionManager :=
  set_active ((λ t, if transaction_id t =? tid then f t else t) <$> active_transactions m) m.

(** ** What the manager calls *)

Class TransactionEffects (DB : Type) : Type := {
  (** [StorageManager::InMemory] *)
  InMemory : DB → bool;
  (** [Catalog::GetCatalogVersion] *)
  GetCatalogVersion : DB → Z;
  (** [Transaction::ChangesMade] *)
  ChangesMade : DB → Transaction → bool;
  (** [Transaction::AutomaticCheckpoint] *)
  AutomaticCheckpoint : DB → Transaction → bool;
  (** [Transaction::Commit]: the error message is empty on success *)
  Commit : DB → Transaction → Z → bool → DB * string;
  (** [Transaction::Rollback] *)
  Rollback : DB → Transaction → DB;
  (** [Transaction::Cleanup] *)
  Cleanup : DB → Transaction → DB;
  (** [StorageManager::CreateCheckpoint] *)
  CreateCheckpoint : DB → DB;
}.

Section manager.
Context {DB : Type} `{!TransactionEffects DB}.
Implicit Types (m : TransactionManager) (db : DB) (t : Transaction) (ts : list Transaction).

(** ** Operations *)

Definition StartTransaction m db : res (TransactionManager * Transaction) :=
  if TRANSACTION_ID_START <=? current_start_timestamp m then
    Throw (Exception "Cannot start more transactions, ran out of transaction identifiers!")
  else
    let start_time := current_start_timestamp m in
    let transaction_id := current_transaction_id m in
    let t := Transaction_new start_time transaction_id (GetCatalogVersion db) in
    Ok (mkTransactionManager (current_query_number m) (u64 (start_time + 1)) (u64 (transaction_id + 1))
          (active_transactions m ++ [t]) (recently_committed_transactions m) (old_transactions m)
          (old_catalog_sets m) (thread_is_checkpointing m), t).

Definition GetQueryNumber m : Z * TransactionManager :=
  (current_query_number m,
   mkTransactionManager (u64 (current_query_number m + 1)) (current_start_timestamp m)
     (current_transaction_id m) (active_transactions m) (recently_committed_transactions m)
     (old_transactions m) (old_catalog_sets m) (thread_is_checkpointing m)).

(** The active query of a transaction, set when a query starts and reset when
    it ends. *)
Definition set_active_query (q : Z) t : Transaction :=
  mkTransaction (start_time t) (transaction_id t) (commit_id t) (highest_active_query t) q
    (catalog_version t) (is_invalidated t).

Definition BeginQuery m (tid : Z) : TransactionManager :=
  let '(q, m) := GetQueryNumber m in update_transaction tid (set_active_query q) m.

Definition EndQuery m (tid : Z) : TransactionManager :=
  update_transaction tid (set_active_query MAXIMUM_QUERY_ID) m.

Definition CanCheckpoint m db (current : option Z) : bool :=
  if InMemory db then false
  else if negb (bool_decide (recently_committed_transactions m = []) &&
                bool_decide (old_transactions m = [])) then false
  else forallb (λ t, bool_decide (Some (transaction_id t) = current)) (active_transactions m).

(** The loop over the recently committed transactions: what is cleaned up
    ([highest_active_query] set), what stays, the data and the lowest stored
    query. *)
Fixpoint cleanup_loop (query_number lowest_start_time : Z) ts db (lowest_stored_query : Z)
    : list Transaction * list Transaction * DB * Z :=
  match ts with
  | [] => ([], [], db, lowest_stored_query)
  | t :: ts' =>
      let lowest_stored_query := Z.min (start_time t) lowest_stored_query in
      if commit_id t <? lowest_start_time then
        let '(cleaned, kept, db, lowest) :=
          cleanup_loop query_number lowest_start_time ts' (Cleanup db t) lowest_stored_query in
        (Transaction_set_highest_active_query t query_number :: cleaned, kept, db, lowest)
      else ([], ts, db, lowest_stored_query)
  end.

Fixpoint drop_while {A} (p : A → bool) (l : list A) : list A :=
  match l with
  | [] => []
  | x :: l' => if p x then drop_while p l' else l
  end.

Definition lowest_of (f : Transaction → Z) (init : Z) ts : Z :=
  foldl (λ low t, Z.min low (f t)) init ts.

(** A transaction that is not in the list is excluded by an assertion. *)
Definition RemoveTransaction m db (tid : Z) : TransactionManager * DB :=
  match find_transaction tid (active_transactions m) with
  | None => (m, db)
  | Some current_transaction =>
      let others := List.filter (λ t, negb (transaction_id t =? tid)) (active_transactions m) in
      let lowest_start_time := lowest_of start_time TRANSACTION_ID_START others in
      let lowest_active_query := lowest_of active_query MAXIMUM_QUERY_ID others in
      let '(recent, old) :=
        if negb (commit_id current_transaction =? 0) then
          (recently_committed_transactions m ++ [current_transaction], old_transactions m)
        else
          (recently_committed_transactions m,
           old_transactions m ++
             [Transaction_set_highest_active_query current_transaction (current_query_number m)]) in
      let '(cleaned, recent, db, lowest_stored_query) :=
        cleanup_loop (current_query_number m) lowest_start_time recent db lowest_start_time in
      let old := old ++ cleaned in
      let old :=
        if bool_decide (others = []) then []
        else drop_while (λ t, negb (lowest_active_query <=? highest_active_query t)) old in
      let sets :=
        drop_while (λ s, negb (lowest_stored_query <=? cs_highest_active_query s)) (old_catalog_sets m) in
      (mkTransactionManager (current_query_number m) (current_start_timestamp m)
         (current_transaction_id m) others recent old sets (thread_is_checkpointing m), db)
  end.

(** First part of [CommitTransaction], up to where it releases the transaction
    lock: whether it holds the checkpoint lock. *)
Definition CommitTransaction_lock m db (tid : Z) : TransactionManager * bool :=
  let checkpoint := if thread_is_checkpointing m then false else CanCheckpoint m db (Some tid) in
  match find_transaction tid (active_transactions m) with
  | Some t =>
      if checkpoint && AutomaticCheckpoint db t then (set_checkpointing true m, true) else (m, false)
  | None => (m, false)
  end.

(** The rest of [CommitTransaction]. *)
Definition CommitTransaction_finish m db (tid : Z) (is_locked : bool)
    : TransactionManager * DB * string :=
  match find_transaction tid (active_transactions m) with
  | None => (m, db, "")
  | Some t =>
      let checkpoint := is_locked && CanCheckpoint m db (Some tid) in
      let commit_id := current_start_timestamp m in
      let m := mkTransactionManager (current_query_number m) (u64 (commit_id + 1))
                 (current_transaction_id m) (active_transactions m)
                 (recently_committed_transactions m) (old_transactions m) (old_catalog_sets m)
                 (thread_is_checkpointing m) in
      let t := Transaction_set_commit_id t commit_id in
      let '(db, error) := Commit db t commit_id checkpoint in
      let failed := negb (bool_decide (error = ""%string)) in
      let checkpoint := checkpoint && negb failed in
      let t := if failed then Transaction_set_commit_id t 0 else t in
      let db := if failed then Rollback db t else db in
      let m := update_transaction tid (λ _, t) m in
      let '(m, db) := RemoveTransaction m db tid in
      let db := if checkpoint then CreateCheckpoint db else db in
      (if is_locked then set_checkpointing false m else m, db, error)
  end.

Definition CommitTransaction m db (tid : Z) : TransactionManager * DB * string :=
  let '(m, is_locked) := CommitTransaction_lock m db tid in
  CommitTransaction_finish m db tid is_locked.

Definition RollbackTransaction m db (tid : Z) : TransactionManager * DB :=
  match find_transaction tid (active_transactions m) with
  | None => (m, db)
  | Some t => RemoveTransaction m (Rollback db t) tid
  end.

(** First part of [Checkpoint]: [None] when there is nothing to do. *)
Definition Checkpoint_lock m db : res (option TransactionManager) :=
  if InMemory db then Ok None
  else if thread_is_checkpointing m then
    Throw (TransactionException "Cannot CHECKPOINT: another thread is checkpointing right now")
  else Ok (Some (set_checkpointing true m)).

(** The loop of a forced checkpoint always removes the first transaction: the
    index is decremented in the body. *)
Fixpoint force_loop (fuel : nat) m db : TransactionManager * DB :=
  match fuel with
  | O => (m, db)
  | S fuel =>
      match active_transactions m with
      | [] => (m, db)
      | t :: _ =>
          let '(m, db) := RemoveTransaction m (Rollback db t) (transaction_id t) in
          force_loop fuel m db
      end
  end.

(** The rest of [Checkpoint]; every exit releases the checkpoint lock. *)
Definition Checkpoint_finish m db (tid : Z) (force : bool) : out (TransactionManager * DB) () :=
  match find_transaction tid (active_transactions m) with
  | None => Raise (set_checkpointing false m, db) (UndefinedBehaviour "no active transaction")
  | Some current =>
      if ChangesMade db current then
        Raise (set_checkpointing false m, db)
          (TransactionException "Cannot CHECKPOINT: the current transaction has transaction local changes")
      else if CanCheckpoint m db (Some tid) then
        Ret (set_checkpointing false m, CreateCheckpoint db) ()
      else if negb force then
        Raise (set_checkpointing false m, db) (TransactionException "Cannot CHECKPOINT: there are other transactions")
      else
        let '(m, db) := force_loop (length (active_transactions m)) m db in
        Ret (set_checkpointing false m, CreateCheckpoint db) ()
  end.

Definition AddCatalogSet m (catalog_set : nat) : TransactionManager :=
  if bool_decide (active_transactions m = []) then m
  else
    mkTransactionManager (current_query_number m) (current_start_timestamp m)
      (current_transaction_id m) (active_transactions m) (recently_committed_transactions m)
      (old_transactions m)
      (old_catalog_sets m ++ [mkStoredCatalogSet catalog_set (current_start_timestamp m)])
      (thread_is_checkpointing m).
End manager.

(** ** What the manager relies on

    [view db st tid o] is what a transaction with start time [st] and id [tid]
    reads when it looks at [o].  [store_ok db next active recent] relates the data to the running
    transactions, as pairs of start time and id, and to the committed ones
    that are not cleaned up, with their commit id; no id from [next] on was ever
    given to a transaction. *)

Definition key (t : Transaction) : Z * Z := (start_time t, transaction_id t).

Definition ckey (t : Transaction) : Z * Z * Z := (key t, commit_id t).

Definition without (tid : Z) (act : list (Z * Z)) : list (Z * Z) :=
  List.filter (λ k, negb (k.2 =? tid)) act.

(** [Transaction::Commit], with the rollback if it fails: [t] and the data when
    [RemoveTransaction] is called. *)
Definition commit_result `{TransactionEffects DB} (db : DB) (t : Transaction) (c : Z) (checkpoint : bool) : Transaction * DB * string :=
  let t := Transaction_set_commit_id t c in
  let '(db, error) := Commit db t c checkpoint in
  if bool_decide (error = ""%string) then (t, db, error)
  else (Transaction_set_commit_id t 0, Rollback db (Transaction_set_commit_id t 0), error).

Class SnapshotStore (DB Obs Val : Type) `{!TransactionEffects DB} : Type := {
  view : DB → Z → Z → Obs → Val;
  store_ok : DB → Z → list (Z * Z) → list (Z * Z * Z) → Prop;
  (** reads and writes of a running transaction *)
  works : DB → Z * Z → DB → Prop;
}.

(** The same view for all transactions in [act]. *)
Definition same_views {DB Obs Val} `{SnapshotStore DB Obs Val} (act : list (Z * Z)) (db db' : DB) : Prop :=
  ∀ st tid o, (st, tid) ∈ act → view db' st tid o = view db st tid o.

Class SnapshotStoreLaws (DB Obs Val : Type) `{SnapshotStore DB Obs Val} : Prop := {
  ok_start db next act rec st tid :
    store_ok db next act rec → next <= tid → Forall (λ k, k.1 < st ∧ k.2 < tid) act →
    Forall (λ r, r.2 < st ∧ r.1.2 < tid) rec →
    0 <= st < TRANSACTION_ID_START - 1 → TRANSACTION_ID_START <= tid < NOT_DELETED_ID →
    store_ok db (tid + 1) (act ++ [(st, tid)]) rec;
  ok_works db next act rec k db' :
    store_ok db next act rec → k ∈ act → works db k db' →
    store_ok db' next act rec ∧ same_views (without k.2 act) db db';
  ok_rollback db next act rec t :
    store_ok db next act rec → key t ∈ act →
    store_ok (Rollback db t) next (without (transaction_id t) act) rec ∧
    same_views (without (transaction_id t) act) db (Rollback db t);
  (** the manager rolls back a transaction whose commit failed *)
  ok_commit db next act rec t c checkpoint t' db' error :
    store_ok db next act rec → key t ∈ act → Forall (λ k, k.1 < c) act → Forall (λ r, r.2 < c) rec →
    c < TRANSACTION_ID_START - 1 → commit_result db t c checkpoint = (t', db', error) →
    store_ok db' next (without (transaction_id t) act)
      (if bool_decide (error = ""%string) then rec ++ [(key t, c)] else rec) ∧
    same_views (without (transaction_id t) act) db db';
  ok_cleanup db next act rec t :
    store_ok db next act (ckey t :: rec) → Forall (λ k, commit_id t < k.1) act →
    store_ok (Cleanup db t) next act rec ∧ same_views act db (Cleanup db t);
  (** a checkpoint is only asked for without other transactions *)
  ok_checkpoint db next act :
    store_ok db next act [] → (length act <= 1)%nat →
    store_ok (CreateCheckpoint db) next act [] ∧ same_views act db (CreateCheckpoint db);
}.

(** ** Runs of the system *)

Section system.
Context {DB Obs Val : Type} `{SnapshotStore DB Obs Val}.

(** The thread that holds the checkpoint lock while the transaction lock is
    released, by its transaction: in [CommitTransaction] or in [Checkpoint]. *)
Inductive checkpointer : Set :=
| Committing (tid : Z)
| Checkpointing (tid : Z) (force : bool).

Definition checkpointer_tid (p : checkpointer) : Z :=
  match p with Committing tid => tid | Checkpointing tid _ => tid end.

Record system : Type := mkSystem {
  sys_manager : TransactionManager;
  sys_db : DB;
  sys_checkpointer : option checkpointer;
}.

Definition system_new (db : DB) : system := mkSystem TransactionManager_new db None.

(** The transaction that a thread works for: active, and not waiting for the
    client locks. *)
Definition may_act (s : system) (tid : Z) : Prop :=
  tid ∈ transaction_id <$> active_transactions (sys_manager s) ∧
  checkpointer_tid <$> sys_checkpointer s ≠ Some tid.

(** One operation, with the transaction that performs it. *)
Inductive step : option Z → system → system → Prop :=
| step_start m db p m' t :
    StartTransaction m db = Ok (m', t) → step None (mkSystem m db p) (mkSystem m' db p)
| step_begin_query m db p tid :
    may_act (mkSystem m db p) tid →
    step (Some tid) (mkSystem m db p) (mkSystem (BeginQuery m tid) db p)
| step_end_query m db p tid :
    may_act (mkSystem m db p) tid →
    step (Some tid) (mkSystem m db p) (mkSystem (EndQuery m tid) db p)
| step_work m db p t db' :
    may_act (mkSystem m db p) (transaction_id t) → t ∈ active_transactions m → works db (key t) db' →
    step (Some (transaction_id t)) (mkSystem m db p) (mkSystem m db' p)
| step_commit m db p tid m' db' error :
    may_act (mkSystem m db p) tid → CommitTransaction_lock m db tid = (m, false) →
    CommitTransaction_finish m db tid false = (m', db', error) →
    step (Some tid) (mkSystem m db p) (mkSystem m' db' p)
| step_commit_lock m db p tid m' :
    may_act (mkSystem m db p) tid → CommitTransaction_lock m db tid = (m', true) →
    step (Some tid) (mkSystem m db p) (mkSystem m' db (Some (Committing tid)))
| step_commit_finish m db tid m' db' error :
    CommitTransaction_finish m db tid true = (m', db', error) →
    step (Some tid) (mkSystem m db (Some (Committing tid))) (mkSystem m' db' None)
| step_rollback m db p tid m' db' :
    may_act (mkSystem m db p) tid → RollbackTransaction m db tid = (m', db') →
    step (Some tid) (mkSystem m db p) (mkSystem m' db' p)
| step_checkpoint_lock m db p tid force m' :
    may_act (mkSystem m db p) tid → Checkpoint_lock m db = Ok (Some m') →
    step (Some tid) (mkSystem m db p) (mkSystem m' db (Some (Checkpointing tid force)))
| step_checkpoint_finish m db tid force m' db' :
    out_state (Checkpoint_finish m db tid force) = (m', db') →
    step (Some tid) (mkSystem m db (Some (Checkpointing tid force))) (mkSystem m' db' None)
| step_add_catalog_set m db p tid set :
    may_act (mkSystem m db p) tid →
    step (Some tid) (mkSystem m db p) (mkSystem (AddCatalogSet m set) db p).

(** A run of [n] operations. *)
Definition run (n : nat) (s s' : system) : Prop := nsteps (λ s s', ∃ l, step l s s') n s s'.

(** *** The invariant *)

Record manager_inv (m : TransactionManager) : Prop := {
  mi_query : 1 <= current_query_number m;
  mi_start : 0 <= current_start_timestamp m;
  mi_id : TRANSACTION_ID_START <= current_transaction_id m;
  mi_active : Forall (λ t, 0 <= start_time t < current_start_timestamp m ∧
      TRANSACTION_ID_START <= transaction_id t < current_transaction_id m ∧ commit_id t = 0)
    (active_transactions m);
  mi_active_order : StronglySorted (λ a b, start_time a < start_time b ∧ transaction_id a < transaction_id b)
    (active_transactions m);
  mi_recent : Forall (λ r, 0 <= start_time r < commit_id r ∧ commit_id r < current_start_timestamp m ∧
      transaction_id r < current_transaction_id m)
    (recently_committed_transactions m);
  mi_recent_order : StronglySorted (λ a b, commit_id a < commit_id b) (recently_committed_transactions m);
  mi_distinct : ∀ r a, r ∈ recently_committed_transactions m → a ∈ active_transactions m →
    commit_id r ≠ start_time a;
  mi_needed : ∀ r, r ∈ recently_committed_transactions m →
    ∃ a, a ∈ active_transactions m ∧ start_time a < commit_id r;
  mi_old : Forall (λ t, highest_active_query t <= current_query_number m) (old_transactions m);
  mi_old_order : StronglySorted (λ a b, highest_active_query a <= highest_active_query b) (old_transactions m);
  mi_idle : active_transactions m = [] → old_transactions m = [];
  mi_sets : Forall (λ s, cs_highest_active_query s <= current_start_timestamp m) (old_catalog_sets m);
  mi_sets_order : StronglySorted (λ a b, cs_highest_active_query a <= cs_highest_active_query b)
    (old_catalog_sets m);
}.

Record system_inv (n : nat) (s : system) : Prop := {
  si_manager : manager_inv (sys_manager s);
  si_query : current_query_number (sys_manager s) <= 1 + Z.of_nat n;
  si_start : current_start_timestamp (sys_manager s) <= Z.of_nat n;
  si_id : current_transaction_id (sys_manager s) <= TRANSACTION_ID_START + Z.of_nat n;
  si_flag : thread_is_checkpointing (sys_manager s) = bool_decide (is_Some (sys_checkpointer s));
  si_checkpointer : ∀ p, sys_checkpointer s = Some p →
    checkpointer_tid p ∈ transaction_id <$> active_transactions (sys_manager s);
  si_store : store_ok (sys_db s) (current_transaction_id (sys_manager s)) (key <$> active_transactions (sys_manager s))
    (ckey <$> recently_committed_transactions (sys_manager s));
}.
End system.
Arguments system : clear implicits.

(** ** Lemmas *)

Section list_lemmas.
Context {A : Type}.
Implicit Types (l : list A) (R : relation A) (p : A → bool).

Lemma elem_of_filter_b p l x : x ∈ List.filter p l ↔ x ∈ l ∧ p x = true.
Proof. by rewrite !list_elem_of_In, filter_In. Qed.

Lemma StronglySorted_filter R p l : StronglySorted R l → StronglySorted R (List.filter p l).
Proof.
  induction 1 as [|x l Hs IH Hf]; cbn; [constructor|]. destruct (p x); [|done].
  constructor; [done|]. apply Forall_forall. intros y [Hy _]%elem_of_filter_b.
  rewrite Forall_forall in Hf. auto.
Qed.

Lemma Forall_filter_b (P : A → Prop) p l : Forall P l → Forall P (List.filter p l).
Proof. rewrite !Forall_forall. intros Hl x [Hx _]%elem_of_filter_b. auto. Qed.

Lemma StronglySorted_snoc R l x : StronglySorted R l → Forall (λ y, R y x) l → StronglySorted R (l ++ [x]).
Proof.
  induction 1 as [|y l Hs IH Hf]; intros Hx; cbn.
  - repeat constructor.
  - apply Forall_cons in Hx as [Hy Hx]. constructor; [by apply IH|]. apply Forall_app. by repeat constructor.
Qed.

Lemma StronglySorted_suffix R l1 l2 : StronglySorted R (l1 ++ l2) → StronglySorted R l2.
Proof. induction l1 as [|x l1 IH]; [done|]. cbn. intros [Hs _]%StronglySorted_inv. auto. Qed.

(** [drop_while] removes a prefix. *)
Lemma drop_while_spec p l :
  ∃ dropped, l = dropped ++ drop_while p l ∧ Forall (λ x, p x = true) dropped ∧
    ∀ x l', drop_while p l = x :: l' → p x = false.
Proof.
  induction l as [|x l (d & Hd & Hf & Hh)].
  - by exists [].
  - cbn. destruct (p x) eqn:Hp.
    + exists (x :: d). cbn. split; [by f_equal|]. split; [by constructor|]. exact Hh.
    + exists []. split; [done|]. split; [constructor|]. by intros ? ? [= <- <-].
Qed.

(** In a list sorted by [f], what is below a bound is a prefix. *)
Lemma drop_while_sorted (f : A → Z) (b : Z) l :
  StronglySorted (λ x y, f x <= f y) l →
  drop_while (λ x, negb (b <=? f x)) l = List.filter (λ x, b <=? f x) l.
Proof.
  induction 1 as [|x l Hs IH Hf]; [done|]. cbn. destruct (Z.leb_spec b (f x)) as [Hb|Hb]; cbn; [|done].
  f_equal. symmetry. clear IH Hs. induction Hf as [|y l Hy Hf IH]; [done|]. cbn.
  destruct (Z.leb_spec b (f y)); [|lia]. by f_equal.
Qed.
End list_lemmas.

Lemma find_transaction_Some tid ts t :
  find_transaction tid ts = Some t → t ∈ ts ∧ transaction_id t = tid.
Proof.
  intros [Hin Heq]%find_some. rewrite list_elem_of_In. by apply Z.eqb_eq in Heq.
Qed.

Lemma find_transaction_in tid ts :
  tid ∈ transaction_id <$> ts → ∃ t, find_transaction tid ts = Some t.
Proof.
  intros (t & -> & Ht)%list_elem_of_fmap.
  destruct (find_transaction (transaction_id t) ts) as [t'|] eqn:Hf; [by exists t'|].
  apply list_elem_of_In, (find_none _ _ Hf) in Ht. by rewrite Z.eqb_refl in Ht.
Qed.

Lemma without_key tid ts :
  without tid (key <$> ts) = key <$> List.filter (λ t, negb (transaction_id t =? tid)) ts.
Proof.
  induction ts as [|t ts IH]; [done|]. cbn. unfold without in IH.
  by destruct (transaction_id t =? tid); cbn; rewrite IH.
Qed.

Lemma lowest_of_spec f init ts :
  lowest_of f init ts <= init ∧ Forall (λ t, lowest_of f init ts <= f t) ts ∧
  (lowest_of f init ts = init ∨ ∃ t, t ∈ ts ∧ f t = lowest_of f init ts).
Proof.
  unfold lowest_of. revert init. induction ts as [|t ts IH]; intros init; cbn [foldl].
  - split; [lia|]. split; [constructor|]. by left.
  - destruct (IH (Z.min init (f t))) as (Hi & Hf & He). split; [lia|]. split.
    + constructor; [lia|done].
    + destruct He as [He|(x & Hx & He)].
      * destruct (Z.min_spec init (f t)) as [[_ Hm]|[_ Hm]]; [left; lia|].
        right. exists t. split; [left|lia].
      * right. exists x. split; [by right|done].
Qed.

(** Sorted by id, a transaction is its id. *)
Lemma active_unique ts a b :
  StronglySorted (λ a b, start_time a < start_time b ∧ transaction_id a < transaction_id b) ts →
  a ∈ ts → b ∈ ts → transaction_id a = transaction_id b → a = b.
Proof.
  induction 1 as [|t ts Hs IH Hf]; [by intros ?%elem_of_nil|].
  rewrite Forall_forall in Hf.
  intros [->|Ha]%elem_of_cons [->|Hb]%elem_of_cons Heq; [done| | |auto].
  - specialize (Hf b Hb). cbn in Hf. lia.
  - specialize (Hf a Ha). cbn in Hf. lia.
Qed.

Section remove.
Context {DB Obs Val : Type} `{SnapshotStoreLaws DB Obs Val}.
Implicit Types (m : TransactionManager) (db : DB) (t : Transaction) (ts : list Transaction).

Lemma same_views_refl act db : same_views act db db.
Proof. by intros st tid o _. Qed.

Lemma same_views_trans act db1 db2 db3 :
  same_views act db1 db2 → same_views act db2 db3 → same_views act db1 db3.
Proof. intros H1 H2 st tid o Hin. by rewrite H2, H1. Qed.

Lemma same_views_without tid act db db' :
  same_views act db db' → same_views (without tid act) db db'.
Proof. intros Hv st i o [Hin _]%elem_of_filter_b. by apply Hv. Qed.

(** The loop cleans up a prefix: what was committed before every running
    transaction started. *)
Lemma cleanup_loop_list q low ts db stored :
  let '(cleaned, kept, _, _) := cleanup_loop q low ts db stored in
  ∃ dropped, ts = dropped ++ kept ∧
    cleaned = (λ t, Transaction_set_highest_active_query t q) <$> dropped ∧
    Forall (λ t, commit_id t < low) dropped ∧
    ∀ r ts', kept = r :: ts' → low <= commit_id r.
Proof.
  revert db stored. induction ts as [|t ts IH]; intros db stored; cbn [cleanup_loop]; [by exists []|].
  destruct (Z.ltb_spec (commit_id t) low) as [Hlt|Hge].
  - specialize (IH (Cleanup db t) (Z.min (start_time t) stored)).
    destruct (cleanup_loop q low ts _ _) as [[[cleaned kept] db'] low'].
    destruct IH as (d & -> & -> & Hf & Hk). exists (t :: d). repeat split; [by constructor|done].
  - exists []. repeat split; [constructor|]. by intros ? ? [= <- <-].
Qed.

Lemma cleanup_loop_store q low ts db stored next act :
  store_ok db next act (ckey <$> ts) → Forall (λ k, low <= k.1) act →
  let '(_, kept, db', _) := cleanup_loop q low ts db stored in
  store_ok db' next act (ckey <$> kept) ∧ same_views act db db'.
Proof.
  revert db stored. induction ts as [|t ts IH]; intros db stored Hok Hact; cbn [cleanup_loop].
  { split; [done|apply same_views_refl]. }
  destruct (Z.ltb_spec (commit_id t) low) as [Hlt|Hge]; [|split; [done|apply same_views_refl]].
  cbn in Hok. destruct (ok_cleanup _ _ _ _ _ Hok) as [Hok' Hv].
  { eapply Forall_impl; [exact Hact|]. cbn. lia. }
  specialize (IH (Cleanup db t) (Z.min (start_time t) stored) Hok' Hact).
  destruct (cleanup_loop q low ts _ _) as [[[cleaned kept] db'] low'].
  destruct IH as [IH1 IH2]. split; [done|]. by eapply same_views_trans.
Qed.

(** What [RemoveTransaction] expects: [t] either has no commit id, or the
    latest timestamp. *)
Record remove_pre m (tid : Z) t : Prop := {
  rp_find : find_transaction tid (active_transactions m) = Some t;
  rp_query : 1 <= current_query_number m;
  rp_start : 0 <= current_start_timestamp m <= TRANSACTION_ID_START;
  rp_id : TRANSACTION_ID_START <= current_transaction_id m;
  rp_active : Forall (λ a, 0 <= start_time a < current_start_timestamp m ∧
      TRANSACTION_ID_START <= transaction_id a < current_transaction_id m ∧
      (transaction_id a ≠ tid → commit_id a = 0))
    (active_transactions m);
  rp_active_order : StronglySorted (λ a b, start_time a < start_time b ∧ transaction_id a < transaction_id b)
    (active_transactions m);
  rp_recent : Forall (λ r, 0 <= start_time r < commit_id r ∧ commit_id r < current_start_timestamp m ∧
      transaction_id r < current_transaction_id m)
    (recently_committed_transactions m);
  rp_recent_order : StronglySorted (λ a b, commit_id a < commit_id b) (recently_committed_transactions m);
  rp_distinct : ∀ r a, r ∈ recently_committed_transactions m → a ∈ active_transactions m →
    commit_id r ≠ start_time a;
  rp_commit : commit_id t ≠ 0 → start_time t < commit_id t < current_start_timestamp m ∧
    Forall (λ r, commit_id r < commit_id t) (recently_committed_transactions m) ∧
    Forall (λ a, start_time a < commit_id t) (active_transactions m);
  rp_old : Forall (λ t, highest_active_query t <= current_query_number m) (old_transactions m);
  rp_old_order : StronglySorted (λ a b, highest_active_query a <= highest_active_query b) (old_transactions m);
  rp_sets : Forall (λ s, cs_highest_active_query s <= current_start_timestamp m) (old_catalog_sets m);
  rp_sets_order : StronglySorted (λ a b, cs_highest_active_query a <= cs_highest_active_query b)
    (old_catalog_sets m);
}.

Definition others_of m (tid : Z) : list Transaction :=
  List.filter (λ t, negb (transaction_id t =? tid)) (active_transactions m).

Definition recent_with m t : list Transaction :=
  if negb (commit_id t =? 0) then recently_committed_transactions m ++ [t]
  else recently_committed_transactions m.

Definition old_with m t : list Transaction :=
  if negb (commit_id t =? 0) then old_transactions m
  else old_transactions m ++ [Transaction_set_highest_active_query t (current_query_number m)].

Lemma recent_old_with m t :
  (if negb (commit_id t =? 0) then (recently_committed_transactions m ++ [t], old_transactions m)
   else (recently_committed_transactions m, old_transactions m ++
     [Transaction_set_highest_active_query t (current_query_number m)])) = (recent_with m t, old_with m t).
Proof. unfold recent_with, old_with. by destruct (negb (commit_id t =? 0)). Qed.

Lemma others_elem m tid t a :
  remove_pre m tid t → a ∈ others_of m tid ↔ a ∈ active_transactions m ∧ transaction_id a ≠ tid.
Proof.
  intros _. unfold others_of. rewrite elem_of_filter_b, negb_true_iff, Z.eqb_neq. done.
Qed.

Lemma recent_with_ok m tid t :
  remove_pre m tid t →
  Forall (λ r, 0 <= start_time r < commit_id r ∧ commit_id r < current_start_timestamp m ∧
      transaction_id r < current_transaction_id m) (recent_with m t) ∧
  StronglySorted (λ a b, commit_id a < commit_id b) (recent_with m t) ∧
  ∀ r a, r ∈ recent_with m t → a ∈ others_of m tid → commit_id r ≠ start_time a.
Proof.
  intros Hpre. pose proof (rp_find _ _ _ Hpre) as [Ht Hid]%find_transaction_Some.
  pose proof (rp_active _ _ _ Hpre) as Hact. rewrite Forall_forall in Hact.
  unfold recent_with. destruct (Z.eqb_spec (commit_id t) 0) as [Hc|Hc]; cbn [negb].
  - split; [apply (rp_recent _ _ _ Hpre)|]. split; [apply (rp_recent_order _ _ _ Hpre)|].
    intros r a Hr [Ha _]%(others_elem _ _ _ _ Hpre). by apply (rp_distinct _ _ _ Hpre).
  - destruct (rp_commit _ _ _ Hpre Hc) as (Hb & Hrec & Hlt). specialize (Hact t Ht) as (? & ? & _).
    split; [|split].
    + apply Forall_app. split; [apply (rp_recent _ _ _ Hpre)|]. apply Forall_singleton. lia.
    + apply StronglySorted_snoc; [apply (rp_recent_order _ _ _ Hpre)|done].
    + intros r a [Hr| ->%list_elem_of_singleton]%elem_of_app [Ha _]%(others_elem _ _ _ _ Hpre).
      * by apply (rp_distinct _ _ _ Hpre).
      * rewrite Forall_forall in Hlt. specialize (Hlt a Ha). lia.
Qed.

(** The state after [RemoveTransaction], by its parts. *)
Lemma RemoveTransaction_parts m db tid t :
  remove_pre m tid t →
  let others := others_of m tid in
  let low := lowest_of start_time TRANSACTION_ID_START others in
  ∃ dropped kept stored,
    recent_with m t = dropped ++ kept ∧ Forall (λ r, commit_id r < low) dropped ∧
    Forall (λ r, low <= commit_id r) kept ∧
    let old := old_with m t ++
      ((λ r, Transaction_set_highest_active_query r (current_query_number m)) <$> dropped) in
    (RemoveTransaction m db tid).1 =
      mkTransactionManager (current_query_number m) (current_start_timestamp m) (current_transaction_id m)
        others kept
        (if bool_decide (others = []) then []
         else List.filter (λ o, lowest_of active_query MAXIMUM_QUERY_ID others <=? highest_active_query o) old)
        (List.filter (λ s, stored <=? cs_highest_active_query s) (old_catalog_sets m))
        (thread_is_checkpointing m) ∧
    StronglySorted (λ a b, highest_active_query a <= highest_active_query b) old ∧
    Forall (λ o, highest_active_query o <= current_query_number m) old.
Proof.
  intros Hpre others low. destruct (recent_with_ok _ _ _ Hpre) as (Hrf & Hrs & _).
  unfold RemoveTransaction. rewrite (rp_find _ _ _ Hpre). fold (others_of m tid). fold others. fold low.
  rewrite recent_old_with.
  pose proof (cleanup_loop_list (current_query_number m) low (recent_with m t) db low) as Hl.
  destruct (cleanup_loop _ _ _ _ _) as [[[cleaned kept] db'] stored].
  destruct Hl as (dropped & Hsplit & -> & Hd & Hk). exists dropped, kept, stored.
  split; [done|]. split; [done|]. split.
  { rewrite Hsplit in Hrs. apply StronglySorted_suffix in Hrs.
    destruct kept as [|r kept]; [constructor|]. specialize (Hk r kept eq_refl).
    apply StronglySorted_inv in Hrs as [_ Hrs]. constructor; [done|].
    eapply Forall_impl; [exact Hrs|]. cbn. lia. }
  assert (StronglySorted (λ a b, highest_active_query a <= highest_active_query b)
            (old_with m t ++ ((λ r, Transaction_set_highest_active_query r (current_query_number m)) <$> dropped)) ∧
          Forall (λ o, highest_active_query o <= current_query_number m)
            (old_with m t ++ ((λ r, Transaction_set_highest_active_query r (current_query_number m)) <$> dropped)))
    as [Hs Hf].
  { assert (StronglySorted (λ a b, highest_active_query a <= highest_active_query b) (old_with m t) ∧
            Forall (λ o, highest_active_query o <= current_query_number m) (old_with m t)) as [Hs Hf].
    { unfold old_with. destruct (negb (commit_id t =? 0)).
      - split; [apply (rp_old_order _ _ _ Hpre)|apply (rp_old _ _ _ Hpre)].
      - split; [apply StronglySorted_snoc; [apply (rp_old_order _ _ _ Hpre)|apply (rp_old _ _ _ Hpre)]|].
        apply Forall_app. split; [apply (rp_old _ _ _ Hpre)|]. repeat constructor. cbn. lia. }
    revert Hs Hf. generalize (old_with m t) as old. clear. induction dropped as [|r dropped IH]; intros old Hs Hf.
    - by rewrite fmap_nil, app_nil_r.
    - rewrite fmap_cons. rewrite (cons_middle (Transaction_set_highest_active_query r _)), app_assoc.
      apply IH; [by apply StronglySorted_snoc|]. apply Forall_app. split; [done|]. repeat constructor. cbn. lia. }
  split; [|split; done]. cbn [fst]. rewrite !drop_while_sorted; [done| |done].
  apply (rp_sets_order _ _ _ Hpre).
Qed.

Lemma RemoveTransaction_inv m db tid t :
  remove_pre m tid t → manager_inv (RemoveTransaction m db tid).1.
Proof.
  intros Hpre. destruct (recent_with_ok _ _ _ Hpre) as (Hrf & Hrs & Hdis).
  destruct (RemoveTransaction_parts m db tid t Hpre) as (d & k & stored & Hsplit & Hd & Hk & Hm & Hs & Hf).
  cbn zeta in Hm. rewrite Hm. rewrite Hsplit in Hrf, Hrs, Hdis. apply Forall_app in Hrf as [_ Hrf].
  split; cbn.
  - apply (rp_query _ _ _ Hpre).
  - apply (rp_start _ _ _ Hpre).
  - apply (rp_id _ _ _ Hpre).
  - apply Forall_forall. intros a Ha. apply (others_elem _ _ _ _ Hpre) in Ha as [Ha Hne].
    pose proof (rp_active _ _ _ Hpre) as Hact. rewrite Forall_forall in Hact. specialize (Hact a Ha). naive_solver.
  - apply StronglySorted_filter, (rp_active_order _ _ _ Hpre).
  - done.
  - by apply StronglySorted_suffix in Hrs.
  - intros r a Hr Ha. apply Hdis; [apply elem_of_app; by right|done].
  - intros r Hr. rewrite Forall_forall in Hk, Hrf. specialize (Hk r Hr). destruct (Hrf r Hr) as (_ & Hc & _).
    destruct (lowest_of_spec start_time TRANSACTION_ID_START (others_of m tid)) as (_ & _ & [Heq|(a & Ha & Heq)]).
    + pose proof (rp_start _ _ _ Hpre). lia.
    + exists a. split; [done|]. specialize (Hdis r a). rewrite elem_of_app in Hdis.
      specialize (Hdis (or_intror Hr) Ha). lia.
  - case_bool_decide; [constructor|]. by apply Forall_filter_b.
  - case_bool_decide; [constructor|]. by apply StronglySorted_filter.
  - intros Ho. by rewrite bool_decide_true.
  - apply Forall_filter_b, (rp_sets _ _ _ Hpre).
  - apply StronglySorted_filter, (rp_sets_order _ _ _ Hpre).
Qed.

Lemma RemoveTransaction_store m db tid t :
  remove_pre m tid t →
  store_ok db (current_transaction_id m) (key <$> others_of m tid) (ckey <$> recent_with m t) →
  store_ok (RemoveTransaction m db tid).2 (current_transaction_id m)
    (key <$> active_transactions (RemoveTransaction m db tid).1)
    (ckey <$> recently_committed_transactions (RemoveTransaction m db tid).1) ∧
  same_views (key <$> others_of m tid) db (RemoveTransaction m db tid).2.
Proof.
  intros Hpre Hok. unfold RemoveTransaction. rewrite (rp_find _ _ _ Hpre). fold (others_of m tid).
  rewrite recent_old_with.
  pose proof (cleanup_loop_store (current_query_number m)
    (lowest_of start_time TRANSACTION_ID_START (others_of m tid)) (recent_with m t) db
    (lowest_of start_time TRANSACTION_ID_START (others_of m tid)) (current_transaction_id m)
    (key <$> others_of m tid) Hok) as Hl.
  destruct (cleanup_loop _ _ _ _ _) as [[[cleaned kept] db'] stored]. cbn.
  apply Hl. apply Forall_fmap. cbn. apply lowest_of_spec.
Qed.

(** *** Each operation *)

Lemma remove_pre_abort m tid t :
  manager_inv m → current_start_timestamp m <= TRANSACTION_ID_START →
  find_transaction tid (active_transactions m) = Some t → remove_pre m tid t ∧ commit_id t = 0.
Proof.
  intros Hinv Hb Hf. pose proof (mi_active _ Hinv) as Hact.
  assert (commit_id t = 0) as Hc.
  { apply find_transaction_Some in Hf as [Ht _]. rewrite Forall_forall in Hact. naive_solver. }
  split; [|done]. split; try apply Hinv; [done|split; [apply Hinv|done]| |by rewrite Hc].
  eapply Forall_impl; [exact Hact|]. naive_solver.
Qed.

(** The manager when [RemoveTransaction] is called by a commit. *)
Definition committed_manager m (tid c : Z) (t : Transaction) : TransactionManager :=
  update_transaction tid (λ _, t)
    (mkTransactionManager (current_query_number m) (u64 (c + 1)) (current_transaction_id m)
       (active_transactions m) (recently_committed_transactions m) (old_transactions m)
       (old_catalog_sets m) (thread_is_checkpointing m)).

Lemma find_updated tid t t' ts :
  find_transaction tid ts = Some t → transaction_id t' = tid →
  find_transaction tid ((λ a, if transaction_id a =? tid then t' else a) <$> ts) = Some t'.
Proof.
  intros Hf Ht'. induction ts as [|a ts IH]; [done|]. cbn in *.
  destruct (transaction_id a =? tid) eqn:Ha.
  - by rewrite Ht', Z.eqb_refl.
  - rewrite Ha. by apply IH.
Qed.

Lemma others_updated tid t' ts :
  transaction_id t' = tid →
  List.filter (λ a, negb (transaction_id a =? tid)) ((λ a, if transaction_id a =? tid then t' else a) <$> ts) =
  List.filter (λ a, negb (transaction_id a =? tid)) ts.
Proof.
  intros Ht'. induction ts as [|a ts IH]; [done|]. cbn. destruct (transaction_id a =? tid) eqn:Ha; cbn.
  - rewrite Ht', Z.eqb_refl. cbn. exact IH.
  - rewrite Ha. cbn. by f_equal.
Qed.

(** Replacing a transaction by one with the same start time and id. *)
Lemma updated_same (P : Transaction → Prop) tid t t' ts :
  StronglySorted (λ a b, start_time a < start_time b ∧ transaction_id a < transaction_id b) ts →
  find_transaction tid ts = Some t → key t' = key t →
  key <$> ((λ a, if transaction_id a =? tid then t' else a) <$> ts) = key <$> ts ∧
  StronglySorted (λ a b, start_time a < start_time b ∧ transaction_id a < transaction_id b)
    ((λ a, if transaction_id a =? tid then t' else a) <$> ts) ∧
  (P t' → (∀ a, a ∈ ts → transaction_id a ≠ tid → P a) →
    Forall P ((λ a, if transaction_id a =? tid then t' else a) <$> ts)).
Proof.
  intros Hs Hf Hk. pose proof Hf as [Ht Hid]%find_transaction_Some.
  assert (∀ a, a ∈ ts → key (if transaction_id a =? tid then t' else a) = key a) as Hkey.
  { intros a Ha. destruct (Z.eqb_spec (transaction_id a) tid) as [He|He]; [|done].
    by rewrite (active_unique ts a t Hs Ha Ht) by congruence. }
  split; [|split].
  - rewrite <-list_fmap_compose. apply list_fmap_ext. intros i a Ha%list_elem_of_lookup_2. cbn. auto.
  - clear Hf Ht. induction Hs as [|a ts Hs IH Hf]; cbn; constructor.
    + apply IH. intros b Hb. apply Hkey. by right.
    + apply Forall_fmap, Forall_forall. intros b Hb. rewrite Forall_forall in Hf. specialize (Hf b Hb).
      pose proof (Hkey a ltac:(left)) as Ka. pose proof (Hkey b ltac:(by right)) as Kb.
      unfold key in Ka, Kb. injection Ka as -> ->. unfold compose. by injection Kb as -> ->.
  - intros HP Ho. apply Forall_fmap, Forall_forall. intros a Ha. unfold compose.
    destruct (Z.eqb_spec (transaction_id a) tid) as [He|He]; [done|]. auto.
Qed.

Lemma u64_small z : 0 <= z < 2 ^ 64 → u64 z = z.
Proof. apply wrapU_small. Qed.

Lemma remove_pre_commit m tid t t' :
  manager_inv m → current_start_timestamp m < TRANSACTION_ID_START →
  find_transaction tid (active_transactions m) = Some t → key t' = key t →
  commit_id t' = 0 ∨ commit_id t' = current_start_timestamp m →
  remove_pre (committed_manager m tid (current_start_timestamp m) t') tid t'.
Proof.
  intros Hinv Hb Hf Hk Hc. pose proof (mi_active _ Hinv) as Hact. rewrite Forall_forall in Hact.
  pose proof (mi_start _ Hinv) as Hs0. pose proof (mi_active_order _ Hinv) as Hord.
  pose proof Hf as [Ht Hid]%find_transaction_Some. unfold key in Hk. injection Hk as Hk1 Hk2.
  assert (u64 (current_start_timestamp m + 1) = current_start_timestamp m + 1) as Hu.
  { apply u64_small. unfold TRANSACTION_ID_START in Hb. lia. }
  assert (∀ P : Transaction → Prop, P t' → (∀ a, a ∈ active_transactions m → transaction_id a ≠ tid → P a) →
    Forall P ((λ a, if transaction_id a =? tid then t' else a) <$> active_transactions m)) as Hall.
  { intros P. apply (updated_same P tid t t' _ Hord Hf). unfold key. congruence. }
  unfold committed_manager, update_transaction, set_active.
  split; cbn; rewrite ?Hu; try apply Hinv.
  - apply (find_updated tid t); [done|congruence].
  - lia.
  - apply Hall.
    + destruct (Hact t Ht) as (? & ? & _). split; [lia|]. split; [lia|]. intros Hne. congruence.
    + intros a Ha _. destruct (Hact a Ha) as (? & ? & ?). split; [lia|]. split; [lia|done].
  - apply (updated_same (λ _, True) tid t t' _ Hord Hf). unfold key. congruence.
  - eapply Forall_impl; [apply (mi_recent _ Hinv)|]. cbn. lia.
  - intros r a Hr (b & -> & Hb')%list_elem_of_fmap. destruct (Z.eqb_spec (transaction_id b) tid) as [He|He].
    + rewrite Hk1. by apply (mi_distinct _ Hinv).
    + by apply (mi_distinct _ Hinv).
  - intros Hne. destruct Hc as [Hc|Hc]; [done|]. destruct (Hact t Ht) as (? & _). split; [lia|]. split.
    + eapply Forall_impl; [apply (mi_recent _ Hinv)|]. cbn. lia.
    + apply Hall; [lia|]. intros a Ha _. destruct (Hact a Ha) as (? & _). lia.
  - eapply Forall_impl; [apply (mi_sets _ Hinv)|]. cbn. lia.
Qed.

(** A transaction leaves the manager: by rollback or after a commit. *)
Record left_manager m m' (tid : Z) (db db' : DB) : Prop := {
  lm_inv : manager_inv m';
  lm_query : current_query_number m' = current_query_number m;
  lm_id : current_transaction_id m' = current_transaction_id m;
  lm_active : active_transactions m' = others_of m tid;
  lm_store : store_ok db' (current_transaction_id m') (key <$> active_transactions m') (ckey <$> recently_committed_transactions m');
  lm_views : same_views (key <$> others_of m tid) db db';
}.

Lemma key_in tid t ts : find_transaction tid ts = Some t → key t ∈ key <$> ts.
Proof. intros [Ht _]%find_transaction_Some. by apply list_elem_of_fmap_2. Qed.

Lemma RollbackTransaction_left m db tid t :
  manager_inv m → current_start_timestamp m <= TRANSACTION_ID_START →
  store_ok db (current_transaction_id m) (key <$> active_transactions m) (ckey <$> recently_committed_transactions m) →
  find_transaction tid (active_transactions m) = Some t →
  let r := RemoveTransaction m (Rollback db t) tid in
  left_manager m r.1 tid db r.2 ∧ current_start_timestamp r.1 = current_start_timestamp m ∧
  thread_is_checkpointing r.1 = thread_is_checkpointing m.
Proof.
  intros Hinv Hb Hok Hf. destruct (remove_pre_abort m tid t Hinv Hb Hf) as [Hpre Hc].
  destruct (ok_rollback db _ _ _ t Hok (key_in _ _ _ Hf)) as [Hok' Hv].
  pose proof (find_transaction_Some _ _ _ Hf) as [_ Hid]. rewrite Hid in *.
  rewrite without_key in Hok', Hv. fold (others_of m tid) in Hok', Hv.
  assert (recent_with m t = recently_committed_transactions m) as Hr by (unfold recent_with; by rewrite Hc).
  destruct (RemoveTransaction_store m (Rollback db t) tid t Hpre) as [Hst Hv']; [by rewrite Hr|].
  destruct (RemoveTransaction_parts m (Rollback db t) tid t Hpre)
    as (d & k & stored & _ & _ & _ & Hm & _). cbn zeta in Hm.
  pose proof (RemoveTransaction_inv m (Rollback db t) tid t Hpre) as Hi.
  cbn zeta. split; [|by rewrite Hm]. split; [done|by rewrite Hm..| |].
  - assert (current_transaction_id (RemoveTransaction m (Rollback db t) tid).1 = current_transaction_id m) as ->
      by by rewrite Hm. done.
  - by eapply same_views_trans.
Qed.

Lemma CanCheckpoint_true m db cur :
  CanCheckpoint m db cur = true →
  InMemory db = false ∧ recently_committed_transactions m = [] ∧ old_transactions m = [] ∧
  ∀ a, a ∈ active_transactions m → Some (transaction_id a) = cur.
Proof.
  unfold CanCheckpoint. destruct (InMemory db); [done|].
  destruct (bool_decide_reflect (recently_committed_transactions m = [])) as [Hr|]; [|done].
  destruct (bool_decide_reflect (old_transactions m = [])) as [Ho|]; [|done]. cbn.
  intros Hall. split; [done|]. split; [done|]. split; [done|]. rewrite forallb_forall in Hall.
  intros a Ha%list_elem_of_In%Hall. by apply bool_decide_eq_true in Ha.
Qed.

Lemma commit_result_ok m db tid t ck :
  manager_inv m → current_start_timestamp m < TRANSACTION_ID_START - 1 →
  store_ok db (current_transaction_id m) (key <$> active_transactions m) (ckey <$> recently_committed_transactions m) →
  find_transaction tid (active_transactions m) = Some t →
  let c := current_start_timestamp m in
  let '(t2, db2, error) := commit_result db t c ck in
  key t2 = key t ∧ commit_id t2 = (if bool_decide (error = ""%string) then c else 0) ∧ 0 < c ∧
  store_ok db2 (current_transaction_id m) (key <$> others_of m tid)
    (ckey <$> (recently_committed_transactions m ++ if bool_decide (error = ""%string) then [t2] else [])) ∧
  same_views (key <$> others_of m tid) db db2.
Proof.
  intros Hinv Hb Hok Hf c. pose proof (find_transaction_Some _ _ _ Hf) as [Ht Hid].
  pose proof (mi_active _ Hinv) as Hact. pose proof (mi_recent _ Hinv) as Hrec.
  assert (0 < c) as Hc by (rewrite Forall_forall in Hact; specialize (Hact t Ht); unfold c; lia).
  destruct (commit_result db t c ck) as [[t2 db2] err] eqn:Hcommit.
  destruct (ok_commit db _ _ _ t c ck t2 db2 err Hok) as [Hok2 Hv2];
    [exact (key_in tid t _ Hf)| | |unfold c; lia|done|].
  { apply Forall_fmap. eapply Forall_impl; [exact Hact|]. cbn. lia. }
  { apply Forall_fmap. eapply Forall_impl; [exact Hrec|]. cbn. lia. }
  rewrite Hid, without_key in Hok2, Hv2. fold (others_of m tid) in Hok2, Hv2.
  unfold commit_result in Hcommit. destruct (Commit _ _ _ _) as [db1 err1].
  revert Hcommit Hok2. case_bool_decide as He; intros [= <- <- <-].
  - rewrite !bool_decide_true by done. rewrite fmap_app. done.
  - rewrite !bool_decide_false by done. rewrite app_nil_r. done.
Qed.

(** A checkpoint after the last transaction left. *)
Lemma checkpoint_idle m db :
  manager_inv m → active_transactions m = [] →
  store_ok db (current_transaction_id m) (key <$> active_transactions m) (ckey <$> recently_committed_transactions m) →
  recently_committed_transactions m = [] ∧
  store_ok (CreateCheckpoint db) (current_transaction_id m) (key <$> active_transactions m) (ckey <$> recently_committed_transactions m).
Proof.
  intros Hinv Hact Hok.
  assert (recently_committed_transactions m = []) as Hrec.
  { apply elem_of_nil_inv. intros r Hr. destruct (mi_needed _ Hinv r Hr) as (a & Ha & _).
    rewrite Hact in Ha. by apply elem_of_nil in Ha. }
  rewrite Hact, Hrec in *. split; [done|]. by apply ok_checkpoint; [|cbn; lia].
Qed.

Lemma CanCheckpoint_alone m db tid : CanCheckpoint m db (Some tid) = true → others_of m tid = [].
Proof.
  intros (_ & _ & _ & Hall)%CanCheckpoint_true. apply elem_of_nil_inv. intros a [Ha Hne]%elem_of_filter_b.
  specialize (Hall a Ha). injection Hall as Heq. by rewrite Heq, Z.eqb_refl in Hne.
Qed.

Lemma manager_inv_checkpointing b m : manager_inv m → manager_inv (set_checkpointing b m).
Proof. intros []. by split. Qed.

Lemma CommitTransaction_finish_eq m db tid t is_locked :
  find_transaction tid (active_transactions m) = Some t →
  CommitTransaction_finish m db tid is_locked =
    let checkpoint := is_locked && CanCheckpoint m db (Some tid) in
    let '(t2, db2, error) := commit_result db t (current_start_timestamp m) checkpoint in
    let '(m3, db3) := RemoveTransaction (committed_manager m tid (current_start_timestamp m) t2) db2 tid in
    (if is_locked then set_checkpointing false m3 else m3,
     if checkpoint && bool_decide (error = ""%string) then CreateCheckpoint db3 else db3, error).
Proof.
  intros Hf. unfold CommitTransaction_finish, commit_result, committed_manager. rewrite Hf.
  destruct (Commit _ _ _ _) as [db1 err].
  destruct (bool_decide (err = ""%string)) eqn:He; cbn -[RemoveTransaction];
    destruct (RemoveTransaction _ _ _) as [m3 db3]; by rewrite He, ?andb_true_r, ?andb_false_r.
Qed.

Lemma CommitTransaction_finish_left m db tid t is_locked m' db' error :
  manager_inv m → current_start_timestamp m < TRANSACTION_ID_START - 1 →
  store_ok db (current_transaction_id m) (key <$> active_transactions m) (ckey <$> recently_committed_transactions m) →
  find_transaction tid (active_transactions m) = Some t →
  CommitTransaction_finish m db tid is_locked = (m', db', error) →
  left_manager m m' tid db db' ∧
  current_start_timestamp m' = current_start_timestamp m + 1 ∧
  thread_is_checkpointing m' = (if is_locked then false else thread_is_checkpointing m).
Proof.
  intros Hinv Hb Hok Hf. rewrite (CommitTransaction_finish_eq _ _ _ t) by done.
  set (ck := is_locked && CanCheckpoint m db (Some tid)). cbn zeta.
  pose proof (find_transaction_Some _ _ _ Hf) as [_ Hid].
  pose proof (commit_result_ok m db tid t ck Hinv Hb Hok Hf) as Hc. cbn zeta in Hc.
  destruct (commit_result _ _ _ _) as [[t2 db2] err]. destruct Hc as (Hk & Hci & Hpos & Hok2 & Hv2).
  set (m1 := committed_manager m tid (current_start_timestamp m) t2).
  assert (remove_pre m1 tid t2) as Hpre.
  { apply (remove_pre_commit m tid t t2); [done|lia|done|done|]. rewrite Hci. case_bool_decide; [by right|by left]. }
  assert (others_of m1 tid = others_of m tid) as Ho.
  { apply (others_updated tid t2 (active_transactions m)). unfold key in Hk. congruence. }
  assert (recent_with m1 t2 = recently_committed_transactions m ++ if bool_decide (err = ""%string) then [t2] else [])
    as Hr.
  { unfold recent_with. rewrite Hci. case_bool_decide; cbn; [|by rewrite app_nil_r].
    rewrite (proj2 (Z.eqb_neq (current_start_timestamp m) 0)) by lia. done. }
  rewrite <-Hr, <-Ho in Hok2. destruct (RemoveTransaction_store m1 db2 tid t2 Hpre Hok2) as [Hok3 Hv3].
  pose proof (RemoveTransaction_inv m1 db2 tid t2 Hpre) as Hi.
  destruct (RemoveTransaction_parts m1 db2 tid t2 Hpre) as (d & k & stored & _ & _ & _ & Hm & _). cbn zeta in Hm.
  destruct (RemoveTransaction m1 db2 tid) as [m3 db3]. cbn [fst snd] in *. rewrite Ho in *.
  assert (current_start_timestamp m3 = current_start_timestamp m + 1) as Hcs.
  { rewrite Hm. cbn. apply u64_small. pose proof (mi_start _ Hinv). unfold TRANSACTION_ID_START in Hb. lia. }
  assert (active_transactions m3 = others_of m tid) as Hact3 by by rewrite Hm.
  assert (current_transaction_id m3 = current_transaction_id m) as Hi3 by by rewrite Hm.
  change (current_transaction_id m1) with (current_transaction_id m) in Hok3. rewrite <-Hi3 in Hok3.
  pose proof (same_views_trans _ _ _ _ Hv2 Hv3) as Hv.
  assert (∀ db4, store_ok db4 (current_transaction_id m3) (key <$> active_transactions m3) (ckey <$> recently_committed_transactions m3) →
    same_views (key <$> others_of m tid) db db4 →
    left_manager m (if is_locked then set_checkpointing false m3 else m3) tid db db4) as Hleft.
  { intros db4 H4 H4v. destruct is_locked; split; cbn; rewrite ?Hact3, ?Hi3 in *;
      try done; try (by rewrite Hm). by apply manager_inv_checkpointing. }
  intros [= <- <- <-]. split; [|destruct is_locked; cbn; (split; [done|]); by rewrite ?Hm].
  destruct (ck && bool_decide (err = ""%string)) eqn:Hck; [|by apply Hleft].
  apply andb_true_iff in Hck as [[_ Hcan]%andb_true_iff _]. apply CanCheckpoint_alone in Hcan.
  apply Hleft; [apply checkpoint_idle; [done|congruence|done]|]. rewrite Hcan. by intros st i o ?%elem_of_nil.
Qed.

(** The forced checkpoint ends with no transaction at all. *)
Lemma force_loop_idle n m db :
  manager_inv m → current_start_timestamp m <= TRANSACTION_ID_START →
  store_ok db (current_transaction_id m) (key <$> active_transactions m) (ckey <$> recently_committed_transactions m) →
  (length (active_transactions m) <= n)%nat →
  let r := force_loop n m db in
  manager_inv r.1 ∧ active_transactions r.1 = [] ∧
  current_query_number r.1 = current_query_number m ∧
  current_start_timestamp r.1 = current_start_timestamp m ∧
  current_transaction_id r.1 = current_transaction_id m ∧
  store_ok r.2 (current_transaction_id r.1) (key <$> active_transactions r.1) (ckey <$> recently_committed_transactions r.1).
Proof.
  revert m db. induction n as [|n IH]; intros m db Hinv Hb Hok Hn; cbn [force_loop].
  { destruct (active_transactions m) as [|t ts] eqn:Ha; [|cbn in Hn; lia]. cbn. by rewrite Ha. }
  destruct (active_transactions m) as [|t ts] eqn:Ha; [cbn; by rewrite Ha|].
  assert (find_transaction (transaction_id t) (active_transactions m) = Some t) as Hf.
  { rewrite Ha. cbn. by rewrite Z.eqb_refl. }
  rewrite <-Ha in Hok.
  destruct (RollbackTransaction_left m db (transaction_id t) t Hinv Hb Hok Hf) as (Hl & Hcs & _).
  destruct (RemoveTransaction _ _ _) as [m' db']. cbn [fst snd] in *.
  assert (length (active_transactions m') <= n)%nat as Hn'.
  { rewrite (lm_active _ _ _ _ _ Hl). unfold others_of. rewrite Ha. cbn. rewrite Z.eqb_refl. cbn in *.
    pose proof (List.filter_length_le (λ a, negb (transaction_id a =? transaction_id t)) ts). lia. }
  destruct (IH m' db' (lm_inv _ _ _ _ _ Hl) ltac:(lia) (lm_store _ _ _ _ _ Hl) Hn')
    as (? & ? & Hq & Hs & Hi & ?).
  pose proof (lm_query _ _ _ _ _ Hl). pose proof (lm_id _ _ _ _ _ Hl). split_and!; [done|done|lia|lia|lia|done].
Qed.

(** *** Operations that only touch the manager *)

Lemma StartTransaction_inv m db m' t :
  manager_inv m → current_start_timestamp m < TRANSACTION_ID_START - 1 →
  current_transaction_id m < NOT_DELETED_ID →
  StartTransaction m db = Ok (m', t) →
  store_ok db (current_transaction_id m) (key <$> active_transactions m) (ckey <$> recently_committed_transactions m) →
  manager_inv m' ∧ active_transactions m' = active_transactions m ++ [t] ∧
  key t = (current_start_timestamp m, current_transaction_id m) ∧
  current_start_timestamp m' = current_start_timestamp m + 1 ∧
  current_transaction_id m' = current_transaction_id m + 1 ∧
  store_ok db (current_transaction_id m') (key <$> active_transactions m') (ckey <$> recently_committed_transactions m').
Proof.
  intros Hinv Hb Hid. unfold StartTransaction. destruct (Z.leb_spec TRANSACTION_ID_START (current_start_timestamp m)); [done|].
  pose proof (mi_start _ Hinv) as Hs0. pose proof (mi_id _ Hinv) as Hi0. pose proof id_ranges as [Hr _].
  rewrite !u64_small by (unfold TRANSACTION_ID_START, NOT_DELETED_ID in *; lia). intros [= <- <-] Hok. cbn.
  assert (Forall (λ a, start_time a < current_start_timestamp m ∧ transaction_id a < current_transaction_id m)
    (active_transactions m)) as Hlt.
  { eapply Forall_impl; [apply (mi_active _ Hinv)|]. cbn. lia. }
  split; [|repeat split].
  - split; cbn; try apply Hinv; [lia|lia| | | | | | |].
    + apply Forall_app. split; [eapply Forall_impl; [apply (mi_active _ Hinv)|]; cbn; lia|].
      repeat constructor; cbn; lia.
    + apply StronglySorted_snoc; [apply Hinv|exact Hlt].
    + eapply Forall_impl; [apply (mi_recent _ Hinv)|]. cbn. lia.
    + intros r a Hr' [Ha| ->%list_elem_of_singleton]%elem_of_app; [by apply (mi_distinct _ Hinv)|]. cbn.
      pose proof (mi_recent _ Hinv) as Hrec. rewrite Forall_forall in Hrec. specialize (Hrec r Hr'). lia.
    + intros r Hr'. destruct (mi_needed _ Hinv r Hr') as (a & Ha & Hl). exists a.
      split; [apply elem_of_app; by left|done].
    + intros Hnil%app_nil. naive_solver.
    + eapply Forall_impl; [apply (mi_sets _ Hinv)|]. cbn. lia.
  - rewrite fmap_app. cbn. apply (ok_start db (current_transaction_id m)); [done|done| | |split; [exact Hs0|exact Hb]|split; [exact Hi0|exact Hid]].
    + apply Forall_fmap. exact Hlt.
    + apply Forall_fmap. eapply Forall_impl; [apply (mi_recent _ Hinv)|]. cbn. lia.
Qed.

(** Changing the active query of a transaction. *)
Lemma set_active_query_inv m tid q :
  manager_inv m →
  let m' := update_transaction tid (set_active_query q) m in
  manager_inv m' ∧ key <$> active_transactions m' = key <$> active_transactions m.
Proof.
  intros Hinv m'. set (f := λ t, if transaction_id t =? tid then set_active_query q t else t).
  change (active_transactions m') with (f <$> active_transactions m).
  assert (∀ t, start_time (f t) = start_time t ∧ transaction_id (f t) = transaction_id t ∧
               commit_id (f t) = commit_id t) as Hf.
  { intros t. unfold f. by destruct (_ =? _). }
  split.
  - destruct Hinv. split; cbn; fold f; try done.
    + apply Forall_fmap. eapply Forall_impl; [eassumption|]. intros t Ht. unfold compose.
      destruct (Hf t) as (-> & -> & ->). done.
    + clear -mi_active_order0 Hf. induction mi_active_order0 as [|t ts Hs IH Hfa]; cbn; constructor; [done|].
      apply Forall_fmap. eapply Forall_impl; [exact Hfa|]. intros a Ha. unfold compose.
      destruct (Hf t) as (-> & -> & _), (Hf a) as (-> & -> & _). done.
    + intros r a Hr (b & -> & Hb)%list_elem_of_fmap. destruct (Hf b) as (-> & _). eauto.
    + intros r Hr. destruct (mi_needed0 r Hr) as (a & Ha & Hl). exists (f a).
      split; [by apply list_elem_of_fmap_2|]. destruct (Hf a) as (-> & _). done.
    + intros Hn%fmap_nil_inv. auto.
  - rewrite <-list_fmap_compose. apply list_fmap_ext. intros i t _. unfold compose, key.
    destruct (Hf t) as (-> & -> & _). done.
Qed.

Lemma GetQueryNumber_inv m :
  manager_inv m → current_query_number m < 2 ^ 64 - 1 →
  manager_inv (GetQueryNumber m).2 ∧
  current_query_number (GetQueryNumber m).2 = current_query_number m + 1.
Proof.
  intros Hinv Hq. pose proof (mi_query _ Hinv). cbn. rewrite u64_small by lia. split; [|done].
  destruct Hinv. split; cbn; try done; [lia|]. eapply Forall_impl; [eassumption|]. cbn. lia.
Qed.

Lemma AddCatalogSet_inv m set : manager_inv m → manager_inv (AddCatalogSet m set).
Proof.
  intros Hinv. unfold AddCatalogSet. case_bool_decide; [done|]. destruct Hinv. split; cbn; try done.
  - apply Forall_app. split; [done|]. repeat constructor. cbn. lia.
  - apply StronglySorted_snoc; [done|]. eapply Forall_impl; [eassumption|]. done.
Qed.

(** *** Steps *)

(** What a step by the transaction [l] guarantees. *)
Record step_ok (n : nat) (l : option Z) (s s' : system DB) : Prop := {
  so_inv : system_inv (S n) s';
  so_views : ∀ st tid o, (st, tid) ∈ key <$> active_transactions (sys_manager s) →
    (st, tid) ∈ key <$> active_transactions (sys_manager s') → l ≠ Some tid →
    view (sys_db s') st tid o = view (sys_db s) st tid o;
  so_active : ∀ k, k ∈ key <$> active_transactions (sys_manager s') →
    k ∈ key <$> active_transactions (sys_manager s) ∨ k.2 = current_transaction_id (sys_manager s);
  so_id : current_transaction_id (sys_manager s) <= current_transaction_id (sys_manager s');
}.

Lemma key_id tid ts : tid ∈ transaction_id <$> ts ↔ tid ∈ snd <$> (key <$> ts).
Proof. by rewrite <-list_fmap_compose. Qed.

Lemma without_elem st tid i ts :
  (st, tid) ∈ key <$> ts → tid ≠ i →
  (st, tid) ∈ key <$> List.filter (λ t, negb (transaction_id t =? i)) ts.
Proof.
  intros Hin Hne. rewrite <-without_key. apply elem_of_filter_b. split; [done|]. cbn.
  by apply negb_true_iff, Z.eqb_neq.
Qed.

(** The thread with the checkpoint lock is still there when another leaves. *)
Lemma checkpointer_stays (p : option checkpointer) tid ts :
  (∀ q, p = Some q → checkpointer_tid q ∈ transaction_id <$> ts) →
  checkpointer_tid <$> p ≠ Some tid →
  ∀ q, p = Some q →
    checkpointer_tid q ∈ transaction_id <$> List.filter (λ t, negb (transaction_id t =? tid)) ts.
Proof.
  intros Hp Hne q ->. specialize (Hp q eq_refl). apply list_elem_of_fmap in Hp as (t & Heq & Ht).
  rewrite Heq. apply list_elem_of_fmap_2, elem_of_filter_b. split; [done|].
  apply negb_true_iff, Z.eqb_neq. intros Heq'. apply Hne. cbn. congruence.
Qed.

(** A transaction left, by commit or by rollback. *)
Lemma left_step n m db p m' db' tid p' :
  system_inv n (mkSystem m db p) → left_manager m m' tid db db' →
  current_start_timestamp m' <= current_start_timestamp m + 1 →
  thread_is_checkpointing m' = bool_decide (is_Some p') →
  (∀ q, p' = Some q → checkpointer_tid q ∈ transaction_id <$> others_of m tid) →
  step_ok n (Some tid) (mkSystem m db p) (mkSystem m' db' p').
Proof.
  intros Hs Hl Hcs Hfl Hp. destruct Hs as [Hi Hq Hst Hid _ _ _]. cbn in *. split.
  - split; cbn; [apply Hl|..].
    + rewrite (lm_query _ _ _ _ _ Hl). lia.
    + lia.
    + rewrite (lm_id _ _ _ _ _ Hl). lia.
    + done.
    + by rewrite (lm_active _ _ _ _ _ Hl).
    + apply Hl.
  - cbn. intros st i o Hin _ Hne. apply (lm_views _ _ _ _ _ Hl). apply without_elem; [done|congruence].
  - cbn. intros k. rewrite (lm_active _ _ _ _ _ Hl). intros (a & -> & [Ha _]%elem_of_filter_b)%list_elem_of_fmap.
    left. by apply list_elem_of_fmap_2.
  - cbn. rewrite (lm_id _ _ _ _ _ Hl). lia.
Qed.

(** The manager changed, but not the running transactions nor the data. *)
Lemma manager_step n l m db p m' p' :
  system_inv n (mkSystem m db p) → manager_inv m' →
  key <$> active_transactions m' = key <$> active_transactions m →
  recently_committed_transactions m' = recently_committed_transactions m →
  current_query_number m' <= current_query_number m + 1 →
  current_start_timestamp m' = current_start_timestamp m →
  current_transaction_id m' = current_transaction_id m →
  thread_is_checkpointing m' = bool_decide (is_Some p') →
  (∀ q, p' = Some q → checkpointer_tid q ∈ transaction_id <$> active_transactions m) →
  step_ok n l (mkSystem m db p) (mkSystem m' db p').
Proof.
  intros Hs Hi' Hk Hr Hq' Hc' Hid' Hfl Hp. destruct Hs as [Hi Hq Hst Hid _ _ Hok]. cbn in *.
  split; [split| | |]; cbn; try done; [lia|lia|lia| |by rewrite Hk, Hr, Hid'| |lia].
  - intros q Hpq. rewrite key_id, Hk, <-key_id. auto.
  - intros k. rewrite Hk. by left.
Qed.

Lemma ids_alone m db tid :
  manager_inv m → CanCheckpoint m db (Some tid) = true → (length (key <$> active_transactions m) <= 1)%nat.
Proof.
  intros Hinv (_ & _ & _ & Hall)%CanCheckpoint_true. rewrite length_fmap. pose proof (mi_active_order _ Hinv) as Hs.
  destruct (active_transactions m) as [|a [|b ts]]; cbn; [lia|lia|exfalso].
  apply StronglySorted_inv in Hs as [_ [Hab _]%Forall_cons].
  pose proof (Hall a ltac:(left)) as Ha. pose proof (Hall b ltac:(right; left)) as Hb.
  injection Ha as Ha. injection Hb as Hb. lia.
Qed.

Lemma checkpoint_finish_step n m db tid force m' db' :
  Z.of_nat n < TRANSACTION_ID_START - 1 →
  system_inv n (mkSystem m db (Some (Checkpointing tid force))) →
  out_state (Checkpoint_finish m db tid force) = (m', db') →
  step_ok n (Some tid) (mkSystem m db (Some (Checkpointing tid force))) (mkSystem m' db' None).
Proof.
  intros Hn Hs. pose proof Hs as [Hi Hq Hst Hid _ Hp Hok]. cbn in *.
  destruct (find_transaction_in tid (active_transactions m)) as [t Hf]; [by apply (Hp _ eq_refl)|].
  unfold Checkpoint_finish. rewrite Hf.
  assert (∀ q, None = Some q → checkpointer_tid q ∈ transaction_id <$> active_transactions m) as Hnone by done.
  assert (step_ok n (Some tid) (mkSystem m db (Some (Checkpointing tid force)))
    (mkSystem (set_checkpointing false m) db None)) as Hstop.
  { apply manager_step; try done; [by apply manager_inv_checkpointing|]. cbn. lia. }
  destruct (ChangesMade db t); [cbn; by intros [= <- <-]|].
  destruct (CanCheckpoint m db (Some tid)) eqn:Hcan.
  { cbn. intros [= <- <-]. pose proof Hcan as (_ & Hrec & _ & _)%CanCheckpoint_true.
    rewrite Hrec in Hok. destruct (ok_checkpoint db _ (key <$> active_transactions m) Hok) as [Hok' Hv].
    { by eapply ids_alone. }
    split; [split| | |]; cbn; try done; [by apply manager_inv_checkpointing|lia|lia|lia| | |by left].
    - by rewrite Hrec.
    - intros st i o Hin _ _. by apply Hv. }
  destruct force; cbn [negb]; [|cbn; by intros [= <- <-]].
  destruct (force_loop_idle (length (active_transactions m)) m db Hi ltac:(lia) Hok ltac:(lia))
    as (Hi' & Ha' & Hq' & Hc' & Hid' & Hok').
  destruct (force_loop _ m db) as [m1 db1]. cbn [fst snd] in *. cbn. intros [= <- <-].
  destruct (checkpoint_idle m1 db1 Hi' Ha' Hok') as [_ Hok2].
  split; [split| | |]; cbn; try done; [by apply manager_inv_checkpointing|lia|lia|lia| | |lia].
  - intros st i o _ Hin. rewrite Ha' in Hin. by apply elem_of_nil in Hin.
  - intros k Hin. rewrite Ha' in Hin. by apply elem_of_nil in Hin.
Qed.

Lemma step_preserves n l s s' :
  Z.of_nat n < TRANSACTION_ID_START - 1 → system_inv n s → step l s s' → step_ok n l s s'.
Proof.
  intros Hn Hs Hstep. pose proof id_ranges as Hr.
  assert (current_start_timestamp (sys_manager s) < TRANSACTION_ID_START - 1 ∧
          current_transaction_id (sys_manager s) < NOT_DELETED_ID ∧
          current_query_number (sys_manager s) < 2 ^ 64 - 1) as (Hb1 & Hb2 & Hb3).
  { destruct Hs as [_ ? ? ? _ _ _]. unfold TRANSACTION_ID_START, NOT_DELETED_ID in *. lia. }
  pose proof Hs as [Hi Hq Hst Hid Hfl Hp Hok].
  destruct Hstep as [m db p m' t Hstart|m db p tid Hact|m db p tid Hact|m db p t db' Hact Ht Hw
    |m db p tid m' db' error [Htid Hact] Hlock Hfin|m db p tid m' [Htid Hact] Hlock|m db tid m' db' error Hfin
    |m db p tid m' db' [Htid Hact] Hrb|m db p tid force m' [Htid Hact] Hlock|m db tid force m' db' Hfin
    |m db p tid set Hact]; cbn in *.
  - destruct (StartTransaction_inv m db m' t Hi Hb1 Hb2 Hstart Hok) as (Hi' & Ha & Hk & Hcs & Hid' & Hok').
    assert (current_query_number m' = current_query_number m ∧
            thread_is_checkpointing m' = thread_is_checkpointing m) as [Hq' Hfl'].
    { revert Hstart. unfold StartTransaction. destruct (_ <=? _); [done|]. by intros [= <- _]. }
    split; [split| | |]; cbn; try done; [lia|lia|lia|by rewrite Hfl'| | |lia].
    + intros q Hpq. rewrite Ha, fmap_app, elem_of_app. left. auto.
    + intros k. rewrite Ha, fmap_app, elem_of_app. cbn. intros [Hin| ->%list_elem_of_singleton]; [by left|].
      right. by rewrite Hk.
  - destruct (GetQueryNumber_inv m Hi Hb3) as [Hi' Hq'].
    destruct (set_active_query_inv (GetQueryNumber m).2 tid (current_query_number m) Hi') as [Hi2 Hk].
    apply manager_step; try done. apply Z.eq_le_incl. exact Hq'.
  - destruct (set_active_query_inv m tid MAXIMUM_QUERY_ID Hi) as [Hi2 Hk].
    apply manager_step; try done. cbn. lia.
  - destruct (ok_works db _ _ _ (key t) db' Hok) as [Hok' Hv]; [by apply list_elem_of_fmap_2|done|].
    split; [split| | |]; cbn; try done; [lia|lia|lia| |by left].
    intros st i o Hin _ Hne. apply Hv. apply elem_of_filter_b. split; [done|]. cbn.
    apply negb_true_iff, Z.eqb_neq. congruence.
  - destruct (find_transaction_in tid _ Htid) as [t Hf].
    destruct (CommitTransaction_finish_left m db tid t false m' db' error Hi Hb1 Hok Hf Hfin) as (Hl & Hcs & Hfl').
    apply left_step; [done|done|lia|by rewrite Hfl'|]. by apply checkpointer_stays.
  - revert Hlock. unfold CommitTransaction_lock. destruct (find_transaction _ _); [|done].
    destruct (_ && _); [|done]. intros [= <-].
    apply manager_step; try done; [by apply manager_inv_checkpointing|cbn; lia|]. by intros q [= <-].
  - destruct (find_transaction_in tid (active_transactions m)) as [t Hf]; [by apply (Hp _ eq_refl)|].
    destruct (CommitTransaction_finish_left m db tid t true m' db' error Hi Hb1 Hok Hf Hfin) as (Hl & Hcs & Hfl').
    apply left_step; [done|done|lia|done|done].
  - destruct (find_transaction_in tid _ Htid) as [t Hf]. revert Hrb. unfold RollbackTransaction. rewrite Hf.
    destruct (RollbackTransaction_left m db tid t Hi ltac:(lia) Hok Hf) as (Hl & Hcs & Hfl').
    intros Heq. rewrite Heq in *. cbn [fst snd] in *.
    apply left_step; [done|done|lia|by rewrite Hfl'|]. by apply checkpointer_stays.
  - revert Hlock. unfold Checkpoint_lock. destruct (InMemory db); [done|].
    destruct (thread_is_checkpointing m); [done|]. intros [= <-].
    apply manager_step; try done; [by apply manager_inv_checkpointing|cbn; lia|]. by intros q [= <-].
  - by apply checkpoint_finish_step.
  - pose proof (AddCatalogSet_inv m set Hi) as Hi'.
    apply manager_step; try done; unfold AddCatalogSet;
      destruct (bool_decide (active_transactions m = [])); try done; cbn; lia.
Qed.

Lemma system_new_inv db : store_ok db TRANSACTION_ID_START [] [] → system_inv 0 (system_new db).
Proof.
  intros Hok. split; cbn; try done. split; cbn; try done; try constructor; try (by intros ? ?%elem_of_nil). by intros ? ? ?%elem_of_nil.
Qed.

Lemma run_inv k n s s' :
  system_inv k s → Z.of_nat (k + n) <= TRANSACTION_ID_START - 1 → run n s s' → system_inv (k + n) s'.
Proof.
  intros Hk Hn Hrun. revert k Hk Hn. induction Hrun as [s0|n s0 s1 s (l & Hstep) Hrun IH]; intros k Hk Hn.
  - by rewrite Nat.add_0_r.
  - rewrite Nat.add_succ_r, <-Nat.add_succ_l. apply IH; [|lia].
    eapply so_inv, step_preserves; [|done|exact Hstep]. lia.
Qed.

(** A run in which the transaction [tid] does nothing itself. *)
Definition run_of_others (tid : Z) (n : nat) (s s' : system DB) : Prop :=
  nsteps (λ s s', ∃ l, l ≠ Some tid ∧ step l s s') n s s'.

Lemma run_of_others_run tid n s s' : run_of_others tid n s s' → run n s s'.
Proof.
  intros Hrun. induction Hrun as [s|n s s1 s' (l & _ & Hstep) Hrun IH]; [constructor|].
  econstructor; [by exists l|exact IH].
Qed.

(** A transaction that is running at the end was running all along. *)
Lemma still_active tid n k s s' st :
  system_inv k s → Z.of_nat (k + n) <= TRANSACTION_ID_START - 1 → run_of_others tid n s s' →
  (st, tid) ∈ key <$> active_transactions (sys_manager s') →
  tid < current_transaction_id (sys_manager s) →
  (st, tid) ∈ key <$> active_transactions (sys_manager s).
Proof.
  intros Hk Hn Hrun. revert k Hk Hn. induction Hrun as [s|n s s1 s' (l & _ & Hstep) Hrun IH]; [done|].
  intros k Hk Hn Hin Hid. destruct (step_preserves k l s s1 ltac:(lia) Hk Hstep) as [Hk1 _ Hact Hmono].
  destruct (Hact (st, tid)) as [?|Heq]; [|done|cbn in Heq; lia].
  apply (IH (S k)); [done|lia|done|lia].
Qed.

Lemma active_id m st tid :
  manager_inv m → (st, tid) ∈ key <$> active_transactions m → tid < current_transaction_id m.
Proof.
  intros Hinv (a & Heq & Ha)%list_elem_of_fmap. unfold key in Heq. injection Heq as -> ->.
  pose proof (mi_active _ Hinv) as Hact. rewrite Forall_forall in Hact. specialize (Hact a Ha). lia.
Qed.

Lemma isolation n k s s' st tid o :
  system_inv k s → Z.of_nat (k + n) <= TRANSACTION_ID_START - 1 → run_of_others tid n s s' →
  (st, tid) ∈ key <$> active_transactions (sys_manager s) →
  (st, tid) ∈ key <$> active_transactions (sys_manager s') →
  view (sys_db s') st tid o = view (sys_db s) st tid o.
Proof.
  intros Hk Hn Hrun. revert k Hk Hn. induction Hrun as [s|n s s1 s' (l & Hl & Hstep) Hrun IH]; [done|].
  intros k Hk Hn Hin Hin'. destruct (step_preserves k l s s1 ltac:(lia) Hk Hstep) as [Hk1 Hv Hact Hmono].
  assert ((st, tid) ∈ key <$> active_transactions (sys_manager s1)) as Hin1.
  { eapply (still_active tid n (S k)); [done|lia|done|done|].
    pose proof (active_id _ _ _ (si_manager _ _ Hk) Hin). lia. }
  rewrite (IH (S k)); [by apply Hv|done|lia|done|done].
Qed.

(** ** Theorems *)

(** C2: snapshot isolation.  From its start to its end a transaction reads the
    same data, whatever other transactions do in between: start, write, query,
    commit (also unsuccessfully), roll back, trigger the cleanup of old
    versions or a checkpoint.  This holds for every run of the system of up to
    [TRANSACTION_ID_START - 1] operations, over any store that keeps the
    promises of [SnapshotStoreLaws]. *)
Theorem snapshot_isolation db k n s s' st tid o :
  store_ok db TRANSACTION_ID_START [] [] → run k (system_new db) s → run_of_others tid n s s' →
  Z.of_nat (k + n) <= TRANSACTION_ID_START - 1 →
  (st, tid) ∈ key <$> active_transactions (sys_manager s) →
  (st, tid) ∈ key <$> active_transactions (sys_manager s') →
  view (sys_db s') st tid o = view (sys_db s) st tid o.
Proof.
  intros Hok Hk Hrun Hn Hin Hin'.
  pose proof (run_inv 0 k _ _ (system_new_inv db Hok) ltac:(lia) Hk) as Hinv.
  by apply (isolation n k s s' st tid o).
Qed.

(** C3: the invariant of the manager in every reachable state: start times and
    ids increase in the order of the transactions and are distinct from commit
    ids, which increase too; a committed transaction is kept exactly while a
    transaction runs that started before the commit; the checkpoint flag is
    set exactly while one thread holds the checkpoint lock, and that thread's
    transaction is running. *)
Theorem TransactionManager_reachable db n s :
  store_ok db TRANSACTION_ID_START [] [] → run n (system_new db) s → Z.of_nat n <= TRANSACTION_ID_START - 1 →
  manager_inv (sys_manager s) ∧
  thread_is_checkpointing (sys_manager s) = bool_decide (is_Some (sys_checkpointer s)) ∧
  ∀ p, sys_checkpointer s = Some p →
    checkpointer_tid p ∈ transaction_id <$> active_transactions (sys_manager s).
Proof.
  intros Hok Hrun Hn. pose proof (run_inv 0 n _ _ (system_new_inv db Hok) ltac:(lia) Hrun) as [].
  done.
Qed.

(** C4: garbage collection is exact.  When a transaction leaves, a committed
    transaction stays uncleaned exactly if some running transaction started
    before it committed, and the memory of a cleaned or aborted one stays
    exactly if some running query may have started before it was cleaned. *)
Theorem RemoveTransaction_gc m db tid t :
  remove_pre m tid t → current_query_number m < MAXIMUM_QUERY_ID →
  let m' := (RemoveTransaction m db tid).1 in
  (∀ a, a ∈ active_transactions m' ↔ a ∈ active_transactions m ∧ transaction_id a ≠ tid) ∧
  (∀ r, r ∈ recently_committed_transactions m' ↔
     r ∈ recent_with m t ∧ ∃ a, a ∈ active_transactions m' ∧ start_time a < commit_id r) ∧
  ∃ cleaned,
    (∀ r, r ∈ cleaned ↔ r ∈ recent_with m t ∧
       ∀ a, a ∈ active_transactions m' → commit_id r < start_time a) ∧
    ∀ o, o ∈ old_transactions m' ↔
      o ∈ old_with m t ++
        ((λ r, Transaction_set_highest_active_query r (current_query_number m)) <$> cleaned) ∧
      ∃ a, a ∈ active_transactions m' ∧ active_query a <= highest_active_query o.
Proof.
  intros Hpre Hq m'. destruct (recent_with_ok _ _ _ Hpre) as (Hrf & _ & Hdis).
  pose proof (RemoveTransaction_inv m db tid t Hpre) as Hinv. fold m' in Hinv.
  destruct (RemoveTransaction_parts m db tid t Hpre) as (d & k & stored & Hsplit & Hd & Hk & Hm & _ & Hold).
  cbn zeta in Hm. fold m' in Hm. set (others := others_of m tid) in *.
  assert (active_transactions m' = others) as Ha by by rewrite Hm.
  assert (recently_committed_transactions m' = k) as Hr by by rewrite Hm.
  pose proof (lowest_of_spec start_time TRANSACTION_ID_START others) as (Hl1 & Hl2 & Hl3).
  rewrite Forall_forall in Hd, Hk, Hl2, Hrf. rewrite Hsplit in *.
  assert (∀ r, r ∈ d → ∀ a, a ∈ others → commit_id r < start_time a) as Hd'.
  { intros r Hr' a Ha'. specialize (Hd r Hr'). specialize (Hl2 a Ha'). lia. }
  split; [|split; [|exists d; split]].
  - intros a. rewrite Ha. by apply (others_elem _ _ t).
  - intros r. rewrite Hr, elem_of_app. split.
    + intros Hrk. split; [by right|]. apply (mi_needed _ Hinv). by rewrite Hr.
    + intros [[Hrd|Hrk] (a & Ha' & Hlt)]; [|done]. rewrite Ha in Ha'. specialize (Hd' r Hrd a Ha'). lia.
  - intros r. rewrite elem_of_app, Ha. split; [intros Hrd; split; [by left|by apply Hd']|].
    intros [[Hrd|Hrk] Hall]; [done|]. destruct (mi_needed _ Hinv r) as (a & Ha' & Hlt); [by rewrite Hr|].
    rewrite Ha in Ha'. specialize (Hall a Ha'). lia.
  - intros o. rewrite Ha. rewrite Forall_forall in Hold.
    pose proof (lowest_of_spec active_query MAXIMUM_QUERY_ID others) as (_ & Hq2 & Hq3).
    rewrite Forall_forall in Hq2. rewrite Hm. cbn [old_transactions]. case_bool_decide as Hnil.
    + rewrite Hnil. split; [by intros ?%elem_of_nil|]. by intros (_ & a & ?%elem_of_nil & _).
    + rewrite elem_of_filter_b, Z.leb_le. split; intros [Ho Hx]; (split; [done|]); specialize (Hold o Ho).
      * destruct Hq3 as [Hq3|(a & Ha' & Hq3)]; [lia|]. exists a. split; [done|lia].
      * destruct Hx as (a & Ha' & Hle). specialize (Hq2 a Ha'). lia.
Qed.

(** C5: a checkpoint is written only when no other transaction is running and
    no old version is left; otherwise it fails and changes nothing but the
    flag.  A forced checkpoint fails only because of the changes of its own
    transaction: its loop rolls back every running transaction, and ends. *)
Theorem Checkpoint_alone n m db tid force :
  system_inv n (mkSystem m db (Some (Checkpointing tid force))) →
  Z.of_nat n < TRANSACTION_ID_START - 1 →
  match Checkpoint_finish m db tid force with
  | Ret (m', db') _ =>
      thread_is_checkpointing m' = false ∧ recently_committed_transactions m' = [] ∧
      old_transactions m' = [] ∧ (∀ a, a ∈ active_transactions m' → transaction_id a = tid) ∧
      ∃ db1, db' = CreateCheckpoint db1 ∧ store_ok db1 (current_transaction_id m') (key <$> active_transactions m') []
  | Raise (m', db') e =>
      m' = set_checkpointing false m ∧ db' = db ∧ (∃ msg, e = TransactionException msg) ∧
      (force = false ∨ ∃ t, t ∈ active_transactions m ∧ transaction_id t = tid ∧ ChangesMade db t = true)
  end.
Proof.
  intros [Hi Hq Hst Hid _ Hp Hok] Hn. cbn in *.
  destruct (find_transaction_in tid (active_transactions m)) as [t Hf]; [by apply (Hp _ eq_refl)|].
  unfold Checkpoint_finish. rewrite Hf. destruct (ChangesMade db t) eqn:Hch.
  { split; [done|]. split; [done|]. split; [by eexists|]. right. exists t.
    apply find_transaction_Some in Hf. naive_solver. }
  destruct (CanCheckpoint m db (Some tid)) eqn:Hcan.
  { apply CanCheckpoint_true in Hcan as (_ & Hrec & Ho & Hall). rewrite Hrec in Hok.
    split; [done|]. split; [done|]. split; [done|]. split; [|by exists db].
    intros a Ha. specialize (Hall a Ha). by injection Hall. }
  destruct force; cbn [negb].
  2: { split; [done|]. split; [done|]. split; [by eexists|by left]. }
  destruct (force_loop_idle (length (active_transactions m)) m db Hi ltac:(lia) Hok ltac:(lia))
    as (Hi' & Ha' & _ & _ & _ & Hok').
  destruct (force_loop _ m db) as [m1 db1]. cbn [fst snd] in *.
  destruct (checkpoint_idle m1 db1 Hi' Ha' Hok') as [Hrec _]. rewrite Hrec in Hok'.
  split; [done|]. split; [done|]. split; [by apply (mi_idle _ Hi')|]. cbn. rewrite Ha' in *.
  split; [by intros a ?%elem_of_nil|by exists db1].
Qed.
End remove.

(** ** Exhaustion of the timestamps *)

(** Transactions without any effect. *)
#[local] Instance NoEffects : TransactionEffects () := {
  InMemory _ := true;
  GetCatalogVersion _ := 0;
  ChangesMade _ _ := false;
  AutomaticCheckpoint _ _ := false;
  Commit _ _ _ _ := ((), ""%string);
  Rollback _ _ := ();
  Cleanup _ _ := ();
  CreateCheckpoint _ := ();
}.

(** only [StartTransaction] checks that timestamps stay below
    [TRANSACTION_ID_START].  When the timestamps run out, a commit gets a commit
    id that is the id of a running transaction, which then takes the committed
    version for its own. *)
Theorem timestamps_exhausted :
  let reader := Transaction_new 3 TRANSACTION_ID_START 0 in
  let writer := Transaction_new 5 (TRANSACTION_ID_START + 1) 0 in
  let m := mkTransactionManager 1 TRANSACTION_ID_START (TRANSACTION_ID_START + 2) [reader; writer] [] [] [] false in
  let '(m', _, error) := CommitTransaction m () (transaction_id writer) in
  error = ""%string ∧ active_transactions m' = [reader] ∧
  commit_id <$> recently_committed_transactions m' = [transaction_id reader] ∧
  StartTransaction m () =
    Throw (Exception "Cannot start more transactions, ran out of transaction identifiers!").
Proof. vm_compute. repeat split. Qed.
