(* ===== verification/SnapshotKeys.v ===== *)
(** * Identifiers of transactions, for stores under the transaction manager

    What the implementations of the interface of TransactionManager share: the
    running transactions are pairs of a start time and an identifier, the
    committed ones that are kept also have a commit id, and all of them are
    ordered and distinct.  Lemmas: each event of the manager keeps this. *)

From S2P Require Import Prelude Constants ChunkInfo TransactionManager.

Record keys_ok (act : list (Z * Z)) (rec : list (Z * Z * Z)) : Prop := {
  ko_act : ∀ st tid, (st, tid) ∈ act → snapshot st tid;
  ko_rec : ∀ st tid c, ((st, tid), c) ∈ rec → 0 <= st < c ∧ c < TRANSACTION_ID_START - 1;
  ko_ids : NoDup (act.*2 ++ rec.*1.*2);
  ko_commits : NoDup rec.*2;
  ko_sorted : StronglySorted Z.lt rec.*2;
}.

Lemma keys_act act rec st tid st' :
  keys_ok act rec → (st, tid) ∈ act → (st', tid) ∈ act → st = st'.
Proof.
  intros Hk H1 H2. pose proof (ko_ids _ _ Hk) as [Hnd _]%NoDup_app.
  apply list_elem_of_lookup in H1 as [i Hi], H2 as [j Hj].
  assert (i = j) as ->; [|congruence].
  eapply (NoDup_lookup act.*2); [done|..]; by rewrite list_lookup_fmap, ?Hi, ?Hj.
Qed.

Lemma keys_disjoint act rec st tid st' c :
  keys_ok act rec → (st, tid) ∈ act → ((st', tid), c) ∈ rec → False.
Proof.
  intros Hk H1 H2. pose proof (ko_ids _ _ Hk) as (_ & Hd & _)%NoDup_app. apply (Hd tid).
  - by apply (list_elem_of_fmap_2 snd) in H1.
  - apply (list_elem_of_fmap_2 fst), (list_elem_of_fmap_2 snd) in H2. done.
Qed.

Lemma without_spec tid act st i : (st, i) ∈ without tid act ↔ (st, i) ∈ act ∧ i ≠ tid.
Proof. unfold without. rewrite elem_of_filter_b, negb_true_iff, Z.eqb_neq. done. Qed.

Lemma without_ids tid act rec : keys_ok act rec → NoDup ((without tid act).*2 ++ rec.*1.*2).
Proof.
  intros Hk. pose proof (ko_ids _ _ Hk) as (Hn & Hd & Hr)%NoDup_app. apply NoDup_app. split; [|split; [|done]].
  - unfold without. clear -Hn. induction act as [|k act IH]; [done|]. cbn in *. apply NoDup_cons in Hn as [Hk Hn].
    destruct (k.2 =? tid); cbn; [auto|]. apply NoDup_cons. split; [|auto].
    intros (p & Hp & [Hin _]%elem_of_filter_b)%list_elem_of_fmap. apply Hk. rewrite Hp. by apply list_elem_of_fmap_2.
  - intros i (p & -> & [Hin _]%elem_of_filter_b)%list_elem_of_fmap. apply Hd. by apply list_elem_of_fmap_2.
Qed.

Lemma keys_nil : keys_ok [] [].
Proof. split; [by intros ? ? ?%elem_of_nil|by intros ? ? ? ?%elem_of_nil|constructor..]. Qed.

(** A transaction starts with identifiers above all others. *)
Lemma keys_start act rec st tid :
  keys_ok act rec → Forall (λ k, k.1 < st ∧ k.2 < tid) act → Forall (λ r, r.2 < st ∧ r.1.2 < tid) rec →
  snapshot st tid → keys_ok (act ++ [(st, tid)]) rec.
Proof.
  intros Hk Hact Hrec Hsnap. rewrite Forall_forall in Hact. rewrite Forall_forall in Hrec. split.
  - intros st' tid' [Hin|[= -> ->]%list_elem_of_singleton]%elem_of_app; [by apply (ko_act _ _ Hk)|done].
  - apply (ko_rec _ _ Hk).
  - pose proof (ko_ids _ _ Hk) as (Hn & Hd & Hr)%NoDup_app. rewrite fmap_app, <-app_assoc. cbn.
    apply NoDup_app. split; [done|]. split.
    + intros i Hi [->|Hi']%elem_of_cons; [|by apply (Hd i)].
      apply list_elem_of_fmap in Hi as (p & Hp & Hin). specialize (Hact p Hin). cbn in *. lia.
    + apply NoDup_cons. split; [|done]. intros (q & Hq & (p & -> & Hp)%list_elem_of_fmap)%list_elem_of_fmap.
      specialize (Hrec p Hp). lia.
  - apply (ko_commits _ _ Hk).
  - apply (ko_sorted _ _ Hk).
Qed.

Lemma keys_without act rec tid : keys_ok act rec → keys_ok (without tid act) rec.
Proof.
  intros Hk. split; [|apply (ko_rec _ _ Hk)|by apply without_ids|apply (ko_commits _ _ Hk)|apply (ko_sorted _ _ Hk)].
  intros st i [Hi _]%without_spec. by apply (ko_act _ _ Hk).
Qed.

Lemma keys_cleanup act r rec : keys_ok act (r :: rec) → keys_ok act rec.
Proof.
  intros Hk. split; [apply (ko_act _ _ Hk)|intros st i c Hi; apply (ko_rec _ _ Hk st i c); by right| | |].
  - pose proof (ko_ids _ _ Hk) as (Hn & Hd & [_ Hr]%NoDup_cons)%NoDup_app. apply NoDup_app.
    split; [done|]. split; [|done]. intros i Hi Hi'. apply (Hd i Hi). by right.
  - by pose proof (ko_commits _ _ Hk) as [_ ?]%NoDup_cons.
  - by pose proof (ko_sorted _ _ Hk) as [? _]%StronglySorted_inv.
Qed.

Lemma keys_commit act rec t c :
  keys_ok act rec → key t ∈ act → (∀ k, k ∈ act → k.1 < c) → (∀ r, r ∈ rec → r.2 < c) →
  c < TRANSACTION_ID_START - 1 → keys_ok (without (transaction_id t) act) (rec ++ [(key t, c)]).
Proof.
  intros Hk Hin Hact Hrec Hc. pose proof (ko_ids _ _ Hk) as (Hn & Hd & Hr)%NoDup_app.
  destruct (ko_act _ _ Hk _ _ Hin) as [[Hst0 _] _]. split.
  - intros st i [Hi _]%without_spec. by apply (ko_act _ _ Hk).
  - intros st i c' [Hi|[= -> -> ->]%list_elem_of_singleton]%elem_of_app; [by apply (ko_rec _ _ Hk _ i)|].
    specialize (Hact _ Hin). cbn in Hact. lia.
  - pose proof (without_ids (transaction_id t) act rec Hk) as Hw. rewrite !fmap_app, app_assoc. cbn.
    apply NoDup_app. split; [done|]. split; [|apply NoDup_singleton]. intros i Hi ->%list_elem_of_singleton.
    apply elem_of_app in Hi as [(p & Hp & [_ Hf]%elem_of_filter_b)%list_elem_of_fmap|Hi].
    + apply negb_true_iff, Z.eqb_neq in Hf. congruence.
    + apply (Hd (transaction_id t)); [|done]. by apply (list_elem_of_fmap_2 snd) in Hin.
  - rewrite fmap_app. cbn. apply NoDup_app. split; [apply (ko_commits _ _ Hk)|].
    split; [|apply NoDup_singleton]. intros c' (p & -> & Hp)%list_elem_of_fmap Heq%list_elem_of_singleton.
    specialize (Hrec p Hp). lia.
  - rewrite fmap_app. cbn. apply StronglySorted_app_2; [|apply (ko_sorted _ _ Hk)|repeat constructor].
    intros x y (p & -> & Hp)%list_elem_of_fmap ->%list_elem_of_singleton. by apply Hrec.
Qed.
