(* ===== verification/UndoBuffer.v ===== *)
(** * The undo buffer

    Models src/src/transaction/undo_buffer.cpp and undo_buffer.hpp, and the
    functions of src/src/transaction/transaction.cpp that push entries.  A
    transaction logs its changes in a list of memory chunks: each entry is a
    type and a length, four bytes each, and a payload that is padded to a
    multiple of eight bytes.  Commit, rollback and cleanup walk over the
    entries, forwards or backwards.

    A buffer is the list of its chunks from [head] along [next]; [prev] goes
    the other way and [tail] is the last.  A pointer into a chunk is the number
    of the chunk, counted from the tail, and an offset.

    Theorems: what was pushed is visited in order (or in reverse), with its
    type and payload, and no write leaves its chunk; a commit that fails at an
    entry is reverted for exactly the entries up to and including that one. *)

From S2P Require Import Prelude Constants Serializer.

(** ** Entries and chunks *)

Inductive UndoFlags : Set :=
| EMPTY_ENTRY
| CATALOG_ENTRY
| INSERT_TUPLE
| DELETE_TUPLE
| UPDATE_TUPLE.

#[global] Instance UndoFlags_eq_dec : EqDecision UndoFlags.
Proof. solve_decision. Defined.

Definition UndoFlags_value (f : UndoFlags) : Z :=
  match f with
  | EMPTY_ENTRY => 0
  | CATALOG_ENTRY => 1
  | INSERT_TUPLE => 2
  | DELETE_TUPLE => 3
  | UPDATE_TUPLE => 4
  end.

Definition DEFAULT_UNDO_CHUNK_SIZE : nat := Z.to_nat (4096 * 3).

Definition UNDO_ENTRY_HEADER_SIZE : nat := 8.

Definition AlignLength (len : nat) : nat := ((len + 7) / 8 * 8)%nat.

Record UndoChunk : Set := mkUndoChunk {
  uc_data : list Z;
  current_position : nat;
  maximum_size : nat;
}.

(** The memory of a new chunk is not initialised; nothing reads it before it
    is written. *)
Definition UndoChunk_new (size : nat) : UndoChunk := mkUndoChunk (replicate size 0) 0 size.

(** [UndoChunk::WriteEntry], with the offset of the payload; [len] is a
    [uint32_t]. *)
Definition UndoChunk_WriteEntry (c : UndoChunk) (type : UndoFlags) (len : nat) : UndoChunk * nat :=
  let len := Z.to_nat (wrapU 32 (Z.of_nat (AlignLength len))) in
  let data := memcpy_at (current_position c) (le_encode 4 (UndoFlags_value type)) (uc_data c) in
  let data := memcpy_at (current_position c + 4) (le_encode 4 (Z.of_nat len)) data in
  let result := (current_position c + 8)%nat in
  (mkUndoChunk data (result + len) (maximum_size c), result).

Abbreviation UndoBuffer := (list UndoChunk).
Abbreviation undo_ptr := (nat * nat)%type.

Definition UndoBuffer_new : UndoBuffer := [UndoChunk_new 0].

Definition UndoBuffer_CreateEntry (buf : UndoBuffer) (type : UndoFlags) (len : nat)
    : UndoBuffer * undo_ptr :=
  let needed_space := AlignLength (len + UNDO_ENTRY_HEADER_SIZE) in
  let buf :=
    match buf with
    | head :: _ =>
        if (maximum_size head <=? current_position head + needed_space)%nat then
          UndoChunk_new (if (DEFAULT_UNDO_CHUNK_SIZE <? needed_space)%nat then needed_space
                         else DEFAULT_UNDO_CHUNK_SIZE) :: buf
        else buf
    | [] => []
    end in
  match buf with
  | head :: next =>
      let '(head, off) := UndoChunk_WriteEntry head type len in (head :: next, (length next, off))
  | [] => ([], (0, 0)%nat)
  end.

(** The memory behind a pointer. *)
Definition chunk_at (buf : UndoBuffer) (number : nat) : option UndoChunk := reverse buf !! number.

Definition undo_read (buf : UndoBuffer) (p : undo_ptr) (n : nat) : list Z :=
  match chunk_at buf p.1 with
  | Some c => take n (drop p.2 (uc_data c))
  | None => []
  end.

Definition undo_write (buf : UndoBuffer) (p : undo_ptr) (bytes : list Z) : UndoBuffer :=
  alter (λ c, mkUndoChunk (memcpy_at p.2 bytes (uc_data c)) (current_position c) (maximum_size c))
    (length buf - 1 - p.1)%nat buf.

(** An entry of [len] bytes and what the [Push...] functions of a transaction
    store at its start. *)
Definition UndoBuffer_Push (buf : UndoBuffer) (type : UndoFlags) (len : nat) (payload : list Z) : UndoBuffer :=
  let '(buf, p) := UndoBuffer_CreateEntry buf type len in
  undo_write buf p payload.

(** What is pushed: a type, the reserved length and the payload. *)
Abbreviation logged := (UndoFlags * nat * list Z)%type.

(** Pointers are 8 bytes long, so [sizeof(AppendInfo)] is 24 and
    [sizeof(DeleteInfo)], which counts one row, is 40. *)
Definition append_entry (table start_row row_count : Z) : logged :=
  (INSERT_TUPLE, 24%nat, le_encode 8 table ++ le_encode 8 start_row ++ le_encode 8 row_count).

Definition delete_entry (table vinfo base_row : Z) (rows : list Z) : logged :=
  (DELETE_TUPLE, (40 + 8 * length rows)%nat,
   le_encode 8 table ++ le_encode 8 vinfo ++ le_encode 8 (Z.of_nat (length rows)) ++
   le_encode 8 base_row ++ concat (le_encode 8 <$> rows)).

Definition catalog_entry (entry : Z) (extra_data : list Z) : logged :=
  let alloc_size := (if (0 <? length extra_data)%nat then 8 + (length extra_data + 8) else 8)%nat in
  (CATALOG_ENTRY, alloc_size,
   le_encode 8 entry ++
   if (0 <? length extra_data)%nat then le_encode 8 (Z.of_nat (length extra_data)) ++ extra_data else []).

Definition push (buf : UndoBuffer) (x : logged) : UndoBuffer := UndoBuffer_Push buf x.1.1 x.1.2 x.2.

Definition PushAppend (buf : UndoBuffer) (table start_row row_count : Z) : UndoBuffer :=
  push buf (append_entry table start_row row_count).

Definition PushDelete (buf : UndoBuffer) (table vinfo base_row : Z) (rows : list Z) : UndoBuffer :=
  push buf (delete_entry table vinfo base_row rows).

Definition PushCatalogEntry (buf : UndoBuffer) (entry : Z) (extra_data : list Z) : UndoBuffer :=
  push buf (catalog_entry entry extra_data).

Definition UndoBuffer_ChangesMade (buf : UndoBuffer) : bool :=
  match buf with head :: _ => (0 <? maximum_size head)%nat | [] => false end.

Definition UndoBuffer_EstimatedSize (buf : UndoBuffer) : nat :=
  foldl (λ estimated_size node, estimated_size + current_position node)%nat 0%nat buf.

(** ** Iteration *)

Definition load_u32 (data : list Z) (off : nat) : Z := le_decode (take 4 (drop off data)).

(** [UndoBuffer::IteratorState]: the current chunk and [start]. *)
Abbreviation IteratorState := (option undo_ptr).

Section iterate.
Context {St : Type}.

Section forward.
Variable callback : Z → undo_ptr → St → out St ().

(** The loop over one chunk, from [start] to [stop]. *)
Fixpoint chunk_loop (fuel : nat) (number : nat) (data : list Z) (start stop : nat) (s : St)
    : out (St * nat) () :=
  match fuel with
  | O => Ret (s, start) ()
  | S fuel =>
      if (start <? stop)%nat then
        let type := load_u32 data start in
        let len := load_u32 data (start + 4) in
        let start := (start + 8)%nat in
        match callback type (number, start) s with
        | Raise s e => Raise (s, start) e
        | Ret s _ => chunk_loop fuel number data (start + Z.to_nat len) stop s
        end
      else Ret (s, start) ()
  end.

(** The loop over the chunks, from the tail. *)
Fixpoint iterate_from (number : nat) (chunks : list UndoChunk) (s : St) : out (St * IteratorState) () :=
  match chunks with
  | [] => Ret (s, None) ()
  | c :: chunks =>
      match chunk_loop (current_position c) number (uc_data c) 0 (current_position c) s with
      | Raise (s, start) e => Raise (s, Some (number, start)) e
      | Ret (s, _) _ => iterate_from (S number) chunks s
      end
  end.

Definition IterateEntries (buf : UndoBuffer) (s : St) : out (St * IteratorState) () :=
  iterate_from 0 (reverse buf) s.

(** The second [IterateEntries], which stops at [end_state]. *)
Fixpoint iterate_until (end_state : IteratorState) (number : nat) (chunks : list UndoChunk) (s : St)
    : out St () :=
  match chunks with
  | [] => Ret s ()
  | c :: chunks =>
      let last := bool_decide (fst <$> end_state = Some number) in
      let stop := match end_state with
                  | Some p => if last then p.2 else current_position c
                  | None => current_position c
                  end in
      match chunk_loop (current_position c) number (uc_data c) 0 stop s with
      | Raise (s, _) e => Raise s e
      | Ret (s, _) _ => if last then Ret s () else iterate_until end_state (S number) chunks s
      end
  end.

Definition IterateUntil (buf : UndoBuffer) (end_state : IteratorState) (s : St) : out St () :=
  iterate_until end_state 0 (reverse buf) s.
End forward.

(** The nodes of one chunk. *)
Fixpoint chunk_nodes (fuel : nat) (number : nat) (data : list Z) (start stop : nat) : list (Z * undo_ptr) :=
  match fuel with
  | O => []
  | S fuel =>
      if (start <? stop)%nat then
        let type := load_u32 data start in
        let len := load_u32 data (start + 4) in
        let start := (start + 8)%nat in
        (type, (number, start)) :: chunk_nodes fuel number data (start + Z.to_nat len) stop
      else []
  end.

Fixpoint reverse_from (callback : Z → undo_ptr → St → St) (chunks : list UndoChunk) (s : St) : St :=
  match chunks with
  | [] => s
  | c :: chunks =>
      let nodes := chunk_nodes (current_position c) (length chunks) (uc_data c) 0 (current_position c) in
      let s := foldl (λ s '(type, p), callback type p s) s (reverse nodes) in
      reverse_from callback chunks s
  end.

Definition ReverseIterateEntries (callback : Z → undo_ptr → St → St) (buf : UndoBuffer) (s : St) : St :=
  reverse_from callback buf s.

(** ** Specification *)

(** Calling back for a list of entries: the number of entries completed. *)
Fixpoint visit (callback : Z → undo_ptr → St → out St ()) (entries : list (Z * undo_ptr)) (s : St)
    : out (St * nat) () :=
  match entries with
  | [] => Ret (s, 0%nat) ()
  | (type, p) :: entries =>
      match callback type p s with
      | Raise s e => Raise (s, 0%nat) e
      | Ret s _ =>
          match visit callback entries s with
          | Ret (s, n) _ => Ret (s, S n) ()
          | Raise (s, n) e => Raise (s, S n) e
          end
      end
  end.
End iterate.

(** An entry in memory: its type and its padded payload. *)
Abbreviation entry_t := (Z * list Z)%type.

Definition entry_ok (e : entry_t) : Prop := 0 <= e.1 < 2 ^ 32 ∧ Z.of_nat (length e.2) < 2 ^ 32.

Definition encode_entry (e : entry_t) : list Z :=
  le_encode 4 e.1 ++ le_encode 4 (Z.of_nat (length e.2)) ++ e.2.

Definition encode_entries (es : list entry_t) : list Z := concat (encode_entry <$> es).

(** The entries of a chunk, from the offset [off]. *)
Fixpoint entry_ptrs (number off : nat) (es : list entry_t) : list (Z * undo_ptr) :=
  match es with
  | [] => []
  | e :: es => (e.1, (number, off + 8)%nat) :: entry_ptrs number (off + 8 + length e.2) es
  end.

Record chunk_rep (c : UndoChunk) (es : list entry_t) : Prop := {
  cr_size : length (uc_data c) = maximum_size c;
  cr_position : (current_position c <= maximum_size c)%nat;
  cr_entries : take (current_position c) (uc_data c) = encode_entries es;
  cr_ok : Forall entry_ok es;
}.

(** The entries of the chunks from the tail, and all of them in order. *)
Definition buffer_rep (buf : UndoBuffer) (parts : list (list entry_t)) : Prop :=
  Forall2 chunk_rep (reverse buf) parts.

Fixpoint all_ptrs (number : nat) (parts : list (list entry_t)) : list (Z * undo_ptr) :=
  match parts with
  | [] => []
  | es :: parts => entry_ptrs number 0 es ++ all_ptrs (S number) parts
  end.

(** The nodes of all the chunks, from the tail. *)
Definition UndoBuffer_entries (buf : UndoBuffer) : list (Z * undo_ptr) :=
  concat (imap (λ number c, chunk_nodes (current_position c) number (uc_data c) 0 (current_position c)) (reverse buf)).

(** ** Lemmas *)

Lemma length_encode_entry e : length (encode_entry e) = (8 + length e.2)%nat.
Proof. unfold encode_entry. rewrite !length_app, !length_le_encode. lia. Qed.

Lemma encode_entries_cons e es : encode_entries (e :: es) = encode_entry e ++ encode_entries es.
Proof. done. Qed.

Lemma length_encode_entries es : (8 * length es <= length (encode_entries es))%nat.
Proof.
  induction es as [|e es IH]; [done|]. rewrite encode_entries_cons, length_app, length_encode_entry. cbn. lia.
Qed.

(** The loop stops after the entries [es]: each starts before [stop]. *)
Fixpoint stop_after (start : nat) (es : list entry_t) (stop : nat) : Prop :=
  match es with
  | [] => (stop <= start)%nat
  | e :: es => (start < stop)%nat ∧ stop_after (start + 8 + length e.2) es stop
  end.

Lemma stop_after_all start es : stop_after start es (start + length (encode_entries es)).
Proof.
  revert start. induction es as [|e es IH]; intros start; [cbn; lia|].
  rewrite encode_entries_cons, length_app, length_encode_entry. split; [lia|].
  replace (start + (8 + length e.2 + length (encode_entries es)))%nat
    with (start + 8 + length e.2 + length (encode_entries es))%nat by lia. apply IH.
Qed.

Lemma stop_after_prefix start es k number t p :
  entry_ptrs number start es !! k = Some (t, p) → stop_after start (take (S k) es) p.2.
Proof.
  revert start k. induction es as [|e es IH]; intros start k Hk; [done|].
  destruct k as [|k]; cbn in *.
  - injection Hk as _ <-. rewrite take_0. cbn. lia.
  - assert (start < p.2)%nat as Hlt.
    { clear IH. apply list_elem_of_lookup_2 in Hk. revert Hk.
      assert (∀ es off, (start < off)%nat → (t, p) ∈ entry_ptrs number off es → (start < p.2)%nat) as Hgen.
      { clear. intros es. induction es as [|e es IH]; intros off Hoff; cbn; [by intros ?%elem_of_nil|].
        intros [[= _ ->]|Hin]%elem_of_cons; [cbn; lia|]. eapply IH; [|exact Hin]. lia. }
      apply Hgen. lia. }
    split; [done|]. by apply IH.
Qed.

(** Reading a header. *)
Lemma load_header data start e rest :
  entry_ok e → drop start data = encode_entry e ++ rest →
  load_u32 data start = e.1 ∧ load_u32 data (start + 4) = Z.of_nat (length e.2) ∧
  drop (start + 8 + length e.2) data = rest ∧ take (length e.2) (drop (start + 8) data) = e.2.
Proof.
  intros [Ht Hl] Hd. unfold load_u32.
  assert (∀ z (l : list Z), take 4 (le_encode 4 z ++ l) = le_encode 4 z ∧ drop 4 (le_encode 4 z ++ l) = l) as H4.
  { intros z l. split; [|apply drop_app_length'; by rewrite length_le_encode].
    rewrite take_app_le by (by rewrite length_le_encode). apply take_ge. by rewrite length_le_encode. }
  unfold encode_entry in Hd. rewrite <-!app_assoc in Hd.
  assert (drop (start + 4) data = le_encode 4 (Z.of_nat (length e.2)) ++ e.2 ++ rest) as Hd4.
  { rewrite <-drop_drop, Hd. apply H4. }
  assert (drop (start + 8) data = e.2 ++ rest) as Hd8.
  { replace (start + 8)%nat with (start + 4 + 4)%nat by lia. rewrite <-drop_drop, Hd4. apply H4. }
  rewrite <-(drop_drop data (length e.2)), Hd, Hd4, Hd8, !(proj1 (H4 _ _)), !le_decode_encode by (cbn; lia).
  split; [done|]. split; [done|]. split; [apply drop_app_length|apply take_app_length].
Qed.

Section iterate_lemmas.
Context {St : Type}.
Implicit Types (callback : Z → undo_ptr → St → out St ()) (s : St) (l : list (Z * undo_ptr)).

(** The state of the iterator when the callback for entry [n] of [l] threw. *)
Definition failed_at l (n : nat) : IteratorState := snd <$> l !! n.

Lemma chunk_loop_visit callback number data es : ∀ fuel start stop rest s,
  Forall entry_ok es → drop start data = encode_entries es ++ rest →
  stop_after start es stop → (length es <= fuel)%nat →
  match visit callback (entry_ptrs number start es) s with
  | Ret (s', _) _ => ∃ p, chunk_loop callback fuel number data start stop s = Ret (s', p) ()
  | Raise (s', n) e => ∃ p, failed_at (entry_ptrs number start es) n = Some (number, p) ∧
      chunk_loop callback fuel number data start stop s = Raise (s', p) e
  end.
Proof.
  induction es as [|e es IH]; intros fuel start stop rest s Hok Hd Hstop Hfuel.
  - cbn in *. exists start. destruct fuel; [done|]. cbn [chunk_loop chunk_nodes]. by rewrite (proj2 (Nat.ltb_ge start stop)) by done.
  - apply Forall_cons in Hok as [He Hok]. destruct Hstop as [Hlt Hstop].
    rewrite encode_entries_cons, <-app_assoc in Hd.
    destruct (load_header data start e _ He Hd) as (Ht & Hl & Hrest & _).
    destruct fuel as [|fuel]; [cbn in Hfuel; lia|]. cbn [chunk_loop entry_ptrs visit].
    destruct (Nat.ltb_spec start stop) as [_|]; [|lia]. rewrite Ht, Hl, Nat2Z.id.
    destruct (callback e.1 (number, (start + 8)%nat) s) as [s1 []|s1 ex].
    + cbn in Hfuel. specialize (IH fuel (start + 8 + length e.2)%nat stop rest s1 Hok Hrest Hstop ltac:(lia)).
      by destruct (visit callback _ s1) as [[s' n] []|[s' n] ex].
    + eexists. split; [|done]. done.
Qed.

Lemma visit_app callback l1 l2 s :
  visit callback (l1 ++ l2) s =
    match visit callback l1 s with
    | Raise (s, n) e => Raise (s, n) e
    | Ret (s, _) _ =>
        match visit callback l2 s with
        | Ret (s, n) _ => Ret (s, (length l1 + n)%nat) ()
        | Raise (s, n) e => Raise (s, (length l1 + n)%nat) e
        end
    end.
Proof.
  revert s. induction l1 as [|[t p] l1 IH]; intros s; cbn.
  - by destruct (visit callback l2 s) as [[s' n] []|[s' n] e].
  - destruct (callback t p s) as [s1 []|s1 e]; [|done]. rewrite IH.
    destruct (visit callback l1 s1) as [[s2 n] []|[s2 n] e]; [|done].
    by destruct (visit callback l2 s2) as [[s' n'] []|[s' n'] e].
Qed.

Lemma visit_length callback l s s' n :
  (visit callback l s = Ret (s', n) () → n = length l) ∧
  (∀ e, visit callback l s = Raise (s', n) e → (n < length l)%nat).
Proof.
  revert s n. induction l as [|[t p] l IH]; intros s n; cbn; [split; [by intros [= _ <-]|done]|].
  destruct (callback t p s) as [s1 []|s1 e]; [|split; [done|intros e' [= _ <- _]; lia]].
  destruct (visit callback l s1) as [[s2 n2] []|[s2 n2] e] eqn:Hv.
  - split; [|done]. intros [= <- <-]. destruct (IH s1 n2) as [H1 _]. by rewrite (H1 Hv).
  - split; [done|]. intros e' [= <- <- <-]. destruct (IH s1 n2) as [_ H2]. specialize (H2 e Hv). lia.
Qed.

(** A chunk is read from its start. *)
Lemma chunk_rep_loop callback number c es s :
  chunk_rep c es →
  match visit callback (entry_ptrs number 0 es) s with
  | Ret (s', _) _ => ∃ p, chunk_loop callback (current_position c) number (uc_data c) 0 (current_position c) s =
      Ret (s', p) ()
  | Raise (s', n) e => ∃ p, failed_at (entry_ptrs number 0 es) n = Some (number, p) ∧
      chunk_loop callback (current_position c) number (uc_data c) 0 (current_position c) s = Raise (s', p) e
  end.
Proof.
  intros [Hsz Hpos Hes Hok].
  assert (length (encode_entries es) = current_position c) as Hlen by (rewrite <-Hes, length_take; lia).
  pose proof (length_encode_entries es).
  apply (chunk_loop_visit callback number (uc_data c) es _ 0 _ (drop (current_position c) (uc_data c))); [done| | |lia].
  - rewrite drop_0, <-Hes. symmetry. apply take_drop.
  - rewrite <-Hlen. apply (stop_after_all 0).
Qed.

Lemma iterate_from_visit callback chunks parts : ∀ number s,
  Forall2 chunk_rep chunks parts →
  iterate_from callback number chunks s =
    match visit callback (all_ptrs number parts) s with
    | Ret (s', _) _ => Ret (s', None) ()
    | Raise (s', n) e => Raise (s', failed_at (all_ptrs number parts) n) e
    end.
Proof.
  intros number s Hrep. revert number s. induction Hrep as [|c es chunks parts Hc Hrep IH]; intros number s; [done|].
  cbn [iterate_from all_ptrs]. rewrite visit_app. pose proof (chunk_rep_loop callback number c es s Hc) as Hl.
  destruct (visit callback (entry_ptrs number 0 es) s) as [[s1 n1] []|[s1 n1] e] eqn:Hv.
  - destruct Hl as [p ->]. rewrite IH.
    destruct (visit callback (all_ptrs (S number) parts) s1) as [[s2 n2] []|[s2 n2] e]; [done|].
    unfold failed_at. by rewrite lookup_app_r, Nat.add_comm, Nat.add_sub by lia.
  - destruct Hl as (p & Hp & ->). unfold failed_at in *.
    pose proof (proj2 (visit_length callback _ s s1 n1) e Hv). by rewrite lookup_app_l, Hp.
Qed.

(** Stopping at the entry where a callback threw. *)
Lemma entry_ptrs_number number off es k t p : entry_ptrs number off es !! k = Some (t, p) → p.1 = number.
Proof.
  revert off k. induction es as [|e es IH]; intros off k; [done|]. destruct k; cbn; [by intros [= _ <-]|apply IH].
Qed.

Lemma all_ptrs_number number parts k t p : all_ptrs number parts !! k = Some (t, p) → (number <= p.1)%nat.
Proof.
  revert number k. induction parts as [|es parts IH]; intros number k; [done|]. cbn. rewrite lookup_app_Some.
  intros [Hk|[_ Hk]]; [by rewrite (entry_ptrs_number _ _ _ _ _ _ Hk)|]. apply IH in Hk. lia.
Qed.

Lemma take_entry_ptrs k number off es : take k (entry_ptrs number off es) = entry_ptrs number off (take k es).
Proof. revert off k. induction es as [|e es IH]; intros off [|k]; cbn; [done..|]. by rewrite IH. Qed.

Lemma entry_ptrs_app number off es1 es2 :
  entry_ptrs number off (es1 ++ es2) =
    entry_ptrs number off es1 ++ entry_ptrs number (off + length (encode_entries es1)) es2.
Proof.
  revert off. induction es1 as [|e es1 IH]; intros off; [by rewrite Nat.add_0_r|].
  cbn [app entry_ptrs]. rewrite IH, encode_entries_cons, length_app, length_encode_entry.
  replace (off + 8 + length e.2 + length (encode_entries es1))%nat
    with (off + (8 + length e.2 + length (encode_entries es1)))%nat by lia. done.
Qed.

Lemma length_entry_ptrs number off es : length (entry_ptrs number off es) = length es.
Proof. revert off. induction es as [|e es IH]; intros off; [done|]. cbn. by rewrite IH. Qed.

Lemma encode_take k es : ∃ rest, encode_entries es = encode_entries (take k es) ++ rest.
Proof.
  exists (encode_entries (drop k es)). unfold encode_entries. by rewrite <-concat_app, <-fmap_app, take_drop.
Qed.

(** The state a visit ends in, without the count. *)
Definition outcome (o : out (St * nat) ()) : out St () :=
  match o with Ret (s, _) _ => Ret s () | Raise (s, _) e => Raise s e end.

Lemma iterate_until_none callback chunks parts : ∀ number s,
  Forall2 chunk_rep chunks parts →
  iterate_until callback None number chunks s = outcome (visit callback (all_ptrs number parts) s).
Proof.
  intros number s Hrep. revert number s. induction Hrep as [|c es chunks parts Hc Hrep IH]; intros number s; [done|].
  cbn [iterate_until all_ptrs]. rewrite visit_app. pose proof (chunk_rep_loop callback number c es s Hc) as Hl.
  cbn [fmap option_fmap option_map]. rewrite bool_decide_false by done.
  destruct (visit callback (entry_ptrs number 0 es) s) as [[s1 n1] []|[s1 n1] e].
  - destruct Hl as [p ->]. rewrite IH. by destruct (visit callback (all_ptrs (S number) parts) s1) as [[s2 n2] []|[s2 n2] e].
  - by destruct Hl as (p & _ & ->).
Qed.

Lemma chunk_rep_until callback number c es k t p s :
  chunk_rep c es → entry_ptrs number 0 es !! k = Some (t, p) →
  match visit callback (entry_ptrs number 0 (take (S k) es)) s with
  | Ret (s', _) _ => ∃ q, chunk_loop callback (current_position c) number (uc_data c) 0 p.2 s = Ret (s', q) ()
  | Raise (s', n) e => ∃ q, chunk_loop callback (current_position c) number (uc_data c) 0 p.2 s = Raise (s', q) e
  end.
Proof.
  intros [Hsz Hpos Hes Hok] Hk.
  assert (length (encode_entries es) = current_position c) as Hlen by (rewrite <-Hes, length_take; lia).
  pose proof (length_encode_entries es). destruct (encode_take (S k) es) as [rest Hrest].
  pose proof (chunk_loop_visit callback number (uc_data c) (take (S k) es) (current_position c) 0 p.2
    (rest ++ drop (current_position c) (uc_data c)) s) as Hl.
  destruct (visit callback (entry_ptrs number 0 (take (S k) es)) s) as [[s' n] []|[s' n] e];
    [apply Hl|destruct Hl as (q & _ & Hq); [..|by exists q]];
    try (by apply Forall_take); try (by eapply stop_after_prefix); try (rewrite length_take; lia);
    by rewrite drop_0, app_assoc, <-Hrest, <-Hes, take_drop.
Qed.

Lemma iterate_until_visit callback chunks parts : ∀ number k t p s,
  Forall2 chunk_rep chunks parts → all_ptrs number parts !! k = Some (t, p) →
  iterate_until callback (Some p) number chunks s = outcome (visit callback (take (S k) (all_ptrs number parts)) s).
Proof.
  intros number k t p s Hrep. revert number k s.
  induction Hrep as [|c es chunks parts Hc Hrep IH]; intros number k s Hk; [done|].
  cbn [iterate_until all_ptrs] in *. cbn [fmap option_fmap option_map].
  apply lookup_app_Some in Hk as [Hk|[Hge Hk]].
  - rewrite (bool_decide_true (Some p.1 = Some number)) by (by rewrite (entry_ptrs_number _ _ _ _ _ _ Hk)).
    pose proof (lookup_lt_Some _ _ _ Hk). rewrite take_app_le, take_entry_ptrs by lia.
    pose proof (chunk_rep_until callback number c es k t p s Hc Hk) as Hl.
    destruct (visit callback (entry_ptrs number 0 (take (S k) es)) s) as [[s1 n1] []|[s1 n1] e]; by destruct Hl as [q ->].
  - pose proof (all_ptrs_number _ _ _ _ _ Hk). rewrite bool_decide_false by (intros [=]; lia).
    rewrite take_app_ge by lia. rewrite visit_app.
    replace (S k - length (entry_ptrs number 0 es))%nat with (S (k - length (entry_ptrs number 0 es))) by lia.
    pose proof (chunk_rep_loop callback number c es s Hc) as Hl.
    destruct (visit callback (entry_ptrs number 0 es) s) as [[s1 n1] []|[s1 n1] e].
    + destruct Hl as [q ->]. rewrite (IH _ _ s1 Hk).
      by destruct (visit callback (take _ (all_ptrs (S number) parts)) s1) as [[s2 n2] []|[s2 n2] e].
    + by destruct Hl as (q & _ & ->).
Qed.

(** Reverse iteration. *)
Lemma chunk_nodes_ptrs number data es : ∀ fuel start stop rest,
  Forall entry_ok es → drop start data = encode_entries es ++ rest →
  stop_after start es stop → (length es <= fuel)%nat →
  chunk_nodes fuel number data start stop = entry_ptrs number start es.
Proof.
  induction es as [|e es IH]; intros fuel start stop rest Hok Hd Hstop Hfuel.
  - cbn in *. destruct fuel; [done|]. cbn [chunk_loop chunk_nodes]. by rewrite (proj2 (Nat.ltb_ge start stop)) by done.
  - apply Forall_cons in Hok as [He Hok]. destruct Hstop as [Hlt Hstop].
    rewrite encode_entries_cons, <-app_assoc in Hd.
    destruct (load_header data start e _ He Hd) as (Ht & Hl & Hrest & _).
    destruct fuel as [|fuel]; [cbn in Hfuel; lia|]. cbn [chunk_nodes entry_ptrs].
    destruct (Nat.ltb_spec start stop) as [_|]; [|lia]. rewrite Ht, Hl, Nat2Z.id.
    cbn in Hfuel. by rewrite (IH fuel _ stop rest) by (done || lia).
Qed.

Lemma chunk_rep_nodes number c es :
  chunk_rep c es →
  chunk_nodes (current_position c) number (uc_data c) 0 (current_position c) = entry_ptrs number 0 es.
Proof.
  intros [Hsz Hpos Hes Hok].
  assert (length (encode_entries es) = current_position c) as Hlen by (rewrite <-Hes, length_take; lia).
  pose proof (length_encode_entries es).
  apply (chunk_nodes_ptrs number (uc_data c) es _ 0 _ (drop (current_position c) (uc_data c))); [done| | |lia].
  - rewrite drop_0, <-Hes. symmetry. apply take_drop.
  - rewrite <-Hlen. apply (stop_after_all 0).
Qed.

Lemma all_ptrs_snoc number parts es :
  all_ptrs number (parts ++ [es]) = all_ptrs number parts ++ entry_ptrs (number + length parts) 0 es.
Proof.
  revert number. induction parts as [|x parts IH]; intros number; cbn.
  - by rewrite app_nil_r, Nat.add_0_r.
  - by rewrite IH, app_assoc, <-Nat.add_succ_comm.
Qed.

Lemma reverse_from_spec (callback : Z → undo_ptr → St → St) buf : ∀ parts s,
  buffer_rep buf parts →
  reverse_from callback buf s = foldl (λ s '(type, p), callback type p s) s (reverse (all_ptrs 0 parts)).
Proof.
  unfold buffer_rep. induction buf as [|c buf IH]; intros parts s Hrep.
  - apply Forall2_nil_inv_l in Hrep as ->. done.
  - rewrite reverse_cons in Hrep. apply Forall2_app_inv_l in Hrep as (parts0 & [|es []] & Hrep & H1 & ->);
      [by apply Forall2_cons_nil_inv in H1|..].
    + apply Forall2_cons in H1 as [Hc _]. cbn [reverse_from].
      assert (length buf = length parts0) as Hlen by (rewrite <-(length_reverse buf); by eapply Forall2_length).
      rewrite (chunk_rep_nodes _ _ es Hc), all_ptrs_snoc, reverse_app, foldl_app, <-IH, Hlen by done. done.
    + apply Forall2_cons in H1 as [_ H1]. by apply Forall2_nil_cons_inv in H1.
Qed.
End iterate_lemmas.

(** ** Pushing an entry *)

Lemma AlignLength_spec len :
  (len <= AlignLength len < len + 8)%nat ∧ (8 | AlignLength len)%nat ∧ AlignLength (len + 8) = (AlignLength len + 8)%nat.
Proof.
  unfold AlignLength. replace (len + 8 + 7)%nat with (len + 7 + 1 * 8)%nat by lia. rewrite Nat.div_add by lia.
  pose proof (Nat.div_mod_eq (len + 7) 8). pose proof (Nat.mod_upper_bound (len + 7) 8).
  split; [lia|]. split; [apply Nat.divide_factor_r|lia].
Qed.

Definition logged_ok (x : logged) : Prop := (length x.2 <= x.1.2)%nat ∧ Z.of_nat (x.1.2 + 8) <= 2 ^ 32.

(** The entry in memory for a pushed one: the payload, then padding. *)
Definition entry_of (e : entry_t) (x : logged) : Prop :=
  e.1 = UndoFlags_value x.1.1 ∧ length e.2 = AlignLength x.1.2 ∧ take (length x.2) e.2 = x.2.

Lemma UndoFlags_value_range f : 0 <= UndoFlags_value f < 2 ^ 32.
Proof. destruct f; cbn; lia. Qed.

Lemma take_memcpy_at_after n off buffer data :
  (off <= n)%nat → (n <= off + length buffer)%nat → (off + length buffer <= length data)%nat →
  take n (memcpy_at off buffer data) = take off data ++ take (n - off) buffer.
Proof.
  intros. unfold memcpy_at. rewrite take_app_ge by len. rewrite length_take, Nat.min_l by lia.
  by rewrite take_app_le by lia.
Qed.

Lemma WriteEntry_rep c es x :
  chunk_rep c es → logged_ok x → (current_position c + 8 + AlignLength x.1.2 <= maximum_size c)%nat →
  let '(c', off) := UndoChunk_WriteEntry c x.1.1 x.1.2 in
  off = (current_position c + 8)%nat ∧
  ∃ e, entry_of e x ∧
       chunk_rep (mkUndoChunk (memcpy_at off x.2 (uc_data c')) (current_position c') (maximum_size c')) (es ++ [e]).
Proof.
  intros [Hsz Hpos Hes Hok] [Hlen Hmax] Hfit. destruct x as [[f len] payload]. cbn [fst snd] in *.
  destruct (AlignLength_spec len) as (Hal & _ & _).
  unfold UndoChunk_WriteEntry. rewrite wrapU_small by (unfold inU; lia).
  rewrite Nat2Z.id. split; [done|].
  set (pos := current_position c) in *. set (al := AlignLength len) in *.
  set (d1 := memcpy_at pos _ (uc_data c)).
  set (d2 := memcpy_at (pos + 4) _ d1). set (d3 := memcpy_at (pos + 8) payload d2).
  assert (length d1 = maximum_size c) as L1 by (unfold d1; rewrite length_memcpy_at; len).
  assert (length d2 = maximum_size c) as L2 by (unfold d2; rewrite length_memcpy_at; len).
  assert (length d3 = maximum_size c) as L3 by (unfold d3; rewrite length_memcpy_at; [done|]; rewrite L2; lia).
  assert (take (pos + 8) d2 = encode_entries es ++ le_encode 4 (UndoFlags_value f) ++ le_encode 4 (Z.of_nat al)) as H2.
  { replace (pos + 8)%nat with (pos + 4 + length (le_encode 4 (Z.of_nat al)))%nat by len.
    unfold d2. rewrite take_memcpy_at by lia. unfold d1.
    replace (pos + 4)%nat with (pos + length (le_encode 4 (UndoFlags_value f)))%nat by len.
    rewrite take_memcpy_at, Hes, <-app_assoc by lia. done. }
  exists (UndoFlags_value f, take al (drop (pos + 8) d3)).
  assert (take (pos + 8) d3 = take (pos + 8) d2) as H3.
  { unfold d3. rewrite take_memcpy_at_after, Nat.sub_diag, take_0, app_nil_r by lia. done. }
  assert (take (length payload) (drop (pos + 8) d3) = payload) as Hp.
  { rewrite take_drop_commute. unfold d3. rewrite take_memcpy_at by lia.
    apply drop_app_length'. rewrite length_take. lia. }
  split.
  - split; [done|]. cbn [fst snd]. fold al. rewrite length_take, length_drop, L3. split; [lia|].
    by rewrite take_take, Nat.min_l by lia.
  - split; cbn [uc_data current_position maximum_size]; [done|lia| |].
    + unfold encode_entries. rewrite fmap_app, concat_app. fold (encode_entries es). cbn [fmap list_fmap concat].
      rewrite app_nil_r. unfold encode_entry. cbn [fst snd].
      rewrite length_take, length_drop, L3, Nat.min_l by lia.
      transitivity (take (pos + 8 + al) d3); [done|].
      rewrite <-(take_take_drop d3 (pos + 8) al), H3, H2. by rewrite <-!app_assoc.
    + apply Forall_app. split; [done|]. apply Forall_singleton. split; [apply UndoFlags_value_range|].
      cbn [fst snd]. rewrite length_take. lia.
Qed.

(** The entries of a buffer, against what was pushed. *)
Definition log_rep (buf : UndoBuffer) (log : list logged) (parts : list (list entry_t)) : Prop :=
  buf ≠ [] ∧ buffer_rep buf parts ∧ Forall2 entry_of (concat parts) log.

Lemma UndoChunk_new_rep size : chunk_rep (UndoChunk_new size) [].
Proof. split; cbn; [apply length_replicate|lia|by rewrite take_0|constructor]. Qed.

Lemma log_rep_new : log_rep UndoBuffer_new [] [[]].
Proof.
  split; [done|]. split; [|constructor]. apply Forall2_cons. split; [apply UndoChunk_new_rep|constructor].
Qed.

(** A chunk with room for the entry is at the head. *)
Lemma buffer_rep_cons c buf parts :
  buffer_rep (c :: buf) parts ↔ ∃ es parts0, parts = parts0 ++ [es] ∧ buffer_rep buf parts0 ∧ chunk_rep c es.
Proof.
  unfold buffer_rep. rewrite reverse_cons. split.
  - intros (parts0 & l & H0 & Hl & ->)%Forall2_app_inv_l. destruct l as [|es []]; [by inversion Hl| |].
    + apply Forall2_cons in Hl as [Hc _]. by exists es, parts0.
    + apply Forall2_cons in Hl as [_ Hl]. by inversion Hl.
  - intros (es & parts0 & -> & H0 & Hc). apply Forall2_app; [done|]. by apply Forall2_cons.
Qed.

Lemma undo_write_head c buf off bytes :
  undo_write (c :: buf) (length buf, off) bytes =
    mkUndoChunk (memcpy_at off bytes (uc_data c)) (current_position c) (maximum_size c) :: buf.
Proof. unfold undo_write. cbn [fst snd length]. by rewrite Nat.sub_succ, Nat.sub_0_r, Nat.sub_diag. Qed.

Lemma CreateEntry_head c buf parts0 es x :
  buffer_rep buf parts0 → chunk_rep c es → logged_ok x →
  (current_position c + 8 + AlignLength x.1.2 <= maximum_size c)%nat →
  let '(c', off) := UndoChunk_WriteEntry c x.1.1 x.1.2 in
  ∃ e, entry_of e x ∧ buffer_rep (undo_write (c' :: buf) (length buf, off) x.2) (parts0 ++ [es ++ [e]]).
Proof.
  intros H0 Hc Hx Hfit. pose proof (WriteEntry_rep c es x Hc Hx Hfit) as Hw.
  destruct (UndoChunk_WriteEntry c x.1.1 x.1.2) as [c' off]. destruct Hw as (_ & e & He & Hrep).
  exists e. split; [done|]. rewrite undo_write_head. apply buffer_rep_cons. by exists (es ++ [e]), parts0.
Qed.

(** Pushing appends one entry, and leaves the others where they are. *)
Lemma UndoBuffer_Push_rep buf log parts x :
  log_rep buf log parts → logged_ok x →
  ∃ parts', log_rep (UndoBuffer_Push buf x.1.1 x.1.2 x.2) (log ++ [x]) parts' ∧
            all_ptrs 0 parts `prefix_of` all_ptrs 0 parts'.
Proof.
  intros (Hne & Hrep & Hlog) Hx. destruct buf as [|c buf]; [done|].
  destruct (AlignLength_spec x.1.2) as (_ & _ & Hal). unfold UndoBuffer_Push, UndoBuffer_CreateEntry.
  unfold UNDO_ENTRY_HEADER_SIZE. rewrite Hal. set (size := if (_ <? _)%nat then _ else _).
  assert (∀ parts0 es e, entry_of e x → parts = parts0 ++ [es] →
    Forall2 entry_of (concat (parts0 ++ [es ++ [e]])) (log ++ [x])) as Happ.
  { intros parts0 es e He ->. rewrite concat_app in *. cbn in *. rewrite app_nil_r in *.
    rewrite app_assoc. apply Forall2_app; [done|]. by apply Forall2_cons. }
  destruct (Nat.leb_spec (maximum_size c) (current_position c + (AlignLength x.1.2 + 8))) as [Hfull|Hroom].
  - pose proof (CreateEntry_head (UndoChunk_new size) (c :: buf) parts [] x Hrep (UndoChunk_new_rep size) Hx) as Hw.
    destruct (UndoChunk_WriteEntry (UndoChunk_new size) x.1.1 x.1.2) as [c' off].
    destruct Hw as (e & He & Hrep').
    { cbn [current_position maximum_size UndoChunk_new]. unfold size.
      destruct (Nat.ltb_spec DEFAULT_UNDO_CHUNK_SIZE (AlignLength x.1.2 + 8)); lia. }
    exists (parts ++ [[e]]). split; [|rewrite all_ptrs_snoc; by eexists].
    split; [by rewrite undo_write_head|]. split; [done|].
    rewrite concat_app. cbn. apply Forall2_app; [done|]. by apply Forall2_cons.
  - pose proof Hrep as (es & parts0 & Hparts & H0 & Hc)%buffer_rep_cons.
    pose proof (CreateEntry_head c buf parts0 es x H0 Hc Hx ltac:(lia)) as Hw.
    destruct (UndoChunk_WriteEntry c x.1.1 x.1.2) as [c' off]. destruct Hw as (e & He & Hrep').
    exists (parts0 ++ [es ++ [e]]). split; [split; [by rewrite undo_write_head|]; split; [done|by apply Happ]|].
    subst parts. rewrite !all_ptrs_snoc. apply prefix_app. rewrite entry_ptrs_app. by eexists.
Qed.

Lemma imap_all_ptrs chunks parts : ∀ k f,
  Forall2 chunk_rep chunks parts →
  (∀ i c, f i c = chunk_nodes (current_position c) (k + i) (uc_data c) 0 (current_position c)) →
  concat (imap f chunks) = all_ptrs k parts.
Proof.
  intros k f Hrep. revert k f. induction Hrep as [|c es chunks parts Hc Hrep IH]; intros k f Hf; [done|].
  rewrite imap_cons. cbn [concat all_ptrs]. f_equal.
  - rewrite Hf, Nat.add_0_r. by apply chunk_rep_nodes.
  - apply IH. intros i c'. cbn. by rewrite Hf, <-Nat.add_succ_comm.
Qed.

Lemma UndoBuffer_entries_ptrs buf parts : buffer_rep buf parts → UndoBuffer_entries buf = all_ptrs 0 parts.
Proof. intros Hrep. by apply imap_all_ptrs. Qed.

(** Where an entry is: its type, its payload behind an aligned pointer, and the
    reserved bytes inside the chunk. *)
Definition placed (buf : UndoBuffer) (node : Z * undo_ptr) (x : logged) : Prop :=
  node.1 = UndoFlags_value x.1.1 ∧ undo_read buf node.2 (length x.2) = x.2 ∧ (8 | node.2.2)%nat ∧
  ∃ c, chunk_at buf node.2.1 = Some c ∧ (node.2.2 + x.1.2 <= maximum_size c)%nat.

(** The same for an entry in memory. *)
Definition located (c : UndoChunk) (number : nat) (node : Z * undo_ptr) (e : entry_t) : Prop :=
  node.1 = e.1 ∧ node.2.1 = number ∧ take (length e.2) (drop node.2.2 (uc_data c)) = e.2 ∧
  (node.2.2 + length e.2 <= maximum_size c)%nat.

Lemma entry_ptrs_located c number es : ∀ off rest,
  length (uc_data c) = maximum_size c → Forall entry_ok es → drop off (uc_data c) = encode_entries es ++ rest →
  Forall2 (located c number) (entry_ptrs number off es) es.
Proof.
  induction es as [|e es IH]; intros off rest Hsz Hok Hd; [constructor|].
  apply Forall_cons in Hok as [He Hok]. rewrite encode_entries_cons, <-app_assoc in Hd.
  destruct (load_header (uc_data c) off e _ He Hd) as (_ & _ & Hrest & Hp).
  cbn [entry_ptrs]. apply Forall2_cons. split; [|by eapply IH]. repeat split; [done|]. cbn [fst snd].
  apply (f_equal length) in Hd. rewrite length_drop, !length_app, length_encode_entry in Hd. lia.
Qed.

Lemma chunk_rep_located c number es :
  chunk_rep c es → Forall2 (located c number) (entry_ptrs number 0 es) es.
Proof.
  intros [Hsz Hpos Hes Hok]. apply (entry_ptrs_located c number es 0 (drop (current_position c) (uc_data c)));
    [done..|]. rewrite drop_0, <-Hes. symmetry. apply take_drop.
Qed.

Lemma all_ptrs_located chunks parts : ∀ k,
  Forall2 chunk_rep chunks parts →
  Forall2 (λ node e, ∃ c number, chunks !! number = Some c ∧ located c (k + number) node e)
    (all_ptrs k parts) (concat parts).
Proof.
  intros k Hrep. revert k. induction Hrep as [|c es chunks parts Hc Hrep IH]; intros k; [constructor|].
  cbn [all_ptrs concat]. apply Forall2_app.
  - eapply Forall2_impl; [by apply chunk_rep_located|]. intros node e Hl. exists c, 0%nat. by rewrite Nat.add_0_r.
  - eapply Forall2_impl; [apply IH|]. intros node e (c' & number & Hn & Hl). exists c', (S number).
    by rewrite <-Nat.add_succ_comm.
Qed.

Lemma entry_ptrs_aligned number es : ∀ off,
  (8 | off)%nat → Forall (λ e, (8 | length e.2)%nat) es → Forall (λ node, (8 | node.2.2)%nat) (entry_ptrs number off es).
Proof.
  induction es as [|e es IH]; intros off Hoff Hes; [constructor|]. apply Forall_cons in Hes as [He Hes].
  assert (8 | off + 8)%nat as H8 by (apply Nat.divide_add_r; [done|by exists 1%nat]).
  cbn [entry_ptrs]. apply Forall_cons. split; [done|]. apply IH; [|done]. by apply Nat.divide_add_r.
Qed.

Lemma all_ptrs_aligned parts : ∀ k,
  Forall (λ e, (8 | length e.2)%nat) (concat parts) → Forall (λ node, (8 | node.2.2)%nat) (all_ptrs k parts).
Proof.
  induction parts as [|es parts IH]; intros k; [constructor|]. cbn. rewrite !Forall_app. intros [H1 H2].
  split; [|by apply IH]. apply entry_ptrs_aligned; [by exists 0%nat|done].
Qed.

Lemma log_rep_placed buf log parts :
  log_rep buf log parts → Forall2 (placed buf) (UndoBuffer_entries buf) log.
Proof.
  intros (_ & Hrep & Hlog). rewrite (UndoBuffer_entries_ptrs buf parts) by done.
  pose proof (all_ptrs_located _ _ 0 Hrep) as Hloc.
  assert (Forall (λ e : entry_t, (8 | length e.2)%nat) (concat parts)) as Hal.
  { eapply Forall2_Forall_l; [exact Hlog|]. apply Forall_true. intros x e (_ & -> & _). apply AlignLength_spec. }
  apply (all_ptrs_aligned parts 0) in Hal.
  apply Forall2_lookup. intros k.
  pose proof (proj1 (Forall2_lookup _ _ _) Hlog k) as Hlk. pose proof (proj1 (Forall2_lookup _ _ _) Hloc k) as Hck.
  destruct (all_ptrs 0 parts !! k) as [node|] eqn:Hk.
  - inversion Hck as [? e (c & number & Hn & Ht & Hnum & Hr & Hb) He Hek|]; subst.
    rewrite <-Hek in Hlk. inversion Hlk as [? x (Ht' & Hl & Hp) Hx Hxk|]; subst. constructor.
    destruct (AlignLength_spec x.1.2) as (Ha & _ & _).
    assert (length x.2 <= length e.2)%nat as Hle by (rewrite <-Hp, length_take; lia).
    split; [congruence|]. rewrite Forall_lookup in Hal. rewrite Nat.add_0_l in Hnum.
    assert (chunk_at buf node.2.1 = Some c) as Hc by (unfold chunk_at; by rewrite Hnum).
    split; [|split; [by eapply Hal|exists c; split; [done|lia]]]. unfold undo_read. rewrite Hc.
    rewrite <-Hp at 2. by rewrite <-Hr, take_take, Nat.min_l.
  - inversion Hck as [|Hn Hek]; subst. rewrite <-Hek in Hlk. inversion Hlk. constructor.
Qed.

Definition push_all (buf : UndoBuffer) (log : list logged) : UndoBuffer :=
  foldl push buf log.

Lemma push_all_rep log : ∀ buf log0 parts,
  log_rep buf log0 parts → Forall logged_ok log →
  ∃ parts', log_rep (push_all buf log) (log0 ++ log) parts' ∧ all_ptrs 0 parts `prefix_of` all_ptrs 0 parts'.
Proof.
  induction log as [|x log IH]; intros buf log0 parts Hrep Hok; [exists parts; by rewrite app_nil_r|].
  apply Forall_cons in Hok as [Hx Hok]. destruct (UndoBuffer_Push_rep _ _ _ x Hrep Hx) as (parts1 & Hrep1 & Hp1).
  destruct (IH _ _ _ Hrep1 Hok) as (parts2 & Hrep2 & Hp2). exists parts2. rewrite <-app_assoc in Hrep2.
  split; [done|]. by transitivity (all_ptrs 0 parts1).
Qed.

Lemma EstimatedSize_sum buf : UndoBuffer_EstimatedSize buf = sum_list_with current_position (reverse buf).
Proof.
  rewrite sum_list_with_reverse. unfold UndoBuffer_EstimatedSize.
  assert (∀ n, foldl (λ a c, a + current_position c)%nat n buf = (n + sum_list_with current_position buf)%nat) as Hg;
    [|apply Hg].
  induction buf as [|c buf IH]; intros n; cbn; [lia|]. rewrite IH. lia.
Qed.

Lemma EstimatedSize_rep buf log parts :
  log_rep buf log parts →
  UndoBuffer_EstimatedSize buf = sum_list_with (λ x : logged, UNDO_ENTRY_HEADER_SIZE + AlignLength x.1.2)%nat log.
Proof.
  intros (_ & Hrep & Hlog). rewrite EstimatedSize_sum. unfold buffer_rep in Hrep.
  transitivity (length (encode_entries (concat parts))).
  - clear Hlog. induction Hrep as [|c es chunks parts [Hsz Hpos Hes _] _ IH]; [done|]. cbn [sum_list_with concat].
    rewrite IH. unfold encode_entries. rewrite fmap_app, concat_app, length_app. f_equal.
    fold (encode_entries es). rewrite <-Hes, length_take. lia.
  - clear Hrep. induction Hlog as [|e x es log (_ & Hl & _) _ IH]; [done|]. cbn [sum_list_with].
    by rewrite encode_entries_cons, length_app, length_encode_entry, Hl, IH.
Qed.

Lemma Push_ChangesMade buf type len payload : UndoBuffer_ChangesMade (UndoBuffer_Push (buf : UndoBuffer) type len payload) =
  negb (bool_decide (buf = [])).
Proof.
  destruct buf as [|c buf]; [done|]. unfold UndoBuffer_Push, UndoBuffer_CreateEntry.
  set (needed := AlignLength _).
  destruct (Nat.leb_spec (maximum_size c) (current_position c + needed)) as [_|Hlt];
    cbn [UndoChunk_WriteEntry length]; rewrite undo_write_head; cbn [UndoBuffer_ChangesMade maximum_size UndoChunk_new];
    apply Nat.ltb_lt; [|lia].
  assert (0 < DEFAULT_UNDO_CHUNK_SIZE)%nat by (apply Nat.ltb_lt; vm_compute; reflexivity).
  destruct (Nat.ltb_spec DEFAULT_UNDO_CHUNK_SIZE needed); lia.
Qed.

(** The undo buffer keeps what is pushed. After any sequence of pushes, whose
    reserved lengths fit in 32 bits and hold their payloads, there is one entry
    for each push, in order: it has the type that was pushed, the payload can be
    read back behind its pointer, the pointer is aligned to 8 bytes, and the
    reserved bytes lie inside their chunk. Pushing more entries moves none of the
    earlier ones. The estimated size is the sum of the headers and padded
    lengths, and changes were made exactly when something was pushed. *)
Theorem UndoBuffer_log (log1 log2 : list logged) :
  Forall logged_ok (log1 ++ log2) →
  let buf1 := push_all UndoBuffer_new log1 in
  let buf := push_all buf1 log2 in
  Forall2 (placed buf) (UndoBuffer_entries buf) (log1 ++ log2) ∧
  UndoBuffer_entries buf1 `prefix_of` UndoBuffer_entries buf ∧
  UndoBuffer_EstimatedSize buf =
    sum_list_with (λ x : logged, UNDO_ENTRY_HEADER_SIZE + AlignLength x.1.2)%nat (log1 ++ log2) ∧
  UndoBuffer_ChangesMade buf = negb (bool_decide (log1 ++ log2 = [])).
Proof.
  intros [H1 H2]%Forall_app buf1 buf.
  destruct (push_all_rep log1 _ _ _ log_rep_new H1) as (parts1 & Hrep1 & _).
  destruct (push_all_rep log2 _ _ _ Hrep1 H2) as (parts2 & Hrep2 & Hpre). split; [by eapply log_rep_placed|].
  split; [by rewrite (UndoBuffer_entries_ptrs buf1 parts1), (UndoBuffer_entries_ptrs buf parts2)
            by (apply Hrep1 || apply Hrep2)|].
  split; [by eapply EstimatedSize_rep|].
  unfold buf, buf1, push_all. rewrite <-foldl_app. destruct (log1 ++ log2) as [|x log _] eqn:Hl using rev_ind; [done|].
  rewrite foldl_app. cbn [foldl]. unfold push at 1. rewrite Push_ChangesMade, (bool_decide_false (_ ++ [_] = [])) by (by intros []%app_eq_nil).
  rewrite bool_decide_false; [done|].
  assert (Forall logged_ok log) as Hok by (by pose proof (Forall_app_2 _ _ _ H1 H2) as H; rewrite Hl, Forall_app in H; destruct H).
  by destruct (push_all_rep log _ _ _ log_rep_new Hok) as (? & (? & _) & _).
Qed.

(** The loops over an undo buffer visit the pushed entries, and terminate.
    Commit and cleanup call back for each entry in the order of the pushes until
    a callback throws; rollback does so in the opposite order. When a callback of
    the commit throws at an entry, the commit is reverted for exactly the entries
    up to and including that one; when the failure comes after the loop, for all
    of them. *)
Theorem UndoBuffer_iterate {St : Type} (log : list logged) (commit revert : Z → undo_ptr → St → out St ())
    (rollback : Z → undo_ptr → St → St) (s : St) :
  Forall logged_ok log →
  let buf := push_all UndoBuffer_new log in
  let entries := UndoBuffer_entries buf in
  ReverseIterateEntries rollback buf s = foldl (λ s '(type, p), rollback type p s) s (reverse entries) ∧
  match visit commit entries s with
  | Ret (s', n) _ =>
      n = length log ∧ IterateEntries commit buf s = Ret (s', None) () ∧
      IterateUntil revert buf None s' = outcome (visit revert entries s')
  | Raise (s', n) e =>
      (n < length log)%nat ∧
      ∃ it, IterateEntries commit buf s = Raise (s', it) e ∧
            IterateUntil revert buf it s' = outcome (visit revert (take (S n) entries) s')
  end.
Proof.
  intros Hok buf entries. destruct (push_all_rep log _ _ _ log_rep_new Hok) as (parts & Hrep & _).
  pose proof (Forall2_length _ _ _ (log_rep_placed _ _ _ Hrep)) as Hlen. destruct Hrep as (_ & Hrep & _).
  assert (entries = all_ptrs 0 parts) as He by (by apply UndoBuffer_entries_ptrs).
  fold buf entries in Hlen. cbn [app] in Hlen. rewrite <-Hlen, He.
  split; [by apply reverse_from_spec|]. pose proof (iterate_from_visit commit _ _ 0 s Hrep) as Hit.
  destruct (visit commit (all_ptrs 0 parts) s) as [[s' n] []|[s' n] e] eqn:Hv.
  - apply visit_length in Hv. split; [done|]. split; [done|]. by apply iterate_until_none.
  - apply visit_length in Hv. split; [done|]. eexists. split; [exact Hit|].
    destruct (lookup_lt_is_Some_2 _ _ Hv) as [[t p] Hk]. unfold failed_at. rewrite Hk.
    by apply (iterate_until_visit revert _ _ 0 n t p).
Qed.

(** The entries of a transaction keep the conditions of the log: a vector has
    at most [STANDARD_VECTOR_SIZE] deleted rows, and the extra data of a catalog
    entry is shorter than 4 GB. *)
Lemma length_encode_rows rows : length (concat (le_encode 8 <$> rows)) = (8 * length rows)%nat.
Proof. induction rows as [|r rows IH]; [done|]. change (le_encode 8 <$> r :: rows) with (le_encode 8 r :: (le_encode 8 <$> rows)).
  cbn [concat length]. rewrite length_app, length_le_encode, IH. lia.
Qed.

Lemma append_entry_ok table start_row row_count : logged_ok (append_entry table start_row row_count).
Proof. split; cbn [fst snd append_entry]; len. Qed.

Lemma delete_entry_ok table vinfo base_row rows :
  (length rows <= 1024)%nat → logged_ok (delete_entry table vinfo base_row rows).
Proof.
  intros Hl. split; cbn [fst snd delete_entry]; [|lia]. rewrite !length_app, !length_le_encode, length_encode_rows. lia.
Qed.

Lemma catalog_entry_ok entry extra_data :
  Z.of_nat (length extra_data) + 24 <= 2 ^ 32 → logged_ok (catalog_entry entry extra_data).
Proof.
  intros Hl. split; cbn [fst snd catalog_entry]; destruct (Nat.ltb_spec 0 (length extra_data));
    rewrite ?length_app, ?length_le_encode; cbn [length]; lia.
Qed.

Definition example_log : list logged := [append_entry 7 0 5; delete_entry 7 9 1024 [1; 2; 3]; catalog_entry 11 [42]].

Lemma example_log_ok : Forall logged_ok example_log.
Proof.
  repeat (apply Forall_cons; split); [apply append_entry_ok|apply delete_entry_ok|apply catalog_entry_ok|constructor];
    cbn [length]; lia.
Qed.

Lemma UndoBuffer_log_witness :
  PushCatalogEntry (PushDelete (PushAppend UndoBuffer_new 7 0 5) 7 9 1024 [1; 2; 3]) 11 [42] =
    push_all (push_all UndoBuffer_new (take 1 example_log)) (drop 1 example_log) ∧
  Forall2 (placed (push_all (push_all UndoBuffer_new (take 1 example_log)) (drop 1 example_log)))
    (UndoBuffer_entries (push_all (push_all UndoBuffer_new (take 1 example_log)) (drop 1 example_log))) example_log.
Proof. split; [reflexivity|]. apply (UndoBuffer_log (take 1 example_log) (drop 1 example_log)), example_log_ok. Defined.

(** A commit that throws at the deletion is reverted for the append and the
    deletion. *)
Definition example_commit (type : Z) (p : undo_ptr) (s : list Z) : out (list Z) () :=
  if bool_decide (type = 3) then Raise s (Exception "write failed") else Ret (type :: s) ().

Lemma UndoBuffer_iterate_witness :
  visit example_commit (UndoBuffer_entries (push_all UndoBuffer_new example_log)) [] = Raise ([2], 1%nat) (Exception "write failed") ∧
  ∃ it, IterateEntries example_commit (push_all UndoBuffer_new example_log) [] = Raise ([2], it) (Exception "write failed") ∧
        IterateUntil (λ type _ s, Ret (type :: s) ()) (push_all UndoBuffer_new example_log) it [2] = Ret [3; 2; 2] ().
Proof.
  assert (visit example_commit (UndoBuffer_entries (push_all UndoBuffer_new example_log)) [] =
            Raise ([2], 1%nat) (Exception "write failed")) as Hv by (vm_compute; reflexivity).
  split; [exact Hv|].
  pose proof (UndoBuffer_iterate example_log example_commit (λ type _ s, Ret (type :: s) ()) (λ _ _ s, s) []
    example_log_ok) as [_ H].
  rewrite Hv in H. destruct H as (_ & it & Hit & Hr). exists it. split; [exact Hit|]. rewrite Hr. vm_compute. reflexivity.
Defined.
