(* ===== verification/Hugeint.v ===== *)
(** * 128-bit integers

    Models src/src/common/types/hugeint.cpp, the inline functions of
    src/src/include/guinsoodb/common/types/hugeint.hpp and [hugeint_t] of
    src/src/include/guinsoodb/common/types.hpp.  A [hugeint_t] is a signed upper
    half and an unsigned lower half of 64 bits each; the smallest value, -2^127,
    is not a valid one.  [TryMultiply] has two bodies, chosen by the compiler;
    both are modelled.  The operators of [hugeint_t] call the functions below.

    Theorems: every operation computes the integer operation it stands for, and
    reports an overflow exactly when the result does not fit, except that
    [SubtractInPlace] and [HugeintTryCastInteger] are also characterised where
    they do not. Conversions to and from floating point, shifts and the bitwise
    operators are not modelled. *)

From S2P Require Import Prelude.

Record hugeint_t : Set := mkHugeint {
  lower : Z;
  upper : Z;
}.

#[global] Instance hugeint_t_eq_dec : EqDecision hugeint_t.
Proof. solve_decision. Defined.

Definition INT64_MAX : Z := 2 ^ 63 - 1.

Definition INT64_MIN : Z := - 2 ^ 63.

Definition UINT64_MAX : Z := 2 ^ 64 - 1.

(** An [int] used as a condition. *)
Definition int_bool (z : Z) : bool := negb (z =? 0).

(** ** Negation and comparison *)

(** [-1 - upper + 1] overflows for -2^127 only; the model wraps. *)
Definition Hugeint_NegateInPlace (input : hugeint_t) : hugeint_t :=
  let lower' := u64 (u64 (UINT64_MAX - lower input) + 1) in
  mkHugeint lower' (s64 (-1 - upper input + Z.b2z (lower' =? 0))).

Definition Hugeint_Equals (lhs rhs : hugeint_t) : bool :=
  int_bool (Z.land (Z.b2z (lower lhs =? lower rhs)) (Z.b2z (upper lhs =? upper rhs))).

Definition Hugeint_NotEquals (lhs rhs : hugeint_t) : bool :=
  int_bool (Z.lor (Z.b2z (negb (lower lhs =? lower rhs))) (Z.b2z (negb (upper lhs =? upper rhs)))).

Definition Hugeint_GreaterThan (lhs rhs : hugeint_t) : bool :=
  int_bool (Z.lor (Z.b2z (upper rhs <? upper lhs))
    (Z.land (Z.b2z (upper lhs =? upper rhs)) (Z.b2z (lower rhs <? lower lhs)))).

Definition Hugeint_GreaterThanEquals (lhs rhs : hugeint_t) : bool :=
  int_bool (Z.lor (Z.b2z (upper rhs <? upper lhs))
    (Z.land (Z.b2z (upper lhs =? upper rhs)) (Z.b2z (lower rhs <=? lower lhs)))).

Definition Hugeint_LessThan (lhs rhs : hugeint_t) : bool :=
  int_bool (Z.lor (Z.b2z (upper lhs <? upper rhs))
    (Z.land (Z.b2z (upper lhs =? upper rhs)) (Z.b2z (lower lhs <? lower rhs)))).

Definition Hugeint_LessThanEquals (lhs rhs : hugeint_t) : bool :=
  int_bool (Z.lor (Z.b2z (upper lhs <? upper rhs))
    (Z.land (Z.b2z (upper lhs =? upper rhs)) (Z.b2z (lower lhs <=? lower rhs)))).

(** ** Addition and subtraction: the result and the changed left operand *)

(** The sum of the upper halves is computed exactly and then wrapped; in C++ the
    intermediate [lhs.upper + overflow] may exceed the range of int64_t, which is
    undefined, although the whole sum does not. *)
Definition Hugeint_AddInPlace (lhs rhs : hugeint_t) : bool * hugeint_t :=
  let overflow := Z.b2z (u64 (lower lhs + lower rhs) <? lower lhs) in
  if (if 0 <=? upper rhs then INT64_MAX - upper rhs - overflow <? upper lhs
      else upper lhs <? INT64_MIN - upper rhs - overflow)
  then (false, lhs)
  else
    let lhs := mkHugeint (u64 (lower lhs + lower rhs)) (s64 (upper lhs + overflow + upper rhs)) in
    (negb ((upper lhs =? INT64_MIN) && (lower lhs =? 0)), lhs).

Definition Hugeint_SubtractInPlace (lhs rhs : hugeint_t) : bool * hugeint_t :=
  let underflow := Z.b2z (lower lhs <? u64 (lower lhs - lower rhs)) in
  if (if 0 <=? upper rhs then upper lhs <? INT64_MIN + upper rhs + underflow
      else INT64_MAX + upper rhs + underflow - 1 <=? upper lhs)
  then (false, lhs)
  else
    let lhs := mkHugeint (u64 (lower lhs - lower rhs)) (s64 (upper lhs - upper rhs - underflow)) in
    (negb ((upper lhs =? INT64_MIN) && (lower lhs =? 0)), lhs).

Definition Hugeint_Add (lhs rhs : hugeint_t) : res hugeint_t :=
  let '(ok, lhs) := Hugeint_AddInPlace lhs rhs in
  if negb ok then Throw (OutOfRangeException "Overflow in HUGEINT addition") else Ok lhs.

Definition Hugeint_Subtract (lhs rhs : hugeint_t) : res hugeint_t :=
  let '(ok, lhs) := Hugeint_SubtractInPlace lhs rhs in
  if negb ok then Throw (OutOfRangeException "Underflow in HUGEINT addition") else Ok lhs.

(** ** Casts: an integer type [DST] by its width and sign *)

Record int_type : Set := mkIntType { is_signed : bool; width : Z }.

Definition NumericLimits_Maximum (T : int_type) : Z :=
  if is_signed T then 2 ^ (width T - 1) - 1 else 2 ^ width T - 1.

Definition wrap (T : int_type) (z : Z) : Z :=
  if is_signed T then wrapS (width T) z else wrapU (width T) z.

Definition HugeintTryCastInteger (T : int_type) (input : hugeint_t) : option Z :=
  if upper input =? 0 then
    if lower input <=? NumericLimits_Maximum T then Some (wrap T (lower input)) else None
  else if upper input =? -1 then
    if UINT64_MAX - NumericLimits_Maximum T <? lower input
    then Some (wrap T (- wrap T (u64 (u64 (UINT64_MAX - lower input) + 1)))) else None
  else None.

Definition HugeintConvertInteger (input : Z) : hugeint_t :=
  mkHugeint (u64 input) (Z.b2z (input <? 0) * -1).

(** ** Bits *)

(** [while (up) { up >>= 1; out++; }] *)
Fixpoint highest_bit_loop (fuel : nat) (up : Z) (out : nat) : nat :=
  match fuel with
  | O => out
  | S fuel => if up =? 0 then out else highest_bit_loop fuel (Z.shiftr up 1) (S out)
  end.

Definition PositiveHugeintHighestBit (bits : hugeint_t) : nat :=
  if negb (upper bits =? 0) then highest_bit_loop 64 (u64 (upper bits)) 64
  else highest_bit_loop 64 (lower bits) 0.

Definition PositiveHugeintIsBitSet (lhs : hugeint_t) (bit_position : nat) : bool :=
  if (bit_position <? 64)%nat
  then int_bool (Z.land (lower lhs) (u64 (Z.shiftl 1 (Z.of_nat bit_position))))
  else int_bool (Z.land (u64 (upper lhs)) (u64 (Z.shiftl 1 (Z.of_nat (bit_position - 64))))).

Definition PositiveHugeintLeftShift (lhs : hugeint_t) (amount : Z) : hugeint_t :=
  mkHugeint (u64 (Z.shiftl (lower lhs) amount))
            (s64 (u64 (Z.shiftl (upper lhs) amount) + Z.shiftr (lower lhs) (64 - amount))).

(** ** Division *)

(** [for (x = highest_bit_set; x > 0; x--)] *)
Fixpoint DivModPositive_loop (lhs : hugeint_t) (rhs : Z) (x : nat) (div_result : hugeint_t) (remainder : Z)
    : hugeint_t * Z :=
  match x with
  | O => (div_result, remainder)
  | S x =>
      let div_result := PositiveHugeintLeftShift div_result 1 in
      let remainder := u64 (Z.shiftl remainder 1) in
      let remainder := if PositiveHugeintIsBitSet lhs x then u64 (remainder + 1) else remainder in
      if rhs <=? remainder then
        let remainder := remainder - rhs in
        let lower' := u64 (lower div_result + 1) in
        let div_result := mkHugeint lower' (s64 (upper div_result + Z.b2z (lower' =? 0))) in
        DivModPositive_loop lhs rhs x div_result remainder
      else DivModPositive_loop lhs rhs x div_result remainder
  end.

Definition Hugeint_DivModPositive (lhs : hugeint_t) (rhs : Z) : hugeint_t * Z :=
  DivModPositive_loop lhs rhs (PositiveHugeintHighestBit lhs) (mkHugeint 0 0) 0.

Fixpoint DivMod_loop (lhs rhs : hugeint_t) (x : nat) (div_result remainder : hugeint_t)
    : res (hugeint_t * hugeint_t) :=
  match x with
  | O => Ok (div_result, remainder)
  | S x =>
      let div_result := PositiveHugeintLeftShift div_result 1 in
      let remainder := PositiveHugeintLeftShift remainder 1 in
      let remainder :=
        if PositiveHugeintIsBitSet lhs x
        then snd (Hugeint_AddInPlace remainder (HugeintConvertInteger 1)) else remainder in
      if Hugeint_GreaterThanEquals remainder rhs then
        remainder ← Hugeint_Subtract remainder rhs;
        let div_result := snd (Hugeint_AddInPlace div_result (HugeintConvertInteger 1)) in
        DivMod_loop lhs rhs x div_result remainder
      else DivMod_loop lhs rhs x div_result remainder
  end.

Definition Hugeint_DivMod (lhs rhs : hugeint_t) : res (hugeint_t * hugeint_t) :=
  let lhs_negative := upper lhs <? 0 in
  let rhs_negative := upper rhs <? 0 in
  let lhs := if lhs_negative then Hugeint_NegateInPlace lhs else lhs in
  let rhs := if rhs_negative then Hugeint_NegateInPlace rhs else rhs in
  '(div_result, remainder) ←
    DivMod_loop lhs rhs (PositiveHugeintHighestBit lhs) (mkHugeint 0 0) (mkHugeint 0 0);
  let div_result := if xorb lhs_negative rhs_negative then Hugeint_NegateInPlace div_result else div_result in
  let remainder := if lhs_negative then Hugeint_NegateInPlace remainder else remainder in
  Ok (div_result, remainder).

Definition Hugeint_Divide (lhs rhs : hugeint_t) : res hugeint_t :=
  '(div_result, _) ← Hugeint_DivMod lhs rhs; Ok div_result.

Definition Hugeint_Modulo (lhs rhs : hugeint_t) : res hugeint_t :=
  '(_, remainder) ← Hugeint_DivMod lhs rhs; Ok remainder.

(** ** Multiplication *)

(** The 128-bit value of a half that was made positive. *)
Definition uint128 (h : hugeint_t) : Z := wrapU 128 (lower h + Z.shiftl (wrapU 128 (upper h)) 64).

(** With [__uint128_t]: [__builtin_mul_overflow] is set when the product does
    not fit. *)
Definition multiply_int128 (lhs rhs : hugeint_t) : option hugeint_t :=
  let left := uint128 lhs in
  let right := uint128 rhs in
  let result_i128 := wrapU 128 (left * right) in
  if negb (left * right =? result_i128) then None
  else
    let upper' := u64 (Z.shiftr result_i128 64) in
    if int_bool (Z.land upper' 0x8000000000000000) then None
    else Some (mkHugeint (u64 (Z.land result_i128 0xffffffffffffffff)) (s64 upper')).

Definition low32 (z : Z) : Z := Z.land z 0xffffffff.

Definition high32 (z : Z) : Z := Z.shiftr z 32.

(** Without it: [p x y] is [products[x][y]], and the products are merged in
    order. *)
Definition merge_products (p : nat → nat → Z) : option hugeint_t :=
  let fourth32 := low32 (p 3 3)%nat in
  let third32 := u64 (low32 (p 3 2)%nat + high32 (p 3 3)%nat) in
  let second32 := u64 (low32 (p 3 1)%nat + high32 (p 3 2)%nat) in
  let first32 := u64 (low32 (p 3 0)%nat + high32 (p 3 1)%nat) in
  let third32 := u64 (third32 + low32 (p 2 3)%nat) in
  let second32 := u64 (second32 + (low32 (p 2 2)%nat + high32 (p 2 3)%nat)) in
  let first32 := u64 (first32 + (low32 (p 2 1)%nat + high32 (p 2 2)%nat)) in
  let second32 := u64 (second32 + low32 (p 1 3)%nat) in
  let first32 := u64 (first32 + (low32 (p 1 2)%nat + high32 (p 1 3)%nat)) in
  let first32 := u64 (first32 + low32 (p 0 3)%nat) in
  let third32 := u64 (third32 + high32 fourth32) in
  let second32 := u64 (second32 + high32 third32) in
  let first32 := u64 (first32 + high32 second32) in
  if int_bool (Z.land first32 0xffffff80000000) then None
  else
    let fourth32 := low32 fourth32 in
    let third32 := low32 third32 in
    let second32 := low32 second32 in
    let first32 := low32 first32 in
    Some (mkHugeint (Z.lor (u64 (Z.shiftl third32 32)) fourth32)
                    (s64 (Z.lor (u64 (Z.shiftl first32 32)) second32))).

(** The tests on the products. *)
Definition combine_products (p : nat → nat → Z) : option hugeint_t :=
  if int_bool (p 0 0)%nat || int_bool (p 0 1)%nat || int_bool (p 0 2)%nat || int_bool (p 1 0)%nat ||
     int_bool (p 2 0)%nat || int_bool (p 1 1)%nat then None
  else if int_bool (Z.land (p 0 3)%nat 0xffffffff80000000) || int_bool (Z.land (p 1 2)%nat 0xffffffff80000000) ||
     int_bool (Z.land (p 2 1)%nat 0xffffffff80000000) || int_bool (Z.land (p 3 0)%nat 0xffffffff80000000) then None
  else merge_products p.

Definition multiply_portable (lhs rhs : hugeint_t) : option hugeint_t :=
  let top := [high32 (u64 (upper lhs)); low32 (u64 (upper lhs)); high32 (lower lhs); low32 (lower lhs)] in
  let bottom := [high32 (u64 (upper rhs)); low32 (u64 (upper rhs)); high32 (lower rhs); low32 (lower rhs)] in
  combine_products (λ x y, u64 ((top !!! x) * (bottom !!! y))).

(** The body around either of them. *)
Definition Hugeint_TryMultiply (multiply : hugeint_t → hugeint_t → option hugeint_t) (lhs rhs : hugeint_t)
    : option hugeint_t :=
  let lhs_negative := upper lhs <? 0 in
  let rhs_negative := upper rhs <? 0 in
  let lhs := if lhs_negative then Hugeint_NegateInPlace lhs else lhs in
  let rhs := if rhs_negative then Hugeint_NegateInPlace rhs else rhs in
  match multiply lhs rhs with
  | None => None
  | Some result => Some (if xorb lhs_negative rhs_negative then Hugeint_NegateInPlace result else result)
  end.

Definition Hugeint_Multiply (multiply : hugeint_t → hugeint_t → option hugeint_t) (lhs rhs : hugeint_t)
    : res hugeint_t :=
  match Hugeint_TryMultiply multiply lhs rhs with
  | None => Throw (OutOfRangeException "Overflow in HUGEINT multiplication!")
  | Some result => Ok result
  end.

(** ** Printing *)

Definition digit (z : Z) : Ascii.ascii := Ascii.ascii_of_N (Z.to_N (48 + z)).

Fixpoint ToString_loop (fuel : nat) (input : hugeint_t) (result : string) : string :=
  match fuel with
  | O => result
  | S fuel =>
      if (lower input =? 0) && (upper input =? 0) then result
      else
        let '(input, remainder) := Hugeint_DivModPositive input 10 in
        ToString_loop fuel input (String (digit remainder) result)
  end.

(** A value below 2^127 has at most 39 digits. *)
Definition Hugeint_ToString (input : hugeint_t) : string :=
  let negative := upper input <? 0 in
  let input := if negative then Hugeint_NegateInPlace input else input in
  match ToString_loop 40 input EmptyString with
  | EmptyString => "0"
  | result => if negative then ("-" +:+ result)%string else result
  end.

(** ** Specification *)

Definition hugeint_ok (h : hugeint_t) : Prop := inU 64 (lower h) ∧ inS 64 (upper h).

(** The integer that a [hugeint_t] represents. *)
Definition value (h : hugeint_t) : Z := upper h * 2 ^ 64 + lower h.

(** A [hugeint_t] that represents [z]. *)
Definition represents (h : hugeint_t) (z : Z) : Prop := hugeint_ok h ∧ value h = z.

Example multiply_example :
  Hugeint_TryMultiply multiply_portable (mkHugeint 7 (-3)) (HugeintConvertInteger (-12345678901234)) =
  Hugeint_TryMultiply multiply_int128 (mkHugeint 7 (-3)) (HugeintConvertInteger (-12345678901234)) ∧
  Hugeint_ToString (mkHugeint 7 (-3)) = "-55340232221128654841".
Proof. split; vm_compute; reflexivity. Qed.

(** ** Words *)

(** The value of a wrapped word, from the multiple of 2^w that is removed. *)
Lemma wrapU_eq w z k : 0 <= z - k * 2 ^ w < 2 ^ w → wrapU w z = z - k * 2 ^ w.
Proof. intros H. unfold wrapU. symmetry. apply (Z.mod_unique_pos _ _ k); lia. Qed.

Lemma wrapS_eq w z k : 0 < w → - 2 ^ (w - 1) <= z - k * 2 ^ w < 2 ^ (w - 1) → wrapS w z = z - k * 2 ^ w.
Proof.
  intros Hw H. unfold wrapS. assert (2 ^ w = 2 * 2 ^ (w - 1)) as H2 by (rewrite <-Z.pow_succ_r by lia; f_equal; lia).
  cut ((z + 2 ^ (w - 1)) mod 2 ^ w = z - k * 2 ^ w + 2 ^ (w - 1)); [lia|].
  symmetry. apply (Z.mod_unique_pos _ _ k); lia.
Qed.

Lemma value_range h : hugeint_ok h → - 2 ^ 127 <= value h < 2 ^ 127.
Proof. intros [Hl Hu]. unfold value, inU, inS in *. lia. Qed.

Lemma value_inj h1 h2 : hugeint_ok h1 → hugeint_ok h2 → value h1 = value h2 → h1 = h2.
Proof.
  destruct h1 as [l1 u1], h2 as [l2 u2]. intros [Hl1 Hu1] [Hl2 Hu2] H. unfold value, inU, inS in *. cbn in *.
  assert (u1 = u2) as -> by lia. f_equal. lia.
Qed.

(** The sign of a value is the sign of its upper half. *)
Lemma value_sign h : hugeint_ok h → (upper h <? 0) = (value h <? 0).
Proof. intros [Hl Hu]. unfold value, inU, inS in *. bools; lia || done. Qed.

Lemma HugeintConvertInteger_represents z : inS 64 z ∨ inU 64 z → represents (HugeintConvertInteger z) z.
Proof.
  unfold inS, inU. intros Hz. unfold HugeintConvertInteger, represents, hugeint_ok, value, inU, inS. cbn [lower upper].
  destruct (Z.ltb_spec z 0); cbn [Z.b2z].
  - rewrite (wrapU_eq 64 z (-1)) by lia. lia.
  - rewrite (wrapU_eq 64 z 0) by lia. lia.
Qed.

Lemma NegateInPlace_eq h :
  hugeint_ok h →
  Hugeint_NegateInPlace h =
    if lower h =? 0 then mkHugeint 0 (s64 (- upper h)) else mkHugeint (2 ^ 64 - lower h) (- upper h - 1).
Proof.
  intros [Hl Hu]. unfold inU, inS in *. unfold Hugeint_NegateInPlace, UINT64_MAX.
  rewrite (wrapU_eq 64 (2 ^ 64 - 1 - lower h) 0) by lia. destruct (Z.eqb_spec (lower h) 0) as [H0|H0].
  - rewrite (wrapU_eq 64 _ 1) by lia. replace (2 ^ 64 - 1 - lower h - 0 * 2 ^ 64 + 1 - 1 * 2 ^ 64) with 0 by lia.
    cbn [Z.eqb Z.b2z]. do 2 f_equal. lia.
  - rewrite (wrapU_eq 64 _ 0) by lia. destruct (Z.eqb_spec (2 ^ 64 - 1 - lower h - 0 * 2 ^ 64 + 1 - 0 * 2 ^ 64) 0); [lia|].
    cbn [Z.b2z]. rewrite (wrapS_eq 64 _ 0) by lia. f_equal; lia.
Qed.

Lemma NegateInPlace_represents h z :
  represents h z → - 2 ^ 127 < z → represents (Hugeint_NegateInPlace h) (- z).
Proof.
  intros [Hok <-] Hz. rewrite NegateInPlace_eq by done. destruct Hok as [Hl Hu].
  unfold represents, hugeint_ok, value, inU, inS in *.
  destruct (Z.eqb_spec (lower h) 0) as [H0|H0]; cbn [lower upper]; [rewrite (wrapS_eq 64 _ 0) by lia|]; lia.
Qed.

(** The magnitude, also of -2^127. *)
Definition magnitude (h : hugeint_t) : hugeint_t := if upper h <? 0 then Hugeint_NegateInPlace h else h.

Lemma magnitude_bits h :
  hugeint_ok h → hugeint_ok (magnitude h) ∧ u64 (upper (magnitude h)) * 2 ^ 64 + lower (magnitude h) = Z.abs (value h).
Proof.
  intros Hok. unfold magnitude. rewrite value_sign by done. destruct (Z.ltb_spec (value h) 0) as [Hneg|Hpos].
  - destruct (Z.eq_dec (value h) (- 2 ^ 127)) as [Hmin|Hmin].
    + rewrite NegateInPlace_eq by done. destruct Hok as [Hl Hu]. unfold value, hugeint_ok, inU, inS in *.
      assert (upper h = - 2 ^ 63 ∧ lower h = 0) as [-> ->] by lia. cbn [Z.eqb lower upper].
      split; [split; vm_compute; intuition congruence|]. vm_compute. reflexivity.
    + pose proof (value_range h Hok). destruct (NegateInPlace_represents h _ (conj Hok eq_refl) ltac:(lia)) as [Hok' Hv].
      split; [done|]. destruct Hok' as [Hl Hu]. unfold value in Hv, Hneg, Hmin |- *. unfold inU, inS in *. rewrite wrapU_small by (unfold inU; lia). lia.
  - split; [done|]. destruct Hok as [Hl Hu]. unfold value, inU, inS in *. rewrite wrapU_small by (unfold inU; lia). lia.
Qed.

Lemma magnitude_represents h z :
  represents h z → - 2 ^ 127 < z → represents (magnitude h) (Z.abs z).
Proof.
  intros Hr Hz. unfold magnitude. pose proof Hr as [Hok Hv]. rewrite value_sign, Hv by done.
  destruct (Z.ltb_spec z 0).
  - rewrite Z.abs_neq by lia. by apply NegateInPlace_represents.
  - by rewrite Z.abs_eq by lia.
Qed.

(** ** Comparison *)

Lemma comparison_value lhs rhs :
  hugeint_ok lhs → hugeint_ok rhs →
  Hugeint_Equals lhs rhs = (value lhs =? value rhs) ∧
  Hugeint_NotEquals lhs rhs = negb (value lhs =? value rhs) ∧
  Hugeint_GreaterThan lhs rhs = (value rhs <? value lhs) ∧
  Hugeint_GreaterThanEquals lhs rhs = (value rhs <=? value lhs) ∧
  Hugeint_LessThan lhs rhs = (value lhs <? value rhs) ∧
  Hugeint_LessThanEquals lhs rhs = (value lhs <=? value rhs).
Proof.
  destruct lhs as [l1 u1], rhs as [l2 u2]. intros [Hl1 Hu1] [Hl2 Hu2].
  unfold inU, inS in *. cbn [lower upper] in *.
  unfold Hugeint_Equals, Hugeint_NotEquals, Hugeint_GreaterThan, Hugeint_GreaterThanEquals, Hugeint_LessThan,
    Hugeint_LessThanEquals, value. cbn [lower upper].
  destruct (Z.lt_trichotomy u1 u2) as [H|[H|H]], (Z.lt_trichotomy l1 l2) as [H'|[H'|H']];
    repeat split;
    repeat match goal with
    | |- context [Z.ltb ?x ?y] => destruct (Z.ltb_spec x y); try lia
    | |- context [Z.leb ?x ?y] => destruct (Z.leb_spec x y); try lia
    | |- context [Z.eqb ?x ?y] => destruct (Z.eqb_spec x y); try lia
    end; done.
Qed.

(** ** Addition and subtraction *)

Lemma add_lower a b :
  inU 64 a → inU 64 b →
  (a + b < 2 ^ 64 ∧ u64 (a + b) = a + b ∧ (u64 (a + b) <? a) = false) ∨
  (2 ^ 64 <= a + b ∧ u64 (a + b) = a + b - 2 ^ 64 ∧ (u64 (a + b) <? a) = true).
Proof.
  unfold inU. intros Ha Hb. destruct (Z.lt_ge_cases (a + b) (2 ^ 64)) as [H|H]; [left|right]; (split; [done|]).
  - rewrite (wrapU_eq 64 _ 0) by lia. split; [lia|]. apply Z.ltb_ge. lia.
  - rewrite (wrapU_eq 64 _ 1) by lia. split; [lia|]. apply Z.ltb_lt. lia.
Qed.

Lemma subtract_lower a b :
  inU 64 a → inU 64 b →
  (b <= a ∧ u64 (a - b) = a - b ∧ (a <? u64 (a - b)) = false) ∨
  (a < b ∧ u64 (a - b) = a - b + 2 ^ 64 ∧ (a <? u64 (a - b)) = true).
Proof.
  unfold inU. intros Ha Hb. destruct (Z.le_gt_cases b a) as [H|H]; [left|right]; (split; [done|]).
  - rewrite (wrapU_eq 64 _ 0) by lia. split; [lia|]. apply Z.ltb_ge. lia.
  - rewrite (wrapU_eq 64 _ (-1)) by lia. split; [lia|]. apply Z.ltb_lt. lia.
Qed.

(** Storing halves whose combination [z] fits: the last check of both
    functions. *)
Lemma store_halves lo up z :
  inU 64 lo → inS 64 up → z = up * 2 ^ 64 + lo →
  represents (mkHugeint lo (s64 up)) z ∧
  negb ((s64 up =? INT64_MIN) && (lo =? 0)) = negb (z =? - 2 ^ 127).
Proof.
  intros Hlo Hup ->. rewrite wrapS_small by done. split; [done|]. unfold INT64_MIN, inU, inS in *.
  repeat match goal with |- context [?x =? ?y] => destruct (Z.eqb_spec x y); try lia end; done.
Qed.

Definition in_range (z : Z) : Prop := - 2 ^ 127 < z < 2 ^ 127.

Lemma AddInPlace_spec lhs rhs :
  hugeint_ok lhs → hugeint_ok rhs →
  let z := value lhs + value rhs in
  (in_range z → ∃ h, Hugeint_AddInPlace lhs rhs = (true, h) ∧ represents h z) ∧
  (¬ in_range z → (Hugeint_AddInPlace lhs rhs).1 = false).
Proof.
  intros [Hl1 Hu1] [Hl2 Hu2] z. unfold Hugeint_AddInPlace.
  destruct (add_lower _ _ Hl1 Hl2) as [(Hc & Hlo & ->)|(Hc & Hlo & ->)]; cbn [Z.b2z]; rewrite Hlo;
    unfold INT64_MAX, INT64_MIN, inU, inS, in_range, z, value in *; clear z.
  all: match goal with |- context [mkHugeint ?l (s64 ?u)] =>
         pose proof (store_halves l u (upper lhs * 2 ^ 64 + lower lhs + (upper rhs * 2 ^ 64 + lower rhs))) as Hst end.
  all: unfold inU, inS, INT64_MIN in Hst; cbn [lower upper].
  all: destruct (Z.leb_spec 0 (upper rhs)); match goal with |- context [Z.ltb ?x ?y] => destruct (Z.ltb_spec x y) end.
  all: split; intros Hz; try lia; try done.
  all: try (destruct Hst as [Hst ->]; [lia..|]; eexists; split; [|done]; f_equal; bools; lia || done).
  all: cbn [fst]; destruct (Z.eq_dec (upper lhs * 2 ^ 64 + lower lhs + (upper rhs * 2 ^ 64 + lower rhs)) (- 2 ^ 127)) as [Hm|Hm];
    [destruct Hst as [_ ->]; [lia..|]; by rewrite Hm|lia].
Qed.

(** [SubtractInPlace] also fails when the right operand is negative and the
    upper half of the result is one of the two largest. *)
Definition subtract_in_range (rhs z : Z) : Prop := in_range z ∧ (0 <= rhs ∨ z < (INT64_MAX - 1) * 2 ^ 64).

Lemma SubtractInPlace_spec lhs rhs :
  hugeint_ok lhs → hugeint_ok rhs →
  let z := value lhs - value rhs in
  (subtract_in_range (value rhs) z → ∃ h, Hugeint_SubtractInPlace lhs rhs = (true, h) ∧ represents h z) ∧
  (¬ subtract_in_range (value rhs) z → (Hugeint_SubtractInPlace lhs rhs).1 = false).
Proof.
  intros [Hl1 Hu1] [Hl2 Hu2] z. unfold Hugeint_SubtractInPlace.
  destruct (subtract_lower _ _ Hl1 Hl2) as [(Hc & Hlo & ->)|(Hc & Hlo & ->)]; cbn [Z.b2z]; rewrite Hlo;
    unfold INT64_MAX, INT64_MIN, inU, inS, subtract_in_range, in_range, INT64_MAX, z, value in *; clear z.
  all: match goal with |- context [mkHugeint ?l (s64 ?u)] =>
         pose proof (store_halves l u (upper lhs * 2 ^ 64 + lower lhs - (upper rhs * 2 ^ 64 + lower rhs))) as Hst end.
  all: unfold inU, inS, INT64_MIN in Hst; cbn [lower upper].
  all: destruct (Z.leb_spec 0 (upper rhs)); match goal with |- context [if ?x then (false, _) else _] => destruct x eqn:Hx end;
    rewrite ?Z.ltb_lt, ?Z.ltb_ge, ?Z.leb_le, ?Z.leb_gt in Hx.
  all: split; intros Hz; try lia; try done.
  all: try (destruct Hst as [Hst ->]; [lia..|]; eexists; split; [|done]; f_equal; bools; lia || done).
  all: cbn [fst]; destruct (Z.eq_dec (upper lhs * 2 ^ 64 + lower lhs - (upper rhs * 2 ^ 64 + lower rhs)) (- 2 ^ 127)) as [Hm|Hm];
    [destruct Hst as [_ ->]; [lia..|]; by rewrite Hm|lia].
Qed.

(** ** Bits *)

Lemma highest_bit_loop_spec fuel : ∀ up out,
  0 <= up < 2 ^ Z.of_nat fuel →
  ∃ n, highest_bit_loop fuel up out = (out + n)%nat ∧ (n <= fuel)%nat ∧ up < 2 ^ Z.of_nat n.
Proof.
  induction fuel as [|fuel IH]; intros up out Hup; cbn [highest_bit_loop].
  - exists 0%nat. split; [lia|]. split; [lia|]. change (2 ^ Z.of_nat 0) with 1 in *. lia.
  - destruct (Z.eqb_spec up 0) as [->|Hne]; [exists 0%nat; cbn; lia|].
    rewrite Nat2Z.inj_succ, Z.pow_succ_r in Hup by lia.
    rewrite Z.shiftr_div_pow2 by lia. change (2 ^ 1) with 2.
    destruct (IH (up / 2) (S out)) as (n & -> & Hn & Hlt); [Z.div_mod_to_equations; lia|].
    exists (S n). split; [lia|]. split; [lia|]. rewrite Nat2Z.inj_succ, Z.pow_succ_r by lia. Z.div_mod_to_equations. lia.
Qed.

Lemma PositiveHugeintHighestBit_spec h z :
  represents h z → 0 <= z → (PositiveHugeintHighestBit h <= 128)%nat ∧ z < 2 ^ Z.of_nat (PositiveHugeintHighestBit h).
Proof.
  intros [[Hl Hu] <-] Hz. unfold PositiveHugeintHighestBit, value, inU, inS in *.
  destruct (Z.eqb_spec (upper h) 0) as [H0|H0]; cbn [negb].
  - destruct (highest_bit_loop_spec 64 (lower h) 0) as (n & -> & Hn & Hlt); [done|]. rewrite H0, Nat.add_0_l. split; lia.
  - rewrite wrapU_small by (unfold inU; lia).
    destruct (highest_bit_loop_spec 64 (upper h) 64) as (n & -> & Hn & Hlt); [change (Z.of_nat 64) with 64; lia|].
    split; [lia|]. rewrite Nat2Z.inj_add, Z.pow_add_r by lia. change (Z.of_nat 64) with 64. nia.
Qed.

Lemma land_bit a n : 0 <= n → int_bool (Z.land a (2 ^ n)) = Z.testbit a n.
Proof.
  intros Hn. assert (Z.land a (2 ^ n) = if Z.testbit a n then 2 ^ n else 0) as ->.
  { apply Z.bits_inj'. intros m Hm. rewrite Z.land_spec, Z.pow2_bits_eqb by lia.
    destruct (Z.eqb_spec n m) as [<-|Hne].
    - rewrite andb_true_r. destruct (Z.testbit a n); [by rewrite Z.pow2_bits_true|by rewrite Z.bits_0].
    - rewrite andb_false_r. destruct (Z.testbit a n); [by rewrite Z.pow2_bits_false|by rewrite Z.bits_0]. }
  unfold int_bool. destruct (Z.testbit a n); [|done]. assert (0 < 2 ^ n) by lia.
  by destruct (Z.eqb_spec (2 ^ n) 0); [lia|].
Qed.

Lemma testbit_halves up lo n :
  inU 64 lo → 0 <= n → Z.testbit (up * 2 ^ 64 + lo) n = if n <? 64 then Z.testbit lo n else Z.testbit up (n - 64).
Proof.
  unfold inU. intros Hlo Hn. destruct (Z.ltb_spec n 64) as [H|H].
  - rewrite <-(Z.mod_pow2_bits_low (up * 2 ^ 64 + lo) 64 n), Z.add_comm, Z.mod_add, Z.mod_small by lia. done.
  - replace n with (n - 64 + 64) at 1 by lia. rewrite <-Z.div_pow2_bits by lia.
    rewrite Z.div_add_l, Z.div_small by lia. by rewrite Z.add_0_r.
Qed.

Lemma PositiveHugeintIsBitSet_spec h z (x : nat) :
  represents h z → 0 <= z → (x < 128)%nat → PositiveHugeintIsBitSet h x = Z.testbit z (Z.of_nat x).
Proof.
  intros [[Hl Hu] <-] Hz Hx. unfold PositiveHugeintIsBitSet, value in *.
  rewrite testbit_halves by (done || lia). unfold inU, inS in *. rewrite !Z.shiftl_1_l.
  destruct (Nat.ltb_spec x 64), (Z.ltb_spec (Z.of_nat x) 64); try lia.
  - rewrite wrapU_small; [apply land_bit; lia|]. split; [lia|]. apply Z.pow_lt_mono_r; lia.
  - rewrite !wrapU_small; [rewrite land_bit by lia; f_equal; lia|split; [lia|]; apply Z.pow_lt_mono_r; lia|unfold inU; lia].
Qed.

Lemma PositiveHugeintLeftShift_spec h z :
  represents h z → 0 <= z → 2 * z < 2 ^ 127 → represents (PositiveHugeintLeftShift h 1) (2 * z).
Proof.
  intros [[Hl Hu] <-] Hz H2. unfold represents, hugeint_ok, PositiveHugeintLeftShift, value, inU, inS in *.
  cbn [lower upper]. rewrite !Z.shiftl_mul_pow2, Z.shiftr_div_pow2 by lia. change (64 - 1) with 63. change (2 ^ 1) with 2.
  rewrite (wrapU_small 64 (upper h * 2)) by (unfold inU; lia).
  pose proof (Z.div_mod (lower h) (2 ^ 63) ltac:(lia)). pose proof (Z.mod_pos_bound (lower h) (2 ^ 63) ltac:(lia)).
  rewrite (wrapU_eq 64 _ (lower h / 2 ^ 63)) by lia. rewrite wrapS_small by (unfold inS; lia). lia.
Qed.

(** Dividing by a smaller power of two adds the next bit. *)
Lemma next_bit z (x : nat) :
  z / 2 ^ Z.of_nat x = 2 * (z / 2 ^ Z.of_nat (S x)) + Z.b2z (Z.testbit z (Z.of_nat x)).
Proof.
  rewrite Z.testbit_spec' by lia. rewrite Nat2Z.inj_succ, Z.pow_succ_r, (Z.mul_comm 2 (2 ^ _)), <-Z.div_div by lia.
  pose proof (Z.div_mod (z / 2 ^ Z.of_nat x) 2). lia.
Qed.

(** ** Division *)

Lemma DivModPositive_loop_spec lhs z rhs x : ∀ q r div_result,
  represents lhs z → 0 <= z → 0 < rhs <= 2 ^ 63 → (x <= 128)%nat →
  represents div_result q → 0 <= q → 0 <= r < rhs → q * rhs + r = z / 2 ^ Z.of_nat x →
  ∃ h, DivModPositive_loop lhs rhs x div_result r = (h, z mod rhs) ∧ represents h (z / rhs).
Proof.
  induction x as [|x IH]; intros q r d Hlhs Hz Hrhs Hx Hd Hq Hr Heq.
  - exists d. change (2 ^ Z.of_nat 0) with 1 in Heq. rewrite Z.div_1_r in Heq.
    rewrite <-(Z.div_unique z rhs q r), <-(Z.mod_unique z rhs q r) by lia. done.
  - cbn [DivModPositive_loop]. rewrite (PositiveHugeintIsBitSet_spec lhs z x) by (done || lia).
    pose proof (next_bit z x) as Hnext. rewrite <-Heq in Hnext.
    assert (z / 2 ^ Z.of_nat x <= z) as Hle by (apply Z.div_le_upper_bound; nia).
    pose proof (value_range lhs (proj1 Hlhs)) as Hrange. rewrite (proj2 Hlhs) in Hrange.
    rewrite Z.shiftl_mul_pow2 by lia. change (2 ^ 1) with 2. rewrite (wrapU_small 64 (r * 2)) by (unfold inU; lia).
    assert ((if Z.testbit z (Z.of_nat x) then u64 (r * 2 + 1) else r * 2) = 2 * r + Z.b2z (Z.testbit z (Z.of_nat x))) as ->.
    { destruct (Z.testbit z (Z.of_nat x)); cbn [Z.b2z]; [rewrite wrapU_small by (unfold inU; lia)|]; lia. }
    set (b := Z.b2z (Z.testbit z (Z.of_nat x))) in *.
    assert (0 <= b <= 1) as Hb by (subst b; destruct (Z.testbit z (Z.of_nat x)); cbn; lia).
    assert (2 * q < 2 ^ 127) as H2q by nia. pose proof (PositiveHugeintLeftShift_spec d q Hd Hq H2q) as Hs.
    destruct (Z.leb_spec rhs (2 * r + b)) as [Hge|Hlt].
    + apply (IH (2 * q + 1)); try done || lia. destruct Hs as [[Hl Hu] Hv]. unfold represents, hugeint_ok, value, inU, inS in *.
      cbn [lower upper]. assert (2 * q + 1 < 2 ^ 127) by nia.
      destruct (Z.eq_dec (lower (PositiveHugeintLeftShift d 1)) (2 ^ 64 - 1)) as [Hm|Hm].
      * rewrite (wrapU_eq 64 _ 1), Hm by lia. change (_ =? 0) with true. cbn [Z.b2z].
        rewrite wrapS_small by (unfold inS; lia). lia.
      * rewrite (wrapU_eq 64 _ 0) by lia.
        destruct (Z.eqb_spec (lower (PositiveHugeintLeftShift d 1) + 1 - 0 * 2 ^ 64) 0); [lia|]. cbn [Z.b2z].
        rewrite wrapS_small by (unfold inS; lia). lia.
    + apply (IH (2 * q)); done || lia.
Qed.

Lemma represents_0 : represents (mkHugeint 0 0) 0.
Proof. split; [split|]; vm_compute; intuition congruence. Qed.

Lemma DivModPositive_spec lhs z rhs :
  represents lhs z → 0 <= z → 0 < rhs <= 2 ^ 63 →
  ∃ h, Hugeint_DivModPositive lhs rhs = (h, z mod rhs) ∧ represents h (z / rhs).
Proof.
  intros Hlhs Hz Hrhs. destruct (PositiveHugeintHighestBit_spec lhs z Hlhs Hz) as [Hx Hlt].
  apply (DivModPositive_loop_spec lhs z rhs _ 0 0); try done || lia. by rewrite Z.div_small by lia.
Qed.

(** One step of [DivMod], on the left-shifted remainder. *)
Lemma add_bit h z (b : bool) :
  represents h z → 0 <= z → z + 1 < 2 ^ 127 →
  represents (if b then snd (Hugeint_AddInPlace h (HugeintConvertInteger 1)) else h) (z + Z.b2z b).
Proof.
  intros [Hok Hv] Hz Hlt. destruct b; cbn [Z.b2z]; [|by rewrite Z.add_0_r].
  destruct (HugeintConvertInteger_represents 1) as [Hok1 Hv1]; [right; unfold inU; lia|].
  destruct (AddInPlace_spec h _ Hok Hok1) as [Ha _]. rewrite Hv, Hv1 in Ha.
  destruct Ha as (h' & -> & Hr); [unfold in_range; lia|]. done.
Qed.

Lemma DivMod_loop_spec lhs z rhs w x : ∀ q r div_result remainder,
  represents lhs z → 0 <= z → represents rhs w → 0 < w → (x <= 128)%nat →
  represents div_result q → 0 <= q → represents remainder r → 0 <= r < w → q * w + r = z / 2 ^ Z.of_nat x →
  ∃ hq hr, DivMod_loop lhs rhs x div_result remainder = Ok (hq, hr) ∧ represents hq (z / w) ∧ represents hr (z mod w).
Proof.
  induction x as [|x IH]; intros q r d rem Hlhs Hz Hrhs Hw Hx Hd Hq Hrem Hr Heq.
  - exists d, rem. change (2 ^ Z.of_nat 0) with 1 in Heq. rewrite Z.div_1_r in Heq.
    rewrite <-(Z.div_unique z w q r), <-(Z.mod_unique z w q r) by lia. done.
  - cbn [DivMod_loop]. rewrite (PositiveHugeintIsBitSet_spec lhs z x) by (done || lia).
    pose proof (next_bit z x) as Hnext. rewrite <-Heq in Hnext.
    assert (z / 2 ^ Z.of_nat x <= z) as Hle by (apply Z.div_le_upper_bound; nia).
    pose proof (value_range lhs (proj1 Hlhs)) as Hrange. rewrite (proj2 Hlhs) in Hrange.
    set (bit := Z.testbit z (Z.of_nat x)) in *. assert (0 <= Z.b2z bit <= 1) as Hb by (destruct bit; cbn; lia).
    assert (2 * q + 2 * r + Z.b2z bit <= z) as Hsum by nia.
    pose proof (PositiveHugeintLeftShift_spec d q Hd Hq ltac:(lia)) as Hsq.
    pose proof (PositiveHugeintLeftShift_spec rem r Hrem (proj1 Hr) ltac:(lia)) as Hsr.
    assert (represents (if bit then (Hugeint_AddInPlace (PositiveHugeintLeftShift rem 1) (HugeintConvertInteger 1)).2
        else PositiveHugeintLeftShift rem 1) (2 * r + Z.b2z bit)) as Hbr.
    { destruct bit; [|cbn [Z.b2z] in *; by rewrite Z.add_0_r]. cbn [Z.b2z] in *.
      apply (add_bit _ (2 * r) true Hsr); lia. }
    set (rem' := if bit then _ else _) in *. pose proof Hrhs as [Hrok Hrv]. pose proof Hbr as [Hbok Hbv].
    destruct (comparison_value rem' rhs Hbok Hrok) as (_ & _ & _ & -> & _). rewrite Hrv, Hbv.
    destruct (Z.leb_spec w (2 * r + Z.b2z bit)) as [Hge|Hlt].
    + destruct (SubtractInPlace_spec rem' rhs Hbok Hrok) as [Hsub _]. rewrite Hrv, Hbv in Hsub.
      destruct Hsub as (h & Hsub & Hh). { unfold subtract_in_range, in_range. lia. }
      unfold Hugeint_Subtract. rewrite Hsub. cbn [negb mbind res_bind].
      eapply (IH (2 * q + 1) (2 * r + Z.b2z bit - w)); try done || lia.
      apply (add_bit _ (2 * q) true Hsq); [lia|]. nia.
    + eapply (IH (2 * q)); done || lia.
Qed.

(** ** Multiplication *)

(** A mask of [n] ones above [m] zeros tests for a number of at least 2^m. *)
Lemma land_mask x m n :
  0 <= m → 0 <= n → 0 <= x < 2 ^ (m + n) → int_bool (Z.land x (Z.shiftl (Z.ones n) m)) = (2 ^ m <=? x).
Proof.
  intros Hm Hn Hx. assert (Z.land x (Z.shiftl (Z.ones n) m) = Z.shiftl (x / 2 ^ m) m) as ->.
  { apply Z.bits_inj'. intros i Hi. rewrite Z.land_spec, !Z.shiftl_spec by lia.
    destruct (Z.lt_ge_cases i m) as [Hlt|Hge]; [rewrite !(Z.testbit_neg_r _ (i - m)) by lia; apply andb_false_r|].
    rewrite Z.div_pow2_bits by lia. replace (i - m + m) with i by lia.
    rewrite Z.testbit_ones_nonneg by lia. destruct (Z.ltb_spec (i - m) n); [apply andb_true_r|].
    rewrite andb_false_r. symmetry. destruct (Z.eq_dec x 0) as [->|]; [apply Z.bits_0|]. apply Z.bits_above_log2; [lia|].
    enough (Z.log2 x < m + n) by lia. apply Z.log2_lt_pow2; lia. }
  rewrite Z.shiftl_mul_pow2 by lia. assert (0 < 2 ^ m) by lia. unfold int_bool.
  destruct (Z.leb_spec (2 ^ m) x); [|by rewrite Z.div_small by lia].
  assert (0 < x / 2 ^ m) by (apply Z.div_str_pos; lia). destruct (Z.eqb_spec (x / 2 ^ m * 2 ^ m) 0); [nia|done].
Qed.

Lemma lor_halves a b : 0 <= a → inU 32 b → Z.lor (a * 2 ^ 32) b = a * 2 ^ 32 + b.
Proof.
  unfold inU. intros Ha Hb. rewrite <-(Z.add_lor_land (a * 2 ^ 32) b).
  enough (Z.land (a * 2 ^ 32) b = 0) as -> by lia. rewrite <-Z.shiftl_mul_pow2 by lia.
  apply Z.bits_inj'. intros i Hi. rewrite Z.land_spec, Z.bits_0, Z.shiftl_spec by lia.
  destruct (Z.lt_ge_cases i 32); [by rewrite Z.testbit_neg_r by lia|].
  destruct (Z.eq_dec b 0) as [->|]; [by rewrite Z.bits_0, andb_false_r|].
  rewrite (Z.bits_above_log2 b i), andb_false_r; [done|lia|]. enough (Z.log2 b < 32) by lia. apply Z.log2_lt_pow2; lia.
Qed.

Lemma low32_high32 z : 0 <= z → low32 z = z mod 2 ^ 32 ∧ high32 z = z / 2 ^ 32.
Proof.
  intros Hz. unfold low32, high32. rewrite Z.shiftr_div_pow2 by lia. split; [|done].
  change 0xffffffff with (Z.ones 32). by apply Z.land_ones.
Qed.

(** What both bodies compute, on the unsigned values of their operands. *)
Definition bits128 (h : hugeint_t) : Z := u64 (upper h) * 2 ^ 64 + lower h.

Definition multiplies (multiply : hugeint_t → hugeint_t → option hugeint_t) : Prop :=
  ∀ lhs rhs, hugeint_ok lhs → hugeint_ok rhs →
  let z := bits128 lhs * bits128 rhs in
  (z < 2 ^ 127 → ∃ h, multiply lhs rhs = Some h ∧ represents h z) ∧ (2 ^ 127 <= z → multiply lhs rhs = None).

Lemma uint128_bits h : hugeint_ok h → uint128 h = bits128 h ∧ 0 <= bits128 h < 2 ^ 128.
Proof.
  intros [Hl Hu]. unfold uint128, bits128, inU, inS in *. rewrite Z.shiftl_mul_pow2 by lia.
  destruct (Z.lt_ge_cases (upper h) 0).
  - rewrite (wrapU_eq 128 (upper h) (-1)), (wrapU_eq 64 (upper h) (-1)) by lia.
    rewrite (wrapU_eq 128 _ (2 ^ 64 - 1)) by lia. lia.
  - rewrite (wrapU_eq 128 (upper h) 0), (wrapU_eq 64 (upper h) 0) by lia. rewrite (wrapU_eq 128 _ 0) by lia. lia.
Qed.

Lemma multiply_int128_spec : multiplies multiply_int128.
Proof.
  intros lhs rhs Hl Hr z. destruct (uint128_bits lhs Hl) as [Hel Hbl], (uint128_bits rhs Hr) as [Her Hbr].
  unfold multiply_int128. rewrite Hel, Her. fold z. assert (0 <= z) as Hz by (unfold z; nia). clearbody z.
  destruct (Z.lt_ge_cases z (2 ^ 128)) as [Hfit|Hover].
  2: { split; [lia|]. intros _. unfold wrapU. destruct (Z.eqb_spec z (z mod 2 ^ 128)); [|done].
       pose proof (Z.mod_pos_bound z (2 ^ 128)). lia. }
  rewrite (wrapU_small 128) by (unfold inU; lia). rewrite Z.eqb_refl. cbn [negb].
  rewrite Z.shiftr_div_pow2 by lia. change 0xffffffffffffffff with (Z.ones 64). rewrite Z.land_ones by lia.
  pose proof (Z.div_mod z (2 ^ 64)). pose proof (Z.mod_pos_bound z (2 ^ 64)).
  rewrite !(wrapU_small 64) by (unfold inU; lia). change 0x8000000000000000 with (Z.shiftl (Z.ones 1) 63).
  rewrite land_mask by lia. destruct (Z.leb_spec (2 ^ 63) (z / 2 ^ 64)); [split; [lia|done]|]. split; [|lia]. intros _.
  eexists. split; [done|]. unfold represents, hugeint_ok, value, inU, inS. cbn [lower upper].
  rewrite wrapS_small by (unfold inS; lia). lia.
Qed.

Lemma split32 z :
  0 <= z → ∃ l h, low32 z = l ∧ high32 z = h ∧ z = h * 2 ^ 32 + l ∧ 0 <= l < 2 ^ 32 ∧ 0 <= h.
Proof.
  intros Hz. destruct (low32_high32 z Hz) as [-> ->]. do 2 eexists. split; [done|]. split; [done|].
  pose proof (Z.div_mod z (2 ^ 32)). pose proof (Z.mod_pos_bound z (2 ^ 32)).
  pose proof (Z.div_pos z (2 ^ 32)). lia.
Qed.

(** Replaces innermost words by their values: sums that do not wrap, and the
    halves of products and sums. *)
Ltac word_step :=
  match goal with
  | |- context [wrapU 64 ?e] =>
      lazymatch e with
      | context [wrapU] => fail
      | context [low32] => fail
      | context [high32] => fail
      | _ => rewrite (wrapU_small 64 e) by (unfold inU; lia)
      end
  | |- context [high32 ?e] =>
      lazymatch e with
      | context [wrapU] => fail
      | context [low32] => fail
      | context [high32] => fail
      | _ => destruct (split32 e) as (? & ? & ? & ? & ? & ? & ?); [lia|];
          repeat match goal with H : low32 e = _ |- _ => rewrite H; clear H | H : high32 e = _ |- _ => rewrite H; clear H end
      end
  end.

Lemma low32_small z : inU 32 z → low32 z = z.
Proof. unfold inU. intros Hz. destruct (low32_high32 z) as [-> _]; [lia|]. apply Z.mod_small. lia. Qed.

Lemma merge_products_spec p :
  (∀ x y, 0 <= p x y <= (2 ^ 32 - 1) * (2 ^ 32 - 1)) →
  p 0%nat 3%nat < 2 ^ 31 → p 1%nat 2%nat < 2 ^ 31 → p 2%nat 1%nat < 2 ^ 31 → p 3%nat 0%nat < 2 ^ 31 →
  let z := p 3%nat 3%nat + 2 ^ 32 * (p 3%nat 2%nat + p 2%nat 3%nat) +
           2 ^ 64 * (p 3%nat 1%nat + p 2%nat 2%nat + p 1%nat 3%nat) +
           2 ^ 96 * (p 3%nat 0%nat + p 2%nat 1%nat + p 1%nat 2%nat + p 0%nat 3%nat) in
  (z < 2 ^ 127 → ∃ h, merge_products p = Some h ∧ represents h z) ∧ (2 ^ 127 <= z → merge_products p = None).
Proof.
  intros Hp H03 H12 H21 H30 z. unfold merge_products. cbv zeta.
  rewrite !(low32_small (p 0%nat 3%nat)), !(low32_small (p 1%nat 2%nat)), !(low32_small (p 2%nat 1%nat)),
    !(low32_small (p 3%nat 0%nat)) by (unfold inU; pose proof (Hp 0%nat 3%nat); pose proof (Hp 1%nat 2%nat);
      pose proof (Hp 2%nat 1%nat); pose proof (Hp 3%nat 0%nat); lia).
  pose proof (Hp 0%nat 3%nat). pose proof (Hp 1%nat 2%nat). pose proof (Hp 2%nat 1%nat). pose proof (Hp 3%nat 0%nat).
  pose proof (Hp 1%nat 3%nat). pose proof (Hp 2%nat 2%nat). pose proof (Hp 3%nat 1%nat).
  pose proof (Hp 2%nat 3%nat). pose proof (Hp 3%nat 2%nat). pose proof (Hp 3%nat 3%nat). clear Hp.
  repeat word_step.
  match goal with |- context [Z.land ?f _] => set (first := f) end.
  match goal with |- context [mkHugeint (Z.lor (u64 (Z.shiftl ?t 32)) ?f) (s64 (Z.lor _ ?s))] =>
    assert (z = first * 2 ^ 96 + s * 2 ^ 64 + t * 2 ^ 32 + f) as Hz by (unfold z, first; lia) end.
  assert (0 <= first < 2 ^ 56) as Hfirst by (unfold first; lia). clearbody first z.
  change 72057591890444288 with (Z.shiftl (Z.ones 25) 31). rewrite land_mask by lia.
  destruct (Z.leb_spec (2 ^ 31) first); [split; [lia|done]|]. split; [|lia]. intros _. eexists. split; [done|].
  rewrite low32_small by (unfold inU; lia). rewrite !Z.shiftl_mul_pow2 by lia.
  rewrite !(wrapU_small 64) by (unfold inU; lia). rewrite !lor_halves by (unfold inU; lia).
  unfold represents, hugeint_ok, value, inU, inS. cbn [lower upper]. rewrite wrapS_small by (unfold inS; lia). lia.
Qed.

(** The digits of an operand. *)
Lemma digits128 h :
  hugeint_ok h →
  ∃ a0 a1 a2 a3, [high32 (u64 (upper h)); low32 (u64 (upper h)); high32 (lower h); low32 (lower h)] = [a0; a1; a2; a3] ∧
    inU 32 a0 ∧ inU 32 a1 ∧ inU 32 a2 ∧ inU 32 a3 ∧
    bits128 h = a0 * 2 ^ 96 + a1 * 2 ^ 64 + a2 * 2 ^ 32 + a3.
Proof.
  intros [Hl Hu]. unfold bits128. pose proof (wrapU_range 64 (upper h) ltac:(lia)) as Hup. unfold inU in *.
  destruct (split32 (u64 (upper h))) as (a1 & a0 & -> & -> & Hup' & Ha1 & Ha0); [lia|].
  destruct (split32 (lower h)) as (a3 & a2 & -> & -> & Hl' & Ha3 & Ha2); [lia|].
  exists a0, a1, a2, a3. split; [done|]. lia.
Qed.

Lemma product_range a b : inU 32 a → inU 32 b → 0 <= a * b <= (2 ^ 32 - 1) * (2 ^ 32 - 1).
Proof. unfold inU. nia. Qed.

Lemma lookup_digit (l : list Z) (x : nat) : Forall (inU 32) l → inU 32 (l !!! x).
Proof.
  intros Hl. rewrite list_lookup_total_alt. destruct (l !! x) as [a|] eqn:Ha; [by eapply Forall_lookup_1|].
  vm_compute. intuition congruence.
Qed.

Lemma int_bool_false z : int_bool z = false ↔ z = 0.
Proof. unfold int_bool. rewrite negb_false_iff. apply Z.eqb_eq. Qed.

Lemma multiply_portable_spec : multiplies multiply_portable.
Proof.
  intros lhs rhs Hl Hr z. unfold multiply_portable.
  destruct (digits128 lhs Hl) as (a0 & a1 & a2 & a3 & -> & Ha0 & Ha1 & Ha2 & Ha3 & HA).
  destruct (digits128 rhs Hr) as (b0 & b1 & b2 & b3 & -> & Hb0 & Hb1 & Hb2 & Hb3 & HB).
  cbv zeta. set (p := λ x y : nat, u64 _).
  assert (∀ x y, p x y = ([a0; a1; a2; a3] !!! x) * ([b0; b1; b2; b3] !!! y) ∧
    0 <= p x y <= (2 ^ 32 - 1) * (2 ^ 32 - 1)) as Hp.
  { intros x y. pose proof (product_range ([a0; a1; a2; a3] !!! x) ([b0; b1; b2; b3] !!! y)) as H.
    unfold p. rewrite wrapU_small; [split; [done|]|unfold inU];
      (destruct H; [apply lookup_digit; rewrite !Forall_cons; auto using Forall_nil_2..|]); lia. }
  assert (z = p 3%nat 3%nat + 2 ^ 32 * (p 3%nat 2%nat + p 2%nat 3%nat) +
    2 ^ 64 * (p 3%nat 1%nat + p 2%nat 2%nat + p 1%nat 3%nat) +
    2 ^ 96 * (p 3%nat 0%nat + p 2%nat 1%nat + p 1%nat 2%nat + p 0%nat 3%nat) +
    2 ^ 128 * (p 2%nat 0%nat + p 1%nat 1%nat + p 0%nat 2%nat) +
    2 ^ 160 * (p 1%nat 0%nat + p 0%nat 1%nat) + 2 ^ 192 * p 0%nat 0%nat) as Hz.
  { unfold z. rewrite HA, HB, !(proj1 (Hp _ _)). cbn [lookup_total list_lookup_total]. ring. }
  clearbody p z. clear HA HB. assert (∀ x y, 0 <= p x y <= (2 ^ 32 - 1) * (2 ^ 32 - 1)) as Hr' by apply Hp. clear Hp.
  pose proof (Hr' 0%nat 0%nat). pose proof (Hr' 0%nat 1%nat). pose proof (Hr' 0%nat 2%nat). pose proof (Hr' 1%nat 0%nat).
  pose proof (Hr' 2%nat 0%nat). pose proof (Hr' 1%nat 1%nat). pose proof (Hr' 0%nat 3%nat). pose proof (Hr' 1%nat 2%nat).
  pose proof (Hr' 2%nat 1%nat). pose proof (Hr' 3%nat 0%nat). pose proof (Hr' 1%nat 3%nat). pose proof (Hr' 2%nat 2%nat).
  pose proof (Hr' 3%nat 1%nat). pose proof (Hr' 2%nat 3%nat). pose proof (Hr' 3%nat 2%nat). pose proof (Hr' 3%nat 3%nat).
  unfold combine_products. match goal with |- context [if ?b then None else _] => destruct b eqn:Hhigh end.
  - split; [|done]. intros Hlt. exfalso. unfold int_bool in Hhigh. rewrite !orb_true_iff, !negb_true_iff, !Z.eqb_neq in Hhigh. lia.
  - rewrite !orb_false_iff, !int_bool_false in Hhigh. change 0xffffffff80000000 with (Z.shiftl (Z.ones 33) 31).
    rewrite !land_mask by lia. match goal with |- context [if ?b then None else _] => destruct b eqn:Hmid end.
    + split; [|done]. intros Hlt. exfalso. rewrite !orb_true_iff, !Z.leb_le in Hmid. lia.
    + rewrite !orb_false_iff, !Z.leb_gt in Hmid.
      pose proof (merge_products_spec p Hr' ltac:(lia) ltac:(lia) ltac:(lia) ltac:(lia)) as Hm. cbv zeta in Hm.
      match type of Hm with context [represents _ ?e] => replace e with z in Hm by lia end. done.
Qed.

Lemma TryMultiply_value multiply lhs rhs :
  multiplies multiply → hugeint_ok lhs → hugeint_ok rhs →
  let z := value lhs * value rhs in
  (in_range z → ∃ h, Hugeint_TryMultiply multiply lhs rhs = Some h ∧ represents h z) ∧
  (¬ in_range z → Hugeint_TryMultiply multiply lhs rhs = None).
Proof.
  intros Hm Hl Hr z. unfold Hugeint_TryMultiply. fold (magnitude lhs) (magnitude rhs).
  rewrite !value_sign by done.
  destruct (magnitude_bits lhs Hl) as [Hml Hbl], (magnitude_bits rhs Hr) as [Hmr Hbr].
  destruct (Hm _ _ Hml Hmr) as [Hsome Hnone]. fold (bits128 (magnitude lhs)) in Hbl. fold (bits128 (magnitude rhs)) in Hbr.
  rewrite Hbl, Hbr, <-Z.abs_mul in Hsome, Hnone. fold z in Hsome, Hnone. split.
  - intros [H1 H2]. destruct Hsome as (h & -> & Hh); [lia|].
    eexists. split; [done|]. assert (xorb (value lhs <? 0) (value rhs <? 0) = true → z <= 0) as Hneg.
    { unfold z. destruct (Z.ltb_spec (value lhs) 0), (Z.ltb_spec (value rhs) 0); cbn; try done; nia. }
    assert (xorb (value lhs <? 0) (value rhs <? 0) = false → 0 <= z) as Hpos.
    { unfold z. destruct (Z.ltb_spec (value lhs) 0), (Z.ltb_spec (value rhs) 0); cbn; try done; nia. }
    destruct (xorb (value lhs <? 0) (value rhs <? 0)).
    + replace z with (- Z.abs z) by lia. apply NegateInPlace_represents; [done|lia].
    + by replace z with (Z.abs z) by lia.
  - intros Hn. by rewrite Hnone by (unfold in_range in Hn; lia).
Qed.

(** ** Printing *)

(** The number that a string of digits denotes, after the digits of [acc]. *)
Fixpoint read_digits (s : string) (acc : Z) : Z :=
  match s with
  | EmptyString => acc
  | String c s => read_digits s (10 * acc + (Z.of_N (Ascii.N_of_ascii c) - 48))
  end.

Fixpoint all_digits (s : string) : bool :=
  match s with
  | EmptyString => true
  | String c s => (48 <=? Z.of_N (Ascii.N_of_ascii c)) && (Z.of_N (Ascii.N_of_ascii c) <=? 57) && all_digits s
  end.

Definition leading_zero (s : string) : bool :=
  match s with EmptyString => false | String c _ => Z.of_N (Ascii.N_of_ascii c) =? 48 end.

Lemma digit_code r : 0 <= r < 10 → Z.of_N (Ascii.N_of_ascii (digit r)) = 48 + r.
Proof. intros Hr. unfold digit. rewrite Ascii.N_ascii_embedding by lia. lia. Qed.

Lemma read_digits_snoc s r acc :
  0 <= r < 10 → read_digits (s +:+ String (digit r) "") acc = 10 * read_digits s acc + r.
Proof.
  intros Hr. revert acc. induction s as [|c s IH]; intros acc; [|apply IH].
  change (10 * acc + (Z.of_N (Ascii.N_of_ascii (digit r)) - 48) = 10 * acc + r). rewrite digit_code by done. lia.
Qed.

Lemma all_digits_snoc s r : 0 <= r < 10 → all_digits (s +:+ String (digit r) "") = all_digits s.
Proof.
  intros Hr. induction s as [|c s IH]; [|change (all_digits (String c s)) with
    ((48 <=? Z.of_N (Ascii.N_of_ascii c)) && (Z.of_N (Ascii.N_of_ascii c) <=? 57) && all_digits s); by rewrite <-IH].
  change ((48 <=? Z.of_N (Ascii.N_of_ascii (digit r))) && (Z.of_N (Ascii.N_of_ascii (digit r)) <=? 57) && true = true).
  rewrite digit_code by done. rewrite (proj2 (Z.leb_le 48 (48 + r))), (proj2 (Z.leb_le (48 + r) 57)) by lia. done.
Qed.

Lemma string_app_cons s c t : s +:+ String c t = (s +:+ String c "") +:+ t.
Proof. induction s as [|c' s IH]; [done|].
  change (String c' (s +:+ String c t) = String c' ((s +:+ String c "") +:+ t)). by rewrite IH. Qed.

Lemma ToString_loop_spec fuel : ∀ input z acc,
  represents input z → 0 <= z < 10 ^ Z.of_nat fuel →
  ∃ s, ToString_loop fuel input acc = s +:+ acc ∧ read_digits s 0 = z ∧ all_digits s = true ∧
       leading_zero s = false ∧ (s = EmptyString → z = 0).
Proof.
  induction fuel as [|fuel IH]; intros input z acc Hin Hz.
  - exists EmptyString. change (10 ^ Z.of_nat 0) with 1 in Hz. repeat split; cbn; lia || done.
  - cbn [ToString_loop]. rewrite Nat2Z.inj_succ, Z.pow_succ_r in Hz by lia.
    destruct (Z.eq_dec z 0) as [->|Hne].
    { rewrite (value_inj input (mkHugeint 0 0) (proj1 Hin) (proj1 represents_0) (proj2 Hin)). by exists EmptyString. }
    assert ((lower input =? 0) && (upper input =? 0) = false) as ->.
    { destruct Hin as [_ Hv]. unfold value in Hv. apply andb_false_iff. rewrite !Z.eqb_neq. lia. }
    destruct (DivModPositive_spec input z 10 Hin ltac:(lia) ltac:(lia)) as (h & -> & Hh).
    pose proof (Z.div_mod z 10). pose proof (Z.mod_pos_bound z 10).
    destruct (IH h (z / 10) (String (digit (z mod 10)) acc) Hh ltac:(lia)) as (s & -> & Hrd & Hall & Hlead & Hemp).
    exists (s +:+ String (digit (z mod 10)) ""). split; [apply string_app_cons|].
    rewrite read_digits_snoc, all_digits_snoc by lia. split; [lia|]. split; [done|].
    destruct s as [|c s]; [|by split]. split; [|done].
    change ((Z.of_N (Ascii.N_of_ascii (digit (z mod 10))) =? 48) = false). rewrite digit_code by lia. apply Z.eqb_neq. specialize (Hemp eq_refl). lia.
Qed.

(** ** Casts *)

Definition int_types : list int_type :=
  [mkIntType true 8; mkIntType true 16; mkIntType true 32; mkIntType true 64;
   mkIntType false 8; mkIntType false 16; mkIntType false 32; mkIntType false 64].

Lemma TryCast_spec T h :
  T ∈ int_types → hugeint_ok h →
  HugeintTryCastInteger T h =
    if decide (0 <= value h <= NumericLimits_Maximum T) then Some (value h)
    else if decide (- NumericLimits_Maximum T <= value h < 0)
      then Some (if is_signed T then value h else value h + 2 ^ width T) else None.
Proof.
  intros HT [Hl Hu]. assert ((is_signed T = true ∧ 0 < width T <= 64) ∨ (is_signed T = false ∧ 0 < width T <= 64)) as Hcase.
  { unfold int_types in HT. repeat (apply elem_of_cons in HT as [->|HT]; [cbn; lia|]). by apply elem_of_nil in HT. }
  unfold HugeintTryCastInteger, NumericLimits_Maximum, wrap, UINT64_MAX, value in *. unfold inU, inS in *.
  assert (∀ w, 0 < w <= 64 → 2 * 2 ^ (w - 1) = 2 ^ w ∧ 2 ^ w <= 2 ^ 64 ∧ 0 < 2 ^ (w - 1)) as Hpow.
  { intros w Hw. split; [rewrite <-Z.pow_succ_r by lia; f_equal; lia|]. split; [apply Z.pow_le_mono_r; lia|lia]. }
  destruct Hcase as [[-> Hw]|[-> Hw]]; destruct (Hpow _ Hw) as (H1 & H2 & H3); clear Hpow.
  all: destruct (Z.eqb_spec (upper h) 0) as [->|Hup].
  all: try (match goal with |- context [Z.leb ?x ?y] => destruct (Z.leb_spec x y) end;
    repeat case_decide; try lia; try done; rewrite ?wrapS_small, ?wrapU_small by (unfold inS, inU; lia); f_equal; lia).
  all: destruct (Z.eqb_spec (upper h) (-1)) as [->|Hup']; [|by repeat case_decide; try lia].
  all: rewrite (wrapU_small 64 (2 ^ 64 - 1 - lower h)) by (unfold inU; lia).
  all: match goal with |- context [Z.ltb ?x ?y] => destruct (Z.ltb_spec x y) end.
  all: repeat case_decide; try lia; try done.
  - rewrite (wrapU_small 64) by (unfold inU; lia). rewrite (wrapS_small (width T) (2 ^ 64 - 1 - lower h + 1)) by (unfold inS; lia).
    rewrite wrapS_small by (unfold inS; lia). f_equal. lia.
  - rewrite (wrapU_small 64) by (unfold inU; lia). rewrite (wrapU_small (width T) (2 ^ 64 - 1 - lower h + 1)) by (unfold inU; lia).
    rewrite (wrapU_eq (width T) _ (-1)) by lia. f_equal. lia.
Qed.

(** ** Theorems *)

(** Addition and subtraction are exact. The sum is returned when it lies
    strictly between -2^127 and 2^127, and otherwise an exception is thrown; the
    same holds for the difference when the right operand is not negative. With a
    negative right operand, a difference whose upper half is one of the two
    largest 64-bit integers is refused too, although it fits. *)
Theorem Hugeint_add_subtract (lhs rhs : hugeint_t) :
  hugeint_ok lhs → hugeint_ok rhs →
  let a := value lhs in
  let b := value rhs in
  (in_range (a + b) → ∃ h, Hugeint_Add lhs rhs = Ok h ∧ represents h (a + b)) ∧
  (¬ in_range (a + b) →
    Hugeint_Add lhs rhs = Throw (OutOfRangeException "Overflow in HUGEINT addition")) ∧
  (subtract_in_range b (a - b) → ∃ h, Hugeint_Subtract lhs rhs = Ok h ∧ represents h (a - b)) ∧
  (¬ subtract_in_range b (a - b) →
    Hugeint_Subtract lhs rhs = Throw (OutOfRangeException "Underflow in HUGEINT addition")).
Proof.
  intros Hl Hr a b. unfold Hugeint_Add, Hugeint_Subtract.
  destruct (AddInPlace_spec lhs rhs Hl Hr) as [Ha Ha'], (SubtractInPlace_spec lhs rhs Hl Hr) as [Hs Hs'].
  split; [intros H; destruct (Ha H) as (h & -> & Hh); by exists h|].
  split; [intros H; specialize (Ha' H); destruct (Hugeint_AddInPlace lhs rhs) as [ok h]; cbn in Ha'; by subst ok|].
  split; [intros H; destruct (Hs H) as (h & -> & Hh); by exists h|].
  intros H. specialize (Hs' H). destruct (Hugeint_SubtractInPlace lhs rhs) as [ok h]. cbn in Hs'. by subst ok.
Qed.

Lemma Hugeint_add_subtract_witness :
  ∃ h, Hugeint_Add (mkHugeint (2 ^ 64 - 1) 5) (mkHugeint 1 (-7)) = Ok h ∧ value h = - 2 ^ 64.
Proof.
  destruct (Hugeint_add_subtract (mkHugeint (2 ^ 64 - 1) 5) (mkHugeint 1 (-7))) as [(h & Hh & [_ Hv]) _];
    [split; unfold inU, inS; cbn; lia..|unfold in_range, value; cbn; lia|].
  exists h. split; [exact Hh|]. rewrite Hv. reflexivity.
Defined.

(** C39: Multiplication is exact, in both versions of the code. With or without
    128-bit integers of the compiler, the product is returned when it lies
    strictly between -2^127 and 2^127, and otherwise an overflow is reported; so
    the two versions agree on every pair of operands. *)
Theorem Hugeint_Multiply_exact (lhs rhs : hugeint_t) :
  hugeint_ok lhs → hugeint_ok rhs →
  Hugeint_Multiply multiply_portable lhs rhs = Hugeint_Multiply multiply_int128 lhs rhs ∧
  let z := value lhs * value rhs in
  (in_range z → ∃ h, Hugeint_Multiply multiply_int128 lhs rhs = Ok h ∧ represents h z) ∧
  (¬ in_range z → Hugeint_Multiply multiply_int128 lhs rhs =
    Throw (OutOfRangeException "Overflow in HUGEINT multiplication!")).
Proof.
  intros Hl Hr. unfold Hugeint_Multiply.
  destruct (TryMultiply_value multiply_portable lhs rhs multiply_portable_spec Hl Hr) as [Hp Hp'].
  destruct (TryMultiply_value multiply_int128 lhs rhs multiply_int128_spec Hl Hr) as [Hi Hi'].
  destruct (decide (- 2 ^ 127 < value lhs * value rhs < 2 ^ 127)) as [Hz|Hz].
  - destruct (Hp Hz) as (h & -> & [Hok Hv]), (Hi Hz) as (h' & -> & [Hok' Hv']).
    rewrite (value_inj h h') by congruence. split; [done|]. split; [by exists h'|done].
  - rewrite Hp', Hi' by done. by split.
Qed.

Lemma Hugeint_Multiply_exact_witness :
  Hugeint_Multiply multiply_portable (mkHugeint 7 (-3)) (mkHugeint 12345678901234 0) =
  Hugeint_Multiply multiply_int128 (mkHugeint 7 (-3)) (mkHugeint 12345678901234 0) ∧
  ∃ h, Hugeint_Multiply multiply_int128 (mkHugeint 7 (-3)) (mkHugeint 12345678901234 0) = Ok h.
Proof.
  destruct (Hugeint_Multiply_exact (mkHugeint 7 (-3)) (mkHugeint 12345678901234 0)) as [He [Hs _]];
    [split; unfold inU, inS; cbn; lia..|].
  split; [exact He|]. destruct Hs as (h & Hh & _); [unfold in_range, value; cbn; lia|]. by exists h.
Defined.

Lemma sgn_cases z : Z.sgn z = if z <? 0 then -1 else if z =? 0 then 0 else 1.
Proof. bools; lia. Qed.

Lemma DivMod_quot_rem (lhs rhs : hugeint_t) (z w : Z) :
  represents lhs z → represents rhs w → in_range z → in_range w → w ≠ 0 →
  ∃ q r, Hugeint_DivMod lhs rhs = Ok (q, r) ∧ represents q (Z.quot z w) ∧ represents r (Z.rem z w) ∧
         Hugeint_Divide lhs rhs = Ok q ∧ Hugeint_Modulo lhs rhs = Ok r.
Proof.
  intros Hl Hr [Hz1 Hz2] [Hw1 Hw2] Hw. unfold Hugeint_Divide, Hugeint_Modulo, Hugeint_DivMod.
  fold (magnitude lhs) (magnitude rhs). rewrite !value_sign by (apply Hl || apply Hr).
  rewrite (proj2 Hl), (proj2 Hr).
  pose proof (magnitude_represents lhs z Hl Hz1) as Hml. pose proof (magnitude_represents rhs w Hr Hw1) as Hmr.
  destruct (PositiveHugeintHighestBit_spec _ _ Hml ltac:(lia)) as [Hx Hlt].
  destruct (DivMod_loop_spec (magnitude lhs) (Z.abs z) (magnitude rhs) (Z.abs w)
    (PositiveHugeintHighestBit (magnitude lhs)) 0 0 (mkHugeint 0 0) (mkHugeint 0 0)) as (q & r & -> & Hq & Hrem);
    try done || lia; [by rewrite Z.div_small by lia|].
  cbn [mbind res_bind]. do 2 eexists. split; [done|].
  rewrite Z.quot_div, Z.rem_mod by done. rewrite !sgn_cases.
  pose proof (Z.div_le_upper_bound (Z.abs z) (Z.abs w) (Z.abs z) ltac:(lia) ltac:(nia)).
  pose proof (Z.div_pos (Z.abs z) (Z.abs w) ltac:(lia) ltac:(lia)).
  pose proof (Z.mod_pos_bound (Z.abs z) (Z.abs w) ltac:(lia)).
  assert (z = 0 → Z.abs z / Z.abs w = 0 ∧ Z.abs z mod Z.abs w = 0) as Hzero.
  { intros ->. by rewrite Z.div_0_l, Z.mod_0_l by lia. }
  pose proof (NegateInPlace_represents q _ Hq ltac:(lia)) as Hnq.
  pose proof (NegateInPlace_represents r _ Hrem ltac:(lia)) as Hnr.
  split; [|split; [|done]].
  - destruct (Z.ltb_spec z 0), (Z.ltb_spec w 0), (Z.eqb_spec z 0) as [Hz0|], (Z.eqb_spec w 0); try lia; cbn [xorb];
      try (destruct (Hzero Hz0) as [E E']; rewrite E in *); match goal with |- represents _ ?e => ring_simplify e end; done.
  - destruct (Z.ltb_spec z 0), (Z.eqb_spec z 0) as [Hz0|]; try lia;
      try (destruct (Hzero Hz0) as [E E']; rewrite E' in *); match goal with |- represents _ ?e => ring_simplify e end; done.
Qed.

(** Division terminates without an exception and truncates towards zero. For
    valid operands and a divisor that is not zero, the quotient and the remainder
    of the shift-and-subtract loop are those of the truncated division of the
    integers. *)
Theorem Hugeint_DivMod_exact (lhs rhs : hugeint_t) (z w : Z) :
  represents lhs z → represents rhs w → in_range z → in_range w → w ≠ 0 →
  ∃ q r, Hugeint_DivMod lhs rhs = Ok (q, r) ∧ represents q (Z.quot z w) ∧ represents r (Z.rem z w) ∧
         Hugeint_Divide lhs rhs = Ok q ∧ Hugeint_Modulo lhs rhs = Ok r.
Proof. apply DivMod_quot_rem. Qed.

Lemma Hugeint_DivMod_exact_witness :
  represents (mkHugeint 7 (-3)) (- 55340232221128654841) ∧
  ∃ q r, Hugeint_DivMod (mkHugeint 7 (-3)) (mkHugeint 1000 0) = Ok (q, r) ∧
         value q = -55340232221128654 ∧ value r = -841.
Proof.
  assert (represents (mkHugeint 7 (-3)) (- 55340232221128654841)) as Hl by (split; [split; unfold inU, inS; cbn; lia|reflexivity]).
  split; [exact Hl|].
  destruct (Hugeint_DivMod_exact (mkHugeint 7 (-3)) (mkHugeint 1000 0) (- 55340232221128654841) 1000) as (q & r & H & Hq & Hr & _);
    [exact Hl|split; [split; unfold inU, inS; cbn; lia|reflexivity]|unfold in_range; lia..|].
  exists q, r. split; [exact H|]. destruct Hq as [_ ->], Hr as [_ ->]. split; reflexivity.
Defined.

(** Printing terminates and gives the decimal digits of the value: only
    digits, no leading zero except for zero itself, a minus sign exactly for the
    negative values, and the number they denote is the magnitude. *)
Lemma Hugeint_ToString_decimal (h : hugeint_t) (z : Z) :
  represents h z → in_range z →
  ∃ digits, Hugeint_ToString h = (if z <? 0 then "-" +:+ digits else digits) ∧
    all_digits digits = true ∧ read_digits digits 0 = Z.abs z ∧ digits ≠ EmptyString ∧
    (leading_zero digits = true → digits = "0").
Proof.
  intros Hr [Hz1 Hz2]. unfold Hugeint_ToString. fold (magnitude h). rewrite value_sign, (proj2 Hr) by apply Hr.
  pose proof (magnitude_represents h z Hr Hz1) as Hm.
  assert (2 ^ 127 < 10 ^ Z.of_nat 40) as H40 by (vm_compute; reflexivity).
  destruct (ToString_loop_spec 40 (magnitude h) (Z.abs z) EmptyString Hm ltac:(lia)) as (s & -> & Hrd & Hall & Hlead & Hemp).
  assert (s +:+ EmptyString = s) as -> by (clear; induction s as [|c s IH]; [done|];
    change (String c (s +:+ EmptyString) = String c s); by rewrite IH).
  destruct s as [|c s].
  - specialize (Hemp eq_refl). assert (z = 0) as -> by lia. exists "0". repeat split; done.
  - exists (String c s). split; [done|]. split; [done|]. split; [done|]. split; [done|]. by rewrite Hlead.
Qed.

(** Conversion to and from the eight integer types. A 64-bit integer converts
    to a [hugeint_t] of the same value. Casting back to a signed type gives the
    value when its magnitude is at most the maximum of the type, so the round
    trip holds for every value that the type can store, its smallest value being
    the marker for NULL. Casting to an unsigned type gives the value when it fits,
    but a negative value whose magnitude is at most the maximum is wrapped around
    instead of refused. Comparison is that of the values. *)
Theorem Hugeint_casts (T : int_type) (h : hugeint_t) (z : Z) :
  T ∈ int_types → hugeint_ok h → - NumericLimits_Maximum T <= z <= NumericLimits_Maximum T →
  HugeintTryCastInteger T h =
    (if decide (0 <= value h <= NumericLimits_Maximum T) then Some (value h)
     else if decide (- NumericLimits_Maximum T <= value h < 0)
       then Some (if is_signed T then value h else value h + 2 ^ width T) else None) ∧
  (is_signed T = true ∨ 0 <= z →
    value (HugeintConvertInteger z) = z ∧ HugeintTryCastInteger T (HugeintConvertInteger z) = Some z) ∧
  (Hugeint_LessThan h (HugeintConvertInteger z) = (value h <? value (HugeintConvertInteger z))) ∧
  (Hugeint_Equals h (HugeintConvertInteger z) = (value h =? value (HugeintConvertInteger z))).
Proof.
  intros HT Hh Hz. split; [by apply TryCast_spec|].
  assert (hugeint_ok (HugeintConvertInteger z)) as Hc.
  { unfold HugeintConvertInteger. split; cbn [lower upper]; [apply wrapU_range; lia|].
    unfold inS. destruct (z <? 0); cbn [Z.b2z]; lia. }
  split; [|split; [by apply comparison_value|by apply comparison_value]].
  intros Hs. assert (inS 64 z ∨ inU 64 z) as Hin.
  { unfold int_types in HT. unfold inS, inU.
    repeat (apply elem_of_cons in HT as [->|HT]; [cbn in *; destruct Hs; try done; lia|]). by apply elem_of_nil in HT. }
  destruct (HugeintConvertInteger_represents z Hin) as [_ Hv]. split; [done|].
  rewrite TryCast_spec, Hv by done. repeat case_decide; try lia; [done|]. destruct Hs as [->|]; [done|lia].
Qed.

Lemma Hugeint_casts_witness :
  HugeintTryCastInteger (mkIntType true 16) (HugeintConvertInteger (-1000)) = Some (-1000) ∧
  HugeintTryCastInteger (mkIntType false 8) (HugeintConvertInteger (-1)) = Some 255.
Proof.
  split; [|vm_compute; reflexivity].
  destruct (Hugeint_casts (mkIntType true 16) (HugeintConvertInteger (-1000)) (-1000)) as (_ & [_ H] & _);
    [unfold int_types; set_solver|split; vm_compute; intuition congruence|cbn; lia|left; reflexivity|exact H].
Defined.
