(* ===== verification/CastHelpers.v ===== *)
(** * Printing numbers

    Models the numeric part of src/src/include/guinsoodb/common/types/cast_helpers.hpp
    and src/src/common/types/cast_helpers.cpp: [NumericHelper],
    [DecimalToString] and [HugeintToStringCast].  A character is its code.

    The code computes the length of the text first, allocates a buffer of that
    length and then writes the text from the end of the buffer to its start, two
    digits at a time.  A pointer into the buffer with the text behind it is the
    list of the characters from the pointer to the end; [in_buffer] is the
    result, and it is undefined unless the text fills the buffer.

    Theorems: the buffer is always filled exactly, and the text is the decimal
    representation of the value; the two printers of 128-bit integers agree. *)

From S2P Require Import Prelude Hugeint.

(** ** Characters *)

Definition code (c : Ascii.ascii) : Z := Z.of_N (Ascii.N_of_ascii c).

Fixpoint codes (s : string) : list Z :=
  match s with
  | EmptyString => []
  | String c s => code c :: codes s
  end.

(** [guinsoodb_fmt::internal::data::digits] *)
Definition digits : list Z := codes
  "00010203040506070809101112131415161718192021222324252627282930313233343536373839404142434445464748495051525354555657585960616263646566676869707172737475767778798081828384858687888990919293949596979899".

Definition POWERS_OF_TEN : list Z := [
  1; 10; 100; 1000; 10000; 100000; 1000000; 10000000; 100000000; 1000000000; 10000000000; 100000000000;
  1000000000000; 10000000000000; 100000000000000; 1000000000000000; 10000000000000000; 100000000000000000;
  1000000000000000000].

(** ** Integers *)

Definition UnsignedLength_uint8 (value : Z) : Z := 1 + Z.b2z (10 <=? value) + Z.b2z (100 <=? value).

Definition UnsignedLength_uint16 (value : Z) : Z :=
  1 + Z.b2z (10 <=? value) + Z.b2z (100 <=? value) + Z.b2z (1000 <=? value) + Z.b2z (10000 <=? value).

Definition UnsignedLength_uint32 (value : Z) : Z :=
  if 10000 <=? value then
    5 + Z.b2z (100000 <=? value) + Z.b2z (1000000 <=? value) + Z.b2z (10000000 <=? value) +
    Z.b2z (100000000 <=? value) + Z.b2z (1000000000 <=? value)
  else 1 + Z.b2z (10 <=? value) + Z.b2z (100 <=? value) + Z.b2z (1000 <=? value).

Definition UnsignedLength_uint64 (value : Z) : Z :=
  if 10000000000 <=? value then
    if 1000000000000000 <=? value then
      16 + Z.b2z (10000000000000000 <=? value) + Z.b2z (100000000000000000 <=? value) +
      Z.b2z (1000000000000000000 <=? value) + Z.b2z (10000000000000000000 <=? value)
    else
      11 + Z.b2z (100000000000 <=? value) + Z.b2z (1000000000000 <=? value) +
      Z.b2z (10000000000000 <=? value) + Z.b2z (100000000000000 <=? value)
  else if 100000 <=? value then
    6 + Z.b2z (1000000 <=? value) + Z.b2z (10000000 <=? value) + Z.b2z (100000000 <=? value) +
    Z.b2z (1000000000 <=? value)
  else 1 + Z.b2z (10 <=? value) + Z.b2z (100 <=? value) + Z.b2z (1000 <=? value) + Z.b2z (10000 <=? value).

(** The instances: the width of the integer. *)
Inductive numeric_width : Set := W8 | W16 | W32 | W64.

Definition bits (w : numeric_width) : Z := match w with W8 => 8 | W16 => 16 | W32 => 32 | W64 => 64 end.

Definition UnsignedLength (w : numeric_width) (value : Z) : Z :=
  match w with
  | W8 => UnsignedLength_uint8 value
  | W16 => UnsignedLength_uint16 value
  | W32 => UnsignedLength_uint32 value
  | W64 => UnsignedLength_uint64 value
  end.

(** [(value ^ sign) - sign]; for the smallest 32 and 64-bit value the
    subtraction overflows, and the model wraps. *)
Definition sign_of (value : Z) : Z := - Z.b2z (value <? 0).

Definition unsigned_value (w : numeric_width) (value : Z) : Z :=
  wrapU (bits w) (Z.lxor value (sign_of value) - sign_of value).

Definition SignedLength (w : numeric_width) (value : Z) : Z :=
  UnsignedLength w (unsigned_value w value) - sign_of value.

(** The loop divides by 100: ten rounds are enough for 64 bits. *)
Fixpoint FormatUnsigned_loop (fuel : nat) (value : Z) (ptr : list Z) : list Z :=
  match fuel with
  | O => ptr
  | S fuel =>
      if 100 <=? value then
        let index := Z.to_nat (value mod 100 * 2) in
        FormatUnsigned_loop fuel (value / 100) (digits !!! index :: digits !!! S index :: ptr)
      else if value <? 10 then 48 + value :: ptr
      else
        let index := Z.to_nat (value * 2) in
        digits !!! index :: digits !!! S index :: ptr
  end.

Definition FormatUnsigned (value : Z) (ptr : list Z) : list Z := FormatUnsigned_loop 10 value ptr.

(** A buffer of [len] characters that was written from its end. *)
Definition in_buffer (len : Z) (text : list Z) : res (list Z) :=
  if Z.of_nat (length text) =? len then Ok text else Throw (UndefinedBehaviour "text does not fill the buffer").

Definition FormatSigned (w : numeric_width) (value : Z) : res (list Z) :=
  let sign := sign_of value in
  let unsigned_value := unsigned_value w value in
  let len := UnsignedLength w unsigned_value - sign in
  let endptr := FormatUnsigned unsigned_value [] in
  in_buffer len (if negb (sign =? 0) then 45 :: endptr else endptr).

(** ** Decimals *)

Definition DecimalLength (w : numeric_width) (value : Z) (scale : nat) : Z :=
  if (scale =? 0)%nat then SignedLength w value
  else Z.max (Z.of_nat scale + 2 + (if value <? 0 then 1 else 0)) (SignedLength w value + 1).

(** [while (dst > end - scale) *--dst = '0';] *)
Definition pad_zeros (scale : nat) (dst : list Z) : list Z := replicate (scale - length dst) 48 ++ dst.

(** The sign is written at the start of the buffer. *)
Definition FormatDecimal (w : numeric_width) (value : Z) (scale : nat) (len : Z) : res (list Z) :=
  let negative := value <? 0 in
  let value := if negative then wrapS (bits w) (- value) else value in
  let text :=
    if (scale =? 0)%nat then FormatUnsigned (wrapU (bits w) value) []
    else
      let power := wrapU (bits w) (POWERS_OF_TEN !!! scale) in
      let minor := value mod power in
      let major := value / power in
      FormatUnsigned major (46 :: pad_zeros scale (FormatUnsigned minor [])) in
  in_buffer len (if negative then 45 :: text else text).

Definition DecimalToString_Format (w : numeric_width) (value : Z) (scale : nat) : res (list Z) :=
  FormatDecimal w value scale (DecimalLength w value scale).

(** ** 128-bit integers *)

#[export] Instance hugeint_inhabited : Inhabited hugeint_t := populate (mkHugeint 0 0).

(** [hugeint_t(a) * hugeint_t(b)], in the initialiser of the table. *)
Definition times (a b : hugeint_t) : hugeint_t := default a (Hugeint_TryMultiply multiply_int128 a b).

Definition Hugeint_POWERS_OF_TEN : list hugeint_t :=
  let p k := HugeintConvertInteger (POWERS_OF_TEN !!! k) in
  (p <$> seq 0 19) ++ ((λ k, times (p 18%nat) (p k)) <$> seq 1 18) ++
  [times (times (p 18%nat) (p 18%nat)) (p 1%nat); times (times (p 18%nat) (p 18%nat)) (p 2%nat)].

(** [value >= Hugeint::POWERS_OF_TEN[k]] *)
Definition ge_power (value : hugeint_t) (k : nat) : bool :=
  Hugeint_GreaterThanEquals value (Hugeint_POWERS_OF_TEN !!! k).

Definition Hugeint_UnsignedLength (value : hugeint_t) : Z :=
  let ge k := Z.b2z (ge_power value k) in
  if upper value =? 0 then UnsignedLength_uint64 (lower value)
  else if ge_power value 27 then
    if ge_power value 32 then
      if ge_power value 36 then 37 + ge 37%nat + ge 38%nat
      else 33 + ge 33%nat + ge 34%nat + ge 35%nat
    else if ge_power value 30 then 31 + ge 31%nat + ge 32%nat
    else 28 + ge 28%nat + ge 29%nat
  else if ge_power value 22 then
    if ge_power value 25 then 26 + ge 26%nat
    else 23 + ge 23%nat + ge 24%nat
  else if ge_power value 20 then 21 + ge 21%nat
  else 18 + ge 18%nat + ge 19%nat.

(** Divisions by 10^17: the third quotient of a value below 2^127 has no upper
    half. *)
Fixpoint Hugeint_FormatUnsigned_loop (fuel : nat) (value : hugeint_t) (ptr : list Z) : list Z :=
  match fuel with
  | O => ptr
  | S fuel =>
      if 0 <? upper value then
        let '(value, remainder) := Hugeint_DivModPositive value 100000000000000000 in
        let startptr := ptr in
        let ptr := FormatUnsigned remainder ptr in
        let format_length := (length ptr - length startptr)%nat in
        Hugeint_FormatUnsigned_loop fuel value (replicate (17 - format_length) 48 ++ ptr)
      else FormatUnsigned (lower value) ptr
  end.

Definition Hugeint_FormatUnsigned (value : hugeint_t) (ptr : list Z) : list Z :=
  Hugeint_FormatUnsigned_loop 3 value ptr.

Definition Hugeint_FormatSigned (value : hugeint_t) : res (list Z) :=
  let negative := upper value <? 0 in
  let value := if negative then Hugeint_NegateInPlace value else value in
  let len := Hugeint_UnsignedLength value + Z.b2z negative in
  let endptr := if upper value =? 0 then FormatUnsigned (lower value) [] else Hugeint_FormatUnsigned value [] in
  in_buffer len (if negative then 45 :: endptr else endptr).

Definition Hugeint_DecimalLength (value : hugeint_t) (scale : nat) : Z :=
  let negative := Z.b2z (upper value <? 0) in
  let value := if upper value <? 0 then Hugeint_NegateInPlace value else value in
  if (scale =? 0)%nat then Hugeint_UnsignedLength value + negative
  else Z.max (Z.of_nat scale + 2) (Hugeint_UnsignedLength value + 1) + negative.

Definition Hugeint_FormatDecimal (value : hugeint_t) (scale : nat) : res (list Z) :=
  let len := Hugeint_DecimalLength value scale in
  let negative := upper value <? 0 in
  let value := if negative then Hugeint_NegateInPlace value else value in
  text ← (if (scale =? 0)%nat then Ok (Hugeint_FormatUnsigned value [])
          else
            '(major, minor) ← Hugeint_DivMod value (Hugeint_POWERS_OF_TEN !!! scale);
            Ok (Hugeint_FormatUnsigned major (46 :: pad_zeros scale (Hugeint_FormatUnsigned minor []))));
  in_buffer len (if negative then 45 :: text else text).

(** Division by constants in [lia]. *)
#[local] Ltac Zify.zify_post_hook ::= Z.to_euclidean_division_equations.

(** ** Decimal representations *)

Definition is_digit (c : Z) : Prop := 48 <= c <= 57.

(** The number that digits denote, after the digits of [acc]. *)
Definition read (ds : list Z) (acc : Z) : Z := foldl (λ a c, 10 * a + (c - 48)) acc ds.

(** The number of digits of a number. *)
Definition digit_count (v n : Z) : Prop := (v = 0 ∧ n = 1) ∨ (1 <= n ∧ 10 ^ (n - 1) <= v < 10 ^ n).

(** The digits of [v], without leading zeros. *)
Record decimal (v : Z) (ds : list Z) : Prop := {
  dec_digits : Forall is_digit ds;
  dec_value : read ds 0 = v;
  dec_count : digit_count v (Z.of_nat (length ds));
}.

Lemma read_app ds1 ds2 acc : read (ds1 ++ ds2) acc = read ds2 (read ds1 acc).
Proof. apply foldl_app. Qed.

Lemma read_acc ds acc : read ds acc = acc * 10 ^ Z.of_nat (length ds) + read ds 0.
Proof.
  revert acc. induction ds as [|c ds IH]; intros acc; [cbn; lia|]. cbn [read foldl length]. fold (read ds (10 * acc + (c - 48))).
  fold (read ds (10 * 0 + (c - 48))). rewrite IH, (IH (10 * 0 + (c - 48))), Nat2Z.inj_succ, Z.pow_succ_r by lia. lia.
Qed.

Lemma read_bounds ds : Forall is_digit ds → 0 <= read ds 0 < 10 ^ Z.of_nat (length ds).
Proof.
  induction ds as [|c ds IH]; [cbn; lia|]. intros [Hc Hds]%Forall_cons. specialize (IH Hds). unfold is_digit in Hc.
  cbn [read foldl length]. fold (read ds (10 * 0 + (c - 48))). rewrite read_acc, Nat2Z.inj_succ, Z.pow_succ_r by lia. nia.
Qed.

Lemma digit_count_unique v n n' : digit_count v n → digit_count v n' → n = n'.
Proof.
  assert (∀ a b, 1 <= a → a < b → 10 ^ (b - 1) <= v → v < 10 ^ a → False) as H.
  { intros a b ? ? ? ?. pose proof (Z.pow_le_mono_r 10 a (b - 1)). lia. }
  intros [[-> ->]|[? Hn]] [[? ->]|[? Hn']].
  - done.
  - pose proof (Z.pow_pos_nonneg 10 (n' - 1)). lia.
  - pose proof (Z.pow_pos_nonneg 10 (n - 1)). lia.
  - destruct (Z.lt_total n n') as [?|[?|?]]; [exfalso; apply (H n n'); lia|done|exfalso; apply (H n' n); lia].
Qed.

Lemma read_inj ds1 : ∀ ds2, Forall is_digit ds1 → Forall is_digit ds2 → length ds1 = length ds2 →
  read ds1 0 = read ds2 0 → ds1 = ds2.
Proof.
  induction ds1 as [|c1 ds1 IH]; intros [|c2 ds2] H1 H2 Hlen Heq; [done|done|done|].
  apply Forall_cons in H1 as [Hc1 H1], H2 as [Hc2 H2]. injection Hlen as Hlen. unfold is_digit in *.
  cbn [read foldl] in Heq. fold (read ds1 (10 * 0 + (c1 - 48))) in Heq. fold (read ds2 (10 * 0 + (c2 - 48))) in Heq.
  rewrite read_acc, (read_acc ds2), Hlen in Heq. pose proof (read_bounds _ H1) as B1. pose proof (read_bounds _ H2) as B2.
  rewrite Hlen in B1. assert (c1 = c2) as -> by nia. f_equal. apply IH; [done..|lia].
Qed.

Lemma decimal_unique v ds1 ds2 : decimal v ds1 → decimal v ds2 → ds1 = ds2.
Proof.
  intros [H1 V1 C1] [H2 V2 C2]. apply read_inj; [done|done| |congruence].
  pose proof (digit_count_unique _ _ _ C1 C2). lia.
Qed.

(** ** Integers *)

Lemma digits_pair i :
  0 <= i < 100 → digits !!! Z.to_nat (i * 2) = 48 + i / 10 ∧ digits !!! S (Z.to_nat (i * 2)) = 48 + i mod 10.
Proof.
  intros Hi.
  assert (∀ n, (n < 100)%nat → digits !!! (2 * n)%nat = 48 + Z.of_nat n / 10 ∧ digits !!! S (2 * n) = 48 + Z.of_nat n mod 10) as H.
  { intros n Hn. assert (forallb (λ n, (digits !!! (2 * n)%nat =? 48 + Z.of_nat n / 10) &&
      (digits !!! S (2 * n) =? 48 + Z.of_nat n mod 10)) (seq 0 100) = true) as Hall by (vm_compute; reflexivity).
    rewrite forallb_forall in Hall. specialize (Hall n ltac:(apply in_seq; lia)).
    apply andb_prop in Hall as [?%Z.eqb_eq ?%Z.eqb_eq]. done. }
  specialize (H (Z.to_nat i) ltac:(lia)). rewrite Z2Nat.id in H by lia.
  by replace (Z.to_nat (i * 2)) with (2 * Z.to_nat i)%nat by lia.
Qed.

Lemma decimal_digit v : 0 <= v < 10 → decimal v [48 + v].
Proof.
  intros Hv. split; [apply Forall_singleton; unfold is_digit; lia|cbn; lia|]. unfold digit_count. cbn. lia.
Qed.

Lemma decimal_app v w ds es :
  decimal v ds → 0 < v → Forall is_digit es → read es 0 = w → decimal (v * 10 ^ Z.of_nat (length es) + w) (ds ++ es).
Proof.
  intros [H1 V1 C1] Hv H2 V2. pose proof (read_bounds _ H2) as B. rewrite V2 in B. split.
  - by apply Forall_app.
  - rewrite read_app, read_acc, V1, V2. done.
  - destruct C1 as [[? _]|[Hn C1]]; [lia|]. right. rewrite length_app, Nat2Z.inj_add. split; [lia|].
    replace (Z.of_nat (length ds) + Z.of_nat (length es) - 1) with (Z.of_nat (length ds) - 1 + Z.of_nat (length es)) by lia.
    rewrite !Z.pow_add_r by lia. nia.
Qed.

Lemma FormatUnsigned_loop_spec fuel : ∀ v ptr,
  0 <= v < 100 ^ Z.of_nat fuel → (0 < fuel)%nat → ∃ ds, FormatUnsigned_loop fuel v ptr = ds ++ ptr ∧ decimal v ds.
Proof.
  induction fuel as [|fuel IH]; intros v ptr Hv Hf; [lia|]. cbn [FormatUnsigned_loop].
  rewrite Nat2Z.inj_succ, Z.pow_succ_r in Hv by lia. destruct (Z.leb_spec 100 v) as [Hge|Hlt].
  - destruct (digits_pair (v mod 100) ltac:(lia)) as [-> ->].
    destruct (IH (v / 100) (48 + v mod 100 / 10 :: 48 + (v mod 100) mod 10 :: ptr)) as (ds & -> & Hds); [lia|destruct fuel; cbn in *; lia|].
    exists (ds ++ [48 + v mod 100 / 10; 48 + (v mod 100) mod 10]). rewrite <-app_assoc. split; [done|].
    assert (decimal (v / 100 * 10 ^ Z.of_nat 2 + v mod 100) (ds ++ [48 + v mod 100 / 10; 48 + (v mod 100) mod 10])) as H.
    { apply (decimal_app (v / 100) (v mod 100) ds [48 + v mod 100 / 10; 48 + (v mod 100) mod 10]);
        [done|lia| |unfold read; cbn [foldl]; lia].
      rewrite !Forall_cons. unfold is_digit. repeat split; [lia..|constructor]. }
    change (10 ^ Z.of_nat 2) with 100 in H. by replace (v / 100 * 100 + v mod 100) with v in H by lia.
  - destruct (Z.ltb_spec v 10) as [Hlt'|Hge].
    + exists [48 + v]. split; [done|]. apply decimal_digit. lia.
    + destruct (digits_pair v ltac:(lia)) as [-> ->]. exists [48 + v / 10; 48 + v mod 10]. split; [done|].
      split; [rewrite !Forall_cons; unfold is_digit; repeat split; [lia..|constructor]|unfold read; cbn [foldl]; lia|].
      right. change (Z.of_nat (length [48 + v / 10; 48 + v mod 10])) with 2. change (10 ^ 2) with 100. change (10 ^ (2 - 1)) with 10. lia.
Qed.

Lemma FormatUnsigned_spec v ptr : inU 64 v → ∃ ds, FormatUnsigned v ptr = ds ++ ptr ∧ decimal v ds.
Proof. intros Hv. apply FormatUnsigned_loop_spec; [|lia]. unfold inU in Hv. lia. Qed.

Ltac eval_powers :=
  repeat match goal with |- context [10 ^ ?e] => let r := eval vm_compute in (10 ^ e) in change (10 ^ e) with r end.

Ltac count_digits :=
  unfold digit_count; repeat case Z.leb_spec; intros; cbn [Z.b2z]; eval_powers; lia.

Lemma UnsignedLength_count w v : inU (bits w) v → digit_count v (UnsignedLength w v).
Proof.
  unfold inU. destruct w; cbn [bits UnsignedLength]; intros Hv.
  - unfold UnsignedLength_uint8. count_digits.
  - unfold UnsignedLength_uint16. count_digits.
  - unfold UnsignedLength_uint32. count_digits.
  - unfold UnsignedLength_uint64. count_digits.
Qed.

Lemma unsigned_value_abs w v : inS (bits w) v → unsigned_value w v = Z.abs v ∧ inU (bits w) (Z.abs v).
Proof.
  intros Hv. assert (inU (bits w) (Z.abs v)) as Hu.
  { unfold inS, inU in *. assert (2 ^ bits w = 2 * 2 ^ (bits w - 1)) as -> by (destruct w; reflexivity).
    assert (0 < 2 ^ (bits w - 1)) by (destruct w; reflexivity). lia. }
  split; [|done]. unfold unsigned_value, sign_of. destruct (Z.ltb_spec v 0); cbn [Z.b2z].
  - change (Z.opp 1) with (-1). rewrite Z.lxor_m1_r. unfold Z.lnot. replace (Z.pred (- v) - -1) with (Z.abs v) by lia. by apply wrapU_small.
  - change (Z.opp 0) with 0. rewrite Z.lxor_0_r, Z.sub_0_r. replace v with (Z.abs v) at 1 by lia. by apply wrapU_small.
Qed.

Lemma bits_le w v : inU (bits w) v → inU 64 v.
Proof. unfold inU. destruct w; cbn [bits]; lia. Qed.

(** The number of digits is the length that was computed for it. *)
Lemma UnsignedLength_decimal w v ds :
  inU (bits w) v → decimal v ds → UnsignedLength w v = Z.of_nat (length ds).
Proof. intros Hv Hds. eapply digit_count_unique; [by apply UnsignedLength_count|apply Hds]. Qed.

Definition signed (negative : bool) (text : list Z) : list Z := if negative then 45 :: text else text.

Lemma length_signed negative text : Z.of_nat (length (signed negative text)) = Z.of_nat (length text) + Z.b2z negative.
Proof. destruct negative; cbn [signed length Z.b2z]; lia. Qed.

Lemma in_buffer_ok len text : Z.of_nat (length text) = len → in_buffer len text = Ok text.
Proof. intros <-. unfold in_buffer. by rewrite Z.eqb_refl. Qed.

Lemma FormatSigned_spec w v :
  inS (bits w) v → ∃ ds, FormatSigned w v = Ok (signed (v <? 0) ds) ∧ decimal (Z.abs v) ds.
Proof.
  intros Hv. destruct (unsigned_value_abs w v Hv) as [Ha Hu]. unfold FormatSigned. rewrite Ha.
  destruct (FormatUnsigned_spec (Z.abs v) []) as (ds & -> & Hds); [by apply (bits_le w)|]. rewrite app_nil_r.
  exists ds. split; [|done]. unfold sign_of. rewrite (UnsignedLength_decimal w _ ds Hu Hds).
  replace (negb (- Z.b2z (v <? 0) =? 0)) with (v <? 0) by (by destruct (v <? 0)). fold (signed (v <? 0) ds).
  apply in_buffer_ok. rewrite length_signed. lia.
Qed.

(** ** Decimals *)

Lemma read_zeros n acc : read (replicate n 48) acc = acc * 10 ^ Z.of_nat n.
Proof.
  revert acc. induction n as [|n IH]; intros acc; [cbn; lia|]. cbn [replicate read foldl].
  fold (read (replicate n 48) (10 * acc + (48 - 48))). rewrite IH, Nat2Z.inj_succ, Z.pow_succ_r by lia. lia.
Qed.

(** Digits with leading zeros. *)
Lemma padded v ds (k : nat) :
  decimal v ds → v < 10 ^ Z.of_nat k → (0 < k)%nat →
  let text := replicate (k - length ds) 48 ++ ds in
  Forall is_digit text ∧ length text = k ∧ read text 0 = v.
Proof.
  intros [Hd Hv Hc] Hlt Hk. cbn zeta. assert (length ds <= k)%nat as Hlen.
  { destruct Hc as [[_ ?]|[? [Hc _]]]; [lia|].
    destruct (le_lt_dec (length ds) k) as [|Hgt]; [done|].
    pose proof (Z.pow_le_mono_r 10 (Z.of_nat k) (Z.of_nat (length ds) - 1)). lia. }
  split; [|split].
  - apply Forall_app. split; [|done]. apply Forall_replicate. unfold is_digit. lia.
  - rewrite length_app, length_replicate. lia.
  - rewrite read_app, read_zeros. done.
Qed.

(** The length of a decimal in the buffer. *)
Lemma decimal_length v (k : nat) major minor n :
  0 <= v → (0 < k)%nat → decimal (v / 10 ^ Z.of_nat k) major → Forall is_digit minor → length minor = k →
  read minor 0 = v mod 10 ^ Z.of_nat k → digit_count v n →
  Z.max (Z.of_nat k + 2) (n + 1) = Z.of_nat (length (major ++ 46 :: minor)).
Proof.
  intros Hv Hk Hmaj Hmin Hlen Hrd Hn. rewrite length_app. cbn [length]. rewrite Hlen.
  assert (0 < 10 ^ Z.of_nat k) as Hp by (apply Z.pow_pos_nonneg; lia).
  pose proof (Z.div_mod v (10 ^ Z.of_nat k) ltac:(lia)) as Hdm. pose proof (Z.mod_pos_bound v (10 ^ Z.of_nat k) Hp) as Hm.
  destruct (Z.eq_dec (v / 10 ^ Z.of_nat k) 0) as [H0|Hne].
  - assert (Z.of_nat (length major) = 1) as Hmj.
    { rewrite H0 in Hmaj. apply (digit_count_unique 0); [apply Hmaj|by left]. }
    assert (n <= Z.of_nat k) as Hle.
    { destruct Hn as [[_ ?]|[? [Hn _]]]; [lia|]. destruct (Z.le_gt_cases n (Z.of_nat k)) as [|Hgt]; [done|].
      pose proof (Z.pow_le_mono_r 10 (Z.of_nat k) (n - 1)). rewrite H0 in Hdm. lia. }
    lia.
  - pose proof (Z.div_pos v (10 ^ Z.of_nat k) Hv Hp).
    pose proof (decimal_app _ _ _ _ Hmaj ltac:(lia) Hmin Hrd) as Hall. rewrite Hlen in Hall.
    replace (v / 10 ^ Z.of_nat k * 10 ^ Z.of_nat k + v mod 10 ^ Z.of_nat k) with v in Hall by lia.
    pose proof (digit_count_unique _ _ _ Hn (dec_count _ _ Hall)) as ->. rewrite length_app, Hlen.
    destruct Hmaj as [_ _ [[? _]|[Hl _]]]; lia.
Qed.

(** A decimal: an integral part without leading zeros, and as many digits after
    the point as the scale. *)
Definition decimal_text (v : Z) (scale : nat) (text : list Z) : Prop :=
  if (scale =? 0)%nat then decimal v text
  else ∃ major minor, text = major ++ 46 :: minor ∧ decimal (v / 10 ^ Z.of_nat scale) major ∧
    Forall is_digit minor ∧ length minor = scale ∧ read minor 0 = v mod 10 ^ Z.of_nat scale.

Lemma POWERS_OF_TEN_spec (k : nat) : (k <= 18)%nat → POWERS_OF_TEN !!! k = 10 ^ Z.of_nat k.
Proof. intros Hk. do 19 (destruct k as [|k]; [reflexivity|]). lia. Qed.

Lemma DecimalToString_spec w v scale :
  inS (bits w) v → - 2 ^ (bits w - 1) < v → (scale <= 18)%nat → 10 ^ Z.of_nat scale < 2 ^ bits w →
  ∃ text, DecimalToString_Format w v scale = Ok (signed (v <? 0) text) ∧ decimal_text (Z.abs v) scale text.
Proof.
  intros Hv Hmin Hscale Hpow. destruct (unsigned_value_abs w v Hv) as [Ha Hu].
  assert ((if v <? 0 then wrapS (bits w) (- v) else v) = Z.abs v) as Habs.
  { destruct (Z.ltb_spec v 0); [|lia]. rewrite wrapS_small; [lia|destruct w; reflexivity|].
    unfold inS in *. lia. }
  unfold DecimalToString_Format, FormatDecimal, DecimalLength, SignedLength, decimal_text. rewrite Habs, Ha.
  rewrite (wrapU_small _ (Z.abs v)) by done. rewrite POWERS_OF_TEN_spec by done.
  assert (0 < 10 ^ Z.of_nat scale) as Hp by (apply Z.pow_pos_nonneg; lia).
  rewrite wrapU_small by (unfold inU; lia). destruct (Nat.eqb_spec scale 0) as [->|Hs].
  - destruct (FormatUnsigned_spec (Z.abs v) []) as (ds & -> & Hds); [by apply (bits_le w)|]. rewrite app_nil_r.
    exists ds. split; [|done]. apply in_buffer_ok. fold (signed (v <? 0) ds). rewrite length_signed.
    rewrite (UnsignedLength_decimal w _ ds Hu Hds). unfold sign_of. lia.
  - pose proof (Z.div_pos (Z.abs v) (10 ^ Z.of_nat scale) ltac:(lia) Hp).
    pose proof (Z.div_le_upper_bound (Z.abs v) (10 ^ Z.of_nat scale) (Z.abs v) ltac:(lia) ltac:(nia)).
    pose proof (Z.mod_pos_bound (Z.abs v) (10 ^ Z.of_nat scale) Hp).
    pose proof (bits_le w _ Hu) as H64. unfold inU in H64.
    destruct (FormatUnsigned_spec (Z.abs v mod 10 ^ Z.of_nat scale) []) as (mi & -> & Hmi); [unfold inU; nia|]. rewrite app_nil_r.
    destruct (padded _ mi scale Hmi ltac:(lia) ltac:(lia)) as (Hd & Hl & Hr). unfold pad_zeros.
    destruct (FormatUnsigned_spec (Z.abs v / 10 ^ Z.of_nat scale) (46 :: replicate (scale - length mi) 48 ++ mi)) as (ma & -> & Hma);
      [unfold inU; lia|].
    eexists. split; [|exists ma, (replicate (scale - length mi) 48 ++ mi); done].
    apply in_buffer_ok. fold (signed (v <? 0) (ma ++ 46 :: replicate (scale - length mi) 48 ++ mi)). rewrite length_signed.
    rewrite <-(decimal_length (Z.abs v) scale ma _ (UnsignedLength w (Z.abs v))) by (done || lia || by apply UnsignedLength_count).
    unfold sign_of. destruct (v <? 0); cbn [Z.b2z]; lia.
Qed.

(** ** 128-bit integers *)

Lemma Hugeint_POWERS_OF_TEN_spec (k : nat) :
  (k <= 38)%nat → represents (Hugeint_POWERS_OF_TEN !!! k) (10 ^ Z.of_nat k).
Proof.
  intros Hk.
  assert (forallb (λ k, let h := Hugeint_POWERS_OF_TEN !!! k in
    (0 <=? lower h) && (lower h <? 2 ^ 64) && (0 <=? upper h) && (upper h <? 2 ^ 63) && (value h =? 10 ^ Z.of_nat k)) (seq 0 39) = true) as Hall
    by (vm_compute; reflexivity).
  rewrite forallb_forall in Hall. specialize (Hall k ltac:(apply in_seq; lia)). cbn zeta in Hall.
  apply andb_prop in Hall as [[[[?%Z.leb_le ?%Z.ltb_lt]%andb_prop ?%Z.leb_le]%andb_prop ?%Z.ltb_lt]%andb_prop ?%Z.eqb_eq].
  split; [split; unfold inU, inS; lia|done].
Qed.

Lemma ge_power_spec h z k : represents h z → (k <= 38)%nat → ge_power h k = (10 ^ Z.of_nat k <=? z).
Proof.
  intros [Hok <-] Hk. destruct (Hugeint_POWERS_OF_TEN_spec k Hk) as [Hp Hpv]. unfold ge_power.
  destruct (comparison_value h _ Hok Hp) as (_ & _ & _ & -> & _). by rewrite Hpv.
Qed.

Lemma Hugeint_UnsignedLength_count h z :
  represents h z → 0 <= z → digit_count z (Hugeint_UnsignedLength h).
Proof.
  intros Hr Hz. pose proof Hr as [Hok Hv]. pose proof (value_range h Hok) as Hrange. rewrite Hv in Hrange.
  destruct Hok as [Hl Hu]. unfold inU, inS in Hl, Hu. unfold value in Hv. unfold Hugeint_UnsignedLength.
  destruct (Z.eqb_spec (upper h) 0) as [H0|H0].
  - replace (lower h) with z by lia. apply (UnsignedLength_count W64). unfold inU. cbn [bits]. lia.
  - assert (2 ^ 64 <= z) by lia. rewrite !(ge_power_spec h z) by (done || lia). eval_powers. count_digits.
Qed.

Lemma Hugeint_FormatUnsigned_loop_spec fuel : ∀ h z ptr,
  represents h z → 0 <= z < 2 ^ 64 * 10 ^ (17 * (Z.of_nat fuel - 1)) → (0 < fuel)%nat →
  ∃ ds, Hugeint_FormatUnsigned_loop fuel h ptr = ds ++ ptr ∧ decimal z ds.
Proof.
  induction fuel as [|fuel IH]; intros h z ptr Hr Hz Hf; [lia|]. cbn [Hugeint_FormatUnsigned_loop].
  pose proof Hr as [[Hl Hu] Hv]. unfold inU, inS in Hl, Hu. unfold value in Hv.
  destruct (Z.ltb_spec 0 (upper h)) as [Hup|Hup].
  - destruct (DivModPositive_spec h z 100000000000000000 Hr ltac:(lia) ltac:(lia)) as (q & -> & Hq).
    destruct (FormatUnsigned_spec (z mod 100000000000000000) ptr) as (mi & -> & Hmi); [unfold inU; lia|].
    rewrite length_app. replace (length mi + length ptr - length ptr)%nat with (length mi) by lia.
    destruct (padded _ mi 17 Hmi ltac:(change (10 ^ Z.of_nat 17) with 100000000000000000; lia) ltac:(lia)) as (Hd & Hlen & Hrd).
    rewrite app_assoc. set (text := replicate (17 - length mi) 48 ++ mi) in *.
    assert (0 < fuel)%nat as Hfuel.
    { destruct fuel; [|lia]. change (10 ^ (17 * (Z.of_nat 1 - 1))) with 1 in Hz. lia. }
    destruct (IH q (z / 100000000000000000) (text ++ ptr) Hq) as (ma & -> & Hma); [|done|].
    + replace (17 * (Z.of_nat (S fuel) - 1)) with (17 * (Z.of_nat fuel - 1) + 17) in Hz by lia.
      rewrite Z.pow_add_r in Hz by lia. change (10 ^ 17) with 100000000000000000 in Hz. lia.
    + exists (ma ++ text). rewrite app_assoc. split; [done|].
      pose proof (decimal_app _ _ _ _ Hma ltac:(lia) Hd Hrd) as H. rewrite Hlen in H.
      change (10 ^ Z.of_nat 17) with 100000000000000000 in H.
      by replace (z / 100000000000000000 * 100000000000000000 + z mod 100000000000000000) with z in H by lia.
  - replace (lower h) with z by lia. apply FormatUnsigned_spec. unfold inU. lia.
Qed.

Lemma Hugeint_FormatUnsigned_spec h z ptr :
  represents h z → 0 <= z → ∃ ds, Hugeint_FormatUnsigned h ptr = ds ++ ptr ∧ decimal z ds.
Proof.
  intros Hr Hz. apply Hugeint_FormatUnsigned_loop_spec; [done| |lia].
  pose proof (value_range h (proj1 Hr)) as Hrange. rewrite (proj2 Hr) in Hrange.
  change (10 ^ (17 * (Z.of_nat 3 - 1))) with 10000000000000000000000000000000000. lia.
Qed.

Lemma Hugeint_FormatSigned_spec h z :
  represents h z → in_range z → ∃ ds, Hugeint_FormatSigned h = Ok (signed (z <? 0) ds) ∧ decimal (Z.abs z) ds.
Proof.
  intros Hr [Hz1 Hz2]. unfold Hugeint_FormatSigned. fold (magnitude h). rewrite value_sign, (proj2 Hr) by apply Hr.
  pose proof (magnitude_represents h z Hr Hz1) as Hm.
  assert (∃ ds, (if upper (magnitude h) =? 0 then FormatUnsigned (lower (magnitude h)) [] else Hugeint_FormatUnsigned (magnitude h) []) = ds
    ∧ decimal (Z.abs z) ds) as (ds & -> & Hds).
  { destruct (Z.eqb_spec (upper (magnitude h)) 0) as [H0|_].
    - destruct Hm as [[Hl _] Hv]. unfold value in Hv. rewrite H0 in Hv. replace (lower (magnitude h)) with (Z.abs z) in * by lia.
      destruct (FormatUnsigned_spec (Z.abs z) [] Hl) as (ds & -> & Hds). rewrite app_nil_r. by exists ds.
    - destruct (Hugeint_FormatUnsigned_spec _ _ [] Hm ltac:(lia)) as (ds & -> & Hds). rewrite app_nil_r. by exists ds. }
  exists ds. split; [|done]. apply in_buffer_ok. fold (signed (z <? 0) ds). rewrite length_signed.
  by rewrite (digit_count_unique _ _ _ (Hugeint_UnsignedLength_count _ _ Hm ltac:(lia)) (dec_count _ _ Hds)).
Qed.

Lemma DivMod_positive lhs rhs z w :
  represents lhs z → represents rhs w → 0 <= z → 0 < w →
  ∃ q r, Hugeint_DivMod lhs rhs = Ok (q, r) ∧ represents q (z / w) ∧ represents r (z mod w).
Proof.
  intros Hl Hr Hz Hw. pose proof (value_range lhs (proj1 Hl)) as Bl. pose proof (value_range rhs (proj1 Hr)) as Br.
  rewrite (proj2 Hl) in Bl. rewrite (proj2 Hr) in Br.
  destruct (DivMod_quot_rem lhs rhs z w) as (q & r & H & Hq & Hrem & _); [done|done|unfold in_range; lia..|].
  rewrite Z.quot_div_nonneg in Hq by lia. rewrite Z.rem_mod_nonneg in Hrem by lia. by exists q, r.
Qed.

Lemma Hugeint_FormatDecimal_spec h z scale :
  represents h z → in_range z → (scale <= 38)%nat →
  ∃ text, Hugeint_FormatDecimal h scale = Ok (signed (z <? 0) text) ∧ decimal_text (Z.abs z) scale text.
Proof.
  intros Hr [Hz1 Hz2] Hscale. unfold Hugeint_FormatDecimal, Hugeint_DecimalLength, decimal_text. fold (magnitude h).
  rewrite value_sign, (proj2 Hr) by apply Hr. pose proof (magnitude_represents h z Hr Hz1) as Hm.
  pose proof (Hugeint_UnsignedLength_count _ _ Hm ltac:(lia)) as Hcount.
  destruct (Nat.eqb_spec scale 0) as [->|Hs]; cbn [mbind res_bind].
  - destruct (Hugeint_FormatUnsigned_spec _ _ [] Hm ltac:(lia)) as (ds & -> & Hds). rewrite app_nil_r.
    exists ds. split; [|done]. apply in_buffer_ok. fold (signed (z <? 0) ds). rewrite length_signed.
    by rewrite (digit_count_unique _ _ _ Hcount (dec_count _ _ Hds)).
  - assert (0 < 10 ^ Z.of_nat scale) as Hp by (apply Z.pow_pos_nonneg; lia).
    destruct (DivMod_positive _ _ _ _ Hm (Hugeint_POWERS_OF_TEN_spec scale Hscale) ltac:(lia) Hp) as (q & r & -> & Hq & Hrem).
    cbn [mbind res_bind]. pose proof (Z.div_pos (Z.abs z) (10 ^ Z.of_nat scale) ltac:(lia) Hp).
    pose proof (Z.mod_pos_bound (Z.abs z) (10 ^ Z.of_nat scale) Hp).
    destruct (Hugeint_FormatUnsigned_spec r _ [] Hrem ltac:(lia)) as (mi & -> & Hmi). rewrite app_nil_r.
    destruct (padded _ mi scale Hmi ltac:(lia) ltac:(lia)) as (Hd & Hl & Hrd). unfold pad_zeros.
    destruct (Hugeint_FormatUnsigned_spec q _ (46 :: replicate (scale - length mi) 48 ++ mi) Hq ltac:(lia)) as (ma & -> & Hma).
    eexists. split; [|exists ma, (replicate (scale - length mi) 48 ++ mi); done].
    apply in_buffer_ok. fold (signed (z <? 0) (ma ++ 46 :: replicate (scale - length mi) 48 ++ mi)). rewrite length_signed.
    by rewrite <-(decimal_length (Z.abs z) scale ma _ (Hugeint_UnsignedLength (magnitude h))) by (done || lia).
Qed.

(** The other printer: digits without a leading zero. *)
Lemma decimal_codes s :
  all_digits s = true → s ≠ EmptyString → (leading_zero s = true → s = "0"%string) →
  decimal (read_digits s 0) (codes s).
Proof.
  intros Hall Hne Hlead.
  assert (∀ s acc, read_digits s acc = read (codes s) acc) as Hread.
  { clear. induction s as [|c s IH]; intros acc; [done|]. cbn [read_digits codes read foldl].
    rewrite IH. fold (read (codes s) (10 * acc + (code c - 48))). done. }
  assert (∀ s, all_digits s = true → Forall is_digit (codes s)) as Hdig.
  { clear. induction s as [|c s IH]; intros Hall; [constructor|]. cbn [all_digits] in Hall.
    apply andb_prop in Hall as [[?%Z.leb_le ?%Z.leb_le]%andb_prop Hs]. constructor; [split; done|by apply IH]. }
  split; [by apply Hdig|done|]. rewrite Hread. destruct s as [|c s]; [done|].
  pose proof (Hdig _ Hall) as [Hc Hs]%Forall_cons. unfold is_digit in Hc.
  destruct (Z.eq_dec (code c) 48) as [H48|H48].
  - assert (String c s = "0"%string) as -> by (apply Hlead; unfold leading_zero; by apply Z.eqb_eq). by left.
  - right. cbn [codes length]. rewrite Nat2Z.inj_succ. split; [lia|]. cbn [read foldl].
    fold (read (codes s) (10 * 0 + (code c - 48))). rewrite read_acc. pose proof (read_bounds (codes s) Hs) as Hbounds.
    rewrite Z.sub_1_r, Z.pred_succ, Z.pow_succ_r by apply Nat2Z.is_nonneg. remember (10 ^ Z.of_nat (length (codes s))) as p eqn:E. clear E.
    assert (0 <= p) by lia. pose proof (Z.mul_le_mono_nonneg_r 1 (code c - 48) p). pose proof (Z.mul_le_mono_nonneg_r (code c - 48) 9 p). lia.
Qed.

(** ** Theorems *)

(** printing an integer of 8, 16, 32 or 64 bits fills the buffer that was
    allocated for it exactly, and the text is its decimal representation without
    leading zeros, after a minus sign if it is negative. *)
Theorem FormatSigned_decimal (w : numeric_width) (v : Z) :
  inS (bits w) v →
  ∃ ds, FormatSigned w v = Ok (signed (v <? 0) ds) ∧ decimal (Z.abs v) ds ∧ SignedLength w v = Z.of_nat (length (signed (v <? 0) ds)).
Proof.
  intros Hv. destruct (FormatSigned_spec w v Hv) as (ds & H & Hds). exists ds. split; [done|]. split; [done|].
  destruct (unsigned_value_abs w v Hv) as [Ha Hu]. unfold SignedLength, sign_of.
  rewrite Ha, (UnsignedLength_decimal w _ ds Hu Hds), length_signed. lia.
Qed.

Lemma FormatSigned_decimal_witness :
  ∃ ds, FormatSigned W64 (- 2 ^ 63) = Ok (45 :: ds) ∧ decimal (2 ^ 63) ds.
Proof.
  destruct (FormatSigned_decimal W64 (- 2 ^ 63)) as (ds & H & Hds & _); [unfold inS; cbn [bits]; lia|].
  exists ds. split; [exact H|exact Hds].
Defined.

(** printing a decimal of any width, 128 bits included, fills its buffer
    exactly: the text is the integral part, a point and exactly as many digits
    as the scale, which denote the value. *)
Theorem Decimal_printing (w : numeric_width) (v : Z) (h : hugeint_t) (z : Z) (scale scale' : nat) :
  inS (bits w) v → - 2 ^ (bits w - 1) < v → (scale <= 18)%nat → 10 ^ Z.of_nat scale < 2 ^ bits w →
  represents h z → in_range z → (scale' <= 38)%nat →
  (∃ text, DecimalToString_Format w v scale = Ok (signed (v <? 0) text) ∧ decimal_text (Z.abs v) scale text) ∧
  (∃ text, Hugeint_FormatDecimal h scale' = Ok (signed (z <? 0) text) ∧ decimal_text (Z.abs z) scale' text).
Proof. intros. split; [by apply DecimalToString_spec|by apply Hugeint_FormatDecimal_spec]. Qed.

Lemma Decimal_printing_witness :
  ∃ text, DecimalToString_Format W32 (-1234) 3 = Ok (45 :: text) ∧ decimal_text 1234 3 text.
Proof.
  destruct (Decimal_printing W32 (-1234) (mkHugeint 5 0) 5 3 38) as [(text & H & Ht) _];
    [unfold inS; cbn [bits]; lia|cbn [bits]; lia|lia|cbn [bits]; lia|split; [split; unfold inU, inS; cbn; lia|done]|unfold in_range; lia|lia|].
  exists text. split; [exact H|exact Ht].
Defined.

(** the two printers of 128-bit integers, division by ten in
    [Hugeint::ToString] and blocks of seventeen digits in the cast to strings,
    give the same text for every valid value: its decimal representation. *)
Theorem Hugeint_printers_agree (h : hugeint_t) (z : Z) :
  represents h z → in_range z →
  ∃ ds, decimal (Z.abs z) ds ∧ Hugeint_FormatSigned h = Ok (signed (z <? 0) ds) ∧
    codes (Hugeint_ToString h) = signed (z <? 0) ds.
Proof.
  intros Hr Hz. destruct (Hugeint_FormatSigned_spec h z Hr Hz) as (ds & -> & Hds).
  exists ds. split; [done|]. split; [done|].
  destruct (Hugeint_ToString_decimal h z Hr Hz) as (s & -> & Hall & Hrd & Hne & Hlead).
  pose proof (decimal_codes s Hall Hne Hlead) as Hs. rewrite Hrd in Hs. rewrite (decimal_unique _ _ _ Hds Hs).
  by destruct (z <? 0).
Qed.

Lemma Hugeint_printers_agree_witness :
  Hugeint_FormatSigned (mkHugeint 7 (-3)) = Ok (codes (Hugeint_ToString (mkHugeint 7 (-3)))).
Proof.
  destruct (Hugeint_printers_agree (mkHugeint 7 (-3)) (- 55340232221128654841)) as (ds & _ & H & ->);
    [split; [split; unfold inU, inS; cbn; lia|done]|unfold in_range; lia|]. exact H.
Defined.
