(* ===== verification/Date.v ===== *)
(** * Dates

    Models src/src/common/types/date.cpp with its header, and [DateToStringCast]
    of src/src/include/guinsoodb/common/types/cast_helpers.hpp.  A date is the
    number of days since 1970-01-01; a text is a list of character codes.  The
    loops normalise into a cycle of 400 years; their fuel is the number of cycles.

    Theorems: the conversion to years, months and days follows the calendar day
    by day and is the inverse of the conversion from them; week days; the text of
    a date reads back as the date. *)

From S2P Require Import Prelude CastHelpers.

(** ** Tables *)

Definition NORMAL_DAYS : list Z := [
  0; 31; 28; 31; 30; 31; 30; 31; 31; 30; 31; 30; 31].

Definition CUMULATIVE_DAYS : list Z := [
  0; 31; 59; 90; 120; 151; 181; 212; 243; 273; 304; 334; 365].

Definition LEAP_DAYS : list Z := [
  0; 31; 29; 31; 30; 31; 30; 31; 31; 30; 31; 30; 31].

Definition CUMULATIVE_LEAP_DAYS : list Z := [
  0; 31; 60; 91; 121; 152; 182; 213; 244; 274; 305; 335; 366].

Definition MONTH_PER_DAY_OF_YEAR : list Z := [
  1; 1; 1; 1; 1; 1; 1; 1; 1; 1; 1; 1; 1; 1; 1; 1; 1; 1; 1; 1; 1; 1; 1; 1; 1; 1; 1; 1; 1; 1; 1; 2; 2; 2; 2; 2;
  2; 2; 2; 2; 2; 2; 2; 2; 2; 2; 2; 2; 2; 2; 2; 2; 2; 2; 2; 2; 2; 2; 2; 3; 3; 3; 3; 3; 3; 3; 3; 3; 3; 3; 3; 3;
  3; 3; 3; 3; 3; 3; 3; 3; 3; 3; 3; 3; 3; 3; 3; 3; 3; 3; 4; 4; 4; 4; 4; 4; 4; 4; 4; 4; 4; 4; 4; 4; 4; 4; 4; 4;
  4; 4; 4; 4; 4; 4; 4; 4; 4; 4; 4; 4; 5; 5; 5; 5; 5; 5; 5; 5; 5; 5; 5; 5; 5; 5; 5; 5; 5; 5; 5; 5; 5; 5; 5; 5;
  5; 5; 5; 5; 5; 5; 5; 6; 6; 6; 6; 6; 6; 6; 6; 6; 6; 6; 6; 6; 6; 6; 6; 6; 6; 6; 6; 6; 6; 6; 6; 6; 6; 6; 6; 6;
  6; 7; 7; 7; 7; 7; 7; 7; 7; 7; 7; 7; 7; 7; 7; 7; 7; 7; 7; 7; 7; 7; 7; 7; 7; 7; 7; 7; 7; 7; 7; 7; 8; 8; 8; 8;
  8; 8; 8; 8; 8; 8; 8; 8; 8; 8; 8; 8; 8; 8; 8; 8; 8; 8; 8; 8; 8; 8; 8; 8; 8; 8; 8; 9; 9; 9; 9; 9; 9; 9; 9; 9;
  9; 9; 9; 9; 9; 9; 9; 9; 9; 9; 9; 9; 9; 9; 9; 9; 9; 9; 9; 9; 9; 10; 10; 10; 10; 10; 10; 10; 10; 10; 10; 10;
  10; 10; 10; 10; 10; 10; 10; 10; 10; 10; 10; 10; 10; 10; 10; 10; 10; 10; 10; 10; 11; 11; 11; 11; 11; 11; 11;
  11; 11; 11; 11; 11; 11; 11; 11; 11; 11; 11; 11; 11; 11; 11; 11; 11; 11; 11; 11; 11; 11; 11; 12; 12; 12; 12;
  12; 12; 12; 12; 12; 12; 12; 12; 12; 12; 12; 12; 12; 12; 12; 12; 12; 12; 12; 12; 12; 12; 12; 12; 12; 12; 12].

Definition LEAP_MONTH_PER_DAY_OF_YEAR : list Z := [
  1; 1; 1; 1; 1; 1; 1; 1; 1; 1; 1; 1; 1; 1; 1; 1; 1; 1; 1; 1; 1; 1; 1; 1; 1; 1; 1; 1; 1; 1; 1; 2; 2; 2; 2; 2;
  2; 2; 2; 2; 2; 2; 2; 2; 2; 2; 2; 2; 2; 2; 2; 2; 2; 2; 2; 2; 2; 2; 2; 2; 3; 3; 3; 3; 3; 3; 3; 3; 3; 3; 3; 3;
  3; 3; 3; 3; 3; 3; 3; 3; 3; 3; 3; 3; 3; 3; 3; 3; 3; 3; 3; 4; 4; 4; 4; 4; 4; 4; 4; 4; 4; 4; 4; 4; 4; 4; 4; 4;
  4; 4; 4; 4; 4; 4; 4; 4; 4; 4; 4; 4; 4; 5; 5; 5; 5; 5; 5; 5; 5; 5; 5; 5; 5; 5; 5; 5; 5; 5; 5; 5; 5; 5; 5; 5;
  5; 5; 5; 5; 5; 5; 5; 5; 6; 6; 6; 6; 6; 6; 6; 6; 6; 6; 6; 6; 6; 6; 6; 6; 6; 6; 6; 6; 6; 6; 6; 6; 6; 6; 6; 6;
  6; 6; 7; 7; 7; 7; 7; 7; 7; 7; 7; 7; 7; 7; 7; 7; 7; 7; 7; 7; 7; 7; 7; 7; 7; 7; 7; 7; 7; 7; 7; 7; 7; 8; 8; 8;
  8; 8; 8; 8; 8; 8; 8; 8; 8; 8; 8; 8; 8; 8; 8; 8; 8; 8; 8; 8; 8; 8; 8; 8; 8; 8; 8; 8; 9; 9; 9; 9; 9; 9; 9; 9;
  9; 9; 9; 9; 9; 9; 9; 9; 9; 9; 9; 9; 9; 9; 9; 9; 9; 9; 9; 9; 9; 9; 10; 10; 10; 10; 10; 10; 10; 10; 10; 10; 10;
  10; 10; 10; 10; 10; 10; 10; 10; 10; 10; 10; 10; 10; 10; 10; 10; 10; 10; 10; 10; 11; 11; 11; 11; 11; 11; 11;
  11; 11; 11; 11; 11; 11; 11; 11; 11; 11; 11; 11; 11; 11; 11; 11; 11; 11; 11; 11; 11; 11; 11; 12; 12; 12; 12;
  12; 12; 12; 12; 12; 12; 12; 12; 12; 12; 12; 12; 12; 12; 12; 12; 12; 12; 12; 12; 12; 12; 12; 12; 12; 12; 12].

Definition CUMULATIVE_YEAR_DAYS : list Z := [
  0; 365; 730; 1096; 1461; 1826; 2191; 2557; 2922; 3287; 3652; 4018; 4383; 4748; 5113; 5479; 5844; 6209; 6574;
  6940; 7305; 7670; 8035; 8401; 8766; 9131; 9496; 9862; 10227; 10592; 10957; 11323; 11688; 12053; 12418; 12784;
  13149; 13514; 13879; 14245; 14610; 14975; 15340; 15706; 16071; 16436; 16801; 17167; 17532; 17897; 18262;
  18628; 18993; 19358; 19723; 20089; 20454; 20819; 21184; 21550; 21915; 22280; 22645; 23011; 23376; 23741;
  24106; 24472; 24837; 25202; 25567; 25933; 26298; 26663; 27028; 27394; 27759; 28124; 28489; 28855; 29220;
  29585; 29950; 30316; 30681; 31046; 31411; 31777; 32142; 32507; 32872; 33238; 33603; 33968; 34333; 34699;
  35064; 35429; 35794; 36160; 36525; 36890; 37255; 37621; 37986; 38351; 38716; 39082; 39447; 39812; 40177;
  40543; 40908; 41273; 41638; 42004; 42369; 42734; 43099; 43465; 43830; 44195; 44560; 44926; 45291; 45656;
  46021; 46387; 46752; 47117; 47482; 47847; 48212; 48577; 48942; 49308; 49673; 50038; 50403; 50769; 51134;
  51499; 51864; 52230; 52595; 52960; 53325; 53691; 54056; 54421; 54786; 55152; 55517; 55882; 56247; 56613;
  56978; 57343; 57708; 58074; 58439; 58804; 59169; 59535; 59900; 60265; 60630; 60996; 61361; 61726; 62091;
  62457; 62822; 63187; 63552; 63918; 64283; 64648; 65013; 65379; 65744; 66109; 66474; 66840; 67205; 67570;
  67935; 68301; 68666; 69031; 69396; 69762; 70127; 70492; 70857; 71223; 71588; 71953; 72318; 72684; 73049;
  73414; 73779; 74145; 74510; 74875; 75240; 75606; 75971; 76336; 76701; 77067; 77432; 77797; 78162; 78528;
  78893; 79258; 79623; 79989; 80354; 80719; 81084; 81450; 81815; 82180; 82545; 82911; 83276; 83641; 84006;
  84371; 84736; 85101; 85466; 85832; 86197; 86562; 86927; 87293; 87658; 88023; 88388; 88754; 89119; 89484;
  89849; 90215; 90580; 90945; 91310; 91676; 92041; 92406; 92771; 93137; 93502; 93867; 94232; 94598; 94963;
  95328; 95693; 96059; 96424; 96789; 97154; 97520; 97885; 98250; 98615; 98981; 99346; 99711; 100076; 100442;
  100807; 101172; 101537; 101903; 102268; 102633; 102998; 103364; 103729; 104094; 104459; 104825; 105190;
  105555; 105920; 106286; 106651; 107016; 107381; 107747; 108112; 108477; 108842; 109208; 109573; 109938;
  110303; 110669; 111034; 111399; 111764; 112130; 112495; 112860; 113225; 113591; 113956; 114321; 114686;
  115052; 115417; 115782; 116147; 116513; 116878; 117243; 117608; 117974; 118339; 118704; 119069; 119435;
  119800; 120165; 120530; 120895; 121260; 121625; 121990; 122356; 122721; 123086; 123451; 123817; 124182;
  124547; 124912; 125278; 125643; 126008; 126373; 126739; 127104; 127469; 127834; 128200; 128565; 128930;
  129295; 129661; 130026; 130391; 130756; 131122; 131487; 131852; 132217; 132583; 132948; 133313; 133678;
  134044; 134409; 134774; 135139; 135505; 135870; 136235; 136600; 136966; 137331; 137696; 138061; 138427;
  138792; 139157; 139522; 139888; 140253; 140618; 140983; 141349; 141714; 142079; 142444; 142810; 143175;
  143540; 143905; 144271; 144636; 145001; 145366; 145732; 146097].

Definition MIN_YEAR : Z := -290307.
Definition MAX_YEAR : Z := 294247.
Definition EPOCH_YEAR : Z := 1970.
Definition YEAR_INTERVAL : Z := 400.
Definition DAYS_PER_YEAR_INTERVAL : Z := 146097.

(** A table at an index that is not negative. *)
Definition at_index (table : list Z) (i : Z) : Z := table !!! Z.to_nat i.

(** ** Years, months and days *)

(** [while (n < 0) { n += days; year -= years; }], also for [FromDate], where the
    year is below its bound. *)
Fixpoint shift_up (fuel : nat) (bound step : Z) (n other other_step : Z) : Z * Z :=
  match fuel with
  | O => (n, other)
  | S fuel => if n <? bound then shift_up fuel bound step (n + step) (other - other_step) other_step else (n, other)
  end.

(** [while (n >= days) { n -= days; year += years; }] *)
Fixpoint shift_down (fuel : nat) (bound step : Z) (n other other_step : Z) : Z * Z :=
  match fuel with
  | O => (n, other)
  | S fuel => if bound <=? n then shift_down fuel bound step (n - step) (other + other_step) other_step else (n, other)
  end.

(** Rounds that are enough to bring [n] next to [bound] in steps. *)
Definition rounds (bound step n : Z) : nat := S (Z.to_nat (Z.abs (n - bound) / step)).

(** [while (n < CUMULATIVE_YEAR_DAYS[year_offset]) year_offset--;] *)
Fixpoint find_year (n : Z) (year_offset : nat) : nat :=
  if n <? CUMULATIVE_YEAR_DAYS !!! year_offset
  then match year_offset with O => O | S year_offset => find_year n year_offset end
  else year_offset.

(** The day in its cycle, the year and its offset in the cycle. *)
Definition ExtractYearOffset (n : Z) : Z * Z * Z :=
  let year := EPOCH_YEAR in
  let '(n, year) := shift_up (rounds 0 DAYS_PER_YEAR_INTERVAL n) 0 DAYS_PER_YEAR_INTERVAL n year YEAR_INTERVAL in
  let '(n, year) :=
    shift_down (rounds DAYS_PER_YEAR_INTERVAL DAYS_PER_YEAR_INTERVAL n) DAYS_PER_YEAR_INTERVAL DAYS_PER_YEAR_INTERVAL
      n year YEAR_INTERVAL in
  let year_offset := Z.of_nat (find_year n (Z.to_nat (n / 365))) in
  (n, year + year_offset, year_offset).

Definition Date_Convert (n : Z) : Z * Z * Z :=
  let '(n, year, year_offset) := ExtractYearOffset n in
  let day := n - at_index CUMULATIVE_YEAR_DAYS year_offset in
  let is_leap_year :=
    at_index CUMULATIVE_YEAR_DAYS (year_offset + 1) - at_index CUMULATIVE_YEAR_DAYS year_offset =? 366 in
  let month := at_index (if is_leap_year then LEAP_MONTH_PER_DAY_OF_YEAR else MONTH_PER_DAY_OF_YEAR) day in
  let day := day - at_index (if is_leap_year then CUMULATIVE_LEAP_DAYS else CUMULATIVE_DAYS) (month - 1) in
  (year, month, day + 1).

(** The remainder of C++ is negative for negative years; only zero matters. *)
Definition IsLeapYear (year : Z) : bool :=
  (Z.rem year 4 =? 0) && (negb (Z.rem year 100 =? 0) || (Z.rem year 400 =? 0)).

Definition Date_IsValid (year month day : Z) : bool :=
  if (month <? 1) || (12 <? month) then false
  else if (year <? MIN_YEAR) || (MAX_YEAR <? year) then false
  else if day <? 1 then false
  else if IsLeapYear year then day <=? at_index LEAP_DAYS month else day <=? at_index NORMAL_DAYS month.

Definition FromDate (year month day : Z) : res Z :=
  if negb (Date_IsValid year month day) then Throw (ConversionException "Date out of range")
  else
    let n := 0 in
    let '(year, n) := shift_up (rounds 1970 YEAR_INTERVAL year) 1970 YEAR_INTERVAL year n DAYS_PER_YEAR_INTERVAL in
    let '(year, n) := shift_down (rounds 2370 YEAR_INTERVAL year) 2370 YEAR_INTERVAL year n DAYS_PER_YEAR_INTERVAL in
    let n := n + at_index CUMULATIVE_YEAR_DAYS (year - 1970) in
    let n := n + at_index (if IsLeapYear year then CUMULATIVE_LEAP_DAYS else CUMULATIVE_DAYS) (month - 1) in
    Ok (n + (day - 1)).

(** ** Parts of a date *)

(** With the offset of the last year that was looked up, which it updates. *)
Definition ExtractYear_cached (n last_year : Z) : Z * Z :=
  if (at_index CUMULATIVE_YEAR_DAYS last_year <=? n) && (n <? at_index CUMULATIVE_YEAR_DAYS (last_year + 1))
  then (EPOCH_YEAR + last_year, last_year)
  else let '(_, year, last_year) := ExtractYearOffset n in (year, last_year).

Definition ExtractYear (n : Z) : Z := let '(_, year, _) := ExtractYearOffset n in year.

Definition ExtractMonth (date : Z) : Z := let '(_, out_month, _) := Date_Convert date in out_month.

Definition ExtractDay (date : Z) : Z := let '(_, _, out_day) := Date_Convert date in out_day.

Definition ExtractDayOfTheYear (date : Z) : Z :=
  let '(date, _, year_offset) := ExtractYearOffset date in
  date - at_index CUMULATIVE_YEAR_DAYS year_offset + 1.

Definition ExtractISODayOfTheWeek (date : Z) : Z :=
  if date <? 0 then 7 - Z.rem (- date + 3) 7 else Z.rem (date + 3) 7 + 1.

(** The recursive call is for the last days of the year before, which are not
    before its first week. *)
Fixpoint GetISOWeek (fuel : nat) (year month day : Z) : res Z :=
  match fuel with
  | O => Throw (UndefinedBehaviour "unbounded recursion")
  | S fuel =>
      let day_of_the_year := at_index (if IsLeapYear year then CUMULATIVE_LEAP_DAYS else CUMULATIVE_DAYS) month + day in
      january_fourth ← FromDate year 1 4;
      let day_of_the_fourth := ExtractISODayOfTheWeek january_fourth in
      let first_day_of_the_first_week := if 4 <=? day_of_the_fourth then 0 else 5 - day_of_the_fourth in
      if day_of_the_year <? first_day_of_the_first_week then GetISOWeek fuel (year - 1) 12 day
      else Ok (Z.quot (day_of_the_year - first_day_of_the_first_week) 7 + 1)
  end.

Definition ExtractISOWeekNumber (date : Z) : res Z :=
  let '(year, month, day) := Date_Convert date in
  GetISOWeek 2 year (month - 1) (day - 1).

Definition ExtractWeekNumberRegular (date : Z) (monday_first : bool) : res Z :=
  let '(year, month, day) := Date_Convert date in
  let month := month - 1 in
  let day := day - 1 in
  let day_of_the_year := at_index (if IsLeapYear year then CUMULATIVE_LEAP_DAYS else CUMULATIVE_DAYS) month + day in
  january_first ← FromDate year 1 1;
  let day_of_jan_first := ExtractISODayOfTheWeek january_first in
  let first_week_start :=
    if monday_first then (if day_of_jan_first =? 1 then 0 else 8 - day_of_jan_first)
    else 7 - day_of_jan_first in
  if day_of_the_year <? first_week_start then Ok 0
  else Ok (Z.quot (day_of_the_year - first_week_start) 7 + 1).

Definition GetMondayOfCurrentWeek (date : Z) : Z :=
  let dotw := ExtractISODayOfTheWeek date in
  date - (dotw - 1).

Definition SECS_PER_DAY : Z := 60 * 60 * 24.

Definition Date_Epoch (date : Z) : Z := date * SECS_PER_DAY.

Definition EpochToDate (epoch : Z) : Z := wrapS 32 (Z.quot epoch SECS_PER_DAY).

(** ** Texts *)

Definition CharacterIsSpace (c : Z) : bool :=
  (c =? 32) || (c =? 9) || (c =? 10) || (c =? 11) || (c =? 12) || (c =? 13).

Definition CharacterIsDigit (c : Z) : bool := (48 <=? c) && (c <=? 57).

(** A position in a text is what follows it. *)
Fixpoint skip_spaces (buf : list Z) : list Z :=
  match buf with
  | c :: rest => if CharacterIsSpace c then skip_spaces rest else buf
  | [] => []
  end.

Definition ParseDoubleDigit (buf : list Z) : option (Z * list Z) :=
  match buf with
  | c :: rest =>
      if CharacterIsDigit c then
        match rest with
        | c' :: rest' => if CharacterIsDigit c' then Some ((c' - 48) + (c - 48) * 10, rest') else Some (c - 48, rest)
        | [] => Some (c - 48, [])
        end
      else None
  | [] => None
  end.

(** The loop stops in front of the digit that makes the year too large. *)
Fixpoint parse_year (buf : list Z) (year : Z) : Z * list Z :=
  match buf with
  | c :: rest =>
      if CharacterIsDigit c then
        let year := (c - 48) + year * 10 in
        if MAX_YEAR <? year then (year, buf) else parse_year rest year
      else (year, buf)
  | [] => (year, [])
  end.

(** An optional " (BC)". *)
Definition parse_bc (buf : list Z) (yearneg : bool) (year : Z) : option (Z * list Z) :=
  match buf with
  | c0 :: 40 :: 66 :: 67 :: 41 :: rest =>
      if CharacterIsSpace c0 then
        if yearneg || (year =? 0) then None
        else
          let year := - year + 1 in
          if year <? MIN_YEAR then None else Some (year, rest)
      else Some (year, buf)
  | _ => Some (year, buf)
  end.

(** The separators ' ', '-', '/' and '\'. *)
Definition is_separator (c : Z) : bool := (c =? 32) || (c =? 45) || (c =? 47) || (c =? 92).

(** [None] stands for false; the conversion of the parts may throw. *)
Definition TryConvertDate (buf : list Z) (strict : bool) : res (option (Z * list Z)) :=
  match skip_spaces buf with
  | [] => Ok None
  | c :: rest =>
      let yearneg := c =? 45 in
      match (if yearneg then rest else c :: rest) with
      | [] => Ok None
      | c :: rest =>
          if negb (CharacterIsDigit c) then Ok None
          else
            let '(year, rest) := parse_year (c :: rest) 0 in
            let year := if yearneg then - year else year in
            if yearneg && (year <? MIN_YEAR) then Ok None
            else
              match rest with
              | [] => Ok None
              | sep :: rest =>
                  if negb (is_separator sep) then Ok None
                  else
                    match ParseDoubleDigit rest with
                    | None => Ok None
                    | Some (month, rest) =>
                        match rest with
                        | [] => Ok None
                        | sep' :: rest =>
                            if negb (sep' =? sep) then Ok None
                            else
                              match rest, ParseDoubleDigit rest with
                              | [], _ | _, None => Ok None
                              | _, Some (day, rest) =>
                                  match parse_bc rest yearneg year with
                                  | None => Ok None
                                  | Some (year, rest) =>
                                      let rest := if strict then skip_spaces rest else rest in
                                      let stop :=
                                        match rest with
                                        | [] => false
                                        | c :: _ => if strict then true else CharacterIsDigit c
                                        end in
                                      if stop then Ok None
                                      else date ← FromDate year month day; Ok (Some (date, rest))
                                  end
                              end
                        end
                    end
              end
      end
  end.

Definition Date_FromCString (buf : list Z) (strict : bool) : res Z :=
  result ← TryConvertDate buf strict;
  match result with
  | None => Throw (ConversionException "date/time field value out of range, expected format is (YYYY-MM-DD)")
  | Some (date, _) => Ok date
  end.

(** [DateToStringCast::Length]: the length, the length of the year, the year to
    print and whether to add (BC). *)
Definition DateToStringCast_Length (year : Z) : Z * Z * Z * bool :=
  let add_bc := year <=? 0 in
  let year := if add_bc then - year + 1 else year in
  let year_length :=
    4 + Z.b2z (10000 <=? year) + Z.b2z (100000 <=? year) + Z.b2z (1000000 <=? year) + Z.b2z (10000000 <=? year) in
  (6 + (if add_bc then 5 else 0) + year_length, year_length, year, add_bc).

(** Two digits. *)
Definition FormatTwoDigits (value : Z) : list Z :=
  if value <? 10 then [48; 48 + value]
  else
    let index := Z.to_nat (value * 2) in
    [digits !!! index; digits !!! S index].

(** [DateToStringCast::Format]: the digits of the year are written backwards and
    padded up to the start of the buffer. *)
Definition DateToStringCast_Format (year month day year_length : Z) (add_bc : bool) : res (list Z) :=
  year_text ← in_buffer year_length (pad_zeros (Z.to_nat year_length) (FormatUnsigned year []));
  Ok (year_text ++ 45 :: FormatTwoDigits month ++ 45 :: FormatTwoDigits day ++ (if add_bc then codes " (BC)" else [])).

Definition Date_ToString (date : Z) : res (list Z) :=
  let '(year, month, day) := Date_Convert date in
  let '(len, year_length, year, add_bc) := DateToStringCast_Length year in
  text ← DateToStringCast_Format year month day year_length add_bc;
  in_buffer len text.

(** ** The calendar *)

#[local] Ltac Zify.zify_post_hook ::= Z.to_euclidean_division_equations.

(** The Gregorian calendar: every fourth year has an extra day, except for the
    centuries that are not multiples of 400. *)
Definition leap (y : Z) : Prop := y mod 4 = 0 ∧ (y mod 100 ≠ 0 ∨ y mod 400 = 0).

#[export] Instance leap_dec y : Decision (leap y).
Proof. unfold leap. apply _. Defined.

Definition days_in_month (y m : Z) : Z :=
  if m =? 2 then (if decide (leap y) then 29 else 28)
  else if (m =? 4) || (m =? 6) || (m =? 9) || (m =? 11) then 30 else 31.

Definition calendar_date (x : Z * Z * Z) : Prop :=
  1 <= x.1.2 <= 12 ∧ 1 <= x.2 <= days_in_month x.1.1 x.1.2.

Definition next_day (x : Z * Z * Z) : Z * Z * Z :=
  let '(y, m, d) := x in
  if d <? days_in_month y m then (y, m, d + 1)
  else if m <? 12 then (y, m + 1, 1)
  else (y + 1, 1, 1).

(** The number of a date: days before its year, before its month, and its day. *)
Definition days_before_year (y : Z) : Z := 365 * (y - 1970) + ((y - 1) / 4 - (y - 1) / 100 + (y - 1) / 400) - 477.

Definition cumulative (y : Z) : list Z := if decide (leap y) then CUMULATIVE_LEAP_DAYS else CUMULATIVE_DAYS.

Definition day_number (x : Z * Z * Z) : Z :=
  days_before_year x.1.1 + at_index (cumulative x.1.1) (x.1.2 - 1) + (x.2 - 1).

Lemma IsLeapYear_leap y : IsLeapYear y = bool_decide (leap y).
Proof.
  unfold IsLeapYear. assert (∀ k, 0 < k → (Z.rem y k =? 0) = bool_decide (y mod k = 0)) as H.
  { intros k Hk. destruct (Z.eqb_spec (Z.rem y k) 0) as [H|H].
    - symmetry. apply bool_decide_true. apply Z.rem_divide, Z.mod_divide in H; lia.
    - symmetry. apply bool_decide_false. intros H'. apply H. apply Z.rem_divide, Z.mod_divide; lia. }
  rewrite !H by lia. symmetry. unfold leap.
  destruct (decide (y mod 4 = 0)), (decide (y mod 100 = 0)), (decide (y mod 400 = 0));
    rewrite ?(bool_decide_true (y mod 4 = 0)), ?(bool_decide_false (y mod 4 = 0)), ?(bool_decide_true (y mod 100 = 0)),
      ?(bool_decide_false (y mod 100 = 0)), ?(bool_decide_true (y mod 400 = 0)), ?(bool_decide_false (y mod 400 = 0)) by done;
    cbn [negb orb andb]; first [apply bool_decide_true; tauto|apply bool_decide_false; tauto].
Qed.

Lemma div_pred y k : 0 < k → y / k = (y - 1) / k + (if decide (y mod k = 0) then 1 else 0).
Proof.
  intros Hk. pose proof (Z.div_mod y k ltac:(lia)) as Hd. pose proof (Z.mod_pos_bound y k Hk) as Hm. case_decide as H.
  - rewrite <-(Z.div_unique (y - 1) k (y / k - 1) (k - 1)) by lia. lia.
  - rewrite <-(Z.div_unique (y - 1) k (y / k) (y mod k - 1)) by lia. lia.
Qed.

Lemma days_before_next y : days_before_year (y + 1) = days_before_year y + (if decide (leap y) then 366 else 365).
Proof.
  unfold days_before_year, leap. replace (y + 1 - 1) with y by lia.
  rewrite (div_pred y 4), (div_pred y 100), (div_pred y 400) by lia.
  destruct (decide (y mod 4 = 0)), (decide (y mod 100 = 0)), (decide (y mod 400 = 0)), (decide (_ ∧ _)); lia.
Qed.

Lemma days_before_mono y y' : y <= y' → days_before_year y + 365 * (y' - y) <= days_before_year y'.
Proof. intros H. unfold days_before_year. lia. Qed.

Lemma leap_cycle y k : leap (y + 400 * k) ↔ leap y.
Proof. unfold leap. lia. Qed.

Lemma days_before_cycle y k : days_before_year (y + 400 * k) = days_before_year y + 146097 * k.
Proof. unfold days_before_year. lia. Qed.

(** The tables. *)
Lemma year_table k : 0 <= k <= 400 → at_index CUMULATIVE_YEAR_DAYS k = days_before_year (1970 + k).
Proof.
  intros Hk. assert (forallb (λ n, CUMULATIVE_YEAR_DAYS !!! n =? days_before_year (1970 + Z.of_nat n)) (seq 0 401) = true) as Hall
    by (vm_compute; reflexivity).
  rewrite forallb_forall in Hall. specialize (Hall (Z.to_nat k) ltac:(apply in_seq; lia)).
  apply Z.eqb_eq in Hall. rewrite Z2Nat.id in Hall by lia. done.
Qed.

Definition month_table (y : Z) : list Z := if decide (leap y) then LEAP_MONTH_PER_DAY_OF_YEAR else MONTH_PER_DAY_OF_YEAR.

Lemma month_tables y d :
  0 <= d < (if decide (leap y) then 366 else 365) →
  let m := at_index (month_table y) d in
  1 <= m <= 12 ∧ at_index (cumulative y) (m - 1) <= d < at_index (cumulative y) m.
Proof.
  assert (∀ (months days : list Z) n, forallb (λ d, let m := months !!! d in
    (1 <=? m) && (m <=? 12) && (at_index days (m - 1) <=? Z.of_nat d) && (Z.of_nat d <? at_index days m)) (seq 0 n) = true →
    0 <= d < Z.of_nat n → let m := at_index months d in 1 <= m <= 12 ∧ at_index days (m - 1) <= d < at_index days m) as H.
  { intros months days n Hall Hd. rewrite forallb_forall in Hall. specialize (Hall (Z.to_nat d) ltac:(apply in_seq; lia)).
    cbn zeta in *. rewrite Z2Nat.id in Hall by lia.
    apply andb_prop in Hall as [[[?%Z.leb_le ?%Z.leb_le]%andb_prop ?%Z.leb_le]%andb_prop ?%Z.ltb_lt].
    fold (at_index months d) in *. lia. }
  unfold month_table, cumulative. destruct (decide (leap y)); intros Hd.
  - apply (H LEAP_MONTH_PER_DAY_OF_YEAR CUMULATIVE_LEAP_DAYS 366%nat); [vm_compute; reflexivity|lia].
  - apply (H MONTH_PER_DAY_OF_YEAR CUMULATIVE_DAYS 365%nat); [vm_compute; reflexivity|lia].
Qed.

Lemma month_cases (P : Z → Prop) :
  P 1 → P 2 → P 3 → P 4 → P 5 → P 6 → P 7 → P 8 → P 9 → P 10 → P 11 → P 12 → ∀ m, 1 <= m <= 12 → P m.
Proof.
  intros. assert (m = 1 ∨ m = 2 ∨ m = 3 ∨ m = 4 ∨ m = 5 ∨ m = 6 ∨ m = 7 ∨ m = 8 ∨ m = 9 ∨ m = 10 ∨ m = 11 ∨ m = 12) as Hm by lia.
  repeat (destruct Hm as [->|Hm]; [done|]). by subst.
Qed.

Lemma cumulative_month y m :
  1 <= m <= 12 → at_index (cumulative y) m = at_index (cumulative y) (m - 1) + days_in_month y m.
Proof.
  revert m. apply month_cases; unfold cumulative, days_in_month; by destruct (decide (leap y)).
Qed.

Lemma month_lengths y m :
  1 <= m <= 12 → (if IsLeapYear y then at_index LEAP_DAYS m else at_index NORMAL_DAYS m) = days_in_month y m ∧ 28 <= days_in_month y m <= 31.
Proof.
  rewrite IsLeapYear_leap. revert m. unfold days_in_month.
  apply month_cases; case_bool_decide; case_decide; try done; (split; [reflexivity|vm_compute; intuition congruence]).
Qed.

Lemma cumulative_bounds y m :
  1 <= m <= 12 → 0 <= at_index (cumulative y) (m - 1) ∧ at_index (cumulative y) m <= (if decide (leap y) then 366 else 365).
Proof.
  revert m. unfold cumulative.
  apply month_cases; case_decide; (split; vm_compute; congruence).
Qed.

(** ** Conversion to years, months and days *)

Lemma shift_up_spec fuel bound step other_step : ∀ n other,
  0 < step → bound - n <= Z.of_nat fuel * step →
  ∃ k, 0 <= k ∧ shift_up fuel bound step n other other_step = (n + k * step, other - k * other_step) ∧
    bound <= n + k * step ∧ (k = 0 ∨ n + k * step < bound + step).
Proof.
  induction fuel as [|fuel IH]; intros n other Hs Hf; cbn [shift_up].
  - exists 0. split; [lia|]. split; [f_equal; lia|]. lia.
  - destruct (Z.ltb_spec n bound) as [Hlt|Hge].
    + destruct (IH (n + step) (other - other_step) Hs) as (k & Hk & -> & Hb & Hor); [lia|].
      exists (k + 1). split; [lia|]. split; [f_equal; lia|]. split; [lia|]. right. destruct Hor; subst; lia.
    + exists 0. split; [lia|]. split; [f_equal; lia|]. lia.
Qed.

Lemma shift_down_spec fuel bound step other_step : ∀ n other,
  0 < step → n - bound < Z.of_nat fuel * step →
  ∃ k, 0 <= k ∧ shift_down fuel bound step n other other_step = (n - k * step, other + k * other_step) ∧
    n - k * step < bound ∧ (k = 0 ∨ bound - step <= n - k * step).
Proof.
  induction fuel as [|fuel IH]; intros n other Hs Hf; cbn [shift_down].
  - exists 0. split; [lia|]. split; [f_equal; lia|]. lia.
  - destruct (Z.leb_spec bound n) as [Hge|Hlt].
    + destruct (IH (n - step) (other + other_step) Hs) as (k & Hk & -> & Hb & Hor); [lia|].
      exists (k + 1). split; [lia|]. split; [f_equal; lia|]. split; [lia|]. right. destruct Hor; subst; lia.
    + exists 0. split; [lia|]. split; [f_equal; lia|]. lia.
Qed.

Lemma rounds_enough bound step n :
  0 < step → bound - n <= Z.of_nat (rounds bound step n) * step ∧ n - bound < Z.of_nat (rounds bound step n) * step.
Proof.
  intros Hs. unfold rounds. rewrite Nat2Z.inj_succ, Z2Nat.id by (apply Z.div_pos; lia).
  pose proof (Z.div_mod (Z.abs (n - bound)) step ltac:(lia)). pose proof (Z.mod_pos_bound (Z.abs (n - bound)) step Hs). nia.
Qed.

(** Both loops bring a number into one cycle. *)
Lemma shift_cycle bound step n other other_step :
  0 < step →
  let '(n1, other1) := shift_up (rounds bound step n) bound step n other other_step in
  ∃ k, shift_down (rounds (bound + step) step n1) (bound + step) step n1 other1 other_step = (n - k * step, other + k * other_step) ∧
    bound <= n - k * step < bound + step.
Proof.
  intros Hs. destruct (shift_up_spec (rounds bound step n) bound step other_step n other Hs) as (k1 & H1 & -> & Hb1 & Hor1);
    [by apply rounds_enough|].
  destruct (shift_down_spec (rounds (bound + step) step (n + k1 * step)) (bound + step) step other_step (n + k1 * step)
    (other - k1 * other_step) Hs) as (k2 & H2 & -> & Hb2 & Hor2); [by apply rounds_enough|].
  exists (k2 - k1). split; [f_equal; lia|]. destruct Hor1, Hor2; subst; lia.
Qed.

(** A loop that has ended gives the same with more fuel. *)
Lemma shift_up_more fuel more bound step other_step : ∀ n other,
  bound <= (shift_up fuel bound step n other other_step).1 →
  shift_up (fuel + more) bound step n other other_step = shift_up fuel bound step n other other_step.
Proof.
  induction fuel as [|fuel IH]; intros n other; cbn [shift_up Nat.add].
  - cbn. intros Hn. destruct more; [done|]. cbn [shift_up]. destruct (Z.ltb_spec n bound); [lia|done].
  - destruct (Z.ltb_spec n bound); [apply IH|done].
Qed.

Lemma shift_down_more fuel more bound step other_step : ∀ n other,
  (shift_down fuel bound step n other other_step).1 < bound →
  shift_down (fuel + more) bound step n other other_step = shift_down fuel bound step n other other_step.
Proof.
  induction fuel as [|fuel IH]; intros n other; cbn [shift_down Nat.add].
  - cbn. intros Hn. destruct more; [done|]. cbn [shift_down]. destruct (Z.leb_spec bound n); [lia|done].
  - destruct (Z.leb_spec bound n); [apply IH|done].
Qed.

Lemma find_year_spec n (off : nat) :
  0 <= n → (off <= 400)%nat → n < days_before_year (1970 + Z.of_nat off + 1) →
  days_before_year (1970 + Z.of_nat (find_year n off)) <= n < days_before_year (1970 + Z.of_nat (find_year n off) + 1).
Proof.
  intros Hn. induction off as [|off IH]; intros Hoff Hlt; cbn [find_year].
  - change (CUMULATIVE_YEAR_DAYS !!! 0%nat) with 0. change (days_before_year (1970 + Z.of_nat 0)) with 0 in *.
    destruct (Z.ltb_spec n 0); [lia|]. change (days_before_year (1970 + Z.of_nat 0)) with 0. lia.
  - pose proof (year_table (Z.of_nat (S off)) ltac:(lia)) as Ht. unfold at_index in Ht. rewrite Nat2Z.id in Ht. rewrite Ht.
    destruct (Z.ltb_spec n (days_before_year (1970 + Z.of_nat (S off)))) as [H|H]; [|done].
    apply IH; [lia|]. replace (1970 + Z.of_nat off + 1) with (1970 + Z.of_nat (S off)) by lia. done.
Qed.

Lemma ExtractYearOffset_spec n :
  ∃ k off, ExtractYearOffset n = (n - k * 146097, 1970 + k * 400 + off, off) ∧ 0 <= off < 400 ∧
    days_before_year (1970 + off) <= n - k * 146097 < days_before_year (1970 + off + 1).
Proof.
  unfold ExtractYearOffset, EPOCH_YEAR, DAYS_PER_YEAR_INTERVAL, YEAR_INTERVAL.
  pose proof (shift_cycle 0 146097 n 1970 400 ltac:(lia)) as H. change (0 + 146097) with 146097 in H.
  destruct (shift_up _ _ _ _ _ _) as [n1 year1]. destruct H as (k & -> & Hk).
  set (m := n - k * 146097) in *. exists k, (Z.of_nat (find_year m (Z.to_nat (m / 365)))). split; [done|].
  assert (days_before_year (1970 + Z.of_nat (find_year m (Z.to_nat (m / 365)))) <= m
    < days_before_year (1970 + Z.of_nat (find_year m (Z.to_nat (m / 365))) + 1)) as Hf.
  { apply find_year_spec; [lia|lia|]. pose proof (days_before_mono 1970 (1970 + Z.of_nat (Z.to_nat (m / 365)) + 1) ltac:(lia)) as Hm.
    change (days_before_year 1970) with 0 in Hm. lia. }
  split; [|done]. set (off := find_year _ _) in *.
  destruct (Z.lt_ge_cases (Z.of_nat off) 400) as [|Hge]; [lia|].
  pose proof (days_before_mono 2370 (1970 + Z.of_nat off) ltac:(lia)) as Hm. change (days_before_year 2370) with 146097 in Hm. lia.
Qed.

Lemma Date_Convert_spec n : calendar_date (Date_Convert n) ∧ day_number (Date_Convert n) = n.
Proof.
  unfold Date_Convert. destruct (ExtractYearOffset_spec n) as (k & off & -> & Hoff & Hn).
  rewrite !year_table by lia. replace (1970 + (off + 1)) with (1970 + off + 1) by lia.
  pose proof (days_before_next (1970 + off)) as Hnext. rewrite Hnext.
  assert (leap (1970 + k * 400 + off) ↔ leap (1970 + off)) as Hcycle.
  { replace (1970 + k * 400 + off) with (1970 + off + 400 * k) by lia. apply leap_cycle. }
  assert (days_before_year (1970 + k * 400 + off) = days_before_year (1970 + off) + 146097 * k) as Hbefore.
  { replace (1970 + k * 400 + off) with (1970 + off + 400 * k) by lia. apply days_before_cycle. }
  set (d := n - k * 146097 - days_before_year (1970 + off)).
  assert (0 <= d < (if decide (leap (1970 + off)) then 366 else 365)) as Hd by (unfold d; lia).
  replace (days_before_year (1970 + off) + (if decide (leap (1970 + off)) then 366 else 365) - days_before_year (1970 + off) =? 366)
    with (bool_decide (leap (1970 + off))).
  2: { case_bool_decide; destruct (decide (leap (1970 + off))); try done; symmetry; [apply Z.eqb_eq|apply Z.eqb_neq]; lia. }
  replace (if bool_decide (leap (1970 + off)) then LEAP_MONTH_PER_DAY_OF_YEAR else MONTH_PER_DAY_OF_YEAR)
    with (month_table (1970 + off)) by (unfold month_table; case_bool_decide; by case_decide).
  replace (if bool_decide (leap (1970 + off)) then CUMULATIVE_LEAP_DAYS else CUMULATIVE_DAYS)
    with (cumulative (1970 + off)) by (unfold cumulative; case_bool_decide; by case_decide).
  destruct (month_tables (1970 + off) d Hd) as [Hm Hdm]. set (m := at_index (month_table (1970 + off)) d) in *.
  assert (cumulative (1970 + k * 400 + off) = cumulative (1970 + off)) as Hcum by (unfold cumulative; repeat case_decide; tauto).
  assert (days_in_month (1970 + k * 400 + off) m = days_in_month (1970 + off) m) as Hdim
    by (unfold days_in_month; repeat case_decide; tauto).
  split.
  - split; cbn [fst snd]; [lia|]. rewrite Hdim. rewrite (cumulative_month _ m Hm) in Hdm. lia.
  - unfold day_number. cbn [fst snd]. rewrite Hcum, Hbefore. unfold d. lia.
Qed.

(** A date is determined by its number. *)
Lemma day_of_year_bounds x :
  calendar_date x → days_before_year x.1.1 <= day_number x < days_before_year (x.1.1 + 1).
Proof.
  intros [Hm Hd]. pose proof (cumulative_bounds x.1.1 _ Hm) as [Hc Hc']. rewrite cumulative_month in Hc' by done.
  rewrite days_before_next. unfold day_number. lia.
Qed.

Lemma cumulative_mono y m m' : 1 <= m → m <= m' → m' <= 12 → at_index (cumulative y) m <= at_index (cumulative y) m'.
Proof.
  intros Hm Hle Hm'. replace m' with (m + Z.of_nat (Z.to_nat (m' - m))) in * by lia.
  induction (Z.to_nat (m' - m)) as [|k IH]; [rewrite Z.add_0_r; lia|].
  rewrite (cumulative_month y (m + Z.of_nat (S k))) by lia. replace (m + Z.of_nat (S k) - 1) with (m + Z.of_nat k) by lia.
  pose proof (proj2 (month_lengths y (m + Z.of_nat (S k)) ltac:(lia))). specialize (IH ltac:(lia) ltac:(lia)). lia.
Qed.

Lemma day_number_inj x x' : calendar_date x → calendar_date x' → day_number x = day_number x' → x = x'.
Proof.
  intros Hx Hx' Heq. pose proof (day_of_year_bounds _ Hx) as B. pose proof (day_of_year_bounds _ Hx') as B'.
  destruct x as [[y m] d], x' as [[y' m'] d'], Hx as [Hm Hd], Hx' as [Hm' Hd']. cbn [fst snd] in *.
  assert (∀ a b, a < b → days_before_year (a + 1) <= days_before_year b) as Hy.
  { intros a b Hab. pose proof (days_before_mono (a + 1) b ltac:(lia)). lia. }
  assert (y = y') as <-.
  { destruct (Z.lt_total y y') as [Hlt|[?|Hlt]]; [specialize (Hy _ _ Hlt); lia|done|specialize (Hy _ _ Hlt); lia]. }
  unfold day_number in Heq. cbn [fst snd] in Heq.
  pose proof (cumulative_month y m Hm). pose proof (cumulative_month y m' Hm').
  assert (m = m') as <-.
  { destruct (Z.lt_total m m') as [Hlt|[?|Hlt]]; [|done|].
    - pose proof (cumulative_mono y m (m' - 1) ltac:(lia) ltac:(lia) ltac:(lia)). lia.
    - pose proof (cumulative_mono y m' (m - 1) ltac:(lia) ltac:(lia) ltac:(lia)). lia. }
  f_equal. lia.
Qed.

Lemma Date_Convert_unique n x : calendar_date x → day_number x = n → Date_Convert n = x.
Proof.
  intros Hx Hn. destruct (Date_Convert_spec n) as [Hc Hd]. apply day_number_inj; [done|done|congruence].
Qed.

Lemma next_day_spec x : calendar_date x → calendar_date (next_day x) ∧ day_number (next_day x) = day_number x + 1.
Proof.
  destruct x as [[y m] d]. intros [Hm Hd]. cbn [fst snd] in *. unfold next_day.
  pose proof (month_lengths y m Hm) as [_ Hlen]. destruct (Z.ltb_spec d (days_in_month y m)) as [Hlt|Hge].
  - split; [split; cbn [fst snd]; lia|]. unfold day_number. cbn [fst snd]. lia.
  - pose proof (cumulative_month y m Hm) as Hc. destruct (Z.ltb_spec m 12) as [Hm12|Hm12].
    + pose proof (month_lengths y (m + 1) ltac:(lia)) as [_ Hlen']. split; [split; cbn [fst snd]; lia|].
      unfold day_number. cbn [fst snd]. replace (m + 1 - 1) with m by lia. lia.
    + assert (m = 12) as -> by lia. pose proof (month_lengths (y + 1) 1 ltac:(lia)) as [_ Hlen'].
      split; [split; cbn [fst snd]; lia|]. unfold day_number. cbn [fst snd]. rewrite days_before_next.
      replace (at_index (cumulative (y + 1)) (1 - 1)) with 0 by (unfold cumulative; by case_decide).
      assert (at_index (cumulative y) 12 = if decide (leap y) then 366 else 365) by (unfold cumulative; by case_decide). lia.
Qed.

Lemma FromDate_spec y m d :
  MIN_YEAR <= y <= MAX_YEAR → calendar_date (y, m, d) → FromDate y m d = Ok (day_number (y, m, d)).
Proof.
  intros Hy [Hm Hd]. cbn [fst snd] in *. unfold FromDate.
  assert (Date_IsValid y m d = true) as ->.
  { unfold Date_IsValid. pose proof (month_lengths y m Hm) as [Hl _].
    destruct (Z.ltb_spec m 1); [lia|]. destruct (Z.ltb_spec 12 m); [lia|]. destruct (Z.ltb_spec y MIN_YEAR); [lia|].
    destruct (Z.ltb_spec MAX_YEAR y); [lia|]. destruct (Z.ltb_spec d 1); [lia|]. cbn [orb].
    destruct (IsLeapYear y); apply Z.leb_le; lia. }
  cbn [negb]. unfold YEAR_INTERVAL, DAYS_PER_YEAR_INTERVAL.
  pose proof (shift_cycle 1970 400 y 0 146097 ltac:(lia)) as H. change (1970 + 400) with 2370 in H.
  destruct (shift_up _ _ _ _ _ _) as [y1 n1]. destruct H as (k & -> & Hk).
  rewrite year_table by lia. rewrite IsLeapYear_leap. f_equal. unfold day_number. cbn [fst snd].
  assert (leap y ↔ leap (y - k * 400)) as Hcycle.
  { replace y with (y - k * 400 + 400 * k) at 1 by lia. apply leap_cycle. }
  assert (days_before_year y = days_before_year (y - k * 400) + 146097 * k) as ->.
  { replace y with (y - k * 400 + 400 * k) at 1 by lia. apply days_before_cycle. }
  replace (1970 + (y - k * 400 - 1970)) with (y - k * 400) by lia.
  replace (if bool_decide (leap (y - k * 400)) then CUMULATIVE_LEAP_DAYS else CUMULATIVE_DAYS) with (cumulative y)
    by (unfold cumulative; case_bool_decide; case_decide; tauto). lia.
Qed.

Lemma FromDate_invalid y m d :
  ¬ (MIN_YEAR <= y <= MAX_YEAR ∧ calendar_date (y, m, d)) → FromDate y m d = Throw (ConversionException "Date out of range").
Proof.
  intros Hn. unfold FromDate. replace (Date_IsValid y m d) with false; [done|]. symmetry.
  unfold Date_IsValid, calendar_date in *. cbn [fst snd] in Hn.
  destruct (Z.ltb_spec m 1); [done|]. destruct (Z.ltb_spec 12 m); [done|]. cbn [orb]. pose proof (month_lengths y m ltac:(lia)) as [Hl _].
  destruct (Z.ltb_spec y MIN_YEAR); [done|]. destruct (Z.ltb_spec MAX_YEAR y); [done|]. cbn [orb].
  destruct (Z.ltb_spec d 1); [done|]. destruct (IsLeapYear y); apply Z.leb_gt; lia.
Qed.

(** ** Parts of a date *)

Lemma ExtractISODayOfTheWeek_spec n : ExtractISODayOfTheWeek n = (n + 3) mod 7 + 1.
Proof.
  unfold ExtractISODayOfTheWeek. destruct (Z.ltb_spec n 0).
  - rewrite Z.rem_mod_nonneg by lia. lia.
  - rewrite Z.rem_mod_nonneg by lia. lia.
Qed.

Lemma ExtractYear_Convert n : ExtractYear n = (Date_Convert n).1.1.
Proof. unfold ExtractYear, Date_Convert. by destruct (ExtractYearOffset n) as [[? ?] ?]. Qed.

Lemma ExtractYear_cached_spec n last_year :
  0 <= last_year < 400 →
  ∃ last_year', ExtractYear_cached n last_year = (ExtractYear n, last_year') ∧ 0 <= last_year' < 400.
Proof.
  intros Hl. unfold ExtractYear_cached, ExtractYear. destruct (ExtractYearOffset_spec n) as (k & off & -> & Hoff & Hn).
  rewrite !year_table by lia. replace (1970 + (last_year + 1)) with (1970 + last_year + 1) by lia.
  destruct (Z.leb_spec (days_before_year (1970 + last_year)) n) as [H1|H1]; cbn [andb]; [|by exists off].
  destruct (Z.ltb_spec n (days_before_year (1970 + last_year + 1))) as [H2|H2]; [|by exists off].
  exists last_year. split; [|done]. f_equal. unfold EPOCH_YEAR.
  assert (∀ y, days_before_year y <= n < days_before_year (y + 1) → y = 1970 + last_year) as Huniq.
  { intros y Hy. destruct (Z.lt_total y (1970 + last_year)) as [Hlt|[?|Hlt]]; [|done|].
    - pose proof (days_before_mono (y + 1) (1970 + last_year) ltac:(lia)). lia.
    - pose proof (days_before_mono (1970 + last_year + 1) y ltac:(lia)). lia. }
  symmetry. apply Huniq. replace (1970 + k * 400 + off) with (1970 + off + 400 * k) by lia.
  replace (1970 + off + 400 * k + 1) with (1970 + off + 1 + 400 * k) by lia. rewrite !days_before_cycle. lia.
Qed.

(** The first day of a year. *)
Lemma day_number_january y d : day_number (y, 1, d) = days_before_year y + (d - 1).
Proof. unfold day_number, cumulative. cbn [fst snd]. case_decide; change (at_index _ (1 - 1)) with 0; lia. Qed.

Lemma calendar_january y d : 1 <= d <= 31 → calendar_date (y, 1, d).
Proof. intros Hd. split; cbn [fst snd]; [lia|]. unfold days_in_month. cbn. lia. Qed.

Lemma ExtractDayOfTheYear_spec n : ExtractDayOfTheYear n = n - day_number ((Date_Convert n).1.1, 1, 1) + 1.
Proof.
  rewrite <-ExtractYear_Convert. unfold ExtractDayOfTheYear, ExtractYear.
  destruct (ExtractYearOffset_spec n) as (k & off & -> & Hoff & Hn). rewrite year_table by lia. rewrite day_number_january.
  replace (1970 + k * 400 + off) with (1970 + off + 400 * k) by lia. rewrite days_before_cycle. lia.
Qed.

(** The week that a date is in, counted from the first start of a week in its year. *)
Definition week_of (n first_start w : Z) : Prop :=
  (n < first_start ∧ w = 0) ∨ (first_start <= n ∧ 7 * (w - 1) <= n - first_start < 7 * w).

Lemma ExtractWeekNumberRegular_spec n (monday_first : bool) :
  MIN_YEAR <= (Date_Convert n).1.1 <= MAX_YEAR →
  ∃ w first_start, ExtractWeekNumberRegular n monday_first = Ok w ∧ week_of n first_start w ∧
    day_number ((Date_Convert n).1.1, 1, 1) <= first_start < day_number ((Date_Convert n).1.1, 1, 1) + 7 ∧
    ExtractISODayOfTheWeek first_start = if monday_first then 1 else 7.
Proof.
  intros Hy. unfold ExtractWeekNumberRegular. destruct (Date_Convert_spec n) as [Hc Hd].
  destruct (Date_Convert n) as [[y m] d]. cbn [fst snd] in *.
  rewrite (FromDate_spec y 1 1 Hy (calendar_january y 1 ltac:(lia))). cbn [mbind res_bind]. rewrite IsLeapYear_leap.
  replace (if bool_decide (leap y) then CUMULATIVE_LEAP_DAYS else CUMULATIVE_DAYS) with (cumulative y)
    by (unfold cumulative; case_bool_decide; by case_decide).
  set (jan := day_number (y, 1, 1)). set (doy := at_index (cumulative y) (m - 1) + (d - 1)).
  assert (n = jan + doy) as -> by (rewrite <-Hd; unfold jan, doy; rewrite day_number_january; unfold day_number; cbn [fst snd]; lia).
  assert (0 <= doy) as Hdoy.
  { pose proof (day_of_year_bounds _ Hc) as B. unfold jan in *. rewrite day_number_january in *. unfold day_number in B. cbn [fst snd] in B. lia. }
  rewrite ExtractISODayOfTheWeek_spec.
  set (start := if monday_first then if (jan + 3) mod 7 + 1 =? 1 then 0 else 8 - ((jan + 3) mod 7 + 1) else 7 - ((jan + 3) mod 7 + 1)).
  assert (0 <= start < 7 ∧ (jan + start + 3) mod 7 + 1 = if monday_first then 1 else 7) as [Hs Hdow].
  { unfold start. destruct monday_first; [destruct (Z.eqb_spec ((jan + 3) mod 7 + 1) 1)|]; lia. }
  destruct (Z.ltb_spec doy start) as [Hlt|Hge].
  - exists 0, (jan + start). split; [done|]. split; [left; lia|]. split; [lia|]. by rewrite ExtractISODayOfTheWeek_spec.
  - rewrite Z.quot_div_nonneg by lia. exists ((doy - start) / 7 + 1), (jan + start). split; [done|].
    split; [right; lia|]. split; [lia|]. by rewrite ExtractISODayOfTheWeek_spec.
Qed.

(** ** Texts *)

Lemma FormatTwoDigits_spec v : 0 <= v <= 99 → FormatTwoDigits v = [48 + v / 10; 48 + v mod 10].
Proof.
  intros Hv. unfold FormatTwoDigits. destruct (Z.ltb_spec v 10).
  - by replace (v / 10) with 0 by lia; replace (v mod 10) with v by lia.
  - destruct (digits_pair v ltac:(lia)) as [-> ->]. done.
Qed.

Lemma CharacterIsDigit_true c : is_digit c → CharacterIsDigit c = true.
Proof. unfold is_digit, CharacterIsDigit. intros H. bools; lia || done. Qed.

Lemma ParseDoubleDigit_two v rest : 0 <= v <= 99 → ParseDoubleDigit (FormatTwoDigits v ++ rest) = Some (v, rest).
Proof.
  intros Hv. rewrite FormatTwoDigits_spec by done. cbn [app ParseDoubleDigit].
  rewrite !CharacterIsDigit_true by (unfold is_digit; lia). do 2 f_equal. lia.
Qed.

Lemma read_ge ds acc : Forall is_digit ds → 0 <= acc → acc <= read ds acc.
Proof.
  intros Hds Ha. rewrite read_acc. pose proof (read_bounds _ Hds).
  pose proof (Z.pow_pos_nonneg 10 (Z.of_nat (length ds)) ltac:(lia) ltac:(lia)). nia.
Qed.

Lemma parse_year_read ds c rest acc :
  Forall is_digit ds → 0 <= acc → read ds acc <= MAX_YEAR → CharacterIsDigit c = false →
  parse_year (ds ++ c :: rest) acc = (read ds acc, c :: rest).
Proof.
  intros Hds. revert acc. induction ds as [|x ds IH]; intros acc Ha Hle Hc; cbn [app parse_year].
  - by rewrite Hc.
  - apply Forall_cons in Hds as [Hx Hds]. rewrite CharacterIsDigit_true by done. unfold is_digit in Hx.
    cbn [read foldl] in *. fold (read ds (10 * acc + (x - 48))) in *.
    replace (x - 48 + acc * 10) with (10 * acc + (x - 48)) by lia.
    pose proof (read_ge ds (10 * acc + (x - 48)) Hds ltac:(lia)). destruct (Z.ltb_spec MAX_YEAR (10 * acc + (x - 48))); [lia|].
    apply IH; done || lia.
Qed.

(** The text of a year. *)
Lemma year_text_spec year :
  1 <= year <= MAX_YEAR →
  let year_length := 4 + Z.b2z (10000 <=? year) + Z.b2z (100000 <=? year) + Z.b2z (1000000 <=? year) + Z.b2z (10000000 <=? year) in
  ∃ c text, in_buffer year_length (pad_zeros (Z.to_nat year_length) (FormatUnsigned year [])) = Ok (c :: text) ∧
    Forall is_digit (c :: text) ∧ read (c :: text) 0 = year ∧ Z.of_nat (length (c :: text)) = year_length.
Proof.
  unfold MAX_YEAR. intros Hy. cbn zeta. set (k := _ + Z.b2z (10000000 <=? year)).
  assert (4 <= k ∧ year < 10 ^ k) as [Hk Hlt].
  { unfold k. repeat case Z.leb_spec; intros; cbn [Z.b2z]; eval_powers; lia. }
  destruct (FormatUnsigned_spec year []) as (ds & -> & Hds); [unfold inU; lia|]. rewrite app_nil_r.
  destruct (padded year ds (Z.to_nat k) Hds) as (Hd & Hl & Hr); [by rewrite Z2Nat.id by lia|lia|]. unfold pad_zeros.
  destruct (replicate (Z.to_nat k - length ds) 48 ++ ds) as [|c text] eqn:Ht; [cbn in Hl; lia|].
  exists c, text. rewrite in_buffer_ok by lia. repeat split; [done|done|lia].
Qed.

Lemma Date_ToString_spec y m d :
  MIN_YEAR <= y <= MAX_YEAR → calendar_date (y, m, d) →
  ∃ c text, Date_ToString (day_number (y, m, d)) =
      Ok (c :: text ++ 45 :: FormatTwoDigits m ++ 45 :: FormatTwoDigits d ++ (if y <=? 0 then codes " (BC)" else [])) ∧
    Forall is_digit (c :: text) ∧ read (c :: text) 0 = if y <=? 0 then - y + 1 else y.
Proof.
  intros Hy Hc. unfold Date_ToString. rewrite (Date_Convert_unique _ _ Hc eq_refl).
  unfold DateToStringCast_Length, DateToStringCast_Format. destruct Hc as [Hm Hd]. cbn [fst snd] in *.
  pose proof (month_lengths y m Hm) as [_ Hlen]. set (year := if y <=? 0 then - y + 1 else y).
  assert (1 <= year <= MAX_YEAR) as Hyear by (unfold year, MIN_YEAR, MAX_YEAR in *; destruct (Z.leb_spec y 0); lia).
  destruct (year_text_spec year Hyear) as (c & text & -> & Hdig & Hrd & Hl). exists c, text. cbn [mbind res_bind]. split; [|done].
  apply in_buffer_ok. rewrite <-Hl, !FormatTwoDigits_spec by lia. cbn [app length]. rewrite length_app. destruct (y <=? 0); cbn [length app codes]; lia.
Qed.

Lemma skip_spaces_digit c rest : is_digit c → skip_spaces (c :: rest) = c :: rest.
Proof.
  unfold is_digit. intros Hc. cbn [skip_spaces]. replace (CharacterIsSpace c) with false; [done|]. symmetry. unfold CharacterIsSpace.
  bools; lia || done.
Qed.

(** Reading the text of a date, before anything that does not continue it. *)
Lemma TryConvertDate_text y m d c text (strict : bool) rest :
  MIN_YEAR <= y <= MAX_YEAR → calendar_date (y, m, d) → Forall is_digit (c :: text) →
  read (c :: text) 0 = (if y <=? 0 then - y + 1 else y) →
  parse_bc ((if y <=? 0 then codes " (BC)" else []) ++ rest) false (if y <=? 0 then - y + 1 else y) = Some (y, rest) →
  (if strict then skip_spaces rest = [] else match rest with [] => True | c :: _ => CharacterIsDigit c = false end) →
  TryConvertDate (c :: text ++ 45 :: FormatTwoDigits m ++ 45 :: FormatTwoDigits d ++ (if y <=? 0 then codes " (BC)" else []) ++ rest) strict =
  Ok (Some (day_number (y, m, d), if strict then [] else rest)).
Proof.
  intros Hy Hc Hdig Hrd Hbc Hrest. unfold TryConvertDate. pose proof Hdig as [Hc0 _]%Forall_cons.
  rewrite skip_spaces_digit by done. replace (c =? 45) with false by (unfold is_digit in Hc0; symmetry; apply Z.eqb_neq; lia).
  rewrite CharacterIsDigit_true by done. cbn [negb andb].
  change (c :: text ++ 45 :: FormatTwoDigits m ++ 45 :: FormatTwoDigits d ++ (if y <=? 0 then codes " (BC)" else []) ++ rest)
    with ((c :: text) ++ 45 :: FormatTwoDigits m ++ 45 :: FormatTwoDigits d ++ (if y <=? 0 then codes " (BC)" else []) ++ rest).
  rewrite parse_year_read; [|done|lia|rewrite Hrd; unfold MIN_YEAR, MAX_YEAR in *; destruct (Z.leb_spec y 0); lia|done].
  rewrite Hrd. change (negb (is_separator 45)) with false. cbn [andb].
  pose proof (FromDate_spec y m d Hy Hc) as HF. destruct Hc as [Hm Hd]. cbn [fst snd] in *. pose proof (month_lengths y m Hm) as [_ Hlen].
  rewrite ParseDoubleDigit_two by lia. change (negb (45 =? 45)) with false. cbn iota.
  destruct (FormatTwoDigits d ++ (if y <=? 0 then codes " (BC)" else []) ++ rest) as [|x l] eqn:Hl.
  { rewrite FormatTwoDigits_spec in Hl by lia. done. }
  rewrite <-Hl, ParseDoubleDigit_two by lia. rewrite Hbc.
  destruct strict.
  - rewrite Hrest. by rewrite HF.
  - destruct rest as [|x' rest]; [by rewrite HF|]. rewrite Hrest. by rewrite HF.
Qed.

Lemma parse_bc_suffix y rest :
  MIN_YEAR <= y → (y <= 0 ∨ match rest with _ :: 40 :: _ => False | _ => True end) →
  parse_bc ((if y <=? 0 then codes " (BC)" else []) ++ rest) false (if y <=? 0 then - y + 1 else y) = Some (y, rest).
Proof.
  intros Hmin Hor. destruct (Z.leb_spec y 0) as [Hle|Hgt].
  - change (codes " (BC)") with [32; 40; 66; 67; 41]. cbn [app parse_bc]. change (CharacterIsSpace 32) with true. cbn [orb].
    destruct (Z.eqb_spec (- y + 1) 0); [lia|]. replace (- (- y + 1) + 1) with y by lia.
    destruct (Z.ltb_spec y MIN_YEAR); [lia|done].
  - destruct Hor as [|Hr]; [lia|]. cbn [app]. unfold parse_bc. repeat case_match; done.
Qed.

(** ** Theorems *)

(** C40: dates follow the calendar.  Day 0 is 1970-01-01, and the date of the
    next day is the next date of the Gregorian calendar, for every number in both
    directions; so the tables, the normalisation into a cycle of 400 years and
    the search for the year never read outside a table or lose a day.  The
    numbers are unbounded here; no computation on a 32-bit day overflows. *)
Theorem Date_calendar :
  Date_Convert 0 = (1970, 1, 1) ∧ ∀ n, Date_Convert (n + 1) = next_day (Date_Convert n).
Proof.
  split; [reflexivity|]. intros n. destruct (Date_Convert_spec n) as [Hc Hn].
  destruct (next_day_spec _ Hc) as [Hc' Hn']. apply Date_Convert_unique; [done|]. by rewrite Hn', Hn.
Qed.

(** the loops that bring a day or a year into the cycle of 400 years end,
    from every start: after the number of rounds that the definitions allow, the
    number is in the cycle, so both loop conditions are false, and more rounds
    change nothing. *)
Theorem Date_loops_terminate (bound step n other other_step : Z) (more : nat) :
  0 < step →
  let up fuel := shift_up fuel bound step n other other_step in
  let down fuel := let '(n1, other1) := up (rounds bound step n) in
    shift_down fuel (bound + step) step n1 other1 other_step in
  let n1 := (up (rounds bound step n)).1 in
  let enough := rounds (bound + step) step n1 in
  bound <= n1 ∧ up (rounds bound step n + more)%nat = up (rounds bound step n) ∧
  bound <= (down enough).1 < bound + step ∧ down (enough + more)%nat = down enough.
Proof.
  intros Hs up down n1 enough. pose proof (shift_cycle bound step n other other_step Hs) as H.
  destruct (shift_up_spec (rounds bound step n) bound step other_step n other Hs) as (k & _ & Hup & Hb & _); [by apply rounds_enough|].
  assert (bound <= n1) as Hn1 by (unfold n1, up; by rewrite Hup).
  split; [done|]. split; [by apply shift_up_more|]. unfold enough, down, n1, up in *.
  destruct (shift_up (rounds bound step n) bound step n other other_step) as [m o]. cbn [fst] in *.
  destruct H as (k' & Hd & Hk'). rewrite Hd. cbn [fst]. split; [done|]. rewrite <-Hd. apply shift_down_more. rewrite Hd. cbn. lia.
Qed.

Lemma Date_loops_terminate_witness :
  shift_up (rounds 0 146097 (-400000) + 7) 0 146097 (-400000) 1970 400 =
  shift_up (rounds 0 146097 (-400000)) 0 146097 (-400000) 1970 400.
Proof. exact (proj1 (proj2 (Date_loops_terminate 0 146097 (-400000) 1970 400 7 ltac:(lia)))). Defined.

(** conversion to and from years, months and days are inverse to each other.
    [FromDate] returns the day whose date is the given one when that is a date of
    the calendar between the smallest and the largest year, and throws a
    conversion exception otherwise; it returns the day that was converted. *)
Theorem Date_roundtrip :
  (∀ y m d, if bool_decide (MIN_YEAR <= y <= MAX_YEAR ∧ calendar_date (y, m, d))
            then ∃ n, FromDate y m d = Ok n ∧ Date_Convert n = (y, m, d)
            else FromDate y m d = Throw (ConversionException "Date out of range")) ∧
  (∀ n y m d, Date_Convert n = (y, m, d) → MIN_YEAR <= y <= MAX_YEAR → FromDate y m d = Ok n).
Proof.
  split.
  - intros y m d. case_bool_decide as H; [|by apply FromDate_invalid]. destruct H as [Hy Hc].
    exists (day_number (y, m, d)). split; [by apply FromDate_spec|]. by apply Date_Convert_unique.
  - intros n y m d Heq Hy. destruct (Date_Convert_spec n) as [Hc Hn]. rewrite Heq in Hc, Hn. rewrite FromDate_spec by done. by rewrite Hn.
Qed.

Lemma Date_roundtrip_witness :
  FromDate 2000 2 29 = Ok 11016 ∧ FromDate 1900 2 29 = Throw (ConversionException "Date out of range").
Proof.
  split.
  - apply (proj2 Date_roundtrip 11016); [vm_compute; reflexivity|unfold MIN_YEAR, MAX_YEAR; lia].
  - exact (proj1 Date_roundtrip 1900 2 29).
Defined.

(** week days and weeks.  The week day of the next day is the next week day,
    1970-01-01 being a Thursday; the Monday of a week is a Monday at most six days
    before; and the week number counts the Mondays, or Sundays, of the year up to
    the date. *)
Theorem Date_weeks :
  ExtractISODayOfTheWeek 0 = 4 ∧
  (∀ n, 1 <= ExtractISODayOfTheWeek n <= 7 ∧
        ExtractISODayOfTheWeek (n + 1) = if ExtractISODayOfTheWeek n =? 7 then 1 else ExtractISODayOfTheWeek n + 1) ∧
  (∀ n, ExtractISODayOfTheWeek (GetMondayOfCurrentWeek n) = 1 ∧
        GetMondayOfCurrentWeek n <= n < GetMondayOfCurrentWeek n + 7) ∧
  (∀ n monday_first, MIN_YEAR <= (Date_Convert n).1.1 <= MAX_YEAR →
     ∃ w first_start, ExtractWeekNumberRegular n monday_first = Ok w ∧ week_of n first_start w ∧
       day_number ((Date_Convert n).1.1, 1, 1) <= first_start < day_number ((Date_Convert n).1.1, 1, 1) + 7 ∧
       ExtractISODayOfTheWeek first_start = if monday_first then 1 else 7).
Proof.
  split; [reflexivity|]. split; [|split].
  - intros n. rewrite !ExtractISODayOfTheWeek_spec. destruct (Z.eqb_spec ((n + 3) mod 7 + 1) 7); lia.
  - intros n. unfold GetMondayOfCurrentWeek. rewrite !ExtractISODayOfTheWeek_spec. lia.
  - intros n monday_first Hy. by apply ExtractWeekNumberRegular_spec.
Qed.

Lemma Date_weeks_witness :
  ∃ w first_start, ExtractWeekNumberRegular 18631 true = Ok w ∧ week_of 18631 first_start w.
Proof.
  destruct (proj2 (proj2 (proj2 Date_weeks)) 18631 true) as (w & f & H & Hw & _); [vm_compute; split; discriminate|].
  exists w, f. split; [exact H|exact Hw].
Defined.

(** looking up the year with a cache gives the same year as without, whatever
    year of the cycle is cached, and leaves a year of the cycle in the cache; the
    other parts of a date are those of its conversion. *)
Theorem Date_parts n :
  ExtractYear n = (Date_Convert n).1.1 ∧ ExtractMonth n = (Date_Convert n).1.2 ∧ ExtractDay n = (Date_Convert n).2 ∧
  ExtractDayOfTheYear n = n - day_number ((Date_Convert n).1.1, 1, 1) + 1 ∧
  (∀ last_year, 0 <= last_year < 400 →
     ∃ last_year', ExtractYear_cached n last_year = (ExtractYear n, last_year') ∧ 0 <= last_year' < 400).
Proof.
  split; [apply ExtractYear_Convert|]. split; [unfold ExtractMonth; by destruct (Date_Convert n) as [[? ?] ?]|].
  split; [unfold ExtractDay; by destruct (Date_Convert n) as [[? ?] ?]|].
  split; [apply ExtractDayOfTheYear_spec|]. intros last_year Hl. by apply ExtractYear_cached_spec.
Qed.

Lemma Date_parts_witness :
  ∃ last_year', ExtractYear_cached (-1) 399 = (1969, last_year') ∧ 0 <= last_year' < 400.
Proof. apply (proj2 (proj2 (proj2 (proj2 (Date_parts (-1)))))). lia. Defined.

(** the text of a date reads back as the date, strictly or not, to the end of
    the text, for all years that dates can have, those before the common era
    included. *)
Theorem Date_text_roundtrip n (strict : bool) :
  MIN_YEAR <= (Date_Convert n).1.1 <= MAX_YEAR →
  ∃ text, Date_ToString n = Ok text ∧ TryConvertDate text strict = Ok (Some (n, [])).
Proof.
  intros Hy. destruct (Date_Convert_spec n) as [Hc Hn]. destruct (Date_Convert n) as [[y m] d]. cbn [fst snd] in Hy.
  destruct (Date_ToString_spec y m d Hy Hc) as (c & text & Hs & Hdig & Hrd). rewrite Hn in Hs. eexists. split; [exact Hs|].
  pose proof (TryConvertDate_text y m d c text strict [] Hy Hc Hdig Hrd) as H. rewrite !app_nil_r, Hn in H.
  replace (if strict then [] else []) with (@nil Z) in H by (by destruct strict). apply H.
  - rewrite <-(app_nil_r (if y <=? 0 then codes " (BC)" else [])). apply parse_bc_suffix; [lia|by right].
  - by destruct strict.
Qed.

Lemma Date_text_roundtrip_witness :
  Date_Convert (-735160) = (-43, 3, 15) ∧ Date_ToString (-735160) = Ok (codes "0044-03-15 (BC)") ∧
  TryConvertDate (codes "0044-03-15 (BC)") true = Ok (Some (-735160, [])).
Proof.
  split; [vm_compute; reflexivity|]. split; [vm_compute; reflexivity|].
  destruct (Date_text_roundtrip (-735160) true) as (text & H & Ht); [vm_compute; split; discriminate|].
  assert (Date_ToString (-735160) = Ok (codes "0044-03-15 (BC)")) as H' by (vm_compute; reflexivity).
  rewrite H' in H. injection H as <-. exact Ht.
Defined.

(** ISO weeks are not computed as documented: the first week starts one day late
    when January 4 is before a Thursday, and on January 1 when it is after one;
    2021-01-04, the first Monday of 2021 and the start of its first week, is in
    week 53, and 2018-12-31, in the first week of 2019, is in week 53. *)
Lemma ExtractISOWeekNumber_wrong :
  FromDate 2021 1 4 = Ok 18631 ∧ ExtractISODayOfTheWeek 18631 = 1 ∧ ExtractISOWeekNumber 18631 = Ok 53 ∧
  FromDate 2018 12 31 = Ok 17896 ∧ ExtractISODayOfTheWeek 17896 = 1 ∧ ExtractISOWeekNumber 17896 = Ok 53.
Proof. repeat split; vm_compute; reflexivity. Qed.
