(* ===== verification/Arithmetic.v ===== *)
(** * Checked integer arithmetic and casts

    Models [NumericLimits] of src/src/common/limits.cpp, the integer and decimal
    parts of src/src/function/scalar/operators/add.cpp, subtract.cpp and
    multiply.cpp, and the casts between integers of
    src/src/common/operator/cast_operators.cpp.  The 64-bit operators have two
    bodies, chosen by the compiler; both are modelled.  The smallest value of a
    signed type stands for NULL and is not a valid result.

    Theorems: every operator returns the exact result or fails exactly when it
    is out of range, except the portable signed 64-bit multiplication, which
    misses some overflows ([multiply_int64_portable_misses]), and with it the
    portable multiplication of decimals of up to 18 digits. *)

From S2P Require Import Prelude Hugeint CastHelpers.

(** ** Limits *)

Definition NumericLimits_Minimum (T : int_type) : Z := if is_signed T then - 2 ^ (width T - 1) + 1 else 0.

(** The values of the C++ type. *)
Definition in_type (T : int_type) (z : Z) : Prop := if is_signed T then inS (width T) z else inU (width T) z.

(** The values that are not NULL. *)
Definition in_limits (T : int_type) (z : Z) : Prop := NumericLimits_Minimum T <= z <= NumericLimits_Maximum T.

#[export] Instance in_limits_dec T z : Decision (in_limits T z).
Proof. unfold in_limits. apply _. Defined.

Definition int8_t : int_type := mkIntType true 8.
Definition int16_t : int_type := mkIntType true 16.
Definition int32_t : int_type := mkIntType true 32.
Definition int64_t : int_type := mkIntType true 64.
Definition uint8_t : int_type := mkIntType false 8.
Definition uint16_t : int_type := mkIntType false 16.
Definition uint32_t : int_type := mkIntType false 32.
Definition uint64_t : int_type := mkIntType false 64.

#[export] Instance int_type_eq_dec : EqDecision int_type.
Proof. solve_decision. Defined.

Definition integer_type (T : int_type) : Prop :=
  T ∈ [int8_t; int16_t; int32_t; int64_t; uint8_t; uint16_t; uint32_t; uint64_t].

(** ** Casts between integers *)

(** [std::numeric_limits<T>::digits] *)
Definition type_digits (T : int_type) : Z := if is_signed T then width T - 1 else width T.

Definition TryCastWithOverflowCheck (SRC DST : int_type) (value : Z) : option Z :=
  if negb (Bool.eqb (is_signed SRC) (is_signed DST)) then
    if is_signed SRC then
      if (if type_digits DST <? type_digits SRC
          then (value <? 0) || (wrap SRC (NumericLimits_Maximum DST) <? value)
          else (value <? 0) || (NumericLimits_Maximum DST <? wrap DST value))
      then None
      else Some (wrap DST value)
    else
      if (if type_digits DST <? type_digits SRC
          then value <=? wrap SRC (NumericLimits_Maximum DST)
          else wrap DST value <=? NumericLimits_Maximum DST)
      then Some (wrap DST value)
      else None
  else if (value <? NumericLimits_Minimum DST) || (NumericLimits_Maximum DST <? value) then None
  else Some (wrap DST value).

(** The source types whose cast to the target type has a specialisation, which
    checks the range; the others use the plain conversion of the template. *)
Definition checked_to_int8 : list int_type := [uint8_t; uint16_t; uint32_t; uint64_t; int16_t; int32_t; int64_t].
Definition checked_to_uint8 : list int_type := [uint16_t; uint32_t; uint64_t; int8_t; int16_t; int32_t; int64_t].
Definition checked_to_int16 : list int_type := [uint16_t; uint32_t; uint64_t; int32_t; int64_t].
Definition checked_to_uint16 : list int_type := [uint32_t; uint64_t; int8_t; int16_t; int32_t; int64_t].
Definition checked_to_int32 : list int_type := [uint32_t; uint64_t; int64_t].
Definition checked_to_uint32 : list int_type := [uint64_t; int8_t; int16_t; int32_t; int64_t].
Definition checked_to_int64 : list int_type := [uint64_t].
Definition checked_to_uint64 : list int_type := [int8_t; int16_t; int32_t; int64_t].

Definition checked_sources (DST : int_type) : list int_type :=
  if is_signed DST then
    if width DST =? 8 then checked_to_int8 else if width DST =? 16 then checked_to_int16
    else if width DST =? 32 then checked_to_int32 else checked_to_int64
  else
    if width DST =? 8 then checked_to_uint8 else if width DST =? 16 then checked_to_uint16
    else if width DST =? 32 then checked_to_uint32 else checked_to_uint64.

Definition TryCast_Operation (SRC DST : int_type) (input : Z) : option Z :=
  if decide (SRC ∈ checked_sources DST) then TryCastWithOverflowCheck SRC DST input else Some (wrap DST input).

Definition CastWithOverflowCheck (SRC DST : int_type) (value : Z) : res Z :=
  match TryCastWithOverflowCheck SRC DST value with
  | Some result => Ok result
  | None => Throw (ValueOutOfRangeException "Type value is out of range")
  end.

Definition Cast_Operation (SRC DST : int_type) (input : Z) : res Z :=
  if decide (SRC ∈ checked_sources DST) then CastWithOverflowCheck SRC DST input else Ok (wrap DST input).

(** ** Operators with overflow checks *)

(** [OverflowCheckedAddition] and the like: the operation in the wider type. *)
Definition overflow_checked (op : Z → Z → Z) (SRCTYPE UTYPE : int_type) (left right : Z) : option Z :=
  let uresult := wrap UTYPE (op (wrap UTYPE left) (wrap UTYPE right)) in
  if (uresult <? NumericLimits_Minimum SRCTYPE) || (NumericLimits_Maximum SRCTYPE <? uresult) then None
  else Some (wrap SRCTYPE uresult).

(** The type of twice the width, or the same one for 64 bits. *)
Definition wider (T : int_type) : int_type := mkIntType (is_signed T) (Z.min 64 (2 * width T)).

(** [__builtin_add_overflow] and the like: the wrapped result, and whether it is
    not the exact one. *)
Definition builtin_overflow (op : Z → Z → Z) (left right : Z) : bool * Z :=
  let result := s64 (op left right) in
  (negb (result =? op left right), result).

Definition null_check (result : Z) : option Z := if result =? - 2 ^ 63 then None else Some result.

Definition try_builtin (op : Z → Z → Z) (left right : Z) : option Z :=
  let '(overflow, result) := builtin_overflow op left right in
  if overflow then None else null_check result.

Definition add_int64_portable (left right : Z) : option Z :=
  let result := s64 (u64 (u64 left + u64 right)) in
  if ((left <? 0) && (right <? 0) && (0 <=? result)) || ((0 <=? left) && (0 <=? right) && (result <? 0)) then None
  else null_check result.

Definition TryAdd (builtin : bool) (T : int_type) (left right : Z) : option Z :=
  if width T =? 64 then
    if is_signed T then (if builtin then try_builtin Z.add left right else add_int64_portable left right)
    else if NumericLimits_Maximum T - left <? right then None
    else overflow_checked Z.add T (wider T) left right
  else overflow_checked Z.add T (wider T) left right.

Definition subtract_int64_portable (left right : Z) : option Z :=
  if (if right <? 0 then NumericLimits_Maximum int64_t + right <? left
      else left <? NumericLimits_Minimum int64_t + right)
  then None else Some (s64 (left - right)).

Definition TrySubtract (builtin : bool) (T : int_type) (left right : Z) : option Z :=
  if is_signed T then
    if width T =? 64 then (if builtin then try_builtin Z.sub left right else subtract_int64_portable left right)
    else overflow_checked Z.sub T (wider T) left right
  else if left <? right then None
  else overflow_checked Z.sub T (wider T) left right.

Definition multiply_uint64 (left right : Z) : option Z :=
  let '(small, large) := if right <? left then (right, left) else (left, right) in
  if NumericLimits_Maximum uint32_t <? small then None
  else
    let c := wrapU 32 (Z.shiftr large 32) in
    let d := wrapU 32 (Z.land (NumericLimits_Maximum uint32_t) large) in
    let r := u64 (small * c) in
    let s := u64 (small * d) in
    if NumericLimits_Maximum uint32_t <? r then None
    else
      let r := u64 (Z.shiftl r 32) in
      if NumericLimits_Maximum uint64_t - s <? r then None
      else overflow_checked Z.mul uint64_t uint64_t small large.

(** The check of the high half of a product, with the mask of the code. *)
Definition high_half_overflows (high low other : Z) : bool :=
  let low_low := u64 (low * other) in
  let high_low := u64 (high * other) in
  let high_bits := u64 (high_low + Z.shiftr low_low 32) in
  int_bool (Z.land high_bits 0xffffff80000000).

Definition multiply_int64_portable (left right : Z) : option Z :=
  let left_non_negative := u64 (Z.abs left) in
  let right_non_negative := u64 (Z.abs right) in
  let left_high_bits := Z.shiftr left_non_negative 32 in
  let left_low_bits := Z.land left_non_negative 0xffffffff in
  let right_high_bits := Z.shiftr right_non_negative 32 in
  let right_low_bits := Z.land right_non_negative 0xffffffff in
  let overflow :=
    if left_high_bits =? 0 then
      if negb (right_high_bits =? 0) then high_half_overflows right_high_bits right_low_bits left_low_bits else false
    else if right_high_bits =? 0 then high_half_overflows left_high_bits left_low_bits right_low_bits
    else true in
  if overflow then None else null_check (s64 (left * right)).

Definition TryMultiply (builtin : bool) (T : int_type) (left right : Z) : option Z :=
  if width T =? 64 then
    if is_signed T then (if builtin then try_builtin Z.mul left right else multiply_int64_portable left right)
    else multiply_uint64 left right
  else overflow_checked Z.mul T (wider T) left right.

(** ** Decimals *)

(** The template arguments [max]; [min] is the negation. *)
Definition decimal_max (T : int_type) : Z :=
  if width T =? 16 then 9999 else if width T =? 32 then 999999999 else 999999999999999999.

Definition TryDecimalAddTemplated (T : int_type) (min max left right : Z) : option Z :=
  if right <? 0 then (if left <? min - right then None else Some (wrap T (left + right)))
  else (if max - right <? left then None else Some (wrap T (left + right))).

Definition TryDecimalAdd (T : int_type) (left right : Z) : option Z :=
  TryDecimalAddTemplated T (- decimal_max T) (decimal_max T) left right.

Definition TryDecimalSubtractTemplated (T : int_type) (min max left right : Z) : option Z :=
  if right <? 0 then (if max + right <? left then None else Some (wrap T (left - right)))
  else (if left <? min + right then None else Some (wrap T (left - right))).

Definition TryDecimalSubtract (T : int_type) (left right : Z) : option Z :=
  TryDecimalSubtractTemplated T (- decimal_max T) (decimal_max T) left right.

Definition TryDecimalMultiplyTemplated (builtin : bool) (T : int_type) (min max left right : Z) : option Z :=
  match TryMultiply builtin T left right with
  | None => None
  | Some result => if (result <? min) || (max <? result) then None else Some result
  end.

Definition TryDecimalMultiply (builtin : bool) (T : int_type) (left right : Z) : option Z :=
  TryDecimalMultiplyTemplated builtin T (- decimal_max T) (decimal_max T) left right.

(** The test of the 128-bit versions, after the operation, which may throw. *)
Definition decimal_fits (result : hugeint_t) : bool :=
  let limit := Hugeint_POWERS_OF_TEN !!! 38%nat in
  negb (Hugeint_LessThanEquals result (Hugeint_NegateInPlace limit) || Hugeint_GreaterThanEquals result limit).

Definition DecimalAddOverflowCheck (left right : hugeint_t) : res hugeint_t :=
  result ← Hugeint_Add left right;
  if decimal_fits result then Ok result else Throw (OutOfRangeException "Overflow in addition of DECIMAL(38)").

Definition DecimalSubtractOverflowCheck (left right : hugeint_t) : res hugeint_t :=
  result ← Hugeint_Subtract left right;
  if decimal_fits result then Ok result else Throw (OutOfRangeException "Overflow in subtract of DECIMAL(38)").

Definition DecimalMultiplyOverflowCheck (multiply : hugeint_t → hugeint_t → option hugeint_t) (left right : hugeint_t)
    : res hugeint_t :=
  result ← Hugeint_Multiply multiply left right;
  if decimal_fits result then Ok result else Throw (OutOfRangeException "Overflow in multiplication of DECIMAL(38)").

#[local] Ltac Zify.zify_post_hook ::= Z.to_euclidean_division_equations.

(** ** Limits *)

Ltac int_cases H := unfold integer_type in H; repeat (apply elem_of_cons in H as [->|H]); [..|by apply elem_of_nil in H].

Ltac limits :=
  unfold in_limits, in_type, inS, inU, NumericLimits_Minimum, NumericLimits_Maximum, type_digits in *; cbn [is_signed width int8_t int16_t int32_t int64_t uint8_t uint16_t uint32_t uint64_t] in *.

Lemma wrap_in T z : integer_type T → in_type T z → wrap T z = z.
Proof.
  intros HT Hz. unfold wrap, in_type in *.
  destruct (is_signed T); [apply wrapS_small; [int_cases HT; reflexivity|done]|by apply wrapU_small].
Qed.

Lemma in_limits_type T z : integer_type T → in_limits T z → in_type T z.
Proof. intros HT Hz. int_cases HT; limits; cbn in *; lia. Qed.

(** What every operation below is compared with. *)
Definition exact (T : int_type) (z : Z) : option Z := if decide (in_limits T z) then Some z else None.

Lemma exact_test T z : integer_type T →
  (if (z <? NumericLimits_Minimum T) || (NumericLimits_Maximum T <? z) then None else Some (wrap T z)) = exact T z.
Proof.
  intros HT. unfold exact. case_decide as H.
  - rewrite wrap_in by (done || by apply in_limits_type). unfold in_limits in H. bools; lia || done.
  - unfold in_limits in H. bools; lia || done.
Qed.

Lemma TryCast_exact SRC DST v :
  integer_type SRC → integer_type DST → in_type SRC v → TryCastWithOverflowCheck SRC DST v = exact DST v.
Proof.
  intros HS HD Hv. unfold TryCastWithOverflowCheck.
  destruct (negb (Bool.eqb (is_signed SRC) (is_signed DST))) eqn:Hsign; [|by apply exact_test].
  rewrite <-exact_test by done. destruct (is_signed SRC) eqn:HsS, (is_signed DST) eqn:HsD; try discriminate.
  - destruct (Z.ltb_spec v 0) as [Hneg|Hpos].
    { replace (v <? NumericLimits_Minimum DST) with true by (unfold NumericLimits_Minimum; rewrite HsD; symmetry; apply Z.ltb_lt; lia).
      by destruct (type_digits DST <? type_digits SRC). }
    replace (v <? NumericLimits_Minimum DST) with false by (unfold NumericLimits_Minimum; rewrite HsD; symmetry; apply Z.ltb_ge; lia).
    cbn [orb]. assert ((if type_digits DST <? type_digits SRC then wrap SRC (NumericLimits_Maximum DST) <? v
      else NumericLimits_Maximum DST <? wrap DST v) = (NumericLimits_Maximum DST <? v)) as ->; [|done].
    destruct (Z.ltb_spec (type_digits DST) (type_digits SRC)) as [Hd|Hd].
    + rewrite wrap_in; [done|done|]. int_cases HS; try discriminate; int_cases HD; try discriminate; limits; lia.
    + rewrite wrap_in; [done|done|]. int_cases HS; try discriminate; int_cases HD; try discriminate; limits; lia.
  - assert (v <? NumericLimits_Minimum DST = false) as ->.
    { apply Z.ltb_ge. unfold in_type in Hv. rewrite HsS in Hv. unfold inU in Hv.
      unfold NumericLimits_Minimum. rewrite HsD. int_cases HD; try discriminate; cbn; lia. }
    cbn [orb]. assert ((if type_digits DST <? type_digits SRC then v <=? wrap SRC (NumericLimits_Maximum DST)
      else wrap DST v <=? NumericLimits_Maximum DST) = negb (NumericLimits_Maximum DST <? v)) as ->;
      [|by destruct (NumericLimits_Maximum DST <? v)].
    rewrite <-Z.leb_antisym. destruct (Z.ltb_spec (type_digits DST) (type_digits SRC)) as [Hd|Hd].
    + rewrite wrap_in; [done|done|]. int_cases HS; try discriminate; int_cases HD; try discriminate; limits; lia.
    + rewrite wrap_in; [done|done|]. int_cases HS; try discriminate; int_cases HD; try discriminate; limits; lia.
Qed.

(** ** Operators *)

Lemma overflow_checked_exact op T U l r :
  integer_type T → integer_type U → in_type U l → in_type U r → in_type U (op l r) →
  overflow_checked op T U l r = exact T (op l r).
Proof. intros HT HU Hl Hr Hop. unfold overflow_checked. rewrite (wrap_in U l), (wrap_in U r), (wrap_in U (op l r)) by done. by apply exact_test. Qed.

Lemma try_builtin_exact op l r : try_builtin op l r = exact int64_t (op l r).
Proof.
  unfold try_builtin, builtin_overflow, null_check, exact. pose proof (wrapS_range 64 (op l r) ltac:(lia)) as Hr.
  unfold inS in Hr. destruct (Z.eqb_spec (s64 (op l r)) (op l r)) as [Heq|Hne]; cbn [negb].
  - rewrite Heq in *. case_decide as H; limits; destruct (Z.eqb_spec (op l r) (- 2 ^ 63)); done || lia.
  - case_decide as H; [|done]. destruct Hne. apply wrapS_small; [lia|]. limits. lia.
Qed.

Lemma add_int64_portable_exact l r : in_type int64_t l → in_type int64_t r → add_int64_portable l r = exact int64_t (l + r).
Proof.
  intros Hl Hr. unfold add_int64_portable, null_check, exact.
  assert (s64 (u64 (u64 l + u64 r)) = s64 (l + r)) as ->.
  { unfold wrapU, wrapS. f_equal. rewrite <-Z.add_mod by lia. rewrite Zplus_mod_idemp_l. done. }
  limits. destruct (Z.lt_ge_cases (l + r) (- 2 ^ 63)) as [Hlo|Hlo].
  { rewrite (wrapS_eq 64 _ (-1)) by lia. case_decide; bools; lia || done. }
  destruct (Z.lt_ge_cases (l + r) (2 ^ 63)) as [Hhi|Hhi].
  { rewrite (wrapS_eq 64 _ 0) by lia. case_decide; bools; lia || done || (f_equal; lia). }
  rewrite (wrapS_eq 64 _ 1) by lia. case_decide; bools; lia || done.
Qed.

Lemma subtract_int64_portable_exact l r :
  in_type int64_t l → in_type int64_t r → subtract_int64_portable l r = exact int64_t (l - r).
Proof.
  intros Hl Hr. unfold subtract_int64_portable, exact. limits.
  assert (∀ b : bool, (b = true ↔ ¬ (- 2 ^ (64 - 1) + 1 <= l - r <= 2 ^ (64 - 1) - 1)) →
    (if b then None else Some (s64 (l - r))) = if decide (- 2 ^ (64 - 1) + 1 <= l - r <= 2 ^ (64 - 1) - 1) then Some (l - r) else None) as H.
  { intros [] Hb; case_decide; try done; [by destruct (proj1 Hb eq_refl)| |].
    - rewrite wrapS_small; [done|lia|unfold inS; lia].
    - by pose proof (proj2 Hb ltac:(done)). }
  apply H. destruct (Z.ltb_spec r 0); [destruct (Z.ltb_spec (2 ^ (64 - 1) - 1 + r) l)|destruct (Z.ltb_spec l (- 2 ^ (64 - 1) + 1 + r))];
    split; done || lia.
Qed.

Lemma multiply_uint64_exact l r : in_type uint64_t l → in_type uint64_t r → multiply_uint64 l r = exact uint64_t (l * r).
Proof.
  intros Hl Hr. unfold multiply_uint64.
  assert (∃ a b, (if r <? l then (r, l) else (l, r)) = (a, b) ∧ a <= b ∧ l * r = a * b ∧ in_type uint64_t a ∧ in_type uint64_t b)
    as (a & b & -> & Hab & -> & Ha & Hb) by (destruct (Z.ltb_spec r l); eexists _, _; split_and!; done || lia).
  limits. rewrite (Z.land_comm _ b). change (2 ^ 32 - 1) with (Z.ones 32). rewrite Z.land_ones, Z.shiftr_div_pow2 by lia.
  change (Z.ones 32) with (2 ^ 32 - 1).
  assert (exact uint64_t (a * b) = if 2 ^ 64 - 1 <? a * b then None else Some (a * b)) as Hex.
  { unfold exact. case_decide as H; limits; destruct (Z.ltb_spec (2 ^ 64 - 1) (a * b)); nia || done. }
  pose proof (Z.div_mod b (2 ^ 32) ltac:(lia)) as Hdm. pose proof (Z.mod_pos_bound b (2 ^ 32) ltac:(lia)) as Hm.
  set (c := b / 2 ^ 32) in *. set (d := b mod 2 ^ 32) in *.
  assert (0 <= c < 2 ^ 32) as Hc by lia.
  destruct (Z.ltb_spec (2 ^ 32 - 1) a) as [Hbig|Hsmall].
  { rewrite Hex. destruct (Z.ltb_spec (2 ^ 64 - 1) (a * b)); [done|nia]. }
  rewrite !(wrapU_small 32) by (unfold inU; lia). rewrite !(wrapU_small 64 (a * _)) by (unfold inU; nia).
  assert (a * b = a * c * 2 ^ 32 + a * d) as Hprod by (rewrite Hdm at 1; ring).
  destruct (Z.ltb_spec (2 ^ 32 - 1) (a * c)) as [Hbig|Hsmall'].
  { rewrite Hex. destruct (Z.ltb_spec (2 ^ 64 - 1) (a * b)); [done|nia]. }
  rewrite Z.shiftl_mul_pow2, wrapU_small by (unfold inU; nia || lia).
  destruct (Z.ltb_spec (2 ^ 64 - 1 - a * d) (a * c * 2 ^ 32)) as [Hov|Hno].
  { rewrite Hex. destruct (Z.ltb_spec (2 ^ 64 - 1) (a * b)); [done|lia]. }
  apply overflow_checked_exact; [unfold integer_type; set_solver|unfold integer_type; set_solver|limits; nia..].
Qed.

Ltac int_type_in := unfold integer_type; set_solver.

Lemma integer_type_64 T : integer_type T → width T = 64 → T = int64_t ∨ T = uint64_t.
Proof. intros HT Hw. int_cases HT; try discriminate Hw; auto. Qed.

(** Below 64 bits, the wider type has room for the sum, the difference of signed
    numbers and the product. *)
Lemma narrow_exact op T l r :
  integer_type T → width T ≠ 64 → in_type T l → in_type T r →
  op = Z.add ∨ op = Z.mul ∨ (op = Z.sub ∧ (is_signed T = true ∨ r <= l)) →
  overflow_checked op T (wider T) l r = exact T (op l r).
Proof.
  intros HT Hw Hl Hr Hop. apply overflow_checked_exact; [done|..].
  { int_cases HT; int_type_in || by destruct Hw. }
  all: int_cases HT; try (by destruct Hw); unfold wider, in_type, inS, inU in *; cbn in *;
    repeat match goal with |- context [Z.min 64 ?x] => let v := eval vm_compute in (Z.min 64 x) in change (Z.min 64 x) with v end;
    try lia; destruct Hop as [->|[->|[-> [?|?]]]]; lia || nia || discriminate.
Qed.

Lemma TryAdd_exact builtin T l r :
  integer_type T → in_type T l → in_type T r → TryAdd builtin T l r = exact T (l + r).
Proof.
  intros HT Hl Hr. unfold TryAdd. destruct (Z.eqb_spec (width T) 64) as [Hw|Hw]; [|by apply (narrow_exact Z.add); auto].
  destruct (integer_type_64 T HT Hw) as [->| ->]; cbn [is_signed int64_t uint64_t].
  - destruct builtin; [apply try_builtin_exact|by apply add_int64_portable_exact].
  - destruct (Z.ltb_spec (NumericLimits_Maximum uint64_t - l) r) as [H|H].
    + unfold exact. case_decide as H'; [|done]. limits. lia.
    + change (wider uint64_t) with uint64_t. apply overflow_checked_exact; [int_type_in|int_type_in|limits; lia..].
Qed.

Lemma TrySubtract_exact builtin T l r :
  integer_type T → in_type T l → in_type T r → TrySubtract builtin T l r = exact T (l - r).
Proof.
  intros HT Hl Hr. unfold TrySubtract. destruct (is_signed T) eqn:Hs.
  - destruct (Z.eqb_spec (width T) 64) as [Hw|Hw]; [|by apply (narrow_exact Z.sub); auto 6].
    destruct (integer_type_64 T HT Hw) as [->| ->]; [|discriminate].
    destruct builtin; [apply try_builtin_exact|by apply subtract_int64_portable_exact].
  - destruct (Z.ltb_spec l r) as [H|H].
    { unfold exact. case_decide as H'; [|done]. unfold in_limits, NumericLimits_Minimum in H'. rewrite Hs in H'. lia. }
    destruct (Z.eq_dec (width T) 64) as [Hw|Hw]; [|apply (narrow_exact Z.sub); auto 6].
    destruct (integer_type_64 T HT Hw) as [->| ->]; [discriminate|]. change (wider uint64_t) with uint64_t. apply overflow_checked_exact; [int_type_in|int_type_in|limits; lia..].
Qed.

(** The mask of the portable multiplication covers the bits 31 to 55 of the high
    half. *)
Lemma land_mask_high q : 0 <= q < 2 ^ 56 → Z.land q 0xffffff80000000 = Z.shiftl (Z.shiftr q 31) 31.
Proof.
  intros Hq. change 0xffffff80000000 with (Z.shiftl (Z.ones 25) 31). apply Z.bits_inj'. intros i Hi.
  rewrite Z.land_spec, !Z.shiftl_spec by done. destruct (Z.ltb_spec i 31) as [H|H].
  { rewrite !(Z.testbit_neg_r _ (i - 31)) by lia. apply andb_false_r. }
  rewrite Z.shiftr_spec, Z.testbit_ones by lia. replace (i - 31 + 31) with i by lia. replace (0 <=? i - 31) with true by (symmetry; apply Z.leb_le; lia).
  destruct (Z.ltb_spec (i - 31) 25) as [H'|H']; cbn [andb]; [by rewrite andb_true_r|]. rewrite andb_false_r. symmetry.
  rewrite <-(Z.mod_small q (2 ^ i)); [apply Z.mod_pow2_bits_high; lia|].
  pose proof (Z.pow_le_mono_r 2 56 i ltac:(lia) ltac:(lia)). lia.
Qed.

(** Below 2^88 the test of the high half finds every product of 2^63 and more. *)
Lemma high_half_overflows_spec high low other :
  0 <= high <= 2 ^ 31 → 0 <= low < 2 ^ 32 → 0 <= other < 2 ^ 32 → (high * 2 ^ 32 + low) * other < 2 ^ 88 →
  high_half_overflows high low other = (2 ^ 63 <=? (high * 2 ^ 32 + low) * other).
Proof.
  intros Hh Hl Ho Hp. unfold high_half_overflows. rewrite Z.shiftr_div_pow2 by done.
  assert (0 <= low * other < 2 ^ 64) as Hlo by nia. assert (0 <= high * other < 2 ^ 63) as Hho by nia.
  rewrite (wrapU_small 64 (low * other)), (wrapU_small 64 (high * other)) by (unfold inU; lia).
  set (p := (high * 2 ^ 32 + low) * other) in *.
  assert (high * other + low * other / 2 ^ 32 = p / 2 ^ 32) as ->.
  { rewrite Z.add_comm, <-Z.div_add by lia. f_equal. unfold p. lia. }
  assert (0 <= p) by (unfold p; nia).
  assert (0 <= p / 2 ^ 32 < 2 ^ 56) as Hq by (split; [apply Z.div_pos|apply Z.div_lt_upper_bound]; lia).
  rewrite wrapU_small by (unfold inU; lia). rewrite land_mask_high by done.
  rewrite Z.shiftl_mul_pow2, Z.shiftr_div_pow2, Z.div_div by done. change (2 ^ 32 * 2 ^ 31) with (2 ^ 63). unfold int_bool.
  destruct (Z.leb_spec (2 ^ 63) p) as [H1|H1].
  - pose proof (Z.div_le_mono _ _ (2 ^ 63) ltac:(lia) H1) as H2. rewrite Z.div_same in H2 by lia. bools; lia.
  - rewrite Z.div_small by lia. done.
Qed.

(** The products that the portable multiplication handles as the builtin does:
    those in range, and overflows below 2^88 of an operand of more than 32 bits. *)
Definition portable_covers (l r : Z) : Prop :=
  in_limits int64_t (l * r) ∨ 2 ^ 32 <= Z.max (Z.abs l) (Z.abs r) ∧ Z.abs (l * r) < 2 ^ 88.

Lemma multiply_int64_portable_exact l r :
  in_type int64_t l → in_type int64_t r → portable_covers l r → multiply_int64_portable l r = exact int64_t (l * r).
Proof.
  intros Hl Hr Hp. unfold multiply_int64_portable. cbn zeta.
  assert (0 <= Z.abs l <= 2 ^ 63) as Hal by (limits; lia). assert (0 <= Z.abs r <= 2 ^ 63) as Har by (limits; lia).
  assert (2 ^ 32 <= Z.max (Z.abs l) (Z.abs r) ∨ Z.abs l * Z.abs r < 2 ^ 63) as Hcase.
  { rewrite <-Z.abs_mul. destruct Hp as [Hp|[Hp _]]; [right; limits; lia|by left]. }
  assert (Z.abs l * Z.abs r < 2 ^ 88) as Hp'.
  { rewrite <-Z.abs_mul. destruct Hp as [Hp|[_ Hp]]; [limits; lia|done]. }
  clear Hp. rewrite (wrapU_small 64 (Z.abs l)), (wrapU_small 64 (Z.abs r)) by (unfold inU; lia).
  change 0xffffffff with (Z.ones 32). rewrite !Z.land_ones, !Z.shiftr_div_pow2 by done.
  pose proof (Z.div_mod (Z.abs l) (2 ^ 32) ltac:(lia)) as El. pose proof (Z.mod_pos_bound (Z.abs l) (2 ^ 32) ltac:(lia)) as Bl.
  pose proof (Z.div_mod (Z.abs r) (2 ^ 32) ltac:(lia)) as Er. pose proof (Z.mod_pos_bound (Z.abs r) (2 ^ 32) ltac:(lia)) as Br.
  set (lh := Z.abs l / 2 ^ 32) in *. set (ll := Z.abs l mod 2 ^ 32) in *. set (rh := Z.abs r / 2 ^ 32) in *. set (rl := Z.abs r mod 2 ^ 32) in *.
  clearbody lh ll rh rl.
  assert (∀ b : bool, b = (2 ^ 63 <=? Z.abs l * Z.abs r) →
    (if b then None else null_check (s64 (l * r))) = exact int64_t (l * r)) as Hend.
  { intros b ->. unfold exact, null_check. rewrite <-Z.abs_mul. destruct (Z.leb_spec (2 ^ 63) (Z.abs (l * r))) as [H|H].
    - case_decide as H'; [|done]. limits. lia.
    - rewrite wrapS_small by (done || unfold inS; lia). case_decide; limits; bools; lia || done. }
  apply Hend. destruct (Z.eqb_spec lh 0) as [Hlh|Hlh]; [destruct (Z.eqb_spec rh 0) as [Hrh|Hrh]|destruct (Z.eqb_spec rh 0) as [Hrh|Hrh]]; cbn [negb].
  - symmetry. apply Z.leb_gt. destruct Hcase as [Hcase|]; lia.
  - assert (Z.abs l = ll) as El' by lia. assert (Z.abs r = rh * 2 ^ 32 + rl) as Er' by lia.
    rewrite El', Er', Z.mul_comm in *. rewrite high_half_overflows_spec by lia. done.
  - assert (Z.abs r = rl) as Er' by lia. assert (Z.abs l = lh * 2 ^ 32 + ll) as El' by lia.
    rewrite El', Er' in *. rewrite high_half_overflows_spec by lia. done.
  - symmetry. apply Z.leb_le. assert (2 ^ 32 <= Z.abs l) by lia. assert (2 ^ 32 <= Z.abs r) by lia. nia.
Qed.

Lemma TryMultiply_exact builtin T l r :
  integer_type T → builtin = true ∨ T ≠ int64_t ∨ portable_covers l r → in_type T l → in_type T r →
  TryMultiply builtin T l r = exact T (l * r).
Proof.
  intros HT Hb Hl Hr. unfold TryMultiply. destruct (Z.eqb_spec (width T) 64) as [Hw|Hw]; [|apply (narrow_exact Z.mul); auto].
  destruct (integer_type_64 T HT Hw) as [->| ->]; cbn [is_signed int64_t uint64_t]; [|by apply multiply_uint64_exact].
  destruct builtin; [apply try_builtin_exact|]. destruct Hb as [Hb|[Hb|Hb]]; [done|done|by apply multiply_int64_portable_exact].
Qed.

(** ** Decimals *)

Definition decimal_type (T : int_type) : Prop := T ∈ [int16_t; int32_t; int64_t].

(** The exact result, if it has at most the digits of the width. *)
Definition exact_decimal (T : int_type) (z : Z) : option Z := if decide (Z.abs z <= decimal_max T) then Some z else None.

Ltac decimal_cases H :=
  unfold decimal_type in H; repeat (apply elem_of_cons in H as [->|H]); [..|by apply elem_of_nil in H].

Lemma TryDecimal_exact (builtin : bool) (T : int_type) (l r : Z) :
  decimal_type T → builtin = true ∨ T ≠ int64_t ∨ portable_covers l r → Z.abs l <= decimal_max T → Z.abs r <= decimal_max T →
  TryDecimalAdd T l r = exact_decimal T (l + r) ∧ TryDecimalSubtract T l r = exact_decimal T (l - r) ∧
  TryDecimalMultiply builtin T l r = exact_decimal T (l * r).
Proof.
  intros HT Hb Hl Hr.
  assert (∀ z, Z.abs z <= 2 * decimal_max T → wrap T z = z) as Hwrap.
  { intros z Hz. decimal_cases HT; unfold decimal_max in Hz; cbn in Hz; apply wrap_in; int_type_in || (unfold in_type, inS; cbn; lia). }
  split; [|split].
  - unfold TryDecimalAdd, TryDecimalAddTemplated, exact_decimal. rewrite Hwrap by lia.
    destruct (Z.ltb_spec r 0); bools; case_decide; lia || done.
  - unfold TryDecimalSubtract, TryDecimalSubtractTemplated, exact_decimal. rewrite Hwrap by lia.
    destruct (Z.ltb_spec r 0); bools; case_decide; lia || done.
  - unfold TryDecimalMultiply, TryDecimalMultiplyTemplated, exact_decimal.
    rewrite TryMultiply_exact; [|decimal_cases HT; int_type_in|done|decimal_cases HT; unfold in_type, inS, decimal_max in *; cbn in *; lia..].
    unfold exact. remember (l * r) as z eqn:E. clear E. case_decide as H1; case_decide as H2; bools; try lia; try done.
    decimal_cases HT; limits; unfold decimal_max in H2; cbn in H2; lia.
Qed.

Lemma decimal_fits_spec h : hugeint_ok h → decimal_fits h = bool_decide (Z.abs (value h) < 10 ^ 38).
Proof.
  intros Hok. unfold decimal_fits. pose proof (Hugeint_POWERS_OF_TEN_spec 38 ltac:(lia)) as HP.
  change (10 ^ Z.of_nat 38) with (10 ^ 38) in HP. destruct (NegateInPlace_represents _ _ HP) as [Hn Hnv]; [lia|]. destruct HP as [Hp Hpv].
  destruct (comparison_value h _ Hok Hn) as (_ & _ & _ & _ & _ & ->), (comparison_value h _ Hok Hp) as (_ & _ & _ & -> & _).
  rewrite Hnv, Hpv. case_bool_decide; bools; lia || done.
Qed.

(** A 128-bit operation that is exact within the digits of a decimal. *)
Lemma decimal_check (op : res hugeint_t) (z : Z) (e : exception) :
  (Z.abs z < 10 ^ 38 → ∃ h, op = Ok h ∧ represents h z) → (∀ h, op = Ok h → represents h z) →
  let checked := result ← op; if decimal_fits result then Ok result else Throw e in
  (Z.abs z < 10 ^ 38 → ∃ h, checked = Ok h ∧ represents h z) ∧ (10 ^ 38 <= Z.abs z → ∃ e', checked = Throw e').
Proof.
  intros Hsome Hall checked. unfold checked. split; intros Hz.
  - destruct (Hsome Hz) as (h & -> & Hok & Hv). exists h. cbn. rewrite decimal_fits_spec, Hv, bool_decide_true by done. done.
  - destruct op as [h|e']; cbn; [|by exists e']. destruct (Hall h eq_refl) as [Hok Hv].
    rewrite decimal_fits_spec, Hv, bool_decide_false by (done || lia). by exists e.
Qed.

(** The result of the 128-bit operations on decimals. *)
Definition decimal_result (r : res hugeint_t) (z : Z) : Prop :=
  (Z.abs z < 10 ^ 38 → ∃ h, r = Ok h ∧ represents h z) ∧ (10 ^ 38 <= Z.abs z → ∃ e, r = Throw e).

Lemma Hugeint_Add_cases a b : hugeint_ok a → hugeint_ok b →
  (in_range (value a + value b) → ∃ h, Hugeint_Add a b = Ok h ∧ represents h (value a + value b)) ∧
  (∀ h, Hugeint_Add a b = Ok h → represents h (value a + value b)).
Proof.
  intros Ha Hb. unfold Hugeint_Add. destruct (AddInPlace_spec a b Ha Hb) as [Hin Hout]. split.
  - intros H. destruct (Hin H) as (h & -> & Hh). by exists h.
  - intros h. destruct (decide (- 2 ^ 127 < value a + value b < 2 ^ 127)) as [H|H].
    + destruct (Hin H) as (h' & -> & Hh). intros [= <-]. done.
    + specialize (Hout H). destruct (Hugeint_AddInPlace a b) as [ok h']. cbn in Hout. by subst ok.
Qed.

Lemma Hugeint_Subtract_cases a b : hugeint_ok a → hugeint_ok b →
  (subtract_in_range (value b) (value a - value b) → ∃ h, Hugeint_Subtract a b = Ok h ∧ represents h (value a - value b)) ∧
  (∀ h, Hugeint_Subtract a b = Ok h → represents h (value a - value b)).
Proof.
  intros Ha Hb. unfold Hugeint_Subtract. destruct (SubtractInPlace_spec a b Ha Hb) as [Hin Hout]. split.
  - intros H. destruct (Hin H) as (h & -> & Hh). by exists h.
  - intros h. assert (Decision (subtract_in_range (value b) (value a - value b))) as [H|H]
      by (unfold subtract_in_range, in_range; apply _).
    + destruct (Hin H) as (h' & -> & Hh). intros [= <-]. done.
    + specialize (Hout H). destruct (Hugeint_SubtractInPlace a b) as [ok h']. cbn in Hout. by subst ok.
Qed.

Lemma Hugeint_Multiply_cases multiply a b : multiplies multiply → hugeint_ok a → hugeint_ok b →
  (in_range (value a * value b) → ∃ h, Hugeint_Multiply multiply a b = Ok h ∧ represents h (value a * value b)) ∧
  (∀ h, Hugeint_Multiply multiply a b = Ok h → represents h (value a * value b)).
Proof.
  intros Hm Ha Hb. unfold Hugeint_Multiply. destruct (TryMultiply_value multiply a b Hm Ha Hb) as [Hin Hout]. split.
  - intros H. destruct (Hin H) as (h & -> & Hh). by exists h.
  - intros h. destruct (decide (- 2 ^ 127 < value a * value b < 2 ^ 127)) as [H|H].
    + destruct (Hin H) as (h' & -> & Hh). intros [= <-]. done.
    + by rewrite (Hout H).
Qed.

(** A source type whose casts are not checked has only values of the target. *)
Lemma unchecked_fits SRC DST v :
  integer_type SRC → integer_type DST → SRC ∉ checked_sources DST → in_limits SRC v → in_limits DST v.
Proof.
  intros HS HD Hout Hv. int_cases HD; int_cases HS; try (destruct Hout; vm_compute; set_solver); limits; lia.
Qed.

Lemma casts_exact (SRC DST : int_type) (v : Z) :
  integer_type SRC → integer_type DST → in_limits SRC v →
  TryCast_Operation SRC DST v = exact DST v ∧
  Cast_Operation SRC DST v =
    if decide (in_limits DST v) then Ok v else Throw (ValueOutOfRangeException "Type value is out of range").
Proof.
  intros HS HD Hv. pose proof (in_limits_type SRC v HS Hv) as Hv'.
  unfold TryCast_Operation, Cast_Operation, CastWithOverflowCheck. rewrite TryCast_exact by done. unfold exact.
  destruct (decide (SRC ∈ checked_sources DST)) as [Hin|Hout].
  - by destruct (decide (in_limits DST v)).
  - rewrite !decide_True by (by apply (unchecked_fits SRC)).
    by rewrite wrap_in by (done || by apply in_limits_type, (unchecked_fits SRC)).
Qed.

(** ** Theorems *)

(** C37: addition, subtraction and multiplication of integers of 8 to 64 bits,
    signed and unsigned, return the exact result, and fail exactly when it is
    outside the range of the type without its smallest signed value.  Addition
    and subtraction do so with and without the compiler's overflow tests.  For
    multiplication one body is exempt: that of signed 64-bit integers without
    the compiler's tests does so only where [portable_covers] holds, that is
    if the product is in range, or if it is below 2^88 in absolute value and an
    operand has more than 32 bits; elsewhere it may return a wrapped product, see
    [multiply_int64_portable_misses]. *)
Theorem Checked_arithmetic (builtin : bool) (T : int_type) (l r : Z) :
  integer_type T → in_type T l → in_type T r →
  TryAdd builtin T l r = exact T (l + r) ∧ TrySubtract builtin T l r = exact T (l - r) ∧
  (builtin = true ∨ T ≠ int64_t ∨ portable_covers l r → TryMultiply builtin T l r = exact T (l * r)).
Proof. intros. split; [by apply TryAdd_exact|]. split; [by apply TrySubtract_exact|]. intros. by apply TryMultiply_exact. Qed.

Lemma Checked_arithmetic_witness :
  TryAdd false int64_t (2 ^ 62) (2 ^ 62) = None ∧ TrySubtract true uint8_t 7 200 = None ∧
  TryMultiply false uint64_t 4294967297 4294967295 = Some 18446744073709551615.
Proof.
  split; [|split].
  - refine (eq_trans (proj1 (Checked_arithmetic false int64_t (2 ^ 62) (2 ^ 62) _ _ _)) _);
      [int_type_in|limits; lia..|reflexivity].
  - refine (eq_trans (proj1 (proj2 (Checked_arithmetic true uint8_t 7 200 _ _ _))) _);
      [int_type_in|limits; lia..|reflexivity].
  - refine (eq_trans (proj2 (proj2 (Checked_arithmetic false uint64_t 4294967297 4294967295 _ _ _)) _) _);
      [int_type_in|limits; lia..|by right; left|reflexivity].
Defined.

(** a cast between two integer types of a value that is not NULL succeeds
    exactly when the value is in the range of the target type, without its
    smallest signed value, and then keeps the value; otherwise the cast that
    reports failure returns false, and the other one throws. *)
Theorem Integer_casts_exact (SRC DST : int_type) (v : Z) :
  integer_type SRC → integer_type DST → in_limits SRC v →
  TryCast_Operation SRC DST v = exact DST v ∧
  Cast_Operation SRC DST v =
    if decide (in_limits DST v) then Ok v else Throw (ValueOutOfRangeException "Type value is out of range").
Proof. apply casts_exact. Qed.

Lemma Integer_casts_exact_witness :
  TryCast_Operation uint64_t int64_t (2 ^ 63) = None ∧ Cast_Operation int64_t uint8_t 255 = Ok 255.
Proof.
  split.
  - refine (eq_trans (proj1 (Integer_casts_exact uint64_t int64_t (2 ^ 63) _ _ _)) _); [int_type_in..|limits; lia|reflexivity].
  - refine (eq_trans (proj2 (Integer_casts_exact int64_t uint8_t 255 _ _ _)) _); [int_type_in..|limits; lia|reflexivity].
Defined.

(** addition, subtraction and multiplication of decimals return the exact
    result when it has at most the digits of the physical type (4, 9, 18 or 38),
    and fail otherwise.  The multiplication of decimals of up to 18 digits does so
    with the compiler's overflow tests; without them only where
    [portable_covers] holds for the operands. *)
Theorem Decimal_arithmetic (builtin : bool) (T : int_type) (l r : Z) (multiply : hugeint_t → hugeint_t → option hugeint_t)
    (a b : hugeint_t) (x y : Z) :
  decimal_type T → builtin = true ∨ T ≠ int64_t ∨ portable_covers l r → Z.abs l <= decimal_max T → Z.abs r <= decimal_max T →
  multiply = multiply_int128 ∨ multiply = multiply_portable →
  represents a x → represents b y → Z.abs x < 10 ^ 38 → Z.abs y < 10 ^ 38 →
  TryDecimalAdd T l r = exact_decimal T (l + r) ∧
  TryDecimalSubtract T l r = exact_decimal T (l - r) ∧
  TryDecimalMultiply builtin T l r = exact_decimal T (l * r) ∧
  decimal_result (DecimalAddOverflowCheck a b) (x + y) ∧
  decimal_result (DecimalSubtractOverflowCheck a b) (x - y) ∧
  decimal_result (DecimalMultiplyOverflowCheck multiply a b) (x * y).
Proof.
  intros HT Hb Hl Hr Hm [Ha <-] [Hb' <-] Hx Hy.
  destruct (TryDecimal_exact builtin T l r HT Hb Hl Hr) as (-> & -> & ->). split_and!; [done..| | |]; apply decimal_check.
  - intros Hz. apply Hugeint_Add_cases; [done..|]. unfold in_range. lia.
  - by apply Hugeint_Add_cases.
  - intros Hz. apply Hugeint_Subtract_cases; [done..|]. unfold subtract_in_range, in_range, INT64_MAX. lia.
  - by apply Hugeint_Subtract_cases.
  - intros Hz. apply Hugeint_Multiply_cases; [|done..|unfold in_range; lia].
    destruct Hm as [->| ->]; [apply multiply_int128_spec|apply multiply_portable_spec].
  - apply Hugeint_Multiply_cases; [|done..]. destruct Hm as [->| ->]; [apply multiply_int128_spec|apply multiply_portable_spec].
Qed.

Lemma Decimal_arithmetic_witness :
  TryDecimalAdd int16_t 9000 999 = Some 9999 ∧ TryDecimalMultiply true int16_t 100 100 = None ∧
  ∃ h, DecimalAddOverflowCheck (mkHugeint 5 0) (mkHugeint 7 0) = Ok h ∧ value h = 12.
Proof.
  assert (represents (mkHugeint 5 0) 5 ∧ represents (mkHugeint 7 0) 7) as [H5 H7]
    by (unfold represents, hugeint_ok, inU, inS, value; cbn; lia).
  pose proof (λ l r (Hl : Z.abs l <= 9999) (Hr : Z.abs r <= 9999), Decimal_arithmetic true int16_t l r multiply_int128 _ _ 5 7 ltac:(unfold decimal_type; set_solver)
    (or_introl eq_refl) Hl Hr (or_introl eq_refl) H5 H7 ltac:(lia) ltac:(lia)) as H.
  split; [exact (proj1 (H 9000 999 ltac:(cbn; lia) ltac:(cbn; lia)))|].
  split; [exact (proj1 (proj2 (proj2 (H 100 100 ltac:(cbn; lia) ltac:(cbn; lia)))))|].
  destruct (H 0 0 ltac:(cbn; lia) ltac:(cbn; lia)) as (_ & _ & _ & [Hadd _] & _).
  destruct Hadd as (h & Hh & _ & Hv); [lia|]. exists h. by split.
Defined.

(** Where the portable 64-bit multiplication does not notice an overflow: there
    is no test at all for two operands below 2^32, and the mask of the test for
    larger ones covers the bits 31 to 55 of the high half only.  Multiplications
    of decimals of up to 18 digits inherit the error. *)
Lemma multiply_int64_portable_misses :
  TryMultiply true int64_t (2 ^ 60) (2 ^ 28) = None ∧ TryMultiply false int64_t (2 ^ 60) (2 ^ 28) = Some 0 ∧
  TryMultiply true int64_t (2 ^ 32 - 1) (2 ^ 32 - 1) = None ∧
  TryMultiply false int64_t (2 ^ 32 - 1) (2 ^ 32 - 1) = Some (- 2 ^ 33 + 1) ∧
  TryDecimalMultiply true int64_t (2 ^ 59) (2 ^ 29) = None ∧ TryDecimalMultiply false int64_t (2 ^ 59) (2 ^ 29) = Some 0.
Proof. split_and!; reflexivity. Qed.
