(* ===== verification/StringCast.v ===== *)
(** * Texts to numbers, and decimals

    Models the casts of strings to booleans, integers, 128-bit integers and
    decimals, and the casts between integers and decimals, of
    src/src/common/operator/cast_operators.cpp.  One loop reads every kind of
    number; what it does with a digit, a digit after the point, an exponent and
    the end of the text is a parameter, [CastOperation], with three instances.
    The powers of ten of exponents are computed in floating point for integers:
    they are parameters.

    Theorems: the integer, the 128-bit integer and the decimal that is read is
    the number that the text denotes, or the cast fails; what was printed reads
    back; the casts between integers and decimals scale exactly. *)

From S2P Require Import Prelude Hugeint CastHelpers Date Arithmetic.

(** ** The loop *)

(** The template parameter [OP]; the flag is [NEGATIVE]. *)
Record CastOperation (T : Type) := mkCastOperation {
  HandleDigit : bool → T → Z → option T;
  HandleExponent : T → Z → option T;
  HandleDecimal : bool → T → Z → option T;
  Finalize : T → option T;
}.
Arguments mkCastOperation {_} _ _ _ _.
Arguments HandleDigit {_} _ _ _ _.
Arguments HandleExponent {_} _ _ _.
Arguments HandleDecimal {_} _ _ _ _.
Arguments Finalize {_} _ _.

Section loop.
Context {T : Type} (OP : CastOperation T).

(** The digits after the point. *)
Fixpoint handle_decimals (NEGATIVE : bool) (buf : list Z) (result : T) : option T :=
  match buf with
  | [] => Some result
  | c :: rest =>
      if CharacterIsDigit c then
        result ← HandleDecimal OP NEGATIVE result (c - 48);
        handle_decimals NEGATIVE rest result
      else None
  end.

(** [IntegerCastLoop] from a position on; [seen] is [pos > start_pos].
    [exponent] reads the exponent, where exponents are allowed. *)
Fixpoint IntegerCastLoop_from (exponent : option (list Z → option Z)) (NEGATIVE strict : bool)
    (buf : list Z) (seen : bool) (result : T) : option T :=
  match buf with
  | [] => result ← Finalize OP result; if seen then Some result else None
  | c :: rest =>
      if CharacterIsDigit c then
        result ← HandleDigit OP NEGATIVE result (c - 48);
        IntegerCastLoop_from exponent NEGATIVE strict rest true result
      else if c =? 46 then
        if strict then None
        else
          result ← handle_decimals NEGATIVE rest result;
          result ← Finalize OP result;
          if seen || negb (bool_decide (rest = [])) then Some result else None
      else if CharacterIsSpace c then
        if forallb CharacterIsSpace rest then Finalize OP result else None
      else
        match exponent with
        | None => None
        | Some parse =>
            if (c =? 101) || (c =? 69) then
              if negb seen then None
              else exponent ← parse rest; HandleExponent OP result exponent
            else None
        end
  end.

Definition IntegerCastLoop (exponent : option (list Z → option Z)) (NEGATIVE strict : bool) (buf : list Z) (result : T)
    : option T :=
  let start := match buf with c :: rest => if NEGATIVE || (c =? 43) then rest else buf | [] => [] end in
  IntegerCastLoop_from exponent NEGATIVE strict start false result.

Definition TryIntegerCast (exponent : option (list Z → option Z)) (buf : list Z) (result : T) (strict unsigned_int : bool)
    : option T :=
  match skip_spaces buf with
  | [] => None
  | (c :: rest) as buf =>
      let negative := c =? 45 in
      if negb negative then IntegerCastLoop exponent false strict buf result
      else if unsigned_int && negb (forallb (λ c, c =? 48) rest) then None
      else IntegerCastLoop exponent true strict buf result
  end.
End loop.

(** ** Integers *)

Section integers.
(** [HandleExponent], in floating point: the result times a power of ten. *)
Context (float_exponent : int_type → Z → Z → option Z).

Definition IntegerCastOperation (T : int_type) : CastOperation Z := mkCastOperation
  (λ NEGATIVE result digit,
    if NEGATIVE then
      if result <? Z.quot (NumericLimits_Minimum T + digit) 10 then None else Some (wrap T (result * 10 - digit))
    else
      if Z.quot (NumericLimits_Maximum T - digit) 10 <? result then None else Some (wrap T (result * 10 + digit)))
  (λ result exponent, float_exponent T result exponent)
  (λ _ result _, Some result)
  (λ result, Some result).

(** The exponent itself is a 64-bit integer without an exponent. *)
Definition parse_exponent (strict : bool) (buf : list Z) : option Z :=
  let negative := match buf with c :: _ => c =? 45 | [] => false end in
  IntegerCastLoop (IntegerCastOperation int64_t) None negative strict buf 0.

Definition TryCast_integer (T : int_type) (input : list Z) (strict : bool) : option Z :=
  TryIntegerCast (IntegerCastOperation T) (Some (parse_exponent strict)) input 0 strict (negb (is_signed T)).

(** [TryCastString] and [TryStrictCastString] *)
Definition cast_string {A : Type} (TryCast : list Z → bool → option A) (strict : bool) (input : list Z) : res A :=
  match TryCast input strict with
  | Some result => Ok result
  | None => Throw (ConversionException "Could not convert string")
  end.
End integers.

(** ** Booleans *)

(** [std::tolower] *)
Definition tolower (c : Z) : Z := if (65 <=? c) && (c <=? 90) then c + 32 else c.

Definition TryCast_bool (input : list Z) (strict : bool) : option bool :=
  match input with
  | [c] =>
      let c := tolower c in
      if (c =? 116) || (negb strict && (c =? 49)) then Some true
      else if (c =? 102) || (negb strict && (c =? 48)) then Some false
      else None
  | [t; r; u; e] => if bool_decide (map tolower [t; r; u; e] = codes "true") then Some true else None
  | [f; a; l; s; e] => if bool_decide (map tolower [f; a; l; s; e] = codes "false") then Some false else None
  | _ => None
  end.

(** ** 128-bit integers *)

(** [digits] is a [uint8_t]. *)
Record HugeIntCastData : Set := mkHugeIntCastData { hugeint : hugeint_t; intermediate : Z; digit_number : Z }.

(** The flag is the result; a step that fails may have changed the number. *)
Definition Flush (data : HugeIntCastData) : bool * HugeIntCastData :=
  let add h :=
    let '(ok, h) := Hugeint_AddInPlace h (HugeintConvertInteger (intermediate data)) in
    if ok then (true, mkHugeIntCastData h 0 0) else (false, mkHugeIntCastData h (intermediate data) (digit_number data)) in
  if (digit_number data =? 0) && (intermediate data =? 0) then (true, data)
  else if negb (lower (hugeint data) =? 0) || negb (upper (hugeint data) =? 0) then
    if 38 <? digit_number data then (false, data)
    else
      match Hugeint_TryMultiply multiply_int128 (hugeint data) (Hugeint_POWERS_OF_TEN !!! Z.to_nat (digit_number data)) with
      | None => (false, data)
      | Some h => add h
      end
  else add (hugeint data).

(** [if (!result.Flush()) return false;] *)
Definition try_flush (data : HugeIntCastData) : option HugeIntCastData :=
  let '(ok, data) := Flush data in if ok then Some data else None.

Section hugeints.
(** The branch of [HandleExponent] for exponents beyond 38, in floating point. *)
Context (float_exponent : int_type → Z → Z → option Z) (float_exponent_hugeint : hugeint_t → Z → option hugeint_t).

Definition hugeint_HandleDigit (NEGATIVE : bool) (result : HugeIntCastData) (digit : Z) : option HugeIntCastData :=
  let full :=
    if NEGATIVE then intermediate result <? Z.quot (NumericLimits_Minimum int64_t + digit) 10
    else Z.quot (NumericLimits_Maximum int64_t - digit) 10 <? intermediate result in
  result ← (if full then try_flush result else Some result);
  Some (mkHugeIntCastData (hugeint result)
    (s64 (if NEGATIVE then intermediate result * 10 - digit else intermediate result * 10 + digit))
    (wrapU 8 (digit_number result + 1))).

(** The result of [Flush] is not looked at. *)
Definition hugeint_HandleExponent (result : HugeIntCastData) (exponent : Z) : option HugeIntCastData :=
  let '(_, result) := Flush result in
  let set h := mkHugeIntCastData h (intermediate result) (digit_number result) in
  if (exponent <? -38) || (38 <? exponent) then set <$> float_exponent_hugeint (hugeint result) exponent
  else if exponent <? 0 then
    match Hugeint_Divide (hugeint result) (Hugeint_POWERS_OF_TEN !!! Z.to_nat (- exponent)) with
    | Ok h => Some (set h)
    | Throw _ => None
    end
  else set <$> Hugeint_TryMultiply multiply_int128 (hugeint result) (Hugeint_POWERS_OF_TEN !!! Z.to_nat exponent).

Definition HugeIntegerCastOperation : CastOperation HugeIntCastData := mkCastOperation
  hugeint_HandleDigit hugeint_HandleExponent (λ _ result _, Some result) try_flush.

Definition TryCast_hugeint (input : list Z) (strict : bool) : option hugeint_t :=
  hugeint <$> TryIntegerCast HugeIntegerCastOperation (Some (parse_exponent float_exponent strict)) input
    (mkHugeIntCastData (mkHugeint 0 0) 0 0) strict false.
End hugeints.

(** ** Decimals *)

(** What the reading of a decimal needs of its physical type: the template
    parameter [T] of [DecimalCastData]. *)
Class DecimalNumber (N : Type) := {
  zero : N;
  is_zero : N → bool;
  times_ten : N → res N;
  (** [result * 10 - digit] if the flag is set, otherwise [result * 10 + digit] *)
  push_digit : bool → N → Z → res N;
}.

(** The integers of a width. *)
Definition integer_number (T : int_type) : DecimalNumber Z := {|
  zero := 0;
  is_zero z := z =? 0;
  times_ten z := Ok (wrap T (z * 10));
  push_digit NEGATIVE z digit := Ok (wrap T (if NEGATIVE then z * 10 - digit else z * 10 + digit));
|}.

(** The operators of [hugeint_t] throw when they overflow. *)
Definition hugeint_number : DecimalNumber hugeint_t := {|
  zero := mkHugeint 0 0;
  is_zero h := Hugeint_Equals h (mkHugeint 0 0);
  times_ten h := Hugeint_Multiply multiply_int128 h (mkHugeint 10 0);
  push_digit NEGATIVE h digit :=
    h ← Hugeint_Multiply multiply_int128 h (mkHugeint 10 0);
    if NEGATIVE then Hugeint_Subtract h (HugeintConvertInteger digit) else Hugeint_Add h (HugeintConvertInteger digit);
|}.

Record DecimalCastData (N : Type) := mkDecimalCastData {
  result : N;
  decimal_width : Z;
  decimal_scale : Z;
  digit_count : Z;
  decimal_count : Z;
}.
Arguments mkDecimalCastData {_} _ _ _ _ _.
Arguments result {_} _.
Arguments decimal_width {_} _.
Arguments decimal_scale {_} _.
Arguments digit_count {_} _.
Arguments decimal_count {_} _.

(** An exception ends the cast, as a failure does. *)
Definition ok_or_none {A : Type} (r : res A) : option A := match r with Ok a => Some a | Throw _ => None end.

Section decimals.
Context {N : Type} `{DecimalNumber N}.

Definition set_result (state : DecimalCastData N) (r : N) (digit_count' decimal_count' : Z) : DecimalCastData N :=
  mkDecimalCastData r (decimal_width state) (decimal_scale state) digit_count' decimal_count'.

Definition decimal_HandleDigit (NEGATIVE : bool) (state : DecimalCastData N) (digit : Z) : option (DecimalCastData N) :=
  if is_zero (result state) && (digit =? 0) then Some state
  else if digit_count state =? decimal_width state - decimal_scale state then None
  else
    r ← ok_or_none (push_digit NEGATIVE (result state) digit);
    Some (set_result state r (wrapU 8 (digit_count state + 1)) (decimal_count state)).

Definition decimal_HandleDecimal (NEGATIVE : bool) (state : DecimalCastData N) (digit : Z) : option (DecimalCastData N) :=
  if decimal_count state =? decimal_scale state then Some state
  else
    r ← ok_or_none (push_digit NEGATIVE (result state) digit);
    Some (set_result state r (digit_count state) (wrapU 8 (decimal_count state + 1))).

(** The loop of [Finalize]: [n] rounds. *)
Fixpoint scale_up (n : nat) (r : N) : option N :=
  match n with
  | O => Some r
  | S n => r ← ok_or_none (times_ten r); scale_up n r
  end.

Definition decimal_Finalize (state : DecimalCastData N) : option (DecimalCastData N) :=
  r ← scale_up (Z.to_nat (decimal_scale state - decimal_count state)) (result state);
  Some (set_result state r (digit_count state) (decimal_count state)).

Definition DecimalCastOperation : CastOperation (DecimalCastData N) := mkCastOperation
  decimal_HandleDigit (λ _ _, None) decimal_HandleDecimal decimal_Finalize.

Definition DecimalStringCast (input : list Z) (width scale : Z) : res N :=
  match TryIntegerCast DecimalCastOperation None input (mkDecimalCastData zero width scale 0 0) false false with
  | Some state => Ok (result state)
  | None => Throw (ConversionException "Could not convert string to DECIMAL")
  end.
End decimals.

(** ** Integers to decimals and back *)

Definition StandardNumericToDecimalCast (SRC DST : int_type) (input : Z) (width scale : nat) : res Z :=
  let max_width := wrap DST (POWERS_OF_TEN !!! (width - scale)%nat) in
  if (max_width <=? s64 input) || (s64 input <=? - max_width)
  then Throw (OutOfRangeException "Could not cast value to DECIMAL")
  else Ok (wrap DST (s64 (wrap DST input * POWERS_OF_TEN !!! scale))).

(** The test of the casts to 128-bit decimals. *)
Definition exceeds_width (hinput : hugeint_t) (digits : nat) : bool :=
  let max_width := Hugeint_POWERS_OF_TEN !!! digits in
  Hugeint_GreaterThanEquals hinput max_width || Hugeint_LessThanEquals hinput (Hugeint_NegateInPlace max_width).

Definition NumericToHugeDecimalCast (input : Z) (width scale : nat) : res hugeint_t :=
  let hinput := HugeintConvertInteger input in
  if exceeds_width hinput (width - scale) then Throw (OutOfRangeException "Could not cast value to DECIMAL")
  else Hugeint_Multiply multiply_int128 hinput (Hugeint_POWERS_OF_TEN !!! scale).

(** [Hugeint::Cast] and [HugeintCastToNumeric] *)
Definition HugeintCastToNumeric (DST : int_type) (input : hugeint_t) : res Z :=
  match HugeintTryCastInteger DST input with
  | Some r => Ok r
  | None => Throw (ValueOutOfRangeException "Type value is out of range")
  end.

Definition HugeintToDecimalCast (DST : int_type) (input : hugeint_t) (width scale : nat) : res Z :=
  if exceeds_width input (width - scale) then Throw (OutOfRangeException "Could not cast value to DECIMAL")
  else
    r ← Hugeint_Multiply multiply_int128 input (Hugeint_POWERS_OF_TEN !!! scale);
    HugeintCastToNumeric DST r.

Definition CastDecimalToNumeric (SRC DST : int_type) (input : Z) (scale : nat) : res Z :=
  Cast_Operation SRC DST (wrap SRC (Z.quot input (POWERS_OF_TEN !!! scale))).

Definition CastHugeDecimalToNumeric (DST : int_type) (input : hugeint_t) (scale : nat) : res Z :=
  r ← Hugeint_Divide input (Hugeint_POWERS_OF_TEN !!! scale);
  HugeintCastToNumeric DST r.

#[local] Ltac Zify.zify_post_hook ::= Z.to_euclidean_division_equations.

(** ** The loop on a number *)

Notation is_space c := (CharacterIsSpace c = true) (only parsing).

Lemma is_digit_classes c : is_digit c → CharacterIsDigit c = true ∧ CharacterIsSpace c = false.
Proof. intros Hc. split; [by apply CharacterIsDigit_true|]. unfold is_digit, CharacterIsSpace in *. bools; lia || done. Qed.

Lemma is_space_classes c : is_space c → CharacterIsDigit c = false ∧ (c =? 46) = false.
Proof. unfold CharacterIsDigit, CharacterIsSpace. intros H. bools; lia || done. Qed.

Lemma skip_spaces_app spaces rest : Forall (λ c, is_space c) spaces → skip_spaces (spaces ++ rest) = skip_spaces rest.
Proof. induction 1 as [|c spaces Hc _ IH]; [done|]. cbn. by rewrite Hc. Qed.

Definition sign_text (neg plus : bool) : list Z := if neg then [45] else if plus then [43] else [].

(** The signed number that digits denote. *)
Definition signed_value (neg : bool) (ds : list Z) : Z := if neg then - read ds 0 else read ds 0.

Lemma read_cons c ds acc : read (c :: ds) acc = read ds (10 * acc + (c - 48)).
Proof. done. Qed.

Section loop_lemmas.
Context {T : Type} (OP : CastOperation T).

Fixpoint handle_digits (NEGATIVE : bool) (ds : list Z) (result : T) : option T :=
  match ds with
  | [] => Some result
  | c :: ds => result ← HandleDigit OP NEGATIVE result (c - 48); handle_digits NEGATIVE ds result
  end.

Lemma loop_digits exponent NEGATIVE strict ds rest seen r :
  Forall is_digit ds → ds ≠ [] →
  IntegerCastLoop_from OP exponent NEGATIVE strict (ds ++ rest) seen r =
  (r ← handle_digits NEGATIVE ds r; IntegerCastLoop_from OP exponent NEGATIVE strict rest true r).
Proof.
  revert seen r. induction ds as [|c ds IH]; intros seen r Hds Hne; [done|]. apply Forall_cons in Hds as [Hc Hds].
  cbn [app IntegerCastLoop_from handle_digits]. rewrite CharacterIsDigit_true by done.
  destruct (HandleDigit OP NEGATIVE r (c - 48)) as [r'|]; [|done]. cbn [mbind option_bind].
  destruct ds as [|c' ds]; [done|]. by apply IH.
Qed.

(** What may follow the digits, and what is done with it. *)
Definition number_tail (strict : bool) (tail : list Z) : Prop :=
  Forall (λ c, is_space c) tail ∨ (strict = false ∧ ∃ es, tail = 46 :: es ∧ Forall is_digit es).

Definition fraction (tail : list Z) : list Z := match tail with 46 :: es => es | _ => [] end.

Lemma loop_tail exponent NEGATIVE strict tail r :
  number_tail strict tail →
  IntegerCastLoop_from OP exponent NEGATIVE strict tail true r =
  (r ← handle_decimals OP NEGATIVE (fraction tail) r; Finalize OP r).
Proof.
  intros [Hsp|(-> & es & -> & Hes)].
  - destruct Hsp as [|c tail Hc Hsp].
    + cbn. by destruct (Finalize OP r).
    + destruct (is_space_classes c Hc) as [Hd Hp]. cbn [IntegerCastLoop_from]. rewrite Hd, Hp, Hc.
      rewrite (proj2 (forallb_forall _ _)) by (by apply List.Forall_forall).
      replace (fraction (c :: tail)) with (@nil Z); [done|]. unfold fraction.
      assert (∀ A (a b : A), match c with 46 => a | _ => b end = b) as Hm; [|by rewrite Hm].
      intros A a b. apply Z.eqb_neq in Hp. destruct c as [|p|p]; try done. repeat (destruct p as [p|p|]; try done).
  - cbn [IntegerCastLoop_from fraction]. change (CharacterIsDigit 46) with false. cbn [Z.eqb Pos.eqb].
    destruct (handle_decimals OP NEGATIVE es r) as [r'|]; [|done]. cbn. by destruct (Finalize OP r').
Qed.

Lemma TryIntegerCast_number exponent spaces neg plus ds tail r strict unsigned_int :
  Forall (λ c, is_space c) spaces → Forall is_digit ds → ds ≠ [] → number_tail strict tail →
  TryIntegerCast OP exponent (spaces ++ sign_text neg plus ++ ds ++ tail) r strict unsigned_int =
  if neg && unsigned_int && negb (forallb (λ c, c =? 48) (ds ++ tail)) then None
  else r ← handle_digits neg ds r; r ← handle_decimals OP neg (fraction tail) r; Finalize OP r.
Proof.
  intros Hsp Hds Hne Htail. unfold TryIntegerCast, IntegerCastLoop. rewrite skip_spaces_app by done.
  assert (∀ seen r, IntegerCastLoop_from OP exponent neg strict (ds ++ tail) seen r =
    (r ← handle_digits neg ds r; r ← handle_decimals OP neg (fraction tail) r; Finalize OP r)) as Hloop.
  { intros seen r'. rewrite loop_digits by done. destruct (handle_digits neg ds r') as [r''|]; [|done]. cbn. by apply loop_tail. }
  destruct neg; cbn [sign_text].
  - cbn [app skip_spaces]. change (CharacterIsSpace 45) with false. cbn [Z.eqb Pos.eqb negb andb orb].
    destruct (unsigned_int && _); [done|]. apply Hloop.
  - destruct plus; cbn [app].
    + cbn [skip_spaces]. change (CharacterIsSpace 43) with false. cbn. apply Hloop.
    + destruct ds as [|c ds]; [done|]. pose proof Hds as [Hc _]%Forall_cons. destruct (is_digit_classes c Hc) as [_ Hcs].
      cbn [app skip_spaces]. rewrite Hcs. unfold is_digit in Hc.
      assert (c =? 45 = false ∧ c =? 43 = false) as [-> ->] by (split; apply Z.eqb_neq; lia). cbn [negb orb andb]. apply Hloop.
Qed.
End loop_lemmas.

Lemma handle_decimals_ignored {T} (OP : CastOperation T) neg es r :
  (∀ r d, HandleDecimal OP neg r d = Some r) → Forall is_digit es → handle_decimals OP neg es r = Some r.
Proof. intros Hign. induction 1 as [|c es Hc _ IH]; [done|]. cbn. rewrite CharacterIsDigit_true, Hign by done. done. Qed.

Lemma fraction_digits strict tail : number_tail strict tail → Forall is_digit (fraction tail).
Proof.
  intros [Hsp|(_ & es & -> & Hes)]; [|done]. destruct Hsp as [|c tail Hc Hsp]; [constructor|].
  unfold fraction. destruct c as [|p|p]; try constructor. repeat (destruct p as [p|p|]; try constructor). discriminate.
Qed.

(** ** Integers *)

Lemma zeros_read ds acc : Forall is_digit ds → 0 <= acc → (read ds acc =? 0) = (acc =? 0) && forallb (λ c, c =? 48) ds.
Proof.
  intros Hds. revert acc. induction Hds as [|c ds Hc Hds IH]; intros acc Hacc; [cbn; by rewrite andb_true_r|].
  rewrite read_cons, IH by (unfold is_digit in Hc; lia). cbn [forallb]. unfold is_digit in Hc. bools; lia || done.
Qed.

Lemma limits_bounds T : integer_type T →
  NumericLimits_Minimum T <= 0 ∧ 127 <= NumericLimits_Maximum T ∧
  NumericLimits_Minimum T = if is_signed T then - NumericLimits_Maximum T else 0.
Proof. intros HT. int_cases HT; cbn; lia. Qed.

Section integer_lemmas.
Context (float_exponent : int_type → Z → Z → option Z).
Notation op T := (IntegerCastOperation float_exponent T).

Lemma handle_digits_positive T ds a :
  integer_type T → Forall is_digit ds → 0 <= a <= NumericLimits_Maximum T →
  handle_digits (op T) false ds a = if decide (read ds a <= NumericLimits_Maximum T) then Some (read ds a) else None.
Proof.
  intros HT Hds. revert a. induction Hds as [|c ds Hc Hds IH]; intros a Ha; [by rewrite decide_True by (cbn; lia)|].
  cbn [handle_digits HandleDigit IntegerCastOperation]. unfold is_digit in Hc. rewrite read_cons.
  pose proof (read_ge ds (10 * a + (c - 48)) Hds ltac:(lia)) as Hm.
  destruct (limits_bounds T HT) as (HM & HM' & _).
  destruct (Z.ltb_spec (Z.quot (NumericLimits_Maximum T - (c - 48)) 10) a) as [H|H]; cbn.
  - rewrite decide_False by lia. done.
  - rewrite wrap_in; [|done|apply in_limits_type; [done|]; unfold in_limits; lia].
    replace (a * 10 + (c - 48)) with (10 * a + (c - 48)) by lia. apply IH. lia.
Qed.

Lemma handle_digits_negative T ds a :
  integer_type T → is_signed T = true → Forall is_digit ds → 0 <= a <= - NumericLimits_Minimum T →
  handle_digits (op T) true ds (- a) = if decide (NumericLimits_Minimum T <= - read ds a) then Some (- read ds a) else None.
Proof.
  intros HT Hs Hds. revert a. induction Hds as [|c ds Hc Hds IH]; intros a Ha; [by rewrite decide_True by (cbn; lia)|].
  cbn [handle_digits HandleDigit IntegerCastOperation]. unfold is_digit in Hc. rewrite read_cons.
  pose proof (read_ge ds (10 * a + (c - 48)) Hds ltac:(lia)) as Hm.
  destruct (limits_bounds T HT) as (_ & HM & HM'). rewrite Hs in HM'.
  destruct (Z.ltb_spec (- a) (Z.quot (NumericLimits_Minimum T + (c - 48)) 10)) as [H|H]; cbn.
  - rewrite decide_False by lia. done.
  - rewrite wrap_in; [|done|apply in_limits_type; [done|]; unfold in_limits; lia].
    replace (- a * 10 - (c - 48)) with (- (10 * a + (c - 48))) by lia. apply IH. lia.
Qed.

Lemma handle_digits_zeros T ds :
  integer_type T → forallb (λ c, c =? 48) ds = true → handle_digits (op T) true ds 0 = Some 0.
Proof.
  intros HT. induction ds as [|c ds IH]; [done|]. cbn [forallb]. intros [->%Z.eqb_eq H]%andb_prop.
  cbn [handle_digits HandleDigit IntegerCastOperation]. cbn [Z.sub Z.add Z.mul Z.opp Z.pos_sub].
  assert (0 <? Z.quot (NumericLimits_Minimum T + (48 - 48)) 10 = false) as -> by (int_cases HT; reflexivity).
  cbn. rewrite wrap_in; [by apply IH|done|int_cases HT; unfold in_type, inS, inU; cbn; lia].
Qed.

Lemma TryCast_integer_exact T spaces neg plus ds tail strict :
  integer_type T → Forall (λ c, is_space c) spaces → Forall is_digit ds → ds ≠ [] → number_tail strict tail →
  (neg = true → is_signed T = false → tail = []) →
  TryCast_integer float_exponent T (spaces ++ sign_text neg plus ++ ds ++ tail) strict = exact T (signed_value neg ds).
Proof.
  intros HT Hsp Hds Hne Htail Hun. unfold TryCast_integer. rewrite TryIntegerCast_number by done.
  pose proof (fraction_digits _ _ Htail) as Hfr. pose proof (read_bounds _ Hds) as Hr.
  assert (∀ o, (r ← o; r ← handle_decimals (op T) neg (fraction tail) r; Finalize (op T) r) = o) as ->.
  { intros [r|]; [|done]. cbn [mbind option_bind]. by rewrite handle_decimals_ignored. }
  destruct (limits_bounds T HT) as (HM & HM' & Hmin).
  unfold signed_value, exact. destruct neg; cbn [andb].
  - destruct (is_signed T) eqn:Hs; cbn [negb andb].
    + pose proof (handle_digits_negative T ds 0 HT Hs Hds ltac:(lia)) as Hn. change (- 0) with 0 in Hn. rewrite Hn. unfold in_limits. repeat case_decide; lia || done.
    + rewrite (Hun eq_refl eq_refl), app_nil_r. pose proof (zeros_read ds 0 Hds ltac:(lia)) as Hz. cbn [Z.eqb andb] in Hz.
      unfold in_limits. destruct (forallb _ ds) eqn:Hall; cbn [negb].
      * apply Z.eqb_eq in Hz. rewrite handle_digits_zeros, Hz by done. case_decide; [done|lia].
      * apply Z.eqb_neq in Hz. case_decide; [lia|done].
  - rewrite handle_digits_positive by (done || lia). unfold in_limits. repeat case_decide; lia || done.
Qed.
End integer_lemmas.

(** ** 128-bit integers *)

Definition with_sign (neg : bool) (z : Z) : Z := if neg then - z else z.

(** The number read so far is [a]: the flushed part [H] is followed by the
    digits of the intermediate number [m]. *)
Definition reads_hugeint (neg : bool) (data : HugeIntCastData) (a : Z) : Prop :=
  ∃ H m, represents (hugeint data) (with_sign neg H) ∧ intermediate data = with_sign neg m ∧
    0 <= H < 2 ^ 127 ∧ 0 <= m <= 2 ^ 63 - 1 ∧ m < 10 ^ digit_number data ∧ 0 <= digit_number data <= 255 ∧
    a = H * 10 ^ digit_number data + m.

Lemma with_sign_range neg a : 0 <= a → in_range (with_sign neg a) ↔ a < 2 ^ 127.
Proof. intros Ha. unfold in_range, with_sign. destruct neg; lia. Qed.

Lemma with_sign_add neg a b : with_sign neg a + with_sign neg b = with_sign neg (a + b).
Proof. unfold with_sign. destruct neg; lia. Qed.

Lemma with_sign_mul neg a b : with_sign neg a * b = with_sign neg (a * b).
Proof. unfold with_sign. destruct neg; lia. Qed.

(** The addition at the end of [Flush]. *)
Lemma flush_add neg h H m data :
  represents h (with_sign neg H) → 0 <= H → 0 <= m <= 2 ^ 63 - 1 → intermediate data = with_sign neg m →
  let r := Hugeint_AddInPlace h (HugeintConvertInteger (intermediate data)) in
  (H + m < 2 ^ 127 → r.1 = true ∧ represents r.2 (with_sign neg (H + m))) ∧ (2 ^ 127 <= H + m → r.1 = false).
Proof.
  intros [Hok Hv] HH Hm Hi. rewrite Hi. intros r.
  destruct (HugeintConvertInteger_represents (with_sign neg m)) as [Hok' Hv'];
    [left; unfold with_sign, inS; destruct neg; lia|].
  destruct (AddInPlace_spec h (HugeintConvertInteger (with_sign neg m)) Hok Hok') as [Hin Hout].
  rewrite Hv, Hv', with_sign_add in Hin, Hout. rewrite with_sign_range in Hin, Hout by lia. split; intros Hs.
  - destruct (Hin Hs) as (h' & Hr & Hrep). unfold r. rewrite Hr. by split.
  - apply Hout. lia.
Qed.

Lemma try_flush_spec neg data a :
  reads_hugeint neg data a →
  (a < 2 ^ 127 → ∃ h, try_flush data = Some (mkHugeIntCastData h 0 0) ∧ represents h (with_sign neg a)) ∧
  (2 ^ 127 <= a → try_flush data = None).
Proof.
  destruct data as [h i dn]. intros (H & m & [Hok Hv] & Hi & HH & Hm & Hm10 & Hdn & ->). cbn [hugeint intermediate digit_number] in *.
  unfold try_flush, Flush. cbn [hugeint intermediate digit_number].
  pose proof (flush_add neg) as Hadd. assert (0 < 10 ^ dn) as Hp by (apply Z.pow_pos_nonneg; lia).
  destruct (Z.eqb_spec dn 0) as [->|Hd0]; [destruct (Z.eqb_spec i 0) as [->|Hi0]|]; cbn [andb].
  1: { change (10 ^ 0) with 1 in *. replace m with 0 in * by lia.
       split; [intros _; exists h; split; [done|]; rewrite Z.mul_1_r, Z.add_0_r; by split|lia]. }
  1: { change (10 ^ 0) with 1 in *. assert (m = 0) as -> by lia. unfold with_sign in Hi. destruct neg; lia. }
  assert ((negb (lower h =? 0) || negb (upper h =? 0)) = negb (H =? 0)) as ->.
  { destruct Hok as [Hl Hu]. unfold value, inU, inS in *. unfold with_sign in Hv. destruct neg; bools; lia || done. }
  destruct (Z.eqb_spec H 0) as [->|HH0]; cbn [negb].
  { destruct (Hadd h 0 m (mkHugeIntCastData h i dn) (conj Hok Hv) ltac:(lia) Hm Hi) as [Ha _]. cbn [intermediate] in Ha.
    destruct (Ha ltac:(lia)) as [Hr1 Hr2]. destruct (Hugeint_AddInPlace _ _) as [ok h'] eqn:E. cbn [fst snd] in *. subst ok.
    split; [intros _; by exists h'|lia]. }
  destruct (Z.ltb_spec 38 dn) as [Hbig|Hsmall].
  { split; [|done]. intros Ha. pose proof (Z.pow_le_mono_r 10 39 dn ltac:(lia) ltac:(lia)). nia. }
  destruct (Hugeint_POWERS_OF_TEN_spec (Z.to_nat dn) ltac:(lia)) as [Hpok Hpv]. rewrite Z2Nat.id in Hpv by lia.
  destruct (TryMultiply_value _ h _ multiply_int128_spec Hok Hpok) as [Hin Hout].
  rewrite Hv, Hpv, with_sign_mul in Hin, Hout. rewrite with_sign_range in Hin, Hout by nia.
  destruct (Z.lt_ge_cases (H * 10 ^ dn) (2 ^ 127)) as [Hlt|Hge].
  - destruct (Hin Hlt) as (h' & -> & Hh').
    destruct (Hadd h' (H * 10 ^ dn) m (mkHugeIntCastData h i dn) Hh' ltac:(nia) Hm Hi) as [Ha Ha']. cbn [intermediate] in Ha, Ha'.
    destruct (Hugeint_AddInPlace _ _) as [ok h''] eqn:E. cbn [fst snd] in *. split.
    + intros Hlt'. destruct (Ha Hlt') as [-> Hr]. by exists h''.
    + intros Hge. rewrite (Ha' Hge). done.
  - rewrite Hout by lia. split; [lia|done].
Qed.

Section hugeint_lemmas.
Context (float_exponent : int_type → Z → Z → option Z) (float_exponent_hugeint : hugeint_t → Z → option hugeint_t).
Notation huge_op := (HugeIntegerCastOperation float_exponent_hugeint).

Lemma hugeint_digit neg data a d :
  reads_hugeint neg data a → 0 <= d <= 9 → digit_number data < 255 →
  (∃ data', hugeint_HandleDigit neg data d = Some data' ∧ reads_hugeint neg data' (10 * a + d) ∧
    digit_number data' <= digit_number data + 1) ∨
  (hugeint_HandleDigit neg data d = None ∧ 2 ^ 127 <= a).
Proof.
  intros Hinv Hd Hlt. unfold hugeint_HandleDigit. pose proof Hinv as (H & m & Hrep & Hi & HH & Hm & Hm10 & Hdn & Ha).
  assert ((if neg then intermediate data <? Z.quot (NumericLimits_Minimum int64_t + d) 10
    else Z.quot (NumericLimits_Maximum int64_t - d) 10 <? intermediate data) = (2 ^ 63 - 1 <? 10 * m + d)) as ->.
  { rewrite Hi. unfold with_sign, NumericLimits_Minimum, NumericLimits_Maximum. cbn [is_signed int64_t width].
    destruct neg; bools; lia || done. }
  assert (∀ h H m dn, represents h (with_sign neg H) → 0 <= H < 2 ^ 127 → 0 <= 10 * m + d <= 2 ^ 63 - 1 → 0 <= m →
    m < 10 ^ dn → 0 <= dn < 255 → dn <= digit_number data → a = H * 10 ^ dn + m →
    ∃ data', Some (mkHugeIntCastData h (s64 (if neg then with_sign neg m * 10 - d else with_sign neg m * 10 + d)) (wrapU 8 (dn + 1)))
      = Some data' ∧ reads_hugeint neg data' (10 * a + d) ∧ digit_number data' <= digit_number data + 1) as Hstep.
  { clear - Hd. intros h H m dn Hrep HH Hm Hm0 Hm10 Hdn Hdn' ->.
    replace (if neg then _ else _) with (with_sign neg (10 * m + d)) by (unfold with_sign; destruct neg; lia).
    rewrite wrapS_small by (lia || unfold with_sign, inS; destruct neg; lia). rewrite wrapU_small by (unfold inU; lia).
    eexists. split; [done|]. cbn [digit_number]. split; [|lia]. exists H, (10 * m + d). cbn [hugeint intermediate digit_number].
    rewrite Z.pow_add_r by lia. change (10 ^ 1) with 10. split_and!; done || lia. }
  destruct (Z.ltb_spec (2 ^ 63 - 1) (10 * m + d)) as [Hfull|Hroom].
  - destruct (try_flush_spec neg data a Hinv) as [Hok Hfail]. destruct (Z.lt_ge_cases a (2 ^ 127)) as [Hs|Hb].
    + left. destruct (Hok Hs) as (h & -> & Hh). cbn [mbind option_bind hugeint intermediate digit_number].
      assert (0 <= a) by (assert (0 < 10 ^ digit_number data) by (apply Z.pow_pos_nonneg; lia); nia).
      pose proof (Hstep h a 0 0) as Hs0. replace (with_sign neg 0) with 0 in Hs0 by (by destruct neg). apply Hs0; done || lia.
    + right. by rewrite Hfail.
  - left. cbn [mbind option_bind]. rewrite Hi. apply (Hstep (hugeint data) H m (digit_number data)); done || lia.
Qed.

Lemma hugeint_digits neg ds data a :
  Forall is_digit ds → reads_hugeint neg data a → digit_number data + Z.of_nat (length ds) <= 255 → 0 <= a →
  (∃ data', handle_digits huge_op neg ds data = Some data' ∧ reads_hugeint neg data' (read ds a)) ∨
  (handle_digits huge_op neg ds data = None ∧ 2 ^ 127 <= read ds a).
Proof.
  intros Hds. revert data a. induction Hds as [|c ds Hc Hds IH]; intros data a Hinv Hlen Ha; [left; by exists data|].
  cbn [length] in Hlen. unfold is_digit in Hc. cbn [handle_digits HandleDigit HugeIntegerCastOperation]. rewrite read_cons.
  destruct (hugeint_digit neg data a (c - 48) Hinv ltac:(lia) ltac:(lia)) as [(data' & -> & Hinv' & Hn)|[-> Hbig]].
  - cbn [mbind option_bind]. apply IH; [done|lia|lia].
  - right. split; [done|]. pose proof (read_ge ds (10 * a + (c - 48)) Hds ltac:(lia)). lia.
Qed.

Lemma TryCast_hugeint_exact spaces neg plus ds tail strict :
  Forall (λ c, is_space c) spaces → Forall is_digit ds → ds ≠ [] → (length ds <= 255)%nat → number_tail strict tail →
  let z := signed_value neg ds in
  let r := TryCast_hugeint float_exponent float_exponent_hugeint (spaces ++ sign_text neg plus ++ ds ++ tail) strict in
  (in_range z → ∃ h, r = Some h ∧ represents h z) ∧ (¬ in_range z → r = None).
Proof.
  intros Hsp Hds Hne Hlen Htail z r. unfold r, TryCast_hugeint. rewrite TryIntegerCast_number by done. rewrite andb_false_r.
  cbn [andb]. pose proof (fraction_digits _ _ Htail) as Hfr. pose proof (read_bounds _ Hds) as Hb.
  assert (reads_hugeint neg (mkHugeIntCastData (mkHugeint 0 0) 0 0) 0) as Hinit.
  { exists 0, 0. cbn. unfold with_sign, represents, hugeint_ok, value, inU, inS. cbn. destruct neg; lia. }
  assert (in_range z ↔ read ds 0 < 2 ^ 127) as -> by (unfold z; apply with_sign_range; lia).
  destruct (hugeint_digits neg ds _ 0 Hds Hinit ltac:(cbn; lia) ltac:(lia)) as [(data & -> & Hinv)|[-> Hbig]];
    cbn [mbind option_bind]; [|by split; [lia|]].
  rewrite handle_decimals_ignored by done. cbn [mbind option_bind Finalize HugeIntegerCastOperation].
  destruct (try_flush_spec neg data _ Hinv) as [Hok Hfail]. split; intros Hz.
  - destruct (Hok Hz) as (h & -> & Hh). exists h. by split.
  - rewrite Hfail by lia. done.
Qed.
End hugeint_lemmas.

(** ** Decimals *)

(** What a physical type promises for numbers below its bound. *)
Class DecimalNumberLaws (N : Type) `{DecimalNumber N} := {
  number_is : N → Z → Prop;
  number_bound : Z;
  number_zero : number_is zero 0;
  number_is_zero n z : number_is n z → is_zero n = (z =? 0);
  number_times_ten n z : number_is n z → Z.abs (z * 10) < number_bound → ∃ n', times_ten n = Ok n' ∧ number_is n' (z * 10);
  number_push neg n a d :
    number_is n (with_sign neg a) → 0 <= d <= 9 → 0 <= a → 10 * a + d < number_bound →
    ∃ n', push_digit neg n d = Ok n' ∧ number_is n' (with_sign neg (10 * a + d));
}.

Lemma wrap_decimal T z : decimal_type T → Z.abs z <= decimal_max T → wrap T z = z.
Proof.
  intros HT Hz. decimal_cases HT; unfold decimal_max in Hz; cbn in Hz; apply wrap_in; int_type_in || (unfold in_type, inS; cbn; lia).
Qed.

#[refine] Definition integer_laws (T : int_type) (HT : decimal_type T) : @DecimalNumberLaws Z (integer_number T) :=
  @Build_DecimalNumberLaws Z (integer_number T) (λ n z, n = z) (decimal_max T + 1) _ _ _ _.
Proof.
  - done.
  - by intros n z ->.
  - intros n z -> Hz. cbn. eexists. split; [done|]. apply wrap_decimal; [done|lia].
  - intros neg n a d -> Hd Ha Hb. cbn. eexists. split; [done|]. unfold with_sign.
    rewrite wrap_decimal by (done || destruct neg; lia). destruct neg; lia.
Defined.

#[refine] Definition hugeint_laws : @DecimalNumberLaws hugeint_t hugeint_number :=
  @Build_DecimalNumberLaws hugeint_t hugeint_number represents (10 ^ 38) _ _ _ _.
Proof.
  - cbn. unfold represents, hugeint_ok, value, inU, inS. cbn. lia.
  - intros n z [Hok Hv]. cbn. destruct (comparison_value n (mkHugeint 0 0) Hok) as (-> & _);
      [unfold hugeint_ok, inU, inS; cbn; lia|]. by rewrite Hv.
  - intros n z [Hok <-] Hz. destruct (Hugeint_Multiply_cases _ n (mkHugeint 10 0) multiply_int128_spec Hok) as [Hm _];
      [unfold hugeint_ok, inU, inS; cbn; lia|]. change (value (mkHugeint 10 0)) with 10 in Hm.
    apply Hm. unfold in_range. lia.
  - intros neg n a d [Hok Hv] Hd Ha Hb. destruct (Hugeint_Multiply_cases _ n (mkHugeint 10 0) multiply_int128_spec Hok) as [Hm _];
      [unfold hugeint_ok, inU, inS; cbn; lia|]. change (value (mkHugeint 10 0)) with 10 in Hm. rewrite Hv in Hm.
    destruct Hm as (h & Hh & Hok' & Hv'); [unfold in_range, with_sign; destruct neg; lia|].
    unfold push_digit, hugeint_number. rewrite Hh. cbn [mbind res_bind].
    destruct (HugeintConvertInteger_represents d) as [Hd1 Hd2]; [left; unfold inS; lia|]. unfold with_sign in *. destruct neg.
    + destruct (Hugeint_Subtract_cases h _ Hok' Hd1) as [Hs _]. rewrite Hd2, Hv' in Hs.
      destruct Hs as (h' & Hr & Hrep); [unfold subtract_in_range, in_range; lia|]. exists h'. split; [done|].
      by replace (- (10 * a + d)) with (- a * 10 - d) by lia.
    + destruct (Hugeint_Add_cases h _ Hok' Hd1) as [Hs _]. rewrite Hd2, Hv' in Hs.
      destruct Hs as (h' & Hr & Hrep); [unfold in_range; lia|]. exists h'. split; [done|].
      by replace (10 * a + d) with (a * 10 + d) by lia.
Defined.

Section decimal_lemmas.
Context {N : Type} `{DecimalNumberLaws N}.
Context (w s : Z) (Hscale : 0 <= s <= w) (Hw : w <= 38) (Hbound : 10 ^ w <= number_bound).

(** The digits before the point denote [a]. *)
Definition reads_decimal (neg : bool) (state : DecimalCastData N) (a : Z) : Prop :=
  number_is (result state) (with_sign neg a) ∧ decimal_width state = w ∧ decimal_scale state = s ∧
  decimal_count state = 0 ∧ 0 <= digit_count state <= w - s ∧ 0 <= a < 10 ^ digit_count state ∧
  (a = 0 ∧ digit_count state = 0 ∨ 10 ^ digit_count state <= 10 * a).

Lemma power_le a b : 0 <= a <= b → 0 < 10 ^ a <= 10 ^ b.
Proof. intros Hab. split; [apply Z.pow_pos_nonneg; lia|apply Z.pow_le_mono_r; lia]. Qed.

Lemma decimal_digit_step neg state a d :
  reads_decimal neg state a → 0 <= d <= 9 →
  (∃ state', decimal_HandleDigit neg state d = Some state' ∧ reads_decimal neg state' (10 * a + d)) ∨
  (decimal_HandleDigit neg state d = None ∧ 10 ^ (w - s) <= 10 * a + d).
Proof.
  intros (Hn & Hwd & Hsc & Hdc & Hk & Ha & Hlow) Hd. unfold decimal_HandleDigit. rewrite (number_is_zero _ _ Hn).
  assert ((with_sign neg a =? 0) = (a =? 0)) as -> by (unfold with_sign; destruct neg; bools; lia || done).
  destruct ((a =? 0) && (d =? 0)) eqn:Hz.
  { apply andb_prop in Hz as [->%Z.eqb_eq ->%Z.eqb_eq]. left. exists state. split; [done|]. change (10 * 0 + 0) with 0. unfold reads_decimal. split_and!; done || lia. }
  rewrite Hwd, Hsc. destruct (Z.eqb_spec (digit_count state) (w - s)) as [Hfull|Hroom].
  { right. split; [done|]. rewrite <-Hfull. destruct Hlow as [[-> ->]|Hlow]; [|lia]. bools; change (10 ^ 0) with 1; lia. }
  left. pose proof (power_le (digit_count state + 1) w ltac:(lia)) as Hp. rewrite Z.pow_add_r in Hp by lia. change (10 ^ 1) with 10 in Hp.
  destruct (number_push neg _ a d Hn Hd ltac:(lia)) as (n' & -> & Hn'); [lia|]. eexists. split; [done|].
  rewrite wrapU_small by (unfold inU; lia). unfold reads_decimal. cbn [result decimal_width decimal_scale digit_count decimal_count set_result].
  rewrite Z.pow_add_r by lia. change (10 ^ 1) with 10. split_and!; try done || lia.
  right. destruct Hlow as [[-> ->]|Hlow]; [change (10 ^ 0) with 1; bools; lia|lia].
Qed.

Lemma decimal_digits neg ds state a :
  Forall is_digit ds → reads_decimal neg state a → 0 <= a →
  (∃ state', handle_digits DecimalCastOperation neg ds state = Some state' ∧ reads_decimal neg state' (read ds a)) ∨
  (handle_digits DecimalCastOperation neg ds state = None ∧ 10 ^ (w - s) <= read ds a).
Proof.
  intros Hds. revert state a. induction Hds as [|c ds Hc Hds IH]; intros state a Hinv Ha; [left; by exists state|].
  unfold is_digit in Hc. cbn [handle_digits HandleDigit DecimalCastOperation]. rewrite read_cons.
  destruct (decimal_digit_step neg state a (c - 48) Hinv ltac:(lia)) as [(state' & -> & Hinv')|[-> Hbig]].
  - cbn [mbind option_bind]. apply IH; [done|lia].
  - right. split; [done|]. pose proof (read_ge ds (10 * a + (c - 48)) Hds ltac:(lia)). lia.
Qed.

(** After [j] digits behind the point, the digits denote [b]. *)
Definition reads_fraction (neg : bool) (state : DecimalCastData N) (b j : Z) : Prop :=
  number_is (result state) (with_sign neg b) ∧ decimal_scale state = s ∧ decimal_count state = j ∧ 0 <= j <= s ∧
  0 <= b < 10 ^ (w - s + j).

Lemma decimal_fraction neg es state b j :
  Forall is_digit es → reads_fraction neg state b j →
  ∃ state', handle_decimals DecimalCastOperation neg es state = Some state' ∧
    reads_fraction neg state' (read (take (Z.to_nat (s - j)) es) b) (j + Z.min (s - j) (Z.of_nat (length es))).
Proof.
  intros Hes. revert state b j. induction Hes as [|c es Hc Hes IH]; intros state b j Hinv.
  { exists state. split; [done|]. rewrite take_nil. pose proof Hinv as (_ & _ & _ & Hj & _). cbn [length read foldl].
    by replace (j + Z.min (s - j) (Z.of_nat 0)) with j by lia. }
  pose proof Hinv as (Hn & Hsc & Hdc & Hj & Hb). unfold is_digit in Hc.
  cbn [handle_decimals HandleDecimal DecimalCastOperation length]. rewrite CharacterIsDigit_true by done.
  unfold decimal_HandleDecimal. rewrite Hsc, Hdc. destruct (Z.eqb_spec j s) as [->|Hlt].
  - cbn [mbind option_bind]. destruct (IH state b s Hinv) as (state' & Hr & Hinv'). exists state'. split; [done|].
    replace (s - s) with 0 in * by lia. cbn [Z.to_nat take] in *.
    replace (s + Z.min 0 (Z.of_nat (S (length es)))) with (s + Z.min 0 (Z.of_nat (length es))) by lia. done.
  - pose proof (power_le (w - s + j + 1) w ltac:(lia)) as Hp. rewrite Z.pow_add_r in Hp by lia. change (10 ^ 1) with 10 in Hp.
    destruct (number_push neg _ b (c - 48) Hn ltac:(lia) ltac:(lia)) as (n' & -> & Hn'); [lia|]. cbn [ok_or_none mbind option_bind].
    rewrite wrapU_small by (unfold inU; lia).
    destruct (IH (set_result state n' (digit_count state) (j + 1)) (10 * b + (c - 48)) (j + 1)) as (state' & Hr & Hinv').
    { unfold reads_fraction. cbn. replace (w - s + (j + 1)) with (w - s + j + 1) by lia. rewrite Z.pow_add_r by lia.
      change (10 ^ 1) with 10. split_and!; done || lia. }
    exists state'. split; [done|]. replace (Z.to_nat (s - j)) with (S (Z.to_nat (s - (j + 1)))) by lia. cbn [take]. rewrite read_cons.
    replace (j + Z.min (s - j) (Z.of_nat (S (length es)))) with (j + 1 + Z.min (s - (j + 1)) (Z.of_nat (length es))) by lia. done.
Qed.

Lemma scale_up_spec neg n : ∀ r b k,
  number_is r (with_sign neg b) → 0 <= b < 10 ^ k → 0 <= k → k + Z.of_nat n <= w →
  ∃ r', scale_up n r = Some r' ∧ number_is r' (with_sign neg (b * 10 ^ Z.of_nat n)).
Proof.
  induction n as [|n IH]; intros r b k Hr Hb Hk Hn; [exists r; split; [done|]; by rewrite Z.mul_1_r|].
  cbn [scale_up]. pose proof (power_le (k + 1) w ltac:(lia)) as Hp. rewrite Z.pow_add_r in Hp by lia. change (10 ^ 1) with 10 in Hp.
  destruct (number_times_ten r _ Hr) as (r' & -> & Hr'); [unfold with_sign; destruct neg; lia|]. cbn [ok_or_none mbind option_bind].
  rewrite with_sign_mul in Hr'. destruct (IH r' (b * 10) (k + 1) Hr') as (r'' & Hs & Hr''); [rewrite ?Z.pow_add_r by lia; lia..|].
  exists r''. split; [done|]. rewrite Nat2Z.inj_succ, Z.pow_succ_r by lia. by replace (b * (10 * 10 ^ Z.of_nat n)) with (b * 10 * 10 ^ Z.of_nat n) by lia.
Qed.

(** The scaled number of a text: digits beyond the scale are cut off. *)
Definition scaled_value (ds es : list Z) : Z :=
  let es := take (Z.to_nat s) es in
  read (ds ++ es) 0 * 10 ^ (s - Z.of_nat (length es)).

Lemma DecimalStringCast_spec spaces neg plus ds tail :
  Forall (λ c, is_space c) spaces → Forall is_digit ds → ds ≠ [] → number_tail false tail →
  let r := DecimalStringCast (spaces ++ sign_text neg plus ++ ds ++ tail) w s in
  (read ds 0 < 10 ^ (w - s) → ∃ n, r = Ok n ∧ number_is n (with_sign neg (scaled_value ds (fraction tail)))) ∧
  (10 ^ (w - s) <= read ds 0 → r = Throw (ConversionException "Could not convert string to DECIMAL")).
Proof.
  intros Hsp Hds Hne Htail r. unfold r, DecimalStringCast. rewrite TryIntegerCast_number by done. rewrite andb_false_r.
  cbn [andb]. pose proof (fraction_digits _ _ Htail) as Hfr.
  assert (reads_decimal neg (mkDecimalCastData zero w s 0 0) 0) as Hinit.
  { unfold reads_decimal. cbn. split_and!; try done || lia.
    replace (with_sign neg 0) with 0 by (by destruct neg). apply number_zero. }
  destruct (decimal_digits neg ds _ 0 Hds Hinit ltac:(lia)) as [(st & -> & Hst)|[-> Hbig]]; cbn [mbind option_bind]; [|by split; [lia|]].
  destruct Hst as (Hn & Hwd & Hsc & Hdc & Hk & Ha & _). pose proof (power_le (digit_count st) (w - s) ltac:(lia)) as Hp.
  split; [intros _|lia].
  destruct (decimal_fraction neg (fraction tail) st (read ds 0) 0 Hfr) as (st' & -> & Hn' & Hsc' & Hdc' & Hj & Hb').
  { unfold reads_fraction. rewrite Z.add_0_r. split_and!; done || lia. }
  cbn [mbind option_bind Finalize DecimalCastOperation]. unfold decimal_Finalize.
  rewrite <-read_app in Hn', Hb'. replace (s - 0) with s in * by lia. rewrite Z.add_0_l in *.
  assert (Z.of_nat (length (take (Z.to_nat s) (fraction tail))) = Z.min s (Z.of_nat (length (fraction tail)))) as Hlen
    by (rewrite length_take; lia).
  destruct (scale_up_spec neg (Z.to_nat (s - Z.min s (Z.of_nat (length (fraction tail))))) (result st') _ _ Hn' Hb')
    as (n & Hr & Hnum); [lia..|].
  rewrite Hsc', Hdc', Hr. cbn [mbind option_bind]. eexists. split; [done|]. cbn [set_result result].
  unfold scaled_value. rewrite Hlen. by rewrite Z2Nat.id in Hnum by lia.
Qed.
End decimal_lemmas.

(** ** Printed numbers *)

Lemma signed_text neg ds : signed neg ds = [] ++ sign_text neg false ++ ds ++ [].
Proof. rewrite app_nil_r. by destruct neg. Qed.

Lemma decimal_nonempty v ds : decimal v ds → ds ≠ [].
Proof. intros [_ Hv Hc] ->. cbn in *. destruct Hc as [[_ ?]|[? _]]; lia. Qed.

Lemma no_tail strict : number_tail strict [].
Proof. left. constructor. Qed.

Lemma signed_decimal v ds : decimal (Z.abs v) ds → signed_value (v <? 0) ds = v.
Proof. intros [_ Hv _]. unfold signed_value. rewrite Hv. destruct (Z.ltb_spec v 0); lia. Qed.

(** A decimal that was printed, as a number text. *)
Lemma decimal_text_parts v scale text :
  0 <= v → decimal_text v scale text →
  ∃ ds tail, text = ds ++ tail ∧ Forall is_digit ds ∧ ds ≠ [] ∧ number_tail false tail ∧
    read ds 0 = v / 10 ^ Z.of_nat scale ∧ scaled_value (Z.of_nat scale) ds (fraction tail) = v.
Proof.
  intros Hv. unfold decimal_text. destruct (Nat.eqb_spec scale 0) as [->|Hs].
  - intros Hd. exists text, []. rewrite app_nil_r. pose proof Hd as [Hds Hval _]. cbn [Z.of_nat].
    split_and!; [done|done|by apply (decimal_nonempty v)|apply no_tail|by rewrite Z.div_1_r|].
    unfold scaled_value. cbn [Z.to_nat take fraction length Z.of_nat]. rewrite app_nil_r, Hval. apply Z.mul_1_r.
  - intros (major & minor & -> & Hmaj & Hmin & Hlen & Hrd). exists major, (46 :: minor). pose proof Hmaj as [Hds Hval _].
    split_and!; [done|done|by apply (decimal_nonempty _ _ Hmaj)|right; split; [done|by exists minor]|done|].
    unfold scaled_value. cbn [fraction]. rewrite take_ge by lia. rewrite Hlen, Z.sub_diag, read_app, read_acc, Hval, Hrd, Hlen.
    change (10 ^ 0) with 1. rewrite Z.mul_1_r, Z.mul_comm. symmetry. apply Z.div_mod, Z.pow_nonzero; lia.
Qed.

Lemma printed_decimal {N : Type} `{DecimalNumberLaws N} (neg : bool) (v : Z) (scale width : nat) (text : list Z) :
  0 <= v < 10 ^ Z.of_nat width → (scale <= width <= 38)%nat → 10 ^ Z.of_nat width <= number_bound → decimal_text v scale text →
  ∃ n, DecimalStringCast (signed neg text) (Z.of_nat width) (Z.of_nat scale) = Ok n ∧ number_is n (with_sign neg v).
Proof.
  intros Hv Hsw Hb Htext. destruct (decimal_text_parts v scale text ltac:(lia) Htext) as (ds & tail & -> & Hds & Hne & Htail & Hrd & Hsv).
  destruct (DecimalStringCast_spec (Z.of_nat width) (Z.of_nat scale) ltac:(lia) ltac:(lia) Hb [] neg false ds tail) as [Hok _];
    [constructor|done..|].
  rewrite Hsv in Hok. replace (signed neg (ds ++ tail)) with ([] ++ sign_text neg false ++ ds ++ tail) by (by destruct neg).
  apply Hok. rewrite Hrd. apply Z.div_lt_upper_bound; [apply Z.pow_pos_nonneg; lia|].
  rewrite <-Z.pow_add_r by lia. replace (Z.of_nat scale + (Z.of_nat width - Z.of_nat scale)) with (Z.of_nat width) by lia. lia.
Qed.

(** ** Integers and decimals *)

Lemma power_bound T (k : nat) :
  decimal_type T → 10 ^ Z.of_nat k <= decimal_max T + 1 → (k <= 18)%nat.
Proof.
  intros HT Hk. destruct (le_gt_dec k 18) as [|Hgt]; [done|]. exfalso.
  pose proof (Z.pow_le_mono_r 10 19 (Z.of_nat k) ltac:(lia) ltac:(lia)). decimal_cases HT; unfold decimal_max in Hk; cbn in Hk; lia.
Qed.

Lemma decimal_integer_type T : decimal_type T → integer_type T.
Proof. intros HT. decimal_cases HT; int_type_in. Qed.

Lemma decimal_max_64 T : decimal_type T → decimal_max T < 2 ^ 63.
Proof. intros HT. decimal_cases HT; cbn; lia. Qed.

Lemma split_power (scale width : nat) :
  (scale <= width)%nat → 10 ^ Z.of_nat (width - scale) * 10 ^ Z.of_nat scale = 10 ^ Z.of_nat width.
Proof. intros H. rewrite <-Z.pow_add_r by lia. f_equal. lia. Qed.

Lemma NumericToDecimal_spec SRC DST v (width scale : nat) :
  decimal_type DST → inS 64 v → (scale <= width)%nat → 10 ^ Z.of_nat width <= decimal_max DST + 1 →
  StandardNumericToDecimalCast SRC DST v width scale =
    if decide (Z.abs v < 10 ^ Z.of_nat (width - scale)) then Ok (v * 10 ^ Z.of_nat scale)
    else Throw (OutOfRangeException "Could not cast value to DECIMAL").
Proof.
  intros HD Hv Hsw Hw. pose proof (power_bound DST width HD Hw) as Hk. pose proof (decimal_max_64 DST HD) as H64.
  unfold StandardNumericToDecimalCast. rewrite !POWERS_OF_TEN_spec by lia. rewrite (wrapS_small 64 v) by (lia || done).
  pose proof (split_power scale width Hsw) as Hp. assert (0 < 10 ^ Z.of_nat scale) as Hs by (apply Z.pow_pos_nonneg; lia).
  assert (0 < 10 ^ Z.of_nat (width - scale)) as Hd by (apply Z.pow_pos_nonneg; lia).
  remember (10 ^ Z.of_nat (width - scale)) as m eqn:Em. remember (10 ^ Z.of_nat scale) as q eqn:Eq. clear Em Eq.
  destruct (Z.eq_dec m (decimal_max DST + 1)) as [Hm|Hm].
  - assert (wrap DST m = m) as ->.
    { rewrite Hm. decimal_cases HD; reflexivity. }
    case_decide; bools; try lia; try done. assert (q = 1) as -> by nia. rewrite !Z.mul_1_r.
    rewrite (wrap_decimal DST v) by (done || lia). rewrite wrapS_small by (lia || done). by rewrite wrap_decimal by (done || lia).
  - rewrite (wrap_decimal DST m) by (done || nia). case_decide; bools; try lia; try done.
    rewrite (wrap_decimal DST v) by (done || nia). rewrite wrapS_small by (lia || unfold inS; nia). by rewrite wrap_decimal by (done || nia).
Qed.

Lemma DecimalToNumeric_spec SRC DST x (scale : nat) :
  decimal_type SRC → integer_type DST → Z.abs x <= decimal_max SRC → (scale <= 18)%nat →
  CastDecimalToNumeric SRC DST x scale =
    let v := Z.quot x (10 ^ Z.of_nat scale) in
    if decide (in_limits DST v) then Ok v else Throw (ValueOutOfRangeException "Type value is out of range").
Proof.
  intros HS HD Hx Hsc. unfold CastDecimalToNumeric. rewrite POWERS_OF_TEN_spec by done. cbv zeta.
  assert (0 < 10 ^ Z.of_nat scale) as Hp by (apply Z.pow_pos_nonneg; lia).
  assert (Z.abs (Z.quot x (10 ^ Z.of_nat scale)) <= decimal_max SRC) as Hq.
  { remember (10 ^ Z.of_nat scale) as q eqn:Eq. clear Eq.
    pose proof (Z.quot_abs x q ltac:(lia)) as Ha. rewrite <-Ha, (Z.abs_eq q), Z.quot_div_nonneg by lia.
    etransitivity; [apply Z.div_le_upper_bound with (q := Z.abs x)|]; nia. }
  rewrite wrap_decimal by done. apply (casts_exact SRC DST); [by apply decimal_integer_type|done|].
  decimal_cases HS; unfold decimal_max in Hq; cbn in Hq; limits; lia.
Qed.

Lemma exceeds_width_spec h z k : represents h z → (k <= 38)%nat → exceeds_width h k = bool_decide (10 ^ Z.of_nat k <= Z.abs z).
Proof.
  intros [Hok <-] Hk. unfold exceeds_width. pose proof (Hugeint_POWERS_OF_TEN_spec k Hk) as HP.
  assert (0 < 10 ^ Z.of_nat k) by (apply Z.pow_pos_nonneg; lia).
  destruct (NegateInPlace_represents _ _ HP) as [Hn Hnv]; [lia|]. destruct HP as [Hp Hpv].
  destruct (comparison_value h _ Hok Hn) as (_ & _ & _ & _ & _ & ->), (comparison_value h _ Hok Hp) as (_ & _ & _ & -> & _).
  rewrite Hnv, Hpv. case_bool_decide; bools; lia || done.
Qed.

Lemma NumericToHugeDecimal_spec v (width scale : nat) :
  inS 64 v ∨ inU 64 v → (scale <= width <= 38)%nat →
  (Z.abs v < 10 ^ Z.of_nat (width - scale) →
    ∃ h, NumericToHugeDecimalCast v width scale = Ok h ∧ represents h (v * 10 ^ Z.of_nat scale)) ∧
  (10 ^ Z.of_nat (width - scale) <= Z.abs v →
    NumericToHugeDecimalCast v width scale = Throw (OutOfRangeException "Could not cast value to DECIMAL")).
Proof.
  intros Hv Hsw. pose proof (HugeintConvertInteger_represents v Hv) as Hh. unfold NumericToHugeDecimalCast.
  rewrite (exceeds_width_spec _ v) by (done || lia). split; intros H; [|by rewrite bool_decide_true].
  rewrite bool_decide_false by lia. pose proof (Hugeint_POWERS_OF_TEN_spec scale ltac:(lia)) as [Hpok Hpv]. destruct Hh as [Hok Hval].
  destruct (Hugeint_Multiply_cases multiply_int128 _ _ multiply_int128_spec Hok Hpok) as [Hm _]. rewrite Hval, Hpv in Hm. apply Hm.
  pose proof (split_power scale width ltac:(lia)) as Hp. pose proof (Z.pow_le_mono_r 10 (Z.of_nat width) 38 ltac:(lia) ltac:(lia)) as H38.
  assert (0 < 10 ^ Z.of_nat scale) as Hs by (apply Z.pow_pos_nonneg; lia). unfold in_range.
  remember (10 ^ Z.of_nat scale) as q eqn:Eq. remember (10 ^ Z.of_nat (width - scale)) as m eqn:Em. clear Eq Em.
  assert (Z.abs v * q < 10 ^ 38) by nia. assert (- (Z.abs v * q) <= v * q <= Z.abs v * q) by nia. lia.
Qed.

(** ** Theorems *)

(** the text of a number, spaces before it, an optional sign, at least one digit,
    and spaces or, unless the cast is strict, a fraction after them, is read as the
    integer that it denotes without the fraction, for every integer type, and
    refused exactly when that is outside the range of the type.  Not covered:
    texts with an exponent, whose powers of ten are floating point; and for
    unsigned types a minus sign is covered only if the text ends at the last digit
    (with anything else behind, [unsigned_negative_zero] shows that 0 is
    refused).  A text without digits is not the text of a number: a sign followed
    by a space is read as 0. *)
Theorem Integer_text (float_exponent : int_type → Z → Z → option Z) (T : int_type) (spaces : list Z) (neg plus : bool)
    (ds tail : list Z) (strict : bool) :
  integer_type T → Forall (λ c, is_space c) spaces → Forall is_digit ds → ds ≠ [] → number_tail strict tail →
  (neg = true → is_signed T = false → tail = []) →
  TryCast_integer float_exponent T (spaces ++ sign_text neg plus ++ ds ++ tail) strict = exact T (signed_value neg ds).
Proof. apply TryCast_integer_exact. Qed.

Lemma Integer_text_witness :
  TryCast_integer (λ _ _ _, None) int8_t (codes " -127.9") false = Some (-127) ∧
  TryCast_integer (λ _ _ _, None) uint8_t (codes "+256") true = None.
Proof.
  split.
  - refine (Integer_text (λ _ _ _, None) int8_t [32] true false (codes "127") (codes ".9") false _ _ _ _ _ _);
      [int_type_in|by repeat constructor|repeat constructor; done|done| |done].
    right. split; [done|]. exists [57]. split; [done|]. by repeat constructor.
  - refine (Integer_text (λ _ _ _, None) uint8_t [] false true (codes "256") [] true _ _ _ _ _ _);
      [int_type_in|constructor|repeat constructor; done|done|apply no_tail|done].
Defined.

(** C38: every signed integer of 8 to 64 bits that is not NULL reads back from its
    printed text, strict or not; the smallest value of a type, which stands for
    NULL, is printed but does not read back.  128-bit integers above -2^127 read
    back from their texts too. *)
Theorem Integer_text_roundtrip (float_exponent : int_type → Z → Z → option Z)
    (float_exponent_hugeint : hugeint_t → Z → option hugeint_t) (w : numeric_width) (v : Z) (h : hugeint_t) (z : Z)
    (strict : bool) :
  inS (bits w) v → represents h z → in_range z →
  (∃ text, FormatSigned w v = Ok text ∧
    TryCast_integer float_exponent (mkIntType true (bits w)) text strict = if v =? - 2 ^ (bits w - 1) then None else Some v) ∧
  (∃ text, Hugeint_FormatSigned h = Ok text ∧ TryCast_hugeint float_exponent float_exponent_hugeint text strict = Some h).
Proof.
  intros Hv Hh Hz. split.
  - destruct (FormatSigned_spec w v Hv) as (ds & Hf & Hd). eexists. split; [exact Hf|]. rewrite signed_text, TryCast_integer_exact;
      [|destruct w; int_type_in|constructor|apply Hd|by apply (decimal_nonempty _ _ Hd)|apply no_tail|done].
    rewrite signed_decimal by done. unfold exact, in_limits, inS in *. case_decide as Hl;
      destruct (Z.eqb_spec v (- 2 ^ (bits w - 1))); destruct w; limits; cbn [bits] in *; lia || done.
  - destruct (Hugeint_FormatSigned_spec h z Hh Hz) as (ds & Hf & Hd). eexists. split; [exact Hf|]. rewrite signed_text.
    destruct (TryCast_hugeint_exact float_exponent float_exponent_hugeint [] (z <? 0) false ds [] strict) as [Hok _];
      [constructor|apply Hd|by apply (decimal_nonempty _ _ Hd)| |apply no_tail|].
    { destruct Hd as [_ _ [[_ ?]|[? [Hc _]]]]; [lia|]. destruct (le_gt_dec (length ds) 255) as [|Hgt]; [done|].
      pose proof (Z.pow_le_mono_r 10 39 (Z.of_nat (length ds) - 1) ltac:(lia) ltac:(lia)). unfold in_range in Hz. lia. }
    rewrite signed_decimal in Hok by done. destruct (Hok Hz) as (h' & -> & Hh'). f_equal. destruct Hh as [? <-], Hh' as [? Hvv].
    by apply value_inj.
Qed.

Lemma Integer_text_roundtrip_witness :
  (∃ text, FormatSigned W32 (- 2 ^ 31) = Ok text ∧ TryCast_integer (λ _ _ _, None) int32_t text true = None) ∧
  (∃ text, Hugeint_FormatSigned (mkHugeint 5 (-1)) = Ok text ∧
    TryCast_hugeint (λ _ _ _, None) (λ _ _, None) text true = Some (mkHugeint 5 (-1))).
Proof.
  refine (Integer_text_roundtrip (λ _ _ _, None) (λ _ _, None) W32 (- 2 ^ 31) (mkHugeint 5 (-1)) (5 - 2 ^ 64) true _ _ _).
  - unfold inS. cbn [bits]. lia.
  - unfold represents, hugeint_ok, inU, inS, value. cbn. lia.
  - unfold in_range. lia.
Defined.

(** a text of up to 255 digits is read as a 128-bit integer exactly: the
    number that it denotes, or a failure when that is not strictly between
    -2^127 and 2^127. *)
Theorem Hugeint_text (float_exponent : int_type → Z → Z → option Z) (float_exponent_hugeint : hugeint_t → Z → option hugeint_t)
    (spaces : list Z) (neg plus : bool) (ds tail : list Z) (strict : bool) :
  Forall (λ c, is_space c) spaces → Forall is_digit ds → ds ≠ [] → (length ds <= 255)%nat → number_tail strict tail →
  let z := signed_value neg ds in
  let r := TryCast_hugeint float_exponent float_exponent_hugeint (spaces ++ sign_text neg plus ++ ds ++ tail) strict in
  (in_range z → ∃ h, r = Some h ∧ represents h z) ∧ (¬ in_range z → r = None).
Proof. apply TryCast_hugeint_exact. Qed.

Lemma Hugeint_text_witness :
  ∃ h, TryCast_hugeint (λ _ _ _, None) (λ _ _, None) (codes "-123456789012345678901234567890") false = Some h ∧
       value h = -123456789012345678901234567890.
Proof.
  pose proof (proj1 (Hugeint_text (λ _ _ _, None) (λ _ _, None) [] true false (codes "123456789012345678901234567890") [] false
    (List.Forall_nil _) ltac:(repeat constructor; done) ltac:(done) ltac:(cbn; lia) (no_tail false))) as H.
  destruct H as (h & Hh & _ & Hv); [split; vm_compute; reflexivity|]. exists h. split; [exact Hh|exact Hv].
Defined.

(** a text is read as a decimal of a width and a scale exactly: its digits
    beyond the scale are cut off, missing ones are zeros, and it is refused
    exactly when the part before the point needs more digits than the width
    leaves.  This holds for every physical type of decimals. *)
Theorem Decimal_text (T : int_type) (w s w' s' : Z) (spaces : list Z) (neg plus : bool) (ds tail : list Z) :
  decimal_type T → 0 <= s <= w → 10 ^ w <= decimal_max T + 1 → 0 <= s' <= w' → w' <= 38 →
  Forall (λ c, is_space c) spaces → Forall is_digit ds → ds ≠ [] → number_tail false tail →
  let text := spaces ++ sign_text neg plus ++ ds ++ tail in
  let failed := ConversionException "Could not convert string to DECIMAL" in
  @DecimalStringCast Z (integer_number T) text w s =
    (if decide (read ds 0 < 10 ^ (w - s)) then Ok (with_sign neg (scaled_value s ds (fraction tail))) else Throw failed) ∧
  (read ds 0 < 10 ^ (w' - s') → ∃ h, @DecimalStringCast hugeint_t hugeint_number text w' s' = Ok h ∧
    represents h (with_sign neg (scaled_value s' ds (fraction tail)))) ∧
  (10 ^ (w' - s') <= read ds 0 → @DecimalStringCast hugeint_t hugeint_number text w' s' = Throw failed).
Proof.
  intros HT Hs Hw Hs' Hw' Hsp Hds Hne Htail text failed. split.
  - assert (w <= 38) as Hw38.
    { destruct (Z.le_gt_cases w 38) as [|Hgt]; [done|]. pose proof (Z.pow_le_mono_r 10 38 w ltac:(lia) ltac:(lia)).
      pose proof (decimal_max_64 T HT). lia. }
    destruct (@DecimalStringCast_spec Z (integer_number T) (integer_laws T HT) w s Hs Hw38 Hw spaces neg plus ds tail Hsp Hds Hne Htail)
      as [Hok Hfail]. case_decide as H; [|apply Hfail; lia]. destruct (Hok H) as (n & Hr & ->). exact Hr.
  - exact (@DecimalStringCast_spec hugeint_t hugeint_number hugeint_laws w' s' Hs' Hw' (Z.pow_le_mono_r 10 w' 38 ltac:(lia) Hw')
      spaces neg plus ds tail Hsp Hds Hne Htail).
Qed.

Lemma Decimal_text_witness :
  @DecimalStringCast Z (integer_number int32_t) (codes " -0012.34567") 9 4 = Ok (-123456) ∧
  @DecimalStringCast Z (integer_number int32_t) (codes "123.3") 6 4 = Throw (ConversionException "Could not convert string to DECIMAL").
Proof.
  split.
  - refine (proj1 (Decimal_text int32_t 9 4 38 0 [32] true false (codes "0012") (codes ".34567") _ _ _ _ _ _ _ _ _));
      [unfold decimal_type; set_solver|lia|cbn; lia|lia|lia|by repeat constructor|repeat constructor; done|done|].
    right. split; [done|]. exists (codes "34567"). split; [done|]. repeat constructor; done.
  - refine (proj1 (Decimal_text int32_t 6 4 38 0 [] false false (codes "123") (codes ".3") _ _ _ _ _ _ _ _ _));
      [unfold decimal_type; set_solver|lia|cbn; lia|lia|lia|by repeat constructor|repeat constructor; done|done|].
    right. split; [done|]. exists (codes "3"). split; [done|]. repeat constructor; done.
Defined.

(** every decimal, of every physical type, reads back from its printed
    text. *)
Theorem Decimal_text_roundtrip (w : numeric_width) (v : Z) (h : hugeint_t) (z : Z) (width scale width' scale' : nat) :
  let T := mkIntType true (bits w) in
  decimal_type T → (scale <= width)%nat → 10 ^ Z.of_nat width <= decimal_max T + 1 → Z.abs v < 10 ^ Z.of_nat width →
  (scale' <= width' <= 38)%nat → represents h z → Z.abs z < 10 ^ Z.of_nat width' →
  (∃ text, DecimalToString_Format w v scale = Ok text ∧
    @DecimalStringCast Z (integer_number T) text (Z.of_nat width) (Z.of_nat scale) = Ok v) ∧
  (∃ text, Hugeint_FormatDecimal h scale' = Ok text ∧
    @DecimalStringCast hugeint_t hugeint_number text (Z.of_nat width') (Z.of_nat scale') = Ok h).
Proof.
  intros T HT Hsw Hw Hv Hsw' Hh Hz. pose proof (power_bound T width HT Hw) as Hk. pose proof (decimal_max_64 T HT) as H64.
  assert (decimal_max T < 2 ^ (bits w - 1) ∧ 2 ^ bits w = 2 * 2 ^ (bits w - 1)) as [Hb Hb2]
    by (unfold T, decimal_type in *; destruct w; [|cbn; lia..]; exfalso;
        repeat (apply elem_of_cons in HT as [HT|HT]; [discriminate HT|]); by apply elem_of_nil in HT).
  pose proof (Z.pow_le_mono_r 10 (Z.of_nat scale) (Z.of_nat width) ltac:(lia) ltac:(lia)) as Hps.
  pose proof (Z.pow_le_mono_r 10 (Z.of_nat width') 38 ltac:(lia) ltac:(lia)) as Hp38. split.
  - destruct (DecimalToString_spec w v scale) as (text & Hf & Htext); [unfold inS; lia|lia|lia|lia|].
    eexists. split; [exact Hf|].
    destruct (@printed_decimal Z (integer_number T) (integer_laws T HT) (v <? 0) (Z.abs v) scale width text) as (n & -> & ->);
      [lia|lia|exact Hw|done|]. f_equal. unfold with_sign. destruct (Z.ltb_spec v 0); lia.
  - destruct (Hugeint_FormatDecimal_spec h z scale' Hh) as (text & Hf & Htext); [unfold in_range; lia|lia|].
    eexists. split; [exact Hf|].
    destruct (@printed_decimal hugeint_t hugeint_number hugeint_laws (z <? 0) (Z.abs z) scale' width' text) as (n & -> & Hn);
      [lia|lia|exact Hp38|done|]. f_equal. apply value_inj; [apply Hn|apply Hh|]. rewrite (proj2 Hn), (proj2 Hh).
    unfold with_sign. destruct (Z.ltb_spec z 0); lia.
Qed.

Lemma Decimal_text_roundtrip_witness :
  (∃ text, DecimalToString_Format W16 (-5) 3 = Ok text ∧ @DecimalStringCast Z (integer_number int16_t) text 4 3 = Ok (-5)) ∧
  (∃ text, Hugeint_FormatDecimal (mkHugeint 12345 0) 30 = Ok text ∧
    @DecimalStringCast hugeint_t hugeint_number text 38 30 = Ok (mkHugeint 12345 0)).
Proof.
  refine (Decimal_text_roundtrip W16 (-5) (mkHugeint 12345 0) 12345 4 3 38 30 _ _ _ _ _ _ _).
  - unfold decimal_type. set_solver.
  - lia.
  - cbn. lia.
  - cbn. lia.
  - lia.
  - unfold represents, hugeint_ok, inU, inS, value. cbn. lia.
  - cbn. lia.
Defined.

(** the cast of an integer to a decimal multiplies it with the power of ten
    of the scale, and fails exactly when the integer needs more digits than the
    width leaves; the cast back truncates the fraction and fails exactly when
    the result is out of range.  So an integer survives both casts.  A 64-bit
    unsigned integer is covered up to 2^63 for decimals of up to 64 bits, and
    without restriction for those of 128 bits. *)
Theorem Decimal_integer_casts (SRC DST : int_type) (v u x : Z) (width scale width' scale' : nat) :
  integer_type SRC → decimal_type DST → in_limits SRC v → inS 64 v → (scale <= width)%nat →
  10 ^ Z.of_nat width <= decimal_max DST + 1 → Z.abs x <= decimal_max DST →
  inS 64 u ∨ inU 64 u → (scale' <= width' <= 38)%nat →
  let refused := OutOfRangeException "Could not cast value to DECIMAL" in
  StandardNumericToDecimalCast SRC DST v width scale =
    (if decide (Z.abs v < 10 ^ Z.of_nat (width - scale)) then Ok (v * 10 ^ Z.of_nat scale) else Throw refused) ∧
  CastDecimalToNumeric DST SRC x scale =
    (let r := Z.quot x (10 ^ Z.of_nat scale) in
     if decide (in_limits SRC r) then Ok r else Throw (ValueOutOfRangeException "Type value is out of range")) ∧
  (∀ d, StandardNumericToDecimalCast SRC DST v width scale = Ok d → CastDecimalToNumeric DST SRC d scale = Ok v) ∧
  (Z.abs u < 10 ^ Z.of_nat (width' - scale') →
    ∃ h, NumericToHugeDecimalCast u width' scale' = Ok h ∧ represents h (u * 10 ^ Z.of_nat scale')) ∧
  (10 ^ Z.of_nat (width' - scale') <= Z.abs u → NumericToHugeDecimalCast u width' scale' = Throw refused).
Proof.
  intros HS HD Hv H64 Hsw Hw Hx Hu Hsw' refused. pose proof (power_bound DST width HD Hw) as Hk.
  rewrite NumericToDecimal_spec by done. split; [done|]. split; [apply DecimalToNumeric_spec; done || lia|].
  split; [|by apply NumericToHugeDecimal_spec]. intros d. case_decide as Hd; [|done]. intros [= <-].
  assert (0 < 10 ^ Z.of_nat scale) as Hp by (apply Z.pow_pos_nonneg; lia). pose proof (split_power scale width Hsw) as Hsp.
  rewrite DecimalToNumeric_spec by (done || lia || nia). cbv zeta. by rewrite Z.quot_mul, decide_True by (done || lia).
Qed.

Lemma Decimal_integer_casts_witness :
  StandardNumericToDecimalCast int32_t int16_t 10 4 2 = Ok 1000 ∧ StandardNumericToDecimalCast int32_t int16_t 100 4 2 =
    Throw (OutOfRangeException "Could not cast value to DECIMAL") ∧ CastDecimalToNumeric int16_t int32_t (-199) 2 = Ok (-1).
Proof.
  pose proof (λ v (Hv : Z.abs v <= 1000), Decimal_integer_casts int32_t int16_t v 0 (-199) 4 2 38 0 ltac:(int_type_in)
    ltac:(unfold decimal_type; set_solver) ltac:(limits; lia) ltac:(unfold inS; lia) ltac:(lia) ltac:(cbn; lia) ltac:(cbn; lia)
    ltac:(left; unfold inS; lia) ltac:(lia)) as H.
  split; [exact (proj1 (H 10 ltac:(lia)))|]. split; [exact (proj1 (H 100 ltac:(lia)))|exact (proj1 (proj2 (H 10 ltac:(lia))))].
Defined.

(** ** What goes wrong *)

(** The counter of digits wraps around: 10^274 reads as 10^18. *)
Lemma Hugeint_text_wraps :
  TryCast_hugeint (λ _ _ _, None) (λ _ _, None) (49 :: replicate 274 48) false = Some (mkHugeint (10 ^ 18) 0).
Proof. vm_compute. reflexivity. Qed.

(** With an exponent, the failure of the last flush is ignored: the last digits
    of a number that does not fit are lost, instead of an error.  Here
    1701411834604692317316873037158841057280e-1 loses three digits. *)
Lemma Hugeint_exponent_loses_digits :
  value <$> TryCast_hugeint (λ _ _ _, None) (λ _ _, None) (codes "1701411834604692317316873037158841057280e-1") false =
    Some 1701411834604692317316873037158841057.
Proof. vm_compute. reflexivity. Qed.

(** A sign followed by a space reads as zero. *)
Lemma sign_and_space_is_zero :
  TryCast_integer (λ _ _ _, None) int32_t (codes "- ") true = Some 0 ∧
  TryCast_integer (λ _ _ _, None) int32_t (codes "-") true = None.
Proof. split; reflexivity. Qed.

(** After a minus sign, an unsigned type accepts zeros up to the end of the text,
    but no fraction, although the number is in range. *)
Lemma unsigned_negative_zero :
  TryCast_integer (λ _ _ _, None) uint8_t (codes "-0") false = Some 0 ∧
  TryCast_integer (λ _ _ _, None) uint8_t (codes "-0.0") false = None.
Proof. split; reflexivity. Qed.

(** The range test of the cast to a decimal is on the signed 64-bit number: the
    largest unsigned number becomes -1. *)
Lemma UnsignedToDecimal_wraps : StandardNumericToDecimalCast uint64_t int64_t (2 ^ 64 - 1) 18 3 = Ok (-1000).
Proof. reflexivity. Qed.
