(* ===== verification/Timestamp.v ===== *)
(** * Times and timestamps

    Models src/src/common/types/time.cpp, src/src/common/types/timestamp.cpp, the
    constants of src/src/include/guinsoodb/common/types/interval.hpp and
    [TimeToStringCast] of src/src/include/guinsoodb/common/types/cast_helpers.hpp.
    A time is a number of microseconds since midnight and a timestamp one since
    1970-01-01 00:00:00, both of 64 bits; texts and positions are as for dates.
    The clock is not modelled.

    Theorems: conversions to and from parts are inverse to each other, also for
    timestamps before 1970, and the texts of times and timestamps read back. *)

From S2P Require Import Prelude CastHelpers Date.

(** ** Constants *)

Definition MONTHS_PER_MILLENIUM : Z := 12000.
Definition MONTHS_PER_CENTURY : Z := 1200.
Definition MONTHS_PER_DECADE : Z := 120.
Definition MONTHS_PER_YEAR : Z := 12.
Definition MONTHS_PER_QUARTER : Z := 3.
Definition DAYS_PER_WEEK : Z := 7.
Definition DAYS_PER_MONTH : Z := 30.
Definition MSECS_PER_SEC : Z := 1000.
Definition SECS_PER_MINUTE : Z := 60.
Definition MINS_PER_HOUR : Z := 60.
Definition HOURS_PER_DAY : Z := 24.
Definition MICROS_PER_MSEC : Z := 1000.
Definition MICROS_PER_SEC : Z := 1000000.
Definition MICROS_PER_MINUTE : Z := 60000000.
Definition MICROS_PER_HOUR : Z := 3600000000.
Definition MICROS_PER_DAY : Z := 86400000000.
Definition MICROS_PER_MONTH : Z := 2592000000000.

(** ** Times *)

Definition FromTime (hour minute second microseconds : Z) : Z :=
  let result := hour in
  let result := s64 (result * MINS_PER_HOUR + minute) in
  let result := s64 (result * SECS_PER_MINUTE + second) in
  s64 (result * MICROS_PER_SEC + microseconds).

Definition IsValidTime (hour minute second microseconds : Z) : bool :=
  if (hour <? 0) || (24 <=? hour) then false
  else if (minute <? 0) || (60 <=? minute) then false
  else if (second <? 0) || (60 <? second) then false
  else if (microseconds <? 0) || (1000000 <? microseconds) then false
  else true.

Definition Time_Convert (time : Z) : Z * Z * Z * Z :=
  let hour := wrapS 32 (Z.quot time MICROS_PER_HOUR) in
  let time := time - hour * MICROS_PER_HOUR in
  let min := wrapS 32 (Z.quot time MICROS_PER_MINUTE) in
  let time := time - min * MICROS_PER_MINUTE in
  let sec := wrapS 32 (Z.quot time MICROS_PER_SEC) in
  let time := time - sec * MICROS_PER_SEC in
  (hour, min, sec, wrapS 32 time).

(** The digits after the point; those after the sixth are skipped. *)
Fixpoint parse_micros (buf : list Z) (mult micros : Z) : Z * list Z :=
  match buf with
  | c :: rest =>
      if CharacterIsDigit c
      then parse_micros rest (Z.quot mult 10) (if 0 <? mult then micros + (c - 48) * mult else micros)
      else (micros, buf)
  | [] => (micros, [])
  end.

(** [None] stands for false.  The character after the seconds is skipped even if
    it is not a point. *)
Definition TryConvertTime (buf : list Z) (strict : bool) : option (Z * list Z) :=
  match skip_spaces buf with
  | [] => None
  | c :: rest =>
      if negb (CharacterIsDigit c) then None
      else
        '(hour, rest) ← ParseDoubleDigit (c :: rest);
        if (hour <? 0) || (24 <=? hour) then None
        else
          match rest with
          | [] => None
          | sep :: rest =>
              if negb (sep =? 58) then None
              else
                '(min, rest) ← ParseDoubleDigit rest;
                if (min <? 0) || (60 <=? min) then None
                else
                  match rest with
                  | [] => None
                  | sep' :: rest =>
                      if negb (sep' =? sep) then None
                      else
                        '(sec, rest) ← ParseDoubleDigit rest;
                        if (sec <? 0) || (60 <? sec) then None
                        else
                          let '(micros, rest) :=
                            match rest with
                            | [] => (0, [])
                            | c :: rest => if c =? 46 then parse_micros rest 100000 0 else (0, rest)
                            end in
                          let rest := if strict then skip_spaces rest else rest in
                          if strict && negb (bool_decide (rest = [])) then None
                          else Some (FromTime hour min sec micros, rest)
                  end
          end
  end.

(** [for (i = 5; i > 0; i--) { if (micro_buffer[i] != '0') break; trailing_zeros++; }] *)
Fixpoint count_zeros (l : list Z) : nat :=
  match l with
  | c :: l => if c =? 48 then S (count_zeros l) else O
  | [] => O
  end.

(** The buffer of six digits and the number of trailing zeros. *)
Definition FormatMicros (microseconds : Z) : res (list Z * nat) :=
  micro_buffer ← in_buffer 6 (pad_zeros 6 (FormatUnsigned (wrapU 32 microseconds) []));
  Ok (micro_buffer, count_zeros (reverse (drop 1 micro_buffer))).

(** [TimeToStringCast::Length] and [Format]. *)
Definition TimeToStringCast (hour min sec micros : Z) : res (list Z) :=
  let text := FormatTwoDigits hour ++ 58 :: FormatTwoDigits min ++ 58 :: FormatTwoDigits sec in
  if micros =? 0 then in_buffer 8 text
  else
    '(micro_buffer, trailing_zeros) ← FormatMicros micros;
    let len := (15 - trailing_zeros)%nat in
    in_buffer (Z.of_nat len) (text ++ (if (8 <? len)%nat then 46 :: take (len - 9) micro_buffer else [])).

Definition Time_ToString (time : Z) : res (list Z) :=
  let '(hour, min, sec, micros) := Time_Convert time in
  TimeToStringCast hour min sec micros.

(** ** Timestamps *)

(** The product of the code wraps around here for dates after the year 294246;
    in C++ it is undefined. *)
Definition FromDatetime (date time : Z) : Z := s64 (date * MICROS_PER_DAY + time).

Definition Timestamp_GetDate (timestamp : Z) : Z :=
  wrapS 32 (Z.quot (timestamp + Z.b2z (timestamp <? 0)) MICROS_PER_DAY - Z.b2z (timestamp <? 0)).

Definition Timestamp_GetTime (timestamp : Z) : Z :=
  let date := Timestamp_GetDate timestamp in
  s64 (timestamp - s64 (date * MICROS_PER_DAY)).

Definition Timestamp_Convert (timestamp : Z) : Z * Z :=
  let out_date := Timestamp_GetDate timestamp in
  (out_date, s64 (timestamp - s64 (out_date * MICROS_PER_DAY))).

Definition timestamp_error : exception :=
  ConversionException "timestamp field value out of range, expected format is (YYYY-MM-DD HH:MM:SS[.MS])".

Definition Timestamp_FromCString (str : list Z) : res Z :=
  result ← TryConvertDate str false;
  match result with
  | None => Throw timestamp_error
  | Some (date, []) => Ok (FromDatetime date 0)
  | Some (date, c :: rest) =>
      let rest := if (c =? 32) || (c =? 84) then rest else c :: rest in
      match TryConvertTime rest false with
      | None => Throw timestamp_error
      | Some (time, []) => Ok (FromDatetime date time)
      | Some (time, c :: rest) =>
          match skip_spaces (if c =? 90 then rest else c :: rest) with
          | [] => Ok (FromDatetime date time)
          | _ => Throw timestamp_error
          end
      end
  end.

Definition Timestamp_ToString (timestamp : Z) : res (list Z) :=
  let '(date, time) := Timestamp_Convert timestamp in
  date_text ← Date_ToString date;
  time_text ← Time_ToString time;
  Ok (date_text ++ 32 :: time_text).

(** A text that is not a time may be a timestamp. *)
Definition Time_FromCString (buf : list Z) (strict : bool) : res Z :=
  match TryConvertTime buf strict with
  | Some (time, _) => Ok time
  | None =>
      if strict then Throw (ConversionException "time field value out of range, expected format is ([YYY-MM-DD ]HH:MM:SS[.MS])")
      else timestamp ← Timestamp_FromCString buf; Ok (Timestamp_GetTime timestamp)
  end.

Definition FromEpochSeconds (sec : Z) : Z := s64 (sec * MICROS_PER_SEC).
Definition FromEpochMs (ms : Z) : Z := s64 (ms * MICROS_PER_MSEC).
Definition FromEpochNanoSeconds (ns : Z) : Z := Z.quot ns 1000.
Definition GetEpochSeconds (timestamp : Z) : Z := Z.quot timestamp MICROS_PER_SEC.
Definition GetEpochMs (timestamp : Z) : Z := Z.quot timestamp MICROS_PER_MSEC.
Definition GetEpochNanoSeconds (timestamp : Z) : Z := s64 (timestamp * 1000).

#[local] Ltac Zify.zify_post_hook ::= Z.to_euclidean_division_equations.

(** ** Times *)

(** A time of day. *)
Definition time_ok (time : Z) : Prop := 0 <= time < MICROS_PER_DAY.

Lemma FromTime_eq h m s u :
  0 <= h < 24 → 0 <= m < 60 → 0 <= s < 60 → 0 <= u < 1000000 →
  FromTime h m s u = ((h * 60 + m) * 60 + s) * 1000000 + u.
Proof.
  intros. unfold FromTime, MINS_PER_HOUR, SECS_PER_MINUTE, MICROS_PER_SEC.
  rewrite (wrapS_small 64 (h * 60 + m)) by (unfold inS; lia).
  rewrite (wrapS_small 64 ((h * 60 + m) * 60 + s)) by (unfold inS; lia).
  by rewrite wrapS_small by (unfold inS; lia).
Qed.

Lemma Time_Convert_spec time :
  time_ok time →
  ∃ hour min sec micros, Time_Convert time = (hour, min, sec, micros) ∧
    0 <= hour < 24 ∧ 0 <= min < 60 ∧ 0 <= sec < 60 ∧ 0 <= micros < 1000000 ∧
    FromTime hour min sec micros = time.
Proof.
  unfold time_ok, MICROS_PER_DAY. intros Ht. unfold Time_Convert, MICROS_PER_HOUR, MICROS_PER_MINUTE, MICROS_PER_SEC.
  assert (∀ x y, 0 <= x → 0 < y → x / y < 2 ^ 31 → wrapS 32 (Z.quot x y) = x / y) as Hq.
  { intros x y Hx Hy Hlt. rewrite Z.quot_div_nonneg by lia. apply wrapS_small; [lia|]. unfold inS.
    pose proof (Z.div_pos x y). lia. }
  rewrite (Hq time) by lia. set (hour := time / 3600000000). set (t1 := time - hour * 3600000000).
  assert (0 <= hour < 24 ∧ 0 <= t1 < 3600000000) as [Hh Ht1] by (unfold t1, hour; lia).
  rewrite (Hq t1) by lia. set (min := t1 / 60000000). set (t2 := t1 - min * 60000000).
  assert (0 <= min < 60 ∧ 0 <= t2 < 60000000) as [Hm Ht2] by (unfold t2, min; lia).
  rewrite (Hq t2) by lia. set (sec := t2 / 1000000). set (t3 := t2 - sec * 1000000).
  assert (0 <= sec < 60 ∧ 0 <= t3 < 1000000) as [Hs Ht3] by (unfold t3, sec; lia).
  rewrite wrapS_small by (unfold inS; lia). exists hour, min, sec, t3. split; [done|]. split; [lia|]. split; [lia|].
  split; [lia|]. split; [lia|]. rewrite FromTime_eq by lia. unfold t3, t2, t1. lia.
Qed.

Lemma count_zeros_spec l : ∃ l', l = replicate (count_zeros l) 48 ++ l'.
Proof.
  induction l as [|c l IH]; [by exists []|]. cbn [count_zeros]. destruct (Z.eqb_spec c 48) as [->|_]; [|by exists (c :: l)].
  destruct IH as [l' Hl]. exists l'. cbn [replicate app]. by rewrite <-Hl.
Qed.

(** The digits that are printed, and the zeros that are not. *)
Lemma FormatMicros_spec micros :
  0 <= micros < 1000000 →
  ∃ micro_buffer tz, FormatMicros micros = Ok (micro_buffer, tz) ∧ (tz <= 5)%nat ∧ length micro_buffer = 6%nat ∧
    Forall is_digit (take (6 - tz) micro_buffer) ∧ length (take (6 - tz) micro_buffer) = (6 - tz)%nat ∧
    read (take (6 - tz) micro_buffer) 0 * 10 ^ Z.of_nat tz = micros.
Proof.
  intros Hm. unfold FormatMicros. rewrite wrapU_small by (unfold inU; lia).
  destruct (FormatUnsigned_spec micros []) as (ds & -> & Hds); [unfold inU; lia|]. rewrite app_nil_r.
  destruct (padded micros ds 6 Hds) as (Hd & Hl & Hr); [change (10 ^ Z.of_nat 6) with 1000000; lia|lia|]. unfold pad_zeros.
  set (mb := replicate (6 - length ds) 48 ++ ds) in *. rewrite in_buffer_ok by lia. cbn [mbind res_bind].
  destruct mb as [|c mb]; [done|]. cbn [drop]. destruct (count_zeros_spec (reverse mb)) as [l' Hl'].
  set (tz := count_zeros (reverse mb)) in *. apply (f_equal reverse) in Hl'. rewrite reverse_involutive, reverse_app, reverse_replicate in Hl'.
  exists (c :: mb), tz. split; [done|]. assert (length mb = 5%nat) as H5 by (cbn in Hl; lia).
  assert (length (reverse l') + tz = 5)%nat as H5'.
  { rewrite Hl', length_app, length_replicate in H5. done. }
  split; [lia|]. split; [done|].
  assert (take (6 - tz) (c :: mb) = c :: reverse l') as Htake.
  { replace (6 - tz)%nat with (S (5 - tz)) by lia. cbn [firstn take]. f_equal. rewrite Hl'.
    rewrite take_app_le by lia. apply take_ge. lia. }
  rewrite Htake. split; [|split].
  - rewrite Hl' in Hd. rewrite app_comm_cons in Hd. by apply Forall_app in Hd as [? _].
  - cbn [length]. lia.
  - rewrite Hl', app_comm_cons, read_app, read_zeros in Hr. done.
Qed.

(** A text that does not continue a time. *)
Definition ends_time (rest : list Z) : Prop :=
  match rest with [] => True | c :: _ => CharacterIsDigit c = false ∧ c ≠ 46 end.

Lemma parse_micros_read ds rest : ∀ (k : nat) acc,
  ends_time rest → Forall is_digit ds → (length ds <= S k)%nat →
  parse_micros (ds ++ rest) (10 ^ Z.of_nat k) acc = (acc + read ds 0 * 10 ^ Z.of_nat (S k - length ds), rest).
Proof.
  induction ds as [|c ds IH]; intros k acc Hrest Hds Hlen; cbn [parse_micros app].
  - change (read [] 0) with 0. rewrite Z.mul_0_l, Z.add_0_r. destruct rest as [|c rest]; [done|].
    destruct Hrest as [Hc _]. cbn [parse_micros]. by rewrite Hc.
  - apply Forall_cons in Hds as [Hc Hds]. rewrite CharacterIsDigit_true by done.
    assert (0 < 10 ^ Z.of_nat k) as Hp by (apply Z.pow_pos_nonneg; lia). destruct (Z.ltb_spec 0 (10 ^ Z.of_nat k)); [|lia].
    cbn [read foldl]. fold (read ds (10 * 0 + (c - 48))). rewrite (read_acc ds). cbn [length] in Hlen |- *.
    replace (S k - S (length ds))%nat with (k - length ds)%nat by lia.
    rewrite Z.mul_add_distr_r, <-Z.mul_assoc, <-Z.pow_add_r by lia.
    replace (Z.of_nat (length ds) + Z.of_nat (k - length ds)) with (Z.of_nat k) by lia.
    destruct k as [|k].
    + destruct ds as [|? ?]; [|cbn in Hlen; lia]. change (Z.quot (10 ^ Z.of_nat 0) 10) with 0.
      destruct rest as [|c' rest]; cbn [app parse_micros read foldl]; [f_equal; lia|].
      destruct Hrest as [-> _]. f_equal. lia.
    + rewrite Nat2Z.inj_succ, Z.pow_succ_r by lia. rewrite (Z.mul_comm 10), Z.quot_mul by lia.
      rewrite IH by (done || lia). f_equal. lia.
Qed.

Lemma TimeToStringCast_spec h m s u :
  0 <= h < 24 → 0 <= m < 60 → 0 <= s < 60 → 0 <= u < 1000000 →
  ∃ tail, TimeToStringCast h m s u = Ok (FormatTwoDigits h ++ 58 :: FormatTwoDigits m ++ 58 :: FormatTwoDigits s ++ tail) ∧
    ∀ rest, ends_time rest → ∃ rest',
      match tail ++ rest with [] => (0, []) | c :: rest => if c =? 46 then parse_micros rest 100000 0 else (0, rest) end = (u, rest') ∧
      (rest = [] → rest' = []).
Proof.
  intros Hh Hm Hs Hu. unfold TimeToStringCast. cbn zeta. destruct (Z.eqb_spec u 0) as [->|Hne].
  - exists []. rewrite app_nil_r. split; [apply in_buffer_ok; by rewrite !FormatTwoDigits_spec by lia|].
    intros [|c rest] Hrest; [by exists []|]. destruct Hrest as [_ Hc]. cbn [app]. rewrite (proj2 (Z.eqb_neq c 46)) by done.
    exists rest. by split.
  - destruct (FormatMicros_spec u Hu) as (mb & tz & -> & Htz & Hl6 & Hd & Hl & Hr). cbn [mbind res_bind].
    replace (8 <? 15 - tz)%nat with true by (symmetry; apply Nat.ltb_lt; lia).
    replace (15 - tz - 9)%nat with (6 - tz)%nat by lia.
    exists (46 :: take (6 - tz) mb). split.
    + rewrite !FormatTwoDigits_spec by lia. rewrite in_buffer_ok; [done|]. cbn [app length]. rewrite Hl. lia.
    + intros rest Hrest. exists rest. split; [|done]. cbn [app]. rewrite Z.eqb_refl. change 100000 with (10 ^ Z.of_nat 5).
      rewrite parse_micros_read by (done || lia). f_equal. rewrite Hl. replace (6 - (6 - tz))%nat with tz by lia. lia.
Qed.

(** Hours, minutes, seconds and microseconds as they are printed read back, also
    in front of a text that does not continue them. *)
Lemma TryConvertTime_text h m s tail u rest rest' (strict : bool) :
  0 <= h < 24 → 0 <= m < 60 → 0 <= s < 60 →
  match tail ++ rest with [] => (0, []) | c :: rest => if c =? 46 then parse_micros rest 100000 0 else (0, rest) end = (u, rest') →
  (strict = true → rest' = []) →
  TryConvertTime (FormatTwoDigits h ++ 58 :: FormatTwoDigits m ++ 58 :: FormatTwoDigits s ++ tail ++ rest) strict =
    Some (FromTime h m s u, rest').
Proof.
  intros Hh Hm Hs Htail Hstrict. unfold TryConvertTime.
  rewrite (FormatTwoDigits_spec h) by lia. cbn [app]. rewrite skip_spaces_digit by (unfold is_digit; lia).
  rewrite CharacterIsDigit_true by (unfold is_digit; lia). cbn [negb].
  change (48 + h / 10 :: 48 + h mod 10 :: 58 :: ?t) with ([48 + h / 10; 48 + h mod 10] ++ 58 :: t).
  rewrite <-(FormatTwoDigits_spec h), ParseDoubleDigit_two by lia. cbn [mbind option_bind].
  destruct (Z.ltb_spec h 0); [lia|]. destruct (Z.leb_spec 24 h); [lia|]. cbn [orb]. rewrite Z.eqb_refl. cbn [negb].
  rewrite ParseDoubleDigit_two by lia. cbn [mbind option_bind].
  destruct (Z.ltb_spec m 0); [lia|]. destruct (Z.leb_spec 60 m); [lia|]. cbn [orb]. rewrite Z.eqb_refl. cbn [negb].
  rewrite ParseDoubleDigit_two by lia. cbn [mbind option_bind].
  destruct (Z.ltb_spec s 0); [lia|]. destruct (Z.ltb_spec 60 s); [lia|]. cbn [orb]. rewrite Htail.
  destruct strict; [|done]. by rewrite Hstrict.
Qed.

Lemma Time_ToString_spec time :
  time_ok time →
  ∃ c text, Time_ToString time = Ok (c :: text) ∧ is_digit c ∧
    ∀ strict, TryConvertTime (c :: text) strict = Some (time, []).
Proof.
  intros Ht. destruct (Time_Convert_spec time Ht) as (h & m & s & u & Hc & Hh & Hm & Hs & Hu & <-).
  unfold Time_ToString. rewrite Hc. clear Hc Ht. destruct (TimeToStringCast_spec h m s u Hh Hm Hs Hu) as (tail & -> & Htail).
  destruct (Htail [] I) as (rest' & Hr & He). rewrite (He eq_refl) in Hr.
  rewrite (FormatTwoDigits_spec h) by lia. cbn [app]. eexists _, _. split; [done|]. split; [unfold is_digit; lia|].
  intros strict. pose proof (TryConvertTime_text h m s tail u [] [] strict Hh Hm Hs Hr (λ _, eq_refl)) as H.
  rewrite app_nil_r, (FormatTwoDigits_spec h) in H by lia. exact H.
Qed.

(** ** Timestamps *)

(** A product that wraps around in a difference that does not. *)
Lemma wrapS_sub w a b : 0 < w → wrapS w (a - wrapS w b) = wrapS w (a - b).
Proof.
  intros Hw. unfold wrapS. f_equal.
  replace (a - ((b + 2 ^ (w - 1)) mod 2 ^ w - 2 ^ (w - 1)) + 2 ^ (w - 1))
    with (a + 2 ^ (w - 1) + 2 ^ (w - 1) - (b + 2 ^ (w - 1)) mod 2 ^ w) by lia.
  rewrite Zminus_mod_idemp_r. f_equal. lia.
Qed.

Lemma Timestamp_Convert_spec ts :
  inS 64 ts → Timestamp_Convert ts = (ts / MICROS_PER_DAY, ts mod MICROS_PER_DAY).
Proof.
  unfold inS. intros Hts. unfold Timestamp_Convert, Timestamp_GetDate.
  assert (Z.quot (ts + Z.b2z (ts <? 0)) MICROS_PER_DAY - Z.b2z (ts <? 0) = ts / MICROS_PER_DAY) as ->.
  { unfold MICROS_PER_DAY. destruct (Z.ltb_spec ts 0); cbn [Z.b2z]; lia. }
  unfold MICROS_PER_DAY. rewrite (wrapS_small 32) by (unfold inS; lia). f_equal.
  rewrite wrapS_sub by lia. rewrite wrapS_small by (unfold inS; lia). lia.
Qed.

Lemma Timestamp_text ts :
  inS 64 ts → MIN_YEAR <= (Date_Convert (ts / MICROS_PER_DAY)).1.1 <= MAX_YEAR →
  ∃ text, Timestamp_ToString ts = Ok text ∧ Timestamp_FromCString text = Ok ts.
Proof.
  intros Hts Hy. unfold Timestamp_ToString. rewrite Timestamp_Convert_spec by done.
  destruct (Date_Convert_spec (ts / MICROS_PER_DAY)) as [Hc Hn]. destruct (Date_Convert (ts / MICROS_PER_DAY)) as [[y m] d]. cbn [fst snd] in Hy.
  destruct (Date_ToString_spec y m d Hy Hc) as (c & dt & Hds & Hdig & Hrd). rewrite Hn in Hds. rewrite Hds. cbn [mbind res_bind].
  destruct (Time_ToString_spec (ts mod MICROS_PER_DAY)) as (c' & tt & -> & Hc' & Htime); [unfold time_ok, MICROS_PER_DAY; lia|].
  eexists. split; [done|]. unfold Timestamp_FromCString.
  pose proof (TryConvertDate_text y m d c dt false (32 :: c' :: tt) Hy Hc Hdig Hrd) as H.
  replace ((c :: dt ++ 45 :: FormatTwoDigits m ++ 45 :: FormatTwoDigits d ++ (if y <=? 0 then codes " (BC)" else [])) ++ 32 :: c' :: tt)
    with (c :: dt ++ 45 :: FormatTwoDigits m ++ 45 :: FormatTwoDigits d ++ (if y <=? 0 then codes " (BC)" else []) ++ 32 :: c' :: tt).
  2: { cbn [app]. f_equal. rewrite <-app_assoc. cbn [app]. do 2 f_equal. rewrite <-app_assoc. cbn [app]. do 2 f_equal. by rewrite <-app_assoc. }
  rewrite H; [|apply parse_bc_suffix; [lia|]|done].
  - rewrite Hn. cbn [mbind res_bind]. change ((32 =? 32) || (32 =? 84)) with true. cbn iota. rewrite Htime.
    f_equal. unfold FromDatetime. rewrite wrapS_small; [unfold MICROS_PER_DAY; lia|lia|]. unfold inS, MICROS_PER_DAY in *. lia.
  - destruct (Z.leb_spec y 0); [by left|right]. unfold is_digit in Hc'. repeat case_match; done || lia.
Qed.

(** ** Theorems *)

(** a time of day converts to valid hours, minutes, seconds and microseconds
    and back, every such combination converts to a time of day and back, and the
    text of a time, with its trailing zeros removed, reads back as the time,
    strictly or not. *)
Theorem Time_roundtrip :
  (∀ time, time_ok time →
     (let '(hour, min, sec, micros) := Time_Convert time in
      IsValidTime hour min sec micros = true ∧ FromTime hour min sec micros = time) ∧
     ∃ text, Time_ToString time = Ok text ∧ ∀ strict, TryConvertTime text strict = Some (time, [])) ∧
  (∀ hour min sec micros, 0 <= hour < 24 → 0 <= min < 60 → 0 <= sec < 60 → 0 <= micros < 1000000 →
     time_ok (FromTime hour min sec micros) ∧ Time_Convert (FromTime hour min sec micros) = (hour, min, sec, micros)).
Proof.
  split.
  - intros time Ht. split.
    + destruct (Time_Convert_spec time Ht) as (h & m & s & u & -> & Hh & Hm & Hs & Hu & Heq). split; [|done].
      unfold IsValidTime. bools; lia || done.
    + destruct (Time_ToString_spec time Ht) as (c & text & -> & _ & H). by exists (c :: text).
  - intros h m s u Hh Hm Hs Hu.
    assert (time_ok (FromTime h m s u)) as Ht by (rewrite FromTime_eq by done; unfold time_ok, MICROS_PER_DAY; lia). split; [done|].
    destruct (Time_Convert_spec _ Ht) as (h' & m' & s' & u' & -> & ? & ? & ? & ? & Heq). rewrite !FromTime_eq in Heq by done.
    assert (u' = u ∧ s' = s ∧ m' = m ∧ h' = h) as (-> & -> & -> & ->) by lia. done.
Qed.

Lemma Time_roundtrip_witness :
  Time_Convert (FromTime 23 59 59 500000) = (23, 59, 59, 500000) ∧
  ∃ text, Time_ToString 86399500000 = Ok text ∧ TryConvertTime text true = Some (86399500000, []).
Proof.
  split; [apply (proj2 Time_roundtrip); lia|].
  destruct (proj2 (proj1 Time_roundtrip 86399500000 ltac:(unfold time_ok, MICROS_PER_DAY; lia))) as (text & H & Ht).
  exists text. split; [exact H|apply Ht].
Defined.

(** a timestamp is a date, rounded down also before 1970, and a time of day,
    and is put together from them; its text reads back as the timestamp, for
    every timestamp whose date is in the range of dates. *)
Theorem Timestamp_roundtrip ts :
  inS 64 ts →
  let '(date, time) := Timestamp_Convert ts in
  date * MICROS_PER_DAY <= ts < (date + 1) * MICROS_PER_DAY ∧ time_ok time ∧ FromDatetime date time = ts ∧
  Timestamp_GetDate ts = date ∧ Timestamp_GetTime ts = time ∧
  (MIN_YEAR <= (Date_Convert date).1.1 <= MAX_YEAR →
   ∃ text, Timestamp_ToString ts = Ok text ∧ Timestamp_FromCString text = Ok ts).
Proof.
  intros Hts. pose proof (Timestamp_Convert_spec ts Hts) as Hc. pose proof (Timestamp_text ts Hts) as Htext.
  assert (Timestamp_GetDate ts = ts / MICROS_PER_DAY ∧ Timestamp_GetTime ts = ts mod MICROS_PER_DAY) as [Hd Ht].
  { unfold Timestamp_Convert in Hc. injection Hc as Hd Ht. split; [done|]. unfold Timestamp_GetTime. done. }
  rewrite Hc. unfold time_ok. split; [unfold MICROS_PER_DAY; lia|]. split; [unfold MICROS_PER_DAY; lia|]. split; [|done].
  unfold FromDatetime. rewrite wrapS_small; [unfold MICROS_PER_DAY; lia|lia|]. unfold inS, MICROS_PER_DAY in *. lia.
Qed.

Lemma Timestamp_roundtrip_witness :
  Timestamp_Convert (-1) = (-1, 86399999999) ∧
  ∃ text, Timestamp_ToString (-1) = Ok text ∧ Timestamp_FromCString text = Ok (-1).
Proof.
  split; [vm_compute; reflexivity|].
  refine (proj2 (proj2 (proj2 (proj2 (proj2 (Timestamp_roundtrip (-1) _))))) _); [unfold inS; lia|].
  vm_compute. split; discriminate.
Defined.

(** A strict conversion accepts any one character after the seconds. *)
Lemma TryConvertTime_strict_trailing : TryConvertTime (codes "12:00:00x") true = Some (43200000000, []).
Proof. vm_compute. reflexivity. Qed.

(** The last dates are valid but their timestamps overflow 64 bits. *)
Lemma FromDatetime_overflow :
  Date_FromCString (codes "294247-12-31") true = Ok 106752346 ∧
  Timestamp_FromCString (codes "294247-12-31") = Ok (-9223341379309551616).
Proof. split; vm_compute; reflexivity. Qed.
