(* ===== verification/Interval.v ===== *)
(** * Intervals, and arithmetic of dates and times

    Models src/src/common/types/interval.cpp, [IntervalToStringCast] of
    src/src/include/guinsoodb/common/types/cast_helpers.hpp, [GetDatePartSpecifier]
    of src/src/function/scalar/date/date_part.cpp and the operators on dates,
    times, timestamps and intervals of add.cpp, subtract.cpp and multiply.cpp in
    src/src/function/scalar/operators/.  The labels of the parser are functions; a
    position is the text that follows it.  The parser hands the length of the
    whole text to the parser of times, which then reads behind the end: the
    memory behind the text is a parameter.

    Theorems: the parser ends; a printed interval fits its buffer, and reads back
    when its time is a time of day; the operators on times and dates compute what
    they stand for; the comparison is a strict order on normalised intervals. *)

From S2P Require Import Prelude Hugeint CastHelpers Date Timestamp Arithmetic StringCast.

Record interval_t : Set := mkInterval { months : Z; days : Z; micros : Z }.

#[export] Instance interval_eq_dec : EqDecision interval_t.
Proof. solve_decision. Defined.

(** ** Units *)

Inductive DatePartSpecifier : Set :=
| YEAR | MONTH | DAY | DECADE | CENTURY | MILLENNIUM | MICROSECONDS | MILLISECONDS | SECOND | MINUTE | HOUR
| EPOCH | DOW | ISODOW | WEEK | QUARTER | DOY.

(** The names of each specifier, in the order of the tests. *)
Definition specifier_names : list (list string * DatePartSpecifier) := [
  (["year"; "y"; "years"], YEAR);
  (["month"; "mon"; "months"; "mons"], MONTH);
  (["day"; "days"; "d"], DAY);
  (["decade"; "decades"], DECADE);
  (["century"; "centuries"], CENTURY);
  (["millennium"; "millenia"], MILLENNIUM);
  (["microseconds"; "microsecond"], MICROSECONDS);
  (["milliseconds"; "millisecond"; "ms"; "msec"; "msecs"], MILLISECONDS);
  (["second"; "seconds"; "s"], SECOND);
  (["minute"; "minutes"; "m"], MINUTE);
  (["hour"; "hours"; "h"], HOUR);
  (["epoch"], EPOCH);
  (["dow"], DOW);
  (["isodow"], ISODOW);
  (["week"; "weeks"; "w"], WEEK);
  (["doy"], DOY);
  (["quarter"], QUARTER)]%string.

Definition GetDatePartSpecifier (specifier : list Z) : res DatePartSpecifier :=
  let specifier := map tolower specifier in
  match find (λ entry, existsb (λ name, bool_decide (codes name = specifier)) entry.1) specifier_names with
  | Some (_, part) => Ok part
  | None => Throw (ConversionException "extract specifier not recognized")
  end.

(** ** Parsing *)

Definition IntervalTryAddition (T : int_type) (target input multiplier : Z) : res Z :=
  match TryMultiply true int64_t input multiplier with
  | None => Throw (OutOfRangeException "interval value is out of range")
  | Some addition =>
      addition_base ← Cast_Operation int64_t T addition;
      match TryAdd true T target addition_base with
      | None => Throw (OutOfRangeException "interval value is out of range")
      | Some r => Ok r
      end
  end.

(** The switch over the specifiers; [None] stands for [return false]. *)
Definition add_specifier (specifier : DatePartSpecifier) (r : interval_t) (number : Z) : res (option interval_t) :=
  let add_months multiplier :=
    m ← IntervalTryAddition int32_t (months r) number multiplier; Ok (Some (mkInterval m (days r) (micros r))) in
  let add_days multiplier :=
    d ← IntervalTryAddition int32_t (days r) number multiplier; Ok (Some (mkInterval (months r) d (micros r))) in
  let add_micros multiplier :=
    u ← IntervalTryAddition int64_t (micros r) number multiplier; Ok (Some (mkInterval (months r) (days r) u)) in
  match specifier with
  | MILLENNIUM => add_months MONTHS_PER_MILLENIUM
  | CENTURY => add_months MONTHS_PER_CENTURY
  | DECADE => add_months MONTHS_PER_DECADE
  | YEAR => add_months MONTHS_PER_YEAR
  | QUARTER => add_months MONTHS_PER_QUARTER
  | MONTH => add_months 1
  | DAY => add_days 1
  | WEEK => add_days DAYS_PER_WEEK
  | MICROSECONDS => add_micros 1
  | MILLISECONDS => add_micros MICROS_PER_MSEC
  | SECOND => add_micros MICROS_PER_SEC
  | MINUTE => add_micros MICROS_PER_MINUTE
  | HOUR => add_micros MICROS_PER_HOUR
  | _ => Ok None
  end.

Definition is_blank (c : Z) : bool := (c =? 32) || (c =? 9) || (c =? 10).

Definition is_letter (c : Z) : bool := ((97 <=? c) && (c <=? 122)) || ((65 <=? c) && (c <=? 90)).

(** [for (; pos < len; pos++)] while the character is of a kind: the characters
    passed, and the position after them. *)
Fixpoint span (kind : Z → bool) (str : list Z) : list Z * list Z :=
  match str with
  | c :: rest => if kind c then let '(passed, rest) := span kind rest in (c :: passed, rest) else ([], str)
  | [] => ([], [])
  end.

Section parser.
(** The whole text and what is in the memory behind it. *)
Context (str beyond : list Z).

Definition end_of_string (found_any : bool) (result : interval_t) : res (option interval_t) :=
  Ok (if found_any then Some result else None).

(** [str[pos] == 'a' || str[pos == 'A']]: the index is 0 or 1. *)
Definition ago_letter (lower upper : Z) (pos : nat) : bool :=
  (str !!! pos =? lower) || negb (str !!! (if Z.of_nat pos =? upper then 1%nat else 0%nat) =? 0).

Definition interval_parse_ago (pos : nat) (found_any : bool) (result : interval_t) : res (option interval_t) :=
  if (length str - pos <? 3)%nat then Ok None
  else if negb (ago_letter 97 65 pos) then Ok None
  else if negb (ago_letter 103 71 (pos + 1)) then Ok None
  else if negb (ago_letter 111 79 (pos + 2)) then Ok None
  else if forallb is_blank (drop (pos + 3) str) then
    end_of_string found_any (mkInterval (wrapS 32 (- months result)) (wrapS 32 (- days result)) (s64 (- micros result)))
  else Ok None.

(** From the first digit of the time on, as many characters as the whole text has. *)
Definition interval_parse_time (start : list Z) (result : interval_t) : res (option interval_t) :=
  let start_pos := (length str - length start)%nat in
  time ← Time_FromCString (start ++ take start_pos beyond) false;
  end_of_string true (mkInterval (months result) (days result) (s64 (micros result + time))).

(** A number and its unit; [continue] is the label [standard_interval].  A number
    at the end of the text is ignored.  Only digits are cast, so there is no
    exponent. *)
Definition interval_parse_number (continue : list Z → interval_t → res (option interval_t)) (negative : bool)
    (start : list Z) (found_any : bool) (result : interval_t) : res (option interval_t) :=
  let '(number, rest) := span CharacterIsDigit start in
  match rest with
  | [] => end_of_string found_any result
  | c :: _ =>
      if c =? 58 then interval_parse_time start result
      else if bool_decide (number = []) then Ok None
      else
        number ← cast_string (TryCast_integer (λ _ _ _, None) int64_t) false number;
        let number := if negative then s64 (- number) else number in
        let '(_, rest) := span is_blank rest in
        let '(identifier, rest) := span is_letter rest in
        specifier ← GetDatePartSpecifier identifier;
        r ← add_specifier specifier result number;
        match r with
        | None => Ok None
        | Some result => continue rest result
        end
  end.

Fixpoint standard_interval (fuel : nat) (rest : list Z) (found_any : bool) (result : interval_t) : res (option interval_t) :=
  match fuel with
  | O => Throw (UndefinedBehaviour "the parser does not end")
  | S fuel =>
      let '(_, rest) := span is_blank rest in
      let continue rest result := standard_interval fuel rest true result in
      match rest with
      | [] => end_of_string found_any result
      | c :: after =>
          if CharacterIsDigit c then interval_parse_number continue false rest found_any result
          else if c =? 45 then interval_parse_number continue true after found_any result
          else if (c =? 97) || (c =? 65) then interval_parse_ago (length str - length rest) found_any result
          else Ok None
      end
  end.
End parser.

(** The fuel: every round but the last reads a digit. *)
Definition Interval_FromCString (str beyond : list Z) : res (option interval_t) :=
  match str with
  | [] => Ok None
  | c :: rest =>
      let zero := mkInterval 0 0 0 in
      if c =? 64 then standard_interval str beyond (S (length str)) rest false zero
      else if (c =? 80) || (c =? 112) then Ok None
      else standard_interval str beyond (S (length str)) str false zero
  end.

(** ** Printing *)

Definition FormatIntervalValue (value : Z) (name : string) (text : list Z) : res (list Z) :=
  if value =? 0 then Ok text
  else
    number ← FormatSigned W64 value;
    Ok (text ++ (if bool_decide (text = []) then [] else [32]) ++ number ++ codes name ++ (if value =? 1 then [] else [115])).

(** The time of an interval, after its sign. *)
Definition format_interval_time (micros : Z) : res (list Z) :=
  let hour := Z.quot micros MICROS_PER_HOUR in
  let micros := micros - hour * MICROS_PER_HOUR in
  let min := Z.quot micros MICROS_PER_MINUTE in
  let micros := micros - min * MICROS_PER_MINUTE in
  let sec := Z.quot micros MICROS_PER_SEC in
  let micros := micros - sec * MICROS_PER_SEC in
  number ← FormatSigned W64 hour;
  let text := (if hour <? 10 then [48] else []) ++ number ++ 58 :: FormatTwoDigits min ++ 58 :: FormatTwoDigits sec in
  if micros =? 0 then Ok text
  else
    '(micro_buffer, trailing_zeros) ← FormatMicros micros;
    Ok (text ++ 46 :: take (6 - trailing_zeros) micro_buffer).

(** [IntervalToStringCast::Format], without the size of the buffer. *)
Definition format_interval (interval : interval_t) : res (list Z) :=
  let years := wrapS 32 (Z.quot (months interval) 12) in
  let months := wrapS 32 (months interval - years * 12) in
  text ← FormatIntervalValue years " year" [];
  text ← FormatIntervalValue months " month" text;
  text ← FormatIntervalValue (days interval) " day" text;
  if micros interval =? 0 then Ok (if bool_decide (text = []) then codes "00:00:00" else text)
  else
    let negative := micros interval <? 0 in
    time ← format_interval_time (if negative then s64 (- micros interval) else micros interval);
    Ok (text ++ (if bool_decide (text = []) then [] else [32]) ++ (if negative then [45] else []) ++ time).

(** [Interval::ToString]: a buffer of 70 characters. *)
Definition Interval_ToString (interval : interval_t) : res (list Z) :=
  text ← format_interval interval;
  if (70 <? length text)%nat then Throw (UndefinedBehaviour "the text does not fit into the buffer") else Ok text.

(** ** Differences *)

(** [while (n < 0) { n += step; other--; }] *)
Definition borrow (n step other : Z) : Z * Z := shift_up (rounds 0 step n) 0 step n other 1.

Definition days_of_month (year month : Z) : Z :=
  if IsLeapYear year then LEAP_DAYS !!! Z.to_nat month else NORMAL_DAYS !!! Z.to_nat month.

Definition GetDifference (timestamp_1 timestamp_2 : Z) : interval_t :=
  let '(date1, time1) := Timestamp_Convert timestamp_1 in
  let '(date2, time2) := Timestamp_Convert timestamp_2 in
  let '(year1, month1, day1) := Date_Convert date1 in
  let '(year2, month2, day2) := Date_Convert date2 in
  let '(hour1, min1, sec1, micros1) := Time_Convert time1 in
  let '(hour2, min2, sec2, micros2) := Time_Convert time2 in
  let smaller := timestamp_1 <? timestamp_2 in
  let flip (z : Z) := if smaller then - z else z in
  let year_diff := flip (year1 - year2) in
  let month_diff := flip (month1 - month2) in
  let day_diff := flip (day1 - day2) in
  let hour_diff := flip (hour1 - hour2) in
  let min_diff := flip (min1 - min2) in
  let sec_diff := flip (sec1 - sec2) in
  let micros_diff := flip (micros1 - micros2) in
  let '(micros_diff, sec_diff) := borrow micros_diff MICROS_PER_SEC sec_diff in
  let '(sec_diff, min_diff) := borrow sec_diff SECS_PER_MINUTE min_diff in
  let '(min_diff, hour_diff) := borrow min_diff MINS_PER_HOUR hour_diff in
  let '(hour_diff, day_diff) := borrow hour_diff HOURS_PER_DAY day_diff in
  let '(day_diff, month_diff) :=
    borrow day_diff (if smaller then days_of_month year1 month1 else days_of_month year2 month2) month_diff in
  let '(month_diff, year_diff) := borrow month_diff MONTHS_PER_YEAR year_diff in
  let recover (z : Z) := if smaller && (negb (month_diff =? 0) || negb (day_diff =? 0)) then - z else z in
  mkInterval (wrapS 32 (recover year_diff * MONTHS_PER_YEAR + recover month_diff)) (recover day_diff)
    (FromTime (recover hour_diff) (recover min_diff) (recover sec_diff) (recover micros_diff)).

(** ** Comparison *)

(** Days and microseconds are divided separately. *)
Definition NormalizeIntervalEntries (input : interval_t) : Z * Z * Z :=
  let extra_months_d := Z.quot (days input) DAYS_PER_MONTH in
  let extra_months_micros := Z.quot (micros input) MICROS_PER_MONTH in
  let days' := wrapS 32 (days input - extra_months_d * DAYS_PER_MONTH) in
  let micros' := s64 (micros input - extra_months_micros * MICROS_PER_MONTH) in
  let extra_days_micros := Z.quot micros' MICROS_PER_DAY in
  (s64 (months input + extra_months_d + extra_months_micros), s64 (days' + extra_days_micros),
   s64 (micros' - extra_days_micros * MICROS_PER_DAY)).

Definition Interval_Equals (left right : interval_t) : bool :=
  (months left =? months right) && (days left =? days right) && (micros left =? micros right).

Definition Interval_GreaterThan (left right : interval_t) : bool :=
  let '(lmonths, ldays, lmicros) := NormalizeIntervalEntries left in
  let '(rmonths, rdays, rmicros) := NormalizeIntervalEntries right in
  if rmonths <? lmonths then true
  else if lmonths <? rmonths then false
  else if rdays <? ldays then true
  else if ldays <? rdays then false
  else rmicros <? lmicros.

Definition Interval_GreaterThanEquals (left right : interval_t) : bool :=
  Interval_GreaterThan left right || Interval_Equals left right.

(** ** Operators *)

(** [AddOperatorOverflowCheck] and the like throw. *)
Definition or_overflow {A : Type} (r : option A) : res A :=
  match r with Some a => Ok a | None => Throw (OutOfRangeException "Overflow") end.

Definition AddInterval (left right : interval_t) : res interval_t :=
  m ← or_overflow (TryAdd true int32_t (months left) (months right));
  d ← or_overflow (TryAdd true int32_t (days left) (days right));
  u ← or_overflow (TryAdd true int64_t (micros left) (micros right));
  Ok (mkInterval m d u).

(** The factor is converted to 32 bits for months and days. *)
Definition MultiplyInterval (left : interval_t) (right : Z) : res interval_t :=
  m ← or_overflow (TryMultiply true int32_t (months left) (wrapS 32 right));
  d ← or_overflow (TryMultiply true int32_t (days left) (wrapS 32 right));
  u ← or_overflow (TryMultiply true int64_t (micros left) right);
  Ok (mkInterval m d u).

Definition SubtractInterval (left right : interval_t) : interval_t :=
  mkInterval (wrapS 32 (months left - months right)) (wrapS 32 (days left - days right)) (s64 (micros left - micros right)).

Definition NegateInterval (right : interval_t) : interval_t :=
  mkInterval (wrapS 32 (- months right)) (wrapS 32 (- days right)) (s64 (- micros right)).

(** The additions of the code to an int32_t wrap around here; out of range they are
    undefined in C++. *)
Definition AddDate (left : Z) (right : interval_t) : res Z :=
  result ←
    (if months right =? 0 then Ok left
     else
       let '(year, month, day) := Date_Convert left in
       let year_diff := Z.quot (months right) MONTHS_PER_YEAR in
       let year := wrapS 32 (year + year_diff) in
       let month := wrapS 32 (month + (months right - year_diff * MONTHS_PER_YEAR)) in
       let '(year, month) :=
         if MONTHS_PER_YEAR <? month then (wrapS 32 (year + 1), month - MONTHS_PER_YEAR)
         else if month <=? 0 then (wrapS 32 (year - 1), month + MONTHS_PER_YEAR)
         else (year, month) in
       FromDate year month day);
  let result := wrapS 32 (result + days right) in
  Ok (wrapS 32 (result + Z.quot (micros right) MICROS_PER_DAY)).

Definition AddTime (left : Z) (right : interval_t) : Z :=
  let diff := micros right - Z.quot (micros right) MICROS_PER_DAY * MICROS_PER_DAY in
  let left := s64 (left + diff) in
  if MICROS_PER_DAY <=? left then left - MICROS_PER_DAY
  else if left <? 0 then left + MICROS_PER_DAY
  else left.

Definition AddTimestamp (left : Z) (right : interval_t) : res Z :=
  let '(date, time) := Timestamp_Convert left in
  new_date ← AddDate date right;
  Ok (FromDatetime new_date (AddTime time right)).

Definition SubtractDate (left : Z) (right : interval_t) : res Z := AddDate left (NegateInterval right).

Definition SubtractTimestamp (left : Z) (right : interval_t) : res Z := AddTimestamp left (NegateInterval right).

(** Only the time of the interval is negated. *)
Definition SubtractTime (left : Z) (right : interval_t) : Z :=
  AddTime left (mkInterval (months right) (days right) (s64 (- micros right))).

#[local] Ltac Zify.zify_post_hook ::= Z.to_euclidean_division_equations.

(** ** The parser ends *)

Lemma span_spec kind str passed rest :
  span kind str = (passed, rest) →
  str = passed ++ rest ∧ Forall (λ c, kind c = true) passed ∧ match rest with [] => True | c :: _ => kind c = false end.
Proof.
  revert passed rest. induction str as [|c str IH]; intros passed rest; cbn [span].
  - intros [= <- <-]. by repeat constructor.
  - destruct (kind c) eqn:Hc; [|intros [= <- <-]; split; [done|]; split; [constructor|done]].
    destruct (span kind str) as [p r]. intros [= <- <-]. destruct (IH p r eq_refl) as (-> & Hp & Hr).
    split; [done|]. split; [by constructor|done].
Qed.

Lemma span_app kind passed rest :
  Forall (λ c, kind c = true) passed → match rest with [] => True | c :: _ => kind c = false end →
  span kind (passed ++ rest) = (passed, rest).
Proof.
  intros Hp Hr. induction Hp as [|c passed Hc _ IH]; cbn [app span].
  - destruct rest as [|c rest]; [done|]. cbn [span]. by rewrite Hr.
  - by rewrite Hc, IH.
Qed.

Definition ends {A : Type} (r : res A) : Prop := r ≠ Throw (UndefinedBehaviour "the parser does not end").

Lemma ends_Ok {A} (a : A) : ends (Ok a).
Proof. done. Qed.

Lemma ends_bind {A B} (r : res A) (f : A → res B) : ends r → (∀ a, ends (f a)) → ends (r ≫= f).
Proof. intros Hr Hf. destruct r as [a|e]; [apply Hf|]. cbn. intros [= ->]. by apply Hr. Qed.

Create HintDb ends.
#[local] Hint Resolve ends_Ok ends_bind : ends.

(** Functions that throw only exceptions of their own. *)
Ltac ends_cases := unfold ends; repeat case_match; try discriminate; simplify_eq.

Lemma FromDate_ends y m d : ends (FromDate y m d).
Proof. unfold FromDate. ends_cases. Qed.
#[local] Hint Resolve FromDate_ends : ends.

Lemma TryConvertDate_ends buf strict : ends (TryConvertDate buf strict).
Proof.
  unfold TryConvertDate. repeat (case_match; try apply ends_Ok); apply ends_bind; auto with ends.
Qed.
#[local] Hint Resolve TryConvertDate_ends : ends.

Lemma Time_FromCString_ends buf strict : ends (Time_FromCString buf strict).
Proof.
  unfold Time_FromCString. repeat (case_match; try apply ends_Ok); [done|]. apply ends_bind; [|auto with ends].
  unfold Timestamp_FromCString, timestamp_error. apply ends_bind; [auto with ends|]. intros a. ends_cases.
Qed.
#[local] Hint Resolve Time_FromCString_ends : ends.

Lemma IntervalTryAddition_ends T target input multiplier : ends (IntervalTryAddition T target input multiplier).
Proof.
  unfold IntervalTryAddition. case_match; [|done]. apply ends_bind.
  - unfold Cast_Operation, CastWithOverflowCheck. ends_cases.
  - intros a. ends_cases.
Qed.
#[local] Hint Resolve IntervalTryAddition_ends : ends.

Lemma add_specifier_ends specifier r number : ends (add_specifier specifier r number).
Proof. unfold add_specifier. destruct specifier; auto with ends. Qed.
#[local] Hint Resolve add_specifier_ends : ends.

Lemma parts_end str beyond start pos found_any r :
  ends (interval_parse_time str beyond start r) ∧ ends (interval_parse_ago str pos found_any r) ∧ ends (end_of_string found_any r).
Proof.
  split; [unfold interval_parse_time, end_of_string; auto with ends|]. split; [|done]. unfold interval_parse_ago, end_of_string. ends_cases.
Qed.

Lemma parse_number_ends str beyond continue negative start found_any r :
  (∀ rest r, (length rest < length start)%nat → ends (continue rest r)) →
  ends (interval_parse_number str beyond continue negative start found_any r).
Proof.
  intros Hc. unfold interval_parse_number. destruct (span CharacterIsDigit start) as [number rest2] eqn:E2.
  apply span_spec in E2 as (-> & _ & _). rewrite length_app in Hc. destruct rest2 as [|c rest2]; [done|].
  destruct (c =? 58); [by apply (parts_end str beyond _ 0 found_any)|]. case_bool_decide as Hne; [done|].
  apply ends_bind; [unfold cast_string; ends_cases|]. intros n.
  destruct (span is_blank (c :: rest2)) as [blanks' rest3] eqn:E3. apply span_spec in E3 as (E3 & _ & _). rewrite E3, length_app in Hc.
  destruct (span is_letter rest3) as [identifier rest4] eqn:E4. apply span_spec in E4 as (-> & _ & _). rewrite length_app in Hc.
  apply ends_bind; [unfold GetDatePartSpecifier; ends_cases|]. intros specifier.
  apply ends_bind; [auto with ends|]. intros [r'|]; [|done]. apply Hc. destruct number; [done|]. cbn [length]. lia.
Qed.

Lemma standard_interval_ends str beyond fuel : ∀ rest found_any r,
  (length rest < fuel)%nat → ends (standard_interval str beyond fuel rest found_any r).
Proof.
  induction fuel as [|fuel IH]; intros rest found_any r Hlen; [lia|]. cbn [standard_interval].
  destruct (span is_blank rest) as [blanks rest1] eqn:E1. apply span_spec in E1 as (-> & _ & _). rewrite length_app in Hlen.
  destruct rest1 as [|c after]; [done|]. cbn [length] in Hlen.
  repeat case_match; [apply parse_number_ends; intros; apply IH; cbn in *; lia..|apply (parts_end str beyond [])|done].
Qed.

(** ** Printing *)

Definition number_text (v : Z) : list Z := match FormatSigned W64 v with Ok text => text | Throw _ => [] end.

Lemma number_text_spec v :
  inS 64 v → FormatSigned W64 v = Ok (number_text v) ∧ ∃ ds, number_text v = signed (v <? 0) ds ∧ decimal (Z.abs v) ds.
Proof.
  intros Hv. destruct (FormatSigned_spec W64 v Hv) as (ds & H & Hds). unfold number_text. rewrite H. split; [done|]. by exists ds.
Qed.

Lemma decimal_length_le v ds (k : nat) : decimal v ds → v < 10 ^ Z.of_nat k → (1 <= k)%nat → (length ds <= k)%nat.
Proof.
  intros [_ _ Hc] Hv Hk. destruct Hc as [[_ ?]|[? [Hl _]]]; [lia|]. destruct (le_gt_dec (length ds) k) as [|Hgt]; [done|].
  pose proof (Z.pow_le_mono_r 10 (Z.of_nat k) (Z.of_nat (length ds) - 1) ltac:(lia) ltac:(lia)). lia.
Qed.

Lemma number_text_length v (k : nat) :
  inS 64 v → Z.abs v < 10 ^ Z.of_nat k → (1 <= k)%nat → (length (number_text v) <= k + (if (v <? 0)%Z then 1 else 0))%nat.
Proof.
  intros Hv Hlt Hk. destruct (number_text_spec v Hv) as [_ (ds & -> & Hds)]. pose proof (decimal_length_le _ _ k Hds Hlt Hk).
  destruct (v <? 0); cbn [signed length]; lia.
Qed.

(** What a unit adds to the text before it. *)
Definition unit_suffix (v : Z) (name : string) (text : list Z) : list Z :=
  if v =? 0 then []
  else (if bool_decide (text = []) then [] else [32]) ++ number_text v ++ codes name ++ (if v =? 1 then [] else [115]).

Lemma FormatIntervalValue_eq v name text : inS 64 v → FormatIntervalValue v name text = Ok (text ++ unit_suffix v name text).
Proof.
  intros Hv. unfold FormatIntervalValue, unit_suffix. destruct (v =? 0); [by rewrite app_nil_r|].
  destruct (number_text_spec v Hv) as [-> _]. done.
Qed.

Lemma unit_suffix_length v name text (k : nat) :
  inS 64 v → Z.abs v < 10 ^ Z.of_nat k → (1 <= k)%nat →
  (length (unit_suffix v name text) <= (if bool_decide (text = []) then 0 else 1) + S k + S (length (codes name)))%nat.
Proof.
  intros Hv Hlt Hk. pose proof (number_text_length v k Hv Hlt Hk) as Hn. unfold unit_suffix. destruct (v =? 0); [cbn; lia|].
  rewrite !length_app. destruct (v <? 0), (v =? 1); case_bool_decide; cbn [length]; lia.
Qed.

(** The parts of a time that is not negative. *)
Lemma time_parts u :
  0 <= u < 2 ^ 63 →
  let hour := u / 3600000000 in
  let min := u / 60000000 mod 60 in
  let sec := u / 1000000 mod 60 in
  format_interval_time u =
    (number ← FormatSigned W64 hour;
     let text := (if hour <? 10 then [48] else []) ++ number ++ 58 :: FormatTwoDigits min ++ 58 :: FormatTwoDigits sec in
     if u mod 1000000 =? 0 then Ok text
     else '(micro_buffer, trailing_zeros) ← FormatMicros (u mod 1000000);
          Ok (text ++ 46 :: take (6 - trailing_zeros) micro_buffer)).
Proof.
  intros Hu hour min sec. unfold format_interval_time, MICROS_PER_HOUR, MICROS_PER_MINUTE, MICROS_PER_SEC.
  rewrite (Z.quot_div_nonneg u) by lia. fold hour. set (u1 := u - hour * 3600000000).
  assert (0 <= u1 < 3600000000) as H1 by (unfold u1, hour; lia). rewrite (Z.quot_div_nonneg u1) by lia.
  assert (u1 / 60000000 = min) as -> by (unfold u1, min, hour; lia). set (u2 := u1 - min * 60000000).
  assert (0 <= u2 < 60000000) as H2 by (unfold u2, min, u1, hour; lia). rewrite (Z.quot_div_nonneg u2) by lia.
  assert (u2 / 1000000 = sec) as -> by (unfold u2, sec, min, u1, hour; lia).
  by assert (u2 - sec * 1000000 = u mod 1000000) as -> by (unfold u2, sec, min, u1, hour; lia).
Qed.

Lemma interval_time_length u :
  0 <= u < 2 ^ 63 → ∃ text, format_interval_time u = Ok text ∧ (length text <= 23)%nat.
Proof.
  intros Hu. rewrite time_parts by done. cbv zeta. set (hour := u / 3600000000).
  assert (0 <= hour < 2562047789) as Hh by (unfold hour; lia).
  destruct (number_text_spec hour) as [-> (ds & Hn & Hds)]; [unfold inS; lia|]. cbn [mbind res_bind].
  pose proof (number_text_length hour 10 ltac:(unfold inS; lia) ltac:(change (10 ^ Z.of_nat 10) with 10000000000; lia) ltac:(lia)) as Hl.
  replace (hour <? 0) with false in * by (symmetry; apply Z.ltb_ge; lia).
  assert ((length ((if (hour <? 10)%Z then [48%Z] else []) ++ number_text hour) <= 10)%nat) as Hl'.
  { rewrite length_app. destruct (Z.ltb_spec hour 10); [|cbn; lia]. rewrite Hn. cbn [signed length].
    pose proof (decimal_length_le _ _ 1 Hds ltac:(change (10 ^ Z.of_nat 1) with 10; lia) ltac:(lia)). lia. }
  rewrite app_assoc. set (head := (if hour <? 10 then [48] else []) ++ number_text hour) in *.
  rewrite !FormatTwoDigits_spec by lia. cbn [app].
  destruct (u mod 1000000 =? 0).
  - eexists. split; [done|]. rewrite length_app. cbn [length]. lia.
  - destruct (FormatMicros_spec (u mod 1000000)) as (mb & tz & -> & _ & _ & _ & Ht & _); [lia|]. cbn [mbind res_bind].
    eexists. split; [done|]. rewrite !length_app. cbn [length]. rewrite Ht. lia.
Qed.

Lemma months_split m : inS 32 m →
  let years := wrapS 32 (Z.quot m 12) in
  let rest := wrapS 32 (m - years * 12) in
  Z.abs years < 10 ^ 9 ∧ Z.abs rest < 12 ∧ m = years * 12 + rest ∧ inS 64 years ∧ inS 64 rest ∧ Z.abs (years * 12) <= Z.abs m.
Proof.
  intros Hm years rest. unfold inS in Hm |- *. assert (years = Z.quot m 12) as Hy by (apply wrapS_small; unfold inS; lia).
  assert (rest = m - years * 12) as Hr by (apply wrapS_small; unfold inS; lia). lia.
Qed.

(** The printed text, unit by unit. *)
Lemma format_interval_eq i :
  inS 32 (months i) → inS 32 (days i) →
  let years := wrapS 32 (Z.quot (months i) 12) in
  let rest := wrapS 32 (months i - years * 12) in
  let t1 := unit_suffix years " year" [] in
  let t2 := t1 ++ unit_suffix rest " month" t1 in
  let t3 := t2 ++ unit_suffix (days i) " day" t2 in
  format_interval i =
    (if micros i =? 0 then Ok (if bool_decide (t3 = []) then codes "00:00:00" else t3)
     else
       time ← format_interval_time (if micros i <? 0 then s64 (- micros i) else micros i);
       Ok (t3 ++ (if bool_decide (t3 = []) then [] else [32]) ++ (if micros i <? 0 then [45] else []) ++ time)).
Proof.
  intros Hm Hd years rest t1 t2 t3. destruct (months_split (months i) Hm) as (_ & _ & _ & Hy & Hr & _).
  unfold format_interval. fold years. fold rest. rewrite FormatIntervalValue_eq by done. cbn [mbind res_bind app]. fold t1.
  rewrite FormatIntervalValue_eq by done. cbn [mbind res_bind]. fold t2.
  rewrite FormatIntervalValue_eq by (unfold inS in *; lia). done.
Qed.

Lemma Interval_ToString_fits i :
  inS 32 (months i) → inS 32 (days i) → - 2 ^ 63 < micros i < 2 ^ 63 → format_interval i = Interval_ToString i ∧ ∃ text, format_interval i = Ok text.
Proof.
  intros Hm Hd Hu. assert (∃ text, format_interval i = Ok text ∧ (length text <= 70)%nat) as (text & Ht & Hl).
  { rewrite format_interval_eq by done. cbv zeta. destruct (months_split (months i) Hm) as (Hy9 & Hr12 & _ & Hy & Hr & _).
    set (years := wrapS 32 (Z.quot (months i) 12)) in *. set (rest := wrapS 32 (months i - years * 12)) in *.
    set (t1 := unit_suffix years " year" []). set (t2 := t1 ++ unit_suffix rest " month" t1). set (t3 := t2 ++ unit_suffix (days i) " day" t2).
    assert (length t3 <= 44)%nat as H3.
    { unfold t3. rewrite length_app. unfold t2 at 1. rewrite length_app.
      pose proof (unit_suffix_length years " year" [] 9 Hy Hy9 ltac:(lia)) as L1. fold t1 in L1.
      pose proof (unit_suffix_length rest " month" t1 2 Hr ltac:(change (10 ^ Z.of_nat 2) with 100; lia) ltac:(lia)) as L2.
      pose proof (unit_suffix_length (days i) " day" t2 10 ltac:(unfold inS in *; lia) ltac:(change (10 ^ Z.of_nat 10) with 10000000000; unfold inS in *; lia) ltac:(lia)) as L3.
      repeat case_bool_decide; cbn [codes length] in *; lia || done. }
    destruct (micros i =? 0).
    - eexists. split; [done|]. case_bool_decide; [cbn; lia|lia].
    - destruct (interval_time_length (if micros i <? 0 then s64 (- micros i) else micros i)) as (time & -> & Hl).
      { destruct (Z.ltb_spec (micros i) 0); [rewrite wrapS_small by (unfold inS; lia)|]; lia. }
      cbn [mbind res_bind]. eexists. split; [done|]. rewrite !length_app. case_bool_decide; destruct (micros i <? 0); cbn [length]; lia. }
  split; [|by exists text]. unfold Interval_ToString. rewrite Ht. cbn [mbind res_bind].
  by replace (70 <? length text)%nat with false by (symmetry; apply Nat.ltb_ge; lia).
Qed.

(** ** Reading back *)

(** Parsing from here on gives this result. *)
Definition parses (str beyond rest : list Z) (found_any : bool) (r : interval_t) (out : res (option interval_t)) : Prop :=
  ∀ fuel, (length rest < fuel)%nat → standard_interval str beyond fuel rest found_any r = out.

Lemma is_digit_kinds c : is_digit c → is_blank c = false ∧ is_letter c = false ∧ c ≠ 45 ∧ c ≠ 58.
Proof. unfold is_digit, is_blank, is_letter. intros Hc. split_and!; try lia; bools; lia || done. Qed.

Lemma decimal_head v ds : decimal v ds → ∃ c rest, ds = c :: rest ∧ is_digit c.
Proof.
  intros Hd. pose proof (decimal_nonempty v ds Hd) as Hne. destruct Hd as [Hds _ _]. destruct ds as [|c rest]; [done|].
  apply Forall_cons in Hds as [Hc _]. by exists c, rest.
Qed.

Lemma digits_kind ds : Forall is_digit ds → Forall (λ c, CharacterIsDigit c = true) ds.
Proof. intros H. apply (Forall_impl _ _ _ H). intros c. apply CharacterIsDigit_true. Qed.

Lemma cast_digits v ds : decimal v ds → v <= 2 ^ 63 - 1 → cast_string (TryCast_integer (λ _ _ _, None) int64_t) false ds = Ok v.
Proof.
  intros Hd Hv. pose proof Hd as [Hds Hval _]. pose proof (read_bounds _ Hds) as Hb. unfold cast_string.
  pose proof (TryCast_integer_exact (λ _ _ _, None) int64_t [] false false ds [] false) as H. rewrite app_nil_r in H. cbn [app sign_text] in H.
  rewrite H; [|int_type_in|constructor|done|by apply (decimal_nonempty v)|apply no_tail|done].
  unfold signed_value, exact. rewrite Hval. rewrite decide_True; [done|]. limits. lia.
Qed.

(** The first digit of a number behind blanks starts it. *)
Lemma standard_interval_number str beyond fuel blanks (v : Z) ds rest found r :
  Forall (λ c, is_blank c = true) blanks → decimal (Z.abs v) ds →
  standard_interval str beyond (S fuel) (blanks ++ signed (v <? 0) ds ++ rest) found r =
  interval_parse_number str beyond (λ rest r, standard_interval str beyond fuel rest true r) (v <? 0) (ds ++ rest) found r.
Proof.
  intros Hb Hd. destruct (decimal_head _ _ Hd) as (c & ds' & -> & Hc). destruct (is_digit_kinds c Hc) as (Hcb & _ & H45 & _).
  cbn [standard_interval]. destruct (v <? 0); cbn [signed app].
  - rewrite span_app by done. cbn [CharacterIsDigit Z.eqb Z.leb Z.compare Pos.compare Pos.compare_cont andb Pos.eqb]. done.
  - rewrite span_app by done. by rewrite CharacterIsDigit_true.
Qed.

Lemma parses_unit str beyond blanks v ds name part rest found r r' out :
  Forall (λ c, is_blank c = true) blanks → decimal (Z.abs v) ds → Z.abs v <= 2 ^ 63 - 1 →
  Forall (λ c, is_letter c = true) name → match name with [] => False | c :: _ => is_blank c = false end →
  match rest with [] => True | c :: _ => is_letter c = false end →
  GetDatePartSpecifier name = Ok part → add_specifier part r v = Ok (Some r') →
  parses str beyond rest true r' out →
  parses str beyond (blanks ++ signed (v <? 0) ds ++ 32 :: name ++ rest) found r out.
Proof.
  intros Hb Hd Hv Hname Hhead Hrest Hpart Hadd Hparse fuel Hfuel. destruct fuel as [|fuel]; [lia|].
  rewrite standard_interval_number by done. unfold interval_parse_number.
  pose proof (dec_digits _ _ Hd) as Hds. rewrite span_app by (done || by apply digits_kind). cbn [Z.eqb Pos.eqb].
  rewrite bool_decide_false by (by apply (decimal_nonempty _ _ Hd)). rewrite (cast_digits (Z.abs v)) by done. cbn [mbind res_bind].
  change (32 :: name ++ rest) with ([32] ++ name ++ rest). rewrite span_app; [|by repeat constructor|by destruct name].
  rewrite span_app by done. rewrite Hpart. cbn [mbind res_bind].
  assert ((if v <? 0 then s64 (- Z.abs v) else Z.abs v) = v) as ->.
  { destruct (Z.ltb_spec v 0); [rewrite wrapS_small by (unfold inS; lia)|]; lia. }
  rewrite Hadd. cbn [mbind res_bind]. apply Hparse. rewrite !length_app in Hfuel. cbn [length] in Hfuel. rewrite length_app in Hfuel.
  destruct (decimal_head _ _ Hd) as (? & ? & -> & _). destruct (v <? 0); cbn [signed length] in Hfuel; lia.
Qed.

(** A text is empty or starts with a blank. *)
Definition separated (text : list Z) : Prop := match text with [] => True | c :: _ => c = 32 end.

Lemma unit_suffix_separated v name text : text ≠ [] → separated (unit_suffix v name text).
Proof. intros Ht. unfold unit_suffix. destruct (v =? 0); [done|]. by rewrite bool_decide_false. Qed.

Lemma separated_app s1 s2 : separated s1 → separated s2 → separated (s1 ++ s2).
Proof. by destruct s1. Qed.

Lemma parses_unit_suffix str beyond v name part text rest found r r' out :
  inS 64 v → Z.abs v <= 2 ^ 63 - 1 →
  (∀ plural, plural = [] ∨ plural = [115] → GetDatePartSpecifier (codes name ++ plural) = Ok part) →
  Forall (λ c, is_letter c = true) (codes name) → match codes name with [] => False | c :: _ => is_blank c = false end →
  (v ≠ 0 → separated rest) → (if v =? 0 then r' = r else add_specifier part r v = Ok (Some r')) →
  parses str beyond rest (found || negb (v =? 0)) r' out →
  parses str beyond (unit_suffix v (String (Ascii.ascii_of_N 32) name) text ++ rest) found r out.
Proof.
  intros Hv Hv' Hpart Hname Hhead Hsep Hadd Hparse. unfold unit_suffix. destruct (Z.eqb_spec v 0) as [->|Hne].
  - subst r'. cbn [negb] in Hparse. rewrite orb_false_r in Hparse. done.
  - destruct (number_text_spec v Hv) as [_ (ds & -> & Hds)]. cbn [codes negb] in *. rewrite orb_true_r in Hparse.
    change (code (Ascii.ascii_of_N 32)) with 32. rewrite <-!app_assoc. cbn [app]. rewrite (app_assoc (codes name)).
    apply (parses_unit _ _ _ v ds _ part _ _ _ r'); try done.
    + case_bool_decide; by repeat constructor.
    + apply Forall_app. split; [done|]. destruct (v =? 1); by repeat constructor.
    + destruct (codes name); [done|]. done.
    + specialize (Hsep Hne). destruct rest as [|c rest]; [done|]. by rewrite Hsep.
    + apply Hpart. destruct (v =? 1); auto.
Qed.

Lemma IntervalTryAddition_ok T target input multiplier :
  T = int32_t ∨ T = int64_t → in_limits T target → in_limits T (input * multiplier) → in_limits T (target + input * multiplier) →
  inS 64 input → inS 64 multiplier →
  IntervalTryAddition T target input multiplier = Ok (target + input * multiplier).
Proof.
  intros HT Ht Hm Hs Hi Hmul. assert (integer_type T) as HT' by (destruct HT as [->| ->]; int_type_in).
  assert (in_limits int64_t (input * multiplier)) as H64 by (destruct HT as [->| ->]; limits; lia).
  unfold IntervalTryAddition. rewrite TryMultiply_exact; [|int_type_in|by left|by limits|by limits]. unfold exact. rewrite decide_True by done.
  rewrite (proj2 (casts_exact int64_t T _ ltac:(int_type_in) HT' H64)), decide_True by done. cbn [mbind res_bind].
  rewrite TryAdd_exact by (done || by apply in_limits_type). unfold exact. by rewrite decide_True by done.
Qed.

(** A printed time of day is hours, a colon and more, and reads back, also in
    front of what does not continue it. *)
Lemma interval_time_text u :
  time_ok u →
  ∃ h text, format_interval_time u = Ok (FormatTwoDigits h ++ 58 :: text) ∧ 0 <= h < 24 ∧
    ∀ rest, ends_time rest → Time_FromCString ((FormatTwoDigits h ++ 58 :: text) ++ rest) false = Ok u.
Proof.
  unfold time_ok, MICROS_PER_DAY. intros Hu. set (h := u / 3600000000). set (m := u / 60000000 mod 60). set (s := u / 1000000 mod 60).
  assert (0 <= h < 24 ∧ 0 <= m < 60 ∧ 0 <= s < 60 ∧ 0 <= u mod 1000000 < 1000000) as (Hh & Hm & Hs & Hm6) by (unfold h, m, s; lia).
  destruct (TimeToStringCast_spec h m s (u mod 1000000) Hh Hm Hs Hm6) as (tail & Ht & Htail).
  exists h, (FormatTwoDigits m ++ 58 :: FormatTwoDigits s ++ tail). split; [|split; [done|]].
  - rewrite time_parts by lia. cbv zeta. fold h m s. destruct (number_text_spec h) as [-> (ds & Hn & Hds)]; [unfold inS; lia|].
    cbn [mbind res_bind]. replace ((if h <? 10 then [48] else []) ++ number_text h ++ 58 :: FormatTwoDigits m ++ 58 :: FormatTwoDigits s)
      with (FormatTwoDigits h ++ 58 :: FormatTwoDigits m ++ 58 :: FormatTwoDigits s).
    + unfold TimeToStringCast in Ht. cbv zeta in Ht. destruct (u mod 1000000 =? 0).
      { rewrite in_buffer_ok in Ht by (by rewrite !FormatTwoDigits_spec by lia). exact Ht. }
      destruct (FormatMicros_spec (u mod 1000000) Hm6) as (mb & tz & Hfm & Htz & Hl6 & _ & Hlt & _). rewrite Hfm in *. cbn [mbind res_bind] in *.
      replace (8 <? 15 - tz)%nat with true in Ht by (symmetry; apply Nat.ltb_lt; lia).
      replace (15 - tz - 9)%nat with (6 - tz)%nat in Ht by lia. rewrite in_buffer_ok in Ht; [exact Ht|].
      rewrite !FormatTwoDigits_spec by lia. cbn [app length]. rewrite Hlt. lia.
    + rewrite app_assoc. f_equal. rewrite Hn, FormatTwoDigits_spec by lia.
      replace (h <? 0) with false by (symmetry; apply Z.ltb_ge; lia). cbn [signed]. rewrite Z.abs_eq in Hds by lia.
      destruct (Z.ltb_spec h 10) as [Hl|Hl].
      * rewrite (decimal_unique h ds [48 + h] Hds (decimal_digit h ltac:(lia))). cbn [app]. repeat f_equal; lia.
      * cbn [app]. symmetry. apply (decimal_unique h ds _ Hds). split; [repeat constructor; unfold is_digit; lia|cbn; lia|].
        right. change (Z.of_nat (length _)) with 2. change (10 ^ (2 - 1)) with 10. change (10 ^ 2) with 100. lia.
  - intros rest Hrest. destruct (Htail rest Hrest) as (rest' & Hr & _). unfold Time_FromCString.
    rewrite <-!app_assoc. cbn [app]. rewrite <-!app_assoc. cbn [app]. rewrite <-!app_assoc.
    rewrite (TryConvertTime_text h m s tail (u mod 1000000) rest rest' false Hh Hm Hs Hr) by done.
    rewrite FromTime_eq by done. f_equal. unfold h, m, s. lia.
Qed.

Lemma parses_time str beyond blanks u text found r :
  time_ok u → format_interval_time u = Ok text → Forall (λ c, is_blank c = true) blanks →
  ends_time (take (length str - length text) beyond) → inS 64 (micros r + u) →
  parses str beyond (blanks ++ text) found r (Ok (Some (mkInterval (months r) (days r) (micros r + u)))).
Proof.
  intros Hu Ht Hb Hends Hin fuel Hfuel. destruct fuel as [|fuel]; [lia|].
  destruct (interval_time_text u Hu) as (h & text' & Ht' & Hh & Hread). rewrite Ht in Ht'. injection Ht' as ->.
  specialize (Hread _ Hends). rewrite (FormatTwoDigits_spec h) in * by lia. cbn [app standard_interval] in *.
  rewrite span_app; [|done|apply is_digit_kinds; unfold is_digit; lia].
  rewrite CharacterIsDigit_true by (unfold is_digit; lia). unfold interval_parse_number, interval_parse_time.
  change (48 + h / 10 :: 48 + h mod 10 :: 58 :: text') with ([48 + h / 10; 48 + h mod 10] ++ 58 :: text') at 1.
  rewrite span_app; [|apply digits_kind; repeat constructor; unfold is_digit; lia|done]. rewrite Z.eqb_refl.
  cbn [app]. rewrite Hread. cbn [mbind res_bind end_of_string]. by rewrite wrapS_small by (done || lia).
Qed.

Lemma specifier_year plural : plural = [] ∨ plural = [115] → GetDatePartSpecifier (codes "year" ++ plural) = Ok YEAR.
Proof. intros [->| ->]; reflexivity. Qed.

Lemma specifier_month plural : plural = [] ∨ plural = [115] → GetDatePartSpecifier (codes "month" ++ plural) = Ok MONTH.
Proof. intros [->| ->]; reflexivity. Qed.

Lemma specifier_day plural : plural = [] ∨ plural = [115] → GetDatePartSpecifier (codes "day" ++ plural) = Ok DAY.
Proof. intros [->| ->]; reflexivity. Qed.

(** The units of a printed interval read back, in front of any time. *)
Lemma parses_units str beyond i rest out :
  in_limits int32_t (months i) → in_limits int32_t (days i) →
  let years := wrapS 32 (Z.quot (months i) 12) in
  let rest_months := wrapS 32 (months i - years * 12) in
  let t1 := unit_suffix years " year" [] in
  let t2 := t1 ++ unit_suffix rest_months " month" t1 in
  let t3 := t2 ++ unit_suffix (days i) " day" t2 in
  (t3 ≠ [] → separated rest) →
  parses str beyond rest (negb (bool_decide (t3 = []))) (mkInterval (months i) (days i) 0) out →
  parses str beyond (t3 ++ rest) false (mkInterval 0 0 0) out.
Proof.
  intros Hm Hd years rest_months t1 t2 t3 Hsep Hparse. assert (inS 32 (months i)) as Hm32 by (limits; lia).
  destruct (months_split (months i) Hm32) as (Hy9 & Hr12 & Hsum & Hy & Hr & Hyle). fold years in Hy9, Hr12, Hsum, Hy, Hr, Hyle. fold rest_months in Hr12, Hsum, Hr.
  clearbody rest_months. clearbody years.
  assert (∀ v name text, unit_suffix v name text = [] → v = 0) as Hnil.
  { intros v name text. unfold unit_suffix. destruct (Z.eqb_spec v 0); [done|]. intros H. apply app_eq_nil in H as [_ H].
    apply app_eq_nil in H as [Hn H]. apply app_eq_nil in H as [_ H]. destruct (Z.eqb_spec v 1) as [->|]; [discriminate Hn|done]. }
  assert (negb (bool_decide (t3 = [])) = negb (years =? 0) || negb (rest_months =? 0) || negb (days i =? 0)) as Hfound.
  { destruct (decide (t3 = [])) as [H|H]; [rewrite bool_decide_true by done|rewrite bool_decide_false by done].
    - unfold t3, t2 in H. apply app_eq_nil in H as [[H1 H2]%app_eq_nil H3]. apply Hnil in H1, H2, H3. rewrite H1, H2, H3. done.
    - destruct (Z.eqb_spec years 0) as [E1|], (Z.eqb_spec rest_months 0) as [E2|], (Z.eqb_spec (days i) 0) as [E3|]; try done.
      destruct H. unfold t3, t2, t1, unit_suffix. by rewrite E1, E2, E3. }
  rewrite Hfound in Hparse. unfold t3, t2. rewrite <-!app_assoc.
  assert (∀ v name text rest, (text ++ unit_suffix v name text ≠ [] → separated rest) → text ≠ [] → separated (unit_suffix v name text ++ rest)) as Hs.
  { intros v name text rest' Hrest Ht. apply separated_app; [by apply unit_suffix_separated|]. apply Hrest. by destruct text. }
  assert (∀ v name, v ≠ 0 → t1 = unit_suffix v name [] → t1 ≠ []) as Hne1.
  { intros v name Hv -> H. by apply Hv, (Hnil v name []). }
  apply (parses_unit_suffix _ _ years "year" YEAR [] _ _ _ (mkInterval (years * 12) 0 0)); try done; [unfold inS in *; lia|apply specifier_year|by repeat constructor| | |].
  { intros Hv. apply Hs; [|by apply (Hne1 years " year")]. intros Ht2. apply Hs; done. }
  { destruct (Z.eqb_spec years 0) as [->|Hv]; [done|]. cbn [add_specifier months days micros]. unfold MONTHS_PER_YEAR.
    rewrite IntervalTryAddition_ok; [done|by left|..]; try (unfold inS in *; lia); limits; lia. }
  apply (parses_unit_suffix _ _ rest_months "month" MONTH t1 _ _ _ (mkInterval (months i) 0 0)); try done; [unfold inS in *; lia|apply specifier_month|by repeat constructor| | |].
  { intros Hv. apply Hs; [done|]. intros [_ H]%app_eq_nil. by apply Hv, (Hnil _ _ _ H). }
  { destruct (Z.eqb_spec rest_months 0) as [E|Hv]; [f_equal; lia|]. cbn [add_specifier months days micros].
    rewrite IntervalTryAddition_ok; [cbn; repeat f_equal; lia|by left|..]; try (unfold inS in *; lia); limits; lia. }
  apply (parses_unit_suffix _ _ (days i) "day" DAY t2 _ _ _ (mkInterval (months i) (days i) 0)); try done; [limits; unfold inS; lia|limits; lia|apply specifier_day|by repeat constructor| |].
  { intros Hv. apply Hsep. intros [_ H]%app_eq_nil. by apply Hv, (Hnil _ _ _ H). }
  destruct (Z.eqb_spec (days i) 0) as [->|Hv]; [done|]. cbn [add_specifier months days micros].
  rewrite IntervalTryAddition_ok; [cbn; repeat f_equal; lia|by left|..]; try (unfold inS; limits; lia); limits; lia.
Qed.

(** ** Dates and times *)

Lemma wrapS_add w a b : 0 < w → wrapS w (wrapS w a + b) = wrapS w (a + b).
Proof.
  intros Hw. unfold wrapS. f_equal.
  replace ((a + 2 ^ (w - 1)) mod 2 ^ w - 2 ^ (w - 1) + b + 2 ^ (w - 1)) with ((a + 2 ^ (w - 1)) mod 2 ^ w + b) by lia.
  rewrite Zplus_mod_idemp_l. f_equal. lia.
Qed.

Lemma AddDate_spec date i y m d :
  Date_Convert date = (y, m, d) → MIN_YEAR <= y <= MAX_YEAR → inS 32 (months i) →
  let k := y * 12 + (m - 1) + months i in
  AddDate date i = (r ← FromDate (k / 12) (k mod 12 + 1) d; Ok (wrapS 32 (r + days i + Z.quot (micros i) MICROS_PER_DAY))).
Proof.
  intros Hconv Hy Hm k. destruct (Date_Convert_spec date) as [Hc Hn]. rewrite Hconv in Hc, Hn. pose proof Hc as [Hm12 Hd]. cbn [fst snd] in Hm12, Hd.
  unfold AddDate. destruct (Z.eqb_spec (months i) 0) as [H0|H0].
  - assert (k / 12 = y ∧ k mod 12 + 1 = m) as [-> ->] by (unfold k; lia). rewrite FromDate_spec by done. rewrite Hn. cbn [mbind res_bind].
    by rewrite wrapS_add by lia.
  - rewrite Hconv. unfold MONTHS_PER_YEAR, inS, MIN_YEAR, MAX_YEAR in *.
    rewrite (wrapS_small 32 (y + _)) by (lia || unfold inS; lia). rewrite (wrapS_small 32 (m + _)) by (lia || unfold inS; lia).
    set (m' := m + (months i - Z.quot (months i) 12 * 12)). set (y' := y + Z.quot (months i) 12).
    assert ((if 12 <? m' then (wrapS 32 (y' + 1), m' - 12) else if m' <=? 0 then (wrapS 32 (y' - 1), m' + 12) else (y', m')) =
      (k / 12, k mod 12 + 1)) as ->.
    { destruct (Z.ltb_spec 12 m'); [|destruct (Z.leb_spec m' 0)]; rewrite ?wrapS_small by (lia || unfold inS, y'; lia);
        f_equal; unfold k, m', y' in *; lia. }
    destruct (FromDate _ _ _) as [r|e]; [|done]. cbn [mbind res_bind]. by rewrite wrapS_add by lia.
Qed.

Lemma AddTime_spec time i : time_ok time → inS 64 (micros i) → AddTime time i = (time + micros i) mod MICROS_PER_DAY.
Proof.
  unfold time_ok, inS, AddTime, MICROS_PER_DAY. intros Ht Hu. rewrite wrapS_small by (lia || unfold inS; lia).
  destruct (Z.leb_spec 86400000000 (time + (micros i - Z.quot (micros i) 86400000000 * 86400000000)));
    [|destruct (Z.ltb_spec (time + (micros i - Z.quot (micros i) 86400000000 * 86400000000)) 0)]; lia.
Qed.

(** ** Comparison *)

(** The length in microseconds, a month counting as 30 days. *)
Definition duration (i : interval_t) : Z := (months i * DAYS_PER_MONTH + days i) * MICROS_PER_DAY + micros i.

Lemma Normalize_duration i m d u :
  inS 32 (months i) → inS 32 (days i) → inS 64 (micros i) → NormalizeIntervalEntries i = (m, d, u) →
  duration i = duration (mkInterval m d u) ∧ Z.abs u < MICROS_PER_DAY ∧ Z.abs d < 59.
Proof.
  unfold NormalizeIntervalEntries, duration, inS, DAYS_PER_MONTH, MICROS_PER_MONTH, MICROS_PER_DAY. intros Hm Hd Hu.
  rewrite (wrapS_small 32) by (lia || unfold inS; lia).
  rewrite (wrapS_small 64 (micros i - _)) by (lia || unfold inS; lia). set (u1 := micros i - _).
  assert (Z.abs u1 < 2592000000000) as H1 by (unfold u1; lia).
  rewrite !wrapS_small by (lia || unfold inS; lia). intros [= <- <- <-]. cbn [months days micros]. unfold u1 in *. lia.
Qed.

Lemma GreaterThan_spec a b :
  Interval_GreaterThan a b = true ↔
  let '(m, d, u) := NormalizeIntervalEntries a in let '(m', d', u') := NormalizeIntervalEntries b in
  m' < m ∨ m' = m ∧ (d' < d ∨ d' = d ∧ u' < u).
Proof.
  unfold Interval_GreaterThan. destruct (NormalizeIntervalEntries a) as [[m d] u], (NormalizeIntervalEntries b) as [[m' d'] u'].
  bools; split; intros; lia || done.
Qed.

(** A printed interval starts with a digit or a minus sign. *)
Lemma first_character str beyond out :
  match str with [] => False | c :: _ => c ≠ 64 ∧ c ≠ 80 ∧ c ≠ 112 end →
  parses str beyond str false (mkInterval 0 0 0) out → Interval_FromCString str beyond = out.
Proof.
  destruct str as [|c str]; [done|]. intros (H1 & H2 & H3) Hp. unfold Interval_FromCString.
  rewrite (proj2 (Z.eqb_neq c 64)), (proj2 (Z.eqb_neq c 80)), (proj2 (Z.eqb_neq c 112)) by done. apply Hp. lia.
Qed.

Lemma parses_first str beyond found r i :
  parses str beyond str found r (Ok (Some i)) → str ≠ [] → match str with [] => False | c :: _ => c ≠ 64 ∧ c ≠ 80 ∧ c ≠ 112 end.
Proof.
  intros Hp Hne. destruct str as [|c str]; [done|]. specialize (Hp (S (S (length str))) ltac:(cbn; lia)).
  assert (∀ x, c = x → x ∈ [64; 80; 112] → False) as H; [|split_and!; intros ->; eapply H; done || set_solver].
  intros x -> Hx. repeat (apply elem_of_cons in Hx as [->|Hx]; [discriminate Hp|]). by apply elem_of_nil in Hx.
Qed.

(** ** Theorems *)

(** the parser of intervals ends on every text, whatever is in the memory
    behind it: with one round more than the text has characters, it never runs
    out of rounds. *)
Theorem Interval_parser_ends (str beyond : list Z) :
  Interval_FromCString str beyond ≠ Throw (UndefinedBehaviour "the parser does not end").
Proof.
  unfold Interval_FromCString. destruct str as [|c rest]; [done|]. repeat case_match; [|done|];
    apply standard_interval_ends; cbn; lia.
Qed.

(** the text of every interval fits the buffer of 70 characters that it is
    written to, and reads back as the interval when its time is a time of day,
    its months and days are not NULL and the text ends with a zero byte. *)
Theorem Interval_text_roundtrip (i : interval_t) (memory : list Z) :
  in_limits int32_t (months i) → in_limits int32_t (days i) → - 2 ^ 63 < micros i < 2 ^ 63 →
  ∃ text, Interval_ToString i = Ok text ∧ (length text <= 70)%nat ∧
    (time_ok (micros i) → Interval_FromCString text (0 :: memory) = Ok (Some i)).
Proof.
  intros Hm Hd Hu. assert (inS 32 (months i) ∧ inS 32 (days i)) as [Hm32 Hd32] by (limits; lia).
  destruct (Interval_ToString_fits i Hm32 Hd32 Hu) as [Hfit [text Ht]]. rewrite Ht in Hfit. exists text. split; [done|].
  split; [unfold Interval_ToString in Hfit; rewrite Ht in Hfit; cbn [mbind res_bind] in Hfit;
    destruct (Nat.ltb_spec 70 (length text)); [done|lia]|].
  intros Htime. rewrite format_interval_eq in Ht by done. cbv zeta in Ht.
  set (years := wrapS 32 (Z.quot (months i) 12)) in *. set (rest_months := wrapS 32 (months i - years * 12)) in *.
  set (t1 := unit_suffix years " year" []) in *. set (t2 := t1 ++ unit_suffix rest_months " month" t1) in *.
  set (t3 := t2 ++ unit_suffix (days i) " day" t2) in *.
  assert (∃ suffix, text = t3 ++ suffix ∧ (t3 ≠ [] → separated suffix) ∧
    parses text (0 :: memory) suffix (negb (bool_decide (t3 = []))) (mkInterval (months i) (days i) 0) (Ok (Some i))) as (suffix & -> & Hsep & Hp).
  { assert (∀ n, ends_time (take n (0 :: memory))) as Hends by (intros [|n]; done).
    assert (∀ u, time_ok u → micros i = u → inS 64 (0 + u)) as Hin by (unfold time_ok, inS, MICROS_PER_DAY; lia).
    destruct (Z.eqb_spec (micros i) 0) as [H0|H0].
    - injection Ht as <-. case_bool_decide as H3.
      + exists (codes "00:00:00"). split; [by rewrite H3|]. split; [done|].
        pose proof (parses_time (codes "00:00:00") (0 :: memory) [] 0 (codes "00:00:00") (negb true) (mkInterval (months i) (days i) 0)) as Hp.
        destruct i as [mi di ui]. cbn [micros months days] in *. subst ui.
        apply Hp; [done|by vm_compute|constructor|apply Hends|by apply Hin].
      + exists []. rewrite app_nil_r. split; [done|]. split; [done|]. intros fuel Hf. destruct fuel as [|fuel]; [lia|].
        cbn. destruct i as [mi di ui]. cbn in H0. by subst ui.
    - assert (micros i <? 0 = false) as Hpos by (apply Z.ltb_ge; unfold time_ok in Htime; lia). rewrite Hpos in Ht.
      destruct (format_interval_time (micros i)) as [time|e] eqn:E; [|done]. cbn [mbind res_bind app] in Ht. injection Ht as <-.
      exists ((if bool_decide (t3 = []) then [] else [32]) ++ time). split; [done|].
      split; [intros H; by rewrite bool_decide_false|].
      assert (Forall (λ c, is_blank c = true) (if bool_decide (t3 = []) then [] else [32])) as Hbl
        by (destruct (bool_decide (t3 = [])); by repeat constructor).
      pose proof (parses_time (t3 ++ (if bool_decide (t3 = []) then [] else [32]) ++ time) (0 :: memory)
        (if bool_decide (t3 = []) then [] else [32]) (micros i) time (negb (bool_decide (t3 = [])))
        (mkInterval (months i) (days i) 0) Htime E Hbl (Hends _) (Hin _ Htime eq_refl)) as Hp.
      destruct i as [mi di ui]. exact Hp. }
  pose proof (parses_units _ _ i suffix _ Hm Hd Hsep Hp) as Hparse. cbv zeta in Hparse. fold years rest_months t1 t2 t3 in Hparse.
  apply first_character; [|exact Hparse]. apply (parses_first _ _ _ _ _ Hparse). intros [H3 Hs]%app_eq_nil.
  rewrite H3, Hs in Hparse. specialize (Hparse 1%nat ltac:(cbn; lia)). discriminate Hparse.
Qed.

Lemma Interval_text_roundtrip_witness :
  ∃ text, Interval_ToString (mkInterval (-25) 1 3723500000) = Ok text ∧
    Interval_FromCString text [0; 46; 57] = Ok (Some (mkInterval (-25) 1 3723500000)).
Proof.
  destruct (Interval_text_roundtrip (mkInterval (-25) 1 3723500000) [46; 57]) as (text & H & _ & Hback);
    [limits; cbn; lia..|cbn; lia|]. exists text. split; [exact H|]. apply Hback. unfold time_ok, MICROS_PER_DAY. cbn. lia.
Defined.

(** adding an interval to a date goes forward by its months, keeping the day
    of the month, then by its days and by the whole days of its time; it throws
    when the month has no such day or the year is out of range.  Adding an
    interval to a time of day, or subtracting it, is addition and subtraction of
    its time around the clock. *)
Theorem Date_time_arithmetic (date time : Z) (i : interval_t) (y m d : Z) :
  Date_Convert date = (y, m, d) → MIN_YEAR <= y <= MAX_YEAR → inS 32 (months i) → - 2 ^ 63 < micros i < 2 ^ 63 → time_ok time →
  let k := y * 12 + (m - 1) + months i in
  let target := (k / 12, k mod 12 + 1, d) in
  AddDate date i =
    (if bool_decide (MIN_YEAR <= k / 12 <= MAX_YEAR ∧ calendar_date target)
     then Ok (wrapS 32 (day_number target + days i + Z.quot (micros i) MICROS_PER_DAY))
     else Throw (ConversionException "Date out of range")) ∧
  AddTime time i = (time + micros i) mod MICROS_PER_DAY ∧
  SubtractTime time i = (time - micros i) mod MICROS_PER_DAY.
Proof.
  intros Hconv Hy Hm Hu Ht k target. split; [|split].
  - rewrite (AddDate_spec date i y m d) by done. fold k. case_bool_decide as H.
    + destruct H as [Hy' Hc]. by rewrite FromDate_spec.
    + by rewrite FromDate_invalid.
  - apply AddTime_spec; [done|unfold inS; lia].
  - unfold SubtractTime. rewrite AddTime_spec; cbn [micros]; rewrite ?wrapS_small by (lia || unfold inS; lia); [f_equal; lia|done|unfold inS; lia].
Qed.

Lemma Date_time_arithmetic_witness :
  AddDate 30 (mkInterval 1 0 0) = Throw (ConversionException "Date out of range") ∧
  AddTime 82800000000 (mkInterval 0 0 7200000000) = 3600000000.
Proof.
  split.
  - refine (proj1 (Date_time_arithmetic 30 0 (mkInterval 1 0 0) 1970 1 31 _ _ _ _ _));
      [reflexivity|vm_compute; split; discriminate|unfold inS; cbn; lia|cbn; lia|unfold time_ok, MICROS_PER_DAY; lia].
  - refine (proj1 (proj2 (Date_time_arithmetic 0 82800000000 (mkInterval 0 0 7200000000) 1970 1 1 _ _ _ _ _)));
      [reflexivity|vm_compute; split; discriminate|unfold inS; cbn; lia|cbn; lia|unfold time_ok, MICROS_PER_DAY; lia].
Defined.

(** The comparison of intervals is a strict order on the normalised
    intervals, which have the same duration, a month counting as 30 days: no
    interval is greater than itself, the order is transitive, and of two
    intervals one is greater or both have the same normal form. *)
Theorem Interval_order :
  (∀ a, Interval_GreaterThan a a = false) ∧
  (∀ a b c, Interval_GreaterThan a b = true → Interval_GreaterThan b c = true → Interval_GreaterThan a c = true) ∧
  (∀ a b, Interval_GreaterThan a b = true ∨ Interval_GreaterThan b a = true ∨
          NormalizeIntervalEntries a = NormalizeIntervalEntries b) ∧
  (∀ a m d u, inS 32 (months a) → inS 32 (days a) → inS 64 (micros a) → NormalizeIntervalEntries a = (m, d, u) →
     duration a = duration (mkInterval m d u) ∧ Z.abs u < MICROS_PER_DAY ∧ Z.abs d < 59).
Proof.
  split; [|split; [|split; [|exact Normalize_duration]]].
  - intros a. apply not_true_iff_false. rewrite GreaterThan_spec. destruct (NormalizeIntervalEntries a) as [[m d] u]. lia.
  - intros a b c. rewrite !GreaterThan_spec. destruct (NormalizeIntervalEntries a) as [[m d] u],
      (NormalizeIntervalEntries b) as [[m' d'] u'], (NormalizeIntervalEntries c) as [[m'' d''] u'']. lia.
  - intros a b. rewrite !GreaterThan_spec. destruct (NormalizeIntervalEntries a) as [[m d] u],
      (NormalizeIntervalEntries b) as [[m' d'] u'].
    destruct (Z.lt_trichotomy m m') as [?|[->|?]]; [lia| |lia]. destruct (Z.lt_trichotomy d d') as [?|[->|?]]; [lia| |lia].
    destruct (Z.lt_trichotomy u u') as [?|[->|?]]; [lia| |lia]. by right; right.
Qed.

Lemma Interval_order_witness : duration (mkInterval 0 45 (-1)) = duration (mkInterval 1 15 (-1)).
Proof. refine (proj1 (proj2 (proj2 (proj2 Interval_order)) (mkInterval 0 45 (-1)) 1 15 (-1) _ _ _ _)); [unfold inS; cbn; lia..|reflexivity]. Defined.

(** ** What goes wrong *)

(** A month and 30 days have the same normal form, but neither is greater or
    equal to the other; and the normal form of 29 days and 48 hours has 31 days,
    so it is smaller than a month. *)
Lemma month_and_days :
  Interval_GreaterThanEquals (mkInterval 1 0 0) (mkInterval 0 30 0) = false ∧
  Interval_GreaterThanEquals (mkInterval 0 30 0) (mkInterval 1 0 0) = false ∧
  Interval_GreaterThan (mkInterval 1 0 0) (mkInterval 0 29 (48 * MICROS_PER_HOUR)) = true.
Proof. vm_compute. done. Qed.

(** The index of the test for "ago" is a comparison: every word of three letters
    that starts with an a is accepted. *)
Lemma ago_is_not_checked : Interval_FromCString (codes "1 day abc") [0] = Ok (Some (mkInterval 0 (-1) 0)).
Proof. vm_compute. reflexivity. Qed.

(** The sign of a time is ignored, so a printed negative time reads back positive. *)
Lemma negative_time_is_positive :
  Interval_ToString (mkInterval 0 0 (- MICROS_PER_HOUR)) = Ok (codes "-01:00:00") ∧
  Interval_FromCString (codes "-01:00:00") [0] = Ok (Some (mkInterval 0 0 MICROS_PER_HOUR)).
Proof. vm_compute. done. Qed.

(** A time behind other units is read beyond the end of the text. *)
Lemma time_reads_beyond_the_end :
  Interval_FromCString (codes "1 day 01:00:00") (codes ".5") = Ok (Some (mkInterval 0 1 3600500000)) ∧
  Interval_FromCString (codes "1 day 01:00:00") (codes " ") = Ok (Some (mkInterval 0 1 3600000000)).
Proof. vm_compute. done. Qed.

(** A number without a unit at the end is ignored. *)
Lemma last_number_is_ignored : Interval_FromCString (codes "1 day 5") [0] = Ok (Some (mkInterval 0 1 0)).
Proof. vm_compute. reflexivity. Qed.

(** The time of a timestamp goes around the clock without changing its date. *)
Lemma timestamp_loses_a_day :
  AddTimestamp (23 * MICROS_PER_HOUR) (mkInterval 0 0 (2 * MICROS_PER_HOUR)) = Ok MICROS_PER_HOUR.
Proof. vm_compute. reflexivity. Qed.

(** A difference of less than a day has no sign. *)
Lemma difference_loses_the_sign :
  GetDifference 0 MICROS_PER_HOUR = GetDifference MICROS_PER_HOUR 0.
Proof. vm_compute. reflexivity. Qed.

(** The factor of an interval is cut to 32 bits for months and days. *)
Lemma multiply_cuts_the_factor : MultiplyInterval (mkInterval 1 0 0) (2 ^ 32) = Ok (mkInterval 0 0 0).
Proof. vm_compute. reflexivity. Qed.
