(* ===== verification/CatalogSet.v ===== *)
(** * Catalog sets and the dependency manager

    Models src/src/catalog/catalog_set.cpp, src/src/catalog/dependency_manager.cpp
    with their headers, and the [CATALOG_ENTRY] cases of commit_state.cpp,
    rollback_state.cpp and cleanup_state.cpp of src/src/transaction/.

    A catalog set maps names to slots and slots to chains of versions.  A chain
    of owning [child] pointers is a list, the newest version first, and the
    [parent] of a version is the one before it.  A pointer to an entry is its
    set, its slot and its identity: an entry never leaves its slot, except in
    [Undo] when the name leads elsewhere, which the model follows.  The sets of
    a catalog and its dependency manager are one state, as they call each other;
    the undo buffers of the transactions hold the pointers that they push.  What
    [AlterEntry] of an entry computes is a parameter.

    Operations run in a monad of states and exceptions: an exception keeps the
    changes that were made before it.  The locks are not modelled, nor is the
    write-ahead log, nor the serialised alter information, and the unordered
    sets of the dependency manager are visited in the order of insertion. *)

From S2P Require Import Prelude Constants.

(** ** Data *)

Inductive CatalogType : Set :=
| INVALID
| TABLE_ENTRY
| SCHEMA_ENTRY
| VIEW_ENTRY
| INDEX_ENTRY
| PREPARED_STATEMENT
| SEQUENCE_ENTRY
| COLLATION_ENTRY
| TABLE_FUNCTION_ENTRY
| SCALAR_FUNCTION_ENTRY
| AGGREGATE_FUNCTION_ENTRY
| PRAGMA_FUNCTION_ENTRY
| COPY_FUNCTION_ENTRY
| MACRO_ENTRY
| UPDATED_ENTRY
| DELETED_ENTRY.

#[global] Instance CatalogType_eq_dec : EqDecision CatalogType.
Proof. solve_decision. Defined.

Record MappingValue : Set := mkMappingValue {
  mv_index : nat;
  mv_timestamp : Z;
  mv_deleted : bool;
}.

(** A set, a slot and an identity. *)
Abbreviation entry_ptr := (nat * nat * nat)%type.

Record Dependency : Set := mkDependency {
  dep_entry : entry_ptr;
  requires_cascade : bool;
}.

(** [StringUtil::Lower]. *)
Definition lower_char (c : Ascii.ascii) : Ascii.ascii :=
  let n := Ascii.N_of_ascii c in
  if (65 <=? n)%N && (n <=? 90)%N then Ascii.ascii_of_N (n + 32) else c.

Fixpoint StringUtil_Lower (str : string) : string :=
  match str with
  | EmptyString => EmptyString
  | String c str => String (lower_char c) (StringUtil_Lower str)
  end.

Section catalog.
(** The contents of entries, which this code does not look at. *)
Context {A : Type}.

Record CatalogEntry : Type := mkCatalogEntry {
  ce_id : nat;
  ce_type : CatalogType;
  ce_name : string;
  ce_timestamp : Z;
  ce_deleted : bool;
  ce_temporary : bool;
  ce_internal : bool;
  ce_content : option A;
}.

(** An entry as its creator hands it over: not deleted, no timestamp yet. *)
Record EntryData : Type := mkEntryData {
  ed_type : CatalogType;
  ed_name : string;
  ed_temporary : bool;
  ed_internal : bool;
  ed_content : A;
}.

Definition make_entry (id : nat) (d : EntryData) (timestamp : Z) : CatalogEntry :=
  mkCatalogEntry id (ed_type d) (ed_name d) timestamp false (ed_temporary d) (ed_internal d) (Some (ed_content d)).

Definition set_timestamp (timestamp : Z) (e : CatalogEntry) : CatalogEntry :=
  mkCatalogEntry (ce_id e) (ce_type e) (ce_name e) timestamp (ce_deleted e) (ce_temporary e) (ce_internal e)
    (ce_content e).

Record CatalogSet : Type := mkCatalogSet {
  cs_mapping : gmap string (list MappingValue);
  cs_entries : gmap nat (list CatalogEntry);
  cs_current_entry : nat;
}.

Record Catalog : Type := mkCatalog {
  cat_sets : gmap nat CatalogSet;
  cat_dependents_map : gmap nat (list Dependency);
  cat_dependencies_map : gmap nat (list entry_ptr);
  cat_next_id : nat;
  cat_version : Z;
  cat_undo : gmap Z (list entry_ptr);
}.
Implicit Types (c : Catalog) (s : CatalogSet) (t : Transaction) (e : CatalogEntry) (p : entry_ptr).

(** ** The monad *)

Definition M (B : Type) : Type := Catalog → out Catalog B.

#[export] Instance M_ret : MRet M := λ B b c, Ret c b.
#[export] Instance M_bind : MBind M := λ B D f m c,
  match m c with Ret c b => f b c | Raise c ex => Raise c ex end.

Definition throw {B} (ex : exception) : M B := λ c, Raise c ex.

Definition gets {B} (f : Catalog → B) : M B := λ c, Ret c (f c).

Definition modify (f : Catalog → Catalog) : M () := λ c, Ret (f c) ().

(** Reading through a pointer or an iterator that may be invalid. *)
Definition valid {B} (o : option B) : M B :=
  match o with Some b => mret b | None => throw (UndefinedBehaviour "invalid pointer") end.

Fixpoint for_each {B} (f : B → M ()) (l : list B) : M () :=
  match l with [] => mret () | b :: l => f b ≫= λ _, for_each f l end.

Definition with_sets (f : gmap nat CatalogSet → gmap nat CatalogSet) c : Catalog :=
  mkCatalog (f (cat_sets c)) (cat_dependents_map c) (cat_dependencies_map c) (cat_next_id c) (cat_version c) (cat_undo c).

Definition with_dependencies (f : gmap nat (list Dependency) → gmap nat (list Dependency))
    (g : gmap nat (list entry_ptr) → gmap nat (list entry_ptr)) c : Catalog :=
  mkCatalog (cat_sets c) (f (cat_dependents_map c)) (g (cat_dependencies_map c)) (cat_next_id c) (cat_version c)
    (cat_undo c).

Definition get_set (sid : nat) : M CatalogSet := gets (λ c, cat_sets c !! sid) ≫= valid.

Definition put_set (sid : nat) s : M () := modify (with_sets (<[sid := s]>)).

(** A new object. *)
Definition fresh_id : M nat := λ c,
  Ret (mkCatalog (cat_sets c) (cat_dependents_map c) (cat_dependencies_map c) (S (cat_next_id c)) (cat_version c)
        (cat_undo c)) (cat_next_id c).

Definition undo_of c (tid : Z) : list entry_ptr := default [] (cat_undo c !! tid).

(** [Transaction::PushCatalogEntry]. *)
Definition PushCatalogEntry t p : M () := modify (λ c,
  mkCatalog (cat_sets c) (cat_dependents_map c) (cat_dependencies_map c) (cat_next_id c) (cat_version c)
    (<[transaction_id t := undo_of c (transaction_id t) ++ [p]]> (cat_undo c))).

(** [Catalog::ModifyCatalog]. *)
Definition ModifyCatalog : M () := modify (λ c,
  mkCatalog (cat_sets c) (cat_dependents_map c) (cat_dependencies_map c) (cat_next_id c) (u64 (cat_version c + 1))
    (cat_undo c)).

(** ** Timestamps *)

Definition HasConflict t (timestamp : Z) : bool :=
  ((TRANSACTION_ID_START <=? timestamp) && negb (timestamp =? transaction_id t)) ||
  ((timestamp <? TRANSACTION_ID_START) && (start_time t <? timestamp)).

Definition UseTimestamp t (timestamp : Z) : bool :=
  if timestamp =? transaction_id t then true
  else if timestamp <? start_time t then true
  else false.

(** [while (current->child) { if (use) break; current = current->child; }] *)
Fixpoint first_usable {B} (use : B → bool) (chain : list B) : option B :=
  match chain with
  | [] => None
  | [b] => Some b
  | b :: chain => if use b then Some b else first_usable use chain
  end.

Definition GetEntryForTransaction t (chain : list CatalogEntry) : option CatalogEntry :=
  first_usable (λ e, UseTimestamp t (ce_timestamp e)) chain.

Definition GetCommittedEntry (chain : list CatalogEntry) : option CatalogEntry :=
  first_usable (λ e, ce_timestamp e <? TRANSACTION_ID_START) chain.

(** ** Names *)

(** The mapping under this name, or under the only name that is equal to it in
    lower case. *)
Definition find_mapping s (name : string) (allow_lowercase_alias : bool) : option (list MappingValue) :=
  match cs_mapping s !! name with
  | Some values => Some values
  | None =>
      if allow_lowercase_alias then
        match List.filter (λ kv, bool_decide (StringUtil_Lower name = StringUtil_Lower kv.1)) (map_to_list (cs_mapping s)) with
        | [kv] => Some kv.2
        | _ => None
        end
      else None
  end.

Definition GetMapping t s (name : string) (allow_lowercase_alias get_latest : bool) : option MappingValue :=
  values ← find_mapping s name allow_lowercase_alias;
  if get_latest then head values
  else first_usable (λ m, UseTimestamp t (mv_timestamp m)) values.

Definition set_mapping (name : string) (values : list MappingValue) s : CatalogSet :=
  mkCatalogSet (<[name := values]> (cs_mapping s)) (cs_entries s) (cs_current_entry s).

Definition PutMapping t (sid : nat) (name : string) (entry_index : nat) : M () :=
  s ← get_set sid;
  let new_value := mkMappingValue entry_index (transaction_id t) false in
  match cs_mapping s !! name with
  | Some (m :: values) =>
      if HasConflict t (mv_timestamp m) then throw (TransactionException "Catalog write-write conflict on name")
      else put_set sid (set_mapping name (new_value :: m :: values) s)
  | _ => put_set sid (set_mapping name [new_value] s)
  end.

Definition DeleteMapping t (sid : nat) (name : string) : M () :=
  s ← get_set sid;
  values ← valid (cs_mapping s !! name);
  m ← valid (head values);
  put_set sid (set_mapping name (mkMappingValue (mv_index m) (transaction_id t) true :: values) s).

(** ** Entries *)

Definition set_chain (entry_index : nat) (chain : list CatalogEntry) s : CatalogSet :=
  mkCatalogSet (cs_mapping s) (<[entry_index := chain]> (cs_entries s)) (cs_current_entry s).

(** The first [GetEntryInternal]. *)
Definition GetEntryAt t (sid entry_index : nat) : M (option CatalogEntry) :=
  s ← get_set sid;
  chain ← valid (cs_entries s !! entry_index);
  catalog_entry ← valid (head chain);
  if HasConflict t (ce_timestamp catalog_entry) then
    throw (TransactionException "Catalog write-write conflict on alter")
  else if ce_deleted catalog_entry then mret None
  else mret (Some catalog_entry).

(** The second one. *)
Definition GetEntryInternal t (sid : nat) (name : string) : M (option (nat * CatalogEntry)) :=
  s ← get_set sid;
  match GetMapping t s name true false with
  | None => mret None
  | Some mapping_value =>
      if mv_deleted mapping_value then mret None
      else
        found ← GetEntryAt t sid (mv_index mapping_value);
        mret (pair (mv_index mapping_value) <$> found)
  end.

(** What a pointer points at. *)
Definition deref c p : option CatalogEntry :=
  s ← cat_sets c !! p.1.1;
  chain ← cs_entries s !! p.1.2;
  List.find (λ e, (ce_id e =? p.2)%nat) chain.

(** Makes [value] the newest version of a slot and logs the one below it. *)
Definition push_version t (sid entry_index : nat) (value : CatalogEntry) : M () :=
  s ← get_set sid;
  chain ← valid (cs_entries s !! entry_index);
  child ← valid (head chain);
  _ ← PushCatalogEntry t (sid, entry_index, ce_id child);
  put_set sid (set_chain entry_index (value :: chain) s).

(** ** The dependency manager *)

(** Insertion in an unordered set of dependencies: by pointer. *)
Definition insert_dependency (d : Dependency) (l : list Dependency) : list Dependency :=
  if existsb (λ d', bool_decide (dep_entry d' = dep_entry d)) l then l else l ++ [d].

Definition add_dependents (d : Dependency) (dependencies : list entry_ptr) (m : gmap nat (list Dependency))
    : gmap nat (list Dependency) :=
  foldl (λ m p, <[p.2 := insert_dependency d (default [] (m !! p.2))]> m) m dependencies.

Definition AddObject t (object : entry_ptr) (type : CatalogType) (dependencies : list entry_ptr) : M () :=
  _ ← for_each (λ dependency,
        d ← gets (λ c, deref c dependency) ≫= valid;
        found ← GetEntryInternal t dependency.1.1 (ce_name d);
        match found with
        | None => throw (InternalException "Dependency has already been deleted?")
        | Some _ => mret ()
        end) dependencies;
  let requires_cascade := negb (bool_decide (type = INDEX_ENTRY)) in
  modify (with_dependencies
    (λ m, <[object.2 := []]> (add_dependents (mkDependency object requires_cascade) dependencies m))
    (<[object.2 := dependencies]>)).

Definition AlterObject t (old_obj new_obj : entry_ptr) : M () :=
  dependent_objects ← gets (λ c, default [] (cat_dependents_map c !! old_obj.2));
  _ ← for_each (λ dep,
        d ← gets (λ c, deref c (dep_entry dep)) ≫= valid;
        found ← GetEntryInternal t (dep_entry dep).1.1 (ce_name d);
        match found with
        | None => mret ()
        | Some _ => throw (CatalogException "Cannot alter entry because there are entries that depend on it.")
        end) dependent_objects;
  old_dependencies ← gets (λ c, default [] (cat_dependencies_map c !! old_obj.2));
  modify (with_dependencies
    (λ m, <[new_obj.2 := []]> (add_dependents (mkDependency new_obj true) old_dependencies m))
    (<[new_obj.2 := old_dependencies]>)).

Definition EraseObject (object : entry_ptr) : M () := modify (λ c,
  match cat_dependents_map c !! object.2 with
  | None => c
  | Some _ =>
      with_dependencies
        (λ m, delete object.2 (foldl (λ m (p : entry_ptr),
           alter (List.filter (λ d, negb (bool_decide (dep_entry d = object)))) p.2 m) m
           (default [] (cat_dependencies_map c !! object.2))))
        (delete object.2) c
  end).

(** [ClearDependencies]: every version of every slot of a set. *)
Definition ClearDependencies (sid : nat) : M () :=
  s ← get_set sid;
  for_each (λ slot, for_each (λ e, EraseObject (sid, slot.1, ce_id e)) slot.2) (map_to_list (cs_entries s)).

(** ** Dropping entries *)

(** [DropEntryInternal] and [DependencyManager::DropObject], which call each
    other; [fuel] bounds the depth of the dependencies. *)
Fixpoint DropEntryInternal (fuel : nat) t (sid entry_index : nat) (entry : CatalogEntry) (cascade : bool) : M () :=
  match fuel with
  | O => throw (UndefinedBehaviour "unbounded recursion")
  | S fuel =>
      dependent_objects ← gets (λ c, default [] (cat_dependents_map c !! ce_id entry));
      _ ← for_each (λ dep,
            d ← gets (λ c, deref c (dep_entry dep)) ≫= valid;
            let catalog_set := (dep_entry dep).1.1 in
            s ← get_set catalog_set;
            match GetMapping t s (ce_name d) true false with
            | None => mret ()
            | Some mapping_value =>
                found ← GetEntryAt t catalog_set (mv_index mapping_value);
                match found with
                | None => mret ()
                | Some dependency_entry =>
                    if cascade || negb (requires_cascade dep) then
                      DropEntryInternal fuel t catalog_set (mv_index mapping_value) dependency_entry cascade
                    else
                      throw (CatalogException
                        "Cannot drop entry because there are entries that depend on it. Use DROP...CASCADE to drop all dependents.")
                end
            end) dependent_objects;
      id ← fresh_id;
      push_version t sid entry_index
        (mkCatalogEntry id DELETED_ENTRY (ce_name entry) (transaction_id t) true false false None)
  end.

Definition DropEntry (fuel : nat) t (sid : nat) (name : string) (cascade : bool) : M bool :=
  found ← GetEntryInternal t sid name;
  match found with
  | None => mret false
  | Some (entry_index, entry) =>
      if ce_internal entry then
        throw (CatalogException "Cannot drop entry because it is an internal system entry")
      else
        _ ← DropEntryInternal fuel t sid entry_index entry cascade;
        mret true
  end.

(** ** Creating and altering entries *)

(** A new slot with a dummy version, under a new mapping. *)
Definition create_dummy t (sid : nat) (name : string) : M nat :=
  s ← get_set sid;
  let entry_index := cs_current_entry s in
  id ← fresh_id;
  let dummy_node := mkCatalogEntry id INVALID name 0 true false false None in
  _ ← put_set sid (mkCatalogSet (cs_mapping s) (<[entry_index := [dummy_node]]> (cs_entries s)) (S entry_index));
  _ ← PutMapping t sid name entry_index;
  mret entry_index.

(** The slot for a new entry, or [None] when an entry with this name exists. *)
Definition create_slot t (sid : nat) (name : string) : M (option nat) :=
  s ← get_set sid;
  match GetMapping t s name false false with
  | Some mapping_value =>
      if mv_deleted mapping_value then (entry_index ← create_dummy t sid name; mret (Some entry_index))
      else
        chain ← valid (cs_entries s !! mv_index mapping_value);
        current ← valid (head chain);
        if HasConflict t (ce_timestamp current) then
          throw (TransactionException "Catalog write-write conflict on create")
        else if negb (ce_deleted current) then mret None
        else mret (Some (mv_index mapping_value))
  | None => entry_index ← create_dummy t sid name; mret (Some entry_index)
  end.

Definition CreateEntry t (sid : nat) (value : EntryData) (dependencies : list entry_ptr) : M bool :=
  slot ← create_slot t sid (ed_name value);
  match slot with
  | None => mret false
  | Some entry_index =>
      id ← fresh_id;
      _ ← AddObject t (sid, entry_index, id) (ed_type value) dependencies;
      _ ← push_version t sid entry_index (make_entry id value (transaction_id t));
      mret true
  end.

(** The change of names of an alter. *)
Definition rename t (sid entry_index : nat) (original_name name : string) : M () :=
  s ← get_set sid;
  _ ← match GetMapping t s name true false with
      | Some mapping_value =>
          if mv_deleted mapping_value then mret ()
          else
            chain ← valid (cs_entries s !! mv_index mapping_value);
            entry ← valid (GetEntryForTransaction t chain);
            if negb (ce_deleted entry) then
              throw (CatalogException "Could not rename: another entry with this name already exists!")
            else mret ()
      | None => mret ()
      end;
  _ ← PutMapping t sid name entry_index;
  DeleteMapping t sid original_name.

(** [alter] is [AlterEntry] of the entry for the given information: it throws,
    fails without an error, or returns the new entry. *)
Definition AlterEntry t (sid : nat) (name : string) (alter : CatalogEntry → res (option EntryData)) : M bool :=
  found ← GetEntryInternal t sid name;
  match found with
  | None => mret false
  | Some (entry_index, entry) =>
      if ce_internal entry then
        throw (CatalogException "Cannot alter entry because it is an internal system entry")
      else
        match alter entry with
        | Throw ex => throw ex
        | Ok None => mret true
        | Ok (Some value) =>
            _ ← (if bool_decide (ed_name value = ce_name entry) then mret ()
                 else rename t sid entry_index (ce_name entry) (ed_name value));
            id ← fresh_id;
            _ ← AlterObject t (sid, entry_index, ce_id entry) (sid, entry_index, id);
            _ ← push_version t sid entry_index (make_entry id value (transaction_id t));
            mret true
        end
  end.

(** ** Looking entries up *)

(** [GetEntry]: [defaults] makes an entry for a name that is not there. *)
Definition GetEntry (defaults : string → option EntryData) t (sid : nat) (name : string) : M (option CatalogEntry) :=
  s ← get_set sid;
  let create_default :=
    match defaults name with
    | None => mret None
    | Some d =>
        let entry_index := cs_current_entry s in
        id ← fresh_id;
        _ ← put_set sid (mkCatalogSet (cs_mapping s) (cs_entries s) (S entry_index));
        _ ← PutMapping t sid name entry_index;
        s ← get_set sid;
        values ← valid (cs_mapping s !! name);
        let catalog_entry := make_entry id d 0 in
        let values :=
          match values with m :: values => mkMappingValue (mv_index m) 0 (mv_deleted m) :: values | [] => [] end in
        _ ← put_set sid (set_chain entry_index [catalog_entry] (set_mapping name values s));
        mret (Some catalog_entry)
    end in
  match GetMapping t s name true false with
  | None => create_default
  | Some mapping_value =>
      if mv_deleted mapping_value then create_default
      else
        chain ← valid (cs_entries s !! mv_index mapping_value);
        current ← valid (GetEntryForTransaction t chain);
        if ce_deleted current ||
           (negb (bool_decide (ce_name current = name)) && negb (UseTimestamp t (mv_timestamp mapping_value)))
        then mret None
        else mret (Some current)
  end.

Definition GetRootEntry (sid : nat) (name : string) : M (option CatalogEntry) :=
  s ← get_set sid;
  match cs_mapping s !! name ≫= head with
  | None => mret None
  | Some m => if mv_deleted m then mret None else mret (cs_entries s !! mv_index m ≫= head)
  end.

(** The two [Scan] functions, for the entries they call back with. *)
Definition scan_entries (current : list CatalogEntry → option CatalogEntry) s : list CatalogEntry :=
  omap (λ slot, match current slot.2 with
                | Some e => if ce_deleted e then None else Some e
                | None => None
                end) (map_to_list (cs_entries s)).

Definition Scan t s : list CatalogEntry := scan_entries (GetEntryForTransaction t) s.

Definition ScanCommitted s : list CatalogEntry := scan_entries GetCommittedEntry s.

(** ** Commit, rollback and cleanup *)

(** The versions above and below an entry in its chain. *)
Fixpoint split_chain (id : nat) (chain : list CatalogEntry)
    : option (list CatalogEntry * CatalogEntry * list CatalogEntry) :=
  match chain with
  | [] => None
  | e :: chain =>
      if (ce_id e =? id)%nat then Some ([], e, chain)
      else '(above, e', below) ← split_chain id chain; Some (e :: above, e', below)
  end.

(** A pointer with its surroundings: the set, the versions above it, itself and
    the versions below it. *)
Definition locate p : M (CatalogSet * list CatalogEntry * CatalogEntry * list CatalogEntry) :=
  s ← get_set p.1.1;
  chain ← valid (cs_entries s !! p.1.2);
  '(above, e, below) ← valid (split_chain p.2 chain);
  mret (s, above, e, below).

(** [UpdateTimestamp] of the entry [e] in the slot [p.1.2]. *)
Definition UpdateTimestamp p (timestamp : Z) : M () :=
  '(s, above, e, below) ← locate p;
  values ← valid (cs_mapping s !! ce_name e);
  m ← valid (head values);
  put_set p.1.1
    (set_mapping (ce_name e) (mkMappingValue (mv_index m) timestamp (mv_deleted m) :: tail values)
      (set_chain p.1.2 (above ++ set_timestamp timestamp e :: below) s)).

(** [CommitState::CommitEntry] and [RevertCommit] for a catalog entry: both
    stamp the parent, and after a change of names the entry itself. *)
Definition StampCatalogEntry (timestamp : Z) p : M () :=
  '(_, above, e, _) ← locate p;
  parent ← valid (last above);
  _ ← UpdateTimestamp (p.1, ce_id parent) timestamp;
  if bool_decide (ce_name e = ce_name parent) then mret () else UpdateTimestamp p timestamp.

(** Removes the newest mapping of a name. *)
Definition pop_mapping (name : string) s : option CatalogSet :=
  values ← cs_mapping s !! name;
  match values with
  | [] => None
  | [_] => Some (mkCatalogSet (delete name (cs_mapping s)) (cs_entries s) (cs_current_entry s))
  | _ :: values => Some (set_mapping name values s)
  end.

(** [CatalogSet::Undo].  With a version above the one that is removed, the C++ code
    reads the [parent] of the removed node after it was freed; the model unlinks
    the node.  In the states that runs without renames reach, the removed node
    is the newest. *)
Definition Undo p : M () :=
  '(s, above, entry, below) ← locate p;
  to_be_removed_node ← valid (last above);
  _ ← (if negb (ce_deleted to_be_removed_node) then EraseObject (p.1, ce_id to_be_removed_node) else mret ());
  s ← (if bool_decide (ce_name entry = ce_name to_be_removed_node) then mret s
       else valid (pop_mapping (ce_name to_be_removed_node) s));
  s ← (if (1 <? length above)%nat then mret (set_chain p.1.2 (removelast above ++ entry :: below) s)
       else
         m ← valid (cs_mapping s !! ce_name entry ≫= head);
         (* the removed node stays behind when the name leads to another slot *)
         mret (set_chain (mv_index m) (entry :: below) (set_chain p.1.2 [to_be_removed_node] s)));
  restored ← valid (cs_mapping s !! ce_name entry ≫= head);
  s ← (if mv_deleted restored || bool_decide (ce_type entry = INVALID)
       then valid (pop_mapping (ce_name entry) s) else mret s);
  _ ← put_set p.1.1 s;
  ModifyCatalog.

(** [CleanupState::CleanupEntry] for a catalog entry. *)
Definition CleanupCatalogEntry p : M () :=
  '(s, above, e, below) ← locate p;
  parent ← valid (last above);
  if bool_decide (ce_type parent = UPDATED_ENTRY) then mret ()
  else
    _ ← (if negb (ce_deleted e) then EraseObject p else mret ());
    (* the parent pointer of a version further down is not updated *)
    match below with
    | [] => put_set p.1.1 (set_chain p.1.2 above s)
    | _ => throw (UndefinedBehaviour "dangling parent")
    end.
End catalog.
