(* ===== verification/SegmentStore.v ===== *)
(** * Update segments under the transaction manager

    Puts src/src/storage/table/update_segment.cpp under
    src/src/transaction/transaction_manager.cpp: the undo buffer of a
    transaction holds the update infos that it created, its commit stamps them
    with the commit id, its rollback undoes them in reverse order and its
    cleanup unlinks them (the [UPDATE_TUPLE] cases of commit_state.cpp,
    rollback_state.cpp and cleanup_state.cpp, in the orders in which
    undo_buffer.cpp visits the entries).

    Theorems: this store keeps every promise of [SnapshotStoreLaws], so a
    column that is updated in place gives snapshot isolation under every
    interleaving of transactions. *)

From S2P Require Import Prelude Constants Serializer ChunkInfo MorselInfo ValidityMask Statistics.
From S2P Require Import UpdateSegment UpdateKinds TransactionManager SnapshotKeys.

Section store.
Context {T V St : Type} `{!Inhabited T, !UpdateKind T V St, !UpdateKindLaws T V St}.
Implicit Types (g : UpdateSegment T St) (gs : list (snode T)) (es : list (nat * T)).

(** The segment, the undo buffers by transaction and the base table, one list
    per vector. *)
Record SegmentDB : Type := mkSegmentDB {
  sdb_segment : UpdateSegment T St;
  sdb_undo : gmap Z (list loc);
  sdb_base : list (list T);
}.
Implicit Types (db : SegmentDB).

Definition undo_of db (tid : Z) : list loc := default [] (sdb_undo db !! tid).

Definition base_vector db (k : nat) : list T := sdb_base db !!! k.

(** [UndoBuffer::Commit], [Rollback] and [Cleanup], for entries that are
    updates.  A buffer is not read again after its rollback or cleanup.  Stamping
    updates cannot fail, so a commit of this store always succeeds and
    [UndoBuffer::RevertCommit] has nothing to do; [TableStore] has commits that
    fail. *)
Definition SegmentDB_Commit db (tid commit_id : Z) : SegmentDB :=
  mkSegmentDB (foldl (λ g l, UpdateInfo_Commit g l commit_id) (sdb_segment db) (undo_of db tid))
    (sdb_undo db) (sdb_base db).

Definition SegmentDB_Rollback db (tid : Z) : SegmentDB :=
  mkSegmentDB (foldl UpdateSegment_RollbackUpdate (sdb_segment db) (reverse (undo_of db tid)))
    (delete tid (sdb_undo db)) (sdb_base db).

Definition SegmentDB_Cleanup db (tid : Z) : SegmentDB :=
  mkSegmentDB (foldl CleanupUpdate (sdb_segment db) (undo_of db tid))
    (delete tid (sdb_undo db)) (sdb_base db).

(** An update of one vector; the entry it creates goes to the undo buffer. *)
Definition SegmentDB_Update db (t : Transaction) (update : V) (ids : list nat) (base_data : V) : SegmentDB :=
  match UpdateSegment_Update (sdb_segment db) t update ids base_data with
  | Ret g' (Some l) =>
      mkSegmentDB g' (<[transaction_id t := undo_of db (transaction_id t) ++ [l]]> (sdb_undo db)) (sdb_base db)
  | Ret g' None => mkSegmentDB g' (sdb_undo db) (sdb_base db)
  | Raise g' _ => mkSegmentDB g' (sdb_undo db) (sdb_base db)
  end.

#[export] Instance SegmentEffects : TransactionEffects SegmentDB := {
  InMemory _ := false;
  GetCatalogVersion _ := 0;
  ChangesMade db t := bool_decide (undo_of db (transaction_id t) ≠ []);
  AutomaticCheckpoint _ _ := false;
  Commit db t commit_id _ := (SegmentDB_Commit db (transaction_id t) commit_id, ""%string);
  Rollback db t := SegmentDB_Rollback db (transaction_id t);
  Cleanup db t := SegmentDB_Cleanup db (transaction_id t);
  CreateCheckpoint db := db;
}.

(** ** The invariant *)

(** A chain: the entries of the base info, and the nodes with their locations. *)
Abbreviation chain_t := (list (nat * T) * list (loc * snode T))%type.

Definition located g (k : nat) (ch : chain_t) : Prop := located_view g k ch.2.*1 ch.1 ch.2.*2.

(** The node [n] was written by [tid]: still running, or committed. *)
Definition owned_by (act : list (Z * Z)) (rec : list (Z * Z * Z)) (tid : Z) (n : snode T) : Prop :=
  (∃ st, (st, tid) ∈ act ∧ writer n = (st, tid)) ∨
  (∃ st c, ((st, tid), c) ∈ rec ∧ writer n = (st, c)).

Record store_inv db (act : list (Z * Z)) (rec : list (Z * Z * Z)) (C : nat → chain_t) : Prop := {
  sv_root : root_ok (sdb_segment db);
  sv_base : Forall (λ v, length v = VS) (sdb_base db) ∧ length (sdb_base db) = MORSEL_VECTOR_COUNT;
  sv_keys : keys_ok act rec;
  sv_chains : ∀ k, (k < MORSEL_VECTOR_COUNT)%nat → located (sdb_segment db) k (C k);
  sv_owned : ∀ k l n, (k < MORSEL_VECTOR_COUNT)%nat → (l, n) ∈ (C k).2 →
    ∃ tid, l ∈ undo_of db tid ∧ owned_by act rec tid n;
  sv_undo : ∀ tid l, l ∈ undo_of db tid →
    ∃ k n, (k < MORSEL_VECTOR_COUNT)%nat ∧ (l, n) ∈ (C k).2 ∧ owned_by act rec tid n;
  sv_nodup : ∀ tid, NoDup (undo_of db tid);
}.

#[export] Instance SegmentSnapshots : SnapshotStore SegmentDB (nat * nat) (option T) := {
  view db st tid o :=
    if decide (o.1 < MORSEL_VECTOR_COUNT ∧ o.2 < VS)%nat then
      FetchUpdates (sdb_segment db) (Transaction_new st tid 0) o.1 (base_vector db o.1) !! o.2
    else None;
  store_ok db _ act rec := ∃ C, store_inv db act rec C;
  works db k db' := ∃ t update ids base_data v,
    key t = k ∧ db' = SegmentDB_Update db t update ids base_data ∧
    (v < MORSEL_VECTOR_COUNT)%nat ∧ ids ≠ [] ∧ StronglySorted lt ids ∧
    Forall (λ id, us_start (sdb_segment db) + v * VS <= id < us_start (sdb_segment db) + v * VS + VS)%nat ids ∧
    (∀ r, (r < VS)%nat → Extract base_data r = base_vector db v !!! r);
}.

(** ** One chain *)

Definition commit_chain (v c : Z) (ch : chain_t) : chain_t :=
  (ch.1, (λ p, (p.1, if sn_version p.2 =? v then mkSnode (sn_start p.2) c (sn_entries p.2) else p.2)) <$> ch.2).

Definition other_version (v : Z) (p : loc * snode T) : bool := negb (sn_version p.2 =? v).

Definition cleanup_chain (v : Z) (ch : chain_t) : chain_t := (ch.1, List.filter (other_version v) ch.2).

Definition rollback_chain (v : Z) (ch : chain_t) : chain_t :=
  (match List.find (λ p, sn_version p.2 =? v) ch.2 with
   | Some p => RollbackUpdate_data ch.1 (sn_entries p.2)
   | None => ch.1
   end, List.filter (other_version v) ch.2).

Lemma chain_versions g k ch : located g k ch → chain_inv ch.1 ch.2.*2 ∧ NoDup (sn_version <$> ch.2.*2).
Proof. intros [Hinv _]. split; [done|apply (ci_versions _ _ Hinv)]. Qed.

(** A chain has one node per version. *)
Lemma version_unique (ch : chain_t) p q :
  NoDup (sn_version <$> ch.2.*2) → p ∈ ch.2 → q ∈ ch.2 → sn_version p.2 = sn_version q.2 → p = q.
Proof.
  rewrite <-list_fmap_compose. generalize ch.2 as l. intros l. induction l as [|x l IH]; [by intros _ ?%elem_of_nil|].
  cbn. intros [Hx Hnd]%NoDup_cons [->|Hp]%elem_of_cons [->|Hq]%elem_of_cons Heq; [done| | |auto].
  - exfalso. apply Hx. unfold compose. rewrite Heq. by apply (list_elem_of_fmap_2 (sn_version ∘ snd)).
  - exfalso. apply Hx. unfold compose. rewrite <-Heq. by apply (list_elem_of_fmap_2 (sn_version ∘ snd)).
Qed.

(** The chain around a node, and what the three functions make of it. *)
Lemma chain_split (ch : chain_t) l n :
  NoDup (sn_version <$> ch.2.*2) → (l, n) ∈ ch.2 →
  ∃ p1 p2, ch.2 = p1 ++ (l, n) :: p2 ∧
    Forall (λ p, other_version (sn_version n) p = true) p1 ∧
    Forall (λ p, other_version (sn_version n) p = true) p2.
Proof.
  intros Hnd Hin. pose proof (version_unique ch) as Hu. apply list_elem_of_split in Hin as (p1 & p2 & Heq).
  exists p1, p2. split; [done|]. rewrite Heq in Hnd, Hu.
  rewrite !fmap_app in Hnd. cbn in Hnd. apply NoDup_app in Hnd as (_ & Hd & [Hn _]%NoDup_cons).
  split; apply Forall_forall; intros p Hp; apply negb_true_iff, Z.eqb_neq; intros Hv.
  - apply (Hd (sn_version p.2)); [|rewrite Hv; left].
    apply (list_elem_of_fmap_2 sn_version), (list_elem_of_fmap_2 snd), Hp.
  - apply Hn. rewrite <-Hv. apply (list_elem_of_fmap_2 sn_version), (list_elem_of_fmap_2 snd), Hp.
Qed.

Lemma filter_true {A} (p : A → bool) (l : list A) : Forall (λ x, p x = true) l → List.filter p l = l.
Proof. induction 1 as [|x l Hx Hl IH]; [done|]. cbn. rewrite Hx. by f_equal. Qed.

Lemma filter_split (p1 p2 : list (loc * snode T)) l n :
  Forall (λ p, other_version (sn_version n) p = true) p1 →
  Forall (λ p, other_version (sn_version n) p = true) p2 →
  List.filter (other_version (sn_version n)) (p1 ++ (l, n) :: p2) = p1 ++ p2.
Proof.
  intros H1 H2. rewrite List.filter_app. cbn.
  assert (other_version (sn_version n) (l, n) = false) as -> by (unfold other_version; cbn; by rewrite Z.eqb_refl).
  by rewrite !filter_true.
Qed.

Lemma find_split (p1 p2 : list (loc * snode T)) l n :
  Forall (λ p, other_version (sn_version n) p = true) p1 →
  List.find (λ p, sn_version p.2 =? sn_version n) (p1 ++ (l, n) :: p2) = Some (l, n).
Proof.
  induction 1 as [|p p1 Hp _ IH]; cbn; [by rewrite Z.eqb_refl|].
  apply negb_true_iff in Hp. by rewrite Hp.
Qed.

Lemma fmap_commit_other v c (l : list (loc * snode T)) :
  Forall (λ p, other_version v p = true) l →
  (λ p : loc * snode T, (p.1, if sn_version p.2 =? v then mkSnode (sn_start p.2) c (sn_entries p.2) else p.2)) <$> l = l.
Proof.
  induction 1 as [|[x n] l Hp _ IH]; [done|]. rewrite fmap_cons, IH.
  apply negb_true_iff in Hp. cbn in *. by rewrite Hp.
Qed.

(** Commit, cleanup and rollback of one node. *)

Definition op_ok (op : UpdateSegment T St → loc → UpdateSegment T St) (F : chain_t → chain_t) (v : Z)
    (P : chain_t → Prop) : Prop :=
  ∀ g k ch l n, root_ok g → (k < MORSEL_VECTOR_COUNT)%nat → located g k ch → P ch →
    (l, n) ∈ ch.2 → sn_version n = v →
    root_ok (op g l) ∧ located (op g l) k (F ch) ∧ others_located g (op g l) k.

Lemma located_nonempty g k ch l n :
  located g k ch → (l, n) ∈ ch.2 →
  ∃ base, root_at g k = Some base ∧ rep (us_heap g) k base ch.2.*1 ch.1 ch.2.*2.
Proof.
  intros [_ Hv] Hin. destruct (root_at g k) as [base|]; [by exists base|].
  destruct Hv as (Hnil & _ & _). destruct ch as [es [|p l']]; [by apply elem_of_nil in Hin|done].
Qed.

Lemma cleanup_op_ok v : op_ok CleanupUpdate (cleanup_chain v) v (λ _, True).
Proof.
  intros g k ch l n Hro Hk Hloc _ Hin <-. destruct (chain_versions g k ch Hloc) as [Hinv Hnd].
  destruct (chain_split ch l n Hnd Hin) as (p1 & p2 & Heq & H1 & H2).
  destruct (located_nonempty g k ch l n Hloc Hin) as (base & Hroot & Hrep).
  unfold located, cleanup_chain. cbn [fst snd]. rewrite Heq in *. rewrite filter_split by done.
  rewrite !fmap_app in *. cbn in *.
  destruct (CleanupUpdateInternal_rep (us_heap g) k base p1.*1 l p2.*1 ch.1 p1.*2 n p2.*2 Hrep) as [Hr Hfr].
  { by rewrite !length_fmap. }
  split; [done|]. split.
  - split; [by eapply remove_inv|]. unfold root_at in *. cbn [CleanupUpdate us_root]. by rewrite Hroot.
  - eapply others_located_heap; [exact Hrep| |done]. intros x Hx _. by apply Hfr.
Qed.

Lemma rollback_op_ok v : TRANSACTION_ID_START <= v → op_ok UpdateSegment_RollbackUpdate (rollback_chain v) v (λ _, True).
Proof.
  intros Hv g k ch l n Hro Hk Hloc _ Hin <-. destruct (chain_versions g k ch Hloc) as [Hinv Hnd].
  destruct (chain_split ch l n Hnd Hin) as (p1 & p2 & Heq & H1 & H2).
  destruct (located_nonempty g k ch l n Hloc Hin) as (base & Hroot & Hrep).
  unfold located, rollback_chain. cbn [fst snd]. rewrite Heq in *. rewrite filter_split, find_split by done.
  cbn [snd]. rewrite !fmap_app in *. cbn in *.
  destruct (RollbackUpdate_rep g k base p1.*1 l p2.*1 ch.1 p1.*2 n p2.*2 Hroot Hinv) as (Hr & Hrep' & Hfr);
    [by rewrite !length_fmap|done|].
  destruct (no_own_twice _ _ _ _ Hinv) as [N1 N2].
  destruct (a_rollback_spec (λ _, inhabitant) ch.1 _ (sn_version n) n Hinv) as [Hinv' _];
    [apply elem_of_app; right; left|done|done|].
  rewrite a_remove_split in Hinv' by done.
  split; [unfold root_ok in *; by rewrite Hr|]. split.
  - split; [done|]. unfold root_at in *. by rewrite Hr, Hroot.
  - eapply others_located_heap; [exact Hrep|intros x Hx _; by apply Hfr|].
    intros j _ _. unfold root_at. by rewrite Hr.
Qed.

Lemma commit_op_ok v c :
  TRANSACTION_ID_START <= v →
  op_ok (λ g l, UpdateInfo_Commit g l c) (commit_chain v c) v
    (λ ch, ∀ m, m ∈ ch.2.*2 → sn_start m < c ∧ sn_version m ≠ c).
Proof.
  intros Hv g k ch l n Hro Hk Hloc HP Hin <-. destruct (chain_versions g k ch Hloc) as [Hinv Hnd].
  destruct (chain_split ch l n Hnd Hin) as (p1 & p2 & Heq & H1 & H2).
  destruct (located_nonempty g k ch l n Hloc Hin) as (base & Hroot & Hrep).
  destruct (a_commit_spec ch.1 ch.2.*2 (sn_version n) c Hinv) as (Hinv' & _); [|done|done|].
  { exists n. split; [|done]. by apply (list_elem_of_fmap_2 snd) in Hin. }
  unfold located, commit_chain. cbn [fst snd]. rewrite Heq in *.
  rewrite !fmap_app, !fmap_cons in *. cbn [fst snd] in *. rewrite !fmap_commit_other by done. rewrite Z.eqb_refl.
  destruct (no_own_twice _ _ _ _ Hinv) as [N1 N2]. rewrite a_commit_split in Hinv' by done.
  split; [done|]. split.
  - split; [done|]. unfold root_at in *. cbn [UpdateInfo_Commit us_root us_heap]. rewrite Hroot.
    apply rep_set_version; [done|by rewrite !length_fmap].
  - eapply others_located_heap; [exact Hrep| |done]. intros x Hx _. cbn [UpdateInfo_Commit us_heap].
    rewrite store_lookup, decide_False; [done|]. intros ->. apply Hx. right. apply elem_of_app. right. left.
Qed.

(** ** All entries of an undo buffer *)

(** A location belongs to one vector. *)
Lemma location_vector g j k chj chk l nj nk :
  located g j chj → located g k chk → (l, nj) ∈ chj.2 → (l, nk) ∈ chk.2 → j = k.
Proof.
  intros Hj Hk Hlj Hlk. destruct (located_nonempty g j chj l nj Hj Hlj) as (bj & _ & Hrj).
  destruct (located_nonempty g k chk l nk Hk Hlk) as (bk & _ & Hrk).
  apply (list_elem_of_fmap_2 fst) in Hlj, Hlk. cbn in *.
  destruct (list_elem_of_lookup_1 _ _ Hlj) as [i Hi].
  destruct (Forall2_lookup_l _ _ _ _ _ (rp_nodes _ _ _ _ _ _ Hrj) Hi) as (n & _ & u & Hu & _).
  rewrite <-(rep_index _ _ _ _ _ _ l u Hrj ltac:(by right) Hu).
  by rewrite <-(rep_index _ _ _ _ _ _ l u Hrk ltac:(by right) Hu).
Qed.

(** The locations of a vector are determined by the segment. *)
Lemma located_locs g k ch ch' : located g k ch → located g k ch' → ch.2.*1 = ch'.2.*1.
Proof.
  intros [_ H1] [_ H2]. destruct (root_at g k) as [base|].
  - apply rep_chain in H1 as [H1 _], H2 as [H2 _]. congruence.
  - destruct H1 as (-> & _), H2 as (-> & _). done.
Qed.

(** The entries of the buffer are nodes with version [v] of the chains [C]. *)
Definition entries_of g (C : nat → chain_t) (v : Z) (P : chain_t → Prop) (l : loc) (k : nat) : Prop :=
  (k < MORSEL_VECTOR_COUNT)%nat ∧ located g k (C k) ∧ P (C k) ∧ ∃ n, (l, n) ∈ (C k).2 ∧ sn_version n = v.

Lemma fold_op op F v P (C : nat → chain_t) (L : list loc) g :
  op_ok op F v P → root_ok g → NoDup L → (∀ l, l ∈ L → ∃ k, entries_of g C v P l k) →
  let g' := foldl op g L in
  root_ok g' ∧
  (∀ k ch, (k < MORSEL_VECTOR_COUNT)%nat → located g k ch → (∀ l, l ∈ L → l ∉ ch.2.*1) → located g' k ch) ∧
  (∀ k l, l ∈ L → entries_of g C v P l k → located g' k (F (C k))).
Proof.
  intros Hop. cbn zeta. revert g. induction L as [|l L IH]; intros g Hro HndL HL.
  { split; [done|]. split; [done|]. by intros k l ?%elem_of_nil. }
  apply NoDup_cons in HndL as [HlL HndL]. cbn [foldl].
  destruct (HL l ltac:(left)) as (k0 & Hk0 & Hloc0 & HP0 & n0 & Hin0 & Hv0).
  destruct (Hop g k0 (C k0) l n0 Hro Hk0 Hloc0 HP0 Hin0 Hv0) as (Hro1 & Hloc1 & Ho1).
  set (g1 := op g l) in *.
  (* the other entries are in other vectors *)
  assert (∀ l' k', l' ∈ L → entries_of g C v P l' k' → k' ≠ k0 ∧ entries_of g1 C v P l' k') as Hrest.
  { intros l' k' Hl' (Hk' & Hloc' & HP' & n' & Hin' & Hv').
    assert (k' ≠ k0) as Hne.
    { intros ->. destruct (chain_versions _ _ _ Hloc0) as [_ Hnd].
      assert ((l', n') = (l, n0)) as [= -> ->]; [|done].
      eapply (version_unique (C k0)); [done|done|done|cbn; congruence]. }
    split; [done|]. split; [done|]. split; [by apply (Ho1 k')|]. split; [done|]. by exists n'. }
  destruct (IH g1 Hro1 HndL) as (Hro' & Hframe & Hdone).
  { intros l' Hl'. destruct (HL l' ltac:(by right)) as (k' & He). exists k'. by apply Hrest. }
  split; [done|]. split.
  - intros k ch Hk Hch Hnot. apply Hframe; [done| |intros l' Hl'; apply Hnot; by right].
    apply (Ho1 k); [|done|done]. intros ->. apply (Hnot l ltac:(left)).
    rewrite (located_locs g k0 ch (C k0) Hch Hloc0). by apply (list_elem_of_fmap_2 fst) in Hin0.
  - intros k l' [->|Hl']%elem_of_cons He; [|by apply (Hdone k l' Hl'), Hrest].
    assert (k = k0) as ->.
    { destruct He as (_ & Hloc & _ & n & Hin & _). by eapply (location_vector g). }
    apply Hframe; [done|done|]. intros l' Hl' Hin'. destruct (HL l' ltac:(by right)) as (k' & He').
    destruct (Hrest l' k' Hl' He') as (Hne & _ & Hloc' & _ & n' & Hn' & _). apply Hne.
    apply list_elem_of_fmap in Hin' as ([x m] & Heq & Hm). cbn in Heq. subst x. by eapply (location_vector g1).
Qed.

(** Without a node of the version, nothing changes. *)
Lemma no_version_id v c (ch : chain_t) :
  (∀ l n, (l, n) ∈ ch.2 → sn_version n ≠ v) →
  commit_chain v c ch = ch ∧ cleanup_chain v ch = ch ∧ rollback_chain v ch = ch.
Proof.
  intros Hno. destruct ch as [es ps]. cbn in *.
  assert (Forall (λ p, other_version v p = true) ps) as Hall.
  { apply Forall_forall. intros [l n] Hp. apply negb_true_iff, Z.eqb_neq. by eapply Hno. }
  unfold commit_chain, cleanup_chain, rollback_chain. cbn [fst snd].
  rewrite fmap_commit_other, filter_true by done. split; [done|]. split; [done|].
  destruct (List.find _ ps) as [[l n]|] eqn:Hf; [|done]. apply find_some in Hf as [Hin Heq].
  apply list_elem_of_In in Hin. apply Z.eqb_eq in Heq. by destruct (Hno l n Hin).
Qed.

(** All nodes of a version, over all vectors. *)
Lemma fold_version op F v P g (C : nat → chain_t) (L : list loc) :
  op_ok op F v P → root_ok g → NoDup L →
  (∀ ch : chain_t, (∀ l n, (l, n) ∈ ch.2 → sn_version n ≠ v) → F ch = ch) →
  (∀ k, (k < MORSEL_VECTOR_COUNT)%nat → located g k (C k) ∧ P (C k)) →
  (∀ l, l ∈ L → ∃ k n, (k < MORSEL_VECTOR_COUNT)%nat ∧ (l, n) ∈ (C k).2 ∧ sn_version n = v) →
  (∀ k l n, (k < MORSEL_VECTOR_COUNT)%nat → (l, n) ∈ (C k).2 → sn_version n = v → l ∈ L) →
  root_ok (foldl op g L) ∧ ∀ k, (k < MORSEL_VECTOR_COUNT)%nat → located (foldl op g L) k (F (C k)).
Proof.
  intros Hop Hro Hnd Hid HC HL Hcomp. destruct (fold_op op F v P C L g Hop Hro Hnd) as (Hro' & Hframe & Hdone).
  { intros l Hl. destruct (HL l Hl) as (k & n & Hk & Hin & Hv). exists k. destruct (HC k Hk) as [? ?].
    split; [done|]. split; [done|]. split; [done|]. by exists n. }
  split; [done|]. intros k Hk. destruct (HC k Hk) as [Hloc HP].
  destruct (existsb (λ p, sn_version p.2 =? v) (C k).2) eqn:Hex.
  - apply existsb_exists in Hex as ([l n] & Hin & Hv). apply list_elem_of_In in Hin. apply Z.eqb_eq in Hv.
    apply (Hdone k l); [by eapply Hcomp|]. split; [done|]. split; [done|]. split; [done|]. by exists n.
  - assert (∀ l n, (l, n) ∈ (C k).2 → sn_version n ≠ v) as Hno.
    { intros l n Hin Hv. apply not_true_iff_false in Hex. apply Hex, existsb_exists. exists (l, n).
      split; [by apply list_elem_of_In|by apply Z.eqb_eq]. }
    rewrite Hid by done. apply Hframe; [done|done|]. intros l Hl Hin.
    apply list_elem_of_fmap in Hin as ([x m] & Heq & Hm). cbn in Heq. subst x.
    destruct (HL l Hl) as (k' & n & Hk' & Hn & Hv). destruct (HC k' Hk') as [Hloc' _].
    assert (k' = k) as -> by (by eapply (location_vector g)).
    by eapply Hno.
Qed.

(** ** Views *)

(** The view of a store is the snapshot value of its chains. *)
Lemma view_chain db act rec C st tid k r :
  store_inv db act rec C → snapshot st tid → (k < MORSEL_VECTOR_COUNT)%nat → (r < VS)%nat →
  view db st tid (k, r) =
    Some (snapshot_value st tid (λ i, base_vector db k !!! i) (C k).1 (C k).2.*2 r).
Proof.
  intros Hs Hsnap Hk Hr. cbn. rewrite decide_True by done.
  rewrite (FetchUpdates_view (sdb_segment db) (Transaction_new st tid 0) k (C k).1 (C k).2.*2); [done| | | |done].
  - apply vector_view_located. exists (C k).2.*1. by apply (sv_chains _ _ _ _ Hs).
  - done.
  - destruct (sv_base _ _ _ _ Hs) as [Hf Hl]. rewrite Forall_lookup in Hf. unfold base_vector.
    destruct (lookup_lt_is_Some_2 (sdb_base db) k) as [v Hv]; [lia|].
    rewrite (list_lookup_total_correct _ _ _ Hv). by apply (Hf k).
Qed.

(** Two stores with the same base give the same view if their chains do. *)
Lemma same_views_chains db db' act rec act' rec' C C' views :
  store_inv db act rec C → store_inv db' act' rec' C' → sdb_base db' = sdb_base db →
  (∀ st tid, (st, tid) ∈ views → snapshot st tid) →
  (∀ st tid k r, (st, tid) ∈ views → (k < MORSEL_VECTOR_COUNT)%nat → (r < VS)%nat →
     let bt := λ i, base_vector db k !!! i in
     snapshot_value st tid bt (C' k).1 (C' k).2.*2 r = snapshot_value st tid bt (C k).1 (C k).2.*2 r) →
  same_views views db db'.
Proof.
  intros Hs Hs' Hb Hsnap Hval st tid [k r] Hin.
  destruct (decide (k < MORSEL_VECTOR_COUNT ∧ r < VS)%nat) as [[Hk Hr]|Hno].
  - rewrite (view_chain db act rec C), (view_chain db' act' rec' C') by auto.
    unfold base_vector at 1. rewrite Hb. fold (base_vector db k). by rewrite Hval.
  - cbn. by rewrite !decide_False.
Qed.

Lemma commit_values v c (ch : chain_t) g k st tid bt r :
  located g k ch → TRANSACTION_ID_START <= v →
  (∀ m, m ∈ ch.2.*2 → sn_start m < c ∧ sn_version m ≠ c) →
  snapshot st tid → tid ≠ v → st < c → c < TRANSACTION_ID_START →
  snapshot_value st tid bt (commit_chain v c ch).1 (commit_chain v c ch).2.*2 r =
  snapshot_value st tid bt ch.1 ch.2.*2 r.
Proof.
  intros Hloc Hv HP [[_ Hst] Htid] Hne Hlt Hc. destruct (chain_versions _ _ _ Hloc) as [Hinv _].
  assert ((commit_chain v c ch).2.*2 = a_commit v c ch.2.*2) as ->.
  { unfold commit_chain, a_commit. cbn. by rewrite <-!list_fmap_compose. }
  destruct (existsb (λ n, sn_version n =? v) ch.2.*2) eqn:Hex.
  - apply existsb_own in Hex. destruct (a_commit_spec ch.1 ch.2.*2 v c Hinv Hex Hv HP) as (_ & Hold & _).
    apply Hold; apply skip_version_true; lia.
  - f_equal. unfold a_commit. rewrite <-(list_fmap_id ch.2.*2) at 2. apply list_fmap_ext.
    intros i n Hn%list_elem_of_lookup_2. destruct (Z.eqb_spec (sn_version n) v) as [Heq|]; [|done].
    exfalso. apply not_true_iff_false in Hex. apply Hex, existsb_own. by exists n.
Qed.

Lemma filter_snd v (l : list (loc * snode T)) : (List.filter (other_version v) l).*2 = a_remove v l.*2.
Proof.
  induction l as [|[x n] l IH]; [done|]. unfold a_remove in *. cbn. unfold other_version at 1. cbn.
  destruct (sn_version n =? v); cbn; [done|]. by f_equal.
Qed.

Lemma cleanup_values v (ch : chain_t) st tid bt r :
  v <= st →
  snapshot_value st tid bt (cleanup_chain v ch).1 (cleanup_chain v ch).2.*2 r =
  snapshot_value st tid bt ch.1 ch.2.*2 r.
Proof.
  intros Hle. unfold cleanup_chain. cbn [fst snd]. rewrite filter_snd. apply a_remove_read, skip_version_false.
  by left.
Qed.

Lemma rollback_values v (ch : chain_t) g k st tid bt r :
  located g k ch → TRANSACTION_ID_START <= v → snapshot st tid → tid ≠ v →
  snapshot_value st tid bt (rollback_chain v ch).1 (rollback_chain v ch).2.*2 r =
  snapshot_value st tid bt ch.1 ch.2.*2 r.
Proof.
  intros Hloc Hv [[_ Hst] Htid] Hne. destruct (chain_versions _ _ _ Hloc) as [Hinv _].
  unfold rollback_chain. cbn [fst snd]. rewrite filter_snd.
  destruct (List.find _ ch.2) as [[l n]|] eqn:Hf.
  - apply find_some in Hf as [Hin%list_elem_of_In Heq%Z.eqb_eq]. cbn in Heq |- *.
    destruct (a_rollback_spec bt ch.1 ch.2.*2 v n Hinv) as [_ Hread]; [|done|done|].
    { by apply (list_elem_of_fmap_2 snd) in Hin. }
    apply Hread, skip_version_true. lia.
  - f_equal. apply filter_other. intros n (p & -> & Hp)%list_elem_of_fmap Heq.
    apply list_elem_of_In, (find_none _ _ Hf) in Hp. by apply Z.eqb_neq in Hp.
Qed.

(** ** The laws *)

Lemma owned_by_writer act rec tid (n n' : snode T) :
  writer n' = writer n → owned_by act rec tid n → owned_by act rec tid n'.
Proof. unfold owned_by. by intros ->. Qed.

(** The owner of a node, by its version. *)
Lemma owner_running act rec tid tid' (n : snode T) :
  keys_ok act rec → owned_by act rec tid' n → TRANSACTION_ID_START <= tid → sn_version n = tid →
  tid' = tid ∧ ∃ st, (st, tid) ∈ act ∧ sn_start n = st.
Proof.
  intros Hk [(st & Hin & Hw)|(st & c & Hin & Hw)] Htid Hv; unfold writer in Hw; injection Hw as Hs Hv'.
  - assert (tid' = tid) as -> by congruence. split; [done|]. by exists st.
  - destruct (ko_rec _ _ Hk st tid' c Hin) as [_ Hc]. lia.
Qed.

Lemma undo_delete db tid tid' l g :
  l ∈ undo_of (mkSegmentDB g (delete tid (sdb_undo db)) (sdb_base db)) tid' ↔ l ∈ undo_of db tid' ∧ tid' ≠ tid.
Proof.
  unfold undo_of. cbn. destruct (decide (tid' = tid)) as [->|Hne].
  - rewrite lookup_delete_eq. cbn. split; [by intros ?%elem_of_nil|naive_solver].
  - rewrite lookup_delete_ne by done. naive_solver.
Qed.

Lemma undo_delete_nodup db tid tid' g :
  NoDup (undo_of db tid') → NoDup (undo_of (mkSegmentDB g (delete tid (sdb_undo db)) (sdb_base db)) tid').
Proof.
  unfold undo_of. cbn. destruct (decide (tid' = tid)) as [->|Hne].
  - rewrite lookup_delete_eq. constructor.
  - by rewrite lookup_delete_ne.
Qed.

(** A transaction leaves with all its nodes. *)
Lemma remove_store db act rec act' rec' C C' tid v g' :
  store_inv db act rec C → root_ok g' →
  (∀ k, (k < MORSEL_VECTOR_COUNT)%nat → located g' k (C' k)) →
  (∀ k, (C' k).2 = List.filter (other_version v) (C k).2) →
  keys_ok act' rec' →
  (∀ tid' n, owned_by act rec tid' n → (tid' = tid ↔ sn_version n = v)) →
  (∀ tid' n, owned_by act rec tid' n → tid' ≠ tid → owned_by act' rec' tid' n) →
  store_inv (mkSegmentDB g' (delete tid (sdb_undo db)) (sdb_base db)) act' rec' C'.
Proof.
  intros Hs Hro HC' Hf Hk Hown Hstay. split; [done|apply (sv_base _ _ _ _ Hs)|done|done| | |].
  - intros k l n Hkk. rewrite Hf. intros [Hin Hov]%elem_of_filter_b.
    apply negb_true_iff, Z.eqb_neq in Hov. cbn in Hov.
    destruct (sv_owned _ _ _ _ Hs k l n Hkk Hin) as (tid' & Hl & Ho). exists tid'.
    assert (tid' ≠ tid) as Hne by (intros ->; by apply Hov, (Hown tid n Ho)).
    split; [by apply undo_delete|by apply Hstay].
  - intros tid' l [Hl Hne]%undo_delete. destruct (sv_undo _ _ _ _ Hs tid' l Hl) as (k & n & Hkk & Hin & Ho).
    exists k, n. split; [done|]. split; [|by apply Hstay]. rewrite Hf. apply elem_of_filter_b. split; [done|].
    apply negb_true_iff, Z.eqb_neq. cbn. intros Hv. by apply Hne, (Hown tid' n Ho).
  - intros tid'. apply undo_delete_nodup, (sv_nodup _ _ _ _ Hs).
Qed.

Lemma start_law db next act rec st tid :
  store_ok db next act rec → next <= tid → Forall (λ k, k.1 < st ∧ k.2 < tid) act →
  Forall (λ r, r.2 < st ∧ r.1.2 < tid) rec →
  0 <= st < TRANSACTION_ID_START - 1 → TRANSACTION_ID_START <= tid < NOT_DELETED_ID →
  store_ok db (tid + 1) (act ++ [(st, tid)]) rec.
Proof.
  intros [C Hs] _ Hact Hrec Hst [Htid _]. exists C. pose proof (sv_keys _ _ _ _ Hs) as Hk.
  rewrite Forall_forall in Hact. rewrite Forall_forall in Hrec.
  assert (∀ tid' (n : snode T), owned_by act rec tid' n → owned_by (act ++ [(st, tid)]) rec tid' n) as Ho.
  { intros tid' n [(st' & Hin & Hw)|Hr]; [|by right]. left. exists st'. rewrite elem_of_app. auto. }
  destruct Hs as [? ? _ ? Hso Hsu ?]. split; [done|done| |done| | |done].
  - apply keys_start; [done|by apply Forall_forall|by apply Forall_forall|done].
  - intros k l n Hkk Hin. destruct (Hso k l n Hkk Hin) as (tid' & ? & ?). eauto.
  - intros tid' l Hl. destruct (Hsu tid' l Hl) as (k & n & ? & ? & ?). eauto 6.
Qed.

Lemma rollback_law db next act rec t :
  store_ok db next act rec → key t ∈ act →
  store_ok (Rollback db t) next (without (transaction_id t) act) rec ∧
  same_views (without (transaction_id t) act) db (Rollback db t).
Proof.
  intros [C Hs] Hin. set (tid := transaction_id t). pose proof (sv_keys _ _ _ _ Hs) as Hk.
  destruct (ko_act _ _ Hk _ _ Hin) as [_ Htid]. fold tid in Htid.
  assert (∀ tid' (n : snode T), owned_by act rec tid' n → (tid' = tid ↔ sn_version n = tid)) as Hown.
  { intros tid' n Ho. split; [|intros Hv; by apply (owner_running _ _ _ _ _ Hk Ho Htid Hv)].
    intros ->. destruct Ho as [(st & _ & [= _ Hv])|(st & c & Hr & _)]; [done|]. by destruct (keys_disjoint _ _ _ _ _ _ Hk Hin Hr). }
  assert (root_ok (sdb_segment (SegmentDB_Rollback db tid)) ∧ ∀ k, (k < MORSEL_VECTOR_COUNT)%nat →
    located (sdb_segment (SegmentDB_Rollback db tid)) k (rollback_chain tid (C k))) as [Hro Hloc].
  { apply (fold_version _ _ tid (λ _, True)); [by apply rollback_op_ok|apply (sv_root _ _ _ _ Hs)| | | | |].
    - rewrite (reverse_Permutation (undo_of db tid)). apply (sv_nodup _ _ _ _ Hs).
    - intros ch Hch. by apply (no_version_id tid 0).
    - intros k Hkk. split; [by apply (sv_chains _ _ _ _ Hs)|done].
    - intros l Hl. rewrite elem_of_reverse in Hl. destruct (sv_undo _ _ _ _ Hs tid l Hl) as (k & n & ? & ? & Ho).
      exists k, n. split; [done|]. split; [done|]. by apply (Hown tid n Ho).
    - intros k l n Hkk Hl Hv. destruct (sv_owned _ _ _ _ Hs k l n Hkk Hl) as (tid' & Hu & Ho).
      rewrite elem_of_reverse. apply (Hown tid' n Ho) in Hv. by subst tid'. }
  assert (store_inv (SegmentDB_Rollback db tid) (without tid act) rec (λ k, rollback_chain tid (C k))) as Hs'.
  { eapply (remove_store db act rec _ _ C _ tid tid); [done|done|done|done| |done|].
    - by apply keys_without.
    - intros tid' n [(st & Hi & Hw)|Hr] Hne; [|by right]. left. exists st. split; [|done].
      by apply without_spec. }
  split; [by eexists|]. eapply (same_views_chains _ _ _ _ _ _ _ _ _ Hs Hs'); [done| |].
  - intros st i [Hi _]%without_spec. by apply (ko_act _ _ Hk).
  - intros st i k r [Hi Hne]%without_spec Hkk _. eapply rollback_values; [by apply (sv_chains _ _ _ _ Hs)|done| |done].
    by apply (ko_act _ _ Hk).
Qed.

Lemma cleanup_law db next act rec t :
  store_ok db next act (ckey t :: rec) → Forall (λ k, commit_id t < k.1) act →
  store_ok (Cleanup db t) next act rec ∧ same_views act db (Cleanup db t).
Proof.
  intros [C Hs] Hact. set (tid := transaction_id t). set (v := commit_id t).
  pose proof (sv_keys _ _ _ _ Hs) as Hk. rewrite Forall_forall in Hact.
  assert (∀ tid' (n : snode T), owned_by act (ckey t :: rec) tid' n → (tid' = tid ↔ sn_version n = v)) as Hown.
  { destruct (ko_rec _ _ Hk (start_time t) tid v ltac:(left)) as [_ Hv].
    pose proof (ko_commits _ _ Hk) as [Hc _]%NoDup_cons. pose proof (ko_ids _ _ Hk) as (_ & Hd & Hi)%NoDup_app.
    cbn in Hi. apply NoDup_cons in Hi as [Hi _].
    intros tid' n [(st & Hin & [= _ Hn])|(st & c & [Heq|Hin]%elem_of_cons & [= _ Hn])].
    - destruct (ko_act _ _ Hk st tid' Hin) as [_ Ht]. split; [|lia]. intros ->. exfalso.
      apply (Hd tid); [by apply (list_elem_of_fmap_2 snd) in Hin|left].
    - injection Heq as -> -> ->. split; [done|]. by intros _.
    - split; intros Heq; exfalso.
      + subst tid'. apply Hi. apply (list_elem_of_fmap_2 fst), (list_elem_of_fmap_2 snd) in Hin. done.
      + apply Hc. cbn. apply (list_elem_of_fmap_2 snd) in Hin. cbn in Hin.
        assert (commit_id t = c) as -> by (unfold v in Heq; congruence). done. }
  assert (root_ok (sdb_segment (SegmentDB_Cleanup db tid)) ∧ ∀ k, (k < MORSEL_VECTOR_COUNT)%nat →
    located (sdb_segment (SegmentDB_Cleanup db tid)) k (cleanup_chain v (C k))) as [Hro Hloc].
  { apply (fold_version _ _ v (λ _, True)); [apply cleanup_op_ok|apply (sv_root _ _ _ _ Hs)| | | | |].
    - apply (sv_nodup _ _ _ _ Hs).
    - intros ch Hch. by apply (no_version_id v 0).
    - intros k Hkk. split; [by apply (sv_chains _ _ _ _ Hs)|done].
    - intros l Hl. destruct (sv_undo _ _ _ _ Hs tid l Hl) as (k & n & ? & ? & Ho).
      exists k, n. split; [done|]. split; [done|]. by apply (Hown tid n Ho).
    - intros k l n Hkk Hl Hv. destruct (sv_owned _ _ _ _ Hs k l n Hkk Hl) as (tid' & Hu & Ho).
      apply (Hown tid' n Ho) in Hv. by subst tid'. }
  assert (store_inv (SegmentDB_Cleanup db tid) act rec (λ k, cleanup_chain v (C k))) as Hs'.
  { eapply (remove_store db act _ _ _ C _ tid v); [done|done|done|done| |done|].
    - by eapply keys_cleanup.
    - intros tid' n [?|(st & c & [Heq|Hin]%elem_of_cons & Hw)] Hne; [by left| |right; eauto].
      by injection Heq as -> -> ->. }
  split; [by eexists|]. eapply (same_views_chains _ _ _ _ _ _ _ _ _ Hs Hs'); [done| |].
  - apply (ko_act _ _ Hk).
  - intros st i k r Hi _ _. apply cleanup_values. specialize (Hact _ Hi). cbn in Hact. unfold v. lia.
Qed.

Lemma commit_chain_elem v c (ch : chain_t) l n' :
  (l, n') ∈ (commit_chain v c ch).2 ↔
  ∃ n, (l, n) ∈ ch.2 ∧ n' = if sn_version n =? v then mkSnode (sn_start n) c (sn_entries n) else n.
Proof.
  unfold commit_chain. cbn. rewrite list_elem_of_fmap. split.
  - intros ([x n] & Heq & Hin). cbn in Heq. injection Heq as -> ->. by exists n.
  - intros (n & Hin & ->). by exists (l, n).
Qed.

Lemma commit_law db next act rec t c checkpoint t' db' error :
  store_ok db next act rec → key t ∈ act → Forall (λ k, k.1 < c) act → Forall (λ r, r.2 < c) rec →
  c < TRANSACTION_ID_START - 1 → commit_result db t c checkpoint = (t', db', error) →
  store_ok db' next (without (transaction_id t) act) (if bool_decide (error = ""%string) then rec ++ [(key t, c)] else rec) ∧
  same_views (without (transaction_id t) act) db db'.
Proof.
  intros [C Hs] Hin Hact Hrec Hc Heq. cbn in Heq. injection Heq as <- <- <-. rewrite bool_decide_true by done.
  set (tid := transaction_id t). pose proof (sv_keys _ _ _ _ Hs) as Hk.
  rewrite Forall_forall in Hact. rewrite Forall_forall in Hrec.
  destruct (ko_act _ _ Hk _ _ Hin) as [[Hst0 Hst] Htid]. fold tid in Htid.
  assert (∀ tid' (n : snode T), owned_by act rec tid' n →
    sn_start n < c ∧ sn_version n ≠ c ∧ (tid' = tid ↔ sn_version n = tid)) as Hown.
  { intros tid' n Ho. destruct Ho as [(st & Hi & [= -> ->])|(st & c' & Hr & [= -> ->])].
    - specialize (Hact _ Hi). destruct (ko_act _ _ Hk _ _ Hi) as [_ ?]. cbn in Hact. split; [lia|]. split; [lia|done].
    - specialize (Hrec _ Hr). destruct (ko_rec _ _ Hk _ _ _ Hr) as [? ?]. cbn in Hrec. split; [lia|]. split; [lia|].
      split; [|lia]. intros ->. by destruct (keys_disjoint _ _ _ _ _ _ Hk Hin Hr). }
  assert (∀ k, (k < MORSEL_VECTOR_COUNT)%nat → ∀ m, m ∈ (C k).2.*2 → sn_start m < c ∧ sn_version m ≠ c) as HP.
  { intros k Hkk m ([l n] & -> & Hm)%list_elem_of_fmap. destruct (sv_owned _ _ _ _ Hs k l n Hkk Hm) as (tid' & _ & Ho).
    destruct (Hown tid' n Ho) as (? & ? & _). done. }
  assert (root_ok (sdb_segment (SegmentDB_Commit db tid c)) ∧ ∀ k, (k < MORSEL_VECTOR_COUNT)%nat →
    located (sdb_segment (SegmentDB_Commit db tid c)) k (commit_chain tid c (C k))) as [Hro Hloc].
  { eapply (fold_version _ _ tid); [by apply commit_op_ok|apply (sv_root _ _ _ _ Hs)| | | | |].
    - apply (sv_nodup _ _ _ _ Hs).
    - intros ch Hch. by apply no_version_id.
    - intros k Hkk. split; [by apply (sv_chains _ _ _ _ Hs)|by apply HP].
    - intros l Hl. destruct (sv_undo _ _ _ _ Hs tid l Hl) as (k & n & ? & ? & Ho).
      exists k, n. split; [done|]. split; [done|]. by apply (Hown tid n Ho).
    - intros k l n Hkk Hl Hv. destruct (sv_owned _ _ _ _ Hs k l n Hkk Hl) as (tid' & Hu & Ho).
      destruct (Hown tid' n Ho) as (_ & _ & Hiff). apply Hiff in Hv. by subst tid'. }
  (* the owner of a node after the commit *)
  assert (∀ tid' n, owned_by act rec tid' n → owned_by (without tid act) (rec ++ [(key t, c)]) tid'
    (if sn_version n =? tid then mkSnode (sn_start n) c (sn_entries n) else n)) as Hmove.
  { intros tid' n Ho. destruct (Z.eqb_spec (sn_version n) tid) as [Hv|Hv].
    - destruct (owner_running _ _ _ _ _ Hk Ho Htid Hv) as (-> & st & Hi & Hsn). right. exists (start_time t), c.
      split; [apply elem_of_app; right; left|]. unfold writer. cbn. f_equal. rewrite Hsn. by eapply keys_act.
    - destruct Ho as [(st & Hi & Hw)|(st & c' & Hr & Hw)].
      + left. exists st. split; [|done]. apply without_spec. split; [done|].
        intros ->. apply Hv. unfold writer in Hw. congruence.
      + right. exists st, c'. split; [|done]. apply elem_of_app. by left. }
  assert (store_inv (SegmentDB_Commit db tid c) (without tid act) (rec ++ [(key t, c)])
    (λ k, commit_chain tid c (C k))) as Hs'.
  { split; [done|apply (sv_base _ _ _ _ Hs)|by apply keys_commit|done| | |apply (sv_nodup _ _ _ _ Hs)].
    - intros k l n' Hkk (n & Hl & ->)%commit_chain_elem. destruct (sv_owned _ _ _ _ Hs k l n Hkk Hl) as (tid' & Hu & Ho).
      exists tid'. split; [done|by apply Hmove].
    - intros tid' l Hl. destruct (sv_undo _ _ _ _ Hs tid' l Hl) as (k & n & Hkk & Hn & Ho).
      eexists k, _. split; [done|]. split; [apply commit_chain_elem; by exists n|by apply Hmove]. }
  split; [by eexists|]. eapply (same_views_chains _ _ _ _ _ _ _ _ _ Hs Hs'); [done| |].
  - intros st i [Hi _]%without_spec. by apply (ko_act _ _ Hk).
  - intros st i k r [Hi Hne]%without_spec Hkk _.
    eapply commit_values; [by apply (sv_chains _ _ _ _ Hs)|done|by apply HP|by apply (ko_act _ _ Hk)|done| |lia].
    by apply (Hact _ Hi).
Qed.

(** Replace the chain of one vector. *)
Definition set_chain (C : nat → chain_t) (v : nat) (ch : chain_t) (k : nat) : chain_t :=
  if decide (k = v) then ch else C k.

(** The nodes of the vector after an update: the same locations with the same
    writers, and the created one. *)
Lemma zip_writers (ls : list loc) (gs gs' : list (snode T)) created w :
  length ls = length gs →
  writer <$> gs' = with_created created (λ _, w) (writer <$> gs) →
  length (with_created created id ls) = length gs' ∧
  (∀ l n', (l, n') ∈ zip (with_created created id ls) gs' →
     (created = Some l ∧ writer n' = w) ∨ ∃ n, (l, n) ∈ zip ls gs ∧ writer n' = writer n) ∧
  (∀ l n, (l, n) ∈ zip ls gs → ∃ n', (l, n') ∈ zip (with_created created id ls) gs' ∧ writer n' = writer n) ∧
  (∀ l, created = Some l → ∃ n', (l, n') ∈ zip (with_created created id ls) gs' ∧ writer n' = w).
Proof.
  assert (∀ ls gs gs', length ls = length gs → writer <$> gs' = writer <$> gs →
    length ls = length gs' ∧
    (∀ (l : loc) n', (l, n') ∈ zip ls gs' → ∃ n, (l, n) ∈ zip ls gs ∧ writer n' = writer n) ∧
    (∀ l n, (l, n) ∈ zip ls gs → ∃ n', (l, n') ∈ zip ls gs' ∧ writer n' = writer n)) as Hsame.
  { clear. induction ls as [|l ls IH]; intros [|n gs] [|n' gs'] Hlen Hw; cbn in *; try done.
    { split; [done|]. split; by intros ? ? ?%elem_of_nil. }
    injection Hw as Hn Hv Hw. injection Hlen as Hlen. destruct (IH gs gs' Hlen Hw) as (H1 & H2 & H3).
    split; [by f_equal|]. split.
    - intros x m [[= -> ->]|Hm]%elem_of_cons; [exists n; split; [left|unfold writer; congruence]|].
      destruct (H2 x m Hm) as (y & ? & ?). exists y. split; [by right|done].
    - intros x m [[= -> ->]|Hm]%elem_of_cons; [exists n'; split; [left|unfold writer; congruence]|].
      destruct (H3 x m Hm) as (y & ? & ?). exists y. split; [by right|done]. }
  intros Hlen Hw. destruct created as [l0|]; cbn [with_created] in *.
  - destruct gs' as [|n0 gs']; [done|]. cbn in Hw. injection Hw as Hn0 Hw.
    destruct (Hsame ls gs gs' Hlen Hw) as (H1 & H2 & H3). cbn. split; [by f_equal|]. split; [|split].
    + intros l n' [[= -> ->]|Hm]%elem_of_cons; [by left|right; by apply H2].
    + intros l n Hm. destruct (H3 l n Hm) as (n' & ? & ?). exists n'. split; [by right|done].
    + intros l [= <-]. exists n0. split; [left|done].
  - destruct (Hsame ls gs gs' Hlen Hw) as (H1 & H2 & H3).
    split; [done|]. split; [intros l n' Hm; right; by apply H2|]. split; [done|done].
Qed.

Lemma zip_eta (l : list (loc * snode T)) : zip l.*1 l.*2 = l.
Proof. induction l as [|[x n] l IH]; [done|]. cbn. by f_equal. Qed.

(** The undo buffers after an update. *)
Definition push_undo (tid : Z) (created : option loc) (undo : gmap Z (list loc)) : gmap Z (list loc) :=
  match created with
  | Some l => <[tid := default [] (undo !! tid) ++ [l]]> undo
  | None => undo
  end.

Lemma push_undo_elem db g tid created tid' l :
  l ∈ undo_of (mkSegmentDB g (push_undo tid created (sdb_undo db)) (sdb_base db)) tid' ↔
  l ∈ undo_of db tid' ∨ (tid' = tid ∧ created = Some l).
Proof.
  unfold undo_of, push_undo. cbn. destruct created as [x|]; [|naive_solver].
  destruct (decide (tid' = tid)) as [->|Hne].
  - rewrite lookup_insert_eq. cbn. rewrite elem_of_app, list_elem_of_singleton. naive_solver.
  - rewrite lookup_insert_ne by done. naive_solver.
Qed.

Lemma push_undo_nodup db g tid created tid' :
  NoDup (undo_of db tid') → (∀ l, created = Some l → l ∉ undo_of db tid) →
  NoDup (undo_of (mkSegmentDB g (push_undo tid created (sdb_undo db)) (sdb_base db)) tid').
Proof.
  intros Hnd Hnew. unfold undo_of, push_undo in *. cbn. destruct created as [x|]; [|done].
  destruct (decide (tid' = tid)) as [->|Hne].
  - rewrite lookup_insert_eq. cbn. apply NoDup_app. split; [done|]. split; [|apply NoDup_singleton].
    intros l Hl ->%list_elem_of_singleton. by apply (Hnew x).
  - by rewrite lookup_insert_ne.
Qed.

Lemma store_inv_update db act rec C st tid v g' created es' gs' :
  store_inv db act rec C → (st, tid) ∈ act → (v < MORSEL_VECTOR_COUNT)%nat → root_ok g' →
  located_view g' v (with_created created id (C v).2.*1) es' gs' →
  others_located (sdb_segment db) g' v →
  writer <$> gs' = with_created created (λ _, (st, tid)) (writer <$> (C v).2.*2) →
  (∀ l, created = Some l → us_heap (sdb_segment db) !! l = None) →
  let ps := zip (with_created created id (C v).2.*1) gs' in
  store_inv (mkSegmentDB g' (push_undo tid created (sdb_undo db)) (sdb_base db)) act rec
    (set_chain C v (es', ps)) ∧ ps.*2 = gs'.
Proof.
  intros Hs Hin Hv Hro Hloc Hoth Hw Hfresh ps.
  destruct (zip_writers (C v).2.*1 (C v).2.*2 gs' created (st, tid)) as (Hlen & Hold & Hnew & Hcr);
    [by rewrite !length_fmap|done|]. fold ps in Hold, Hnew, Hcr. rewrite zip_eta in Hold, Hnew.
  assert (ps.*1 = with_created created id (C v).2.*1 ∧ ps.*2 = gs') as [H1 H2].
  { unfold ps. split; [apply fst_zip; lia|apply snd_zip; lia]. }
  assert (∀ l, created = Some l → ∀ tid', l ∉ undo_of db tid') as Hnu.
  { intros l Hl tid' Hu. destruct (sv_undo _ _ _ _ Hs tid' l Hu) as (k & n & Hk & Hn & _).
    destruct (located_nonempty _ _ _ _ _ (sv_chains _ _ _ _ Hs k Hk) Hn) as (b & _ & Hrep).
    apply (list_elem_of_fmap_2 fst), list_elem_of_lookup_1 in Hn as [i Hi].
    destruct (Forall2_lookup_l _ _ _ _ _ (rp_nodes _ _ _ _ _ _ Hrep) Hi) as (m & _ & u & Hu' & _).
    cbn in Hu'. specialize (Hfresh l Hl). congruence. }
  split; [|done]. split; [done|apply (sv_base _ _ _ _ Hs)|apply (sv_keys _ _ _ _ Hs)| | | |].
  - intros k Hk. unfold set_chain. case_decide as Heq; [|by apply Hoth, (sv_chains _ _ _ _ Hs)].
    subst k. unfold located. cbn. by rewrite H1, H2.
  - intros k l n' Hk. unfold set_chain. case_decide as Heq; cbn.
    + subst k. intros Hn'. destruct (Hold l n' Hn') as [[Hc Hwn]|(n & Hn & Hwn)].
      * exists tid. split; [apply push_undo_elem; by right|]. left. by exists st.
      * destruct (sv_owned _ _ _ _ Hs v l n Hk Hn) as (tid' & Hu & Ho). exists tid'.
        split; [apply push_undo_elem; by left|by eapply owned_by_writer].
    + intros Hn. destruct (sv_owned _ _ _ _ Hs k l n' Hk Hn) as (tid' & Hu & Ho). exists tid'.
      split; [apply push_undo_elem; by left|done].
  - intros tid' l [Hu|[-> Hc]]%push_undo_elem.
    + destruct (sv_undo _ _ _ _ Hs tid' l Hu) as (k & n & Hk & Hn & Ho). unfold set_chain.
      destruct (decide (k = v)) as [->|Hne].
      * destruct (Hnew l n Hn) as (n' & Hn' & Hwn). exists v, n'. rewrite decide_True by done.
        split; [done|]. split; [done|by eapply owned_by_writer].
      * exists k, n. by rewrite decide_False.
    + destruct (Hcr l Hc) as (n' & Hn' & Hwn). exists v, n'. unfold set_chain. rewrite decide_True by done.
      split; [done|]. split; [done|]. left. by exists st.
  - intros tid'. apply push_undo_nodup; [apply (sv_nodup _ _ _ _ Hs)|]. intros l Hl. by apply Hnu.
Qed.

Lemma SegmentDB_Update_eq db t update ids base_data :
  SegmentDB_Update db t update ids base_data =
    match UpdateSegment_Update (sdb_segment db) t update ids base_data with
    | Ret g' created => mkSegmentDB g' (push_undo (transaction_id t) created (sdb_undo db)) (sdb_base db)
    | Raise g' _ => mkSegmentDB g' (push_undo (transaction_id t) None (sdb_undo db)) (sdb_base db)
    end.
Proof. unfold SegmentDB_Update. by destruct (UpdateSegment_Update _ _ _ _ _) as [g' [l|]|g' e]. Qed.

Lemma snapshot_value_base st tid (bt bt' : nat → T) es gs r :
  bt r = bt' r → snapshot_value st tid bt es gs r = snapshot_value st tid bt' es gs r.
Proof. intros Hr. unfold snapshot_value, current. by rewrite Hr. Qed.

Lemma works_law db next act rec k db' :
  store_ok db next act rec → k ∈ act → works db k db' →
  store_ok db' next act rec ∧ same_views (without k.2 act) db db'.
Proof.
  intros [C Hs] Hin (t & update & ids & base_data & v & <- & -> & Hv & Hne & Hsort & Hrange & Hbase).
  pose proof (sv_keys _ _ _ _ Hs) as Hk. cbn [key snd]. pose proof (ko_act _ _ Hk _ _ Hin) as Hsnap.
  pose proof (sv_chains _ _ _ _ Hs v Hv) as Hloc.
  assert (update_pre (sdb_segment db) t ids v (C v).1 (C v).2.*2) as Hpre.
  { split; [apply (sv_root _ _ _ _ Hs)|done|done|done|done|apply vector_view_located; by eexists|done|].
    intros n ([l m] & -> & Hm)%list_elem_of_fmap Hver.
    destruct (sv_owned _ _ _ _ Hs v l m Hv Hm) as (tid' & _ & Ho). cbn in *.
    destruct (owner_running _ _ _ _ _ Hk Ho (proj2 Hsnap) Hver) as (_ & st & Hi & ->). symmetry. by eapply keys_act. }
  pose proof (UpdateSegment_Update_located _ t update ids base_data v _ _ _ Hpre Hloc) as Hu. cbn zeta in Hu.
  rewrite SegmentDB_Update_eq.
  assert (∀ g' created es' gs', root_ok g' →
    located_view g' v (with_created created id (C v).2.*1) es' gs' →
    others_located (sdb_segment db) g' v →
    writer <$> gs' = with_created created (λ _, (start_time t, transaction_id t)) (writer <$> (C v).2.*2) →
    (∀ l, created = Some l → us_heap (sdb_segment db) !! l = None) →
    (∀ r st tid, skip_version st tid (transaction_id t) = true →
      snapshot_value st tid (Extract base_data) es' gs' r =
      snapshot_value st tid (Extract base_data) (C v).1 (C v).2.*2 r) →
    let db1 := mkSegmentDB g' (push_undo (transaction_id t) created (sdb_undo db)) (sdb_base db) in
    store_ok db1 next act rec ∧ same_views (without (transaction_id t) act) db db1) as Hmain.
  { intros g' created es' gs' Hro Hl Hoth Hw Hfresh Hval db1.
    destruct (store_inv_update db act rec C _ _ v g' created es' gs' Hs Hin Hv Hro Hl Hoth Hw Hfresh) as [Hs' Hps].
    split; [by eexists|]. eapply (same_views_chains _ _ _ _ _ _ _ _ _ Hs Hs'); [done| |].
    - intros st i [Hi _]%without_spec. by apply (ko_act _ _ Hk).
    - intros st i k r [Hi Hne']%without_spec Hkk Hr. cbn zeta. unfold set_chain. case_decide as Heq; [|done].
      subst k. cbn [fst snd]. rewrite Hps.
      rewrite !(snapshot_value_base st i (λ i, base_vector db v !!! i) (Extract base_data)) by (by rewrite Hbase).
      apply Hval, skip_version_true. destruct (ko_act _ _ Hk _ _ Hi) as [[? ?] ?], Hsnap as [? ?]. lia. }
  destruct (UpdateSegment_Update (sdb_segment db) t update ids base_data) as [g' created|g' e].
  - destruct Hu as (_ & Hro & es' & gs' & Hl & Hupd & Hoth & Hw & Hfresh).
    apply (Hmain g' created es' gs'); try done. intros r st tid Hskip. by apply (Hupd r).
  - destruct Hu as (_ & _ & Hro & Hl & Hoth). by apply (Hmain g' None (C v).1 (C v).2.*2).
Qed.

#[export] Instance SegmentLaws : SnapshotStoreLaws SegmentDB (nat * nat) (option T).
Proof.
  split.
  - apply start_law.
  - apply works_law.
  - apply rollback_law.
  - apply commit_law.
  - apply cleanup_law.
  - intros db next act Hok _. split; [done|apply same_views_refl].
Qed.

(** A new segment over a base table. *)
Definition SegmentDB_new (start : nat) (column_stats : St) (base : list (list T)) : SegmentDB :=
  mkSegmentDB (UpdateSegment_new start column_stats) ∅ base.

Lemma SegmentDB_new_ok start column_stats base :
  Forall (λ v, length v = VS) base → length base = MORSEL_VECTOR_COUNT →
  store_ok (SegmentDB_new start column_stats base) TRANSACTION_ID_START [] [].
Proof.
  intros Hf Hl. exists (λ _, ([], [])). split; try done.
  - apply keys_nil.
  - intros k _. split; [|done]. cbn. apply (vector_view_empty (UpdateSegment_new start column_stats) k eq_refl).
  - by intros k l n _ ?%elem_of_nil.
  - intros tid l Hl'. by apply elem_of_nil in Hl'.
  - intros tid. constructor.
Qed.

(** ** Theorems *)

(** C1: snapshot isolation of columns that are updated in place.  In every run
    of a database whose transactions update the vectors of a segment (ascending
    row ids of one vector at a time), commit (which succeeds), roll back and
    have their versions cleaned up by the transaction manager, a running
    transaction reads, through the chains of update infos, the same values
    before and after anything that other transactions do. *)
Theorem segment_snapshot_isolation start column_stats base k n s s' st tid v r :
  Forall (λ v, length v = VS) base → length base = MORSEL_VECTOR_COUNT →
  run k (system_new (SegmentDB_new start column_stats base)) s → run_of_others tid n s s' →
  Z.of_nat (k + n) <= TRANSACTION_ID_START - 1 →
  (st, tid) ∈ key <$> active_transactions (sys_manager s) →
  (st, tid) ∈ key <$> active_transactions (sys_manager s') →
  (v < MORSEL_VECTOR_COUNT)%nat → (r < VS)%nat →
  let read (s : system SegmentDB) := FetchUpdates (sdb_segment (sys_db s)) (Transaction_new st tid 0) v
    (base_vector (sys_db s) v) !! r in
  read s' = read s.
Proof.
  intros Hf Hl Hk Hn Hb Hin Hin' Hv Hr.
  pose proof (run_inv 0 k _ _ (system_new_inv _ (SegmentDB_new_ok start column_stats base Hf Hl)) ltac:(lia) Hk) as Hinv.
  pose proof (isolation n k s s' st tid (v, r) Hinv Hb Hn Hin Hin') as Hview. cbn in Hview.
  by rewrite !decide_True in Hview.
Qed.
End store.
Arguments SegmentDB : clear implicits.

(** ** Witnesses *)

Definition ex_db : SegmentDB Z NumericStatistics :=
  SegmentDB_new (V := FlatVector) 0 ex_stats (replicate MORSEL_VECTOR_COUNT (replicate VS 0)).

Lemma ex_db_ok : Forall (λ v, length v = VS) (sdb_base ex_db) ∧ length (sdb_base ex_db) = MORSEL_VECTOR_COUNT.
Proof.
  split; [|apply length_replicate]. apply Forall_forall. intros v ->%elem_of_replicate_inv.
  apply length_replicate.
Qed.

(** Two transactions start; then the first one updates a row and commits. *)
Definition ex_m1 : TransactionManager :=
  mkTransactionManager 1 1 (TRANSACTION_ID_START + 1) [Transaction_new 0 TRANSACTION_ID_START 0] [] [] [] false.

Definition ex_m2 : TransactionManager :=
  mkTransactionManager 1 2 (TRANSACTION_ID_START + 2)
    [Transaction_new 0 TRANSACTION_ID_START 0; Transaction_new 1 (TRANSACTION_ID_START + 1) 0] [] [] [] false.

Definition ex_updated : SegmentDB Z NumericStatistics :=
  SegmentDB_Update ex_db (Transaction_new 0 TRANSACTION_ID_START 0) (mkFlatVector [30] None) [3%nat]
    (mkFlatVector (replicate VS 0) None).

Definition ex_result : TransactionManager * SegmentDB Z NumericStatistics * string :=
  CommitTransaction_finish ex_m2 ex_updated TRANSACTION_ID_START false.

Definition ex_before : system (SegmentDB Z NumericStatistics) := mkSystem ex_m2 ex_db None.
Definition ex_after : system (SegmentDB Z NumericStatistics) := mkSystem ex_result.1.1 ex_result.1.2 None.

Lemma ex_started : run 2 (system_new ex_db) ex_before.
Proof.
  apply (nsteps_l _ _ _ (mkSystem ex_m1 ex_db None)).
  { exists None. apply (step_start _ _ _ _ (Transaction_new 0 TRANSACTION_ID_START 0)). reflexivity. }
  apply (nsteps_l _ _ _ ex_before); [|constructor].
  exists None. apply (step_start _ _ _ _ (Transaction_new 1 (TRANSACTION_ID_START + 1) 0)). reflexivity.
Qed.

Lemma ex_committed : run_of_others (TRANSACTION_ID_START + 1) 2 ex_before ex_after.
Proof.
  assert (∀ db : SegmentDB Z NumericStatistics, may_act (mkSystem ex_m2 db None) TRANSACTION_ID_START) as Hact.
  { intros db. split; [left|done]. }
  apply (nsteps_l _ _ _ (mkSystem ex_m2 ex_updated None)).
  { exists (Some TRANSACTION_ID_START). split; [done|].
    apply (step_work ex_m2 ex_db None (Transaction_new 0 TRANSACTION_ID_START 0)); [apply Hact|left|].
    eexists _, _, _, _, 0%nat. split; [reflexivity|]. split; [reflexivity|].
    split; [apply Nat.ltb_lt; by vm_compute|]. split; [done|]. split; [repeat constructor|].
    split; [constructor; [|constructor]; split; [apply Nat.leb_le|apply Nat.ltb_lt]; by vm_compute|]. done. }
  apply (nsteps_l _ _ _ ex_after); [|constructor].
  exists (Some TRANSACTION_ID_START). split; [done|].
  apply (step_commit ex_m2 ex_updated None TRANSACTION_ID_START _ _ ex_result.2); [apply Hact|reflexivity|].
  unfold ex_result. by destruct (CommitTransaction_finish _ _ _ _) as [[m' db'] e].
Qed.

Lemma ex_still_active :
  (1, TRANSACTION_ID_START + 1) ∈ key <$> active_transactions (sys_manager ex_before) ∧
  (1, TRANSACTION_ID_START + 1) ∈ key <$> active_transactions (sys_manager ex_after).
Proof. split; [right; left|]. vm_compute. left. Qed.

Lemma segment_snapshot_isolation_witness :
  FetchUpdates (sdb_segment (sys_db ex_after)) (Transaction_new 1 (TRANSACTION_ID_START + 1) 0) 0
    (base_vector (sys_db ex_after) 0) !! 3%nat = Some 0 ∧
  FetchUpdates (sdb_segment (sys_db ex_after)) (Transaction_new 3 (TRANSACTION_ID_START + 2) 0) 0
    (base_vector (sys_db ex_after) 0) !! 3%nat = Some 30.
Proof.
  split; [|vm_compute; reflexivity].
  rewrite (segment_snapshot_isolation 0 ex_stats (sdb_base ex_db) 2 2 ex_before ex_after 1
    (TRANSACTION_ID_START + 1) 0 3).
  - vm_compute. reflexivity.
  - apply ex_db_ok.
  - apply ex_db_ok.
  - apply ex_started.
  - apply ex_committed.
  - by vm_compute.
  - apply ex_still_active.
  - apply ex_still_active.
  - apply Nat.ltb_lt. by vm_compute.
  - apply Nat.ltb_lt. by vm_compute.
Defined.

Lemma snapshot_isolation_witness :
  view ex_db 1 (TRANSACTION_ID_START + 1) (0%nat, 3%nat) = Some 0 ∧
  view (sys_db ex_after) 1 (TRANSACTION_ID_START + 1) (0%nat, 3%nat) =
  view (sys_db ex_before) 1 (TRANSACTION_ID_START + 1) (0%nat, 3%nat).
Proof.
  split; [vm_compute; reflexivity|].
  apply (snapshot_isolation ex_db 2 2 ex_before ex_after).
  - apply SegmentDB_new_ok; apply ex_db_ok.
  - apply ex_started.
  - apply ex_committed.
  - by vm_compute.
  - apply ex_still_active.
  - apply ex_still_active.
Defined.

Lemma TransactionManager_reachable_witness :
  run 2 (system_new ex_db) ex_before ∧ manager_inv ex_m2.
Proof.
  split; [apply ex_started|].
  refine (proj1 (TransactionManager_reachable ex_db 2 ex_before _ ex_started _)).
  - apply SegmentDB_new_ok; apply ex_db_ok.
  - by vm_compute.
Defined.

Lemma ex_reachable_inv n s : run n (system_new ex_db) s → Z.of_nat n <= 10 → system_inv n s.
Proof.
  intros Hrun Hn. apply (run_inv 0 n _ _ (system_new_inv ex_db (SegmentDB_new_ok _ _ _ (proj1 ex_db_ok) (proj2 ex_db_ok))));
    [|done]. unfold TRANSACTION_ID_START. lia.
Qed.

(** The second transaction aborts while the first one runs. *)
Lemma RemoveTransaction_gc_witness :
  current_query_number ex_m2 < MAXIMUM_QUERY_ID ∧
  ∀ a, a ∈ active_transactions (RemoveTransaction ex_m2 ex_db (TRANSACTION_ID_START + 1)).1 ↔
    a ∈ active_transactions ex_m2 ∧ transaction_id a ≠ TRANSACTION_ID_START + 1.
Proof.
  split; [by vm_compute|].
  refine (proj1 (RemoveTransaction_gc ex_m2 ex_db (TRANSACTION_ID_START + 1)
    (Transaction_new 1 (TRANSACTION_ID_START + 1) 0) _ _)); [|by vm_compute].
  refine (proj1 (remove_pre_abort ex_m2 _ _ (si_manager _ _ (ex_reachable_inv 2 _ ex_started _)) _ _)).
  - done.
  - by vm_compute.
  - reflexivity.
Defined.

(** A forced checkpoint with another transaction running. *)
Definition ex_checkpointing : system (SegmentDB Z NumericStatistics) :=
  mkSystem (set_checkpointing true ex_m2) ex_db (Some (Checkpointing TRANSACTION_ID_START true)).

Lemma ex_checkpointing_run : run 3 (system_new ex_db) ex_checkpointing.
Proof.
  eapply nsteps_r; [apply ex_started|]. exists (Some TRANSACTION_ID_START).
  apply step_checkpoint_lock; [split; [left|done]|reflexivity].
Qed.

Lemma Checkpoint_alone_witness :
  ∃ m' db', Checkpoint_finish (set_checkpointing true ex_m2) ex_db TRANSACTION_ID_START true = Ret (m', db') () ∧
    recently_committed_transactions m' = [] ∧ old_transactions m' = [].
Proof.
  pose proof (Checkpoint_alone 3 (set_checkpointing true ex_m2) ex_db TRANSACTION_ID_START true
    (ex_reachable_inv 3 _ ex_checkpointing_run ltac:(done)) ltac:(by vm_compute)) as H.
  destruct (Checkpoint_finish _ _ _ _) as [[m' db'] []|[m' db'] e] eqn:Hc.
  - exists m', db'. split; [done|]. destruct H as (_ & H1 & H2 & _). by split.
  - exfalso. assert (match Checkpoint_finish (set_checkpointing true ex_m2) ex_db TRANSACTION_ID_START true with
                     | Ret _ _ => True | Raise _ _ => False end) as Ht by (vm_compute; exact I).
    by rewrite Hc in Ht.
Defined.
