(* ===== verification/CatalogStore.v ===== *)
(** * Catalog sets under the transaction manager

    Puts src/src/catalog/catalog_set.cpp and dependency_manager.cpp under
    src/src/transaction/transaction_manager.cpp, through the same interface as
    the update segments: a transaction creates, alters and drops entries, its
    commit stamps what it wrote, its rollback undoes it in reverse order and its
    cleanup unlinks the versions that nobody needs.

    Theorems: for catalogs whose names are lower case and are not changed by an
    alter, the catalog keeps every promise of [SnapshotStoreLaws], so the
    entries that a transaction finds never change because of other
    transactions.  The invariant [catalog_inv] holds in the runs of such
    transactions only, and the code breaks each of the theorems without it:
    [rename_loses_old_snapshots], [create_hides_alias],
    [failed_rename_blocks_name] and [rename_escapes_conflicts] are concrete runs
    with renames, or with names that differ in case, that show what goes
    wrong. *)

From S2P Require Import Prelude Constants ChunkInfo TransactionManager SnapshotKeys CatalogSet.

Section store.
Context {A : Type}.

Abbreviation Catalog := (CatalogSet.Catalog (A := A)).
Abbreviation CatalogEntry := (CatalogSet.CatalogEntry (A := A)).
Abbreviation M := (CatalogSet.M (A := A)).
Abbreviation CatalogSet := (CatalogSet.CatalogSet (A := A)).
Implicit Types (c : Catalog) (ch : list CatalogEntry) (e : CatalogEntry) (p : entry_ptr) (t : Transaction).

(** ** The store *)

(** [UndoBuffer::Commit], [Rollback] and [Cleanup], for entries that are catalog
    entries; the state is kept when an exception is thrown. *)
Definition CatalogDB_Commit c (tid commit_id : Z) : Catalog :=
  out_state (for_each (StampCatalogEntry commit_id) (undo_of c tid) c).

(** A buffer is not read again after its rollback or cleanup. *)
Definition forget (tid : Z) c : Catalog :=
  mkCatalog (cat_sets c) (cat_dependents_map c) (cat_dependencies_map c) (cat_next_id c) (cat_version c)
    (delete tid (cat_undo c)).

Definition CatalogDB_Rollback c (tid : Z) : Catalog :=
  forget tid (out_state (for_each Undo (reverse (undo_of c tid)) c)).

Definition CatalogDB_Cleanup c (tid : Z) : Catalog :=
  forget tid (out_state (for_each CleanupCatalogEntry (undo_of c tid) c)).

#[export] Instance CatalogEffects : TransactionEffects Catalog := {
  InMemory _ := false;
  GetCatalogVersion c := cat_version c;
  ChangesMade c t := bool_decide (undo_of c (transaction_id t) ≠ []);
  AutomaticCheckpoint _ _ := false;
  Commit c t commit_id _ := (CatalogDB_Commit c (transaction_id t) commit_id, ""%string);
  Rollback c t := CatalogDB_Rollback c (transaction_id t);
  Cleanup c t := CatalogDB_Cleanup c (transaction_id t);
  CreateCheckpoint c := c;
}.

(** ** The invariant *)

(** The stamp of a transaction on its versions: its identifier, or its commit
    id once it is committed. *)
Definition live (act : list (Z * Z)) (rec : list (Z * Z * Z)) (stamp tid st : Z) : Prop :=
  ((st, tid) ∈ act ∧ stamp = tid) ∨ ((st, tid), stamp) ∈ rec.

(** The versions below those with the given stamp, newest first. *)
Fixpoint children (stamp : Z) ch : list nat :=
  match ch with
  | e :: (e' :: _) as below =>
      if ce_timestamp e =? stamp then ce_id e' :: children stamp below else children stamp below
  | _ => []
  end.

(** The undo entries of one slot. *)
Definition slot_entries (sid index : nat) (ps : list entry_ptr) : list nat :=
  (List.filter (λ p, (p.1.1 =? sid)%nat && (p.1.2 =? index)%nat) ps).*2.

Record version_above (act : list (Z * Z)) (rec : list (Z * Z * Z)) (a b : CatalogEntry) : Prop := {
  va_stamp : ∃ st tid, live act rec (ce_timestamp a) tid st ∧ (ce_timestamp b = ce_timestamp a ∨ ce_timestamp b <= st);
  va_type : ce_type a ≠ INVALID ∧ ce_type a ≠ UPDATED_ENTRY;
}.

Record slot_inv c (act : list (Z * Z)) (rec : list (Z * Z * Z)) (s : CatalogSet) (sid index : nat) ch : Prop := {
  sl_nonempty : ch ≠ [];
  sl_index : (index < cs_current_entry s)%nat;
  sl_ids : NoDup (ce_id <$> ch);
  sl_fresh : Forall (λ e, ce_id e < cat_next_id c)%nat ch;
  sl_above : ∀ above a b below, ch = above ++ a :: b :: below → version_above act rec a b;
  sl_children : ∀ stamp tid st, live act rec stamp tid st →
    slot_entries sid index (undo_of c tid) = reverse (children stamp ch);
  sl_mapped : (2 <= length ch)%nat →
    ∃ name ts, cs_mapping s !! name = Some [mkMappingValue index ts false] ∧ Forall (λ e, ce_name e = name) ch;
  sl_invalid : Forall (λ e, ce_type e = INVALID → ce_deleted e = true) ch;
  sl_last : ∀ e, last ch = Some e → ce_timestamp e < TRANSACTION_ID_START;
}.

Record set_inv c (act : list (Z * Z)) (rec : list (Z * Z * Z)) (sid : nat) (s : CatalogSet) : Prop := {
  si_mapping : ∀ name values, cs_mapping s !! name = Some values →
    ∃ index ts ch, values = [mkMappingValue index ts false] ∧ StringUtil_Lower name = name ∧
      cs_entries s !! index = Some ch ∧ Forall (λ e, ce_name e = name) ch;
  si_injective : ∀ name name' index ts ts',
    cs_mapping s !! name = Some [mkMappingValue index ts false] →
    cs_mapping s !! name' = Some [mkMappingValue index ts' false] → name = name';
  si_slots : ∀ index ch, cs_entries s !! index = Some ch → slot_inv c act rec s sid index ch;
}.

Record catalog_inv c (act : list (Z * Z)) (rec : list (Z * Z * Z)) : Prop := {
  ci_keys : keys_ok act rec;
  ci_sets : ∀ sid s, cat_sets c !! sid = Some s → set_inv c act rec sid s;
  ci_undo : ∀ tid p, p ∈ undo_of c tid →
    (∃ stamp st, live act rec stamp tid st) ∧
    ∃ s ch, cat_sets c !! p.1.1 = Some s ∧ cs_entries s !! p.1.2 = Some ch;
}.

(** ** Lookups *)

(** The version of a chain that a transaction finds. *)
Definition chain_view (t : Transaction) ch : option CatalogEntry :=
  match GetEntryForTransaction t ch with
  | Some e => if ce_deleted e then None else Some (set_timestamp 0 e)
  | None => None
  end.

Definition set_view (t : Transaction) (s : CatalogSet) (name : string) : option CatalogEntry :=
  match cs_mapping s !! name with
  | Some (m :: _) => cs_entries s !! mv_index m ≫= chain_view t
  | _ => None
  end.

(** What [GetEntry] returns for a lower-case name, apart from the timestamp. *)
Definition catalog_view c (t : Transaction) (sid : nat) (name : string) : option CatalogEntry :=
  match GetEntry (λ _, None) t sid name c with
  | Ret _ (Some e) => Some (set_timestamp 0 e)
  | _ => None
  end.

Lemma lower_alias (s : CatalogSet) name :
  (∀ name' values, cs_mapping s !! name' = Some values → StringUtil_Lower name' = name') →
  StringUtil_Lower name = name → cs_mapping s !! name = None → find_mapping s name true = None.
Proof.
  intros Hlow Hn Hnone. unfold find_mapping. rewrite Hnone.
  assert (∀ l, (∀ kv, kv ∈ l → cs_mapping s !! kv.1 = Some kv.2) →
    List.filter (λ kv : string * list MappingValue, bool_decide (StringUtil_Lower name = StringUtil_Lower kv.1)) l = []) as Hf.
  { induction l as [|kv l IH]; intros Hl; [done|]. cbn. rewrite bool_decide_false; [apply IH; intros kv' ?; apply Hl; by right|].
    pose proof (Hl kv ltac:(left)) as Hkv. rewrite Hn, (Hlow _ _ Hkv). intros ->. congruence. }
  rewrite Hf; [done|]. intros [k v] Hkv. by apply elem_of_map_to_list.
Qed.

Lemma catalog_view_set c act rec t sid s name :
  set_inv c act rec sid s → cat_sets c !! sid = Some s → StringUtil_Lower name = name →
  catalog_view c t sid name = set_view t s name.
Proof.
  intros Hs Hsid Hn. unfold catalog_view, GetEntry, set_view. unfold mbind, M_bind, get_set, gets, mbind, M_bind.
  rewrite Hsid. cbn [valid mret M_ret]. unfold GetMapping.
  destruct (cs_mapping s !! name) as [values|] eqn:Hm.
  - destruct (si_mapping _ _ _ _ _ Hs _ _ Hm) as (index & ts & ch & -> & _ & Hch & Hnames).
    unfold find_mapping. rewrite Hm. cbn. rewrite Hch. cbn. unfold chain_view.
    destruct (GetEntryForTransaction t ch) as [e|] eqn:He; cbn; [|done].
    assert (ce_name e = name) as ->.
    { rewrite Forall_forall in Hnames. apply Hnames. clear -He. unfold GetEntryForTransaction in He.
      induction ch as [|x ch IH]; [done|]. cbn in He. destruct ch as [|y ch]; [injection He as ->; left|].
      destruct (UseTimestamp t (ce_timestamp x)); [injection He as ->; left|right; by apply IH]. }
    rewrite bool_decide_true by done. cbn. rewrite orb_false_r. by destruct (ce_deleted e).
  - rewrite lower_alias; [done| |done|done]. intros name' values Hv.
    by destruct (si_mapping _ _ _ _ _ Hs _ _ Hv) as (? & ? & ? & ? & ? & _).
Qed.

(** ** Chains *)

Lemma first_usable_push {B} (use : B → bool) b l : use b = false → l ≠ [] → first_usable use (b :: l) = first_usable use l.
Proof. intros Hb Hl. cbn. destruct l; [done|]. by rewrite Hb. Qed.

(** The versions below a usable one do not matter. *)
Lemma first_usable_cut {B} (use : B → bool) l b l' :
  use b = true → first_usable use (l ++ b :: l') = first_usable use (l ++ [b]).
Proof.
  intros Hb. induction l as [|x l IH]; cbn [app].
  - cbn. destruct l'; [done|]. by rewrite Hb.
  - assert (∀ r, first_usable use (x :: l ++ b :: r) = if use x then Some x else first_usable use (l ++ b :: r)) as Hx
      by (intros r; cbn; by destruct l).
    by rewrite Hx, Hx, IH.
Qed.

Lemma first_usable_map {B} (use : B → bool) (f : B → B) l :
  (∀ b, b ∈ l → use (f b) = use b) → first_usable use (f <$> l) = f <$> first_usable use l.
Proof.
  induction l as [|b l IH]; intros Hf; [done|]. destruct l as [|b' l]; [done|].
  change (first_usable use (f <$> b :: b' :: l)) with (if use (f b) then Some (f b) else first_usable use (f <$> b' :: l)).
  rewrite (Hf b) by left. change (first_usable use (b :: b' :: l)) with (if use b then Some b else first_usable use (b' :: l)).
  destruct (use b); [done|]. apply IH. intros x Hx. apply Hf. by right.
Qed.

Lemma slot_entries_app sid index ps ps' :
  slot_entries sid index (ps ++ ps') = slot_entries sid index ps ++ slot_entries sid index ps'.
Proof. unfold slot_entries. by rewrite List.filter_app, fmap_app. Qed.

Lemma slot_entries_single sid index p :
  slot_entries sid index [p] = if decide (p.1 = (sid, index)) then [p.2] else [].
Proof.
  unfold slot_entries. destruct p as [[sid' index'] id]. cbn.
  destruct (Nat.eqb_spec sid' sid), (Nat.eqb_spec index' index); case_decide; cbn; congruence.
Qed.

Lemma slot_entries_nil sid index ps : (∀ p, p ∈ ps → p.1 ≠ (sid, index)) → slot_entries sid index ps = [].
Proof.
  intros H. induction ps as [|p ps IH]; [done|]. change (p :: ps) with ([p] ++ ps).
  rewrite slot_entries_app, slot_entries_single, decide_False by (apply H; left). apply IH. intros q Hq. apply H. by right.
Qed.

(** ** Keeping the invariant of a slot *)

Lemma slot_inv_change c c' act rec act' rec' (s s' : CatalogSet) sid index ch :
  slot_inv c act rec s sid index ch →
  (cs_current_entry s <= cs_current_entry s')%nat → (cat_next_id c <= cat_next_id c')%nat →
  (∀ e, e ∈ ch → ∀ tid st, live act rec (ce_timestamp e) tid st → live act' rec' (ce_timestamp e) tid st) →
  (∀ stamp tid st, live act' rec' stamp tid st →
    slot_entries sid index (undo_of c' tid) = reverse (children stamp ch)) →
  (∀ name ts, cs_mapping s !! name = Some [mkMappingValue index ts false] →
    ∃ ts', cs_mapping s' !! name = Some [mkMappingValue index ts' false]) →
  slot_inv c' act' rec' s' sid index ch.
Proof.
  intros [H1 H2 H3 H4 H5 H6 H7 H8 H9] Hcur Hnext Hlive Hch Hmap. split; [done|lia|done| | |done| |done|done].
  - eapply Forall_impl; [exact H4|]. cbn. lia.
  - intros above a b below Heq. destruct (H5 _ _ _ _ Heq) as [(st & tid & Hl & Hb) Ht]. split; [|done].
    exists st, tid. split; [|done]. apply Hlive; [|done]. subst ch. apply elem_of_app. right. left.
  - intros Hlen. destruct (H7 Hlen) as (name & ts & Hm & Hn). destruct (Hmap _ _ Hm) as [ts' Hm']. by exists name, ts'.
Qed.

Lemma undo_slots c act rec sid (s : CatalogSet) tid index :
  catalog_inv c act rec → cat_sets c !! sid = Some s → cs_entries s !! index = None →
  slot_entries sid index (undo_of c tid) = [].
Proof.
  intros Hc Hs Hnone. apply slot_entries_nil. intros p Hp Heq.
  destruct (ci_undo _ _ _ Hc _ _ Hp) as [_ (s' & ch & Hs' & Hch)]. rewrite Heq in *. cbn in *. congruence.
Qed.

Lemma live_running act rec st tid stamp st' :
  keys_ok act rec → (st, tid) ∈ act → live act rec stamp tid st' → stamp = tid ∧ st' = st.
Proof.
  intros Hk Hin [[Hin' ->]|Hr]; [split; [done|]; by apply (keys_act _ _ _ _ _ Hk Hin' Hin)|].
  by destruct (keys_disjoint _ _ _ _ _ _ Hk Hin Hr).
Qed.

(** The stamps of other transactions. *)
Lemma live_other act rec st tid stamp tid' st' :
  keys_ok act rec → (st, tid) ∈ act → live act rec stamp tid' st' → tid' ≠ tid → stamp ≠ tid.
Proof.
  intros Hk Hin [[Hin' ->]|Hr] Hne; [done|]. destruct (ko_act _ _ Hk _ _ Hin) as [_ ?], (ko_rec _ _ Hk _ _ _ Hr) as [_ ?]. lia.
Qed.

Lemma live_unique act rec stamp tid st tid' st' :
  keys_ok act rec → live act rec stamp tid st → live act rec stamp tid' st' → tid = tid' ∧ st = st'.
Proof.
  intros Hk [[H1 ->]|H1] H2.
  - destruct (decide (tid' = tid)) as [->|Hne]; [by destruct (live_running _ _ _ _ _ _ Hk H1 H2) as [_ ->]|].
    by destruct (live_other _ _ _ _ _ _ _ Hk H1 H2 Hne).
  - destruct H2 as [[H2 ->]|H2].
    + destruct (ko_act _ _ Hk _ _ H2) as [_ ?], (ko_rec _ _ Hk _ _ _ H1) as [_ ?]. lia.
    + apply list_elem_of_lookup in H1 as [i Hi], H2 as [j Hj].
      assert (i = j) as ->; [|split; congruence].
      eapply (NoDup_lookup rec.*2); [apply (ko_commits _ _ Hk)|..]; by rewrite list_lookup_fmap, ?Hi, ?Hj.
Qed.

(** ** The changes that a transaction makes *)

Definition dummy_node (id : nat) (name : string) : CatalogEntry :=
  mkCatalogEntry id INVALID name 0 true false false None.

Definition add_slot (s : CatalogSet) (tid : Z) (id : nat) (name : string) : CatalogSet :=
  mkCatalogSet (<[name := [mkMappingValue (cs_current_entry s) tid false]]> (cs_mapping s))
    (<[cs_current_entry s := [dummy_node id name]]> (cs_entries s)) (S (cs_current_entry s)).

Definition push_undo (tid : Z) p c : Catalog :=
  mkCatalog (cat_sets c) (cat_dependents_map c) (cat_dependencies_map c) (cat_next_id c) (cat_version c)
    (<[tid := undo_of c tid ++ [p]]> (cat_undo c)).

(** A version that [st, tid] may put on top of [ch]. *)
Record pushable (st tid : Z) c (s : CatalogSet) (index : nat) ch (child value : CatalogEntry) : Prop := {
  pu_head : head ch = Some child;
  pu_mapped : ∃ ts, cs_mapping s !! ce_name value = Some [mkMappingValue index ts false];
  pu_conflict : ce_timestamp child = tid ∨ ce_timestamp child <= st;
  pu_timestamp : ce_timestamp value = tid;
  pu_fresh : (ce_id value < cat_next_id c)%nat ∧ ce_id value ∉ ce_id <$> ch;
  pu_type : ce_type value ≠ INVALID ∧ ce_type value ≠ UPDATED_ENTRY;
}.

Inductive prim (st tid : Z) : Catalog → Catalog → Prop :=
| prim_meta c c' :
    cat_sets c' = cat_sets c → cat_undo c' = cat_undo c → (cat_next_id c <= cat_next_id c')%nat → prim st tid c c'
| prim_slot c sid s name id :
    cat_sets c !! sid = Some s → cs_mapping s !! name = None → StringUtil_Lower name = name →
    (id < cat_next_id c)%nat → prim st tid c (with_sets (<[sid := add_slot s tid id name]>) c)
| prim_push c sid s index ch child value :
    cat_sets c !! sid = Some s → cs_entries s !! index = Some ch → pushable st tid c s index ch child value →
    prim st tid c
      (with_sets (<[sid := set_chain index (value :: ch) s]>) (push_undo tid (sid, index, ce_id child) c)).

Lemma set_inv_change c c' act rec act' rec' sid (s : CatalogSet) :
  set_inv c act rec sid s → (cat_next_id c <= cat_next_id c')%nat →
  (∀ tid st stamp, live act rec stamp tid st → live act' rec' stamp tid st) →
  (∀ index ch stamp tid st, cs_entries s !! index = Some ch → live act' rec' stamp tid st →
    slot_entries sid index (undo_of c' tid) = reverse (children stamp ch)) →
  set_inv c' act' rec' sid s.
Proof.
  intros [H1 H2 H3] Hnext Hlive Hch. split; [done|done|]. intros index ch Hi.
  eapply (slot_inv_change c); [by apply H3|done|done| | |]; eauto.
Qed.

Lemma undo_of_push tid p c tid' :
  undo_of (push_undo tid p c) tid' = if decide (tid' = tid) then undo_of c tid ++ [p] else undo_of c tid'.
Proof.
  unfold undo_of, push_undo. cbn. case_decide as Heq; [subst; by rewrite lookup_insert_eq|by rewrite lookup_insert_ne].
Qed.

Lemma prim_slot_inv c act rec tid sid s name id :
  catalog_inv c act rec → cat_sets c !! sid = Some s → cs_mapping s !! name = None →
  StringUtil_Lower name = name → (id < cat_next_id c)%nat →
  catalog_inv (with_sets (<[sid := add_slot s tid id name]>) c) act rec.
Proof.
  intros Hc Hs Hname Hlow Hid. pose proof (ci_sets _ _ _ Hc _ _ Hs) as Hset.
  assert (cs_entries s !! cs_current_entry s = None) as Hcur.
  { destruct (cs_entries s !! cs_current_entry s) as [ch|] eqn:Hch; [|done].
    pose proof (sl_index _ _ _ _ _ _ _ (si_slots _ _ _ _ _ Hset _ _ Hch)). lia. }
  assert (∀ name' index ts, cs_mapping s !! name' = Some [mkMappingValue index ts false] → index ≠ cs_current_entry s) as Hidx.
  { intros name' index ts Hm ->. destruct (si_mapping _ _ _ _ _ Hset _ _ Hm) as (i & ? & ch & [= <- _] & _ & Hch & _). congruence. }
  split; [apply (ci_keys _ _ _ Hc)| |].
  - intros sid' s'. cbn. intros [[<- <-]|[Hne Hs']]%lookup_insert_Some; cycle 1.
    { eapply (set_inv_change c); [by apply (ci_sets _ _ _ Hc)|done|done|].
      intros index ch stamp tid' st' Hi Hl.
      exact (sl_children _ _ _ _ _ _ _ (si_slots _ _ _ _ _ (ci_sets _ _ _ Hc _ _ Hs') _ _ Hi) _ _ _ Hl). }
    split; cbn.
    + intros name' values [[<- <-]|[Hne Hm]]%lookup_insert_Some.
      * exists (cs_current_entry s), tid, [dummy_node id name]. rewrite lookup_insert_eq. repeat split; [done|].
        by apply Forall_singleton.
      * destruct (si_mapping _ _ _ _ _ Hset _ _ Hm) as (i & ts & ch & -> & Hl & Hch & Hf).
        exists i, ts, ch. rewrite lookup_insert_ne by (symmetry; by eapply Hidx). done.
    + intros name1 name2 index ts ts' [[<- [= <- <-]]|[Hne1 Hm1]]%lookup_insert_Some [[<- Heq]|[Hne2 Hm2]]%lookup_insert_Some.
      * done.
      * by apply Hidx in Hm2.
      * injection Heq as <- <-. by apply Hidx in Hm1.
      * by eapply (si_injective _ _ _ _ _ Hset).
    + intros index ch [[<- <-]|[Hne Hch]]%lookup_insert_Some.
      * split; cbn; [done|lia|apply NoDup_singleton|by apply Forall_singleton| | |lia|by apply Forall_singleton|].
        -- intros [|? [|]] a b below; discriminate.
        -- intros stamp tid' st' Hl. by apply (undo_slots c act rec sid s).
        -- by intros e [= <-].
      * eapply (slot_inv_change c); [by apply (si_slots _ _ _ _ _ Hset)|cbn; lia|done|done| |].
        -- exact (sl_children _ _ _ _ _ _ _ (si_slots _ _ _ _ _ Hset _ _ Hch)).
        -- intros name' ts Hm. exists ts. cbn. rewrite lookup_insert_ne; [done|]. intros ->. congruence.
  - intros tid' p Hp. destruct (ci_undo _ _ _ Hc tid' p Hp) as [Hl (s' & ch & Hs' & Hch)]. split; [done|]. cbn.
    destruct (decide (p.1.1 = sid)) as [Hp1|Hne]; [|rewrite lookup_insert_ne by done; by exists s', ch].
    rewrite Hp1 in *. rewrite lookup_insert_eq. exists (add_slot s tid id name), ch. split; [done|]. cbn.
    assert (s' = s) as -> by congruence. rewrite lookup_insert_ne; [done|]. intros Heq. congruence.
Qed.

Lemma children_push stamp (value child : CatalogEntry) ch :
  head ch = Some child →
  children stamp (value :: ch) = if ce_timestamp value =? stamp then ce_id child :: children stamp ch else children stamp ch.
Proof. destruct ch as [|e ch]; [done|]. by intros [= ->]. Qed.

(** A slot after a change of its chain, in a set whose mapping stays. *)
Lemma set_chain_inv c c' act rec act' rec' sid (s : CatalogSet) index ch ch' :
  set_inv c act rec sid s → cs_entries s !! index = Some ch →
  (∀ name, Forall (λ e, ce_name e = name) ch → Forall (λ e, ce_name e = name) ch' ) →
  (cat_next_id c <= cat_next_id c')%nat →
  (∀ tid st stamp, live act rec stamp tid st → live act' rec' stamp tid st) →
  (∀ index' ch' stamp tid st, index' ≠ index → cs_entries s !! index' = Some ch' → live act' rec' stamp tid st →
    slot_entries sid index' (undo_of c' tid) = reverse (children stamp ch')) →
  slot_inv c' act' rec' (set_chain index ch' s) sid index ch' →
  set_inv c' act' rec' sid (set_chain index ch' s).
Proof.
  intros Hset Hch Hnames Hnext Hlive Hother Hslot. split; cbn.
  - intros name values Hm. destruct (si_mapping _ _ _ _ _ Hset _ _ Hm) as (i & ts & ch0 & -> & Hl & Hi & Hf).
    destruct (decide (i = index)) as [->|Hne].
    + exists index, ts, ch'. rewrite lookup_insert_eq. repeat split; [done|]. apply Hnames. congruence.
    + exists i, ts, ch0. by rewrite lookup_insert_ne.
  - apply (si_injective _ _ _ _ _ Hset).
  - intros i ch0 [[<- <-]|[Hne Hi]]%lookup_insert_Some; [done|].
    eapply (slot_inv_change c); [by apply (si_slots _ _ _ _ _ Hset)|done|done| | |]; eauto.
Qed.

Lemma prim_push_inv c act rec st tid sid s index ch child value :
  catalog_inv c act rec → (st, tid) ∈ act → cat_sets c !! sid = Some s → cs_entries s !! index = Some ch →
  pushable st tid c s index ch child value →
  catalog_inv (with_sets (<[sid := set_chain index (value :: ch) s]>) (push_undo tid (sid, index, ce_id child) c)) act rec.
Proof.
  intros Hc Hin Hs Hch [Hhd [ts Hmap] Hconf Hts [Hid Hfresh] Htype]. pose proof (ci_sets _ _ _ Hc _ _ Hs) as Hset.
  pose proof (ci_keys _ _ _ Hc) as Hk. pose proof (si_slots _ _ _ _ _ Hset _ _ Hch) as Hslot.
  destruct (si_mapping _ _ _ _ _ Hset _ _ Hmap) as (i & ts' & ch0 & [= <- <-] & _ & Hch0 & Hnames).
  assert (ch0 = ch) as -> by congruence.
  assert (∀ sid' index' ch' stamp tid' st', (sid', index') ≠ (sid, index) → live act rec stamp tid' st' →
    slot_entries sid' index' (undo_of c tid') = reverse (children stamp ch') →
    slot_entries sid' index' (undo_of (push_undo tid (sid, index, ce_id child) c) tid') = reverse (children stamp ch')) as Hother.
  { intros sid' index' ch' stamp tid' st' Hne Hl Heq. rewrite undo_of_push. case_decide as Ht; [|done]. subst tid'.
    rewrite slot_entries_app, slot_entries_single, decide_False, app_nil_r; [done|]. cbn. congruence. }
  split; [done| |].
  - intros sid' s'. cbn. intros [[<- <-]|[Hne Hs']]%lookup_insert_Some; cycle 1.
    { eapply (set_inv_change c); [by apply (ci_sets _ _ _ Hc)|done|done|]. intros index' ch' stamp tid' st' Hi Hl.
      apply (Hother _ _ _ _ _ st'); [congruence|done|].
      exact (sl_children _ _ _ _ _ _ _ (si_slots _ _ _ _ _ (ci_sets _ _ _ Hc _ _ Hs') _ _ Hi) _ _ _ Hl). }
    eapply (set_chain_inv c); [done|done| |done|done| |].
    + intros name Hn. apply Forall_cons. split; [|done]. destruct ch as [|e ch]; [done|].
      apply Forall_cons in Hn as [Hn _], Hnames as [Hn' _]. congruence.
    + intros index' ch' stamp tid' st' Hne Hi Hl. apply (Hother _ _ _ _ _ st'); [congruence|done|].
      exact (sl_children _ _ _ _ _ _ _ (si_slots _ _ _ _ _ Hset _ _ Hi) _ _ _ Hl).
    + destruct Hslot as [S1 S2 S3 S4 S5 S6 S7 S8 S9]. split; [done|done| | | | | | |].
      * cbn. by apply NoDup_cons.
      * apply Forall_cons. by split.
      * intros [|x above] a b below [= -> Heq].
        -- subst ch. injection Hhd as ->. split; [|done]. exists st, tid. rewrite Hts. split; [by left|done].
        -- by apply (S5 above a b below).
      * intros stamp tid' st' Hl. rewrite (children_push _ _ child), Hts by done. cbn [with_sets]. 
        change (undo_of _ tid') with (undo_of (push_undo tid (sid, index, ce_id child) c) tid').
        rewrite undo_of_push. case_decide as Ht.
        -- subst tid'. destruct (live_running _ _ _ _ _ _ Hk Hin Hl) as [-> _]. rewrite Z.eqb_refl, reverse_cons.
           rewrite slot_entries_app, slot_entries_single, decide_True by done. by rewrite (S6 _ _ _ Hl).
        -- pose proof (live_other _ _ _ _ _ _ _ Hk Hin Hl Ht). destruct (Z.eqb_spec tid stamp); [congruence|]. by eapply S6.
      * intros _. exists (ce_name value), ts. split; [done|]. by apply Forall_cons.
      * apply Forall_cons. split; [|done]. by destruct Htype.
      * intros e He. apply S9. destruct ch; [done|]. exact He.
  - intros tid' p Hp. change (undo_of _ tid') with (undo_of (push_undo tid (sid, index, ce_id child) c) tid') in Hp.
    assert (∀ s' ch', cat_sets c !! p.1.1 = Some s' → cs_entries s' !! p.1.2 = Some ch' →
      ∃ s'' ch'', <[sid:=set_chain index (value :: ch) s]> (cat_sets c) !! p.1.1 = Some s'' ∧ cs_entries s'' !! p.1.2 = Some ch'') as Hslots.
    { intros s' ch' Hs' Hch'. destruct (decide (p.1.1 = sid)) as [Hp1|Hne]; [|rewrite lookup_insert_ne by done; by exists s', ch'].
      rewrite Hp1 in *. rewrite lookup_insert_eq. eexists. destruct (decide (p.1.2 = index)) as [->|Hne].
      - exists (value :: ch). split; [done|]. cbn. by rewrite lookup_insert_eq.
      - exists ch'. split; [done|]. cbn. rewrite lookup_insert_ne by done. congruence. }
    rewrite undo_of_push in Hp. case_decide as Ht; [|destruct (ci_undo _ _ _ Hc _ _ Hp) as [? (s' & ch' & ? & ?)]; eauto].
    subst tid'. apply elem_of_app in Hp as [Hp| ->%list_elem_of_singleton].
    + destruct (ci_undo _ _ _ Hc _ _ Hp) as [? (s' & ch' & ? & ?)]; eauto.
    + split; [exists tid, st; by left|]. apply (Hslots s ch); done.
Qed.

(** ** The views of other transactions *)

Lemma catalog_view_none c t sid name : cat_sets c !! sid = None → catalog_view c t sid name = None.
Proof.
  intros Hs. unfold catalog_view, GetEntry, get_set, gets, mbind, M_bind. by rewrite Hs.
Qed.

(** Two states whose sets are related one by one. *)
Lemma catalog_view_change c c' act rec act' rec' t sid name :
  catalog_inv c act rec → catalog_inv c' act' rec' → StringUtil_Lower name = name →
  (∀ s, cat_sets c !! sid = Some s → ∃ s', cat_sets c' !! sid = Some s' ∧ set_view t s' name = set_view t s name) →
  (cat_sets c !! sid = None → cat_sets c' !! sid = None) →
  catalog_view c' t sid name = catalog_view c t sid name.
Proof.
  intros Hc Hc' Hn Hsome Hnone. destruct (cat_sets c !! sid) as [s|] eqn:Hs.
  - destruct (Hsome s eq_refl) as (s' & Hs' & Hv).
    by rewrite (catalog_view_set c act rec t sid s), (catalog_view_set c' act' rec' t sid s')
      by (done || by apply Hc || by apply Hc').
  - by rewrite !catalog_view_none by auto.
Qed.

Lemma UseTimestamp_other t' tid :
  start_time t' < TRANSACTION_ID_START → TRANSACTION_ID_START <= tid → tid ≠ transaction_id t' → UseTimestamp t' tid = false.
Proof. intros. unfold UseTimestamp. bools; lia || done. Qed.

Lemma chain_view_push t (value : CatalogEntry) ch :
  UseTimestamp t (ce_timestamp value) = false → ch ≠ [] → chain_view t (value :: ch) = chain_view t ch.
Proof. intros Hu Hne. unfold chain_view, GetEntryForTransaction. by rewrite first_usable_push. Qed.

(** A set after a change of one chain. *)
Lemma set_view_chain t (s : CatalogSet) index ch ch' name :
  cs_entries s !! index = Some ch → chain_view t ch' = chain_view t ch →
  set_view t (set_chain index ch' s) name = set_view t s name.
Proof.
  intros Hch Hv. unfold set_view. cbn. destruct (cs_mapping s !! name) as [[|m values]|]; [done| |done].
  destruct (decide (mv_index m = index)) as [->|Hne]; [by rewrite lookup_insert_eq, Hch|by rewrite lookup_insert_ne].
Qed.

Lemma prim_inv st tid c c' act rec :
  catalog_inv c act rec → (st, tid) ∈ act → prim st tid c c' → catalog_inv c' act rec.
Proof.
  intros Hc Hin Hp. destruct Hp as [c c' Hs Hu Hn|c sid s name id|c sid s index ch child value].
  - split; [apply (ci_keys _ _ _ Hc)| |].
    + rewrite Hs. intros sid s Hsid. eapply (set_inv_change c); [by apply (ci_sets _ _ _ Hc)|done|done|].
      intros index ch stamp tid' st' Hi Hl. unfold undo_of. rewrite Hu.
      exact (sl_children _ _ _ _ _ _ _ (si_slots _ _ _ _ _ (ci_sets _ _ _ Hc _ _ Hsid) _ _ Hi) _ _ _ Hl).
    + unfold undo_of. rewrite Hu, Hs. apply (ci_undo _ _ _ Hc).
  - by apply prim_slot_inv.
  - by apply (prim_push_inv _ _ _ st).
Qed.

Lemma prim_view st tid c c' act rec t sid name :
  catalog_inv c act rec → (st, tid) ∈ act → prim st tid c c' →
  key t ∈ act → transaction_id t ≠ tid → StringUtil_Lower name = name →
  catalog_view c' t sid name = catalog_view c t sid name.
Proof.
  intros Hc Hin Hp Ht Hne Hn. pose proof (prim_inv _ _ _ _ _ _ Hc Hin Hp) as Hc'.
  pose proof (ci_keys _ _ _ Hc) as Hk. destruct (ko_act _ _ Hk _ _ Hin) as [_ Htid], (ko_act _ _ Hk _ _ Ht) as [[_ Hst] _].
  assert (UseTimestamp t tid = false) as Huse by (apply UseTimestamp_other; [lia|exact Htid|congruence]).
  eapply catalog_view_change; [done|done|done|..]; destruct Hp as [c c' Hs Hu Hnx|c sid' s name' id Hs Hname Hl Hid|c sid' s index ch child value Hs Hch Hpu].
  - rewrite Hs. eauto.
  - intros s0 Hs0. cbn. destruct (decide (sid = sid')) as [->|Hd]; [|rewrite lookup_insert_ne by done; eauto].
    rewrite lookup_insert_eq. eexists. split; [done|]. assert (s0 = s) as -> by congruence. unfold set_view. cbn.
    destruct (decide (name = name')) as [->|Hnn].
    + rewrite lookup_insert_eq. cbn. rewrite lookup_insert_eq, Hname. done.
    + rewrite lookup_insert_ne by done. destruct (cs_mapping s !! name) as [values|] eqn:Hm; [|done].
      pose proof (ci_sets _ _ _ Hc _ _ Hs) as Hset. destruct (si_mapping _ _ _ _ _ Hset _ _ Hm) as (i & ts & ch & -> & _ & Hch & _).
      cbn. rewrite lookup_insert_ne; [done|]. intros Heq.
      pose proof (sl_index _ _ _ _ _ _ _ (si_slots _ _ _ _ _ Hset _ _ Hch)). lia.
  - intros s0 Hs0. cbn. destruct (decide (sid = sid')) as [->|Hd]; [|rewrite lookup_insert_ne by done; eauto].
    rewrite lookup_insert_eq. eexists. split; [done|]. assert (s0 = s) as -> by congruence.
    apply (set_view_chain _ _ _ ch); [done|]. apply chain_view_push; [by rewrite (pu_timestamp _ _ _ _ _ _ _ _ Hpu)|].
    pose proof (pu_head _ _ _ _ _ _ _ _ Hpu). by destruct ch.
  - by rewrite Hs.
  - intros Hs0. cbn. rewrite lookup_insert_ne; [done|]. congruence.
  - intros Hs0. cbn. rewrite lookup_insert_ne; [done|]. congruence.
Qed.

Lemma prims_ok st tid c c' act rec :
  rtc (prim st tid) c c' → catalog_inv c act rec → (st, tid) ∈ act →
  catalog_inv c' act rec ∧
  ∀ t sid name, key t ∈ act → transaction_id t ≠ tid → StringUtil_Lower name = name →
    catalog_view c' t sid name = catalog_view c t sid name.
Proof.
  intros Hr. induction Hr as [c|c c1 c2 Hp Hr IH]; intros Hc Hin; [done|].
  pose proof (prim_inv _ _ _ _ _ _ Hc Hin Hp) as Hc1. destruct (IH Hc1 Hin) as [Hc2 Hv]. split; [done|].
  intros t sid name Ht Hne Hn. rewrite (Hv t sid name Ht Hne Hn). by apply (prim_view st tid c c1 act rec).
Qed.

(** ** A program logic for the operations of one transaction *)

Section triples.
Context (act : list (Z * Z)) (rec : list (Z * Z * Z)) (t : Transaction) (Ht : key t ∈ act).

Abbreviation steps := (rtc (prim (start_time t) (transaction_id t))).

(** From [P], the program takes steps of the transaction, and [Q] holds when it
    returns. *)
Definition triple {B} (P : Catalog → Prop) (m : M B) (Q : B → Catalog → Prop) : Prop :=
  ∀ c, catalog_inv c act rec → P c → steps c (out_state (m c)) ∧ ∀ c' b, m c = Ret c' b → Q b c'.

Lemma steps_inv c c' : catalog_inv c act rec → steps c c' → catalog_inv c' act rec.
Proof. intros Hc Hs. by destruct (prims_ok _ _ _ _ _ _ Hs Hc Ht). Qed.

Lemma triple_ret {B} (b : B) (P : B → Catalog → Prop) : triple (P b) (mret b) P.
Proof. intros c _ HP. split; [apply rtc_refl|]. by intros c' b' [= <- <-]. Qed.

Lemma triple_throw {B} ex P (Q : B → Catalog → Prop) : triple P (throw ex) Q.
Proof. intros c _ HP. split; [apply rtc_refl|done]. Qed.

Lemma triple_bind {B D} P (m : M B) Q (f : B → M D) R :
  triple P m Q → (∀ b, triple (Q b) (f b) R) → triple P (m ≫= f) R.
Proof.
  intros Hm Hf c Hc HP. destruct (Hm c Hc HP) as [Hs HQ]. unfold mbind, M_bind.
  destruct (m c) as [c1 b|c1 ex]; cbn in Hs; [|split; [done|done]].
  destruct (Hf b c1 (steps_inv _ _ Hc Hs) (HQ c1 b eq_refl)) as [Hs' HR].
  split; [by transitivity c1|done].
Qed.

Lemma triple_weaken {B} P P' (m : M B) (Q Q' : B → Catalog → Prop) :
  triple P m Q → (∀ c, catalog_inv c act rec → P' c → P c) → (∀ b c, catalog_inv c act rec → Q b c → Q' b c) → triple P' m Q'.
Proof.
  intros Hm HP HQ c Hc HP'. destruct (Hm c Hc (HP c Hc HP')) as [Hs HQ1]. split; [done|].
  intros c' b Heq. apply HQ; [|by apply HQ1]. rewrite Heq in Hs. by apply (steps_inv c).
Qed.

(** A program that only reads, with what it learns. *)
Lemma triple_read {B} (P : Catalog → Prop) (m : M B) (Q : B → Catalog → Prop) :
  (∀ c, catalog_inv c act rec → P c → match m c with Ret c' b => c' = c ∧ Q b c | Raise c' _ => c' = c end) → triple P m Q.
Proof.
  intros Hm c Hc HP. specialize (Hm c Hc HP). destruct (m c) as [c1 b|c1 ex]; cbn.
  - destruct Hm as [-> HQ]. split; [apply rtc_refl|]. by intros c' b' [= <- <-].
  - subst c1. split; [apply rtc_refl|done].
Qed.

Definition stable (R : Catalog → Prop) : Prop :=
  ∀ c c', catalog_inv c act rec → prim (start_time t) (transaction_id t) c c' → R c → R c'.

Lemma stable_steps R c c' : stable R → catalog_inv c act rec → steps c c' → R c → R c'.
Proof.
  intros HR Hc Hs. induction Hs as [c|c c1 c2 Hp Hs IH]; intros H; [done|].
  apply IH; [by apply (prim_inv _ _ _ _ _ _ Hc Ht Hp)|by apply (HR c)].
Qed.

Lemma triple_frame {B} P (m : M B) (Q : B → Catalog → Prop) R :
  stable R → triple P m Q → triple (λ c, P c ∧ R c) m (λ b c, Q b c ∧ R c).
Proof.
  intros HR Hm c Hc [HP HRc]. destruct (Hm c Hc HP) as [Hs HQ]. split; [done|]. intros c' b Heq.
  split; [by apply HQ|]. rewrite Heq in Hs. by apply (stable_steps R c).
Qed.

Lemma triple_for_each {B} (f : B → M ()) l R :
  (∀ b, triple R (f b) (λ _, R)) → triple R (for_each f l) (λ _, R).
Proof.
  intros Hf. induction l as [|b l IH]; [exact (triple_ret () (λ _, R))|]. cbn [for_each]. by eapply triple_bind.
Qed.

(** Changes outside the sets and the undo buffers. *)
Lemma triple_meta (f : Catalog → Catalog) (P : Catalog → Prop) :
  (∀ c, cat_sets (f c) = cat_sets c ∧ cat_undo (f c) = cat_undo c ∧ cat_next_id (f c) = cat_next_id c) →
  (∀ c, P c → P (f c)) → triple P (modify f) (λ _, P).
Proof.
  intros Hf HP c Hc H. destruct (Hf c) as (H1 & H2 & H3). split.
  - apply rtc_once, prim_meta; [done|done|cbn; lia].
  - intros c' b [= <- <-]. by apply HP.
Qed.

(** ** Slots that the transaction may write to *)

Definition writable (sid index : nat) (name : string) c : Prop :=
  ∃ s ch child ts, cat_sets c !! sid = Some s ∧ cs_entries s !! index = Some ch ∧ head ch = Some child ∧
    cs_mapping s !! name = Some [mkMappingValue index ts false] ∧
    (ce_timestamp child = transaction_id t ∨ ce_timestamp child <= start_time t).

Lemma writable_stable sid index name : stable (writable sid index name).
Proof.
  intros c c' Hc Hp (s & ch & child & ts & Hs & Hch & Hhd & Hm & Hcf).
  destruct Hp as [c c' Hs' Hu Hn|c sid' s' name' id Hs' Hname Hl Hid|c sid' s' index' ch' child' value Hs' Hch' Hpu].
  - rewrite <-Hs' in Hs. by exists s, ch, child, ts.
  - destruct (decide (sid' = sid)) as [->|Hne].
    + assert (s' = s) as -> by congruence. exists (add_slot s (transaction_id t) id name'), ch, child, ts.
      cbn. rewrite lookup_insert_eq. split; [done|]. cbn.
      pose proof (sl_index _ _ _ _ _ _ _ (si_slots _ _ _ _ _ (ci_sets _ _ _ Hc _ _ Hs) _ _ Hch)).
      rewrite lookup_insert_ne by lia. split; [done|]. split; [done|]. split; [|done].
      rewrite lookup_insert_ne; [done|]. congruence.
    + exists s, ch, child, ts. cbn. by rewrite lookup_insert_ne.
  - destruct (decide (sid' = sid)) as [->|Hne].
    + assert (s' = s) as -> by congruence. destruct (decide (index' = index)) as [->|Hni].
      * exists (set_chain index (value :: ch') s), (value :: ch'), value, ts. cbn. rewrite !lookup_insert_eq.
        split; [done|]. cbn. rewrite ?lookup_insert_eq. repeat split; [done|]. left. apply Hpu.
      * exists (set_chain index' (value :: ch') s), ch, child, ts. cbn. rewrite lookup_insert_eq.
        split; [done|]. cbn. by rewrite lookup_insert_ne.
    + exists s, ch, child, ts. cbn. by rewrite lookup_insert_ne.
Qed.

Lemma HasConflict_false ts :
  HasConflict t ts = false → ts = transaction_id t ∨ ts <= start_time t.
Proof. unfold HasConflict. intros H. bools; try done; lia. Qed.

(** An identity that no version has. *)
Definition unused (id : nat) c : Prop :=
  (id < cat_next_id c)%nat ∧
  ∀ sid s index ch, cat_sets c !! sid = Some s → cs_entries s !! index = Some ch → id ∉ ce_id <$> ch.

Lemma triple_fresh_id R : stable R → triple R fresh_id (λ id c, unused id c ∧ R c).
Proof.
  intros HR c Hc HP. assert (prim (start_time t) (transaction_id t) c (out_state (fresh_id c))) as Hp.
  { apply prim_meta; [done|done|cbn; lia]. }
  split; [by apply rtc_once|]. intros c' id [= <- <-]. split; [|by apply (HR c)]. split; [cbn; lia|].
  cbn. intros sid s index ch Hs Hch Hin.
  pose proof (sl_fresh _ _ _ _ _ _ _ (si_slots _ _ _ _ _ (ci_sets _ _ _ Hc _ _ Hs) _ _ Hch)) as Hf.
  rewrite Forall_forall in Hf. apply list_elem_of_fmap in Hin as (e & Heq & He). specialize (Hf e He). cbn in Hf. lia.
Qed.

(** ** The operations *)

(** The newest version under its name. *)
Definition on_top (sid : nat) (value : CatalogEntry) c : Prop :=
  ∃ s index ch ts, cat_sets c !! sid = Some s ∧ cs_entries s !! index = Some (value :: ch) ∧ ch ≠ [] ∧
    cs_mapping s !! ce_name value = Some [mkMappingValue index ts false].

Lemma triple_push sid index (value : CatalogEntry) :
  ce_timestamp value = transaction_id t → ce_type value ≠ INVALID → ce_type value ≠ UPDATED_ENTRY →
  triple (λ c, unused (ce_id value) c ∧ writable sid index (ce_name value) c) (push_version t sid index value)
    (λ _, on_top sid value).
Proof.
  intros Hts Hty1 Hty2 c Hc [[Hid Hun] (s & ch & child & ts & Hs & Hch & Hhd & Hm & Hcf)].
  unfold push_version, get_set, gets, mbind, M_bind. rewrite Hs. cbn. rewrite Hch. cbn. rewrite Hhd. cbn. split.
  - apply rtc_once. eapply (prim_push _ _ c sid s index ch child value); [done|done|].
    split; [done|by exists ts|done|done|split; [done|by eapply Hun]|done].
  - intros c' b [= <- <-]. exists (set_chain index (value :: ch) s), index, ch, ts. cbn. rewrite !lookup_insert_eq.
    repeat split; [by destruct ch|done].
Qed.

Lemma triple_valid {B} (f : Catalog → option B) R :
  triple R (gets f ≫= valid) (λ b c, f c = Some b ∧ R c).
Proof.
  apply triple_read. intros c _ HR. unfold gets, mbind, M_bind. by destruct (f c) as [b|].
Qed.

Lemma triple_option {B} (o : option B) R : triple R (valid o) (λ b c, o = Some b ∧ R c).
Proof. apply triple_read. intros c _ HR. by destruct o. Qed.

Lemma triple_gets {B} (f : Catalog → B) R : triple R (gets f) (λ b c, b = f c ∧ R c).
Proof. apply triple_read. intros c _ HR. done. Qed.

Lemma find_mapping_name (s : CatalogSet) name alias values :
  find_mapping s name alias = Some values →
  ∃ name', cs_mapping s !! name' = Some values ∧ StringUtil_Lower name' = StringUtil_Lower name.
Proof.
  unfold find_mapping. destruct (cs_mapping s !! name) as [values'|] eqn:Hm; [intros [= ->]; eauto|].
  destruct alias; [|done]. destruct (List.filter _ _) as [|kv [|]] eqn:Hf; [done| |done]. intros [= <-].
  assert (kv ∈ List.filter (λ kv, bool_decide (StringUtil_Lower name = StringUtil_Lower kv.1)) (map_to_list (cs_mapping s)))
    as [Hin Heq%bool_decide_eq_true]%elem_of_filter_b by (rewrite Hf; left).
  exists kv.1. split; [|done]. apply elem_of_map_to_list. by destruct kv.
Qed.

(** A mapping that is found leads to a slot with entries of one name. *)
Definition mapped (sid index : nat) (name : string) c : Prop :=
  ∃ s ts, cat_sets c !! sid = Some s ∧ cs_mapping s !! name = Some [mkMappingValue index ts false].

Lemma GetMapping_mapped c sid (s : CatalogSet) name alias m :
  catalog_inv c act rec → cat_sets c !! sid = Some s → GetMapping t s name alias false = Some m →
  mv_deleted m = false ∧ mapped sid (mv_index m) (StringUtil_Lower name) c.
Proof.
  intros Hc Hs. unfold GetMapping. destruct (find_mapping s name alias) as [values|] eqn:Hf; [|done]. cbn.
  destruct (find_mapping_name _ _ _ _ Hf) as (name' & Hm & <-).
  destruct (si_mapping _ _ _ _ _ (ci_sets _ _ _ Hc _ _ Hs) _ _ Hm) as (index & ts & ch & -> & Hl & _). cbn.
  intros [= <-]. split; [done|]. rewrite Hl. by exists s, ts.
Qed.

Lemma triple_GetEntryAt sid index name R :
  triple (λ c, mapped sid index name c ∧ R c) (GetEntryAt t sid index)
    (λ found c, (∀ e, found = Some e → writable sid index (ce_name e) c ∧ ce_name e = name) ∧ R c).
Proof.
  apply triple_read. intros c Hc [(s & ts & Hs & Hm) HR].
  destruct (si_mapping _ _ _ _ _ (ci_sets _ _ _ Hc _ _ Hs) _ _ Hm) as (i & ts' & ch & [= <- <-] & _ & Hch & Hn).
  unfold GetEntryAt, get_set, gets, mbind, M_bind. rewrite Hs. cbn. rewrite Hch. cbn.
  destruct ch as [|e ch]; [done|]. cbn. destruct (HasConflict t (ce_timestamp e)) eqn:Hcf; [done|].
  destruct (ce_deleted e); cbn; [done|]. split; [done|]. split; [|done]. intros e' [= <-].
  apply Forall_cons in Hn as [Hn _]. split; [|done]. rewrite Hn. exists s, (e :: ch), e, ts.
  repeat split; [done|done|done|]. by apply HasConflict_false.
Qed.

Lemma triple_GetEntryInternal sid name :
  triple (λ _, True) (GetEntryInternal t sid name)
    (λ found c, ∀ index e, found = Some (index, e) → writable sid index (ce_name e) c ∧ ce_name e = StringUtil_Lower name).
Proof.
  set (Q := λ (found : option (nat * CatalogEntry)) c,
    ∀ index e, found = Some (index, e) → writable sid index (ce_name e) c ∧ ce_name e = StringUtil_Lower name).
  unfold GetEntryInternal. eapply triple_bind; [apply (triple_valid _ (λ _, True))|]. intros s.
  destruct (GetMapping t s name true false) as [m|] eqn:Hm; [|eapply triple_weaken; [apply (triple_ret None Q)|done|done]].
  destruct (mv_deleted m); [eapply triple_weaken; [apply (triple_ret None Q)|done|done]|]. eapply triple_bind.
  - eapply triple_weaken; [apply (triple_GetEntryAt sid (mv_index m) (StringUtil_Lower name) (λ _, True))| |intros b c _ H; exact H].
    intros c Hc [Hs _]. split; [|done]. by destruct (GetMapping_mapped c sid s name true m Hc Hs Hm).
  - intros found. apply triple_read. intros c Hc [H _]. split; [done|].
    intros index e Heq. destruct found as [e'|]; [|done]. cbn in Heq. injection Heq as <- <-. by apply H.
Qed.

(** Programs that change nothing. *)
Definition reads {B} (m : M B) : Prop := ∀ c, out_state (m c) = c.

Lemma reads_bind {B D} (m : M B) (f : B → M D) : reads m → (∀ b, reads (f b)) → reads (m ≫= f).
Proof.
  intros Hm Hf c. specialize (Hm c). unfold mbind, M_bind. destruct (m c) as [c1 b|c1 ex]; cbn in *; subst c1; [apply Hf|done].
Qed.

Lemma reads_valid {B} (o : option B) : reads (valid o).
Proof. by destruct o. Qed.

Lemma reads_GetEntryInternal sid name : reads (GetEntryInternal t sid name).
Proof.
  unfold GetEntryInternal, get_set. apply reads_bind; [apply reads_bind; [done|intros o; apply reads_valid]|]. intros s.
  destruct (GetMapping t s name true false) as [m|]; [|done]. destruct (mv_deleted m); [done|].
  apply reads_bind; [|done]. unfold GetEntryAt, get_set.
  apply reads_bind; [apply reads_bind; [done|intros o; apply reads_valid]|]. intros s'.
  apply reads_bind; [apply reads_valid|]. intros ch. apply reads_bind; [apply reads_valid|]. intros e.
  destruct (HasConflict t (ce_timestamp e)); [done|]. by destruct (ce_deleted e).
Qed.

Lemma triple_reads {B} (m : M B) R : reads m → triple R m (λ _, R).
Proof.
  intros Hm. apply triple_read. intros c _ HR. specialize (Hm c). destruct (m c); cbn in Hm; by subst.
Qed.

Lemma triple_DropEntryInternal fuel : ∀ sid index (entry : CatalogEntry) cascade,
  triple (writable sid index (ce_name entry)) (DropEntryInternal fuel t sid index entry cascade)
    (λ _ c, ∃ value, on_top sid value c ∧ ce_timestamp value = transaction_id t ∧ ce_name value = ce_name entry ∧
      ce_deleted value = true).
Proof.
  induction fuel as [|fuel IH]; intros sid index entry cascade; [apply triple_throw|]. cbn [DropEntryInternal].
  set (R := writable sid index (ce_name entry)). assert (stable R) as HR by apply writable_stable.
  eapply triple_bind; [apply (triple_gets _ R)|]. intros deps. eapply triple_bind.
  - eapply triple_weaken; [apply (triple_for_each _ _ R)|by intros c _ [_ H]|by intros b c _ H]. intros dep.
    eapply triple_bind; [apply (triple_valid _ R)|]. intros d. cbn zeta.
    eapply triple_bind; [eapply triple_weaken; [apply (triple_valid (λ c, cat_sets c !! (dep_entry dep).1.1) R)|by intros c _ [_ H]|intros b c _ H; exact H]|]. intros s.
    destruct (GetMapping t s (ce_name d) true false) as [m|] eqn:Hm.
    + eapply triple_bind.
      * eapply triple_weaken; [apply (triple_GetEntryAt (dep_entry dep).1.1 (mv_index m) (StringUtil_Lower (ce_name d)) R)| |intros b c _ H; exact H].
        intros c Hc [Hs H]. split; [|done]. by destruct (GetMapping_mapped c _ s (ce_name d) true m Hc Hs Hm).
      * intros [e|]; [|eapply triple_weaken; [apply (triple_ret () (λ _, R))|by intros c _ [_ H]|done]].
        destruct (cascade || negb (requires_cascade dep)); [|apply triple_throw].
        eapply triple_weaken; [exact (triple_frame _ _ _ R HR (IH (dep_entry dep).1.1 (mv_index m) e cascade))| |by intros b c _ [_ H]].
        intros c _ [H1 H2]. split; [by apply H1|done].
    + eapply triple_weaken; [apply (triple_ret () (λ _, R))|by intros c _ [_ H]|done].
  - intros ?. eapply triple_bind; [by apply (triple_fresh_id R)|]. intros id.
    eapply triple_weaken; [apply (triple_push sid index
      (mkCatalogEntry id DELETED_ENTRY (ce_name entry) (transaction_id t) true false false None)); done|done|].
    intros u c _ H. eexists. split; [exact H|done].
Qed.

Lemma triple_DropEntry fuel sid name cascade :
  triple (λ _, True) (DropEntry fuel t sid name cascade)
    (λ dropped c, dropped = true → ∃ value, on_top sid value c ∧ ce_timestamp value = transaction_id t ∧
      ce_name value = StringUtil_Lower name ∧ ce_deleted value = true).
Proof.
  set (Q := λ (dropped : bool) c, dropped = true → ∃ value, on_top sid value c ∧ ce_timestamp value = transaction_id t ∧
    ce_name value = StringUtil_Lower name ∧ ce_deleted value = true).
  unfold DropEntry. eapply triple_bind; [apply triple_GetEntryInternal|]. intros [[index e]|].
  2: { eapply triple_weaken; [apply (triple_ret false Q)|done|done]. }
  destruct (ce_internal e); [apply triple_throw|].
  destruct (decide (ce_name e = StringUtil_Lower name)) as [Hn|Hn].
  - eapply triple_bind.
    + eapply triple_weaken; [apply (triple_DropEntryInternal fuel sid index e cascade)|intros c _ H; by apply H|intros b c _ H; exact H].
    + intros ?. apply triple_read. intros c _ H. split; [done|]. intros _. by rewrite <-Hn.
  - intros c _ H. by destruct (H index e eq_refl).
Qed.

(** The dependency manager only reads the sets. *)
Lemma triple_AddObject object type dependencies R :
  (∀ f g c, R c → R (with_dependencies f g c)) →
  triple R (AddObject t object type dependencies) (λ _, R).
Proof.
  intros Hmeta. unfold AddObject. eapply triple_bind.
  - apply triple_for_each. intros dep. eapply triple_bind; [apply (triple_valid _ R)|]. intros d.
    eapply triple_bind.
    + eapply triple_weaken; [apply (triple_reads _ R), reads_GetEntryInternal|by intros c _ [_ H]|intros b c _ H; exact H].
    + intros [x|]; [|apply triple_throw]. apply (triple_ret () (λ _, R)).
  - intros ?. by apply triple_meta; [|intros c; apply Hmeta].
Qed.

Lemma triple_AlterObject old_obj new_obj R :
  (∀ f g c, R c → R (with_dependencies f g c)) →
  triple R (AlterObject t old_obj new_obj) (λ _, R).
Proof.
  intros Hmeta. unfold AlterObject. eapply triple_bind; [apply (triple_gets _ R)|]. intros deps. eapply triple_bind.
  - eapply triple_weaken; [apply (triple_for_each _ _ R)|by intros c _ [_ H]|by intros b c _ H]. intros dep.
    eapply triple_bind; [apply (triple_valid _ R)|]. intros d. eapply triple_bind.
    + eapply triple_weaken; [apply (triple_reads _ R), reads_GetEntryInternal|by intros c _ [_ H]|intros b c _ H; exact H].
    + intros [x|]; [apply triple_throw|]. apply (triple_ret () (λ _, R)).
  - intros ?. eapply triple_bind; [apply (triple_gets _ R)|]. intros old.
    eapply triple_weaken; [apply (triple_meta _ R)|by intros c _ [_ H]|done]; [done|intros c; apply Hmeta].
Qed.

Lemma triple_create_dummy sid name :
  StringUtil_Lower name = name → 0 <= start_time t →
  triple (λ c, ∃ s, cat_sets c !! sid = Some s ∧ cs_mapping s !! name = None) (create_dummy t sid name)
    (λ index c, writable sid index name c).
Proof.
  intros Hl Hst c Hc (s & Hs & Hm).
  assert (create_dummy t sid name c = Ret (with_sets (<[sid := add_slot s (transaction_id t) (cat_next_id c) name]>)
    (out_state (fresh_id c))) (cs_current_entry s)) as Heq.
  { unfold create_dummy, get_set, gets, mbind, M_bind. rewrite Hs. cbn. unfold PutMapping, get_set, gets, mbind, M_bind.
    cbn. rewrite lookup_insert_eq. cbn. rewrite Hm. cbn. unfold with_sets. cbn. by rewrite insert_insert_eq. }
  rewrite Heq. split.
  - eapply rtc_l; [|apply rtc_once]; [apply (prim_meta _ _ c (out_state (fresh_id c))); [done|done|cbn; lia]|].
    apply prim_slot; [done|done|done|cbn; lia].
  - intros c' index [= <- <-]. eexists _, [dummy_node (cat_next_id c) name], _, _. cbn. rewrite lookup_insert_eq.
    split; [done|]. cbn. rewrite !lookup_insert_eq. repeat split. right. done.
Qed.

Lemma triple_create_slot sid name :
  StringUtil_Lower name = name → 0 <= start_time t →
  triple (λ _, True) (create_slot t sid name) (λ slot c, ∀ index, slot = Some index → writable sid index name c).
Proof.
  intros Hl Hst. unfold create_slot. eapply triple_bind; [apply (triple_valid _ (λ _, True))|]. intros s.
  assert (triple (λ c, cat_sets c !! sid = Some s ∧ True ∧ cs_mapping s !! name = None)
    (entry_index ← create_dummy t sid name; mret (Some entry_index))
    (λ slot c, ∀ index, slot = Some index → writable sid index name c)) as Hdummy.
  { eapply triple_bind; [eapply triple_weaken; [by apply triple_create_dummy|intros c _ (? & _ & ?); by exists s|intros b c _ H; exact H]|].
    intros index. apply triple_read. intros c _ H. split; [done|]. by intros index' [= <-]. }
  unfold GetMapping, find_mapping. destruct (cs_mapping s !! name) as [values|] eqn:Hm; cbn.
  2: { eapply triple_weaken; [exact Hdummy|by intros c _ [? _]|done]. }
  apply triple_read. intros c Hc [Hs _].
  destruct (si_mapping _ _ _ _ _ (ci_sets _ _ _ Hc _ _ Hs) _ _ Hm) as (index & ts & ch & -> & _ & Hch & _). cbn.
  unfold mbind, M_bind. rewrite Hch. cbn. destruct ch as [|e ch]; [done|]. cbn.
  destruct (HasConflict t (ce_timestamp e)) eqn:Hcf; [done|]. destruct (ce_deleted e); cbn; [|done].
  split; [done|]. intros index' [= <-]. exists s, (e :: ch), e, ts. repeat split; [done..|]. by apply HasConflict_false.
Qed.

(** What an alter or a creation hands over. *)
Definition good_data (d : EntryData (A := A)) : Prop :=
  StringUtil_Lower (ed_name d) = ed_name d ∧ ed_type d ≠ INVALID ∧ ed_type d ≠ UPDATED_ENTRY.

Lemma triple_CreateEntry sid (value : EntryData) dependencies :
  good_data value → 0 <= start_time t →
  triple (λ _, True) (CreateEntry t sid value dependencies)
    (λ created c, created = true → ∃ id, on_top sid (make_entry id value (transaction_id t)) c).
Proof.
  set (Q := λ (created : bool) c, created = true → ∃ id, on_top sid (make_entry id value (transaction_id t)) c).
  intros (Hl & Ht1 & Ht2) Hst. unfold CreateEntry. eapply triple_bind; [by apply triple_create_slot|].
  intros [index|]; [|eapply triple_weaken; [apply (triple_ret false Q)|done|done]].
  set (R := writable sid index (ed_name value)).
  eapply triple_bind.
  { eapply triple_weaken; [apply (triple_fresh_id R), writable_stable|intros c _ H; by apply H|intros b c _ H; exact H]. }
  intros id. eapply triple_bind.
  { apply (triple_AddObject _ _ _ (λ c, unused id c ∧ R c)). done. }
  intros ?. eapply triple_bind; [apply (triple_push sid index (make_entry id value (transaction_id t))); done|].
  intros ?. apply triple_read. intros c _ H. split; [done|]. intros _. by exists id.
Qed.

Lemma triple_AlterEntry sid name (alter : CatalogEntry → res (option EntryData)) :
  (∀ e d, alter e = Ok (Some d) → ed_name d = ce_name e ∧ ed_type d ≠ INVALID ∧ ed_type d ≠ UPDATED_ENTRY) →
  triple (λ _, True) (AlterEntry t sid name alter)
    (λ altered c, altered = true → (∀ e, alter e ≠ Ok None) → ∃ e d id, alter e = Ok (Some d) ∧ ed_name d = StringUtil_Lower name ∧
      on_top sid (make_entry id d (transaction_id t)) c).
Proof.
  set (Q := λ (altered : bool) c, altered = true → (∀ e, alter e ≠ Ok None) → ∃ e d id, alter e = Ok (Some d) ∧ ed_name d = StringUtil_Lower name ∧
    on_top sid (make_entry id d (transaction_id t)) c).
  intros Halter. unfold AlterEntry. eapply triple_bind; [apply triple_GetEntryInternal|]. intros [[index e]|].
  2: { eapply triple_weaken; [apply (triple_ret false Q)|done|done]. }
  destruct (ce_internal e); [apply triple_throw|]. destruct (alter e) as [[d|]|ex] eqn:Ha; [| |apply triple_throw].
  2: { eapply triple_weaken; [apply (triple_ret true Q)|intros c _ _ _ Hsome; by destruct (Hsome e)|done]. }
  destruct (Halter e d Ha) as (Hname & Ht1 & Ht2). rewrite bool_decide_true by done.
  destruct (decide (ce_name e = StringUtil_Lower name)) as [Hn|Hn]; [|intros c _ H; by destruct (H index e eq_refl)].
  set (R := writable sid index (ed_name d)).
  eapply triple_bind; [eapply triple_weaken; [apply (triple_ret () (λ _, R))|intros c _ H; unfold R; rewrite Hname; by apply H|intros b c _ H; exact H]|].
  intros ?. eapply triple_bind; [apply (triple_fresh_id R), writable_stable|]. intros id. eapply triple_bind.
  { apply (triple_AlterObject _ _ (λ c, unused id c ∧ R c)). done. }
  intros ?. eapply triple_bind; [apply (triple_push sid index (make_entry id d (transaction_id t))); done|].
  intros ?. apply triple_read. intros c _ H. split; [done|]. intros _ _. exists e, d, id. by rewrite Hname.
Qed.
End triples.

(** ** Chains, once more *)

Lemma split_chain_at (above : list CatalogEntry) e below :
  NoDup (ce_id <$> above ++ e :: below) → split_chain (ce_id e) (above ++ e :: below) = Some (above, e, below).
Proof.
  induction above as [|x above IH]; cbn; [by rewrite Nat.eqb_refl|]. intros [Hx Hnd]%NoDup_cons.
  destruct (Nat.eqb_spec (ce_id x) (ce_id e)) as [Heq|_]; [|by rewrite IH].
  exfalso. apply Hx. rewrite Heq. apply list_elem_of_fmap_2, elem_of_app. right. left.
Qed.

Lemma children_split stamp above (a b : CatalogEntry) below :
  children stamp (above ++ a :: b :: below) =
    children stamp (above ++ [a]) ++ (if ce_timestamp a =? stamp then [ce_id b] else []) ++ children stamp (b :: below).
Proof.
  induction above as [|x above IH]; [cbn; by destruct (ce_timestamp a =? stamp)|].
  destruct above as [|y above].
  - change ((x :: []) ++ a :: b :: below) with (x :: a :: b :: below).
    rewrite (children_push _ x a) by done. change (a :: b :: below) with ([] ++ a :: b :: below). rewrite IH.
    cbn. by destruct (ce_timestamp x =? stamp).
  - change ((x :: y :: above) ++ a :: b :: below) with (x :: (y :: above) ++ a :: b :: below).
    rewrite (children_push _ x y), IH by done.
    change ((x :: y :: above) ++ [a]) with (x :: (y :: above) ++ [a]). rewrite (children_push _ x y) by done.
    by destruct (ce_timestamp x =? stamp).
Qed.

(** An element of [children] is below a version with the stamp. *)
Lemma children_elem stamp ch id :
  id ∈ children stamp ch →
  ∃ above a b below, ch = above ++ a :: b :: below ∧ ce_timestamp a = stamp ∧ ce_id b = id.
Proof.
  induction ch as [|x ch IH]; [by intros ?%elem_of_nil|]. destruct ch as [|y ch]; [by intros ?%elem_of_nil|].
  rewrite (children_push _ x y) by done. destruct (Z.eqb_spec (ce_timestamp x) stamp) as [Hx|_].
  - intros [->|Hin]%elem_of_cons; [by exists [], x, y, ch|]. destruct (IH Hin) as (above & a & b & below & -> & ? & ?).
    by exists (x :: above), a, b, below.
  - intros Hin. destruct (IH Hin) as (above & a & b & below & -> & ? & ?). by exists (x :: above), a, b, below.
Qed.

Lemma children_nil stamp ch :
  children stamp ch = [] → ∀ above a b below, ch = above ++ a :: b :: below → ce_timestamp a ≠ stamp.
Proof.
  intros Hnil above a b below -> Ha. rewrite children_split, (proj2 (Z.eqb_eq _ _) Ha) in Hnil.
  by apply app_eq_nil in Hnil as [_ [=]].
Qed.

(** The versions of a running transaction are on top. *)
Lemma running_on_top c act rec (s : CatalogSet) sid index st tid (v : CatalogEntry) ch :
  slot_inv c act rec s sid index (v :: ch) → keys_ok act rec → (st, tid) ∈ act →
  ce_timestamp v ≠ tid → children tid (v :: ch) = [].
Proof.
  intros [_ _ _ _ Habove _ _ _ _] Hk Hin Hv. destruct (children tid (v :: ch)) as [|id l] eqn:Hch; [done|exfalso].
  destruct (ko_act _ _ Hk _ _ Hin) as [_ Htid].
  assert (∃ above a b below, v :: ch = above ++ a :: b :: below ∧ ce_timestamp a ≠ tid ∧ ce_timestamp b = tid) as
    (above & a & b & below & Heq & Ha & Hb).
  { destruct (children_elem tid (v :: ch) id) as (above & a & b & below & Heq & Ha & _); [rewrite Hch; left|].
    clear -Heq Ha Hv. revert v ch Heq Hv. induction above as [|x above IH]; intros v ch [= -> Heq] Hv; [done|].
    subst ch. destruct above as [|y above]; [by exists [], x, a, (b :: below)|].
    destruct (Z.eq_dec (ce_timestamp y) tid) as [Hy|Hy]; [by exists [], x, y, (above ++ a :: b :: below)|].
    destruct (IH y (above ++ a :: b :: below) eq_refl Hy) as (above' & a' & b' & below' & Heq' & ? & ?).
    exists (x :: above'), a', b', below'. cbn. by rewrite <-Heq'. }
  destruct (Habove _ _ _ _ Heq) as [(st' & tid' & Hl & [?|Hle]) _]; [congruence|].
  assert (st' < TRANSACTION_ID_START).
  { destruct Hl as [[Hin' _]|Hr]; [destruct (ko_act _ _ Hk _ _ Hin'); lia|destruct (ko_rec _ _ Hk _ _ _ Hr); lia]. }
  lia.
Qed.

(** ** Rollback *)

Definition set_undo (tid : Z) (ps : list entry_ptr) c : Catalog :=
  mkCatalog (cat_sets c) (cat_dependents_map c) (cat_dependencies_map c) (cat_next_id c) (cat_version c)
    (<[tid := ps]> (cat_undo c)).

Lemma undo_of_set tid ps c tid' :
  undo_of (set_undo tid ps c) tid' = if decide (tid' = tid) then ps else undo_of c tid'.
Proof.
  unfold undo_of, set_undo. cbn. case_decide as Heq; [subst; by rewrite lookup_insert_eq|by rewrite lookup_insert_ne].
Qed.

(** The invariant only looks at the sets, the identities and the undo entries. *)
Lemma catalog_inv_ext c c' act rec :
  cat_sets c' = cat_sets c → cat_next_id c' = cat_next_id c → (∀ tid, undo_of c' tid = undo_of c tid) →
  catalog_inv c act rec → catalog_inv c' act rec.
Proof.
  intros Hs Hn Hu Hc. split; [apply (ci_keys _ _ _ Hc)| |].
  - rewrite Hs. intros sid s Hsid. eapply (set_inv_change c); [by apply (ci_sets _ _ _ Hc)|lia|done|].
    intros index ch stamp tid st Hi Hl. rewrite Hu.
    exact (sl_children _ _ _ _ _ _ _ (si_slots _ _ _ _ _ (ci_sets _ _ _ Hc _ _ Hsid) _ _ Hi) _ _ _ Hl).
  - intros tid p. rewrite Hu, Hs. apply (ci_undo _ _ _ Hc).
Qed.

Lemma pop_mapping_single name (s : CatalogSet) m :
  cs_mapping s !! name = Some [m] →
  pop_mapping name s = Some (mkCatalogSet (delete name (cs_mapping s)) (cs_entries s) (cs_current_entry s)).
Proof. intros Hm. unfold pop_mapping. by rewrite Hm. Qed.

(** The set after the removal of the newest version of a slot. *)
Definition undo_set (name : string) (index : nat) (entry : CatalogEntry) below (s : CatalogSet) : CatalogSet :=
  mkCatalogSet (if bool_decide (ce_type entry = INVALID) then delete name (cs_mapping s) else cs_mapping s)
    (<[index := entry :: below]> (cs_entries s)) (cs_current_entry s).

Lemma Undo_eq c sid (s : CatalogSet) index (v e : CatalogEntry) below name ts :
  cat_sets c !! sid = Some s → cs_entries s !! index = Some (v :: e :: below) →
  NoDup (ce_id <$> v :: e :: below) → cs_mapping s !! name = Some [mkMappingValue index ts false] →
  ce_name v = name → ce_name e = name →
  ∃ c', Undo (sid, index, ce_id e) c = Ret c' () ∧
    cat_sets c' = <[sid := undo_set name index e below s]> (cat_sets c) ∧
    cat_next_id c' = cat_next_id c ∧ cat_undo c' = cat_undo c.
Proof.
  intros Hs Hch Hnd Hm Hv He. unfold Undo, locate, get_set, gets, mbind, M_bind. cbn. rewrite Hs. cbn. rewrite Hch. cbn.
  pose proof (split_chain_at [v] e below Hnd) as Hsp. cbn in Hsp. rewrite Hsp. cbn.
  rewrite Hv, He, bool_decide_true by done.
  assert (∃ c1, (if negb (ce_deleted v) then EraseObject (sid, index, ce_id v) else mret ()) c = Ret c1 () ∧
    cat_sets c1 = cat_sets c ∧ cat_next_id c1 = cat_next_id c ∧ cat_undo c1 = cat_undo c) as (c1 & -> & Hs1 & Hn1 & Hu1).
  { destruct (negb (ce_deleted v)); [|by exists c]. unfold EraseObject, modify. eexists. split; [done|].
    by destruct (cat_dependents_map c !! _). }
  cbn. rewrite Hm. cbn. rewrite Hm. cbn. unfold set_chain, undo_set. cbn. rewrite insert_insert_eq.
  destruct (bool_decide (ce_type e = INVALID)); cbn.
  - rewrite (pop_mapping_single name (mkCatalogSet (cs_mapping s) (<[index := e :: below]> (cs_entries s)) (cs_current_entry s)) _ Hm). cbn. eexists. split; [done|]. cbn. by rewrite Hs1.
  - eexists. split; [done|]. cbn. by rewrite Hs1.
Qed.

(** Removing an undo entry of one slot leaves the others. *)
Lemma slot_entries_other (sid index sid' index' : nat) tid ps p c c' tid' :
  p.1 = (sid, index) → (sid', index') ≠ (sid, index) → cat_undo c' = cat_undo c →
  slot_entries sid' index' (undo_of (set_undo tid ps c') tid') =
  slot_entries sid' index' (undo_of (set_undo tid (ps ++ [p]) c) tid').
Proof.
  intros Hp Hne Hu. rewrite !undo_of_set. case_decide; [|unfold undo_of; by rewrite Hu].
  rewrite slot_entries_app, slot_entries_single, decide_False, app_nil_r by congruence. done.
Qed.

(** A slot without its newest version. *)
Lemma slot_inv_tail c c' act rec (s s' : CatalogSet) sid index (v e : CatalogEntry) below :
  slot_inv c act rec s sid index (v :: e :: below) →
  cs_current_entry s' = cs_current_entry s → cat_next_id c' = cat_next_id c →
  (∀ stamp tid st, live act rec stamp tid st →
    slot_entries sid index (undo_of c' tid) = reverse (children stamp (e :: below))) →
  (below ≠ [] → cs_mapping s' = cs_mapping s) →
  slot_inv c' act rec s' sid index (e :: below).
Proof.
  intros [S1 S2 S3 S4 S5 S6 S7 S8 S9] Hcur Hnext Hch Hmap. split; [done|lia| | | |done| | |].
  - by apply NoDup_cons in S3 as [_ ?].
  - apply Forall_cons in S4 as [_ S4]. by rewrite Hnext.
  - intros above a b below' Heq. apply (S5 (v :: above) a b below'). cbn. by rewrite Heq.
  - intros Hlen. rewrite Hmap by (by destruct below; cbn in *; [lia|]). destruct S7 as (name & ts & Hm & Hn); [cbn; lia|].
    exists name, ts. split; [done|]. by apply Forall_cons in Hn as [_ ?].
  - by apply Forall_cons in S8 as [_ ?].
  - intros x Hx. apply S9. exact Hx.
Qed.

Lemma undo_set_inv c c' act rec sid (s : CatalogSet) index (v e : CatalogEntry) below name ts :
  set_inv c act rec sid s → cs_entries s !! index = Some (v :: e :: below) →
  cs_mapping s !! name = Some [mkMappingValue index ts false] → Forall (λ e, ce_name e = name) (v :: e :: below) →
  cat_next_id c' = cat_next_id c →
  (∀ index' ch' stamp tid st, index' ≠ index → cs_entries s !! index' = Some ch' → live act rec stamp tid st →
    slot_entries sid index' (undo_of c' tid) = reverse (children stamp ch')) →
  (∀ stamp tid st, live act rec stamp tid st →
    slot_entries sid index (undo_of c' tid) = reverse (children stamp (e :: below))) →
  set_inv c' act rec sid (undo_set name index e below s).
Proof.
  intros Hset Hch Hm Hnames Hnext Hother Hchild. pose proof (si_slots _ _ _ _ _ Hset _ _ Hch) as Hslot.
  assert (ce_type e = INVALID → below = []) as Hinv.
  { intros Hty. destruct below as [|b below]; [done|].
    by destruct (sl_above _ _ _ _ _ _ _ Hslot [v] e b below eq_refl) as [_ [? _]]. }
  assert (slot_inv c' act rec (undo_set name index e below s) sid index (e :: below)) as Hslot'.
  { eapply slot_inv_tail; [exact Hslot|done|done|done|]. intros Hne. cbn.
    by rewrite bool_decide_false by (intros ?; apply Hne; auto). }
  assert (∀ name' index' ts', cs_mapping s !! name' = Some [mkMappingValue index' ts' false] → index' ≠ index →
    cs_mapping (undo_set name index e below s) !! name' = Some [mkMappingValue index' ts' false]) as Hkeep.
  { intros name' index' ts' Hm' Hne. cbn. case_bool_decide; [|done]. rewrite lookup_delete_ne; [done|]. intros ->. congruence. }
  split.
  - cbn. intros name' values Hm'. assert (cs_mapping s !! name' = Some values) as Hm0.
    { revert Hm'. case_bool_decide; [|done]. by intros [_ ?]%lookup_delete_Some. }
    destruct (si_mapping _ _ _ _ _ Hset _ _ Hm0) as (i & ts' & ch & -> & Hl & Hi & Hn).
    destruct (decide (i = index)) as [->|Hne].
    + exists index, ts', (e :: below). rewrite lookup_insert_eq. repeat split; [done|].
      assert (ch = v :: e :: below) as -> by congruence. by apply Forall_cons in Hn as [_ ?].
    + exists i, ts', ch. by rewrite lookup_insert_ne.
  - cbn. intros n1 n2 i t1 t2 H1 H2. apply (si_injective _ _ _ _ _ Hset n1 n2 i t1 t2);
      [revert H1|revert H2]; (case_bool_decide; [by intros [_ ?]%lookup_delete_Some|done]).
  - intros i ch. cbn. intros [[<- <-]|[Hne Hi]]%lookup_insert_Some; [done|].
    eapply (slot_inv_change c); [by apply (si_slots _ _ _ _ _ Hset)|done|lia|done| |].
    + intros stamp tid st Hl. by apply (Hother i ch stamp tid st).
    + intros name' ts' Hm'. exists ts'. by apply Hkeep.
Qed.

(** Lookups only depend on the sets. *)
Lemma catalog_view_ext c c' t sid name :
  cat_sets c' = cat_sets c → catalog_view c' t sid name = catalog_view c t sid name.
Proof.
  intros Heq. unfold catalog_view, GetEntry, get_set, gets, mbind, M_bind. rewrite Heq.
  destruct (cat_sets c !! sid) as [s|]; [|done]. cbn. destruct (GetMapping t s name true false) as [m|]; [|done].
  destruct (mv_deleted m); [done|]. cbn. destruct (cs_entries s !! mv_index m) as [ch|]; [|done]. cbn.
  destruct (GetEntryForTransaction t ch) as [e|]; [|done]. cbn. by destruct (_ || _).
Qed.

Lemma undo_set_view c act rec t sid (s : CatalogSet) index (v e : CatalogEntry) below name ts name' :
  set_inv c act rec sid s → cs_entries s !! index = Some (v :: e :: below) →
  cs_mapping s !! name = Some [mkMappingValue index ts false] → UseTimestamp t (ce_timestamp v) = false →
  set_view t (undo_set name index e below s) name' = set_view t s name'.
Proof.
  intros Hset Hch Hm Huse. pose proof (si_slots _ _ _ _ _ Hset _ _ Hch) as Hslot.
  assert (set_view t (set_chain index (e :: below) s) name' = set_view t s name') as <-.
  { apply (set_view_chain _ _ _ (v :: e :: below)); [done|]. symmetry. by apply chain_view_push. }
  unfold set_view. cbn. case_bool_decide as Hty; [|done].
  destruct (decide (name' = name)) as [->|Hne]; [|by rewrite lookup_delete_ne].
  rewrite lookup_delete_eq, Hm. cbn. rewrite lookup_insert_eq. cbn.
  assert (below = []) as ->.
  { destruct below as [|b below]; [done|]. by destruct (sl_above _ _ _ _ _ _ _ Hslot [v] e b below eq_refl) as [_ [? _]]. }
  unfold chain_view. cbn. pose proof (sl_invalid _ _ _ _ _ _ _ Hslot) as [_ [He _]%Forall_cons]%Forall_cons. by rewrite He.
Qed.

(** One entry of a rollback: the last undo entry leads to the newest version. *)
Lemma Undo_step c act rec st tid ps p :
  catalog_inv (set_undo tid (ps ++ [p]) c) act rec → (st, tid) ∈ act →
  ∃ c', Undo p c = Ret c' () ∧ cat_undo c' = cat_undo c ∧ catalog_inv (set_undo tid ps c') act rec ∧
    ∀ t sid name, key t ∈ act → transaction_id t ≠ tid → StringUtil_Lower name = name →
      catalog_view c' t sid name = catalog_view c t sid name.
Proof.
  intros Hc Hin. pose proof (ci_keys _ _ _ Hc) as Hk. destruct p as [[sid index] id].
  destruct (ci_undo _ _ _ Hc tid (sid, index, id)) as [_ (s & ch & Hs & Hch)].
  { rewrite undo_of_set, decide_True by done. apply elem_of_app. right. left. }
  cbn in Hs, Hch. pose proof (ci_sets _ _ _ Hc _ _ Hs) as Hset. pose proof (si_slots _ _ _ _ _ Hset _ _ Hch) as Hslot.
  assert (children tid ch = id :: reverse (slot_entries sid index ps)) as Hchild.
  { pose proof (sl_children _ _ _ _ _ _ _ Hslot tid tid st ltac:(by left)) as H.
    rewrite undo_of_set, decide_True, slot_entries_app, slot_entries_single, decide_True in H by done.
    apply (f_equal reverse) in H. by rewrite reverse_involutive, reverse_snoc in H. }
  destruct ch as [|v [|e below]]; [done|done|].
  assert (ce_timestamp v = tid) as Hv.
  { destruct (Z.eq_dec (ce_timestamp v) tid) as [|Hne]; [done|].
    by rewrite (running_on_top _ _ _ _ _ _ _ _ _ _ Hslot Hk Hin Hne) in Hchild. }
  rewrite (children_push _ v e), (proj2 (Z.eqb_eq _ _) Hv) in Hchild by done. pose proof (f_equal head Hchild) as Hid. cbn [head] in Hid. injection Hid as <-.
  apply (f_equal tail) in Hchild. cbn [tail] in Hchild.
  destruct (sl_mapped _ _ _ _ _ _ _ Hslot ltac:(cbn; lia)) as (name & ts & Hm & Hnames).
  pose proof Hnames as [Hn1 [Hn2 _]%Forall_cons]%Forall_cons.
  destruct (Undo_eq c sid s index v e below name ts Hs Hch (sl_ids _ _ _ _ _ _ _ Hslot) Hm Hn1 Hn2) as (c' & Hundo & Hsets & Hnext & Hund).
  assert (∀ stamp tid' st', live act rec stamp tid' st' →
    slot_entries sid index (undo_of (set_undo tid ps c') tid') = reverse (children stamp (e :: below))) as Hown.
  { intros stamp tid' st' Hl. rewrite undo_of_set. case_decide as Ht.
    - subst tid'. destruct (live_running _ _ _ _ _ _ Hk Hin Hl) as [-> _]. by rewrite Hchild, reverse_involutive.
    - pose proof (live_other _ _ _ _ _ _ _ Hk Hin Hl Ht) as Hne.
      pose proof (sl_children _ _ _ _ _ _ _ Hslot _ _ _ Hl) as H. rewrite undo_of_set, decide_False in H by done.
      rewrite (children_push _ v e) in H by done. rewrite (proj2 (Z.eqb_neq (ce_timestamp v) stamp)) in H by congruence.
      unfold undo_of in *. by rewrite Hund. }
  assert (catalog_inv (set_undo tid ps c') act rec) as Hc'.
  { split; [done| |].
    - intros sid' s'. change (cat_sets (set_undo tid ps c')) with (cat_sets c'). rewrite Hsets.
      intros [[<- <-]|[Hne Hs']]%lookup_insert_Some.
      + eapply (undo_set_inv (set_undo tid (ps ++ [(sid, index, ce_id e)]) c)); [done|exact Hch|exact Hm|done|done| |done].
        intros index' ch' stamp tid' st' Hne Hi Hl.
        rewrite (slot_entries_other sid index sid index' tid ps (sid, index, ce_id e) c) by (done || congruence).
        exact (sl_children _ _ _ _ _ _ _ (si_slots _ _ _ _ _ Hset _ _ Hi) _ _ _ Hl).
      + eapply (set_inv_change (set_undo tid (ps ++ [(sid, index, ce_id e)]) c)); [by apply (ci_sets _ _ _ Hc)|cbn; lia|done|].
        intros index' ch' stamp tid' st' Hi Hl.
        rewrite (slot_entries_other sid index sid' index' tid ps (sid, index, ce_id e) c) by (done || congruence).
        exact (sl_children _ _ _ _ _ _ _ (si_slots _ _ _ _ _ (ci_sets _ _ _ Hc _ _ Hs') _ _ Hi) _ _ _ Hl).
    - intros tid' q Hq. assert (q ∈ undo_of (set_undo tid (ps ++ [(sid, index, ce_id e)]) c) tid') as Hq'.
      { rewrite undo_of_set in *. case_decide; [apply elem_of_app; by left|]. unfold undo_of in *. by rewrite <-Hund. }
      destruct (ci_undo _ _ _ Hc _ _ Hq') as [Hl (s' & ch' & Hs' & Hch')]. split; [done|]. cbn in Hs' |- *. rewrite Hsets.
      destruct (decide (q.1.1 = sid)) as [Hq1|Hne]; [|rewrite lookup_insert_ne by done; by exists s', ch'].
      rewrite Hq1 in *. rewrite lookup_insert_eq. eexists. assert (s' = s) as -> by congruence.
      destruct (decide (q.1.2 = index)) as [->|Hne].
      + exists (e :: below). split; [done|]. cbn. by rewrite lookup_insert_eq.
      + exists ch'. split; [done|]. cbn. by rewrite lookup_insert_ne. }
  exists c'. split; [done|]. split; [done|]. split; [done|]. intros t sid' name' Ht Hne Hn.
  destruct (ko_act _ _ Hk _ _ Hin) as [_ Htid], (ko_act _ _ Hk _ _ Ht) as [[_ Hst] _].
  rewrite (catalog_view_ext (set_undo tid ps c') c'), (catalog_view_ext (set_undo tid (ps ++ [(sid, index, ce_id e)]) c) c) by done.
  eapply catalog_view_change; [done|done|done|..]; change (cat_sets (set_undo tid ps c')) with (cat_sets c'); rewrite Hsets.
  - intros s0 Hs0. destruct (decide (sid' = sid)) as [->|Hd]; [|rewrite lookup_insert_ne by done; eauto].
    rewrite lookup_insert_eq. eexists. split; [done|]. assert (s0 = s) as -> by (cbn in *; congruence).
    eapply undo_set_view; [done|exact Hch|exact Hm|]. rewrite Hv. by apply UseTimestamp_other; [lia|exact Htid|].
  - intros Hs0. cbn in *. rewrite lookup_insert_ne; [done|]. congruence.
Qed.

Lemma Undo_loop act rec st tid ps : ∀ c,
  catalog_inv (set_undo tid ps c) act rec → (st, tid) ∈ act →
  ∃ c', for_each Undo (reverse ps) c = Ret c' () ∧ cat_undo c' = cat_undo c ∧ catalog_inv (set_undo tid [] c') act rec ∧
    ∀ t sid name, key t ∈ act → transaction_id t ≠ tid → StringUtil_Lower name = name →
      catalog_view c' t sid name = catalog_view c t sid name.
Proof.
  induction ps as [|p ps IH] using rev_ind; intros c Hc Hin; [by exists c|].
  destruct (Undo_step c act rec st tid ps p Hc Hin) as (c1 & Hu1 & Hund1 & Hc1 & Hv1).
  destruct (IH c1 Hc1 Hin) as (c' & Hu & Hund & Hc' & Hv). exists c'. rewrite reverse_snoc. cbn [for_each].
  unfold mbind, M_bind. rewrite Hu1. split; [done|]. split; [congruence|]. split; [done|].
  intros t sid name Ht Hne Hn. by rewrite Hv, Hv1.
Qed.

(** No version carries the stamp of a transaction without undo entries. *)
Lemma catalog_inv_retire c c' act rec act' rec' stamp tid st :
  catalog_inv c act rec → live act rec stamp tid st → undo_of c tid = [] → keys_ok act' rec' →
  (∀ s i st', live act rec s i st' → s ≠ stamp → live act' rec' s i st') →
  (∀ s i st', live act' rec' s i st' → live act rec s i st') →
  cat_sets c' = cat_sets c → cat_next_id c' = cat_next_id c → (∀ i, undo_of c' i = undo_of c i) →
  catalog_inv c' act' rec'.
Proof.
  intros Hc Hl Hnil Hk' Hto Hfrom Hs Hn Hu. split; [done| |].
  - rewrite Hs. intros sid s Hsid. pose proof (ci_sets _ _ _ Hc _ _ Hsid) as [H1 H2 H3]. split; [done|done|].
    intros index ch Hi. specialize (H3 index ch Hi).
    assert (children stamp ch = []) as Hch.
    { pose proof (sl_children _ _ _ _ _ _ _ H3 _ _ _ Hl) as H. rewrite Hnil in H. cbn in H.
      apply (f_equal reverse) in H. by rewrite reverse_involutive in H. }
    destruct H3 as [S1 S2 S3 S4 S5 S6 S7 S8 S9]. split; [done|done|done|by rewrite Hn| | |done|done|done].
    + intros above a b below Heq. destruct (S5 _ _ _ _ Heq) as [(st' & i & Hla & Hb) Hty]. split; [|done].
      exists st', i. split; [|done]. apply Hto; [done|]. by eapply children_nil.
    + intros s' i st' Hl'. rewrite Hu. by apply (S6 s' i st'), Hfrom.
  - intros i p. rewrite Hu, Hs. intros Hp. destruct (ci_undo _ _ _ Hc _ _ Hp) as [(s & st' & Hls) Hsl]. split; [|done].
    exists s, st'. apply Hto; [done|]. intros ->.
    destruct (live_unique _ _ _ _ _ _ _ (ci_keys _ _ _ Hc) Hls Hl) as [-> _]. rewrite Hnil in Hp. by apply elem_of_nil in Hp.
Qed.

Lemma undo_of_forget tid c tid' : undo_of (forget tid c) tid' = undo_of (set_undo tid [] c) tid'.
Proof.
  rewrite undo_of_set. unfold undo_of, forget. cbn. case_decide as Heq; [subst; by rewrite lookup_delete_eq|by rewrite lookup_delete_ne].
Qed.

Lemma catalog_inv_undo c act rec tid : catalog_inv c act rec → catalog_inv (set_undo tid (undo_of c tid) c) act rec.
Proof.
  apply catalog_inv_ext; [done|done|]. intros i. rewrite undo_of_set. by case_decide; subst.
Qed.

Lemma catalog_rollback c act rec t :
  catalog_inv c act rec → key t ∈ act →
  catalog_inv (CatalogDB_Rollback c (transaction_id t)) (without (transaction_id t) act) rec ∧
  ∀ t' sid name, key t' ∈ without (transaction_id t) act → StringUtil_Lower name = name →
    catalog_view (CatalogDB_Rollback c (transaction_id t)) t' sid name = catalog_view c t' sid name.
Proof.
  intros Hc Hin. set (tid := transaction_id t).
  destruct (Undo_loop act rec (start_time t) tid (undo_of c tid) c (catalog_inv_undo _ _ _ _ Hc) Hin) as (c' & Hu & Hund & Hc' & Hv).
  unfold CatalogDB_Rollback. rewrite Hu. cbn [out_state]. split.
  - eapply (catalog_inv_retire (set_undo tid [] c') _ act rec _ _ tid tid (start_time t));
      [done|by left|by rewrite undo_of_set, decide_True|apply keys_without, (ci_keys _ _ _ Hc)| | |done|done|apply undo_of_forget].
    + intros s i st' [[Hi ->]|Hr] Hne; [left; split; [by apply without_spec|done]|by right].
    + intros s i st' [[[Hi _]%without_spec ->]|Hr]; [by left|by right].
  - intros t' sid name [Ht' Hne]%without_spec Hn. rewrite <-(Hv t' sid name Ht' Hne Hn). by apply catalog_view_ext.
Qed.

(** ** Cleanup *)

Lemma CleanupCatalogEntry_eq c sid (s : CatalogSet) index above (a b : CatalogEntry) :
  cat_sets c !! sid = Some s → cs_entries s !! index = Some (above ++ [a; b]) →
  NoDup (ce_id <$> above ++ [a; b]) → ce_type a ≠ UPDATED_ENTRY →
  ∃ c', CleanupCatalogEntry (sid, index, ce_id b) c = Ret c' () ∧
    cat_sets c' = <[sid := set_chain index (above ++ [a]) s]> (cat_sets c) ∧
    cat_next_id c' = cat_next_id c ∧ cat_undo c' = cat_undo c.
Proof.
  intros Hs Hch Hnd Hty. unfold CleanupCatalogEntry, locate, get_set, gets, mbind, M_bind. cbn. rewrite Hs. cbn. rewrite Hch. cbn.
  assert (above ++ [a; b] = (above ++ [a]) ++ b :: []) as Heq by (by rewrite <-app_assoc).
  rewrite Heq in Hnd |- *. rewrite (split_chain_at (above ++ [a]) b []) by done. cbn. rewrite last_snoc. cbn.
  rewrite bool_decide_false by done.
  assert (∃ c1, (if negb (ce_deleted b) then EraseObject (sid, index, ce_id b) else mret ()) c = Ret c1 () ∧
    cat_sets c1 = cat_sets c ∧ cat_next_id c1 = cat_next_id c ∧ cat_undo c1 = cat_undo c) as (c1 & -> & Hs1 & Hn1 & Hu1).
  { destruct (negb (ce_deleted b)); [|by exists c]. unfold EraseObject, modify. eexists. split; [done|].
    by destruct (cat_dependents_map c !! _). }
  cbn. eexists. split; [done|]. cbn. by rewrite Hs1.
Qed.

(** A slot without its oldest version. *)
Lemma slot_inv_init c c' act rec (s : CatalogSet) sid index above (a b : CatalogEntry) :
  slot_inv c act rec s sid index (above ++ [a; b]) → cat_next_id c' = cat_next_id c →
  ce_timestamp a < TRANSACTION_ID_START →
  (∀ stamp tid st, live act rec stamp tid st →
    slot_entries sid index (undo_of c' tid) = reverse (children stamp (above ++ [a]))) →
  slot_inv c' act rec (set_chain index (above ++ [a]) s) sid index (above ++ [a]).
Proof.
  assert (above ++ [a; b] = (above ++ [a]) ++ [b]) as -> by (by rewrite <-app_assoc).
  intros [S1 S2 S3 S4 S5 S6 S7 S8 S9] Hnext Ha Hch. split; [by destruct above|done| | | |done| | |].
  - rewrite fmap_app in S3. by apply NoDup_app in S3 as (? & _).
  - rewrite Hnext. by apply Forall_app in S4 as [? _].
  - intros above' x y below Heq. apply (S5 above' x y (below ++ [b])). rewrite Heq. by rewrite <-app_assoc.
  - intros Hlen. destruct S7 as (name & ts & Hm & Hn); [rewrite length_app; cbn; lia|].
    exists name, ts. split; [done|]. by apply Forall_app in Hn as [? _].
  - by apply Forall_app in S8 as [? _].
  - intros x. rewrite last_snoc. by intros [= <-].
Qed.

Lemma slot_entries_other_cons (sid index sid' index' : nat) tid ps p c c' tid' :
  p.1 = (sid, index) → (sid', index') ≠ (sid, index) → cat_undo c' = cat_undo c →
  slot_entries sid' index' (undo_of (set_undo tid ps c') tid') =
  slot_entries sid' index' (undo_of (set_undo tid (p :: ps) c) tid').
Proof.
  intros Hp Hne Hu. rewrite !undo_of_set. case_decide; [|unfold undo_of; by rewrite Hu].
  change (p :: ps) with ([p] ++ ps). rewrite slot_entries_app, slot_entries_single, decide_False by congruence. done.
Qed.

(** The version that the oldest committed transaction covers is the oldest. *)
Lemma oldest_version c act r rec (s : CatalogSet) sid index above (a b : CatalogEntry) below :
  slot_inv c act (r :: rec) s sid index (above ++ a :: b :: below) → keys_ok act (r :: rec) →
  ce_timestamp a = r.2 → children r.2 (b :: below) = [] → below = [].
Proof.
  intros Hslot Hk Ha Hch. destruct below as [|b' below]; [done|exfalso]. destruct r as [[st tid] v]. cbn in *.
  pose proof (sl_above _ _ _ _ _ _ _ Hslot) as Habove.
  assert (ce_timestamp b ≠ v) as Hb by (by apply (children_nil v (b :: b' :: below) Hch [] b b' below)).
  destruct (ko_rec _ _ Hk st tid v ltac:(left)) as [[? Hst] Hv].
  assert (ce_timestamp b < v) as Hlt.
  { destruct (Habove above a b (b' :: below) eq_refl) as [(st' & tid' & Hl & [?|Hle]) _]; [congruence|]. rewrite Ha in Hl.
    destruct (live_unique act (((st, tid), v) :: rec) v tid' st' tid st Hk Hl) as [-> ->]; [right; left|]. lia. }
  destruct (Habove (above ++ [a]) b b' below ltac:(by rewrite <-app_assoc)) as [(st' & tid' & [[Hin Heq]|Hr] & _) _].
  - destruct (ko_act _ _ Hk _ _ Hin) as [_ ?]. lia.
  - apply elem_of_cons in Hr as [[= -> -> ?]|Hr]; [done|].
    pose proof (ko_sorted _ _ Hk) as [_ Hall]%StronglySorted_inv. rewrite Forall_forall in Hall.
    specialize (Hall (ce_timestamp b)). apply (list_elem_of_fmap_2 snd) in Hr. cbn in *. specialize (Hall Hr). lia.
Qed.

Lemma Cleanup_step c act r rec ps p :
  catalog_inv (set_undo r.1.2 (p :: ps) c) act (r :: rec) → Forall (λ k, r.2 < k.1) act →
  ∃ c', CleanupCatalogEntry p c = Ret c' () ∧ cat_undo c' = cat_undo c ∧
    catalog_inv (set_undo r.1.2 ps c') act (r :: rec) ∧
    ∀ t sid name, key t ∈ act → StringUtil_Lower name = name →
      catalog_view c' t sid name = catalog_view c t sid name.
Proof.
  intros Hc Hact. pose proof (ci_keys _ _ _ Hc) as Hk. destruct p as [[sid index] id], r as [[st tid] v]. cbn [fst snd] in *.
  assert (live act (((st, tid), v) :: rec) v tid st) as Hlive by (right; left).
  destruct (ci_undo _ _ _ Hc tid (sid, index, id)) as [_ (s & ch & Hs & Hch)].
  { rewrite undo_of_set, decide_True by done. left. }
  cbn in Hs, Hch. pose proof (ci_sets _ _ _ Hc _ _ Hs) as Hset. pose proof (si_slots _ _ _ _ _ Hset _ _ Hch) as Hslot.
  assert (children v ch = reverse (slot_entries sid index ps) ++ [id]) as Hchild.
  { pose proof (sl_children _ _ _ _ _ _ _ Hslot _ _ _ Hlive) as H.
    rewrite undo_of_set, decide_True in H by done. change ((sid, index, id) :: ps) with ([(sid, index, id)] ++ ps) in H.
    rewrite slot_entries_app, slot_entries_single, decide_True in H by done.
    apply (f_equal reverse) in H. rewrite reverse_involutive in H. cbn [app] in H. by rewrite reverse_cons in H. }
  assert (∃ above a b, ch = above ++ [a; b] ∧ ce_timestamp a = v ∧ ce_id b = id ∧
    children v (above ++ [a]) = reverse (slot_entries sid index ps)) as (above & a & b & -> & Ha & <- & Hrest).
  { assert (∃ above a b below, ch = above ++ a :: b :: below ∧ ce_timestamp a = v ∧ children v (b :: below) = []) as
      (above & a & b & below & -> & Ha & Hnil).
    { assert (children v ch ≠ []) as Hne by (rewrite Hchild; by destruct (reverse (slot_entries sid index ps))).
      clear -Hne. induction ch as [|x ch IH]; [done|]. destruct ch as [|y ch]; [done|].
      rewrite (children_push _ x y) in Hne by done. destruct (children v (y :: ch)) as [|i l] eqn:Hy.
      - destruct (Z.eqb_spec (ce_timestamp x) v); [|done]. by exists [], x, y, ch.
      - destruct IH as (above & a & b & below & -> & ? & ?); [done|]. by exists (x :: above), a, b, below. }
    pose proof (oldest_version _ _ ((st, tid), v) _ _ _ _ _ _ _ _ Hslot Hk Ha Hnil) as ->.
    rewrite children_split, (proj2 (Z.eqb_eq _ _) Ha) in Hchild. cbn [children app] in Hchild.
    apply app_inj_tail in Hchild as [Hrest Hid]. by exists above, a, b. }
  destruct (sl_above _ _ _ _ _ _ _ Hslot above a b [] eq_refl) as [_ [_ Hty]].
  destruct (CleanupCatalogEntry_eq c sid s index above a b Hs Hch (sl_ids _ _ _ _ _ _ _ Hslot) Hty) as (c' & Hcl & Hsets & Hnext & Hund).
  destruct (ko_rec _ _ Hk st tid v ltac:(left)) as [_ Hv].
  assert (∀ sid' index' stamp tid' st' ch', (sid', index') ≠ (sid, index) → live act (((st, tid), v) :: rec) stamp tid' st' →
    slot_entries sid' index' (undo_of (set_undo tid ((sid, index, ce_id b) :: ps) c) tid') = reverse (children stamp ch') →
    slot_entries sid' index' (undo_of (set_undo tid ps c') tid') = reverse (children stamp ch')) as Hother.
  { intros sid' index' stamp tid' st' ch' Hne Hl <-. by apply (slot_entries_other_cons sid index). }
  assert (catalog_inv (set_undo tid ps c') act (((st, tid), v) :: rec)) as Hc'.
  { split; [done| |].
    - intros sid' s'. change (cat_sets (set_undo tid ps c')) with (cat_sets c'). rewrite Hsets.
      intros [[<- <-]|[Hne Hs']]%lookup_insert_Some; cycle 1.
      { eapply (set_inv_change (set_undo tid ((sid, index, ce_id b) :: ps) c)); [by apply (ci_sets _ _ _ Hc)|cbn; lia|done|].
        intros index' ch' stamp tid' st' Hi Hl. apply (Hother _ _ _ _ st'); [congruence|done|].
        exact (sl_children _ _ _ _ _ _ _ (si_slots _ _ _ _ _ (ci_sets _ _ _ Hc _ _ Hs') _ _ Hi) _ _ _ Hl). }
      eapply (set_chain_inv (set_undo tid ((sid, index, ce_id b) :: ps) c)); [done|exact Hch| |cbn; lia|done| |].
      + intros name. rewrite !Forall_app, !Forall_cons. tauto.
      + intros index' ch' stamp tid' st' Hne Hi Hl. apply (Hother _ _ _ _ st'); [congruence|done|].
        exact (sl_children _ _ _ _ _ _ _ (si_slots _ _ _ _ _ Hset _ _ Hi) _ _ _ Hl).
      + eapply slot_inv_init; [exact Hslot|done|lia|]. intros stamp tid' st' Hl. rewrite undo_of_set. case_decide as Ht.
        * subst tid'. assert (stamp = v) as ->.
          { destruct Hl as [[Hin _]|Hr]; [by destruct (keys_disjoint _ _ _ _ _ _ Hk Hin (list_elem_of_here _ _))|].
            apply elem_of_cons in Hr as [[= _ ->]|Hr]; [done|]. exfalso.
            pose proof (ko_ids _ _ Hk) as (_ & _ & [Hni _]%NoDup_cons)%NoDup_app. apply Hni. cbn.
            apply (list_elem_of_fmap_2 fst), (list_elem_of_fmap_2 snd) in Hr. done. }
          by rewrite Hrest, reverse_involutive.
        * pose proof (sl_children _ _ _ _ _ _ _ Hslot _ _ _ Hl) as H. rewrite undo_of_set, decide_False in H by done.
          rewrite children_split in H. destruct (Z.eqb_spec (ce_timestamp a) stamp) as [Heq|_].
          { destruct (live_unique _ _ stamp tid' st' tid st Hk Hl) as [? _]; [by rewrite <-Heq, Ha|done]. }
          cbn [children app] in H. rewrite app_nil_r in H. unfold undo_of in *. by rewrite Hund.
    - intros tid' q Hq. assert (q ∈ undo_of (set_undo tid ((sid, index, ce_id b) :: ps) c) tid') as Hq'.
      { rewrite undo_of_set in *. case_decide; [by right|]. unfold undo_of in *. by rewrite <-Hund. }
      destruct (ci_undo _ _ _ Hc _ _ Hq') as [Hl (s' & ch' & Hs' & Hch')]. split; [done|]. cbn in Hs' |- *. rewrite Hsets.
      destruct (decide (q.1.1 = sid)) as [Hq1|Hne]; [|rewrite lookup_insert_ne by done; by exists s', ch'].
      rewrite Hq1 in *. rewrite lookup_insert_eq. eexists. assert (s' = s) as -> by congruence.
      destruct (decide (q.1.2 = index)) as [->|Hne].
      + exists (above ++ [a]). split; [done|]. cbn. by rewrite lookup_insert_eq.
      + exists ch'. split; [done|]. cbn. by rewrite lookup_insert_ne. }
  exists c'. split; [done|]. split; [done|]. split; [done|]. intros t sid' name' Ht Hn.
  rewrite <-(catalog_view_ext c' (set_undo tid ps c')), <-(catalog_view_ext c (set_undo tid ((sid, index, ce_id b) :: ps) c)) by done.
  eapply catalog_view_change; [exact Hc|exact Hc'|done|..]; change (cat_sets (set_undo tid ps c')) with (cat_sets c'); rewrite Hsets.
  - intros s0 Hs0. destruct (decide (sid' = sid)) as [->|Hd]; [|rewrite lookup_insert_ne by done; eauto].
    rewrite lookup_insert_eq. eexists. split; [done|]. assert (s0 = s) as -> by (cbn in *; congruence).
    apply (set_view_chain _ _ _ (above ++ [a; b])); [done|]. unfold chain_view, GetEntryForTransaction.
    rewrite (first_usable_cut _ above a [b]); [done|]. rewrite Forall_forall in Hact. specialize (Hact _ Ht). cbn in Hact.
    rewrite Ha. unfold UseTimestamp. bools; lia || done.
  - intros Hs0. cbn in *. rewrite lookup_insert_ne; [done|]. congruence.
Qed.

Lemma Cleanup_loop act r rec ps : ∀ c,
  catalog_inv (set_undo r.1.2 ps c) act (r :: rec) → Forall (λ k, r.2 < k.1) act →
  ∃ c', for_each CleanupCatalogEntry ps c = Ret c' () ∧ cat_undo c' = cat_undo c ∧
    catalog_inv (set_undo r.1.2 [] c') act (r :: rec) ∧
    ∀ t sid name, key t ∈ act → StringUtil_Lower name = name →
      catalog_view c' t sid name = catalog_view c t sid name.
Proof.
  induction ps as [|p ps IH]; intros c Hc Hact; [by exists c|].
  destruct (Cleanup_step c act r rec ps p Hc Hact) as (c1 & Hu1 & Hund1 & Hc1 & Hv1).
  destruct (IH c1 Hc1 Hact) as (c' & Hu & Hund & Hc' & Hv). exists c'. cbn [for_each].
  unfold mbind, M_bind. rewrite Hu1. split; [done|]. split; [congruence|]. split; [done|].
  intros t sid name Ht Hn. by rewrite Hv, Hv1.
Qed.

Lemma catalog_cleanup c act rec t :
  catalog_inv c act (ckey t :: rec) → Forall (λ k, commit_id t < k.1) act →
  catalog_inv (CatalogDB_Cleanup c (transaction_id t)) act rec ∧
  ∀ t' sid name, key t' ∈ act → StringUtil_Lower name = name →
    catalog_view (CatalogDB_Cleanup c (transaction_id t)) t' sid name = catalog_view c t' sid name.
Proof.
  intros Hc Hact. set (tid := transaction_id t). pose proof (ci_keys _ _ _ Hc) as Hk.
  destruct (Cleanup_loop act (ckey t) rec (undo_of c tid) c (catalog_inv_undo _ _ _ _ Hc) Hact) as (c' & Hu & Hund & Hc' & Hv).
  change (ckey t).1.2 with tid in Hc'. unfold CatalogDB_Cleanup. rewrite Hu. cbn [out_state]. split.
  - eapply (catalog_inv_retire (set_undo tid [] c') _ act (ckey t :: rec) _ _ (commit_id t) tid (start_time t));
      [done|right; left|by rewrite undo_of_set, decide_True|by apply (keys_cleanup _ (ckey t))| | |done|done|apply undo_of_forget].
    + intros s i st' [Hi|Hr] Hne; [by left|]. apply elem_of_cons in Hr as [[= -> -> ->]|Hr]; [done|by right].
    + intros s i st' [Hi|Hr]; [by left|right; by right].
  - intros t' sid name Ht' Hn. rewrite <-(Hv t' sid name Ht' Hn). by apply catalog_view_ext.
Qed.

(** ** Commit *)

(** The versions above those with the given identities get a timestamp. *)
Fixpoint stamp_above (stamp : Z) (ids : list nat) ch : list CatalogEntry :=
  match ch with
  | e :: (e' :: _) as below =>
      (if bool_decide (ce_id e' ∈ ids) then set_timestamp stamp e else e) :: stamp_above stamp ids below
  | _ => ch
  end.

Lemma stamp_above_cons stamp ids (a b : CatalogEntry) ch :
  stamp_above stamp ids (a :: b :: ch) =
    (if bool_decide (ce_id b ∈ ids) then set_timestamp stamp a else a) :: stamp_above stamp ids (b :: ch).
Proof. done. Qed.

Lemma stamp_above_ids stamp ids ch : ce_id <$> stamp_above stamp ids ch = ce_id <$> ch.
Proof.
  induction ch as [|a ch IH]; [done|]. destruct ch as [|b ch]; [done|]. rewrite stamp_above_cons, fmap_cons, IH.
  by case_bool_decide.
Qed.

Lemma stamp_above_names stamp ids ch name :
  Forall (λ e, ce_name e = name) ch → Forall (λ e, ce_name e = name) (stamp_above stamp ids ch).
Proof.
  induction ch as [|a ch IH]; [done|]. destruct ch as [|b ch]; [done|]. intros [Ha Hch]%Forall_cons.
  rewrite stamp_above_cons. apply Forall_cons. split; [by case_bool_decide|auto].
Qed.

Lemma stamp_above_ext stamp ids ids' ch :
  (∀ id, id ∈ ce_id <$> tail ch → id ∈ ids ↔ id ∈ ids') → stamp_above stamp ids ch = stamp_above stamp ids' ch.
Proof.
  induction ch as [|a ch IH]; [done|]. destruct ch as [|b ch]; [done|]. intros Hext.
  rewrite !stamp_above_cons. f_equal.
  - rewrite (bool_decide_ext (ce_id b ∈ ids) (ce_id b ∈ ids')); [done|]. apply Hext. left.
  - apply IH. intros id Hid. apply Hext. by right.
Qed.

Lemma split_chain_cons id e ch :
  split_chain id (e :: ch) =
    if (ce_id e =? id)%nat then Some ([], e, ch)
    else '(above, e', below) ← split_chain id ch; Some (e :: above, e', below).
Proof. done. Qed.

(** Stamping one more version. *)
Lemma stamp_above_step stamp ids id ch :
  NoDup (ce_id <$> ch) → id ∈ ce_id <$> tail ch →
  ∃ above parent e below, split_chain id (stamp_above stamp ids ch) = Some (above ++ [parent], e, below) ∧
    stamp_above stamp ids ch = above ++ parent :: e :: below ∧
    stamp_above stamp (ids ++ [id]) ch = above ++ set_timestamp stamp parent :: e :: below.
Proof.
  induction ch as [|a ch IH]; [by intros _ ?%elem_of_nil|]. destruct ch as [|b ch]; [by intros _ ?%elem_of_nil|].
  intros [Ha Hnd]%NoDup_cons Hid. rewrite !stamp_above_cons.
  remember (if bool_decide (ce_id b ∈ ids) then set_timestamp stamp a else a) as a' eqn:Hdef.
  assert (ce_id a' = ce_id a) as Ha' by (rewrite Hdef; by case_bool_decide).
  assert (ce_id a ≠ id) as Hne by (by intros <-).
  destruct (decide (ce_id b = id)) as [Hb|Hb].
  - assert (∃ b' below, stamp_above stamp ids (b :: ch) = b' :: below ∧ ce_id b' = id) as (b' & below & Hst & Hb').
    { destruct ch as [|x ch]; [by exists b, []|]. rewrite stamp_above_cons. eexists _, _. split; [done|]. by destruct (bool_decide (ce_id x ∈ ids)). }
    exists [], a', b', below. rewrite Hst. split; [|split; [done|]].
    + rewrite !split_chain_cons, Ha', Hb', Nat.eqb_refl. by destruct (Nat.eqb_spec (ce_id a) id).
    + rewrite (stamp_above_ext stamp (ids ++ [id]) ids (b :: ch)).
      * rewrite Hst, bool_decide_true by (rewrite Hb; apply elem_of_app; right; left). cbn. f_equal.
        rewrite Hdef. by case_bool_decide.
      * intros i Hi. rewrite elem_of_app, list_elem_of_singleton. split; [intros [?| ->]; [done|]|by left].
        rewrite <-Hb in Hi. by apply NoDup_cons in Hnd as [? _].
  - destruct (IH Hnd) as (above & parent & e & below & Hsp & Heq & Heq').
    { apply elem_of_cons in Hid as [?|?]; [congruence|done]. }
    exists (a' :: above), parent, e, below. rewrite Heq'. split; [|split].
    + rewrite split_chain_cons, Ha', Hsp. by destruct (Nat.eqb_spec (ce_id a) id).
    + by rewrite Heq.
    + cbn. f_equal. rewrite Hdef.
      rewrite (bool_decide_ext (ce_id b ∈ ids ++ [id]) (ce_id b ∈ ids)); [done|].
      rewrite elem_of_app, list_elem_of_singleton. split; [by intros [?|?]|by left].
Qed.

Lemma children_tail stamp ch id : id ∈ children stamp ch → id ∈ ce_id <$> tail ch.
Proof.
  intros (above & a & b & below & -> & _ & <-)%children_elem. apply list_elem_of_fmap_2.
  destruct above as [|x above]; cbn; [left|]. apply elem_of_app. right. right. left.
Qed.

(** Stamping the versions of one transaction. *)
Definition restamp (tid stamp : Z) e : CatalogEntry := if ce_timestamp e =? tid then set_timestamp stamp e else e.

Lemma stamp_above_children tid stamp ch :
  NoDup (ce_id <$> ch) → (∀ e, last ch = Some e → ce_timestamp e ≠ tid) →
  stamp_above stamp (children tid ch) ch = restamp tid stamp <$> ch.
Proof.
  induction ch as [|a ch IH]; [done|]. destruct ch as [|b ch].
  - intros _ Hlast. cbn. unfold restamp. destruct (Z.eqb_spec (ce_timestamp a) tid); [|done]. by destruct (Hlast a).
  - intros [Ha Hnd]%NoDup_cons Hlast. rewrite stamp_above_cons, fmap_cons, <-IH by done.
    rewrite (children_push _ a b) by done. assert (ce_id b ∉ children tid (b :: ch)) as Hb.
    { intros Hin%children_tail. by apply NoDup_cons in Hnd as [? _]. }
    unfold restamp at 1. f_equal.
    + destruct (Z.eqb_spec (ce_timestamp a) tid); [rewrite bool_decide_true by left; done|by rewrite bool_decide_false].
    + apply stamp_above_ext. intros id Hid. destruct (ce_timestamp a =? tid); [|done]. rewrite elem_of_cons.
      split; [intros [->|?]; [|done]|by right]. by apply NoDup_cons in Hnd as [? _].
Qed.

(** A set after some of the undo entries [D] were committed. *)
Record stamped_set (stamp : Z) (D : list entry_ptr) (sid : nat) (s s' : CatalogSet) : Prop := {
  ss_current : cs_current_entry s' = cs_current_entry s;
  ss_entries : ∀ index, cs_entries s' !! index = stamp_above stamp (slot_entries sid index D) <$> cs_entries s !! index;
  ss_mapping : ∀ name, cs_mapping s' !! name = cs_mapping s !! name ∨
    ∃ index ts, cs_mapping s !! name = Some [mkMappingValue index ts false] ∧
      cs_mapping s' !! name = Some [mkMappingValue index stamp false];
}.

Record stamped (stamp : Z) (D : list entry_ptr) c c' : Prop := {
  sd_next : cat_next_id c' = cat_next_id c;
  sd_undo : cat_undo c' = cat_undo c;
  sd_some : ∀ sid s, cat_sets c !! sid = Some s → ∃ s', cat_sets c' !! sid = Some s' ∧ stamped_set stamp D sid s s';
  sd_none : ∀ sid, cat_sets c !! sid = None → cat_sets c' !! sid = None;
}.

Lemma stamped_refl stamp c : stamped stamp [] c c.
Proof.
  split; [done|done| |done]. intros sid s Hs. exists s. split; [done|]. split; [done| |by left].
  intros index. destruct (cs_entries s !! index) as [ch|]; [|done]. cbn. f_equal.
  induction ch as [|a ch IH]; [done|]. destruct ch as [|b ch]; [done|]. rewrite stamp_above_cons, <-IH. done.
Qed.

Lemma ss_mapped stamp D sid s s' name index ts :
  stamped_set stamp D sid s s' → cs_mapping s !! name = Some [mkMappingValue index ts false] →
  ∃ ts', cs_mapping s' !! name = Some [mkMappingValue index ts' false].
Proof.
  intros Hs Hm. destruct (ss_mapping _ _ _ _ _ Hs name) as [->|(i & ts' & Hm' & Hm2)]; [eauto|].
  assert (i = index) as -> by congruence. eauto.
Qed.

(** Committing one undo entry. *)
Lemma Stamp_step stamp D c c' sid (s : CatalogSet) index ch id name ts :
  stamped stamp D c c' → cat_sets c !! sid = Some s → cs_entries s !! index = Some ch →
  NoDup (ce_id <$> ch) → id ∈ ce_id <$> tail ch → Forall (λ e, ce_name e = name) ch →
  cs_mapping s !! name = Some [mkMappingValue index ts false] →
  ∃ c'', StampCatalogEntry stamp (sid, index, id) c' = Ret c'' () ∧ stamped stamp (D ++ [(sid, index, id)]) c c''.
Proof.
  intros Hst Hs Hch Hnd Hid Hn Hm. destruct (sd_some _ _ _ _ Hst _ _ Hs) as (s' & Hs' & Hss).
  destruct (ss_mapped _ _ _ _ _ _ _ _ Hss Hm) as [ts' Hm'].
  pose proof (ss_entries _ _ _ _ _ Hss index) as Hch'. rewrite Hch in Hch'. cbn in Hch'.
  destruct (stamp_above_step stamp (slot_entries sid index D) id ch Hnd Hid) as (above & parent & e & below & Hsp & Heq & Heq').
  pose proof (stamp_above_names stamp (slot_entries sid index D) ch name Hn) as Hn'.
  pose proof (stamp_above_ids stamp (slot_entries sid index D) ch) as Hids. rewrite <-Hids in Hnd.
  rewrite Heq in Hn', Hnd. apply Forall_app in Hn' as [_ [Hpn [Hen _]%Forall_cons]%Forall_cons].
  pose proof (split_chain_at above parent (e :: below) Hnd) as Hsp'.
  assert (StampCatalogEntry stamp (sid, index, id) c' = Ret (with_sets (<[sid :=
    set_mapping name [mkMappingValue index stamp false] (set_chain index (above ++ set_timestamp stamp parent :: e :: below) s')]>) c') ()) as ->.
  { unfold StampCatalogEntry, UpdateTimestamp, locate, get_set, gets, mbind, M_bind. cbn.
    rewrite Hs'. cbn. rewrite Hch'. cbn. rewrite Hsp. cbn. rewrite last_snoc. cbn. rewrite Hs'. cbn. rewrite Hch'. cbn.
    rewrite Heq, Hsp'. cbn. rewrite Hpn, Hm'. cbn. by rewrite Hen, bool_decide_true. }
  eexists. split; [done|]. split; [apply Hst|apply Hst| |].
  - intros sid0 s0 Hs0. cbn. destruct (decide (sid0 = sid)) as [->|Hne].
    + assert (s0 = s) as -> by congruence. rewrite lookup_insert_eq. eexists. split; [done|]. split; cbn.
      * apply Hss.
      * intros index0. rewrite slot_entries_app, slot_entries_single. destruct (decide (index0 = index)) as [->|Hni].
        -- by rewrite lookup_insert_eq, decide_True, Hch; cbn; rewrite ?Heq'.
        -- rewrite lookup_insert_ne, decide_False, app_nil_r by (cbn; congruence). apply Hss.
      * intros name0. destruct (decide (name0 = name)) as [->|Hnn].
        -- right. exists index, ts. by rewrite lookup_insert_eq.
        -- rewrite lookup_insert_ne by done. apply Hss.
    + rewrite lookup_insert_ne by done. destruct (sd_some _ _ _ _ Hst _ _ Hs0) as (s0' & Hs0' & Hss0).
      exists s0'. split; [done|]. split; [apply Hss0| |apply Hss0]. intros index0.
      rewrite slot_entries_app, slot_entries_single, decide_False, app_nil_r by (cbn; congruence). apply Hss0.
  - intros sid0 Hs0. cbn. rewrite lookup_insert_ne; [by apply Hst|]. congruence.
Qed.

Lemma Stamp_loop stamp c act rec st tid :
  catalog_inv c act rec → (st, tid) ∈ act → ∀ ps D c', undo_of c tid = D ++ ps → stamped stamp D c c' →
  ∃ c'', for_each (StampCatalogEntry stamp) ps c' = Ret c'' () ∧ stamped stamp (undo_of c tid) c c''.
Proof.
  intros Hc Hin ps. induction ps as [|p ps IH]; intros D c' Hundo Hst.
  - rewrite app_nil_r in Hundo. rewrite Hundo. by exists c'.
  - assert (p ∈ undo_of c tid) as Hp by (rewrite Hundo; apply elem_of_app; right; left).
    destruct (ci_undo _ _ _ Hc _ _ Hp) as [_ (s & ch & Hs & Hch)]. destruct p as [[sid index] id]. cbn in Hs, Hch.
    pose proof (si_slots _ _ _ _ _ (ci_sets _ _ _ Hc _ _ Hs) _ _ Hch) as Hslot.
    assert (id ∈ ce_id <$> tail ch) as Hid.
    { apply (children_tail tid). apply elem_of_reverse.
      rewrite <-(sl_children _ _ _ _ _ _ _ Hslot tid tid st) by (by left). rewrite Hundo, slot_entries_app.
      apply elem_of_app. right. change ((sid, index, id) :: ps) with ([(sid, index, id)] ++ ps).
      rewrite slot_entries_app, slot_entries_single, decide_True by done. left. }
    assert (2 <= length ch)%nat as Hlen by (destruct ch as [|? [|]]; [by apply elem_of_nil in Hid..|cbn; lia]).
    destruct (sl_mapped _ _ _ _ _ _ _ Hslot Hlen) as (name & ts & Hm & Hn).
    destruct (Stamp_step stamp D c c' sid s index ch id name ts Hst Hs Hch (sl_ids _ _ _ _ _ _ _ Hslot) Hid Hn Hm) as (c1 & Heq & Hst1).
    destruct (IH (D ++ [(sid, index, id)]) c1) as (c'' & Hl & Hst2); [by rewrite <-app_assoc|done|].
    exists c''. split; [|done]. cbn [for_each]. unfold mbind, M_bind. by rewrite Heq.
Qed.

Lemma children_map (f : CatalogEntry → CatalogEntry) stamp stamp' ch :
  (∀ e, ce_id (f e) = ce_id e) →
  (∀ above a b below, ch = above ++ a :: b :: below → (ce_timestamp (f a) =? stamp') = (ce_timestamp a =? stamp)) →
  children stamp' (f <$> ch) = children stamp ch.
Proof.
  intros Hid. induction ch as [|a ch IH]; intros Hts; [done|]. destruct ch as [|b ch]; [done|].
  rewrite (children_push _ a b) by done. rewrite fmap_cons, (children_push _ (f a) (f b)) by done.
  rewrite (Hts [] a b ch eq_refl), Hid, IH; [done|]. intros above x y below Heq. apply (Hts (a :: above) x y below). by rewrite Heq.
Qed.

Section commit.
Context c act rec t cid (Hc : catalog_inv c act rec) (Ht : key t ∈ act)
  (Hact : ∀ k, k ∈ act → k.1 < cid) (Hrec : ∀ r, r ∈ rec → r.2 < cid) (Hcid : cid < TRANSACTION_ID_START - 1).
Abbreviation tid := (transaction_id t).
Abbreviation act' := (without tid act).
Abbreviation rec' := (rec ++ [(key t, cid)]).

Lemma commit_live stamp i st : live act rec stamp i st → stamp ≠ tid → live act' rec' stamp i st ∧ stamp ≠ cid ∧ i ≠ tid.
Proof.
  pose proof (ci_keys _ _ _ Hc) as Hk. intros [[Hi ->]|Hr] Hne.
  - split; [left; split; [by apply without_spec|done]|]. destruct (ko_act _ _ Hk _ _ Hi). split; [lia|done].
  - split; [right; apply elem_of_app; by left|]. split; [specialize (Hrec _ Hr); cbn in Hrec; lia|].
    intros ->. by apply (keys_disjoint _ _ _ _ _ _ Hk Ht Hr).
Qed.

Lemma live_commit stamp i st :
  live act' rec' stamp i st → (stamp = cid ∧ i = tid ∧ st = start_time t) ∨ (live act rec stamp i st ∧ stamp ≠ tid).
Proof.
  pose proof (ci_keys _ _ _ Hc) as Hk. destruct (ko_act _ _ Hk _ _ Ht) as [_ ?].
  intros [[[Hi Hne]%without_spec ->]|[Hr|[= -> -> ->]%list_elem_of_singleton]%elem_of_app]; [right..|by left].
  - split; [by left|done].
  - split; [by right|]. specialize (Hrec _ Hr). cbn in Hrec. lia.
Qed.

Lemma commit_slot c' (s s' : CatalogSet) sid index ch :
  slot_inv c act rec s sid index ch → cs_current_entry s' = cs_current_entry s → cat_next_id c' = cat_next_id c →
  cat_undo c' = cat_undo c →
  (∀ name ts, cs_mapping s !! name = Some [mkMappingValue index ts false] →
    ∃ ts', cs_mapping s' !! name = Some [mkMappingValue index ts' false]) →
  slot_inv c' act' rec' s' sid index (restamp tid cid <$> ch).
Proof.
  pose proof (ci_keys _ _ _ Hc) as Hk. destruct (ko_act _ _ Hk _ _ Ht) as [[_ Hst] Htid].
  intros [S1 S2 S3 S4 S5 S6 S7 S8 S9] Hcur Hnext Hundo Hmap.
  assert (∀ e, ce_id (restamp tid cid e) = ce_id e) as Hid by (intros e; unfold restamp; by destruct (_ =? _)).
  assert (∀ e, ce_name (restamp tid cid e) = ce_name e) as Hname by (intros e; unfold restamp; by destruct (_ =? _)).
  assert (∀ e, ce_type (restamp tid cid e) = ce_type e ∧ ce_deleted (restamp tid cid e) = ce_deleted e) as Hty
    by (intros e; unfold restamp; by destruct (_ =? _)).
  assert (∀ e, ce_timestamp (restamp tid cid e) = if ce_timestamp e =? tid then cid else ce_timestamp e) as Hts
    by (intros e; unfold restamp; by destruct (_ =? _)).
  assert (∀ above a b below, ch = above ++ a :: b :: below → ∃ i st, live act rec (ce_timestamp a) i st) as Hlive.
  { intros above a b below Heq. destruct (S5 _ _ _ _ Heq) as [(st & i & Hl & _) _]. eauto. }
  split.
  - by destruct ch.
  - lia.
  - by rewrite <-list_fmap_compose, (list_fmap_ext _ ce_id ch) by (intros ? e _; apply Hid).
  - rewrite Forall_fmap, Hnext. eapply Forall_impl; [exact S4|]. intros e He. cbn. by rewrite Hid.
  - intros above' a' b' below' Heq. apply fmap_app_inv in Heq as (above & rest & -> & Hrest & Heq).
    destruct rest as [|a [|b below]]; [done|done|]. injection Hrest as -> -> ->.
    destruct (S5 above a b below Heq) as [(st & i & Hl & Hb) Hat]. split; [|by rewrite !(proj1 (Hty a))].
    exists st, i. rewrite !Hts. assert (st < TRANSACTION_ID_START).
    { destruct Hl as [[Hi _]|Hr]; [destruct (ko_act _ _ Hk _ _ Hi); lia|destruct (ko_rec _ _ Hk _ _ _ Hr); lia]. }
    destruct (Z.eqb_spec (ce_timestamp a) tid) as [Ha|Ha].
    + destruct (live_unique _ _ _ _ _ tid (start_time t) Hk Hl) as [-> ->]; [rewrite Ha; by left|].
      split; [right; apply elem_of_app; right; left|]. destruct (Z.eqb_spec (ce_timestamp b) tid); [by left|right]. lia.
    + destruct (commit_live _ _ _ Hl Ha) as (Hl' & _ & _). split; [done|].
      destruct (Z.eqb_spec (ce_timestamp b) tid) as [Hb'|Hb']; [lia|done].
  - intros stamp i st Hl. unfold undo_of. rewrite Hundo. fold (undo_of c i).
    destruct (live_commit _ _ _ Hl) as [(-> & -> & ->)|[Hl' Hne]].
    + rewrite (children_map _ tid); [apply (S6 tid tid (start_time t)); by left|done|].
      intros above a b below Heq. rewrite Hts. destruct (Z.eqb_spec (ce_timestamp a) tid) as [_|Hne]; [by rewrite Z.eqb_refl|].
      destruct (Hlive _ _ _ _ Heq) as (i & st & Hla). destruct (commit_live _ _ _ Hla Hne) as (_ & ? & _). by apply Z.eqb_neq.
    + rewrite (children_map _ stamp); [by apply (S6 stamp i st)|done|]. intros above a b below Heq. rewrite Hts.
      destruct (Z.eqb_spec (ce_timestamp a) tid) as [->|]; [|done].
      destruct (commit_live _ _ _ Hl' Hne) as (_ & Hsc & _).
      by rewrite (proj2 (Z.eqb_neq cid stamp)), (proj2 (Z.eqb_neq tid stamp)) by congruence.
  - rewrite length_fmap. intros Hlen. destruct (S7 Hlen) as (name & ts & Hm & Hn). destruct (Hmap _ _ Hm) as [ts' Hm'].
    exists name, ts'. split; [done|]. rewrite Forall_fmap. eapply Forall_impl; [exact Hn|]. intros e He. cbn. by rewrite Hname.
  - rewrite Forall_fmap. eapply Forall_impl; [exact S8|]. intros e He. cbn. by destruct (Hty e) as [-> ->].
  - intros e. rewrite fmap_last. destruct (last ch) as [e'|] eqn:Hlast; [|done]. intros [= <-]. rewrite Hts.
    specialize (S9 e' eq_refl). destruct (ce_timestamp e' =? tid); lia.
Qed.

(** The view of another transaction. *)
Lemma commit_chain_view t' ch : key t' ∈ act' → chain_view t' (restamp tid cid <$> ch) = chain_view t' ch.
Proof.
  intros [Ht' Hne]%without_spec. pose proof (ci_keys _ _ _ Hc) as Hk.
  destruct (ko_act _ _ Hk _ _ Ht) as [_ Htid], (ko_act _ _ Hk _ _ Ht') as [[_ Hst'] Htid']. specialize (Hact _ Ht'). cbn in Hact.
  unfold chain_view, GetEntryForTransaction. rewrite first_usable_map.
  - destruct (first_usable _ ch) as [e|]; [|done]. cbn. unfold restamp. by destruct (_ =? _).
  - intros e _. unfold restamp. destruct (Z.eqb_spec (ce_timestamp e) tid) as [->|]; [|done]. cbn.
    rewrite (UseTimestamp_other t' tid) by (lia || congruence). unfold UseTimestamp. bools; lia || done.
Qed.

Lemma commit_stamped c' :
  stamped cid (undo_of c tid) c c' →
  catalog_inv c' act' rec' ∧
  ∀ t' sid name, key t' ∈ act' → StringUtil_Lower name = name → catalog_view c' t' sid name = catalog_view c t' sid name.
Proof.
  intros Hst. pose proof (ci_keys _ _ _ Hc) as Hk.
  assert (∀ sid s s' index, cat_sets c !! sid = Some s → stamped_set cid (undo_of c tid) sid s s' →
    cs_entries s' !! index = fmap (restamp tid cid) <$> cs_entries s !! index) as Hentries.
  { intros sid s s' index Hs Hss. rewrite (ss_entries _ _ _ _ _ Hss). destruct (cs_entries s !! index) as [ch|] eqn:Hch; [|done].
    cbn. f_equal. pose proof (si_slots _ _ _ _ _ (ci_sets _ _ _ Hc _ _ Hs) _ _ Hch) as Hslot.
    rewrite <-stamp_above_children; [|apply Hslot|].
    - apply stamp_above_ext. intros id _. rewrite (sl_children _ _ _ _ _ _ _ Hslot tid tid (start_time t)) by (by left).
      apply elem_of_reverse.
    - intros e He. pose proof (sl_last _ _ _ _ _ _ _ Hslot e He). destruct (ko_act _ _ Hk _ _ Ht) as [_ ?]. lia. }
  assert (catalog_inv c' act' rec') as Hc'.
  { split.
    - by apply keys_commit.
    - intros sid s' Hs'. destruct (cat_sets c !! sid) as [s|] eqn:Hs; [|rewrite (sd_none _ _ _ _ Hst _ Hs) in Hs'; done].
      destruct (sd_some _ _ _ _ Hst _ _ Hs) as (s0 & Hs0 & Hss). assert (s0 = s') as -> by congruence.
      pose proof (ci_sets _ _ _ Hc _ _ Hs) as Hset.
      assert (∀ name index ts, cs_mapping s' !! name = Some [mkMappingValue index ts false] →
        ∃ ts', cs_mapping s !! name = Some [mkMappingValue index ts' false]) as Hback.
      { intros name index ts Hm. destruct (ss_mapping _ _ _ _ _ Hss name) as [Heq|(i & ts' & Hm' & Hm2)].
        - exists ts. congruence.
        - exists ts'. rewrite Hm' . congruence. }
      split.
      + intros name values Hm. destruct (cs_mapping s !! name) as [values'|] eqn:Hm'.
        2: { destruct (ss_mapping _ _ _ _ _ Hss name) as [Heq|(i & ts' & Hm2 & _)]; congruence. }
        destruct (si_mapping _ _ _ _ _ Hset _ _ Hm') as (index & ts & ch & -> & Hl & Hch & Hf).
        destruct (ss_mapped _ _ _ _ _ _ _ _ Hss Hm') as [ts' Hm2]. exists index, ts', (restamp tid cid <$> ch).
        rewrite (Hentries sid s) by done. rewrite Hch. repeat split; [congruence|done|]. rewrite Forall_fmap.
        eapply Forall_impl; [exact Hf|]. intros e He. cbn. unfold restamp. by destruct (_ =? _).
      + intros name name' index ts ts' [? Hm1]%Hback [? Hm2]%Hback. by eapply (si_injective _ _ _ _ _ Hset).
      + intros index ch'. rewrite (Hentries sid s) by done. destruct (cs_entries s !! index) as [ch|] eqn:Hch; [|done].
        intros [= <-]. eapply commit_slot; [by apply (si_slots _ _ _ _ _ Hset)|apply Hss|apply Hst|apply Hst|].
        intros name ts. by apply (ss_mapped cid (undo_of c tid) sid).
    - intros i p Hp. unfold undo_of in Hp. rewrite (sd_undo _ _ _ _ Hst) in Hp. fold (undo_of c i) in Hp.
      destruct (ci_undo _ _ _ Hc _ _ Hp) as [(stamp & st & Hl) (s & ch & Hs & Hch)]. split.
      + destruct (Z.eq_dec stamp tid) as [->|Hne]; [|exists stamp, st; by apply commit_live].
        destruct (live_unique _ _ _ _ _ tid (start_time t) Hk Hl) as [-> ->]; [by left|].
        exists cid, (start_time t). right. apply elem_of_app. right. left.
      + destruct (sd_some _ _ _ _ Hst _ _ Hs) as (s' & Hs' & Hss). exists s', (restamp tid cid <$> ch).
        split; [done|]. by rewrite (Hentries p.1.1 s), Hch. }
  split; [done|]. intros t' sid name Ht' Hn. eapply catalog_view_change; [done|done|done| |apply Hst].
  intros s Hs. destruct (sd_some _ _ _ _ Hst _ _ Hs) as (s' & Hs' & Hss). exists s'. split; [done|]. unfold set_view.
  destruct (cs_mapping s !! name) as [values|] eqn:Hm.
  - destruct (si_mapping _ _ _ _ _ (ci_sets _ _ _ Hc _ _ Hs) _ _ Hm) as (index & ts & ch & -> & _ & Hch & _).
    destruct (ss_mapped _ _ _ _ _ _ _ _ Hss Hm) as [ts' ->]. cbn. rewrite (Hentries sid s), Hch by done. cbn.
    by apply commit_chain_view.
  - destruct (ss_mapping _ _ _ _ _ Hss name) as [->|(i & ts' & Hm2 & _)]; [by rewrite Hm|congruence].
Qed.

Lemma catalog_commit :
  catalog_inv (CatalogDB_Commit c tid cid) act' rec' ∧
  ∀ t' sid name, key t' ∈ act' → StringUtil_Lower name = name →
    catalog_view (CatalogDB_Commit c tid cid) t' sid name = catalog_view c t' sid name.
Proof.
  destruct (Stamp_loop cid c act rec (start_time t) tid Hc Ht (undo_of c tid) [] c eq_refl (stamped_refl _ _)) as (c' & Heq & Hst).
  unfold CatalogDB_Commit. rewrite Heq. by apply commit_stamped.
Qed.
End commit.

(** ** The interface *)

(** What a running transaction does: names are lower case and an alter keeps
    the name. *)
Inductive catalog_works c (k : Z * Z) : Catalog → Prop :=
| works_create t sid (value : EntryData) dependencies :
    key t = k → good_data value → catalog_works c k (out_state (CreateEntry t sid value dependencies c))
| works_alter t sid name (alter : CatalogEntry → res (option EntryData)) :
    key t = k →
    (∀ e d, alter e = Ok (Some d) → ed_name d = ce_name e ∧ ed_type d ≠ INVALID ∧ ed_type d ≠ UPDATED_ENTRY) →
    catalog_works c k (out_state (AlterEntry t sid name alter c))
| works_drop fuel t sid name cascade :
    key t = k → catalog_works c k (out_state (DropEntry fuel t sid name cascade c)).

#[export] Instance CatalogSnapshots : SnapshotStore Catalog (nat * string) (option CatalogEntry) := {
  view c st tid o :=
    if bool_decide (StringUtil_Lower o.2 = o.2) then catalog_view c (Transaction_new st tid 0) o.1 o.2 else None;
  store_ok c _ := catalog_inv c;
  works := catalog_works;
}.

Lemma same_catalog_views act c c' :
  (∀ t sid name, key t ∈ act → StringUtil_Lower name = name → catalog_view c' t sid name = catalog_view c t sid name) →
  same_views act c c'.
Proof. intros H st tid [sid name] Hin. cbn. case_bool_decide; [|done]. by apply H. Qed.

Lemma works_steps c act rec k c' :
  catalog_inv c act rec → k ∈ act → catalog_works c k c' → rtc (prim k.1 k.2) c c'.
Proof.
  intros Hc Hin Hw. destruct Hw as [t sid value deps <- Hd|t sid name alter <- Ha|fuel t sid name cascade <-].
  - assert (0 <= start_time t) as Hst by (destruct (ko_act _ _ (ci_keys _ _ _ Hc) _ _ Hin); lia).
    by apply (triple_CreateEntry act rec t Hin sid value deps Hd Hst c Hc I).
  - by apply (triple_AlterEntry act rec t Hin sid name alter Ha c Hc I).
  - by apply (triple_DropEntry act rec t Hin fuel sid name cascade c Hc I).
Qed.

Lemma catalog_start c act rec st tid :
  catalog_inv c act rec → Forall (λ k, k.1 < st ∧ k.2 < tid) act → Forall (λ r, r.2 < st ∧ r.1.2 < tid) rec →
  snapshot st tid → catalog_inv c (act ++ [(st, tid)]) rec.
Proof.
  intros Hc Hact Hrec Hsnap. pose proof (keys_start _ _ _ _ (ci_keys _ _ _ Hc) Hact Hrec Hsnap) as Hk.
  rewrite Forall_forall in Hact. rewrite Forall_forall in Hrec.
  assert (∀ stamp i st', live act rec stamp i st' → stamp < tid ∧ i < tid) as Hold.
  { intros stamp i st' [[Hi ->]|Hr]; [specialize (Hact _ Hi); cbn in Hact; lia|specialize (Hrec _ Hr); cbn in Hrec].
    destruct Hsnap, (ko_rec _ _ (ci_keys _ _ _ Hc) _ _ _ Hr). lia. }
  assert (∀ stamp i st', live act rec stamp i st' → live (act ++ [(st, tid)]) rec stamp i st') as Hto.
  { intros stamp i st' [[Hi ->]|Hr]; [left; split; [apply elem_of_app; by left|done]|by right]. }
  assert (undo_of c tid = []) as Hnil.
  { destruct (undo_of c tid) as [|p ps] eqn:Hu; [done|].
    destruct (ci_undo _ _ _ Hc tid p) as [(stamp & st' & Hl) _]; [rewrite Hu; left|]. apply Hold in Hl. lia. }
  split; [done| |].
  - intros sid s Hs. eapply (set_inv_change c); [by apply (ci_sets _ _ _ Hc)|done|auto|].
    intros index ch stamp i st' Hch Hl. pose proof (si_slots _ _ _ _ _ (ci_sets _ _ _ Hc _ _ Hs) _ _ Hch) as Hslot.
    destruct Hl as [[[Hi|[= -> ->]%list_elem_of_singleton]%elem_of_app ->]|Hr].
    + apply (sl_children _ _ _ _ _ _ _ Hslot i i st'). by left.
    + rewrite Hnil. cbn. symmetry. destruct (children tid ch) as [|id l] eqn:Hcl; [done|].
      destruct (children_elem tid ch id) as (above & a & b & below & Heq & Ha & _); [rewrite Hcl; left|].
      destruct (sl_above _ _ _ _ _ _ _ Hslot _ _ _ _ Heq) as [(st1 & i & Hl & _) _]. apply Hold in Hl. lia.
    + apply (sl_children _ _ _ _ _ _ _ Hslot stamp i st'). by right.
  - intros i p Hp. destruct (ci_undo _ _ _ Hc _ _ Hp) as [(stamp & st' & Hl) Hsl]. eauto.
Qed.

#[export] Instance CatalogLaws : SnapshotStoreLaws Catalog (nat * string) (option CatalogEntry).
Proof.
  split.
  - intros c next act rec st tid Hc _ Ha Hr Hst [Htid _]. apply catalog_start; done.
  - intros c next act rec [st tid] c' Hc Hin Hw. pose proof (works_steps _ _ _ _ _ Hc Hin Hw) as Hs.
    destruct (prims_ok _ _ _ _ _ _ Hs Hc Hin) as [Hc' Hv]. split; [done|]. apply same_catalog_views.
    intros t sid name [Ht Hne]%without_spec Hn. by apply Hv.
  - intros c next act rec t Hc Hin. destruct (catalog_rollback c act rec t Hc Hin) as [Hc' Hv]. split; [done|].
    by apply same_catalog_views.
  - intros c next act rec t cid checkpoint t' c' error Hc Hin Ha Hr Hcid [= _ <- <-]. rewrite bool_decide_true by done.
    rewrite Forall_forall in Ha. rewrite Forall_forall in Hr.
    destruct (catalog_commit c act rec t cid Hc Hin Ha Hr Hcid) as [Hc' Hv]. split; [done|].
    by apply same_catalog_views.
  - intros c next act rec t Hc Ha. destruct (catalog_cleanup c act rec t Hc Ha) as [Hc' Hv]. split; [done|].
    by apply same_catalog_views.
  - intros c next act Hc _. split; [done|]. by apply same_catalog_views.
Qed.

(** A catalog of empty sets. *)
Definition Catalog_new (sids : list nat) : Catalog :=
  mkCatalog (list_to_map ((λ sid, (sid, mkCatalogSet ∅ ∅ 0)) <$> sids)) ∅ ∅ 0 0 ∅.

Lemma Catalog_new_ok sids : catalog_inv (Catalog_new sids) [] [].
Proof.
  split; [apply keys_nil| |intros tid p Hp; unfold undo_of in Hp; cbn in Hp; rewrite lookup_empty in Hp; by apply elem_of_nil in Hp].
  intros sid s (x & [= -> ->] & _)%elem_of_list_to_map_2%list_elem_of_fmap. split; cbn.
  - intros name values. by rewrite lookup_empty.
  - intros name name' index ts ts'. by rewrite lookup_empty.
  - intros index ch. by rewrite lookup_empty.
Qed.

(** ** Theorems *)

(** C9: snapshot isolation of the catalog, without renames and for lower-case
    names.  In every run of a database whose transactions create entries with
    lower-case names, alter entries without changing their names, and drop
    entries, with or without everything that depends on them, and
    commit, roll back and have their versions cleaned up by the transaction
    manager, [GetEntry] with a lower-case name finds the same entry for a
    running transaction before and after anything that other transactions do.
    Transactions that rename entries or use names in different cases are
    excluded: for them it is false ([rename_loses_old_snapshots],
    [create_hides_alias]). *)
Theorem catalog_snapshot_isolation sids k n s s' st tid sid name :
  run k (system_new (Catalog_new sids)) s → run_of_others tid n s s' →
  Z.of_nat (k + n) <= TRANSACTION_ID_START - 1 →
  (st, tid) ∈ key <$> active_transactions (sys_manager s) →
  (st, tid) ∈ key <$> active_transactions (sys_manager s') →
  StringUtil_Lower name = name →
  catalog_view (sys_db s') (Transaction_new st tid 0) sid name =
  catalog_view (sys_db s) (Transaction_new st tid 0) sid name.
Proof.
  intros Hk Hn Hb Hin Hin' Hl.
  pose proof (run_inv 0 k _ _ (system_new_inv _ (Catalog_new_ok sids)) ltac:(lia) Hk) as Hinv.
  pose proof (isolation n k s s' st tid (sid, name) Hinv Hb Hn Hin Hin') as Hview. cbn in Hview.
  by rewrite bool_decide_true in Hview.
Qed.

Lemma on_top_view c act rec t sid (value : CatalogEntry) :
  catalog_inv c act rec → on_top sid value c → ce_timestamp value = transaction_id t →
  catalog_view c t sid (ce_name value) = if ce_deleted value then None else Some (set_timestamp 0 value).
Proof.
  intros Hc (s & index & ch & ts & Hs & Hch & Hne & Hm) Hts. pose proof (ci_sets _ _ _ Hc _ _ Hs) as Hset.
  destruct (si_mapping _ _ _ _ _ Hset _ _ Hm) as (? & ? & ? & _ & Hl & _).
  rewrite (catalog_view_set c act rec t sid s) by done. unfold set_view. rewrite Hm. cbn. rewrite Hch. cbn.
  unfold chain_view, GetEntryForTransaction. cbn. destruct ch as [|e ch]; [done|].
  unfold UseTimestamp at 1. by rewrite Hts, Z.eqb_refl.
Qed.

(** a transaction sees its own changes to the catalog.  After a successful
    creation it finds the entry that it created, after a successful alter it
    finds the entry that the alter returned, and after a successful drop it
    finds none; the names of alters and drops need not be lower case. *)
Theorem catalog_own_writes c act rec t sid :
  catalog_inv c act rec → key t ∈ act →
  (∀ (value : EntryData) dependencies c', good_data value → CreateEntry t sid value dependencies c = Ret c' true →
    ∃ id, catalog_view c' t sid (ed_name value) = Some (make_entry id value 0)) ∧
  (∀ name (alter : CatalogEntry → res (option EntryData)) c',
    (∀ e d, alter e = Ok (Some d) → ed_name d = ce_name e ∧ ed_type d ≠ INVALID ∧ ed_type d ≠ UPDATED_ENTRY) →
    (∀ e, alter e ≠ Ok None) → AlterEntry t sid name alter c = Ret c' true →
    ∃ e d id, alter e = Ok (Some d) ∧ catalog_view c' t sid (StringUtil_Lower name) = Some (make_entry id d 0)) ∧
  (∀ fuel name cascade c', DropEntry fuel t sid name cascade c = Ret c' true →
    catalog_view c' t sid (StringUtil_Lower name) = None).
Proof.
  intros Hc Hin. split; [|split].
  - intros value deps c' Hd Heq. assert (0 <= start_time t) as Hst by (destruct (ko_act _ _ (ci_keys _ _ _ Hc) _ _ Hin); lia).
    destruct (triple_CreateEntry act rec t Hin sid value deps Hd Hst c Hc I) as [Hs Hp]. rewrite Heq in Hs.
    destruct (Hp c' true Heq eq_refl) as [id Htop]. exists id.
    exact (on_top_view _ _ _ _ _ _ (steps_inv act rec t Hin _ _ Hc Hs) Htop eq_refl).
  - intros name alter c' Ha Hsome Heq. destruct (triple_AlterEntry act rec t Hin sid name alter Ha c Hc I) as [Hs Hp].
    rewrite Heq in Hs. destruct (Hp c' true Heq eq_refl Hsome) as (e & d & id & Hd & Hn & Htop). exists e, d, id. split; [done|].
    rewrite <-Hn. exact (on_top_view _ _ _ _ _ _ (steps_inv act rec t Hin _ _ Hc Hs) Htop eq_refl).
  - intros fuel name cascade c' Heq. destruct (triple_DropEntry act rec t Hin fuel sid name cascade c Hc I) as [Hs Hp].
    rewrite Heq in Hs. cbn [out_state] in Hs. destruct (Hp c' true Heq eq_refl) as (value & Htop & Hts & Hn & Hdel). rewrite <-Hn.
    rewrite (on_top_view _ _ _ _ _ _ (steps_inv act rec t Hin _ _ Hc Hs) Htop Hts). by rewrite Hdel.
Qed.

(** The newest version under a name. *)
Definition newest c (sid : nat) (name : string) : option CatalogEntry :=
  s ← cat_sets c !! sid; values ← cs_mapping s !! name; m ← head values; ch ← cs_entries s !! mv_index m; head ch.

(** C25: the first writer wins, in a catalog without renames.  In every state that
    satisfies [catalog_inv] (reached by transactions that create entries with
    lower-case names, alter entries without changing their names, and drop
    entries): when the newest version under a name was written by another
    transaction that is running or that committed after this one started,
    creating, altering and dropping the entry throw a transaction exception and
    change nothing.  After a rename it is false: see
    [rename_escapes_conflicts]. *)
Theorem catalog_write_conflict c act rec t sid name (e : CatalogEntry) :
  catalog_inv c act rec → newest c sid name = Some e →
  ce_timestamp e ≠ transaction_id t → start_time t < ce_timestamp e →
  (∀ (value : EntryData) dependencies, ed_name value = name →
    CreateEntry t sid value dependencies c = Raise c (TransactionException "Catalog write-write conflict on create")) ∧
  (∀ (alter : CatalogEntry → res (option EntryData)),
    AlterEntry t sid name alter c = Raise c (TransactionException "Catalog write-write conflict on alter")) ∧
  (∀ fuel cascade,
    DropEntry fuel t sid name cascade c = Raise c (TransactionException "Catalog write-write conflict on alter")).
Proof.
  intros Hc Hnew Hne Hlt. unfold newest in Hnew. destruct (cat_sets c !! sid) as [s|] eqn:Hs; [|done]. cbn in Hnew.
  destruct (cs_mapping s !! name) as [values|] eqn:Hm; [|done].
  destruct (si_mapping _ _ _ _ _ (ci_sets _ _ _ Hc _ _ Hs) _ _ Hm) as (index & ts & ch & -> & _ & Hch & _).
  cbn in Hnew. rewrite Hch in Hnew. cbn in Hnew.
  assert (HasConflict t (ce_timestamp e) = true) as Hcf by (unfold HasConflict; bools; lia || done).
  assert (GetEntryInternal t sid name c = Raise c (TransactionException "Catalog write-write conflict on alter")) as Hget.
  { unfold GetEntryInternal, get_set, gets, mbind, M_bind. rewrite Hs. cbn. unfold GetMapping, find_mapping. rewrite Hm. cbn.
    unfold GetEntryAt, get_set, gets, mbind, M_bind. rewrite Hs. cbn. rewrite Hch. cbn. rewrite Hnew. cbn. by rewrite Hcf. }
  split; [|split].
  - intros value deps <-. unfold CreateEntry, create_slot, get_set, gets, mbind, M_bind. rewrite Hs. cbn.
    unfold GetMapping, find_mapping. rewrite Hm. cbn. rewrite Hch. cbn. rewrite Hnew. cbn. by rewrite Hcf.
  - intros alter. unfold AlterEntry, mbind, M_bind. by rewrite Hget.
  - intros fuel cascade. unfold DropEntry, mbind, M_bind. by rewrite Hget.
Qed.

(** C26: ending a transaction never follows an invalid pointer, in a catalog
    without renames.  In every state that satisfies [catalog_inv] (reached by
    transactions that create entries with lower-case names, alter entries
    without changing their names, and drop entries), committing and
    rolling back any running transaction, and cleaning up after the oldest
    committed one when it committed before every running one started, find
    every version that the undo buffer points at, with a version above it,
    under its name.  With renames a rollback can follow an invalid pointer: see
    [rename_escapes_conflicts]. *)
Theorem catalog_undo_safe c act rec :
  catalog_inv c act rec →
  (∀ t, key t ∈ act →
    (∀ stamp, ∃ c', for_each (StampCatalogEntry stamp) (undo_of c (transaction_id t)) c = Ret c' ()) ∧
    (∃ c', for_each Undo (reverse (undo_of c (transaction_id t))) c = Ret c' ())) ∧
  (∀ t rec', rec = ckey t :: rec' → Forall (λ k, commit_id t < k.1) act →
    ∃ c', for_each CleanupCatalogEntry (undo_of c (transaction_id t)) c = Ret c' ()).
Proof.
  intros Hc. split.
  - intros t Hin. split.
    + intros stamp. destruct (Stamp_loop stamp c act rec (start_time t) (transaction_id t) Hc Hin
        (undo_of c (transaction_id t)) [] c eq_refl (stamped_refl _ _)) as (c' & Heq & _). by exists c'.
    + destruct (Undo_loop act rec (start_time t) (transaction_id t) (undo_of c (transaction_id t)) c
        (catalog_inv_undo _ _ _ _ Hc) Hin) as (c' & Heq & _). by exists c'.
  - intros t rec' -> Ha. destruct (Cleanup_loop act (ckey t) rec' (undo_of c (transaction_id t)) c
      (catalog_inv_undo _ _ _ _ Hc) Ha) as (c' & Heq & _). by exists c'.
Qed.
End store.

(** ** Witnesses *)

Definition cex_t1 : Transaction := Transaction_new 0 TRANSACTION_ID_START 0.
Definition cex_t2 : Transaction := Transaction_new 1 (TRANSACTION_ID_START + 1) 0.
Definition cex_table : EntryData (A := nat) := mkEntryData TABLE_ENTRY "integers" false false 7%nat.
Definition cex_catalog : CatalogSet.Catalog (A := nat) := Catalog_new [0%nat].
Definition cex_created : CatalogSet.Catalog (A := nat) := out_state (CreateEntry cex_t1 0 cex_table [] cex_catalog).

Lemma cex_table_good : good_data cex_table.
Proof. by vm_compute. Qed.

(** Two transactions start; the first one creates a table and commits. *)
Definition cex_m1 : TransactionManager := mkTransactionManager 1 1 (TRANSACTION_ID_START + 1) [cex_t1] [] [] [] false.
Definition cex_m2 : TransactionManager := mkTransactionManager 1 2 (TRANSACTION_ID_START + 2) [cex_t1; cex_t2] [] [] [] false.
Definition cex_before := mkSystem cex_m2 cex_catalog None.
Definition cex_result := CommitTransaction_finish cex_m2 cex_created TRANSACTION_ID_START false.
Definition cex_after := mkSystem cex_result.1.1 cex_result.1.2 None.

Lemma cex_started : run 2 (system_new cex_catalog) cex_before.
Proof.
  apply (nsteps_l _ _ _ (mkSystem cex_m1 cex_catalog None)).
  { exists None. apply (step_start _ _ _ _ cex_t1). reflexivity. }
  apply (nsteps_l _ _ _ cex_before); [|constructor].
  exists None. apply (step_start _ _ _ _ cex_t2). reflexivity.
Qed.

Lemma cex_committed : run_of_others (TRANSACTION_ID_START + 1) 2 cex_before cex_after.
Proof.
  assert (∀ db : CatalogSet.Catalog (A := nat), may_act (mkSystem cex_m2 db None) TRANSACTION_ID_START) as Hact.
  { intros db. split; [left|done]. }
  apply (nsteps_l _ _ _ (mkSystem cex_m2 cex_created None)).
  { exists (Some TRANSACTION_ID_START). split; [done|].
    apply (step_work cex_m2 cex_catalog None cex_t1); [apply Hact|left|].
    apply works_create; [done|apply cex_table_good]. }
  apply (nsteps_l _ _ _ cex_after); [|constructor].
  exists (Some TRANSACTION_ID_START). split; [done|].
  apply (step_commit cex_m2 cex_created None TRANSACTION_ID_START _ _ cex_result.2); [apply Hact|reflexivity|].
  unfold cex_result. by destruct (CommitTransaction_finish _ _ _ _) as [[m' db'] e].
Qed.

Lemma catalog_snapshot_isolation_witness :
  catalog_view (sys_db cex_after) cex_t2 0 "integers" = None ∧
  catalog_view (sys_db cex_after) (Transaction_new 3 (TRANSACTION_ID_START + 2) 0) 0 "integers" = Some (make_entry 1 cex_table 0).
Proof.
  split; [|vm_compute; reflexivity]. unfold cex_t2.
  rewrite (catalog_snapshot_isolation [0%nat] 2 2 cex_before cex_after 1 (TRANSACTION_ID_START + 1) 0 "integers").
  - vm_compute. reflexivity.
  - apply cex_started.
  - apply cex_committed.
  - by vm_compute.
  - right; left.
  - vm_compute. left.
  - reflexivity.
Defined.

Lemma cex_catalog_inv : catalog_inv cex_catalog [key cex_t1; key cex_t2] [].
Proof.
  change [key cex_t1; key cex_t2] with (([] ++ [key cex_t1]) ++ [key cex_t2]). apply catalog_start.
  - apply catalog_start; [apply Catalog_new_ok|constructor|constructor|by vm_compute].
  - by repeat constructor.
  - constructor.
  - by vm_compute.
Qed.

Lemma cex_created_inv : catalog_inv cex_created [key cex_t1; key cex_t2] [].
Proof.
  refine (proj1 (ok_works cex_catalog 0 [key cex_t1; key cex_t2] [] (key cex_t1) cex_created cex_catalog_inv (list_elem_of_here _ _) _)).
  apply works_create; [done|apply cex_table_good].
Qed.

Lemma catalog_own_writes_witness :
  ∃ id, catalog_view cex_created cex_t1 0 "integers" = Some (make_entry id cex_table 0).
Proof.
  apply (proj1 (catalog_own_writes cex_catalog [key cex_t1; key cex_t2] [] cex_t1 0 cex_catalog_inv (list_elem_of_here _ _))
    cex_table []); [apply cex_table_good|vm_compute; reflexivity].
Defined.

Lemma catalog_write_conflict_witness :
  CreateEntry cex_t2 0 cex_table [] cex_created =
  Raise cex_created (TransactionException "Catalog write-write conflict on create").
Proof.
  apply (proj1 (catalog_write_conflict cex_created [key cex_t1; key cex_t2] [] cex_t2 0 "integers"
    (make_entry 1 cex_table TRANSACTION_ID_START) cex_created_inv ltac:(vm_compute; reflexivity)
    ltac:(by vm_compute) ltac:(by vm_compute))). reflexivity.
Defined.

Lemma catalog_undo_safe_witness :
  undo_of cex_created TRANSACTION_ID_START = [(0%nat, 0%nat, 0%nat)] ∧
  ∃ c', for_each Undo (reverse (undo_of cex_created TRANSACTION_ID_START)) cex_created = Ret c' ().
Proof.
  split; [vm_compute; reflexivity|].
  exact (proj2 (proj1 (catalog_undo_safe cex_created [key cex_t1; key cex_t2] [] cex_created_inv) cex_t1 (list_elem_of_here _ _))).
Defined.

(** ** Changes of names *)

(** The table is committed before [cex_t3] starts; then [cex_t4] renames it. *)
Definition cex_t3 : Transaction := Transaction_new 3 (TRANSACTION_ID_START + 2) 0.
Definition cex_t4 : Transaction := Transaction_new 4 (TRANSACTION_ID_START + 3) 0.
Definition cex_committed_table := CatalogDB_Commit cex_created TRANSACTION_ID_START 2.
Definition cex_renamed := out_state (AlterEntry cex_t4 0 "integers"
  (λ _, Ok (Some (mkEntryData TABLE_ENTRY "numbers" false false 7%nat))) cex_committed_table).
Definition cex_rename_committed := CatalogDB_Commit cex_renamed (transaction_id cex_t4) 5.

(** A rename breaks the snapshots of older transactions: while it is not
    committed they still find the table, once it is they do not, because the
    commit also stamps the version that it replaces and the mapping of the old
    name. *)
Lemma rename_loses_old_snapshots :
  catalog_view cex_renamed cex_t3 0 "integers" = Some (make_entry 1 cex_table 0) ∧
  catalog_view cex_rename_committed cex_t3 0 "integers" = None.
Proof. split; vm_compute; reflexivity. Qed.

(** An uncommitted creation hides a table from other transactions that look it
    up in another case: the new name matches exactly, or the alias is no longer
    the only one. *)
Lemma create_hides_alias :
  let created := out_state (CreateEntry cex_t4 0 (mkEntryData TABLE_ENTRY "INTEGERS" false false 7%nat) []
    cex_committed_table) in
  catalog_view cex_committed_table cex_t3 0 "INTEGERS" = Some (make_entry 1 cex_table 0) ∧
  catalog_view cex_committed_table cex_t3 0 "Integers" = Some (make_entry 1 cex_table 0) ∧
  catalog_view created cex_t3 0 "INTEGERS" = None ∧
  catalog_view created cex_t3 0 "Integers" = None.
Proof. cbv zeta. split; [|split; [|split]]; vm_compute; reflexivity. Qed.

(** A rename that fails because other entries depend on the table leaves its new
    name behind: nothing is in the undo buffer, so that after the rollback
    nobody finds an entry under that name and nobody can create one. *)
Lemma failed_rename_blocks_name :
  let index := mkEntryData INDEX_ENTRY "index" false false 8%nat in
  let numbers := mkEntryData TABLE_ENTRY "numbers" false false 7%nat in
  let indexed := CatalogDB_Commit (out_state (CreateEntry cex_t3 0 index [(0%nat, 0%nat, 1%nat)] cex_committed_table))
    (transaction_id cex_t3) 4 in
  let t := Transaction_new 5 (TRANSACTION_ID_START + 4) 0 in
  let failed := out_state (AlterEntry t 0 "integers" (λ _, Ok (Some numbers)) indexed) in
  let rolled_back := CatalogDB_Rollback failed (transaction_id t) in
  let t' := Transaction_new 6 (TRANSACTION_ID_START + 5) 0 in
  AlterEntry t 0 "integers" (λ _, Ok (Some numbers)) indexed =
    Raise failed (CatalogException "Cannot alter entry because there are entries that depend on it.") ∧
  undo_of failed (transaction_id t) = [] ∧
  catalog_view rolled_back t' 0 "numbers" = None ∧
  CreateEntry t' 0 numbers [] rolled_back = Ret rolled_back false.
Proof. cbv zeta. split; [|split; [|split]]; vm_compute; reflexivity. Qed.

(** A rename onto a name that another entry had before defeats the conflict test
    and breaks the rollbacks.  An entry "y" was created, dropped and committed,
    then an entry "x" was created and committed.  [cex_a] renames "x" to "y" and
    keeps running: the newest version under "y" is its own.  Still [cex_b] can
    create "y": [GetMapping] steps over the mapping of [cex_a], and [CreateEntry]
    tests the old slot of the name, whose newest version is the committed drop.
    The rollback of [cex_b] finds the slot to restore through the newest mapping
    of the name, which is that of [cex_a], and replaces its versions; the rollback of
    [cex_a] then follows a pointer to a version that is gone. *)
Definition cex_y : EntryData (A := nat) := mkEntryData TABLE_ENTRY "y" false false 1%nat.
Definition cex_x : EntryData (A := nat) := mkEntryData TABLE_ENTRY "x" false false 2%nat.
Definition cex_tx (n : Z) : Transaction := Transaction_new n (TRANSACTION_ID_START + n) 0.
Definition cex_a : Transaction := cex_tx 7.
Definition cex_b : Transaction := cex_tx 8.
Definition cex_two_names :=
  let commit n c := CatalogDB_Commit c (TRANSACTION_ID_START + n) (n + 1) in
  let c := commit 1 (out_state (CreateEntry (cex_tx 1) 0 cex_y [] cex_catalog)) in
  let c := commit 3 (out_state (DropEntry 5 (cex_tx 3) 0 "y" false c)) in
  commit 5 (out_state (CreateEntry (cex_tx 5) 0 cex_x [] c)).
Definition cex_renamed_to_y :=
  out_state (AlterEntry cex_a 0 "x" (λ _, Ok (Some (mkEntryData TABLE_ENTRY "y" false false 2%nat))) cex_two_names).
Definition cex_b_created := out_state (CreateEntry cex_b 0 cex_y [] cex_renamed_to_y).
Definition cex_b_rolled_back := CatalogDB_Rollback cex_b_created (transaction_id cex_b).

Lemma rename_escapes_conflicts :
  (∃ e, newest cex_renamed_to_y 0 "y" = Some e ∧ ce_timestamp e = transaction_id cex_a) ∧
  CreateEntry cex_b 0 cex_y [] cex_renamed_to_y = Ret cex_b_created true ∧
  (∃ c, for_each Undo (reverse (undo_of cex_b_created (transaction_id cex_b))) cex_b_created = Ret c ()) ∧
  ∃ c, for_each Undo (reverse (undo_of cex_b_rolled_back (transaction_id cex_a))) cex_b_rolled_back =
    Raise c (UndefinedBehaviour "invalid pointer").
Proof.
  split; [|split; [|split]]; [eexists; split; vm_compute; reflexivity|vm_compute; reflexivity|..];
    eexists; vm_compute; reflexivity.
Qed.
