(* ===== verification/SegmentTree.v ===== *)
(** * Segment trees

    Models src/src/storage/table/segment_tree.cpp: the segments of a column or
    of the version information of a table, as a vector that is searched by row
    number.  The chain of [next] pointers that starts at [root_node] visits the
    same segments in the same order, so a position in the vector stands for a
    pointer to a segment and [next] is the following position.

    Theorem: when the segments lie one after the other, the binary search finds
    the segment of every row and reports the rows behind the end, without
    leaving the vector; it needs no more steps than there are segments. *)

From S2P Require Import Prelude.

(** [SegmentBase]: where a segment starts and how many rows it has. *)
Class Segment (Seg : Type) : Type := {
  seg_start : Seg → nat;
  seg_count : Seg → nat;
}.

Section tree.
Context {Seg : Type} `{!Segment Seg}.
Implicit Types (nodes : list Seg) (seg : Seg).

Definition GetRootSegment nodes : option Seg := head nodes.

(** [nodes.back()] *)
Definition GetLastSegment nodes : option Seg := last nodes.

(** [segment->next] *)
Definition next_segment nodes (i : nat) : option Seg := nodes !! S i.

Definition AppendSegment nodes seg : list Seg := nodes ++ [seg].

Definition Replace (nodes other : list Seg) : list Seg := other.

(** The loop of [GetSegmentIndex]; the bounds are unsigned 64-bit integers. *)
Fixpoint GetSegmentIndex_loop (fuel : nat) nodes (row_number : nat) (lower upper : Z) : res nat :=
  match fuel with
  | O => Throw (UndefinedBehaviour "the search does not end")
  | S fuel =>
      if lower <=? upper then
        let index := u64 (lower + upper) / 2 in
        match nodes !! Z.to_nat index with
        | None => Throw (UndefinedBehaviour "nodes[index] is out of bounds")
        | Some entry =>
            if Z.of_nat row_number <? Z.of_nat (seg_start entry) then
              GetSegmentIndex_loop fuel nodes row_number lower (u64 (index - 1))
            else if u64 (Z.of_nat (seg_start entry) + Z.of_nat (seg_count entry)) <=? Z.of_nat row_number then
              GetSegmentIndex_loop fuel nodes row_number (u64 (index + 1)) upper
            else Ok (Z.to_nat index)
        end
      else Throw (InternalException "Could not find node in column segment tree!")
  end.

Definition GetSegmentIndex nodes (row_number : nat) : res nat :=
  GetSegmentIndex_loop (S (length nodes)) nodes row_number 0 (u64 (Z.of_nat (length nodes) - 1)).

Definition GetSegment nodes (row_number : nat) : res Seg :=
  i ← GetSegmentIndex nodes row_number;
  match nodes !! i with
  | Some seg => Ok seg
  | None => Throw (UndefinedBehaviour "nodes[index] is out of bounds")
  end.

(** ** Segments one after the other *)

Definition seg_end seg : nat := (seg_start seg + seg_count seg)%nat.

Definition contains seg (r : nat) : Prop := (seg_start seg <= r < seg_end seg)%nat.

(** The segments cover the rows from 0 on. *)
Record tree_ok nodes : Prop := {
  tree_first : ∀ seg, nodes !! 0%nat = Some seg → seg_start seg = 0%nat;
  tree_next : ∀ i a b, nodes !! i = Some a → nodes !! S i = Some b → seg_start b = seg_end a;
  tree_nonempty : nodes ≠ [];
  tree_bound : ∀ seg, seg ∈ nodes → Z.of_nat (seg_end seg) < 2 ^ 64;
  tree_length : Z.of_nat (length nodes) < 2 ^ 63;
}.

(** The rows of all segments. *)
Definition tree_rows nodes : nat := default 0%nat (seg_end <$> last nodes).

Lemma u64_id z : 0 <= z < 2 ^ 64 → u64 z = z.
Proof. intros. by apply wrapU_small. Qed.

Lemma tree_order nodes i j a b :
  tree_ok nodes → (i < j)%nat → nodes !! i = Some a → nodes !! j = Some b → (seg_end a <= seg_start b)%nat.
Proof.
  intros Hok Hij Ha. revert b. induction Hij as [|j Hij IH]; intros b Hb.
  - by rewrite (tree_next _ Hok _ _ _ Ha Hb).
  - destruct (lookup_lt_is_Some_2 nodes j) as [c Hc]; [apply lookup_lt_Some in Hb; lia|].
    pose proof (IH c Hc). rewrite (tree_next _ Hok _ _ _ Hc Hb). unfold seg_end in *. lia.
Qed.

(** Every row is in a segment, or behind the last one. *)
Lemma tree_covers nodes r :
  tree_ok nodes → (r < tree_rows nodes)%nat → ∃ i seg, nodes !! i = Some seg ∧ contains seg r.
Proof.
  intros Hok. unfold tree_rows. rewrite last_lookup.
  assert (∀ i seg, nodes !! i = Some seg → (r < seg_end seg)%nat → ∃ i seg, nodes !! i = Some seg ∧ contains seg r) as H.
  { induction i as [|i IH]; intros seg Hi Hlt.
    - exists 0%nat, seg. split; [done|]. split; [|done]. rewrite (tree_first _ Hok seg Hi). lia.
    - destruct (decide (seg_start seg <= r)%nat) as [Hle|Hlt'].
      { exists (S i), seg. split; [done|]. by split. }
      destruct (lookup_lt_is_Some_2 nodes i) as [a Ha]; [apply lookup_lt_Some in Hi; lia|].
      apply (IH a Ha). rewrite <-(tree_next _ Hok _ _ _ Ha Hi). lia. }
  destruct (nodes !! pred (length nodes)) as [seg|] eqn:Hl; cbn; [|lia]. by apply (H _ _ Hl).
Qed.

Lemma contains_unique nodes i j a b r :
  tree_ok nodes → nodes !! i = Some a → nodes !! j = Some b → contains a r → contains b r → i = j.
Proof.
  intros Hok Ha Hb [? ?] [? ?]. destruct (lt_eq_lt_dec i j) as [[Hlt| ->]|Hlt]; [|done|].
  - pose proof (tree_order _ _ _ _ _ Hok Hlt Ha Hb). lia.
  - pose proof (tree_order _ _ _ _ _ Hok Hlt Hb Ha). lia.
Qed.

(** One comparison of the search, for a row that is in segment [i]. *)
Lemma search_found nodes r i seg fuel lower upper :
  tree_ok nodes → nodes !! i = Some seg → contains seg r →
  0 <= lower <= Z.of_nat i → Z.of_nat i <= upper < Z.of_nat (length nodes) →
  (Z.to_nat (upper - lower) < fuel)%nat →
  GetSegmentIndex_loop fuel nodes r lower upper = Ok i.
Proof.
  intros Hok Hi Hc. revert lower upper. induction fuel as [|fuel IH]; intros lower upper Hl Hu Hf; [lia|].
  cbn [GetSegmentIndex_loop]. pose proof (tree_length _ Hok) as Hlen.
  rewrite (proj2 (Z.leb_le lower upper)) by lia. rewrite u64_id by lia.
  set (index := (lower + upper) / 2).
  assert (lower <= index <= upper) as Hx.
  { unfold index. split; [apply Z.div_le_lower_bound; lia|apply Z.div_le_upper_bound; lia]. }
  destruct (lookup_lt_is_Some_2 nodes (Z.to_nat index)) as [e He]; [lia|]. rewrite He.
  pose proof (tree_bound _ Hok e (list_elem_of_lookup_2 _ _ _ He)) as Hb.
  rewrite (u64_id (_ + _)) by (unfold seg_end in Hb; lia). unfold contains, seg_end in *.
  destruct (Z.ltb_spec (Z.of_nat r) (Z.of_nat (seg_start e))) as [Hlt|Hge].
  - assert (i < Z.to_nat index)%nat as Hii.
    { destruct (lt_eq_lt_dec i (Z.to_nat index)) as [[?|Heq]|Hgt]; [done|subst i; simplify_eq; lia|].
      pose proof (tree_order _ _ _ _ _ Hok Hgt He Hi). unfold seg_end in *. lia. }
    rewrite u64_id by lia. apply IH; lia.
  - destruct (Z.leb_spec (Z.of_nat (seg_start e) + Z.of_nat (seg_count e)) (Z.of_nat r)) as [Hle|Hgt].
    + assert (Z.to_nat index < i)%nat as Hii.
      { destruct (lt_eq_lt_dec i (Z.to_nat index)) as [[Hlt|Heq]|?]; [|subst i; simplify_eq; lia|done].
        pose proof (tree_order _ _ _ _ _ Hok Hlt Hi He). unfold seg_end in *. lia. }
      rewrite u64_id by lia. apply IH; lia.
    + f_equal. eapply (contains_unique nodes _ _ e seg r); [done|done|done| |done].
      unfold contains, seg_end. lia.
Qed.

(** The search for a row behind the last segment. *)
Lemma search_behind nodes r fuel lower :
  tree_ok nodes → (tree_rows nodes <= r)%nat →
  0 <= lower <= Z.of_nat (length nodes) → (Z.to_nat (Z.of_nat (length nodes) - lower) < fuel)%nat →
  GetSegmentIndex_loop fuel nodes r lower (Z.of_nat (length nodes) - 1) =
    Throw (InternalException "Could not find node in column segment tree!").
Proof.
  intros Hok Hr. revert lower. induction fuel as [|fuel IH]; intros lower Hl Hf; [lia|].
  cbn [GetSegmentIndex_loop]. pose proof (tree_length _ Hok) as Hlen.
  destruct (Z.leb_spec lower (Z.of_nat (length nodes) - 1)) as [Hle|]; [|done].
  rewrite u64_id by lia. set (index := (lower + (Z.of_nat (length nodes) - 1)) / 2).
  assert (lower <= index <= Z.of_nat (length nodes) - 1) as Hx.
  { unfold index. split; [apply Z.div_le_lower_bound; lia|apply Z.div_le_upper_bound; lia]. }
  destruct (lookup_lt_is_Some_2 nodes (Z.to_nat index)) as [e He]; [lia|]. rewrite He.
  pose proof (tree_bound _ Hok e (list_elem_of_lookup_2 _ _ _ He)) as Hb.
  assert (seg_end e <= r)%nat as Hend.
  { etrans; [|exact Hr]. unfold tree_rows. rewrite last_lookup.
    destruct (lookup_lt_is_Some_2 nodes (pred (length nodes))) as [l Hl']; [lia|]. rewrite Hl'. cbn.
    destruct (decide (Z.to_nat index = pred (length nodes))) as [Heq|Hne]; [rewrite Heq in He; simplify_eq; lia|].
    assert (Z.to_nat index < pred (length nodes))%nat as Hlt by lia.
    pose proof (tree_order _ _ _ _ _ Hok Hlt He Hl').
    unfold seg_end in *. lia. }
  unfold seg_end in *. rewrite (u64_id (_ + _)) by lia.
  rewrite (proj2 (Z.ltb_ge _ _)) by lia. rewrite (proj2 (Z.leb_le _ _)) by lia.
  rewrite u64_id by lia. apply IH; lia.
Qed.

Lemma GetSegmentIndex_found nodes r i seg :
  tree_ok nodes → nodes !! i = Some seg → contains seg r → GetSegmentIndex nodes r = Ok i.
Proof.
  intros Hok Hi Hc. pose proof (lookup_lt_Some _ _ _ Hi). pose proof (tree_length _ Hok).
  unfold GetSegmentIndex. rewrite u64_id by lia. apply (search_found _ _ _ seg); try done; lia.
Qed.

Lemma GetSegmentIndex_behind nodes r :
  tree_ok nodes → (tree_rows nodes <= r)%nat →
  GetSegmentIndex nodes r = Throw (InternalException "Could not find node in column segment tree!").
Proof.
  intros Hok Hr. pose proof (tree_length _ Hok). pose proof (tree_nonempty _ Hok) as Hne.
  unfold GetSegmentIndex. assert (0 < length nodes)%nat by (destruct nodes; [done|cbn; lia]).
  rewrite u64_id by lia. apply search_behind; try done; lia.
Qed.

(** Appending the segment that starts where the last one ends. *)
Lemma AppendSegment_ok nodes seg :
  tree_ok nodes → seg_start seg = tree_rows nodes → Z.of_nat (seg_end seg) < 2 ^ 64 →
  Z.of_nat (S (length nodes)) < 2 ^ 63 → tree_ok (AppendSegment nodes seg).
Proof.
  intros Hok Hs Hb Hl. unfold AppendSegment. split.
  - intros s0. destruct nodes as [|n nodes]; [by pose proof (tree_nonempty _ Hok)|]. apply (tree_first _ Hok).
  - intros i a b Ha Hb'. destruct (decide (S i < length nodes)%nat) as [Hlt|Hge].
    + rewrite lookup_app_l in Ha, Hb' by lia. by apply (tree_next _ Hok i).
    + pose proof (lookup_lt_Some _ _ _ Hb') as Hlt. rewrite length_app in Hlt. cbn in Hlt.
      assert (S i = length nodes) as Heq by lia.
      rewrite Heq, list_lookup_middle in Hb' by done. injection Hb' as <-.
      rewrite lookup_app_l in Ha by lia. rewrite Hs. unfold tree_rows. rewrite last_lookup, <-Heq.
      cbn. by rewrite Ha.
  - by intros [? ?]%app_nil.
  - intros s0 [Hs0| ->%list_elem_of_singleton]%elem_of_app; [by apply (tree_bound _ Hok)|done].
  - rewrite length_app. cbn. lia.
Qed.

Lemma tree_rows_app nodes seg : tree_rows (AppendSegment nodes seg) = seg_end seg.
Proof. unfold tree_rows, AppendSegment. by rewrite last_snoc. Qed.

(** Erasing the segments behind a position. *)
Lemma tree_take_ok nodes i : tree_ok nodes → (i < length nodes)%nat → tree_ok (take (S i) nodes).
Proof.
  intros Hok Hi. split.
  - intros seg [H _]%lookup_take_Some. by apply (tree_first _ Hok).
  - intros j a b [Ha _]%lookup_take_Some [Hb _]%lookup_take_Some. by apply (tree_next _ Hok j).
  - destruct nodes; [cbn in Hi; lia|done].
  - intros seg Hs. apply (tree_bound _ Hok). rewrite <-(take_drop (S i) nodes). apply elem_of_app. by left.
  - rewrite length_take. pose proof (tree_length _ Hok). lia.
Qed.

(** Segments that change without moving. *)
Lemma tree_ok_ext nodes nodes' :
  (λ s, (seg_start s, seg_count s)) <$> nodes = (λ s, (seg_start s, seg_count s)) <$> nodes' →
  tree_ok nodes → tree_ok nodes'.
Proof.
  intros Heq Hok.
  assert (length nodes = length nodes') as Hlen by (by rewrite <-(length_fmap (λ s, (seg_start s, seg_count s))), Heq, length_fmap).
  assert (∀ i b, nodes' !! i = Some b → ∃ a, nodes !! i = Some a ∧ seg_start a = seg_start b ∧ seg_end a = seg_end b) as H.
  { intros i b Hb. assert (((λ s, (seg_start s, seg_count s)) <$> nodes) !! i = Some (seg_start b, seg_count b)) as Hi.
    { by rewrite Heq, list_lookup_fmap, Hb. }
    rewrite list_lookup_fmap in Hi. destruct (nodes !! i) as [a|]; [|done]. exists a. cbn in Hi.
    injection Hi as Hs Hc. unfold seg_end. rewrite Hs, Hc. done. }
  split.
  - intros b (a & Ha & <- & _)%H. by apply (tree_first _ Hok).
  - intros i b c (a & Ha & _ & <-)%H (d & Hd & <- & _)%H. by apply (tree_next _ Hok i).
  - intros ->. apply (tree_nonempty _ Hok). by destruct nodes.
  - intros b (i & (a & Ha & _ & <-)%H)%list_elem_of_lookup. apply (tree_bound _ Hok). by eapply list_elem_of_lookup_2.
  - rewrite <-Hlen. apply (tree_length _ Hok).
Qed.

(** a search in a segment tree ends and is right: it returns the segment of
    every row of the tree, with the 64-bit arithmetic of the code, and throws for
    rows behind the end.  Appending the next segment or erasing the last ones
    keeps the tree in order. *)
Theorem GetSegment_correct nodes r :
  tree_ok nodes →
  (if (r <? tree_rows nodes)%nat then
     ∃ i seg, GetSegmentIndex nodes r = Ok i ∧ nodes !! i = Some seg ∧ GetSegment nodes r = Ok seg ∧ contains seg r
   else GetSegment nodes r = Throw (InternalException "Could not find node in column segment tree!")) ∧
  (∀ seg, seg_start seg = tree_rows nodes → Z.of_nat (seg_end seg) < 2 ^ 64 → Z.of_nat (S (length nodes)) < 2 ^ 63 →
     tree_ok (AppendSegment nodes seg) ∧ tree_rows (AppendSegment nodes seg) = seg_end seg) ∧
  (∀ i, (i < length nodes)%nat → tree_ok (take (S i) nodes)).
Proof.
  intros Hok. split; [|split].
  - destruct (Nat.ltb_spec r (tree_rows nodes)) as [Hlt|Hge].
    + destruct (tree_covers nodes r Hok Hlt) as (i & seg & Hi & Hc). exists i, seg.
      pose proof (GetSegmentIndex_found nodes r i seg Hok Hi Hc) as Hidx. unfold GetSegment. rewrite Hidx. cbn. by rewrite Hi.
    + unfold GetSegment. by rewrite GetSegmentIndex_behind.
  - intros seg Hs Hb Hl. split; [by apply AppendSegment_ok|apply tree_rows_app].
  - intros i Hi. by apply tree_take_ok.
Qed.
End tree.

(** ** Witnesses *)

(** Three segments of different sizes. *)
#[local] Instance PairSegment : Segment (nat * nat) := { seg_start := fst; seg_count := snd }.

Definition ex_segments : list (nat * nat) := [(0, 10); (10, 3); (13, 100)]%nat.

Lemma GetSegment_correct_witness :
  tree_rows ex_segments = 113%nat ∧
  ∃ i seg, GetSegmentIndex ex_segments 12 = Ok i ∧ ex_segments !! i = Some seg ∧ GetSegment ex_segments 12 = Ok seg ∧
    contains seg 12.
Proof.
  split; [reflexivity|]. refine (proj1 (GetSegment_correct ex_segments 12 _)). split.
  - by intros seg [= <-].
  - intros [|[|[|i]]] a b; cbn; intros [= <-] [= <-]; reflexivity.
  - done.
  - intros seg. unfold ex_segments. rewrite !elem_of_cons. intros [->|[->|[->|[]%not_elem_of_nil]]]; by vm_compute.
  - by vm_compute.
Defined.
