(* ===== verification/DataTable.v ===== *)
(** * The rows of a table

    Models the part of src/src/storage/data_table.cpp that decides which rows a
    table has and who sees them: the morsels with the version information, how
    rows are appended, committed, reverted and deleted across morsels, and how
    scans and fetches select the rows of a snapshot.  Row ids are what is
    scanned; the values of the columns are stored elsewhere.

    The specification view of a table is the list of the versions of its rows.
    Theorems: a scan returns exactly the visible rows in order, from whichever
    morsel it starts; each operation refines an operation on the list. *)

From S2P Require Import Prelude Constants Serializer ChunkInfo MorselInfo SegmentTree.

(** Every [MorselInfo] is created with room for [MORSEL_SIZE] rows. *)
#[export] Instance MorselSegment : Segment MorselInfo := {
  seg_start := m_start;
  seg_count _ := MORSEL_SIZE;
}.

(** [DataTable], with the [cardinality] of its [DataTableInfo]. *)
Record DataTable : Set := mkDataTable {
  dt_versions : list MorselInfo;
  dt_total_rows : nat;
  dt_cardinality : Z;
  dt_is_root : bool;
}.

Definition set_versions (versions : list MorselInfo) (dt : DataTable) : DataTable :=
  mkDataTable versions (dt_total_rows dt) (dt_cardinality dt) (dt_is_root dt).

(** A table without persistent data has one empty morsel. *)
Definition DataTable_new : DataTable := mkDataTable [MorselInfo_new 0] 0 0 true.

(** ** Append *)

(** The loop of [InitializeAppend]: fill the last morsel, then add morsels. *)
Fixpoint append_loop (fuel : nat) (id : Z) (versions : list MorselInfo) (current_position remaining : nat)
    : res (list MorselInfo) :=
  match fuel, GetLastSegment versions with
  | O, _ => Throw (UndefinedBehaviour "the loop does not end")
  | _, None => Throw (UndefinedBehaviour "nodes.back() of an empty vector")
  | S fuel, Some last_morsel =>
      let remaining_in_morsel := (MORSEL_SIZE - current_position)%nat in
      let to_write := (remaining `min` remaining_in_morsel)%nat in
      let remaining := (remaining - to_write)%nat in
      let versions :=
        if (0 <? to_write)%nat then
          <[pred (length versions) := MorselInfo_Append last_morsel current_position to_write id]> versions
        else versions in
      if (0 <? remaining)%nat then
        append_loop fuel id
          (AppendSegment versions (MorselInfo_new (m_start last_morsel + MORSEL_SIZE))) 0 remaining
      else Ok versions
  end.

(** Returns the table and the first row of the append. *)
Definition InitializeAppend (dt : DataTable) (transaction : Transaction) (append_count : nat)
    : res (DataTable * nat) :=
  if negb (dt_is_root dt) then
    Throw (TransactionException "Transaction conflict: adding entries to a table that has been altered!")
  else
    let row_start := dt_total_rows dt in
    match GetLastSegment (dt_versions dt) with
    | None => Throw (UndefinedBehaviour "nodes.back() of an empty vector")
    | Some last_morsel =>
        if bool_decide (m_start last_morsel <= row_start <= m_start last_morsel + MORSEL_SIZE)%nat then
          versions ← append_loop (S (S append_count)) (transaction_id transaction) (dt_versions dt)
            (row_start - m_start last_morsel) append_count;
          Ok (mkDataTable versions (row_start + append_count) (dt_cardinality dt) (dt_is_root dt), row_start)
        else Throw (UndefinedBehaviour "row_start is outside of the last morsel")
    end.

(** The loop of [CommitAppend], from the morsel at position [i]. *)
Fixpoint commit_append_loop (fuel : nat) (commit_id : Z) (versions : list MorselInfo) (i : nat)
    (current_row remaining : nat) : res (list MorselInfo) :=
  match fuel, versions !! i with
  | O, _ => Throw (UndefinedBehaviour "the loop does not end")
  | _, None => Throw (UndefinedBehaviour "null morsel")
  | S fuel, Some morsel =>
      let start_in_morsel := (current_row - m_start morsel)%nat in
      let append_count := ((MORSEL_SIZE - start_in_morsel) `min` remaining)%nat in
      let versions := <[i := MorselInfo_CommitAppend morsel commit_id start_in_morsel append_count]> versions in
      let remaining := (remaining - append_count)%nat in
      if (remaining =? 0)%nat then Ok versions
      else commit_append_loop fuel commit_id versions (S i) (current_row + append_count) remaining
  end.

Definition CommitAppend (dt : DataTable) (commit_id : Z) (row_start count : nat) : res DataTable :=
  i ← GetSegmentIndex (dt_versions dt) row_start;
  versions ← commit_append_loop (S count) commit_id (dt_versions dt) i row_start count;
  Ok (mkDataTable versions (dt_total_rows dt) (u64 (dt_cardinality dt + Z.of_nat count)) (dt_is_root dt)).

Definition RevertAppendInternal (dt : DataTable) (start_row count : nat) : res DataTable :=
  if (count =? 0)%nat then Ok dt
  else if negb (dt_total_rows dt =? start_row + count)%nat then Ok dt
  else
    segment_index ← GetSegmentIndex (dt_versions dt) start_row;
    match dt_versions dt !! segment_index with
    | None => Throw (UndefinedBehaviour "nodes[segment_index] is out of bounds")
    | Some info =>
        let versions := take (S segment_index) (dt_versions dt) in
        Ok (mkDataTable (<[segment_index := MorselInfo_RevertAppend info start_row]> versions)
              start_row (Z.of_nat start_row) (dt_is_root dt))
    end.

(** [RevertAppend] of a table without indexes. *)
Definition RevertAppend (dt : DataTable) (start_row count : nat) : res DataTable :=
  RevertAppendInternal dt start_row count.

(** ** Delete *)

(** The rows with the ids [ids] of the base table.  The undo entries are in the
    morsel of the first id. *)
Definition DataTable_Delete (dt : DataTable) (transaction : Transaction) (ids : list nat)
    : out (DataTable * list (nat * DeleteInfo)) unit :=
  match ids with
  | [] => Ret (dt, []) tt
  | first_id :: _ =>
      match GetSegmentIndex (dt_versions dt) first_id with
      | Throw e => Raise (dt, []) e
      | Ok i =>
          match dt_versions dt !! i with
          | None => Raise (dt, []) (UndefinedBehaviour "nodes[index] is out of bounds")
          | Some morsel =>
              match MorselInfo_Delete morsel transaction ids with
              | Ret (m, undo) _ => Ret (set_versions (<[i := m]> (dt_versions dt)) dt, pair i <$> undo) tt
              | Raise (m, undo) e => Raise (set_versions (<[i := m]> (dt_versions dt)) dt, pair i <$> undo) e
              end
          end
      end
  end.

(** [info->vinfo->CommitDelete(id, info->rows, info->count)] for an entry in
    the morsel at position [p.1]. *)
Definition apply_delete (id : Z) (dt : DataTable) (p : nat * DeleteInfo) : DataTable :=
  match dt_versions dt !! p.1 with
  | Some m => set_versions (<[p.1 := DeleteInfo_apply id m p.2]> (dt_versions dt)) dt
  | None => dt
  end.

(** ** Scans *)

(** [TableScanState]; [ts_version_info] is the position of a morsel. *)
Record TableScanState : Set := mkTableScanState {
  ts_current_row : nat;
  ts_base_row : nat;
  ts_max_row : nat;
  ts_version_info : nat;
}.

Definition InitializeScan (dt : DataTable) : TableScanState := mkTableScanState 0 0 (dt_total_rows dt) 0.

Definition InitializeScanWithOffset (dt : DataTable) (start_row end_row : nat) : res TableScanState :=
  i ← GetSegmentIndex (dt_versions dt) start_row;
  Ok (mkTableScanState start_row start_row end_row i).

(** [while (vector_offset >= MORSEL_VECTOR_COUNT)] *)
Fixpoint advance_morsel (fuel : nat) (version_info base_row vector_offset : nat) : nat * nat * nat :=
  match fuel with
  | O => (version_info, base_row, vector_offset)
  | S fuel =>
      if (MORSEL_VECTOR_COUNT <=? vector_offset)%nat then
        advance_morsel fuel (S version_info) (base_row + MORSEL_SIZE) (vector_offset - MORSEL_VECTOR_COUNT)
      else (version_info, base_row, vector_offset)
  end.

(** One step of a scan of the row ids, without filters: the rows of the next
    vector, or [None] behind the last row. *)
Definition ScanBaseTable (dt : DataTable) (transaction : Transaction) (state : TableScanState)
    : res (option (TableScanState * list nat)) :=
  let current_row := ts_current_row state in
  let max_row := ts_max_row state in
  if (max_row <=? current_row)%nat then Ok None
  else
    let max_count := (STANDARD_VECTOR_SIZE `min` (max_row - current_row))%nat in
    let vector_offset := ((current_row - ts_base_row state) / STANDARD_VECTOR_SIZE)%nat in
    let '(version_info, base_row, vector_offset) :=
      advance_morsel vector_offset (ts_version_info state) (ts_base_row state) vector_offset in
    let state' := mkTableScanState (current_row + STANDARD_VECTOR_SIZE) base_row max_row version_info in
    match dt_versions dt !! version_info with
    | None => Throw (UndefinedBehaviour "null version_info")
    | Some morsel =>
        let '(count, valid_sel) :=
          MorselInfo_GetSelVector morsel transaction vector_offset (replicate STANDARD_VECTOR_SIZE 0%nat) max_count in
        if (count =? 0)%nat then Ok (Some (state', []))
        else if (count =? max_count)%nat then Ok (Some (state', seq current_row count))
        else Ok (Some (state', Nat.add current_row <$> take count valid_sel))
    end.

(** A scan that is called until it has no more rows. *)
Fixpoint scan_table (fuel : nat) (dt : DataTable) (transaction : Transaction) (state : TableScanState)
    : res (list nat) :=
  match fuel with
  | O => Throw (UndefinedBehaviour "the scan does not end")
  | S fuel =>
      r ← ScanBaseTable dt transaction state;
      match r with
      | None => Ok []
      | Some (state', rows) => rest ← scan_table fuel dt transaction state'; Ok (rows ++ rest)
      end
  end.

(** Each call moves by one vector. *)
Definition scan_fuel (state : TableScanState) : nat := S (ts_max_row state - ts_current_row state).

Definition scan_from (dt : DataTable) (transaction : Transaction) (state : TableScanState) : res (list nat) :=
  scan_table (scan_fuel state) dt transaction state.

(** [FetchRows]: the row ids that the transaction can use. *)
Fixpoint FetchRows (dt : DataTable) (transaction : Transaction) (row_ids : list nat) : res (list nat) :=
  match row_ids with
  | [] => Ok []
  | row_id :: row_ids =>
      segment ← GetSegment (dt_versions dt) row_id;
      rest ← FetchRows dt transaction row_ids;
      Ok (if MorselInfo_Fetch segment transaction (row_id - m_start segment) then row_id :: rest else rest)
  end.

(** ** Parallel scans *)

(** [ParallelTableScanState], and what a thread is told to scan. *)
Record ParallelTableScanState : Set := mkParallelTableScanState {
  ps_current_row : nat;
  ps_transaction_local_data : bool;
}.

Inductive ScanTask : Set :=
| ScanRows (state : TableScanState)
| ScanLocal.

Definition InitializeParallelScan : ParallelTableScanState := mkParallelTableScanState 0 false.

Definition parallel_scan_vector_count (force_parallelism : bool) : nat :=
  if force_parallelism then 1 else Z.to_nat 100.

Definition MaxThreads (dt : DataTable) (force_parallelism : bool) : nat :=
  (dt_total_rows dt / (STANDARD_VECTOR_SIZE * parallel_scan_vector_count force_parallelism) + 1)%nat.

Definition NextParallelScan (dt : DataTable) (force_parallelism : bool) (state : ParallelTableScanState)
    : res (option (ParallelTableScanState * ScanTask)) :=
  let tuple_count := (STANDARD_VECTOR_SIZE * parallel_scan_vector_count force_parallelism)%nat in
  if (ps_current_row state <? dt_total_rows dt)%nat then
    let next := ((ps_current_row state + tuple_count) `min` dt_total_rows dt)%nat in
    scan_state ← InitializeScanWithOffset dt (ps_current_row state) next;
    Ok (Some (mkParallelTableScanState next (ps_transaction_local_data state), ScanRows scan_state))
  else if negb (ps_transaction_local_data state) then
    Ok (Some (mkParallelTableScanState (ps_current_row state) true, ScanLocal))
  else Ok None.

(** All tasks of a parallel scan. *)
Fixpoint parallel_tasks (fuel : nat) (dt : DataTable) (force_parallelism : bool) (state : ParallelTableScanState)
    : res (list ScanTask) :=
  match fuel with
  | O => Throw (UndefinedBehaviour "the scan does not end")
  | S fuel =>
      r ← NextParallelScan dt force_parallelism state;
      match r with
      | None => Ok []
      | Some (state', task) => rest ← parallel_tasks fuel dt force_parallelism state'; Ok (task :: rest)
      end
  end.

(** A task per [tuple_count] rows, the local data and the end. *)
Definition parallel_scan (dt : DataTable) (force_parallelism : bool) : res (list ScanTask) :=
  parallel_tasks (S (S (S (dt_total_rows dt)))) dt force_parallelism InitializeParallelScan.

(** The rows that the tasks return, one task after the other. *)
Fixpoint run_tasks (dt : DataTable) (transaction : Transaction) (tasks : list ScanTask) : res (list nat) :=
  match tasks with
  | [] => Ok []
  | ScanLocal :: tasks => run_tasks dt transaction tasks
  | ScanRows state :: tasks =>
      rows ← scan_from dt transaction state;
      rest ← run_tasks dt transaction tasks;
      Ok (rows ++ rest)
  end.

(** ** Refinement: the versions of the rows *)

Abbreviation MS := MORSEL_SIZE.

Lemma MS_pos : (0 < MS)%nat.
Proof. rewrite MORSEL_SIZE_eq. lia. Qed.

Lemma MS_vectors : MS = (VS * MORSEL_VECTOR_COUNT)%nat.
Proof. reflexivity. Qed.

#[global] Opaque MORSEL_SIZE.

Section morsels.
Implicit Types (versions : list MorselInfo) (vs : list (Z * Z)).

(** The versions of the rows of morsel [i]. *)
Definition slice (i : nat) vs : list (Z * Z) := take MS (drop (i * MS) vs).

Lemma slice_fmap (f : Z * Z → Z * Z) i vs : slice i (f <$> vs) = f <$> slice i vs.
Proof. unfold slice. by rewrite fmap_take, fmap_drop. Qed.

Record versions_refine versions vs : Prop := {
  vr_tree : tree_ok versions;
  vr_morsels : ∀ i m, versions !! i = Some m → refines m (slice i vs);
  vr_room : (pred (length versions) * MS <= length vs <= length versions * MS)%nat;
}.

Lemma length_slice i vs : length (slice i vs) = ((length vs - i * MS) `min` MS)%nat.
Proof. unfold slice. rewrite length_take, length_drop. lia. Qed.

Lemma lookup_slice i vs r : (r < MS)%nat → slice i vs !! r = vs !! (i * MS + r)%nat.
Proof. intros Hr. unfold slice. rewrite lookup_take_lt by done. apply lookup_drop. Qed.

(** Where a morsel starts. *)
Lemma morsel_start versions i m : tree_ok versions → versions !! i = Some m → m_start m = (i * MS)%nat.
Proof.
  intros Hok. revert m. induction i as [|i IH]; intros m Hm; [by apply (tree_first _ Hok)|].
  destruct (lookup_lt_is_Some_2 versions i) as [a Ha]; [apply lookup_lt_Some in Hm; lia|].
  pose proof (tree_next _ Hok _ _ _ Ha Hm) as Hs. unfold seg_end in Hs. cbn [seg_start seg_count MorselSegment] in Hs.
  rewrite Hs, (IH a Ha). lia.
Qed.

Lemma tree_rows_morsels versions : tree_ok versions → tree_rows versions = (length versions * MS)%nat.
Proof.
  intros Hok. unfold tree_rows. rewrite last_lookup. pose proof (tree_nonempty _ Hok) as Hne.
  destruct versions as [|m0 rest] eqn:Hv; [done|]. rewrite <-Hv in *.
  destruct (lookup_lt_is_Some_2 versions (pred (length versions))) as [m Hm]; [rewrite Hv; cbn; lia|].
  rewrite Hm. cbn. unfold seg_end. cbn [seg_start seg_count MorselSegment]. rewrite (morsel_start _ _ _ Hok Hm).
  assert (0 < length versions)%nat by (rewrite Hv; cbn; lia).
  replace (length versions) with (S (pred (length versions))) at 2 by lia. cbn [Nat.mul]. lia.
Qed.

Lemma div_mod_MS r : r = (r / MS * MS + r mod MS)%nat ∧ (r mod MS < MS)%nat.
Proof.
  pose proof MS_pos. split; [|apply Nat.mod_upper_bound; lia]. rewrite Nat.mul_comm. apply Nat.div_mod_eq.
Qed.

Lemma div_MS i r : (r < MS)%nat → ((i * MS + r) / MS = i)%nat.
Proof. intros Hr. pose proof MS_pos. rewrite Nat.div_add_l by lia. rewrite Nat.div_small by done. lia. Qed.

(** The morsel of a row. *)
Lemma morsel_of_row versions vs r :
  versions_refine versions vs → (r < length vs)%nat →
  ∃ m, versions !! (r / MS)%nat = Some m ∧ m_start m = (r / MS * MS)%nat ∧ GetSegmentIndex versions r = Ok (r / MS)%nat.
Proof.
  intros Hr Hlt. pose proof (vr_room _ _ Hr). destruct (div_mod_MS r) as [Hsp Hmod].
  assert (r / MS < length versions)%nat as Hi by (apply Nat.Div0.div_lt_upper_bound; lia).
  destruct (lookup_lt_is_Some_2 versions (r / MS)%nat Hi) as [m Hm]. exists m.
  pose proof (morsel_start _ _ _ (vr_tree _ _ Hr) Hm) as Hs. split; [done|]. split; [done|].
  apply (GetSegmentIndex_found _ _ _ m (vr_tree _ _ Hr) Hm).
  unfold contains, seg_end. cbn [seg_start seg_count MorselSegment]. lia.
Qed.

(** The version that a morsel has for a row. *)
Lemma version_of_row versions vs r m v :
  versions_refine versions vs → vs !! r = Some v → versions !! (r / MS)%nat = Some m → version m (r mod MS) = v.
Proof.
  intros Hr Hv Hm. destruct (div_mod_MS r) as [Hsp Hmod].
  apply (rf_version _ _ (vr_morsels _ _ Hr _ _ Hm)). rewrite lookup_slice by done. by rewrite <-Hsp.
Qed.

(** An update of one morsel that changes the versions of some of its rows. *)
Lemma versions_refine_insert versions vs i m m' (F : nat → Z * Z → Z * Z) :
  versions_refine versions vs → versions !! i = Some m → m_start m' = m_start m →
  (∀ j r v, j ≠ i → (r < MS)%nat → F (j * MS + r)%nat v = v) →
  refines m' (imap (λ r v, F (i * MS + r)%nat v) (slice i vs)) →
  versions_refine (<[i := m']> versions) (imap F vs).
Proof.
  intros [Ht Hm Hroom] Hi Hs Hout Hrf. split.
  - eapply tree_ok_ext; [|exact Ht]. rewrite list_fmap_insert. symmetry. apply list_insert_id.
    rewrite list_lookup_fmap, Hi. cbn. by rewrite Hs.
  - intros j mj Hj. assert (slice j (imap F vs) = imap (λ r v, F (j * MS + r)%nat v) (slice j vs)) as Hsl.
    { apply list_eq. intros r. rewrite list_lookup_imap. destruct (decide (r < MS)%nat) as [Hr|Hr].
      - rewrite !lookup_slice, list_lookup_imap by done. done.
      - rewrite !lookup_ge_None_2; [done|rewrite length_slice; lia..]. }
    rewrite Hsl. destruct (decide (j = i)) as [->|Hne].
    + rewrite list_lookup_insert_eq in Hj by (by eapply lookup_lt_Some). by simplify_eq.
    + rewrite list_lookup_insert_ne in Hj by done.
      replace (imap _ _) with (slice j vs); [by apply Hm|]. apply list_eq. intros r. rewrite list_lookup_imap.
      destruct (slice j vs !! r) as [v|] eqn:Hv; [|done]. cbn. apply lookup_lt_Some in Hv as Hlt.
      rewrite length_slice in Hlt. by rewrite Hout by (done || lia).
  - by rewrite length_insert, length_imap.
Qed.
End morsels.

(** A table with the versions of its rows. *)
Record table_refines (dt : DataTable) (vs : list (Z * Z)) : Prop := {
  tr_total : dt_total_rows dt = length vs;
  tr_versions : versions_refine (dt_versions dt) vs;
}.

Lemma DataTable_new_refines : table_refines DataTable_new [].
Proof.
  split; [done|]. split; cbn [DataTable_new dt_versions length].
  - split; cbn [lookup list_lookup].
    + by intros m [= <-].
    + by intros [|i].
    + done.
    + intros m ->%list_elem_of_singleton. by vm_compute.
    + by vm_compute.
  - intros i m. destruct i; [|done]. intros [= <-]. apply refines_new.
  - lia.
Qed.

(** ** Scans *)

Section scans.
Implicit Types (dt : DataTable) (vs : list (Z * Z)) (t : Transaction) (state : TableScanState).

(** A snapshot at which scans and fetches agree. *)
Definition scan_snapshot t : Prop := 0 < start_time t ∧ snapshot_ok (start_time t) (transaction_id t).

Definition visible_rows t vs (a n : nat) : list nat := List.filter (λ r, row_visible t (vs !!! r)) (seq a n).

(** The morsel of the state is one that starts at its base row. *)
Record scan_state_ok vs state : Prop := {
  ss_base : ts_base_row state = (ts_version_info state * MS)%nat;
  ss_current : ∃ q, ts_current_row state = (ts_base_row state + q * VS)%nat;
  ss_max : (ts_max_row state <= length vs)%nat;
}.

Lemma advance_morsel_spec fuel vi base off :
  (off / MORSEL_VECTOR_COUNT <= fuel)%nat →
  advance_morsel fuel vi base off =
    ((vi + off / MORSEL_VECTOR_COUNT)%nat, (base + off / MORSEL_VECTOR_COUNT * MS)%nat, (off mod MORSEL_VECTOR_COUNT)%nat).
Proof.
  pose proof MVC_pos as Hpos. revert vi base off. induction fuel as [|fuel IH]; intros vi base off Hf; cbn [advance_morsel].
  - assert (off / MORSEL_VECTOR_COUNT = 0)%nat as H0 by lia. rewrite H0.
    apply Nat.div_small_iff in H0; [|lia]. rewrite Nat.mod_small by done. repeat f_equal; lia.
  - destruct (Nat.leb_spec MORSEL_VECTOR_COUNT off) as [Hle|Hlt].
    + assert (off = (off - MORSEL_VECTOR_COUNT) + 1 * MORSEL_VECTOR_COUNT)%nat as Heq by lia.
      assert (off / MORSEL_VECTOR_COUNT = S ((off - MORSEL_VECTOR_COUNT) / MORSEL_VECTOR_COUNT))%nat as Hd.
      { rewrite Heq at 1. rewrite Nat.div_add by lia. lia. }
      rewrite IH by lia. rewrite Hd. f_equal; [f_equal; [lia|cbn [Nat.mul]; lia]|].
      rewrite Heq at 2. by rewrite Nat.Div0.mod_add.
    + rewrite Nat.div_small, Nat.mod_small by done. repeat f_equal; lia.
Qed.

Lemma seq_shift_fmap a n : Nat.add a <$> seq 0 n = seq a n.
Proof. rewrite fmap_add_seq. by rewrite Nat.add_0_r. Qed.

Lemma filter_fmap_shift (f : nat → bool) a (l : list nat) :
  Nat.add a <$> List.filter (λ i, f (a + i)%nat) l = List.filter f (Nat.add a <$> l).
Proof. induction l as [|x l IH]; [done|]. cbn. destruct (f (a + x)%nat); cbn; by rewrite <-IH. Qed.

(** One vector. *)
Lemma ScanBaseTable_spec dt vs t state :
  table_refines dt vs → scan_snapshot t → scan_state_ok vs state →
  let current := ts_current_row state in
  let max := ts_max_row state in
  if decide (max <= current)%nat then ScanBaseTable dt t state = Ok None
  else ∃ state', ScanBaseTable dt t state = Ok (Some (state', visible_rows t vs current (VS `min` (max - current)))) ∧
    scan_state_ok vs state' ∧ ts_current_row state' = (current + VS)%nat ∧ ts_max_row state' = max.
Proof.
  intros [Htot Href] [Hst Hsnap] [Hbase [q Hq] Hmax] current max. unfold ScanBaseTable. fold current max.
  case_decide as Hd; [by rewrite (proj2 (Nat.leb_le _ _) Hd)|]. rewrite (proj2 (Nat.leb_gt _ _)) by lia.
  pose proof STANDARD_VECTOR_SIZE_pos as HVS. pose proof MVC_pos as Hmvc. pose proof MS_vectors as Hms.
  assert (((current - ts_base_row state) / VS)%nat = q) as ->.
  { fold current in Hq. rewrite Hq. replace (_ - _)%nat with (q * VS)%nat by lia. apply Nat.div_mul. lia. }
  rewrite advance_morsel_spec by (apply Nat.Div0.div_le_upper_bound; nia).
  set (vi := (ts_version_info state + q / MORSEL_VECTOR_COUNT)%nat). set (k := (q mod MORSEL_VECTOR_COUNT)%nat).
  set (base := (ts_base_row state + q / MORSEL_VECTOR_COUNT * MS)%nat).
  assert (k < MORSEL_VECTOR_COUNT)%nat as Hk by (apply Nat.mod_upper_bound; lia).
  assert (base = vi * MS)%nat as Hb by (unfold base, vi; rewrite Hbase; lia).
  assert (current = base + k * VS)%nat as Hc.
  { fold current in Hq. rewrite Hq. unfold base, k. rewrite (Nat.div_mod_eq q MORSEL_VECTOR_COUNT) at 1. nia. }
  assert (k * VS < MS)%nat as HkMS by nia.
  destruct (morsel_of_row _ _ current Href) as (m & Hm & Hms' & _); [lia|].
  assert (current / MS = vi)%nat as Hvi by (rewrite Hc, Hb; by apply div_MS). rewrite Hvi in Hm. rewrite Hm.
  set (mc := (VS `min` (max - current))%nat). set (sel := replicate VS 0%nat).
  assert (mc <= rows_of (length (slice vi vs)) k)%nat as Hmc.
  { unfold rows_of. rewrite length_slice. unfold mc. fold max in Hmax. rewrite <-Hb. nia. }
  pose proof (vr_morsels _ _ Href _ _ Hm) as Hrf.
  destruct (MorselInfo_scan_fetch m (length (slice vi vs)) t k sel mc (rf_ok _ _ Hrf) Hk Hmc Hst Hsnap) as [Hsel Hfetch];
    [apply length_replicate|].
  assert (Nat.add current <$> List.filter (λ i, MorselInfo_Fetch m t (k * VS + i)) (seq 0 mc) = visible_rows t vs current mc) as Hvis.
  { unfold visible_rows. rewrite <-(seq_shift_fmap current mc), <-(filter_fmap_shift _ current). f_equal.
    apply filter_ext_elem. intros i [_ Hi]%elem_of_seq. rewrite Hfetch. f_equal.
    assert (i < VS)%nat by lia. assert (k * VS + i < MS)%nat by nia.
    assert (current + i < length vs)%nat as Hlt by (fold max in Hmax; lia).
    apply (rf_version _ _ Hrf). rewrite lookup_slice by done. rewrite <-Hb.
    replace (base + (k * VS + i))%nat with (current + i)%nat by lia. apply list_lookup_lookup_total_lt, Hlt. }
  assert (0 < mc)%nat as Hmc0 by lia.
  unfold sel_rows in Hsel. destruct (MorselInfo_GetSelVector m t k sel mc) as [count valid_sel]. cbn [fst snd] in Hsel.
  set (state' := mkTableScanState (current + VS) base max vi).
  assert (scan_state_ok vs state') as Hok'.
  { unfold state'. split; cbn [ts_base_row ts_version_info ts_current_row ts_max_row]; [done| |done]. exists (S k). lia. }
  exists state'. split; [|split; [exact Hok'|split; reflexivity]]. rewrite <-Hvis, <-Hsel.
  destruct (Nat.eqb_spec count 0) as [->|Hne].
  - rewrite (proj2 (Nat.eqb_neq 0 mc)) by lia. done.
  - destruct (count =? mc)%nat eqn:Heq; [|done]. apply Nat.eqb_eq in Heq. subst count. by rewrite seq_shift_fmap.
Qed.

Lemma visible_rows_app t vs a n n' : visible_rows t vs a (n + n') = visible_rows t vs a n ++ visible_rows t vs (a + n) n'.
Proof. unfold visible_rows. by rewrite seq_app, List.filter_app. Qed.

Lemma scan_table_spec dt vs t f n state :
  table_refines dt vs → scan_snapshot t → scan_state_ok vs state →
  n = (ts_max_row state - ts_current_row state)%nat → (n < f)%nat →
  scan_table f dt t state = Ok (visible_rows t vs (ts_current_row state) n).
Proof.
  intros Hdt Ht. pose proof STANDARD_VECTOR_SIZE_pos as HVS.
  revert n state. induction f as [|f IH]; intros n state Hs Hn Hf; [lia|]. cbn [scan_table].
  pose proof (ScanBaseTable_spec dt vs t state Hdt Ht Hs) as Hstep. cbn zeta in Hstep. case_decide as Hd.
  - rewrite Hstep. cbn [mbind res_bind]. by replace n with 0%nat by lia.
  - destruct Hstep as (state' & -> & Hs' & Hc' & Hm'). cbn [mbind res_bind].
    rewrite (IH (n - VS)%nat state'); [|done|lia|lia]. cbn [mbind res_bind]. rewrite Hc'.
    replace n with (VS `min` n + (n - VS))%nat at 2 by lia. rewrite visible_rows_app.
    rewrite <-Hn. do 2 f_equal. destruct (decide (VS <= n)%nat) as [Hle|Hgt].
    + f_equal. lia.
    + replace (n - VS)%nat with 0%nat by lia. done.
Qed.

Lemma scan_from_spec dt vs t state :
  table_refines dt vs → scan_snapshot t → scan_state_ok vs state →
  scan_from dt t state = Ok (visible_rows t vs (ts_current_row state) (ts_max_row state - ts_current_row state)).
Proof. intros. apply scan_table_spec; try done. unfold scan_fuel. lia. Qed.

Lemma InitializeScan_ok dt vs : table_refines dt vs → scan_state_ok vs (InitializeScan dt).
Proof.
  intros [Htot _]. split; cbn [InitializeScan ts_base_row ts_version_info ts_current_row ts_max_row]; [done|by exists 0%nat|lia].
Qed.

(** The tasks of a parallel scan from the start of morsel [i] on. *)
Lemma parallel_tasks_spec dt vs t local f i current :
  table_refines dt vs → scan_snapshot t → current = (i * MS)%nat ∨ current = length vs → (current <= length vs)%nat →
  (length vs - current + (if local : bool then 0 else 1) < f)%nat →
  ∃ tasks, parallel_tasks f dt false (mkParallelTableScanState current local) = Ok tasks ∧
    run_tasks dt t tasks = Ok (visible_rows t vs current (length vs - current)).
Proof.
  intros Hdt Ht. pose proof MS_pos as HMS. pose proof Hdt as [Htot Href].
  assert ((VS * parallel_scan_vector_count false)%nat = MS) as Htc by (rewrite MS_vectors; reflexivity).
  revert i current local. induction f as [|f IH]; intros i current local Hcur Hle Hf; [lia|].
  cbn [parallel_tasks]. unfold NextParallelScan. rewrite Htot. cbn [ps_current_row ps_transaction_local_data].
  destruct (Nat.ltb_spec current (length vs)) as [Hlt|Hge].
  - destruct Hcur as [Hcur|]; [|lia]. rewrite Htc.
    destruct (morsel_of_row _ _ current Href Hlt) as (m & Hm & Hms & Hidx).
    assert (current / MS = i)%nat as Hi by (rewrite Hcur; apply Nat.div_mul; lia). rewrite Hi in *.
    unfold InitializeScanWithOffset. rewrite Hidx. cbn [mbind res_bind].
    set (next := ((current + MS) `min` length vs)%nat).
    destruct (IH (S i) next local) as (tasks & -> & Hrun); [lia|lia|lia|]. cbn [mbind res_bind].
    eexists. split; [reflexivity|]. cbn [run_tasks].
    rewrite (scan_from_spec dt vs t); [|done|done|].
    + cbn [ts_current_row ts_max_row mbind res_bind]. rewrite Hrun. cbn [mbind res_bind]. f_equal.
      replace (length vs - current)%nat with ((next - current) + (length vs - next))%nat by lia.
      rewrite visible_rows_app. do 2 f_equal. lia.
    + split; cbn [ts_base_row ts_version_info ts_current_row ts_max_row]; [done|exists 0%nat; lia|lia].
  - assert (current = length vs) as Heq by lia. destruct local; cbn [negb].
    + cbn [mbind res_bind]. eexists. split; [reflexivity|]. cbn [run_tasks]. by replace (length vs - current)%nat with 0%nat by lia.
    + cbn [mbind res_bind]. destruct (IH i current true) as (tasks & -> & Hrun); [auto|lia|lia|]. cbn [mbind res_bind].
      eexists. split; [reflexivity|]. exact Hrun.
Qed.

Lemma FetchRows_spec dt vs t ids :
  table_refines dt vs → scan_snapshot t → Forall (λ r, r < length vs)%nat ids →
  FetchRows dt t ids = Ok (List.filter (λ r, row_visible t (vs !!! r)) ids).
Proof.
  intros [Htot Href] [Hst Hsnap]. induction 1 as [|r ids Hr _ IH]; [done|]. cbn [FetchRows].
  destruct (morsel_of_row _ _ r Href Hr) as (m & Hm & Hms & Hidx). unfold GetSegment. rewrite Hidx.
  cbn [mbind res_bind]. rewrite Hm, IH. cbn [mbind res_bind List.filter]. rewrite Fetch_version by done.
  destruct (div_mod_MS r) as [Hsp _]. rewrite Hms. replace (r - r / MS * MS)%nat with (r mod MS)%nat by lia.
  by rewrite (version_of_row _ _ _ _ _ Href (list_lookup_lookup_total_lt _ _ Hr) Hm).
Qed.
End scans.

(** ** Appending

    [cut_ok versions x]: no constant info has rows on both sides of row [x], so
    that the table can be cut there. *)

(** [MAX_ROW_ID]: the rows of local storage have ids from here on. *)
Definition MAX_ROW_ID : Z := 4611686018427388000.

Section appending.
Implicit Types (versions : list MorselInfo) (vs : list (Z * Z)) (p : nat * DeleteInfo).

Definition cut_ok versions (x : nat) : Prop := ∀ i m k c,
  versions !! i = Some m → MorselInfo_GetChunkInfo m k = Some (ConstantInfo c) →
  (x <= i * MS + k * VS ∨ i * MS + S k * VS <= x)%nat.

(** An undo entry of a deletion whose info still exists. *)
Definition dentry_ok versions p : Prop := ∃ m, versions !! p.1 = Some m ∧ entry_ok m p.2.

(** What appending behind row [x] does to other things. *)
Record append_frame versions versions' (x : nat) : Prop := {
  af_entries : ∀ p, dentry_ok versions p → dentry_ok versions' p;
  af_constants : ∀ i m' k c, versions' !! i = Some m' → MorselInfo_GetChunkInfo m' k = Some (ConstantInfo c) →
    (∃ m, versions !! i = Some m ∧ MorselInfo_GetChunkInfo m k = Some (ConstantInfo c)) ∨ (x <= i * MS + k * VS)%nat;
}.

Lemma append_frame_refl versions x : append_frame versions versions x.
Proof. split; [done|]. intros i m' k c Hi Hk. left. eauto. Qed.

Lemma append_frame_trans v1 v2 v3 x y :
  append_frame v1 v2 x → append_frame v2 v3 y → (x <= y)%nat → append_frame v1 v3 x.
Proof.
  intros [E1 C1] [E2 C2] Hxy. split; [auto|]. intros i m' k c Hi Hk.
  destruct (C2 i m' k c Hi Hk) as [(m & Hm & Hk')|?]; [by apply (C1 i m)|right; lia].
Qed.

Lemma append_frame_cut versions versions' x y :
  append_frame versions versions' x → (y <= x)%nat → cut_ok versions y → cut_ok versions' y.
Proof.
  intros [_ C] Hy Hcut i m' k c Hi Hk. destruct (C i m' k c Hi Hk) as [(m & Hm & Hk')|?]; [by eapply Hcut|left; lia].
Qed.

Lemma GetChunkInfo_lt m k info :
  length (root_infos m) = MORSEL_VECTOR_COUNT → MorselInfo_GetChunkInfo m k = Some info → (k < MORSEL_VECTOR_COUNT)%nat.
Proof.
  intros Hl. unfold MorselInfo_GetChunkInfo, root_infos in *. destruct (m_root m) as [infos|]; [|done]. cbn in Hl.
  destruct (infos !! k) eqn:Hk; [|done]. intros _. apply lookup_lt_Some in Hk. lia.
Qed.

(** The end of the table is between constant infos. *)
Lemma cut_ok_end versions vs : versions_refine versions vs → cut_ok versions (length vs).
Proof.
  intros Hr i m k c Hi Hk. pose proof (rf_ok _ _ (vr_morsels _ _ Hr _ _ Hi)) as Hok.
  pose proof (GetChunkInfo_lt _ _ _ (m_len _ _ Hok) Hk) as Hlt. pose proof (m_infos _ _ Hok k Hlt) as Hinfo.
  rewrite Hk in Hinfo. cbn [info_ok] in Hinfo. unfold rows_of in Hinfo. rewrite length_slice in Hinfo.
  pose proof STANDARD_VECTOR_SIZE_pos. right. lia.
Qed.

Lemma Append_frame m n count id :
  MorselInfo_ok m n → (0 < count)%nat → (n + count <= MS)%nat →
  m_start (MorselInfo_Append m n count id) = m_start m ∧
  (∀ e, entry_ok m e → entry_ok (MorselInfo_Append m n count id) e) ∧
  ∀ k c, MorselInfo_GetChunkInfo (MorselInfo_Append m n count id) k = Some (ConstantInfo c) →
    MorselInfo_GetChunkInfo m k = Some (ConstantInfo c) ∨ (n <= k * VS)%nat.
Proof.
  intros Hok Hc Hle. destruct (MorselInfo_Append_mapped m n count id Hok Hc Hle) as (Hs & Hl & Hg).
  pose proof STANDARD_VECTOR_SIZE_pos as HVS. split; [done|]. split.
  - intros e (Hk & Hrows & v & Hv & Hany). split; [done|]. split; [done|]. rewrite Hg, Hv.
    pose proof (m_infos _ _ Hok _ Hk) as Hinfo. rewrite Hv in Hinfo. destruct Hinfo as (Hn & _ & _).
    case_decide as Hin; [|by exists v]. unfold append_info.
    rewrite (vector_part_rows n (n + count)) by lia.
    rewrite (proj2 (Nat.eqb_neq _ _)) by done. cbn [andb]. eexists. split; [reflexivity|].
    unfold ChunkVectorInfo_Append. by destruct (if (_ =? 0)%nat then _ else _).
  - intros k c. rewrite Hg. case_decide as Hin; [|by left]. unfold append_info.
    rewrite (vector_part_rows n (n + count)) by lia.
    destruct (Nat.eqb_spec (rows_of n k) 0) as [H0|_]; cbn [andb].
    + intros _. right. unfold rows_of in H0. lia.
    + destruct (MorselInfo_GetChunkInfo m k) as [[c'|v]|]; [|done..]. by left.
Qed.

Lemma slice_append_other i n id vs :
  (S i * MS <= length vs)%nat → slice i (append_versions n id vs) = slice i vs.
Proof.
  intros Hi. unfold slice, append_versions. rewrite drop_app_le by lia. rewrite take_app_le; [done|].
  rewrite length_drop. lia.
Qed.

(** Writing to the last morsel. *)
Lemma append_last versions vs m n id :
  versions_refine versions vs → versions !! pred (length versions) = Some m →
  let pos := (length vs - pred (length versions) * MS)%nat in
  (0 < n)%nat → (pos + n <= MS)%nat →
  let versions' := <[pred (length versions) := MorselInfo_Append m pos n id]> versions in
  versions_refine versions' (append_versions n id vs) ∧ append_frame versions versions' (length vs).
Proof.
  intros Hr Hm pos Hn Hle versions'. pose proof (vr_room _ _ Hr) as Hroom.
  pose proof (vr_morsels _ _ Hr _ _ Hm) as Hrf. set (l := pred (length versions)) in *.
  assert (length versions = S l) as Hlen by (apply lookup_lt_Some in Hm; lia). rewrite Hlen in Hroom.
  assert (length (slice l vs) = pos) as Hpos by (rewrite length_slice; lia).
  destruct (Append_frame m pos n id) as (Hs & He & Hc); [rewrite <-Hpos; apply Hrf|done|done|].
  assert (slice l (append_versions n id vs) = append_versions n id (slice l vs)) as Hsl.
  { unfold slice, append_versions. rewrite drop_app_le by lia. rewrite take_app_ge by (rewrite length_drop; lia).
    rewrite (take_ge (drop _ vs)) by (rewrite length_drop; lia). f_equal.
    apply take_ge. rewrite length_replicate, length_drop. lia. }
  split; [split|split].
  - eapply tree_ok_ext; [|apply (vr_tree _ _ Hr)]. unfold versions'. rewrite list_fmap_insert. symmetry.
    apply list_insert_id. rewrite list_lookup_fmap, Hm. cbn [fmap option_fmap option_map seg_start seg_count MorselSegment].
    by rewrite Hs.
  - intros j mj Hj. unfold versions' in Hj. destruct (decide (j = l)) as [->|Hne].
    + rewrite list_lookup_insert_eq in Hj by lia. injection Hj as <-. rewrite Hsl, <-Hpos.
      apply refines_Append; [done|done|lia].
    + rewrite list_lookup_insert_ne in Hj by done. rewrite slice_append_other; [by apply Hr|].
      apply lookup_lt_Some in Hj. assert (S j <= l)%nat by lia. nia.
  - unfold versions', append_versions. rewrite length_insert, length_app, length_replicate, Hlen. lia.
  - intros [j e] (mj & Hj & Hej). unfold versions'. destruct (decide (j = l)) as [->|Hne].
    + cbn in Hj. rewrite Hm in Hj. injection Hj as <-. eexists. cbn [fst snd].
      rewrite list_lookup_insert_eq by lia. split; [reflexivity|by apply He].
    + exists mj. cbn [fst snd] in *. by rewrite list_lookup_insert_ne.
  - intros j mj k c Hj Hk. unfold versions' in Hj. destruct (decide (j = l)) as [->|Hne].
    + rewrite list_lookup_insert_eq in Hj by lia. injection Hj as <-.
      destruct (Hc k c Hk) as [Hk'|Hk']; [left; eauto|right; lia].
    + rewrite list_lookup_insert_ne in Hj by done. left. eauto.
Qed.

(** Adding a morsel to a table that is full. *)
Lemma append_morsel versions vs :
  versions_refine versions vs → length vs = (length versions * MS)%nat → Z.of_nat (length vs) <= MAX_ROW_ID →
  let versions' := AppendSegment versions (MorselInfo_new (length versions * MS)) in
  versions_refine versions' vs ∧ append_frame versions versions' (length vs).
Proof.
  intros Hr Hlen Hmax versions'. pose proof MS_pos as HMS. pose proof (vr_tree _ _ Hr) as Ht.
  assert (Z.of_nat (length versions) <= Z.of_nat (length vs)) as Hle by nia.
  assert (Z.of_nat MS = 102400) as HMSv by (rewrite MORSEL_SIZE_eq; lia). unfold MAX_ROW_ID in Hmax.
  split; [split|split].
  - apply AppendSegment_ok; [done|by rewrite tree_rows_morsels| |lia].
    unfold seg_end. cbn [seg_start seg_count MorselSegment m_start MorselInfo_new]. rewrite <-Hlen. lia.
  - intros j mj Hj. unfold versions', AppendSegment in Hj. destruct (decide (j < length versions)%nat) as [Hlt|Hge].
    + rewrite lookup_app_l in Hj by done. by apply Hr.
    + assert (j = length versions) as ->.
      { apply lookup_lt_Some in Hj. rewrite length_app in Hj. cbn in Hj. lia. }
      rewrite list_lookup_middle in Hj by done. injection Hj as <-.
      assert (slice (length versions) vs = []) as ->; [|apply refines_new].
      apply length_zero_iff_nil. rewrite length_slice. lia.
  - unfold versions', AppendSegment. rewrite length_app. cbn [length]. replace (pred _) with (length versions) by lia. lia.
  - intros [j e] (mj & Hj & Hej). exists mj. split; [|done]. cbn [fst] in *. unfold versions', AppendSegment.
    rewrite lookup_app_l; [done|by eapply lookup_lt_Some].
  - intros j mj k c Hj Hk. unfold versions', AppendSegment in Hj. destruct (decide (j < length versions)%nat) as [Hlt|Hge].
    + rewrite lookup_app_l in Hj by done. left. eauto.
    + right. nia.
Qed.

Lemma append_versions_app a b id vs : append_versions a id (append_versions b id vs) = append_versions (b + a) id vs.
Proof. unfold append_versions. by rewrite replicate_add, app_assoc. Qed.

Lemma length_append_versions n id vs : length (append_versions n id vs) = (length vs + n)%nat.
Proof. unfold append_versions. by rewrite length_app, length_replicate. Qed.

Lemma append_loop_spec fuel id versions vs remaining :
  versions_refine versions vs → Z.of_nat (length vs + remaining) <= MAX_ROW_ID →
  let pos := (length vs - pred (length versions) * MS)%nat in
  (remaining + (if pos =? MS then 1 else 0) < fuel)%nat →
  ∃ versions', append_loop fuel id versions pos remaining = Ok versions' ∧
    versions_refine versions' (append_versions remaining id vs) ∧ append_frame versions versions' (length vs).
Proof.
  pose proof MS_pos as HMS. revert versions vs remaining.
  induction fuel as [|fuel IH]; intros versions vs remaining Hr Hmax pos Hf; [lia|].
  pose proof (tree_nonempty _ (vr_tree _ _ Hr)) as Hne. pose proof (vr_room _ _ Hr) as Hroom.
  destruct (lookup_lt_is_Some_2 versions (pred (length versions))) as [m Hm]; [destruct versions; [done|cbn; lia]|].
  pose proof (lookup_lt_Some _ _ _ Hm) as Hlt.
  assert (pred (length versions) * MS + MS = length versions * MS)%nat as Hmul by nia.
  assert (pos <= MS)%nat as Hpos by lia.
  cbn [append_loop]. unfold GetLastSegment. rewrite last_lookup, Hm.
  rewrite (morsel_start _ _ _ (vr_tree _ _ Hr) Hm), Hmul.
  set (n := (remaining `min` (MS - pos))%nat).
  set (v1 := if (0 <? n)%nat then _ else versions).
  assert (versions_refine v1 (append_versions n id vs) ∧ append_frame versions v1 (length vs) ∧
    length v1 = length versions) as (Hr1 & Hf1 & Hl1).
  { unfold v1. destruct (Nat.ltb_spec 0 n) as [Hn|Hn].
    - destruct (append_last versions vs m n id Hr Hm) as [? ?]; [done|lia|]. split_and!; [done|done|apply length_insert].
    - assert (n = 0%nat) as -> by lia. unfold append_versions. rewrite app_nil_r.
      split_and!; [done|apply append_frame_refl|done]. }
  destruct (Nat.ltb_spec 0 (remaining - n)) as [Hrem|Hrem].
  - assert (length (append_versions n id vs) = length v1 * MS)%nat as Hfull by (rewrite length_append_versions, Hl1; lia).
    destruct (append_morsel v1 (append_versions n id vs)) as [Hr2 Hf2]; [done|done|rewrite length_append_versions; lia|].
    rewrite <-Hl1. set (v2 := AppendSegment v1 (MorselInfo_new (length v1 * MS))) in *.
    assert (length v2 = S (length v1)) as Hl2 by (unfold v2, AppendSegment; rewrite length_app; cbn; lia).
    assert (0 = length (append_versions n id vs) - pred (length v2) * MS)%nat as H0 by (rewrite Hl2; cbn [pred]; lia).
    destruct (IH v2 (append_versions n id vs) (remaining - n)%nat Hr2) as (v3 & Heq & Hr3 & Hf3).
    { rewrite length_append_versions. lia. }
    { rewrite <-H0. destruct (Nat.eqb_spec 0 MS); [lia|]. revert Hf. unfold n. destruct (Nat.eqb_spec pos MS); lia. }
    rewrite <-H0 in Heq. exists v3. split; [done|]. rewrite append_versions_app in Hr3.
    replace (n + (remaining - n))%nat with remaining in Hr3 by lia. split; [done|].
    rewrite length_append_versions in Hf2, Hf3.
    eapply append_frame_trans; [exact Hf1|eapply append_frame_trans; [exact Hf2|exact Hf3|lia]|lia].
  - exists v1. split; [done|]. replace remaining with n by lia. done.
Qed.

Lemma InitializeAppend_spec dt vs t n :
  table_refines dt vs → dt_is_root dt = true → Z.of_nat (length vs + n) <= MAX_ROW_ID →
  ∃ dt', InitializeAppend dt t n = Ok (dt', length vs) ∧
    table_refines dt' (append_versions n (transaction_id t) vs) ∧
    append_frame (dt_versions dt) (dt_versions dt') (length vs) ∧
    dt_cardinality dt' = dt_cardinality dt ∧ dt_is_root dt' = true.
Proof.
  intros [Htot Hr] Hroot Hmax. pose proof MS_pos as HMS. unfold InitializeAppend. rewrite Hroot. cbn [negb].
  pose proof (tree_nonempty _ (vr_tree _ _ Hr)) as Hne. pose proof (vr_room _ _ Hr) as Hroom.
  destruct (lookup_lt_is_Some_2 (dt_versions dt) (pred (length (dt_versions dt)))) as [m Hm].
  { destruct (dt_versions dt); [done|cbn; lia]. }
  pose proof (lookup_lt_Some _ _ _ Hm) as Hlt. unfold GetLastSegment. rewrite last_lookup, Hm.
  rewrite (morsel_start _ _ _ (vr_tree _ _ Hr) Hm), Htot.
  rewrite bool_decide_true by nia.
  destruct (append_loop_spec (S (S n)) (transaction_id t) (dt_versions dt) vs n Hr Hmax) as (v' & -> & Hr' & Hf').
  { destruct (_ =? _)%nat; lia. }
  cbn [mbind res_bind]. eexists. split; [reflexivity|]. split_and!; try done.
  split; cbn [dt_total_rows dt_versions]; [by rewrite length_append_versions|done].
Qed.
End appending.

(** ** Marking deleted rows *)

Section deleting.
Implicit Types (versions : list MorselInfo) (vs : list (Z * Z)) (p : nat * DeleteInfo).

(** The rows of an undo entry of a deletion. *)
Definition dentry_rows p : list nat := Nat.add (p.1 * MS) <$> DeleteInfo_rows p.2.

Lemma row_of_morsel i x j r :
  (x < MS)%nat → (r < MS)%nat → (i * MS + x = j * MS + r)%nat → i = j ∧ x = r.
Proof.
  intros Hx Hr Heq. pose proof (div_MS i x Hx) as H1. pose proof (div_MS j r Hr) as H2. rewrite Heq in H1. lia.
Qed.

Lemma DeleteInfo_rows_lt m e r : entry_ok m e → r ∈ DeleteInfo_rows e → (r < MS)%nat.
Proof.
  intros (Hk & Hrows & _) (x & -> & Hx)%list_elem_of_fmap. rewrite Forall_forall in Hrows. by apply row_lt; [|apply Hrows].
Qed.

Lemma elem_of_dentry_rows m i e j r :
  entry_ok m e → (r < MS)%nat → (j * MS + r)%nat ∈ dentry_rows (i, e) ↔ j = i ∧ r ∈ DeleteInfo_rows e.
Proof.
  intros He Hr. unfold dentry_rows. cbn [fst snd]. rewrite list_elem_of_fmap. split.
  - intros (x & Heq & Hx). pose proof (DeleteInfo_rows_lt _ _ _ He Hx) as Hlt. symmetry in Heq.
    destruct (row_of_morsel i x j r Hlt Hr Heq) as [-> ->]. done.
  - intros [-> Hin]. by exists r.
Qed.

Lemma apply_entry_refine id versions vs i m e :
  versions_refine versions vs → versions !! i = Some m → entry_ok m e →
  (∀ r, r ∈ dentry_rows (i, e) → (r < length vs)%nat) →
  versions_refine (<[i := DeleteInfo_apply id m e]> versions) (delete_versions (dentry_rows (i, e)) id vs).
Proof.
  intros Hr Hi He Hrows. pose proof (vr_morsels _ _ Hr _ _ Hi) as Hrf.
  assert (∀ r, r ∈ DeleteInfo_rows e → (r < length (slice i vs))%nat) as Hlt.
  { intros r Hin. pose proof (DeleteInfo_rows_lt _ _ _ He Hin) as HMS. rewrite length_slice.
    pose proof (Hrows (i * MS + r)%nat ltac:(by apply (elem_of_dentry_rows m))). lia. }
  destruct (DeleteInfo_apply_spec m _ id e (rf_ok _ _ Hrf) He Hlt) as (Hok & _ & Hver).
  apply (versions_refine_insert versions vs i m).
  - done.
  - done.
  - unfold DeleteInfo_apply. by destruct (MorselInfo_GetChunkInfo m (di_vector e)) as [[]|].
  - intros j r v Hne HrMS. rewrite decide_False; [done|]. rewrite (elem_of_dentry_rows m) by done. naive_solver.
  - apply refines_imap; [done|]. intros r v Hv. pose proof (refines_lt _ _ _ _ Hrf Hv) as [_ HrMS].
    rewrite Hver by done. rewrite (rf_version _ _ Hrf _ _ Hv). apply decide_ext.
    rewrite (elem_of_dentry_rows m) by done. naive_solver.
Qed.

(** What marking rows does to other things. *)
Lemma DeleteInfo_apply_info id m e k :
  (di_vector e < MORSEL_VECTOR_COUNT)%nat → length (root_infos m) = MORSEL_VECTOR_COUNT →
  match MorselInfo_GetChunkInfo (DeleteInfo_apply id m e) k, MorselInfo_GetChunkInfo m k with
  | Some (VectorInfo v'), Some (VectorInfo v) =>
      inserted v' = inserted v ∧ insert_id v' = insert_id v ∧ same_inserted_id v' = same_inserted_id v ∧
      any_deleted v' = any_deleted v
  | info', info => info' = info
  end.
Proof.
  intros Hlt Hlen. unfold DeleteInfo_apply. destruct (MorselInfo_GetChunkInfo m (di_vector e)) as [[c|v]|] eqn:Hv.
  2: { rewrite GetChunkInfo_set_info by done. case_decide as Hk; [subst k; by rewrite Hv|].
    by destruct (MorselInfo_GetChunkInfo m k) as [[]|]. }
  all: by destruct (MorselInfo_GetChunkInfo m k) as [[]|].
Qed.

(** Replacing a morsel by one with the same constants that keeps the entries. *)
Lemma replace_frame versions i m m' :
  versions !! i = Some m → (∀ e, entry_ok m e → entry_ok m' e) →
  (∀ k c', MorselInfo_GetChunkInfo m' k = Some (ConstantInfo c') →
     ∃ c, MorselInfo_GetChunkInfo m k = Some (ConstantInfo c)) →
  (∀ p, dentry_ok versions p → dentry_ok (<[i := m']> versions) p) ∧
  (∀ x, cut_ok versions x → cut_ok (<[i := m']> versions) x).
Proof.
  intros Hi He Hc. pose proof (lookup_lt_Some _ _ _ Hi) as Hlt. split.
  - intros [j e] (mj & Hj & Hej). cbn [fst snd] in *. destruct (decide (j = i)) as [->|Hne].
    + exists m'. cbn [fst snd]. rewrite list_lookup_insert_eq by done. rewrite Hi in Hj. injection Hj as <-. auto.
    + exists mj. cbn [fst snd]. by rewrite list_lookup_insert_ne.
  - intros x Hcut j mj k c Hj Hk. destruct (decide (j = i)) as [->|Hne].
    + rewrite list_lookup_insert_eq in Hj by done. injection Hj as <-. destruct (Hc k c Hk) as [c' Hk']. by eapply Hcut.
    + rewrite list_lookup_insert_ne in Hj by done. by eapply Hcut.
Qed.

Lemma apply_entry_frame id versions i m e :
  versions !! i = Some m → (di_vector e < MORSEL_VECTOR_COUNT)%nat → length (root_infos m) = MORSEL_VECTOR_COUNT →
  (∀ p, dentry_ok versions p → dentry_ok (<[i := DeleteInfo_apply id m e]> versions) p) ∧
  (∀ x, cut_ok versions x → cut_ok (<[i := DeleteInfo_apply id m e]> versions) x).
Proof.
  intros Hi Hlt Hlen. apply (replace_frame _ _ m); [done| |].
  - intros e' (Hk' & Hrows' & v & Hv & Hany). split; [done|]. split; [done|].
    pose proof (DeleteInfo_apply_info id m e (di_vector e') Hlt Hlen) as Hinfo. rewrite Hv in Hinfo.
    destruct (MorselInfo_GetChunkInfo (DeleteInfo_apply id m e) (di_vector e')) as [[c'|v']|]; [done| |done].
    exists v'. split; [done|]. destruct Hinfo as (_ & _ & _ & ->). done.
  - intros k c' Hk'. pose proof (DeleteInfo_apply_info id m e k Hlt Hlen) as Hinfo. rewrite Hk' in Hinfo.
    destruct (MorselInfo_GetChunkInfo m k) as [[c|v]|]; [eauto|done|done].
Qed.
End deleting.

(** ** Theorems *)

(** C31: all ways to read a table agree.  A sequential scan, a fetch of all row
    ids and a parallel scan that is not forced, whose tasks cover a morsel each,
    return exactly the ids of the rows that the transaction may see, in order.
    With forced parallelism they do not: see [forced_parallel_scan_differs]. *)
Theorem table_scans_agree dt vs t :
  table_refines dt vs → scan_snapshot t →
  let visible := List.filter (λ r, row_visible t (vs !!! r)) (seq 0 (length vs)) in
  scan_from dt t (InitializeScan dt) = Ok visible ∧
  FetchRows dt t (seq 0 (length vs)) = Ok visible ∧
  ∃ tasks, parallel_scan dt false = Ok tasks ∧ run_tasks dt t tasks = Ok visible.
Proof.
  intros Hdt Ht visible. pose proof (tr_total _ _ Hdt) as Htot. split_and!.
  - rewrite (scan_from_spec dt vs t _ Hdt Ht (InitializeScan_ok _ _ Hdt)). cbn [InitializeScan ts_current_row ts_max_row].
    by rewrite Htot, Nat.sub_0_r.
  - apply FetchRows_spec; [done|done|]. apply Forall_forall. intros r [_ Hr]%elem_of_seq. lia.
  - destruct (parallel_tasks_spec dt vs t false (S (S (S (dt_total_rows dt)))) 0 0 Hdt Ht) as (tasks & Htasks & Hrun); [auto|lia|lia|].
    exists tasks. rewrite Nat.sub_0_r in Hrun. done.
Qed.

(** ** Witnesses *)

(** Two vectors of rows that are committed. *)
Definition ex_table : DataTable :=
  match InitializeAppend DataTable_new (Transaction_new 0 7 0) (Z.to_nat 2000) with Ok (dt, _) => dt | Throw _ => DataTable_new end.

Definition ex_reader : Transaction := Transaction_new 9 (TRANSACTION_ID_START + 1) 0.

Lemma ex_table_refines : table_refines ex_table (append_versions (Z.to_nat 2000) 7 []).
Proof.
  unfold ex_table. destruct (InitializeAppend_spec DataTable_new [] (Transaction_new 0 7 0) (Z.to_nat 2000))
    as (dt & -> & Hdt & _); [apply DataTable_new_refines|done|by vm_compute|exact Hdt].
Qed.

Lemma table_scans_agree_witness :
  length (append_versions (Z.to_nat 2000) 7 []) = Z.to_nat 2000 ∧
  scan_from ex_table ex_reader (InitializeScan ex_table) = Ok (seq 0 (Z.to_nat 2000)) ∧
  ∃ tasks, parallel_scan ex_table false = Ok tasks ∧ run_tasks ex_table ex_reader tasks = Ok (seq 0 (Z.to_nat 2000)).
Proof.
  split; [by vm_compute|].
  destruct (table_scans_agree ex_table _ ex_reader ex_table_refines) as (Hscan & _ & tasks & Ht & Hrun).
  { split; [by vm_compute|]. split; by vm_compute. }
  assert (List.filter (λ r, row_visible ex_reader (append_versions (Z.to_nat 2000) 7 [] !!! r))
    (seq 0 (length (append_versions (Z.to_nat 2000) 7 []))) = seq 0 (Z.to_nat 2000)) as Heq by (vm_compute; reflexivity).
  rewrite Heq in Hscan, Hrun. split; [exact Hscan|]. exists tasks. split; [exact Ht|exact Hrun].
Defined.

(** A forced parallel scan reads the version information of the first vector for
    every vector: a row that is deleted in one is missing from all. *)
Definition ex_deleted : DataTable :=
  match DataTable_Delete ex_table ex_reader [3%nat] with Ret (dt, _) _ => dt | Raise (dt, _) _ => dt end.

Definition count_rows (r : res (list nat)) : option Z :=
  match r with Ok rows => Some (Z.of_nat (length rows)) | Throw _ => None end.

Lemma forced_parallel_scan_differs :
  count_rows (scan_from ex_deleted ex_reader (InitializeScan ex_deleted)) = Some 1999 ∧
  count_rows (tasks ← parallel_scan ex_deleted true; run_tasks ex_deleted ex_reader tasks) = Some 1998.
Proof. split; vm_compute; reflexivity. Qed.
