(* ===== verification/TableCommit.v ===== *)
(** * Commit and rollback of the rows of a table

    What [CommitAppend], [RevertAppend] and the marking of deleted rows of
    src/src/storage/data_table.cpp do to the versions of the rows when a
    transaction has several entries in one table.

    While the entries of a transaction are committed one by one, a vector can
    hold rows of which only some have the commit id, and its [insert_id] is not
    that of all of them.  [settle] replaces the id of the transaction by the
    commit id everywhere: the settled morsels stay well-formed all along, a
    commit of an append does not change them, and they are the morsels once no
    row has the id of the transaction left. *)

From S2P Require Import Prelude Constants Serializer ChunkInfo MorselInfo SegmentTree DataTable.

Section settle.
Context (tid c : Z).
Hypothesis Htid : tid ≠ 0.
Hypothesis Hc0 : c ≠ 0.
Hypothesis Hct : c ≠ tid.

Definition settle_id (id : Z) : Z := if id =? tid then c else id.

Definition settle_info (info : ChunkInfo) : ChunkInfo :=
  match info with
  | ConstantInfo k => ConstantInfo (mkChunkConstantInfo (cc_start k) (settle_id (cc_insert_id k)) (cc_delete_id k))
  | VectorInfo v =>
      VectorInfo (mkChunkVectorInfo (cv_start v) (settle_id <$> inserted v) (settle_id (insert_id v))
        (same_inserted_id v) (deleted v) (any_deleted v))
  end.

Definition settle (m : MorselInfo) : MorselInfo :=
  mkMorselInfo (m_start m) ((λ infos : list (option ChunkInfo), (λ i : option ChunkInfo, settle_info <$> i) <$> infos) <$> m_root m).

Definition settle_version (v : Z * Z) : Z * Z := (settle_id v.1, v.2).

Lemma settle_id_ne id : id ≠ tid → settle_id id = id.
Proof. intros H. unfold settle_id. by rewrite (proj2 (Z.eqb_neq _ _)). Qed.

Lemma settle_id_eq id : id = tid ∨ id = c → settle_id id = c.
Proof. intros [->| ->]; unfold settle_id; [by rewrite Z.eqb_refl|by rewrite (proj2 (Z.eqb_neq c tid))]. Qed.

Lemma settle_lookup (l : list Z) i : (i < length l)%nat → (settle_id <$> l) !!! i = settle_id (l !!! i).
Proof.
  intros Hi. apply list_lookup_total_correct. rewrite list_lookup_fmap.
  by rewrite (list_lookup_lookup_total_lt l i Hi).
Qed.

Lemma root_infos_settle m : root_infos (settle m) = (λ i : option ChunkInfo, settle_info <$> i) <$> root_infos m.
Proof.
  unfold root_infos, settle. cbn. destruct (m_root m); [done|]. cbn. unfold VersionNode_new. by rewrite fmap_replicate.
Qed.

Lemma GetChunkInfo_settle m k : MorselInfo_GetChunkInfo (settle m) k = settle_info <$> MorselInfo_GetChunkInfo m k.
Proof.
  unfold MorselInfo_GetChunkInfo, settle. cbn. destruct (m_root m) as [infos|]; [|done]. cbn.
  rewrite list_lookup_fmap. by destruct (infos !! k).
Qed.

Lemma settle_set_info m k info :
  settle (set_info m k (Some info)) = set_info (settle m) k (Some (settle_info info)).
Proof. unfold set_info at 2. rewrite root_infos_settle. unfold settle, set_info. cbn. by rewrite list_fmap_insert. Qed.

Lemma settle_set_info_same m k info info' :
  MorselInfo_GetChunkInfo m k = Some info → settle_info info' = settle_info info →
  settle (set_info m k (Some info')) = settle m.
Proof.
  unfold MorselInfo_GetChunkInfo, set_info, settle, root_infos. destruct (m_root m) as [infos|] eqn:Hr; [|done]. cbn.
  destruct (infos !! k) as [x|] eqn:Hk; [|done]. cbn. intros -> Heq. rewrite list_fmap_insert. cbn. rewrite Heq.
  do 2 f_equal. apply list_insert_id. by rewrite list_lookup_fmap, Hk.
Qed.

Lemma info_ok_settle info n : info_ok info n → info_ok (settle_info <$> info) n.
Proof.
  destruct info as [[k|v]|]; cbn; [done| |done]. intros (Hn & [Hi Hd Hcnt Hsame Hnone] & Hdel).
  split_and!; [done| |done]. split; cbn; [by rewrite length_fmap|done|done| |done].
  intros Hs i Hlt. rewrite settle_lookup by lia. by rewrite Hsame.
Qed.

Lemma info_version_settle info n i :
  info_ok info n → (i < VS)%nat → info_version (settle_info <$> info) i = settle_version (info_version info i).
Proof.
  destruct info as [[k|v]|]; cbn.
  - done.
  - intros (_ & Hok & _) Hi. unfold settle_version. cbn.
    rewrite settle_lookup; [done|]. by rewrite (cv_inserted_len _ _ Hok).
  - intros _ _. unfold settle_version. cbn. by rewrite settle_id_ne.
Qed.

Lemma refines_settle m vs : refines m vs → refines (settle m) (settle_version <$> vs).
Proof.
  intros Hrf. pose proof (rf_ok _ _ Hrf) as [Hlen Hn Hinf]. split; [split|].
  - by rewrite root_infos_settle, length_fmap.
  - by rewrite length_fmap.
  - intros k Hk. rewrite GetChunkInfo_settle, length_fmap. by apply info_ok_settle, Hinf.
  - intros r v'. rewrite list_lookup_fmap. destruct (vs !! r) as [v|] eqn:Hv; [|done]. cbn. intros [= <-].
    pose proof (refines_lt _ _ _ _ Hrf Hv) as [_ Hr]. destruct (row_split r) as [_ Hmod].
    unfold version. rewrite GetChunkInfo_settle. erewrite info_version_settle; [|apply Hinf, row_vector_lt, Hr|done].
    f_equal. by apply (rf_version _ _ Hrf).
Qed.

(** The rows of a vector whose common id is that of the transaction all have it. *)
Definition pending_ok (m : MorselInfo) (n : nat) : Prop := ∀ k v,
  MorselInfo_GetChunkInfo m k = Some (VectorInfo v) → same_inserted_id v = true → insert_id v = tid →
  ∀ i, (i < rows_of n k)%nat → inserted v !!! i = tid.

Lemma refines_pending m vs : refines m vs → pending_ok m (length vs).
Proof.
  intros Hrf k v Hk Hs Hi i Hlt. pose proof (rf_ok _ _ Hrf) as Hok.
  pose proof (GetChunkInfo_lt _ _ _ (m_len _ _ Hok) Hk) as HkMVC. pose proof (m_infos _ _ Hok k HkMVC) as Hinfo.
  rewrite Hk in Hinfo. destruct Hinfo as (_ & Hv & _). by rewrite (cv_same _ _ Hv Hs) by done.
Qed.

(** Once no row has the id of the transaction, the morsel is settled. *)
Lemma refines_settled m vs :
  refines (settle m) vs → pending_ok m (length vs) → (∀ r, (r < length vs)%nat → (version m r).1 ≠ tid) →
  refines m vs.
Proof.
  intros Hrf Hpend Hno. pose proof (rf_ok _ _ Hrf) as [Hlen Hn Hinf].
  rewrite root_infos_settle, length_fmap in Hlen. pose proof STANDARD_VECTOR_SIZE_pos as HVS.
  assert (∀ k i, (k < MORSEL_VECTOR_COUNT)%nat → (i < rows_of (length vs) k)%nat →
    (info_version (MorselInfo_GetChunkInfo m k) i).1 ≠ tid) as Hid.
  { intros k i Hk Hi. pose proof (rows_of_le (length vs) k). rewrite <-version_join by lia. apply Hno.
    apply rows_of_lt in Hi; [done|lia]. }
  assert (∀ k, (k < MORSEL_VECTOR_COUNT)%nat → info_ok (MorselInfo_GetChunkInfo m k) (rows_of (length vs) k)) as Hinf'.
  { intros k Hk. specialize (Hinf k Hk). rewrite GetChunkInfo_settle in Hinf. specialize (Hid k).
    destruct (MorselInfo_GetChunkInfo m k) as [[x|v]|] eqn:Hinfo; cbn in Hinf |- *; [done| |done].
    destruct Hinf as (Hn0 & [Hi Hd Hcnt Hsame Hnone] & Hdel). cbn in *. rewrite length_fmap in Hi.
    split_and!; [done| |done]. split; [done|done|done| |done]. intros Hs i Hlt.
    specialize (Hsame Hs i Hlt). rewrite settle_lookup in Hsame by lia.
    rewrite settle_id_ne in Hsame by (by apply Hid). rewrite settle_id_ne in Hsame; [done|].
    intros Heq. apply (Hid 0%nat Hk); [lia|]. by apply (Hpend k v); [|done|done|lia]. }
  split; [by split|]. intros r v Hv. pose proof (refines_lt _ _ _ _ Hrf Hv) as [Hlt Hr].
  rewrite <-(rf_version _ _ Hrf _ _ Hv). destruct (row_split r) as [Hsp Hmod]. unfold version at 2.
  rewrite GetChunkInfo_settle. erewrite info_version_settle; [|apply Hinf', row_vector_lt, Hr|done].
  change (info_version _ _) with (version m r) at 1. unfold settle_version. specialize (Hno r Hlt).
  change (info_version (MorselInfo_GetChunkInfo m (r / VS)) (r mod VS)) with (version m r).
  rewrite settle_id_ne by done. by destruct (version m r).
Qed.

(** ** Committing an append *)

Lemma settle_commit_info m n s count k info :
  MorselInfo_ok (settle m) n → (0 < count)%nat → (s + count <= n)%nat →
  (∀ r, (s <= r < s + count)%nat → (version m r).1 = tid ∨ (version m r).1 = c) →
  (s / VS <= k < S ((s + count - 1) / VS))%nat → (k < MORSEL_VECTOR_COUNT)%nat →
  MorselInfo_GetChunkInfo m k = Some info →
  let '(a, b) := vector_part s (s + count) k in
  settle_info (ChunkInfo_CommitAppend info c a b) = settle_info info.
Proof.
  intros Hok Hcnt Hle Hids Hk HkMVC Hinfo. pose proof (vector_part_le s (s + count) k ltac:(lia) ltac:(lia)) as Hpart.
  pose proof (λ i, vector_part_spec s (s + count) k i ltac:(lia)) as Hspec.
  destruct (vector_part s (s + count) k) as [a b]. cbn [fst snd] in *.
  assert (∀ i, (a <= i < b)%nat → (info_version (Some info) i).1 = tid ∨ (info_version (Some info) i).1 = c) as Hid.
  { intros i Hi. rewrite <-Hinfo, <-version_join by lia. apply Hids. apply Hspec; [lia|]. lia. }
  pose proof (m_infos _ _ Hok k HkMVC) as Hinf. rewrite GetChunkInfo_settle, Hinfo in Hinf.
  destruct info as [x|v]; cbn in *.
  - do 2 f_equal. rewrite !settle_id_eq; [done|apply (Hid a); lia|by right].
  - destruct Hinf as (Hn0 & [Hi _ _ Hsame _] & _). cbn in *. rewrite length_fmap in Hi.
    assert (a < rows_of n k)%nat as Ha.
    { apply rows_of_lt; [lia|]. assert (s <= k * VS + a < s + count)%nat by (apply Hspec; lia). lia. }
    f_equal. f_equal.
    + apply list_eq. intros i. rewrite !list_lookup_fmap.
      destruct (decide (i < VS)%nat) as [Hlt|Hge].
      * rewrite fill_range_lookup by lia. case_decide as Hr; [|done].
        rewrite (list_lookup_lookup_total_lt (inserted v) i) by lia. cbn. f_equal.
        rewrite !settle_id_eq; [done|by apply Hid|by right].
      * rewrite !lookup_ge_None_2; [done|lia|]. rewrite length_fill_range. lia.
    + destruct (same_inserted_id v); [|done]. specialize (Hsame eq_refl a Ha).
      rewrite settle_lookup in Hsame by lia. rewrite <-Hsame.
      rewrite !settle_id_eq; [done|apply (Hid a); lia|by right].
Qed.

Lemma settle_CommitAppend m n s count :
  MorselInfo_ok (settle m) n → (0 < count)%nat → (s + count <= n)%nat →
  (∀ r, (s <= r < s + count)%nat → (version m r).1 = tid ∨ (version m r).1 = c) →
  settle (MorselInfo_CommitAppend m c s count) = settle m.
Proof.
  intros Hok Hcnt Hle Hids. pose proof (m_rows _ _ Hok) as Hn. pose proof (m_len _ _ Hok) as Hlen.
  rewrite root_infos_settle, length_fmap in Hlen. unfold MorselInfo_CommitAppend.
  assert ((s + count - 1) / VS < MORSEL_VECTOR_COUNT)%nat as Hend by (apply row_vector_lt; lia).
  assert (s / VS <= (s + count - 1) / VS)%nat as Hdiv by (apply Nat.Div0.div_le_mono; lia).
  apply (for_ind (λ i m', settle m' = settle m ∧ length (root_infos m') = MORSEL_VECTOR_COUNT ∧
    ∀ k, (i <= k)%nat → MorselInfo_GetChunkInfo m' k = MorselInfo_GetChunkInfo m k)); [lia|done|].
  intros i m' Hi (Hs & Hl & Hrest). unfold commit_append_vector.
  pose proof (settle_commit_info m n s count i) as Hinfo.
  destruct (vector_part s (s + count) i) as [a b]. rewrite (Hrest i) by lia.
  destruct (MorselInfo_GetChunkInfo m i) as [info|] eqn:Hg.
  - split_and!.
    + erewrite settle_set_info_same; [exact Hs|by rewrite (Hrest i) by lia|]. apply Hinfo; try done; lia.
    + by rewrite length_set_info.
    + intros k Hk. rewrite GetChunkInfo_set_info by (done || lia). rewrite decide_False by lia. apply Hrest. lia.
  - split_and!; [done|done|]. intros k Hk. apply Hrest. lia.
Qed.

(** The versions of the rows after the commit of an append of which no constant
    info has rows inside and outside. *)
Lemma CommitAppend_versions m n s count :
  MorselInfo_ok (settle m) n → (0 < count)%nat → (s + count <= n)%nat →
  (∀ r, (s <= r < s + count)%nat → (version m r).1 = tid ∨ (version m r).1 = c) →
  (∀ k x y, y = s ∨ y = (s + count)%nat → MorselInfo_GetChunkInfo m k = Some (ConstantInfo x) →
     (y <= k * VS ∨ S k * VS <= y)%nat) →
  ∀ r, (r < MS)%nat → version (MorselInfo_CommitAppend m c s count) r =
    if decide (s <= r < s + count)%nat then (c, (version m r).2) else version m r.
Proof.
  intros Hok Hcnt Hle Hids Hcut r Hr. pose proof (m_rows _ _ Hok) as Hn. pose proof (m_len _ _ Hok) as Hlen.
  rewrite root_infos_settle, length_fmap in Hlen. pose proof STANDARD_VECTOR_SIZE_pos as HVS.
  destruct (MorselInfo_CommitAppend_mapped m s count c Hlen Hcnt ltac:(lia)) as (_ & _ & Hg).
  destruct (row_split r) as [Hsp Hmod]. unfold version. rewrite Hg. set (k := (r / VS)%nat) in *. set (i := (r mod VS)%nat) in *.
  pose proof (vector_part_spec s (s + count) k i ltac:(lia) Hmod) as Hspec. rewrite <-Hsp in Hspec.
  case_decide as Hk; [|rewrite decide_False; [done|intros Hin%Hspec; lia]].
  pose proof (vector_part_le s (s + count) k ltac:(lia) ltac:(lia)) as Hpart.
  assert (∀ j, ((vector_part s (s + count) k).1 <= j < (vector_part s (s + count) k).2)%nat →
    (s <= k * VS + j < s + count)%nat) as Hin.
  { intros j Hj. apply vector_part_spec; lia. }
  pose proof (Hin (vector_part s (s + count) k).1 ltac:(lia)) as Hfirst. unfold commit_append_info.
  destruct (MorselInfo_GetChunkInfo m k) as [[x|v]|] eqn:Hinfo;
    cbn [fmap option_fmap option_map info_version ChunkInfo_CommitAppend ChunkVectorInfo_CommitAppend
      ChunkConstantInfo_CommitAppend inserted deleted cc_insert_id cc_delete_id fst snd].
  - rewrite decide_True; [done|]. pose proof (Hcut k x s ltac:(by left) Hinfo) as [Hs|Hs]; [|lia].
    pose proof (Hcut k x (s + count)%nat ltac:(by right) Hinfo) as [He|He]; lia.
  - pose proof (m_infos _ _ Hok k (row_vector_lt r Hr)) as Hinf. rewrite GetChunkInfo_settle, Hinfo in Hinf.
    destruct Hinf as (_ & Hv & _). pose proof (cv_inserted_len _ _ Hv) as Hil. cbn in Hil. rewrite length_fmap in Hil.
    rewrite lookup_total_fill_range by lia. destruct (decide (s <= r < s + count)%nat) as [Hrr|Hrr].
    + apply Hspec in Hrr as [_ Hrr]. by rewrite decide_True.
    + rewrite decide_False; [done|]. intros Hii. apply Hrr, Hspec. split; [lia|done].
  - exfalso. destruct (Hids _ Hfirst) as [He|He]; rewrite version_join, Hinfo in He by lia; cbn in He; congruence.
Qed.

Lemma CommitAppend_pending m n s count :
  MorselInfo_ok (settle m) n → (0 < count)%nat → (s + count <= n)%nat → pending_ok m n →
  pending_ok (MorselInfo_CommitAppend m c s count) n ∧
  m_start (MorselInfo_CommitAppend m c s count) = m_start m ∧
  (∀ e, entry_ok m e → entry_ok (MorselInfo_CommitAppend m c s count) e) ∧
  ∀ k x', MorselInfo_GetChunkInfo (MorselInfo_CommitAppend m c s count) k = Some (ConstantInfo x') →
    ∃ x, MorselInfo_GetChunkInfo m k = Some (ConstantInfo x).
Proof.
  intros Hok Hcnt Hle Hp. pose proof (m_rows _ _ Hok) as Hn. pose proof (m_len _ _ Hok) as Hlen.
  rewrite root_infos_settle, length_fmap in Hlen.
  destruct (MorselInfo_CommitAppend_mapped m s count c Hlen Hcnt ltac:(lia)) as (Hs & _ & Hg).
  split_and!; [|done| |].
  - intros k v. rewrite Hg. case_decide; [|apply Hp]. unfold commit_append_info.
    destruct (MorselInfo_GetChunkInfo m k) as [[x|w]|]; [done| |done]. cbn. intros [= <-]. cbn. intros ->. congruence.
  - intros e (Hk & Hrows & v & Hv & Hany). split; [done|]. split; [done|]. rewrite Hg, Hv.
    case_decide; [|by exists v]. eexists. split; [reflexivity|]. done.
  - intros k x'. rewrite Hg. case_decide; [|by eauto]. unfold commit_append_info.
    destruct (MorselInfo_GetChunkInfo m k) as [[x|w]|]; [by eauto|done|done].
Qed.

(** ** All morsels while a transaction commits *)

Record committing (versions : list MorselInfo) (vs : list (Z * Z)) : Prop := {
  cg_refine : versions_refine (settle <$> versions) vs;
  cg_pending : ∀ i m, versions !! i = Some m → pending_ok m (length (slice i vs));
}.

(** The id that inserted a row. *)
Definition row_inserted (versions : list MorselInfo) (r : nat) : Z :=
  match versions !! (r / MS)%nat with Some m => (version m (r mod MS)).1 | None => 0 end.

Lemma committing_start versions vs : versions_refine versions vs → committing versions (settle_version <$> vs).
Proof.
  intros Hr. split.
  - split.
    + eapply tree_ok_ext; [|apply (vr_tree _ _ Hr)]. by rewrite <-list_fmap_compose.
    + intros i m'. rewrite list_lookup_fmap. destruct (versions !! i) as [m|] eqn:Hm; [|done]. intros [= <-].
      rewrite slice_fmap. by apply refines_settle, Hr.
    + rewrite !length_fmap. apply (vr_room _ _ Hr).
  - intros i m Hm. rewrite slice_fmap, length_fmap. by apply refines_pending, Hr.
Qed.

Lemma committing_morsel versions vs i m :
  committing versions vs → versions !! i = Some m → refines (settle m) (slice i vs).
Proof. intros Hc Hm. apply (vr_morsels _ _ (cg_refine _ _ Hc)). by rewrite list_lookup_fmap, Hm. Qed.

Lemma committing_done versions vs :
  committing versions vs → (∀ r, (r < length vs)%nat → row_inserted versions r ≠ tid) → versions_refine versions vs.
Proof.
  intros Hc Hno. pose proof (cg_refine _ _ Hc) as Hr. split.
  - eapply tree_ok_ext; [|apply (vr_tree _ _ Hr)]. by rewrite <-list_fmap_compose.
  - intros i m Hm. apply refines_settled; [by eapply committing_morsel|by apply (cg_pending _ _ Hc)|].
    intros r Hlt. rewrite length_slice in Hlt. specialize (Hno (i * MS + r)%nat ltac:(lia)).
    unfold row_inserted in Hno. rewrite div_MS, Hm in Hno by lia. pose proof MS_pos.
    rewrite Nat.add_comm, Nat.Div0.mod_add, Nat.mod_small in Hno by lia. done.
  - pose proof (vr_room _ _ Hr) as Hroom. by rewrite length_fmap in Hroom.
Qed.

Lemma committing_lengths versions vs i m :
  committing versions vs → versions !! i = Some m → length (root_infos m) = MORSEL_VECTOR_COUNT.
Proof.
  intros Hc Hm. pose proof (m_len _ _ (rf_ok _ _ (committing_morsel _ _ _ _ Hc Hm))) as Hl.
  by rewrite root_infos_settle, length_fmap in Hl.
Qed.

(** Morsels end between constant infos. *)
Lemma committing_cut versions vs i : committing versions vs → cut_ok versions (i * MS)%nat.
Proof.
  intros Hc j m k x Hj Hk. pose proof (GetChunkInfo_lt _ _ _ (committing_lengths _ _ _ _ Hc Hj) Hk) as HkMVC.
  pose proof MS_vectors as HMS. destruct (decide (i <= j)%nat); [left; nia|right].
  assert (S j * MS <= i * MS)%nat by nia. nia.
Qed.

(** What a step of a commit leaves alone. *)
Record commit_frame (versions versions' : list MorselInfo) : Prop := {
  cf_entries : ∀ p, dentry_ok versions p → dentry_ok versions' p;
  cf_cuts : ∀ x, cut_ok versions x → cut_ok versions' x;
}.

Lemma commit_frame_refl versions : commit_frame versions versions.
Proof. by split. Qed.

Lemma commit_frame_trans v1 v2 v3 : commit_frame v1 v2 → commit_frame v2 v3 → commit_frame v1 v3.
Proof. intros [] []. split; auto. Qed.

(** The rows [a, a + n) of morsel [i]. *)
Lemma commit_morsel versions vs i m a n :
  committing versions vs → versions !! i = Some m → (0 < n)%nat → (a + n <= length (slice i vs))%nat →
  (∀ r, (i * MS + a <= r < i * MS + a + n)%nat → row_inserted versions r = tid ∨ row_inserted versions r = c) →
  cut_ok versions (i * MS + a)%nat → cut_ok versions (i * MS + a + n)%nat →
  let versions' := <[i := MorselInfo_CommitAppend m c a n]> versions in
  committing versions' vs ∧ commit_frame versions versions' ∧
  ∀ r, row_inserted versions' r = if decide (i * MS + a <= r < i * MS + a + n)%nat then c else row_inserted versions r.
Proof.
  intros Hc Hi Hn Hle Hids Hcut1 Hcut2 versions'. pose proof (committing_morsel _ _ _ _ Hc Hi) as Hrf.
  pose proof (rf_ok _ _ Hrf) as Hok. pose proof (m_rows _ _ Hok) as HnMS. pose proof (lookup_lt_Some _ _ _ Hi) as Hlt.
  assert (∀ r, (r < MS)%nat → row_inserted versions (i * MS + r) = (version m r).1) as Hraw.
  { intros r Hr. unfold row_inserted. rewrite div_MS, Hi by done. pose proof MS_pos.
    by rewrite Nat.add_comm, Nat.Div0.mod_add, Nat.mod_small by lia. }
  assert (∀ r, (a <= r < a + n)%nat → (version m r).1 = tid ∨ (version m r).1 = c) as Hids'.
  { intros r Hr. rewrite <-Hraw by lia. apply Hids. lia. }
  assert (∀ k x y, y = a ∨ y = (a + n)%nat → MorselInfo_GetChunkInfo m k = Some (ConstantInfo x) →
     (y <= k * VS ∨ S k * VS <= y)%nat) as Hcut.
  { intros k x y [->| ->] Hk; [destruct (Hcut1 i m k x Hi Hk)|destruct (Hcut2 i m k x Hi Hk)]; lia. }
  pose proof (settle_CommitAppend m _ a n Hok Hn Hle Hids') as Hset.
  pose proof (CommitAppend_versions m _ a n Hok Hn Hle Hids' Hcut) as Hver.
  destruct (CommitAppend_pending m _ a n Hok Hn Hle (cg_pending _ _ Hc _ _ Hi)) as (Hpend & Hst & He & Hcst).
  split; [split|split].
  - unfold versions'. rewrite list_fmap_insert, Hset, list_insert_id; [apply (cg_refine _ _ Hc)|].
    by rewrite list_lookup_fmap, Hi.
  - intros j mj Hj. unfold versions' in Hj. destruct (decide (j = i)) as [->|Hne].
    + rewrite list_lookup_insert_eq in Hj by done. by injection Hj as <-.
    + rewrite list_lookup_insert_ne in Hj by done. by apply (cg_pending _ _ Hc).
  - destruct (replace_frame versions i m _ Hi He Hcst). by split.
  - intros r. destruct (div_mod_MS r) as [Hsp Hmod]. unfold row_inserted at 1, versions'.
    destruct (decide (r / MS = i)%nat) as [Heq|Hne].
    + rewrite Heq, list_lookup_insert_eq by done. rewrite Hver by done. rewrite Heq in Hsp.
      assert (row_inserted versions r = (version m (r mod MS)).1) as -> by (rewrite Hsp at 1; by apply Hraw).
      destruct (decide (a <= r mod MS < a + n)%nat), (decide (i * MS + a <= r < i * MS + a + n)%nat); (done || lia).
    + rewrite list_lookup_insert_ne by done. rewrite decide_False; [done|]. intros Hr.
      apply Hne. replace r with (i * MS + (r - i * MS))%nat by lia. apply div_MS. lia.
Qed.

Lemma commit_append_loop_spec fuel versions vs i a remaining :
  committing versions vs → (a < MS)%nat → (0 < remaining)%nat → (i * MS + a + remaining <= length vs)%nat →
  (∀ r, (i * MS + a <= r < i * MS + a + remaining)%nat → row_inserted versions r = tid ∨ row_inserted versions r = c) →
  cut_ok versions (i * MS + a)%nat → cut_ok versions (i * MS + a + remaining)%nat → (remaining <= fuel)%nat →
  ∃ versions', commit_append_loop (S fuel) c versions i (i * MS + a) remaining = Ok versions' ∧
    committing versions' vs ∧ commit_frame versions versions' ∧
    ∀ r, row_inserted versions' r =
      if decide (i * MS + a <= r < i * MS + a + remaining)%nat then c else row_inserted versions r.
Proof.
  revert versions i a remaining. induction fuel as [|fuel IH]; intros versions i a remaining Hc Ha Hrem Hle Hids Hcut1 Hcut2 Hf; [lia|].
  pose proof (cg_refine _ _ Hc) as Hr. pose proof (vr_room _ _ Hr) as Hroom. rewrite length_fmap in Hroom.
  assert (i < length versions)%nat as Hi by nia. destruct (lookup_lt_is_Some_2 versions i Hi) as [m Hm].
  assert (m_start m = i * MS)%nat as Hs.
  { apply (morsel_start (settle <$> versions) i (settle m) (vr_tree _ _ Hr)). by rewrite list_lookup_fmap, Hm. }
  remember (S fuel) as f eqn:Hf'. cbn [commit_append_loop]. rewrite Hm, Hs.
  replace (i * MS + a - i * MS)%nat with a by lia. set (n := ((MS - a) `min` remaining)%nat).
  assert (length (slice i vs) = (length vs - i * MS) `min` MS)%nat as Hsl by apply length_slice.
  destruct (commit_morsel versions vs i m a n Hc Hm) as (Hc1 & Hf1 & Hraw1); [lia|lia|intros; apply Hids; lia|done| |].
  { destruct (decide (n = remaining)) as [->|Hne]; [done|].
    replace (i * MS + a + n)%nat with (S i * MS)%nat by lia. by eapply committing_cut. }
  set (v1 := <[i := _]> versions) in *. destruct (Nat.eqb_spec (remaining - n) 0) as [H0|H0].
  - exists v1. split; [done|]. split; [done|]. split; [done|]. by replace remaining with n by lia.
  - subst f. replace (i * MS + a + n)%nat with (S i * MS + 0)%nat in * by lia.
    destruct (IH v1 (S i) 0%nat (remaining - n)%nat Hc1) as (v2 & Heq & Hc2 & Hf2 & Hraw2); try lia.
    + intros r Hr'. rewrite Hraw1, decide_False by lia. apply Hids. lia.
    + apply (cf_cuts _ _ Hf1). rewrite Nat.add_0_r. by eapply committing_cut.
    + apply (cf_cuts _ _ Hf1). by replace (S i * MS + 0 + (remaining - n))%nat with (i * MS + a + remaining)%nat by lia.
    + exists v2. split; [done|]. split; [done|]. split; [by eapply commit_frame_trans|].
      intros r. rewrite Hraw2, Hraw1.
      destruct (decide (S i * MS + 0 <= r < _)%nat), (decide (i * MS + a <= r < S i * MS + 0)%nat),
        (decide (i * MS + a <= r < i * MS + a + remaining)%nat); (done || lia).
Qed.

(** A table of which the transaction commits the rows [s, s + count). *)
Lemma CommitAppend_spec dt vs s count :
  committing (dt_versions dt) vs → (0 < count)%nat → (s + count <= length vs)%nat →
  (∀ r, (s <= r < s + count)%nat → row_inserted (dt_versions dt) r = tid ∨ row_inserted (dt_versions dt) r = c) →
  cut_ok (dt_versions dt) s → cut_ok (dt_versions dt) (s + count) →
  ∃ dt', CommitAppend dt c s count = Ok dt' ∧ committing (dt_versions dt') vs ∧
    commit_frame (dt_versions dt) (dt_versions dt') ∧
    (∀ r, row_inserted (dt_versions dt') r =
      if decide (s <= r < s + count)%nat then c else row_inserted (dt_versions dt) r) ∧
    dt_total_rows dt' = dt_total_rows dt ∧ dt_is_root dt' = dt_is_root dt.
Proof.
  intros Hc Hcnt Hle Hids Hcut1 Hcut2. destruct (div_mod_MS s) as [Hsp Hmod].
  assert (GetSegmentIndex (dt_versions dt) s = Ok (s / MS)%nat) as Hidx.
  { pose proof (cg_refine _ _ Hc) as Hr. destruct (morsel_of_row _ _ s Hr) as (m' & Hm' & Hs' & _); [lia|].
    rewrite list_lookup_fmap in Hm'. destruct (dt_versions dt !! (s / MS)%nat) as [m|] eqn:Hm; [|done]. injection Hm' as <-.
    apply (GetSegmentIndex_found _ _ _ m); [|done|].
    - eapply tree_ok_ext; [|apply (vr_tree _ _ Hr)]. by rewrite <-list_fmap_compose.
    - unfold contains, seg_end. cbn [seg_start seg_count MorselSegment]. cbn in Hs'. lia. }
  unfold CommitAppend. rewrite Hidx. cbn [mbind res_bind].
  pose proof (commit_append_loop_spec count (dt_versions dt) vs (s / MS) (s mod MS) count Hc Hmod Hcnt) as Hloop.
  rewrite <-Hsp in Hloop. destruct (Hloop Hle Hids Hcut1 Hcut2) as (v' & -> & Hc' & Hf' & Hraw); [lia|].
  cbn [mbind res_bind]. eexists. split; [reflexivity|]. done.
Qed.

(** Marking the rows of a deletion while the transaction commits. *)
Lemma settle_DeleteInfo_apply id m e : settle (DeleteInfo_apply id m e) = DeleteInfo_apply id (settle m) e.
Proof.
  unfold DeleteInfo_apply. rewrite GetChunkInfo_settle.
  destruct (MorselInfo_GetChunkInfo m (di_vector e)) as [[x|v]|]; cbn [fmap option_fmap option_map settle_info]; [done| |done].
  by rewrite settle_set_info.
Qed.

Lemma entry_ok_settle m e : entry_ok m e → entry_ok (settle m) e.
Proof.
  intros (Hk & Hrows & v & Hv & Hany). split; [done|]. split; [done|]. rewrite GetChunkInfo_settle, Hv.
  eexists. split; [reflexivity|done].
Qed.

Lemma commit_delete dt vs p :
  committing (dt_versions dt) vs → dentry_ok (dt_versions dt) p → (∀ r, r ∈ dentry_rows p → (r < length vs)%nat) →
  committing (dt_versions (apply_delete c dt p)) (delete_versions (dentry_rows p) c vs) ∧
  commit_frame (dt_versions dt) (dt_versions (apply_delete c dt p)) ∧
  ∀ r, row_inserted (dt_versions (apply_delete c dt p)) r = row_inserted (dt_versions dt) r.
Proof.
  destruct p as [i e]. intros Hc (m & Hm & He) Hrows. unfold apply_delete. cbn [fst snd] in *. rewrite Hm.
  cbn [dt_versions set_versions]. pose proof (committing_lengths _ _ _ _ Hc Hm) as Hlen.
  pose proof (lookup_lt_Some _ _ _ Hm) as Hlt. pose proof (proj1 He) as HkMVC.
  assert (∀ i', length (slice i' (delete_versions (dentry_rows (i, e)) c vs)) = length (slice i' vs)) as Hsl.
  { intros i'. rewrite !length_slice. unfold delete_versions. by rewrite length_imap. }
  split; [split|split].
  - rewrite list_fmap_insert, settle_DeleteInfo_apply. apply apply_entry_refine; [apply Hc| |by apply entry_ok_settle|done].
    by rewrite list_lookup_fmap, Hm.
  - intros j mj Hj. rewrite Hsl. destruct (decide (j = i)) as [->|Hne].
    + rewrite list_lookup_insert_eq in Hj by done. injection Hj as <-. intros k v Hk Hs Hid x Hx.
      pose proof (DeleteInfo_apply_info c m e k HkMVC Hlen) as Hinfo. rewrite Hk in Hinfo.
      destruct (MorselInfo_GetChunkInfo m k) as [[y|w]|] eqn:Hw; [done| |done].
      destruct Hinfo as (-> & Hi' & Hs' & _). apply (cg_pending _ _ Hc i m Hm k w); congruence.
    + rewrite list_lookup_insert_ne in Hj by done. by apply (cg_pending _ _ Hc).
  - destruct (apply_entry_frame c (dt_versions dt) i m e Hm HkMVC Hlen). by split.
  - intros r. unfold row_inserted. destruct (decide (r / MS = i)%nat) as [Heq|Hne].
    + rewrite Heq, list_lookup_insert_eq, Hm by done. unfold version.
      pose proof (DeleteInfo_apply_info c m e (r mod MS / VS) HkMVC Hlen) as Hinfo.
      destruct (MorselInfo_GetChunkInfo (DeleteInfo_apply c m e) _) as [[y|w]|],
        (MorselInfo_GetChunkInfo m (r mod MS / VS)) as [[y'|w']|]; try done; [by injection Hinfo as ->|].
      cbn. by destruct Hinfo as (-> & _).
    + by rewrite list_lookup_insert_ne.
Qed.
End settle.

(** ** Reverting an append *)

Section reverting.
Implicit Types (versions : list MorselInfo) (vs : list (Z * Z)) (p : nat * DeleteInfo).

Lemma revert_versions versions vs s m :
  versions_refine versions vs → (s < length vs)%nat → versions !! (s / MS)%nat = Some m → cut_ok versions s →
  (∀ r v, vs !! r = Some v → (s <= r)%nat → v.2 = NOT_DELETED_ID) →
  let versions' := <[(s / MS)%nat := MorselInfo_RevertAppend m s]> (take (S (s / MS)) versions) in
  versions_refine versions' (take s vs) ∧
  (∀ p r, dentry_ok versions p → r ∈ dentry_rows p → (r < s)%nat → dentry_ok versions' p) ∧
  (∀ x, cut_ok versions x → cut_ok versions' x).
Proof.
  intros Hr Hs Hm Hcut Hdel versions'. destruct (div_mod_MS s) as [Hsp Hmod]. set (i := (s / MS)%nat) in *. set (a := (s mod MS)%nat) in *.
  pose proof (vr_morsels _ _ Hr _ _ Hm) as Hrf. pose proof (rf_ok _ _ Hrf) as Hok. pose proof (lookup_lt_Some _ _ _ Hm) as Hlt.
  assert (length (slice i vs) = (length vs - i * MS) `min` MS)%nat as Hsl by apply length_slice.
  pose proof (morsel_start _ _ _ (vr_tree _ _ Hr) Hm) as Hst.
  assert (MorselInfo_RevertAppend m s = MorselInfo_RevertAppend m (m_start m + a)) as Heq by (f_equal; lia).
  destruct (RevertAppend_mapped m _ a Hok) as (Hst' & _ & Hg); [lia|]. rewrite <-Heq in Hst', Hg.
  assert (length (take (S i) versions) = S i) as Htl by (rewrite length_take; lia).
  assert (refines (MorselInfo_RevertAppend m s) (take a (slice i vs))) as Hrf'.
  { rewrite Heq. apply refines_RevertAppend; [done|lia| |].
    - intros r v Hv Hra. pose proof (refines_lt _ _ _ _ Hrf Hv) as [_ HrMS]. rewrite lookup_slice in Hv by done.
      apply (Hdel (i * MS + r)%nat); [done|lia].
    - intros k x Hk. destruct (Hcut i m k x Hm Hk); lia. }
  assert (∀ j mj, versions' !! j = Some mj →
    (j = i ∧ mj = MorselInfo_RevertAppend m s) ∨ (j < i)%nat ∧ versions !! j = Some mj) as Hlook.
  { intros j mj Hj. unfold versions' in Hj. destruct (decide (j = i)) as [->|Hne].
    - rewrite list_lookup_insert_eq in Hj by lia. left. naive_solver.
    - rewrite list_lookup_insert_ne in Hj by done. apply lookup_take_Some in Hj as [Hj Hji]. right. split; [lia|done]. }
  split; [split|split].
  - eapply tree_ok_ext; [|apply (tree_take_ok versions i (vr_tree _ _ Hr) Hlt)]. unfold versions'.
    rewrite list_fmap_insert. symmetry. apply list_insert_id. rewrite list_lookup_fmap, lookup_take_lt, Hm by lia.
    cbn [fmap option_fmap option_map seg_start seg_count MorselSegment]. by rewrite Hst'.
  - intros j mj [[-> ->]|[Hji Hj]]%Hlook.
    + assert (slice i (take s vs) = take a (slice i vs)) as ->; [|done]. unfold slice.
      rewrite take_take. rewrite Hsp at 1. rewrite <-take_drop_commute, take_take. f_equal. lia.
    + assert (slice j (take s vs) = slice j vs) as ->; [|by apply Hr]. unfold slice.
      assert (S j * MS <= s)%nat by nia. apply list_eq. intros r.
      destruct (decide (r < MS)%nat) as [HrMS|HrMS].
      * rewrite !lookup_take_lt, !lookup_drop, lookup_take_lt by lia. done.
      * rewrite !lookup_take_ge by lia. done.
  - unfold versions'. rewrite length_insert, Htl, length_take. cbn [pred]. nia.
  - intros [j e] r (mj & Hj & He) Hrow Hrs. cbn [fst snd] in *.
    pose proof Hrow as (x & Hx & Hxe)%list_elem_of_fmap. cbn [fst snd] in *. pose proof (DeleteInfo_rows_lt _ _ _ He Hxe) as HxMS.
    assert (j <= i)%nat as Hji by nia. unfold dentry_ok, versions'. cbn [fst snd].
    destruct (decide (j = i)) as [->|Hne].
    + rewrite Hm in Hj. injection Hj as <-. eexists. rewrite list_lookup_insert_eq by lia. split; [reflexivity|].
      destruct He as (Hk & Hrows & v & Hv & Hany). split; [done|]. split; [done|]. exists v. split; [|done].
      rewrite Hg, decide_False; [done|]. intros [Hk' _]. apply Nat.le_ngt in Hk'. apply Hk'. apply revert_vector.
      apply list_elem_of_fmap in Hxe as (y & -> & Hy). lia.
    + exists mj. rewrite list_lookup_insert_ne by done. rewrite lookup_take_lt by lia. done.
  - intros x Hx j mj k y Hj Hk. destruct (Hlook j mj Hj) as [[-> ->]|[_ Hj']]; [|by eapply Hx].
    rewrite Hg in Hk. case_decide; [done|]. by eapply Hx.
Qed.

(** [RevertAppend] cuts the table when the rows are its last ones, and does
    nothing when rows were appended behind them. *)
Lemma RevertAppend_spec dt vs s count :
  table_refines dt vs → (0 < count)%nat → (s + count <= length vs)%nat → cut_ok (dt_versions dt) s →
  ((s + count = length vs)%nat → ∀ r v, vs !! r = Some v → (s <= r)%nat → v.2 = NOT_DELETED_ID) →
  ∃ dt', RevertAppend dt s count = Ok dt' ∧ dt_is_root dt' = dt_is_root dt ∧
    (∀ x, cut_ok (dt_versions dt) x → cut_ok (dt_versions dt') x) ∧
    (∀ p r, dentry_ok (dt_versions dt) p → r ∈ dentry_rows p → (s + count = length vs → r < s)%nat → dentry_ok (dt_versions dt') p) ∧
    table_refines dt' (if decide (s + count = length vs)%nat then take s vs else vs).
Proof.
  intros [Htot Hr] Hcnt Hle Hcut Hdel. unfold RevertAppend, RevertAppendInternal.
  rewrite (proj2 (Nat.eqb_neq count 0)) by lia. rewrite Htot. case_decide as Heq.
  - rewrite (proj2 (Nat.eqb_eq (length vs) (s + count))) by lia. cbn [negb].
    destruct (morsel_of_row _ _ s Hr) as (m & Hm & _ & ->); [lia|]. cbn [mbind res_bind]. rewrite Hm.
    destruct (revert_versions (dt_versions dt) vs s m Hr) as (Hr' & He' & Hc'); [lia|done|done|by apply Hdel|].
    eexists. split; [reflexivity|]. cbn [dt_versions dt_is_root]. split_and!; try done.
    + intros p r Hp Hrow Hrs. apply (He' p r); auto.
    + split; cbn [dt_total_rows dt_versions]; [rewrite length_take; lia|done].
  - rewrite (proj2 (Nat.eqb_neq (length vs) (s + count))) by lia. cbn [negb]. exists dt. split_and!; try done.
Qed.
End reverting.

(** ** Deleting rows of a table *)

Section delete_rows.
Implicit Types (versions : list MorselInfo) (vs : list (Z * Z)) (p : nat * DeleteInfo) (d : VersionDeleteState).

(** What a deletion keeps of the entries that exist, and what it pushes. *)
Record delete_keeps (m : MorselInfo) d : Prop := {
  dk_length : length (root_infos (vd_info d)) = MORSEL_VECTOR_COUNT;
  dk_current : ∀ k, vd_current_chunk d = Some k → (k < MORSEL_VECTOR_COUNT)%nat;
  dk_nonempty : Forall (λ e, di_rows e ≠ []) (vd_undo d);
  dk_entries : ∀ e, entry_ok m e → entry_ok (vd_info d) e;
}.

Lemma keep_set_info m info k v :
  length (root_infos info) = MORSEL_VECTOR_COUNT → (k < MORSEL_VECTOR_COUNT)%nat →
  (∀ e, entry_ok m e → entry_ok info e) →
  (∀ w, MorselInfo_GetChunkInfo info k = Some (VectorInfo w) → any_deleted w = true → any_deleted v = true) →
  ∀ e, entry_ok m e → entry_ok (set_info info k (Some (VectorInfo v))) e.
Proof.
  intros Hl Hk Hkeep Hany e He. destruct (Hkeep e He) as (Hlt & Hrows & w & Hw & Hd). split; [done|]. split; [done|].
  rewrite GetChunkInfo_set_info by done. case_decide as Heq; [|by exists w]. exists v. split; [done|]. subst k. by apply (Hany w).
Qed.

Lemma Flush_keeps m t d : delete_keeps m d → delete_keeps m (out_state (VersionDeleteState_Flush t d)).
Proof.
  intros Hd. pose proof Hd as [Hl Hcur Hne He]. unfold VersionDeleteState_Flush.
  destruct (vd_rows d) as [|r rows] eqn:Hrows; [done|]. destruct (vd_current_chunk d) as [k|] eqn:Hk; [|done].
  destruct (MorselInfo_GetChunkInfo (vd_info d) k) as [[x|v]|] eqn:Hv; [done| |done].
  pose proof (Hcur k eq_refl) as HkMVC. unfold ChunkVectorInfo_Delete.
  destruct (check_delete _ _); cbn [out_state]; split; cbn [vd_info vd_current_chunk vd_undo].
  all: try (by rewrite length_set_info).
  all: try (by intros j [= <-]).
  all: try (by apply keep_set_info).
  - done.
  - apply Forall_app. split; [done|]. by repeat constructor.
Qed.

Lemma push_keeps m i d : delete_keeps m d → delete_keeps m (out_state (VersionDeleteState_push i d)).
Proof. intros []. unfold VersionDeleteState_push. by destruct (_ <? _)%nat; split. Qed.

Lemma Delete_keeps m t r d : delete_keeps m d → delete_keeps m (out_state (VersionDeleteState_Delete t r d)).
Proof.
  intros Hd. unfold VersionDeleteState_Delete. case_decide; [by apply push_keeps|].
  pose proof (Flush_keeps m t d Hd) as Hf. destruct (VersionDeleteState_Flush t d) as [d1 ?|d1 e]; [|done].
  cbn [out_state] in Hf. destruct (Nat.ltb_spec (r / VS) MORSEL_VECTOR_COUNT) as [Hlt|]; [|done].
  apply push_keeps. destruct Hf as [Hl Hcur Hne He]. unfold ensure_vector_info. split; cbn [vd_info vd_current_chunk vd_undo].
  - by rewrite length_set_info.
  - by intros k [= <-].
  - done.
  - apply keep_set_info; try done. intros w Hw. by rewrite Hw.
Qed.

Lemma delete_loop_keeps m t start ids d : delete_keeps m d → delete_keeps m (out_state (delete_loop t start ids d)).
Proof.
  revert d. induction ids as [|id ids IH]; intros d Hd; cbn [delete_loop]; [by apply Flush_keeps|].
  destruct (id <? start)%nat; [done|]. pose proof (Delete_keeps m t (id - start) d Hd) as Hd'.
  destruct (VersionDeleteState_Delete _ _ _); [by apply IH|done].
Qed.

(** The rows of several entries. *)
Definition entries_rows (ps : list (nat * DeleteInfo)) : list nat := ps ≫= dentry_rows.

Lemma entries_rows_pair i undo : entries_rows (pair i <$> undo) = Nat.add (i * MS) <$> undo_rows undo.
Proof.
  unfold entries_rows, undo_rows. induction undo as [|e undo IH]; [done|]. cbn. rewrite fmap_app. unfold dentry_rows at 1. cbn [fst snd].
  f_equal. exact IH.
Qed.

Lemma delete_versions_nil id vs : delete_versions [] id vs = vs.
Proof.
  apply list_eq. intros r. unfold delete_versions. rewrite list_lookup_imap. destruct (vs !! r); [|done]. cbn.
  by rewrite decide_False by apply not_elem_of_nil.
Qed.

(** The ids are rows of one morsel of which no constant info is deleted. *)
Definition delete_pre (dt : DataTable) (ids : list nat) : Prop :=
  (length ids <= VS)%nat ∧ ∃ i, ∀ id, id ∈ ids → (id < dt_total_rows dt)%nat ∧ (id / MS)%nat = i ∧
    ∀ m c, dt_versions dt !! i = Some m → MorselInfo_GetChunkInfo m (id mod MS / VS) = Some (ConstantInfo c) →
      cc_delete_id c = NOT_DELETED_ID.

Lemma DataTable_Delete_spec dt vs t ids :
  table_refines dt vs → transaction_id t ≠ NOT_DELETED_ID → delete_pre dt ids →
  let '(dt', undo) := out_state (DataTable_Delete dt t ids) in
  match DataTable_Delete dt t ids with
  | Ret _ _ => entries_rows undo = ids
  | Raise _ e => is_TransactionException e = true
  end ∧
  table_refines dt' (delete_versions (entries_rows undo) (transaction_id t) vs) ∧
  (∀ r, r ∈ entries_rows undo → ∃ v, vs !! r = Some v ∧ v.2 = NOT_DELETED_ID ∧ v.1 < TRANSACTION_ID_START) ∧
  Forall (λ p, dentry_ok (dt_versions dt') p ∧ dentry_rows p ≠ []) undo ∧
  (∀ p, dentry_ok (dt_versions dt) p → dentry_ok (dt_versions dt') p) ∧
  (∀ x, cut_ok (dt_versions dt) x → cut_ok (dt_versions dt') x) ∧
  dt_is_root dt' = dt_is_root dt.
Proof.
  intros [Htot Hr] Htid (Hlen & i & Hids). rewrite Htot in Hids. destruct ids as [|first ids'] eqn:Hidseq.
  { cbn [DataTable_Delete out_state]. unfold entries_rows. cbn [mbind list_bind]. rewrite delete_versions_nil.
    split_and!; try done. by intros r ?%elem_of_nil. }
  cbn [DataTable_Delete]. rewrite <-Hidseq in *. destruct (Hids first) as (Hf1 & Hfi & _); [rewrite Hidseq; left|].
  destruct (morsel_of_row _ _ first Hr Hf1) as (m & Hm & Hst & ->). rewrite Hfi in *. rewrite Hm.
  pose proof (vr_morsels _ _ Hr _ _ Hm) as Hrf. pose proof (rf_ok _ _ Hrf) as Hok.
  assert (∀ id, id ∈ ids → (id - m_start m)%nat = (id mod MS)%nat ∧ (m_start m <= id)%nat ∧ (id < m_start m + length (slice i vs))%nat) as Hpos.
  { intros id Hid. destruct (Hids id Hid) as (H1 & H2 & _). destruct (div_mod_MS id) as [Hsp Hmod]. rewrite H2 in Hsp.
    rewrite length_slice, Hst. lia. }
  destruct (Delete_inv_result m (length (slice i vs)) t ids Hok Htid Hlen) as (d & Hout & fl & Hinv & Hres).
  { intros id Hid. destruct (Hpos id Hid) as (H1 & H2 & H3). split; [lia|]. rewrite H1. intros c Hc.
    destruct (Hids id Hid) as (_ & _ & Hlive). by eapply Hlive. }
  pose proof (delete_loop_keeps m t (m_start m) ids (mkVersionDeleteState m None [] [])) as Hkeep.
  assert (delete_keeps m (mkVersionDeleteState m None [] [])) as H0.
  { split; cbn [vd_info vd_current_chunk vd_undo]; [apply (m_len _ _ Hok)|done|constructor|done]. }
  specialize (Hkeep H0).
  assert (vd_info (out_state (delete_loop t (m_start m) ids (mkVersionDeleteState m None [] []))) = vd_info d ∧
    vd_undo (out_state (delete_loop t (m_start m) ids (mkVersionDeleteState m None [] []))) = vd_undo d) as [Hdi Hdu].
  { unfold MorselInfo_Delete in Hout. destruct (delete_loop _ _ _ _) as [d'|d']; cbn in *; by injection Hout. }
  destruct Hkeep as [_ _ Hne Hke]. rewrite Hdi in Hke. rewrite Hdu in Hne.
  destruct Hinv as [Hok' Hst' Hver Hundo Huok Hfl Hcst _ _].
  assert (entries_rows (pair i <$> vd_undo d) = Nat.add (i * MS) <$> fl) as Herows by (by rewrite entries_rows_pair, Hundo).
  assert (table_refines (set_versions (<[i := vd_info d]> (dt_versions dt)) dt)
    (delete_versions (entries_rows (pair i <$> vd_undo d)) (transaction_id t) vs)) as Htr.
  { split; cbn [set_versions dt_total_rows dt_versions]; [unfold delete_versions; by rewrite length_imap|].
    rewrite Herows. apply (versions_refine_insert _ _ _ m); [done|done|done| |].
    - intros j r v Hji HrMS. rewrite decide_False; [done|]. intros (x & Hx & Hxf)%list_elem_of_fmap.
      destruct (Hfl x Hxf) as (Hxn & _). pose proof (m_rows _ _ Hok). destruct (row_of_morsel j r i x HrMS ltac:(lia) Hx). done.
    - apply refines_imap; [done|]. intros r v Hv. pose proof (refines_lt _ _ _ _ Hrf Hv) as [_ HrMS].
      rewrite Hver by done. rewrite (rf_version _ _ Hrf _ _ Hv). apply decide_ext. rewrite list_elem_of_fmap. split.
      + intros Hin. by exists r.
      + intros (x & Hx & Hxf). destruct (Hfl x Hxf) as (Hxn & _). pose proof (m_rows _ _ Hok). by replace r with x by lia. }
  assert (∀ r, r ∈ entries_rows (pair i <$> vd_undo d) →
    ∃ v, vs !! r = Some v ∧ v.2 = NOT_DELETED_ID ∧ v.1 < TRANSACTION_ID_START) as Hrows.
  { intros r. rewrite Herows. intros (x & -> & Hx)%list_elem_of_fmap. destruct (Hfl x Hx) as (Hxn & Hnd & Hcom).
    pose proof (m_rows _ _ Hok). destruct (lookup_lt_is_Some_2 (slice i vs) x Hxn) as [v Hv]. exists v.
    rewrite (rf_version _ _ Hrf _ _ Hv) in Hnd, Hcom. rewrite lookup_slice in Hv by lia. done. }
  destruct (replace_frame (dt_versions dt) i m (vd_info d) Hm Hke) as [Hfe Hfc].
  { intros k c' Hk. eauto. }
  assert (Forall (λ p, dentry_ok (<[i := vd_info d]> (dt_versions dt)) p ∧ dentry_rows p ≠ []) (pair i <$> vd_undo d)) as Hnew.
  { apply Forall_fmap. rewrite Forall_forall in Huok. rewrite Forall_forall in Hne. apply Forall_forall. intros e He. cbn. split.
    - exists (vd_info d). cbn [fst snd]. rewrite list_lookup_insert_eq by (by eapply lookup_lt_Some). auto.
    - unfold dentry_rows, DeleteInfo_rows. cbn [fst snd]. specialize (Hne e He). destruct (di_rows e); [done|]. by cbn. }
  destruct (MorselInfo_Delete m t ids) as [[m' undo] ?|[m' undo] ex]; cbn [out_state] in Hout; injection Hout as -> ->;
    cbn [out_state]; (split; [|split_and!; done]).
  - rewrite Herows, Hres. rewrite <-list_fmap_compose. rewrite <-(list_fmap_id ids) at 2. apply list_fmap_ext.
    intros j id Hj. apply list_elem_of_lookup_2, Hpos in Hj as (H1 & H2 & _). cbn. lia.
  - done.
Qed.
End delete_rows.
