(* ===== verification/LocalStorage.v ===== *)
(** * The rows that a transaction has not committed

    Models src/src/storage/local_storage.cpp for a table without unique
    indexes, with the collection of chunks of
    src/src/common/types/chunk_collection.cpp that holds the rows: appending,
    deleting, scanning and what is handed to the table when the storage is
    flushed.

    Theorems: a scan returns exactly the rows that are not deleted, in order;
    as long as no row is deleted twice, their number is the one that the flush
    reserves in the table.  Deleting a row twice makes the flush lose rows. *)

From S2P Require Import Prelude Constants Serializer ChunkInfo MorselInfo SegmentTree DataTable.

Section storage.
Context {R : Type}.
Implicit Types (chunk : list R).

(** [ChunkCollection], with the rows of its chunks. *)
Record ChunkCollection : Type := mkChunkCollection {
  cc_chunks : list (list R);
  cc_count : nat;
}.
Implicit Types (coll : ChunkCollection).

Definition ChunkCollection_new : ChunkCollection := mkChunkCollection [] 0.

(** [Append] fills the last chunk and puts the rest in a new one. *)
Definition ChunkCollection_Append coll (new_chunk : list R) : ChunkCollection :=
  if (length new_chunk =? 0)%nat then coll
  else
    let count := (cc_count coll + length new_chunk)%nat in
    match last (cc_chunks coll) with
    | None => mkChunkCollection (cc_chunks coll ++ [new_chunk]) count
    | Some last_chunk =>
        let added_data := (length new_chunk `min` (STANDARD_VECTOR_SIZE - length last_chunk))%nat in
        let chunks := <[pred (length (cc_chunks coll)) := last_chunk ++ take added_data new_chunk]> (cc_chunks coll) in
        let remaining_data := (length new_chunk - added_data)%nat in
        mkChunkCollection (if (0 <? remaining_data)%nat then chunks ++ [drop added_data new_chunk] else chunks) count
    end.

(** [LocalTableStorage]; [deleted_entries] has an array of [STANDARD_VECTOR_SIZE]
    flags for the chunks with deleted rows. *)
Record LocalTableStorage : Type := mkLocalTableStorage {
  lt_collection : ChunkCollection;
  lt_deleted_entries : gmap nat (list bool);
  lt_deleted_rows : nat;
  lt_active_scans : nat;
}.
Implicit Types (s : LocalTableStorage).

Definition LocalTableStorage_new : LocalTableStorage := mkLocalTableStorage ChunkCollection_new ∅ 0 0.

Definition LocalTableStorage_Clear s : LocalTableStorage :=
  mkLocalTableStorage ChunkCollection_new ∅ 0 (lt_active_scans s).

(** [AddedRows] *)
Definition AddedRows s : nat := (cc_count (lt_collection s) - lt_deleted_rows s)%nat.

(** [storage->collection.Append(chunk)] *)
Definition LocalTableStorage_Append s chunk : LocalTableStorage :=
  mkLocalTableStorage (ChunkCollection_Append (lt_collection s) chunk) (lt_deleted_entries s)
    (lt_deleted_rows s) (lt_active_scans s).

(** *** Delete *)

(** [deleted[id] = true] for every id, which is unsigned. *)
Fixpoint mark_deleted (base_index : Z) (ids : list Z) (deleted : list bool) : res (list bool) :=
  match ids with
  | [] => Ok deleted
  | id :: ids =>
      let i := u64 (id - base_index) in
      if i <? Z.of_nat (length deleted) then mark_deleted base_index ids (<[Z.to_nat i := true]> deleted)
      else Throw (UndefinedBehaviour "deleted[id] is out of bounds")
  end.

Definition GetChunk (first_id : Z) : nat :=
  Z.to_nat (u64 (Z.quot (first_id - MAX_ROW_ID) (Z.of_nat STANDARD_VECTOR_SIZE))).

Definition LocalTableStorage_Delete s (row_ids : list Z) : res LocalTableStorage :=
  match row_ids with
  | [] => Throw (UndefinedBehaviour "ids[0] is out of bounds")
  | first_id :: _ =>
      let chunk_idx := GetChunk first_id in
      let deleted := default (replicate STANDARD_VECTOR_SIZE false) (lt_deleted_entries s !! chunk_idx) in
      let base_index := MAX_ROW_ID + Z.of_nat chunk_idx * Z.of_nat STANDARD_VECTOR_SIZE in
      deleted ← mark_deleted base_index row_ids deleted;
      Ok (mkLocalTableStorage (lt_collection s) (<[chunk_idx := deleted]> (lt_deleted_entries s))
            (lt_deleted_rows s + length row_ids) (lt_active_scans s))
  end.

(** *** Scans *)

(** [LocalScanState]; [None] when there is nothing to scan. *)
Record LocalScanState : Set := mkLocalScanState {
  ls_chunk_index : nat;
  ls_max_index : nat;
  ls_last_chunk_count : nat;
}.

(** The scan is counted in [active_scans] until its state is destroyed. *)
Definition LocalTableStorage_InitializeScan s : option LocalScanState :=
  match last (cc_chunks (lt_collection s)) with
  | None => None
  | Some chunk => Some (mkLocalScanState 0 (pred (length (cc_chunks (lt_collection s)))) (length chunk))
  end.

Definition SetStorage (active : bool) s : LocalTableStorage :=
  mkLocalTableStorage (lt_collection s) (lt_deleted_entries s) (lt_deleted_rows s)
    (if active then S (lt_active_scans s) else pred (lt_active_scans s)).

(** The positions of the rows of a chunk that are not deleted. *)
Definition valid_positions s (chunk_index count : nat) : list nat :=
  match lt_deleted_entries s !! chunk_index with
  | None => seq 0 count
  | Some deleted => List.filter (λ i, negb (deleted !!! i)) (seq 0 count)
  end.

(** [Scan] without filters: the row ids and rows of the next chunk with rows;
    chunks of which all rows are deleted are skipped. *)
Fixpoint LocalStorage_Scan (fuel : nat) s (state : LocalScanState) : res (list (Z * R) * LocalScanState) :=
  match fuel with
  | O => Throw (UndefinedBehaviour "the scan does not end")
  | S fuel =>
      if (ls_max_index state <? ls_chunk_index state)%nat then Ok ([], state)
      else
        match cc_chunks (lt_collection s) !! ls_chunk_index state with
        | None => Throw (UndefinedBehaviour "chunks[chunk_index] is out of bounds")
        | Some chunk =>
            let chunk_count :=
              if (ls_chunk_index state =? ls_max_index state)%nat then ls_last_chunk_count state else length chunk in
            let state' := mkLocalScanState (S (ls_chunk_index state)) (ls_max_index state) (ls_last_chunk_count state) in
            let sel := valid_positions s (ls_chunk_index state) chunk_count in
            if (length sel =? 0)%nat then LocalStorage_Scan fuel s state'
            else
              let base := MAX_ROW_ID + Z.of_nat (ls_chunk_index state) * Z.of_nat STANDARD_VECTOR_SIZE in
              Ok (omap (λ i, pair (base + Z.of_nat i) <$> chunk !! i) sel, state')
        end
  end.

Definition local_scan_fuel (state : LocalScanState) : nat := S (S (ls_max_index state)) - ls_chunk_index state.

(** [ScanTableStorage]: the chunks that are handed to the function, until a scan
    returns no rows. *)
Fixpoint ScanTableStorage (fuel : nat) s (state : LocalScanState) : res (list (list (Z * R))) :=
  match fuel with
  | O => Throw (UndefinedBehaviour "the scan does not end")
  | S fuel =>
      '(chunk, state) ← LocalStorage_Scan (local_scan_fuel state) s state;
      if (length chunk =? 0)%nat then Ok []
      else rest ← ScanTableStorage fuel s state; Ok (chunk :: rest)
  end.

Definition scan_local s : res (list (list (Z * R))) :=
  match LocalTableStorage_InitializeScan s with
  | None => Ok []
  | Some state => ScanTableStorage (S (S (ls_max_index state))) s state
  end.

(** *** Flush *)

(** Moves the rows to the table: the table, the emptied storage, the rows that
    were written to the columns, and the first row and the number of rows of the
    entry for the undo buffer. *)
Definition LocalStorage_Flush (dt : DataTable) (transaction : Transaction) s
    : res (DataTable * LocalTableStorage * list R * option (nat * nat)) :=
  if (cc_count (lt_collection s) <=? lt_deleted_rows s)%nat then Ok (dt, s, [], None)
  else
    let append_count := (cc_count (lt_collection s) - lt_deleted_rows s)%nat in
    '(dt, row_start) ← InitializeAppend dt transaction append_count;
    chunks ← scan_local s;
    Ok (dt, LocalTableStorage_Clear s, (mjoin chunks).*2, Some (row_start, append_count)).

(** ** Invariant *)

(** Every chunk but the last is full, and only rows that exist are deleted. *)
Record storage_ok s : Prop := {
  so_full : ∀ k chunk, cc_chunks (lt_collection s) !! k = Some chunk →
    (0 < length chunk <= VS)%nat ∧ (S k < length (cc_chunks (lt_collection s)) → length chunk = VS)%nat;
  so_count : cc_count (lt_collection s) = sum_list (length <$> cc_chunks (lt_collection s));
  so_deleted : ∀ k deleted, lt_deleted_entries s !! k = Some deleted →
    length deleted = VS ∧ ∃ chunk, cc_chunks (lt_collection s) !! k = Some chunk ∧
      ∀ i, (length chunk <= i < VS)%nat → deleted !!! i = false;
}.

(** Row [i] of chunk [k] is deleted. *)
Definition is_deleted s (k i : nat) : bool :=
  match lt_deleted_entries s !! k with Some deleted => deleted !!! i | None => false end.

(** The rows, by position, and those that are not deleted, with their ids. *)
Definition all_rows s : list R := mjoin (cc_chunks (lt_collection s)).

Definition row_with_id s (r : nat) : option (Z * R) := pair (MAX_ROW_ID + Z.of_nat r) <$> all_rows s !! r.

Definition live_positions s (a n : nat) : list nat :=
  List.filter (λ r, negb (is_deleted s (r / VS) (r mod VS))) (seq a n).

Definition live_rows s : list (Z * R) := omap (row_with_id s) (live_positions s 0 (cc_count (lt_collection s))).

(** ** Lemmas *)

Lemma all_rows_count s : storage_ok s → length (all_rows s) = cc_count (lt_collection s).
Proof. intros Hs. rewrite (so_count _ Hs). apply length_join. Qed.

(** Full chunks in front: where the rows of a chunk are. *)
Lemma join_full (l : list (list R)) k chunk :
  (∀ j x, (j < k)%nat → l !! j = Some x → length x = VS) → l !! k = Some chunk →
  ∃ rest, mjoin l = mjoin (take k l) ++ chunk ++ rest ∧ length (mjoin (take k l)) = (k * VS)%nat ∧
    rest = mjoin (drop (S k) l).
Proof.
  revert l. induction k as [|k IH]; intros l Hfull Hk.
  - destruct l as [|x l]; [done|]. cbn in Hk. injection Hk as ->. eexists. by split_and!.
  - destruct l as [|x l]; [done|]. cbn in Hk. destruct (IH l) as (rest & Heq & Hlen & Hrest).
    { intros j y Hj. apply (Hfull (S j)). lia. }
    { done. }
    exists rest. rewrite firstn_cons, !join_cons, Heq, length_app, Hlen, (Hfull 0%nat x ltac:(lia) eq_refl), <-app_assoc.
    split_and!; [done|cbn [Nat.mul]; lia|done].
Qed.

Lemma chunk_rows s k chunk i :
  storage_ok s → cc_chunks (lt_collection s) !! k = Some chunk → (i < length chunk)%nat →
  all_rows s !! (k * VS + i)%nat = chunk !! i.
Proof.
  intros Hs Hk Hi. destruct (join_full (cc_chunks (lt_collection s)) k chunk) as (rest & Heq & Hlen & _); [|done|].
  { intros j x Hj Hx. apply (so_full _ Hs j x Hx). apply lookup_lt_Some in Hk. lia. }
  unfold all_rows. rewrite Heq, lookup_app_r by lia. rewrite Hlen. replace (k * VS + i - k * VS)%nat with i by lia.
  by apply lookup_app_l.
Qed.

(** Where a chunk ends. *)
Lemma chunk_end s k chunk :
  storage_ok s → cc_chunks (lt_collection s) !! k = Some chunk →
  (k * VS + length chunk <= cc_count (lt_collection s))%nat ∧
  (S k = length (cc_chunks (lt_collection s)) → k * VS + length chunk = cc_count (lt_collection s))%nat ∧
  (S k < length (cc_chunks (lt_collection s)) → length chunk = VS)%nat.
Proof.
  intros Hs Hk. destruct (join_full (cc_chunks (lt_collection s)) k chunk) as (rest & Heq & Hlen & Hrest); [|done|].
  { intros j x Hj Hx. apply (so_full _ Hs j x Hx). apply lookup_lt_Some in Hk. lia. }
  pose proof (all_rows_count _ Hs) as Hc. unfold all_rows in Hc. rewrite Heq, !length_app, Hlen in Hc.
  split_and!; [lia| |apply (so_full _ Hs k chunk Hk)]. intros Hlast. rewrite Hlast, drop_all in Hrest. subst rest. cbn in Hc. lia.
Qed.

Lemma omap_fmap {A B C} (f : A → B) (g : B → option C) (l : list A) : omap g (f <$> l) = omap (λ x, g (f x)) l.
Proof. induction l as [|x l IH]; [done|]. cbn. by rewrite IH. Qed.

Lemma omap_ext_elem {A B} (f g : A → option B) (l : list A) : (∀ x, x ∈ l → f x = g x) → omap f l = omap g l.
Proof.
  intros H. induction l as [|x l IH]; [done|]. cbn. rewrite (H x) by left. rewrite IH; [done|]. intros y Hy. apply H. by right.
Qed.

Lemma omap_seq {A B} (g : nat → A → B) (l : list A) : omap (λ i, g i <$> l !! i) (seq 0 (length l)) = imap g l.
Proof.
  revert g. induction l as [|x l IH]; intros g; [done|]. cbn [length seq omap list_omap]. cbn [lookup list_lookup fmap option_fmap option_map].
  rewrite imap_cons. f_equal. rewrite <-(IH (g ∘ S)), <-fmap_S_seq. change (list_omap ?f ?l) with (omap f l).
  by rewrite omap_fmap.
Qed.

(** What a scan returns for a chunk. *)
Lemma scan_chunk s k chunk :
  storage_ok s → cc_chunks (lt_collection s) !! k = Some chunk →
  omap (λ i, pair (MAX_ROW_ID + Z.of_nat k * Z.of_nat VS + Z.of_nat i) <$> chunk !! i)
    (valid_positions s k (length chunk)) =
  omap (row_with_id s) (live_positions s (k * VS) (length chunk)) ∧
  length (omap (λ i, pair (MAX_ROW_ID + Z.of_nat k * Z.of_nat VS + Z.of_nat i) <$> chunk !! i)
    (valid_positions s k (length chunk))) = length (valid_positions s k (length chunk)).
Proof.
  intros Hs Hk. pose proof (so_full _ Hs k chunk Hk) as [Hlen _].
  assert (valid_positions s k (length chunk) = List.filter (λ i, negb (is_deleted s k i)) (seq 0 (length chunk))) as ->.
  { unfold valid_positions, is_deleted. destruct (lt_deleted_entries s !! k); [done|]. symmetry. by apply filter_all. }
  assert (∀ i, i ∈ List.filter (λ i, negb (is_deleted s k i)) (seq 0 (length chunk)) → (i < length chunk)%nat) as Hin.
  { intros i [Hi _]%list_elem_of_In%filter_In. apply list_elem_of_In, elem_of_seq in Hi. lia. }
  split.
  - unfold live_positions. rewrite <-(seq_shift_fmap (k * VS)), <-(filter_fmap_shift _ (k * VS)), omap_fmap.
    rewrite (filter_ext_elem (λ i, negb (is_deleted s ((k * VS + i) / VS) ((k * VS + i) mod VS)))
      (λ i, negb (is_deleted s k i))).
    2: { intros i [_ Hi]%elem_of_seq. destruct (row_join k i ltac:(lia)) as [-> ->]. done. }
    apply omap_ext_elem. intros i Hi%Hin. unfold row_with_id. rewrite (chunk_rows s k chunk) by done.
    destruct (chunk !! i); [|done]. cbn. do 2 f_equal. lia.
  - revert Hin. generalize (List.filter (λ i, negb (is_deleted s k i)) (seq 0 (length chunk))). intros l.
    induction l as [|i l IH]; intros Hin; [done|]. cbn.
    destruct (lookup_lt_is_Some_2 chunk i) as [x Hx]; [apply Hin; left|]. rewrite Hx. cbn. f_equal. apply IH.
    intros j Hj. apply Hin. by right.
Qed.

Definition rows_from s (k : nat) : list (Z * R) :=
  omap (row_with_id s) (live_positions s (k * VS) (cc_count (lt_collection s) - k * VS)).

Lemma rows_from_step s k chunk :
  storage_ok s → cc_chunks (lt_collection s) !! k = Some chunk →
  rows_from s k = omap (row_with_id s) (live_positions s (k * VS) (length chunk)) ++ rows_from s (S k).
Proof.
  intros Hs Hk. destruct (chunk_end s k chunk Hs Hk) as (Hle & Hlast & Hfull). pose proof (lookup_lt_Some _ _ _ Hk) as Hlt.
  unfold rows_from, live_positions. rewrite <-omap_app, <-List.filter_app. do 2 f_equal.
  destruct (decide (S k = length (cc_chunks (lt_collection s)))) as [Heq|Hne].
  - specialize (Hlast Heq). pose proof (so_full _ Hs k chunk Hk) as [Hc _].
    replace (_ - S k * VS)%nat with 0%nat by lia. rewrite app_nil_r. f_equal. lia.
  - rewrite (Hfull ltac:(lia)) in *. replace (cc_count (lt_collection s) - k * VS)%nat
      with (VS + (cc_count (lt_collection s) - S k * VS))%nat by lia.
    rewrite seq_app. do 2 f_equal. lia.
Qed.

Lemma count_bound s : storage_ok s → (cc_count (lt_collection s) <= length (cc_chunks (lt_collection s)) * VS)%nat.
Proof.
  intros Hs. destruct (decide (cc_chunks (lt_collection s) = [])) as [Hnil|Hne].
  - rewrite (so_count _ Hs), Hnil. done.
  - destruct (lookup_lt_is_Some_2 (cc_chunks (lt_collection s)) (pred (length (cc_chunks (lt_collection s))))) as [chunk Hk].
    { destruct (cc_chunks (lt_collection s)); [done|cbn; lia]. }
    pose proof (lookup_lt_Some _ _ _ Hk). pose proof (so_full _ Hs _ _ Hk) as [Hl _].
    destruct (chunk_end _ _ _ Hs Hk) as (_ & <- & _); nia.
Qed.

(** The state of a scan that was started on the storage as it is. *)
Definition local_state_ok s (state : LocalScanState) : Prop :=
  ∃ chunk, last (cc_chunks (lt_collection s)) = Some chunk ∧
    ls_max_index state = pred (length (cc_chunks (lt_collection s))) ∧ ls_last_chunk_count state = length chunk.

Lemma LocalStorage_Scan_spec s fuel state :
  storage_ok s → local_state_ok s state →
  (length (cc_chunks (lt_collection s)) - ls_chunk_index state < fuel)%nat →
  ∃ rows state', LocalStorage_Scan fuel s state = Ok (rows, state') ∧ local_state_ok s state' ∧
    rows_from s (ls_chunk_index state) = rows ++ rows_from s (ls_chunk_index state') ∧
    (rows = [] → rows_from s (ls_chunk_index state) = []) ∧
    (rows ≠ [] → ls_chunk_index state < ls_chunk_index state' <= length (cc_chunks (lt_collection s)))%nat.
Proof.
  intros Hs. revert state. induction fuel as [|fuel IH]; intros state Hst Hf; [lia|].
  pose proof Hst as (lastc & Hlast & Hmax & Hcount). cbn [LocalStorage_Scan].
  assert (0 < length (cc_chunks (lt_collection s)))%nat as Hpos by (destruct (cc_chunks (lt_collection s)); [done|cbn; lia]).
  set (k := ls_chunk_index state) in *. rewrite Hmax. set (n := length (cc_chunks (lt_collection s))) in *.
  destruct (Nat.ltb_spec (pred n) k) as [Hend|Hin].
  { exists [], state. assert (rows_from s k = []) as H0.
    { unfold rows_from. pose proof (count_bound s Hs) as Hb. fold n in Hb.
      replace (cc_count (lt_collection s) - k * VS)%nat with 0%nat by nia. done. }
    split_and!; [done|done|done|done|done]. }
  destruct (lookup_lt_is_Some_2 (cc_chunks (lt_collection s)) k) as [chunk Hk]; [fold n; lia|]. rewrite Hk.
  assert ((if (k =? pred n)%nat then ls_last_chunk_count state else length chunk) = length chunk) as ->.
  { destruct (Nat.eqb_spec k (pred n)) as [Heq|]; [|done]. rewrite Hcount. rewrite last_lookup in Hlast. fold n in Hlast.
    rewrite Heq in Hk. congruence. }
  destruct (scan_chunk s k chunk Hs Hk) as [Hrows Hlen]. pose proof (rows_from_step s k chunk Hs Hk) as Hstep.
  set (state' := mkLocalScanState (S k) (pred n) (ls_last_chunk_count state)).
  assert (local_state_ok s state') as Hst' by (exists lastc; done).
  destruct (Nat.eqb_spec (length (valid_positions s k (length chunk))) 0) as [H0|H0].
  - destruct (IH state' Hst') as (rows & st2 & -> & Hst2 & Heq & Hnil & Hne); [cbn [state' ls_chunk_index]; lia|].
    exists rows, st2. rewrite Hstep, <-Hrows. rewrite H0 in Hlen. apply length_zero_iff_nil in Hlen. rewrite Hlen. cbn [app].
    cbn [state' ls_chunk_index] in *. split_and!; [done|done|done|done|]. intros Hr. specialize (Hne Hr). lia.
  - eexists _, state'. split; [reflexivity|]. split; [done|]. rewrite Hrows. cbn [state' ls_chunk_index]. split; [done|].
    rewrite Hrows in Hlen. split; [|intros _; lia].
    intros Hnil. rewrite Hnil in Hlen. cbn in Hlen. lia.
Qed.

Lemma ScanTableStorage_spec s fuel state :
  storage_ok s → local_state_ok s state → (ls_chunk_index state <= length (cc_chunks (lt_collection s)))%nat →
  (length (cc_chunks (lt_collection s)) - ls_chunk_index state < fuel)%nat →
  ∃ chunks, ScanTableStorage fuel s state = Ok chunks ∧ mjoin chunks = rows_from s (ls_chunk_index state).
Proof.
  intros Hs. revert state. induction fuel as [|fuel IH]; intros state Hst Hle Hf; [lia|]. cbn [ScanTableStorage].
  destruct (LocalStorage_Scan_spec s (local_scan_fuel state) state Hs Hst) as (rows & st2 & -> & Hst2 & Heq & Hnil & Hne).
  { destruct Hst as (lastc & Hlast & Hmax & _). unfold local_scan_fuel. rewrite Hmax. lia. }
  cbn [mbind res_bind]. destruct rows as [|row rows]; cbn [length Nat.eqb].
  - exists []. split; [done|]. by rewrite Hnil.
  - specialize (Hne ltac:(done)). destruct (IH st2 Hst2) as (chunks & -> & Hj); [lia|lia|]. cbn [mbind res_bind].
    exists ((row :: rows) :: chunks). split; [done|]. rewrite join_cons, Hj. done.
Qed.

Lemma scan_local_spec s : storage_ok s → ∃ chunks, scan_local s = Ok chunks ∧ mjoin chunks = live_rows s.
Proof.
  intros Hs. unfold scan_local, LocalTableStorage_InitializeScan. destruct (last (cc_chunks (lt_collection s))) as [chunk|] eqn:Hl.
  - pose proof (ScanTableStorage_spec s (S (S (pred (length (cc_chunks (lt_collection s))))))
      (mkLocalScanState 0 (pred (length (cc_chunks (lt_collection s)))) (length chunk)) Hs) as Hspec.
    destruct Hspec as (chunks & Heq & Hj); [by exists chunk|cbn; lia|cbn; lia|].
    cbn [ls_max_index]. exists chunks. split; [done|]. rewrite Hj. unfold rows_from, live_rows. cbn [ls_chunk_index Nat.mul].
    by rewrite Nat.sub_0_r.
  - exists []. split; [done|]. apply last_None in Hl. unfold live_rows, live_positions. by rewrite (so_count _ Hs), Hl.
Qed.

(** *** Appending and deleting *)

(** Rows that exist are not beyond the deleted ones that are counted. *)
Record storage_inv s : Prop := {
  si_ok : storage_ok s;
  si_live : (lt_deleted_rows s + length (live_rows s) = cc_count (lt_collection s))%nat;
}.

Lemma storage_inv_empty scans : storage_inv (mkLocalTableStorage ChunkCollection_new ∅ 0 scans).
Proof. split; [split|]; cbn; [done|done|intros k d; by rewrite lookup_empty|done]. Qed.

Lemma is_deleted_behind s k i : storage_ok s → (i < VS)%nat → (cc_count (lt_collection s) <= k * VS + i)%nat → is_deleted s k i = false.
Proof.
  intros Hs Hi Hle. unfold is_deleted. destruct (lt_deleted_entries s !! k) as [deleted|] eqn:Hd; [|done].
  destruct (so_deleted _ Hs k deleted Hd) as (_ & chunk & Hk & Hfalse). apply Hfalse.
  destruct (chunk_end _ _ _ Hs Hk) as (_ & Hlast & Hfull). pose proof (lookup_lt_Some _ _ _ Hk).
  destruct (decide (S k = length (cc_chunks (lt_collection s)))) as [Heq|Hne]; [specialize (Hlast Heq); lia|].
  rewrite (Hfull ltac:(lia)) in *. destruct (lookup_lt_is_Some_2 (cc_chunks (lt_collection s)) (S k)) as [c' Hk']; [lia|].
  destruct (chunk_end _ _ _ Hs Hk') as (Hle' & _). pose proof (so_full _ Hs _ _ Hk') as [Hl' _]. lia.
Qed.

Lemma length_live_positions s a n : (length (live_positions s a n) <= n)%nat.
Proof. unfold live_positions. pose proof (List.filter_length_le (λ r, negb (is_deleted s (r / VS) (r mod VS))) (seq a n)) as H. rewrite length_seq in H. done. Qed.

Lemma length_rows_with_id s (l : list nat) :
  Forall (λ r, r < length (all_rows s))%nat l → length (omap (row_with_id s) l) = length l ∧
  (omap (row_with_id s) l).*1 = (λ r, MAX_ROW_ID + Z.of_nat r) <$> l.
Proof.
  induction 1 as [|r l Hr _ [IH1 IH2]]; [done|].
  assert (∃ x, row_with_id s r = Some (MAX_ROW_ID + Z.of_nat r, x)) as [x Hx].
  { unfold row_with_id. destruct (lookup_lt_is_Some_2 (all_rows s) r Hr) as [x ->]. by exists x. }
  assert (omap (row_with_id s) (r :: l) = (MAX_ROW_ID + Z.of_nat r, x) :: omap (row_with_id s) l) as ->.
  { cbn. by rewrite Hx. }
  rewrite !fmap_cons. cbn [length fst]. by rewrite IH1, IH2.
Qed.

Lemma live_positions_lt s n r : r ∈ live_positions s 0 n → (r < n)%nat.
Proof. intros [Hr _]%list_elem_of_In%filter_In. apply list_elem_of_In, elem_of_seq in Hr. lia. Qed.

Lemma length_live_rows s : storage_ok s → length (live_rows s) = length (live_positions s 0 (cc_count (lt_collection s))).
Proof.
  intros Hs. apply length_rows_with_id. apply Forall_forall. intros r Hr%live_positions_lt. by rewrite all_rows_count.
Qed.

(** The chunks after an append. *)
Lemma ChunkCollection_Append_spec s chunk :
  storage_ok s → (length chunk <= VS)%nat →
  let s' := LocalTableStorage_Append s chunk in
  storage_ok s' ∧ all_rows s' = all_rows s ++ chunk ∧ cc_count (lt_collection s') = (cc_count (lt_collection s) + length chunk)%nat.
Proof.
  intros Hs Hlen s'. unfold s', LocalTableStorage_Append, ChunkCollection_Append.
  destruct (Nat.eqb_spec (length chunk) 0) as [H0|H0].
  { apply length_zero_iff_nil in H0 as Hc. rewrite Hc, app_nil_r. cbn. split; [|done]. destruct Hs; by split. }
  destruct s as [[chunks count] dels drows scans]. destruct Hs as [Hfull Hcount Hdel].
  unfold all_rows. cbn [lt_collection cc_chunks cc_count lt_deleted_entries] in *. destruct (last chunks) as [lastc|] eqn:Hl.
  2: { apply last_None in Hl. subst chunks. cbn in *. subst count. split; [split|split]; cbn.
    - intros [|k] x; [|done]. cbn. intros [= <-]. lia.
    - lia.
    - intros k d Hd. destruct (Hdel k d Hd) as (_ & c & Hc & _). done.
    - by rewrite app_nil_r.
    - done. }
  rewrite last_lookup in Hl. set (n := length chunks) in *.
  set (added := (length chunk `min` (VS - length lastc))%nat).
  pose proof (lookup_lt_Some _ _ _ Hl) as Hlt. fold n in Hlt. pose proof (Hfull _ _ Hl) as [Hll _].
  set (chunks1 := <[pred n := lastc ++ take added chunk]> chunks).
  assert (chunks = take (pred n) chunks ++ [lastc]) as Hsplit.
  { rewrite <-(take_drop (pred n) chunks) at 1. f_equal. rewrite (drop_S _ lastc _ Hl).
    replace (S (pred n)) with n by lia. unfold n. by rewrite drop_all. }
  assert (chunks1 = take (pred n) chunks ++ [lastc ++ take added chunk]) as Hsplit1.
  { unfold chunks1. rewrite Hsplit at 1. rewrite insert_app_r_alt by (rewrite length_take; lia).
    rewrite length_take. replace (pred n - pred n `min` length chunks)%nat with 0%nat by (fold n; lia). done. }
  assert (∀ k x, chunks1 !! k = Some x → (0 < length x <= VS)%nat ∧ (S k < n → length x = VS)%nat ∧
    (added < length chunk → length x = VS)%nat) as Hf1.
  { intros k x Hk. unfold chunks1 in Hk. destruct (decide (k = pred n)) as [->|Hne].
    - rewrite list_lookup_insert_eq in Hk by done. injection Hk as <-. rewrite length_app, length_take. unfold added. lia.
    - rewrite list_lookup_insert_ne in Hk by done. destruct (Hfull k x Hk) as [? Hfk]. apply lookup_lt_Some in Hk. fold n in Hk.
      split; [done|]. split; [done|]. intros _. apply Hfk. lia. }
  assert (length chunks1 = n) as Hn1 by apply length_insert.
  assert (mjoin chunks1 = mjoin chunks ++ take added chunk) as Hj1.
  { rewrite Hsplit1. rewrite Hsplit at 2. rewrite !join_app, !join_cons. cbn. rewrite !app_nil_r. by rewrite app_assoc. }
  assert (∀ k d, dels !! k = Some d → length d = VS ∧ ∃ c, chunks1 !! k = Some c ∧ ∀ i, (length c <= i < VS)%nat → d !!! i = false) as Hd1.
  { intros k d Hd. destruct (Hdel k d Hd) as (Hdl & c & Hc & Hfalse). split; [done|]. unfold chunks1.
    destruct (decide (k = pred n)) as [->|Hne].
    - rewrite list_lookup_insert_eq by done. eexists. split; [done|]. intros i Hi. rewrite length_app in Hi.
      apply Hfalse. rewrite Hl in Hc. injection Hc as <-. lia.
    - rewrite list_lookup_insert_ne by done. eauto. }
  destruct (Nat.ltb_spec 0 (length chunk - added)) as [Hrem|Hrem].
  - assert (mjoin (chunks1 ++ [drop added chunk]) = mjoin chunks ++ chunk) as Hj.
    { rewrite join_app, join_cons, Hj1. cbn. rewrite app_nil_r, <-app_assoc, take_drop. done. }
    split; [split|split; [exact Hj|reflexivity]]; cbn [lt_collection cc_chunks cc_count lt_deleted_entries].
    + intros k x Hk. rewrite length_app. cbn. rewrite Hn1. destruct (decide (k < n)%nat) as [Hkn|Hkn].
      * rewrite lookup_app_l in Hk by lia. destruct (Hf1 k x Hk) as (? & ? & Hx). split; [done|]. intros _. apply Hx. lia.
      * apply lookup_lt_Some in Hk as Hk2. rewrite length_app, Hn1 in Hk2. cbn in Hk2.
        assert (k = length chunks1) as -> by lia. rewrite list_lookup_middle in Hk by done. injection Hk as <-.
        rewrite length_drop. lia.
    + rewrite <-length_join, Hj, length_app, length_join. lia.
    + intros k d Hd. destruct (Hd1 k d Hd) as (? & c & Hc & ?). split; [done|]. exists c. split; [|done].
      rewrite lookup_app_l; [done|by eapply lookup_lt_Some].
  - assert (mjoin chunks1 = mjoin chunks ++ chunk) as Hj by (rewrite Hj1, take_ge; [done|lia]).
    split; [split|split; [exact Hj|reflexivity]]; cbn [lt_collection cc_chunks cc_count lt_deleted_entries].
    + intros k x Hk. rewrite Hn1. destruct (Hf1 k x Hk) as (? & ? & _). done.
    + rewrite <-length_join, Hj, length_app, length_join. lia.
    + done.
Qed.

Lemma LocalTableStorage_Append_spec s chunk :
  storage_inv s → (length chunk <= VS)%nat →
  storage_inv (LocalTableStorage_Append s chunk) ∧
  live_rows (LocalTableStorage_Append s chunk) =
    live_rows s ++ imap (λ i x, (MAX_ROW_ID + Z.of_nat (cc_count (lt_collection s) + i), x)) chunk.
Proof.
  intros [Hs Hlive] Hlen. destruct (ChunkCollection_Append_spec s chunk Hs Hlen) as (Hs' & Hall & Hcount).
  set (s' := LocalTableStorage_Append s chunk) in *. set (n := cc_count (lt_collection s)) in *.
  pose proof STANDARD_VECTOR_SIZE_pos as HVS.
  assert (live_rows s' = live_rows s ++ imap (λ i x, (MAX_ROW_ID + Z.of_nat (n + i), x)) chunk) as Heq.
  { unfold live_rows. rewrite Hcount. fold n. unfold live_positions. rewrite seq_app, List.filter_app, omap_app. cbn [Nat.add].
    change (is_deleted s') with (is_deleted s). f_equal.
    - apply omap_ext_elem. intros r [Hr _]%list_elem_of_In%filter_In. apply list_elem_of_In, elem_of_seq in Hr.
      unfold row_with_id. rewrite Hall, lookup_app_l; [done|]. rewrite all_rows_count by done. fold n. lia.
    - rewrite filter_all.
      + rewrite <-(seq_shift_fmap n), omap_fmap, <-(omap_seq (λ i x, (MAX_ROW_ID + Z.of_nat (n + i), x))).
        apply omap_ext_elem. intros i [_ Hi]%elem_of_seq. unfold row_with_id. rewrite Hall.
        rewrite lookup_app_r by (rewrite all_rows_count by done; fold n; lia).
        rewrite all_rows_count by done. fold n. by replace (n + i - n)%nat with i by lia.
      + intros r [Hr1 Hr2]%elem_of_seq. apply negb_true_iff. destruct (row_split r) as [Hsp Hmod].
        apply is_deleted_behind; [done|done|]. rewrite <-Hsp. fold n. lia. }
  split; [|done]. split; [done|]. rewrite Heq, length_app, length_imap, Hcount. cbn. lia.
Qed.

(** The row id of a position. *)
Definition local_id (r : nat) : Z := MAX_ROW_ID + Z.of_nat r.

Lemma mark_deleted_spec k rows deleted :
  Forall (λ r, (r / VS)%nat = k) rows → length deleted = VS →
  ∃ deleted', mark_deleted (MAX_ROW_ID + Z.of_nat k * Z.of_nat VS) (local_id <$> rows) deleted = Ok deleted' ∧
    length deleted' = VS ∧
    ∀ i, (i < VS)%nat → deleted' !!! i = deleted !!! i || bool_decide ((k * VS + i)%nat ∈ rows).
Proof.
  intros Hrows. revert deleted. induction Hrows as [|r rows Hr _ IH]; intros deleted Hlen.
  { exists deleted. split; [done|]. split; [done|]. intros i Hi. rewrite bool_decide_false by apply not_elem_of_nil. by rewrite orb_false_r. }
  rewrite fmap_cons. cbn [mark_deleted]. destruct (row_split r) as [Hsp Hmod]. rewrite Hr in Hsp.
  assert (u64 (local_id r - (MAX_ROW_ID + Z.of_nat k * Z.of_nat VS)) = Z.of_nat (r mod VS)) as ->.
  { unfold local_id. replace (_ - _) with (Z.of_nat (r mod VS)) by lia. apply u64_id.
    assert (Z.of_nat VS = 1024) as HVS by reflexivity. lia. }
  rewrite Hlen. rewrite (proj2 (Z.ltb_lt _ _)) by lia. rewrite Nat2Z.id.
  destruct (IH (<[(r mod VS)%nat := true]> deleted)) as (d' & -> & Hl' & Hd'); [by rewrite length_insert|].
  exists d'. split; [done|]. split; [done|]. intros i Hi. rewrite Hd' by done.
  destruct (decide (i = r mod VS)%nat) as [->|Hne].
  - rewrite list_lookup_total_insert_eq by lia. rewrite (bool_decide_true (_ ∈ r :: rows)); [by rewrite orb_true_r|].
    rewrite <-Hsp. left.
  - rewrite list_lookup_total_insert_ne by done. f_equal. apply bool_decide_ext. rewrite elem_of_cons. split; [auto|].
    intros [Heq|?]; [|done]. exfalso. apply Hne. rewrite <-Heq. by destruct (row_join k i Hi) as [_ ->].
Qed.

Lemma filter_filter_b {A} (f g : A → bool) (l : list A) : List.filter f (List.filter g l) = List.filter (λ x, g x && f x) l.
Proof. induction l as [|x l IH]; [done|]. cbn. destruct (g x); cbn; by rewrite IH. Qed.

Lemma NoDup_filter_b {A} (f : A → bool) (l : list A) : NoDup l → NoDup (List.filter f l).
Proof.
  induction 1 as [|x l Hx Hl IH]; [constructor|]. cbn. destruct (f x); [|done]. constructor; [|done].
  rewrite list_elem_of_In, filter_In. by intros [?%list_elem_of_In _].
Qed.

(** Removing distinct elements of a list without duplicates. *)
Lemma length_filter_notin (l ids : list nat) :
  NoDup l → NoDup ids → (∀ x, x ∈ ids → x ∈ l) →
  (length ids + length (List.filter (λ x, negb (bool_decide (x ∈ ids))) l) = length l)%nat.
Proof.
  intros Hl Hids Hsub. rewrite <-length_app. apply Permutation_length, NoDup_Permutation.
  - apply NoDup_app. split; [done|]. split; [|by apply NoDup_filter_b].
    intros x Hx [_ Hn]%list_elem_of_In%filter_In. by rewrite bool_decide_true in Hn.
  - done.
  - intros x. rewrite elem_of_app, (list_elem_of_In (List.filter _ _) x), filter_In, <-list_elem_of_In, negb_true_iff, bool_decide_eq_false.
    destruct (decide (x ∈ ids)); naive_solver.
Qed.

(** Deleting distinct rows of one chunk that are not deleted. *)
Lemma LocalTableStorage_Delete_spec s k rows :
  storage_inv s → rows ≠ [] → NoDup rows → Z.of_nat (cc_count (lt_collection s)) <= MAX_ROW_ID →
  (∀ r, r ∈ rows → (r / VS)%nat = k ∧ r ∈ live_positions s 0 (cc_count (lt_collection s))) →
  ∃ s', LocalTableStorage_Delete s (local_id <$> rows) = Ok s' ∧ storage_inv s' ∧
    lt_collection s' = lt_collection s ∧
    live_positions s' 0 (cc_count (lt_collection s')) =
      List.filter (λ r, negb (bool_decide (r ∈ rows))) (live_positions s 0 (cc_count (lt_collection s))).
Proof.
  intros [Hs Hlive] Hne Hnd Hmax Hrows. pose proof STANDARD_VECTOR_SIZE_pos as HVS.
  destruct rows as [|first rows'] eqn:Hr; [done|]. rewrite <-Hr in *. clear Hne.
  destruct (Hrows first) as [Hk Hfl]; [rewrite Hr; left|]. apply live_positions_lt in Hfl.
  set (deleted := default (replicate VS false) (lt_deleted_entries s !! k)).
  destruct (mark_deleted_spec k rows deleted) as (d' & Hd & Hdl & Hdi).
  { apply Forall_forall. intros r Hin. by apply Hrows. }
  { unfold deleted. destruct (lt_deleted_entries s !! k) as [d|] eqn:Hd; cbn; [by apply (so_deleted _ Hs k d)|apply length_replicate]. }
  assert (GetChunk (local_id first) = k) as Hgc.
  { unfold GetChunk, local_id. replace (_ + _ - _) with (Z.of_nat first) by lia. rewrite Z.quot_div_nonneg by lia.
    rewrite <-Nat2Z.inj_div, u64_id, Nat2Z.id; [done|]. split; [lia|]. unfold MAX_ROW_ID in Hmax.
    pose proof (Nat.Div0.div_le_upper_bound first VS first ltac:(nia)). lia. }
  assert (LocalTableStorage_Delete s (local_id <$> rows) =
    Ok (mkLocalTableStorage (lt_collection s) (<[k := d']> (lt_deleted_entries s)) (lt_deleted_rows s + length rows) (lt_active_scans s))) as ->.
  { unfold LocalTableStorage_Delete. rewrite Hr at 1. rewrite fmap_cons, Hgc. fold deleted. rewrite Hd. cbn [mbind res_bind].
    by rewrite length_fmap. }
  set (s' := mkLocalTableStorage _ _ _ _). exists s'. split; [done|].
  assert (∀ k' i, (i < VS)%nat → is_deleted s' k' i = is_deleted s k' i || bool_decide ((k' * VS + i)%nat ∈ rows)) as Hisd.
  { intros k' i Hi. unfold is_deleted. cbn [s' lt_deleted_entries]. destruct (decide (k' = k)) as [->|Hne].
    - rewrite lookup_insert_eq, Hdi by done. f_equal. unfold deleted.
      destruct (lt_deleted_entries s !! k); [done|]. by apply lookup_total_replicate_2.
    - rewrite lookup_insert_ne by done. rewrite bool_decide_false; [by rewrite orb_false_r|]. intros Hin.
      destruct (Hrows _ Hin) as [Hk' _]. destruct (row_join k' i Hi) as [Hk2 _]. congruence. }
  assert (live_positions s' 0 (cc_count (lt_collection s')) =
      List.filter (λ r, negb (bool_decide (r ∈ rows))) (live_positions s 0 (cc_count (lt_collection s)))) as Hlp.
  { unfold live_positions. rewrite filter_filter_b. apply filter_ext_elem. intros r _. destruct (row_split r) as [Hsp Hmod].
    rewrite Hisd by done. rewrite <-Hsp. by rewrite negb_orb. }
  assert (storage_ok s') as Hs'.
  { split; cbn [s' lt_collection lt_deleted_entries]; [apply (so_full _ Hs)|apply (so_count _ Hs)|].
    intros k' d. destruct (decide (k' = k)) as [->|Hne]; [rewrite lookup_insert_eq|rewrite lookup_insert_ne by done; apply (so_deleted _ Hs)].
    intros [= <-]. split; [done|].
    assert (k < length (cc_chunks (lt_collection s)))%nat as Hkl.
    { rewrite <-Hk. apply Nat.Div0.div_lt_upper_bound. pose proof (count_bound s Hs). lia. }
    destruct (lookup_lt_is_Some_2 _ _ Hkl) as [chunk Hc]. exists chunk. split; [done|]. intros i Hi.
    rewrite Hdi by lia. apply orb_false_iff. split.
    - unfold deleted. destruct (lt_deleted_entries s !! k) as [d|] eqn:Hdd; cbn [default from_option id].
      + destruct (so_deleted _ Hs k d Hdd) as (_ & c2 & Hc2 & Hf). rewrite Hc in Hc2. injection Hc2 as <-. auto.
      + apply lookup_total_replicate_2. lia.
    - apply bool_decide_false. intros Hin. destruct (Hrows _ Hin) as [_ Hl%live_positions_lt].
      destruct (chunk_end _ _ _ Hs Hc) as (_ & Hlast & Hfull).
      destruct (decide (S k = length (cc_chunks (lt_collection s)))) as [Heq|Hne]; [specialize (Hlast Heq); lia|].
      pose proof (Hfull ltac:(lia)). lia. }
  split; [|done]. split; [done|]. rewrite length_live_rows, Hlp by done. rewrite length_live_rows in Hlive by done.
  cbn [s' lt_deleted_rows lt_collection].
  pose proof (length_filter_notin (live_positions s 0 (cc_count (lt_collection s))) rows) as Hfil.
  specialize (Hfil (NoDup_filter_b _ _ (NoDup_seq _ _)) Hnd (λ r Hin, proj2 (Hrows r Hin))). lia.
Qed.

Lemma added_rows s : storage_inv s → AddedRows s = length (live_rows s).
Proof. intros [_ Hl]. unfold AddedRows. lia. Qed.

Lemma LocalStorage_Flush_ok dt vs t s :
  table_refines dt vs → storage_inv s → Z.of_nat (length vs + cc_count (lt_collection s)) <= MAX_ROW_ID →
  if decide (live_rows s = []) then LocalStorage_Flush dt t s = Ok (dt, s, [], None)
  else if dt_is_root dt then
    ∃ dt', LocalStorage_Flush dt t s =
        Ok (dt', LocalTableStorage_Clear s, (live_rows s).*2, Some (length vs, length (live_rows s))) ∧
      table_refines dt' (append_versions (length (live_rows s)) (transaction_id t) vs) ∧
      append_frame (dt_versions dt) (dt_versions dt') (length vs) ∧ dt_is_root dt' = true
  else LocalStorage_Flush dt t s =
    Throw (TransactionException "Transaction conflict: adding entries to a table that has been altered!").
Proof.
  intros Hdt Hs Hmax. pose proof (si_live _ Hs) as Hlive. unfold LocalStorage_Flush. case_decide as Hnil.
  - rewrite Hnil in Hlive. cbn [length] in Hlive. by rewrite (proj2 (Nat.leb_le _ _)) by lia.
  - assert (0 < length (live_rows s))%nat as Hpos by (destruct (live_rows s); [done|cbn; lia]).
    rewrite (proj2 (Nat.leb_gt _ _)) by lia.
    replace (cc_count (lt_collection s) - lt_deleted_rows s)%nat with (length (live_rows s)) by lia.
    destruct (dt_is_root dt) eqn:Hroot.
    + destruct (InitializeAppend_spec dt vs t (length (live_rows s)) Hdt Hroot) as (dt' & -> & Hdt' & Hf & _ & Hr'); [lia|].
      cbn [mbind res_bind]. destruct (scan_local_spec s (si_ok _ Hs)) as (chunks & -> & Hj). cbn [mbind res_bind]. rewrite Hj.
      by exists dt'.
    + unfold InitializeAppend. by rewrite Hroot.
Qed.
(** *** A list of rows as the specification

    A row that was deleted is [None]; positions do not change. *)

Inductive LocalOp : Type :=
| AppendRows (chunk : list R)
| DeleteRows (rows : list nat).

Definition apply_op s (op : LocalOp) : res LocalTableStorage :=
  match op with
  | AppendRows chunk => Ok (LocalTableStorage_Append s chunk)
  | DeleteRows rows => LocalTableStorage_Delete s (local_id <$> rows)
  end.

Fixpoint apply_ops s (ops : list LocalOp) : res LocalTableStorage :=
  match ops with
  | [] => Ok s
  | op :: ops => s ← apply_op s op; apply_ops s ops
  end.

Definition spec_op (v : list (option R)) (op : LocalOp) : list (option R) :=
  match op with
  | AppendRows chunk => v ++ (Some <$> chunk)
  | DeleteRows rows => imap (λ r o, if decide (r ∈ rows) then None else o) v
  end.

Definition spec_ops (ops : list LocalOp) : list (option R) := foldl spec_op [] ops.

(** The rows that are left, with their ids. *)
Definition spec_rows (v : list (option R)) : list (Z * R) :=
  omap (λ r, pair (local_id r) <$> mjoin (v !! r)) (seq 0 (length v)).

(** A chunk has room in a vector; deleted rows exist, differ and are in one chunk. *)
Definition op_ok (v : list (option R)) (op : LocalOp) : Prop :=
  match op with
  | AppendRows chunk => (length chunk <= VS)%nat
  | DeleteRows rows => rows ≠ [] ∧ NoDup rows ∧ ∃ k, ∀ r, r ∈ rows → (r / VS)%nat = k ∧ is_Some (mjoin (v !! r))
  end.

Fixpoint ops_ok (v : list (option R)) (ops : list LocalOp) : Prop :=
  match ops with
  | [] => True
  | op :: ops => op_ok v op ∧ ops_ok (spec_op v op) ops
  end.

Record represents s (v : list (option R)) : Prop := {
  rp_inv : storage_inv s;
  rp_length : length v = cc_count (lt_collection s);
  rp_rows : ∀ r, (r < length v)%nat → v !! r = Some (if is_deleted s (r / VS) (r mod VS) then None else all_rows s !! r);
}.

Lemma omap_filter {A B} (f : A → bool) (g : A → option B) (l : list A) :
  omap g (List.filter f l) = omap (λ x, if f x then g x else None) l.
Proof. induction l as [|x l IH]; [done|]. cbn. destruct (f x); cbn; rewrite IH; done. Qed.

Lemma represents_live_rows s v : represents s v → live_rows s = spec_rows v.
Proof.
  intros [Hi Hlen Hrows]. unfold live_rows, live_positions, spec_rows. rewrite <-Hlen, omap_filter.
  apply omap_ext_elem. intros r [_ Hr]%elem_of_seq. rewrite Hrows by lia. cbn. unfold row_with_id, local_id. by destruct (is_deleted _ _ _).
Qed.

Lemma represents_live s v r : represents s v → r ∈ live_positions s 0 (cc_count (lt_collection s)) ↔ is_Some (mjoin (v !! r)).
Proof.
  intros [Hi Hlen Hrows]. unfold live_positions. rewrite list_elem_of_In, filter_In, <-list_elem_of_In, elem_of_seq, negb_true_iff.
  pose proof (all_rows_count s (si_ok _ Hi)) as Hall. destruct (decide (r < length v)%nat) as [Hlt|Hge].
  - rewrite Hrows by done. cbn. destruct (is_deleted _ _ _); [split; [by intros [_ ?]|by intros [? ?]]|].
    split; [intros _; apply lookup_lt_is_Some; lia|]. intros _. split; [lia|done].
  - rewrite lookup_ge_None_2 by lia. split; [lia|by intros [? ?]].
Qed.

Lemma apply_op_spec s v op :
  represents s v → op_ok v op → Z.of_nat (length (spec_op v op)) <= MAX_ROW_ID →
  ∃ s', apply_op s op = Ok s' ∧ represents s' (spec_op v op).
Proof.
  intros Hrp Hop Hmax. pose proof Hrp as [Hi Hlen Hrows]. destruct op as [chunk|rows]; cbn [apply_op spec_op op_ok] in *.
  - eexists. split; [reflexivity|]. destruct (LocalTableStorage_Append_spec s chunk Hi Hop) as [Hi' _].
    destruct (ChunkCollection_Append_spec s chunk (si_ok _ Hi) Hop) as (Hs' & Hall & Hcount).
    pose proof (all_rows_count s (si_ok _ Hi)) as Hac. split; [done|by rewrite length_app, length_fmap, Hcount, Hlen|].
    intros r Hr. rewrite Hall. rewrite length_app, length_fmap in Hr.
    change (is_deleted (LocalTableStorage_Append s chunk)) with (is_deleted s).
    destruct (decide (r < length v)%nat) as [Hlt|Hge].
    + rewrite !lookup_app_l by lia. by apply Hrows.
    + rewrite !lookup_app_r by lia. destruct (row_split r) as [Hsp Hmod].
      rewrite is_deleted_behind; [|apply Hi|done|lia]. rewrite list_lookup_fmap, Hac, <-Hlen.
      destruct (lookup_lt_is_Some_2 chunk (r - length v)) as [x ->]; [lia|done].
  - destruct Hop as (Hne & Hnd & k & Hk). unfold spec_op in Hmax. rewrite length_imap in Hmax.
    destruct (LocalTableStorage_Delete_spec s k rows Hi Hne Hnd) as (s' & Heq & Hi' & Hcol & Hlp); [lia| |].
    { intros r Hr. destruct (Hk r Hr) as [? ?]. split; [done|]. by apply (represents_live s v). }
    exists s'. split; [done|]. split; [done|by rewrite length_imap, Hcol|].
    intros r Hr. rewrite length_imap in Hr. unfold all_rows. rewrite Hcol. fold (all_rows s).
    assert (is_deleted s' (r / VS) (r mod VS) = is_deleted s (r / VS) (r mod VS) || bool_decide (r ∈ rows)) as ->.
    { assert (∀ q, (q < length v)%nat → q ∈ live_positions s' 0 (cc_count (lt_collection s')) ↔ is_deleted s' (q / VS) (q mod VS) = false) as Hq.
      { intros q Hq. unfold live_positions. rewrite list_elem_of_In, filter_In, <-list_elem_of_In, elem_of_seq, negb_true_iff, Hcol.
        split; [by intros [_ ?]|intros; split; [lia|done]]. }
      apply eq_true_iff_eq. rewrite <-!not_false_iff_true. apply not_iff_compat. rewrite <-Hq, Hlp by done.
      unfold live_positions. rewrite !list_elem_of_In, !filter_In, <-list_elem_of_In, elem_of_seq, !negb_true_iff, orb_false_iff.
      split; [by intros [[_ ?] ?]|intros [? ?]; split; [split; [lia|done]|done]]. }
    rewrite list_lookup_imap, Hrows by done. cbn. f_equal. case_decide as Hd.
    + by rewrite bool_decide_true, orb_true_r.
    + by rewrite bool_decide_false, orb_false_r.
Qed.

Lemma apply_ops_spec s v ops :
  represents s v → ops_ok v ops → Z.of_nat (length (foldl spec_op v ops)) <= MAX_ROW_ID →
  ∃ s', apply_ops s ops = Ok s' ∧ represents s' (foldl spec_op v ops).
Proof.
  revert s v. induction ops as [|op ops IH]; intros s v Hrp Hops Hmax; cbn [apply_ops foldl]; [by exists s|].
  destruct Hops as [Hop Hops]. cbn [foldl] in Hmax.
  assert (∀ w, (length w <= length (foldl spec_op w ops))%nat) as Hgrow.
  { clear. induction ops as [|op ops IH]; intros w; cbn [foldl]; [done|]. etrans; [|apply IH].
    destruct op; cbn [spec_op]; rewrite ?length_app, ?length_imap; lia. }
  pose proof (Hgrow (spec_op v op)).
  destruct (apply_op_spec s v op Hrp Hop) as (s1 & -> & Hrp1); [lia|]. by apply IH.
Qed.

(** C33: the local storage of a transaction for a table is a list of rows.  After
    any appends of chunks and deletions, each of distinct rows that are left in
    one chunk, a scan returns the rows that are left, in order and with their
    ids; a flush to a current table appends exactly these rows, for as many rows
    as it reserves in the table, and leaves the storage empty.  Deleting a row
    twice breaks this: see [double_delete_loses_rows]. *)
Theorem LocalStorage_refines_list dt vs t ops :
  table_refines dt vs → dt_is_root dt = true → ops_ok [] ops → spec_rows (spec_ops ops) ≠ [] →
  Z.of_nat (length vs + length (spec_ops ops)) <= MAX_ROW_ID →
  let rows := spec_rows (spec_ops ops) in
  ∃ s chunks dt', apply_ops LocalTableStorage_new ops = Ok s ∧
    scan_local s = Ok chunks ∧ mjoin chunks = rows ∧ AddedRows s = length rows ∧
    LocalStorage_Flush dt t s =
      Ok (dt', LocalTableStorage_Clear s, rows.*2, Some (length vs, length rows)) ∧
    table_refines dt' (append_versions (length rows) (transaction_id t) vs).
Proof.
  intros Hdt Hroot Hops Hne Hmax rows.
  assert (represents LocalTableStorage_new []) as H0 by (split; [apply storage_inv_empty|done|cbn; lia]).
  destruct (apply_ops_spec _ [] ops H0 Hops) as (s & Heq & Hrp); [unfold spec_ops in Hmax; lia|].
  pose proof (represents_live_rows _ _ Hrp) as Hlive. pose proof Hrp as [Hi Hlen _].
  destruct (scan_local_spec s (si_ok _ Hi)) as (chunks & Hscan & Hj).
  pose proof (LocalStorage_Flush_ok dt vs t s Hdt Hi) as Hf. rewrite <-Hlen in Hf. fold (spec_ops ops) in *.
  specialize (Hf Hmax). rewrite Hlive in Hf, Hj. fold rows in Hlive, Hf, Hj. rewrite decide_False, Hroot in Hf by done.
  destruct Hf as (dt' & Hflush & Hdt' & _). exists s, chunks, dt'. split_and!; try done.
  rewrite added_rows by done. by rewrite Hlive.
Qed.
End storage.
Arguments ChunkCollection : clear implicits.
Arguments LocalTableStorage : clear implicits.

(** ** Witnesses *)

(** Three rows, of which one is deleted, and another one. *)
Definition ex_ops : list (LocalOp (R := Z)) := [AppendRows [10; 20; 30]; DeleteRows [1%nat]; AppendRows [40]].

Lemma LocalStorage_refines_list_witness :
  spec_rows (spec_ops ex_ops) = [(MAX_ROW_ID, 10); (MAX_ROW_ID + 2, 30); (MAX_ROW_ID + 3, 40)] ∧
  ∃ s chunks dt', apply_ops LocalTableStorage_new ex_ops = Ok s ∧
    scan_local s = Ok chunks ∧ mjoin chunks = spec_rows (spec_ops ex_ops) ∧ AddedRows s = 3%nat ∧
    LocalStorage_Flush DataTable_new (Transaction_new 1 (TRANSACTION_ID_START + 1) 0) s =
      Ok (dt', LocalTableStorage_Clear s, [10; 30; 40], Some (0%nat, 3%nat)) ∧
    table_refines dt' (append_versions 3 (TRANSACTION_ID_START + 1) []).
Proof.
  split; [reflexivity|].
  apply (LocalStorage_refines_list DataTable_new [] (Transaction_new 1 (TRANSACTION_ID_START + 1) 0) ex_ops).
  - apply DataTable_new_refines.
  - reflexivity.
  - assert (1 / VS = 0)%nat as Hdiv by (apply Nat.div_small, Nat.ltb_lt; by vm_compute).
    split; [apply Nat.leb_le; by vm_compute|]. split; [|split; [apply Nat.leb_le; by vm_compute|done]].
    split; [done|]. split; [apply NoDup_singleton|]. exists 0%nat. intros r ->%list_elem_of_singleton. split; [exact Hdiv|by eexists].
  - by vm_compute.
  - by vm_compute.
Defined.

(** A row that is given twice is counted twice: the flush reserves one row of the
    table for the two rows that are left. *)
Lemma double_delete_loses_rows :
  ∃ s s' dt', LocalTableStorage_Delete (LocalTableStorage_Append LocalTableStorage_new [10; 20; 30]) [local_id 0; local_id 0] = Ok s ∧
    LocalStorage_Flush DataTable_new (Transaction_new 1 (TRANSACTION_ID_START + 1) 0) s = Ok (dt', s', [20; 30], Some (0%nat, 1%nat)) ∧
    dt_total_rows dt' = 1%nat.
Proof. eexists _, _, _. split; [vm_compute; reflexivity|]. split; [vm_compute; reflexivity|]. reflexivity. Qed.
