(* ===== verification/TableStore.v ===== *)
(** * A table under the transaction manager

    Puts the rows of a table and the local storage of its transactions under
    src/src/transaction/transaction_manager.cpp: the entries for appended and
    deleted rows of commit_state.cpp, rollback_state.cpp and cleanup_state.cpp,
    in the orders in which undo_buffer.cpp visits them, and
    [Transaction::Commit] with its error path.

    The manager rolls back a transaction whose commit failed before it releases
    its lock: the two are one step of the system.  Threads that flush their local
    storage do not take that lock, and [revert_race] shows what happens when one
    comes between.

    Theorems: the table keeps every promise of [SnapshotStoreLaws], so scans of
    a running transaction return the same rows whatever others do; what a commit
    and a rollback do to the versions of all rows. *)

From S2P Require Import Prelude Constants Serializer ChunkInfo MorselInfo SegmentTree.
From S2P Require Import DataTable TableCommit LocalStorage TransactionManager SnapshotKeys.

(** [AppendInfo] and [DeleteInfo]; the latter with the position of its morsel. *)
Inductive UndoEntry : Set :=
| InsertEntry (start_row count : nat)
| DeleteEntry (p : nat * DeleteInfo).

Section store.
Context {R : Type}.

Record TableDB : Type := mkTableDB {
  tdb_table : DataTable;
  tdb_undo : gmap Z (list UndoEntry);
  tdb_local : gmap Z (LocalTableStorage R);
}.
Implicit Types (db : TableDB) (t : Transaction) (dt : DataTable) (es : list UndoEntry).

Definition undo_of db (tid : Z) : list UndoEntry := default [] (tdb_undo db !! tid).

Definition local_of db (tid : Z) : LocalTableStorage R := default LocalTableStorage_new (tdb_local db !! tid).

Definition push_undo (tid : Z) es db : TableDB :=
  mkTableDB (tdb_table db) (<[tid := undo_of db tid ++ es]> (tdb_undo db)) (tdb_local db).

Definition set_local (tid : Z) (s : LocalTableStorage R) db : TableDB :=
  mkTableDB (tdb_table db) (tdb_undo db) (<[tid := s]> (tdb_local db)).

Definition set_table dt db : TableDB := mkTableDB dt (tdb_undo db) (tdb_local db).

(** ** The operations of a running transaction *)

(** [LocalStorage::Flush], which pushes an entry for the rows it appended. *)
Definition TableDB_Flush db t : out TableDB unit :=
  match LocalStorage_Flush (tdb_table db) t (local_of db (transaction_id t)) with
  | Throw e => Raise db e
  | Ok (dt, s, _, entry) =>
      let db := set_local (transaction_id t) s (set_table dt db) in
      match entry with
      | None => Ret db tt
      | Some (start_row, count) => Ret (push_undo (transaction_id t) [InsertEntry start_row count] db) tt
      end
  end.

(** [DataTable::Append] and [LocalStorage::Append]: large local data goes to the
    table before the commit. *)
Definition TableDB_Append db t (chunk : list R) : out TableDB unit :=
  if (length chunk =? 0)%nat then Ret db tt
  else if negb (dt_is_root (tdb_table db)) then
    Raise db (TransactionException "Transaction conflict: adding entries to a table that has been altered!")
  else
    let s := LocalTableStorage_Append (local_of db (transaction_id t)) chunk in
    let db := set_local (transaction_id t) s db in
    if (lt_active_scans s =? 0)%nat && (MORSEL_SIZE * 2 <=? cc_count (lt_collection s))%nat then TableDB_Flush db t
    else Ret db tt.

(** [DataTable::Delete] *)
Definition TableDB_Delete db t (ids : list Z) : out TableDB unit :=
  match ids with
  | [] => Ret db tt
  | first_id :: _ =>
      if MAX_ROW_ID <=? first_id then
        match tdb_local db !! transaction_id t with
        | None => Raise db (UndefinedBehaviour "no local storage")
        | Some s =>
            match LocalTableStorage_Delete s ids with
            | Ok s => Ret (set_local (transaction_id t) s db) tt
            | Throw e => Raise db e
            end
        end
      else
        match DataTable_Delete (tdb_table db) t (Z.to_nat <$> ids) with
        | Ret (dt, undo) _ => Ret (push_undo (transaction_id t) (DeleteEntry <$> undo) (set_table dt db)) tt
        | Raise (dt, undo) e => Raise (push_undo (transaction_id t) (DeleteEntry <$> undo) (set_table dt db)) e
        end
  end.

(** A scan of the local storage begins or ends. *)
Definition TableDB_LocalScan db t (begin : bool) : TableDB :=
  match tdb_local db !! transaction_id t with
  | None => db
  | Some s => set_local (transaction_id t) (SetStorage begin s) db
  end.

(** The table was replaced by an altered one: [parent.is_root = false]. *)
Definition TableDB_Alter db : TableDB :=
  set_table (mkDataTable (dt_versions (tdb_table db)) (dt_total_rows (tdb_table db)) (dt_cardinality (tdb_table db)) false) db.

(** ** Commit, rollback and cleanup of the entries *)

(** The entries one after the other, until one throws. *)
Fixpoint run_entries (f : DataTable → UndoEntry → res DataTable) es dt : out DataTable unit :=
  match es with
  | [] => Ret dt tt
  | e :: es => match f dt e with Ok dt => run_entries f es dt | Throw ex => Raise dt ex end
  end.

(** The entries that were visited, with the one that threw. *)
Fixpoint visited (f : DataTable → UndoEntry → res DataTable) es dt : list UndoEntry :=
  match es with
  | [] => []
  | e :: es => e :: match f dt e with Ok dt => visited f es dt | Throw _ => [] end
  end.

(** [CommitState::CommitEntry], without a write-ahead log. *)
Definition CommitEntry (commit_id : Z) dt (e : UndoEntry) : res DataTable :=
  match e with
  | InsertEntry start_row count => CommitAppend dt commit_id start_row count
  | DeleteEntry p => Ok (apply_delete commit_id dt p)
  end.

(** [CommitState::RevertCommit] *)
Definition RevertCommit (tid : Z) dt (e : UndoEntry) : res DataTable :=
  match e with
  | InsertEntry start_row count => RevertAppend dt start_row count
  | DeleteEntry p =>
      let dt := mkDataTable (dt_versions dt) (dt_total_rows dt)
        (u64 (dt_cardinality dt + Z.of_nat (length (di_rows p.2)))) (dt_is_root dt) in
      Ok (apply_delete tid dt p)
  end.

(** [RollbackState::RollbackEntry] *)
Definition RollbackEntry dt (e : UndoEntry) : res DataTable :=
  match e with
  | InsertEntry start_row count => RevertAppend dt start_row count
  | DeleteEntry p => Ok (apply_delete NOT_DELETED_ID dt p)
  end.

(** [CleanupState::CleanupEntry], for a table without indexes. *)
Definition CleanupEntry dt (e : UndoEntry) : res DataTable :=
  match e with
  | InsertEntry _ _ => Ok dt
  | DeleteEntry p =>
      Ok (mkDataTable (dt_versions dt) (dt_total_rows dt)
        (u64 (dt_cardinality dt - Z.of_nat (length (di_rows p.2)))) (dt_is_root dt))
  end.

(** [Exception::ExceptionTypeToString] and [std::exception::what]. *)
Definition what (e : exception) : string :=
  match e with
  | Exception msg => msg
  | TransactionException msg => "TransactionContext Error: " +:+ msg
  | CatalogException msg => "Catalog Error: " +:+ msg
  | OutOfRangeException msg => "Out of Range Error: " +:+ msg
  | ValueOutOfRangeException msg | ConversionException msg => "Conversion Error: " +:+ msg
  | SerializationException msg => "Serialization Error: " +:+ msg
  | InvalidInputException msg => "Invalid Input Error: " +:+ msg
  | NotImplementedException msg => "Not implemented Error: " +:+ msg
  | InternalException msg => "INTERNAL Error: " +:+ msg
  | InvalidTypeException msg => "Invalid type Error: " +:+ msg
  | ConstraintException msg => "Constraint Error: " +:+ msg
  | IOException msg => "IO Error: " +:+ msg
  | UndefinedBehaviour msg => msg
  end.

(** [UndoBuffer::Rollback], in reverse order; the transaction is gone after it. *)
Definition TableDB_Rollback db (tid : Z) : TableDB :=
  mkTableDB (out_state (run_entries RollbackEntry (reverse (undo_of db tid)) (tdb_table db)))
    (delete tid (tdb_undo db)) (delete tid (tdb_local db)).

(** [UndoBuffer::Cleanup] *)
Definition TableDB_Cleanup db (tid : Z) : TableDB :=
  mkTableDB (out_state (run_entries CleanupEntry (undo_of db tid) (tdb_table db)))
    (delete tid (tdb_undo db)) (tdb_local db).

(** [UndoBuffer::RevertCommit] *)
Definition TableDB_RevertCommit db (tid : Z) es : TableDB :=
  set_table (out_state (run_entries (RevertCommit tid) es (tdb_table db))) db.

(** [Transaction::Commit]: [LocalStorage::Commit], then [UndoBuffer::Commit].  The
    entries up to the one that failed are reverted; when the flush of the local
    storage fails, the iterator that says how far the commit came is not set, and
    all entries are. *)
Definition TableDB_Commit db t (commit_id : Z) : TableDB * string :=
  let tid := transaction_id t in
  let flushed := match tdb_local db !! tid with None => Ret db tt | Some _ => TableDB_Flush db t end in
  match flushed with
  | Raise db e => (TableDB_RevertCommit db tid (undo_of db tid), what e)
  | Ret db _ =>
      let db := mkTableDB (tdb_table db) (tdb_undo db) (delete tid (tdb_local db)) in
      match run_entries (CommitEntry commit_id) (undo_of db tid) (tdb_table db) with
      | Ret dt _ => (set_table dt db, ""%string)
      | Raise dt e =>
          (TableDB_RevertCommit (set_table dt db) tid (visited (CommitEntry commit_id) (undo_of db tid) (tdb_table db)), what e)
      end
  end.

#[export] Instance TableEffects : TransactionEffects TableDB := {
  InMemory _ := false;
  GetCatalogVersion _ := 0;
  ChangesMade db t := bool_decide (undo_of db (transaction_id t) ≠ [] ∨ is_Some (tdb_local db !! transaction_id t));
  AutomaticCheckpoint _ _ := false;
  Commit db t commit_id _ := TableDB_Commit db t commit_id;
  Rollback db t := TableDB_Rollback db (transaction_id t);
  Cleanup db t := TableDB_Cleanup db (transaction_id t);
  CreateCheckpoint db := db;
}.

(** The rows in the local storage of all transactions. *)
Definition local_total (m : gmap Z (LocalTableStorage R)) : nat :=
  sum_list ((λ p : Z * LocalTableStorage R, cc_count (lt_collection p.2)) <$> map_to_list m).

(** What a running transaction does.  Row ids of tables are below those of local
    storage.  The row ids that it deletes come from a
    scan: rows of one morsel of the table, or different rows of one local chunk. *)
Inductive table_works db (k : Z * Z) : TableDB → Prop :=
| works_append t chunk :
    key t = k → (length chunk <= VS)%nat →
    Z.of_nat (dt_total_rows (tdb_table db) + local_total (tdb_local db) + length chunk) <= MAX_ROW_ID →
    table_works db k (out_state (TableDB_Append db t chunk))
| works_delete t ids :
    key t = k → delete_pre (tdb_table db) ids → table_works db k (out_state (TableDB_Delete db t (Z.of_nat <$> ids)))
| works_delete_local t rows s j :
    key t = k → rows ≠ [] → NoDup rows → tdb_local db !! transaction_id t = Some s →
    (∀ r, r ∈ rows → (r / VS)%nat = j ∧ r ∈ live_positions s 0 (cc_count (lt_collection s))) →
    table_works db k (out_state (TableDB_Delete db t (local_id <$> rows)))
| works_scan t begin : key t = k → table_works db k (TableDB_LocalScan db t begin)
| works_alter t : key t = k → table_works db k (TableDB_Alter db).

(** ** The invariant *)

Record table_inv db (next : Z) (act : list (Z * Z)) (rec : list (Z * Z * Z)) (vs : list (Z * Z)) : Prop := {
  ti_keys : keys_ok act rec;
  ti_next : TRANSACTION_ID_START <= next <= NOT_DELETED_ID;
  ti_act : ∀ k, k ∈ act → k.2 < next;
  ti_table : table_refines (tdb_table db) vs;
  ti_room : Z.of_nat (length vs + local_total (tdb_local db)) <= MAX_ROW_ID;
  (** a row was inserted by a transaction that is or was running *)
  ti_inserted : ∀ r v, vs !! r = Some v → v.1 < next;
  (** a row is deleted, or is being deleted by a transaction that can undo it *)
  ti_deleted : ∀ r v, vs !! r = Some v → v.2 = NOT_DELETED_ID ∨ v.2 < TRANSACTION_ID_START ∨
    ∃ st p, (st, v.2) ∈ act ∧ DeleteEntry p ∈ undo_of db v.2 ∧ r ∈ dentry_rows p;
  ti_owned : ∀ st tid r v, (st, tid) ∈ act → vs !! r = Some v → v.1 = tid →
    v.2 = NOT_DELETED_ID ∧ ∃ s n, InsertEntry s n ∈ undo_of db tid ∧ (s <= r < s + n)%nat;
  ti_inserts : ∀ st tid s n, (st, tid) ∈ act → InsertEntry s n ∈ undo_of db tid →
    (0 < n ∧ s + n <= length vs)%nat ∧ cut_ok (dt_versions (tdb_table db)) s ∧
    cut_ok (dt_versions (tdb_table db)) (s + n) ∧
    ∀ r, (s <= r < s + n)%nat → ∃ v, vs !! r = Some v ∧ v.1 = tid;
  ti_disjoint : ∀ st tid s n s' n', (st, tid) ∈ act → InsertEntry s n ∈ undo_of db tid →
    InsertEntry s' n' ∈ undo_of db tid → (s + n <= s' ∨ s' + n' <= s ∨ s = s' ∧ n = n')%nat;
  ti_deletes : ∀ st tid p, (st, tid) ∈ act → DeleteEntry p ∈ undo_of db tid →
    dentry_ok (dt_versions (tdb_table db)) p ∧ dentry_rows p ≠ [] ∧
    ∀ r, r ∈ dentry_rows p → ∃ v, vs !! r = Some v ∧ v.1 < TRANSACTION_ID_START ∧ v.2 = tid;
  ti_fresh : ∀ tid, next <= tid → undo_of db tid = [] ∧ tdb_local db !! tid = None;
  ti_local : ∀ tid s, tdb_local db !! tid = Some s → storage_inv s;
}.

#[export] Instance TableSnapshots : SnapshotStore TableDB () (res (list nat)) := {
  view db st tid _ :=
    if 0 <? st then scan_from (tdb_table db) (Transaction_new st tid 0) (InitializeScan (tdb_table db)) else Ok [];
  store_ok db next act rec := ∃ vs, table_inv db next act rec vs;
  works := table_works;
}.

(** ** What a snapshot sees *)

Definition sees (t : Transaction) (vs : list (Z * Z)) (r : nat) : bool :=
  match vs !! r with Some v => row_visible t v | None => false end.

Lemma visible_rows_sees t vs n :
  (length vs <= n)%nat → visible_rows t vs 0 (length vs) = List.filter (sees t vs) (seq 0 n).
Proof.
  intros Hn. replace n with (length vs + (n - length vs))%nat by lia. rewrite seq_app, List.filter_app.
  rewrite (filter_none _ (seq (0 + length vs) _)), app_nil_r.
  - apply filter_ext_elem. intros r [_ Hr]%elem_of_seq. unfold sees.
    by rewrite (list_lookup_lookup_total_lt vs r) by lia.
  - intros r [Hr _]%elem_of_seq. unfold sees. by rewrite lookup_ge_None_2 by lia.
Qed.

(** A scan returns what the snapshot sees. *)
Lemma scan_sees dt dt' vs vs' t :
  table_refines dt vs → table_refines dt' vs' → scan_snapshot t → (∀ r, sees t vs' r = sees t vs r) →
  scan_from dt' t (InitializeScan dt') = scan_from dt t (InitializeScan dt).
Proof.
  intros Hdt Hdt' Ht Hsees.
  rewrite (scan_from_spec dt vs t), (scan_from_spec dt' vs' t) by (try done; by apply InitializeScan_ok).
  cbn [InitializeScan ts_max_row ts_current_row]. rewrite (tr_total _ _ Hdt), (tr_total _ _ Hdt'), !Nat.sub_0_r. f_equal.
  rewrite (visible_rows_sees t vs (length vs + length vs')), (visible_rows_sees t vs' (length vs + length vs')) by lia.
  apply filter_ext_elem. auto.
Qed.

Lemma same_table_views db db' next act rec vs vs' tid :
  table_inv db next act rec vs → table_refines (tdb_table db') vs' →
  (∀ st i r, (st, i) ∈ act → i ≠ tid → 0 < st → sees (Transaction_new st i 0) vs' r = sees (Transaction_new st i 0) vs r) →
  same_views (without tid act) db db'.
Proof.
  intros Hi Hdt' Hsees st i o [Hin Hne]%without_spec. cbn. destruct (Z.ltb_spec 0 st) as [Hst|]; [|done].
  apply (scan_sees _ _ vs vs'); [apply Hi|done| |intros r; by apply Hsees].
  pose proof (ko_act _ _ (ti_keys _ _ _ _ _ Hi) _ _ Hin) as [[? ?] ?]. pose proof (ti_next _ _ _ _ _ Hi).
  pose proof (ti_act _ _ _ _ _ Hi _ Hin). cbn in *. split; cbn; [done|]. split; [|lia].
  unfold TRANSACTION_ID_START, NOT_DELETED_ID in *. lia.
Qed.

(** Ids of one transaction do not matter to another. *)
Lemma UseVersion_other st i id : st < TRANSACTION_ID_START → TRANSACTION_ID_START <= id → id ≠ i → UseVersion st i id = false.
Proof. intros. apply UseVersion_false. lia. Qed.

(** ** Local storage *)

Lemma sum_list_perm (l l' : list nat) : l ≡ₚ l' → sum_list l = sum_list l'.
Proof. induction 1; cbn in *; lia. Qed.

Lemma local_total_delete (m : gmap Z (LocalTableStorage R)) k s :
  m !! k = Some s → local_total m = (cc_count (lt_collection s) + local_total (delete k m))%nat.
Proof.
  intros Hk. unfold local_total. rewrite <-(sum_list_perm _ _ (fmap_Permutation _ _ _ (map_to_list_delete m k s Hk))).
  by rewrite fmap_cons, sum_list_cons.
Qed.

Lemma local_total_insert (m : gmap Z (LocalTableStorage R)) k s :
  local_total (<[k := s]> m) = (cc_count (lt_collection s) + local_total (delete k m))%nat.
Proof. rewrite (local_total_delete _ k s) by apply lookup_insert_eq. by rewrite delete_insert_eq. Qed.

(** The local storage of a transaction and that of the others. *)
Lemma local_total_of db tid :
  local_total (tdb_local db) = (cc_count (lt_collection (local_of db tid)) + local_total (delete tid (tdb_local db)))%nat.
Proof.
  unfold local_of. destruct (tdb_local db !! tid) as [s|] eqn:Hs; cbn [default from_option id].
  - by apply local_total_delete.
  - by rewrite delete_id by done.
Qed.

Lemma local_of_inv db next act rec vs tid : table_inv db next act rec vs → storage_inv (local_of db tid).
Proof.
  intros Hi. unfold local_of. destruct (tdb_local db !! tid) as [s|] eqn:Hs; cbn [default from_option id].
  - by apply (ti_local _ _ _ _ _ Hi tid).
  - apply storage_inv_empty.
Qed.

Lemma table_undo_push tid es db tid' :
  undo_of (push_undo tid es db) tid' = if decide (tid' = tid) then undo_of db tid ++ es else undo_of db tid'.
Proof.
  unfold undo_of, push_undo. cbn. case_decide; [subst; by rewrite lookup_insert_eq|by rewrite lookup_insert_ne].
Qed.

(** ** Starting, appending and deleting *)

Lemma start_ok db next act rec vs st tid :
  table_inv db next act rec vs → next <= tid → Forall (λ k, k.1 < st ∧ k.2 < tid) act →
  Forall (λ r, r.2 < st ∧ r.1.2 < tid) rec →
  0 <= st < TRANSACTION_ID_START - 1 → TRANSACTION_ID_START <= tid < NOT_DELETED_ID →
  table_inv db (tid + 1) (act ++ [(st, tid)]) rec vs.
Proof.
  intros Hi Hnext Hact Hrec Hst Htid. pose proof (ti_fresh _ _ _ _ _ Hi tid Hnext) as [Hu _].
  assert (∀ st' tid', (st', tid') ∈ act ++ [(st, tid)] → (st', tid') ∈ act ∨ tid' = tid) as Hin.
  { intros st' tid' [?|[= -> ->]%list_elem_of_singleton]%elem_of_app; auto. }
  destruct Hi as [Hk Hn Ha Ht Hroom Hins Hdel Howned Hinserts Hdisj Hdels Hfresh Hlocal]. split; try done.
  - apply keys_start; try done. split; [done|lia].
  - lia.
  - intros k [Hka| ->%list_elem_of_singleton]%elem_of_app; [specialize (Ha k Hka)|cbn]; lia.
  - intros r v Hv. specialize (Hins r v Hv). lia.
  - intros r v Hv. destruct (Hdel r v Hv) as [?|[?|(st' & p & ? & ?)]]; [auto|auto|right; right].
    exists st', p. split; [apply elem_of_app; by left|done].
  - intros st' tid' r v [Hin'| ->]%Hin Hv Hv1; [by eapply Howned|]. specialize (Hins r v Hv). lia.
  - intros st' tid' s n [Hin'| ->]%Hin He; [by eapply Hinserts|]. rewrite Hu in He. by apply elem_of_nil in He.
  - intros st' tid' s n s' n' [Hin'| ->]%Hin He; [by eapply Hdisj|]. rewrite Hu in He. by apply elem_of_nil in He.
  - intros st' tid' p [Hin'| ->]%Hin He; [by eapply Hdels|]. rewrite Hu in He. by apply elem_of_nil in He.
  - intros tid' Htid'. apply Hfresh. lia.
Qed.

(** Replacing the local storage of a running transaction. *)
Lemma set_local_ok db next act rec vs st tid s :
  table_inv db next act rec vs → (st, tid) ∈ act → storage_inv s →
  Z.of_nat (length vs + (cc_count (lt_collection s) + local_total (delete tid (tdb_local db)))) <= MAX_ROW_ID →
  table_inv (set_local tid s db) next act rec vs.
Proof.
  intros Hi Hin Hs Hroom. pose proof (ti_act _ _ _ _ _ Hi _ Hin) as Hlt. cbn in Hlt.
  destruct Hi as [Hk Hn Ha Ht _ Hins Hdel Howned Hinserts Hdisj Hdels Hfresh Hlocal].
  split; try done; cbn [set_local tdb_local tdb_table].
  - by rewrite local_total_insert.
  - intros tid' Htid'. destruct (Hfresh tid' Htid') as [? ?]. split; [done|]. rewrite lookup_insert_ne by lia. done.
  - intros tid' s'. destruct (decide (tid' = tid)) as [->|Hne].
    + rewrite lookup_insert_eq. by intros [= <-].
    + rewrite lookup_insert_ne by done. apply Hlocal.
Qed.

(** Appending rows behind the last one. *)
Lemma append_ok db next act rec vs st tid dt' n :
  table_inv db next act rec vs → (st, tid) ∈ act → (0 < n)%nat →
  table_refines dt' (append_versions n tid vs) →
  append_frame (dt_versions (tdb_table db)) (dt_versions dt') (length vs) →
  Z.of_nat (length vs + n + local_total (tdb_local db)) <= MAX_ROW_ID →
  table_inv (push_undo tid [InsertEntry (length vs) n] (set_table dt' db)) next act rec (append_versions n tid vs).
Proof.
  intros Hi Hin Hn Hdt' Hf Hroom. pose proof (ti_act _ _ _ _ _ Hi _ Hin) as Hlt. cbn in Hlt.
  pose proof (ko_act _ _ (ti_keys _ _ _ _ _ Hi) _ _ Hin) as [_ Htid].
  pose proof (cut_ok_end _ _ (tr_versions _ _ Hdt')) as Hend. rewrite length_append_versions in Hend.
  pose proof (cut_ok_end _ _ (tr_versions _ _ (ti_table _ _ _ _ _ Hi))) as Hend0.
  destruct Hi as [Hk Hnx Ha Ht _ Hins Hdel Howned Hinserts Hdisj Hdels Hfresh Hlocal].
  assert (∀ tid' e, e ∈ undo_of (push_undo tid [InsertEntry (length vs) n] (set_table dt' db)) tid' ↔
    e ∈ undo_of db tid' ∨ tid' = tid ∧ e = InsertEntry (length vs) n) as Hundo.
  { intros tid' e. rewrite table_undo_push. change (undo_of (set_table dt' db)) with (undo_of db). case_decide as Heq.
    - subst. rewrite elem_of_app, list_elem_of_singleton. tauto.
    - naive_solver. }
  assert (∀ r v, append_versions n tid vs !! r = Some v →
    vs !! r = Some v ∨ (length vs <= r < length vs + n)%nat ∧ v = (tid, NOT_DELETED_ID)) as Hlook.
  { intros r v [?|[Hge Hr]]%lookup_app_Some; [by left|]. apply lookup_replicate in Hr as [-> ?]. right. split; [lia|done]. }
  assert (∀ r v, vs !! r = Some v → append_versions n tid vs !! r = Some v) as Hmono.
  { intros r v Hv. unfold append_versions. rewrite lookup_app_l; [done|by eapply lookup_lt_Some]. }
  split; try done; cbn [push_undo set_table tdb_table tdb_local].
  - by rewrite length_append_versions.
  - intros r v [Hv|[_ ->]]%Hlook; [by eapply Hins|done].
  - intros r v [Hv|[_ ->]]%Hlook; [|by left]. destruct (Hdel r v Hv) as [?|[?|(st' & p & ? & ? & ?)]]; [auto|auto|right; right].
    exists st', p. rewrite Hundo. auto.
  - intros st' tid' r v Hin' [Hv|[Hr ->]]%Hlook Hv1.
    + destruct (Howned st' tid' r v Hin' Hv Hv1) as (? & s & m & ? & ?). split; [done|]. exists s, m. rewrite Hundo. auto.
    + cbn in Hv1. subst tid'. split; [done|]. exists (length vs), n. rewrite Hundo. split; [by right|done].
  - intros st' tid' s m Hin' [He|[Heq [= -> ->]]]%Hundo; [|subst tid'].
    + destruct (Hinserts st' tid' s m Hin' He) as (? & Hc1 & Hc2 & Hrows). rewrite length_append_versions.
      split; [lia|]. split; [eapply append_frame_cut; [done|lia|done]|]. split; [eapply append_frame_cut; [done|lia|done]|].
      intros r Hr. destruct (Hrows r Hr) as (v & ? & ?). eauto.
    + rewrite length_append_versions. split; [lia|]. split; [eapply append_frame_cut; [done|lia|done]|]. split; [done|].
      intros r Hr. exists (tid, NOT_DELETED_ID). split; [|done]. unfold append_versions.
      rewrite lookup_app_r by lia. apply lookup_replicate_2. lia.
  - intros st' tid' s m s' m' Hin' [He|[_ [= -> ->]]]%Hundo [He'|[_ [= -> ->]]]%Hundo.
    + by eapply Hdisj.
    + destruct (Hinserts _ _ _ _ Hin' He) as (? & _). lia.
    + destruct (Hinserts _ _ _ _ Hin' He') as (? & _). lia.
    + auto.
  - intros st' tid' p Hin' [He|[_ ?]]%Hundo; [|done]. destruct (Hdels st' tid' p Hin' He) as (Hp & Hne & Hrows).
    split; [by apply (af_entries _ _ _ Hf)|]. split; [done|]. intros r Hr. destruct (Hrows r Hr) as (v & ? & ?). eauto.
  - intros tid' Htid'. destruct (Hfresh tid' Htid') as [Hu ?]. split; [|done]. rewrite table_undo_push, decide_False by lia. done.
Qed.

(** Others do not see the new rows. *)
Lemma append_sees st i n tid vs r :
  st < TRANSACTION_ID_START → TRANSACTION_ID_START <= tid → i ≠ tid →
  sees (Transaction_new st i 0) (append_versions n tid vs) r = sees (Transaction_new st i 0) vs r.
Proof.
  intros Hst Htid Hne. unfold sees, append_versions. destruct (vs !! r) as [v|] eqn:Hv.
  - rewrite lookup_app_l; [by rewrite Hv|by eapply lookup_lt_Some].
  - apply lookup_ge_None in Hv. rewrite lookup_app_r by done. destruct (replicate n _ !! _) as [v|] eqn:Hr; [|done].
    apply lookup_replicate in Hr as [-> _]. unfold row_visible, UseVersion_txn. cbn [fst snd Transaction_new start_time transaction_id].
    by rewrite UseVersion_other by done.
Qed.

Lemma flush_ok db next act rec vs t :
  table_inv db next act rec vs → key t ∈ act →
  match TableDB_Flush db t with
  | Ret db' _ =>
      (live_rows (local_of db (transaction_id t)) = [] ∨ dt_is_root (tdb_table db) = true) ∧
      table_inv db' next act rec (append_versions (length (live_rows (local_of db (transaction_id t)))) (transaction_id t) vs)
  | Raise db' e => live_rows (local_of db (transaction_id t)) ≠ [] ∧ dt_is_root (tdb_table db) = false ∧
      db' = db ∧ ∃ msg, e = TransactionException msg
  end.
Proof.
  intros Hi Hin. set (tid := transaction_id t) in *. pose proof (local_of_inv _ _ _ _ _ tid Hi) as Hs.
  pose proof (ti_room _ _ _ _ _ Hi) as Hroom. rewrite (local_total_of db tid) in Hroom.
  pose proof (LocalStorage_Flush_ok (tdb_table db) vs t (local_of db tid) (ti_table _ _ _ _ _ Hi) Hs ltac:(lia)) as Hf.
  unfold TableDB_Flush. fold tid. case_decide as Hnil.
  - rewrite Hf, Hnil. unfold append_versions. cbn [length replicate]. rewrite app_nil_r. split; [by left|].
    assert (set_table (tdb_table db) db = db) as -> by by destruct db.
    by apply (set_local_ok _ _ _ _ _ (start_time t)).
  - destruct (dt_is_root (tdb_table db)) eqn:Hroot; [|rewrite Hf; split_and!; [done..|by eexists]].
    destruct Hf as (dt' & -> & Hdt' & Hframe & _).
    pose proof (si_live _ Hs) as Hlive.
    assert (0 < length (live_rows (local_of db tid)))%nat as Hpos by (destruct (live_rows (local_of db tid)); [done|cbn; lia]).
    split; [by right|].
    apply (append_ok (set_local tid (LocalTableStorage_Clear (local_of db tid)) db) _ _ _ _ (start_time t)); try done.
    + apply (set_local_ok _ _ _ _ _ (start_time t)); [done|done|apply storage_inv_empty|cbn; lia].
    + cbn [set_local tdb_local]. rewrite local_total_insert. cbn. lia.
Qed.

Lemma lookup_delete_versions rows id vs r v' :
  delete_versions rows id vs !! r = Some v' ↔
  ∃ v, vs !! r = Some v ∧ v' = if decide (r ∈ rows) then (v.1, id) else v.
Proof.
  unfold delete_versions. rewrite list_lookup_imap. destruct (vs !! r) as [v|]; cbn; [|naive_solver].
  split; [intros [= <-]; eauto|]. by intros (w & [= <-] & ->).
Qed.

Lemma elem_of_entries_rows ps r : r ∈ entries_rows ps ↔ ∃ p, p ∈ ps ∧ r ∈ dentry_rows p.
Proof. unfold entries_rows. rewrite list_elem_of_bind. naive_solver. Qed.

(** Ids that a snapshot does not use are all alike. *)
Lemma row_visible_deleted st i v d d' :
  UseVersion st i d = UseVersion st i d' →
  row_visible (Transaction_new st i 0) (v, d) = row_visible (Transaction_new st i 0) (v, d').
Proof. intros Heq. unfold row_visible, UseVersion_txn. cbn. by rewrite Heq. Qed.

(** Marking rows that nobody deleted. *)
Lemma delete_ok db next act rec vs st tid dt' undo :
  table_inv db next act rec vs → (st, tid) ∈ act →
  table_refines dt' (delete_versions (entries_rows undo) tid vs) →
  (∀ r, r ∈ entries_rows undo → ∃ v, vs !! r = Some v ∧ v.2 = NOT_DELETED_ID ∧ v.1 < TRANSACTION_ID_START) →
  Forall (λ p, dentry_ok (dt_versions dt') p ∧ dentry_rows p ≠ []) undo →
  (∀ p, dentry_ok (dt_versions (tdb_table db)) p → dentry_ok (dt_versions dt') p) →
  (∀ x, cut_ok (dt_versions (tdb_table db)) x → cut_ok (dt_versions dt') x) →
  table_inv (push_undo tid (DeleteEntry <$> undo) (set_table dt' db)) next act rec
    (delete_versions (entries_rows undo) tid vs).
Proof.
  intros Hi Hin Hdt' Hrows Hnew Hkeep Hcut. pose proof (ti_act _ _ _ _ _ Hi _ Hin) as Hlt. cbn in Hlt.
  pose proof (ko_act _ _ (ti_keys _ _ _ _ _ Hi) _ _ Hin) as [_ Htid]. pose proof (ti_next _ _ _ _ _ Hi) as Hnx'.
  destruct Hi as [Hk Hnx Ha Ht Hroom Hins Hdel Howned Hinserts Hdisj Hdels Hfresh Hlocal].
  set (db' := push_undo tid (DeleteEntry <$> undo) (set_table dt' db)).
  assert (∀ tid' e, e ∈ undo_of db' tid' ↔ e ∈ undo_of db tid' ∨ tid' = tid ∧ ∃ p, e = DeleteEntry p ∧ p ∈ undo) as Hundo.
  { intros tid' e. unfold db'. rewrite table_undo_push. change (undo_of (set_table dt' db)) with (undo_of db). case_decide as Heq.
    - subst. rewrite elem_of_app, list_elem_of_fmap. naive_solver.
    - naive_solver. }
  assert (∀ tid' s n, InsertEntry s n ∈ undo_of db' tid' → InsertEntry s n ∈ undo_of db tid') as Hundoi.
  { intros tid' s n [?|(_ & p & ? & _)]%Hundo; done. }
  assert (length (delete_versions (entries_rows undo) tid vs) = length vs) as Hlen by apply length_imap.
  split; try done; cbn [push_undo set_table tdb_table tdb_local].
  - by rewrite Hlen.
  - intros r v' (v & Hv & ->)%lookup_delete_versions. specialize (Hins r v Hv). by case_decide.
  - intros r v' (v & Hv & ->)%lookup_delete_versions. case_decide as Hr.
    + apply elem_of_entries_rows in Hr as (p & Hp & Hr). right; right. exists st, p. split; [done|]. split; [|done].
      apply Hundo. right. eauto.
    + destruct (Hdel r v Hv) as [?|[?|(st' & p & ? & ? & ?)]]; [auto|auto|right; right]. exists st', p. rewrite Hundo. auto.
  - intros st' tid' r v' Hin' (v & Hv & ->)%lookup_delete_versions Hv1. case_decide as Hr.
    + exfalso. destruct (Hrows r Hr) as (w & Hw & _ & Hw1). rewrite Hv in Hw. injection Hw as <-.
      pose proof (ko_act _ _ Hk _ _ Hin') as [_ ?]. cbn in Hv1. lia.
    + destruct (Howned st' tid' r v Hin' Hv Hv1) as (? & s & m & ? & ?). split; [done|]. exists s, m. rewrite Hundo. auto.
  - intros st' tid' s m Hin' He%Hundoi. destruct (Hinserts st' tid' s m Hin' He) as (? & ? & ? & Hr). rewrite Hlen.
    split; [done|]. split; [by apply Hcut|]. split; [by apply Hcut|]. intros r Hr'. destruct (Hr r Hr') as (v & Hv & Hv1).
    eexists. split; [apply lookup_delete_versions; eauto|]. by case_decide.
  - intros st' tid' s m s' m' Hin' He%Hundoi He'%Hundoi. by eapply Hdisj.
  - intros st' tid' p Hin' [He|(-> & p' & [= <-] & Hp)]%Hundo.
    + destruct (Hdels st' tid' p Hin' He) as (? & ? & Hr). split; [auto|]. split; [done|]. intros r Hr'.
      destruct (Hr r Hr') as (v & Hv & Hv1 & Hv2). exists v. split; [|done]. apply lookup_delete_versions. exists v. split; [done|].
      rewrite decide_False; [done|]. intros Hx. destruct (Hrows r Hx) as (w & Hw & Hw2 & _). rewrite Hv in Hw. injection Hw as <-.
      pose proof (Ha _ Hin'). cbn in *. lia.
    + rewrite Forall_forall in Hnew. destruct (Hnew p Hp) as [? ?]. split; [done|]. split; [done|]. intros r Hr.
      assert (r ∈ entries_rows undo) as Hx by (apply elem_of_entries_rows; eauto). destruct (Hrows r Hx) as (v & Hv & _ & Hv1).
      exists (v.1, tid). split; [|done]. apply lookup_delete_versions. exists v. split; [done|]. by rewrite decide_True.
  - intros tid' Htid'. destruct (Hfresh tid' Htid') as [Hu ?]. split; [|done]. unfold db'. rewrite table_undo_push, decide_False by lia. done.
Qed.

Lemma delete_sees st i tid rows vs r :
  st < TRANSACTION_ID_START → TRANSACTION_ID_START <= i → i ≠ NOT_DELETED_ID → TRANSACTION_ID_START <= tid → i ≠ tid →
  (∀ x, x ∈ rows → ∃ v, vs !! x = Some v ∧ v.2 = NOT_DELETED_ID) →
  sees (Transaction_new st i 0) (delete_versions rows tid vs) r = sees (Transaction_new st i 0) vs r.
Proof.
  intros Hst Hi HiND Htid Hne Hrows. unfold sees. destruct (delete_versions rows tid vs !! r) as [v'|] eqn:Hv'.
  - apply lookup_delete_versions in Hv' as (v & Hv & ->). rewrite Hv. case_decide as Hr; [|done].
    destruct (Hrows r Hr) as (w & Hw & Hw2). rewrite Hv in Hw. injection Hw as <-. destruct v as [v1 v2]. cbn in Hw2 |- *. subst v2.
    apply row_visible_deleted. by rewrite !UseVersion_other.
  - destruct (vs !! r) eqn:Hv; [|done]. exfalso. apply lookup_ge_None in Hv'. apply lookup_lt_Some in Hv.
    unfold delete_versions in Hv'. rewrite length_imap in Hv'. lia.
Qed.

(** What a snapshot has to satisfy, for the transactions that run. *)
Lemma act_ranges db next act rec vs st i :
  table_inv db next act rec vs → (st, i) ∈ act →
  st < TRANSACTION_ID_START ∧ TRANSACTION_ID_START <= i ∧ i ≠ NOT_DELETED_ID.
Proof.
  intros Hi Hin. pose proof (ko_act _ _ (ti_keys _ _ _ _ _ Hi) _ _ Hin) as [[_ ?] ?]. pose proof (ti_next _ _ _ _ _ Hi).
  pose proof (ti_act _ _ _ _ _ Hi _ Hin). cbn in *. lia.
Qed.

Lemma unchanged_views db db' next act rec vs tid :
  table_inv db next act rec vs → table_refines (tdb_table db') vs → same_views (without tid act) db db'.
Proof. intros Hi Hdt. by apply (same_table_views db db' next act rec vs vs). Qed.

Lemma append_views db db' next act rec vs tid st n :
  table_inv db next act rec vs → (st, tid) ∈ act → table_refines (tdb_table db') (append_versions n tid vs) →
  same_views (without tid act) db db'.
Proof.
  intros Hi Hin Hdt. apply (same_table_views db db' next act rec vs _ tid Hi Hdt). intros st' i r Hin' Hne _.
  destruct (act_ranges _ _ _ _ _ _ _ Hi Hin), (act_ranges _ _ _ _ _ _ _ Hi Hin'). apply append_sees; naive_solver.
Qed.

Lemma flush_views db next act rec vs t :
  table_inv db next act rec vs → key t ∈ act →
  (∃ vs', table_inv (out_state (TableDB_Flush db t)) next act rec vs') ∧
  same_views (without (transaction_id t) act) db (out_state (TableDB_Flush db t)).
Proof.
  intros Hi Hin. pose proof (flush_ok db next act rec vs t Hi Hin) as Hf.
  destruct (TableDB_Flush db t) as [db' ?|db' e]; cbn [out_state].
  - destruct Hf as [_ Hi']. split; [by eexists|]. eapply (append_views db db' next act rec vs _ (start_time t)); [done|done|apply Hi'].
  - destruct Hf as (_ & _ & -> & _). split; [by eexists|apply same_views_refl].
Qed.

Lemma SetStorage_inv begin (s : LocalTableStorage R) : storage_inv s → storage_inv (SetStorage begin s).
Proof. intros [[? ? ?] Hl]. split; [by split|exact Hl]. Qed.

Lemma fmap_to_nat_of_nat (l : list nat) : Z.to_nat <$> (Z.of_nat <$> l) = l.
Proof. induction l as [|x l IH]; [done|]. by rewrite !fmap_cons, IH, Nat2Z.id. Qed.

Lemma works_append_ok db next act rec vs t chunk :
  table_inv db next act rec vs → key t ∈ act → (length chunk <= VS)%nat →
  Z.of_nat (dt_total_rows (tdb_table db) + local_total (tdb_local db) + length chunk) <= MAX_ROW_ID →
  (∃ vs', table_inv (out_state (TableDB_Append db t chunk)) next act rec vs') ∧
  same_views (without (transaction_id t) act) db (out_state (TableDB_Append db t chunk)).
Proof.
  intros Hi Hin Hlen Hroom. unfold TableDB_Append.
  destruct (length chunk =? 0)%nat; [split; [by eexists|apply same_views_refl]|].
  destruct (negb _); [split; [by eexists|apply same_views_refl]|].
  set (tid := transaction_id t) in *. pose proof (local_of_inv _ _ _ _ _ tid Hi) as Hs.
  destruct (LocalTableStorage_Append_spec (local_of db tid) chunk Hs Hlen) as [Hs' _].
  destruct (ChunkCollection_Append_spec (local_of db tid) chunk (si_ok _ Hs) Hlen) as (_ & _ & Hcount).
  set (s' := LocalTableStorage_Append (local_of db tid) chunk) in *.
  assert (table_inv (set_local tid s' db) next act rec vs) as Hi'.
  { apply (set_local_ok _ _ _ _ _ (start_time t)); try done. rewrite Hcount.
    rewrite (tr_total _ _ (ti_table _ _ _ _ _ Hi)), (local_total_of db tid) in Hroom. lia. }
  assert (same_views (without tid act) db (set_local tid s' db)) as Hv by (apply (unchanged_views _ _ next act rec vs); [done|apply Hi]).
  destruct (_ && _); [|split; [by eexists|done]].
  destruct (flush_views (set_local tid s' db) next act rec vs t Hi' Hin) as [? Hv']. split; [done|]. by eapply same_views_trans.
Qed.

Lemma works_delete_ok db next act rec vs t ids :
  table_inv db next act rec vs → key t ∈ act → delete_pre (tdb_table db) ids →
  (∃ vs', table_inv (out_state (TableDB_Delete db t (Z.of_nat <$> ids))) next act rec vs') ∧
  same_views (without (transaction_id t) act) db (out_state (TableDB_Delete db t (Z.of_nat <$> ids))).
Proof.
  intros Hi Hin Hpre. destruct (act_ranges _ _ _ _ _ _ _ Hi Hin) as (Hst & Htid & HND).
  assert (TableDB_Delete db t (Z.of_nat <$> ids) = match DataTable_Delete (tdb_table db) t ids with
    | Ret (dt, undo) _ => Ret (push_undo (transaction_id t) (DeleteEntry <$> undo) (set_table dt db)) tt
    | Raise (dt, undo) e => Raise (push_undo (transaction_id t) (DeleteEntry <$> undo) (set_table dt db)) e
    end ∨ ids = []) as [Heq|Hnil].
  { destruct ids as [|first ids']; [by right|left]. destruct Hpre as (_ & j & Hids).
    destruct (Hids first) as (Hlt & _ & _); [left|]. pose proof (ti_room _ _ _ _ _ Hi) as Hroom.
    rewrite (tr_total _ _ (ti_table _ _ _ _ _ Hi)) in Hlt. rewrite fmap_cons. cbn [TableDB_Delete].
    rewrite (proj2 (Z.leb_gt MAX_ROW_ID _)) by lia. by rewrite <-fmap_cons, fmap_to_nat_of_nat. }
  2: { rewrite Hnil. split; [by eexists|apply same_views_refl]. }
  pose proof (DataTable_Delete_spec (tdb_table db) vs t ids (ti_table _ _ _ _ _ Hi) HND Hpre) as Hspec. rewrite Heq.
  destruct (DataTable_Delete (tdb_table db) t ids) as [[dt' undo] ?|[dt' undo] e]; cbn [out_state] in *;
    destruct Hspec as (_ & Hdt' & Hrows & Hnew & Hkeep & Hcut & _).
  all: split; [eexists; by apply (delete_ok db next act rec vs (start_time t))|].
  all: eapply same_table_views; [exact Hi|exact Hdt'|]; intros st' i r Hin' Hne _.
  all: destruct (act_ranges _ _ _ _ _ _ _ Hi Hin') as (? & ? & ?); apply delete_sees; try done.
  all: intros x Hx; destruct (Hrows x Hx) as (v & ? & ? & _); eauto.
Qed.

Lemma works_ok db next act rec vs k db' :
  table_inv db next act rec vs → k ∈ act → table_works db k db' →
  (∃ vs', table_inv db' next act rec vs') ∧ same_views (without k.2 act) db db'.
Proof.
  intros Hi Hin Hw. destruct Hw as [t chunk <- Hlen Hroom|t ids <- Hpre|t rows s j <- Hne Hnd Hs Hrows|t begin <-|t <-].
  - by apply (works_append_ok db next act rec vs).
  - by apply (works_delete_ok db next act rec vs).
  - pose proof (ti_local _ _ _ _ _ Hi _ _ Hs) as Hsi. pose proof (ti_room _ _ _ _ _ Hi) as Hroom.
    rewrite (local_total_delete _ _ _ Hs) in Hroom.
    destruct (LocalTableStorage_Delete_spec s j rows Hsi Hne Hnd ltac:(lia) Hrows) as (s' & Heq & Hsi' & Hcol & _).
    unfold TableDB_Delete. destruct rows as [|r rows']; [done|]. rewrite fmap_cons in *.
    rewrite (proj2 (Z.leb_le MAX_ROW_ID _)) by (unfold local_id; lia). rewrite Hs, Heq. cbn [out_state].
    split; [|by apply (unchanged_views _ _ next act rec vs); [|apply Hi]].
    exists vs. apply (set_local_ok _ _ _ _ _ (start_time t)); try done. by rewrite Hcol.
  - unfold TableDB_LocalScan. destruct (tdb_local db !! transaction_id t) as [s|] eqn:Hs; [|split; [by eexists|apply same_views_refl]].
    pose proof (ti_room _ _ _ _ _ Hi) as Hroom. rewrite (local_total_delete _ _ _ Hs) in Hroom.
    split; [|by apply (unchanged_views _ _ next act rec vs); [|apply Hi]].
    exists vs. apply (set_local_ok _ _ _ _ _ (start_time t)); [done|done| |done]. by apply SetStorage_inv, (ti_local _ _ _ _ _ Hi _ _ Hs).
  - assert (table_refines (tdb_table (TableDB_Alter db)) vs) as Hdt by (destruct (ti_table _ _ _ _ _ Hi); by split).
    split; [|by apply (unchanged_views _ _ next act rec vs)]. exists vs. destruct Hi. by split.
Qed.

(** ** Reverting and rolling back *)

Definition reset_version (tid : Z) (v : Z * Z) : Z * Z := (v.1, if v.2 =? tid then NOT_DELETED_ID else v.2).

Section rolling_back.
Context (tid : Z) (es : list UndoEntry) (versions0 : list MorselInfo) (vs0 : list (Z * Z)).
Hypothesis Htid : TRANSACTION_ID_START <= tid.
Hypothesis HND : tid ≠ NOT_DELETED_ID.
Hypothesis Hinserts : ∀ s n, InsertEntry s n ∈ es → (0 < n ∧ s + n <= length vs0)%nat ∧ cut_ok versions0 s ∧
  ∀ r, (s <= r < s + n)%nat → ∃ v, vs0 !! r = Some v ∧ v.1 = tid ∧ v.2 = NOT_DELETED_ID.
Hypothesis Hdisjoint : ∀ s n s' n', InsertEntry s n ∈ es → InsertEntry s' n' ∈ es →
  (s + n <= s' ∨ s' + n' <= s ∨ s = s' ∧ n = n')%nat.
Hypothesis Hdeletes : ∀ p, DeleteEntry p ∈ es → dentry_ok versions0 p ∧ dentry_rows p ≠ [] ∧
  ∀ r, r ∈ dentry_rows p → ∃ v, vs0 !! r = Some v ∧ v.1 < TRANSACTION_ID_START ∧ v.2 = tid.

(** What holds while the entries are visited. *)
Record reverting dt vs : Prop := {
  rv_table : table_refines dt vs;
  rv_rows : ∀ r v, vs !! r = Some v → ∃ v0, vs0 !! r = Some v0 ∧ (v = v0 ∨ v = reset_version tid v0);
  rv_lost : ∀ r v0, vs0 !! r = Some v0 → (length vs <= r)%nat → v0.1 = tid;
  rv_cuts : ∀ x, cut_ok versions0 x → cut_ok (dt_versions dt) x;
  rv_entries : ∀ p r v0, dentry_ok versions0 p → r ∈ dentry_rows p → vs0 !! r = Some v0 → v0.1 < TRANSACTION_ID_START →
    dentry_ok (dt_versions dt) p;
  rv_inserts : ∀ s n, InsertEntry s n ∈ es → (length vs <= s ∨ s + n <= length vs)%nat;
}.

Lemma revert_insert dt vs s n :
  reverting dt vs → InsertEntry s n ∈ es →
  ∃ dt' k, RevertAppend dt s n = Ok dt' ∧ reverting dt' (take k vs).
Proof.
  intros Hrv He. pose proof Hrv as [Ht Hrows Hlost Hcuts Hent Hins]. destruct (Hinserts s n He) as ([Hn Hle] & Hcut & Hown).
  destruct (Hins s n He) as [Hdead|Hlive].
  { exists dt, (length vs). rewrite take_ge by done. split; [|done]. unfold RevertAppend, RevertAppendInternal.
    rewrite (proj2 (Nat.eqb_neq n 0)) by lia. rewrite (tr_total _ _ Ht), (proj2 (Nat.eqb_neq (length vs) (s + n))) by lia. done. }
  destruct (RevertAppend_spec dt vs s n Ht Hn Hlive (Hcuts _ Hcut)) as (dt' & Heq & _ & Hc' & He' & Ht').
  { intros Hend r v Hv Hr. destruct (Hrows r v Hv) as (v0 & Hv0 & Hor). apply lookup_lt_Some in Hv.
    destruct (Hown r) as (w & Hw & _ & Hw2); [lia|]. rewrite Hv0 in Hw. injection Hw as ->.
    destruct Hor as [->| ->]; [done|]. cbn. rewrite Hw2. by case_match. }
  revert Ht'. case_decide as Hend; intros Ht'.
  2: { exists dt', (length vs). rewrite take_ge by done. split; [done|]. split; try done; [auto|].
       intros p r v0 Hp Hr Hv0 Hv1. apply (He' p r); [by eapply Hent|done|done]. }
  exists dt', s. split; [done|]. assert (length (take s vs) = s) as Hlen by (rewrite length_take; lia).
  assert (∀ r v0, vs0 !! r = Some v0 → (s <= r)%nat → v0.1 = tid) as Hlost'.
  { intros r v0 Hv0 Hr. destruct (decide (r < length vs)%nat); [|apply (Hlost r); [done|lia]].
    destruct (Hown r) as (w & Hw & ? & _); [lia|]. naive_solver. }
  split; try done.
  - intros r v [Hv _]%lookup_take_Some. by apply Hrows.
  - by rewrite Hlen.
  - auto.
  - intros p r v0 Hp Hr Hv0 Hv1. apply (He' p r); [by eapply Hent|done|]. intros _. apply Nat.lt_nge. intros Hsr.
    specialize (Hlost' r v0 Hv0 Hsr). lia.
  - intros s' n' He''. rewrite Hlen. destruct (Hins s' n' He''), (Hdisjoint s n s' n' He He'') as [?|[?|[? ?]]]; lia.
Qed.

Lemma revert_delete dt dt' vs p id :
  reverting dt vs → DeleteEntry p ∈ es → id = tid ∨ id = NOT_DELETED_ID →
  dt_versions dt' = dt_versions (apply_delete id dt p) → dt_total_rows dt' = dt_total_rows dt →
  reverting dt' (delete_versions (dentry_rows p) id vs).
Proof.
  intros Hrv He Hid Hdv Htot. pose proof Hrv as [Ht Hrows Hlost Hcuts Hent Hins].
  destruct (Hdeletes p He) as (Hp & Hne & Hdel). assert (length (delete_versions (dentry_rows p) id vs) = length vs) as Hlen by apply length_imap.
  destruct (dentry_rows p) as [|r0 rs] eqn:Hr0; [done|]. rewrite <-Hr0 in *.
  destruct (Hdel r0) as (w0 & Hw0 & Hw01 & _); [rewrite Hr0; left|].
  destruct (Hent p r0 w0 Hp) as (m & Hm & Hem); [rewrite Hr0; left|done|done|].
  assert (∀ r, r ∈ dentry_rows p → (r < length vs)%nat) as Hlt.
  { intros r Hr. destruct (Hdel r Hr) as (w & Hw & Hw1 & _). apply Nat.lt_nge. intros Hge. specialize (Hlost r w Hw Hge). lia. }
  destruct p as [i e]. cbn [fst snd] in *. unfold apply_delete in Hdv. cbn [fst snd] in Hdv. rewrite Hm in Hdv. cbn [set_versions dt_versions] in Hdv.
  pose proof (m_len _ _ (rf_ok _ _ (vr_morsels _ _ (tr_versions _ _ Ht) _ _ Hm))) as Hml.
  destruct (apply_entry_frame id (dt_versions dt) i m e Hm (proj1 Hem) Hml) as [Hfe Hfc]. split.
  - split; [by rewrite Hlen, Htot, (tr_total _ _ Ht)|]. rewrite Hdv. apply apply_entry_refine; [apply Ht|done|done|done].
  - intros r v' (v & Hv & ->)%lookup_delete_versions. destruct (Hrows r v Hv) as (v0 & Hv0 & Hor). exists v0. split; [done|].
    case_decide as Hr; [|done]. destruct (Hdel r Hr) as (w & Hw & _ & Hw2). rewrite Hv0 in Hw. injection Hw as ->.
    destruct w as [w1 w2]. cbn in Hw2. subst w2. unfold reset_version in *. cbn in *. rewrite Z.eqb_refl in *.
    destruct Hor as [->| ->], Hid as [->| ->]; cbn; auto.
  - by rewrite Hlen.
  - intros x Hx. rewrite Hdv. auto.
  - intros p r v0 ? ? ? ?. rewrite Hdv. apply Hfe. by eapply Hent.
  - by rewrite Hlen.
Qed.

(** What is still marked as deleted was marked before, and by none of the entries. *)
Definition rolled_back (vs vs' : list (Z * Z)) es' : Prop := ∀ r v, vs' !! r = Some v → v.2 = tid →
  vs !! r = Some v ∧ ∀ p, DeleteEntry p ∈ es' → r ∉ dentry_rows p.

Lemma RollbackEntry_step dt vs e :
  reverting dt vs → e ∈ es →
  ∃ dt' vs', RollbackEntry dt e = Ok dt' ∧ reverting dt' vs' ∧ rolled_back vs vs' [e].
Proof.
  intros Hrv He. destruct e as [s n|p]; cbn [RollbackEntry].
  - destruct (revert_insert dt vs s n Hrv He) as (dt' & k & -> & Hrv'). eexists _, _. split; [done|]. split; [done|].
    intros r v [Hv _]%lookup_take_Some _. split; [done|]. by intros p ?%list_elem_of_singleton.
  - eexists _, _. split; [reflexivity|]. split.
    + apply (revert_delete dt _ vs p NOT_DELETED_ID Hrv He); [by right|done|]. unfold apply_delete. by case_match.
    + intros r v' (v & Hv & ->)%lookup_delete_versions Hv2. case_decide as Hr; [by cbn in Hv2; congruence|].
      split; [done|]. by intros p' [= <-]%list_elem_of_singleton.
Qed.

Lemma RevertCommit_step dt vs e :
  reverting dt vs → e ∈ es → ∃ dt' vs', RevertCommit tid dt e = Ok dt' ∧ reverting dt' vs'.
Proof.
  intros Hrv He. destruct e as [s n|p]; cbn [RevertCommit].
  - destruct (revert_insert dt vs s n Hrv He) as (dt' & k & -> & Hrv'). by eexists _, _.
  - eexists _, _. split; [reflexivity|]. apply (revert_delete dt _ vs p tid Hrv He); [by left| |]; unfold apply_delete; cbn; by case_match.
Qed.

Lemma RevertCommit_run es' dt vs :
  (∀ e, e ∈ es' → e ∈ es) → reverting dt vs →
  ∃ dt' vs', run_entries (RevertCommit tid) es' dt = Ret dt' tt ∧ reverting dt' vs'.
Proof.
  revert dt vs. induction es' as [|e es' IH]; intros dt vs Hin Hrv; cbn [run_entries]; [by eexists _, _|].
  destruct (RevertCommit_step dt vs e Hrv) as (dt1 & vs1 & -> & Hrv1); [apply Hin; left|].
  apply (IH dt1 vs1); [|done]. intros e' He'. apply Hin. by right.
Qed.

Lemma RollbackEntry_run es' dt vs :
  (∀ e, e ∈ es' → e ∈ es) → reverting dt vs →
  ∃ dt' vs', run_entries RollbackEntry es' dt = Ret dt' tt ∧ reverting dt' vs' ∧ rolled_back vs vs' es'.
Proof.
  revert dt vs. induction es' as [|e es' IH]; intros dt vs Hin Hrv; cbn [run_entries].
  { eexists _, _. split; [done|]. split; [done|]. intros r v Hv _. split; [done|]. by intros e ?%elem_of_nil. }
  destruct (RollbackEntry_step dt vs e Hrv) as (dt1 & vs1 & -> & Hrv1 & Hok1); [apply Hin; left|].
  destruct (IH dt1 vs1) as (dt2 & vs2 & -> & Hrv2 & Hok2); [intros e' He'; apply Hin; by right|done|].
  eexists _, _. split; [done|]. split; [done|]. intros r v Hv Hv2. destruct (Hok2 r v Hv Hv2) as [Hv1 Hx].
  destruct (Hok1 r v Hv1 Hv2) as [Hv0 Hx0]. split; [done|]. intros p [Hp|Hp]%elem_of_cons; [|by apply Hx].
  apply Hx0. rewrite Hp. left.
Qed.

(** What is left of the rows when every entry was rolled back. *)
Lemma reverting_done dt vs vs' dt' :
  reverting dt vs → reverting dt' vs' → rolled_back vs vs' es →
  (∀ r v, vs0 !! r = Some v → v.2 = tid → ∃ p, DeleteEntry p ∈ es ∧ r ∈ dentry_rows p) →
  vs' = take (length vs') (reset_version tid <$> vs0).
Proof.
  intros Hrv Hrv' Hrolled Hcover. apply list_eq. intros r. destruct (decide (r < length vs')%nat) as [Hlt|Hge].
  2: { rewrite !lookup_ge_None_2; [done|rewrite length_take; lia|lia]. }
  rewrite lookup_take_lt, list_lookup_fmap by done. destruct (lookup_lt_is_Some_2 vs' r Hlt) as [v Hv].
  destruct (rv_rows _ _ Hrv' r v Hv) as (v0 & Hv0 & Hor). rewrite Hv, Hv0. cbn. f_equal.
  destruct Hor as [->|?]; [|done]. destruct v0 as [v1 v2]. unfold reset_version. cbn.
  destruct (Z.eqb_spec v2 tid) as [->|]; [|done]. exfalso. destruct (Hrolled r _ Hv eq_refl) as [_ Hx].
  destruct (Hcover r _ Hv0 eq_refl) as (p & Hp & Hr). by eapply Hx.
Qed.

Lemma reverting_start dt : table_refines dt vs0 → dt_versions dt = versions0 → reverting dt vs0.
Proof.
  intros Ht Hv. split; rewrite ?Hv; try done.
  - intros r v Hr. eauto.
  - intros r v0 ?%lookup_lt_Some ?. lia.
  - intros s n He. destruct (Hinserts s n He) as ([? ?] & _). lia.
Qed.
End rolling_back.

Section rollback.
Context (db : TableDB) (next : Z) (act : list (Z * Z)) (rec : list (Z * Z * Z)) (vs : list (Z * Z)) (st tid : Z).
Hypothesis Hi : table_inv db next act rec vs.
Hypothesis Hin : (st, tid) ∈ act.

Let es := undo_of db tid.
Let versions0 := dt_versions (tdb_table db).

Lemma undo_ranges : TRANSACTION_ID_START <= tid ∧ tid ≠ NOT_DELETED_ID.
Proof. destruct (act_ranges _ _ _ _ _ _ _ Hi Hin) as (_ & ? & ?). done. Qed.

Lemma undo_inserts s n : InsertEntry s n ∈ es → (0 < n ∧ s + n <= length vs)%nat ∧ cut_ok versions0 s ∧
  ∀ r, (s <= r < s + n)%nat → ∃ v, vs !! r = Some v ∧ v.1 = tid ∧ v.2 = NOT_DELETED_ID.
Proof.
  intros He. destruct (ti_inserts _ _ _ _ _ Hi st tid s n Hin He) as (Hn & Hcut & _ & Hrows). split; [done|]. split; [done|].
  intros r Hr. destruct (Hrows r Hr) as (v & Hv & Hv1). exists v. split; [done|]. split; [done|].
  by destruct (ti_owned _ _ _ _ _ Hi st tid r v Hin Hv Hv1).
Qed.

Lemma undo_disjoint s n s' n' : InsertEntry s n ∈ es → InsertEntry s' n' ∈ es →
  (s + n <= s' ∨ s' + n' <= s ∨ s = s' ∧ n = n')%nat.
Proof. by apply (ti_disjoint _ _ _ _ _ Hi st). Qed.

Lemma undo_deletes p : DeleteEntry p ∈ es → dentry_ok versions0 p ∧ dentry_rows p ≠ [] ∧
  ∀ r, r ∈ dentry_rows p → ∃ v, vs !! r = Some v ∧ v.1 < TRANSACTION_ID_START ∧ v.2 = tid.
Proof. by apply (ti_deletes _ _ _ _ _ Hi st). Qed.

Lemma undo_covers r v : vs !! r = Some v → v.2 = tid → ∃ p, DeleteEntry p ∈ es ∧ r ∈ dentry_rows p.
Proof.
  intros Hv Hv2. destruct undo_ranges. destruct (ti_deleted _ _ _ _ _ Hi r v Hv) as [?|[?|(st' & p & _ & Hp & Hr)]]; [congruence|lia|].
  rewrite Hv2 in Hp. eauto.
Qed.

Let rev := reverting tid es versions0 vs.

(** The rows of others, when the entries of the transaction are gone. *)
Lemma without_ok dt' vs' k :
  rev dt' vs' → vs' = take k (reset_version tid <$> vs) →
  table_inv (mkTableDB dt' (delete tid (tdb_undo db)) (delete tid (tdb_local db))) next (without tid act) rec vs'.
Proof.
  intros Hrv Hvs'. destruct undo_ranges as [Htid HND]. set (db' := mkTableDB _ _ _).
  assert (∀ tid', tid' ≠ tid → undo_of db' tid' = undo_of db tid') as Hundo.
  { intros tid' Hne. unfold db', undo_of. cbn. by rewrite lookup_delete_ne. }
  assert (∀ r v', vs' !! r = Some v' → ∃ v, vs !! r = Some v ∧ v' = reset_version tid v) as Hrow.
  { intros r v' Hv'. rewrite Hvs' in Hv'. apply lookup_take_Some in Hv' as [Hv' _]. rewrite list_lookup_fmap in Hv'.
    destruct (vs !! r) as [v|]; [|done]. injection Hv' as <-. eauto. }
  assert (∀ r v, vs !! r = Some v → v.1 ≠ tid → vs' !! r = Some (reset_version tid v)) as Hkeep.
  { intros r v Hv Hv1. destruct (decide (r < length vs')%nat) as [Hlt|Hge].
    - destruct (lookup_lt_is_Some_2 vs' r Hlt) as [v' Hv']. destruct (Hrow r v' Hv') as (w & Hw & ->). naive_solver.
    - destruct Hv1. apply (rv_lost _ _ _ _ _ _ Hrv r v Hv). lia. }
  assert (length vs' <= length vs)%nat as Hlen by (rewrite Hvs', length_take, length_fmap; lia).
  pose proof (ti_room _ _ _ _ _ Hi) as Hroom. rewrite (local_total_of db tid) in Hroom.
  destruct Hi as [Hk Hn Ha Ht _ Hins Hdel Howned Hinserts Hdisj Hdels Hfresh Hlocal].
  assert (∀ st' tid' r v', (st', tid') ∈ act → tid' ≠ tid → vs' !! r = Some v' → v'.2 = tid' → ∃ v, vs !! r = Some v ∧ v = v') as Hsame.
  { intros st' tid' r v' Hin' Hne Hv' Hv2. destruct (Hrow r v' Hv') as ([v1 v2] & Hv & ->). exists (v1, v2). split; [done|].
    unfold reset_version in *. cbn in *. destruct (Z.eqb_spec v2 tid); [|done]. specialize (Ha _ Hin'). cbn in Ha. lia. }
  split; try done; cbn [db' tdb_table tdb_local].
  - by apply keys_without.
  - intros [st' tid'] [? _]%without_spec. auto.
  - apply Hrv.
  - lia.
  - intros r v' Hv'. destruct (Hrow r v' Hv') as (v & Hv & ->). by apply (Hins r v).
  - intros r v' Hv'. destruct (Hrow r v' Hv') as ([v1 v2] & Hv & ->). unfold reset_version. cbn.
    destruct (Z.eqb_spec v2 tid) as [|Hne]; [by left|].
    destruct (Hdel r _ Hv) as [?|[?|(st' & p & ? & ? & ?)]]; [auto|auto|right; right]. cbn in *. exists st', p.
    rewrite without_spec, Hundo by done. done.
  - intros st' tid' r v' [Hin' Hne]%without_spec Hv' Hv1. destruct (Hrow r v' Hv') as (v & Hv & ->). cbn in Hv1.
    destruct (Howned st' tid' r v Hin' Hv Hv1) as (Hv2 & s & n & ? & ?). split.
    + unfold reset_version. cbn. rewrite Hv2. by case_match.
    + exists s, n. by rewrite Hundo.
  - intros st' tid' s n [Hin' Hne]%without_spec He. rewrite Hundo in He by done.
    destruct (Hinserts st' tid' s n Hin' He) as ([? ?] & Hc1 & Hc2 & Hr).
    assert (∀ r, (s <= r < s + n)%nat → ∃ v, vs' !! r = Some v ∧ v.1 = tid') as Hr'.
    { intros r Hr'. destruct (Hr r Hr') as (v & Hv & Hv1). exists (reset_version tid v). split; [apply Hkeep; [done|congruence]|done]. }
    split; [split; [done|]|].
    + destruct (Hr' (s + n - 1)%nat) as (v & Hv%lookup_lt_Some & _); lia.
    + split_and!; [by apply Hrv|by apply Hrv|done].
  - intros st' tid' s n s' n' [Hin' Hne]%without_spec. rewrite Hundo by done. by apply (Hdisj st').
  - intros st' tid' p [Hin' Hne]%without_spec He. rewrite Hundo in He by done.
    destruct (Hdels st' tid' p Hin' He) as (Hp & Hne' & Hr).
    assert (∀ r v, r ∈ dentry_rows p → vs !! r = Some v → v.2 = tid' → reset_version tid v = v) as Hreset.
    { intros r [v1 v2] _ _ Hv2. unfold reset_version. cbn in *. by rewrite (proj2 (Z.eqb_neq v2 tid)) by congruence. }
    split; [|split; [done|]].
    + destruct (dentry_rows p) as [|r rs] eqn:Hrs; [done|]. destruct (Hr r) as (v & Hv & ? & ?); [left|].
      apply (rv_entries _ _ _ _ _ _ Hrv p r v); try done. rewrite Hrs. left.
    + intros r Hrr. destruct (Hr r Hrr) as (v & Hv & ? & ?). exists v. split; [|done].
      rewrite <-(Hreset r v Hrr Hv) by done. apply Hkeep; [done|lia].
  - intros tid' Htid'. destruct (Hfresh tid' Htid') as [Hu Hl]. split.
    + destruct (decide (tid' = tid)) as [->|]; [|by rewrite Hundo]. unfold undo_of, db'. cbn. by rewrite lookup_delete_eq.
    + destruct (decide (tid' = tid)) as [->|]; [by rewrite lookup_delete_eq|by rewrite lookup_delete_ne].
  - intros tid' s [_ Hs]%lookup_delete_Some. by apply (Hlocal tid').
Qed.

(** Others see the rows as before. *)
Lemma rollback_sees vs' st' i r :
  st' < TRANSACTION_ID_START → TRANSACTION_ID_START <= i → i ≠ NOT_DELETED_ID → i ≠ tid → vs' = take (length vs') (reset_version tid <$> vs) →
  (∀ r v, vs !! r = Some v → (length vs' <= r)%nat → v.1 = tid) →
  sees (Transaction_new st' i 0) vs' r = sees (Transaction_new st' i 0) vs r.
Proof.
  intros ? ? ? Hne Hvs' Hlost. destruct undo_ranges as [Htid HND].
  unfold sees. destruct (decide (r < length vs')%nat) as [Hlt|Hge].
  - rewrite Hvs', lookup_take_lt, list_lookup_fmap by done. destruct (vs !! r) as [[v1 v2]|]; [|done]. unfold reset_version. cbn.
    destruct (Z.eqb_spec v2 tid) as [->|]; [|done]. apply row_visible_deleted. by rewrite !UseVersion_other by done.
  - rewrite (lookup_ge_None_2 vs') by lia. destruct (vs !! r) as [v|] eqn:Hv; [|done].
    pose proof (Hlost r v Hv ltac:(lia)) as Hv1. unfold row_visible, UseVersion_txn. cbn [Transaction_new start_time transaction_id].
    by rewrite Hv1, UseVersion_other.
Qed.

Definition rolled_back_to (db' : TableDB) (vs' : list (Z * Z)) : Prop :=
  table_inv db' next (without tid act) rec vs' ∧ vs' = take (length vs') (reset_version tid <$> vs) ∧
  (∀ r v, vs !! r = Some v → (length vs' <= r)%nat → v.1 = tid) ∧ same_views (without tid act) db db'.

Lemma rollback_from dt1 vs1 : rev dt1 vs1 → ∃ vs', rolled_back_to (TableDB_Rollback (set_table dt1 db) tid) vs'.
Proof.
  intros Hrv. destruct undo_ranges as [Htid HND].
  destruct (RollbackEntry_run tid es versions0 vs Htid HND undo_inserts undo_disjoint undo_deletes (reverse es) dt1 vs1)
    as (dt' & vs' & Hrun & Hrv' & Hrolled); [|done|].
  { intros e. by rewrite elem_of_reverse. }
  assert (vs' = take (length vs') (reset_version tid <$> vs)) as Hvs'.
  { eapply reverting_done; [exact Hrv|exact Hrv'| |apply undo_covers].
    intros r v Hv Hv2. destruct (Hrolled r v Hv Hv2) as [? Hx]. split; [done|]. intros p Hp. by apply Hx, elem_of_reverse. }
  exists vs'. unfold TableDB_Rollback, undo_of. cbn [set_table tdb_table tdb_undo tdb_local]. fold (undo_of db tid). fold es. rewrite Hrun.
  cbn [out_state]. unfold rolled_back_to. split; [by eapply without_ok|]. split; [done|]. split; [by apply Hrv'|].
  apply (same_table_views db _ next act rec vs vs' tid Hi); [apply Hrv'|].
  intros st' i r Hin' Hne _. destruct (act_ranges _ _ _ _ _ _ _ Hi Hin') as (? & ? & ?).
  apply rollback_sees; [done..|apply Hrv'].
Qed.

Lemma rollback_ok : ∃ vs', rolled_back_to (TableDB_Rollback db tid) vs'.
Proof.
  replace db with (set_table (tdb_table db) db) at 1 by by destruct db. apply (rollback_from _ vs).
  apply reverting_start; [apply undo_inserts|apply Hi|done].
Qed.

(** A commit that failed before it touched an entry. *)
Lemma revert_rollback_ok : ∃ vs', rolled_back_to (TableDB_Rollback (TableDB_RevertCommit db tid es) tid) vs'.
Proof.
  destruct undo_ranges as [Htid HND]. unfold TableDB_RevertCommit.
  destruct (RevertCommit_run tid es versions0 vs Htid undo_inserts undo_disjoint undo_deletes es (tdb_table db) vs)
    as (dt1 & vs1 & -> & Hrv1); [done|apply reverting_start; [apply undo_inserts|apply Hi|done]|]. by apply (rollback_from _ vs1).
Qed.
End rollback.

(** ** Committing *)

Definition commit_version (tid c : Z) (v : Z * Z) : Z * Z :=
  (if v.1 =? tid then c else v.1, if v.2 =? tid then c else v.2).

(** The rows that entries delete. *)
Definition deleted_rows es : list nat :=
  es ≫= λ e, match e with InsertEntry _ _ => [] | DeleteEntry p => dentry_rows p end.

Lemma elem_of_deleted_rows es r : r ∈ deleted_rows es ↔ ∃ p, DeleteEntry p ∈ es ∧ r ∈ dentry_rows p.
Proof.
  unfold deleted_rows. rewrite list_elem_of_bind. split.
  - intros ([s n|p] & Hr & He); [by apply elem_of_nil in Hr|eauto].
  - intros (p & He & Hr). by exists (DeleteEntry p).
Qed.

Lemma delete_versions_app rows rows' id vs :
  delete_versions rows' id (delete_versions rows id vs) = delete_versions (rows ++ rows') id vs.
Proof.
  apply list_eq. intros r. unfold delete_versions. rewrite !list_lookup_imap. destruct (vs !! r) as [v|]; [|done]. cbn. f_equal.
  repeat case_decide; rewrite ?elem_of_app in *; (done || naive_solver).
Qed.

Lemma length_delete_versions rows id vs : length (delete_versions rows id vs) = length vs.
Proof. apply length_imap. Qed.

Section commit.
Context (db : TableDB) (next : Z) (act : list (Z * Z)) (rec : list (Z * Z * Z)) (vs : list (Z * Z)) (st tid c : Z).
Hypothesis Hi : table_inv db next act rec vs.
Hypothesis Hin : (st, tid) ∈ act.
Hypothesis Hact : ∀ k, k ∈ act → k.1 < c.
Hypothesis Hc : c < TRANSACTION_ID_START - 1.

Let es := undo_of db tid.
Let versions0 := dt_versions (tdb_table db).

Lemma commit_ids : tid ≠ 0 ∧ c ≠ 0 ∧ c ≠ tid ∧ 0 < c.
Proof.
  pose proof (ko_act _ _ (ti_keys _ _ _ _ _ Hi) _ _ Hin) as [[? ?] ?]. specialize (Hact _ Hin). cbn in Hact.
  unfold TRANSACTION_ID_START in *. lia.
Qed.

Lemma row_inserted_version r v : vs !! r = Some v → row_inserted versions0 r = v.1.
Proof.
  intros Hv. pose proof (tr_versions _ _ (ti_table _ _ _ _ _ Hi)) as Hr. unfold row_inserted.
  destruct (morsel_of_row _ _ r Hr) as (m & Hm & _); [by eapply lookup_lt_Some|]. fold versions0 in Hm. rewrite Hm.
  f_equal. exact (version_of_row _ _ _ _ _ Hr Hv Hm).
Qed.

(** What holds while the entries are committed. *)
Record committing_entries dt ws : Prop := {
  ce_committing : committing tid c (dt_versions dt) ws;
  ce_length : length ws = length vs;
  ce_total : dt_total_rows dt = length vs;
  ce_frame : commit_frame versions0 (dt_versions dt);
  ce_rows : ∀ r, (r < length vs)%nat →
    row_inserted (dt_versions dt) r = row_inserted versions0 r ∨ row_inserted (dt_versions dt) r = c;
}.

Lemma CommitEntry_step dt ws e :
  committing_entries dt ws → e ∈ es →
  ∃ dt', CommitEntry c dt e = Ok dt' ∧ committing_entries dt' (delete_versions (deleted_rows [e]) c ws) ∧
    ∀ r, row_inserted (dt_versions dt') r = row_inserted (dt_versions dt) r ∧ (∀ s n, e = InsertEntry s n → ¬ (s <= r < s + n)%nat) ∨
      row_inserted (dt_versions dt') r = c.
Proof.
  intros [Hcg Hlen Htot Hfr Hrows] He. destruct commit_ids as (Ht0 & Hc0 & Hct & _). destruct e as [s n|p]; cbn [CommitEntry].
  - change (deleted_rows _) with (@nil nat). rewrite delete_versions_nil.
    destruct (ti_inserts _ _ _ _ _ Hi st tid s n Hin He) as ([Hn Hle] & Hcut1 & Hcut2 & Hown).
    destruct (CommitAppend_spec tid c Ht0 Hc0 Hct dt ws s n Hcg Hn) as (dt' & -> & Hcg' & Hfr' & Hraw & Htot' & _).
    + lia.
    + intros r Hr. destruct (Hown r Hr) as (v & Hv & Hv1). destruct (Hrows r) as [Heq|Heq]; [by eapply lookup_lt_Some|left|by right].
      by rewrite Heq, (row_inserted_version r v Hv).
    + by apply (cf_cuts _ _ Hfr).
    + by apply (cf_cuts _ _ Hfr).
    + exists dt'. split; [done|]. split; [split; try done|].
      * by rewrite Htot'.
      * by eapply commit_frame_trans.
      * intros r Hr. rewrite Hraw. case_decide; [by right|]. by apply Hrows.
      * intros r. rewrite Hraw. case_decide as Hr; [by right|left]. split; [done|]. by intros s' n' [= <- <-].
  - destruct (ti_deletes _ _ _ _ _ Hi st tid p Hin He) as (Hp & _ & Hdel).
    destruct (commit_delete tid c dt ws p Hcg) as (Hcg' & Hfr' & Hraw).
    + by apply (cf_entries _ _ Hfr).
    + intros r Hr. destruct (Hdel r Hr) as (v & Hv%lookup_lt_Some & _). lia.
    + eexists. split; [reflexivity|]. unfold deleted_rows. cbn [mbind list_bind]. rewrite app_nil_r. split; [split|].
      * done.
      * by rewrite length_delete_versions.
      * rewrite <-Htot. unfold apply_delete. by case_match.
      * by eapply commit_frame_trans.
      * intros r Hr. rewrite Hraw. by apply Hrows.
      * intros r. left. by rewrite Hraw.
Qed.

Lemma CommitEntry_run es' dt ws :
  (∀ e, e ∈ es' → e ∈ es) → committing_entries dt ws →
  ∃ dt', run_entries (CommitEntry c) es' dt = Ret dt' tt ∧ committing_entries dt' (delete_versions (deleted_rows es') c ws) ∧
    ∀ r, row_inserted (dt_versions dt') r = row_inserted (dt_versions dt) r ∧
        (∀ s n, InsertEntry s n ∈ es' → ¬ (s <= r < s + n)%nat) ∨
      row_inserted (dt_versions dt') r = c.
Proof.
  revert dt ws. induction es' as [|e es' IH]; intros dt ws Hsub Hce; cbn [run_entries].
  { exists dt. change (deleted_rows []) with (@nil nat). rewrite delete_versions_nil. split; [done|]. split; [done|].
    intros r. left. split; [done|]. by intros s n ?%elem_of_nil. }
  destruct (CommitEntry_step dt ws e Hce) as (dt1 & -> & Hce1 & Hr1); [apply Hsub; left|].
  destruct (IH dt1 _ (λ e' He', Hsub e' (list_elem_of_further _ _ _ He')) Hce1) as (dt2 & -> & Hce2 & Hr2).
  exists dt2. split; [done|]. rewrite delete_versions_app in Hce2. split.
  { unfold deleted_rows in *. cbn [mbind list_bind] in *. by rewrite app_nil_r in Hce2. }
  intros r. destruct (Hr2 r) as [[Heq Hno]|?]; [|by right]. destruct (Hr1 r) as [[Heq1 Hno1]|Heq1]; [|right; congruence].
  left. split; [congruence|]. intros s n [<-|Hs]%elem_of_cons; [by apply Hno1|by apply Hno].
Qed.

(** All rows of the transaction have the commit id. *)
Lemma commit_entries :
  ∃ dt', run_entries (CommitEntry c) es (tdb_table db) = Ret dt' tt ∧
    table_refines dt' (commit_version tid c <$> vs) ∧ commit_frame versions0 (dt_versions dt').
Proof.
  destruct commit_ids as (Ht0 & Hc0 & Hct & _). pose proof (ti_table _ _ _ _ _ Hi) as [Htot Hr].
  destruct (CommitEntry_run es (tdb_table db) (settle_version tid c <$> vs)) as (dt' & Hrun & [Hcg Hlen Htot' Hfr Hrows] & Hraw); [done| |].
  { split; [by apply committing_start|by rewrite length_fmap|done|apply commit_frame_refl|by left]. }
  exists dt'. split; [done|]. split; [|done]. split; [by rewrite length_fmap|].
  replace (commit_version tid c <$> vs) with (delete_versions (deleted_rows es) c (settle_version tid c <$> vs)).
  - apply (committing_done tid c Ht0 Hc0 Hct); [done|]. intros r Hlt. rewrite Hlen in Hlt. destruct (Hraw r) as [[Heq Hno]|Heq]; [|by rewrite Heq].
    rewrite Heq. destruct (lookup_lt_is_Some_2 vs r Hlt) as [v Hv]. fold versions0. rewrite (row_inserted_version r v Hv). intros Hv1.
    destruct (ti_owned _ _ _ _ _ Hi st tid r v Hin Hv Hv1) as (_ & s & n & He & Hrange). by apply (Hno s n He).
  - apply list_eq. intros r. unfold delete_versions. rewrite list_lookup_imap, !list_lookup_fmap. destruct (vs !! r) as [[v1 v2]|] eqn:Hv; [|done].
    cbn. f_equal. unfold settle_version, commit_version, settle_id. cbn. case_decide as Hd.
    + apply elem_of_deleted_rows in Hd as (p & Hp & Hd). destruct (undo_deletes _ _ _ _ _ _ _ Hi Hin p Hp) as (_ & _ & Hx).
      destruct (Hx r Hd) as (w & Hw & _ & Hw2). rewrite Hv in Hw. injection Hw as <-. cbn in Hw2. subst v2. by rewrite Z.eqb_refl.
    + rewrite (proj2 (Z.eqb_neq v2 tid)); [done|]. intros ->. apply Hd, elem_of_deleted_rows. by apply (undo_covers _ _ _ _ _ _ _ Hi Hin r _ Hv).
Qed.

Lemma commit_inv dt' rec' :
  keys_ok (without tid act) rec' → table_refines dt' (commit_version tid c <$> vs) → commit_frame versions0 (dt_versions dt') →
  table_inv (mkTableDB dt' (tdb_undo db) (delete tid (tdb_local db))) next (without tid act) rec' (commit_version tid c <$> vs).
Proof.
  intros Hk' Hdt' [Hfe Hfc]. destruct commit_ids as (_ & _ & Hct & _). set (db' := mkTableDB _ _ _).
  change versions0 with (dt_versions (tdb_table db)) in Hfe, Hfc.
  assert (∀ r v', (commit_version tid c <$> vs) !! r = Some v' → ∃ v, vs !! r = Some v ∧ v' = commit_version tid c v) as Hrow.
  { intros r v'. rewrite list_lookup_fmap. destruct (vs !! r) as [v|]; [|done]. intros [= <-]. eauto. }
  assert (∀ r v, vs !! r = Some v → (commit_version tid c <$> vs) !! r = Some (commit_version tid c v)) as Hrow'.
  { intros r v Hv. by rewrite list_lookup_fmap, Hv. }
  assert (∀ id, id ≠ tid → (if id =? tid then c else id) = id) as Hother.
  { intros id Hne. by rewrite (proj2 (Z.eqb_neq id tid)). }
  pose proof (ti_room _ _ _ _ _ Hi) as Hroom. rewrite (local_total_of db tid) in Hroom.
  destruct Hi as [Hk Hn Ha Ht _ Hins Hdel Howned Hinserts Hdisj Hdels Hfresh Hlocal].
  assert (∀ st' tid', (st', tid') ∈ act → TRANSACTION_ID_START <= tid') as Hbig.
  { intros st' tid' Hin'. by apply (ko_act _ _ Hk _ _ Hin'). }
  split; try done; cbn [db' tdb_table tdb_local].
  - intros [st' tid'] [? _]%without_spec. auto.
  - rewrite length_fmap. lia.
  - intros r v' (v & Hv & ->)%Hrow. specialize (Hins r v Hv). cbn. case_match; lia.
  - intros r v' (v & Hv & ->)%Hrow. cbn. destruct (Z.eqb_spec v.2 tid) as [|Hne]; [right; left; lia|].
    destruct (Hdel r v Hv) as [?|[?|(st' & p & ? & ? & ?)]]; [auto|auto|right; right]. exists st', p. by rewrite without_spec.
  - intros st' tid' r v' [Hin' Hne]%without_spec (v & Hv & ->)%Hrow. cbn. specialize (Hbig _ _ Hin').
    destruct (Z.eqb_spec v.1 tid) as [|Hv1]; [intros; lia|]. intros Hv1'.
    destruct (Howned st' tid' r v Hin' Hv Hv1') as (Hv2 & ?). split; [|done]. rewrite Hother; [done|].
    rewrite Hv2. intros Heq. specialize (Ha _ Hin). cbn in Ha. lia.
  - intros st' tid' s n [Hin' Hne]%without_spec He. destruct (Hinserts st' tid' s n Hin' He) as (? & ? & ? & Hr).
    rewrite length_fmap. split; [done|]. split; [by apply Hfc|]. split; [by apply Hfc|]. intros r Hr'. destruct (Hr r Hr') as (v & Hv & Hv1).
    eexists. split; [by apply Hrow'|]. cbn. rewrite Hother; congruence.
  - intros st' tid' s n s' n' [Hin' Hne]%without_spec. by apply (Hdisj st').
  - intros st' tid' p [Hin' Hne]%without_spec He. destruct (Hdels st' tid' p Hin' He) as (Hp & ? & Hr). split; [by apply Hfe|].
    split; [done|]. intros r Hr'. destruct (Hr r Hr') as (v & Hv & ? & ?). eexists. split; [by apply Hrow'|]. cbn. rewrite !Hother; [done|congruence|].
    specialize (Hbig _ _ Hin). lia.
  - intros tid' Htid'. destruct (Hfresh tid' Htid') as [Hu Hl]. split; [done|].
    destruct (decide (tid' = tid)) as [->|]; [by rewrite lookup_delete_eq|by rewrite lookup_delete_ne].
  - intros tid' s [_ Hs]%lookup_delete_Some. by apply (Hlocal tid').
Qed.

(** Those that run did not see the rows of the transaction, and do not. *)
Lemma commit_sees st' i r :
  (st', i) ∈ act → i ≠ tid →
  sees (Transaction_new st' i 0) (commit_version tid c <$> vs) r = sees (Transaction_new st' i 0) vs r.
Proof.
  intros Hin' Hne. destruct (act_ranges _ _ _ _ _ _ _ Hi Hin) as (? & ? & ?), (act_ranges _ _ _ _ _ _ _ Hi Hin') as (? & ? & ?).
  pose proof (Hact _ Hin') as Hst. cbn in Hst. unfold sees. rewrite list_lookup_fmap. destruct (vs !! r) as [[v1 v2]|]; [|done]. cbn.
  assert (∀ id, UseVersion st' i (if id =? tid then c else id) = UseVersion st' i id) as Heq.
  { intros id. destruct (Z.eqb_spec id tid) as [->|]; [|done]. rewrite (UseVersion_other st' i tid) by done. apply UseVersion_false. lia. }
  unfold row_visible, UseVersion_txn, commit_version. cbn. by rewrite !Heq.
Qed.
End commit.

Lemma what_message msg : what (TransactionException msg) ≠ ""%string.
Proof. done. Qed.

(** Dropping the local storage of a transaction. *)
Lemma drop_local_ok db next act rec vs tid :
  table_inv db next act rec vs → table_inv (mkTableDB (tdb_table db) (tdb_undo db) (delete tid (tdb_local db))) next act rec vs.
Proof.
  intros Hi. pose proof (ti_room _ _ _ _ _ Hi) as Hroom. rewrite (local_total_of db tid) in Hroom.
  destruct Hi as [Hk Hn Ha Ht _ Hins Hdel Howned Hinserts Hdisj Hdels Hfresh Hlocal]. split; try done; cbn [tdb_local].
  - lia.
  - intros tid' Htid'. destruct (Hfresh tid' Htid') as [? Hl]. split; [done|].
    destruct (decide (tid' = tid)) as [->|]; [by rewrite lookup_delete_eq|by rewrite lookup_delete_ne].
  - intros tid' s [_ Hs]%lookup_delete_Some. by apply (Hlocal tid').
Qed.

Lemma commit_ok db next act rec vs t c :
  table_inv db next act rec vs → key t ∈ act → Forall (λ k, k.1 < c) act → Forall (λ r, r.2 < c) rec →
  c < TRANSACTION_ID_START - 1 →
  let tid := transaction_id t in
  let n := length (live_rows (local_of db tid)) in
  match TableDB_Commit db t c with
  | (db', "") =>
      (n = 0%nat ∨ dt_is_root (tdb_table db) = true) ∧
      table_inv db' next (without tid act) (rec ++ [(key t, c)]) (commit_version tid c <$> append_versions n tid vs) ∧
      same_views (without tid act) db db'
  | (db', _) =>
      n ≠ 0%nat ∧ dt_is_root (tdb_table db) = false ∧ undo_of db' tid = undo_of db tid ∧
      ∃ vs', rolled_back_to db next act rec vs tid (TableDB_Rollback db' tid) vs'
  end%string.
Proof.
  intros Hi Hin Hact Hrec Hc tid n. pose proof (proj1 (Forall_forall _ _) Hact) as Hact'. pose proof (proj1 (Forall_forall _ _) Hrec) as Hrec'.
  assert (match match tdb_local db !! tid with None => Ret db tt | Some _ => TableDB_Flush db t end with
    | Ret db' _ => (n = 0%nat ∨ dt_is_root (tdb_table db) = true) ∧ table_inv db' next act rec (append_versions n tid vs)
    | Raise db' e => n ≠ 0%nat ∧ dt_is_root (tdb_table db) = false ∧ db' = db ∧ ∃ msg, e = TransactionException msg
    end) as Hflushed.
  { destruct (tdb_local db !! tid) as [s|] eqn:Hs.
    - pose proof (flush_ok db next act rec vs t Hi Hin) as Hf. fold tid in Hf. fold n in Hf. destruct (TableDB_Flush db t).
      { destruct Hf as [[Hnil|Hroot] Hf]; [|by auto]. split; [left; unfold n; by rewrite Hnil|done]. }
      destruct Hf as (Hne & Hroot & Hdb & He). split_and!; try done. intros Hn. by apply Hne, nil_length_inv.
    - unfold n, local_of. rewrite Hs. unfold append_versions. cbn. rewrite app_nil_r. auto. }
  unfold TableDB_Commit. fold tid. destruct (match tdb_local db !! tid with Some _ => _ | None => _ end) as [db1 []|db1 e].
  - destruct Hflushed as [Hroot Hflushed]. set (db2 := mkTableDB (tdb_table db1) (tdb_undo db1) (delete tid (tdb_local db1))).
    assert (table_inv db2 next act rec (append_versions n tid vs)) as Hi2 by by apply drop_local_ok.
    destruct (commit_entries db2 next act rec _ (start_time t) tid c Hi2 Hin Hact' Hc) as (dt' & -> & Hdt' & Hfr).
    pose proof (keys_commit act rec t c (ti_keys _ _ _ _ _ Hi) Hin Hact' Hrec' Hc) as Hk.
    pose proof (commit_inv db2 next act rec _ (start_time t) tid c Hi2 Hin Hact' Hc dt' _ Hk Hdt' Hfr) as Hi'.
    assert (set_table dt' db2 = mkTableDB dt' (tdb_undo db2) (delete tid (tdb_local db2))) as Hdb'.
    { unfold set_table, db2. cbn. by rewrite delete_delete_eq. }
    rewrite Hdb'. split; [done|]. split; [done|]. apply (same_views_trans _ _ db2).
    + apply (append_views db db2 next act rec vs tid (start_time t) n Hi Hin). apply Hi2.
    + eapply same_table_views; [exact Hi2|exact Hdt'|]. intros st' i r Hin' Hne _.
      by apply (commit_sees db2 next act rec _ (start_time t)).
  - destruct Hflushed as (Hn & Hroot & -> & msg & ->). split_and!; [done|done|done|].
    by apply (revert_rollback_ok _ _ _ _ _ (start_time t)).
Qed.

(** Cleaning up the entries of a committed transaction changes the cardinality only. *)
Lemma CleanupEntry_run es dt : ∃ dt', run_entries CleanupEntry es dt = Ret dt' tt ∧ dt_versions dt' = dt_versions dt ∧
  dt_total_rows dt' = dt_total_rows dt.
Proof.
  revert dt. induction es as [|[s n|p] es IH]; intros dt; cbn [run_entries CleanupEntry]; [by exists dt|by apply IH|].
  set (dt1 := mkDataTable _ _ _ _). destruct (IH dt1) as (dt' & -> & Hv & Ht). exists dt'. by rewrite Hv, Ht.
Qed.

Lemma cleanup_ok db next act rec vs t :
  table_inv db next act (ckey t :: rec) vs → table_inv (TableDB_Cleanup db (transaction_id t)) next act rec vs.
Proof.
  intros Hi. unfold TableDB_Cleanup. set (tid := transaction_id t).
  destruct (CleanupEntry_run (undo_of db tid) (tdb_table db)) as (dt' & -> & Hv & Htot). cbn [out_state].
  assert (∀ st, (st, tid) ∉ act) as Hno.
  { intros st Hin. refine (keys_disjoint _ _ st tid (start_time t) (commit_id t) (ti_keys _ _ _ _ _ Hi) Hin _). left. }
  set (db' := mkTableDB _ _ _).
  assert (∀ st' tid', (st', tid') ∈ act → undo_of db' tid' = undo_of db tid') as Hundo.
  { intros st' tid' Hin. unfold db', undo_of. cbn. rewrite lookup_delete_ne; [done|]. intros <-. by apply (Hno st'). }
  destruct Hi as [Hk Hn Ha [Ht1 Ht2] Hroom Hins Hdel Howned Hinserts Hdisj Hdels Hfresh Hlocal].
  split; try done; cbn [db' tdb_table tdb_local]; rewrite ?Hv.
  - by eapply keys_cleanup.
  - by split; rewrite ?Htot, ?Hv.
  - intros r v Hr. destruct (Hdel r v Hr) as [?|[?|(st' & p & ? & ? & ?)]]; [auto|auto|right; right]. exists st', p.
    by rewrite (Hundo st').
  - intros st' tid' r v Hin. rewrite (Hundo st') by done. by apply (Howned st').
  - intros st' tid' s n Hin. rewrite (Hundo st') by done. by apply (Hinserts st').
  - intros st' tid' s n s' n' Hin. rewrite (Hundo st') by done. by apply (Hdisj st').
  - intros st' tid' p Hin. rewrite (Hundo st') by done. by apply (Hdels st').
  - intros tid' Htid'. destruct (Hfresh tid' Htid') as [Hu Hl]. split; [|done]. unfold db', undo_of in *. cbn.
    destruct (decide (tid' = tid)) as [->|]; [by rewrite lookup_delete_eq|by rewrite lookup_delete_ne].
Qed.

#[export] Instance TableLaws : SnapshotStoreLaws TableDB () (res (list nat)).
Proof.
  split.
  - intros db next act rec st tid [vs Hi] Hn Ha Hr Hst Htid. exists vs. by apply (start_ok db next).
  - intros db next act rec k db' [vs Hi] Hin Hw. by apply (works_ok db next act rec vs).
  - intros db next act rec t [vs Hi] Hin. cbn [Rollback TableEffects].
    destruct (rollback_ok db next act rec vs (start_time t) (transaction_id t) Hi Hin) as (vs' & Hi' & _ & _ & Hv).
    split; [by exists vs'|done].
  - intros db next act rec t c checkpoint t' db' error [vs Hi] Hin Ha Hr Hc Heq. unfold commit_result in Heq.
    cbn [Commit Rollback TableEffects] in Heq. pose proof (commit_ok db next act rec vs t c Hi Hin Ha Hr Hc) as Hok. cbn zeta in Hok.
    change (TableDB_Commit db (Transaction_set_commit_id t c) c) with (TableDB_Commit db t c) in Heq.
    destruct (TableDB_Commit db t c) as [db1 err]. revert Heq. case_bool_decide as He.
    + intros [= <- <- <-]. subst err. rewrite bool_decide_true by done. destruct Hok as (_ & Hi' & Hv). split; [by eexists|done].
    + intros [= <- <- <-]. rewrite bool_decide_false by done. destruct err as [|a err]; [done|].
      destruct Hok as (_ & _ & _ & vs' & Hi' & _ & _ & Hv). split; [by exists vs'|done].
  - intros db next act rec t [vs Hi] _. split; [exists vs; by apply cleanup_ok|].
    intros st tid o Hin. cbn. destruct (0 <? st) eqn:Hst; [|done].
    apply (unchanged_views db (TableDB_Cleanup db (transaction_id t)) next (act) (ckey t :: rec) vs (-1)) in Hi as Hv.
    + pose proof (Hv st tid o) as Hv'. cbn in Hv'. rewrite Hst in Hv'. apply Hv', without_spec. split; [done|].
      pose proof (ko_act _ _ (ti_keys _ _ _ _ _ Hi) _ _ Hin) as [_ ?]. unfold TRANSACTION_ID_START in *. lia.
    + by apply cleanup_ok, ti_table in Hi.
  - intros db next act Hok _. split; [done|apply same_views_refl].
Qed.

(** ** A new table *)

Definition TableDB_new (dt : DataTable) : TableDB := mkTableDB dt ∅ ∅.

Lemma TableDB_new_ok dt vs :
  table_refines dt vs → Z.of_nat (length vs) <= MAX_ROW_ID →
  (∀ r v, vs !! r = Some v → v.1 < TRANSACTION_ID_START ∧ (v.2 = NOT_DELETED_ID ∨ v.2 < TRANSACTION_ID_START)) →
  table_inv (TableDB_new dt) TRANSACTION_ID_START [] [] vs.
Proof.
  intros Hdt Hroom Hvs. split; try done.
  - apply keys_nil.
  - by intros k ?%elem_of_nil.
  - unfold local_total. cbn. rewrite map_to_list_empty. cbn. lia.
  - intros r v Hv. destruct (Hvs r v Hv) as [? _]. lia.
  - intros r v Hv. destruct (Hvs r v Hv) as [_ [?|?]]; auto.
  - by intros st tid r v ?%elem_of_nil.
  - by intros st tid r v ?%elem_of_nil.
  - by intros st tid s n s' n' ?%elem_of_nil.
  - by intros st tid p ?%elem_of_nil.
Qed.

(** ** Theorems *)

Definition scan_as db (st tid : Z) : res (list nat) :=
  scan_from (tdb_table db) (Transaction_new st tid 0) (InitializeScan (tdb_table db)).

Lemma scan_as_spec db vs st tid :
  table_refines (tdb_table db) vs → 0 < st < TRANSACTION_ID_START → tid ≠ NOT_DELETED_ID →
  scan_as db st tid = Ok (List.filter (sees (Transaction_new st tid 0) vs) (seq 0 (length vs))).
Proof.
  intros Hdt Hst Htid. unfold scan_as. rewrite (scan_from_spec _ vs); [|done| |by apply InitializeScan_ok].
  - cbn [InitializeScan ts_current_row ts_max_row]. rewrite (tr_total _ _ Hdt), Nat.sub_0_r. f_equal.
    by rewrite (visible_rows_sees _ vs (length vs)).
  - split; cbn; [lia|]. split; [|done]. unfold TRANSACTION_ID_START, NOT_DELETED_ID in *. cbn. lia.
Qed.


(** C20: what a commit publishes.  When the table is current, or the transaction
    has no local rows left, the commit succeeds: the local rows are appended and
    everything that the transaction inserted or deleted has the commit id.  A
    transaction that starts later sees the table as the transaction left it. *)
Theorem TableDB_Commit_publishes db next act rec vs t c :
  table_inv db next act rec vs → key t ∈ act → Forall (λ k, k.1 < c) act → Forall (λ r, r.2 < c) rec →
  c < TRANSACTION_ID_START - 1 →
  let tid := transaction_id t in
  let n := length (live_rows (local_of db tid)) in
  let vs' := append_versions n tid vs in
  n = 0%nat ∨ dt_is_root (tdb_table db) = true →
  ∃ db', TableDB_Commit db t c = (db', ""%string) ∧
    table_refines (tdb_table db') (commit_version tid c <$> vs') ∧
    ∀ st i, c < st < TRANSACTION_ID_START → next <= i < NOT_DELETED_ID →
      scan_as db' st i = Ok (List.filter (sees (Transaction_new st tid 0) vs') (seq 0 (length vs'))).
Proof.
  intros Hi Hin Hact Hrec Hc tid n vs' Hroot. pose proof (commit_ok db next act rec vs t c Hi Hin Hact Hrec Hc) as Hok.
  cbn zeta in Hok. fold tid in Hok. fold n in Hok. fold vs' in Hok. destruct (TableDB_Commit db t c) as [db' err].
  destruct err as [|a err]; [|destruct Hok as (Hn & Hr & _), Hroot; congruence].
  destruct Hok as (_ & Hi' & _). exists db'. pose proof (ti_table _ _ _ _ _ Hi') as Hdt. split; [done|]. split; [done|].
  intros st i Hst Hirange. assert (0 < c) as Hc0.
  { rewrite Forall_forall in Hact. specialize (Hact _ Hin). pose proof (ko_act _ _ (ti_keys _ _ _ _ _ Hi) _ _ Hin) as [[? ?] ?]. cbn in *. lia. }
  rewrite (scan_as_spec db' (commit_version tid c <$> vs')); [|done|lia|lia]. rewrite length_fmap. f_equal.
  apply filter_ext_elem. intros r _. unfold sees. rewrite list_lookup_fmap. destruct (vs' !! r) as [[v1 v2]|] eqn:Hv; [|done]. cbn.
  assert (∀ id, id ≠ i → UseVersion st i (if id =? tid then c else id) = UseVersion st tid id) as Huse.
  { intros id Hid. unfold UseVersion. destruct (Z.eqb_spec id tid) as [->|Hne].
    - rewrite (proj2 (Z.ltb_lt c st)) by lia. by rewrite orb_true_r.
    - by rewrite (proj2 (Z.eqb_neq id i)). }
  assert (v1 ≠ i ∧ v2 ≠ i) as [Hv1 Hv2].
  { pose proof (ti_next _ _ _ _ _ Hi') as Hnx.
    assert ((commit_version tid c <$> vs') !! r = Some (commit_version tid c (v1, v2))) as Hv' by by rewrite list_lookup_fmap, Hv.
    destruct (act_ranges _ _ _ _ _ _ _ Hi Hin) as (_ & Htid & _). fold tid in Htid. pose proof (ti_act _ _ _ _ _ Hi _ Hin) as Htn. cbn in Htn. fold tid in Htn.
    split; intros ->.
    - pose proof (ti_inserted _ _ _ _ _ Hi' r _ Hv') as Hlt. cbn in Hlt. rewrite (proj2 (Z.eqb_neq i tid)) in Hlt by lia. lia.
    - pose proof (ti_deleted _ _ _ _ _ Hi' r _ Hv') as Hd. cbn in Hd. rewrite (proj2 (Z.eqb_neq i tid)) in Hd by lia.
      destruct Hd as [?|[?|(st' & p & [Ha _]%without_spec & _)]]; [lia|lia|].
      pose proof (ti_act _ _ _ _ _ Hi _ Ha). cbn in *. lia. }
  unfold row_visible, UseVersion_txn, commit_version. cbn. by rewrite !Huse.
Qed.

End store.
Arguments TableDB : clear implicits.

(** ** Witnesses *)

(** A table with four committed rows, and two transactions: the first one appends
    two rows, deletes one and commits. *)
Definition tx_table : DataTable :=
  match InitializeAppend DataTable_new (Transaction_new 0 0 0) 4 with Ok (dt, _) => dt | Throw _ => DataTable_new end.

Definition tx_rows : list (Z * Z) := append_versions 4 0 [].

Definition tx_db : TableDB Z := TableDB_new tx_table.

Definition tx_writer : Transaction := Transaction_new 0 TRANSACTION_ID_START 0.

Definition tx_m1 : TransactionManager :=
  mkTransactionManager 1 1 (TRANSACTION_ID_START + 1) [tx_writer] [] [] [] false.

Definition tx_m2 : TransactionManager :=
  mkTransactionManager 1 2 (TRANSACTION_ID_START + 2) [tx_writer; Transaction_new 1 (TRANSACTION_ID_START + 1) 0] [] [] [] false.

Definition tx_appended : TableDB Z := out_state (TableDB_Append tx_db tx_writer [50; 60]).

Definition tx_deleted : TableDB Z := out_state (TableDB_Delete tx_appended tx_writer (Z.of_nat <$> [2%nat])).

Definition tx_result : TransactionManager * TableDB Z * string :=
  CommitTransaction_finish tx_m2 tx_deleted TRANSACTION_ID_START false.

Definition tx_before : system (TableDB Z) := mkSystem tx_m2 tx_db None.
Definition tx_after : system (TableDB Z) := mkSystem tx_result.1.1 tx_result.1.2 None.

Lemma tx_table_refines : table_refines tx_table tx_rows.
Proof.
  unfold tx_table. destruct (InitializeAppend_spec DataTable_new [] (Transaction_new 0 0 0) 4)
    as (dt & -> & Hdt & _); [apply DataTable_new_refines|done|by vm_compute|exact Hdt].
Qed.

Lemma tx_rows_committed r v :
  tx_rows !! r = Some v → v.1 < TRANSACTION_ID_START ∧ (v.2 = NOT_DELETED_ID ∨ v.2 < TRANSACTION_ID_START).
Proof. intros [Hn _]%lookup_replicate. subst v. split; [by vm_compute|by left]. Qed.

Lemma tx_started : run 2 (system_new tx_db) tx_before.
Proof.
  apply (nsteps_l _ _ _ (mkSystem tx_m1 tx_db None)).
  { exists None. apply (step_start _ _ _ _ tx_writer). reflexivity. }
  apply (nsteps_l _ _ _ tx_before); [|constructor].
  exists None. apply (step_start _ _ _ _ (Transaction_new 1 (TRANSACTION_ID_START + 1) 0)). reflexivity.
Qed.

Lemma tx_delete_pre : delete_pre (tdb_table tx_appended) [2%nat].
Proof.
  split; [by vm_compute; lia|]. exists 0%nat. intros id ->%list_elem_of_singleton.
  split; [by vm_compute; lia|]. split; [apply Nat.div_small, Nat.ltb_lt; by vm_compute|].
  intros m c [= <-] Hg. vm_compute in Hg. done.
Qed.

Lemma tx_committed : run_of_others (TRANSACTION_ID_START + 1) 3 tx_before tx_after.
Proof.
  assert (∀ db : TableDB Z, may_act (mkSystem tx_m2 db None) TRANSACTION_ID_START) as Hact.
  { intros db. split; [left|done]. }
  apply (nsteps_l _ _ _ (mkSystem tx_m2 tx_appended None)).
  { exists (Some TRANSACTION_ID_START). split; [done|]. apply (step_work tx_m2 tx_db None tx_writer); [apply Hact|left|].
    apply works_append; [done|apply Nat.leb_le; by vm_compute|by vm_compute]. }
  apply (nsteps_l _ _ _ (mkSystem tx_m2 tx_deleted None)).
  { exists (Some TRANSACTION_ID_START). split; [done|]. apply (step_work tx_m2 tx_appended None tx_writer); [apply Hact|left|].
    apply works_delete; [done|apply tx_delete_pre]. }
  apply (nsteps_l _ _ _ tx_after); [|constructor].
  exists (Some TRANSACTION_ID_START). split; [done|].
  apply (step_commit tx_m2 tx_deleted None TRANSACTION_ID_START _ _ tx_result.2); [apply Hact|reflexivity|].
  unfold tx_result. by destruct (CommitTransaction_finish _ _ _ _) as [[m' db'] e].
Qed.


Definition tx_act : list (Z * Z) := [(0, TRANSACTION_ID_START); (1, TRANSACTION_ID_START + 1)].

Lemma tx_inv : table_inv tx_db (TRANSACTION_ID_START + 2) tx_act [] tx_rows.
Proof.
  assert (table_inv tx_db (TRANSACTION_ID_START + 1) [(0, TRANSACTION_ID_START)] [] tx_rows) as H1.
  { apply (start_ok tx_db TRANSACTION_ID_START [] [] tx_rows 0 TRANSACTION_ID_START); try done; [|by vm_compute..].
    apply TableDB_new_ok; [apply tx_table_refines|by vm_compute|apply tx_rows_committed]. }
  apply (start_ok tx_db (TRANSACTION_ID_START + 1) [(0, TRANSACTION_ID_START)] [] tx_rows 1 (TRANSACTION_ID_START + 1) H1);
    try done; by repeat constructor.
Qed.

Lemma tx_appended_inv : ∃ vs, table_inv tx_appended (TRANSACTION_ID_START + 2) tx_act [] vs.
Proof.
  apply (works_append_ok tx_db (TRANSACTION_ID_START + 2) tx_act [] tx_rows tx_writer [50; 60] tx_inv);
    [left|apply Nat.leb_le; by vm_compute|by vm_compute].
Qed.

Lemma tx_deleted_inv : ∃ vs, table_inv tx_deleted (TRANSACTION_ID_START + 2) tx_act [] vs.
Proof.
  destruct tx_appended_inv as [vs Hi].
  apply (works_delete_ok tx_appended (TRANSACTION_ID_START + 2) tx_act [] vs tx_writer [2%nat] Hi); [left|apply tx_delete_pre].
Qed.

Lemma TableDB_Commit_publishes_witness :
  ∃ db' vs, TableDB_Commit tx_deleted tx_writer 2 = (db', ""%string) ∧ table_refines (tdb_table db') vs ∧
    scan_as db' 3 (TRANSACTION_ID_START + 2) = Ok [0; 1; 3; 4; 5]%nat.
Proof.
  destruct tx_deleted_inv as [vs Hi].
  destruct (TableDB_Commit_publishes tx_deleted (TRANSACTION_ID_START + 2) tx_act [] vs tx_writer 2 Hi) as (db' & Heq & Hdt & _).
  - left.
  - by repeat constructor.
  - constructor.
  - by vm_compute.
  - right. by vm_compute.
  - exists db'. eexists. split; [exact Heq|]. split; [exact Hdt|].
    replace db' with (TableDB_Commit tx_deleted tx_writer 2).1 by by rewrite Heq. vm_compute. reflexivity.
Defined.


(** A commit that fails after the flush reverts its append, and the rollback
    reverts it again: when another transaction has flushed as many rows in
    between, those are cut off. *)
Definition race_writer : Transaction := Transaction_new 1 (TRANSACTION_ID_START + 1) 0.

Definition race_db : TableDB Z :=
  let db := out_state (TableDB_Append tx_appended race_writer [70; 80]) in
  let db := out_state (TableDB_Flush db tx_writer) in
  let db := TableDB_RevertCommit db TRANSACTION_ID_START (undo_of db TRANSACTION_ID_START) in
  out_state (TableDB_Flush db race_writer).

Lemma revert_race :
  dt_total_rows (tdb_table race_db) = 6%nat ∧ undo_of race_db (TRANSACTION_ID_START + 1) = [InsertEntry 4 2] ∧
  scan_as race_db 1 (TRANSACTION_ID_START + 1) = Ok [0; 1; 2; 3; 4; 5]%nat ∧
  let db := TableDB_Rollback race_db TRANSACTION_ID_START in
  dt_total_rows (tdb_table db) = 4%nat ∧ undo_of db (TRANSACTION_ID_START + 1) = [InsertEntry 4 2] ∧
  scan_as db 1 (TRANSACTION_ID_START + 1) = Ok [0; 1; 2; 3]%nat.
Proof. repeat split; vm_compute; reflexivity. Qed.
