(* ===== verification/ArtKey.v ===== *)
(** * Keys of the radix tree

    Models src/src/common/bit_operations.cpp with its header (byte swaps, and
    [EncodeData] for every type) and src/src/execution/index/art/art_key.cpp
    with its header: a key is the array of bytes under which a value of a
    column is stored in the index.  The bit pattern of a floating-point number
    stands for the number: [float_value] gives the order of the numbers.

    Theorems: the bytes do not depend on the byte order of the machine; the
    comparison operators are one total order, the lexicographic one; the
    encoding of every type is injective and monotone for it; the keys of an
    index, of one column or of several, never are proper prefixes of each
    other, provided that no string contains a zero byte. *)

From S2P Require Import Prelude Constants Serializer UpdateKinds.

#[local] Arguments Z.eqb : simpl never.

(** ** Byte order *)

(** [Store<T>(val, ptr)] on a machine that is little-endian or not. *)
Definition Store (machine : bool) (n : nat) (val : Z) : list Z :=
  if machine then le_encode n val else rev (le_encode n val).

(** [int n = 1; *(char * )&n == 1] *)
Definition IsLittleEndian (machine : bool) : bool :=
  match Store machine 4 1 with b :: _ => b =? 1 | [] => false end.

Definition BSWAP16 (x : Z) : Z :=
  Z.lor (Z.shiftr (Z.land (wrapU 16 x) 0xff00) 8) (Z.shiftl (Z.land (wrapU 16 x) 0x00ff) 8).

Definition BSWAP32 (x : Z) : Z :=
  Z.lor (Z.lor (Z.lor (Z.shiftr (Z.land (wrapU 32 x) 0xff000000) 24)
                      (Z.shiftr (Z.land (wrapU 32 x) 0x00ff0000) 8))
               (Z.shiftl (Z.land (wrapU 32 x) 0x0000ff00) 8))
        (Z.shiftl (Z.land (wrapU 32 x) 0x000000ff) 24).

Definition BSWAP64 (x : Z) : Z :=
  Z.lor (Z.lor (Z.lor (Z.lor (Z.lor (Z.lor (Z.lor
    (Z.shiftr (Z.land (wrapU 64 x) 0xff00000000000000) 56)
    (Z.shiftr (Z.land (wrapU 64 x) 0x00ff000000000000) 40))
    (Z.shiftr (Z.land (wrapU 64 x) 0x0000ff0000000000) 24))
    (Z.shiftr (Z.land (wrapU 64 x) 0x000000ff00000000) 8))
    (Z.shiftl (Z.land (wrapU 64 x) 0x00000000ff000000) 8))
    (Z.shiftl (Z.land (wrapU 64 x) 0x0000000000ff0000) 24))
    (Z.shiftl (Z.land (wrapU 64 x) 0x000000000000ff00) 40))
    (Z.shiftl (Z.land (wrapU 64 x) 0x00000000000000ff) 56).

Definition FlipSign (key_byte : Z) : Z := wrapU 8 (Z.lxor key_byte 128).

(** [dataptr[0] = FlipSign(dataptr[0])] *)
Definition flip_first (data : list Z) : list Z :=
  match data with [] => [] | b :: rest => FlipSign b :: rest end.

(** ** Floating-point numbers, by their bit pattern *)

(** [x == 0], [x > FLT_MAX] and [x < -FLT_MAX] for the number with the bits [x] *)
Definition float_is_zero (x : Z) : bool := Z.land x 0x7fffffff =? 0.
Definition float_above_max (x : Z) : bool := x =? 0x7f800000.
Definition float_below_min (x : Z) : bool := x =? 0xff800000.

Definition EncodeFloat (x : Z) : Z :=
  if float_is_zero x then Z.lor 0 (Z.shiftl 1 31)
  else if float_above_max x then 2 ^ 32 - 1
  else if float_below_min x then 0
  else if Z.land x (Z.shiftl 1 31) =? 0 then wrapU 32 (Z.lor x (Z.shiftl 1 31))
  else wrapU 32 (wrapU 64 (Z.lnot x)).

Definition double_is_zero (x : Z) : bool := Z.land x 0x7fffffffffffffff =? 0.
Definition double_above_max (x : Z) : bool := x =? 0x7ff0000000000000.
Definition double_below_min (x : Z) : bool := x =? 0xfff0000000000000.

Definition EncodeDouble (x : Z) : Z :=
  if double_is_zero x then 0 + Z.shiftl 1 63
  else if double_above_max x then 2 ^ 64 - 1
  else if double_below_min x then 0
  else if x <? Z.shiftl 1 63 then wrapU 64 (x + Z.shiftl 1 63)
  else wrapU 64 (Z.lnot x).

(** ** [EncodeData] for each type *)

Section Encode.
Variables machine is_little_endian : bool.

Definition EncodeData_bool (value : bool) : list Z := Store machine 1 (if value then 1 else 0).
Definition EncodeData_int8 (value : Z) : list Z := flip_first (Store machine 1 (wrapU 8 value)).
Definition EncodeData_int16 (value : Z) : list Z :=
  flip_first (Store machine 2 (if is_little_endian then BSWAP16 value else wrapU 16 value)).
Definition EncodeData_int32 (value : Z) : list Z :=
  flip_first (Store machine 4 (if is_little_endian then BSWAP32 value else wrapU 32 value)).
Definition EncodeData_int64 (value : Z) : list Z :=
  flip_first (Store machine 8 (if is_little_endian then BSWAP64 value else wrapU 64 value)).
Definition EncodeData_uint8 (value : Z) : list Z := Store machine 1 value.
Definition EncodeData_uint16 (value : Z) : list Z :=
  Store machine 2 (if is_little_endian then BSWAP16 value else value).
Definition EncodeData_uint32 (value : Z) : list Z :=
  Store machine 4 (if is_little_endian then BSWAP32 value else value).
Definition EncodeData_uint64 (value : Z) : list Z :=
  Store machine 8 (if is_little_endian then BSWAP64 value else value).
Definition EncodeData_hugeint (upper lower : Z) : list Z :=
  EncodeData_int64 upper ++ EncodeData_uint64 lower.
Definition EncodeData_float (value : Z) : list Z :=
  let converted_value := EncodeFloat value in
  Store machine 4 (if is_little_endian then BSWAP32 converted_value else converted_value).
Definition EncodeData_double (value : Z) : list Z :=
  let converted_value := EncodeDouble value in
  Store machine 8 (if is_little_endian then BSWAP64 converted_value else converted_value).
Definition EncodeData_interval (months days micros : Z) : list Z :=
  EncodeData_int32 months ++ EncodeData_int32 days ++ EncodeData_int64 micros.

(** The string key: the bytes of the string and a zero byte. *)
Definition CreateKey_string (value : list Z) : list Z := value ++ [0].

End Encode.

(** [EncodeStringDataPrefix]: the first [prefix_len] bytes, padded with zeros *)
Definition EncodeStringDataPrefix (value : list Z) (prefix_len : nat) : list Z :=
  take (Nat.min (length value) prefix_len) value ++
  (if (length value <? prefix_len)%nat then replicate (prefix_len - length value) 0 else []).

(** ** Keys and their operators *)

Abbreviation Key := (list Z).

(** The loop of the comparison operators: the first bytes, at the same index
    below the smaller length, that are different. *)
Fixpoint first_diff (data k : Key) : option (Z * Z) :=
  match data, k with
  | x :: data, y :: k => if x =? y then first_diff data k else Some (x, y)
  | _, _ => None
  end.

Definition Key_gt (data k : Key) : bool :=
  match first_diff data k with
  | Some (x, y) => y <? x
  | None => (length k <? length data)%nat
  end.

Definition Key_lt (data k : Key) : bool :=
  match first_diff data k with
  | Some (x, y) => x <? y
  | None => (length data <? length k)%nat
  end.

Definition Key_ge (data k : Key) : bool :=
  match first_diff data k with
  | Some (x, y) => y <? x
  | None => (length k <=? length data)%nat
  end.

Definition Key_eq (data k : Key) : bool :=
  (length data =? length k)%nat && match first_diff data k with Some _ => false | None => true end.

(** ** Values of index columns *)

(** A value: a number, or the bit pattern of one, or the bytes of a string. *)
Inductive cell : Set :=
| Num (z : Z)
| Str (s : list Z).

(** [CreateKey] of art.cpp: [Key::CreateKey<T>] for the physical type. *)
Definition CreateKey (machine le : bool) (type : PhysicalType) (value : cell) : res Key :=
  match type, value with
  | BOOL, Num z => Ok (EncodeData_bool machine (negb (z =? 0)))
  | INT8, Num z => Ok (EncodeData_int8 machine z)
  | INT16, Num z => Ok (EncodeData_int16 machine le z)
  | INT32, Num z => Ok (EncodeData_int32 machine le z)
  | INT64, Num z => Ok (EncodeData_int64 machine le z)
  | UINT8, Num z => Ok (EncodeData_uint8 machine z)
  | UINT16, Num z => Ok (EncodeData_uint16 machine le z)
  | UINT32, Num z => Ok (EncodeData_uint32 machine le z)
  | UINT64, Num z => Ok (EncodeData_uint64 machine le z)
  | INT128, Num z => Ok (EncodeData_hugeint machine le (z / 2 ^ 64) (wrapU 64 z))
  | FLOAT, Num z => Ok (EncodeData_float machine le z)
  | DOUBLE, Num z => Ok (EncodeData_double machine le z)
  | VARCHAR, Str s => Ok (CreateKey_string s)
  | _, _ => Throw (InvalidTypeException "Invalid type for index")
  end.

(** The types that the constructor of [ART] and [GenerateKeys] accept. *)
Definition index_type (type : PhysicalType) : bool :=
  match type with
  | BOOL | INT8 | INT16 | INT32 | INT64 | UINT8 | UINT16 | UINT32 | UINT64 | FLOAT | DOUBLE
  | VARCHAR => true
  | _ => false
  end.

(** ** The keys of a chunk *)

(** A column of a chunk: its type, and its values through the selection
    vector, [None] where the row is not valid. *)
Record column : Type := mkColumn { col_type : PhysicalType; col_data : list (option cell) }.

Section Generate.
Variables machine is_little_endian : bool.

Definition TemplatedGenerateKeys (input : column) : res (list (option Key)) :=
  mapM (λ c, match c with
             | Some v => k ← CreateKey machine is_little_endian (col_type input) v; mret (Some k)
             | None => mret None
             end) (col_data input).

Definition ConcatenateKeys (input : column) (keys : list (option Key)) : res (list (option Key)) :=
  mapM (λ '(c, key), match c, key with
                     | Some v, Some old_key =>
                       new_key ← CreateKey machine is_little_endian (col_type input) v;
                       mret (Some (old_key ++ new_key))
                     | _, _ => mret None
                     end) (zip (col_data input) keys).

Definition generate_first (input : column) : res (list (option Key)) :=
  if index_type (col_type input) then TemplatedGenerateKeys input
  else Throw (InvalidTypeException "Invalid type for index").

Fixpoint generate_rest (input : list column) (keys : list (option Key)) : res (list (option Key)) :=
  match input with
  | [] => Ok keys
  | col :: rest =>
    if index_type (col_type col) then
      keys ← ConcatenateKeys col keys; generate_rest rest keys
    else Throw (InvalidTypeException "Invalid type for index")
  end.

Definition GenerateKeys (input : list column) : res (list (option Key)) :=
  match input with
  | [] => Throw (UndefinedBehaviour "input.data[0] of a chunk without columns")
  | col :: rest => keys ← generate_first col; generate_rest rest keys
  end.
End Generate.

(** ** Byte order: proofs *)

Definition be_encode (n : nat) (z : Z) : list Z := rev (le_encode n z).

Lemma le_encode_cons n b z : 0 <= b < 256 → le_encode (S n) (b + 256 * z) = b :: le_encode n z.
Proof.
  intros Hb. simpl. f_equal.
  - rewrite Z.mul_comm, Z.mod_add by lia. by apply Z.mod_small.
  - f_equal. rewrite Z.mul_comm, Z.div_add by lia. rewrite Z.div_small by done. lia.
Qed.

(** The byte [i] of [x]; a mask selects it in its place. *)
Definition byte_of (i x : Z) : Z := x / 2 ^ (8 * i) mod 256.

Lemma byte_of_range i x : 0 <= byte_of i x < 256.
Proof. apply Z.mod_pos_bound. lia. Qed.

Lemma land_byte i x :
  0 <= i → Z.land x (Z.shiftl 255 (8 * i)) = Z.shiftl (byte_of i x) (8 * i).
Proof.
  intros Hi. unfold byte_of. change 256 with (2 ^ 8).
  rewrite <-Z.land_ones, <-Z.shiftr_div_pow2 by lia.
  apply Z.bits_inj'. intros j Hj.
  rewrite Z.land_spec, !Z.shiftl_spec by lia. change 255 with (Z.ones 8).
  destruct (decide (8 * i <= j)).
  - rewrite Z.land_spec, Z.shiftr_spec by lia. by replace (j - 8 * i + 8 * i) with j by lia.
  - rewrite !(Z.testbit_neg_r _ (j - 8 * i)) by lia. apply andb_false_r.
Qed.

Lemma lor_byte n a b : 0 <= n → 0 <= a < 2 ^ n → Z.lor a (Z.shiftl b n) = a + b * 2 ^ n.
Proof.
  intros Hn Ha. rewrite <-Z.shiftl_mul_pow2 by done. symmetry. apply Z.add_nocarry_lor.
  apply Z.bits_inj'. intros j Hj. rewrite Z.land_spec, Z.bits_0, Z.shiftl_spec by lia.
  destruct (decide (n <= j)).
  - replace a with (a mod 2 ^ n) by (by apply Z.mod_small).
    by rewrite Z.mod_pow2_bits_high by lia.
  - rewrite (Z.testbit_neg_r _ (j - n)) by lia. apply andb_false_r.
Qed.

Lemma le_encode_bytes (n : nat) x :
  le_encode n x = (λ i, byte_of (Z.of_nat i) x) <$> seq 0 n.
Proof.
  revert x. induction n as [|n IH]; intros x; simpl; [done|]. f_equal.
  - unfold byte_of. by rewrite Z.mul_0_r, Z.div_1_r.
  - rewrite IH, <-fmap_S_seq, <-list_fmap_compose. apply list_fmap_ext. intros i j _. simpl.
    unfold byte_of. rewrite Z.div_div by lia. do 2 f_equal.
    change 256 with (2 ^ 8). rewrite <-Z.pow_add_r by lia. f_equal. lia.
Qed.

Lemma byte_of_wrapU w i x : 0 <= i → 8 * i + 8 <= w → byte_of i (wrapU w x) = byte_of i x.
Proof.
  intros Hi Hw. unfold byte_of, wrapU. change 256 with (2 ^ 8).
  rewrite <-!Z.land_ones, <-!Z.shiftr_div_pow2 by lia. apply Z.bits_inj'. intros j Hj.
  rewrite !Z.land_spec, !Z.shiftr_spec, Z.land_spec by lia.
  destruct (decide (j < 8)).
  - rewrite (Z.ones_spec_low w) by lia. by rewrite andb_true_r.
  - rewrite (Z.ones_spec_high 8) by lia. by rewrite !andb_false_r.
Qed.

Lemma le_encode_wrapU n w x : 8 * Z.of_nat n <= w → le_encode n (wrapU w x) = le_encode n x.
Proof.
  intros Hw. rewrite !le_encode_bytes. apply list_fmap_ext. intros i j Hj.
  apply lookup_seq in Hj as [-> Hi]. apply byte_of_wrapU; lia.
Qed.

(** The masks of a byte swap, then its shifts, then its disjunctions. *)
Ltac swap_bytes :=
  repeat match goal with |- context [Z.land (wrapU ?w ?x) ?m] =>
    let i := eval vm_compute in (Z.log2 m / 8) in
    replace (Z.land (wrapU w x) m) with (Z.shiftl (byte_of i x) (8 * i))
      by (rewrite <-(byte_of_wrapU w i x) by lia; symmetry; apply (land_byte i); lia)
  end;
  repeat match goal with |- context [byte_of ?i ?y] =>
    let b := fresh "b" in pose proof (byte_of_range i y); set (b := byte_of i y) in *; clearbody b
  end;
  rewrite ?Z.shiftr_shiftl_l, ?Z.shiftl_shiftl by lia;
  repeat match goal with |- context [Z.shiftl ?b ?e] =>
    match e with Z.add _ _ => idtac | Z.sub _ _ => idtac end;
    let e' := eval vm_compute in e in change (Z.shiftl b e) with (Z.shiftl b e')
  end;
  rewrite ?Z.shiftl_0_r;
  repeat match goal with |- context [Z.lor ?a (Z.shiftl ?b ?n)] =>
    rewrite (lor_byte n a b) by lia
  end.

Lemma BSWAP16_value x : BSWAP16 x = byte_of 1 x + 256 * byte_of 0 x.
Proof. unfold BSWAP16. swap_bytes. lia. Qed.

Lemma BSWAP32_value x :
  BSWAP32 x = byte_of 3 x + 256 * (byte_of 2 x + 256 * (byte_of 1 x + 256 * byte_of 0 x)).
Proof. unfold BSWAP32. swap_bytes. lia. Qed.

Lemma BSWAP64_value x :
  BSWAP64 x = byte_of 7 x + 256 * (byte_of 6 x + 256 * (byte_of 5 x + 256 * (byte_of 4 x +
    256 * (byte_of 3 x + 256 * (byte_of 2 x + 256 * (byte_of 1 x + 256 * byte_of 0 x)))))).
Proof. unfold BSWAP64. swap_bytes. lia. Qed.

Lemma le_encode_last b : 0 <= b < 256 → le_encode 1 b = [b].
Proof. intros. simpl. by rewrite Z.mod_small. Qed.

Ltac bytes_done := unfold be_encode; match goal with |- _ = rev (le_encode ?n ?x) => rewrite (le_encode_bytes n x) end;
  rewrite ?le_encode_cons, ?le_encode_last by apply byte_of_range; reflexivity.

Lemma BSWAP16_bytes x : le_encode 2 (BSWAP16 x) = be_encode 2 x.
Proof. rewrite BSWAP16_value. bytes_done. Qed.

Lemma BSWAP32_bytes x : le_encode 4 (BSWAP32 x) = be_encode 4 x.
Proof. rewrite BSWAP32_value. bytes_done. Qed.

Lemma BSWAP64_bytes x : le_encode 8 (BSWAP64 x) = be_encode 8 x.
Proof. rewrite BSWAP64_value. bytes_done. Qed.

Lemma IsLittleEndian_machine machine : IsLittleEndian machine = machine.
Proof. by destruct machine. Qed.

(** ** Encodings as big-endian numbers *)

Lemma be_encode_S n x : be_encode (S n) x = byte_of (Z.of_nat n) x :: be_encode n x.
Proof.
  unfold be_encode. rewrite !le_encode_bytes, seq_S, fmap_app, rev_app_distr. done.
Qed.

Lemma length_be_encode n x : length (be_encode n x) = n.
Proof. unfold be_encode. by rewrite length_rev, length_le_encode. Qed.

Lemma be_encode_ext n x y :
  (∀ i, 0 <= i < Z.of_nat n → byte_of i x = byte_of i y) → be_encode n x = be_encode n y.
Proof.
  intros H. unfold be_encode. rewrite !le_encode_bytes. f_equal. apply list_fmap_ext.
  intros i j Hj. apply lookup_seq in Hj as [-> Hi]. apply H. lia.
Qed.

Lemma be_encode_wrapU n w x : 8 * Z.of_nat n <= w → be_encode n (wrapU w x) = be_encode n x.
Proof. intros. unfold be_encode. by rewrite le_encode_wrapU. Qed.

Lemma byte_of_mod i n x : 0 <= i < n → byte_of i (x mod 2 ^ (8 * n)) = byte_of i x.
Proof. intros. apply (byte_of_wrapU (8 * n)); lia. Qed.

Lemma FlipSign_byte b : 0 <= b < 256 → FlipSign b = (b + 128) mod 256.
Proof.
  intros Hb. assert (Hall : forallb (λ b, FlipSign b =? (b + 128) mod 256) (seqZ 0 256) = true)
    by (vm_compute; reflexivity).
  rewrite forallb_forall in Hall. apply Z.eqb_eq, Hall. apply list_elem_of_In, elem_of_seqZ. lia.
Qed.

Lemma flip_first_be n x :
  flip_first (be_encode (S n) x) = be_encode (S n) (x + 2 ^ (8 * Z.of_nat n + 7)).
Proof.
  rewrite !be_encode_S. simpl. rewrite FlipSign_byte by apply byte_of_range. f_equal.
  - unfold byte_of. rewrite Zplus_mod_idemp_l. f_equal.
    replace (2 ^ (8 * Z.of_nat n + 7)) with (128 * 2 ^ (8 * Z.of_nat n))
      by (rewrite Z.pow_add_r by lia; lia).
    by rewrite Z.div_add by lia.
  - apply be_encode_ext. intros i Hi.
    rewrite <-(byte_of_mod i (Z.of_nat n) x), <-(byte_of_mod i (Z.of_nat n) (x + _)) by lia.
    f_equal. replace (2 ^ (8 * Z.of_nat n + 7)) with (128 * 2 ^ (8 * Z.of_nat n))
      by (rewrite Z.pow_add_r by lia; lia).
    by rewrite Z.mod_add by lia.
Qed.

Lemma be_encode_app n m x y :
  0 <= y < 2 ^ (8 * Z.of_nat m) →
  be_encode (n + m) (x * 2 ^ (8 * Z.of_nat m) + y) = be_encode n x ++ be_encode m y.
Proof.
  intros Hy. induction n as [|n IH].
  - simpl. apply be_encode_ext. intros i Hi. rewrite <-(byte_of_mod i (Z.of_nat m)) by lia.
    by rewrite Z.add_comm, Z.mod_add, Z.mod_small by lia.
  - rewrite be_encode_S, Nat.add_succ_l, be_encode_S, IH. simpl. f_equal.
    unfold byte_of. f_equal.
    replace (8 * Z.of_nat (n + m)) with (8 * Z.of_nat m + 8 * Z.of_nat n) by lia.
    rewrite Z.pow_add_r, <-Z.div_div, Z.div_add_l, (Z.div_small y) by lia. f_equal. lia.
Qed.

(** The number that a key of [n] bytes spells is the value, shifted so that
    the smallest value of the type is zero. *)
Section Encoded.
Variable machine : bool.
Abbreviation le := (IsLittleEndian machine).

Lemma Store_be n (swapped x : Z) :
  le_encode n swapped = be_encode n x → Store machine n (if le then swapped else x) = be_encode n x.
Proof. rewrite IsLittleEndian_machine. intros H. unfold Store. by destruct machine. Qed.

Lemma Store1 x : Store machine 1 x = be_encode 1 x.
Proof. by destruct machine. Qed.

Lemma EncodeData_unsigned x :
  EncodeData_uint8 machine x = be_encode 1 x ∧
  EncodeData_uint16 machine le x = be_encode 2 x ∧
  EncodeData_uint32 machine le x = be_encode 4 x ∧
  EncodeData_uint64 machine le x = be_encode 8 x.
Proof.
  split_and!; [apply Store1|apply Store_be, BSWAP16_bytes|apply Store_be, BSWAP32_bytes|
    apply Store_be, BSWAP64_bytes].
Qed.

Lemma EncodeData_signed x :
  EncodeData_int8 machine x = be_encode 1 (x + 2 ^ 7) ∧
  EncodeData_int16 machine le x = be_encode 2 (x + 2 ^ 15) ∧
  EncodeData_int32 machine le x = be_encode 4 (x + 2 ^ 31) ∧
  EncodeData_int64 machine le x = be_encode 8 (x + 2 ^ 63).
Proof.
  split_and!.
  - unfold EncodeData_int8. rewrite Store1, be_encode_wrapU by done. apply (flip_first_be 0).
  - unfold EncodeData_int16. rewrite (Store_be 2 _ (wrapU 16 x)), be_encode_wrapU.
    + apply (flip_first_be 1).
    + done.
    + rewrite BSWAP16_bytes. by rewrite be_encode_wrapU.
  - unfold EncodeData_int32. rewrite (Store_be 4 _ (wrapU 32 x)), be_encode_wrapU.
    + apply (flip_first_be 3).
    + done.
    + rewrite BSWAP32_bytes. by rewrite be_encode_wrapU.
  - unfold EncodeData_int64. rewrite (Store_be 8 _ (wrapU 64 x)), be_encode_wrapU.
    + apply (flip_first_be 7).
    + done.
    + rewrite BSWAP64_bytes. by rewrite be_encode_wrapU.
Qed.

Lemma EncodeData_floating x :
  EncodeData_float machine le x = be_encode 4 (EncodeFloat x) ∧
  EncodeData_double machine le x = be_encode 8 (EncodeDouble x).
Proof. split; [apply Store_be, BSWAP32_bytes|apply Store_be, BSWAP64_bytes]. Qed.

Lemma EncodeData_hugeint_be upper lower :
  inU 64 lower →
  EncodeData_hugeint machine le upper lower = be_encode 16 (upper * 2 ^ 64 + lower + 2 ^ 127).
Proof.
  intros Hl. unfold EncodeData_hugeint.
  destruct (EncodeData_signed upper) as (_ & _ & _ & ->).
  destruct (EncodeData_unsigned lower) as (_ & _ & _ & ->).
  replace (upper * 2 ^ 64 + lower + 2 ^ 127) with ((upper + 2 ^ 63) * 2 ^ (8 * Z.of_nat 8) + lower)
    by lia.
  symmetry. by apply (be_encode_app 8 8).
Qed.
End Encoded.

(** ** The order of floating-point numbers *)

(** Sign and magnitude of the number with the bits [x], as one integer; both
    zeros are 0. *)
Definition float_value (x : Z) : Z := if x <? 2 ^ 31 then x else 2 ^ 31 - x.
Definition float_is_nan (x : Z) : bool := 0x7f800000 <? x mod 2 ^ 31.
Definition double_value (x : Z) : Z := if x <? 2 ^ 63 then x else 2 ^ 63 - x.
Definition double_is_nan (x : Z) : bool := 0x7ff0000000000000 <? x mod 2 ^ 63.

Lemma lnot_wrapU w x : 0 <= w → inU w x → wrapU w (Z.lnot x) = 2 ^ w - 1 - x.
Proof.
  intros Hw Hx. unfold wrapU, inU in *. unfold Z.lnot.
  replace (Z.pred (- x)) with (2 ^ w - 1 - x + (-1) * 2 ^ w) by lia.
  rewrite Z.mod_add by lia. apply Z.mod_small. lia.
Qed.

Lemma land_top_bit n x :
  0 <= n → 0 <= x < 2 * 2 ^ n → (Z.land x (2 ^ n) =? 0) = (x <? 2 ^ n).
Proof.
  intros Hn Hx. assert (Z.land x (2 ^ n) = Z.b2z (Z.testbit x n) * 2 ^ n) as ->.
  { apply Z.bits_inj'. intros j Hj. rewrite Z.land_spec, Z.pow2_bits_eqb by lia.
    destruct (Z.eqb_spec n j) as [<-|].
    - rewrite Z.mul_pow2_bits, Z.sub_diag, Z.b2z_bit0 by lia. apply andb_true_r.
    - rewrite andb_false_r. destruct (Z.testbit x n); simpl Z.b2z.
      + rewrite Z.mul_1_l, Z.pow2_bits_eqb by lia. by destruct (Z.eqb_spec n j).
      + by rewrite Z.bits_0. }
  rewrite Z.testbit_spec' by done. destruct (Z.ltb_spec x (2 ^ n)).
  - rewrite Z.div_small by lia. done.
  - replace (x / 2 ^ n) with 1 by (apply (Z.div_unique x (2 ^ n) 1 (x - 2 ^ n)); lia).
    change (1 mod 2) with 1. bools; lia.
Qed.

(** The encoding of a number that is not a NaN, from its sign and magnitude. *)
Definition encoded (half inf v : Z) : Z :=
  if v =? inf then 2 * half - 1 else if v =? - inf then 0
  else if 0 <=? v then half + v else half - 1 + v.

Lemma EncodeFloat_value x :
  inU 32 x → float_is_nan x = false →
  EncodeFloat x = encoded (2 ^ 31) 0x7f800000 (float_value x) ∧
  - 0x7f800000 <= float_value x <= 0x7f800000.
Proof.
  intros Hx Hn. unfold EncodeFloat. rewrite (lnot_wrapU 64) by (unfold inU in *; lia).
  change (Z.shiftl 1 31) with (2 ^ 31). rewrite land_top_bit by (unfold inU in *; lia).
  unfold inU, encoded, float_value, float_is_nan, float_is_zero, float_above_max,
    float_below_min in *.
  change 0x7fffffff with (Z.ones 31). rewrite Z.land_ones by lia.
  change (Z.lor 0 (2 ^ 31)) with (2 ^ 31).
  destruct (Z.ltb_spec x (2 ^ 31)) as [Hs|Hs].
  - rewrite Z.mod_small in * by lia. change (2 ^ 31) with (Z.shiftl 1 31) at 2.
    rewrite lor_byte, wrapU_small by (unfold inU; lia). bools; lia.
  - replace (x mod 2 ^ 31) with (x - 2 ^ 31) in * by (apply (Z.mod_unique _ _ 1); lia).
    replace (wrapU 32 (2 ^ 64 - 1 - x)) with (2 ^ 32 - 1 - x)
      by (apply (Z.mod_unique _ _ (2 ^ 32 - 1)); lia).
    bools; lia.
Qed.

Lemma EncodeDouble_value x :
  inU 64 x → double_is_nan x = false →
  EncodeDouble x = encoded (2 ^ 63) 0x7ff0000000000000 (double_value x) ∧
  - 0x7ff0000000000000 <= double_value x <= 0x7ff0000000000000.
Proof.
  intros Hx Hn. unfold EncodeDouble. rewrite (lnot_wrapU 64) by (unfold inU in *; lia).
  change (Z.shiftl 1 63) with (2 ^ 63).
  unfold inU, encoded, double_value, double_is_nan, double_is_zero, double_above_max,
    double_below_min in *.
  change 0x7fffffffffffffff with (Z.ones 63). rewrite Z.land_ones by lia.
  destruct (Z.ltb_spec x (2 ^ 63)) as [Hs|Hs].
  - rewrite Z.mod_small in * by lia. rewrite wrapU_small by (unfold inU; lia). bools; lia.
  - replace (x mod 2 ^ 63) with (x - 2 ^ 63) in * by (apply (Z.mod_unique _ _ 1); lia).
    bools; lia.
Qed.

Lemma encoded_range half inf v :
  0 < inf < half → - inf <= v <= inf → 0 <= encoded half inf v < 2 * half.
Proof. unfold encoded. intros. bools; lia. Qed.

Lemma encoded_mono half inf v w :
  0 < inf < half - 1 → - inf <= v <= inf → - inf <= w <= inf →
  (encoded half inf v < encoded half inf w ↔ v < w).
Proof. unfold encoded. intros. bools; lia. Qed.

(** ** The order of keys *)

Lemma Key_lt_cons x y k l : Key_lt (x :: k) (y :: l) = if x =? y then Key_lt k l else x <? y.
Proof. unfold Key_lt. simpl. by destruct (Z.eqb_spec x y). Qed.

Lemma Key_gt_lt k l : Key_gt k l = Key_lt l k.
Proof.
  unfold Key_gt, Key_lt. revert l. induction k as [|x k IH]; intros [|y l]; try done.
  simpl. rewrite (Z.eqb_sym y x). destruct (Z.eqb_spec x y); [|done].
  specialize (IH l). destruct (first_diff k l) as [[]|], (first_diff l k) as [[]|]; done.
Qed.

Lemma Key_ge_lt k l : Key_ge k l = negb (Key_lt k l).
Proof.
  unfold Key_ge, Key_lt. revert l. induction k as [|x k IH]; intros [|y l]; try done.
  simpl. destruct (Z.eqb_spec x y) as [|Hne]; [|bools; lia || done].
  specialize (IH l). by destruct (first_diff k l) as [[]|].
Qed.

Lemma Key_eq_spec k l : Key_eq k l = bool_decide (k = l).
Proof.
  unfold Key_eq. revert l. induction k as [|x k IH]; intros [|y l]; try done.
  simpl. specialize (IH l). destruct (Z.eqb_spec x y) as [->|Hne].
  - rewrite IH. apply bool_decide_ext. naive_solver.
  - rewrite andb_false_r, bool_decide_false by naive_solver. done.
Qed.

Lemma Key_lt_irrefl k : Key_lt k k = false.
Proof. induction k as [|x k IH]; [done|]. by rewrite Key_lt_cons, Z.eqb_refl. Qed.

Lemma Key_lt_trans k l m : Key_lt k l = true → Key_lt l m = true → Key_lt k m = true.
Proof.
  revert l m. induction k as [|x k IH]; intros [|y l] [|z m]; try done.
  rewrite !Key_lt_cons. intros H1 H2.
  destruct (Z.eqb_spec x y), (Z.eqb_spec y z), (Z.eqb_spec x z); subst; bools; try lia || done.
  by apply (IH l).
Qed.

Lemma Key_lt_total k l : Key_lt k l = true ∨ k = l ∨ Key_lt l k = true.
Proof.
  revert l. induction k as [|x k IH]; intros [|y l]; [by auto..|].
  rewrite !Key_lt_cons, (Z.eqb_sym y x). destruct (Z.eqb_spec x y) as [->|]; bools; try lia; auto.
  destruct (IH l) as [?|[->|?]]; auto.
Qed.

#[global] Instance Key_strict_order : StrictOrder (λ k l, Key_lt k l = true).
Proof.
  split; [intros k H; by rewrite Key_lt_irrefl in H|]. intros k l m. apply Key_lt_trans.
Qed.

Lemma be_encode_lt n x y :
  0 <= x < 2 ^ (8 * Z.of_nat n) → 0 <= y < 2 ^ (8 * Z.of_nat n) →
  Key_lt (be_encode n x) (be_encode n y) = (x <? y).
Proof.
  revert x y. induction n as [|n IH]; intros x y Hx Hy.
  { change (2 ^ (8 * Z.of_nat 0)) with 1 in *. replace x with y by lia.
    rewrite Z.ltb_irrefl. apply Key_lt_irrefl. }
  rewrite !be_encode_S, Key_lt_cons.
  replace (8 * Z.of_nat (S n)) with (8 * Z.of_nat n + 8) in * by lia.
  rewrite Z.pow_add_r in * by lia. set (p := 2 ^ (8 * Z.of_nat n)) in *.
  assert (0 < p) by (apply Z.pow_pos_nonneg; lia).
  assert (Hb : ∀ z, 0 <= z < p * 2 ^ 8 →
    byte_of (Z.of_nat n) z = z / p ∧ be_encode n z = be_encode n (z mod p)).
  { intros z Hz. split.
    - unfold byte_of. fold p. apply Z.mod_small. split; [apply Z.div_pos; lia|].
      apply Z.div_lt_upper_bound; lia.
    - apply be_encode_ext. intros i Hi. symmetry. by apply byte_of_mod. }
  destruct (Hb x Hx) as [-> ->], (Hb y Hy) as [-> ->].
  pose proof (Z.div_mod x p ltac:(lia)). pose proof (Z.div_mod y p ltac:(lia)).
  pose proof (Z.mod_pos_bound x p ltac:(lia)). pose proof (Z.mod_pos_bound y p ltac:(lia)).
  rewrite IH by done. destruct (Z.eqb_spec (x / p) (y / p)) as [He|Hne]; bools; try nia.
Qed.

Lemma be_encode_inj n x y :
  0 <= x < 2 ^ (8 * Z.of_nat n) → 0 <= y < 2 ^ (8 * Z.of_nat n) →
  be_encode n x = be_encode n y → x = y.
Proof.
  intros Hx Hy He. pose proof (be_encode_lt n x y Hx Hy) as H1.
  pose proof (be_encode_lt n y x Hy Hx) as H2. rewrite He, Key_lt_irrefl in *. bools; lia || done.
Qed.

(** ** The encoding of the values of a type *)

Definition number_size (type : PhysicalType) : nat :=
  match type with
  | BOOL | INT8 | UINT8 => 1 | INT16 | UINT16 => 2 | INT32 | UINT32 | FLOAT => 4
  | INT64 | UINT64 | DOUBLE => 8 | INT128 => 16 | _ => 0
  end.

(** The values of a type: numbers of its width, no NaN, no zero byte. *)
Definition cell_ok (type : PhysicalType) (c : cell) : bool :=
  match type, c with
  | BOOL, Num z => (0 <=? z) && (z <? 2)
  | INT8, Num z | INT16, Num z | INT32, Num z | INT64, Num z | INT128, Num z =>
    let w := 8 * Z.of_nat (number_size type) in (- 2 ^ (w - 1) <=? z) && (z <? 2 ^ (w - 1))
  | UINT8, Num z | UINT16, Num z | UINT32, Num z | UINT64, Num z =>
    (0 <=? z) && (z <? 2 ^ (8 * Z.of_nat (number_size type)))
  | FLOAT, Num z => (0 <=? z) && (z <? 2 ^ 32) && negb (float_is_nan z)
  | DOUBLE, Num z => (0 <=? z) && (z <? 2 ^ 64) && negb (double_is_nan z)
  | VARCHAR, Str s => forallb (λ b, (0 <? b) && (b <? 256)) s
  | _, _ => false
  end.

(** The order of the values of a type. *)
Definition cell_lt (type : PhysicalType) (c d : cell) : bool :=
  match c, d with
  | Num x, Num y =>
    match type with
    | FLOAT => float_value x <? float_value y
    | DOUBLE => double_value x <? double_value y
    | _ => x <? y
    end
  | Str s, Str t => Key_lt s t
  | _, _ => false
  end.

(** The number that the key of a number spells. *)
Definition number_code (type : PhysicalType) (z : Z) : Z :=
  match type with
  | INT8 | INT16 | INT32 | INT64 | INT128 => z + 2 ^ (8 * Z.of_nat (number_size type) - 1)
  | FLOAT => EncodeFloat z
  | DOUBLE => EncodeDouble z
  | _ => z
  end.

Ltac ok_bounds H := unfold cell_ok in H; simpl number_size in H; rewrite ?andb_true_iff in H;
  rewrite ?Z.leb_le, ?Z.ltb_lt, ?negb_true_iff in H; destruct_and? H.

Lemma CreateKey_number machine type z :
  cell_ok type (Num z) = true →
  CreateKey machine (IsLittleEndian machine) type (Num z) =
    Ok (be_encode (number_size type) (number_code type z)) ∧
  0 <= number_code type z < 2 ^ (8 * Z.of_nat (number_size type)).
Proof.
  intros H. pose proof (EncodeData_unsigned machine z) as (U1 & U2 & U4 & U8).
  pose proof (EncodeData_signed machine z) as (S1 & S2 & S4 & S8).
  pose proof (EncodeData_floating machine z) as (F4 & F8).
  destruct type; try discriminate H; ok_bounds H; cbn [CreateKey number_code number_size];
    rewrite ?U1, ?U2, ?U4, ?U8, ?S1, ?S2, ?S4, ?S8, ?F4, ?F8; try (split; [reflexivity|lia]).
  - assert (z = 0 ∨ z = 1) as [->| ->] by lia; split; [by destruct machine|lia|by destruct machine|lia].
  - split; [done|]. destruct (EncodeFloat_value z) as [-> ?]; [unfold inU; lia|done|].
    apply (encoded_range (2 ^ 31)); lia.
  - split; [done|]. destruct (EncodeDouble_value z) as [-> ?]; [unfold inU; lia|done|].
    apply (encoded_range (2 ^ 63)); lia.
  - rewrite EncodeData_hugeint_be by (apply wrapU_range; lia). split; [|lia]. do 2 f_equal.
    unfold wrapU. pose proof (Z.div_mod z (2 ^ 64) ltac:(lia)).
    change (2 ^ (8 * Z.of_nat 16 - 1)) with (2 ^ 127). lia.
Qed.

Lemma number_code_lt type x y :
  cell_ok type (Num x) = true → cell_ok type (Num y) = true →
  (number_code type x <? number_code type y) = cell_lt type (Num x) (Num y).
Proof.
  intros Hx Hy. assert (number_code type x < number_code type y ↔ cell_lt type (Num x) (Num y) = true)
    as He; [|destruct (cell_lt type _ _), (Z.ltb_spec (number_code type x) (number_code type y));
      naive_solver (lia || done)].
  destruct type; try discriminate Hx; ok_bounds Hx; ok_bounds Hy; simpl; rewrite Z.ltb_lt; try lia.
  - destruct (EncodeFloat_value x) as [-> ?]; [unfold inU; lia|done|].
    destruct (EncodeFloat_value y) as [-> ?]; [unfold inU; lia|done|]. apply encoded_mono; lia.
  - destruct (EncodeDouble_value x) as [-> ?]; [unfold inU; lia|done|].
    destruct (EncodeDouble_value y) as [-> ?]; [unfold inU; lia|done|]. apply encoded_mono; lia.
Qed.

Lemma CreateKey_string_lt s t :
  forallb (λ b, (0 <? b) && (b <? 256)) s = true → forallb (λ b, (0 <? b) && (b <? 256)) t = true →
  Key_lt (CreateKey_string s) (CreateKey_string t) = Key_lt s t.
Proof.
  unfold CreateKey_string. revert t. induction s as [|x s IH]; intros [|y t] Hs Ht; simpl in *;
    rewrite ?andb_true_iff in Hs; rewrite ?andb_true_iff in Ht; rewrite ?Key_lt_cons.
  - done.
  - by destruct (Z.eqb_spec 0 y); bools; lia || done.
  - by destruct (Z.eqb_spec x 0); bools; lia || done.
  - rewrite IH by tauto. done.
Qed.

(** ** Keys that are not prefixes of each other *)

(** The keys are equal, or there is an index below both lengths at which they
    are different. *)
Definition apart (k l : Key) : Prop := k = l ∨ is_Some (first_diff k l).

Lemma first_diff_sym k l : first_diff l k = (λ '(x, y), (y, x)) <$> first_diff k l.
Proof.
  revert l. induction k as [|x k IH]; intros [|y l]; try done. simpl. rewrite (Z.eqb_sym y x).
  by destruct (Z.eqb_spec x y).
Qed.

Lemma apart_sym k l : apart k l → apart l k.
Proof.
  intros [->|[p Hp]]; [by left|]. right. rewrite first_diff_sym, Hp. by eexists.
Qed.

Lemma apart_same_length k l : length k = length l → apart k l.
Proof.
  unfold apart. revert l. induction k as [|x k IH]; intros [|y l] Hl; try discriminate Hl; [by left|].
  simpl. destruct (Z.eqb_spec x y) as [->|]; [|right; by eexists].
  destruct (IH l) as [->|?]; [simpl in Hl; lia|by left|by right].
Qed.

Lemma first_diff_app k l r1 r2 p : first_diff k l = Some p → first_diff (k ++ r1) (l ++ r2) = Some p.
Proof.
  revert l. induction k as [|x k IH]; intros [|y l]; try done. simpl.
  destruct (Z.eqb_spec x y); [apply IH|done].
Qed.

Lemma first_diff_same k r1 r2 : first_diff (k ++ r1) (k ++ r2) = first_diff r1 r2.
Proof. induction k as [|x k IH]; [done|]. simpl. by rewrite Z.eqb_refl. Qed.

Lemma apart_app k l r1 r2 :
  apart k l → apart r1 r2 → apart (k ++ r1) (l ++ r2).
Proof.
  intros [->|[p Hp]] Hr.
  - destruct Hr as [->|Hr]; [by left|]. right. by rewrite first_diff_same.
  - right. eexists. by apply first_diff_app.
Qed.

Lemma apart_strings s t :
  forallb (λ b, (0 <? b) && (b <? 256)) s = true → forallb (λ b, (0 <? b) && (b <? 256)) t = true →
  apart (CreateKey_string s) (CreateKey_string t).
Proof.
  unfold CreateKey_string. revert t. induction s as [|x s IH]; intros [|y t] Hs Ht; simpl in *;
    rewrite ?andb_true_iff in Hs; rewrite ?andb_true_iff in Ht; unfold apart; simpl.
  - by left.
  - right. destruct Ht as [[Hy%Z.ltb_lt _] _]. destruct (Z.eqb_spec 0 y); [lia|by eexists].
  - right. destruct Hs as [[Hx%Z.ltb_lt _] _]. destruct (Z.eqb_spec x 0); [lia|by eexists].
  - destruct (Z.eqb_spec x y) as [->|]; [|right; by eexists].
    destruct (IH t) as [->|?]; [tauto..|by left|by right].
Qed.

Lemma CreateKey_string_inj s t : CreateKey_string s = CreateKey_string t → s = t.
Proof. apply app_inj_2. done. Qed.

(** A valid value has a key; the keys of two values of a type are ordered as
    the values, and are not prefixes of each other. *)
Lemma CreateKey_ok machine type c d :
  cell_ok type c = true → cell_ok type d = true →
  ∃ k l, CreateKey machine (IsLittleEndian machine) type c = Ok k ∧
         CreateKey machine (IsLittleEndian machine) type d = Ok l ∧
         Key_lt k l = cell_lt type c d ∧ apart k l.
Proof.
  intros Hc Hd. destruct c as [x|s], d as [y|t]; try by destruct type.
  - destruct (CreateKey_number machine type x Hc) as [-> Hx].
    destruct (CreateKey_number machine type y Hd) as [-> Hy].
    eexists _, _. split_and!; [done..| |].
    + rewrite be_encode_lt by done. by apply number_code_lt.
    + apply apart_same_length. by rewrite !length_be_encode.
  - assert (type = VARCHAR) as -> by (destruct type; done).
    eexists _, _. split_and!; [done..| |].
    + by apply CreateKey_string_lt.
    + by apply apart_strings.
Qed.

(** ** The keys of a chunk: proofs *)

Section Rows.
Variable machine : bool.
Abbreviation le := (IsLittleEndian machine).

Definition cell_key (type : PhysicalType) (c : option cell) : option Key :=
  match c with
  | Some v => match CreateKey machine le type v with Ok k => Some k | Throw _ => None end
  | None => None
  end.

(** The key of row [i]: none when a column is NULL, otherwise the keys of its
    values one after the other. *)
Fixpoint row_key (input : list column) (i : nat) : option Key :=
  match input with
  | [] => Some []
  | col :: rest =>
    c ← col_data col !! i; k ← cell_key (col_type col) c;
    k' ← row_key rest i; Some (k ++ k')
  end.

Definition column_ok (n : nat) (col : column) : Prop :=
  index_type (col_type col) = true ∧ length (col_data col) = n ∧
  Forall (λ c, match c with Some v => cell_ok (col_type col) v = true | None => True end)
    (col_data col).

Lemma cell_key_ok type v :
  cell_ok type v = true → ∃ k, CreateKey machine le type v = Ok k ∧ cell_key type (Some v) = Some k.
Proof.
  intros H. destruct (CreateKey_ok machine type v v H H) as (k & _ & Hk & _).
  exists k. split; [done|]. unfold cell_key. by rewrite Hk.
Qed.

Lemma mapM_res_spec {A B} (f : A → res B) (g : A → B) (l : list A) :
  Forall (λ x, f x = Ok (g x)) l → mapM f l = Ok (g <$> l).
Proof.
  induction 1 as [|x l Hx _ IH]; [done|]. simpl. rewrite Hx. simpl. by rewrite IH.
Qed.

Lemma TemplatedGenerateKeys_spec n col :
  column_ok n col →
  TemplatedGenerateKeys machine le col = Ok (cell_key (col_type col) <$> col_data col).
Proof.
  intros (Ht & _ & Hc). unfold TemplatedGenerateKeys. apply mapM_res_spec.
  eapply Forall_impl; [exact Hc|]. intros [v|] Hv; [|done].
  destruct (cell_key_ok _ _ Hv) as (k & -> & ->). done.
Qed.

Lemma ConcatenateKeys_spec n col keys :
  column_ok n col →
  ConcatenateKeys machine le col keys =
    Ok ((λ '(c, key), k ← key; k' ← cell_key (col_type col) c; Some (k ++ k')) <$>
        zip (col_data col) keys).
Proof.
  intros (Ht & _ & Hc). unfold ConcatenateKeys. apply mapM_res_spec. apply Forall_forall.
  intros [c key] Hin. apply elem_of_zip_l in Hin. rewrite Forall_forall in Hc. specialize (Hc _ Hin).
  destruct c as [v|], key as [k|]; try done.
  destruct (cell_key_ok _ _ Hc) as (k' & -> & ->). done.
Qed.

Lemma generate_rest_spec n cols keys :
  Forall (column_ok n) cols → length keys = n →
  ∃ keys', generate_rest machine le cols keys = Ok keys' ∧ length keys' = n ∧
    ∀ i, (i < n)%nat →
      keys' !! i = Some (k ← keys !! i ≫= id; k' ← row_key cols i; Some (k ++ k')).
Proof.
  intros Hcols. revert keys. induction Hcols as [|col cols Hcol _ IH]; intros keys Hn.
  { exists keys. split_and!; [done..|]. intros i Hi. destruct (lookup_lt_is_Some_2 keys i) as [x Hx];
      [lia|]. rewrite Hx. simpl. unfold row_key. destruct x; [|done]. simpl. by rewrite app_nil_r. }
  destruct Hcol as (Ht & Hl & Hc) eqn:Heq. clear Heq. simpl. rewrite Ht.
  rewrite (ConcatenateKeys_spec n) by done. simpl.
  edestruct (IH ((λ '(c, key), k ← key; k' ← cell_key (col_type col) c; Some (k ++ k')) <$>
    zip (col_data col) keys)) as (keys' & Hg & Hl' & Hk).
  { rewrite length_fmap, length_zip_with. lia. }
  exists keys'. split_and!; [done..|]. intros i Hi. rewrite Hk by done. f_equal.
  destruct (lookup_lt_is_Some_2 keys i) as [x Hx]; [lia|].
  destruct (lookup_lt_is_Some_2 (col_data col) i) as [c Hci]; [lia|].
  rewrite list_lookup_fmap, lookup_zip_with, Hx, Hci. simpl.
  destruct x as [k|], (cell_key (col_type col) c) as [k'|]; simpl; try done.
  destruct (row_key cols i); simpl; [|done]. by rewrite app_assoc.
Qed.

Lemma GenerateKeys_rows n cols :
  cols ≠ [] → Forall (column_ok n) cols →
  ∃ keys, GenerateKeys machine le cols = Ok keys ∧ length keys = n ∧
    ∀ i, (i < n)%nat → keys !! i = Some (row_key cols i).
Proof.
  intros Hne Hcols. destruct Hcols as [|col cols Hcol Hcols]; [done|].
  pose proof Hcol as (Ht & Hl & Hc). unfold GenerateKeys, generate_first. rewrite Ht.
  rewrite (TemplatedGenerateKeys_spec n) by done. simpl.
  destruct (generate_rest_spec n cols (cell_key (col_type col) <$> col_data col)) as
    (keys & Hg & Hlk & Hk); [done|by rewrite length_fmap|].
  exists keys. split_and!; [done..|]. intros i Hi. rewrite Hk by done. f_equal.
  destruct (lookup_lt_is_Some_2 (col_data col) i) as [c Hci]; [lia|].
  rewrite list_lookup_fmap, Hci. by destruct (cell_key (col_type col) c).
Qed.

(** Rows are ordered by their first column, then by the others. *)
Fixpoint row_before (input : list column) (i j : nat) : bool :=
  match input with
  | [] => false
  | col :: rest =>
    match col_data col !! i, col_data col !! j with
    | Some (Some c), Some (Some d) =>
      if cell_lt (col_type col) c d then true
      else if cell_lt (col_type col) d c then false else row_before rest i j
    | _, _ => false
    end
  end.

Lemma Key_lt_app k l r1 r2 :
  apart k l →
  Key_lt (k ++ r1) (l ++ r2) =
    if Key_lt k l then true else if Key_lt l k then false else Key_lt r1 r2.
Proof.
  intros [->|[[x y] Hp]].
  - rewrite Key_lt_irrefl. induction l as [|z l IH]; [done|]. simpl.
    by rewrite Key_lt_cons, Z.eqb_refl.
  - revert l Hp. induction k as [|z k IH]; intros [|z' l] Hp; try discriminate Hp.
    simpl in *. rewrite !Key_lt_cons, (Z.eqb_sym z' z). destruct (Z.eqb_spec z z').
    + by apply IH.
    + bools; lia || done.
Qed.

Lemma row_key_order n cols i j k l :
  Forall (column_ok n) cols → row_key cols i = Some k → row_key cols j = Some l →
  Key_lt k l = row_before cols i j ∧ apart k l.
Proof.
  intros Hcols. revert k l. induction Hcols as [|col cols Hcol _ IH]; intros k l Hk Hl.
  { simplify_eq/=. split; [done|by left]. }
  destruct Hcol as (Ht & _ & Hc). rewrite Forall_forall in Hc. simpl in *.
  destruct (col_data col !! i) as [[c|]|] eqn:Hi; simplify_eq/=.
  destruct (col_data col !! j) as [[d|]|] eqn:Hj; simplify_eq/=.
  pose proof (Hc _ (list_elem_of_lookup_2 _ _ _ Hi)) as Hci.
  pose proof (Hc _ (list_elem_of_lookup_2 _ _ _ Hj)) as Hcj. simpl in Hci, Hcj.
  destruct (CreateKey_ok machine _ c d Hci Hcj) as (k1 & l1 & E1 & E2 & Hlt & Hsep).
  destruct (CreateKey_ok machine _ d c Hcj Hci) as (l2 & k2 & E3 & E4 & Hgt & _).
  unfold cell_key in *. rewrite E1 in Hk. rewrite E2 in Hl, E3. rewrite E1 in E4. simplify_eq/=.
  destruct (row_key cols i) as [k'|], (row_key cols j) as [l'|]; simplify_eq/=.
  destruct (IH k' l') as [Hr Hs]; [done..|].
  split; [|by apply apart_app]. by rewrite Key_lt_app, Hlt, Hgt, Hr.
Qed.
End Rows.

Lemma row_key_null machine n cols i :
  Forall (column_ok n) cols → (i < n)%nat →
  row_key machine cols i = None ↔ Exists (λ col, col_data col !! i = Some None) cols.
Proof.
  intros Hcols Hi. induction Hcols as [|col cols (Ht & Hl & Hc) _ IH].
  { simpl. split; [done|inversion 1]. }
  rewrite Exists_cons, <-IH. simpl. rewrite Forall_forall in Hc.
  destruct (lookup_lt_is_Some_2 (col_data col) i) as [c Hci]; [lia|]. rewrite Hci. simpl.
  destruct c as [v|]; [|simpl; tauto].
  destruct (cell_key_ok machine (col_type col) v) as (k & _ & ->).
  { apply (Hc (Some v)). by eapply list_elem_of_lookup_2. }
  simpl. destruct (row_key machine cols i); simpl; split; [done|by intros [?|?]|by right|done].
Qed.

(** The key of a value does not depend on the machine. *)
Lemma CreateKey_machine machine type v :
  cell_ok type v = true →
  CreateKey machine (IsLittleEndian machine) type v = CreateKey true (IsLittleEndian true) type v.
Proof.
  intros Hv. destruct v as [z|s].
  - by rewrite !(proj1 (CreateKey_number _ _ _ Hv)).
  - by destruct type.
Qed.

Lemma row_key_machine machine n cols i :
  Forall (column_ok n) cols → row_key machine cols i = row_key true cols i.
Proof.
  induction 1 as [|col cols (Ht & Hn & Hc) _ IH]; [done|]. simpl.
  destruct (col_data col !! i) as [[v|]|] eqn:Hv; try done. simpl. rewrite IH.
  rewrite Forall_forall in Hc. specialize (Hc _ (list_elem_of_lookup_2 _ _ _ Hv)). simpl in Hc.
  unfold cell_key. by rewrite (CreateKey_machine machine).
Qed.

(** C36: The keys of the rows of a chunk, for an index on one or more columns
    of any of the index types (numbers without NaN, strings without zero
    bytes): every row gets a key, except that a row with a NULL gets none;
    the keys are the same on little-endian and big-endian machines; comparing
    two keys compares the rows, column by column; and no key is a proper
    prefix of another. *)
Theorem Index_keys n cols :
  cols ≠ [] → Forall (column_ok n) cols →
  ∃ keys, (∀ machine, GenerateKeys machine (IsLittleEndian machine) cols = Ok keys) ∧
    length keys = n ∧
    (∀ i, (i < n)%nat →
      (keys !! i = Some None ↔ Exists (λ col, col_data col !! i = Some None) cols)) ∧
    (∀ i j k l, keys !! i = Some (Some k) → keys !! j = Some (Some l) →
      Key_lt k l = row_before cols i j ∧ apart k l).
Proof.
  intros Hne Hcols.
  destruct (GenerateKeys_rows true n cols Hne Hcols) as (keys & Hg & Hl & Hk).
  exists keys. split_and!.
  - intros machine. destruct (GenerateKeys_rows machine n cols Hne Hcols) as (keys' & -> & Hl' & Hk').
    f_equal. apply list_eq_same_length with n; [done|done|]. intros i x y Hi Hx Hy.
    rewrite Hk' in Hx by done. rewrite Hk in Hy by done. simplify_eq.
    by eapply row_key_machine.
  - done.
  - intros i Hi. rewrite Hk by done. rewrite <-(row_key_null true n) by done. split; congruence.
  - intros i j k l Hi Hj. pose proof (lookup_lt_Some _ _ _ Hi). pose proof (lookup_lt_Some _ _ _ Hj).
    rewrite Hk in Hi, Hj by lia. simplify_eq. by eapply row_key_order.
Qed.

Definition sample_columns : list column :=
  [mkColumn INT32 [Some (Num (-1)); Some (Num 7); None];
   mkColumn VARCHAR [Some (Str [97; 98]); Some (Str [97]); Some (Str [98])]].

Lemma Index_keys_witness :
  Forall (column_ok 3) sample_columns ∧
  GenerateKeys true true sample_columns =
    Ok [Some [127; 255; 255; 255; 97; 98; 0]; Some [128; 0; 0; 7; 97; 0]; None] ∧
  row_before sample_columns 0 1 = true.
Proof.
  assert (Hc : Forall (column_ok 3) sample_columns) by (repeat constructor).
  destruct (Index_keys 3 sample_columns ltac:(discriminate) Hc) as (keys & Hg & _ & _ & Hk).
  split; [exact Hc|]. specialize (Hg true). assert (Hv : GenerateKeys true true sample_columns =
    Ok [Some [127; 255; 255; 255; 97; 98; 0]; Some [128; 0; 0; 7; 97; 0]; None])
    by (vm_compute; reflexivity).
  split; [exact Hv|]. rewrite IsLittleEndian_machine, Hv in Hg. injection Hg as <-.
  by rewrite <-(proj1 (Hk 0%nat 1%nat _ _ eq_refl eq_refl)).
Defined.
