(* ===== verification/ArtNode.v ===== *)
(** * Nodes of the radix tree

    Models the nodes of src/src/execution/index/art: the leaf (leaf.cpp), the
    four kinds of inner nodes with their arrays (node4.cpp, node16.cpp,
    node48.cpp, node256.cpp) and the dispatch on the kind (node.cpp).  The
    fixed-size arrays are lists of that size; a null child is [None], and a
    moved-from slot becomes null.  [INVALID_INDEX] is [None].

    An inner node of any kind is a partial function from bytes to children,
    [child_at].  The theorems show that every operation of every kind, with
    the growth and shrinking between the kinds, is the corresponding operation
    on that function. *)

From S2P Require Import Prelude Constants Serializer UpdateKinds ArtKey.

(** ** Leaves: the row ids of one key, in an array that grows *)

Record Leaf : Type := mkLeaf {
  value : Key; capacity : nat; num_elements : nat; row_ids : list Z
}.

Definition Leaf_new (value : Key) (row_id : Z) : Leaf := mkLeaf value 1 1 [row_id].

Definition Leaf_Insert (l : Leaf) (row_id : Z) : Leaf :=
  let '(capacity, row_ids) :=
    if (num_elements l =? capacity l)%nat then
      ((capacity l * 2)%nat, take (capacity l) (row_ids l) ++ replicate (capacity l) 0)
    else (capacity l, row_ids l) in
  mkLeaf (value l) capacity (S (num_elements l)) (<[num_elements l := row_id]> row_ids).

(** [for (pos = a; pos < b; pos++) if (p(pos)) return pos; return INVALID_INDEX;] *)
Fixpoint loop_find (p : nat → bool) (pos n : nat) : option nat :=
  match n with
  | O => None
  | S n => if p pos then Some pos else loop_find p (S pos) n
  end.
Definition first_pos (p : nat → bool) (a b : nat) : option nat := loop_find p a (b - a).

Definition Leaf_Remove (l : Leaf) (row_id : Z) : Leaf :=
  match first_pos (λ i, row_ids l !!! i =? row_id) 0 (num_elements l) with
  | None => l
  | Some entry_offset =>
    let num_elements := (num_elements l - 1)%nat in
    mkLeaf (value l) (capacity l) num_elements
      (for_ entry_offset num_elements (λ j r, <[j := r !!! S j]> r) (row_ids l))
  end.

(** The row ids that [GetRowId] gives for the indexes below [num_elements]. *)
Definition Leaf_rows (l : Leaf) : list Z := take (num_elements l) (row_ids l).

(** ** Inner nodes *)

Definition EMPTY_MARKER : nat := 48.

Inductive Inner (A : Type) : Type :=
| Node4 (prefix : list Z) (count : nat) (key : list Z) (child : list (option A))
| Node16 (prefix : list Z) (count : nat) (key : list Z) (child : list (option A))
| Node48 (prefix : list Z) (count : nat) (child_index : list nat) (child : list (option A))
| Node256 (prefix : list Z) (count : nat) (child : list (option A)).
Arguments Node4 {_} _ _ _ _.
Arguments Node16 {_} _ _ _ _.
Arguments Node48 {_} _ _ _ _.
Arguments Node256 {_} _ _ _.

(** A leaf has the members of the base class too: [prefix] is empty until a
    node with one child is replaced by it. *)
Unset Elimination Schemes.
Inductive Node : Type :=
| NLeaf (prefix : list Z) (l : Leaf)
| NInner (n : Inner Node).
Set Elimination Schemes.

Section Inner.
Context {A : Type}.
Implicit Types (n : Inner A) (key : list Z) (child : list (option A)).

Definition Node4_new (prefix : list Z) : Inner A := Node4 prefix 0 (replicate 4 0) (replicate 4 None).
Definition Node16_new (prefix : list Z) : Inner A :=
  Node16 prefix 0 (replicate 16 16) (replicate 16 None).
Definition Node48_new (prefix : list Z) : Inner A :=
  Node48 prefix 0 (replicate 256 EMPTY_MARKER) (replicate 48 None).
Definition Node256_new (prefix : list Z) : Inner A := Node256 prefix 0 (replicate 256 None).

Definition prefix n : list Z :=
  match n with Node4 p _ _ _ | Node16 p _ _ _ | Node48 p _ _ _ | Node256 p _ _ => p end.
Definition count n : nat :=
  match n with Node4 _ c _ _ | Node16 _ c _ _ | Node48 _ c _ _ | Node256 _ c _ => c end.
Definition set_prefix n (p : list Z) : Inner A :=
  match n with
  | Node4 _ c k ch => Node4 p c k ch
  | Node16 _ c k ch => Node16 p c k ch
  | Node48 _ c ci ch => Node48 p c ci ch
  | Node256 _ c ch => Node256 p c ch
  end.

Definition non_null (o : option A) : bool := match o with Some _ => true | None => false end.
Definition non_empty (i : nat) : bool := negb (i =? EMPTY_MARKER)%nat.

(** *** Searching *)

(** [Node4::GetChildPos], which [Node16] repeats *)
Definition sorted_GetChildPos (count : nat) key (k : Z) : option nat :=
  first_pos (λ pos, key !!! pos =? k) 0 count.
Definition Node48_GetChildPos (child_index : list nat) (k : Z) : option nat :=
  if (child_index !!! Z.to_nat k =? EMPTY_MARKER)%nat then None else Some (Z.to_nat k).
Definition Node256_GetChildPos child (k : Z) : option nat :=
  if non_null (child !!! Z.to_nat k) then Some (Z.to_nat k) else None.

Definition GetChildPos n (k : Z) : option nat :=
  match n with
  | Node4 _ count key _ | Node16 _ count key _ => sorted_GetChildPos count key k
  | Node48 _ _ child_index _ => Node48_GetChildPos child_index k
  | Node256 _ _ child => Node256_GetChildPos child k
  end.

(** The position, and the value written to [equal]. *)
Definition sorted_GetChildGreaterEqual (count : nat) key (k : Z) : option (nat * bool) :=
  pos ← first_pos (λ pos, k <=? key !!! pos) 0 count; Some (pos, key !!! pos =? k).
Definition Node48_GetChildGreaterEqual (child_index : list nat) (k : Z) : option (nat * bool) :=
  pos ← first_pos (λ pos, non_empty (child_index !!! pos)) (Z.to_nat k) 256;
  Some (pos, (pos =? Z.to_nat k)%nat).
Definition Node256_GetChildGreaterEqual child (k : Z) : option (nat * bool) :=
  pos ← first_pos (λ pos, non_null (child !!! pos)) (Z.to_nat k) 256;
  Some (pos, (pos =? Z.to_nat k)%nat).

Definition GetChildGreaterEqual n (k : Z) : option (nat * bool) :=
  match n with
  | Node4 _ count key _ | Node16 _ count key _ => sorted_GetChildGreaterEqual count key k
  | Node48 _ _ child_index _ => Node48_GetChildGreaterEqual child_index k
  | Node256 _ _ child => Node256_GetChildGreaterEqual child k
  end.

Definition GetMin n : option nat :=
  match n with
  | Node4 _ _ _ _ | Node16 _ _ _ _ => Some 0%nat
  | Node48 _ _ child_index _ => first_pos (λ i, non_empty (child_index !!! i)) 0 256
  | Node256 _ _ child => first_pos (λ i, non_null (child !!! i)) 0 256
  end.

Definition sorted_GetNextPos (count : nat) (pos : option nat) : option nat :=
  match pos with
  | None => Some 0%nat
  | Some pos => if (S pos <? count)%nat then Some (S pos) else None
  end.
Definition Node48_GetNextPos (child_index : list nat) (pos : option nat) : option nat :=
  first_pos (λ pos, non_empty (child_index !!! pos)) (from_option S 0%nat pos) 256.
Definition Node256_GetNextPos child (pos : option nat) : option nat :=
  first_pos (λ pos, non_null (child !!! pos)) (from_option S 0%nat pos) 256.

Definition GetNextPos n (pos : option nat) : option nat :=
  match n with
  | Node4 _ count _ _ | Node16 _ count _ _ => sorted_GetNextPos count pos
  | Node48 _ _ child_index _ => Node48_GetNextPos child_index pos
  | Node256 _ _ child => Node256_GetNextPos child pos
  end.

(** [*GetChild(pos)], and the assignment to it through the reference *)
Definition GetChild n (pos : nat) : option A :=
  match n with
  | Node4 _ _ _ child | Node16 _ _ _ child | Node256 _ _ child => child !!! pos
  | Node48 _ _ child_index child => child !!! (child_index !!! pos)
  end.
Definition SetChild n (pos : nat) (c : option A) : Inner A :=
  match n with
  | Node4 p count key child => Node4 p count key (<[pos := c]> child)
  | Node16 p count key child => Node16 p count key (<[pos := c]> child)
  | Node48 p count child_index child =>
    Node48 p count child_index (<[child_index !!! pos := c]> child)
  | Node256 p count child => Node256 p count (<[pos := c]> child)
  end.

(** *** Insertion *)

(** [for (idx_t i = count; i > pos; i--)] moves the entries one slot up. *)
Fixpoint move_up (i n : nat) key child : list Z * list (option A) :=
  match n with
  | O => (key, child)
  | S n =>
    move_up (i - 1) n (<[i := key !!! (i - 1)%nat]> key)
      (<[(i - 1)%nat := None]> (<[i := child !!! (i - 1)%nat]> child))
  end.

(** [while (pos < count && key[pos] < key_byte) pos++;] *)
Definition insert_pos (count : nat) key (key_byte : Z) : nat :=
  default count (first_pos (λ pos, key_byte <=? key !!! pos) 0 count).

(** The insertion into [key] and [child] of a [Node4] or [Node16] with room. *)
Definition sorted_Insert (count : nat) key child (key_byte : Z) (c : A)
  : list Z * list (option A) :=
  let pos := insert_pos count key key_byte in
  let '(key, child) :=
    if non_null (child !!! pos) then move_up count (count - pos) key child else (key, child) in
  (<[pos := key_byte]> key, <[pos := Some c]> child).

Definition Node256_Insert (p : list Z) (count : nat) child (key_byte : Z) (c : A) : Inner A :=
  Node256 p (S count) (<[Z.to_nat key_byte := Some c]> child).

(** The first slot without a child: [pos = count], or the search from 0. *)
Definition free_slot (count : nat) child : nat :=
  if non_null (child !!! count) then
    default 48%nat (first_pos (λ pos, negb (non_null (child !!! pos))) 0 48)
  else count.

Definition Node48_Insert (p : list Z) (count : nat) (child_index : list nat) child
  (key_byte : Z) (c : A) : Inner A :=
  if (count <? 48)%nat then
    let pos := free_slot count child in
    Node48 p (S count) (<[Z.to_nat key_byte := pos]> child_index) (<[pos := Some c]> child)
  else
    let new_child := for_ 0 256 (λ i nc,
      if non_empty (child_index !!! i) then <[i := child !!! (child_index !!! i)]> nc else nc)
      (replicate 256 None) in
    Node256_Insert p count new_child key_byte c.

Definition Node16_Insert (p : list Z) (count : nat) key child (key_byte : Z) (c : A) : Inner A :=
  if (count <? 16)%nat then
    let '(key, child) := sorted_Insert count key child key_byte c in Node16 p (S count) key child
  else
    let '(new_index, new_child) := for_ 0 count (λ i '(ci, nc),
      (<[Z.to_nat (key !!! i) := i]> ci, <[i := child !!! i]> nc))
      (replicate 256 EMPTY_MARKER, replicate 48 None) in
    Node48_Insert p count new_index new_child key_byte c.

Definition Node4_Insert (p : list Z) (count : nat) key child (key_byte : Z) (c : A) : Inner A :=
  if (count <? 4)%nat then
    let '(key, child) := sorted_Insert count key child key_byte c in Node4 p (S count) key child
  else
    let '(new_key, new_child) := for_ 0 4 (λ i '(nk, nc),
      (<[i := key !!! i]> nk, <[i := child !!! i]> nc)) (replicate 16 16, replicate 16 None) in
    Node16_Insert p 4 new_key new_child key_byte c.

(** [Node::InsertLeaf]: the insertion of the node's kind *)
Definition InsertLeaf n (key_byte : Z) (c : A) : Inner A :=
  match n with
  | Node4 p count key child => Node4_Insert p count key child key_byte c
  | Node16 p count key child => Node16_Insert p count key child key_byte c
  | Node48 p count child_index child => Node48_Insert p count child_index child key_byte c
  | Node256 p count child => Node256_Insert p count child key_byte c
  end.

(** *** Deletion *)

(** [child[pos].reset(); count--;] and the move of the entries one slot down;
    [count] is the new count. *)
Definition sorted_Erase (count : nat) key child (pos : nat) : list Z * list (option A) :=
  for_ pos count (λ pos '(k, ch),
    (<[pos := k !!! S pos]> k, <[S pos := None]> (<[pos := ch !!! S pos]> ch)))
    (key, <[pos := None]> child).

Definition Node16_Erase (p : list Z) (count : nat) key child (pos : nat) : Inner A :=
  let count := (count - 1)%nat in
  let '(key, child) := sorted_Erase count key child pos in
  if (count <=? 3)%nat then
    let '(new_key, new_child) := for_ 0 count (λ i '(nk, nc),
      (<[i := key !!! i]> nk, <[i := child !!! i]> nc)) (replicate 4 0, replicate 4 None) in
    Node4 p count new_key new_child
  else Node16 p count key child.

(** The loop that collects the children of a [Node48] into a [Node16]. *)
Definition collect16 (child_index : list nat) child : nat * list Z * list (option A) :=
  for_ 0 256 (λ i '(c, nk, nc),
    if non_empty (child_index !!! i) then
      (S c, <[c := Z.of_nat i]> nk, <[c := child !!! (child_index !!! i)]> nc)
    else (c, nk, nc)) (0%nat, replicate 16 16, replicate 16 None).

Definition Node48_Erase (p : list Z) (count : nat) (child_index : list nat) child (pos : nat)
  : Inner A :=
  let child := <[child_index !!! pos := None]> child in
  let child_index := <[pos := EMPTY_MARKER]> child_index in
  let count := (count - 1)%nat in
  if (count <=? 12)%nat then
    let '(c, new_key, new_child) := collect16 child_index child in Node16 p c new_key new_child
  else Node48 p count child_index child.

(** The loop that collects the children of a [Node256] into a [Node48]. *)
Definition collect48 child : nat * list nat * list (option A) :=
  for_ 0 256 (λ i '(c, ci, nc),
    if non_null (child !!! i) then (S c, <[i := c]> ci, <[c := child !!! i]> nc)
    else (c, ci, nc)) (0%nat, replicate 256 EMPTY_MARKER, replicate 48 None).

Definition Node256_Erase (p : list Z) (count : nat) child (pos : nat) : Inner A :=
  let child := <[pos := None]> child in
  let count := (count - 1)%nat in
  if (count <=? 36)%nat then
    let '(c, new_index, new_child) := collect48 child in Node48 p c new_index new_child
  else Node256 p count child.

End Inner.

Definition Node_prefix (n : Node) : list Z :=
  match n with NLeaf p _ => p | NInner n => prefix n end.
Definition Node_set_prefix (n : Node) (p : list Z) : Node :=
  match n with NLeaf _ l => NLeaf p l | NInner n => NInner (set_prefix n p) end.

(** A node with one child left is replaced by it, with the prefixes joined. *)
Definition Node4_Erase (p : list Z) (count : nat) (key : list Z) (child : list (option Node))
  (pos : nat) : option Node :=
  let count := (count - 1)%nat in
  let '(key, child) := sorted_Erase count key child pos in
  if (count =? 1)%nat then
    match child !!! 0%nat with
    | Some childref => Some (Node_set_prefix childref (p ++ key !!! 0%nat :: Node_prefix childref))
    | None => None
    end
  else Some (NInner (Node4 p count key child)).

(** [Node::Erase]: the deletion of the node's kind *)
Definition Node_Erase (n : Inner Node) (pos : nat) : option Node :=
  match n with
  | Node4 p count key child => Node4_Erase p count key child pos
  | Node16 p count key child => Some (NInner (Node16_Erase p count key child pos))
  | Node48 p count child_index child => Some (NInner (Node48_Erase p count child_index child pos))
  | Node256 p count child => Some (NInner (Node256_Erase p count child pos))
  end.

(** ** Loops and arrays: proofs *)

Lemma loop_find_Some p a n i :
  loop_find p a n = Some i ↔
  (a <= i < a + n)%nat ∧ p i = true ∧ (∀ j, (a <= j < i)%nat → p j = false).
Proof.
  revert a. induction n as [|n IH]; intros a; simpl.
  { split; [done|lia]. }
  destruct (p a) eqn:Ha.
  - split; [intros [= ->]; split_and!; [lia..|done|lia]|]. intros (Hi & Hp & Hf).
    destruct (decide (a = i)) as [->|]; [done|]. rewrite Hf in Ha by lia. done.
  - rewrite IH. split; intros (Hi & Hp & Hf).
    + split_and!; [lia..|done|]. intros j Hj. destruct (decide (j = a)) as [->|]; [done|].
      apply Hf. lia.
    + assert (i ≠ a) by congruence. split_and!; [lia..|done|]. intros j Hj. apply Hf. lia.
Qed.

Lemma loop_find_None p a n :
  loop_find p a n = None ↔ ∀ j, (a <= j < a + n)%nat → p j = false.
Proof.
  revert a. induction n as [|n IH]; intros a; simpl.
  { split; [lia|done]. }
  destruct (p a) eqn:Ha.
  - split; [done|]. intros H. rewrite H in Ha by lia. done.
  - rewrite IH. split; intros H j Hj; [|apply H; lia].
    destruct (decide (j = a)) as [->|]; [done|]. apply H. lia.
Qed.

Lemma first_pos_Some p a b i :
  first_pos p a b = Some i ↔
  (a <= i < b)%nat ∧ p i = true ∧ (∀ j, (a <= j < i)%nat → p j = false).
Proof. unfold first_pos. rewrite loop_find_Some. split; intros (?&?&?); split_and!; done || lia. Qed.

Lemma first_pos_None p a b :
  first_pos p a b = None ↔ ∀ j, (a <= j < b)%nat → p j = false.
Proof.
  unfold first_pos. rewrite loop_find_None. split; intros H j Hj; apply H; lia.
Qed.

Lemma first_pos_is_Some p a b i :
  (a <= i < b)%nat → p i = true → ∃ j, first_pos p a b = Some j.
Proof.
  intros Hi Hp. destruct (first_pos p a b) eqn:Hf; [by eexists|].
  rewrite first_pos_None in Hf. rewrite Hf in Hp by done. done.
Qed.

Section arrays.
Context {X : Type} `{!Inhabited X}.
Implicit Types l : list X.

Lemma insert_total l i j x :
  (i < length l)%nat → <[i := x]> l !!! j = if decide (i = j) then x else l !!! j.
Proof.
  intros Hi. destruct (decide (i = j)) as [<-|Hne].
  - by apply list_lookup_total_insert_eq.
  - by apply list_lookup_total_insert_ne.
Qed.

(** The elements of an array that satisfy a condition. *)
Definition countb (p : X → bool) (l : list X) : nat := length (filter p l).

Lemma countb_cons p x l : countb p (x :: l) = ((if p x then 1 else 0) + countb p l)%nat.
Proof. unfold countb. rewrite filter_cons. by destruct (p x). Qed.

Lemma countb_insert p l i x :
  (i < length l)%nat →
  (countb p (<[i := x]> l) + (if p (l !!! i) then 1 else 0) =
   countb p l + (if p x then 1 else 0))%nat.
Proof.
  revert i. induction l as [|y l IH]; intros [|i] Hi; simpl in *; try lia.
  - rewrite !countb_cons. lia.
  - rewrite !countb_cons. specialize (IH i). lia.
Qed.

Lemma countb_replicate p n x : p x = false → countb p (replicate n x) = 0%nat.
Proof. intros Hp. induction n as [|n IH]; [done|]. simpl. by rewrite countb_cons, Hp, IH. Qed.

(** An array with fewer such elements than slots has another element. *)
Lemma countb_free p l :
  (countb p l < length l)%nat → ∃ i, (i < length l)%nat ∧ p (l !!! i) = false.
Proof.
  induction l as [|x l IH]; simpl; [lia|]. rewrite countb_cons. intros H.
  destruct (p x) eqn:Hx; [|exists 0%nat; split; [lia|done]].
  destruct IH as (i & Hi & Hf); [lia|]. exists (S i). split; [lia|done].
Qed.

Lemma countb_pos p l : (0 < countb p l)%nat → ∃ i, (i < length l)%nat ∧ p (l !!! i) = true.
Proof.
  induction l as [|x l IH]; [unfold countb; simpl; lia|]. rewrite countb_cons. intros H.
  destruct (p x) eqn:Hx; [exists 0%nat; split; [simpl; lia|done]|].
  destruct IH as (i & Hi & Hf); [lia|]. exists (S i). split; [simpl; lia|done].
Qed.

Lemma countb_take_S p l i :
  (i < length l)%nat →
  countb p (take (S i) l) = (countb p (take i l) + (if p (l !!! i) then 1 else 0))%nat.
Proof.
  intros Hi. destruct (lookup_lt_is_Some_2 l i Hi) as [x Hx].
  rewrite (take_S_r _ _ x) by done. rewrite (list_lookup_total_correct _ _ _ Hx).
  unfold countb. rewrite filter_app, length_app. f_equal. rewrite filter_cons.
  by destruct (p x).
Qed.

Lemma total_replicate n i (x : X) : (i < n)%nat → replicate n x !!! i = x.
Proof. intros. by apply lookup_total_replicate_2. Qed.

Lemma countb_ext {Y} `{!Inhabited Y} p (q : Y → bool) l (l' : list Y) :
  length l = length l' → (∀ i, (i < length l)%nat → p (l !!! i) = q (l' !!! i)) →
  countb p l = length (filter q l').
Proof.
  revert l'. induction l as [|x l IH]; intros [|y l'] Hl Hp; try discriminate Hl; [done|].
  rewrite countb_cons, filter_cons, (IH l') by
    (simpl in Hl; lia || intros i Hi; apply (Hp (S i)); simpl; lia).
  pose proof (Hp 0%nat ltac:(simpl; lia)) as H0. simpl in H0. rewrite H0.
  by destruct (q y).
Qed.

Lemma countb_take_le p l i : (countb p (take i l) <= countb p l)%nat.
Proof.
  rewrite <-(take_drop i l) at 2. unfold countb. rewrite filter_app, length_app. lia.
Qed.
End arrays.

(** ** Leaves: proofs *)

Definition Leaf_wf (l : Leaf) : Prop :=
  length (row_ids l) = capacity l ∧ (num_elements l <= capacity l)%nat ∧ (0 < capacity l)%nat.

(** The first occurrence of an element is removed. *)
Fixpoint remove_first (x : Z) (l : list Z) : list Z :=
  match l with
  | [] => []
  | y :: l => if y =? x then l else y :: remove_first x l
  end.

Lemma Leaf_Insert_spec l row_id :
  Leaf_wf l →
  Leaf_wf (Leaf_Insert l row_id) ∧ value (Leaf_Insert l row_id) = value l ∧
  Leaf_rows (Leaf_Insert l row_id) = Leaf_rows l ++ [row_id].
Proof.
  intros (Hl & Hn & Hc). unfold Leaf_Insert, Leaf_rows, Leaf_wf.
  destruct (Nat.eqb_spec (num_elements l) (capacity l)) as [He|He]; simpl; rewrite length_insert;
    split_and!; try done; try (rewrite ?length_app, ?length_replicate, ?length_take; lia).
  - erewrite (take_S_r _ _ row_id) by (apply list_lookup_insert_eq;
      rewrite length_app, length_replicate, length_take; lia).
    rewrite take_insert_ge by lia. f_equal. rewrite <-He.
    rewrite take_app_le by (rewrite length_take; lia). rewrite take_take. f_equal. lia.
  - erewrite (take_S_r _ _ row_id) by (apply list_lookup_insert_eq; lia).
    by rewrite take_insert_ge by lia.
Qed.

Lemma Leaf_new_spec value row_id :
  Leaf_wf (Leaf_new value row_id) ∧ Leaf_rows (Leaf_new value row_id) = [row_id].
Proof. repeat split; simpl; lia. Qed.

(** [for (j = a; j < b; j++) r[j] = r[j + 1]] *)
Lemma for_shift_down a b (r : list Z) :
  (a <= b)%nat → (b < length r)%nat →
  let r' := for_ a b (λ j r, <[j := r !!! S j]> r) r in
  length r' = length r ∧
  ∀ j, r' !!! j = if decide (a <= j < b)%nat then r !!! S j else r !!! j.
Proof.
  intros Hab Hb. set (P := λ (i : nat) (r' : list Z), length r' = length r ∧
    ∀ j, r' !!! j = if decide (a <= j < i)%nat then r !!! S j else r !!! j).
  apply (for_ind P); [done| |].
  - split; [done|]. intros j. case_decide; [lia|done].
  - intros i r' Hi [Hl Hr']. split; [by rewrite length_insert|]. intros j.
    rewrite insert_total by lia. rewrite !Hr'. repeat case_decide; subst; lia || done.
Qed.

Lemma remove_first_absent x l : x ∉ l → remove_first x l = l.
Proof.
  induction l as [|y l IH]; [done|]. rewrite not_elem_of_cons. intros [Hne Hl]. simpl.
  destruct (Z.eqb_spec y x); [done|]. by rewrite IH.
Qed.

Lemma remove_first_at x l i :
  l !! i = Some x → (∀ j, (j < i)%nat → l !!! j ≠ x) → remove_first x l = take i l ++ drop (S i) l.
Proof.
  revert i. induction l as [|y l IH]; intros [|i] Hi Hf; simplify_eq/=.
  - by rewrite Z.eqb_refl.
  - destruct (Z.eqb_spec y x) as [->|]; [by destruct (Hf 0%nat); [lia|]|]. f_equal.
    apply IH; [done|]. intros j Hj. apply (Hf (S j)). lia.
Qed.

Lemma total_lookup_lt {X} `{!Inhabited X} (l : list X) i :
  (i < length l)%nat → l !! i = Some (l !!! i).
Proof. apply list_lookup_lookup_total_lt. Qed.

Lemma Leaf_Remove_spec l row_id :
  Leaf_wf l →
  Leaf_wf (Leaf_Remove l row_id) ∧ value (Leaf_Remove l row_id) = value l ∧
  Leaf_rows (Leaf_Remove l row_id) = remove_first row_id (Leaf_rows l).
Proof.
  intros (Hl & Hn & Hc). unfold Leaf_Remove.
  destruct (first_pos _ _ _) as [i|] eqn:Hf.
  - apply first_pos_Some in Hf as (Hi & Hp%Z.eqb_eq & Hlt).
    destruct (for_shift_down i (num_elements l - 1) (row_ids l)) as [Hl' Hr]; [lia..|].
    unfold Leaf_wf, Leaf_rows; cbn [row_ids num_elements capacity value].
    split_and!; [lia..|done|].
    rewrite (remove_first_at row_id _ i).
    + apply list_eq_same_length with (num_elements l - 1)%nat.
      * rewrite length_app, length_take, length_drop, length_take. lia.
      * rewrite length_take. lia.
      * intros j x y Hj. rewrite lookup_take_lt, (total_lookup_lt _ j), Hr by lia.
        case_decide.
        -- rewrite lookup_app_r, lookup_drop, !length_take by (rewrite !length_take; lia).
           rewrite lookup_take_lt, total_lookup_lt by lia.
           replace (S i + (j - i `min` (num_elements l `min` length (row_ids l))))%nat with (S j)
             by lia. congruence.
        -- rewrite lookup_app_l, lookup_take_lt, lookup_take_lt, total_lookup_lt
             by (rewrite ?length_take; lia). congruence.
    + rewrite lookup_take_lt, total_lookup_lt by lia. congruence.
    + intros j Hj. specialize (Hlt j ltac:(lia)). apply Z.eqb_neq in Hlt.
      rewrite list_lookup_total_alt, lookup_take_lt, <-list_lookup_total_alt by lia. done.
  - split_and!; [done..|]. symmetry. apply remove_first_absent.
    rewrite first_pos_None in Hf. intros [j Hj]%list_elem_of_lookup.
    unfold Leaf_rows in Hj. pose proof (lookup_lt_Some _ _ _ Hj) as Hlt. rewrite length_take in Hlt.
    rewrite lookup_take_lt in Hj by lia. specialize (Hf j ltac:(lia)).
    rewrite (list_lookup_total_correct _ _ _ Hj), Z.eqb_refl in Hf. done.
Qed.

(** ** Inner nodes: proofs *)

Section InnerProofs.
Context {A : Type}.
Implicit Types (n : Inner A) (key : list Z) (child : list (option A)) (c : A).

(** The child that an inner node has for a byte. *)
Definition child_at n (b : Z) : option A := pos ← GetChildPos n b; GetChild n pos.

(** The arrays of a [Node4] or [Node16] of [C] slots: the bytes ascend. *)
Record sorted_wf (C count : nat) key child : Prop := {
  sw_key : length key = C;
  sw_child : length child = C;
  sw_count : (count <= C)%nat;
  sw_used : ∀ i, (i < count)%nat → 0 <= key !!! i < 256 ∧ is_Some (child !!! i);
  sw_free : ∀ i, (count <= i)%nat → child !!! i = None;
  sw_sorted : ∀ i j, (i < j < count)%nat → key !!! i < key !!! j;
}.

(** The arrays of a [Node48]: the bytes with a child have different slots. *)
Record wf48 (count : nat) (child_index : list nat) child : Prop := {
  w48_index : length child_index = 256%nat;
  w48_child : length child = 48%nat;
  w48_live : count = countb non_empty child_index;
  w48_used : count = countb non_null child;
  w48_slot : ∀ b, (b < 256)%nat → child_index !!! b ≠ EMPTY_MARKER →
    (child_index !!! b < 48)%nat ∧ is_Some (child !!! (child_index !!! b));
  w48_inj : ∀ b b', (b < 256)%nat → (b' < 256)%nat → child_index !!! b ≠ EMPTY_MARKER →
    child_index !!! b = child_index !!! b' → b = b';
}.

Definition Inner_wf n : Prop :=
  match n with
  | Node4 _ count key child => sorted_wf 4 count key child
  | Node16 _ count key child => sorted_wf 16 count key child
  | Node48 _ count child_index child => wf48 count child_index child
  | Node256 _ count child => length child = 256%nat ∧ count = countb non_null child
  end.

(** The children of a sorted node. *)
Definition entry (count : nat) key child (b : Z) c : Prop :=
  ∃ i, (i < count)%nat ∧ key !!! i = b ∧ child !!! i = Some c.

Lemma sorted_child_at C count key child b c :
  sorted_wf C count key child →
  (pos ← sorted_GetChildPos count key b; child !!! pos) = Some c ↔ entry count key child b c.
Proof.
  intros W. unfold sorted_GetChildPos, entry. split.
  - destruct (first_pos _ _ _) as [i|] eqn:Hf; [|done]. simpl. intros Hc.
    apply first_pos_Some in Hf as (Hi & Hp%Z.eqb_eq & _). exists i. split_and!; [lia|done..].
  - intros (i & Hi & Hb & Hc).
    assert (first_pos (λ pos, key !!! pos =? b) 0 count = Some i) as ->; [|done].
    apply first_pos_Some. split_and!; [lia..|by apply Z.eqb_eq|]. intros j Hj.
    apply Z.eqb_neq. pose proof (sw_sorted _ _ _ _ W j i ltac:(lia)). lia.
Qed.

Lemma move_up_spec i m key child :
  length key = length child → (i < length key)%nat → (m <= i)%nat →
  let '(key', child') := move_up i m key child in
  length key' = length key ∧ length child' = length child ∧
  (∀ j, key' !!! j = if decide (i - m < j <= i)%nat then key !!! (j - 1)%nat else key !!! j) ∧
  (∀ j, child' !!! j = if decide (i - m < j <= i)%nat then child !!! (j - 1)%nat
                       else if decide (j = i - m ∧ 0 < m)%nat then None else child !!! j).
Proof.
  revert i key child. induction m as [|m IH]; intros i key child Hl Hi Hm; simpl.
  { split_and!; [done..| |]; intros j; repeat case_decide; lia || done. }
  specialize (IH (i - 1)%nat (<[i := key !!! (i - 1)%nat]> key)
    (<[(i - 1)%nat := None]> (<[i := child !!! (i - 1)%nat]> child))).
  destruct (move_up _ _ _ _) as [key' child']. rewrite !length_insert in IH.
  destruct IH as (H1 & H2 & H3 & H4); [done|lia..|].
  split_and!; [done..| |]; intros j; rewrite ?H3, ?H4, ?insert_total
    by (rewrite ?length_insert; lia); repeat case_decide; subst; lia || done || (f_equal; lia).
Qed.

(** The arrays after an insertion at [pos]. *)
Definition inserted (pos count : nat) key child (kb : Z) c key' child' : Prop :=
  length key' = length key ∧ length child' = length child ∧
  (∀ j, (j <= count)%nat → key' !!! j = if decide (j < pos)%nat then key !!! j
     else if decide (j = pos) then kb else key !!! (j - 1)%nat) ∧
  (∀ j, child' !!! j = if decide (j < pos)%nat then child !!! j
     else if decide (j = pos) then Some c
     else if decide (j <= count)%nat then child !!! (j - 1)%nat else None).

Lemma inserted_wf C pos count key child kb c key' child' :
  sorted_wf C count key child → (pos <= count < C)%nat → 0 <= kb < 256 →
  (∀ j, (j < pos)%nat → key !!! j < kb) → (∀ j, (pos <= j < count)%nat → kb < key !!! j) →
  inserted pos count key child kb c key' child' →
  sorted_wf C (S count) key' child' ∧
  ∀ b x, entry (S count) key' child' b x ↔ (b = kb ∧ x = c) ∨ entry count key child b x.
Proof.
  intros [Hk Hc HC Hu Hf Hs] Hpos Hkb Hlo Hhi (Hk' & Hc' & Hkj & Hcj). split.
  - split; [lia..| | |].
    + intros i Hi. rewrite Hkj, Hcj by lia. repeat case_decide; try lia; [by apply Hu; lia|done|].
      apply Hu. lia.
    + intros i Hi. rewrite Hcj. repeat case_decide; lia || done.
    + intros i j Hij. rewrite !Hkj by lia. repeat case_decide; try lia; [apply Hs; lia| |..].
      * apply Hlo. lia.
      * pose proof (Hlo i ltac:(lia)). pose proof (Hhi (j - 1)%nat ltac:(lia)). lia.
      * apply Hhi. lia.
      * apply Hs. lia.
  - intros b x. unfold entry. split.
    + intros (i & Hi & Hb & Hx). rewrite Hkj in Hb by lia. rewrite Hcj in Hx.
      repeat case_decide; try lia.
      * right. exists i. split_and!; [lia|done..].
      * left. naive_solver.
      * right. exists (i - 1)%nat. split_and!; [lia|done..].
    + intros [[-> ->]|(i & Hi & Hb & Hx)].
      * exists pos. split; [lia|]. rewrite Hkj, Hcj by lia. repeat case_decide; lia || done.
      * destruct (decide (i < pos)%nat).
        -- exists i. split; [lia|]. rewrite Hkj, Hcj by lia. repeat case_decide; lia || done.
        -- exists (S i). split; [lia|]. rewrite Hkj, Hcj by lia. repeat case_decide; try lia.
           by replace (S i - 1)%nat with i by lia.
Qed.

Lemma insert_pos_spec C count key child kb :
  sorted_wf C count key child →
  let pos := insert_pos count key kb in
  (pos <= count)%nat ∧ (∀ j, (j < pos)%nat → key !!! j < kb) ∧
  (∀ j, (pos <= j < count)%nat → kb <= key !!! j).
Proof.
  intros W. unfold insert_pos. destruct (first_pos _ _ _) as [i|] eqn:Hf; simpl.
  - apply first_pos_Some in Hf as (Hi & Hp%Z.leb_le & Hlt). split_and!; [lia| |].
    + intros j Hj. specialize (Hlt j ltac:(lia)). apply Z.leb_gt in Hlt. lia.
    + intros j Hj. destruct (decide (i = j)) as [<-|]; [done|].
      pose proof (sw_sorted _ _ _ _ W i j ltac:(lia)). lia.
  - rewrite first_pos_None in Hf. split_and!; [lia| |lia].
    intros j Hj. specialize (Hf j ltac:(lia)). apply Z.leb_gt in Hf. lia.
Qed.

Lemma sorted_Insert_spec C count key child kb c :
  sorted_wf C count key child → (count < C)%nat → 0 <= kb < 256 →
  (∀ i, (i < count)%nat → key !!! i ≠ kb) →
  let '(key', child') := sorted_Insert count key child kb c in
  sorted_wf C (S count) key' child' ∧
  ∀ b x, entry (S count) key' child' b x ↔ (b = kb ∧ x = c) ∨ entry count key child b x.
Proof.
  intros W HC Hkb Hnew. destruct (insert_pos_spec C count key child kb W) as (Hpos & Hlo & Hhi).
  unfold sorted_Insert. set (pos := insert_pos count key kb) in *.
  assert (Hhi' : ∀ j, (pos <= j < count)%nat → kb < key !!! j).
  { intros j Hj. specialize (Hhi j Hj). specialize (Hnew j ltac:(lia)). lia. }
  pose proof W as [Hk Hc _ Hu Hf _].
  destruct (child !!! pos) as [x|] eqn:Hx; simpl.
  - assert (pos < count)%nat.
    { destruct (decide (pos < count)%nat); [done|]. rewrite Hf in Hx by lia. done. }
    pose proof (move_up_spec count (count - pos) key child ltac:(lia) ltac:(lia) ltac:(lia)) as Hsh.
    destruct (move_up _ _ _ _) as [key1 child1]. destruct Hsh as (L1 & L2 & H1 & H2).
    eapply (inserted_wf C pos count key child kb c); [done|lia|done..|].
    split_and!; rewrite ?length_insert; [done..| |]; intros j; [intros Hj|];
      rewrite insert_total, ?H1, ?H2 by lia; repeat case_decide; try lia; try done.
    rewrite Hf by lia. done.
  - assert (pos = count) as Hpc.
    { destruct (decide (pos < count)%nat) as [Hlt|]; [|lia].
      destruct (proj2 (Hu pos Hlt)) as [? Hs]. congruence. }
    eapply (inserted_wf C pos count key child kb c); [done|lia|done..|].
    split_and!; rewrite ?length_insert; [done..| |]; intros j; [intros Hj|];
      rewrite insert_total by lia; repeat case_decide; try lia; try done.
    apply Hf. lia.
Qed.

Lemma sorted_append C count key child kb c :
  sorted_wf C count key child → (count < C)%nat → 0 <= kb < 256 →
  (∀ j, (j < count)%nat → key !!! j < kb) →
  sorted_wf C (S count) (<[count := kb]> key) (<[count := Some c]> child) ∧
  ∀ b x, entry (S count) (<[count := kb]> key) (<[count := Some c]> child) b x ↔
    (b = kb ∧ x = c) ∨ entry count key child b x.
Proof.
  intros W HC Hkb Hlo. pose proof W as [Hk Hc _ Hu Hf _].
  eapply (inserted_wf C count count key child kb c); [done|lia|done..|lia|].
  split_and!; rewrite ?length_insert; [done..| |]; intros j; [intros Hj|];
    rewrite insert_total by lia; repeat case_decide; try lia; try done.
  apply Hf. lia.
Qed.

Lemma sorted_Erase_spec C count key child pos :
  sorted_wf C (S count) key child → (pos <= count)%nat →
  let '(key', child') := sorted_Erase count key child pos in
  sorted_wf C count key' child' ∧
  ∀ b x, entry count key' child' b x ↔ entry (S count) key child b x ∧ b ≠ key !!! pos.
Proof.
  intros [Hk Hc HC Hu Hf Hs] Hpos. unfold sorted_Erase.
  set (P := λ (i : nat) (s : list Z * list (option A)),
    length s.1 = C ∧ length s.2 = C ∧
    (∀ j, s.1 !!! j = if decide (pos <= j < i)%nat then key !!! S j else key !!! j) ∧
    (∀ j, s.2 !!! j = if decide (pos <= j < i)%nat then child !!! S j
                      else if decide (j = i) then None else child !!! j)).
  assert (HP : P count (for_ pos count (λ pos '(k, ch),
    (<[pos := k !!! S pos]> k, <[S pos := None]> (<[pos := ch !!! S pos]> ch)))
    (key, <[pos := None]> child))).
  { apply (for_ind P); [done| |].
    - unfold P; cbn [fst snd]. rewrite length_insert. split_and!; [done..| |]; intros j;
        rewrite ?insert_total by lia; repeat case_decide; subst; lia || done.
    - intros i [k ch] Hi (L1 & L2 & H1 & H2). unfold P; simpl in *. rewrite !length_insert.
      split_and!; [done..| |]; intros j; rewrite !insert_total by (rewrite ?length_insert; lia);
        rewrite ?H1, ?H2; repeat case_decide; subst; lia || done. }
  destruct (for_ _ _ _ _) as [key' child']. destruct HP as (L1 & L2 & H1 & H2). simpl in *. split.
  - split; [lia..| | |].
    + intros i Hi. rewrite H1, H2. repeat case_decide; try lia; apply Hu; lia.
    + intros i Hi. rewrite H2. repeat case_decide; try lia; [done|]. apply Hf. lia.
    + intros i j Hij. rewrite !H1. repeat case_decide; try lia; apply Hs; lia.
  - intros b x. unfold entry. split.
    + intros (i & Hi & Hb & Hx). rewrite H1 in Hb. rewrite H2 in Hx. repeat case_decide; try lia.
      * split; [exists (S i); split_and!; [lia|done..]|].
        pose proof (Hs pos (S i) ltac:(lia)). lia.
      * split; [exists i; split_and!; [lia|done..]|].
        pose proof (Hs i pos ltac:(lia)). lia.
    + intros [(i & Hi & Hb & Hx) Hne]. assert (i ≠ pos) by congruence.
      destruct (decide (i < pos)%nat).
      * exists i. rewrite H1, H2. repeat case_decide; try lia. split_and!; [lia|done..].
      * exists (i - 1)%nat. rewrite H1, H2. repeat case_decide; try lia.
        replace (S (i - 1)) with i by lia. split_and!; [lia|done..].
Qed.

(** The entries are copied into the arrays of a node of another size. *)
Lemma sorted_copy C C' count key child k0 :
  sorted_wf C count key child → (count <= C')%nat →
  let '(key', child') := for_ 0 count (λ i '(nk, nc),
    (<[i := key !!! i]> nk, <[i := child !!! i]> nc)) (replicate C' k0, replicate C' None) in
  sorted_wf C' count key' child' ∧
  ∀ b x, entry count key' child' b x ↔ entry count key child b x.
Proof.
  intros [Hk Hc HC Hu Hf Hs] HC'.
  set (P := λ (i : nat) (s : list Z * list (option A)),
    length s.1 = C' ∧ length s.2 = C' ∧ (∀ j, (j < i)%nat → s.1 !!! j = key !!! j) ∧
    (∀ j, s.2 !!! j = if decide (j < i)%nat then child !!! j else None)).
  assert (HP : P count (for_ 0 count (λ i '(nk, nc),
    (<[i := key !!! i]> nk, <[i := child !!! i]> nc)) (replicate C' k0, replicate C' None))).
  { apply (for_ind P); [lia| |].
    - unfold P; cbn [fst snd]. rewrite !length_replicate. split_and!; [done..|lia|]. intros j.
      case_decide; [lia|]. destruct (decide (j < C')%nat).
      + by rewrite lookup_total_replicate_2.
      + by rewrite list_lookup_total_alt, lookup_ge_None_2 by (rewrite length_replicate; lia).
    - intros i [k ch] Hi (L1 & L2 & H1 & H2). unfold P; simpl in *. rewrite !length_insert.
      split_and!; [done..| |]; intros j; [intros Hj|]; rewrite insert_total by lia; [|rewrite H2];
        repeat case_decide; subst; try lia; try done. apply H1. lia. }
  destruct (for_ _ _ _ _) as [key' child']. destruct HP as (L1 & L2 & H1 & H2). simpl in *. split.
  - split; [lia..| | |].
    + intros i Hi. rewrite H1, H2 by done. case_decide; [|lia]. by apply Hu.
    + intros i Hi. rewrite H2. case_decide; lia || done.
    + intros i j Hij. rewrite !H1 by lia. by apply Hs.
  - intros b x. unfold entry. split; intros (i & Hi & Hb & Hx); exists i; rewrite H1, H2 in *
      by done; case_decide; (lia || done).
Qed.

(** *** Nodes with an index *)

Definition at48 (child_index : list nat) child (b : nat) c : Prop :=
  (b < 256)%nat ∧ child_index !!! b ≠ EMPTY_MARKER ∧ child !!! (child_index !!! b) = Some c.

Lemma wf48_add count ci child k slot c :
  wf48 count ci child → (k < 256)%nat → ci !!! k = EMPTY_MARKER → (slot < 48)%nat →
  child !!! slot = None →
  wf48 (S count) (<[k := slot]> ci) (<[slot := Some c]> child) ∧
  ∀ b x, at48 (<[k := slot]> ci) (<[slot := Some c]> child) b x ↔
    (b = k ∧ x = c) ∨ at48 ci child b x.
Proof.
  intros [Li Lc Hl Hu Hs Hi] Hk Hck Hslot Hfree.
  assert (Hne : ∀ b, (b < 256)%nat → ci !!! b ≠ EMPTY_MARKER → ci !!! b ≠ slot).
  { intros b Hb Hb'. destruct (Hs b Hb Hb') as [_ [y Hy]]. congruence. }
  assert (slot ≠ EMPTY_MARKER) by (unfold EMPTY_MARKER; lia).
  split; [split|].
  - by rewrite length_insert.
  - by rewrite length_insert.
  - pose proof (countb_insert non_empty ci k slot ltac:(lia)) as Hcb. rewrite Hck in Hcb.
    replace (non_empty slot) with true in Hcb
      by (symmetry; unfold non_empty; by apply negb_true_iff, Nat.eqb_neq).
    change (non_empty EMPTY_MARKER) with false in Hcb. cbv iota in Hcb. lia.
  - pose proof (countb_insert non_null child slot (Some c) ltac:(lia)) as Hcb.
    rewrite Hfree in Hcb. cbn [non_null] in Hcb. lia.
  - intros b Hb. rewrite !insert_total by lia. case_decide; [subst; intros _|intros Hb'].
    + rewrite decide_True by done. split; [done|by eexists].
    + rewrite decide_False by (apply not_eq_sym; by apply Hne). by apply Hs.
  - intros b b' Hb Hb'. rewrite !insert_total by lia. repeat case_decide; subst; try done.
    + intros _ He. by destruct (Hne b' Hb'); congruence.
    + intros H1 He. by destruct (Hne b Hb).
    + by apply Hi.
  - intros b x. unfold at48. split.
    + intros (Hb & H1 & H2). rewrite (insert_total ci) in H1, H2 by lia.
      rewrite insert_total in H2 by lia. destruct (decide (k = b)) as [<-|Hkb].
      * rewrite decide_True in H2 by done. left. naive_solver.
      * rewrite decide_False in H2 by (apply not_eq_sym; by apply Hne). by right.
    + intros [[-> ->]|(Hb & H1 & H2)]; (split; [done|]); rewrite !insert_total by lia.
      * rewrite !decide_True by done. done.
      * rewrite (decide_False (P := k = b)) by congruence.
        rewrite decide_False by (apply not_eq_sym; by apply Hne). done.
Qed.

Lemma wf48_init : wf48 0 (replicate 256 EMPTY_MARKER) (replicate 48 (@None A)).
Proof.
  split; rewrite ?length_replicate, ?countb_replicate by done; try done;
    intros b; intros; rewrite total_replicate in * by done; done.
Qed.

Lemma sorted_init C k0 : sorted_wf C 0 (replicate C k0) (replicate C (@None A)).
Proof.
  split; rewrite ?length_replicate; try lia; try done. intros i _.
  destruct (decide (i < C)%nat); [by rewrite total_replicate|].
  by rewrite list_lookup_total_alt, lookup_ge_None_2 by (rewrite length_replicate; lia).
Qed.

Lemma wf48_free_slot count ci child :
  wf48 count ci child → (count < 48)%nat →
  (free_slot count child < 48)%nat ∧ child !!! free_slot count child = None.
Proof.
  intros [Li Lc Hl Hu Hs Hi] Hc. unfold free_slot.
  destruct (child !!! count) as [x|] eqn:Hx; simpl; [|done].
  destruct (countb_free non_null child) as (i & Hi' & Hn); [lia|].
  destruct (first_pos_is_Some (λ pos, negb (non_null (child !!! pos))) 0 48 i) as [j Hj];
    [lia|by rewrite Hn|].
  rewrite Hj. simpl. apply first_pos_Some in Hj as (? & Hp & _). split; [lia|].
  by destruct (child !!! j).
Qed.

Lemma wf48_remove count ci child k :
  wf48 (S count) ci child → (k < 256)%nat → ci !!! k ≠ EMPTY_MARKER →
  wf48 count (<[k := EMPTY_MARKER]> ci) (<[ci !!! k := None]> child) ∧
  ∀ b x, at48 (<[k := EMPTY_MARKER]> ci) (<[ci !!! k := None]> child) b x ↔
    at48 ci child b x ∧ b ≠ k.
Proof.
  intros [Li Lc Hl Hu Hs Hi] Hk Hck. destruct (Hs k Hk Hck) as [Hslot [y Hy]].
  assert (Hne : ∀ b, (b < 256)%nat → b ≠ k → ci !!! b ≠ EMPTY_MARKER → ci !!! k ≠ ci !!! b).
  { intros b Hb Hbk Hb' He. apply Hbk. symmetry. by apply Hi. }
  split; [split|].
  - by rewrite length_insert.
  - by rewrite length_insert.
  - pose proof (countb_insert non_empty ci k EMPTY_MARKER ltac:(lia)) as Hcb.
    replace (non_empty (ci !!! k)) with true in Hcb
      by (symmetry; unfold non_empty; by apply negb_true_iff, Nat.eqb_neq).
    change (non_empty EMPTY_MARKER) with false in Hcb. cbv iota in Hcb. lia.
  - pose proof (countb_insert non_null child (ci !!! k) None ltac:(lia)) as Hcb.
    rewrite Hy in Hcb. cbn [non_null] in Hcb. lia.
  - intros b Hb. rewrite (insert_total ci) by lia. case_decide; [done|]. intros Hb'.
    rewrite insert_total, decide_False by (lia || by apply Hne). by apply Hs.
  - intros b b' Hb Hb'. rewrite !insert_total by lia. repeat case_decide; subst; try done.
    by apply Hi.
  - intros b x. unfold at48. split.
    + intros (Hb & H1 & H2). rewrite (insert_total ci) in H1, H2 by lia.
      destruct (decide (k = b)) as [<-|Hkb]; [done|].
      rewrite insert_total, decide_False in H2 by (lia || apply Hne; done). done.
    + intros [(Hb & H1 & H2) Hbk]. split; [done|]. rewrite (insert_total ci) by lia.
      rewrite (decide_False (P := k = b)) by done.
      rewrite insert_total, decide_False by (lia || by apply Hne). done.
Qed.

(** A sorted node copied into a node with an index. *)
Lemma fill48 C count key child :
  sorted_wf C count key child → (count <= 48)%nat →
  let '(ci, nc) := for_ 0 count (λ i '(ci, nc),
      (<[Z.to_nat (key !!! i) := i]> ci, <[i := child !!! i]> nc))
      (replicate 256 EMPTY_MARKER, replicate 48 None) in
  wf48 count ci nc ∧
  ∀ b x, at48 ci nc b x ↔ entry count key child (Z.of_nat b) x.
Proof.
  intros [Hk Hc HC Hu Hf Hs] H48.
  set (P := λ (m : nat) (s : list nat * list (option A)),
    wf48 m s.1 s.2 ∧ (∀ j, (m <= j)%nat → s.2 !!! j = None) ∧
    ∀ b x, at48 s.1 s.2 b x ↔ entry m key child (Z.of_nat b) x).
  assert (HP : P count (for_ 0 count (λ i '(ci, nc),
      (<[Z.to_nat (key !!! i) := i]> ci, <[i := child !!! i]> nc))
      (replicate 256 EMPTY_MARKER, replicate 48 None))).
  { apply (for_ind P); [lia| |].
    - split_and!; [apply wf48_init| |].
      + intros j _. destruct (sorted_init 48 0) as [_ _ _ _ H _]. apply H. lia.
      + intros b x. unfold at48, entry; cbn [fst snd]. split; [|intros (i & ? & _); lia].
        intros (Hb & H1 & _). by rewrite total_replicate in H1.
    - intros i [ci nc] Hi (W & Hfree & Hat). cbn [fst snd] in *.
      destruct (Hu i ltac:(lia)) as [Hb [c Hci]]. rewrite Hci.
      assert (Hnew : ci !!! Z.to_nat (key !!! i) = EMPTY_MARKER).
      { destruct (decide (ci !!! Z.to_nat (key !!! i) = EMPTY_MARKER)) as [|Hne]; [done|].
        destruct (w48_slot _ _ _ W (Z.to_nat (key !!! i)) ltac:(lia) Hne) as [_ [y Hy]].
        assert (Ha : at48 ci nc (Z.to_nat (key !!! i)) y) by (split_and!; [lia|done..]).
        apply Hat in Ha as (i' & Hi' & He & _). rewrite Z2Nat.id in He by lia.
        pose proof (Hs i' i ltac:(lia)). lia. }
      destruct (wf48_add i ci nc (Z.to_nat (key !!! i)) i c) as [W' Hat'];
        [done|lia|done|lia|by apply Hfree|].
      split_and!; cbn [fst snd]; [done| |].
      + intros j Hj. rewrite insert_total by (rewrite (w48_child _ _ _ W); lia).
        rewrite decide_False by lia. apply Hfree. lia.
      + intros b x. rewrite Hat', Hat. unfold entry. split.
        * intros [[-> ->]|(i' & ? & ? & ?)].
          -- exists i. split_and!; [lia|lia|done].
          -- exists i'. split_and!; [lia|done..].
        * intros (i' & Hi' & He & Hx). destruct (decide (i' = i)) as [->|].
          -- left. split; [lia|congruence].
          -- right. exists i'. split_and!; [lia|done..]. }
  destruct (for_ _ _ _ _) as [ci nc]. destruct HP as (W & _ & Hat). done.
Qed.

Lemma collect16_spec count ci child :
  wf48 count ci child → (count <= 16)%nat →
  let '(c, nk, nc) := collect16 ci child in
  c = count ∧ sorted_wf 16 c nk nc ∧
  ∀ b x, entry c nk nc b x ↔ ∃ k, b = Z.of_nat k ∧ at48 ci child k x.
Proof.
  intros W H16. pose proof W as [Li Lc Hl Hu Hs Hi]. unfold collect16.
  set (P := λ (i : nat) (s : nat * list Z * list (option A)),
    s.1.1 = countb non_empty (take i ci) ∧ sorted_wf 16 s.1.1 s.1.2 s.2 ∧
    (∀ j, (j < s.1.1)%nat → s.1.2 !!! j < Z.of_nat i) ∧
    ∀ b x, entry s.1.1 s.1.2 s.2 b x ↔ ∃ k, (k < i)%nat ∧ b = Z.of_nat k ∧ at48 ci child k x).
  match goal with |- context [for_ ?a ?b ?f ?s0] => assert (HP : P 256%nat (for_ a b f s0)) end.
  { apply (for_ind P); [lia| |].
    - split_and!; cbn [fst snd]; [done|apply sorted_init|lia|].
      intros b x. unfold entry. split; [intros (i & ? & _); lia|intros (k & ? & _); lia].
    - intros i [[c nk] nc] Hib (Hc & Ws & Hlt & He). cbn [fst snd] in *.
      pose proof (countb_take_S non_empty ci i ltac:(lia)) as HS.
      pose proof (countb_take_le non_empty ci (S i)) as Hle.
      unfold non_empty at 1. destruct (Nat.eqb_spec (ci !!! i) EMPTY_MARKER) as [Hem|Hem]; simpl negb.
      + rewrite Hem in HS. change (non_empty EMPTY_MARKER) with false in HS. cbv iota in HS.
        split_and!; cbn [fst snd]; [lia|done| |].
        * intros j Hj. specialize (Hlt j Hj). lia.
        * intros b x. rewrite He. split; intros (k & Hk & Hb & Ha); exists k; split_and!; try done; [lia|].
          destruct Ha as (_ & Ha & _). assert (k ≠ i) by congruence. lia.
      + replace (non_empty (ci !!! i)) with true in HS
          by (symmetry; unfold non_empty; by apply negb_true_iff, Nat.eqb_neq).
        destruct (Hs i ltac:(lia) Hem) as [_ [y Hy]]. rewrite Hy.
        destruct (sorted_append 16 c nk nc (Z.of_nat i) y) as [Ws' He'];
          [done|lia|lia|done|].
        split_and!; cbn [fst snd]; [lia|done| |].
        * intros j Hj. rewrite insert_total by (rewrite (sw_key _ _ _ _ Ws); lia).
          case_decide; [lia|]. specialize (Hlt j ltac:(lia)). lia.
        * intros b x. rewrite He', He. split.
          -- intros [[-> ->]|(k & ? & ? & ?)].
             ++ exists i. split_and!; [lia|done|]. split_and!; [lia|done..].
             ++ exists k. split_and!; [lia|done..].
          -- intros (k & Hk & Hb & Ha). destruct (decide (k = i)) as [->|].
             ++ left. destruct Ha as (_ & _ & Ha). split; [done|congruence].
             ++ right. exists k. split_and!; [lia|done..]. }
  destruct (for_ _ _ _ _) as [[c nk] nc]. destruct HP as (Hc & Ws & _ & He). cbn [fst snd] in *.
  rewrite take_ge in Hc by lia. split_and!; [lia|done|]. intros b x. rewrite He.
  split; intros (k & Hk); exists k; [tauto|]. destruct Hk as [-> Ha].
  split_and!; [apply Ha|done|done].
Qed.

Lemma collect48_spec count child :
  length child = 256%nat → count = countb non_null child → (count <= 48)%nat →
  let '(c, ci, nc) := collect48 child in
  c = count ∧ wf48 c ci nc ∧ ∀ b x, at48 ci nc b x ↔ (b < 256)%nat ∧ child !!! b = Some x.
Proof.
  intros Lc Hcount H48. unfold collect48.
  set (P := λ (i : nat) (s : nat * list nat * list (option A)),
    s.1.1 = countb non_null (take i child) ∧ wf48 s.1.1 s.1.2 s.2 ∧
    (∀ j, (s.1.1 <= j)%nat → s.2 !!! j = None) ∧
    (∀ k, (i <= k < 256)%nat → s.1.2 !!! k = EMPTY_MARKER) ∧
    ∀ b x, at48 s.1.2 s.2 b x ↔ (b < i)%nat ∧ child !!! b = Some x).
  match goal with |- context [for_ ?a ?b ?f ?s0] => assert (HP : P 256%nat (for_ a b f s0)) end.
  { apply (for_ind P); [lia| |].
    - split_and!; cbn [fst snd]; [done|apply wf48_init| |intros; rewrite total_replicate; lia|].
      + intros j _. destruct (sorted_init 48 0) as [_ _ _ _ H _]. apply H. lia.
      + intros b x. split; [|lia]. intros (Hb & H1 & _). by rewrite total_replicate in H1.
    - intros i [[c ci] nc] Hib (Hc & W & Hfree & Hem & Hat). cbn [fst snd] in *.
      pose proof (countb_take_S non_null child i ltac:(lia)) as HS.
      pose proof (countb_take_le non_null child (S i)) as Hle.
      destruct (child !!! i) as [y|] eqn:Hy; cbn [non_null] in *.
      + destruct (wf48_add c ci nc i c y) as [W' Hat']; [done|lia|apply Hem; lia|lia|by apply Hfree|].
        split_and!; cbn [fst snd]; [lia|done| | |].
        * intros j Hj. rewrite insert_total by (rewrite (w48_child _ _ _ W); lia).
          rewrite decide_False by lia. apply Hfree. lia.
        * intros k Hk. rewrite insert_total by (rewrite (w48_index _ _ _ W); lia).
          rewrite decide_False by lia. apply Hem. lia.
        * intros b x. rewrite Hat', Hat. split.
          -- intros [[-> ->]|[? ?]]; split; (lia || done).
          -- intros [Hb Hx]. destruct (decide (b = i)) as [->|]; [left; split; congruence|].
             right. split; [lia|done].
      + split_and!; cbn [fst snd]; [lia|done|done| |].
        * intros k Hk. apply Hem. lia.
        * intros b x. rewrite Hat. split; intros [Hb Hx]; (split; [|done]); [lia|].
          assert (b ≠ i) by congruence. lia. }
  destruct (for_ _ _ _ _) as [[c ci] nc]. destruct HP as (Hc & W & _ & _ & Hat). cbn [fst snd] in *.
  rewrite take_ge in Hc by lia. split_and!; [lia|done..].
Qed.

(** A node with an index copied into a [Node256]. *)
Lemma fill256 count ci child :
  wf48 count ci child →
  let nc := for_ 0 256 (λ i nc,
    if non_empty (ci !!! i) then <[i := child !!! (ci !!! i)]> nc else nc) (replicate 256 None) in
  length nc = 256%nat ∧ count = countb non_null nc ∧
  ∀ b x, (b < 256)%nat → nc !!! b = Some x ↔ at48 ci child b x.
Proof.
  intros [Li Lc Hl Hu Hs Hi] nc.
  destruct (for_cond_insert (λ i, non_empty (ci !!! i)) (λ i, child !!! (ci !!! i)) 256
    (replicate 256 (@None A))) as [Hlen Hlk].
  rewrite length_replicate in *. fold nc in Hlen, Hlk.
  assert (Hv : ∀ b, (b < 256)%nat →
    nc !!! b = if non_empty (ci !!! b) then child !!! (ci !!! b) else None).
  { intros b Hb. specialize (Hlk b Hb). rewrite lookup_replicate_2 in Hlk by done.
    replace (b <? 256)%nat with true in Hlk by (symmetry; by apply Nat.ltb_lt). simpl in Hlk.
    rewrite list_lookup_total_alt, Hlk. by destruct (non_empty _). }
  split_and!; [done| |].
  - rewrite Hl. symmetry. apply countb_ext; [lia|]. intros i Hin. rewrite Hv by lia.
    unfold non_empty. destruct (Nat.eqb_spec (ci !!! i) EMPTY_MARKER) as [|Hne]; simpl; [done|].
    destruct (Hs i ltac:(lia) Hne) as [_ [y ->]]. done.
  - intros b x Hb. rewrite Hv by done. unfold at48, non_empty.
    destruct (Nat.eqb_spec (ci !!! b) EMPTY_MARKER) as [He|Hne]; simpl; [|tauto].
    split; [done|]. intros (_ & ? & _). congruence.
Qed.

(** *** The operations on nodes of every kind *)

Definition has_child n (b : Z) c : Prop :=
  match n with
  | Node4 _ count key child | Node16 _ count key child => entry count key child b c
  | Node48 _ _ child_index child => at48 child_index child (Z.to_nat b) c
  | Node256 _ _ child => child !!! Z.to_nat b = Some c
  end.

Lemma child_at_has n b c : Inner_wf n → 0 <= b < 256 → child_at n b = Some c ↔ has_child n b c.
Proof.
  intros W Hb. unfold child_at. destruct n as [p m key child|p m key child|p m ci child|p m child];
    cbn [GetChildPos GetChild has_child Inner_wf] in *.
  - by eapply sorted_child_at.
  - by eapply sorted_child_at.
  - unfold Node48_GetChildPos, at48.
    destruct (Nat.eqb_spec (ci !!! Z.to_nat b) EMPTY_MARKER) as [He|Hne]; simpl.
    + split; [done|]. intros (_ & ? & _). congruence.
    + split; [|by intros (_ & _ & ?)]. intros ?. split_and!; [lia|done..].
  - unfold Node256_GetChildPos. destruct (child !!! Z.to_nat b) eqn:Hc; simpl; [by rewrite Hc|done].
Qed.

(** [n'] is [n] with the child [o] at the byte [k]. *)
Definition updated n (k : Z) (o : option A) n' : Prop :=
  Inner_wf n' ∧ prefix n' = prefix n ∧
  ∀ b, 0 <= b < 256 → child_at n' b = if decide (b = k) then o else child_at n b.

Lemma updated_intro n k o n' :
  Inner_wf n → Inner_wf n' → prefix n' = prefix n →
  (∀ b x, 0 <= b < 256 →
    has_child n' b x ↔ (b = k ∧ o = Some x) ∨ (b ≠ k ∧ has_child n b x)) →
  updated n k o n'.
Proof.
  intros W W' Hp Hh. split_and!; [done..|]. intros b Hb. apply option_eq. intros x.
  rewrite child_at_has, Hh by done. case_decide.
  - split; [intros [[_ ?]|[? _]]; done|by left].
  - rewrite child_at_has by done. split; [intros [[? _]|[_ ?]]; done|by right].
Qed.

Lemma has_child_none n k : Inner_wf n → 0 <= k < 256 → child_at n k = None → ∀ x, ¬ has_child n k x.
Proof. intros W Hk Hn x Hx. apply child_at_has in Hx; [congruence|done..]. Qed.

Lemma insert_iff n n' k c :
  (∀ x, ¬ has_child n k x) →
  (∀ b x, 0 <= b < 256 → has_child n' b x ↔ (b = k ∧ x = c) ∨ has_child n b x) →
  ∀ b x, 0 <= b < 256 →
    has_child n' b x ↔ (b = k ∧ Some c = Some x) ∨ (b ≠ k ∧ has_child n b x).
Proof.
  intros Hno Hh b x Hb. rewrite Hh by done. destruct (decide (b = k)) as [->|].
  - split; [intros [[_ ->]|?]; [by left|by destruct (Hno x)]|intros [[_ [= ->]]|[? _]]; [by left|done]].
  - naive_solver.
Qed.

Lemma Node256_Insert_spec p count child k c :
  length child = 256%nat → count = countb non_null child → 0 <= k < 256 →
  child !!! Z.to_nat k = None →
  Inner_wf (Node256_Insert p count child k c) ∧
  ∀ b x, 0 <= b < 256 →
    has_child (Node256_Insert p count child k c) b x ↔
    (b = k ∧ x = c) ∨ child !!! Z.to_nat b = Some x.
Proof.
  intros Hl Hc Hk Hn. simpl. rewrite length_insert. split_and!; [done| |].
  - pose proof (countb_insert non_null child (Z.to_nat k) (Some c) ltac:(lia)) as Hcb.
    rewrite Hn in Hcb. cbn [non_null] in Hcb. lia.
  - intros b x Hb. rewrite insert_total by lia. destruct (decide (Z.to_nat k = Z.to_nat b)) as [He|He].
    + assert (b = k) as -> by lia. rewrite Hn. naive_solver.
    + assert (b ≠ k) by lia. naive_solver.
Qed.

Lemma Node48_Insert_spec p count ci child k c :
  wf48 count ci child → 0 <= k < 256 → (∀ x, ¬ at48 ci child (Z.to_nat k) x) →
  let n' := Node48_Insert p count ci child k c in
  Inner_wf n' ∧ prefix n' = p ∧ ArtNode.count n' = S count ∧
  ∀ b x, 0 <= b < 256 → has_child n' b x ↔ (b = k ∧ x = c) ∨ at48 ci child (Z.to_nat b) x.
Proof.
  intros W Hk Hno. unfold Node48_Insert.
  assert (Hem : ci !!! Z.to_nat k = EMPTY_MARKER).
  { destruct (decide (ci !!! Z.to_nat k = EMPTY_MARKER)) as [|Hne]; [done|].
    destruct (w48_slot _ _ _ W (Z.to_nat k) ltac:(lia) Hne) as [_ [y Hy]].
    destruct (Hno y). split_and!; [lia|done..]. }
  destruct (Nat.ltb_spec count 48) as [Hlt|Hge].
  - destruct (wf48_free_slot count ci child W Hlt) as [Hs Hn].
    destruct (wf48_add count ci child (Z.to_nat k) (free_slot count child) c) as [W' Hat];
      [done|lia|done..|].
    cbn [Inner_wf prefix ArtNode.count has_child]. split_and!; [done..|]. intros b x Hb. rewrite Hat.
    assert (Z.to_nat b = Z.to_nat k ↔ b = k) by lia. tauto.
  - destruct (fill256 count ci child W) as (Hl & Hc & Hat). set (nc := for_ _ _ _ _) in *.
    destruct (Node256_Insert_spec p count nc k c) as [W' Hh]; [done..| |].
    { destruct (nc !!! Z.to_nat k) as [y|] eqn:Hy; [|done]. apply Hat in Hy; [|lia].
      by destruct (Hno y). }
    split_and!; [done..|]. intros b x Hb. rewrite Hh, Hat by lia. done.
Qed.

Lemma Node16_Insert_spec p count key child k c :
  sorted_wf 16 count key child → 0 <= k < 256 → (∀ x, ¬ entry count key child k x) →
  let n' := Node16_Insert p count key child k c in
  Inner_wf n' ∧ prefix n' = p ∧ ArtNode.count n' = S count ∧
  ∀ b x, 0 <= b < 256 → has_child n' b x ↔ (b = k ∧ x = c) ∨ entry count key child b x.
Proof.
  intros W Hk Hno. unfold Node16_Insert. destruct (Nat.ltb_spec count 16) as [Hlt|Hge].
  - pose proof (sorted_Insert_spec 16 count key child k c W Hlt Hk) as Hi.
    destruct (sorted_Insert _ _ _ _ _) as [key' child']. destruct Hi as [W' Hh].
    { intros i Hi He. destruct (sw_used _ _ _ _ W i Hi) as [_ [y Hy]]. destruct (Hno y). by exists i. }
    split_and!; [done..|]. intros b x _. apply Hh.
  - pose proof (fill48 16 count key child W ltac:(pose proof (sw_count _ _ _ _ W); lia)) as Hf.
    destruct (for_ _ _ _ _) as [ci nc]. destruct Hf as [W' Hat].
    destruct (Node48_Insert_spec p count ci nc k c) as (W2 & Hp & Hcn & Hh); [done..| |].
    { intros x Hx%Hat. rewrite Z2Nat.id in Hx by lia. by destruct (Hno x). }
    split_and!; [done..|]. intros b x Hb. rewrite Hh, Hat, Z2Nat.id by lia. done.
Qed.

Lemma Node4_Insert_spec p count key child k c :
  sorted_wf 4 count key child → 0 <= k < 256 → (∀ x, ¬ entry count key child k x) →
  let n' := Node4_Insert p count key child k c in
  Inner_wf n' ∧ prefix n' = p ∧ ArtNode.count n' = S count ∧
  ∀ b x, 0 <= b < 256 → has_child n' b x ↔ (b = k ∧ x = c) ∨ entry count key child b x.
Proof.
  intros W Hk Hno. unfold Node4_Insert. destruct (Nat.ltb_spec count 4) as [Hlt|Hge].
  - pose proof (sorted_Insert_spec 4 count key child k c W Hlt Hk) as Hi.
    destruct (sorted_Insert _ _ _ _ _) as [key' child']. destruct Hi as [W' Hh].
    { intros i Hi He. destruct (sw_used _ _ _ _ W i Hi) as [_ [y Hy]]. destruct (Hno y). by exists i. }
    split_and!; [done..|]. intros b x _. apply Hh.
  - assert (count = 4%nat) as -> by (pose proof (sw_count _ _ _ _ W); lia).
    pose proof (sorted_copy 4 16 4 key child 16 W ltac:(lia)) as Hf.
    destruct (for_ _ _ _ _) as [nk nc]. destruct Hf as [W' Hat].
    destruct (Node16_Insert_spec p 4 nk nc k c) as (W2 & Hp & Hcn & Hh); [done..| |].
    { intros x Hx%Hat. by destruct (Hno x). }
    split_and!; [done..|]. intros b x Hb. by rewrite Hh, Hat by lia.
Qed.

Lemma InsertLeaf_spec n k c :
  Inner_wf n → 0 <= k < 256 → child_at n k = None →
  updated n k (Some c) (InsertLeaf n k c) ∧ count (InsertLeaf n k c) = S (count n).
Proof.
  intros W Hk Hn. pose proof (has_child_none n k W Hk Hn) as Hno.
  assert (HI : Inner_wf (InsertLeaf n k c) ∧ prefix (InsertLeaf n k c) = prefix n ∧
    count (InsertLeaf n k c) = S (count n) ∧
    ∀ b x, 0 <= b < 256 → has_child (InsertLeaf n k c) b x ↔ (b = k ∧ x = c) ∨ has_child n b x).
  { destruct n as [p m key child|p m key child|p m ci child|p m child]; cbn [InsertLeaf].
    - by apply Node4_Insert_spec.
    - by apply Node16_Insert_spec.
    - by apply Node48_Insert_spec.
    - destruct W as [Hl Hc]. destruct (Node256_Insert_spec p m child k c) as [W' Hh]; [done..| |done].
      destruct (child !!! Z.to_nat k) as [y|] eqn:Hy; [|done]. by destruct (Hno y). }
  destruct HI as (W' & Hp & Hcn & Hh). split; [|done].
  apply updated_intro; [done..|]. by apply insert_iff.
Qed.

Lemma sorted_pos count key k pos :
  sorted_GetChildPos count key k = Some pos → (pos < count)%nat ∧ key !!! pos = k.
Proof. intros (Hi & Hp%Z.eqb_eq & _)%first_pos_Some. split; [lia|done]. Qed.

Lemma Node48_pos ci k pos :
  Node48_GetChildPos ci k = Some pos → pos = Z.to_nat k ∧ ci !!! pos ≠ EMPTY_MARKER.
Proof.
  unfold Node48_GetChildPos. destruct (Nat.eqb_spec (ci !!! Z.to_nat k) EMPTY_MARKER); [done|].
  by intros [= <-].
Qed.

Lemma Node256_pos child k pos :
  Node256_GetChildPos child k = Some pos → pos = Z.to_nat k ∧ is_Some (child !!! pos).
Proof.
  unfold Node256_GetChildPos. destruct (child !!! Z.to_nat k) eqn:Hc; simpl; [|done].
  intros [= <-]. split; [done|by eexists].
Qed.

Lemma sorted_SetChild C count key child pos c :
  sorted_wf C count key child → (pos < count)%nat →
  sorted_wf C count key (<[pos := Some c]> child) ∧
  ∀ b x, entry count key (<[pos := Some c]> child) b x ↔
    (b = key !!! pos ∧ x = c) ∨ (b ≠ key !!! pos ∧ entry count key child b x).
Proof.
  intros [Hk Hc HC Hu Hf Hs] Hpos. split.
  - split; rewrite ?length_insert; [done..| | |done].
    + intros i Hi. rewrite insert_total by lia. split; [by apply Hu|].
      case_decide; [done|]. by apply Hu.
    + intros i Hi. rewrite insert_total, decide_False by lia. by apply Hf.
  - assert (Hinj : ∀ i, (i < count)%nat → key !!! i = key !!! pos → i = pos).
    { intros i Hi He. destruct (lt_eq_lt_dec i pos) as [[Hlt|?]|Hlt]; [|done|].
      - pose proof (Hs i pos ltac:(lia)). lia.
      - pose proof (Hs pos i ltac:(lia)). lia. }
    intros b x. unfold entry. split.
    + intros (i & Hi & Hb & Hx). rewrite insert_total in Hx by lia. case_decide; subst.
      * left. naive_solver.
      * right. split; [intros He; by apply Hinj in He|]. by exists i.
    + intros [[-> ->]|[Hne (i & Hi & Hb & Hx)]].
      * exists pos. rewrite insert_total, decide_True by lia. done.
      * exists i. rewrite insert_total, decide_False by (lia || congruence). done.
Qed.

Lemma SetChild_spec n k pos c :
  Inner_wf n → 0 <= k < 256 → GetChildPos n k = Some pos →
  updated n k (Some c) (SetChild n pos (Some c)) ∧ count (SetChild n pos (Some c)) = count n.
Proof.
  intros W Hk Hpos. split; [|by destruct n].
  destruct n as [p m key child|p m key child|p m ci child|p m child]; cbn [GetChildPos SetChild] in *.
  1,2: apply sorted_pos in Hpos as [Hlt <-];
    destruct (sorted_SetChild _ m key child pos c W Hlt) as [W' Hh];
    apply updated_intro; [done..|]; intros b x _; cbn [has_child]; rewrite Hh; naive_solver.
  - apply Node48_pos in Hpos as [-> Hne]. pose proof W as [Li Lc Hl Hu Hs Hi].
    destruct (Hs (Z.to_nat k) ltac:(lia) Hne) as [Hslot [y Hy]].
    apply updated_intro; [done| |done|].
    + split; rewrite ?length_insert; [done..| | |done].
      * pose proof (countb_insert non_null child (ci !!! Z.to_nat k) (Some c) ltac:(lia)) as Hcb.
        rewrite Hy in Hcb. cbn [non_null] in Hcb. lia.
      * intros b Hb Hb'. split; [by apply Hs|]. rewrite insert_total by lia.
        case_decide; [done|]. by apply Hs.
    + intros b x Hb. cbn [has_child]. unfold at48. rewrite insert_total by lia.
      destruct (decide (b = k)) as [->|Hbk].
      * rewrite decide_True by done. split; [intros (_ & _ & ?); left; naive_solver|].
        intros [[_ ?]|[? _]]; [|done]. split_and!; [lia|done..].
      * split.
        -- intros (H1 & H2 & H3). rewrite decide_False in H3; [right; done|].
           intros He. apply Hi in He; [lia|lia|lia|done].
        -- intros [[? _]|[_ (H1 & H2 & H3)]]; [done|]. rewrite decide_False; [done|].
           intros He. apply Hi in He; [lia|lia|lia|done].
  - apply Node256_pos in Hpos as [-> [y Hy]]. destruct W as [Hl Hc].
    apply updated_intro; [done| |done|].
    + simpl. rewrite length_insert. split; [done|].
      pose proof (countb_insert non_null child (Z.to_nat k) (Some c) ltac:(lia)) as Hcb.
      rewrite Hy in Hcb. cbn [non_null] in Hcb. lia.
    + intros b x Hb. cbn [has_child]. rewrite insert_total by lia.
      destruct (decide (b = k)) as [->|]; [rewrite decide_True by done; naive_solver|].
      rewrite decide_False by lia. naive_solver.
Qed.

Lemma erase_iff n n' k :
  (∀ b x, 0 <= b < 256 → has_child n' b x ↔ has_child n b x ∧ b ≠ k) →
  ∀ b x, 0 <= b < 256 →
    has_child n' b x ↔ (b = k ∧ None = Some x) ∨ (b ≠ k ∧ has_child n b x).
Proof. intros Hh b x Hb. rewrite Hh by done. naive_solver. Qed.

(** Deletion from a node that keeps more than one child. *)
Lemma Node16_Erase_spec p count key child k pos :
  let n := Node16 p count key child in
  Inner_wf n → GetChildPos n k = Some pos →
  updated n k None (Node16_Erase p count key child pos) ∧
  ArtNode.count (Node16_Erase p count key child pos) = (count - 1)%nat.
Proof.
  intros n W Hpos. apply sorted_pos in Hpos as [Hlt <-].
  assert (W1 : sorted_wf 16 (S (count - 1)) key child)
    by (by replace (S (count - 1)) with count by lia).
  unfold Node16_Erase. pose proof (sorted_Erase_spec 16 (count - 1) key child pos W1 ltac:(lia)) as He.
  destruct (sorted_Erase _ _ _ _) as [key' child']. destruct He as [W' Hh].
  replace (S (count - 1)) with count in Hh by lia.
  destruct (Nat.leb_spec (count - 1) 3) as [Hle|Hgt].
  - pose proof (sorted_copy 16 4 (count - 1) key' child' 0 W' ltac:(lia)) as Hf.
    destruct (for_ _ _ _ _) as [nk nc]. destruct Hf as [W2 Hh2].
    split; [|done]. apply updated_intro; [done..|]. apply erase_iff. intros b x _.
    cbn [has_child]. by rewrite Hh2, Hh.
  - split; [|done]. apply updated_intro; [done..|]. apply erase_iff. intros b x _. apply Hh.
Qed.

Lemma Node48_Erase_spec p count ci child k pos :
  let n := Node48 p count ci child in
  Inner_wf n → 0 <= k < 256 → GetChildPos n k = Some pos → (0 < count)%nat →
  updated n k None (Node48_Erase p count ci child pos) ∧
  ArtNode.count (Node48_Erase p count ci child pos) = (count - 1)%nat.
Proof.
  intros n W Hk Hpos Hc. subst n. apply Node48_pos in Hpos as [-> Hne]. unfold Node48_Erase.
  destruct (wf48_remove (count - 1) ci child (Z.to_nat k)) as [W' Hh];
    [by replace (S (count - 1)) with count by lia|lia|done|].
  set (ci' := <[_ := EMPTY_MARKER]> ci) in *. set (child' := <[_ := None]> child) in *.
  assert (Hkey : ∀ b, 0 <= b < 256 → Z.to_nat b ≠ Z.to_nat k ↔ b ≠ k) by lia.
  destruct (Nat.leb_spec (count - 1) 12) as [Hle|Hgt].
  - pose proof (collect16_spec (count - 1) ci' child' W' ltac:(lia)) as Hf.
    destruct (collect16 _ _) as [[c nk] nc]. destruct Hf as (-> & W2 & Hh2).
    split; [|done]. apply updated_intro; [done..|]. apply erase_iff. intros b x Hb.
    cbn [has_child]. rewrite Hh2, <-Hkey by done. split.
    + intros (j & -> & Hj%Hh). by rewrite Nat2Z.id.
    + intros Hj%Hh. exists (Z.to_nat b). split; [lia|done].
  - split; [|done]. apply updated_intro; [done..|]. apply erase_iff. intros b x Hb.
    cbn [has_child]. by rewrite Hh, <-Hkey.
Qed.

Lemma Node256_Erase_spec p count child k pos :
  let n := Node256 p count child in
  Inner_wf n → 0 <= k < 256 → GetChildPos n k = Some pos →
  updated n k None (Node256_Erase p count child pos) ∧
  ArtNode.count (Node256_Erase p count child pos) = (count - 1)%nat.
Proof.
  intros n [Hl Hcount] Hk Hpos. subst n. apply Node256_pos in Hpos as [-> [y Hy]]. unfold Node256_Erase.
  pose proof (countb_insert non_null child (Z.to_nat k) None ltac:(lia)) as Hcb.
  rewrite Hy in Hcb. cbn [non_null] in Hcb.
  assert (Hv : ∀ b x, 0 <= b < 256 →
    <[Z.to_nat k := None]> child !!! Z.to_nat b = Some x ↔ child !!! Z.to_nat b = Some x ∧ b ≠ k).
  { intros b x Hb. rewrite insert_total by lia. destruct (decide (b = k)) as [->|].
    - rewrite decide_True by done. naive_solver.
    - rewrite decide_False by lia. naive_solver. }
  set (child' := <[_ := None]> child) in *.
  assert (Hl' : length child' = 256%nat) by (unfold child'; by rewrite length_insert).
  destruct (Nat.leb_spec (count - 1) 36) as [Hle|Hgt].
  - pose proof (collect48_spec (count - 1) child' Hl' ltac:(lia) ltac:(lia)) as Hf.
    destruct (collect48 _) as [[c nk] nc]. destruct Hf as (-> & W2 & Hh2).
    split; [|done]. apply updated_intro; [done..|]. apply erase_iff. intros b x Hb.
    cbn [has_child]. rewrite Hh2, <-Hv by done. split; [tauto|]. intros ?. split; [lia|done].
  - split; [|done]. apply updated_intro; [done|split; [done|lia]|done|]. apply erase_iff. intros b x Hb.
    cbn [has_child]. by rewrite Hv.
Qed.

(** *** Iteration over the children *)

(** The positions with a child, in the order of [GetNextPos]. *)
Definition used n (pos : nat) : bool :=
  match n with
  | Node4 _ count _ _ | Node16 _ count _ _ => (pos <? count)%nat
  | Node48 _ _ child_index _ => (pos <? 256)%nat && non_empty (child_index !!! pos)
  | Node256 _ _ child => (pos <? 256)%nat && non_null (child !!! pos)
  end.

Definition positions_from n (pos : nat) : list nat := filter (used n) (seq pos (256 - pos)).

(** The byte of a position. *)
Definition key_at n (pos : nat) : Z :=
  match n with
  | Node4 _ _ key _ | Node16 _ _ key _ => key !!! pos
  | Node48 _ _ _ _ | Node256 _ _ _ => Z.of_nat pos
  end.

Lemma count_le_256 n : Inner_wf n → (count n <= 256)%nat.
Proof.
  destruct n as [p m key child|p m key child|p m ci child|p m child]; simpl.
  - intros W. pose proof (sw_count _ _ _ _ W). lia.
  - intros W. pose proof (sw_count _ _ _ _ W). lia.
  - intros [Li _ -> _ _ _]. unfold countb. rewrite length_filter. lia.
  - intros [Hl ->]. unfold countb. rewrite length_filter. lia.
Qed.

Lemma elem_of_positions n a pos :
  Inner_wf n → pos ∈ positions_from n a ↔ (a <= pos)%nat ∧ used n pos = true.
Proof.
  intros W. unfold positions_from. rewrite list_elem_of_filter, elem_of_seq, Is_true_true.
  pose proof (count_le_256 n W). split; [tauto|]. intros [Ha Hu]. split_and!; [done..|].
  destruct n; simpl in *; bools; lia || done.
Qed.

Lemma used_spec n pos :
  Inner_wf n → used n pos = true →
  0 <= key_at n pos < 256 ∧ GetChildPos n (key_at n pos) = Some pos ∧ is_Some (GetChild n pos).
Proof.
  intros W Hu. destruct n as [p m key child|p m key child|p m ci child|p m child];
    cbn [used key_at GetChildPos GetChild Inner_wf] in *.
  1,2: apply Nat.ltb_lt in Hu; destruct (sw_used _ _ _ _ W pos Hu) as [Hb Hc];
    split_and!; [lia|lia| |done]; apply first_pos_Some; split_and!; [lia..|apply Z.eqb_refl|];
    intros j Hj; apply Z.eqb_neq; pose proof (sw_sorted _ _ _ _ W j pos ltac:(lia)); lia.
  - apply andb_true_iff in Hu as [Hlt%Nat.ltb_lt Hne].
    apply negb_true_iff, Nat.eqb_neq in Hne. split_and!; [lia|lia| |by apply W].
    unfold Node48_GetChildPos. rewrite Nat2Z.id. apply Nat.eqb_neq in Hne. by rewrite Hne.
  - apply andb_true_iff in Hu as [Hlt%Nat.ltb_lt Hne].
    unfold Node256_GetChildPos. rewrite Nat2Z.id, Hne. split_and!; [lia|lia|done|].
    by destruct (child !!! pos).
Qed.

Lemma GetChildPos_used n b pos :
  Inner_wf n → 0 <= b < 256 → GetChildPos n b = Some pos → used n pos = true ∧ key_at n pos = b.
Proof.
  intros W Hb Hp. destruct n as [p m key child|p m key child|p m ci child|p m child];
    cbn [used key_at GetChildPos] in *.
  - apply sorted_pos in Hp as [? ?]. by rewrite <-Nat.ltb_lt in *.
  - apply sorted_pos in Hp as [? ?]. by rewrite <-Nat.ltb_lt in *.
  - apply Node48_pos in Hp as [-> Hne]. split; [|lia]. apply andb_true_iff. split.
    + apply Nat.ltb_lt. lia.
    + by apply negb_true_iff, Nat.eqb_neq.
  - apply Node256_pos in Hp as [-> [y Hy]]. split; [|lia]. apply andb_true_iff. split.
    + apply Nat.ltb_lt. lia.
    + by rewrite Hy.
Qed.

Lemma child_at_pos n b c :
  Inner_wf n → 0 <= b < 256 → child_at n b = Some c →
  ∃ pos, GetChildPos n b = Some pos ∧ GetChild n pos = Some c ∧ used n pos = true ∧ key_at n pos = b.
Proof.
  unfold child_at. intros W Hb Hc. destruct (GetChildPos n b) as [pos|] eqn:Hp; [|done].
  exists pos. destruct (GetChildPos_used n b pos) as [? ?]; done.
Qed.

Lemma child_at_none n b :
  Inner_wf n → 0 <= b < 256 → GetChildPos n b = None ↔ child_at n b = None.
Proof.
  unfold child_at. intros W Hb. destruct (GetChildPos n b) as [pos|] eqn:Hp; [|done].
  split; [done|]. intros Hn. simpl in Hn. destruct (GetChildPos_used n b pos) as [Hu _]; [done..|].
  destruct (used_spec n pos) as (_ & _ & [c Hc]); [done..|]. congruence.
Qed.

Lemma key_at_lt n i j :
  Inner_wf n → used n i = true → used n j = true → (i < j)%nat → key_at n i < key_at n j.
Proof.
  intros W Hi Hj Hlt. destruct n as [p m key child|p m key child|p m ci child|p m child];
    cbn [used key_at] in *; try lia; rewrite Nat.ltb_lt in *; apply (sw_sorted _ _ _ _ W); lia.
Qed.

Lemma first_used n (a : nat) :
  positions_from n a = match first_pos (used n) a 256 with
                       | Some q => q :: positions_from n (S q)
                       | None => []
                       end.
Proof.
  unfold positions_from, first_pos. remember (256 - a)%nat as m eqn:Hm.
  revert a Hm. induction m as [|m IH]; intros a Hm; [done|]. cbn [loop_find seq].
  rewrite filter_cons. destruct (used n a) eqn:Hu.
  - rewrite decide_True by done. replace (256 - S a)%nat with m by lia. done.
  - rewrite decide_False by (by intros ?). apply IH. lia.
Qed.

Lemma sorted_next (m : nat) (pos : option nat) :
  (0 < m <= 256)%nat →
  sorted_GetNextPos m pos = first_pos (λ i, (i <? m)%nat) (from_option S 0%nat pos) 256.
Proof.
  intros Hm. symmetry. destruct pos as [i|]; cbn [sorted_GetNextPos from_option].
  - destruct (Nat.ltb_spec (S i) m).
    + apply first_pos_Some. rewrite Nat.ltb_lt. split_and!; [lia..|]. intros j Hj. lia.
    + apply first_pos_None. intros j Hj. apply Nat.ltb_ge. lia.
  - apply first_pos_Some. rewrite Nat.ltb_lt. split_and!; [lia..|]. intros j Hj. lia.
Qed.

Lemma GetNextPos_used n pos :
  Inner_wf n → (0 < count n)%nat →
  GetNextPos n pos = first_pos (used n) (from_option S 0%nat pos) 256.
Proof.
  assert (Hx : ∀ p q a b, (∀ i, (a <= i < b)%nat → p i = q i) → first_pos p a b = first_pos q a b).
  { intros p q a b H. destruct (first_pos q a b) as [i|] eqn:Hq.
    - apply first_pos_Some in Hq as (Hi & Hqi & Hlt). apply first_pos_Some. split_and!; [lia..| |].
      + by rewrite H.
      + intros j Hj. rewrite H by lia. by apply Hlt.
    - rewrite first_pos_None in *. intros j Hj. rewrite H by done. by apply Hq. }
  intros W Hc. pose proof (count_le_256 n W).
  destruct n as [p m key child|p m key child|p m ci child|p m child]; cbn [count GetNextPos used] in *.
  1,2: apply sorted_next; lia.
  - apply Hx. intros i Hi. unfold used. rewrite (proj2 (Nat.ltb_lt i 256)) by lia. reflexivity.
  - apply Hx. intros i Hi. unfold used. rewrite (proj2 (Nat.ltb_lt i 256)) by lia. reflexivity.
Qed.

Lemma GetMin_next n : Inner_wf n → (0 < count n)%nat → GetMin n = GetNextPos n None.
Proof. by destruct n. Qed.

Lemma count_used n : Inner_wf n → (0 < count n)%nat → ∃ pos, used n pos = true.
Proof.
  intros W Hc. destruct n as [p m key child|p m key child|p m ci child|p m child]; cbn [count] in *.
  - exists 0%nat. by apply Nat.ltb_lt.
  - exists 0%nat. by apply Nat.ltb_lt.
  - destruct W as [Li _ -> _ _ _]. destruct (countb_pos _ _ Hc) as (i & Hi & Hp). exists i. simpl.
    rewrite Hp, andb_true_r. apply Nat.ltb_lt. lia.
  - destruct W as [Hl ->]. destruct (countb_pos _ _ Hc) as (i & Hi & Hp). exists i. simpl.
    rewrite Hp, andb_true_r. apply Nat.ltb_lt. lia.
Qed.
End InnerProofs.

(** Induction over the nodes of a tree. *)
Section Induction.
Variable P : Node → Prop.
Hypothesis leaf_case : ∀ p l, P (NLeaf p l).
Hypothesis inner_case : ∀ n, (∀ pos c, GetChild n pos = Some c → P c) → P (NInner n).

Fixpoint Node_ind (n : Node) : P n.
Proof.
  refine (match n with NLeaf p l => leaf_case p l | NInner m => inner_case m _ end).
  refine (match m with
          | Node4 _ _ _ ch | Node16 _ _ _ ch | Node256 _ _ ch => λ pos c, _
          | Node48 _ _ ci ch => λ pos c, _
          end); simpl; [generalize pos|generalize pos|generalize (ci !!! pos)|generalize pos];
    clear pos; (induction ch as [|o ch IH]; intros i; [destruct i; discriminate|]);
    (destruct i as [|i]; [|exact (IH i)]); (destruct o as [x|]; [|discriminate]); simpl;
    intros [= He]; rewrite <-He; exact (Node_ind x).
Defined.
End Induction.
