(* ===== verification/ArtTree.v ===== *)
(** * The radix tree

    Models the point operations of src/src/execution/index/art/art.cpp:
    [Lookup], the recursive [Insert] and [Erase], and the operations on chunks
    ([Insert] with its roll-back, [Delete], [VerifyAppend], [SearchEqual]).
    A read behind the end of a key is [UndefinedBehaviour].  The recursions
    take fuel: every step of a descent reads at least one byte of the key, so
    one step per byte and one for the root are enough.

    The specification is a finite map from keys to lists of row ids.  Theorems:
    for a key that is not a proper prefix of a key of the tree, and of which no
    key of the tree is a proper prefix, each operation returns, reads no byte
    behind a key, keeps the invariant of the tree and is the operation on the
    map; an insertion of a chunk that fails leaves the map as it was.  For
    other keys, which strings with zero bytes have, the insertion reads behind
    the end of a key. *)

From S2P Require Import Prelude Constants Serializer UpdateKinds ArtKey ArtNode.

Definition out_of_fuel : exception := InternalException "out of fuel".

(** [key[i]] *)
Definition byte_at (key : Key) (i : nat) : res Z :=
  match key !! i with
  | Some b => Ok b
  | None => Throw (UndefinedBehaviour "read behind the end of a key")
  end.

(** The loop [for (i = depth; i < leaf_key.len; i++)]; [rest] holds the bytes
    of the leaf key from [i] on. *)
Fixpoint match_from (rest : list Z) (key : Key) (i : nat) : res bool :=
  match rest with
  | [] => Ok true
  | x :: rest => b ← byte_at key i; if x =? b then match_from rest key (S i) else Ok false
  end.

Definition LeafMatches (leaf : Leaf) (key : Key) (depth : nat) : res bool :=
  match_from (drop depth (value leaf)) key depth.

(** [Node::PrefixMismatch]: the loop over [prefix], at position [pos]. *)
Fixpoint mismatch_from (prefix : list Z) (key : Key) (depth pos : nat) : res nat :=
  match prefix with
  | [] => Ok pos
  | x :: prefix =>
    b ← byte_at key (depth + pos)%nat;
    if b =? x then mismatch_from prefix key depth (S pos) else Ok pos
  end.

Definition PrefixMismatch (n : Inner Node) (key : Key) (depth : nat) : res nat :=
  mismatch_from (prefix n) key depth 0.

(** ** Lookup *)

Fixpoint Lookup (fuel : nat) (node : option Node) (key : Key) (depth : nat) : res (option Leaf) :=
  match fuel with
  | O => Throw out_of_fuel
  | S fuel =>
    match node with
    | None => Ok None
    | Some (NLeaf _ leaf) =>
      ok ← LeafMatches leaf key depth; Ok (if (ok : bool) then Some leaf else None)
    | Some (NInner n) =>
      m ← PrefixMismatch n key depth;
      if (m =? length (prefix n))%nat then
        let depth := (depth + length (prefix n))%nat in
        b ← byte_at key depth;
        match GetChildPos n b with
        | None => Ok None
        | Some pos => Lookup fuel (GetChild n pos) key (S depth)
        end
      else Ok None
    end
  end.

(** ** Insertion *)

Section Insertion.
Variable is_unique : bool.

Definition InsertToLeaf (leaf : Leaf) (row_id : Z) : Leaf * bool :=
  if is_unique && negb (num_elements leaf =? 0)%nat then (leaf, false)
  else (Leaf_Insert leaf row_id, true).

(** The test [depth + new_prefix_length == existing_key.len && existing_key.len == key.len] *)
Definition key_ends (existing_key key : Key) (i : nat) : bool :=
  (i =? length existing_key)%nat && (length existing_key =? length key)%nat.

(** The loop that compares the keys from [depth] on: [Some new_prefix_length]
    at the first difference, [None] when the keys are equal. *)
Fixpoint common_prefix (fuel : nat) (existing_key key : Key) (depth new_prefix_length : nat)
  : res (option nat) :=
  match fuel with
  | O => Throw out_of_fuel
  | S fuel =>
    x ← byte_at existing_key (depth + new_prefix_length)%nat;
    y ← byte_at key (depth + new_prefix_length)%nat;
    if x =? y then
      let new_prefix_length := S new_prefix_length in
      if key_ends existing_key key (depth + new_prefix_length) then Ok None
      else common_prefix fuel existing_key key depth new_prefix_length
    else Ok (Some new_prefix_length)
  end.

(** [memcpy(prefix, &key[depth], length)] *)
Definition copy_bytes (key : Key) (depth length : nat) : list Z := take length (drop depth key).

(** A [Node4] with two children. *)
Definition two_children (prefix : list Z) (b1 : Z) (c1 : Node) (b2 : Z) (c2 : Node) : Node :=
  NInner (InsertLeaf (InsertLeaf (Node4_new prefix) b1 c1) b2 c2).

Definition InsertAtLeaf (p : list Z) (leaf : Leaf) (key : Key) (depth : nat) (row_id : Z)
  : res (Node * bool) :=
  let existing_key := value leaf in
  let same := let '(leaf, ok) := InsertToLeaf leaf row_id in Ok (NLeaf p leaf, ok) in
  if key_ends existing_key key depth then same
  else
    r ← common_prefix (S (length existing_key)) existing_key key depth 0;
    match r with
    | None => same
    | Some m =>
      x ← byte_at existing_key (depth + m)%nat;
      y ← byte_at key (depth + m)%nat;
      Ok (two_children (copy_bytes key depth m) x (NLeaf p leaf)
            y (NLeaf [] (Leaf_new key row_id)), true)
    end.

(** The prefix of the node is broken up at [m]. *)
Definition SplitPrefix (n : Inner Node) (m : nat) (key : Key) (depth : nat) (row_id : Z)
  : res (Node * bool) :=
  x ← byte_at (prefix n) m;
  y ← byte_at key (depth + m)%nat;
  Ok (two_children (take m (prefix n)) x (NInner (set_prefix n (drop (S m) (prefix n))))
        y (NLeaf [] (Leaf_new key row_id)), true).

Fixpoint Insert (fuel : nat) (node : option Node) (key : Key) (depth : nat) (row_id : Z)
  : res (Node * bool) :=
  match fuel with
  | O => Throw out_of_fuel
  | S fuel =>
    match node with
    | None => Ok (NLeaf [] (Leaf_new key row_id), true)
    | Some (NLeaf p leaf) => InsertAtLeaf p leaf key depth row_id
    | Some (NInner n) =>
      m ← PrefixMismatch n key depth;
      if (m =? length (prefix n))%nat then
        let depth := (depth + length (prefix n))%nat in
        b ← byte_at key depth;
        match GetChildPos n b with
        | Some pos =>
          '(c, ok) ← Insert fuel (GetChild n pos) key (S depth) row_id;
          Ok (NInner (SetChild n pos (Some c)), ok)
        | None => Ok (NInner (InsertLeaf n b (NLeaf [] (Leaf_new key row_id))), true)
        end
      else SplitPrefix n m key depth row_id
    end
  end.
End Insertion.

(** ** Deletion *)

(** [leaf->Remove(row_id)], and the leaf when row ids are left *)
Definition RemoveFromLeaf (p : list Z) (leaf : Leaf) (row_id : Z) : option Node :=
  let leaf := Leaf_Remove leaf row_id in
  if (num_elements leaf =? 0)%nat then None else Some (NLeaf p leaf).

Fixpoint Erase (fuel : nat) (node : option Node) (key : Key) (depth : nat) (row_id : Z)
  : res (option Node) :=
  match fuel with
  | O => Throw out_of_fuel
  | S fuel =>
    match node with
    | None => Ok None
    | Some (NLeaf p leaf) =>
      ok ← LeafMatches leaf key depth;
      Ok (if (ok : bool) then RemoveFromLeaf p leaf row_id else Some (NLeaf p leaf))
    | Some (NInner n) =>
      m ← PrefixMismatch n key depth;
      if (m =? length (prefix n))%nat then
        let depth := (depth + length (prefix n))%nat in
        b ← byte_at key depth;
        match GetChildPos n b with
        | None => Ok (Some (NInner n))
        | Some pos =>
          let recurse :=
            c ← Erase fuel (GetChild n pos) key (S depth) row_id;
            Ok (Some (NInner (SetChild n pos c))) in
          match GetChild n pos with
          | Some (NLeaf p leaf) =>
            ok ← LeafMatches leaf key depth;
            if (ok : bool) then
              match RemoveFromLeaf p leaf row_id with
              | None => Ok (Node_Erase n pos)
              | Some c => Ok (Some (NInner (SetChild n pos (Some c))))
              end
            else recurse
          | _ => recurse
          end
        end
      else Ok (Some (NInner n))
    end
  end.

(** ** The index *)

Record ART : Type := mkART { tree : option Node; is_unique : bool }.

(** [ART::Insert(lock, input, row_ids)]: the loop over the rows; the result is
    the tree and [failed_index]. *)
Fixpoint insert_rows (is_unique : bool) (t : option Node) (rows : list (option Key * Z)) (i : nat)
  : res (option Node * option nat) :=
  match rows with
  | [] => Ok (t, None)
  | (None, _) :: rows => insert_rows is_unique t rows (S i)
  | (Some key, row_id) :: rows =>
    '(n, ok) ← Insert is_unique (S (length key)) t key 0 row_id;
    if (ok : bool) then insert_rows is_unique (Some n) rows (S i) else Ok (Some n, Some i)
  end.

Fixpoint erase_rows (t : option Node) (rows : list (option Key * Z)) : res (option Node) :=
  match rows with
  | [] => Ok t
  | (None, _) :: rows => erase_rows t rows
  | (Some key, row_id) :: rows =>
    t ← Erase (S (length key)) t key 0 row_id; erase_rows t rows
  end.

Section Chunks.
Variable machine : bool.
Abbreviation GenerateKeys := (GenerateKeys machine (IsLittleEndian machine)).

Definition ART_Insert (art : ART) (input : list column) (row_ids : list Z) : res (ART * bool) :=
  keys ← GenerateKeys input;
  '(t, failed_index) ← insert_rows (is_unique art) (tree art) (zip keys row_ids) 0;
  match failed_index with
  | None => Ok (mkART t (is_unique art), true)
  | Some failed_index =>
    keys ← GenerateKeys input;
    t ← erase_rows t (take failed_index (zip keys row_ids));
    Ok (mkART t (is_unique art), false)
  end.

(** [ART::Delete], from the result of the index expressions on *)
Definition ART_Delete (art : ART) (input : list column) (row_ids : list Z) : res ART :=
  keys ← GenerateKeys input;
  t ← erase_rows (tree art) (zip keys row_ids);
  Ok (mkART t (is_unique art)).

Fixpoint verify_keys (t : option Node) (keys : list (option Key)) : res unit :=
  match keys with
  | [] => Ok tt
  | None :: keys => verify_keys t keys
  | Some key :: keys =>
    r ← Lookup (S (length key)) t key 0;
    match (r : option Leaf) with
    | Some _ => Throw (ConstraintException "duplicate key value violates primary key or unique constraint")
    | None => verify_keys t keys
    end
  end.

(** [ART::VerifyAppend], from the result of the index expressions on *)
Definition VerifyAppend (art : ART) (input : list column) : res unit :=
  if is_unique art then keys ← GenerateKeys input; verify_keys (tree art) keys else Ok tt.

(** The result, and the row ids that are appended to [result_ids]. *)
Definition SearchEqual (art : ART) (type : PhysicalType) (v : cell) (max_count : nat)
  : res (bool * list Z) :=
  key ← CreateKey machine (IsLittleEndian machine) type v;
  leaf ← Lookup (S (length key)) (tree art) key 0;
  match (leaf : option Leaf) with
  | None => Ok (true, [])
  | Some leaf =>
    if (max_count <? num_elements leaf)%nat then Ok (false, [])
    else Ok (true, Leaf_rows leaf)
  end.

(** The new value of [result_size]. *)
Definition SearchEqualJoinNoFetch (art : ART) (type : PhysicalType) (v : cell) (result_size : nat)
  : res nat :=
  key ← CreateKey machine (IsLittleEndian machine) type v;
  leaf ← Lookup (S (length key)) (tree art) key 0;
  Ok (match (leaf : option Leaf) with None => result_size | Some leaf => num_elements leaf end).
End Chunks.

(** ** The leaves of a tree, and its invariant *)

Definition Inner_map {A B : Type} (f : A → B) (n : Inner A) : Inner B :=
  match n with
  | Node4 p c k ch => Node4 p c k (fmap (M := list) (fmap (M := option) f) ch)
  | Node16 p c k ch => Node16 p c k (fmap (M := list) (fmap (M := option) f) ch)
  | Node48 p c ci ch => Node48 p c ci (fmap (M := list) (fmap (M := option) f) ch)
  | Node256 p c ch => Node256 p c (fmap (M := list) (fmap (M := option) f) ch)
  end.

(** The leaves, in the order of the positions of their nodes. *)
Fixpoint leaves (n : Node) : list Leaf :=
  match n with
  | NLeaf _ l => [l]
  | NInner n => mjoin (omap (GetChild (Inner_map leaves n)) (positions_from n 0))
  end.

Lemma GetChild_map {A B} (f : A → B) n pos : GetChild (Inner_map f n) pos = f <$> GetChild n pos.
Proof.
  destruct n; simpl; rewrite !list_lookup_total_alt, list_lookup_fmap;
    match goal with |- context [?l !! ?i] => by destruct (l !! i) as [[]|] end.
Qed.

(** The kinds of nodes are used for these numbers of children. *)
Definition min_count (n : Inner Node) : nat :=
  match n with Node4 _ _ _ _ => 2 | Node16 _ _ _ _ => 4 | Node48 _ _ _ _ => 13 | Node256 _ _ _ => 37 end.

Definition bytes (k : list Z) : Prop := Forall (λ b, 0 <= b < 256) k.

(** A tree below the bytes [path]: the key of every leaf starts with the bytes
    on the way to it, and no leaf is empty. *)
Inductive Node_wf : list Z → Node → Prop :=
| wf_leaf path p l :
    Leaf_wf l → (0 < num_elements l)%nat → bytes (value l) → path `prefix_of` value l →
    Node_wf path (NLeaf p l)
| wf_inner path n :
    Inner_wf n → (min_count n <= count n)%nat → bytes (prefix n) →
    (∀ b c, 0 <= b < 256 → child_at n b = Some c → Node_wf (path ++ prefix n ++ [b]) c) →
    Node_wf path (NInner n).

Lemma elem_of_leaves n l :
  Inner_wf n →
  l ∈ leaves (NInner n) ↔ ∃ b c, 0 <= b < 256 ∧ child_at n b = Some c ∧ l ∈ leaves c.
Proof.
  intros W. simpl. rewrite list_elem_of_join. split.
  - intros (ls & Hl & Hls). apply list_elem_of_omap in Hls as (pos & Hp & Hg).
    apply elem_of_positions in Hp as [_ Hu]; [|done].
    rewrite GetChild_map in Hg. destruct (GetChild n pos) as [c|] eqn:Hc; simplify_eq/=.
    destruct (used_spec n pos W Hu) as (Hb & Hpos & _).
    exists (key_at n pos), c. split_and!; [lia|lia| |done]. unfold child_at. by rewrite Hpos.
  - intros (b & c & Hb & Hc & Hl).
    destruct (child_at_pos n b c W Hb Hc) as (pos & Hp & Hg & Hu & Hk).
    exists (leaves c). split; [done|]. apply list_elem_of_omap. exists pos. split.
    + apply elem_of_positions; [done|]. split; [lia|done].
    + by rewrite GetChild_map, Hg.
Qed.

Lemma wf_leaf_key path n l :
  Node_wf path n → l ∈ leaves n → path `prefix_of` value l ∧ bytes (value l) ∧ Leaf_wf l ∧
  (0 < num_elements l)%nat.
Proof.
  induction 1 as [path p l' Hl Hn Hb Hp|path n W Hc Hb _ IH]; intros Hin.
  - simpl in Hin. apply list_elem_of_singleton in Hin as ->. done.
  - apply elem_of_leaves in Hin as (b & c & Hbb & Hca & Hin); [|done].
    destruct (IH b c Hbb Hca Hin) as (Hp & ?). split; [|done].
    etrans; [|exact Hp]. by apply prefix_app_r.
Qed.

Lemma min_count_pos n : (2 <= min_count n)%nat.
Proof. destruct n; simpl; lia. Qed.

Lemma wf_has_leaf path n : Node_wf path n → ∃ l, l ∈ leaves n.
Proof.
  induction 1 as [path p l' Hl Hn Hb Hp|path n W Hc Hb _ IH].
  - exists l'. by left.
  - pose proof (min_count_pos n). destruct (count_used n W ltac:(lia)) as [pos Hu].
    destruct (used_spec n pos W Hu) as (Hk & Hpos & [c Hg]).
    assert (Hca : child_at n (key_at n pos) = Some c) by (unfold child_at; by rewrite Hpos).
    destruct (IH _ _ Hk Hca) as [l Hl]. exists l. apply elem_of_leaves; [done|]. eauto.
Qed.

(** ** The loops over keys *)

Lemma apart_cons x k y l : apart (x :: k) (y :: l) ↔ x ≠ y ∨ (x = y ∧ apart k l).
Proof.
  unfold apart. simpl. destruct (Z.eqb_spec x y) as [->|Hne].
  - split; [intros [[= ->]|?]; right; split; [done|by left|done|by right]|].
    intros [?|[_ [->|?]]]; [done|by left|by right].
  - split; [by left|]. intros _. right. by eexists.
Qed.

Lemma apart_nil_l l : apart [] l → l = [].
Proof. intros [H|[? H]]; [done|]. by destruct l. Qed.

Lemma apart_app_same p k l : apart (p ++ k) (p ++ l) ↔ apart k l.
Proof.
  induction p as [|x p IH]; [done|]. simpl. rewrite apart_cons. naive_solver.
Qed.

Lemma byte_at_drop key i y k : drop i key = y :: k → byte_at key i = Ok y ∧ drop (S i) key = k.
Proof.
  intros H. assert (Hl : key !! i = Some y) by (rewrite <-(Nat.add_0_r i), <-lookup_drop; by rewrite H).
  unfold byte_at. rewrite Hl. split; [done|].
  rewrite (drop_S _ _ _ Hl) in H. congruence.
Qed.

Lemma match_from_spec rest key i k :
  drop i key = k → apart k rest → match_from rest key i = Ok (bool_decide (k = rest)).
Proof.
  revert i k. induction rest as [|x rest IH]; intros i k Hk Hs.
  { apply apart_sym, apart_nil_l in Hs as ->. done. }
  destruct k as [|y k]; [by apply apart_nil_l in Hs|].
  destruct (byte_at_drop _ _ _ _ Hk) as [Hb Hd]. simpl. rewrite Hb. simpl.
  apply apart_cons in Hs. destruct (Z.eqb_spec x y) as [->|Hne].
  - rewrite (IH _ k Hd) by naive_solver. f_equal. apply bool_decide_ext. naive_solver.
  - rewrite bool_decide_false by naive_solver. done.
Qed.

(** The prefix of a node below which there is a key [w], compared with a key. *)
Lemma mismatch_from_spec p key depth pos k w :
  drop (depth + pos)%nat key = k → apart k (p ++ w) → w ≠ [] →
  ∃ m y k', mismatch_from p key depth pos = Ok (pos + m)%nat ∧ (m <= length p)%nat ∧
    k = take m p ++ y :: k' ∧ ((m < length p)%nat → p !! m ≠ Some y).
Proof.
  revert pos k. induction p as [|x p IH]; intros pos k Hk Hs Hw.
  - destruct k as [|y k']; [by apply apart_nil_l in Hs|].
    exists 0%nat, y, k'. simpl. rewrite Nat.add_0_r. split_and!; [done|lia|done|lia].
  - destruct k as [|y k]; [by apply apart_nil_l in Hs|].
    destruct (byte_at_drop _ _ _ _ Hk) as [Hb Hd]. simpl in Hs |- *. rewrite Hb. simpl.
    apply apart_cons in Hs. destruct (Z.eqb_spec y x) as [->|Hne].
    + destruct (IH (S pos) k) as (m & y' & k' & He & Hm & Hk' & Hne).
      { by rewrite Nat.add_succ_r. }
      { naive_solver. }
      { done. }
      exists (S m), y', k'. split_and!; [by rewrite He; f_equal; lia|lia|simpl; by f_equal|].
      intros Hlt. apply Hne. lia.
    + exists 0%nat, y, k. split_and!; [by rewrite Nat.add_0_r|lia|done|]. intros _ [= ->]. done.
Qed.

(** Two different keys with the suffixes [e] and [k]. *)
Lemma common_prefix_spec fuel existing key depth pos e k :
  drop (depth + pos)%nat existing = e → drop (depth + pos)%nat key = k →
  apart k e → k ≠ e → (length e < fuel)%nat →
  ∃ q x r y s, common_prefix fuel existing key depth pos = Ok (Some (pos + length q)%nat) ∧
    e = q ++ x :: r ∧ k = q ++ y :: s ∧ x ≠ y.
Proof.
  revert pos e k. induction fuel as [|fuel IH]; intros pos e k He Hk Hs Hne Hf; [lia|].
  destruct k as [|y k]; [by apply apart_nil_l in Hs; congruence|].
  destruct e as [|x e]; [by apply apart_sym, apart_nil_l in Hs|].
  destruct (byte_at_drop _ _ _ _ He) as [Hx He']. destruct (byte_at_drop _ _ _ _ Hk) as [Hy Hk'].
  simpl. rewrite Hx. simpl. rewrite Hy. simpl. apply apart_cons in Hs.
  destruct (Z.eqb_spec x y) as [->|Hxy].
  - assert (k ≠ e) by congruence.
    replace (key_ends existing key (depth + S pos)) with false.
    + destruct (IH (S pos) e k) as (q & x' & r & y' & s & Hc & -> & -> & Hn);
        [by rewrite Nat.add_succ_r..|naive_solver|done|simpl in Hf; lia|].
      exists (y :: q), x', r, y', s. split_and!; [|done..]. rewrite Hc. do 2 f_equal. simpl. lia.
    + symmetry. unfold key_ends. apply andb_false_iff.
      destruct (Nat.eqb_spec (depth + S pos) (length existing)) as [Hl|]; [right|by left].
      apply Nat.eqb_neq. intros Hll.
      rewrite Nat.add_succ_r in Hl. rewrite Hl, drop_all in He'.
      rewrite Hl, Hll, drop_all in Hk'. congruence.
  - exists [], x, e, y, k. rewrite Nat.add_0_r. done.
Qed.

Lemma common_prefix_same fuel key depth pos k :
  drop (depth + pos)%nat key = k → k ≠ [] → (length k < fuel)%nat →
  common_prefix fuel key key depth pos = Ok None.
Proof.
  revert pos k. induction fuel as [|fuel IH]; intros pos k Hk Hne Hf; [lia|].
  destruct k as [|y k]; [done|]. destruct (byte_at_drop _ _ _ _ Hk) as [Hy Hk'].
  simpl. rewrite Hy. simpl. rewrite Z.eqb_refl.
  destruct (key_ends key key (depth + S pos)) eqn:Hends; [done|].
  apply (IH (S pos) k); [by rewrite Nat.add_succ_r| |simpl in Hf; lia].
  intros ->. rewrite Nat.add_succ_r in Hends. unfold key_ends in Hends.
  rewrite Nat.eqb_refl, andb_true_r in Hends. apply Nat.eqb_neq in Hends.
  assert (length (drop (depth + pos) key) = 1%nat) as Hl by (by rewrite Hk).
  rewrite length_drop in Hl. lia.
Qed.

(** ** Lookup: proof *)

(** Every key of the tree is the key, or is different from it at some byte. *)
Definition apart_from (key : Key) (ls : list Leaf) : Prop :=
  ∀ l, l ∈ ls → apart key (value l).

(** The prefix of an inner node against a key that has the path of the node:
    either they part at some byte, or the key has another byte. *)
Lemma PrefixMismatch_spec path n key :
  Node_wf path (NInner n) → path `prefix_of` key → apart_from key (leaves (NInner n)) →
  ∃ m y k', PrefixMismatch n key (length path) = Ok m ∧ (m <= length (prefix n))%nat ∧
    key = path ++ take m (prefix n) ++ y :: k' ∧ ((m < length (prefix n))%nat → prefix n !! m ≠ Some y).
Proof.
  intros W [k ->] Hs. destruct (wf_has_leaf _ _ W) as [l Hl].
  inversion W as [|? ? Wn Hmin Hb Hc]; subst.
  pose proof (Hs l Hl) as Hsl. apply elem_of_leaves in Hl as (b & c & Hbb & Hca & Hl); [|done].
  destruct (wf_leaf_key _ _ _ (Hc b c Hbb Hca) Hl) as [[w Hw] _].
  rewrite Hw, <-!app_assoc in Hsl. rewrite apart_app_same in Hsl.
  destruct (mismatch_from_spec (prefix n) (path ++ k) (length path) 0 k ([b] ++ w))
    as (m & y & k' & He & Hm & Hk & Hne);
    [by rewrite Nat.add_0_r, drop_app_length|done|done|].
  exists m, y, k'. split_and!; [exact He|done|by rewrite Hk|done].
Qed.

Lemma LeafMatches_spec path leaf key :
  path `prefix_of` value leaf → path `prefix_of` key → apart key (value leaf) →
  LeafMatches leaf key (length path) = Ok (bool_decide (key = value leaf)).
Proof.
  intros [v Hv] [k ->] Hs. unfold LeafMatches. rewrite Hv in *.
  rewrite apart_app_same in Hs. rewrite drop_app_length.
  rewrite (match_from_spec v _ _ k) by (by rewrite ?drop_app_length).
  f_equal. apply bool_decide_ext. split; [by intros ->|]. apply app_inj_1. done.
Qed.

Lemma byte_at_app p y k : byte_at (p ++ y :: k) (length p) = Ok y.
Proof. unfold byte_at. by rewrite list_lookup_middle. Qed.

(** The leaves of the other children of a node. *)
Definition other_leaf (n : Inner Node) (b : Z) (l : Leaf) : Prop :=
  ∃ b' c, 0 <= b' < 256 ∧ b' ≠ b ∧ child_at n b' = Some c ∧ l ∈ leaves c.

Lemma leaves_split n b c l :
  Inner_wf n → 0 <= b < 256 → child_at n b = Some c →
  l ∈ leaves (NInner n) ↔ l ∈ leaves c ∨ other_leaf n b l.
Proof.
  intros W Hb Hc. rewrite elem_of_leaves by done. split.
  - intros (b' & c' & Hb' & Hc' & Hl). destruct (decide (b' = b)) as [->|].
    + left. congruence.
    + right. exists b', c'. done.
  - intros [Hl|(b' & c' & Hb' & _ & Hc' & Hl)]; eauto.
Qed.

Lemma leaves_other n b l :
  Inner_wf n → 0 <= b < 256 → child_at n b = None → l ∈ leaves (NInner n) ↔ other_leaf n b l.
Proof.
  intros W Hb Hc. rewrite elem_of_leaves by done. split.
  - intros (b' & c' & Hb' & Hc' & Hl). exists b', c'. split_and!; [lia..|congruence|done|done].
  - intros (b' & c' & Hb' & _ & Hc' & Hl). eauto.
Qed.

(** The leaves of the other children have other keys. *)
Lemma other_leaf_key path n b k' l :
  Node_wf path (NInner n) → other_leaf n b l → value l ≠ (path ++ prefix n) ++ b :: k'.
Proof.
  intros W (b' & c & Hb' & Hne & Hca & Hl) Hv. inversion W as [|? ? Wn Hmin Hb Hc]; subst.
  destruct (wf_leaf_key _ _ _ (Hc b' c Hb' Hca) Hl) as [[w Hw] _].
  rewrite Hw, app_assoc, <-!app_assoc in Hv. do 2 apply app_inv_head in Hv.
  simpl in Hv. congruence.
Qed.

Lemma apart_child n key b c :
  Inner_wf n → 0 <= b < 256 → child_at n b = Some c →
  apart_from key (leaves (NInner n)) → apart_from key (leaves c).
Proof. intros W Hb Hc Hs l Hl. apply Hs. apply elem_of_leaves; [done|]. eauto. Qed.

Lemma GetChild_at (n : Inner Node) b pos :
  Inner_wf n → 0 <= b < 256 → GetChildPos n b = Some pos →
  ∃ c, GetChild n pos = Some c ∧ child_at n b = Some c.
Proof.
  intros W Hb Hp. destruct (GetChildPos_used n b pos W Hb Hp) as [Hu _].
  destruct (used_spec n pos W Hu) as (_ & _ & [c Hc]). exists c. split; [done|].
  unfold child_at. by rewrite Hp.
Qed.

Lemma bytes_mid p y k : bytes (p ++ y :: k) → 0 <= y < 256.
Proof. unfold bytes. rewrite Forall_app, Forall_cons. tauto. Qed.

(** The way of a key at an inner node, by the result of [PrefixMismatch]: it
    parts from the prefix, or it goes on to the child for the next byte. *)
Inductive descent (path : list Z) (n : Inner Node) (key : Key) : nat → Prop :=
| parts m y k' :
    (m < length (prefix n))%nat → key = path ++ take m (prefix n) ++ y :: k' →
    prefix n !! m ≠ Some y → (∀ l, l ∈ leaves (NInner n) → value l ≠ key) →
    descent path n key m
| goes_on y k' :
    key = (path ++ prefix n) ++ y :: k' → 0 <= y < 256 →
    byte_at key (length path + length (prefix n)) = Ok y →
    path ++ prefix n ++ [y] `prefix_of` key → (∀ l, other_leaf n y l → value l ≠ key) →
    descent path n key (length (prefix n)).

Lemma descend path n key :
  Node_wf path (NInner n) → bytes key → path `prefix_of` key →
  apart_from key (leaves (NInner n)) →
  ∃ m, PrefixMismatch n key (length path) = Ok m ∧ descent path n key m.
Proof.
  intros W Hbk Hp Hs. inversion W as [|? ? Wn Hmin Hb Hc]; subst path0 n0.
  destruct (PrefixMismatch_spec path n key W Hp Hs) as (m & y & k' & Hm & Hle & Hk & Hne).
  exists m. split; [done|]. destruct (decide (m = length (prefix n))) as [->|Hlt].
  - rewrite take_ge, app_assoc in Hk by done. apply (goes_on _ _ _ y k').
    + done.
    + rewrite Hk in Hbk. by eapply bytes_mid.
    + rewrite <-length_app, Hk. apply byte_at_app.
    + exists k'. by rewrite Hk, <-!app_assoc.
    + intros l Hl. rewrite Hk. by eapply other_leaf_key.
  - apply (parts _ _ _ m y k'); [lia|done|apply Hne; lia|]. intros l Hl Hv.
    apply elem_of_leaves in Hl as (b & c & Hbb & Hca & Hl); [|done].
    destruct (wf_leaf_key _ _ _ (Hc b c Hbb Hca) Hl) as [[w Hw] _].
    rewrite Hv, Hk, <-!app_assoc in Hw. apply app_inv_head in Hw.
    apply Hne; [lia|]. apply (f_equal (lookup m)) in Hw.
    rewrite list_lookup_middle in Hw by (rewrite length_take; lia).
    rewrite lookup_app_l in Hw by lia. done.
Qed.

(** The fuel that is left is enough for the child. *)
Lemma descent_fuel (path : list Z) (n : Inner Node) (key : Key) y k' fuel :
  key = (path ++ prefix n) ++ y :: k' → (length key - length path < S fuel)%nat →
  (length key - length (path ++ prefix n ++ [y]) < fuel)%nat.
Proof. intros -> Hf. rewrite !length_app in *. simpl in *. lia. Qed.

Lemma descent_depth (path : list Z) (n : Inner Node) y :
  S (length path + length (prefix n)) = length (path ++ prefix n ++ [y]).
Proof. rewrite !length_app. simpl. lia. Qed.

Lemma Lookup_spec fuel path n key :
  Node_wf path n → bytes key → path `prefix_of` key → apart_from key (leaves n) →
  (length key - length path < fuel)%nat →
  ∃ r, Lookup fuel (Some n) key (length path) = Ok r ∧
    match r with
    | Some l => l ∈ leaves n ∧ value l = key
    | None => ∀ l, l ∈ leaves n → value l ≠ key
    end.
Proof.
  revert path n. induction fuel as [|fuel IH]; intros path n W Hbk Hp Hs Hf; [lia|].
  destruct n as [p leaf|n].
  { destruct (wf_leaf_key _ _ leaf W ltac:(by left)) as [Hpl _].
    assert (Hsl : apart key (value leaf)) by (apply Hs; by left). simpl.
    rewrite LeafMatches_spec by done. eexists. split; [done|].
    case_bool_decide as He; [split; [by left|done]|]. intros l Hl%list_elem_of_singleton. by subst. }
  inversion W as [|? ? Wn Hmin Hb Hc]; subst path0 n0. cbn [Lookup].
  destruct (descend path n key W Hbk Hp Hs) as (m0 & -> & [m y k' Hlt Hk Hne Hno|y k' Hk Hy Hby Hpk Ho]);
    cbn [mbind res_bind].
  { rewrite (proj2 (Nat.eqb_neq _ _)) by lia. by exists None. }
  rewrite Nat.eqb_refl, Hby. cbn [mbind res_bind].
  destruct (GetChildPos n y) as [pos|] eqn:Hpos.
  - destruct (GetChild_at n y pos Wn Hy Hpos) as (c & -> & Hca). rewrite (descent_depth _ _ y).
    destruct (IH (path ++ prefix n ++ [y]) c) as (r & -> & Hr);
      [by apply Hc|done|done|by eapply apart_child|by eapply descent_fuel|].
    exists r. split; [done|]. pose proof (λ l, leaves_split n y c l Wn Hy Hca) as Hsp.
    destruct r as [l|]; [rewrite Hsp; tauto|]. intros l [Hl|Hl]%Hsp; [by apply Hr|by apply Ho].
  - apply child_at_none in Hpos; [|done..]. exists None. split; [done|]. intros l Hl. apply Ho.
    by apply (leaves_other n y).
Qed.

(** ** Changes of one child *)

Lemma set_prefix_wf n q : Inner_wf (set_prefix n q) ↔ Inner_wf (A := Node) n.
Proof. by destruct n. Qed.
Lemma set_prefix_child n q b : child_at (set_prefix n q) b = child_at (A := Node) n b.
Proof. by destruct n. Qed.
Lemma set_prefix_leaves n q : leaves (NInner (set_prefix n q)) = leaves (NInner n).
Proof. by destruct n. Qed.
Lemma prefix_set_prefix (n : Inner Node) q : prefix (set_prefix n q) = q.
Proof. by destruct n. Qed.

(** The path of a node and its prefix can be divided at another place. *)
Lemma wf_set_prefix path n path' q :
  Node_wf path (NInner n) → path' ++ q = path ++ prefix n → bytes q →
  Node_wf path' (NInner (set_prefix n q)).
Proof.
  intros W He Hq. inversion W as [|? ? Wn Hmin Hb Hc]; subst. constructor.
  - by apply set_prefix_wf.
  - by destruct n.
  - by rewrite prefix_set_prefix.
  - intros b c Hbb. rewrite set_prefix_child, prefix_set_prefix. intros Hca.
    rewrite app_assoc, He, <-app_assoc. by apply Hc.
Qed.

(** A node with another child for the byte [b]. *)
Lemma wf_updated path n b c n' :
  Node_wf path (NInner n) → 0 <= b < 256 → updated n b (Some c) n' →
  (min_count n' <= count n')%nat → Node_wf (path ++ prefix n ++ [b]) c →
  Node_wf path (NInner n') ∧ ∀ l, l ∈ leaves (NInner n') ↔ l ∈ leaves c ∨ other_leaf n b l.
Proof.
  intros W Hb (W' & Hp & Hch) Hmin Wc. inversion W as [|? ? Wn _ Hpb Hc]; subst. split.
  - constructor; [done..|by rewrite Hp|]. intros b' c' Hb'. rewrite Hch, Hp by done.
    case_decide; [by intros [= <-]; subst|]. by apply Hc.
  - intros l. rewrite (leaves_split n' b c) by (done || rewrite Hch, decide_True by done; done).
    split; (intros [?|(b' & c' & Hb' & Hne & Hc' & Hl)]; [by left|right; exists b', c']);
      rewrite Hch, decide_False in * by done; done.
Qed.

Lemma InsertLeaf_min n k c :
  Inner_wf n → (min_count n <= count n)%nat →
  (min_count (InsertLeaf n k c) <= count (InsertLeaf n k c))%nat.
Proof.
  intros W. destruct n as [p m key child|p m key child|p m ci child|p m child]; simpl; intros Hm.
  - pose proof (sw_count _ _ _ _ W). unfold Node4_Insert. destruct (Nat.ltb_spec m 4).
    + destruct (sorted_Insert _ _ _ _ _). simpl. lia.
    + destruct (for_ _ _ _ _). unfold Node16_Insert. simpl Nat.ltb. cbv iota.
      destruct (sorted_Insert _ _ _ _ _). simpl. lia.
  - pose proof (sw_count _ _ _ _ W). unfold Node16_Insert. destruct (Nat.ltb_spec m 16).
    + destruct (sorted_Insert _ _ _ _ _). simpl. lia.
    + destruct (for_ _ _ _ _). unfold Node48_Insert. destruct (Nat.ltb_spec m 48); simpl; lia.
  - unfold Node48_Insert. destruct (Nat.ltb_spec m 48); simpl; lia.
  - lia.
Qed.

Lemma InsertLeaf_Node4 p m key child k (c : Node) :
  (m < 4)%nat → ∃ key' child', InsertLeaf (Node4 p m key child) k c = Node4 p (S m) key' child'.
Proof.
  intros Hm. simpl. unfold Node4_Insert. rewrite (proj2 (Nat.ltb_lt m 4)) by done.
  destruct (sorted_Insert _ _ _ _ _) as [k' ch']. by exists k', ch'.
Qed.

Lemma two_children_spec path p b1 c1 b2 c2 :
  bytes p → 0 <= b1 < 256 → 0 <= b2 < 256 → b1 ≠ b2 →
  Node_wf (path ++ p ++ [b1]) c1 → Node_wf (path ++ p ++ [b2]) c2 →
  Node_wf path (two_children p b1 c1 b2 c2) ∧
  ∀ l, l ∈ leaves (two_children p b1 c1 b2 c2) ↔ l ∈ leaves c1 ∨ l ∈ leaves c2.
Proof.
  intros Hp Hb1 Hb2 Hne W1 W2.
  assert (W0 : Inner_wf (Node4_new (A := Node) p)) by apply sorted_init.
  assert (H0 : ∀ b, child_at (Node4_new (A := Node) p) b = None) by done.
  destruct (InsertLeaf_spec _ b1 c1 W0 Hb1 (H0 b1)) as [(Wa & Pa & Ca) Na].
  destruct (InsertLeaf_spec _ b2 c2 Wa Hb2) as [(Wb & Pb & Cb) Nb].
  { rewrite Ca, decide_False by done. apply H0. }
  assert (Hch : ∀ b, 0 <= b < 256 →
    child_at (InsertLeaf (InsertLeaf (Node4_new p) b1 c1) b2 c2) b =
      if decide (b = b2) then Some c2 else if decide (b = b1) then Some c1 else None).
  { intros b Hb. by rewrite Cb, Ca by done. }
  split.
  - constructor; [done| |by rewrite Pb, Pa|].
    + unfold Node4_new. destruct (InsertLeaf_Node4 p 0 (replicate 4 0) (replicate 4 None) b1 c1)
        as (k1 & ch1 & ->); [lia|].
      destruct (InsertLeaf_Node4 p 1 k1 ch1 b2 c2) as (k2 & ch2 & ->); [lia|]. simpl. lia.
    + intros b c Hb. rewrite Hch, Pb, Pa by done. simpl prefix.
      repeat case_decide; subst; intros [= <-]; done.
  - intros l. unfold two_children. rewrite elem_of_leaves by done. split.
    + intros (b & c & Hb & Hc & Hl). rewrite Hch in Hc by done.
      repeat case_decide; simplify_eq; eauto.
    + intros [Hl|Hl]; [exists b1, c1|exists b2, c2]; (split; [done|]); rewrite Hch by done;
        repeat case_decide; subst; done.
Qed.

(** ** Insertion: proof *)

Section InsertProof.
Variable is_unique : bool.

(** The leaf of the key after the insertion of a row id. *)
Definition new_leaf (ls : list Leaf) (key : Key) (row_id : Z) (l' : Leaf) : Prop :=
  (l' = Leaf_new key row_id ∧ ∀ l, l ∈ ls → value l ≠ key) ∨
  (is_unique = false ∧ ∃ l, l ∈ ls ∧ value l = key ∧ l' = Leaf_Insert l row_id).

Definition Insert_post (ls ls' : list Leaf) (key : Key) (row_id : Z) (ok : bool) : Prop :=
  if ok then ∃ l', new_leaf ls key row_id l' ∧ value l' = key ∧
    ∀ l, l ∈ ls' ↔ (l ∈ ls ∧ value l ≠ key) ∨ l = l'
  else is_unique = true ∧ (∃ l, l ∈ ls ∧ value l = key) ∧ ∀ l, l ∈ ls' ↔ l ∈ ls.

Lemma wf_new_leaf path key row_id :
  bytes key → path `prefix_of` key → Node_wf path (NLeaf [] (Leaf_new key row_id)).
Proof. intros Hb Hp. constructor; [apply Leaf_new_spec|simpl; lia|done|done]. Qed.

(** A new leaf beside leaves that all have other keys. *)
Lemma Insert_post_fresh ls ls' key row_id :
  (∀ l, l ∈ ls → value l ≠ key) → (∀ l, l ∈ ls' ↔ l ∈ ls ∨ l = Leaf_new key row_id) →
  Insert_post ls ls' key row_id true.
Proof.
  intros Hn Hls. exists (Leaf_new key row_id). split_and!; [by left|done|].
  intros l. rewrite Hls. split; [intros [Hl| ->]; [left; split; [done|by apply Hn]|by right]|].
  intros [[Hl _]| ->]; auto.
Qed.

Lemma InsertToLeaf_spec path p leaf key row_id :
  Node_wf path (NLeaf p leaf) → value leaf = key →
  let '(leaf', ok) := InsertToLeaf is_unique leaf row_id in
  Node_wf path (NLeaf p leaf') ∧
  Insert_post (leaves (NLeaf p leaf)) (leaves (NLeaf p leaf')) key row_id ok.
Proof.
  intros W Hv. inversion W as [? ? ? Wl Hn Hb Hp|]; subst. unfold InsertToLeaf.
  replace (num_elements leaf =? 0)%nat with false by (symmetry; apply Nat.eqb_neq; lia).
  destruct is_unique eqn:Hu; simpl.
  - split; [done|]. split_and!; [done|exists leaf; split; [by left|done]|done].
  - destruct (Leaf_Insert_spec leaf row_id Wl) as (W' & Hv' & _). split.
    + constructor; [done| |by rewrite Hv'..]. unfold Leaf_Insert.
      destruct (num_elements leaf =? capacity leaf)%nat; simpl; lia.
    + exists (Leaf_Insert leaf row_id). split_and!; [|done|].
      * right. split; [done|]. exists leaf. split_and!; [by left|done..].
      * intros l. rewrite !list_elem_of_singleton. naive_solver.
Qed.

Lemma InsertAtLeaf_spec path p leaf key row_id :
  Node_wf path (NLeaf p leaf) → bytes key → path `prefix_of` key → apart key (value leaf) →
  ∃ n' ok, InsertAtLeaf is_unique p leaf key (length path) row_id = Ok (n', ok) ∧
    Node_wf path n' ∧ Insert_post (leaves (NLeaf p leaf)) (leaves n') key row_id ok.
Proof.
  intros W Hbk [k ->] Hs. inversion W as [? ? ? Wl Hn Hb [e He]|]; subst path0 p0 l.
  unfold InsertAtLeaf. destruct (decide (value leaf = path ++ k)) as [Heq|Hne].
  - pose proof (InsertToLeaf_spec path p leaf (path ++ k) row_id W Heq) as HI.
    destruct (InsertToLeaf is_unique leaf row_id) as [leaf' ok]. rewrite Heq.
    destruct (key_ends _ _ _) eqn:Hends; [by exists (NLeaf p leaf'), ok|].
    rewrite (common_prefix_same _ _ _ _ k); [by exists (NLeaf p leaf'), ok|..].
    + by rewrite Nat.add_0_r, drop_app_length.
    + intros ->. unfold key_ends in Hends. rewrite app_nil_r, !Nat.eqb_refl in Hends. done.
    + rewrite length_app. lia.
  - assert (Hke : k ≠ e) by congruence. rewrite He in Hs.
    rewrite apart_app_same in Hs. replace (key_ends _ _ _) with false.
    + destruct (common_prefix_spec (S (length (value leaf))) (value leaf) (path ++ k) (length path) 0 e k)
        as (q & x & r & y & s & Hc & -> & -> & Hxy);
        [by rewrite He, Nat.add_0_r, drop_app_length|by rewrite Nat.add_0_r, drop_app_length|done|done|
         rewrite He, length_app; lia|].
      rewrite Hc. cbn [mbind res_bind Nat.add]. rewrite He, !app_assoc.
      rewrite <-length_app, !byte_at_app. cbn [mbind res_bind].
      unfold copy_bytes. rewrite <-!app_assoc, drop_app_length, take_app_length.
      destruct (two_children_spec path q x (NLeaf p leaf) y (NLeaf [] (Leaf_new (path ++ q ++ y :: s) row_id)))
        as [W' Hls]; [| | |done| | |].
      { unfold bytes in *. rewrite !Forall_app in Hbk. tauto. }
      { rewrite He, app_assoc in Hb. by eapply bytes_mid. }
      { rewrite app_assoc in Hbk. by eapply bytes_mid. }
      { constructor; [done..|]. exists r. by rewrite He, <-!app_assoc. }
      { apply wf_new_leaf; [done|]. exists s. by rewrite <-!app_assoc. }
      eexists _, true. split_and!; [done|exact W'|]. apply Insert_post_fresh.
      * intros l Hl%list_elem_of_singleton. by subst.
      * intros l. rewrite Hls. simpl. by rewrite !list_elem_of_singleton.
    + symmetry. unfold key_ends. apply andb_false_iff.
      destruct (Nat.eqb_spec (length path) (length (value leaf))) as [Hl|]; [right|by left].
      apply Nat.eqb_neq. rewrite <-Hl, length_app. rewrite He, length_app in Hl.
      intros Hlk. assert (e = []) as -> by (apply nil_length_inv; lia).
      apply Hke, nil_length_inv. lia.
Qed.

Lemma SplitPrefix_spec path n key row_id m y k' :
  Node_wf path (NInner n) → bytes key → (m < length (prefix n))%nat →
  key = path ++ take m (prefix n) ++ y :: k' → prefix n !! m ≠ Some y →
  (∀ l, l ∈ leaves (NInner n) → value l ≠ key) →
  ∃ n', SplitPrefix n m key (length path) row_id = Ok (n', true) ∧
    Node_wf path n' ∧ Insert_post (leaves (NInner n)) (leaves n') key row_id true.
Proof.
  intros W Hbk Hm Hk Hne Hno. inversion W as [|? ? Wn Hmin Hb Hc]; subst path0 n0.
  destruct (lookup_lt_is_Some_2 (prefix n) m Hm) as [x Hx].
  assert (Hsplit : prefix n = take m (prefix n) ++ x :: drop (S m) (prefix n))
    by (by rewrite take_drop_middle).
  assert (Hbx : byte_at (prefix n) m = Ok x) by (unfold byte_at; by rewrite Hx).
  unfold SplitPrefix. rewrite Hbx. cbn [mbind res_bind].
  assert (Hy : byte_at key (length path + m) = Ok y).
  { rewrite Hk, app_assoc. replace (length path + m)%nat with (length (path ++ take m (prefix n)))
      by (rewrite length_app, length_take; lia). apply byte_at_app. }
  rewrite Hy. cbn [mbind res_bind].
  assert (Hbt : bytes (take m (prefix n)) ∧ bytes (drop (S m) (prefix n)))
    by (split; by (apply Forall_take || apply Forall_drop)).
  edestruct (two_children_spec path (take m (prefix n)) x
    (NInner (set_prefix n (drop (S m) (prefix n)))) y (NLeaf [] (Leaf_new key row_id)))
    as [W' Hls]; [apply Hbt|..].
  { rewrite Hsplit in Hb. by eapply bytes_mid. }
  { rewrite Hk, app_assoc in Hbk. by eapply bytes_mid. }
  { congruence. }
  { eapply wf_set_prefix; [done| |apply Hbt]. rewrite <-!app_assoc. f_equal. by symmetry. }
  { apply wf_new_leaf; [done|]. exists k'. by rewrite Hk, <-!app_assoc. }
  eexists. split_and!; [done|exact W'|]. apply Insert_post_fresh; [done|].
  intros l. rewrite Hls, set_prefix_leaves. simpl. by rewrite list_elem_of_singleton.
Qed.

Lemma SetChild_min n pos c :
  (min_count n <= count n)%nat → (min_count (SetChild n pos c) <= count (SetChild n pos c))%nat.
Proof. by destruct n. Qed.

(** An insertion below the child for the byte [b], seen from the node. *)
Lemma Insert_post_child n b c ls' ls'' key row_id ok :
  Inner_wf n → 0 <= b < 256 → child_at n b = Some c →
  (∀ l, other_leaf n b l → value l ≠ key) →
  (∀ l, l ∈ ls'' ↔ l ∈ ls' ∨ other_leaf n b l) →
  Insert_post (leaves c) ls' key row_id ok → Insert_post (leaves (NInner n)) ls'' key row_id ok.
Proof.
  intros W Hb Hc Ho Hls. pose proof (λ l, leaves_split n b c l W Hb Hc) as Hsp. destruct ok; simpl.
  - intros (l' & Hnew & Hv & Hl'). exists l'. split_and!; [|done|].
    + destruct Hnew as [[-> Hn]|[Hu (l & Hl & Hlv & ->)]].
      * left. split; [done|]. intros l Hl%Hsp. naive_solver.
      * right. split; [done|]. exists l. rewrite Hsp. auto.
    + intros l. rewrite Hls, Hl', Hsp. split; [intros [[[? ?]|?]|?]; auto|].
      intros [[[?|?] ?]|?]; auto.
  - intros (Hu & (l & Hl & Hv) & Hl'). split_and!; [done| |].
    + exists l. rewrite Hsp. auto.
    + intros l0. by rewrite Hls, Hl', Hsp.
Qed.

Lemma Insert_spec fuel path n key row_id :
  Node_wf path n → bytes key → path `prefix_of` key → apart_from key (leaves n) →
  (length key - length path < fuel)%nat →
  ∃ n' ok, Insert is_unique fuel (Some n) key (length path) row_id = Ok (n', ok) ∧
    Node_wf path n' ∧ Insert_post (leaves n) (leaves n') key row_id ok.
Proof.
  revert path n. induction fuel as [|fuel IH]; intros path n W Hbk Hp Hs Hf; [lia|].
  destruct n as [p leaf|n]; cbn [Insert].
  { apply InsertAtLeaf_spec; [done..|]. apply Hs. by left. }
  inversion W as [|? ? Wn Hmin Hb Hc]; subst path0 n0.
  destruct (descend path n key W Hbk Hp Hs) as (m0 & -> & [m y k' Hlt Hk Hne Hno|y k' Hk Hy Hby Hpk Ho]);
    cbn [mbind res_bind].
  { rewrite (proj2 (Nat.eqb_neq _ _)) by lia.
    destruct (SplitPrefix_spec path n key row_id m y k' W Hbk Hlt Hk Hne Hno) as (n' & -> & Wr & Hpost).
    by exists n', true. }
  rewrite Nat.eqb_refl, Hby. cbn [mbind res_bind].
  destruct (GetChildPos n y) as [pos|] eqn:Hpos.
  - destruct (GetChild_at n y pos Wn Hy Hpos) as (c & -> & Hca). rewrite (descent_depth _ _ y).
    destruct (IH (path ++ prefix n ++ [y]) c) as (c' & ok & -> & Wc' & Hpost);
      [by apply Hc|done|done|by eapply apart_child|by eapply descent_fuel|].
    destruct (SetChild_spec n y pos c' Wn Hy Hpos) as [Hup _].
    destruct (wf_updated path n y c' _ W Hy Hup (SetChild_min _ _ _ Hmin) Wc') as [Wr Hls].
    eexists _, ok. split_and!; [done|exact Wr|]. by eapply Insert_post_child.
  - apply child_at_none in Hpos; [|done..].
    destruct (InsertLeaf_spec n y (NLeaf [] (Leaf_new key row_id)) Wn Hy Hpos) as [Hup _].
    destruct (wf_updated path n y _ _ W Hy Hup (InsertLeaf_min _ _ _ Wn Hmin)) as [Wr Hls].
    { by apply wf_new_leaf. }
    eexists _, true. split_and!; [done|exact Wr|]. apply Insert_post_fresh.
    + intros l Hl. apply Ho. by apply (leaves_other n y).
    + intros l. rewrite Hls, (leaves_other n y) by done. simpl. rewrite list_elem_of_singleton. tauto.
Qed.
End InsertProof.

(** ** Deletion: proof *)

(** A node that keeps more than one child. *)
Lemma wf_erased path n b n' :
  Node_wf path (NInner n) → 0 <= b < 256 → updated n b None n' → (min_count n' <= count n')%nat →
  Node_wf path (NInner n') ∧ ∀ l, l ∈ leaves (NInner n') ↔ other_leaf n b l.
Proof.
  intros W Hb (W' & Hp & Hch) Hmin. inversion W as [|? ? Wn _ Hpb Hc]; subst. split.
  - constructor; [done..|by rewrite Hp|]. intros b' c' Hb'. rewrite Hch, Hp by done.
    case_decide; [done|]. by apply Hc.
  - intros l. rewrite (leaves_other n' b) by (done || rewrite Hch, decide_True by done; done).
    split; (intros (b' & c' & Hb' & Hne & Hc' & Hl); exists b', c');
      rewrite Hch, decide_False in * by done; done.
Qed.

(** The last child takes over the prefix and the byte of its parent. *)
Lemma wf_merged path p b c :
  Node_wf (path ++ p ++ [b]) c → bytes p → 0 <= b < 256 →
  Node_wf path (Node_set_prefix c (p ++ b :: Node_prefix c)).
Proof.
  intros W Hp Hb. destruct c as [q l|n]; simpl.
  - inversion W as [? ? ? Wl Hn Hbl Hpre|]; subst. constructor; [done..|].
    etrans; [|exact Hpre]. by apply prefix_app_r.
  - eapply wf_set_prefix; [exact W|by rewrite <-!app_assoc|].
    inversion W as [|? ? _ _ Hq _]; subst. unfold bytes in *. by rewrite Forall_app, Forall_cons.
Qed.

Lemma leaves_merged c q : leaves (Node_set_prefix c q) = leaves c.
Proof. destruct c; [done|]. apply set_prefix_leaves. Qed.

Lemma Node4_Erase_spec path p m key child b pos :
  let n := Node4 p m key child in
  Node_wf path (NInner n) → 0 <= b < 256 → GetChildPos n b = Some pos →
  ∃ n', Node4_Erase p m key child pos = Some n' ∧ Node_wf path n' ∧
    ∀ l, l ∈ leaves n' ↔ other_leaf n b l.
Proof.
  intros n W Hb Hpos. inversion W as [|? ? Wn Hmin Hpb Hc]; subst n path0 n0. simpl in Hmin.
  pose proof Hpos as [Hlt Hkey]%sorted_pos. cbn [prefix] in *.
  assert (W1 : sorted_wf 4 (S (m - 1)) key child) by (by replace (S (m - 1)) with m by lia).
  pose proof (sorted_Erase_spec 4 (m - 1) key child pos W1 ltac:(lia)) as He. unfold Node4_Erase.
  destruct (sorted_Erase _ _ _ _) as [key' child'] eqn:Heq. destruct He as [W' Hh].
  replace (S (m - 1)) with m in Hh by lia. rewrite Hkey in Hh.
  destruct (Nat.eqb_spec (m - 1) 1) as [H1|H1].
  - rewrite H1 in *. destruct (sw_used _ _ _ _ W' 0 ltac:(lia)) as [Hb0 [c0 Hc0]]. rewrite Hc0.
    assert (Hent : ∀ b' x, entry 1 key' child' b' x ↔ b' = key' !!! 0%nat ∧ x = c0).
    { intros b' x. split.
      - intros (i & Hi & <- & Hx). assert (i = 0%nat) as -> by lia. split; congruence.
      - intros [-> ->]. exists 0%nat. split_and!; [lia|done..]. }
    assert (Hca : child_at (Node4 p m key child) (key' !!! 0%nat) = Some c0 ∧ key' !!! 0%nat ≠ b).
    { rewrite child_at_has by done. apply Hh, Hent. done. }
    destruct Hca as [Hca Hneb].
    eexists. split_and!; [done|apply wf_merged; [by apply Hc|done|done]|].
    intros l. rewrite leaves_merged. split.
    + intros Hl. exists (key' !!! 0%nat), c0. split_and!; [lia|lia|done..].
    + intros (b' & c' & Hb' & Hne & Hc' & Hl). apply child_at_has in Hc'; [|done..].
      assert (He : entry 1 key' child' b' c') by (by apply Hh). apply Hent in He as [_ ->]. done.
  - eexists. split; [done|]. apply wf_erased; [done..| |simpl; lia].
    apply updated_intro; [done..|]. apply erase_iff. intros b' x _. apply Hh.
Qed.

Lemma Node_Erase_spec path n b pos :
  Node_wf path (NInner n) → 0 <= b < 256 → GetChildPos n b = Some pos →
  ∃ n', Node_Erase n pos = Some n' ∧ Node_wf path n' ∧ ∀ l, l ∈ leaves n' ↔ other_leaf n b l.
Proof.
  intros W Hb Hpos. pose proof W as W0. inversion W0 as [|? ? Wn Hmin Hpb Hc]; subst path0 n0.
  destruct n as [p m key child|p m key child|p m ci child|p m child];
    cbn [Node_Erase min_count count] in *; [by apply Node4_Erase_spec|..]; eexists; (split; [done|]).
  - destruct (Node16_Erase_spec p m key child b pos Wn Hpos) as [Hup Hcn].
    apply wf_erased; [done..|]. rewrite Hcn. unfold Node16_Erase.
    destruct (sorted_Erase _ _ _ _). destruct (Nat.leb_spec (m - 1) 3); [|simpl; lia].
    destruct (for_ _ _ _ _). simpl. lia.
  - destruct (Node48_Erase_spec p m ci child b pos Wn Hb Hpos ltac:(lia)) as [Hup Hcn].
    apply wf_erased; [done..|]. rewrite Hcn. unfold Node48_Erase.
    destruct (Nat.leb_spec (m - 1) 12); [|simpl; lia]. destruct (collect16 _ _) as [[c k] ch]. simpl. lia.
  - destruct (Node256_Erase_spec p m child b pos Wn Hb Hpos) as [Hup Hcn].
    apply wf_erased; [done..|]. rewrite Hcn. unfold Node256_Erase.
    destruct (Nat.leb_spec (m - 1) 36); [|simpl; lia]. destruct (collect48 _) as [[c k] ch]. simpl. lia.
Qed.

Definition opt_wf (path : list Z) (t : option Node) : Prop :=
  match t with Some n => Node_wf path n | None => True end.
Definition opt_leaves (t : option Node) : list Leaf :=
  match t with Some n => leaves n | None => [] end.

(** The leaf of the key loses the row id, and goes when none is left. *)
Definition Erase_post (ls ls' : list Leaf) (key : Key) (row_id : Z) : Prop :=
  ∀ l, l ∈ ls' ↔ (l ∈ ls ∧ value l ≠ key) ∨
    ((0 < num_elements l)%nat ∧ ∃ l0, l0 ∈ ls ∧ value l0 = key ∧ l = Leaf_Remove l0 row_id).

Lemma RemoveFromLeaf_spec path p leaf row_id :
  Node_wf path (NLeaf p leaf) →
  opt_wf path (RemoveFromLeaf p leaf row_id) ∧
  Erase_post [leaf] (opt_leaves (RemoveFromLeaf p leaf row_id)) (value leaf) row_id.
Proof.
  intros W. inversion W as [? ? ? Wl Hn Hb Hp|]; subst.
  destruct (Leaf_Remove_spec leaf row_id Wl) as (W' & Hv & _). unfold RemoveFromLeaf, Erase_post.
  destruct (Nat.eqb_spec (num_elements (Leaf_Remove leaf row_id)) 0) as [H0|H0]; simpl.
  - split; [done|]. intros l. split; [by intros ?%elem_of_nil|].
    intros [[->%list_elem_of_singleton ?]|(Hpos & l0 & ->%list_elem_of_singleton & _ & ->)]; [done|lia].
  - split; [constructor; [done|lia|by rewrite Hv..]|]. intros l. rewrite list_elem_of_singleton. split.
    + intros ->. right. split; [lia|]. exists leaf. split_and!; [by left|done..].
    + intros [[->%list_elem_of_singleton ?]|(Hpos & l0 & ->%list_elem_of_singleton & _ & ->)]; done.
Qed.

(** Nothing is erased when no leaf has the key. *)
Lemma Erase_post_none ls key row_id : (∀ l, l ∈ ls → value l ≠ key) → Erase_post ls ls key row_id.
Proof. intros Hn l. split; [by left; split; [|apply Hn]|]. naive_solver. Qed.

Lemma Erase_post_child n b c ls' ls'' key row_id :
  Inner_wf n → 0 <= b < 256 → child_at n b = Some c →
  (∀ l, other_leaf n b l → value l ≠ key) →
  (∀ l, l ∈ ls'' ↔ l ∈ ls' ∨ other_leaf n b l) →
  Erase_post (leaves c) ls' key row_id → Erase_post (leaves (NInner n)) ls'' key row_id.
Proof.
  intros W Hb Hc Ho Hls Hpost l. pose proof (λ l, leaves_split n b c l W Hb Hc) as Hsp.
  rewrite Hls, (Hpost l), Hsp. split.
  - intros [[[? ?]|(? & l0 & ? & ? & ->)]|?]; [by auto| |by auto].
    right. split; [done|]. exists l0. rewrite Hsp. auto.
  - intros [[[?|?] ?]|(? & l0 & Hl0 & ? & ->)]; [by auto|by auto|].
    apply Hsp in Hl0 as [Hl0|Hl0]; [|by apply Ho in Hl0]. left. right. split; [done|]. eauto.
Qed.

Definition is_inner (n : Node) : bool := match n with NInner _ => true | NLeaf _ _ => false end.

Lemma Erase_spec fuel path n key row_id :
  Node_wf path n → bytes key → path `prefix_of` key → apart_from key (leaves n) →
  (length key - length path < fuel)%nat →
  ∃ t, Erase fuel (Some n) key (length path) row_id = Ok t ∧ opt_wf path t ∧
    (is_inner n = true ∨ (∀ l, l ∈ leaves n → value l ≠ key) → is_Some t) ∧
    Erase_post (leaves n) (opt_leaves t) key row_id.
Proof.
  revert path n. induction fuel as [|fuel IH]; intros path n W Hbk Hp Hs Hf; [lia|].
  destruct n as [p leaf|n]; cbn [Erase].
  { destruct (wf_leaf_key _ _ leaf W ltac:(by left)) as [Hpl _].
    assert (Hsl : apart key (value leaf)) by (apply Hs; by left).
    rewrite LeafMatches_spec by done. cbn [mbind res_bind].
    destruct (RemoveFromLeaf_spec path p leaf row_id W) as [Wr Hpost].
    eexists. split; [done|]. case_bool_decide as Hk.
    - subst key. split_and!; [done| |done]. intros [?|Hn]; [done|]. by destruct (Hn leaf); [left|].
    - split_and!; [done..|]. apply Erase_post_none. intros l ->%list_elem_of_singleton. congruence. }
  inversion W as [|? ? Wn Hmin Hb Hc]; subst path0 n0.
  destruct (descend path n key W Hbk Hp Hs) as (m0 & -> & [m y k' Hlt Hk Hne Hno|y k' Hk Hy Hby Hpk Ho]);
    cbn [mbind res_bind].
  { rewrite (proj2 (Nat.eqb_neq _ _)) by lia. eexists. split_and!; [done..|]. by apply Erase_post_none. }
  rewrite Nat.eqb_refl, Hby. cbn [mbind res_bind].
  destruct (GetChildPos n y) as [pos|] eqn:Hpos.
  2: { apply child_at_none in Hpos; [|done..]. eexists. split_and!; [done..|].
    apply Erase_post_none. intros l Hl. apply Ho. by apply (leaves_other n y). }
  destruct (GetChild_at n y pos Wn Hy Hpos) as (c & Hg & Hca). rewrite Hg.
  assert (Wc : Node_wf (path ++ prefix n ++ [y]) c) by (by apply Hc).
  assert (Hset : ∀ c' ls, Node_wf (path ++ prefix n ++ [y]) c' → Erase_post (leaves c) (leaves c') key row_id →
    ls = leaves (NInner (SetChild n pos (Some c'))) →
    Node_wf path (NInner (SetChild n pos (Some c'))) ∧ Erase_post (leaves (NInner n)) ls key row_id).
  { intros c' ls Wc' Hpost ->. destruct (SetChild_spec n y pos c' Wn Hy Hpos) as [Hup _].
    destruct (wf_updated path n y c' _ W Hy Hup (SetChild_min _ _ _ Hmin) Wc') as [Wr Hls].
    split; [done|]. by eapply Erase_post_child. }
  assert (Hrec : is_inner c = true ∨ (∀ l, l ∈ leaves c → value l ≠ key) →
    ∃ t, (c0 ← Erase fuel (Some c) key (S (length path + length (prefix n))) row_id;
          Ok (Some (NInner (SetChild n pos c0)))) = Ok t ∧ opt_wf path t ∧
      (is_inner (NInner n) = true ∨ (∀ l, l ∈ leaves (NInner n) → value l ≠ key) → is_Some t) ∧
      Erase_post (leaves (NInner n)) (opt_leaves t) key row_id).
  { intros Hcase. rewrite (descent_depth _ _ y).
    destruct (IH (path ++ prefix n ++ [y]) c) as (t & -> & Wt & Hsome & Hpost);
      [done..|by eapply apart_child|by eapply descent_fuel|].
    destruct (Hsome Hcase) as [c' ->]. simpl in Wt, Hpost.
    destruct (Hset c' _ Wt Hpost eq_refl) as [Wr Hpost']. eexists. by split_and!. }
  destruct c as [p leaf|n2]; [|by apply Hrec; left].
  destruct (wf_leaf_key _ _ leaf Wc ltac:(by left)) as [Hpl _].
  rewrite <-length_app, (LeafMatches_spec (path ++ prefix n)); cycle 1.
  { etrans; [|exact Hpl]. rewrite app_assoc. by apply prefix_app_r. }
  { etrans; [|exact Hpk]. rewrite app_assoc. by apply prefix_app_r. }
  { apply (apart_child n key y (NLeaf p leaf)); [done..|by left]. }
  cbn [mbind res_bind]. case_bool_decide as Hkl.
  - destruct (RemoveFromLeaf_spec _ p leaf row_id Wc) as [Wr Hpost]. rewrite <-Hkl in Hpost.
    destruct (RemoveFromLeaf p leaf row_id) as [c'|] eqn:Hrem; simpl in Wr, Hpost.
    + destruct (Hset c' _ Wr Hpost eq_refl) as [Wr' Hpost']. eexists. by split_and!.
    + destruct (Node_Erase_spec path n y pos W Hy Hpos) as (n' & -> & Wn' & Hls).
      eexists. split_and!; [done..|]. simpl. eapply (Erase_post_child n y _ []); [done..| |exact Hpost].
      intros l. rewrite Hls. split; [by right|]. by intros [?%elem_of_nil|?].
  - rewrite length_app. apply Hrec. right. intros l ->%list_elem_of_singleton. congruence.
Qed.

(** ** The tree as a finite map *)

Lemma Key_lt_prefix p k l : Key_lt (p ++ k) (p ++ l) = Key_lt k l.
Proof. rewrite Key_lt_app by (by left). by rewrite Key_lt_irrefl. Qed.

Definition leaf_lt (l l' : Leaf) : Prop := Key_lt (value l) (value l') = true.

(** The leaves are in the order of their keys. *)
Lemma leaves_sorted path n : Node_wf path n → StronglySorted leaf_lt (leaves n).
Proof.
  induction 1 as [path p l Hl Hn Hb Hp|path n W Hmin Hb Hc IH]; [by repeat constructor|]. simpl.
  assert (Hps : ∀ ps, StronglySorted lt ps → (∀ p, p ∈ ps → used n p = true) →
    StronglySorted leaf_lt (mjoin (omap (GetChild (Inner_map leaves n)) ps))).
  { induction ps as [|p ps IHps]; intros Hs Hu; [constructor|]. inversion Hs as [|? ? Hs' Hlt]; subst.
    destruct (used_spec n p W ltac:(apply Hu; by left)) as (Hk & Hpos & [c Hg]).
    assert (Hca : child_at n (key_at n p) = Some c) by (unfold child_at; by rewrite Hpos).
    simpl. rewrite GetChild_map, Hg. simpl. apply StronglySorted_app_2.
    - intros l1 l2 Hl1 Hl2. apply list_elem_of_join in Hl2 as (ls & Hl2 & Hls).
      apply list_elem_of_omap in Hls as (p' & Hp' & Hg'). rewrite GetChild_map in Hg'.
      destruct (GetChild n p') as [c'|] eqn:Hg2; simplify_eq/=.
      destruct (used_spec n p' W ltac:(apply Hu; by right)) as (Hk' & Hpos' & _).
      assert (Hca' : child_at n (key_at n p') = Some c') by (unfold child_at; by rewrite Hpos').
      destruct (wf_leaf_key _ _ _ (Hc _ _ Hk Hca) Hl1) as [[w1 Hw1] _].
      destruct (wf_leaf_key _ _ _ (Hc _ _ Hk' Hca') Hl2) as [[w2 Hw2] _].
      unfold leaf_lt. rewrite Hw1, Hw2, <-!app_assoc, !Key_lt_prefix. simpl. rewrite Key_lt_cons.
      rewrite Forall_forall in Hlt. specialize (Hlt p' Hp').
      pose proof (key_at_lt n p p' W ltac:(apply Hu; by left) ltac:(apply Hu; by right) Hlt).
      bools; lia || done.
    - by eapply IH.
    - apply IHps; [done|]. intros q Hq. apply Hu. by right. }
  apply Hps.
  - unfold positions_from. generalize (256 - 0)%nat as m. generalize 0%nat as a. intros a m.
    revert a. induction m as [|m IHm]; intros a; [constructor|]. simpl. rewrite filter_cons.
    case_decide; [|apply IHm]. constructor; [apply IHm|]. apply Forall_forall. intros q Hq.
    apply list_elem_of_filter in Hq as [_ Hq%elem_of_seq]. lia.
  - intros p Hp. by apply elem_of_positions in Hp as [_ ?].
Qed.

(** The keys of the index with their row ids. *)
Definition index_map (t : option Node) : gmap Key (list Z) :=
  list_to_map ((λ l, (value l, Leaf_rows l)) <$> opt_leaves t).

Lemma leaves_inj path n l l' :
  Node_wf path n → l ∈ leaves n → l' ∈ leaves n → value l = value l' → l = l'.
Proof.
  intros W Hl Hl' Hv. pose proof (leaves_sorted path n W) as Hs.
  apply list_elem_of_lookup in Hl as [i Hi]. apply list_elem_of_lookup in Hl' as [j Hj].
  assert (Hlt : ∀ i j l l', (i < j)%nat → leaves n !! i = Some l → leaves n !! j = Some l' →
    leaf_lt l l').
  { intros i' j' x x' Hij Hx Hx'. rewrite <-(take_drop_middle _ _ _ Hx) in Hs.
    apply StronglySorted_app_1_r in Hs. inversion Hs as [|? ? _ Hf]; subst.
    rewrite Forall_forall in Hf. apply Hf. apply (list_elem_of_lookup_2 _ (j' - S i')%nat).
    rewrite lookup_drop. by replace (S i' + (j' - S i'))%nat with j' by lia. }
  destruct (lt_eq_lt_dec i j) as [[Hij| ->]|Hij]; [|congruence|].
  - specialize (Hlt _ _ _ _ Hij Hi Hj). unfold leaf_lt in Hlt. by rewrite Hv, Key_lt_irrefl in Hlt.
  - specialize (Hlt _ _ _ _ Hij Hj Hi). unfold leaf_lt in Hlt. by rewrite Hv, Key_lt_irrefl in Hlt.
Qed.

Lemma index_map_lookup t k rows :
  opt_wf [] t →
  index_map t !! k = Some rows ↔ ∃ l, l ∈ opt_leaves t ∧ value l = k ∧ Leaf_rows l = rows.
Proof.
  intros W. unfold index_map. rewrite <-elem_of_list_to_map.
  - rewrite list_elem_of_fmap. naive_solver.
  - destruct t as [n|]; [|constructor]. simpl in *. rewrite <-list_fmap_compose.
    apply NoDup_alt. intros i j k' Hi Hj. rewrite list_lookup_fmap in Hi, Hj.
    destruct (leaves n !! i) as [l|] eqn:Hli; [|done]. destruct (leaves n !! j) as [l'|] eqn:Hlj; [|done].
    simplify_eq/=. assert (l = l') as <-.
    { eapply leaves_inj; [done|by eapply list_elem_of_lookup_2..|congruence]. }
    pose proof (leaves_sorted _ _ W) as Hs. clear -Hs Hli Hlj.
    revert i j Hli Hlj. induction Hs as [|x ls Hs IH Hf]; intros [|i] [|j] Hi Hj; simplify_eq/=.
    + done.
    + rewrite Forall_forall in Hf. specialize (Hf _ (list_elem_of_lookup_2 _ _ _ Hj)).
      unfold leaf_lt in Hf. by rewrite Key_lt_irrefl in Hf.
    + rewrite Forall_forall in Hf. specialize (Hf _ (list_elem_of_lookup_2 _ _ _ Hi)).
      unfold leaf_lt in Hf. by rewrite Key_lt_irrefl in Hf.
    + f_equal. by eapply IH.
Qed.

Lemma index_map_none t k :
  opt_wf [] t → index_map t !! k = None ↔ ∀ l, l ∈ opt_leaves t → value l ≠ k.
Proof.
  intros W. split.
  - intros Hn l Hl Hv. assert (index_map t !! k = Some (Leaf_rows l)); [|congruence].
    apply index_map_lookup; [done|]. eauto.
  - intros Hn. destruct (index_map t !! k) as [rows|] eqn:Hk; [|done].
    apply index_map_lookup in Hk as (l & Hl & Hv & _); [|done]. by destruct (Hn l).
Qed.

(** The operations of the specification. *)
Definition map_insert (m : gmap Key (list Z)) (key : Key) (row_id : Z) : gmap Key (list Z) :=
  <[key := default [] (m !! key) ++ [row_id]]> m.

Definition map_erase (m : gmap Key (list Z)) (key : Key) (row_id : Z) : gmap Key (list Z) :=
  match m !! key with
  | None => m
  | Some rows => match remove_first row_id rows with [] => delete key m | rows => <[key := rows]> m end
  end.

Lemma rows_nonempty l : Leaf_wf l → (0 < num_elements l)%nat ↔ Leaf_rows l ≠ [].
Proof.
  intros (Hl & Hn & _). unfold Leaf_rows. split.
  - intros H0 He. apply (f_equal length) in He. rewrite length_take in He. simpl in He. lia.
  - intros He. destruct (num_elements l); [done|lia].
Qed.

Section Refinement.
Variables (u : bool) (t : option Node) (key : Key) (row_id : Z).
Hypothesis W : opt_wf [] t.
Hypothesis Hb : bytes key.
Hypothesis Hs : apart_from key (opt_leaves t).

Lemma Lookup_map :
  ∃ r, Lookup (S (length key)) t key 0 = Ok r ∧ Leaf_rows <$> r = index_map t !! key ∧
    (∀ l, r = Some l → l ∈ opt_leaves t ∧ value l = key).
Proof.
  destruct t as [n|]; [|by exists None].
  destruct (Lookup_spec (S (length key)) [] n key W Hb (prefix_nil _) Hs) as (r & Hr & Hp).
  { simpl. lia. }
  exists r. split; [done|]. destruct r as [l|]; simpl.
  - split; [|by intros ? [= <-]]. symmetry. apply index_map_lookup; [done|]. exists l. naive_solver.
  - split; [|done]. symmetry. by apply index_map_none.
Qed.

Lemma Insert_map :
  ∃ n' ok, Insert u (S (length key)) t key 0 row_id = Ok (n', ok) ∧ Node_wf [] n' ∧
    ok = negb (u && bool_decide (is_Some (index_map t !! key))) ∧
    index_map (Some n') = (if ok then map_insert (index_map t) key row_id else index_map t) ∧
    (∀ l, l ∈ leaves n' → value l = key ∨ ∃ l0, l0 ∈ opt_leaves t ∧ value l0 = value l).
Proof.
  assert (HI : ∃ n' ok, Insert u (S (length key)) t key 0 row_id = Ok (n', ok) ∧ Node_wf [] n' ∧
    Insert_post u (opt_leaves t) (leaves n') key row_id ok).
  { destruct t as [n|].
    - apply (Insert_spec u (S (length key)) [] n key row_id); [done|done|apply prefix_nil|done|simpl; lia].
    - eexists _, true. split_and!; [done|apply wf_new_leaf; [done|apply prefix_nil]|].
      apply Insert_post_fresh; [by intros l ?%elem_of_nil|]. intros l. simpl.
      rewrite list_elem_of_singleton. split; [by right|]. by intros [?%elem_of_nil|?]. }
  destruct HI as (n' & ok & HI & W' & Hpost). exists n', ok. split_and!; [done..| | |].
  - destruct ok; simpl in Hpost.
    + destruct Hpost as (l' & [[-> Hn]|[-> _]] & _); [|done].
      rewrite bool_decide_false; [by rewrite andb_false_r|].
      apply index_map_none in Hn as ->; [|done]. by intros [? ?].
    + destruct Hpost as (-> & (l & Hl & Hv) & _). rewrite bool_decide_true; [done|].
      exists (Leaf_rows l). apply index_map_lookup; [done|]. eauto.
  - apply map_eq. intros k. apply option_eq. intros rows. rewrite index_map_lookup by done.
    destruct ok; simpl in Hpost.
    + destruct Hpost as (l' & Hnew & Hv & Hl'). unfold map_insert.
      assert (Hr : Leaf_rows l' = default [] (index_map t !! key) ++ [row_id]).
      { destruct Hnew as [[-> Hn]|[_ (l & Hl & Hlv & ->)]].
        - apply index_map_none in Hn as ->; [|done]. apply Leaf_new_spec.
        - assert (index_map t !! key = Some (Leaf_rows l)) as ->
            by (apply index_map_lookup; [done|]; eauto).
          apply Leaf_Insert_spec. destruct t as [n|]; [|by apply elem_of_nil in Hl].
          by apply (wf_leaf_key [] n). }
      destruct (decide (k = key)) as [->|Hne].
      * rewrite lookup_insert_eq. split.
        -- intros (l & Hl & Hlv & <-). apply Hl' in Hl as [[_ ?]| ->]; [done|]. by rewrite Hr.
        -- intros [= <-]. exists l'. simpl. rewrite Hl'. auto.
      * rewrite lookup_insert_ne, index_map_lookup by done.
        split; intros (l & Hl & Hlv & Hlr); exists l; (split; [|done]).
        -- apply Hl' in Hl as [[? _]| ->]; [done|]. congruence.
        -- apply Hl'. left. split; [done|]. congruence.
    + destruct Hpost as (_ & _ & Hl'). rewrite index_map_lookup by done. simpl.
      split; intros (l & Hl & ?); exists l; (split; [by apply Hl'|done]).
  - intros l Hl. destruct ok; simpl in Hpost.
    + destruct Hpost as (l' & _ & Hv & Hl'). apply Hl' in Hl as [[Hl _]| ->]; eauto.
    + destruct Hpost as (_ & _ & Hl'). apply Hl' in Hl. eauto.
Qed.

Lemma Erase_map :
  ∃ t', Erase (S (length key)) t key 0 row_id = Ok t' ∧ opt_wf [] t' ∧
    index_map t' = map_erase (index_map t) key row_id ∧
    (∀ l, l ∈ opt_leaves t' → ∃ l0, l0 ∈ opt_leaves t ∧ value l0 = value l).
Proof.
  assert (HE : ∃ t', Erase (S (length key)) t key 0 row_id = Ok t' ∧ opt_wf [] t' ∧
    Erase_post (opt_leaves t) (opt_leaves t') key row_id).
  { destruct t as [n|].
    - destruct (Erase_spec (S (length key)) [] n key row_id) as (t' & ? & ? & _ & ?);
        [done|done|apply prefix_nil|done|simpl; lia|]. eauto.
    - eexists. split_and!; [done..|]. apply Erase_post_none. by intros l ?%elem_of_nil. }
  destruct HE as (t' & HE & W' & Hpost). exists t'. split_and!; [done..| |].
  - apply map_eq. intros k. apply option_eq. intros rows. rewrite index_map_lookup by done.
    unfold map_erase. destruct (index_map t !! key) as [rs|] eqn:Hk.
    + apply index_map_lookup in Hk as (l0 & Hl0 & Hv0 & Hr0); [|done].
      destruct t as [n|] eqn:Ht; [|by apply elem_of_nil in Hl0]. simpl in Hl0.
      destruct (wf_leaf_key [] n l0 W Hl0) as (_ & _ & Wl0 & _).
      destruct (Leaf_Remove_spec l0 row_id Wl0) as (Wr & Hvr & Hrr). rewrite Hr0 in Hrr.
      assert (Hu : ∀ l, l ∈ leaves n → value l = key → l = l0)
        by (intros l Hl Hv; eapply leaves_inj; [done..|congruence]).
      destruct (decide (k = key)) as [->|Hne].
      * transitivity (remove_first row_id rs ≠ [] ∧ rows = remove_first row_id rs).
        -- split.
           ++ intros (l & Hl & Hv & <-). apply Hpost in Hl as [[_ ?]|(Hn & l1 & Hl1 & Hv1 & ->)]; [done|].
              apply Hu in Hl1 as ->; [|done]. rewrite Hrr. split; [|done].
              rewrite <-Hrr. by apply rows_nonempty.
           ++ intros [Hn ->]. exists (Leaf_Remove l0 row_id). split_and!; [|congruence|done].
              apply Hpost. right. split; [|eauto]. apply rows_nonempty; [done|]. by rewrite Hrr.
        -- destruct (remove_first row_id rs) as [|r rs'].
           ++ rewrite lookup_delete_eq. naive_solver.
           ++ rewrite lookup_insert_eq. naive_solver.
      * transitivity (index_map (Some n) !! k = Some rows).
        -- rewrite index_map_lookup by done. split; intros (l & Hl & Hv & Hr); exists l; (split; [|done]).
           ++ apply Hpost in Hl as [[? _]|(_ & l1 & Hl1 & Hv1 & ->)]; [done|].
              apply Hu in Hl1 as ->; [|done]. congruence.
           ++ apply Hpost. left. split; [done|]. congruence.
        -- destruct (remove_first row_id rs).
           ++ by rewrite lookup_delete_ne by done.
           ++ by rewrite lookup_insert_ne by done.
    + rewrite index_map_none in Hk by done. rewrite index_map_lookup by done.
      split; intros (l & Hl & Hv & Hr); exists l; (split; [|done]).
      * apply Hpost in Hl as [[? _]|(_ & l1 & Hl1 & Hv1 & ->)]; [done|]. by apply Hk in Hl1.
      * apply Hpost. left. split; [done|]. by apply Hk.
  - intros l Hl. apply Hpost in Hl as [[Hl _]|(_ & l1 & Hl1 & Hv1 & ->)]; [eauto|].
    exists l1. split; [done|]. symmetry. apply Leaf_Remove_spec.
    destruct t as [n|]; [|by apply elem_of_nil in Hl1]. by apply (wf_leaf_key [] n).
Qed.
End Refinement.

(** ** The keys of an index *)

(** The keys of the rows of an index on columns of the given types. *)
Fixpoint key_of_types (types : list PhysicalType) (k : Key) : Prop :=
  match types with
  | [] => k = []
  | type :: types => ∃ v k1 k2, cell_ok type v = true ∧
      CreateKey true (IsLittleEndian true) type v = Ok k1 ∧ key_of_types types k2 ∧ k = k1 ++ k2
  end.

Lemma key_of_types_separated types k l :
  key_of_types types k → key_of_types types l → apart k l.
Proof.
  revert k l. induction types as [|type types IH]; intros k l.
  { intros -> ->. by left. }
  intros (v & k1 & k2 & Hv & Hk1 & Hk2 & ->) (w & l1 & l2 & Hw & Hl1 & Hl2 & ->).
  apply apart_app; [|by apply IH].
  destruct (CreateKey_ok true type v w Hv Hw) as (k' & l' & Hk & Hl & _ & Hs). congruence.
Qed.

Lemma bytes_be_encode m x : bytes (be_encode m x).
Proof.
  induction m as [|m IH]; [constructor|]. rewrite be_encode_S. constructor; [apply byte_of_range|done].
Qed.

Lemma key_of_types_bytes types k : key_of_types types k → bytes k.
Proof.
  revert k. induction types as [|type types IH]; intros k.
  { intros ->. constructor. }
  intros (v & k1 & k2 & Hv & Hk1 & Hk2 & ->). apply Forall_app. split; [|by apply IH].
  destruct v as [z|s].
  - rewrite (proj1 (CreateKey_number true type z Hv)) in Hk1. simplify_eq. apply bytes_be_encode.
  - destruct type; try discriminate Hv. simpl in Hv, Hk1. simplify_eq. apply Forall_app.
    split; [|repeat constructor; lia]. rewrite forallb_forall in Hv. apply Forall_forall.
    intros b Hb. specialize (Hv b (proj1 (list_elem_of_In _ _) Hb)). cbv beta in Hv.
    apply andb_true_iff in Hv as [?%Z.ltb_lt ?%Z.ltb_lt]. lia.
Qed.

Lemma row_key_types n cols i k :
  Forall (column_ok n) cols → row_key true cols i = Some k → key_of_types (col_type <$> cols) k.
Proof.
  intros Hcols. revert k. induction Hcols as [|col cols (Ht & _ & Hc) _ IH]; intros k Hk.
  { by simplify_eq/=. }
  simpl in Hk. destruct (col_data col !! i) as [[v|]|] eqn:Hv; simplify_eq/=.
  rewrite Forall_forall in Hc. specialize (Hc _ (list_elem_of_lookup_2 _ _ _ Hv)). simpl in Hc.
  unfold cell_key in Hk. destruct (CreateKey true (IsLittleEndian true) (col_type col) v) as [k1|] eqn:Hk1;
    simplify_eq/=.
  destruct (row_key true cols i) as [k2|]; simplify_eq/=.
  exists v, k1, k2. split_and!; [done..|by apply IH|done].
Qed.

(** ** Chunks: proofs *)

Definition index_ok (types : list PhysicalType) (t : option Node) : Prop :=
  opt_wf [] t ∧ ∀ l, l ∈ opt_leaves t → key_of_types types (value l).

Definition rows_ok (types : list PhysicalType) (rows : list (option Key * Z)) : Prop :=
  Forall (λ row : option Key * Z, match row.1 with Some k => key_of_types types k | None => True end) rows.

Abbreviation row := (option Key * Z)%type.
Definition row_insert (m : gmap Key (list Z)) (r : row) : gmap Key (list Z) :=
  match r.1 with Some k => map_insert m k r.2 | None => m end.
Definition row_erase (m : gmap Key (list Z)) (r : row) : gmap Key (list Z) :=
  match r.1 with Some k => map_erase m k r.2 | None => m end.

(** No key of the rows is in the map, and no two rows have the same key. *)
Fixpoint fresh (m : gmap Key (list Z)) (rows : list row) : bool :=
  match rows with
  | [] => true
  | (None, _) :: rows => fresh m rows
  | (Some k, r) :: rows => bool_decide (m !! k = None) && fresh (map_insert m k r) rows
  end.

Section ChunkProofs.
Variable types : list PhysicalType.

Lemma index_ok_separated t key :
  index_ok types t → key_of_types types key → apart_from key (opt_leaves t).
Proof. intros [_ Hk] Hkey l Hl. apply (key_of_types_separated types); [done|by apply Hk]. Qed.

Lemma erase_rows_spec t rows :
  index_ok types t → rows_ok types rows →
  ∃ t', erase_rows t rows = Ok t' ∧ index_ok types t' ∧
    index_map t' = foldl row_erase (index_map t) rows.
Proof.
  intros Ht Hrows. revert t Ht. induction Hrows as [|[[k|] r] rows Hk _ IH]; intros t Ht;
    cbn [erase_rows foldl].
  - by exists t.
  - pose proof (index_ok_separated t k Ht Hk) as Hs. destruct Ht as [W Hl].
    destruct (Erase_map t k r W (key_of_types_bytes _ _ Hk) Hs) as (t1 & -> & W1 & Hm & Hl1).
    cbn [mbind res_bind]. destruct (IH t1) as (t' & He & Hok & Hm').
    { split; [done|]. intros l Hin. destruct (Hl1 l Hin) as (l0 & Hl0 & <-). by apply Hl. }
    exists t'. split_and!; [done..|]. by rewrite Hm', Hm.
  - by apply IH.
Qed.

Lemma insert_rows_spec u t rows i :
  index_ok types t → rows_ok types rows →
  ∃ t' f, insert_rows u t rows i = Ok (t', f) ∧ index_ok types t' ∧
    match f with
    | None => index_map t' = foldl row_insert (index_map t) rows ∧
        (u = true → fresh (index_map t) rows = true)
    | Some j => u = true ∧ (i <= j)%nat ∧ (j - i < length rows)%nat ∧
        fresh (index_map t) (take (j - i) rows) = true ∧ fresh (index_map t) rows = false ∧
        index_map t' = foldl row_insert (index_map t) (take (j - i) rows)
    end.
Proof.
  intros Ht Hrows. revert t i Ht. induction Hrows as [|[[k|] r] rows Hk _ IH]; intros t i Ht;
    cbn [insert_rows foldl fresh].
  - by exists t, None.
  - pose proof (index_ok_separated t k Ht Hk) as Hs. destruct Ht as [W Hl].
    destruct (Insert_map u t k r W (key_of_types_bytes _ _ Hk) Hs)
      as (n1 & ok & -> & W1 & Hok & Hm & Hl1). simpl.
    assert (H1 : index_ok types (Some n1)).
    { split; [done|]. intros l Hin. destruct (Hl1 l Hin) as [->|(l0 & Hl0 & <-)]; [done|by apply Hl]. }
    destruct ok; simpl.
    + assert (Hfr : u = true → bool_decide (index_map t !! k = None) = true).
      { intros ->. simpl in Hok. apply bool_decide_eq_true. destruct (index_map t !! k); [|done].
        by rewrite bool_decide_true in Hok. }
      destruct (IH (Some n1) (S i) H1) as (t' & f & Hi & Hok' & Hf). exists t', f.
      split_and!; [done..|]. destruct f as [j|]; rewrite Hm in Hf.
      * destruct Hf as (Hu & Hij & Hj & Hf1 & Hf2 & Hf3). rewrite (Hfr Hu).
        replace (j - i)%nat with (S (j - S i)) by lia. simpl. rewrite (Hfr Hu).
        split_and!; [done|lia|lia|done|done|done].
      * destruct Hf as [Hf1 Hf2]. split; [done|]. intros Hu. by rewrite (Hfr Hu), Hf2.
    + exists (Some n1), (Some i). rewrite Nat.sub_diag. symmetry in Hok.
      apply negb_false_iff, andb_true_iff in Hok as [Hu Hd%bool_decide_eq_true].
      split_and!; [done..|lia|simpl; lia|done| |done].
      rewrite bool_decide_false; [done|]. intros Hn. rewrite Hn in Hd. by destruct Hd.
  - destruct (IH t (S i) Ht) as (t' & f & Hi & Hok & Hf). exists t', f. split_and!; [done..|].
    destruct f as [j|]; [|done]. destruct Hf as (Hu & Hij & Hj & Hf1 & Hf2 & Hf3).
    replace (j - i)%nat with (S (j - S i)) by lia. split_and!; [done|lia|simpl; lia|done|done|done].
Qed.
End ChunkProofs.

(** *** What a failed insertion inserted is taken back *)

Definition has_key (k : Key) (rows : list row) : Prop := ∃ r, (Some k, r) ∈ rows.

Lemma foldl_insert_other m rows k :
  ¬ has_key k rows → foldl row_insert m rows !! k = m !! k.
Proof.
  revert m. induction rows as [|[[k'|] r] rows IH]; intros m Hk; [done|..]; simpl; rewrite IH.
  - unfold row_insert, map_insert. simpl. apply lookup_insert_ne. intros ->. apply Hk. exists r. by left.
  - intros [r' Hr']. apply Hk. exists r'. by right.
  - done.
  - intros [r' Hr']. apply Hk. exists r'. by right.
Qed.

Lemma fresh_not_has m rows k : fresh m rows = true → is_Some (m !! k) → ¬ has_key k rows.
Proof.
  revert m. induction rows as [|[[k'|] r] rows IH]; intros m Hf Hm [r' Hr']; simpl in Hf.
  - by apply elem_of_nil in Hr'.
  - apply andb_true_iff in Hf as [Hn%bool_decide_eq_true Hf].
    apply elem_of_cons in Hr' as [[= -> ->]|Hr']; [by rewrite Hn in Hm; destruct Hm|].
    apply (IH _ Hf); [|by exists r']. unfold map_insert. destruct (decide (k' = k)) as [->|].
    + by rewrite lookup_insert_eq.
    + by rewrite lookup_insert_ne.
  - apply elem_of_cons in Hr' as [[=]|Hr']. apply (IH _ Hf); [done|by exists r'].
Qed.

Lemma delete_foldl_insert m rows k x :
  ¬ has_key k rows → m !! k = None →
  delete k (foldl row_insert (<[k := x]> m) rows) = foldl row_insert m rows.
Proof.
  revert m. induction rows as [|[[k'|] r] rows IH]; intros m Hk Hm; simpl.
  - by rewrite delete_insert_id.
  - assert (k' ≠ k) by (intros ->; apply Hk; exists r; by left).
    unfold row_insert, map_insert; simpl. rewrite lookup_insert_ne, insert_insert_ne by done.
    apply IH; [|by rewrite lookup_insert_ne]. intros [r' Hr']. apply Hk. exists r'. by right.
  - apply IH; [|done]. intros [r' Hr']. apply Hk. exists r'. by right.
Qed.

Lemma fresh_smaller m rows k x :
  fresh (<[k := x]> m) rows = true → m !! k = None → fresh m rows = true.
Proof.
  revert m. induction rows as [|[[k'|] r] rows IH]; intros m Hf Hm; simpl in *; [done| |by apply IH].
  apply andb_true_iff in Hf as [Hn%bool_decide_eq_true Hf].
  destruct (decide (k = k')) as [->|Hne]; [by rewrite lookup_insert_eq in Hn|].
  rewrite lookup_insert_ne in Hn by done. rewrite bool_decide_true by done. simpl.
  apply IH; [|unfold map_insert; by rewrite lookup_insert_ne].
  unfold map_insert in *. rewrite lookup_insert_ne, insert_insert_ne in Hf by done. done.
Qed.

Lemma rollback_rows m rows :
  fresh m rows = true → foldl row_erase (foldl row_insert m rows) rows = m.
Proof.
  revert m. induction rows as [|[[k|] r] rows IH]; intros m Hf; simpl in *; [done| |by apply IH].
  apply andb_true_iff in Hf as [Hn%bool_decide_eq_true Hf].
  assert (Hmk : map_insert m k r = <[k := [r]]> m) by (unfold map_insert; by rewrite Hn).
  change (row_insert m (Some k, r)) with (map_insert m k r). rewrite Hmk in *.
  assert (Hk : ¬ has_key k rows) by (apply (fresh_not_has _ _ _ Hf); by rewrite lookup_insert_eq).
  unfold row_erase at 2, map_erase; cbn [fst snd].
  rewrite foldl_insert_other, lookup_insert_eq by done. simpl.
  rewrite Z.eqb_refl. rewrite delete_foldl_insert by done. apply IH. by eapply fresh_smaller.
Qed.

(** ** Theorems *)

(** C28: The radix tree is a map from keys to row ids.  For an index on
    columns of any index types (strings without zero bytes, no NaN) and a key
    of such a row, with fuel for one step per byte of the key: [Lookup]
    returns the leaf with the row ids of the key; [Insert] appends the row id,
    or refuses it and changes nothing when the index is unique and has the
    key; [Erase] removes the first occurrence of the row id, and the key with
    the last one.  All of them keep the invariant of the tree (sorted arrays,
    kinds of nodes that fit the number of children, keys below their paths)
    and read no byte behind a key. *)
Theorem Art_refines_map types t key row_id u :
  index_ok types t → key_of_types types key →
  (∃ r, Lookup (S (length key)) t key 0 = Ok r ∧ Leaf_rows <$> r = index_map t !! key) ∧
  (∃ n' ok, Insert u (S (length key)) t key 0 row_id = Ok (n', ok) ∧ index_ok types (Some n') ∧
    ok = negb (u && bool_decide (is_Some (index_map t !! key))) ∧
    index_map (Some n') = if ok then map_insert (index_map t) key row_id else index_map t) ∧
  (∃ t', Erase (S (length key)) t key 0 row_id = Ok t' ∧ index_ok types t' ∧
    index_map t' = map_erase (index_map t) key row_id).
Proof.
  intros Ht Hkey. pose proof (index_ok_separated types t key Ht Hkey) as Hs.
  pose proof (key_of_types_bytes types key Hkey) as Hb. destruct Ht as [W Hl]. split_and!.
  - destruct (Lookup_map t key W Hb Hs) as (r & ? & ? & _). eauto.
  - destruct (Insert_map u t key row_id W Hb Hs) as (n' & ok & HI & W' & Hok & Hm & Hl').
    exists n', ok. split_and!; [done| |done|done]. split; [done|]. intros l Hin.
    destruct (Hl' l Hin) as [->|(l0 & Hl0 & <-)]; [done|by apply Hl].
  - destruct (Erase_map t key row_id W Hb Hs) as (t' & HE & W' & Hm & Hl').
    exists t'. split_and!; [done| |done]. split; [done|]. intros l Hin.
    destruct (Hl' l Hin) as (l0 & Hl0 & <-). by apply Hl.
Qed.

(** Rows of an index on a TINYINT column: the keys of the values [zs]. *)
Definition tinyint_rows (zs : list Z) : list (option Key * Z) :=
  (λ z, (Some (be_encode 1 (z + 2 ^ 7)), z)) <$> zs.

Lemma tinyint_key z : cell_ok INT8 (Num z) = true → key_of_types [INT8] (be_encode 1 (z + 2 ^ 7)).
Proof.
  intros Hz. exists (Num z), (be_encode 1 (z + 2 ^ 7)), []. split_and!; [done| |done|by rewrite app_nil_r].
  by rewrite (proj1 (CreateKey_number true INT8 z Hz)).
Qed.

Lemma tinyint_rows_ok zs :
  forallb (λ z, cell_ok INT8 (Num z)) zs = true → rows_ok [INT8] (tinyint_rows zs).
Proof.
  intros H. apply Forall_fmap, Forall_forall. intros z Hz%list_elem_of_In. simpl.
  rewrite forallb_forall in H. by apply tinyint_key, H.
Qed.

Definition sample_tree : option Node :=
  match insert_rows false None (tinyint_rows [5; -3; 7; 100; -128; 7]) 0 with
  | Ok (t, _) => t | Throw _ => None
  end.

Lemma sample_tree_ok : index_ok [INT8] sample_tree.
Proof.
  destruct (insert_rows_spec [INT8] false None (tinyint_rows [5; -3; 7; 100; -128; 7]) 0)
    as (t & f & Hi & Hok & _).
  - split; [done|]. by intros l ?%elem_of_nil.
  - by apply tinyint_rows_ok.
  - unfold sample_tree. by rewrite Hi.
Qed.

Lemma Art_refines_map_witness :
  index_ok [INT8] sample_tree ∧ key_of_types [INT8] (be_encode 1 (7 + 2 ^ 7)) ∧
  index_map sample_tree !! be_encode 1 (7 + 2 ^ 7) = Some [7; 7] ∧
  ∃ n', Insert true (S (length (be_encode 1 (7 + 2 ^ 7)))) sample_tree (be_encode 1 (7 + 2 ^ 7)) 0 9 =
    Ok (n', false) ∧ index_map (Some n') = index_map sample_tree.
Proof.
  pose proof (tinyint_key 7 eq_refl) as Hk.
  destruct (Art_refines_map [INT8] sample_tree (be_encode 1 (7 + 2 ^ 7)) 9 true sample_tree_ok Hk)
    as (_ & (n' & ok & HI & _ & Hok & Hm) & _).
  assert (Hv : index_map sample_tree !! be_encode 1 (7 + 2 ^ 7) = Some [7; 7]) by (vm_compute; reflexivity).
  split; [exact sample_tree_ok|]. split; [exact Hk|]. split; [exact Hv|].
  exists n'. rewrite Hv in Hok. simpl in Hok. subst ok. by split.
Defined.

(** C29: The insertion of a chunk into an index, for a chunk with columns of
    index types: it returns true exactly if the index is not unique, or no row
    has the key of another row or of the index; then the row ids of all rows
    without NULLs have been added, in order.  Otherwise the rows inserted
    before the conflict are erased again, and the index has the contents it
    had.  Deleting the rows of a chunk erases them one after the other, and
    [VerifyAppend] throws exactly if the index is unique and has one of the
    keys. *)
Theorem Chunk_operations machine n art input row_ids :
  let types := col_type <$> input in
  index_ok types (tree art) → input ≠ [] → Forall (column_ok n) input → length row_ids = n →
  ∃ keys, GenerateKeys machine (IsLittleEndian machine) input = Ok keys ∧
    let rows := zip keys row_ids in
    let m := index_map (tree art) in
    (∃ t ok, ART_Insert machine art input row_ids = Ok (mkART t (is_unique art), ok) ∧
      index_ok types t ∧ ok = negb (is_unique art) || fresh m rows ∧
      index_map t = if ok then foldl row_insert m rows else m) ∧
    (∃ t, ART_Delete machine art input row_ids = Ok (mkART t (is_unique art)) ∧
      index_ok types t ∧ index_map t = foldl row_erase m rows) ∧
    (VerifyAppend machine art input = Ok tt ↔
      is_unique art = false ∨ ∀ k, Some k ∈ keys → m !! k = None).
Proof.
  intros types Ht Hne Hcols Hlen.
  destruct (GenerateKeys_rows machine n input Hne Hcols) as (keys & Hg & Hl & Hk).
  assert (Hkeys : ∀ k, Some k ∈ keys → key_of_types types k).
  { intros k [i Hi]%list_elem_of_lookup. pose proof (lookup_lt_Some _ _ _ Hi).
    rewrite Hk in Hi by lia. injection Hi as Hi. rewrite (row_key_machine machine n) in Hi by done.
    by eapply row_key_types. }
  exists keys. split; [done|]. cbv zeta. set (rows := zip keys row_ids).
  assert (Hrows : rows_ok types rows).
  { apply Forall_forall. intros [[k|] r] Hr; [|done]. apply Hkeys. by eapply elem_of_zip_l. }
  split_and!.
  - unfold ART_Insert. rewrite Hg. cbn [mbind res_bind]. fold rows.
    destruct (insert_rows_spec types (is_unique art) (tree art) rows 0 Ht Hrows)
      as (t & f & -> & Hok & Hf). cbn [mbind res_bind]. destruct f as [j|].
    + destruct Hf as (Hu & _ & Hj & Hf1 & Hf2 & Hf3). rewrite Nat.sub_0_r in *.
      destruct (erase_rows_spec types t (take j rows) Hok (Forall_take _ _ _ Hrows)) as (t' & -> & Hok' & Hm).
      exists t', false. split_and!; [done..| |]; [by rewrite Hu, Hf2|].
      rewrite Hm, Hf3. by apply rollback_rows.
    + exists t, true. destruct Hf as [Hf1 Hf2]. split_and!; [done..| |done].
      destruct (is_unique art); [by rewrite Hf2|done].
  - unfold ART_Delete. rewrite Hg. cbn [mbind res_bind]. fold rows.
    destruct (erase_rows_spec types (tree art) rows Ht Hrows) as (t & -> & Hok & Hm). by exists t.
  - unfold VerifyAppend. rewrite Hg. destruct (is_unique art); [|by split; [left|]].
    cbn [mbind res_bind]. clear rows Hrows Hg Hl Hk.
    induction keys as [|[k|] keys IH]; cbn [verify_keys].
    + split; [|done]. intros _. right. by intros k ?%elem_of_nil.
    + assert (Hkt : key_of_types types k) by (apply Hkeys; by left).
      destruct (Lookup_map (tree art) k (proj1 Ht) (key_of_types_bytes _ _ Hkt)
        (index_ok_separated _ _ _ Ht Hkt)) as (r & -> & Hr & _). cbn [mbind res_bind].
      destruct r as [l|]; simpl in Hr.
      * split; [done|]. intros [?|Hn]; [done|]. specialize (Hn k ltac:(by left)). congruence.
      * rewrite IH by (intros k' Hk'; apply Hkeys; by right). split; (intros [?|Hn]; [done|right]).
        -- intros k' [[= ->]|Hk']%elem_of_cons; [done|by apply Hn].
        -- intros k' Hk'. apply Hn. by right.
    + rewrite IH by (intros k' Hk'; apply Hkeys; by right). split; (intros [?|Hn]; [done|right]).
      * intros k' [[=]|Hk']%elem_of_cons. by apply Hn.
      * intros k' Hk'. apply Hn. by right.
Qed.

(** A chunk with a duplicate key for a unique index: everything is taken back. *)
Definition sample_chunk : list column := [mkColumn INT8 [Some (Num 11); None; Some (Num 12); Some (Num 5)]].

Lemma Chunk_operations_witness :
  index_ok [INT8] sample_tree ∧ Forall (column_ok 4) sample_chunk ∧
  ∃ t, ART_Insert true (mkART sample_tree true) sample_chunk [1; 2; 3; 4] = Ok (mkART t true, false) ∧
    index_map t = index_map sample_tree.
Proof.
  assert (Hc : Forall (column_ok 4) sample_chunk) by (repeat constructor).
  split; [exact sample_tree_ok|]. split; [exact Hc|].
  destruct (Chunk_operations true 4 (mkART sample_tree true) sample_chunk [1; 2; 3; 4] sample_tree_ok
    ltac:(discriminate) Hc eq_refl) as (keys & Hg & (t & ok & HI & _ & Hok & Hm) & _).
  assert (Hk : GenerateKeys true (IsLittleEndian true) sample_chunk =
    Ok [Some [139]; None; Some [140]; Some [133]]) by (vm_compute; reflexivity).
  rewrite Hk in Hg. injection Hg as <-. cbn [is_unique tree] in *.
  assert (Hf : fresh (index_map sample_tree) (zip [Some [139]; None; Some [140]; Some [133]] [1; 2; 3; 4]) =
    false) by (vm_compute; reflexivity).
  rewrite Hf in Hok. simpl in Hok. subst ok. exists t. by split.
Defined.

(** A string with a zero byte can have a key that continues the key of
    another string: the key of a value [e] is a proper prefix of the key of
    the value [e] followed by a zero byte and anything.  Inserting the second
    into a tree that holds the first reads behind the end of the first key. *)
Theorem Zero_byte_keys u e r p row row' fuel :
  let k1 := CreateKey_string e in
  let k2 := CreateKey_string (e ++ 0 :: r) in
  Insert u (S fuel) (Some (NLeaf p (Leaf_new k1 row))) k2 0 row' =
    Throw (UndefinedBehaviour "read behind the end of a key").
Proof.
  intros k1 k2. assert (Hk : k2 = k1 ++ (r ++ [0])).
  { unfold k1, k2, CreateKey_string. by rewrite <-!app_assoc. }
  cbn [Insert]. unfold InsertAtLeaf. cbn [value Leaf_new].
  assert (Hends : ∀ i, key_ends k1 k2 i = false).
  { intros i. unfold key_ends. apply andb_false_iff. right. apply Nat.eqb_neq.
    rewrite Hk, !length_app. simpl. lia. }
  rewrite Hends. assert (Hc : ∀ fuel pos, (pos <= length k1)%nat → (length k1 - pos < fuel)%nat →
    common_prefix fuel k1 k2 0 pos = Throw (UndefinedBehaviour "read behind the end of a key")).
  { clear -Hk Hends. intros fuel. induction fuel as [|fuel IH]; intros pos Hp Hf; [lia|]. cbn [common_prefix].
    unfold byte_at. simpl Nat.add. destruct (decide (pos = length k1)) as [->|Hne].
    - by rewrite (lookup_ge_None_2 k1) by lia.
    - destruct (lookup_lt_is_Some_2 k1 pos ltac:(lia)) as [x Hx]. rewrite Hk, lookup_app_l, Hx by lia.
      cbn [mbind res_bind]. rewrite Z.eqb_refl, <-Hk, Hends. apply IH; lia. }
  rewrite (Hc (S (length k1)) 0%nat) by lia. done.
Qed.
