(* ===== verification/ArtScan.v ===== *)
(** * Range scans over the radix tree

    Models the iterator and the scans of src/src/execution/index/art/art.cpp:
    [IteratorNext], [Bound], [FindMinimum], [IteratorScan], [SearchGreater],
    [SearchLess], [SearchCloseRange] and [Scan].  The stack of the iterator is
    the vector of the source with its size: an access behind its end is
    [UndefinedBehaviour].  The nodes that the stack points to are values, as a
    scan changes no node and holds the lock of the index.  The loops take
    fuel that is computed from the stack ([it_todo]).

    Theorems: the iterator visits the leaves in the order of their keys; a
    scan up to a bound returns exactly the rows of the keys up to it; a scan
    from a bound on, which starts at the minimum with the positions of the
    stack at zero, returns all rows of the matching keys, and no others when
    every node on the way to the minimum has a child at position zero; it is
    defined when there are at most eight nodes on that way, and not for nine. *)

From S2P Require Import Prelude Constants Serializer ChunkInfo MorselInfo ValidityMask Statistics.
From S2P Require Import UpdateKinds ArtKey ArtNode ArtTree.

(** ** The iterator *)

Record IteratorEntry : Type := mkEntry { entry_node : option Node; entry_pos : option nat }.

(** [IteratorEntry()]: [node = nullptr], [pos = 0] *)
Definition IteratorEntry_default : IteratorEntry := mkEntry None (Some 0%nat).

Record Iterator : Type := mkIterator {
  it_node : option Leaf; it_depth : nat; it_stack : list IteratorEntry; it_start : bool
}.
Definition Iterator_new : Iterator := mkIterator None 0 [] false.

Definition set_stack (it : Iterator) (s : list IteratorEntry) : Iterator :=
  mkIterator (it_node it) (it_depth it) s (it_start it).
Definition set_depth (it : Iterator) (d : nat) : Iterator :=
  mkIterator (it_node it) d (it_stack it) (it_start it).
Definition set_node (it : Iterator) (l : Leaf) : Iterator :=
  mkIterator (Some l) (it_depth it) (it_stack it) (it_start it).
Definition set_start (it : Iterator) : Iterator :=
  mkIterator (it_node it) (it_depth it) (it_stack it) true.

Definition SetEntry (it : Iterator) (entry_depth : nat) (e : IteratorEntry) : Iterator :=
  let s := it_stack it in
  let s := if (length s <? entry_depth + 1)%nat
           then s ++ replicate (Nat.max 8 (Nat.max (entry_depth + 1) (length s * 2)) - length s)
                       IteratorEntry_default
           else s in
  set_stack it (<[entry_depth := e]> s).

(** [it.stack[i]] *)
Definition stack_at (it : Iterator) (i : nat) : res IteratorEntry :=
  match it_stack it !! i with
  | Some e => Ok e
  | None => Throw (UndefinedBehaviour "access behind the end of the stack")
  end.

Definition null_node {A : Type} : res A := Throw (UndefinedBehaviour "null pointer to a node").

(** *** The steps that are left *)

(** The children of a node from a position on. *)
Definition children_from (n : Inner Node) (pos : nat) : list Node :=
  omap (GetChild n) (positions_from n pos).

(** One step for the node, and for each child one and its own. *)
Fixpoint todo (n : Node) : nat :=
  match n with
  | NLeaf _ _ => 1
  | NInner n => S (sum_list (omap (λ pos, S <$> GetChild (Inner_map todo n) pos) (positions_from n 0)))
  end.

Definition entry_todo (e : IteratorEntry) : nat :=
  match entry_node e with
  | Some (NInner n) => S (sum_list ((λ c, S (todo c)) <$> children_from n (from_option S 0%nat (entry_pos e))))
  | _ => 1
  end.

Definition it_todo (it : Iterator) : nat := sum_list (entry_todo <$> take (it_depth it) (it_stack it)).

(** *** [ART::IteratorNext] *)

Fixpoint next_loop (fuel : nat) (it : Iterator) : res (Iterator * bool) :=
  match fuel with
  | O => Throw out_of_fuel
  | S fuel =>
    match it_depth it with
    | O => Ok (it, false)
    | S d =>
      top ← stack_at it d;
      match entry_node top with
      | None => null_node
      | Some (NLeaf _ leaf) => Ok (set_node it leaf, true)
      | Some (NInner n) =>
        let pos := GetNextPos n (entry_pos top) in
        let it := set_stack it (<[d := mkEntry (Some (NInner n)) pos]> (it_stack it)) in
        match pos with
        | Some pos => next_loop fuel (set_depth (SetEntry it (S d) (mkEntry (GetChild n pos) None)) (S (S d)))
        | None => next_loop fuel (set_depth it d)
        end
      end
    end
  end.

Definition IteratorNext (it : Iterator) : res (Iterator * bool) :=
  let fuel := S (it_todo it) in
  match it_depth it with
  | O => next_loop fuel it
  | S d =>
    top ← stack_at it d;
    match entry_node top with
    | None => null_node
    | Some (NLeaf _ _) => next_loop fuel (set_depth it d)
    | Some (NInner _) => next_loop fuel it
    end
  end.

(** ** Finding the first leaf *)

(** The loop [while (node->type != NodeType::NLeaf)] of [Bound]: the entries
    are accessed without [SetEntry], and keep their position. *)
Fixpoint descend_min (fuel : nat) (node : Node) (it : Iterator) : res (Leaf * Iterator) :=
  match fuel with
  | O => Throw out_of_fuel
  | S fuel =>
    match node with
    | NLeaf _ leaf => Ok (leaf, it)
    | NInner n =>
      match GetMin n ≫= GetChild n with
      | None => null_node
      | Some c =>
        e ← stack_at it (it_depth it);
        let it := set_stack it (<[it_depth it := mkEntry (Some c) (entry_pos e)]> (it_stack it)) in
        descend_min fuel c (set_depth it (S (it_depth it)))
      end
    end
  end.

(** [!inclusive && !IteratorNext(it)], on a leaf with the key *)
Definition equal_leaf (inclusive : bool) (it : Iterator) : res (Iterator * bool) :=
  if inclusive then Ok (it, true) else IteratorNext it.

(** [while (IteratorNext(it))]: the first leaf that is not lower than the key *)
Fixpoint skip_lower (fuel : nat) (it : Iterator) (key : Key) (inclusive : bool) : res (Iterator * bool) :=
  match fuel with
  | O => Throw out_of_fuel
  | S fuel =>
    '(it, found) ← IteratorNext it;
    if (found : bool) then
      match it_node it with
      | None => null_node
      | Some leaf =>
        if Key_eq (value leaf) key then equal_leaf inclusive it
        else if Key_gt (value leaf) key then Ok (it, true)
        else skip_lower fuel it key inclusive
      end
    else Ok (it, false)
  end.

(** [Bound] from the first leaf on. *)
Definition at_leaf (it : Iterator) (leaf : Leaf) (key : Key) (inclusive : bool) : res (Iterator * bool) :=
  let it := set_node it leaf in
  if Key_eq (value leaf) key then equal_leaf inclusive it
  else if Key_gt (value leaf) key then Ok (it, true)
  else skip_lower (S (it_todo it)) it key inclusive.

(** The rest of the loop of [Bound], for an inner node: it is reached only
    when [equal] is set, which only this code does. *)
Definition set_top_pos (it : Iterator) (top : nat) (pos : option nat) : res Iterator :=
  e ← stack_at it top;
  Ok (set_stack it (<[top := mkEntry (entry_node e) pos]> (it_stack it))).

Fixpoint Bound_loop (fuel : nat) (node : Node) (key : Key) (it : Iterator) (depth : nat)
  (equal inclusive : bool) : res (Iterator * bool) :=
  match fuel with
  | O => Throw out_of_fuel
  | S fuel =>
    let top := it_depth it in
    let it := SetEntry it top (mkEntry (Some node) (Some 0%nat)) in
    let it := set_depth it (S top) in
    if equal then
      match node with
      | NLeaf _ leaf => at_leaf it leaf key inclusive
      | NInner n =>
        m ← PrefixMismatch n key depth;
        if (m =? length (prefix n))%nat then
          let depth := (depth + length (prefix n))%nat in
          b ← byte_at key depth;
          let '(pos, equal) := match GetChildGreaterEqual n b with
                               | Some (pos, equal) => (Some pos, equal)
                               | None => (GetMin n, equal)
                               end in
          it ← set_top_pos it top pos;
          match pos ≫= GetChild n with
          | None => null_node
          | Some c => Bound_loop fuel c key it (S depth) equal inclusive
          end
        else
          x ← byte_at (prefix n) m;
          y ← byte_at key (depth + m)%nat;
          if x <? y then IteratorNext (set_depth it top)
          else it ← set_top_pos it top None; IteratorNext it
      end
    else
      '(leaf, it) ← descend_min (S (todo node)) node it;
      at_leaf it leaf key inclusive
  end.

Definition Bound (t : option Node) (key : Key) (it : Iterator) (inclusive : bool) : res (Iterator * bool) :=
  match t with
  | None => Ok (set_depth it 0, false)
  | Some node => Bound_loop (S (todo node)) node key (set_depth it 0) 0 false inclusive
  end.

Definition min_position (n : Inner Node) : option nat :=
  match n with
  | Node4 _ _ _ _ | Node16 _ _ _ _ => Some 0%nat
  | Node48 _ _ child_index _ => first_pos (λ pos, non_empty (child_index !!! pos)) 0 256
  | Node256 _ _ child => first_pos (λ pos, non_null (child !!! pos)) 0 256
  end.

(** [FindMinimum]: the leaf is not pushed on the stack. *)
Fixpoint FindMinimum (fuel : nat) (it : Iterator) (node : Node) : res (Leaf * Iterator) :=
  match fuel with
  | O => Throw out_of_fuel
  | S fuel =>
    match node with
    | NLeaf _ leaf => Ok (leaf, set_node it leaf)
    | NInner n =>
      match min_position n with
      | None => Throw (UndefinedBehaviour "a node without children")
      | Some pos =>
        match GetChild n pos with
        | None => null_node
        | Some next =>
          let it := SetEntry it (it_depth it) (mkEntry (Some node) (Some pos)) in
          FindMinimum fuel (set_depth it (S (it_depth it))) next
        end
      end
    end
  end.

(** ** Scans *)

(** The bound of [IteratorScan<HAS_BOUND, INCLUSIVE>]: the key and [INCLUSIVE]. *)
Definition beyond (bound : option (Key * bool)) (leaf : Leaf) : bool :=
  match bound with
  | None => false
  | Some (k, true) => Key_gt (value leaf) k
  | Some (k, false) => Key_ge (value leaf) k
  end.

Fixpoint scan_loop (fuel : nat) (it : Iterator) (bound : option (Key * bool)) (max_count : nat)
  (result_ids : list Z) : res (Iterator * bool * list Z) :=
  match fuel with
  | O => Throw out_of_fuel
  | S fuel =>
    match it_node it with
    | None => null_node
    | Some leaf =>
      if beyond bound leaf then Ok (it, true, result_ids)
      else if (max_count <? length result_ids + num_elements leaf)%nat then Ok (it, false, result_ids)
      else
        let result_ids := result_ids ++ Leaf_rows leaf in
        '(it, has_next) ← IteratorNext it;
        if (has_next : bool) then scan_loop fuel it bound max_count result_ids
        else Ok (it, true, result_ids)
    end
  end.

Definition IteratorScan (it : Iterator) (bound : option (Key * bool)) (max_count : nat)
  (result_ids : list Z) : res (Iterator * bool * list Z) :=
  scan_loop (S (S (it_todo it))) it bound max_count result_ids.

Section Search.
Variables (t : option Node) (max_count : nat).

Definition SearchGreater (it : Iterator) (key : Key) (inclusive : bool) : res (bool * list Z) :=
  '(it, found) ← (if it_start it then Ok (it, true)
                  else '(it, found) ← Bound t key it inclusive;
                       Ok (if (found : bool) then set_start it else it, found));
  if (found : bool) then '(_, ok, ids) ← IteratorScan it None max_count []; Ok (ok, ids)
  else Ok (true, []).

Definition SearchLess (it : Iterator) (upper_bound : Key) (inclusive : bool) : res (bool * list Z) :=
  match t with
  | None => Ok (true, [])
  | Some node =>
    '(it, go) ← (if it_start it then Ok (it, true)
                 else '(minimum, it) ← FindMinimum (S (todo node)) it node;
                      if Key_gt (value minimum) upper_bound then Ok (it, false)
                      else Ok (set_start it, true));
    if (go : bool) then
      '(_, ok, ids) ← IteratorScan it (Some (upper_bound, inclusive)) max_count []; Ok (ok, ids)
    else Ok (true, [])
  end.

Definition SearchCloseRange (it : Iterator) (lower_bound upper_bound : Key)
  (left_inclusive right_inclusive : bool) : res (bool * list Z) :=
  '(it, found) ← (if it_start it then Ok (it, true)
                  else '(it, found) ← Bound t lower_bound it left_inclusive;
                       Ok (if (found : bool) then set_start it else it, found));
  if (found : bool) then
    '(_, ok, ids) ← IteratorScan it (Some (upper_bound, right_inclusive)) max_count []; Ok (ok, ids)
  else Ok (true, []).
End Search.

#[global] Instance ExpressionType_eq_dec : EqDecision ExpressionType.
Proof. solve_decision. Defined.

(** [ARTIndexScanState]: the values, the second one NULL for a single
    predicate, and their comparisons; the second one is not read for a single
    predicate. *)
Record ScanState : Type := mkScanState {
  values0 : cell; values1 : option cell;
  expressions0 : ExpressionType; expressions1 : ExpressionType; iterator : Iterator
}.

Definition InitializeScanSinglePredicate (v : cell) (e : ExpressionType) : ScanState :=
  mkScanState v None e COMPARE_NOTEQUAL Iterator_new.
Definition InitializeScanTwoPredicates (low : cell) (low_e : ExpressionType) (high : cell)
  (high_e : ExpressionType) : ScanState :=
  mkScanState low (Some high) low_e high_e Iterator_new.

(** The loop that copies sorted row ids without repetitions; [prev] is
    [row_ids[i - 1]]. *)
Fixpoint without_repetitions (prev : Z) (row_ids : list Z) : list Z :=
  match row_ids with
  | [] => []
  | r :: rest => if r =? prev then without_repetitions r rest else r :: without_repetitions r rest
  end.

(** [sort(row_ids.begin(), row_ids.end())] and the loop *)
Definition sort_unique (row_ids : list Z) : list Z :=
  match merge_sort Z.le row_ids with
  | [] => []
  | r :: rest => r :: without_repetitions r rest
  end.

Definition ART_Scan (machine : bool) (art : ART) (type : PhysicalType) (state : ScanState)
  (max_count : nat) (result_ids : list Z) : res (bool * list Z) :=
  let CreateKey := CreateKey machine (IsLittleEndian machine) type in
  '(success, row_ids) ←
    match values1 state with
    | None =>
      match expressions0 state with
      | COMPARE_EQUAL => SearchEqual machine art type (values0 state) max_count
      | COMPARE_GREATERTHANOREQUALTO =>
        k ← CreateKey (values0 state); SearchGreater (tree art) max_count (iterator state) k true
      | COMPARE_GREATERTHAN =>
        k ← CreateKey (values0 state); SearchGreater (tree art) max_count (iterator state) k false
      | COMPARE_LESSTHANOREQUALTO =>
        k ← CreateKey (values0 state); SearchLess (tree art) max_count (iterator state) k true
      | COMPARE_LESSTHAN =>
        k ← CreateKey (values0 state); SearchLess (tree art) max_count (iterator state) k false
      | COMPARE_NOTEQUAL => Throw (NotImplementedException "Operation not implemented")
      end
    | Some high =>
      lower ← CreateKey (values0 state); upper ← CreateKey high;
      SearchCloseRange (tree art) max_count (iterator state) lower upper
        (bool_decide (expressions0 state = COMPARE_GREATERTHANOREQUALTO))
        (bool_decide (expressions1 state = COMPARE_LESSTHANOREQUALTO))
    end;
  if (success : bool) then Ok (true, result_ids ++ sort_unique row_ids) else Ok (false, result_ids).

(** ** The iterator: proofs *)

Lemma omap_map {A B C} (f : A → option B) (g : B → C) (l : list A) :
  omap (λ x, g <$> f x) l = g <$> omap f l.
Proof. induction l as [|x l IH]; [done|]. simpl. destruct (f x); simpl; [f_equal|]; exact IH. Qed.

Lemma omap_GetChild_map {B} (f : Node → B) n (l : list nat) :
  omap (GetChild (Inner_map f n)) l = f <$> omap (GetChild n) l.
Proof.
  rewrite <-omap_map. induction l as [|pos l IH]; [done|]. simpl. rewrite GetChild_map.
  destruct (GetChild n pos); simpl; [f_equal|]; exact IH.
Qed.

Lemma leaves_inner n : leaves (NInner n) = mjoin (leaves <$> children_from n 0).
Proof. simpl. by rewrite omap_GetChild_map. Qed.

Lemma todo_inner n : todo (NInner n) = S (sum_list ((λ c, S (todo c)) <$> children_from n 0)).
Proof.
  simpl. rewrite omap_map, omap_GetChild_map. unfold children_from. by rewrite <-list_fmap_compose.
Qed.

Section Children.
Variables (path : list Z) (n : Inner Node).
Hypothesis W : Node_wf path (NInner n).

Lemma inner_facts : Inner_wf n ∧ (0 < count n)%nat.
Proof. inversion W. subst. pose proof (min_count_pos n). split; [done|lia]. Qed.

Lemma child_wf pos c : used n pos = true → GetChild n pos = Some c → ∃ path', Node_wf path' c.
Proof.
  intros Hu Hg. inversion W as [|? ? Wn _ _ Hc]; subst.
  destruct (used_spec n pos Wn Hu) as (Hk & Hpos & _). eexists. apply (Hc _ _ Hk).
  unfold child_at. by rewrite Hpos.
Qed.

(** [GetNextPos] and [GetChild] go through the children. *)
Lemma next_child pos :
  match GetNextPos n pos with
  | Some q => ∃ c, GetChild n q = Some c ∧ (∃ path', Node_wf path' c) ∧
      children_from n (from_option S 0%nat pos) = c :: children_from n (S q)
  | None => children_from n (from_option S 0%nat pos) = []
  end.
Proof.
  destruct inner_facts as [Wn Hc]. rewrite GetNextPos_used by done. unfold children_from.
  rewrite (first_used n (from_option S 0%nat pos)).
  destruct (first_pos (used n) _ 256) as [q|] eqn:Hq; [|done].
  apply first_pos_Some in Hq as (_ & Hu & _). destruct (used_spec n q Wn Hu) as (_ & _ & [c Hg]).
  exists c. split_and!; [done|by eapply child_wf|]. simpl. by rewrite Hg.
Qed.

(** The minimum is the first child. *)
Lemma min_child :
  ∃ q c, GetMin n = Some q ∧ min_position n = Some q ∧ GetChild n q = Some c ∧
    (∃ path', Node_wf path' c) ∧ children_from n 0 = c :: children_from n (S q).
Proof.
  destruct inner_facts as [Wn Hc]. pose proof (next_child None) as Hn.
  rewrite <-GetMin_next in Hn by done. simpl in Hn.
  assert (Hmin : min_position n = GetMin n) by (by destruct n).
  destruct (GetMin n) as [q|] eqn:Hq.
  - destruct Hn as (c & Hg & Wc & Hch). exists q, c. by rewrite Hmin.
  - exfalso. destruct (count_used n Wn Hc) as [pos Hu]. rewrite GetMin_next in Hq by done.
    rewrite GetNextPos_used, first_pos_None in Hq by done.
    assert (Hp : pos ∈ positions_from n 0) by (apply elem_of_positions; [done|]; split; [lia|done]).
    unfold positions_from in Hp. apply list_elem_of_filter in Hp as [_ Hp%elem_of_seq].
    rewrite Hq in Hu by (simpl; lia). done.
Qed.
End Children.

(** The leaves that an entry leads to, and those of a stack. *)
Definition entry_leaves (e : IteratorEntry) : list Leaf :=
  match entry_node e with
  | Some (NLeaf _ l) => [l]
  | Some (NInner n) => mjoin (leaves <$> children_from n (from_option S 0%nat (entry_pos e)))
  | None => []
  end.

Fixpoint pending (es : list IteratorEntry) : list Leaf :=
  match es with
  | [] => []
  | e :: es => pending es ++ entry_leaves e
  end.

Lemma pending_snoc es e : pending (es ++ [e]) = entry_leaves e ++ pending es.
Proof. induction es as [|e' es IH]; simpl; [by rewrite app_nil_r|]. by rewrite IH, app_assoc. Qed.

Definition entry_ok (e : IteratorEntry) : Prop := ∃ n path, entry_node e = Some n ∧ Node_wf path n.

(** The entries in use. *)
Definition it_has (it : Iterator) (es : list IteratorEntry) : Prop :=
  take (it_depth it) (it_stack it) = es ∧ it_depth it = length es ∧ Forall entry_ok es.

Definition es_todo (es : list IteratorEntry) : nat := sum_list (entry_todo <$> es).

Lemma es_todo_snoc es e : es_todo (es ++ [e]) = (es_todo es + entry_todo e)%nat.
Proof. unfold es_todo. rewrite fmap_app, sum_list_with_app. simpl. lia. Qed.

Lemma it_has_top it es e :
  it_has it (es ++ [e]) → it_depth it = S (length es) ∧ stack_at it (length es) = Ok e ∧
  (length es < length (it_stack it))%nat ∧ take (length es) (it_stack it) = es.
Proof.
  intros (Ht & Hd & _). rewrite length_app in Hd. simpl in Hd.
  assert (He : it_stack it !! length es = Some e).
  { assert (Hl : take (it_depth it) (it_stack it) !! length es = Some e)
      by (rewrite Ht; by rewrite list_lookup_middle).
    rewrite lookup_take_lt in Hl by lia. done. }
  split_and!; [lia| |by eapply lookup_lt_Some|].
  - unfold stack_at. by rewrite He.
  - apply (f_equal (take (length es))) in Ht. rewrite take_take, take_app_length in Ht.
    replace (length es `min` it_depth it)%nat with (length es) in Ht by lia. done.
Qed.

Lemma it_has_pop it es e : it_has it (es ++ [e]) → it_has (set_depth it (length es)) es.
Proof.
  intros H. destruct (it_has_top _ _ _ H) as (_ & _ & _ & Ht). destruct H as (_ & _ & Hok).
  split_and!; [done..|]. by apply Forall_app in Hok as [? _].
Qed.

(** A new top entry through [SetEntry]. *)
Lemma it_has_push it es e :
  it_has it es → entry_ok e →
  it_has (set_depth (SetEntry it (length es) e) (S (length es))) (es ++ [e]).
Proof.
  intros (Ht & Hd & Hok) He. unfold it_has, SetEntry. cbn [set_depth set_stack it_depth it_stack].
  match goal with |- context [<[length es := e]> ?s'] => set (s := s') end.
  assert (Hs : (length es < length s)%nat ∧ take (length es) s = es).
  { unfold s. apply (f_equal length) in Ht as Hl. rewrite length_take in Hl.
    destruct (Nat.ltb_spec (length (it_stack it)) (length es + 1)); [|split; [lia|by rewrite <-Hd]].
    rewrite length_app, length_replicate. split; [lia|].
    rewrite take_app_le by lia. by rewrite <-Hd. }
  destruct Hs as [Hl Hs]. split_and!; [|rewrite length_app; simpl; lia|].
  - rewrite (take_S_r _ _ e) by (by apply list_lookup_insert_eq).
    by rewrite take_insert_ge, Hs.
  - apply Forall_app. by split; [|constructor].
Qed.

Lemma it_has_set_top it es e e' :
  it_has it (es ++ [e]) → entry_ok e' →
  it_has (set_stack it (<[length es := e']> (it_stack it))) (es ++ [e']).
Proof.
  intros H He'. destruct (it_has_top _ _ _ H) as (Hd & _ & Hl & Ht). destruct H as (_ & _ & Hok).
  unfold it_has. cbn [set_stack it_depth it_stack]. rewrite Hd. split_and!.
  - rewrite (take_S_r _ _ e') by (by apply list_lookup_insert_eq). by rewrite take_insert_ge, Ht.
  - rewrite length_app. simpl. lia.
  - apply Forall_app in Hok as [Hok _]. apply Forall_app. by split; [|constructor].
Qed.

Lemma it_todo_has it es : it_has it es → it_todo it = es_todo es.
Proof. intros (Ht & _ & _). unfold it_todo. by rewrite Ht. Qed.

Lemma todo_entry n : todo n = entry_todo (mkEntry (Some n) None).
Proof. destruct n as [p l|n]; [done|]. by rewrite todo_inner. Qed.

Lemma leaves_entry n : leaves n = entry_leaves (mkEntry (Some n) None).
Proof. destruct n as [p l|n]; [done|]. by rewrite leaves_inner. Qed.

(** The loop of [IteratorNext]: the first pending leaf, which is on top of the
    stack then, with the other pending leaves below it. *)
Lemma next_loop_spec fuel it es :
  it_has it es → (es_todo es < fuel)%nat →
  ∃ it', next_loop fuel it = Ok (it', match pending es with [] => false | _ => true end) ∧
    it_start it' = it_start it ∧
    match pending es with
    | [] => True
    | l :: ls => it_node it' = Some l ∧ ∃ es' p pos,
        it_has it' (es' ++ [mkEntry (Some (NLeaf p l)) pos]) ∧ pending es' = ls ∧
        (es_todo es' < es_todo es)%nat
    end.
Proof.
  revert it es. induction fuel as [|fuel IH]; intros it es Hit Hf; [lia|]. cbn [next_loop].
  destruct es as [|e es _] using rev_ind.
  { destruct Hit as (_ & -> & _). simpl. by eexists. }
  destruct (it_has_top _ _ _ Hit) as (-> & -> & _ & _). cbn [mbind res_bind].
  rewrite es_todo_snoc in Hf. rewrite pending_snoc.
  assert (Hok : entry_ok e) by (destruct Hit as (_ & _ & [_ Hok]%Forall_app); by inversion Hok).
  destruct Hok as (nd & path & Hn & Wn). destruct e as [en pos]. simpl in Hn. subst en. cbn [entry_node].
  destruct nd as [p l|n].
  - simpl. eexists. split_and!; [done..|]. exists es, p, pos.
    split_and!; [done..|]. rewrite es_todo_snoc. cbn [entry_todo entry_node]. lia.
  - cbn [entry_pos]. pose proof (next_child path n Wn pos) as Hnext.
    assert (Hset : ∀ pos', it_has (set_stack it (<[length es := mkEntry (Some (NInner n)) pos']> (it_stack it)))
      (es ++ [mkEntry (Some (NInner n)) pos'])).
    { intros pos'. eapply it_has_set_top; [done|]. by exists (NInner n), path. }
    destruct (GetNextPos n pos) as [q|].
    + destruct Hnext as (c & -> & [path' Wc] & Hch).
      assert (Hpush := it_has_push _ _ (mkEntry (Some c) None) (Hset (Some q)) ltac:(by exists c, path')).
      rewrite length_app, Nat.add_1_r in Hpush.
      assert (Hpend : pending ((es ++ [mkEntry (Some (NInner n)) (Some q)]) ++ [mkEntry (Some c) None]) =
        entry_leaves (mkEntry (Some (NInner n)) pos) ++ pending es).
      { rewrite !pending_snoc, <-leaves_entry, app_assoc. f_equal. unfold entry_leaves. simpl.
        by rewrite Hch. }
      assert (Htodo : S (es_todo ((es ++ [mkEntry (Some (NInner n)) (Some q)]) ++ [mkEntry (Some c) None])) =
        (es_todo es + entry_todo (mkEntry (Some (NInner n)) pos))%nat).
      { rewrite !es_todo_snoc, <-todo_entry. unfold entry_todo. simpl. rewrite Hch, fmap_cons. simpl. unfold id. lia. }
      destruct (IH _ _ Hpush ltac:(lia)) as (it' & He & Hst & Hr). rewrite Hpend in He, Hr.
      exists it'. split_and!; [done|by rewrite Hst; unfold SetEntry; destruct (Nat.ltb _ _)|].
      destruct (entry_leaves _ ++ pending es) as [|l ls]; [done|].
      destruct Hr as (Hnode & es' & p & pos' & Hhas & Hp & Ht). split; [done|].
      exists es', p, pos'. split_and!; [done..|]. rewrite es_todo_snoc. lia.
    + assert (Hlv : entry_leaves (mkEntry (Some (NInner n)) pos) = [])
        by (unfold entry_leaves; simpl; by rewrite Hnext).
      rewrite Hlv. simpl app. assert (Hpop := it_has_pop _ _ _ (Hset None)).
      assert (H1 : (1 <= entry_todo (mkEntry (Some (NInner n)) pos))%nat)
        by (unfold entry_todo; cbn [entry_node]; lia).
      destruct (IH _ _ Hpop ltac:(lia)) as (it' & He & Hst & Hr). exists it'. split_and!; [done..|].
      destruct (pending es) as [|l ls]; [done|].
      destruct Hr as (Hnode & es' & p & pos' & Hhas & Hp & Ht). split; [done|].
      exists es', p, pos'. split_and!; [done..|]. rewrite es_todo_snoc. lia.
Qed.

Lemma length_children (cs : list Node) :
  (∀ c, c ∈ cs → (length (leaves c) <= todo c)%nat) →
  (length (mjoin (leaves <$> cs)) <= sum_list ((λ c, S (todo c)) <$> cs))%nat.
Proof.
  induction cs as [|c cs IH]; intros H; [simpl; lia|].
  rewrite !fmap_cons, join_cons, sum_list_cons, length_app. specialize (IH ltac:(intros c' Hc'; apply H; by right)).
  specialize (H c ltac:(by left)). lia.
Qed.

Lemma elem_of_children n pos c : c ∈ children_from n pos → ∃ q, GetChild n q = Some c.
Proof. intros (q & _ & Hq)%list_elem_of_omap. by exists q. Qed.

Lemma length_leaves n : (length (leaves n) <= todo n)%nat.
Proof.
  induction n as [p l|n IH] using Node_ind; [simpl; lia|]. rewrite leaves_inner, todo_inner.
  etrans; [apply length_children|lia]. intros c [q Hq]%elem_of_children. by eapply IH.
Qed.

Lemma length_pending es : (length (pending es) <= es_todo es)%nat.
Proof.
  induction es as [|e es IH] using rev_ind; [simpl; lia|]. rewrite pending_snoc, es_todo_snoc, length_app.
  assert (length (entry_leaves e) <= entry_todo e)%nat; [|lia].
  unfold entry_leaves, entry_todo. destruct (entry_node e) as [[p l|n]|]; [simpl; lia| |simpl; lia].
  etrans; [apply length_children|lia]. intros c _. apply length_leaves.
Qed.

(** The iterator is at the leaf [l], and the leaves [ls] follow. *)
Definition current (it : Iterator) (l : Leaf) (ls : list Leaf) : Prop :=
  it_node it = Some l ∧ ∃ es, pending es = ls ∧
    ((it_has it es ∧ Forall (λ e, ∃ n, entry_node e = Some (NInner n)) es) ∨
     ∃ p pos, it_has it (es ++ [mkEntry (Some (NLeaf p l)) pos])).

Lemma IteratorNext_spec it l ls :
  current it l ls →
  ∃ it', IteratorNext it = Ok (it', match ls with [] => false | _ => true end) ∧
    it_start it' = it_start it ∧
    match ls with [] => True | l' :: ls' => current it' l' ls' end.
Proof.
  intros (_ & es & <- & Hit). unfold IteratorNext.
  assert (Hnext : ∀ it0 fuel, it_has it0 es → (es_todo es < fuel)%nat → it_start it0 = it_start it →
    ∃ it', next_loop fuel it0 = Ok (it', match pending es with [] => false | _ => true end) ∧
    it_start it' = it_start it ∧
    match pending es with [] => True | l' :: ls' => current it' l' ls' end).
  { intros it0 fuel H0 Hf Hst. destruct (next_loop_spec fuel it0 es H0 Hf) as (it' & He & Hst' & Hr).
    exists it'. split_and!; [done|congruence|]. destruct (pending es) as [|l' ls']; [done|].
    destruct Hr as (Hn & es' & p & pos & Hh & Hp & _). split; [done|]. exists es'. split; [done|].
    right. by exists p, pos. }
  destruct Hit as [[Hit Hin]|(p & pos & Hit)].
  - destruct es as [|e es _] using rev_ind.
    + pose proof Hit as (_ & Hd & _). rewrite Hd. simpl length. cbv iota.
      apply Hnext; [done|change (es_todo []) with 0%nat; lia|done].
    + destruct (it_has_top _ _ _ Hit) as (-> & -> & _ & _). cbn [mbind res_bind].
      apply Forall_app in Hin as [_ [[n ->] _]%Forall_cons_1].
      apply Hnext; [done|rewrite (it_todo_has _ _ Hit); lia|done].
  - destruct (it_has_top _ _ _ Hit) as (-> & -> & _ & _). cbn [mbind res_bind entry_node].
    apply Hnext; [by eapply it_has_pop| |done].
    rewrite (it_todo_has _ _ Hit), es_todo_snoc. lia.
Qed.

Lemma current_fuel it l ls : current it l ls → (length ls <= it_todo it)%nat.
Proof.
  intros (_ & es & <- & Hit). pose proof (length_pending es).
  destruct Hit as [[Hit _]|(p & pos & Hit)]; rewrite (it_todo_has _ _ Hit); [done|].
  rewrite es_todo_snoc. lia.
Qed.

(** ** Scans over a list of leaves *)

Fixpoint scan_list (bound : option (Key * bool)) (max_count : nat) (ids : list Z) (ls : list Leaf)
  : bool * list Z :=
  match ls with
  | [] => (true, ids)
  | l :: ls =>
    if beyond bound l then (true, ids)
    else if (max_count <? length ids + num_elements l)%nat then (false, ids)
    else scan_list bound max_count (ids ++ Leaf_rows l) ls
  end.

Lemma IteratorScan_spec it l ls bound max_count ids :
  current it l ls →
  ∃ it', IteratorScan it bound max_count ids =
    Ok (it', (scan_list bound max_count ids (l :: ls)).1, (scan_list bound max_count ids (l :: ls)).2).
Proof.
  intros Hc. unfold IteratorScan. pose proof (current_fuel it l ls Hc) as Hf.
  assert (Hf' : (length ls < S (S (it_todo it)))%nat) by lia. clear Hf.
  remember (S (S (it_todo it))) as fuel eqn:Hfuel. clear Hfuel.
  revert it l ls ids Hc Hf'. induction fuel as [|fuel IH]; intros it l ls ids Hc Hf; [lia|].
  cbn [scan_loop scan_list]. pose proof Hc as [-> _].
  destruct (beyond bound l); [by eexists|].
  destruct (max_count <? length ids + num_elements l)%nat; [by eexists|].
  destruct (IteratorNext_spec it l ls Hc) as (it' & -> & _ & Hr). cbn [mbind res_bind].
  destruct ls as [|l' ls']; [by eexists|]. apply IH; [done|simpl in Hf; lia].
Qed.

(** What [Bound] leaves of the leaves from the first one on. *)
Fixpoint bound_list (key : Key) (inclusive : bool) (ls : list Leaf) : list Leaf :=
  match ls with
  | [] => []
  | l :: ls' =>
    if Key_eq (value l) key then if inclusive then ls else ls'
    else if Key_gt (value l) key then ls else bound_list key inclusive ls'
  end.

(** The iterator is at the first leaf of a list, if there is one. *)
Definition at_list (ls : list Leaf) (r : res (Iterator * bool)) : Prop :=
  match ls with
  | [] => ∃ it, r = Ok (it, false)
  | l :: ls => ∃ it, r = Ok (it, true) ∧ current it l ls
  end.

Lemma equal_leaf_spec (inclusive : bool) it l ls :
  current it l ls → at_list (if inclusive then l :: ls else ls) (equal_leaf inclusive it).
Proof.
  intros Hc. unfold equal_leaf. destruct inclusive; [by exists it|].
  destruct (IteratorNext_spec it l ls Hc) as (it' & -> & _ & Hr). destruct ls; by exists it'.
Qed.

Lemma skip_lower_spec fuel it l ls key inclusive :
  current it l ls → (length ls < fuel)%nat →
  at_list (bound_list key inclusive ls) (skip_lower fuel it key inclusive).
Proof.
  revert it l ls. induction fuel as [|fuel IH]; intros it l ls Hc Hf; [lia|]. cbn [skip_lower].
  destruct (IteratorNext_spec it l ls Hc) as (it' & -> & _ & Hr). cbn [mbind res_bind].
  destruct ls as [|l' ls]; [by exists it'|]. cbn [bound_list]. pose proof Hr as [-> _].
  destruct (Key_eq (value l') key); [by apply equal_leaf_spec|].
  destruct (Key_gt (value l') key); [by exists it'|]. apply (IH it' l'); [done|simpl in Hf; lia].
Qed.

Lemma at_leaf_spec it l ls key inclusive :
  current (set_node it l) l ls →
  at_list (bound_list key inclusive (l :: ls)) (at_leaf it l key inclusive).
Proof.
  intros Hc. unfold at_leaf. cbn [bound_list].
  destruct (Key_eq (value l) key); [by apply equal_leaf_spec|].
  destruct (Key_gt (value l) key); [by eexists|].
  eapply skip_lower_spec; [done|]. pose proof (current_fuel _ _ _ Hc). lia.
Qed.

(** ** The first leaf *)

Lemma todo_min n c q : GetChild n q = Some c → q ∈ positions_from n 0 → (todo c < todo (NInner n))%nat.
Proof.
  intros Hg Hq. rewrite todo_inner. assert (Hc : c ∈ children_from n 0)
    by (apply list_elem_of_omap; by exists q).
  induction (children_from n 0) as [|c' cs IH]; [by apply elem_of_nil in Hc|].
  rewrite fmap_cons, sum_list_cons. apply elem_of_cons in Hc as [->|Hc]; [lia|]. specialize (IH Hc). lia.
Qed.

(** [FindMinimum] leaves the iterator at the first leaf of the node, with its
    other leaves to follow. *)
Lemma FindMinimum_spec fuel it es path n :
  Node_wf path n → it_has it es → Forall (λ e, ∃ n, entry_node e = Some (NInner n)) es →
  (todo n < fuel)%nat →
  ∃ l ls it', FindMinimum fuel it n = Ok (l, it') ∧ leaves n = l :: ls ∧
    it_start it' = it_start it ∧ current it' l (ls ++ pending es).
Proof.
  revert it es path n. induction fuel as [|fuel IH]; intros it es path n W Hit Hin Hf; [lia|].
  cbn [FindMinimum]. destruct n as [p l|n].
  - exists l, [], (set_node it l). split_and!; [done..|]. split; [done|]. exists es. split; [done|]. by left.
  - destruct (min_child path n W) as (q & c & HgM & -> & Hg & [path' Wc] & Hch). rewrite Hg.
    pose proof Hit as (_ & Hd & _). rewrite Hd.
    assert (Hpush := it_has_push it es (mkEntry (Some (NInner n)) (Some q)) Hit
      ltac:(by exists (NInner n), path)).
    replace (it_depth (SetEntry it (length es) (mkEntry (Some (NInner n)) (Some q)))) with (length es)
      by (by rewrite <-Hd).
    destruct (IH _ _ path' c Wc Hpush) as (l & ls & it' & He & Hl & Hst & Hc).
    { apply Forall_app. split; [done|]. constructor; [by exists n|done]. }
    { assert (todo c < todo (NInner n))%nat; [|lia]. apply (todo_min n c q); [done|].
      destruct (inner_facts _ _ W) as [Wn _]. apply elem_of_positions; [done|]. split; [lia|].
      rewrite GetMin_next, GetNextPos_used in HgM by apply (inner_facts _ _ W).
      by apply first_pos_Some in HgM as (_ & ? & _). }
    exists l, (ls ++ mjoin (leaves <$> children_from n (S q))), it'. split_and!; [done| |done|].
    + rewrite leaves_inner, Hch, fmap_cons, join_cons, Hl. done.
    + rewrite pending_snoc in Hc. unfold entry_leaves in Hc. simpl in Hc. by rewrite <-app_assoc.
Qed.

(** The leaves that the iterator visits after [Bound] has gone down to the
    minimum with the position zero at every node. *)
Fixpoint visits (n : Node) : list Leaf :=
  match n with
  | NLeaf _ l => [l]
  | NInner n => from_option id [] (GetMin n ≫= GetChild (Inner_map visits n)) ++
                mjoin (leaves <$> children_from n 1)
  end.

(** The number of nodes on the way to the minimum. *)
Fixpoint left_height (n : Node) : nat :=
  match n with
  | NLeaf _ _ => 1
  | NInner n => S (from_option id 0%nat (GetMin n ≫= GetChild (Inner_map left_height n)))
  end.

(** Every node on the way to the minimum has a child at position zero. *)
Fixpoint zero_first (n : Node) : bool :=
  match n with
  | NLeaf _ _ => true
  | NInner n => bool_decide (GetMin n = Some 0%nat) &&
                from_option id false (GetMin n ≫= GetChild (Inner_map zero_first n))
  end.

Lemma min_map {B} (f : Node → B) n q c :
  GetMin n = Some q → GetChild n q = Some c → GetMin n ≫= GetChild (Inner_map f n) = Some (f c).
Proof. intros -> Hg. simpl. by rewrite GetChild_map, Hg. Qed.

Lemma visits_inner n q c :
  GetMin n = Some q → GetChild n q = Some c →
  visits (NInner n) = visits c ++ mjoin (leaves <$> children_from n 1).
Proof. intros Hq Hg. simpl. by rewrite (min_map visits n q c). Qed.

Lemma left_height_inner n q c :
  GetMin n = Some q → GetChild n q = Some c → left_height (NInner n) = S (left_height c).
Proof. intros Hq Hg. simpl. by rewrite (min_map left_height n q c). Qed.

Lemma zero_first_inner n q c :
  GetMin n = Some q → GetChild n q = Some c →
  zero_first (NInner n) = bool_decide (q = 0%nat) && zero_first c.
Proof.
  intros Hq Hg. simpl. rewrite (min_map zero_first n q c) by done. rewrite Hq. simpl. f_equal.
  apply bool_decide_ext. naive_solver.
Qed.

Lemma descend_min_spec fuel it es path n k :
  Node_wf path n → (todo n < fuel)%nat → (left_height n <= S k)%nat →
  it_stack it = (es ++ [mkEntry (Some n) (Some 0%nat)]) ++ replicate k IteratorEntry_default →
  it_depth it = S (length es) → Forall entry_ok es →
  ∃ l ls it', descend_min fuel n it = Ok (l, it') ∧ visits n = l :: ls ∧
    current (set_node it' l) l (ls ++ pending es).
Proof.
  revert it es path n k. induction fuel as [|fuel IH]; intros it es path n k W Hf Hk Hs Hd Hok; [lia|].
  cbn [descend_min]. destruct n as [p l|n].
  - exists l, [], it. split_and!; [done..|]. split; [done|]. exists es. split; [done|]. right. exists p, (Some 0%nat).
    split_and!; cbn [set_node it_depth it_stack].
    + rewrite Hs, Hd. apply take_app_length'. rewrite length_app. simpl. lia.
    + rewrite length_app. simpl. lia.
    + apply Forall_app. split; [done|]. constructor; [|done]. by exists (NLeaf p l), path.
  - destruct (min_child path n W) as (q & c & HgM & _ & Hg & [path' Wc] & Hch).
    rewrite HgM. simpl mbind. cbv beta iota. rewrite Hg.
    rewrite (left_height_inner n q c) in Hk by done. destruct k as [|k].
    { destruct c; simpl in Hk; lia. }
    assert (Hat : it_stack it !! it_depth it = Some IteratorEntry_default).
    { rewrite Hs, Hd, lookup_app_r by (rewrite length_app; simpl; lia). rewrite length_app. simpl.
      by replace (S (length es) - (length es + 1))%nat with 0%nat by lia. }
    unfold stack_at. rewrite Hat. cbn [mbind res_bind entry_pos IteratorEntry_default].
    destruct (IH (set_depth (set_stack it (<[it_depth it := mkEntry (Some c) (Some 0%nat)]> (it_stack it)))
      (S (it_depth it))) (es ++ [mkEntry (Some (NInner n)) (Some 0%nat)]) path' c k)
      as (l & ls & it' & He & Hv & Hc).
    { done. }
    { assert (todo c < todo (NInner n))%nat; [|lia]. apply (todo_min n c q); [done|].
      destruct (inner_facts _ _ W) as [Wn _]. apply elem_of_positions; [done|]. split; [lia|].
      rewrite GetMin_next, GetNextPos_used in HgM by apply (inner_facts _ _ W).
      by apply first_pos_Some in HgM as (_ & ? & _). }
    { lia. }
    { cbn [set_depth set_stack it_stack]. rewrite Hs, Hd.
      rewrite (insert_app_r_alt (es ++ _)) by (rewrite length_app; simpl; lia). rewrite length_app.
      simpl. replace (S (length es) - (length es + 1))%nat with 0%nat by lia. simpl.
      rewrite <-(app_assoc (es ++ _)). done. }
    { cbn [set_depth set_stack it_depth]. rewrite Hd, length_app. simpl. lia. }
    { apply Forall_app. split; [done|]. constructor; [|done]. by exists (NInner n), path. }
    exists l, (ls ++ mjoin (leaves <$> children_from n 1)), it'. split_and!; [done| |].
    + by rewrite (visits_inner n q c), Hv.
    + rewrite pending_snoc in Hc. unfold entry_leaves in Hc. simpl in Hc. by rewrite <-app_assoc.
Qed.

Lemma Bound_spec path n key inclusive :
  Node_wf path n → (left_height n <= 8)%nat →
  at_list (bound_list key inclusive (visits n)) (Bound (Some n) key Iterator_new inclusive).
Proof.
  intros W Hh. unfold Bound. cbn [Bound_loop]. cbn [set_depth Iterator_new it_depth].
  edestruct (descend_min_spec (S (todo n)) (set_depth (SetEntry (set_depth Iterator_new 0) 0
    (mkEntry (Some n) (Some 0%nat))) 1) [] path n 7) as (l & ls & it' & He & Hv & Hc); [done|lia|done..|].
  unfold set_depth, Iterator_new in *. cbn [it_node it_depth it_stack it_start] in *.
  rewrite He. cbn [mbind res_bind]. rewrite Hv. apply at_leaf_spec. by rewrite app_nil_r in Hc.
Qed.

(** ** What the scans visit *)

(** The leaves before the first one that is beyond the bound. *)
Fixpoint upto (bad : Leaf → bool) (ls : list Leaf) : list Leaf :=
  match ls with
  | [] => []
  | l :: ls => if bad l then [] else l :: upto bad ls
  end.

Definition upward (bad : Leaf → bool) : Prop := ∀ l l', bad l = true → leaf_lt l l' → bad l' = true.

Lemma beyond_upward bound : upward (beyond bound).
Proof.
  intros l l' Hb Hlt. destruct bound as [[k []]|]; [..|done]; simpl in *.
  - rewrite Key_gt_lt in *. by eapply Key_lt_trans.
  - rewrite Key_ge_lt in *. destruct (Key_lt (value l') k) eqn:He; [|done].
    rewrite (Key_lt_trans _ _ _ Hlt He) in Hb. done.
Qed.

Lemma upto_app_l bad l ls ls' : l ∈ upto bad ls → l ∈ upto bad (ls ++ ls').
Proof.
  induction ls as [|x ls IH]; simpl; [by intros ?%elem_of_nil|]. destruct (bad x); [by intros ?%elem_of_nil|].
  rewrite !elem_of_cons. naive_solver.
Qed.

Lemma upto_app_r bad l ls ls' :
  (∀ x, x ∈ ls → bad x = false) → l ∈ upto bad ls' → l ∈ upto bad (ls ++ ls').
Proof.
  induction ls as [|x ls IH]; intros Hx Hl; [done|]. simpl. rewrite (Hx x) by (by left).
  right. apply IH; [|done]. intros y Hy. apply Hx. by right.
Qed.

Lemma upto_sorted bad l ls :
  upward bad → StronglySorted leaf_lt ls → l ∈ ls → bad l = false → l ∈ upto bad ls.
Proof.
  intros Hup Hs Hl Hb. induction Hs as [|x ls Hs IH Hf]; [by apply elem_of_nil in Hl|]. simpl.
  apply elem_of_cons in Hl as [->|Hl]; [rewrite Hb; by left|].
  rewrite Forall_forall in Hf. destruct (bad x) eqn:Hx; [|right; by apply IH].
  by rewrite (Hup _ _ Hx (Hf _ Hl)) in Hb.
Qed.

Lemma upto_sound bad l ls : l ∈ upto bad ls → l ∈ ls ∧ bad l = false.
Proof.
  induction ls as [|x ls IH]; simpl; [by intros ?%elem_of_nil|].
  destruct (bad x) eqn:Hx; [by intros ?%elem_of_nil|]. rewrite !elem_of_cons. naive_solver.
Qed.

(** The children from position one on: all children, or all but the first. *)
Lemma children_from_one path n q c :
  Node_wf path (NInner n) → GetMin n = Some q → GetChild n q = Some c →
  children_from n 1 = (if decide (q = 0%nat) then [] else [c]) ++ children_from n (S q) ∧
  children_from n 0 = c :: children_from n (S q).
Proof.
  intros W Hq Hg. destruct (min_child path n W) as (q' & c' & Hq' & _ & Hg' & _ & Hch).
  simplify_eq. split; [|done]. case_decide as H0; [by subst|]. simpl. rewrite <-Hch.
  destruct (inner_facts _ _ W) as [Wn Hc]. rewrite GetMin_next, GetNextPos_used in Hq by done.
  apply first_pos_Some in Hq as (_ & _ & Hlt). unfold children_from. f_equal. unfold positions_from.
  change (seq 0 (256 - 0)) with (0%nat :: seq 1 (256 - 1)). rewrite filter_cons_False; [done|].
  rewrite (Hlt 0%nat) by (simpl; lia). by intros [].
Qed.

Lemma visits_elem path n l : Node_wf path n → l ∈ visits n ↔ l ∈ leaves n.
Proof.
  revert path l. induction n as [p l'|n IH] using Node_ind; intros path l W; [done|].
  destruct (min_child path n W) as (q & c & Hq & _ & Hg & [path' Wc] & _).
  destruct (children_from_one path n q c W Hq Hg) as [H1 H0].
  rewrite (visits_inner n q c), leaves_inner, H1, H0, fmap_cons, join_cons, !elem_of_app by done.
  rewrite (IH q c Hg path' l Wc). case_decide; [done|]. simpl app.
  rewrite fmap_cons, join_cons, elem_of_app. tauto.
Qed.

Lemma visits_zero_first path n : Node_wf path n → zero_first n = true → visits n = leaves n.
Proof.
  revert path. induction n as [p l'|n IH] using Node_ind; intros path W Hz; [done|].
  destruct (min_child path n W) as (q & c & Hq & _ & Hg & [path' Wc] & _).
  destruct (children_from_one path n q c W Hq Hg) as [H1 H0].
  rewrite (zero_first_inner n q c) in Hz by done.
  apply andb_true_iff in Hz as [->%bool_decide_eq_true Hz].
  rewrite (visits_inner n 0 c), leaves_inner, H1, H0, fmap_cons, join_cons by done.
  by rewrite (IH 0%nat c Hg path' Wc Hz).
Qed.

(** No leaf that matches an upper bound is visited only after one beyond it. *)
Lemma visits_upto path n bad l :
  Node_wf path n → upward bad → l ∈ leaves n → bad l = false → l ∈ upto bad (visits n).
Proof.
  intros W Hup. revert path l W. induction n as [p l'|n IH] using Node_ind; intros path l W Hl Hb.
  { simpl in *. apply list_elem_of_singleton in Hl as ->. rewrite Hb. by left. }
  pose proof (leaves_sorted _ _ W) as Hs.
  destruct (min_child path n W) as (q & c & Hq & _ & Hg & [path' Wc] & _).
  destruct (children_from_one path n q c W Hq Hg) as [H1 H0].
  rewrite leaves_inner, H0, fmap_cons, join_cons in Hs, Hl.
  rewrite (visits_inner n q c) by done. apply elem_of_app in Hl as [Hl|Hl].
  { apply upto_app_l. by eapply IH. }
  apply upto_app_r.
  - intros x Hx. apply (visits_elem path') in Hx; [|done].
    destruct (bad x) eqn:Hbx; [|done].
    assert (Hlt : leaf_lt x l) by (by eapply StronglySorted_app_1_elem_of).
    by rewrite (Hup x l Hbx Hlt) in Hb.
  - apply upto_sorted; [done| | |done].
    + rewrite H1. case_decide; [by eapply StronglySorted_app_1_r|]. simpl app.
      by rewrite fmap_cons, join_cons.
    + rewrite H1, fmap_app, join_app. apply elem_of_app. by right.
Qed.

(** The lower bound of a scan. *)
Definition above (key : Key) (inclusive : bool) (l : Leaf) : bool :=
  if inclusive then Key_ge (value l) key else Key_gt (value l) key.

Lemma bound_list_complete key inclusive bad l ls :
  above key inclusive l = true → l ∈ upto bad ls → l ∈ upto bad (bound_list key inclusive ls).
Proof.
  intros Ha. induction ls as [|x ls IH]; [done|]. cbn [upto bound_list].
  destruct (bad x) eqn:Hbx; [by intros ?%elem_of_nil|]. intros Hl. apply elem_of_cons in Hl.
  rewrite Key_eq_spec. case_bool_decide as Hx.
  - destruct inclusive.
    + simpl. rewrite Hbx. by apply elem_of_cons.
    + destruct Hl as [->|Hl]; [|done]. simpl in Ha. by rewrite Key_gt_lt, Hx, Key_lt_irrefl in Ha.
  - destruct (Key_gt (value x) key) eqn:Hgt; [simpl; rewrite Hbx; by apply elem_of_cons|].
    destruct Hl as [->|Hl]; [|by apply IH]. destruct inclusive; simpl in Ha; [|congruence].
    rewrite Key_ge_lt in Ha. rewrite Key_gt_lt in Hgt.
    destruct (Key_lt_total (value x) key) as [H|[H|H]]; [by rewrite H in Ha|done|congruence].
Qed.

Lemma bound_list_sub key inclusive l ls : l ∈ bound_list key inclusive ls → l ∈ ls.
Proof.
  induction ls as [|x ls IH]; [done|]. simpl. destruct (Key_eq (value x) key).
  { destruct inclusive; [done|]. by right. }
  destruct (Key_gt (value x) key); [done|]. intros Hl. right. by apply IH.
Qed.

Lemma bound_list_sorted key inclusive l ls :
  StronglySorted leaf_lt ls → l ∈ bound_list key inclusive ls → above key inclusive l = true.
Proof.
  induction 1 as [|x ls Hs IH Hf]; [by intros ?%elem_of_nil|]. rewrite Forall_forall in Hf. simpl.
  assert (Hgt : ∀ y, Key_lt key (value y) = true → above key inclusive y = true).
  { intros y Hy. unfold above. destruct inclusive; [|by rewrite Key_gt_lt].
    rewrite Key_ge_lt. destruct (Key_lt (value y) key) eqn:He; [|done].
    pose proof (Key_lt_trans _ _ _ Hy He) as Hc. by rewrite Key_lt_irrefl in Hc. }
  rewrite Key_eq_spec. case_bool_decide as Hx.
  - assert (Hls : l ∈ ls → above key inclusive l = true)
      by (intros Hl; apply Hgt; rewrite <-Hx; by apply Hf).
    destruct inclusive; [|done]. intros [->|Hl]%elem_of_cons; [|by apply Hls].
    simpl. by rewrite Key_ge_lt, Hx, Key_lt_irrefl.
  - destruct (Key_gt (value x) key) eqn:Hxg; [|done]. rewrite Key_gt_lt in Hxg.
    intros [->|Hl]%elem_of_cons; [by apply Hgt|]. apply Hgt. eapply Key_lt_trans; [done|]. by apply Hf.
Qed.

(** The row ids of a scan that stays within [max_count]. *)
Definition rows_of (ls : list Leaf) : list Z := mjoin (Leaf_rows <$> ls).

Lemma scan_list_spec bound max_count ids ls :
  (∀ l, l ∈ ls → Leaf_wf l) →
  let r := ids ++ rows_of (upto (beyond bound) ls) in
  (length ids <= max_count)%nat →
  ((length r <= max_count)%nat ∧ scan_list bound max_count ids ls = (true, r)) ∨
  ((max_count < length r)%nat ∧ (scan_list bound max_count ids ls).1 = false).
Proof.
  revert ids. induction ls as [|l ls IH]; intros ids Hwf; cbn zeta; intros Hmax; cbn [scan_list upto].
  { left. unfold rows_of. simpl. by rewrite app_nil_r. }
  destruct (beyond bound l); [left; unfold rows_of; simpl; by rewrite app_nil_r|].
  assert (Hlen : length (Leaf_rows l) = num_elements l).
  { destruct (Hwf l ltac:(by left)) as (Hl & Hn & _). unfold Leaf_rows. rewrite length_take. lia. }
  assert (Hr : ids ++ rows_of (l :: upto (beyond bound) ls) =
    (ids ++ Leaf_rows l) ++ rows_of (upto (beyond bound) ls))
    by (unfold rows_of; rewrite fmap_cons, join_cons; by rewrite app_assoc).
  rewrite Hr. destruct (Nat.ltb_spec max_count (length ids + num_elements l)) as [Hlt|Hge].
  - right. split; [|done]. rewrite !length_app. lia.
  - apply IH; [intros l' Hl'; apply Hwf; by right|]. rewrite length_app. lia.
Qed.

Lemma without_repetitions_spec p ls :
  StronglySorted Z.le (p :: ls) →
  StronglySorted Z.lt (p :: without_repetitions p ls) ∧
  ∀ x, x ∈ p :: without_repetitions p ls ↔ x ∈ p :: ls.
Proof.
  revert p. induction ls as [|r ls IH]; intros p Hs; [split; [repeat constructor|done]|].
  inversion Hs as [|? ? Hs' Hf]; subst. destruct (IH r Hs') as [Hlt Hin]. simpl.
  apply Forall_cons in Hf as [Hpr Hf]. destruct (Z.eqb_spec r p) as [->|Hne].
  - split; [done|]. intros x. rewrite Hin, !elem_of_cons. tauto.
  - split.
    + constructor; [done|]. apply Forall_forall. intros x Hx. apply Hin in Hx.
      apply elem_of_cons in Hx as [->|Hx]; [lia|]. inversion Hs' as [|? ? _ Hf']; subst.
      rewrite Forall_forall in Hf'. specialize (Hf' x Hx). lia.
    + intros x. rewrite elem_of_cons, Hin, (elem_of_cons _ x p). done.
Qed.

Lemma sort_unique_spec ids :
  StronglySorted Z.lt (sort_unique ids) ∧ ∀ r, r ∈ sort_unique ids ↔ r ∈ ids.
Proof.
  unfold sort_unique. pose proof (StronglySorted_merge_sort Z.le ids) as Hs.
  pose proof (merge_sort_Permutation Z.le ids) as Hp.
  destruct (merge_sort Z.le ids) as [|r rest].
  - split; [constructor|]. intros x. by rewrite <-Hp.
  - destruct (without_repetitions_spec r rest Hs) as [Hlt Hin]. split; [done|].
    intros x. by rewrite Hin, Hp.
Qed.

(** ** Searches: proofs *)

Section Searches.
Variables (path : list Z) (n : Node) (max_count : nat).
Hypothesis W : Node_wf path n.

Lemma SearchLess_spec k inclusive :
  SearchLess (Some n) max_count Iterator_new k inclusive =
    Ok (scan_list (Some (k, inclusive)) max_count [] (leaves n)).
Proof.
  unfold SearchLess. cbn [it_start Iterator_new].
  assert (H0 : it_has Iterator_new []) by (split_and!; done).
  destruct (FindMinimum_spec (S (todo n)) Iterator_new [] path n W H0 ltac:(constructor) ltac:(lia))
    as (l & ls & it' & -> & Hl & _ & Hc). cbn [mbind res_bind]. rewrite app_nil_r in Hc. rewrite Hl.
  destruct (Key_gt (value l) k) eqn:Hgt; cbn [mbind res_bind].
  - cbn [scan_list]. assert (beyond (Some (k, inclusive)) l = true) as ->; [|done].
    destruct inclusive; [done|]. simpl. rewrite Key_ge_lt. rewrite Key_gt_lt in Hgt.
    destruct (Key_lt (value l) k) eqn:He; [|done].
    pose proof (Key_lt_trans _ _ _ Hgt He) as Hcc. by rewrite Key_lt_irrefl in Hcc.
  - assert (Hc' : current (set_start it') l ls) by exact Hc.
    destruct (IteratorScan_spec _ _ _ (Some (k, inclusive)) max_count [] Hc') as (it2 & ->).
    cbn [mbind res_bind]. by destruct (scan_list _ _ _ _).
Qed.

Hypothesis Hh : (left_height n <= 8)%nat.

Lemma from_bound_spec k inclusive bound :
  ('(it, found) ← ('(it, found) ← Bound (Some n) k Iterator_new inclusive;
                   Ok (if (found : bool) then set_start it else it, found));
   if (found : bool) then '(_, ok, ids) ← IteratorScan it bound max_count []; Ok (ok, ids)
   else Ok (true, [])) = Ok (scan_list bound max_count [] (bound_list k inclusive (visits n))).
Proof.
  pose proof (Bound_spec path n k inclusive W Hh) as Hb.
  destruct (bound_list k inclusive (visits n)) as [|l ls]; unfold at_list in Hb.
  - destruct Hb as [it ->]. done.
  - destruct Hb as (it & -> & Hc). cbn [mbind res_bind].
    assert (Hc' : current (set_start it) l ls) by exact Hc.
    destruct (IteratorScan_spec _ _ _ bound max_count [] Hc') as (it2 & ->).
    cbn [mbind res_bind]. by destruct (scan_list _ _ _ _).
Qed.
End Searches.

(** ** Theorems *)

(** The bounds of a scan on the keys: the lower one, and the upper one. *)
Definition key_bounds (machine : bool) (type : PhysicalType) (state : ScanState)
  : res (option (Key * bool) * option (Key * bool)) :=
  k ← CreateKey machine (IsLittleEndian machine) type (values0 state);
  match values1 state with
  | Some high =>
    k' ← CreateKey machine (IsLittleEndian machine) type high;
    Ok (Some (k, bool_decide (expressions0 state = COMPARE_GREATERTHANOREQUALTO)),
        Some (k', bool_decide (expressions1 state = COMPARE_LESSTHANOREQUALTO)))
  | None =>
    match expressions0 state with
    | COMPARE_EQUAL => Ok (Some (k, true), Some (k, true))
    | COMPARE_GREATERTHANOREQUALTO => Ok (Some (k, true), None)
    | COMPARE_GREATERTHAN => Ok (Some (k, false), None)
    | COMPARE_LESSTHANOREQUALTO => Ok (None, Some (k, true))
    | COMPARE_LESSTHAN => Ok (None, Some (k, false))
    | COMPARE_NOTEQUAL => Throw (NotImplementedException "Operation not implemented")
    end
  end.

Definition above_bound (lower : option (Key * bool)) (l : Leaf) : bool :=
  match lower with None => true | Some (k, inclusive) => above k inclusive l end.

(** The scan starts in [Bound]. *)
Definition uses_Bound (state : ScanState) : bool :=
  match values1 state with
  | Some _ => true
  | None => match expressions0 state with
            | COMPARE_GREATERTHANOREQUALTO | COMPARE_GREATERTHAN => true
            | _ => false
            end
  end.

(** The row ids that a scan with the leaves [vis] gives. *)
Lemma scan_result (ls vis : list Leaf) lower upper max_count :
  (∀ l, l ∈ vis → Leaf_wf l) →
  (∀ l, l ∈ vis → l ∈ ls) →
  (∀ l, l ∈ ls → above_bound lower l = true → beyond upper l = false → l ∈ upto (beyond upper) vis) →
  let '(ok, ids) := scan_list upper max_count [] vis in
  if ok then
    (∀ l r, l ∈ ls → above_bound lower l = true → beyond upper l = false → r ∈ Leaf_rows l → r ∈ ids) ∧
    (∀ r, r ∈ ids → ∃ l, l ∈ vis ∧ l ∈ ls ∧ beyond upper l = false ∧ r ∈ Leaf_rows l)
  else (max_count < length (rows_of (upto (beyond upper) vis)))%nat.
Proof.
  intros Hwf Hsub Hall.
  assert (Hin : ∀ r, r ∈ rows_of (upto (beyond upper) vis) ↔
    ∃ l, l ∈ upto (beyond upper) vis ∧ r ∈ Leaf_rows l).
  { intros r. unfold rows_of. rewrite list_elem_of_join. split.
    - intros (rs & Hr & (l & -> & Hl)%list_elem_of_fmap). by exists l.
    - intros (l & Hl & Hr). exists (Leaf_rows l). split; [done|]. by apply list_elem_of_fmap_2. }
  destruct (scan_list_spec upper max_count [] vis Hwf ltac:(simpl; lia)) as [[_ ->]|[Hlt Hf]].
  - simpl. split.
    + intros l r Hl Ha Hb Hr. apply Hin. exists l. split; [by apply Hall|done].
    + intros r (l & Hl & Hr)%Hin. apply upto_sound in Hl as [Hl Hb]. exists l. auto.
  - destruct (scan_list upper max_count [] vis) as [ok ids]. simpl in Hf. subst ok. done.
Qed.

(** The searches of [Scan] for a tree that is not empty, as scans of a list of
    leaves between the bounds. *)
Definition search (machine : bool) (art : ART) (type : PhysicalType) (state : ScanState)
  (max_count : nat) (lower upper : option (Key * bool)) (n : Node) : res (bool * list Z) :=
  if uses_Bound state then
    match lower with
    | Some (k, inclusive) => Ok (scan_list upper max_count [] (bound_list k inclusive (visits n)))
    | None => Ok (true, [])
    end
  else match lower with
       | None => Ok (scan_list upper max_count [] (leaves n))
       | Some _ => SearchEqual machine art type (values0 state) max_count
       end.

Lemma ART_Scan_unfold machine type n u state max_count result_ids lower upper path :
  Node_wf path n → iterator state = Iterator_new →
  (uses_Bound state = true → (left_height n <= 8)%nat) →
  key_bounds machine type state = Ok (lower, upper) →
  ART_Scan machine (mkART (Some n) u) type state max_count result_ids =
    '(success, row_ids) ← search machine (mkART (Some n) u) type state max_count lower upper n;
    if (success : bool) then Ok (true, result_ids ++ sort_unique row_ids) else Ok (false, result_ids).
Proof.
  intros W Hit Hh Hkb. unfold search, ART_Scan, key_bounds, uses_Bound in *. rewrite Hit. cbn [tree].
  destruct (CreateKey _ _ type (values0 state)) as [k|e] eqn:Hk; [|done]. cbn [mbind res_bind] in *.
  destruct (values1 state) as [high|].
  - destruct (CreateKey _ _ type high) as [k'|e] eqn:Hk'; [|done]. cbn [mbind res_bind] in *.
    injection Hkb as <- <-. unfold SearchCloseRange. cbn [it_start Iterator_new].
    by rewrite (from_bound_spec path n max_count W (Hh eq_refl)).
  - destruct (expressions0 state); try discriminate Hkb; injection Hkb as <- <-; try done.
    all: first [by rewrite (SearchLess_spec path n max_count W)
      |unfold SearchGreater; cbn [it_start Iterator_new];
       by rewrite (from_bound_spec path n max_count W (Hh eq_refl))].
Qed.

(** The leaves between the bounds. *)
Definition matching (lower upper : option (Key * bool)) (l : Leaf) : bool :=
  above_bound lower l && negb (beyond upper l).

Lemma upto_filter upper ls :
  StronglySorted leaf_lt ls → upto (beyond upper) ls = filter (matching None upper) ls.
Proof.
  assert (Hm : ∀ y, matching None upper y = negb (beyond upper y)) by done.
  induction 1 as [|x ls Hs IH Hf]; [done|]. cbn [upto]. destruct (beyond upper x) eqn:Hx.
  - symmetry. apply elem_of_nil_inv. intros y [Hmy Hy]%list_elem_of_filter. rewrite Hm in Hmy.
    apply elem_of_cons in Hy as [->|Hy]; [by rewrite Hx in Hmy|].
    rewrite Forall_forall in Hf. by rewrite (beyond_upward upper x y Hx (Hf y Hy)) in Hmy.
  - rewrite filter_cons_True by (by rewrite Hm, Hx). by rewrite IH.
Qed.

Lemma length_rows_elem l ls : l ∈ ls → (length (Leaf_rows l) <= length (rows_of ls))%nat.
Proof.
  unfold rows_of. induction ls as [|x ls IH]; [by intros ?%elem_of_nil|].
  rewrite fmap_cons, join_cons, length_app. intros [->|Hl]%elem_of_cons; [lia|]. specialize (IH Hl). lia.
Qed.

(** Equality, as a scan between equal bounds. *)
Lemma SearchEqual_spec machine type n u v k max_count :
  index_ok [type] (Some n) → cell_ok type v = true →
  CreateKey machine (IsLittleEndian machine) type v = Ok k →
  ∃ ok ids, SearchEqual machine (mkART (Some n) u) type v max_count = Ok (ok, ids) ∧
    if ok then ∀ r, r ∈ ids ↔ ∃ l, l ∈ leaves n ∧ value l = k ∧ r ∈ Leaf_rows l
    else ∃ l, l ∈ leaves n ∧ value l = k ∧ (max_count < length (Leaf_rows l))%nat.
Proof.
  intros Ht Hv Hk. unfold SearchEqual. rewrite Hk. cbn [mbind res_bind tree].
  rewrite CreateKey_machine in Hk by done.
  assert (Hkt : key_of_types [type] k) by (exists v, k, []; by rewrite app_nil_r).
  destruct (Lookup_map (Some n) k (proj1 Ht) (key_of_types_bytes _ _ Hkt) (index_ok_separated _ _ _ Ht Hkt))
    as (r & -> & Hr & Hl). cbn [mbind res_bind]. destruct r as [l|].
  - destruct (Hl l eq_refl) as [Hin Hvl]. destruct Ht as [W _].
    destruct (wf_leaf_key _ _ _ W Hin) as (_ & _ & (Hlen & Hn & _) & _).
    assert (Hrl : length (Leaf_rows l) = num_elements l) by (unfold Leaf_rows; rewrite length_take; lia).
    destruct (Nat.ltb_spec max_count (num_elements l)).
    + eexists false, []. split; [done|]. exists l. split_and!; [done..|lia].
    + eexists true, _. split; [done|]. intros r. split; [by exists l|].
      intros (l' & Hin' & Hv' & Hr'). assert (l' = l) as -> by (by eapply leaves_inj; [..|congruence]). done.
  - eexists true, []. split; [done|]. intros r. split; [by intros ?%elem_of_nil|].
    intros (l & Hin & Hvl & _). simpl in Hr. symmetry in Hr.
    rewrite index_map_none in Hr by apply Ht. by destruct (Hr l).
Qed.

(** The key [k] is the only one between the inclusive bounds [k] and [k]. *)
Lemma matching_equal k l : matching (Some (k, true)) (Some (k, true)) l = bool_decide (value l = k).
Proof.
  unfold matching, above_bound, above, beyond. rewrite Key_ge_lt, Key_gt_lt.
  case_bool_decide as Hv; [by rewrite Hv, Key_lt_irrefl|].
  destruct (Key_lt_total (value l) k) as [->|[?| ->]]; [done|done|by rewrite andb_false_r].
Qed.

Lemma matching_spec lower upper l :
  matching lower upper l = true ↔ above_bound lower l = true ∧ beyond upper l = false.
Proof. unfold matching. by rewrite andb_true_iff, negb_true_iff. Qed.


(** Every inner node on the way takes a byte of the key. *)
Lemma left_height_key path n l :
  Node_wf path n → (∀ l', l' ∈ leaves n → length (value l') <= l)%nat →
  (left_height n + length path <= S l)%nat.
Proof.
  intros W. revert path W. induction n as [p l'|n IH] using Node_ind; intros path W Hl.
  - inversion W as [? ? ? _ _ _ Hp|]; subst. apply prefix_length in Hp.
    specialize (Hl l' ltac:(by left)). simpl. lia.
  - destruct (min_child path n W) as (q & c & Hq & _ & Hg & _ & _).
    destruct (inner_facts _ _ W) as [Wn Hc]. inversion W as [|? ? _ _ _ Hch]; subst.
    rewrite (left_height_inner n q c) by done. rewrite GetMin_next, GetNextPos_used in Hq by done.
    apply first_pos_Some in Hq as (_ & Hu & _). destruct (used_spec n q Wn Hu) as (Hk & Hpos & _).
    assert (Hca : child_at n (key_at n q) = Some c) by (unfold child_at; by rewrite Hpos).
    specialize (IH q c Hg _ (Hch _ _ Hk Hca)). rewrite !length_app in IH. simpl in IH.
    assert (∀ l', l' ∈ leaves c → length (value l') <= l)%nat.
    { intros l' Hl'. apply Hl. apply elem_of_leaves; [done|]. eauto. }
    specialize (IH ltac:(done)). lia.
Qed.

(** Keys of at most seven bytes keep the way to the minimum short enough. *)
Lemma small_keys type n :
  index_ok [type] (Some n) → type ≠ VARCHAR → (number_size type <= 7)%nat → (left_height n <= 8)%nat.
Proof.
  intros [W Hl] Ht Hn.
  assert (H7 : ∀ l', l' ∈ leaves n → (length (value l') <= 7)%nat);
    [|pose proof (left_height_key [] n 7 W H7) as Hh; simpl in Hh; lia].
  intros l' Hin. destruct (Hl l' Hin) as (v & k1 & k2 & Hv & Hk1 & -> & ->).
  rewrite app_nil_r. destruct v as [z|s]; [|by destruct type].
  rewrite (proj1 (CreateKey_number true type z Hv)) in Hk1. injection Hk1 as <-.
  by rewrite length_be_encode.
Qed.


(** An index on the values [zs], with the values as row ids, and a scan of it. *)
Definition scan_values (type : PhysicalType) (zs : list Z) (state : ScanState) : res (bool * list Z) :=
  '(art, _) ← ART_Insert true (mkART None false) [mkColumn type ((λ z, Some (Num z)) <$> zs)] zs;
  ART_Scan true art type state 2048 [].

(** Two defects of [Bound].  It goes down to the smallest key without
    growing the stack of the iterator, which has eight entries: with nine
    BIGINT keys (zero, and the powers of 256) the scan of the keys from zero
    on writes behind the stack.  And it leaves the position of every node on
    the way at zero, so that a node with an index by bytes visits its first
    child again: with the TINYINT keys 1 to 40 the scan of the keys greater
    than 1 returns the row of 1; with two levels the scan of the keys greater
    than 30 returns rows of smaller keys. *)
Theorem Bound_defects :
  scan_values INT64 [0; 1; 2 ^ 8; 2 ^ 16; 2 ^ 24; 2 ^ 32; 2 ^ 40; 2 ^ 48; 2 ^ 56]
    (InitializeScanSinglePredicate (Num 0) COMPARE_GREATERTHANOREQUALTO) =
    Throw (UndefinedBehaviour "access behind the end of the stack") ∧
  scan_values INT8 (seqZ 1 40) (InitializeScanSinglePredicate (Num 1) COMPARE_GREATERTHAN) =
    Ok (true, seqZ 1 40) ∧
  scan_values INT16 (seqZ 1 40 ++ ((λ z, 256 * z) <$> seqZ 1 40))
    (InitializeScanSinglePredicate (Num 30) COMPARE_GREATERTHAN) =
    Ok (true, seqZ 1 40 ++ ((λ z, 256 * z) <$> seqZ 1 40)).
Proof. vm_compute. split_and!; reflexivity. Qed.
