(* ===== verification/CatalogCodec.v ===== *)
(** * Serialization of catalog entries and ALTER statements

    Models the [Serialize] and [Deserialize] methods of
    src/src/common/types.cpp ([LogicalType]), src/src/parser/column_definition.cpp,
    src/src/parser/constraint.cpp and the constraints under
    src/src/parser/constraints/, src/src/parser/parsed_data/alter_table_info.cpp,
    and the catalog entries under src/src/catalog/catalog_entry/ (schema, table,
    view, sequence, macro).  Parsed expressions and SELECT statements are
    parameters with the interface [Codec], which all the types of this file
    implement as well: what [Serialize] passes to [WriteData], piece by piece,
    and that [Deserialize] reads it back.

    Clients are the checkpoint manager and the write-ahead log.  Theorems: each
    codec reads back what it wrote, nested types of any depth included. *)

From S2P Require Import Prelude Constants Serializer.

(** ** The interface *)

(** [f] makes the calls [WriteData(piece)] for these pieces, one after the other. *)
Definition writes {S} `{!Serializer S} (f : S → S) (pieces : list (list Z)) : Prop := ∀ s, f s = foldl WriteData s pieces.

Class Codec (E : Type) : Type := {
  Serialize {S : Type} `{!Serializer S} : S → E → S;
  Deserialize {D : Type} `{!Deserializer D} : D → res (E * D);
  pieces : E → list (list Z);
  valid : E → Prop;
  Serialize_writes {S : Type} `{!Serializer S} e : writes (λ s : S, Serialize s e) (pieces e);
  Deserialize_decodes {D : Type} `{!Deserializer D} e : valid e → decodes (λ d : D, Deserialize d) (mjoin (pieces e)) e;
}.

Section writes_lemmas.
Context {S : Type} `{!Serializer S}.
Implicit Types (f g : S → S).

Lemma writes_encodes f ps : writes f ps → encodes f (mjoin ps).
Proof.
  intros Hf s Hs. rewrite Hf. clear Hf f. revert s Hs. induction ps as [|p ps IH]; intros s Hs; cbn [foldl].
  - split; [done|]. by rewrite app_nil_r.
  - destruct (IH (WriteData s p)) as [H1 H2]; [by apply WriteData_ok|]. split; [done|].
    by rewrite H2, WriteData_written, <-app_assoc by done.
Qed.

Lemma writes_nil : writes (λ s : S, s) [].
Proof. by intros s. Qed.

Lemma writes_seq f g ps qs : writes f ps → writes g qs → writes (λ s, g (f s)) (ps ++ qs).
Proof. intros Hf Hg s. by rewrite Hg, Hf, foldl_app. Qed.

Lemma writes_Write n z : writes (λ s : S, Write n s z) [le_encode n z].
Proof. by intros s. Qed.

Definition string_pieces (v : list Z) : list (list Z) := le_encode 4 (Z.of_nat (length v)) :: (if (0 <? length v)%nat then [v] else []).

Lemma writes_WriteString v : writes (λ s : S, WriteString s v) (string_pieces v).
Proof. intros s. unfold WriteString, string_pieces. by destruct (0 <? length v)%nat. Qed.

Lemma writes_foldl {T} (ser : S → T → S) (ps : T → list (list Z)) (l : list T) :
  (∀ x, x ∈ l → writes (λ s, ser s x) (ps x)) → writes (λ s, foldl ser s l) (l ≫= ps).
Proof.
  induction l as [|x l IH]; intros Hl s; cbn [foldl]; [done|]. rewrite bind_cons, foldl_app, IH.
  - by rewrite (Hl x) by left.
  - intros y Hy. apply Hl. by right.
Qed.
End writes_lemmas.

Lemma join_string_pieces v : mjoin (string_pieces v) = string_bytes v.
Proof.
  unfold string_pieces, string_bytes. destruct (Nat.ltb_spec 0 (length v)); cbn; [by rewrite app_nil_r|].
  destruct v; [done|cbn in *; lia].
Qed.

Lemma join_bind {T} (ps : T → list (list Z)) (l : list T) : mjoin (l ≫= ps) = l ≫= λ x, mjoin (ps x).
Proof. induction l as [|x l IH]; [done|]. by rewrite !bind_cons, join_app, IH. Qed.

Definition valid_string (v : list Z) : Prop := short v.

Lemma decodes_string {D} `{!Deserializer D} v : valid_string v → decodes (λ d : D, ReadString d) (mjoin (string_pieces v)) v.
Proof. rewrite join_string_pieces. apply decodes_ReadString. Qed.

(** [Write<bool>], [Read<bool>] *)
Definition of_bool (b : bool) : Z := if b then 1 else 0.

Definition ReadBool {D} `{!Deserializer D} (source : D) : res (bool * D) :=
  '(b, source) ← Read 1 source; Ok (negb (b =? 0), source).

Lemma decodes_ReadBool {D} `{!Deserializer D} b : decodes (λ d : D, ReadBool d) (le_encode 1 (of_bool b)) b.
Proof.
  intros d rest Hd Hrem. destruct (decodes_Read 1 (of_bool b) ltac:(destruct b; cbn; lia) d rest Hd Hrem) as (d' & Hr & Hd' & Hrem').
  exists d'. unfold ReadBool. rewrite Hr. cbn. by destruct b.
Qed.

(** ** [WriteOptional] and lists of codecs *)

Section containers.
Context {E : Type} `{!Codec E}.

Definition optional_pieces (o : option E) : list (list Z) :=
  le_encode 1 (if o then 1 else 0) :: match o with Some e => pieces e | None => [] end.

Definition valid_optional (o : option E) : Prop := match o with Some e => valid e | None => True end.

Lemma writes_WriteOptional {S} `{!Serializer S} (o : option E) : writes (λ s : S, WriteOptional (λ s e, Serialize s e) s o) (optional_pieces o).
Proof. intros s. unfold WriteOptional, optional_pieces. destruct o as [e|]; cbn [foldl]; [by rewrite Serialize_writes|done]. Qed.

Lemma decodes_ReadOptional {D} `{!Deserializer D} (o : option E) :
  valid_optional o → decodes (λ d : D, ReadOptional (λ d, Deserialize d) d) (mjoin (optional_pieces o)) o.
Proof.
  intros Hv. unfold optional_pieces. cbn [mjoin list_join].
  apply decodes_bind with (if o then 1 else 0); [apply decodes_Read; destruct o; cbn; lia|]. destruct o as [e|]; cbn [Z.eqb].
  - rewrite <-(app_nil_r (mjoin _)). apply decodes_bind with e; [by apply Deserialize_decodes|apply decodes_ret].
  - apply decodes_ret.
Qed.

(** [Write<uint32_t>(size)] and the elements *)
Definition list_pieces (l : list E) : list (list Z) := le_encode 4 (Z.of_nat (length l)) :: (l ≫= pieces).

Definition valid_list (l : list E) : Prop := short l ∧ Forall valid l.

Lemma writes_WriteList {S} `{!Serializer S} (l : list E) : writes (λ s : S, WriteList (λ s e, Serialize s e) s l) (list_pieces l).
Proof.
  apply (writes_seq (λ s, Write 4 s _) (λ s, foldl _ s l) [_]); [apply writes_Write|].
  apply (writes_foldl (λ s e, Serialize s e)). intros x _. apply Serialize_writes.
Qed.

Lemma decodes_ReadList {D} `{!Deserializer D} (l : list E) :
  valid_list l → decodes (λ d : D, ReadList (λ d, Deserialize d) d) (mjoin (list_pieces l)) l.
Proof.
  intros [Hs Hv]. unfold list_pieces. cbn [mjoin list_join]. rewrite join_bind.
  apply decodes_bind with (Z.of_nat (length l)); [apply decodes_Read; split; [lia|exact Hs]|].
  rewrite Nat2Z.id. apply (decodes_times _ (λ x, mjoin (pieces x))). eapply Forall_impl; [exact Hv|]. intros e He. by apply Deserialize_decodes.
Qed.
End containers.

(** Strings are a codec: [WriteString] and [Read<string>]. *)
#[export] Program Instance string_codec : Codec (list Z) := {|
  Serialize S _ := WriteString;
  Deserialize D _ := ReadString;
  pieces := string_pieces;
  valid := valid_string;
|}.
Next Obligation. intros. apply writes_WriteString. Qed.
Next Obligation. intros. by apply decodes_string. Qed.

(** Steps of the proofs for a sequence of fields. *)
Lemma join_single (b : list Z) : mjoin [b] = b.
Proof. apply app_nil_r. Qed.

Section field_codecs.
Context {D : Type} `{!Deserializer D}.

Lemma decodes_u8 z : inU 8 z → decodes (λ d : D, Read 1 d) (le_encode 1 z) z.
Proof. intros Hz. apply decodes_Read. exact Hz. Qed.

Lemma decodes_u64 z : inU 64 z → decodes (λ d : D, Read 8 d) (le_encode 8 z) z.
Proof. intros Hz. apply decodes_Read. exact Hz. Qed.

Lemma decodes_s64 z : inS 64 z → decodes (λ d : D, ReadInt64 d) (le_encode 8 z) z.
Proof. intros Hz. apply decodes_ReadInt64. exact Hz. Qed.
End field_codecs.

Create HintDb codec.
#[export] Hint Resolve decodes_string decodes_ReadBool decodes_u8 decodes_u64 decodes_s64 decodes_ReadOptional decodes_ReadList
  Deserialize_decodes : codec.
#[export] Hint Rewrite @join_app join_single : codec.

(** The fields of [decodes], one read at a time; the bytes end in [++ []]. *)
Ltac decode_fields :=
  autorewrite with codec;
  repeat (eapply decodes_bind; [solve [eauto with codec]|]); apply decodes_ret.

(** The fields of [writes]. *)
Ltac write_fields :=
  let s := fresh "s" in intros s;
  rewrite ?writes_WriteOptional, ?writes_WriteList, ?Serialize_writes, ?writes_WriteString, ?foldl_app; unfold Write; cbn [foldl]; reflexivity.

(** ** [LogicalType] *)

Inductive LogicalType : Set := mkLogicalType {
  lt_id : Z;
  lt_width : Z;
  lt_scale : Z;
  lt_collation : list Z;
  lt_child_types : list (list Z * LogicalType);
}.

Fixpoint LogicalType_Serialize {S} `{!Serializer S} (s : S) (t : LogicalType) : S :=
  match t with
  | mkLogicalType id width scale collation child_types =>
      let s := Write 1 s id in
      let s := Write 1 s width in
      let s := Write 1 s scale in
      let s := WriteString s collation in
      let s := Write 2 s (Z.of_nat (length child_types)) in
      fold_left (λ s entry, LogicalType_Serialize (WriteString s entry.1) entry.2) child_types s
  end.

(** [fuel] bounds the depth of the type. *)
Fixpoint LogicalType_Deserialize_depth {D} `{!Deserializer D} (fuel : nat) (source : D) : res (LogicalType * D) :=
  match fuel with
  | O => Throw (UndefinedBehaviour "stack overflow")
  | S fuel =>
      '(id, source) ← Read 1 source;
      '(width, source) ← Read 1 source;
      '(scale, source) ← Read 1 source;
      '(collation, source) ← ReadString source;
      '(child_count, source) ← Read 2 source;
      '(children, source) ← Read_times (Z.to_nat child_count)
        (λ source, '(name, source) ← ReadString source;
                   '(child_type, source) ← LogicalType_Deserialize_depth fuel source;
                   Ok ((name, child_type), source)) source;
      Ok (mkLogicalType id width scale collation children, source)
  end.

Definition LogicalType_Deserialize {D} `{!Deserializer D} (source : D) : res (LogicalType * D) :=
  LogicalType_Deserialize_depth (S (length (remaining source))) source.

Fixpoint LogicalType_pieces (t : LogicalType) : list (list Z) :=
  match t with
  | mkLogicalType id width scale collation child_types =>
      [le_encode 1 id; le_encode 1 width; le_encode 1 scale] ++ string_pieces collation ++
      [le_encode 2 (Z.of_nat (length child_types))] ++
      flat_map (λ entry, string_pieces entry.1 ++ LogicalType_pieces entry.2) child_types
  end.

Fixpoint LogicalType_valid (t : LogicalType) : Prop :=
  match t with
  | mkLogicalType id width scale collation child_types =>
      inU 8 id ∧ inU 8 width ∧ inU 8 scale ∧ valid_string collation ∧ Z.of_nat (length child_types) < 2 ^ 16 ∧
      fold_right (λ entry P, valid_string entry.1 ∧ LogicalType_valid entry.2 ∧ P) True child_types
  end.

Lemma LogicalType_ind' (P : LogicalType → Prop) :
  (∀ id width scale collation children, Forall (λ entry, P entry.2) children → P (mkLogicalType id width scale collation children)) →
  ∀ t, P t.
Proof.
  intros Hstep. fix IH 1. intros [id width scale collation children]. apply Hstep.
  induction children as [|[n t] children IHc]; constructor; [apply IH|exact IHc].
Qed.

Lemma flat_map_bind {A B} (f : A → list B) l : flat_map f l = l ≫= f.
Proof. induction l as [|x l IH]; [done|]. cbn [flat_map]. by rewrite IH. Qed.

Lemma fold_left_foldl {A B} (f : A → B → A) l a : fold_left f l a = foldl f a l.
Proof. revert a. induction l as [|x l IH]; intros a; [done|apply IH]. Qed.

Lemma LogicalType_Serialize_writes {S} `{!Serializer S} t : writes (λ s : S, LogicalType_Serialize s t) (LogicalType_pieces t).
Proof.
  induction t as [id width scale collation children IH] using LogicalType_ind'. intros s.
  cbn [LogicalType_Serialize LogicalType_pieces]. rewrite flat_map_bind, !foldl_app. cbn [foldl].
  rewrite <-(writes_WriteString collation), fold_left_foldl.
  rewrite (writes_foldl (S := S) (λ s entry, LogicalType_Serialize (WriteString s entry.1) entry.2)
    (λ entry, string_pieces entry.1 ++ LogicalType_pieces entry.2)); [done|].
  intros entry Hin. rewrite Forall_forall in IH. apply (writes_seq (S := S) (λ s, WriteString s entry.1) (λ s, LogicalType_Serialize s entry.2)); [apply writes_WriteString|by apply IH].
Qed.

Lemma LogicalType_valid_children children :
  fold_right (λ entry P, valid_string entry.1 ∧ LogicalType_valid entry.2 ∧ P) True children →
  Forall (λ entry, valid_string entry.1 ∧ LogicalType_valid entry.2) children.
Proof. induction children as [|entry children IH]; cbn; [constructor|]. intros (H1 & H2 & H3). constructor; [done|by apply IH]. Qed.

Lemma length_join_child (entry : list Z * LogicalType) children :
  entry ∈ children →
  (length (mjoin (LogicalType_pieces entry.2)) <= length (mjoin (children ≫= λ entry, string_pieces entry.1 ++ LogicalType_pieces entry.2)))%nat.
Proof.
  induction 1 as [c children|c c' children _ IH]; rewrite bind_cons, !join_app, !length_app; lia.
Qed.

Lemma decodes_LogicalType_depth {D} `{!Deserializer D} t :
  LogicalType_valid t → ∀ fuel, (length (mjoin (LogicalType_pieces t)) <= fuel)%nat →
  decodes (λ d : D, LogicalType_Deserialize_depth fuel d) (mjoin (LogicalType_pieces t)) t.
Proof.
  induction t as [id width scale collation children IH] using LogicalType_ind'.
  intros (Hid & Hw & Hsc & Hcol & Hn & Hch) fuel Hfuel. apply LogicalType_valid_children in Hch.
  cbn [LogicalType_pieces] in *. rewrite flat_map_bind in *.
  change ([le_encode 1 id; le_encode 1 width; le_encode 1 scale] ++ ?l) with ([le_encode 1 id] ++ [le_encode 1 width] ++ [le_encode 1 scale] ++ l) in *.
  rewrite !join_app, !join_single in *. rewrite !length_app, !length_le_encode in Hfuel.
  destruct fuel as [|fuel]; [lia|]. cbn [LogicalType_Deserialize_depth].
  apply decodes_bind with id; [by apply decodes_Read|]. apply decodes_bind with width; [by apply decodes_Read|].
  apply decodes_bind with scale; [by apply decodes_Read|]. apply decodes_bind with collation; [by apply decodes_string|].
  apply decodes_bind with (Z.of_nat (length children)); [apply decodes_Read; split; [lia|exact Hn]|]. rewrite Nat2Z.id.
  rewrite <-(app_nil_r (mjoin (children ≫= _))). apply decodes_bind with children; [|apply decodes_ret].
  rewrite join_bind. apply decodes_times. rewrite Forall_forall in *. intros entry Hin. destruct (Hch entry Hin) as [Hs Hv].
  rewrite join_app. apply decodes_bind with entry.1; [by apply decodes_string|].
  rewrite <-(app_nil_r (mjoin (LogicalType_pieces _))). apply decodes_bind with entry.2; [|destruct entry; apply decodes_ret].
  apply IH; [done|done|]. pose proof (length_join_child entry children Hin). lia.
Qed.

#[export] Program Instance LogicalType_codec : Codec LogicalType := {|
  Serialize S _ := LogicalType_Serialize;
  Deserialize D _ := LogicalType_Deserialize;
  pieces := LogicalType_pieces;
  valid := LogicalType_valid;
|}.
Next Obligation. intros. apply LogicalType_Serialize_writes. Qed.
Next Obligation.
  intros D ? t Hv d rest Hd Hrem. apply decodes_LogicalType_depth; [done| |done|done]. rewrite Hrem, length_app. lia.
Qed.

(** ** Columns and constraints

    [ParsedExpression] and [SelectStatement] stand for the trees of the parser. *)

Section parse_trees.
Context {ParsedExpression SelectStatement : Type} `{!Codec ParsedExpression, !Codec SelectStatement}.

(** The [oid] of a column is not serialized; the table sets it. *)
Record ColumnDefinition : Type := mkColumnDefinition {
  column_name : list Z;
  column_type : LogicalType;
  default_value : option ParsedExpression;
}.

Definition ColumnDefinition_Serialize {S} `{!Serializer S} (s : S) (c : ColumnDefinition) : S :=
  let s := WriteString s (column_name c) in
  let s := Serialize s (column_type c) in
  WriteOptional (λ s e, Serialize s e) s (default_value c).

Definition ColumnDefinition_Deserialize {D} `{!Deserializer D} (source : D) : res (ColumnDefinition * D) :=
  '(name, source) ← ReadString source;
  '(type, source) ← Deserialize source;
  '(default, source) ← ReadOptional (λ d, Deserialize d) source;
  Ok (mkColumnDefinition name type default, source).

#[global] Program Instance ColumnDefinition_codec : Codec ColumnDefinition := {|
  Serialize S _ := ColumnDefinition_Serialize;
  Deserialize D _ := ColumnDefinition_Deserialize;
  pieces c := string_pieces (column_name c) ++ pieces (column_type c) ++ optional_pieces (default_value c) ++ [];
  valid c := valid_string (column_name c) ∧ valid (column_type c) ∧ valid_optional (default_value c);
|}.
Next Obligation. intros S ? c. unfold ColumnDefinition_Serialize. write_fields. Qed.
Next Obligation.
  intros D ? [name type default] (Hn & Ht & Hd). unfold ColumnDefinition_Deserialize. cbn [column_name column_type default_value] in *.
  decode_fields.
Qed.

(** The index of a single column, or the names of several. *)
Inductive Constraint : Type :=
| NotNullConstraint (index : Z)
| CheckConstraint (expression : ParsedExpression)
| UniqueConstraint (is_primary_key : bool) (index : Z) (columns : list (list Z)).

Definition NOT_NULL : Z := 1.
Definition CHECK : Z := 2.
Definition UNIQUE : Z := 3.

Definition Constraint_Serialize {S} `{!Serializer S} (s : S) (c : Constraint) : S :=
  match c with
  | NotNullConstraint index =>
      let s := Write 1 s NOT_NULL in
      Write 8 s index
  | CheckConstraint expression =>
      let s := Write 1 s CHECK in
      Serialize s expression
  | UniqueConstraint is_primary_key index columns =>
      let s := Write 1 s UNIQUE in
      let s := Write 1 s (of_bool is_primary_key) in
      let s := Write 8 s index in
      WriteList (λ s e, Serialize s e) s columns
  end.

(** A constraint of another type becomes a null pointer, which the binder dereferences. *)
Definition Constraint_Deserialize {D} `{!Deserializer D} (source : D) : res (Constraint * D) :=
  '(type, source) ← Read 1 source;
  if type =? NOT_NULL then
    '(index, source) ← Read 8 source;
    Ok (NotNullConstraint index, source)
  else if type =? CHECK then
    '(expression, source) ← Deserialize source;
    Ok (CheckConstraint expression, source)
  else if type =? UNIQUE then
    '(is_primary_key, source) ← ReadBool source;
    '(index, source) ← Read 8 source;
    '(column_count, source) ← Read 4 source;
    if negb (index =? INVALID_INDEX) then Ok (UniqueConstraint is_primary_key index [], source)
    else
      '(columns, source) ← Read_times (Z.to_nat column_count) ReadString source;
      Ok (UniqueConstraint is_primary_key INVALID_INDEX columns, source)
  else Throw (UndefinedBehaviour "null constraint").

Definition Constraint_pieces (c : Constraint) : list (list Z) :=
  match c with
  | NotNullConstraint index => [le_encode 1 NOT_NULL] ++ [le_encode 8 index] ++ []
  | CheckConstraint expression => [le_encode 1 CHECK] ++ pieces expression ++ []
  | UniqueConstraint is_primary_key index columns =>
      [le_encode 1 UNIQUE] ++ [le_encode 1 (of_bool is_primary_key)] ++ [le_encode 8 index] ++ list_pieces columns
  end.

(** The two kinds of UNIQUE constraints that the constructors allow. *)
Definition Constraint_valid (c : Constraint) : Prop :=
  match c with
  | NotNullConstraint index => inU 64 index
  | CheckConstraint expression => valid expression
  | UniqueConstraint _ index columns => inU 64 index ∧ valid_list columns ∧ (index ≠ INVALID_INDEX → columns = [])
  end.

Lemma decodes_tag {D T} `{!Deserializer D} (tag : Z) (f : Z → D → res (T * D)) bytes v :
  inU 8 tag → decodes (f tag) bytes v → decodes (λ d, '(t, d) ← Read 1 d; f t d) (le_encode 1 tag ++ bytes) v.
Proof. intros Ht Hf. apply decodes_bind with tag; [by apply decodes_u8|done]. Qed.

Lemma decodes_UniqueConstraint {D} `{!Deserializer D} primary index (columns : list (list Z)) :
  inU 64 index → valid_list columns → (index ≠ INVALID_INDEX → columns = []) →
  decodes (λ d : D, Constraint_Deserialize d) (mjoin (Constraint_pieces (UniqueConstraint primary index columns))) (UniqueConstraint primary index columns).
Proof.
  intros Hi [Hs Hv] Hc. unfold Constraint_Deserialize, Constraint_pieces, list_pieces. change (le_encode 4 ?n :: ?l) with ([le_encode 4 n] ++ l).
  autorewrite with codec. apply decodes_tag; [done|]. cbn [Z.eqb Pos.eqb NOT_NULL CHECK UNIQUE].
  eapply decodes_bind; [solve [eauto with codec]|]. eapply decodes_bind; [solve [eauto with codec]|].
  eapply decodes_bind; [apply decodes_Read; split; [lia|exact Hs]|]. destruct (Z.eqb_spec index INVALID_INDEX) as [->|Hne]; cbn [negb].
  - rewrite <-(app_nil_r (mjoin _)). eapply decodes_bind; [|apply decodes_ret]. rewrite Nat2Z.id, join_bind. apply decodes_times.
    eapply Forall_impl; [exact Hv|]. intros v Hv'. by apply decodes_string.
  - rewrite Hc by done. apply decodes_ret.
Qed.

#[global] Program Instance Constraint_codec : Codec Constraint := {|
  Serialize S _ := Constraint_Serialize;
  Deserialize D _ := Constraint_Deserialize;
  pieces := Constraint_pieces;
  valid := Constraint_valid;
|}.
Next Obligation. intros S ? [index|expression|primary index columns]; unfold Constraint_Serialize, Constraint_pieces; write_fields. Qed.
Next Obligation.
  intros D ? [index|expression|primary index columns]; cbn [Constraint_valid].
  - intros Hi. unfold Constraint_Deserialize, Constraint_pieces. autorewrite with codec. apply decodes_tag; [done|].
    cbn [Z.eqb Pos.eqb NOT_NULL]. decode_fields.
  - intros He. unfold Constraint_Deserialize, Constraint_pieces. autorewrite with codec. apply decodes_tag; [done|].
    cbn [Z.eqb Pos.eqb NOT_NULL CHECK]. decode_fields.
  - intros (Hi & Hl & Hc). by apply decodes_UniqueConstraint.
Qed.
(** ** ALTER statements *)

Inductive AlterInfo : Type :=
| RenameColumnInfo (schema name old_name new_name : list Z)
| RenameTableInfo (schema name new_table_name : list Z)
| AddColumnInfo (schema name : list Z) (new_column : ColumnDefinition)
| RemoveColumnInfo (schema name removed_column : list Z) (if_exists : bool)
| ChangeColumnTypeInfo (schema name column_name : list Z) (target_type : LogicalType) (expression : option ParsedExpression)
| SetDefaultInfo (schema name column_name : list Z) (expression : option ParsedExpression)
| RenameViewInfo (schema name new_view_name : list Z).

Definition ALTER_TABLE : Z := 1.
Definition ALTER_VIEW : Z := 2.

(** [AlterTableType] *)
Definition RENAME_COLUMN : Z := 1.
Definition RENAME_TABLE : Z := 2.
Definition ADD_COLUMN : Z := 3.
Definition REMOVE_COLUMN : Z := 4.
Definition ALTER_COLUMN_TYPE : Z := 5.
Definition SET_DEFAULT : Z := 6.

(** [AlterViewType] *)
Definition RENAME_VIEW : Z := 1.

(** [AlterTableInfo::Serialize] after [AlterInfo::Serialize]; [AlterViewInfo::Serialize] has the same form. *)
Definition AlterInfo_Serialize_header {S} `{!Serializer S} (s : S) (type subtype : Z) (schema name : list Z) : S :=
  let s := Write 1 s type in
  let s := Write 1 s subtype in
  let s := WriteString s schema in
  WriteString s name.

Definition AlterInfo_Serialize {S} `{!Serializer S} (s : S) (info : AlterInfo) : S :=
  match info with
  | RenameColumnInfo schema name old_name new_name =>
      let s := AlterInfo_Serialize_header s ALTER_TABLE RENAME_COLUMN schema name in
      let s := WriteString s old_name in
      WriteString s new_name
  | RenameTableInfo schema name new_table_name =>
      let s := AlterInfo_Serialize_header s ALTER_TABLE RENAME_TABLE schema name in
      WriteString s new_table_name
  | AddColumnInfo schema name new_column =>
      let s := AlterInfo_Serialize_header s ALTER_TABLE ADD_COLUMN schema name in
      Serialize s new_column
  | RemoveColumnInfo schema name removed_column if_exists =>
      let s := AlterInfo_Serialize_header s ALTER_TABLE REMOVE_COLUMN schema name in
      let s := WriteString s removed_column in
      Write 1 s (of_bool if_exists)
  | ChangeColumnTypeInfo schema name column_name target_type expression =>
      let s := AlterInfo_Serialize_header s ALTER_TABLE ALTER_COLUMN_TYPE schema name in
      let s := WriteString s column_name in
      let s := Serialize s target_type in
      WriteOptional (λ s e, Serialize s e) s expression
  | SetDefaultInfo schema name column_name expression =>
      let s := AlterInfo_Serialize_header s ALTER_TABLE SET_DEFAULT schema name in
      let s := WriteString s column_name in
      WriteOptional (λ s e, Serialize s e) s expression
  | RenameViewInfo schema name new_view_name =>
      let s := AlterInfo_Serialize_header s ALTER_VIEW RENAME_VIEW schema name in
      WriteString s new_view_name
  end.

Definition AlterTableInfo_Deserialize {D} `{!Deserializer D} (source : D) : res (AlterInfo * D) :=
  '(type, source) ← Read 1 source;
  '(schema, source) ← ReadString source;
  '(table, source) ← ReadString source;
  if type =? RENAME_COLUMN then
    '(old_name, source) ← ReadString source;
    '(new_name, source) ← ReadString source;
    Ok (RenameColumnInfo schema table old_name new_name, source)
  else if type =? RENAME_TABLE then
    '(new_name, source) ← ReadString source;
    Ok (RenameTableInfo schema table new_name, source)
  else if type =? ADD_COLUMN then
    '(new_column, source) ← Deserialize source;
    Ok (AddColumnInfo schema table new_column, source)
  else if type =? REMOVE_COLUMN then
    '(new_name, source) ← ReadString source;
    '(if_exists, source) ← ReadBool source;
    Ok (RemoveColumnInfo schema table new_name if_exists, source)
  else if type =? ALTER_COLUMN_TYPE then
    '(column_name, source) ← ReadString source;
    '(target_type, source) ← Deserialize source;
    '(expression, source) ← ReadOptional (λ d, Deserialize d) source;
    Ok (ChangeColumnTypeInfo schema table column_name target_type expression, source)
  else if type =? SET_DEFAULT then
    '(column_name, source) ← ReadString source;
    '(new_default, source) ← ReadOptional (λ d, Deserialize d) source;
    Ok (SetDefaultInfo schema table column_name new_default, source)
  else Throw (SerializationException "Unknown alter table type for deserialization!").

Definition AlterViewInfo_Deserialize {D} `{!Deserializer D} (source : D) : res (AlterInfo * D) :=
  '(type, source) ← Read 1 source;
  '(schema, source) ← ReadString source;
  '(view, source) ← ReadString source;
  if type =? RENAME_VIEW then
    '(new_name, source) ← ReadString source;
    Ok (RenameViewInfo schema view new_name, source)
  else Throw (SerializationException "Unknown alter view type for deserialization!").

Definition AlterInfo_Deserialize {D} `{!Deserializer D} (source : D) : res (AlterInfo * D) :=
  '(type, source) ← Read 1 source;
  if type =? ALTER_TABLE then AlterTableInfo_Deserialize source
  else if type =? ALTER_VIEW then AlterViewInfo_Deserialize source
  else Throw (SerializationException "Unknown alter type for deserialization!").

Definition AlterInfo_header_pieces (type subtype : Z) (schema name : list Z) : list (list Z) :=
  [le_encode 1 type] ++ [le_encode 1 subtype] ++ string_pieces schema ++ string_pieces name.

Definition AlterInfo_pieces (info : AlterInfo) : list (list Z) :=
  match info with
  | RenameColumnInfo schema name old_name new_name =>
      AlterInfo_header_pieces ALTER_TABLE RENAME_COLUMN schema name ++ string_pieces old_name ++ string_pieces new_name ++ []
  | RenameTableInfo schema name new_table_name =>
      AlterInfo_header_pieces ALTER_TABLE RENAME_TABLE schema name ++ string_pieces new_table_name ++ []
  | AddColumnInfo schema name new_column =>
      AlterInfo_header_pieces ALTER_TABLE ADD_COLUMN schema name ++ pieces new_column ++ []
  | RemoveColumnInfo schema name removed_column if_exists =>
      AlterInfo_header_pieces ALTER_TABLE REMOVE_COLUMN schema name ++ string_pieces removed_column ++ [le_encode 1 (of_bool if_exists)] ++ []
  | ChangeColumnTypeInfo schema name column_name target_type expression =>
      AlterInfo_header_pieces ALTER_TABLE ALTER_COLUMN_TYPE schema name ++ string_pieces column_name ++ pieces target_type ++
        optional_pieces expression ++ []
  | SetDefaultInfo schema name column_name expression =>
      AlterInfo_header_pieces ALTER_TABLE SET_DEFAULT schema name ++ string_pieces column_name ++ optional_pieces expression ++ []
  | RenameViewInfo schema name new_view_name =>
      AlterInfo_header_pieces ALTER_VIEW RENAME_VIEW schema name ++ string_pieces new_view_name ++ []
  end.

Definition AlterInfo_valid (info : AlterInfo) : Prop :=
  match info with
  | RenameColumnInfo schema name old_name new_name => Forall valid_string [schema; name; old_name; new_name]
  | RenameTableInfo schema name new_name | RenameViewInfo schema name new_name => Forall valid_string [schema; name; new_name]
  | AddColumnInfo schema name new_column => Forall valid_string [schema; name] ∧ valid new_column
  | RemoveColumnInfo schema name removed_column _ => Forall valid_string [schema; name; removed_column]
  | ChangeColumnTypeInfo schema name column_name target_type expression =>
      Forall valid_string [schema; name; column_name] ∧ valid target_type ∧ valid_optional expression
  | SetDefaultInfo schema name column_name expression => Forall valid_string [schema; name; column_name] ∧ valid_optional expression
  end.

Lemma AlterInfo_Serialize_writes {S} `{!Serializer S} info : writes (λ s : S, AlterInfo_Serialize s info) (AlterInfo_pieces info).
Proof.
  destruct info; unfold AlterInfo_Serialize, AlterInfo_pieces, AlterInfo_Serialize_header, AlterInfo_header_pieces; write_fields.
Qed.

Lemma AlterInfo_Deserialize_decodes {D} `{!Deserializer D} info :
  AlterInfo_valid info → decodes (λ d : D, AlterInfo_Deserialize d) (mjoin (AlterInfo_pieces info)) info.
Proof.
  intros Hv. destruct info; cbn [AlterInfo_valid] in Hv; rewrite ?Forall_cons in Hv; destruct_and?;
    unfold AlterInfo_pieces, AlterInfo_header_pieces, AlterInfo_Deserialize; autorewrite with codec; rewrite <-?app_assoc;
    (apply decodes_tag; [done|]); cbn [Z.eqb Pos.eqb ALTER_TABLE ALTER_VIEW]; unfold AlterTableInfo_Deserialize, AlterViewInfo_Deserialize;
    (eapply decodes_bind; [by apply decodes_u8|]); do 2 (eapply decodes_bind; [solve [eauto with codec]|]);
    cbn [Z.eqb Pos.eqb RENAME_COLUMN RENAME_TABLE ADD_COLUMN REMOVE_COLUMN ALTER_COLUMN_TYPE SET_DEFAULT RENAME_VIEW]; decode_fields.
Qed.

#[global] Program Instance AlterInfo_codec : Codec AlterInfo := {|
  Serialize S _ := AlterInfo_Serialize;
  Deserialize D _ := AlterInfo_Deserialize;
  pieces := AlterInfo_pieces;
  valid := AlterInfo_valid;
|}.
Next Obligation. intros. apply AlterInfo_Serialize_writes. Qed.
Next Obligation. intros. by apply AlterInfo_Deserialize_decodes. Qed.
(** ** Catalog entries

    What [Deserialize] makes is the CREATE statement of the entry; its fields
    that are not serialized ([temporary], [on_conflict], [sql] of tables) have
    their defaults. *)

Record SequenceCatalogEntry : Type := mkSequence {
  seq_schema : list Z;
  seq_name : list Z;
  seq_usage_count : Z;
  seq_increment : Z;
  seq_min_value : Z;
  seq_max_value : Z;
  seq_counter : Z;
  seq_cycle : bool;
}.

Definition SequenceCatalogEntry_Serialize {S} `{!Serializer S} (s : S) (e : SequenceCatalogEntry) : S :=
  let s := WriteString s (seq_schema e) in
  let s := WriteString s (seq_name e) in
  let s := Write 8 s (seq_usage_count e) in
  let s := Write 8 s (seq_increment e) in
  let s := Write 8 s (seq_min_value e) in
  let s := Write 8 s (seq_max_value e) in
  let s := Write 8 s (seq_counter e) in
  Write 1 s (of_bool (seq_cycle e)).

Definition SequenceCatalogEntry_Deserialize {D} `{!Deserializer D} (source : D) : res (SequenceCatalogEntry * D) :=
  '(schema, source) ← ReadString source;
  '(name, source) ← ReadString source;
  '(usage_count, source) ← Read 8 source;
  '(increment, source) ← ReadInt64 source;
  '(min_value, source) ← ReadInt64 source;
  '(max_value, source) ← ReadInt64 source;
  '(start_value, source) ← ReadInt64 source;
  '(cycle, source) ← ReadBool source;
  Ok (mkSequence schema name usage_count increment min_value max_value start_value cycle, source).

#[global] Program Instance SequenceCatalogEntry_codec : Codec SequenceCatalogEntry := {|
  Serialize S _ := SequenceCatalogEntry_Serialize;
  Deserialize D _ := SequenceCatalogEntry_Deserialize;
  pieces e := string_pieces (seq_schema e) ++ string_pieces (seq_name e) ++ [le_encode 8 (seq_usage_count e)] ++
    [le_encode 8 (seq_increment e)] ++ [le_encode 8 (seq_min_value e)] ++ [le_encode 8 (seq_max_value e)] ++
    [le_encode 8 (seq_counter e)] ++ [le_encode 1 (of_bool (seq_cycle e))] ++ [];
  valid e := valid_string (seq_schema e) ∧ valid_string (seq_name e) ∧ inU 64 (seq_usage_count e) ∧ inS 64 (seq_increment e) ∧
    inS 64 (seq_min_value e) ∧ inS 64 (seq_max_value e) ∧ inS 64 (seq_counter e);
|}.
Next Obligation. intros S ? e. unfold SequenceCatalogEntry_Serialize. write_fields. Qed.
Next Obligation.
  intros D ? [schema name usage inc min max counter cycle] Hv. unfold SequenceCatalogEntry_Deserialize.
  cbn [seq_schema seq_name seq_usage_count seq_increment seq_min_value seq_max_value seq_counter seq_cycle] in *.
  destruct_and?. decode_fields.
Qed.

Record ViewCatalogEntry : Type := mkView {
  view_schema : list Z;
  view_name : list Z;
  view_sql : list Z;
  view_query : SelectStatement;
  view_aliases : list (list Z);
  view_types : list LogicalType;
}.

Definition ViewCatalogEntry_Serialize {S} `{!Serializer S} (s : S) (e : ViewCatalogEntry) : S :=
  let s := WriteString s (view_schema e) in
  let s := WriteString s (view_name e) in
  let s := WriteString s (view_sql e) in
  let s := Serialize s (view_query e) in
  let s := WriteList (λ s e, Serialize s e) s (view_aliases e) in
  WriteList (λ s e, Serialize s e) s (view_types e).

Definition ViewCatalogEntry_Deserialize {D} `{!Deserializer D} (source : D) : res (ViewCatalogEntry * D) :=
  '(schema, source) ← ReadString source;
  '(view_name, source) ← ReadString source;
  '(sql, source) ← ReadString source;
  '(query, source) ← Deserialize source;
  '(aliases, source) ← ReadList (λ d, Deserialize d) source;
  '(types, source) ← ReadList (λ d, Deserialize d) source;
  Ok (mkView schema view_name sql query aliases types, source).

#[global] Program Instance ViewCatalogEntry_codec : Codec ViewCatalogEntry := {|
  Serialize S _ := ViewCatalogEntry_Serialize;
  Deserialize D _ := ViewCatalogEntry_Deserialize;
  pieces e := string_pieces (view_schema e) ++ string_pieces (view_name e) ++ string_pieces (view_sql e) ++ pieces (view_query e) ++
    list_pieces (view_aliases e) ++ list_pieces (view_types e) ++ [];
  valid e := valid_string (view_schema e) ∧ valid_string (view_name e) ∧ valid_string (view_sql e) ∧ valid (view_query e) ∧
    valid_list (view_aliases e) ∧ valid_list (view_types e);
|}.
Next Obligation. intros S ? e. unfold ViewCatalogEntry_Serialize. write_fields. Qed.
Next Obligation.
  intros D ? [schema name sql query aliases types] Hv. unfold ViewCatalogEntry_Deserialize.
  cbn [view_schema view_name view_sql view_query view_aliases view_types] in *. destruct_and?. decode_fields.
Qed.

Record TableCatalogEntry : Type := mkTable {
  table_schema : list Z;
  table_name : list Z;
  table_columns : list ColumnDefinition;
  table_constraints : list Constraint;
}.

Definition TableCatalogEntry_Serialize {S} `{!Serializer S} (s : S) (e : TableCatalogEntry) : S :=
  let s := WriteString s (table_schema e) in
  let s := WriteString s (table_name e) in
  let s := WriteList (λ s e, Serialize s e) s (table_columns e) in
  WriteList (λ s e, Serialize s e) s (table_constraints e).

Definition TableCatalogEntry_Deserialize {D} `{!Deserializer D} (source : D) : res (TableCatalogEntry * D) :=
  '(schema, source) ← ReadString source;
  '(table, source) ← ReadString source;
  '(columns, source) ← ReadList (λ d, Deserialize d) source;
  '(constraints, source) ← ReadList (λ d, Deserialize d) source;
  Ok (mkTable schema table columns constraints, source).

#[global] Program Instance TableCatalogEntry_codec : Codec TableCatalogEntry := {|
  Serialize S _ := TableCatalogEntry_Serialize;
  Deserialize D _ := TableCatalogEntry_Deserialize;
  pieces e := string_pieces (table_schema e) ++ string_pieces (table_name e) ++ list_pieces (table_columns e) ++
    list_pieces (table_constraints e) ++ [];
  valid e := valid_string (table_schema e) ∧ valid_string (table_name e) ∧ valid_list (table_columns e) ∧ valid_list (table_constraints e);
|}.
Next Obligation. intros S ? e. unfold TableCatalogEntry_Serialize. write_fields. Qed.
Next Obligation.
  intros D ? [schema name columns constraints] Hv. unfold TableCatalogEntry_Deserialize.
  cbn [table_schema table_name table_columns table_constraints] in *. destruct_and?. decode_fields.
Qed.

(** The default parameters are an unordered map. *)
Record MacroCatalogEntry : Type := mkMacro {
  macro_schema : list Z;
  macro_name : list Z;
  macro_expression : ParsedExpression;
  macro_parameters : list ParsedExpression;
  macro_default_parameters : gmap (list Z) ParsedExpression;
}.

Definition default_parameter_Serialize {S} `{!Serializer S} (s : S) (kv : list Z * ParsedExpression) : S :=
  let s := WriteString s kv.1 in
  Serialize s kv.2.

Definition default_parameter_Deserialize {D} `{!Deserializer D} (source : D) : res (list Z * ParsedExpression * D) :=
  '(name, source) ← ReadString source;
  '(expression, source) ← Deserialize source;
  Ok ((name, expression), source).

#[global] Program Instance default_parameter_codec : Codec (list Z * ParsedExpression) := {|
  Serialize S _ := default_parameter_Serialize;
  Deserialize D _ := default_parameter_Deserialize;
  pieces kv := string_pieces kv.1 ++ pieces kv.2 ++ [];
  valid kv := valid_string kv.1 ∧ valid kv.2;
|}.
Next Obligation. intros S ? kv. unfold default_parameter_Serialize. write_fields. Qed.
Next Obligation. intros D ? [name e] [Hn He]. unfold default_parameter_Deserialize. cbn [fst snd] in *. decode_fields. Qed.

Definition MacroCatalogEntry_Serialize {S} `{!Serializer S} (s : S) (e : MacroCatalogEntry) : S :=
  let s := WriteString s (macro_schema e) in
  let s := WriteString s (macro_name e) in
  let s := Serialize s (macro_expression e) in
  let s := WriteList (λ s e, Serialize s e) s (macro_parameters e) in
  WriteList (λ s e, Serialize s e) s (map_to_list (macro_default_parameters e)).

Definition MacroCatalogEntry_Deserialize {D} `{!Deserializer D} (source : D) : res (MacroCatalogEntry * D) :=
  '(schema, source) ← ReadString source;
  '(name, source) ← ReadString source;
  '(expression, source) ← Deserialize source;
  '(parameters, source) ← ReadList (λ d, Deserialize d) source;
  '(defaults, source) ← ReadList (λ d, Deserialize d) source;
  Ok (mkMacro schema name expression parameters (foldl (λ m kv, <[kv.1 := kv.2]> m) ∅ defaults), source).

Lemma foldl_insert_union (l : list (list Z * ParsedExpression)) (m : gmap (list Z) ParsedExpression) :
  NoDup l.*1 → foldl (λ m kv, <[kv.1 := kv.2]> m) m l = list_to_map l ∪ m.
Proof.
  revert m. induction l as [|[k v] l IH]; intros m; cbn [foldl fmap list_fmap].
  - intros _. change (m = ∅ ∪ m). by rewrite map_empty_union.
  - intros [Hk Hnd]%NoDup_cons. rewrite IH by done. cbn. rewrite <-insert_union_r by (by apply not_elem_of_list_to_map_1).
    by rewrite insert_union_l.
Qed.

Lemma foldl_insert_map_to_list (m : gmap (list Z) ParsedExpression) : foldl (λ m kv, <[kv.1 := kv.2]> m) ∅ (map_to_list m) = m.
Proof. rewrite foldl_insert_union by apply NoDup_fst_map_to_list. by rewrite list_to_map_to_list, map_union_empty. Qed.

#[global] Program Instance MacroCatalogEntry_codec : Codec MacroCatalogEntry := {|
  Serialize S _ := MacroCatalogEntry_Serialize;
  Deserialize D _ := MacroCatalogEntry_Deserialize;
  pieces e := string_pieces (macro_schema e) ++ string_pieces (macro_name e) ++ pieces (macro_expression e) ++
    list_pieces (macro_parameters e) ++ list_pieces (map_to_list (macro_default_parameters e)) ++ [];
  valid e := valid_string (macro_schema e) ∧ valid_string (macro_name e) ∧ valid (macro_expression e) ∧
    valid_list (macro_parameters e) ∧ valid_list (map_to_list (macro_default_parameters e));
|}.
Next Obligation. intros S ? e. unfold MacroCatalogEntry_Serialize. write_fields. Qed.
Next Obligation.
  intros D ? [schema name expression parameters defaults] Hv. unfold MacroCatalogEntry_Deserialize.
  cbn [macro_schema macro_name macro_expression macro_parameters macro_default_parameters] in *. destruct_and?.
  rewrite <-(foldl_insert_map_to_list defaults) at 2. decode_fields.
Qed.
End parse_trees.

Arguments ColumnDefinition : clear implicits.
Arguments Constraint : clear implicits.
Arguments AlterInfo : clear implicits.
Arguments ViewCatalogEntry : clear implicits.
Arguments TableCatalogEntry : clear implicits.
Arguments MacroCatalogEntry : clear implicits.
