(* ===== verification/TableVersions.v ===== *)
(** * The version information of a table in a checkpoint

    Models [CheckpointDeletes] of src/src/storage/checkpoint/table_data_writer.cpp,
    the version tree that src/src/storage/checkpoint/table_data_reader.cpp reads,
    and the constructor of [DataTable] (src/src/storage/data_table.cpp) for a
    table with data in the file.

    Theorems: the table that is loaded from a checkpoint has the versions of the
    rows that were committed, so that all theorems on tables hold for it; but
    rows of an append that was reverted leave marks that delete the rows which
    are appended in their place after the restart. *)

From S2P Require Import Prelude Constants Serializer ChunkInfo MorselInfo SegmentTree DataTable CatalogCodec.

(** ** Writing *)

(** The vectors of a morsel that have version information. *)
Definition chunk_infos (infos : list (option ChunkInfo)) : list (nat * ChunkInfo) :=
  omap (λ k, match infos !! k with Some (Some info) => Some (k, info) | _ => None end) (seq 0 MORSEL_VECTOR_COUNT).

Section writing.
Context {S : Type} `{!Serializer S}.

Definition WriteChunkInfo (s : S) (entry : nat * ChunkInfo) : S :=
  ChunkInfo_Serialize entry.2 (Write 8 s (Z.of_nat entry.1)).

(** The body of the loop over the morsels. *)
Definition WriteMorselInfo (s : S) (m : MorselInfo) : S :=
  match m_root m with
  | Some infos => foldl WriteChunkInfo (Write 8 s (Z.of_nat (length (chunk_infos infos)))) (chunk_infos infos)
  | None => Write 8 s 0
  end.

Definition CheckpointDeletes (s : S) (versions : list MorselInfo) : S := foldl WriteMorselInfo s versions.
End writing.

(** ** Reading *)

Section reading.
Context {D : Type} `{!Deserializer D}.

(** [info] is an array: the code does not check the index that it reads. *)
Fixpoint ReadChunkInfos (n : nat) (infos : list (option ChunkInfo)) (reader : D) : res (list (option ChunkInfo) * D) :=
  match n with
  | O => Ok (infos, reader)
  | S n =>
      '(vector_index, reader) ← Read 8 reader;
      '(info, reader) ← ChunkInfo_Deserialize reader;
      if (Z.to_nat vector_index <? MORSEL_VECTOR_COUNT)%nat then ReadChunkInfos n (<[Z.to_nat vector_index := info]> infos) reader
      else Throw (UndefinedBehaviour "info[vector_index] is out of bounds")
  end.

Definition ReadMorselInfo (start : nat) (reader : D) : res (MorselInfo * D) :=
  '(chunk_info_count, reader) ← Read 8 reader;
  if 0 <? chunk_info_count then
    '(infos, reader) ← ReadChunkInfos (Z.to_nat chunk_info_count) VersionNode_new reader;
    Ok (mkMorselInfo start (Some infos), reader)
  else Ok (MorselInfo_new start, reader).

(** [for (i = 0; i < total_rows; i += MORSEL_SIZE)] *)
Fixpoint ReadVersions_loop (fuel i total_rows : nat) (versions : list MorselInfo) (reader : D) : res (list MorselInfo * D) :=
  if (i <? total_rows)%nat then
    match fuel with
    | O => Throw (UndefinedBehaviour "the loop does not end")
    | S fuel =>
        '(segment, reader) ← ReadMorselInfo i reader;
        ReadVersions_loop fuel (i + MORSEL_SIZE) total_rows (AppendSegment versions segment) reader
    end
  else Ok (versions, reader).

Definition ReadVersions (total_rows : nat) (reader : D) : res (list MorselInfo * D) :=
  ReadVersions_loop total_rows 0 total_rows [] reader.
End reading.

(** [DataTable::DataTable] with the data that was read. *)
Definition DataTable_load (total_rows : nat) (versions : list MorselInfo) : DataTable :=
  let versions := if (total_rows =? 0)%nat then AppendSegment versions (MorselInfo_new 0) else versions in
  mkDataTable versions total_rows 0 true.

(** ** Specification *)

(** The row was inserted and not deleted by transactions that committed. *)
Definition row_committed (v : Z * Z) : bool := (v.1 <? TRANSACTION_ID_START - 1) && negb (v.2 <? TRANSACTION_ID_START - 1).

(** The version of a row after a checkpoint. *)
Definition checkpointed (v : Z * Z) : Z * Z := if row_committed v then (0, NOT_DELETED_ID) else (0, 0).

(** Ids of transactions and commits, or [NOT_DELETED_ID]. *)
Definition plain (id : Z) : Prop := id ≠ TRANSACTION_ID_START - 1 ∧ id ≠ INVALID_INDEX.

Definition plain_version (v : Z * Z) : Prop := plain v.1 ∧ plain v.2.

(** The places behind the [n] rows of a vector hold no id of a transaction
    that did not commit. *)
Definition clean_tail (info : option ChunkInfo) (n : nat) : Prop :=
  match info with
  | Some (VectorInfo v) => ∀ i, (n <= i < STANDARD_VECTOR_SIZE)%nat → eff_inserted v i < TRANSACTION_ID_START - 1
  | _ => True
  end.

Record checkpointable (m : MorselInfo) (n : nat) : Prop := {
  cp_tail : ∀ k, (k < MORSEL_VECTOR_COUNT)%nat → clean_tail (MorselInfo_GetChunkInfo m k) (rows_of n k);
  cp_start : ∀ k info, MorselInfo_GetChunkInfo m k = Some info → Z.of_nat (ChunkInfo_start info) < 2 ^ 64;
}.

(** ** Lemmas: a chunk info *)

Definition ChunkInfo_pieces (info : ChunkInfo) : list (list Z) :=
  match info with
  | ConstantInfo c =>
      if negb ((TRANSACTION_ID_START <=? cc_insert_id c) || (cc_delete_id c <? TRANSACTION_ID_START)) then [le_encode 1 EMPTY_INFO]
      else [le_encode 1 CONSTANT_INFO; le_encode 8 (Z.of_nat (cc_start c))]
  | VectorInfo v =>
      let '(count, sel) := ChunkVectorInfo_GetSelVector v (TRANSACTION_ID_START - 1) INVALID_INDEX
        (replicate STANDARD_VECTOR_SIZE 0%nat) STANDARD_VECTOR_SIZE in
      if (count =? STANDARD_VECTOR_SIZE)%nat then [le_encode 1 EMPTY_INFO]
      else if (count =? 0)%nat then [le_encode 1 CONSTANT_INFO; le_encode 8 (Z.of_nat (cv_start v))]
      else [le_encode 1 VECTOR_INFO; le_encode 8 (Z.of_nat (cv_start v)); bool_byte <$> deleted_tuples count sel]
  end.

Lemma ChunkInfo_Serialize_writes {S} `{!Serializer S} info : writes (λ s : S, ChunkInfo_Serialize info s) (ChunkInfo_pieces info).
Proof.
  intros s. destruct info as [c|v]; cbn [ChunkInfo_Serialize ChunkInfo_pieces].
  - unfold ChunkConstantInfo_Serialize. by destruct (_ || _).
  - unfold ChunkVectorInfo_Serialize. destruct (ChunkVectorInfo_GetSelVector _ _ _ _ _) as [count sel].
    destruct (count =? STANDARD_VECTOR_SIZE)%nat; [done|]. by destruct (count =? 0)%nat.
Qed.

Lemma UseVersion_plain id : plain id → UseVersion (TRANSACTION_ID_START - 1) INVALID_INDEX id = (id <? TRANSACTION_ID_START - 1).
Proof. intros [_ Hid]. unfold UseVersion. apply Z.eqb_neq in Hid. by rewrite Hid, orb_false_r. Qed.

Lemma plain_lt id : plain id → (id <? TRANSACTION_ID_START) = (id <? TRANSACTION_ID_START - 1).
Proof. intros [Hid _]. bools; lia || done. Qed.

Lemma length_loaded_deleted del : length (loaded_deleted del) = STANDARD_VECTOR_SIZE.
Proof.
  unfold loaded_deleted.
  destruct (for_cond_insert (λ i, negb ((bool_byte <$> del) !!! i =? 0)) (λ _, 0)
              STANDARD_VECTOR_SIZE (replicate STANDARD_VECTOR_SIZE NOT_DELETED_ID)) as [Hl _].
  rewrite length_replicate in Hl. exact Hl.
Qed.

(** What [Serialize] selects: the rows that are visible to everyone. *)
Lemma checkpoint_selection v n :
  ChunkVectorInfo_ok v n →
  ∃ count sel, ChunkVectorInfo_GetSelVector v (TRANSACTION_ID_START - 1) INVALID_INDEX
      (replicate STANDARD_VECTOR_SIZE 0%nat) STANDARD_VECTOR_SIZE = (count, sel) ∧
    (count <= STANDARD_VECTOR_SIZE)%nat ∧ length sel = STANDARD_VECTOR_SIZE ∧
    ∀ i, (i < STANDARD_VECTOR_SIZE)%nat → eff_visible (TRANSACTION_ID_START - 1) INVALID_INDEX v i = true ↔
      i ∈ if (count =? STANDARD_VECTOR_SIZE)%nat then seq 0 STANDARD_VECTOR_SIZE else take count sel.
Proof.
  intros Hv. pose proof (GetSelVector_eff v n _ _ (replicate STANDARD_VECTOR_SIZE 0%nat) STANDARD_VECTOR_SIZE
    Hv checkpoint_snapshot_ok (le_n _) (length_replicate _ _)) as Hrows.
  destruct (GetSelVector_bounds v (TRANSACTION_ID_START - 1) INVALID_INDEX
    (replicate STANDARD_VECTOR_SIZE 0%nat) STANDARD_VECTOR_SIZE) as [Hcnt Hlen]; [by rewrite length_replicate|].
  destruct (ChunkVectorInfo_GetSelVector _ _ _ _ _) as [count sel]. cbn [fst snd] in *. rewrite length_replicate in Hlen.
  unfold sel_rows in Hrows. cbn [fst snd] in Hrows. exists count, sel. split_and!; [done..|].
  intros i Hi. rewrite Hrows, elem_of_filter_seq. tauto.
Qed.

Lemma loaded_deleted_tuples count sel i :
  (count <= STANDARD_VECTOR_SIZE)%nat → length sel = STANDARD_VECTOR_SIZE → (i < STANDARD_VECTOR_SIZE)%nat →
  loaded_deleted (deleted_tuples count sel) !!! i = if bool_decide (i ∈ take count sel) then NOT_DELETED_ID else 0.
Proof.
  intros Hc Hl Hi. rewrite loaded_deleted_lookup by (done || by apply length_deleted_tuples; lia).
  rewrite list_lookup_total_alt, deleted_tuples_lookup by lia. cbn. by case_bool_decide.
Qed.

(** What is left of a chunk info of [n] rows after a restart. *)
Lemma ChunkInfo_image {D} `{!Deserializer D} info n :
  info_ok (Some info) n → clean_tail (Some info) n → Z.of_nat (ChunkInfo_start info) < 2 ^ 64 →
  (∀ i, (i < n)%nat → plain_version (info_version (Some info) i)) →
  ∃ loaded, decodes (λ d : D, ChunkInfo_Deserialize d) (mjoin (ChunkInfo_pieces info)) loaded ∧ info_ok loaded n ∧
    ∀ i, (i < n)%nat → info_version loaded i = checkpointed (info_version (Some info) i).
Proof.
  intros Hok Htail Hst Hset. destruct info as [c|v].
  { cbn [info_ok] in Hok. pose proof STANDARD_VECTOR_SIZE_pos as Hpos. destruct (Hset 0%nat ltac:(lia)) as [Hi Hd]. cbn [info_version fst snd] in *.
    cbn [ChunkInfo_pieces ChunkInfo_start] in *. unfold checkpointed, row_committed. cbn [fst snd].
    rewrite (plain_lt (cc_delete_id c)), Z.leb_antisym, (plain_lt (cc_insert_id c)) by done.
    destruct (cc_insert_id c <? _), (cc_delete_id c <? _); cbn [negb andb orb];
      [eexists; split; [cbn [mjoin list_join]; rewrite app_nil_r; by apply decodes_constant|done]| |
       eexists; split; [cbn [mjoin list_join]; rewrite app_nil_r; by apply decodes_constant|done]..].
    exists None. split; [apply decodes_empty|done]. }
  destruct Hok as (Hn0 & Hv & Hdel). cbn [clean_tail ChunkInfo_start] in *. cbn [ChunkInfo_pieces].
  destruct (checkpoint_selection v n Hv) as (count & sel & -> & Hcnt & Hlen & Hsel). pose proof (cv_count _ _ Hv) as Hn.
  set (gone := λ i, negb (eff_visible (TRANSACTION_ID_START - 1) INVALID_INDEX v i)).
  assert (∀ i, (n <= i < STANDARD_VECTOR_SIZE)%nat → gone i = false) as Hgone.
  { intros i Hi. unfold gone, eff_visible. rewrite Hdel by done. rewrite UseVersion_not_deleted by apply checkpoint_snapshot_ok.
    rewrite (proj2 (UseVersion_true _ _ _)); [done|]. left. by apply Htail. }
  assert (∀ i, (i < STANDARD_VECTOR_SIZE)%nat → gone i = false ↔
    i ∈ if (count =? STANDARD_VECTOR_SIZE)%nat then seq 0 STANDARD_VECTOR_SIZE else take count sel) as Hcomm.
  { intros i Hi. rewrite <-Hsel by done. unfold gone. by rewrite negb_false_iff. }
  assert (∀ i, (i < n)%nat → checkpointed (info_version (Some (VectorInfo v)) i) = (0, if gone i then 0 else NOT_DELETED_ID)) as Hcp.
  { intros i Hi. destruct (Hset i Hi) as [H1 H2]. unfold gone. rewrite (eff_visible_visible v n) by done. unfold visible, checkpointed, row_committed.
    cbn [info_version fst snd] in *. rewrite !UseVersion_plain by done. by destruct (_ && _). }
  clearbody gone. clear Hsel Hset Htail. revert Hcomm. destruct (Nat.eqb_spec count STANDARD_VECTOR_SIZE) as [->|Hne]; intros Hcomm.
  { exists None. split; [apply decodes_empty|]. split; [done|]. intros i Hi. rewrite Hcp by done.
    assert (gone i = false) as ->; [|done]. apply Hcomm; [lia|]. apply elem_of_seq. lia. }
  destruct (Nat.eqb_spec count 0) as [->|Hne0].
  { assert (∀ i, (i < STANDARD_VECTOR_SIZE)%nat → gone i = true) as Hall.
    { intros i Hi. apply not_false_iff_true. rewrite Hcomm by done. apply not_elem_of_nil. }
    eexists. split; [cbn [mjoin list_join]; rewrite app_nil_r; by apply decodes_constant|]. split.
    - cbn [info_ok]. destruct (decide (n < STANDARD_VECTOR_SIZE)%nat); [|lia]. pose proof (Hgone n ltac:(lia)) as H1. by rewrite Hall in H1.
    - intros i Hi. by rewrite Hcp, Hall by lia. }
  pose proof (length_deleted_tuples count sel ltac:(lia)) as Hdl.
  assert (∀ i, (i < STANDARD_VECTOR_SIZE)%nat → loaded_deleted (deleted_tuples count sel) !!! i = if gone i then 0 else NOT_DELETED_ID) as Hld.
  { intros i Hi. rewrite loaded_deleted_tuples by done. specialize (Hcomm i Hi).
    destruct (gone i); case_bool_decide as Hin; try done; [by apply Hcomm in Hin|by destruct Hin; apply Hcomm]. }
  eexists. split; [cbn [mjoin list_join]; rewrite app_nil_r; by apply decodes_vector|]. split.
  - split; [done|]. split; [|intros i Hi; cbn [deleted loaded_vector]; rewrite Hld by lia; by rewrite Hgone].
    split; cbn [inserted deleted same_inserted_id insert_id any_deleted loaded_vector]; [apply length_replicate| |done| |done].
    + apply length_loaded_deleted.
    + intros _ i Hi. apply lookup_total_replicate_2. lia.
  - intros i Hi. rewrite Hcp by done. cbn [info_version inserted deleted loaded_vector]. rewrite Hld by lia.
    by rewrite lookup_total_replicate_2 by lia.
Qed.

(** ** Lemmas: a morsel *)

Definition chunk_entry_pieces (entry : nat * ChunkInfo) : list (list Z) := le_encode 8 (Z.of_nat entry.1) :: ChunkInfo_pieces entry.2.

Definition MorselInfo_pieces (m : MorselInfo) : list (list Z) :=
  match m_root m with
  | Some infos => le_encode 8 (Z.of_nat (length (chunk_infos infos))) :: (chunk_infos infos ≫= chunk_entry_pieces)
  | None => [le_encode 8 0]
  end.

Lemma CheckpointDeletes_writes {S} `{!Serializer S} versions :
  writes (λ s : S, CheckpointDeletes s versions) (versions ≫= MorselInfo_pieces).
Proof.
  apply (writes_foldl WriteMorselInfo). intros m _ s. unfold WriteMorselInfo, MorselInfo_pieces. destruct (m_root m) as [infos|]; [|done].
  apply (writes_seq (λ s, Write 8 s _) (λ s, foldl WriteChunkInfo s _) [_]); [apply writes_Write|].
  apply (writes_foldl WriteChunkInfo). intros e _.
  apply (writes_seq (λ s, Write 8 s _) (λ s, ChunkInfo_Serialize e.2 s) [_]); [apply writes_Write|apply ChunkInfo_Serialize_writes].
Qed.

Lemma elem_of_chunk_infos infos k info :
  (k, info) ∈ chunk_infos infos ↔ (k < MORSEL_VECTOR_COUNT)%nat ∧ infos !! k = Some (Some info).
Proof.
  unfold chunk_infos. rewrite list_elem_of_omap. split.
  - intros (j & Hj & Heq). apply elem_of_seq in Hj. destruct (infos !! j) as [[info'|]|] eqn:Hl; simplify_eq. split; [lia|done].
  - intros [Hk Hl]. exists k. split; [apply elem_of_seq; lia|]. by rewrite Hl.
Qed.

Lemma NoDup_chunk_infos infos : NoDup (chunk_infos infos).*1.
Proof.
  unfold chunk_infos. pose proof (NoDup_seq 0 MORSEL_VECTOR_COUNT) as Hnd. revert Hnd. generalize (seq 0 MORSEL_VECTOR_COUNT).
  intros l. induction 1 as [|k l Hk Hnd IH]; [constructor|]. cbn [omap list_omap].
  destruct (infos !! k) as [[info|]|]; cbn [fmap list_fmap]; [|done..]. constructor; [|done]. cbn.
  intros ([? ?] & -> & (j & Hj & Heq)%list_elem_of_omap)%list_elem_of_fmap. cbn in Hk. destruct (infos !! j) as [[]|]; simplify_eq. done.
Qed.

Lemma length_chunk_infos infos : (length (chunk_infos infos) <= MORSEL_VECTOR_COUNT)%nat.
Proof.
  transitivity (length (seq 0 MORSEL_VECTOR_COUNT)); [|by rewrite length_seq]. unfold chunk_infos. generalize (seq 0 MORSEL_VECTOR_COUNT). intros l.
  induction l as [|k l IH]; cbn [omap list_omap length]; [done|]. destruct (infos !! k) as [[]|]; cbn [length]; lia.
Qed.

Lemma Forall_choose {A B} (P : A → B → Prop) l : Forall (λ x, ∃ y, P x y) l → ∃ k, Forall2 P l k.
Proof. induction 1 as [|x l (y & Hy) _ (k & Hk)]; [by exists []|]. exists (y :: k). by constructor. Qed.

Definition put_infos (infos : list (option ChunkInfo)) (l : list (nat * option ChunkInfo)) : list (option ChunkInfo) :=
  foldl (λ infos p, <[p.1 := p.2]> infos) infos l.

Lemma length_put_infos infos l : length (put_infos infos l) = length infos.
Proof. revert infos. induction l as [|p l IH]; intros infos; [done|]. cbn [put_infos foldl]. fold (put_infos (<[p.1:=p.2]> infos) l). by rewrite IH, length_insert. Qed.

Lemma lookup_put_infos_other infos l k : k ∉ l.*1 → put_infos infos l !! k = infos !! k.
Proof.
  revert infos. induction l as [|p l IH]; intros infos Hk; [done|]. apply not_elem_of_cons in Hk as [Hne Hk].
  cbn [put_infos foldl]. fold (put_infos (<[p.1:=p.2]> infos) l). rewrite IH by done. by rewrite list_lookup_insert_ne.
Qed.

Lemma lookup_put_infos infos l k info : NoDup l.*1 → (k < length infos)%nat → (k, info) ∈ l → put_infos infos l !! k = Some info.
Proof.
  revert infos. induction l as [|p l IH]; intros infos Hnd Hk Hin; [by apply not_elem_of_nil in Hin|].
  cbn [fmap list_fmap] in Hnd. apply NoDup_cons in Hnd as [Hp Hnd]. cbn [put_infos foldl]. fold (put_infos (<[p.1:=p.2]> infos) l).
  apply elem_of_cons in Hin as [<-|Hin].
  - cbn [fst snd] in *. rewrite lookup_put_infos_other by done. by apply list_lookup_insert_eq.
  - apply IH; [done|by rewrite length_insert|done].
Qed.

Section loading_versions.
Context {D : Type} `{!Deserializer D}.

Definition loads (entry : nat * ChunkInfo) (loaded : option ChunkInfo) : Prop :=
  decodes (λ d : D, ChunkInfo_Deserialize d) (mjoin (ChunkInfo_pieces entry.2)) loaded.

Lemma MVC_small : Z.of_nat MORSEL_VECTOR_COUNT < 2 ^ 64.
Proof. by vm_compute. Qed.

Lemma decodes_ReadChunkInfos entries loaded infos :
  Forall2 loads entries loaded → Forall (λ e, (e.1 < MORSEL_VECTOR_COUNT)%nat) entries →
  decodes (λ d : D, ReadChunkInfos (length entries) infos d) (mjoin (entries ≫= chunk_entry_pieces)) (put_infos infos (zip entries.*1 loaded)).
Proof.
  intros Hl. revert infos. induction Hl as [|e l entries loaded He Hl IH]; intros infos Hlt; [apply decodes_ret|].
  apply Forall_cons in Hlt as [Hk Hlt]. rewrite bind_cons. unfold chunk_entry_pieces at 1. cbn [app mjoin list_join length ReadChunkInfos].
  rewrite join_app. pose proof MVC_small. apply decodes_bind with (Z.of_nat e.1); [apply decodes_Read; split; lia|].
  apply decodes_bind with l; [exact He|]. rewrite Nat2Z.id, (proj2 (Nat.ltb_lt _ _)) by done.
  cbn [fmap list_fmap zip zip_with]. by apply IH.
Qed.

Lemma refines_loaded m vs loaded :
  refines m vs → Forall plain_version vs → length (root_infos loaded) = MORSEL_VECTOR_COUNT →
  (∀ k, (k < MORSEL_VECTOR_COUNT)%nat → info_ok (MorselInfo_GetChunkInfo loaded k) (rows_of (length vs) k) ∧
     ∀ i, (i < rows_of (length vs) k)%nat →
       info_version (MorselInfo_GetChunkInfo loaded k) i = checkpointed (info_version (MorselInfo_GetChunkInfo m k) i)) →
  refines loaded (checkpointed <$> vs).
Proof.
  intros Hr Hset Hlen Hinfo. pose proof (rf_ok _ _ Hr) as Hok. split.
  - rewrite length_fmap. split; [done|apply Hok|]. intros k Hk. by apply Hinfo.
  - intros r v. rewrite list_lookup_fmap. destruct (vs !! r) as [w|] eqn:Hw; cbn; [|done]. intros [= <-].
    pose proof (lookup_lt_Some _ _ _ Hw) as Hlt. pose proof (m_rows _ _ Hok) as Hrows. destruct (row_split r) as [Hsp Hmod].
    unfold version. destruct (Hinfo (r / VS)%nat (row_vector_lt r ltac:(lia))) as [_ Hv].
    rewrite Hv by (apply rows_of_lt; lia). f_equal. apply (rf_version _ _ Hr). done.
Qed.

(** What is left of a morsel after a restart. *)
Lemma ReadMorselInfo_image m vs start :
  refines m vs → checkpointable m (length vs) → Forall plain_version vs →
  ∃ loaded, decodes (λ d : D, ReadMorselInfo start d) (mjoin (MorselInfo_pieces m)) loaded ∧
    m_start loaded = start ∧ refines loaded (checkpointed <$> vs).
Proof.
  intros Hr [Htail Hst] Hset. pose proof (rf_ok _ _ Hr) as Hok.
  assert (∀ k i, (k < MORSEL_VECTOR_COUNT)%nat → (i < rows_of (length vs) k)%nat → plain_version (info_version (MorselInfo_GetChunkInfo m k) i)) as Hsettled.
  { intros k i Hk Hi. pose proof (rows_of_le (length vs) k). assert (k * VS + i < length vs)%nat as Hlt by (apply rows_of_lt; lia).
    destruct (lookup_lt_is_Some_2 vs _ Hlt) as [v Hv]. rewrite <-version_join by lia. rewrite (rf_version _ _ Hr _ _ Hv).
    rewrite Forall_forall in Hset. by eapply Hset, list_elem_of_lookup_2. }
  assert (∀ k, (k < MORSEL_VECTOR_COUNT)%nat → MorselInfo_GetChunkInfo m k = None → ∀ i, checkpointed (info_version (MorselInfo_GetChunkInfo m k) i) = (0, NOT_DELETED_ID)) as Hnone.
  { intros k _ -> i. done. }
  set (entries := chunk_infos (root_infos m)).
  assert (∀ k info, (k, info) ∈ entries ↔ (k < MORSEL_VECTOR_COUNT)%nat ∧ MorselInfo_GetChunkInfo m k = Some info) as Hentries.
  { intros k info. unfold entries. rewrite elem_of_chunk_infos. unfold MorselInfo_GetChunkInfo, root_infos. destruct (m_root m) as [infos|]; cbn [from_option]; unfold id.
    - destruct (infos !! k) as [o|]; cbn [from_option]; split; intros [? Heq]; (split; [done|]); [by injection Heq|by rewrite Heq|done|done].
    - unfold VersionNode_new. split; [intros [Hk Heq]|intros [_ Heq]; done]. apply lookup_replicate_1 in Heq as [? _]. done. }
  destruct (Forall_choose (λ e l, loads e l ∧ info_ok l (rows_of (length vs) e.1) ∧
      ∀ i, (i < rows_of (length vs) e.1)%nat → info_version l i = checkpointed (info_version (Some e.2) i)) entries) as (ls & Hls).
  { rewrite Forall_forall. intros [k info] [Hk Hg]%Hentries. apply (ChunkInfo_image info (rows_of (length vs) k)).
    - rewrite <-Hg. by apply Hok.
    - rewrite <-Hg. by apply Htail.
    - by eapply Hst.
    - intros i Hi. rewrite <-Hg. by apply Hsettled. }
  assert (length entries = length ls) as Hlen by by eapply Forall2_length.
  assert (decodes (λ d : D, ReadMorselInfo start d) (mjoin (MorselInfo_pieces m))
    (if (0 <? length entries)%nat then mkMorselInfo start (Some (put_infos VersionNode_new (zip entries.*1 ls))) else MorselInfo_new start)) as Hdec.
  { assert (MorselInfo_pieces m = le_encode 8 (Z.of_nat (length entries)) :: (entries ≫= chunk_entry_pieces)) as ->.
    { unfold MorselInfo_pieces, entries, root_infos. destruct (m_root m); [done|]. cbn [default]. 
      assert (chunk_infos VersionNode_new = []) as ->; [|done]. destruct (chunk_infos VersionNode_new) as [|[k info] l] eqn:Hc; [done|].
      assert ((k, info) ∈ chunk_infos VersionNode_new) as [_ Hl]%elem_of_chunk_infos by (rewrite Hc; left).
      apply lookup_replicate_1 in Hl as [? _]. done. }
    cbn [mjoin list_join]. pose proof (length_chunk_infos (root_infos m)) as Hle. fold entries in Hle. pose proof MVC_small.
    apply decodes_bind with (Z.of_nat (length entries)); [apply decodes_Read; split; lia|].
    destruct (Z.ltb_spec 0 (Z.of_nat (length entries))), (Nat.ltb_spec 0 (length entries)); [|lia..|].
    - rewrite Nat2Z.id, <-(app_nil_r (mjoin _)). eapply decodes_bind; [|apply decodes_ret]. apply decodes_ReadChunkInfos.
      + eapply Forall2_impl; [exact Hls|]. naive_solver.
      + rewrite Forall_forall. intros [k info] [Hk _]%Hentries. exact Hk.
    - destruct entries; [|cbn in *; lia]. apply decodes_ret. }
  eexists. split; [exact Hdec|].
  assert (∀ l, length (put_infos VersionNode_new l) = MORSEL_VECTOR_COUNT) as Hput.
  { intros l. rewrite length_put_infos. apply length_replicate. }
  split; [by destruct (0 <? length entries)%nat|]. apply (refines_loaded m); [done..| |].
  { destruct (0 <? length entries)%nat; [apply Hput|apply length_replicate]. }
  intros k Hk. destruct (MorselInfo_GetChunkInfo m k) as [info|] eqn:Hg.
  - assert ((k, info) ∈ entries) as Hin by by apply Hentries.
    destruct (Nat.ltb_spec 0 (length entries)); [|destruct entries; [by apply not_elem_of_nil in Hin|cbn in *; lia]].
    apply list_elem_of_lookup_1 in Hin as (i & Hi). destruct (Forall2_lookup_l _ _ _ _ _ Hls Hi) as (l & Hl & _ & Hiok & Hiv).
    unfold MorselInfo_GetChunkInfo at 1 2. cbn [m_root]. rewrite (lookup_put_infos _ _ k l); [by split| | |].
    + rewrite fst_zip by (rewrite length_fmap; lia). apply NoDup_chunk_infos.
    + unfold VersionNode_new. by rewrite length_replicate.
    + apply list_elem_of_lookup. exists i. by rewrite lookup_zip_with, list_lookup_fmap, Hi, Hl.
  - assert (MorselInfo_GetChunkInfo (if (0 <? length entries)%nat then mkMorselInfo start (Some (put_infos VersionNode_new (zip entries.*1 ls)))
        else MorselInfo_new start) k = None) as ->; [|done].
    destruct (0 <? length entries)%nat; [|done]. unfold MorselInfo_GetChunkInfo. cbn [m_root].
    rewrite lookup_put_infos_other; [unfold VersionNode_new; by rewrite lookup_replicate_2|]. rewrite fst_zip by (rewrite length_fmap; lia).
    intros ([k' info] & -> & [_ Hg']%Hentries)%list_elem_of_fmap. cbn in Hg. congruence.
Qed.
End loading_versions.

(** ** Lemmas: all morsels *)

Section loading_tree.
Context {D : Type} `{!Deserializer D}.
Implicit Types (vs : list (Z * Z)) (ms : list MorselInfo).

(** The morsels from number [j] on: those that have rows are read. *)
Lemma ReadVersions_loop_image fuel j ms vs acc :
  (∀ i m, ms !! i = Some m → refines m (slice (j + i) vs) ∧ checkpointable m (length (slice (j + i) vs))) → Forall plain_version vs →
  (length vs <= (j + length ms) * MS)%nat → (length vs <= j * MS + fuel)%nat →
  ∃ b1 b2 loaded, mjoin (ms ≫= MorselInfo_pieces) = b1 ++ b2 ∧
    decodes (λ d : D, ReadVersions_loop fuel (j * MS) (length vs) acc d) b1 (acc ++ loaded) ∧
    (length loaded <= length ms)%nat ∧ (length vs <= (j + length loaded) * MS)%nat ∧
    (loaded ≠ [] → ((j + pred (length loaded)) * MS < length vs)%nat) ∧
    ∀ i m, loaded !! i = Some m → m_start m = ((j + i) * MS)%nat ∧ refines m (slice (j + i) (checkpointed <$> vs)).
Proof.
  pose proof MS_pos as HMS. revert j ms acc. induction fuel as [|fuel IH]; intros j ms acc Hms Hset Hroom Hfuel.
  all: destruct (Nat.ltb_spec (j * MS) (length vs)) as [Hlt|Hge].
  2,4: exists [], (mjoin (ms ≫= MorselInfo_pieces)), []; split; [done|]; rewrite app_nil_r; split_and!;
    [cbn [ReadVersions_loop]; rewrite (proj2 (Nat.ltb_ge _ _)) by done; apply decodes_ret|cbn; lia|cbn; lia|done|done].
  { lia. }
  destruct ms as [|m ms]; [cbn [length] in Hroom; lia|]. destruct (Hms 0%nat m eq_refl) as [Hr Hc]. rewrite Nat.add_0_r in Hr, Hc.
  assert (Forall plain_version (slice j vs)) as Hset' by by apply Forall_take, Forall_drop.
  destruct (ReadMorselInfo_image (D := D) m (slice j vs) (j * MS) Hr Hc Hset') as (m' & Hdec & Hstart & Hr').
  destruct (IH (S j) ms (AppendSegment acc m')) as (b1 & b2 & loaded & Hb & Hdecs & Hl1 & Hl2 & Hl3 & Hl); [|done|cbn [length] in Hroom; lia|lia|].
  { intros i m1 Hi. replace (S j + i)%nat with (j + S i)%nat by lia. by apply Hms. }
  exists (mjoin (MorselInfo_pieces m) ++ b1), b2, (m' :: loaded). cbn [length pred]. split_and!; [..|lia|lia| |].
  - by rewrite bind_cons, join_app, Hb, <-app_assoc.
  - cbn [ReadVersions_loop]. rewrite (proj2 (Nat.ltb_lt _ _)) by done. eapply decodes_bind; [exact Hdec|].
    unfold AppendSegment in Hdecs. rewrite <-app_assoc in Hdecs. replace (j * MS + MS)%nat with (S j * MS)%nat by lia. exact Hdecs.
  - intros _. destruct loaded; cbn [length] in *; [lia|]. specialize (Hl3 ltac:(done)). lia.
  - intros [|i] m1; cbn [lookup list_lookup].
    + intros [= <-]. rewrite Nat.add_0_r, slice_fmap. done.
    + intros Hi. replace (j + S i)%nat with (S j + i)%nat by lia. by apply Hl.
Qed.

(** The version tree in the file, and the table that is made of it. *)
Lemma DataTable_checkpoint_image dt vs :
  table_refines dt vs → Forall plain_version vs →
  (∀ i m, dt_versions dt !! i = Some m → checkpointable m (length (slice i vs))) →
  ∃ b1 b2 versions, mjoin (dt_versions dt ≫= MorselInfo_pieces) = b1 ++ b2 ∧
    decodes (λ d : D, ReadVersions (dt_total_rows dt) d) b1 versions ∧
    table_refines (DataTable_load (dt_total_rows dt) versions) (checkpointed <$> vs).
Proof.
  intros [Htot [Htree Hm Hroom]] Hset Hc. pose proof MS_pos as HMS.
  destruct (ReadVersions_loop_image (length vs) 0 (dt_versions dt) vs []) as (b1 & b2 & loaded & Hb & Hdec & Hl1 & Hl2 & Hl3 & Hl);
    [by auto|done|cbn; lia|lia|]. exists b1, b2, loaded. split; [done|]. unfold ReadVersions. rewrite Htot. split; [exact Hdec|].
  unfold DataTable_load. destruct (Nat.eqb_spec (length vs) 0) as [H0|H0].
  { assert (loaded = []) as ->. { destruct loaded; [done|]. specialize (Hl3 ltac:(done)). lia. }
    destruct vs; [|done]. apply (DataTable_new_refines). }
  assert (loaded ≠ []) as Hne by (intros ->; cbn in Hl2; lia). specialize (Hl3 Hne).
  split; [cbn [dt_total_rows]; by rewrite length_fmap|]. cbn [dt_versions]. split.
  - pose proof (tree_length _ Htree). pose proof (tree_rows_morsels _ Htree) as Hrows.
    assert (Z.of_nat (length (dt_versions dt) * MS) < 2 ^ 64) as Hbound.
    { rewrite <-Hrows. unfold tree_rows. destruct (last (dt_versions dt)) as [m|] eqn:Hlast; cbn; [|lia].
      apply (tree_bound _ Htree). apply last_Some_elem_of in Hlast. done. }
    split; cbn [seg_start seg_end seg_count MorselSegment]; [| |done| |lia].
    + intros m Hi. by apply Hl in Hi as [-> _].
    + intros i a b Ha Hb'. apply Hl in Ha as [Ha _], Hb' as [Hb' _]. unfold seg_end. cbn [seg_start seg_count MorselSegment]. lia.
    + intros m (i & Hi)%list_elem_of_lookup. pose proof (lookup_lt_Some _ _ _ Hi). apply Hl in Hi as [Hi _]. unfold seg_end. cbn [seg_start seg_count MorselSegment]. nia.
  - intros i m Hi. by apply Hl in Hi as [_ Hi].
  - rewrite length_fmap. cbn in Hl2, Hl3. lia.
Qed.
End loading_tree.

(** ** Theorems *)

Lemma row_visible_checkpointed t v : scan_snapshot t → row_visible t (checkpointed v) = row_committed v.
Proof.
  intros [Hst Hsnap]. unfold row_visible, checkpointed. destruct (row_committed v); cbn [fst snd]; unfold UseVersion_txn.
  - rewrite UseVersion_not_deleted by done. rewrite (proj2 (UseVersion_true _ _ 0)); [done|]. by left.
  - rewrite (proj2 (UseVersion_true _ _ 0)); [done|]. by left.
Qed.

(** C35: the versions of a table survive a checkpoint and a restart.  What
    [CheckpointDeletes] writes through any serializer is read back by any
    deserializer as a table whose rows have the versions of committed or of
    deleted rows, so that a scan of any later transaction returns exactly the
    rows that were committed and not deleted -- provided that no place behind
    the last row holds the id of a transaction that did not commit. *)
Theorem table_versions_roundtrip {S D} `{!Serializer S, !Deserializer D} dt vs (s : S) (d : D) rest :
  table_refines dt vs → Forall plain_version vs →
  (∀ i m, dt_versions dt !! i = Some m → checkpointable m (length (slice i vs))) → ser_ok s → des_ok d →
  written (CheckpointDeletes s (dt_versions dt)) ++ rest = written s ++ remaining d →
  ∃ versions d', ReadVersions (dt_total_rows dt) d = Ok (versions, d') ∧
    table_refines (DataTable_load (dt_total_rows dt) versions) (checkpointed <$> vs) ∧
    ∀ t, scan_snapshot t →
      let loaded := DataTable_load (dt_total_rows dt) versions in
      scan_from loaded t (InitializeScan loaded) = Ok (List.filter (λ r, row_committed (vs !!! r)) (seq 0 (length vs))).
Proof.
  intros Hdt Hset Hc Hs Hd Hw. destruct (DataTable_checkpoint_image (D := D) dt vs Hdt Hset Hc) as (b1 & b2 & versions & Hb & Hdec & Hld).
  destruct (writes_encodes _ _ (CheckpointDeletes_writes (dt_versions dt)) s Hs) as [_ Hwr].
  rewrite Hwr, Hb, <-!app_assoc in Hw. apply app_inv_head in Hw. destruct (Hdec d (b2 ++ rest) Hd (eq_sym Hw)) as (d' & Hr & _ & _).
  exists versions, d'. split; [exact Hr|]. split; [exact Hld|]. intros t Ht. cbn zeta.
  rewrite (scan_from_spec _ _ t _ Hld Ht (InitializeScan_ok _ _ Hld)). cbn [InitializeScan ts_current_row ts_max_row DataTable_load dt_total_rows].
  rewrite (tr_total _ _ Hdt), Nat.sub_0_r. unfold visible_rows. f_equal. apply filter_ext_elem. intros r [_ Hr']%elem_of_seq.
  rewrite list_lookup_total_alt, list_lookup_fmap. destruct (lookup_lt_is_Some_2 vs r) as [v Hv]; [lia|].
  rewrite Hv. cbn. rewrite row_visible_checkpointed by done. by rewrite (list_lookup_total_correct _ _ _ Hv).
Qed.

(** an append that was reverted deletes later rows.  The rows [n] to [m] of
    a vector were appended by a transaction [tid] that failed; their ids stay in
    the vector.  A checkpoint then writes their places as deleted, and after a
    restart the rows that are appended there are visible to no transaction, not
    even to the one that inserts them. *)
Theorem reverted_append_deletes_rows {D} `{!Deserializer D} v (n m : nat) tid j (end_ : nat) new_id u i :
  ChunkVectorInfo_ok v n → n ≠ 0%nat → (m <= STANDARD_VECTOR_SIZE)%nat → insert_id v ≠ tid → TRANSACTION_ID_START <= tid → tid ≠ INVALID_INDEX →
  (j < n)%nat → inserted v !!! j < TRANSACTION_ID_START - 1 → deleted v !!! j = NOT_DELETED_ID → Z.of_nat (cv_start v) < 2 ^ 64 →
  (n <= i < m)%nat → 0 < start_time u →
  ∃ w, decodes (λ d : D, ChunkInfo_Deserialize d) (mjoin (ChunkInfo_pieces (VectorInfo (ChunkVectorInfo_Append v n m tid)))) (Some (VectorInfo w)) ∧
    ChunkVectorInfo_Fetch (ChunkVectorInfo_Append w n end_ new_id) u i = false.
Proof.
  intros Hv Hn0 Hm Hiid Htid Htid' Hj Hins Hdel Hst Hi Hu. set (v1 := ChunkVectorInfo_Append v n m tid).
  assert (ChunkVectorInfo_ok v1 m) as Hv1 by (apply Append_ok with n; lia || done).
  assert (∀ k, (k < STANDARD_VECTOR_SIZE)%nat → eff_inserted v1 k = inserted v1 !!! k ∧ deleted v1 !!! k = deleted v !!! k ∧
    inserted v1 !!! k = if decide (n <= k < m)%nat then tid else inserted v !!! k) as Hk.
  { intros k Hlt. unfold v1, ChunkVectorInfo_Append. rewrite (proj2 (Nat.eqb_neq _ _)), (proj2 (Z.eqb_neq _ _)) by done. cbn [negb].
    unfold eff_inserted. cbn [same_inserted_id inserted deleted]. split_and!; [done..|]. apply lookup_total_fill_range. by rewrite (cv_inserted_len _ _ Hv). }
  assert (cv_start v1 = cv_start v) as Hst1. { unfold v1, ChunkVectorInfo_Append. repeat case_match; done. }
  cbn [ChunkInfo_pieces]. destruct (checkpoint_selection v1 m Hv1) as (count & sel & -> & Hcnt & Hlen & Hcomm). pose proof (cv_count _ _ Hv) as Hn.
  assert (eff_visible (TRANSACTION_ID_START - 1) INVALID_INDEX v1 i = false) as Hgone.
  { unfold eff_visible. destruct (Hk i ltac:(lia)) as (-> & _ & ->). rewrite decide_True by lia.
    rewrite (proj2 (UseVersion_false _ _ tid)) by (split; [lia|done]). done. }
  assert (eff_visible (TRANSACTION_ID_START - 1) INVALID_INDEX v1 j = true) as Hseen.
  { unfold eff_visible. destruct (Hk j ltac:(lia)) as (-> & -> & ->). rewrite decide_False, Hdel by lia.
    rewrite (proj2 (UseVersion_true _ _ _)) by by left. by rewrite UseVersion_not_deleted by apply checkpoint_snapshot_ok. }
  revert Hcomm. destruct (Nat.eqb_spec count STANDARD_VECTOR_SIZE) as [->|Hne]; intros Hcomm.
  { assert (false = true); [|done]. rewrite <-Hgone. apply Hcomm; [lia|]. apply elem_of_seq. lia. }
  destruct (Nat.eqb_spec count 0) as [->|Hne0].
  { apply Hcomm in Hseen; [|lia]. by apply not_elem_of_nil in Hseen. }
  pose proof (length_deleted_tuples count sel ltac:(lia)) as Hdl. eexists. split.
  - cbn [mjoin list_join]. rewrite app_nil_r. apply decodes_vector; [by rewrite Hst1|done].
  - assert (deleted (loaded_vector (cv_start v1) (deleted_tuples count sel)) !!! i = 0) as Hd0.
    { cbn [deleted loaded_vector]. rewrite loaded_deleted_tuples by (done || lia).
      rewrite bool_decide_false; [done|]. intros Hin%Hcomm; [congruence|lia]. }
    unfold ChunkVectorInfo_Fetch, ChunkVectorInfo_Append. destruct (if (n =? 0)%nat then _ else _). cbn [deleted]. rewrite Hd0.
    unfold UseVersion_txn. rewrite (proj2 (UseVersion_true _ _ 0)) by by left. apply andb_false_r.
Qed.

(** ** Witnesses *)

(** The side conditions, by computation. *)
Definition clean_tailb (info : option ChunkInfo) (n : nat) : bool :=
  match info with
  | Some (VectorInfo v) => forallb (λ i, eff_inserted v i <? TRANSACTION_ID_START - 1) (seq n (STANDARD_VECTOR_SIZE - n))
  | _ => true
  end.

Definition checkpointableb (m : MorselInfo) (n : nat) : bool :=
  forallb (λ k, clean_tailb (MorselInfo_GetChunkInfo m k) (rows_of n k) &&
      match MorselInfo_GetChunkInfo m k with Some info => Z.of_nat (ChunkInfo_start info) <? 2 ^ 64 | None => true end)
    (seq 0 MORSEL_VECTOR_COUNT).

Lemma checkpointableb_spec m n : MorselInfo_ok m n → checkpointableb m n = true → checkpointable m n.
Proof.
  intros Hok Hb. unfold checkpointableb in Hb. rewrite forallb_forall in Hb.
  assert (∀ k, (k < MORSEL_VECTOR_COUNT)%nat → clean_tailb (MorselInfo_GetChunkInfo m k) (rows_of n k) = true ∧
    match MorselInfo_GetChunkInfo m k with Some info => Z.of_nat (ChunkInfo_start info) < 2 ^ 64 | None => True end) as Hk.
  { intros k Hk. destruct (andb_prop _ _ (Hb k (proj2 (in_seq _ _ _) (conj (Nat.le_0_l _) Hk)))) as [H1 H2]. split; [done|].
    destruct (MorselInfo_GetChunkInfo m k); [by apply Z.ltb_lt|done]. }
  split.
  - intros k Hlt. destruct (Hk k Hlt) as [Ht _]. destruct (MorselInfo_GetChunkInfo m k) as [[c|v]|]; cbn [clean_tail clean_tailb] in *; [done| |done].
    intros i Hi. rewrite forallb_forall in Ht. apply Z.ltb_lt, Ht, in_seq. lia.
  - intros k info Hg. pose proof (GetChunkInfo_lt _ _ _ (m_len _ _ Hok) Hg) as Hlt.
    destruct (Hk k Hlt) as [_ Hs]. by rewrite Hg in Hs.
Qed.

Lemma ex_table_checkpointable i m :
  dt_versions ex_table !! i = Some m → checkpointable m (length (slice i (append_versions (Z.to_nat 2000) 7 []))).
Proof.
  intros Hi. pose proof (vr_morsels _ _ (tr_versions _ _ ex_table_refines) _ _ Hi) as Hr. apply checkpointableb_spec; [apply Hr|].
  destruct i as [|i]; [|apply lookup_lt_Some in Hi; by vm_compute in Hi; lia].
  assert (m = default (MorselInfo_new 0) (dt_versions ex_table !! 0%nat)) as -> by by rewrite Hi. vm_compute. reflexivity.
Qed.

Definition ex_versions_bytes : list Z := written (CheckpointDeletes (BufferedSerializer_new 16) (dt_versions ex_table)).

Lemma table_versions_roundtrip_witness :
  ∃ versions d', ReadVersions (Z.to_nat 2000) (BufferedDeserializer_new ex_versions_bytes) = Ok (versions, d') ∧
    scan_from (DataTable_load (Z.to_nat 2000) versions) ex_reader (InitializeScan (DataTable_load (Z.to_nat 2000) versions)) =
      Ok (seq 0 (Z.to_nat 2000)).
Proof.
  destruct (table_versions_roundtrip ex_table (append_versions (Z.to_nat 2000) 7 []) (BufferedSerializer_new 16)
    (BufferedDeserializer_new ex_versions_bytes) []) as (versions & d' & Hr & _ & Hscan).
  - apply ex_table_refines.
  - apply Forall_replicate. split; split; vm_compute; discriminate.
  - apply ex_table_checkpointable.
  - split_and!; cbn; lia || done.
  - split; cbn [bd_ptr bd_endptr bd_data BufferedDeserializer_new]; lia.
  - apply app_nil_r.
  - exists versions, d'. split; [exact Hr|]. specialize (Hscan ex_reader). cbn zeta in Hscan. etransitivity; [apply Hscan|].
    + split; [by vm_compute|]. split; by vm_compute.
    + vm_compute. reflexivity.
Defined.

(** Three rows, and two that a failed append left behind; after the restart two
    other rows take their places. *)
Definition ex_three_rows : ChunkVectorInfo := ChunkVectorInfo_Append (ChunkVectorInfo_new 0) 0 3 7.

Lemma reverted_append_deletes_rows_witness :
  ∃ w, decodes (λ d : BufferedDeserializer, ChunkInfo_Deserialize d)
      (mjoin (ChunkInfo_pieces (VectorInfo (ChunkVectorInfo_Append ex_three_rows 3 5 (TRANSACTION_ID_START + 1))))) (Some (VectorInfo w)) ∧
    ChunkVectorInfo_Fetch (ChunkVectorInfo_Append w 3 5 (TRANSACTION_ID_START + 9)) (Transaction_new 20 (TRANSACTION_ID_START + 9) 0) 4 = false.
Proof.
  apply (reverted_append_deletes_rows ex_three_rows 3 5 (TRANSACTION_ID_START + 1) 0 5 (TRANSACTION_ID_START + 9)
    (Transaction_new 20 (TRANSACTION_ID_START + 9) 0) 4).
  - apply Append_ok with 0%nat; [apply ChunkVectorInfo_new_ok; lia|lia|].
    split; [lia|]. apply Nat.leb_le. vm_compute. reflexivity.
  - discriminate.
  - apply Nat.leb_le. vm_compute. reflexivity.
  - discriminate.
  - vm_compute. discriminate.
  - vm_compute. discriminate.
  - lia.
  - vm_compute. reflexivity.
  - vm_compute. reflexivity.
  - vm_compute. reflexivity.
  - lia.
  - vm_compute. reflexivity.
Defined.

(** The same with a whole table: the rows of the last append are lost. *)
Definition lost_rows : res (list nat * list nat) :=
  let committing (dt : DataTable) (t : Transaction) (commit_id : Z) (count : nat) : res DataTable :=
    '(dt, row) ← InitializeAppend dt t count; CommitAppend dt commit_id row count in
  dt ← committing DataTable_new (Transaction_new 1 (TRANSACTION_ID_START + 1) 0) 2 3%nat;
  '(dt, row) ← InitializeAppend dt (Transaction_new 3 (TRANSACTION_ID_START + 2) 0) 2%nat;
  dt ← RevertAppend dt row 2%nat;
  let bytes := written (CheckpointDeletes (BufferedSerializer_new 16) (dt_versions dt)) in
  '(versions, _) ← ReadVersions (dt_total_rows dt) (BufferedDeserializer_new bytes);
  let reader := Transaction_new 9 (TRANSACTION_ID_START + 9) 0 in
  let dt' := DataTable_load (dt_total_rows dt) versions in
  dt' ← committing dt' (Transaction_new 2 (TRANSACTION_ID_START + 1) 0) 3 2%nat;
  dt ← committing dt (Transaction_new 4 (TRANSACTION_ID_START + 3) 0) 5 2%nat;
  without_restart ← scan_from dt reader (InitializeScan dt);
  with_restart ← scan_from dt' reader (InitializeScan dt');
  Ok (without_restart, with_restart).

Lemma lost_rows_example : lost_rows = Ok ([0; 1; 2; 3; 4], [0; 1; 2])%nat.
Proof. vm_compute. reflexivity. Qed.
