(* ===== verification/WriteAheadLog.v ===== *)
(** * The write-ahead log and its replay

    Models src/src/storage/write_ahead_log.cpp, src/src/storage/wal_replay.cpp and
    the entry types of src/src/include/guinsoodb/common/enums/wal_type.hpp.  The
    log is written and read through the file buffers of Serializer.v and the
    codecs of CatalogCodec.v; data chunks are a parameter with a codec.  What
    replay calls -- the catalog, the tables, the transactions of its connection
    -- is the class [ReplayTarget].

    Theorems: after a restart, replay executes exactly the transactions that
    were logged and flushed, in order, each in a transaction of its own, unless
    the log belongs to the checkpoint in the file; a log that ends inside a
    transaction is not replayed at all, the flushed transactions before it
    included. *)

From S2P Require Import Prelude Serializer CatalogCodec.

(** ** [WALType] *)

Definition CREATE_TABLE : Z := 1.
Definition DROP_TABLE : Z := 2.
Definition CREATE_SCHEMA : Z := 3.
Definition DROP_SCHEMA : Z := 4.
Definition CREATE_VIEW : Z := 5.
Definition DROP_VIEW : Z := 6.
Definition CREATE_SEQUENCE : Z := 8.
Definition DROP_SEQUENCE : Z := 9.
Definition SEQUENCE_VALUE : Z := 10.
Definition CREATE_MACRO : Z := 11.
Definition DROP_MACRO : Z := 12.
Definition ALTER_INFO : Z := 20.
Definition USE_TABLE : Z := 25.
Definition INSERT_TUPLE : Z := 26.
Definition DELETE_TUPLE : Z := 27.
Definition UPDATE_TUPLE : Z := 28.
Definition CHECKPOINT : Z := 99.
Definition WAL_FLUSH : Z := 100.

(** The [type] of a [DropInfo]. *)
Inductive DropType : Set := TABLE_ENTRY | SCHEMA_ENTRY | VIEW_ENTRY | SEQUENCE_ENTRY | MACRO_ENTRY.

(** ** Writing *)

Record WriteAheadLog : Set := mkWriteAheadLog {
  initialized : bool;
  skip_writing : bool;
  writer : BufferedFileWriter;
}.
Implicit Types (wal : WriteAheadLog).

Definition set_writer (w : BufferedFileWriter) wal : WriteAheadLog := mkWriteAheadLog (initialized wal) (skip_writing wal) w.

(** [Initialize]: the file is opened for append. *)
Definition WriteAheadLog_Initialize (file : list Z) : WriteAheadLog := mkWriteAheadLog true false (BufferedFileWriter_new file).

(** [GetFileSize] *)
Definition GetWALSize wal : nat := length (fw_file (writer wal)).

Definition GetTotalWritten wal : nat := BufferedFileWriter_GetTotalWritten (writer wal).

Definition WriteAheadLog_Truncate (size : nat) wal : WriteAheadLog := set_writer (BufferedFileWriter_Truncate (writer wal) size) wal.

Definition BufferedFileWriter_Sync (w : BufferedFileWriter) : BufferedFileWriter := BufferedFileWriter_Flush w.

(** All functions but [WriteCheckpoint] start with this test. *)
Definition unless_skip_writing (f : BufferedFileWriter → BufferedFileWriter) wal : WriteAheadLog :=
  if skip_writing wal then wal else set_writer (f (writer wal)) wal.

Definition WriteCheckpoint (meta_block : Z) wal : WriteAheadLog :=
  set_writer (Write 8 (Write 1 (writer wal) CHECKPOINT) meta_block) wal.

Section entries.
Context {ParsedExpression SelectStatement DataChunk : Type}.
Context `{!Codec ParsedExpression, !Codec SelectStatement, !Codec DataChunk}.

Definition WriteCreateTable (entry : TableCatalogEntry ParsedExpression) wal : WriteAheadLog :=
  unless_skip_writing (λ w, Serialize (Write 1 w CREATE_TABLE) entry) wal.

(** The entries that name an object. *)
Definition WriteName2 (type : Z) (schema name : list Z) (w : BufferedFileWriter) : BufferedFileWriter :=
  WriteString (WriteString (Write 1 w type) schema) name.

Definition WriteDropTable (schema name : list Z) wal : WriteAheadLog := unless_skip_writing (WriteName2 DROP_TABLE schema name) wal.

Definition WriteCreateSchema (name : list Z) wal : WriteAheadLog :=
  unless_skip_writing (λ w, WriteString (Write 1 w CREATE_SCHEMA) name) wal.

Definition WriteCreateSequence (entry : SequenceCatalogEntry) wal : WriteAheadLog :=
  unless_skip_writing (λ w, Serialize (Write 1 w CREATE_SEQUENCE) entry) wal.

Definition WriteDropSequence (schema name : list Z) wal : WriteAheadLog := unless_skip_writing (WriteName2 DROP_SEQUENCE schema name) wal.

Definition WriteSequenceValue (schema name : list Z) (usage_count counter : Z) wal : WriteAheadLog :=
  unless_skip_writing (λ w, Write 8 (Write 8 (WriteName2 SEQUENCE_VALUE schema name w) usage_count) counter) wal.

Definition WriteCreateMacro (entry : MacroCatalogEntry ParsedExpression) wal : WriteAheadLog :=
  unless_skip_writing (λ w, Serialize (Write 1 w CREATE_MACRO) entry) wal.

Definition WriteDropMacro (schema name : list Z) wal : WriteAheadLog := unless_skip_writing (WriteName2 DROP_MACRO schema name) wal.

Definition WriteCreateView (entry : ViewCatalogEntry SelectStatement) wal : WriteAheadLog :=
  unless_skip_writing (λ w, Serialize (Write 1 w CREATE_VIEW) entry) wal.

Definition WriteDropView (schema name : list Z) wal : WriteAheadLog := unless_skip_writing (WriteName2 DROP_VIEW schema name) wal.

Definition WriteDropSchema (name : list Z) wal : WriteAheadLog :=
  unless_skip_writing (λ w, WriteString (Write 1 w DROP_SCHEMA) name) wal.

Definition WriteSetTable (schema table : list Z) wal : WriteAheadLog := unless_skip_writing (WriteName2 USE_TABLE schema table) wal.

Definition WriteInsert (chunk : DataChunk) wal : WriteAheadLog :=
  unless_skip_writing (λ w, Serialize (Write 1 w INSERT_TUPLE) chunk) wal.

Definition WriteDelete (chunk : DataChunk) wal : WriteAheadLog :=
  unless_skip_writing (λ w, Serialize (Write 1 w DELETE_TUPLE) chunk) wal.

Definition WriteUpdate (chunk : DataChunk) (col_idx : Z) wal : WriteAheadLog :=
  unless_skip_writing (λ w, Serialize (Write 8 (Write 1 w UPDATE_TUPLE) col_idx) chunk) wal.

Definition WriteAlter (info : AlterInfo ParsedExpression) wal : WriteAheadLog :=
  unless_skip_writing (λ w, Serialize (Write 1 w ALTER_INFO) info) wal.

Definition WriteAheadLog_Flush wal : WriteAheadLog :=
  unless_skip_writing (λ w, BufferedFileWriter_Sync (Write 1 w WAL_FLUSH)) wal.

(** ** The entries of a log *)

Inductive WALEntry : Type :=
| CreateTableEntry (entry : TableCatalogEntry ParsedExpression)
| DropTableEntry (schema name : list Z)
| CreateSchemaEntry (name : list Z)
| DropSchemaEntry (name : list Z)
| CreateViewEntry (entry : ViewCatalogEntry SelectStatement)
| DropViewEntry (schema name : list Z)
| CreateSequenceEntry (entry : SequenceCatalogEntry)
| DropSequenceEntry (schema name : list Z)
| SequenceValueEntry (schema name : list Z) (usage_count counter : Z)
| CreateMacroEntry (entry : MacroCatalogEntry ParsedExpression)
| DropMacroEntry (schema name : list Z)
| AlterEntry (info : AlterInfo ParsedExpression)
| UseTableEntry (schema table : list Z)
| InsertEntry (chunk : DataChunk)
| DeleteEntry (chunk : DataChunk)
| UpdateEntry (column : Z) (chunk : DataChunk)
| CheckpointEntry (meta_block : Z).

(** The function that writes it. *)
Definition WriteEntry (e : WALEntry) : WriteAheadLog → WriteAheadLog :=
  match e with
  | CreateTableEntry entry => WriteCreateTable entry
  | DropTableEntry schema name => WriteDropTable schema name
  | CreateSchemaEntry name => WriteCreateSchema name
  | DropSchemaEntry name => WriteDropSchema name
  | CreateViewEntry entry => WriteCreateView entry
  | DropViewEntry schema name => WriteDropView schema name
  | CreateSequenceEntry entry => WriteCreateSequence entry
  | DropSequenceEntry schema name => WriteDropSequence schema name
  | SequenceValueEntry schema name usage_count counter => WriteSequenceValue schema name usage_count counter
  | CreateMacroEntry entry => WriteCreateMacro entry
  | DropMacroEntry schema name => WriteDropMacro schema name
  | AlterEntry info => WriteAlter info
  | UseTableEntry schema table => WriteSetTable schema table
  | InsertEntry chunk => WriteInsert chunk
  | DeleteEntry chunk => WriteDelete chunk
  | UpdateEntry column chunk => WriteUpdate chunk column
  | CheckpointEntry meta_block => WriteCheckpoint meta_block
  end.
End entries.
Arguments WALEntry : clear implicits.

(** ** Replay

    What replay uses of the rest of the system, on the state [DB] as seen by
    the transaction of its connection.  Every call can throw. *)

Class ReplayTarget (DB Table ParsedExpression SelectStatement DataChunk : Type) : Type := {
  BeginTransaction : DB → DB;
  Commit : DB → out DB ();
  Rollback : DB → res DB;
  (** the destructor of the connection *)
  Destroy : DB → DB;
  CreateTable : TableCatalogEntry ParsedExpression → DB → out DB ();
  DropEntry : DropType → list Z → list Z → DB → out DB ();
  Alter : AlterInfo ParsedExpression → DB → out DB ();
  CreateView : ViewCatalogEntry SelectStatement → DB → out DB ();
  CreateSchema : list Z → DB → out DB ();
  CreateSequence : SequenceCatalogEntry → DB → out DB ();
  CreateFunction : MacroCatalogEntry ParsedExpression → DB → out DB ();
  (** [usage_count] of a sequence, and the assignment of both counters *)
  GetSequence : list Z → list Z → DB → out DB Z;
  SetSequence : list Z → list Z → Z → Z → DB → out DB ();
  GetTable : list Z → list Z → DB → out DB Table;
  ColumnCount : Table → DB → out DB Z;
  Append : Table → DataChunk → DB → out DB ();
  DeleteRow : Table → Z → DB → out DB ();
  (** [Update], which takes the row ids from the last vector of the chunk *)
  Update : Table → Z → DataChunk → DB → out DB ();
  (** the row ids in the only vector of the chunk of a deletion *)
  chunk_row_ids : DataChunk → list Z;
}.

#[global] Instance out_bind_inst {St} : MBind (out St) := λ A B f m,
  match m with Ret s a => f a | Raise s e => Raise s e end.

Section replay.
Context {ParsedExpression SelectStatement DataChunk : Type}.
Context `{!Codec ParsedExpression, !Codec SelectStatement, !Codec DataChunk}.
Context {DB Table : Type} `{!ReplayTarget DB Table ParsedExpression SelectStatement DataChunk}.

Notation Entry := (WALEntry ParsedExpression SelectStatement DataChunk).

Record ReplayState (D : Type) : Type := mkReplayState {
  db : DB;
  source : D;
  current_table : option Table;
  deserialize_only : bool;
  checkpoint_id : Z;
}.
Arguments mkReplayState {D}.
Arguments db {D}.
Arguments source {D}.
Arguments current_table {D}.
Arguments deserialize_only {D}.
Arguments checkpoint_id {D}.

Section entries_of_source.
Context {D : Type} `{!Deserializer D}.

(** The methods of [ReplayState]. *)
Definition Replay_ (A : Type) : Type := ReplayState D → out (ReplayState D) A.

#[local] Instance replay_ret : MRet Replay_ := λ A a st, Ret st a.
#[local] Instance replay_bind : MBind Replay_ := λ A B f m st,
  match m st with Ret st a => f a st | Raise st e => Raise st e end.

Definition from_source {A} (f : D → res (A * D)) : Replay_ A := λ st,
  match f (source st) with
  | Ok (a, source) => Ret (mkReplayState (db st) source (current_table st) (deserialize_only st) (checkpoint_id st)) a
  | Throw e => Raise st e
  end.

Definition on_db {A} (f : DB → out DB A) : Replay_ A := λ st,
  match f (db st) with
  | Ret db a => Ret (mkReplayState db (source st) (current_table st) (deserialize_only st) (checkpoint_id st)) a
  | Raise db e => Raise (mkReplayState db (source st) (current_table st) (deserialize_only st) (checkpoint_id st)) e
  end.

(** [if (deserialize_only) return;] *)
Definition unless_deserialize_only (m : Replay_ ()) : Replay_ () := λ st, if deserialize_only st then Ret st () else m st.

Definition throw {A} (e : exception) : Replay_ A := λ st, Raise st e.

Definition ReplayCreateTable : Replay_ () :=
  info ← from_source Deserialize;
  unless_deserialize_only (on_db (CreateTable info)).

Definition ReplayDrop (type : DropType) : Replay_ () :=
  schema ← from_source ReadString;
  name ← from_source ReadString;
  unless_deserialize_only (on_db (DropEntry type schema name)).

Definition ReplayAlter : Replay_ () :=
  info ← from_source Deserialize;
  unless_deserialize_only (on_db (Alter info)).

Definition ReplayCreateView : Replay_ () :=
  entry ← from_source Deserialize;
  unless_deserialize_only (on_db (CreateView entry)).

Definition ReplayCreateSchema : Replay_ () :=
  schema ← from_source ReadString;
  unless_deserialize_only (on_db (CreateSchema schema)).

(** The [schema] of the [DropInfo] is empty. *)
Definition ReplayDropSchema : Replay_ () :=
  name ← from_source ReadString;
  unless_deserialize_only (on_db (DropEntry SCHEMA_ENTRY [] name)).

Definition ReplayCreateSequence : Replay_ () :=
  entry ← from_source Deserialize;
  unless_deserialize_only (on_db (CreateSequence entry)).

Definition ReplaySequenceValue : Replay_ () :=
  schema ← from_source ReadString;
  name ← from_source ReadString;
  usage_count ← from_source (Read 8);
  counter ← from_source ReadInt64;
  unless_deserialize_only
    (seq_usage_count ← on_db (GetSequence schema name);
     if seq_usage_count <? usage_count then on_db (SetSequence schema name usage_count counter) else mret ()).

Definition ReplayCreateMacro : Replay_ () :=
  entry ← from_source Deserialize;
  unless_deserialize_only (on_db (CreateFunction entry)).

Definition set_current_table (t : Table) : Replay_ () := λ st,
  Ret (mkReplayState (db st) (source st) (Some t) (deserialize_only st) (checkpoint_id st)) ().

Definition ReplayUseTable : Replay_ () :=
  schema_name ← from_source ReadString;
  table_name ← from_source ReadString;
  unless_deserialize_only (t ← on_db (GetTable schema_name table_name); set_current_table t).

(** [if (!current_table) throw Exception(msg);] *)
Definition with_current_table (msg : string) (f : Table → Replay_ ()) : Replay_ () := λ st,
  match current_table st with None => Raise st (Exception msg) | Some t => f t st end.

Definition ReplayInsert : Replay_ () :=
  chunk ← from_source Deserialize;
  unless_deserialize_only
    (with_current_table "Corrupt WAL: insert without table" (λ t, on_db (Append t chunk))).

(** [for (i = 0; i < chunk.size(); i++)] *)
Fixpoint delete_rows (t : Table) (ids : list Z) : Replay_ () :=
  match ids with
  | [] => mret ()
  | id :: ids => _ ← on_db (DeleteRow t id); delete_rows t ids
  end.

Definition ReplayDelete : Replay_ () :=
  chunk ← from_source Deserialize;
  unless_deserialize_only
    (with_current_table "Corrupt WAL: delete without table" (λ t, delete_rows t (chunk_row_ids chunk))).

Definition ReplayUpdate : Replay_ () :=
  column_index ← from_source (Read 8);
  chunk ← from_source Deserialize;
  unless_deserialize_only
    (with_current_table "Corrupt WAL: update without table" (λ t,
      columns ← on_db (ColumnCount t);
      if columns <=? column_index then throw (Exception "Corrupt WAL: column index for update out of bounds")
      else on_db (Update t column_index chunk))).

Definition set_checkpoint_id (id : Z) : Replay_ () := λ st,
  Ret (mkReplayState (db st) (source st) (current_table st) (deserialize_only st) id) ().

Definition ReplayCheckpoint : Replay_ () :=
  id ← from_source ReadInt64;
  set_checkpoint_id id.

Definition ReplayEntry (entry_type : Z) : Replay_ () :=
  if entry_type =? CREATE_TABLE then ReplayCreateTable
  else if entry_type =? DROP_TABLE then ReplayDrop TABLE_ENTRY
  else if entry_type =? ALTER_INFO then ReplayAlter
  else if entry_type =? CREATE_VIEW then ReplayCreateView
  else if entry_type =? DROP_VIEW then ReplayDrop VIEW_ENTRY
  else if entry_type =? CREATE_SCHEMA then ReplayCreateSchema
  else if entry_type =? DROP_SCHEMA then ReplayDropSchema
  else if entry_type =? CREATE_SEQUENCE then ReplayCreateSequence
  else if entry_type =? DROP_SEQUENCE then ReplayDrop SEQUENCE_ENTRY
  else if entry_type =? SEQUENCE_VALUE then ReplaySequenceValue
  else if entry_type =? CREATE_MACRO then ReplayCreateMacro
  else if entry_type =? DROP_MACRO then ReplayDrop MACRO_ENTRY
  else if entry_type =? USE_TABLE then ReplayUseTable
  else if entry_type =? INSERT_TUPLE then ReplayInsert
  else if entry_type =? DELETE_TUPLE then ReplayDelete
  else if entry_type =? UPDATE_TUPLE then ReplayUpdate
  else if entry_type =? CHECKPOINT then ReplayCheckpoint
  else throw (Exception "Invalid WAL entry type!").
End entries_of_source.

Notation State := (ReplayState BufferedFileReader).

#[local] Existing Instances replay_ret replay_bind.

(** The first pass.  Every round reads at least one byte: [fuel] bounds the rounds. *)
Fixpoint initial_read (fuel : nat) (st : State) : out State () :=
  match fuel with
  | O => Raise st (UndefinedBehaviour "the log does not end")
  | S fuel =>
      match from_source (Read 1) st with
      | Raise st e => Raise st e
      | Ret st entry_type =>
          if entry_type =? WAL_FLUSH then
            if BufferedFileReader_Finished (source st) then Ret st () else initial_read fuel st
          else
            match ReplayEntry entry_type st with
            | Raise st e => Raise st e
            | Ret st _ => initial_read fuel st
            end
      end
  end.

(** The second pass. *)
Fixpoint replay_log (fuel : nat) (st : State) : out State () :=
  match fuel with
  | O => Raise st (UndefinedBehaviour "the log does not end")
  | S fuel =>
      match from_source (Read 1) st with
      | Raise st e => Raise st e
      | Ret st entry_type =>
          if entry_type =? WAL_FLUSH then
            match on_db Commit st with
            | Raise st e => Raise st e
            | Ret st _ =>
                if BufferedFileReader_Finished (source st) then Ret st ()
                else match on_db (λ db, Ret (BeginTransaction db) ()) st with
                     | Raise st e => Raise st e
                     | Ret st _ => replay_log fuel st
                     end
            end
          else
            match ReplayEntry entry_type st with
            | Raise st e => Raise st e
            | Ret st _ => replay_log fuel st
            end
      end
  end.

Definition initial_state (d : DB) (file : list Z) (only : bool) : State :=
  mkReplayState d (BufferedFileReader_new file) None only (-1).

(** [WriteAheadLog::Replay]: whether the log can be truncated, and the database afterwards. *)
Definition WriteAheadLog_Replay (IsRootBlock : Z → bool) (file : list Z) (d : DB) : res (bool * DB) :=
  if BufferedFileReader_Finished (BufferedFileReader_new file) then Ok (false, d)
  else
    let d := BeginTransaction d in
    match initial_read (S (length file)) (initial_state d file true) with
    | Raise st _ => Ok (false, Destroy (db st))
    | Ret st _ =>
        if negb (checkpoint_id st =? -1) && IsRootBlock (checkpoint_id st) then Ok (true, Destroy (db st))
        else
          match replay_log (S (length file)) (initial_state d file false) with
          | Ret st _ => Ok (false, Destroy (db st))
          | Raise st _ => d ← Rollback (db st); Ok (false, Destroy d)
          end
    end.
(** ** Specification: the transactions of a log, executed one after the other *)

Definition spec_on_db {A} (f : DB → out DB A) (s : DB * option Table) : out (DB * option Table) A :=
  match f s.1 with Ret d a => Ret (d, s.2) a | Raise d e => Raise (d, s.2) e end.

Fixpoint execute_deletes (t : Table) (ids : list Z) (s : DB * option Table) : out (DB * option Table) () :=
  match ids with
  | [] => Ret s ()
  | id :: ids =>
      match spec_on_db (DeleteRow t id) s with
      | Ret s _ => execute_deletes t ids s
      | Raise s e => Raise s e
      end
  end.

(** What an entry does to the database and to the current table. *)
Definition execute (e : Entry) (s : DB * option Table) : out (DB * option Table) () :=
  match e with
  | CreateTableEntry info => spec_on_db (CreateTable info) s
  | DropTableEntry schema name => spec_on_db (DropEntry TABLE_ENTRY schema name) s
  | CreateSchemaEntry name => spec_on_db (CreateSchema name) s
  | DropSchemaEntry name => spec_on_db (DropEntry SCHEMA_ENTRY [] name) s
  | CreateViewEntry entry => spec_on_db (CreateView entry) s
  | DropViewEntry schema name => spec_on_db (DropEntry VIEW_ENTRY schema name) s
  | CreateSequenceEntry entry => spec_on_db (CreateSequence entry) s
  | DropSequenceEntry schema name => spec_on_db (DropEntry SEQUENCE_ENTRY schema name) s
  | SequenceValueEntry schema name usage_count counter =>
      match spec_on_db (GetSequence schema name) s with
      | Ret s old => if old <? usage_count then spec_on_db (SetSequence schema name usage_count counter) s else Ret s ()
      | Raise s e => Raise s e
      end
  | CreateMacroEntry entry => spec_on_db (CreateFunction entry) s
  | DropMacroEntry schema name => spec_on_db (DropEntry MACRO_ENTRY schema name) s
  | AlterEntry info => spec_on_db (Alter info) s
  | UseTableEntry schema table =>
      match spec_on_db (GetTable schema table) s with Ret (d, _) t => Ret (d, Some t) () | Raise s e => Raise s e end
  | InsertEntry chunk =>
      match s.2 with
      | None => Raise s (Exception "Corrupt WAL: insert without table")
      | Some t => spec_on_db (Append t chunk) s
      end
  | DeleteEntry chunk =>
      match s.2 with
      | None => Raise s (Exception "Corrupt WAL: delete without table")
      | Some t => execute_deletes t (chunk_row_ids chunk) s
      end
  | UpdateEntry column chunk =>
      match s.2 with
      | None => Raise s (Exception "Corrupt WAL: update without table")
      | Some t =>
          match spec_on_db (ColumnCount t) s with
          | Ret s columns =>
              if columns <=? column then Raise s (Exception "Corrupt WAL: column index for update out of bounds")
              else spec_on_db (Update t column chunk) s
          | Raise s e => Raise s e
          end
      end
  | CheckpointEntry _ => Ret s ()
  end.

Fixpoint execute_all (entries : list Entry) (s : DB * option Table) : out (DB * option Table) () :=
  match entries with
  | [] => Ret s ()
  | e :: entries => match execute e s with Ret s _ => execute_all entries s | Raise s e => Raise s e end
  end.

(** The transaction of the first one has begun. *)
Fixpoint execute_log (transactions : list (list Entry)) (s : DB * option Table) : out (DB * option Table) () :=
  match transactions with
  | [] => Ret s ()
  | entries :: transactions =>
      match execute_all entries s with
      | Raise s e => Raise s e
      | Ret s _ =>
          match spec_on_db Commit s with
          | Raise s e => Raise s e
          | Ret s _ =>
              match transactions with
              | [] => Ret s ()
              | _ :: _ => execute_log transactions (BeginTransaction s.1, s.2)
              end
          end
      end
  end.

(** ** The bytes of a log *)

Definition entry_type (e : Entry) : Z :=
  match e with
  | CreateTableEntry _ => CREATE_TABLE | DropTableEntry _ _ => DROP_TABLE
  | CreateSchemaEntry _ => CREATE_SCHEMA | DropSchemaEntry _ => DROP_SCHEMA
  | CreateViewEntry _ => CREATE_VIEW | DropViewEntry _ _ => DROP_VIEW
  | CreateSequenceEntry _ => CREATE_SEQUENCE | DropSequenceEntry _ _ => DROP_SEQUENCE
  | SequenceValueEntry _ _ _ _ => SEQUENCE_VALUE
  | CreateMacroEntry _ => CREATE_MACRO | DropMacroEntry _ _ => DROP_MACRO
  | AlterEntry _ => ALTER_INFO | UseTableEntry _ _ => USE_TABLE
  | InsertEntry _ => INSERT_TUPLE | DeleteEntry _ => DELETE_TUPLE | UpdateEntry _ _ => UPDATE_TUPLE
  | CheckpointEntry _ => CHECKPOINT
  end.

Definition body_pieces (e : Entry) : list (list Z) :=
  match e with
  | CreateTableEntry entry => pieces entry
  | CreateViewEntry entry => pieces entry
  | CreateSequenceEntry entry => pieces entry
  | CreateMacroEntry entry => pieces entry
  | AlterEntry info => pieces info
  | InsertEntry chunk | DeleteEntry chunk => pieces chunk
  | UpdateEntry column chunk => [le_encode 8 column] ++ pieces chunk
  | CreateSchemaEntry name | DropSchemaEntry name => string_pieces name
  | DropTableEntry schema name | DropViewEntry schema name | DropSequenceEntry schema name | DropMacroEntry schema name
  | UseTableEntry schema name => string_pieces schema ++ string_pieces name
  | SequenceValueEntry schema name usage_count counter =>
      string_pieces schema ++ string_pieces name ++ [le_encode 8 usage_count] ++ [le_encode 8 counter]
  | CheckpointEntry id => [le_encode 8 id]
  end.

Definition entry_valid (e : Entry) : Prop :=
  match e with
  | CreateTableEntry entry => valid entry
  | CreateViewEntry entry => valid entry
  | CreateSequenceEntry entry => valid entry
  | CreateMacroEntry entry => valid entry
  | AlterEntry info => valid info
  | InsertEntry chunk | DeleteEntry chunk => valid chunk
  | UpdateEntry column chunk => inU 64 column ∧ valid chunk
  | CreateSchemaEntry name | DropSchemaEntry name => valid_string name
  | DropTableEntry schema name | DropViewEntry schema name | DropSequenceEntry schema name | DropMacroEntry schema name
  | UseTableEntry schema name => valid_string schema ∧ valid_string name
  | SequenceValueEntry schema name usage_count counter =>
      valid_string schema ∧ valid_string name ∧ inU 64 usage_count ∧ inS 64 counter
  | CheckpointEntry id => inS 64 id
  end.

Definition body_bytes (e : Entry) : list Z := mjoin (body_pieces e).

Definition entry_bytes (e : Entry) : list Z := le_encode 1 (entry_type e) ++ body_bytes e.

Definition transaction_bytes (entries : list Entry) : list Z := (entries ≫= entry_bytes) ++ le_encode 1 WAL_FLUSH.

Definition log_bytes (transactions : list (list Entry)) : list Z := transactions ≫= transaction_bytes.

(** ** Lemmas: replaying one entry *)

Definition checkpoint_of (id : Z) (e : Entry) : Z := match e with CheckpointEntry new_id => new_id | _ => id end.

Section replay_entry.
Context {D : Type} `{!Deserializer D}.
Implicit Types (st : ReplayState D).

Definition set_source (src : D) st : ReplayState D := mkReplayState (db st) src (current_table st) (deserialize_only st) (checkpoint_id st).

Lemma bind_read {A B} (f : D → res (A * D)) b v rest st :
  decodes f b v → des_ok (source st) → remaining (source st) = b ++ rest →
  ∃ src, des_ok src ∧ remaining src = rest ∧ ∀ k : A → Replay_ B, replay_bind _ _ k (from_source f) st = k v (set_source src st).
Proof.
  intros Hf Hok Hrem. destruct (Hf _ _ Hok Hrem) as (src & Hr & Hok' & Hrem'). exists src. split; [done|]. split; [done|].
  intros k. unfold replay_bind, from_source. by rewrite Hr.
Qed.

(** The state after an entry: the reader is behind it. *)
Definition after_entry (e : Entry) st (src : D) (o : out (DB * option Table) ()) : out (ReplayState D) () :=
  match o with
  | Ret (d, t) _ => Ret (mkReplayState d src t (deserialize_only st) (checkpoint_of (checkpoint_id st) e)) ()
  | Raise (d, t) ex => Raise (mkReplayState d src t (deserialize_only st) (checkpoint_of (checkpoint_id st) e)) ex
  end.

Lemma on_db_spec e st src (f : DB → out DB ()) :
  checkpoint_of (checkpoint_id st) e = checkpoint_id st →
  on_db f (set_source src st) = after_entry e st src (spec_on_db f (db st, current_table st)).
Proof. intros Hc. unfold on_db, after_entry, spec_on_db. rewrite Hc. cbn. by destruct (f (db st)) as [? []|]. Qed.

Lemma delete_rows_spec t ids chunk st src :
  delete_rows t ids (set_source src st) =
    after_entry (DeleteEntry chunk) st src (execute_deletes t ids (db st, current_table st)).
Proof.
  revert st. induction ids as [|id ids IH]; intros st; cbn [delete_rows execute_deletes]; [done|].
  unfold mbind, replay_bind, on_db, spec_on_db. cbn. destruct (DeleteRow t id (db st)) as [d a|d ex]; [|done].
  apply (IH (mkReplayState d (source st) (current_table st) (deserialize_only st) (checkpoint_id st))).
Qed.

(** The first pass. *)
Definition skipped (e : Entry) st (src : D) : out (ReplayState D) () :=
  Ret (mkReplayState (db st) src (current_table st) (deserialize_only st) (checkpoint_of (checkpoint_id st) e)) ().

Definition replayed (e : Entry) st (rest : list Z) (o : out (ReplayState D) ()) : Prop :=
  ∃ src, des_ok src ∧ remaining src = rest ∧
    o = if deserialize_only st then skipped e st src else after_entry e st src (execute e (db st, current_table st)).

(** An entry that is read and then passed to the database. *)
Lemma replayed_read {A} (f : D → res (A * D)) v (g : A → DB → out DB ()) e st rest :
  decodes f (body_bytes e) v → des_ok (source st) → remaining (source st) = body_bytes e ++ rest →
  checkpoint_of (checkpoint_id st) e = checkpoint_id st → execute e = spec_on_db (g v) →
  replayed e st rest ((info ← from_source f; unless_deserialize_only (on_db (g info))) st).
Proof.
  intros Hf Hok Hrem Hc He. destruct (bind_read (B := ()) f _ v rest st Hf Hok Hrem) as (src & Hok' & Hrem' & Hk).
  exists src. split; [done|]. split; [done|]. unfold mbind. rewrite Hk. unfold unless_deserialize_only. cbn [deserialize_only set_source].
  destruct (deserialize_only st) eqn:Ho; [unfold skipped, set_source; rewrite Hc, ?Ho; reflexivity|]. rewrite He. by apply on_db_spec.
Qed.

(** An entry that starts with two names. *)
Lemma bind_read_names {B} schema name b rest st :
  valid_string schema → valid_string name → des_ok (source st) →
  remaining (source st) = mjoin (string_pieces schema) ++ mjoin (string_pieces name) ++ b ++ rest →
  ∃ src, des_ok src ∧ remaining src = b ++ rest ∧
    ∀ k : list Z → list Z → Replay_ B, (s ← from_source ReadString; n ← from_source ReadString; k s n) st = k schema name (set_source src st).
Proof.
  intros Hs Hn Hok Hrem.
  destruct (bind_read (B := B) _ _ _ _ st (decodes_string schema Hs) Hok Hrem) as (src1 & Hok1 & Hrem1 & Hk1).
  destruct (bind_read (B := B) _ _ _ _ (set_source src1 st) (decodes_string name Hn) Hok1 Hrem1) as (src2 & Hok2 & Hrem2 & Hk2).
  exists src2. split; [done|]. split; [done|]. intros k. unfold mbind. rewrite Hk1, Hk2. reflexivity.
Qed.

Lemma replayed_names schema name (g : list Z → list Z → DB → out DB ()) e st rest :
  body_pieces e = string_pieces schema ++ string_pieces name → valid_string schema → valid_string name →
  des_ok (source st) → remaining (source st) = body_bytes e ++ rest →
  checkpoint_of (checkpoint_id st) e = checkpoint_id st → execute e = spec_on_db (g schema name) →
  replayed e st rest ((s ← from_source ReadString; n ← from_source ReadString; unless_deserialize_only (on_db (g s n))) st).
Proof.
  intros Hb Hs Hn Hok Hrem Hc He. unfold body_bytes in Hrem. rewrite Hb, join_app, <-app_assoc in Hrem.
  destruct (bind_read_names (B := ()) schema name [] rest st Hs Hn Hok Hrem) as (src & Hok' & Hrem' & Hk).
  exists src. split; [done|]. split; [done|]. rewrite Hk. unfold unless_deserialize_only. cbn [deserialize_only set_source].
  destruct (deserialize_only st) eqn:Ho; [unfold skipped, set_source; rewrite Hc, ?Ho; reflexivity|]. rewrite He. by apply on_db_spec.
Qed.

(** An entry with a chunk, which needs the current table. *)
Lemma replayed_chunk msg chunk (k : DataChunk → Table → Replay_ ()) e st rest :
  body_pieces e = pieces chunk → valid chunk → des_ok (source st) → remaining (source st) = body_bytes e ++ rest →
  checkpoint_of (checkpoint_id st) e = checkpoint_id st →
  (current_table st = None → execute e (db st, None) = Raise (db st, None) (Exception msg)) →
  (∀ t src, current_table st = Some t → k chunk t (set_source src st) = after_entry e st src (execute e (db st, Some t))) →
  replayed e st rest ((c ← from_source Deserialize; unless_deserialize_only (with_current_table msg (k c))) st).
Proof.
  intros Hb Hv Hok Hrem Hc Hnone Hsome. unfold body_bytes in Hrem. rewrite Hb in Hrem.
  destruct (bind_read (B := ()) _ _ _ _ st (Deserialize_decodes chunk Hv) Hok Hrem) as (src & Hok' & Hrem' & Hk).
  exists src. split; [done|]. split; [done|]. unfold mbind. rewrite Hk. unfold unless_deserialize_only. cbn [deserialize_only set_source].
  destruct (deserialize_only st) eqn:Ho; [unfold skipped, set_source; rewrite Hc, ?Ho; reflexivity|]. unfold with_current_table. cbn [current_table set_source].
  destruct (current_table st) as [t|] eqn:Ht; [by apply Hsome|]. rewrite Hnone by done. unfold after_entry, set_source. rewrite Hc, Ho, Ht. reflexivity.
Qed.
Lemma replayed_name name (g : list Z → DB → out DB ()) e st rest :
  body_pieces e = string_pieces name → valid_string name → des_ok (source st) → remaining (source st) = body_bytes e ++ rest →
  checkpoint_of (checkpoint_id st) e = checkpoint_id st → execute e = spec_on_db (g name) →
  replayed e st rest ((n ← from_source ReadString; unless_deserialize_only (on_db (g n))) st).
Proof. intros Hb Hn. apply replayed_read. unfold body_bytes. rewrite Hb. by apply decodes_string. Qed.

Lemma replayed_codec {E} `{!Codec E} (x : E) (g : E → DB → out DB ()) e st rest :
  body_pieces e = pieces x → valid x → des_ok (source st) → remaining (source st) = body_bytes e ++ rest →
  checkpoint_of (checkpoint_id st) e = checkpoint_id st → execute e = spec_on_db (g x) →
  replayed e st rest ((n ← from_source Deserialize; unless_deserialize_only (on_db (g n))) st).
Proof. intros Hb Hn. apply replayed_read. unfold body_bytes. rewrite Hb. by apply Deserialize_decodes. Qed.

Lemma replayed_use_table schema name st rest :
  valid_string schema → valid_string name → des_ok (source st) → remaining (source st) = body_bytes (UseTableEntry schema name) ++ rest →
  replayed (UseTableEntry schema name) st rest (ReplayUseTable st).
Proof.
  intros Hs Hn Hok Hrem. unfold body_bytes, body_pieces in Hrem. rewrite join_app, <-app_assoc in Hrem.
  destruct (bind_read_names (B := ()) schema name [] rest st Hs Hn Hok Hrem) as (src & Hok' & Hrem' & Hk).
  exists src. split; [done|]. split; [done|]. unfold ReplayUseTable. rewrite Hk. unfold unless_deserialize_only. cbn [deserialize_only set_source].
  destruct (deserialize_only st) eqn:Ho; [unfold skipped, set_source; rewrite Ho; reflexivity|].
  cbn [execute]. unfold mbind, replay_bind, on_db, spec_on_db, set_current_table, after_entry. cbn.
  destruct (GetTable schema name (db st)); reflexivity.
Qed.

Lemma replayed_sequence_value schema name usage_count counter st rest :
  entry_valid (SequenceValueEntry schema name usage_count counter) → des_ok (source st) →
  remaining (source st) = body_bytes (SequenceValueEntry schema name usage_count counter) ++ rest →
  replayed (SequenceValueEntry schema name usage_count counter) st rest (ReplaySequenceValue st).
Proof.
  intros (Hs & Hn & Hu & Hc) Hok Hrem. unfold body_bytes, body_pieces in Hrem. rewrite !join_app, !join_single, <-!app_assoc in Hrem.
  destruct (bind_read_names (B := ()) schema name _ _ st Hs Hn Hok Hrem) as (src1 & Hok1 & Hrem1 & Hk1).
  destruct (bind_read (B := ()) _ _ _ _ (set_source src1 st) (decodes_u64 usage_count Hu) Hok1 Hrem1) as (src2 & Hok2 & Hrem2 & Hk2).
  destruct (bind_read (B := ()) _ _ _ _ (set_source src2 st) (decodes_s64 counter Hc) Hok2 Hrem2) as (src3 & Hok3 & Hrem3 & Hk3).
  exists src3. split; [done|]. split; [done|]. unfold ReplaySequenceValue. rewrite Hk1. unfold mbind. rewrite Hk2, Hk3.
  unfold unless_deserialize_only. cbn [deserialize_only set_source].
  destruct (deserialize_only st) eqn:Ho; [unfold skipped, set_source; rewrite Ho; reflexivity|].
  cbn [execute]. unfold replay_bind, on_db, spec_on_db, after_entry, set_source. cbn. rewrite Ho.
  destruct (GetSequence schema name (db st)) as [d old|]; [|reflexivity]. cbn. destruct (old <? usage_count); [|reflexivity].
  cbn [db source current_table deserialize_only checkpoint_id]. destruct (SetSequence schema name usage_count counter d) as [? []|]; reflexivity.
Qed.

Lemma replayed_update column chunk st rest :
  entry_valid (UpdateEntry column chunk) → des_ok (source st) → remaining (source st) = body_bytes (UpdateEntry column chunk) ++ rest →
  replayed (UpdateEntry column chunk) st rest (ReplayUpdate st).
Proof.
  intros [Hc Hv] Hok Hrem. unfold body_bytes, body_pieces in Hrem. rewrite !join_app, !join_single, <-!app_assoc in Hrem.
  destruct (bind_read (B := ()) _ _ _ _ st (decodes_u64 column Hc) Hok Hrem) as (src1 & Hok1 & Hrem1 & Hk1).
  destruct (bind_read (B := ()) _ _ _ _ (set_source src1 st) (Deserialize_decodes chunk Hv) Hok1 Hrem1) as (src2 & Hok2 & Hrem2 & Hk2).
  exists src2. split; [done|]. split; [done|]. unfold ReplayUpdate, mbind. rewrite Hk1, Hk2.
  unfold unless_deserialize_only. cbn [deserialize_only set_source].
  destruct (deserialize_only st) eqn:Ho; [unfold skipped, set_source; rewrite Ho; reflexivity|].
  cbn [execute]. unfold with_current_table, replay_bind, on_db, spec_on_db, after_entry, set_source, throw. cbn. rewrite Ho.
  destruct (current_table st) as [t|]; cbn; [|reflexivity]. destruct (ColumnCount t (db st)) as [d columns|]; [|reflexivity]. cbn.
  destruct (columns <=? column); [reflexivity|]. cbn [db]. destruct (Update t column chunk d) as [? []|]; reflexivity.
Qed.

Lemma replayed_checkpoint id st rest :
  inS 64 id → des_ok (source st) → remaining (source st) = body_bytes (CheckpointEntry id) ++ rest →
  replayed (CheckpointEntry id) st rest (ReplayCheckpoint st).
Proof.
  intros Hid Hok Hrem. unfold body_bytes, body_pieces in Hrem. rewrite join_single in Hrem.
  destruct (bind_read (B := ()) _ _ _ _ st (decodes_s64 id Hid) Hok Hrem) as (src1 & Hok1 & Hrem1 & Hk1).
  exists src1. split; [done|]. split; [done|]. unfold ReplayCheckpoint, mbind. rewrite Hk1. by destruct (deserialize_only st) eqn:Ho; unfold skipped, after_entry, set_checkpoint_id; cbn; rewrite ?Ho.
Qed.

(** Each entry of a log is read by the function of its type. *)
Lemma ReplayEntry_spec e st rest :
  entry_valid e → des_ok (source st) → remaining (source st) = body_bytes e ++ rest → replayed e st rest (ReplayEntry (entry_type e) st).
Proof.
  intros Hv Hok Hrem. destruct e; cbn [entry_valid] in Hv; destruct_and?.
  - by apply (replayed_codec entry CreateTable).
  - by apply (replayed_names schema name (DropEntry TABLE_ENTRY)).
  - by apply (replayed_name name CreateSchema).
  - by apply (replayed_name name (DropEntry SCHEMA_ENTRY [])).
  - by apply (replayed_codec entry CreateView).
  - by apply (replayed_names schema name (DropEntry VIEW_ENTRY)).
  - by apply (replayed_codec entry CreateSequence).
  - by apply (replayed_names schema name (DropEntry SEQUENCE_ENTRY)).
  - by apply replayed_sequence_value.
  - by apply (replayed_codec entry CreateFunction).
  - by apply (replayed_names schema name (DropEntry MACRO_ENTRY)).
  - by apply (replayed_codec info Alter).
  - by apply replayed_use_table.
  - apply (replayed_chunk _ chunk (λ c t, on_db (Append t c))); [reflexivity|done|done|done|reflexivity|intros _; reflexivity|].
    intros t src Ht. rewrite (on_db_spec (InsertEntry chunk)) by done. rewrite Ht. reflexivity.
  - apply (replayed_chunk _ chunk (λ c t, delete_rows t (chunk_row_ids c))); [reflexivity|done|done|done|reflexivity|intros _; reflexivity|].
    intros t src Ht. rewrite (delete_rows_spec _ _ chunk). rewrite Ht. reflexivity.
  - by apply replayed_update.
  - by apply replayed_checkpoint.
Qed.
End replay_entry.

(** ** Lemmas: the two passes over a log *)

Lemma Finished_remaining (r : BufferedFileReader) : des_ok r → BufferedFileReader_Finished r = true ↔ remaining r = [].
Proof.
  intros (_ & Ho & _ & Ht & Hp & _). unfold BufferedFileReader_Finished. rewrite Nat.eqb_eq. cbn [remaining BufferedFileReader_Deserializer].
  unfold BufferedFileReader_remaining. split.
  - intros He. apply drop_ge. lia.
  - intros He. apply (f_equal length) in He. rewrite length_drop in He. cbn in He. lia.
Qed.

Lemma Finished_false (r : BufferedFileReader) : des_ok r → remaining r ≠ [] → BufferedFileReader_Finished r = false.
Proof. intros Hok Hne. destruct (BufferedFileReader_Finished r) eqn:Hf; [|done]. by apply Finished_remaining in Hf. Qed.

Lemma read_tag (st : State) tag rest :
  inU 8 tag → des_ok (source st) → remaining (source st) = le_encode 1 tag ++ rest →
  ∃ src, des_ok src ∧ remaining src = rest ∧ from_source (Read 1) st = Ret (set_source src st) tag.
Proof.
  intros Ht Hok Hrem. destruct (decodes_u8 tag Ht _ _ Hok Hrem) as (src & Hr & Hok' & Hrem').
  exists src. split; [done|]. split; [done|]. unfold from_source. by rewrite Hr.
Qed.

Lemma entry_type_range e : inU 8 (entry_type e) ∧ entry_type e ≠ WAL_FLUSH.
Proof. destruct e; split; done. Qed.

Lemma initial_read_entries entries fuel (st : State) rest :
  Forall entry_valid entries → des_ok (source st) → remaining (source st) = (entries ≫= entry_bytes) ++ rest → deserialize_only st = true →
  ∃ src, des_ok src ∧ remaining src = rest ∧ initial_read (length entries + fuel) st =
    initial_read fuel (mkReplayState (db st) src (current_table st) true (foldl checkpoint_of (checkpoint_id st) entries)).
Proof.
  intros Hv. revert st. induction Hv as [|e entries He Hv IH]; intros st Hok Hrem Ho.
  { exists (source st). split; [done|]. split; [done|]. cbn [length foldl Nat.add]. destruct st; cbn in *. by subst. }
  rewrite bind_cons in Hrem. unfold entry_bytes in Hrem. rewrite <-!app_assoc in Hrem. destruct (entry_type_range e) as [Ht Hne].
  destruct (read_tag st _ _ Ht Hok Hrem) as (src1 & Hok1 & Hrem1 & Hr). cbn [length Nat.add initial_read]. rewrite Hr.
  destruct (Z.eqb_spec (entry_type e) WAL_FLUSH); [done|].
  destruct (ReplayEntry_spec e (set_source src1 st) _ He Hok1 Hrem1) as (src2 & Hok2 & Hrem2 & ->).
  cbn [deserialize_only set_source]. rewrite Ho. unfold skipped. cbn [foldl].
  apply (IH (mkReplayState (db st) src2 (current_table st) (deserialize_only st) (checkpoint_of (checkpoint_id st) e)) Hok2 Hrem2 Ho).
Qed.

(** Rounds of the loops. *)
Definition rounds (transactions : list (list Entry)) : nat := sum_list_with (λ entries, S (length entries)) transactions.

(** A flush that is not at the end of the file. *)
Lemma initial_read_log transactions fuel (st : State) rest :
  Forall (Forall entry_valid) transactions → des_ok (source st) → remaining (source st) = log_bytes transactions ++ rest → rest ≠ [] →
  deserialize_only st = true →
  ∃ src, des_ok src ∧ remaining src = rest ∧ initial_read (rounds transactions + fuel) st =
    initial_read fuel (mkReplayState (db st) src (current_table st) true (foldl checkpoint_of (checkpoint_id st) (mjoin transactions))).
Proof.
  intros Hv. revert st. induction Hv as [|entries transactions He Hv IH]; intros st Hok Hrem Hne Ho.
  { exists (source st). split; [done|]. split; [done|]. cbn. destruct st; cbn in *. by subst. }
  unfold log_bytes in Hrem. rewrite bind_cons in Hrem. unfold transaction_bytes at 1 in Hrem. rewrite <-!app_assoc in Hrem.
  destruct (initial_read_entries entries (S (rounds transactions + fuel)) st _ He Hok Hrem Ho) as (src1 & Hok1 & Hrem1 & Heq).
  cbn [rounds sum_list_with]. replace (S (length entries) + _ + fuel)%nat with (length entries + S (rounds transactions + fuel))%nat by (unfold rounds; lia).
  rewrite Heq. cbn [initial_read]. set (st1 := mkReplayState _ src1 _ _ _) in *.
  destruct (read_tag st1 WAL_FLUSH _ ltac:(done) Hok1 Hrem1) as (src2 & Hok2 & Hrem2 & Hr). rewrite Hr. cbn [Z.eqb Pos.eqb WAL_FLUSH].
  cbn [source set_source]. rewrite Finished_false by (rewrite ?Hrem2; done || (intros ?%app_nil; tauto)).
  destruct (IH (set_source src2 st1) Hok2 Hrem2 Hne eq_refl) as (src & Hok' & Hrem' & Heq'). exists src. split; [done|]. split; [done|].
  rewrite Heq'. rewrite join_cons, foldl_app. reflexivity.
Qed.
Lemma read_last_flush (st : State) :
  des_ok (source st) → remaining (source st) = le_encode 1 WAL_FLUSH →
  ∃ src, from_source (Read 1) st = Ret (set_source src st) WAL_FLUSH ∧ BufferedFileReader_Finished src = true.
Proof.
  intros Hok Hrem. rewrite <-(app_nil_r (le_encode 1 WAL_FLUSH)) in Hrem.
  destruct (read_tag st WAL_FLUSH [] ltac:(done) Hok Hrem) as (src & Hok' & Hrem' & Hr). exists src. split; [done|]. by apply Finished_remaining.
Qed.

Lemma log_bytes_snoc transactions entries :
  log_bytes (transactions ++ [entries]) = log_bytes transactions ++ (entries ≫= entry_bytes) ++ le_encode 1 WAL_FLUSH.
Proof. unfold log_bytes. by rewrite bind_app, bind_singleton. Qed.

(** The first pass over a complete log. *)
Lemma initial_read_complete transactions fuel (st : State) :
  transactions ≠ [] → Forall (Forall entry_valid) transactions → des_ok (source st) → remaining (source st) = log_bytes transactions →
  deserialize_only st = true →
  ∃ st', initial_read (rounds transactions + fuel) st = Ret st' () ∧ db st' = db st ∧
    checkpoint_id st' = foldl checkpoint_of (checkpoint_id st) (mjoin transactions).
Proof.
  intros Hne Hv Hok Hrem Ho. destruct transactions as [|entries txs _] using rev_ind; [done|].
  apply Forall_app in Hv as [Hv1 Hv2]. apply Forall_cons in Hv2 as [Hv2 _]. rewrite log_bytes_snoc in Hrem.
  assert (rounds (txs ++ [entries]) + fuel = rounds txs + (length entries + S fuel))%nat as ->.
  { unfold rounds. rewrite sum_list_with_app. cbn. lia. }
  destruct (initial_read_log txs (length entries + S fuel) st _ Hv1 Hok Hrem) as (src1 & Hok1 & Hrem1 & ->); [by intros [_ ?]%app_nil|done|].
  set (st1 := mkReplayState _ src1 _ _ _) in *.
  destruct (initial_read_entries entries (S fuel) st1 _ Hv2 Hok1 Hrem1 eq_refl) as (src2 & Hok2 & Hrem2 & ->).
  set (st2 := mkReplayState _ src2 _ _ _) in *. destruct (read_last_flush st2 Hok2 Hrem2) as (src3 & Hr & Hfin).
  cbn [initial_read]. rewrite Hr. cbn [Z.eqb Pos.eqb WAL_FLUSH source set_source]. rewrite Hfin. eexists. split; [done|]. split; [done|].
  cbn. by rewrite join_app, foldl_app, join_cons, app_nil_r.
Qed.

(** The second pass. *)
Lemma replay_log_entries entries fuel (st : State) rest :
  Forall entry_valid entries → des_ok (source st) → remaining (source st) = (entries ≫= entry_bytes) ++ rest → deserialize_only st = false →
  match execute_all entries (db st, current_table st) with
  | Ret (d, t) _ => ∃ src c, des_ok src ∧ remaining src = rest ∧
      replay_log (length entries + fuel) st = replay_log fuel (mkReplayState d src t false c)
  | Raise (d, t) e => ∃ st', replay_log (length entries + fuel) st = Raise st' e ∧ db st' = d
  end.
Proof.
  intros Hv. revert st. induction Hv as [|e entries He Hv IH]; intros st Hok Hrem Ho.
  { exists (source st), (checkpoint_id st). split; [done|]. split; [done|]. cbn [length Nat.add]. destruct st; cbn in *. by subst. }
  rewrite bind_cons in Hrem. unfold entry_bytes in Hrem. rewrite <-!app_assoc in Hrem. destruct (entry_type_range e) as [Ht Hne].
  destruct (read_tag st _ _ Ht Hok Hrem) as (src1 & Hok1 & Hrem1 & Hr). cbn [length Nat.add replay_log execute_all]. rewrite Hr.
  destruct (Z.eqb_spec (entry_type e) WAL_FLUSH); [done|].
  destruct (ReplayEntry_spec e (set_source src1 st) _ He Hok1 Hrem1) as (src2 & Hok2 & Hrem2 & ->).
  cbn [deserialize_only set_source db current_table]. rewrite Ho. unfold after_entry.
  destruct (execute e (db st, current_table st)) as [[d t] []|[d t] ex]; [|by eexists].
  cbn [deserialize_only set_source checkpoint_id]. rewrite Ho.
  apply (IH (mkReplayState d src2 t false (checkpoint_of (checkpoint_id st) e)) Hok2 Hrem2 eq_refl).
Qed.

Lemma replay_log_complete transactions fuel (st : State) :
  transactions ≠ [] → Forall (Forall entry_valid) transactions → des_ok (source st) → remaining (source st) = log_bytes transactions →
  deserialize_only st = false →
  match execute_log transactions (db st, current_table st) with
  | Ret (d, t) _ => ∃ st', replay_log (rounds transactions + fuel) st = Ret st' () ∧ db st' = d
  | Raise (d, t) e => ∃ st', replay_log (rounds transactions + fuel) st = Raise st' e ∧ db st' = d
  end.
Proof.
  intros Hne Hv. revert st. induction Hv as [|entries transactions He Hv IH]; intros st Hok Hrem Ho; [done|].
  unfold log_bytes in Hrem. rewrite bind_cons in Hrem. unfold transaction_bytes at 1 in Hrem. rewrite <-!app_assoc in Hrem.
  pose proof (replay_log_entries entries (S (rounds transactions + fuel)) st _ He Hok Hrem Ho) as Hentries.
  cbn [rounds sum_list_with execute_log].
  replace (S (length entries) + _ + fuel)%nat with (length entries + S (rounds transactions + fuel))%nat by (unfold rounds; lia).
  destruct (execute_all entries (db st, current_table st)) as [[d t] []|[d t] ex]; [|exact Hentries].
  destruct Hentries as (src1 & c & Hok1 & Hrem1 & ->). set (st1 := mkReplayState d src1 t false c) in *.
  destruct (read_tag st1 WAL_FLUSH _ ltac:(done) Hok1 Hrem1) as (src2 & Hok2 & Hrem2 & Hr).
  cbn [replay_log]. rewrite Hr. cbn [Z.eqb Pos.eqb WAL_FLUSH]. unfold on_db, spec_on_db. cbn [db set_source st1 fst snd current_table source].
  destruct (Commit d) as [d' []|d' ex]; [|by eexists]. cbn [source].
  destruct transactions as [|tx transactions].
  - rewrite (proj2 (Finished_remaining src2 Hok2)) by done. by eexists.
  - rewrite Finished_false; [|done|]. 2:{ rewrite Hrem2. cbn [mbind list_bind]. unfold transaction_bytes. by intros [[_ ?]%app_nil _]%app_nil. }
    cbn [db current_table deserialize_only checkpoint_id fst snd].
    apply (IH ltac:(done) (mkReplayState (BeginTransaction d') src2 t false c) Hok2 Hrem2 eq_refl).
Qed.

Lemma rounds_length transactions : (rounds transactions <= length (log_bytes transactions))%nat.
Proof.
  unfold rounds, log_bytes. induction transactions as [|entries transactions IH]; [done|].
  rewrite bind_cons, length_app. cbn [sum_list_with]. unfold transaction_bytes at 1. rewrite length_app, length_le_encode.
  assert (length entries <= length (entries ≫= entry_bytes))%nat; [|lia]. clear.
  induction entries as [|e entries IH]; [done|]. rewrite bind_cons, length_app. unfold entry_bytes at 1. rewrite length_app, length_le_encode. cbn [length]. lia.
Qed.

Lemma initial_state_ok d file only : des_ok (source (initial_state d file only)).
Proof. apply BufferedFileReader_new_ok. Qed.

Lemma initial_state_remaining d file only : remaining (source (initial_state d file only)) = file.
Proof. done. Qed.

(** The last checkpoint that the log mentions, -1 if there is none. *)
Definition last_checkpoint (transactions : list (list Entry)) : Z := foldl checkpoint_of (-1) (mjoin transactions).

Lemma Replay_complete (IsRootBlock : Z → bool) transactions d :
  transactions ≠ [] → Forall (Forall entry_valid) transactions →
  WriteAheadLog_Replay IsRootBlock (log_bytes transactions) d =
    if negb (last_checkpoint transactions =? -1) && IsRootBlock (last_checkpoint transactions) then Ok (true, Destroy (BeginTransaction d))
    else match execute_log transactions (BeginTransaction d, None) with
         | Ret (d, _) _ => Ok (false, Destroy d)
         | Raise (d, _) _ => d ← Rollback d; Ok (false, Destroy d)
         end.
Proof.
  intros Hne Hv. unfold WriteAheadLog_Replay. pose proof (rounds_length transactions) as Hlen.
  rewrite (Finished_false (BufferedFileReader_new (log_bytes transactions))).
  2:{ apply BufferedFileReader_new_ok. }
  2:{ change (log_bytes transactions ≠ []). destruct transactions; [done|]. intros He. rewrite He in Hlen. cbn in Hlen. lia. }
  replace (S (length (log_bytes transactions))) with (rounds transactions + S (length (log_bytes transactions) - rounds transactions))%nat by lia.
  destruct (initial_read_complete transactions (S (length (log_bytes transactions) - rounds transactions))
    (initial_state (BeginTransaction d) (log_bytes transactions) true) Hne Hv (initial_state_ok _ _ _) eq_refl eq_refl) as (st & -> & Hdb & Hck).
  rewrite Hck, Hdb. fold (last_checkpoint transactions). cbn [initial_state db]. destruct (negb _ && _); [done|].
  pose proof (replay_log_complete transactions (S (length (log_bytes transactions) - rounds transactions))
    (initial_state (BeginTransaction d) (log_bytes transactions) false) Hne Hv (initial_state_ok _ _ _) eq_refl eq_refl) as Hlog.
  cbn [initial_state db current_table] in Hlog.
  destruct (execute_log transactions (BeginTransaction d, None)) as [[d' t] []|[d' t] e]; destruct Hlog as (st' & -> & <-); done.
Qed.
(** ** Writing a log *)

Definition write_transaction (wal : WriteAheadLog) (entries : list Entry) : WriteAheadLog :=
  WriteAheadLog_Flush (foldl (λ wal e, WriteEntry e wal) wal entries).

(** The file after transactions were logged and flushed. *)
Definition write_log (wal : WriteAheadLog) (transactions : list (list Entry)) : WriteAheadLog := foldl write_transaction wal transactions.

Definition wal_ok wal : Prop := skip_writing wal = false ∧ ser_ok (writer wal).

Definition wal_written wal : list Z := written (writer wal).

Lemma WriteEntry_pieces (e : Entry) wal :
  skip_writing wal = false → WriteEntry e wal = set_writer (foldl WriteData (writer wal) (le_encode 1 (entry_type e) :: body_pieces e)) wal.
Proof.
  intros Hs.
  assert (∃ f, (∀ i w, WriteEntry e (mkWriteAheadLog i false w) = mkWriteAheadLog i false (f w)) ∧
    writes f (le_encode 1 (entry_type e) :: body_pieces e)) as (f & Heq & Hf).
  { destruct e; (eexists; split;
      [intros i w; cbv beta iota delta [WriteEntry WriteCreateTable WriteDropTable WriteCreateSchema WriteDropSchema WriteCreateView WriteDropView
        WriteCreateSequence WriteDropSequence WriteSequenceValue WriteCreateMacro WriteDropMacro WriteAlter WriteSetTable WriteInsert
        WriteDelete WriteUpdate WriteCheckpoint unless_skip_writing set_writer skip_writing initialized writer WriteName2]; reflexivity|]);
      cbn [entry_type body_pieces]; change (?x :: ?l) with ([x] ++ l); unfold WriteName2; write_fields. }
  destruct wal as [i sk w]. cbn [skip_writing] in Hs. subst sk. rewrite Heq, Hf. reflexivity.
Qed.

Lemma WriteEntry_spec (e : Entry) wal :
  wal_ok wal → wal_ok (WriteEntry e wal) ∧ wal_written (WriteEntry e wal) = wal_written wal ++ entry_bytes e.
Proof.
  intros [Hs Hok]. rewrite WriteEntry_pieces by done.
  destruct (writes_encodes (λ w, foldl WriteData w (le_encode 1 (entry_type e) :: body_pieces e)) _ (λ w, eq_refl) (writer wal) Hok) as [Hok' Hw]. split; [by split|]. exact Hw.
Qed.

Lemma write_entries_spec entries wal :
  wal_ok wal → wal_ok (foldl (λ wal e, WriteEntry e wal) wal entries) ∧
    wal_written (foldl (λ wal e, WriteEntry e wal) wal entries) = wal_written wal ++ (entries ≫= entry_bytes).
Proof.
  revert wal. induction entries as [|e entries IH]; intros wal Hok; cbn [foldl]; [by rewrite app_nil_r|].
  destruct (WriteEntry_spec e wal Hok) as [Hok' Hw]. destruct (IH _ Hok') as [Hok2 Hw2]. split; [done|].
  by rewrite Hw2, Hw, bind_cons, <-app_assoc.
Qed.

Lemma BufferedFileWriter_Flush_file w : fw_file (BufferedFileWriter_Flush w) = BufferedFileWriter_written w ∧
  (ser_ok w → ser_ok (BufferedFileWriter_Flush w)).
Proof.
  unfold BufferedFileWriter_Flush, BufferedFileWriter_written. destruct (Nat.eqb_spec (fw_offset w) 0) as [->|]; [by rewrite take_0, app_nil_r|].
  split; [done|]. intros [H1 H2]. split; [done|]. cbn. apply FILE_BUFFER_SIZE_pos.
Qed.

Lemma write_transaction_spec entries wal :
  wal_ok wal → wal_ok (write_transaction wal entries) ∧
    wal_written (write_transaction wal entries) = wal_written wal ++ transaction_bytes entries ∧
    fw_file (writer (write_transaction wal entries)) = wal_written (write_transaction wal entries).
Proof.
  intros Hok. destruct (write_entries_spec entries wal Hok) as [[Hs Hok1] Hw1]. unfold write_transaction, WriteAheadLog_Flush, unless_skip_writing.
  set (wal1 := foldl _ _ _) in *. rewrite Hs. destruct (writes_encodes _ _ (writes_Write 1 WAL_FLUSH) (writer wal1) Hok1) as [Hok2 Hw2].
  destruct (BufferedFileWriter_Flush_file (Write 1 (writer wal1) WAL_FLUSH)) as [Hfile Hok3].
  unfold wal_ok, wal_written, BufferedFileWriter_Sync. cbn [set_writer writer skip_writing]. rewrite Hfile.
  cbn [written BufferedFileWriter_Serializer] in *. rewrite BufferedFileWriter_Flush_written, Hw2.
  split; [split; [done|by apply Hok3]|]. split; [|done]. unfold transaction_bytes. rewrite join_single, app_assoc. by f_equal.
Qed.

Lemma write_log_spec transactions wal :
  wal_ok wal → wal_ok (write_log wal transactions) ∧ wal_written (write_log wal transactions) = wal_written wal ++ log_bytes transactions ∧
    (transactions ≠ [] → fw_file (writer (write_log wal transactions)) = wal_written wal ++ log_bytes transactions).
Proof.
  revert wal. induction transactions as [|entries transactions IH]; intros wal Hok; cbn [write_log foldl]; [by rewrite app_nil_r|].
  destruct (write_transaction_spec entries wal Hok) as (Hok1 & Hw1 & Hf1). destruct (IH _ Hok1) as (Hok2 & Hw2 & Hf2).
  unfold log_bytes in *. rewrite bind_cons, app_assoc, <-Hw1. split; [done|]. split; [done|]. intros _.
  destruct transactions as [|entries' transactions]; [|by apply Hf2]. cbn [mbind list_bind]. by rewrite app_nil_r, <-Hf1.
Qed.

Lemma wal_ok_Initialize file : wal_ok (WriteAheadLog_Initialize file) ∧ wal_written (WriteAheadLog_Initialize file) = file.
Proof.
  split; [split; [done|]; split; [apply length_replicate|apply FILE_BUFFER_SIZE_pos]|].
  unfold wal_written. cbn. unfold BufferedFileWriter_written. cbn. by rewrite take_0, app_nil_r.
Qed.

(** C17: the transactions that were written to a new log through the functions
    of [WriteAheadLog], each followed by [Flush], are executed by [Replay] after
    a restart: exactly these, in order, each in a transaction of its own that
    is committed at its flush, up to the first one that fails, which is rolled
    back.  When the last checkpoint that the log mentions is the root of the
    database file, nothing is executed and the log is to be truncated. *)
Theorem logged_transactions_replayed (IsRootBlock : Z → bool) transactions d :
  transactions ≠ [] → Forall (Forall entry_valid) transactions →
  WriteAheadLog_Replay IsRootBlock (fw_file (writer (write_log (WriteAheadLog_Initialize []) transactions))) d =
    if negb (last_checkpoint transactions =? -1) && IsRootBlock (last_checkpoint transactions) then Ok (true, Destroy (BeginTransaction d))
    else match execute_log transactions (BeginTransaction d, None) with
         | Ret (d, _) _ => Ok (false, Destroy d)
         | Raise (d, _) _ => d ← Rollback d; Ok (false, Destroy d)
         end.
Proof.
  intros Hne Hv. destruct (wal_ok_Initialize []) as [Hok Hw]. destruct (write_log_spec transactions _ Hok) as (_ & _ & Hf).
  rewrite Hf, Hw, app_nil_l by done. by apply Replay_complete.
Qed.

(** ** The log in [Transaction::Commit]

    Of src/src/transaction/transaction.cpp, what [Commit] does with the log.
    [entries] are what the commits of the local storage and of the undo buffer
    write before they return or, with [failed], throw. *)

Definition set_skip_writing (b : bool) wal : WriteAheadLog := mkWriteAheadLog (initialized wal) b (writer wal).

Definition Transaction_Commit_log (checkpoint failed : bool) (entries : list Entry) wal : WriteAheadLog :=
  let initial_written := GetTotalWritten wal in
  let initial_wal_size := GetWALSize wal in
  let wal := if checkpoint then set_skip_writing true wal else wal in
  let wal := foldl (λ wal e, WriteEntry e wal) wal entries in
  if failed then
    let wal := set_skip_writing false wal in
    if (initial_written <? GetTotalWritten wal)%nat then WriteAheadLog_Truncate initial_wal_size wal else wal
  else
    let wal := if (initial_written <? GetTotalWritten wal)%nat then WriteAheadLog_Flush wal else wal in
    set_skip_writing false wal.

(** Between transactions everything is in the file. *)
Definition wal_idle wal : Prop := wal_ok wal ∧ fw_offset (writer wal) = 0%nat.

Lemma wal_idle_written wal : wal_idle wal → wal_written wal = fw_file (writer wal).
Proof. intros [_ Ho]. unfold wal_written. cbn. unfold BufferedFileWriter_written. by rewrite Ho, take_0, app_nil_r. Qed.

(** The file only grows while entries are written, and the count of bytes with it. *)
Definition grows (w w' : BufferedFileWriter) : Prop :=
  ∃ l, fw_file w' = fw_file w ++ l ∧ fw_total_written w' = (fw_total_written w + length l)%nat.

Lemma grows_refl w : grows w w.
Proof. exists []. rewrite app_nil_r. cbn. split; [done|lia]. Qed.

Lemma grows_trans w1 w2 w3 : grows w1 w2 → grows w2 w3 → grows w1 w3.
Proof.
  intros (l1 & Hf1 & Ht1) (l2 & Hf2 & Ht2). exists (l1 ++ l2). rewrite Hf2, Ht2, Hf1, Ht1, app_assoc, length_app. split; [done|lia].
Qed.

Lemma grows_WriteChunk w piece :
  length (fw_data w) = FILE_BUFFER_SIZE → (fw_offset w + length piece <= FILE_BUFFER_SIZE)%nat → grows w (BufferedFileWriter_WriteChunk w piece).
Proof.
  intros Hl Hfit. unfold BufferedFileWriter_WriteChunk, BufferedFileWriter_Flush. cbn [fw_offset fw_file fw_data fw_total_written].
  destruct (Nat.eqb_spec (fw_offset w + length piece) FILE_BUFFER_SIZE) as [He|].
  2:{ exists []. cbn. rewrite app_nil_r. split; [done|lia]. }
  destruct (Nat.eqb_spec (fw_offset w + length piece) 0); [pose proof FILE_BUFFER_SIZE_pos; lia|]. eexists. split; [done|]. cbn.
  rewrite length_take, length_memcpy_at by lia. lia.
Qed.

Lemma grows_WriteData w b : ser_ok w → grows w (WriteData w b).
Proof.
  change (BufferedFileWriter_ok w → grows w (BufferedFileWriter_WriteData_loop (length b) w b)).
  intros Hok. assert (length b <= length b)%nat as Hf by lia. revert Hf. generalize (length b) at 2 3. intros fuel. revert w b Hok.
  induction fuel as [|fuel IH]; intros w [|x b] Hok Hf; cbn [BufferedFileWriter_WriteData_loop]; try apply grows_refl.
  pose proof (BufferedFileWriter_to_write_spec w x b Hok) as [Htw Hfit]. set (n := BufferedFileWriter_to_write w (x :: b)) in *. clearbody n.
  destruct (BufferedFileWriter_WriteChunk_spec w (take n (x :: b)) Hok) as [Hok1 _]; [len|].
  eapply grows_trans; [apply (grows_WriteChunk w (take n (x :: b))); [apply Hok|len]|]. apply IH; [done|]. rewrite length_drop. cbn in *. lia.
Qed.

Lemma grows_pieces ps w : ser_ok w → grows w (foldl WriteData w ps).
Proof.
  revert w. induction ps as [|p ps IH]; intros w Hok; [apply grows_refl|]. cbn [foldl].
  eapply grows_trans; [by apply grows_WriteData|]. apply IH. by apply WriteData_ok.
Qed.

Lemma grows_entries (entries : list Entry) wal : wal_ok wal → grows (writer wal) (writer (foldl (λ wal e, WriteEntry e wal) wal entries)).
Proof.
  revert wal. induction entries as [|e entries IH]; intros wal Hok; [apply grows_refl|]. cbn [foldl].
  eapply grows_trans; [|apply IH; apply (WriteEntry_spec e wal Hok)]. destruct Hok as [Hs Hok]. rewrite WriteEntry_pieces by done.
  by apply grows_pieces.
Qed.

(** [GetTotalWritten] counts the bytes that are written. *)
Lemma GetTotalWritten_spec w w' b :
  BufferedFileWriter_ok w → BufferedFileWriter_ok w' → grows w w' → BufferedFileWriter_written w' = BufferedFileWriter_written w ++ b →
  BufferedFileWriter_GetTotalWritten w' = (BufferedFileWriter_GetTotalWritten w + length b)%nat.
Proof.
  intros [Hl1 Ho1] [Hl2 Ho2] (l & Hf & Ht) Hw. apply (f_equal length) in Hw. unfold BufferedFileWriter_written in Hw.
  rewrite Hf, !length_app, !length_take in Hw. unfold BufferedFileWriter_GetTotalWritten. lia.
Qed.

Lemma WriteEntry_skip (e : Entry) wal : skip_writing wal = true → (∀ id, e ≠ CheckpointEntry id) → WriteEntry e wal = wal.
Proof.
  intros Hs Hne. destruct wal as [i sk w]. cbn in Hs. subst sk. destruct e; try reflexivity. by edestruct Hne.
Qed.

Lemma write_entries_skip (entries : list Entry) wal :
  skip_writing wal = true → (∀ id, CheckpointEntry id ∉ entries) → foldl (λ wal e, WriteEntry e wal) wal entries = wal.
Proof.
  intros Hs. revert wal Hs. induction entries as [|e entries IH]; intros wal Hs Hno; cbn [foldl]; [done|].
  rewrite WriteEntry_skip by (done || (intros id ->; apply (Hno id); by left)). apply IH; [done|]. intros id Hin. apply (Hno id). by right.
Qed.

Lemma write_entries_bytes (entries : list Entry) : entries ≠ [] → (0 < length (entries ≫= entry_bytes))%nat.
Proof. destruct entries as [|e entries]; [done|]. intros _. rewrite bind_cons, length_app. unfold entry_bytes at 1. rewrite length_app, length_le_encode. lia. Qed.

(** C18: the log takes part in a commit all or nothing.  Starting with an empty
    buffer, a commit that succeeds appends its entries and a flush to the file,
    and nothing when it wrote no entry; a commit that fails leaves the file as it
    was, even if part of its entries had already left the buffer; and a commit
    that is followed by a checkpoint does not write.  In each case the log is
    ready for the next transaction.  Entries of checkpoints are not among those
    that a transaction writes. *)
Theorem Transaction_Commit_log_atomic checkpoint failed (entries : list Entry) wal :
  wal_idle wal → (∀ id, CheckpointEntry id ∉ entries) →
  let wal' := Transaction_Commit_log checkpoint failed entries wal in
  wal_idle wal' ∧ fw_file (writer wal') = fw_file (writer wal) ++
    (if checkpoint || failed || bool_decide (entries = []) then [] else transaction_bytes entries).
Proof.
  intros Hidle Hno. cbn zeta. destruct wal as [i sk w]. destruct Hidle as [[Hs Hok] Ho]. cbn [skip_writing writer] in Hs, Ho, Hok. subst sk.
  unfold Transaction_Commit_log. set (wal := mkWriteAheadLog i false w). destruct checkpoint.
  { rewrite write_entries_skip by done. unfold GetTotalWritten. cbn [set_skip_writing writer wal]. rewrite Nat.ltb_irrefl.
    destruct failed; (split; [by split|by rewrite app_nil_r]). }
  assert (wal_ok wal) as Hwal by done. destruct (write_entries_spec entries wal Hwal) as [[Hs1 Hok1] Hw1].
  pose proof (GetTotalWritten_spec w _ (entries ≫= entry_bytes) Hok Hok1 (grows_entries entries wal Hwal) Hw1) as Hcount.
  destruct (grows_entries entries wal Hwal) as (l & Hf & _). set (wal1 := foldl _ wal entries) in *. cbn [orb].
  assert (GetTotalWritten wal1 = (GetTotalWritten wal + length (entries ≫= entry_bytes))%nat) as Hcount' by exact Hcount.
  change (GetTotalWritten (set_skip_writing false wal1)) with (GetTotalWritten wal1). rewrite Hcount'.
  destruct (decide (entries = [])) as [He|Hne].
  { assert (wal1 = wal) as -> by (subst wal1 entries; reflexivity). rewrite He. cbn [mbind list_bind length]. rewrite Nat.add_0_r, Nat.ltb_irrefl.
    rewrite bool_decide_eq_true_2, orb_true_r by done. destruct failed; (split; [by split|by rewrite app_nil_r]). }
  pose proof (write_entries_bytes entries Hne). rewrite bool_decide_eq_false_2, orb_false_r by done.
  destruct (Nat.ltb_spec (GetTotalWritten wal) (GetTotalWritten wal + length (entries ≫= entry_bytes))); [|lia]. destruct failed.
  - split; [split; [split; [done|]; split; [apply Hok1|cbn; apply FILE_BUFFER_SIZE_pos]|done]|].
    change (take (length (fw_file w)) (fw_file (writer wal1)) = fw_file w ++ []). by rewrite Hf, take_app_length, app_nil_r.
  - destruct (write_transaction_spec entries wal Hwal) as ([Hs2 Hok2] & Hw2 & Hf2). unfold write_transaction in *. fold wal1 in Hs2, Hok2, Hw2, Hf2.
    split; [split; [by split|]|].
    + unfold WriteAheadLog_Flush, unless_skip_writing. rewrite Hs1. cbn [set_skip_writing writer set_writer].
      unfold BufferedFileWriter_Sync, BufferedFileWriter_Flush. by destruct (Nat.eqb_spec (fw_offset (Write 1 (writer wal1) WAL_FLUSH)) 0).
    + cbn [set_skip_writing writer]. rewrite Hf2, Hw2. f_equal. apply wal_idle_written. by split.
Qed.

(** ** Logs that end inside a transaction *)

(** Bytes that the first pass cannot read as an entry. *)
Definition unreadable (bytes : list Z) : Prop :=
  ∀ st : State, des_ok (source st) → remaining (source st) = bytes → deserialize_only st = true →
    match from_source (Read 1) st with
    | Raise _ _ => True
    | Ret st' type => type ≠ WAL_FLUSH ∧ ∃ st'' e, ReplayEntry type st' = Raise st'' e ∧ db st'' = db st
    end.

(** The end of the file where an entry should be. *)
Lemma unreadable_nil : unreadable [].
Proof.
  intros st Hok Hrem _. unfold from_source, Read. destruct (ReadData_short (source st) 1 Hok) as (e & ->); [rewrite Hrem; cbn; lia|]. done.
Qed.

Lemma ReadString_short {D} `{!Deserializer D} (src : D) name j :
  valid_string name → des_ok src → remaining src = take j (string_bytes name) → (j < 4 + length name)%nat → ∃ e, ReadString src = Throw e.
Proof.
  intros Hv Hok Hrem Hj. unfold ReadString. destruct (decide (j < 4)%nat) as [Hlt|Hge].
  - unfold Read. destruct (ReadData_short src 4 Hok) as (e & ->); [|by eexists]. rewrite Hrem. len.
  - assert (remaining src = le_encode 4 (Z.of_nat (length name)) ++ take (j - 4) name) as Hrem2.
    { rewrite Hrem. unfold string_bytes. rewrite firstn_app, length_le_encode. f_equal. apply take_ge. len. }
    destruct (decodes_Read 4 (Z.of_nat (length name)) ltac:(split; [lia|exact Hv]) src _ Hok Hrem2) as (d & -> & Hok' & Hrem').
    cbn [mbind res_bind]. rewrite Nat2Z.id. apply ReadData_short; [done|]. rewrite Hrem'. len.
Qed.

(** An entry that creates or drops a schema, cut short. *)
Lemma unreadable_schema type name k :
  type = CREATE_SCHEMA ∨ type = DROP_SCHEMA → valid_string name → (0 < k < 5 + length name)%nat →
  unreadable (take k (le_encode 1 type ++ string_bytes name)).
Proof.
  intros Htype Hv Hk st Hok Hrem Ho. rewrite firstn_app, length_le_encode, take_ge in Hrem by len.
  destruct (read_tag st type _ ltac:(by destruct Htype as [->| ->]) Hok Hrem) as (src & Hok' & Hrem' & ->).
  destruct (ReadString_short src name (k - 1) Hv Hok' Hrem' ltac:(lia)) as (e & He).
  split; [by destruct Htype as [->| ->]|].
  assert (ReplayEntry type = ReplayCreateSchema ∨ ReplayEntry type = ReplayDropSchema) as [->| ->].
  { destruct Htype as [->| ->]; [left|right]; reflexivity. }
  all: exists (set_source src st), e; unfold ReplayCreateSchema, ReplayDropSchema, mbind, replay_bind, from_source; cbn [source set_source];
    rewrite He; done.
Qed.

(** The first pass fails, whatever was flushed before. *)
Lemma initial_read_torn transactions entries rest k (st : State) :
  Forall (Forall entry_valid) transactions → Forall entry_valid entries → unreadable rest → (entries ≫= entry_bytes) ++ rest ≠ [] →
  des_ok (source st) → remaining (source st) = log_bytes transactions ++ (entries ≫= entry_bytes) ++ rest → deserialize_only st = true →
  ∃ st' e, initial_read (rounds transactions + (length entries + S k)) st = Raise st' e ∧ db st' = db st.
Proof.
  intros Hv1 Hv2 Hun Hne Hok Hrem Ho.
  destruct (initial_read_log transactions (length entries + S k) st _ Hv1 Hok Hrem Hne Ho) as (src1 & Hok1 & Hrem1 & ->).
  set (st1 := mkReplayState _ src1 _ _ _).
  destruct (initial_read_entries entries (S k) st1 _ Hv2 Hok1 Hrem1 eq_refl) as (src2 & Hok2 & Hrem2 & ->).
  set (st2 := mkReplayState _ src2 _ _ _). specialize (Hun st2 Hok2 Hrem2 eq_refl). cbn [initial_read].
  destruct (from_source (Read 1) st2) as [st3 type|st3 e] eqn:Hr.
  - destruct Hun as (Hne' & st4 & e & -> & Hdb). destruct (Z.eqb_spec type WAL_FLUSH); [done|]. by eexists _, _.
  - exists st3, e. split; [done|]. unfold from_source in Hr. destruct (Read 1 (source st2)) as [[]|]; [done|]. by injection Hr as <- <-.
Qed.

(** C23: a log whose end is not a flush -- the process stopped after some
    entries of a transaction had reached the file, the last one perhaps cut
    short -- is not replayed at all: the transactions that were flushed, and
    reported as committed, before it are lost as well. *)
Theorem torn_log_not_replayed (IsRootBlock : Z → bool) transactions entries rest d :
  Forall (Forall entry_valid) transactions → Forall entry_valid entries → unreadable rest → (entries ≫= entry_bytes) ++ rest ≠ [] →
  WriteAheadLog_Replay IsRootBlock
    (fw_file (writer (write_log (WriteAheadLog_Initialize []) transactions)) ++ (entries ≫= entry_bytes) ++ rest) d =
    Ok (false, Destroy (BeginTransaction d)).
Proof.
  intros Hv1 Hv2 Hun Hne. destruct (wal_ok_Initialize []) as [Hok Hw]. destruct (write_log_spec transactions _ Hok) as (_ & _ & Hf).
  assert (fw_file (writer (write_log (WriteAheadLog_Initialize []) transactions)) = log_bytes transactions) as ->.
  { destruct transactions; [done|]. by rewrite Hf, Hw. }
  set (file := log_bytes transactions ++ (entries ≫= entry_bytes) ++ rest). unfold WriteAheadLog_Replay.
  rewrite (Finished_false (BufferedFileReader_new file)); [|apply BufferedFileReader_new_ok|change (file ≠ []); by intros [_ ?]%app_nil].
  pose proof (rounds_length transactions) as Hl1. pose proof (rounds_length [entries]) as Hl2.
  assert (rounds transactions + length entries <= length file)%nat as Hle.
  { subst file. rewrite !length_app. unfold rounds, log_bytes, transaction_bytes in *. cbn in Hl2. rewrite app_nil_r, length_app in Hl2. cbn in Hl2. lia. }
  destruct (initial_read_torn transactions entries rest (length file - (rounds transactions + length entries))
    (initial_state (BeginTransaction d) file true) Hv1 Hv2 Hun Hne (initial_state_ok _ _ _) eq_refl eq_refl) as (st' & e & Heq & Hdb).
  replace (S (length file)) with (rounds transactions + (length entries + S (length file - (rounds transactions + length entries))))%nat by lia.
  rewrite Heq, Hdb. done.
Qed.
End replay.

(** ** A database of schemas, committed and as seen by the transaction *)

Definition schemas : Type := list (list Z) * list (list Z).

Definition unsupported {A} (d : schemas) : out schemas A := Raise d (NotImplementedException "not a schema").

#[local] Instance schemas_target : ReplayTarget schemas () (list Z) (list Z) (list Z) := {|
  BeginTransaction d := (d.1, d.1);
  Commit d := Ret (d.2, d.2) ();
  Rollback d := Ok (d.1, d.1);
  Destroy d := (d.1, d.1);
  CreateTable _ := unsupported;
  DropEntry _ _ _ := unsupported;
  Alter _ := unsupported;
  CreateView _ := unsupported;
  CreateSchema name d :=
    if bool_decide (name ∈ d.2) then Raise d (CatalogException "Schema with name %s already exists!") else Ret (d.1, d.2 ++ [name]) ();
  CreateSequence _ := unsupported;
  CreateFunction _ := unsupported;
  GetSequence _ _ := unsupported;
  SetSequence _ _ _ _ := unsupported;
  GetTable _ _ := unsupported;
  ColumnCount _ := unsupported;
  Append _ _ := unsupported;
  DeleteRow _ _ := unsupported;
  Update _ _ _ := unsupported;
  chunk_row_ids _ := [];
|}.

Definition two_transactions : list (list (WALEntry (list Z) (list Z) (list Z))) :=
  [[CreateSchemaEntry [97]; CreateSchemaEntry [98]]; [CreateSchemaEntry [99; 100]]].

Lemma two_transactions_valid : Forall (Forall entry_valid) two_transactions.
Proof. repeat constructor. Qed.

Definition replay_schemas (file : list Z) : res (bool * schemas) :=
  WriteAheadLog_Replay (ParsedExpression := list Z) (SelectStatement := list Z) (DataChunk := list Z) (Table := ()) (λ id, id =? 7) file ([], []).

Lemma logged_transactions_replayed_witness :
  replay_schemas (fw_file (writer (write_log (WriteAheadLog_Initialize []) two_transactions))) =
    Ok (false, ([[97]; [98]; [99; 100]], [[97]; [98]; [99; 100]])).
Proof.
  unfold replay_schemas. rewrite (logged_transactions_replayed (λ id, id =? 7) two_transactions ([], [])).
  - reflexivity.
  - discriminate.
  - apply two_transactions_valid.
Defined.

Lemma torn_log_not_replayed_witness :
  replay_schemas (fw_file (writer (write_log (WriteAheadLog_Initialize []) two_transactions)) ++
      ([CreateSchemaEntry [101]] ≫= entry_bytes) ++ take 3 (le_encode 1 CREATE_SCHEMA ++ string_bytes [102])) = Ok (false, ([], [])).
Proof.
  unfold replay_schemas. rewrite (torn_log_not_replayed (λ id, id =? 7) two_transactions [CreateSchemaEntry [101]]).
  - reflexivity.
  - apply two_transactions_valid.
  - repeat constructor.
  - apply unreadable_schema; [by left|reflexivity|cbn; lia].
  - discriminate.
Defined.

Definition two_transactions_log : WriteAheadLog := write_log (WriteAheadLog_Initialize []) two_transactions.

Lemma Transaction_Commit_log_atomic_witness :
  wal_idle (Transaction_Commit_log false true [CreateSchemaEntry (ParsedExpression := list Z) (SelectStatement := list Z) (DataChunk := list Z) [101]] two_transactions_log) ∧
  fw_file (writer (Transaction_Commit_log false true [CreateSchemaEntry (ParsedExpression := list Z) (SelectStatement := list Z) (DataChunk := list Z) [101]] two_transactions_log)) =
    fw_file (writer two_transactions_log).
Proof.
  destruct (Transaction_Commit_log_atomic false true [CreateSchemaEntry (ParsedExpression := list Z) (SelectStatement := list Z) (DataChunk := list Z) [101]]
    two_transactions_log) as [H1 H2].
  - split; [|vm_compute; reflexivity].
    apply (write_log_spec (ParsedExpression := list Z) (SelectStatement := list Z) (DataChunk := list Z)).
    apply (wal_ok_Initialize []).
  - intros id Hin. apply elem_of_cons in Hin as [Heq|Hin]; [discriminate Heq|by apply not_elem_of_nil in Hin].
  - split; [exact H1|]. rewrite H2. apply app_nil_r.
Defined.
