(* ===== verification/BlockManager.v ===== *)
(** * The database file: blocks, headers and chains of meta blocks

    Models src/src/storage/single_file_block_manager.cpp with the headers of
    src/src/include/guinsoodb/storage/storage_info.hpp, the checksums of
    src/src/common/file_buffer.cpp, and the chains of blocks of
    src/src/storage/meta_block_writer.cpp and meta_block_reader.cpp.

    The file is accessed in regions that do not overlap, three headers and the
    blocks, so that its content is a map from locations to regions.  All writes
    and syncs are recorded: [crashes] says which contents a crash can leave.

    Theorems: data that a meta block writer wrote, across any number of blocks,
    is what a reader of the chain reads, with other writers working on the same
    file; headers and the free list survive a restart. *)

From S2P Require Import Prelude Serializer.

(** ** Constants of [Storage] and storage_info.hpp *)

Definition BLOCK_HEADER_SIZE : nat := 8.

Definition BLOCK_ALLOC_SIZE : nat := Z.to_nat 262144.

Definition BLOCK_SIZE : nat := BLOCK_ALLOC_SIZE - BLOCK_HEADER_SIZE.

Definition FILE_HEADER_SIZE : nat := Z.to_nat 4096.

Definition BLOCK_START : Z := Z.of_nat FILE_HEADER_SIZE * 3.

Definition INVALID_BLOCK : Z := -1.

Definition VERSION_NUMBER : Z := 14.

(** ** Checksums *)

(** The product of two [uint64_t]. *)
Definition murmurhash64 (x : Z) : Z := Z.land (x * 0xbf58476d1ce4e5b9) 0xffffffffffffffff.

(** [Hash(const char *val, size_t size)]; [char] is signed. *)
Definition Hash_bytes (val : list Z) : Z :=
  foldl (λ hash c, u64 (u64 (u64 (Z.shiftl hash 5) + hash) + wrapS 8 c)) 5381 val.

(** The loop over 64-bit words, and the rest of up to seven bytes. *)
Fixpoint checksum_words (result : Z) (buffer : list Z) : Z :=
  match buffer with
  | b0 :: b1 :: b2 :: b3 :: b4 :: b5 :: b6 :: b7 :: rest =>
      checksum_words (Z.lxor result (murmurhash64 (le_decode [b0; b1; b2; b3; b4; b5; b6; b7]))) rest
  | [] => result
  | rest => Z.lxor result (Hash_bytes rest)
  end.

Definition Checksum (buffer : list Z) : Z := checksum_words 5381 buffer.

(** ** The file *)

Inductive FileOp : Set :=
| WriteAt (location : Z) (bytes : list Z)
| SyncFile.

(** [FileHandle]: the content, and what was done to it. *)
Record FileHandle : Set := mkFileHandle {
  fh_content : gmap Z (list Z);
  fh_trace : list FileOp;
}.

Definition handle_Write (handle : FileHandle) (bytes : list Z) (location : Z) : FileHandle :=
  mkFileHandle (<[location := bytes]> (fh_content handle)) (fh_trace handle ++ [WriteAt location bytes]).

Definition handle_Sync (handle : FileHandle) : FileHandle :=
  mkFileHandle (fh_content handle) (fh_trace handle ++ [SyncFile]).

(** [FileBuffer::Write] puts the checksum in front of the user's part. *)
Definition FileBuffer_Write (buffer : list Z) (handle : FileHandle) (location : Z) : FileHandle :=
  handle_Write handle (le_encode BLOCK_HEADER_SIZE (Checksum buffer) ++ buffer) location.

Definition FileBuffer_Read (handle : FileHandle) (location : Z) : res (list Z) :=
  match fh_content handle !! location with
  | None => Throw (IOException "Could not read all bytes from file")
  | Some internal_buffer =>
      let buffer := drop BLOCK_HEADER_SIZE internal_buffer in
      if le_decode (take BLOCK_HEADER_SIZE internal_buffer) =? Checksum buffer then Ok buffer
      else Throw (IOException "Corrupt database file: computed checksum does not match stored checksum in block")
  end.

(** ** Headers *)

Record MainHeader : Set := mkMainHeader {
  version_number : Z;
  flags : list Z;
}.

Record DatabaseHeader : Set := mkDatabaseHeader {
  iteration : Z;
  meta_block : Z;
  free_list : Z;
  block_count : Z;
}.

(** "DUCK" *)
Definition MAGIC_BYTES : list Z := [68; 85; 67; 75].

Definition FLAG_COUNT : nat := 4.

Section header_writing.
Context {S : Type} `{!Serializer S}.

Definition MainHeader_Serialize (ser : S) (header : MainHeader) : S :=
  foldl (Write 8) (Write 8 (WriteData ser MAGIC_BYTES) (version_number header)) (flags header).

Definition DatabaseHeader_Serialize (ser : S) (header : DatabaseHeader) : S :=
  Write 8 (Write 8 (Write 8 (Write 8 ser (iteration header)) (meta_block header)) (free_list header)) (block_count header).
End header_writing.

Section header_reading.
Context {D : Type} `{!Deserializer D}.

(** [Read<block_id_t>] *)
Definition ReadBlockId (source : D) : res (Z * D) := ReadInt64 source.

Definition MainHeader_Deserialize (source : D) : res (MainHeader * D) :=
  '(magic_bytes, source) ← ReadData source 4;
  if negb (bool_decide (magic_bytes = MAGIC_BYTES)) then
    Throw (IOException "The file is not a valid GuinsooDB database file!")
  else
    '(version, source) ← Read 8 source;
    '(flags, source) ← Read_times FLAG_COUNT (Read 8) source;
    Ok (mkMainHeader version flags, source).

Definition DatabaseHeader_Deserialize (source : D) : res (DatabaseHeader * D) :=
  '(iteration, source) ← Read 8 source;
  '(meta_block, source) ← ReadBlockId source;
  '(free_list, source) ← ReadBlockId source;
  '(block_count, source) ← Read 8 source;
  Ok (mkDatabaseHeader iteration meta_block free_list block_count, source).
End header_reading.

(** [SerializeHeaderStructure] overwrites the start of the header buffer. *)
Definition SerializeHeaderStructure {T} (ser : BufferedSerializer → T → BufferedSerializer) (header : T)
    (ptr : list Z) : list Z :=
  memcpy_at 0 (written (ser (BufferedSerializer_new FILE_HEADER_SIZE) header)) ptr.

Definition DeserializeHeaderStructure {T} (des : BufferedDeserializer → res (T * BufferedDeserializer))
    (ptr : list Z) : res T :=
  '(header, _) ← des (BufferedDeserializer_new ptr); Ok header.

(** [Store<DatabaseHeader>]: the four members in memory. *)
Definition Store_DatabaseHeader (header : DatabaseHeader) (ptr : list Z) : list Z :=
  memcpy_at 0 (le_encode 8 (iteration header) ++ le_encode 8 (meta_block header) ++
    le_encode 8 (free_list header) ++ le_encode 8 (block_count header)) ptr.

(** [header_buffer] after [Clear] *)
Definition header_buffer : list Z := replicate (FILE_HEADER_SIZE - BLOCK_HEADER_SIZE) 0.

(** ** [SingleFileBlockManager]

    [bm_free_list] is a [std::set]: sorted and without repetitions. *)

Record SingleFileBlockManager : Set := mkBlockManager {
  bm_handle : FileHandle;
  bm_active_header : Z;
  bm_free_list : list Z;
  bm_modified_blocks : gset Z;
  bm_meta_block : Z;
  bm_max_block : Z;
  bm_free_list_id : Z;
  bm_iteration_count : Z;
  bm_read_only : bool;
  bm_use_direct_io : bool;
}.
Implicit Types (bm : SingleFileBlockManager).

Definition set_handle (h : FileHandle) bm : SingleFileBlockManager :=
  mkBlockManager h (bm_active_header bm) (bm_free_list bm) (bm_modified_blocks bm) (bm_meta_block bm)
    (bm_max_block bm) (bm_free_list_id bm) (bm_iteration_count bm) (bm_read_only bm) (bm_use_direct_io bm).

Definition set_blocks (free : list Z) (modified : gset Z) (max_block : Z) bm : SingleFileBlockManager :=
  mkBlockManager (bm_handle bm) (bm_active_header bm) free modified (bm_meta_block bm)
    max_block (bm_free_list_id bm) (bm_iteration_count bm) (bm_read_only bm) (bm_use_direct_io bm).

(** [std::set::insert] *)
Fixpoint set_insert (x : Z) (l : list Z) : list Z :=
  match l with
  | [] => [x]
  | y :: l' => if x <? y then x :: l else if x =? y then l else y :: set_insert x l'
  end.

Definition set_erase (x : Z) (l : list Z) : list Z := List.filter (λ y, negb (y =? x)) l.

Definition block_location (block_id : Z) : Z := BLOCK_START + block_id * Z.of_nat BLOCK_ALLOC_SIZE.

Definition IsRootBlock bm (root : Z) : bool := root =? bm_meta_block bm.

Definition GetFreeBlockId bm : SingleFileBlockManager * Z :=
  match bm_free_list bm with
  | block :: _ => (set_blocks (set_erase block (bm_free_list bm)) (bm_modified_blocks bm) (bm_max_block bm) bm, block)
  | [] => (set_blocks [] (bm_modified_blocks bm) (bm_max_block bm + 1) bm, bm_max_block bm)
  end.

Definition MarkBlockAsModified (block_id : Z) bm : SingleFileBlockManager :=
  set_blocks (bm_free_list bm) ({[block_id]} ∪ bm_modified_blocks bm) (bm_max_block bm) bm.

Definition GetMetaBlock bm : Z := bm_meta_block bm.

Definition TotalBlocks bm : Z := bm_max_block bm.

Definition FreeBlocks bm : nat := length (bm_free_list bm).

(** [Read]; a negative id, which the code asserts away, is outside of the file. *)
Definition BlockManager_Read bm (block_id : Z) : res (list Z) :=
  if block_id <? 0 then Throw (UndefinedBehaviour "block.id >= 0")
  else FileBuffer_Read (bm_handle bm) (block_location block_id).

Definition BlockManager_Write (buffer : list Z) (block_id : Z) bm : SingleFileBlockManager :=
  set_handle (FileBuffer_Write buffer (bm_handle bm) (block_location block_id)) bm.

Definition BlockManager_Initialize (handle : FileHandle) (active_header : Z) (header : DatabaseHeader)
    (read_only use_direct_io : bool) : SingleFileBlockManager :=
  mkBlockManager handle active_header [] ∅ (meta_block header) (block_count header) (free_list header)
    (iteration header) read_only use_direct_io.

(** ** [MetaBlockWriter]

    The memory of a new block is not initialised: [fresh] is what it holds. *)

Record MetaBlockWriter : Set := mkMetaBlockWriter {
  mw_block_id : Z;
  mw_buffer : list Z;
  mw_written_blocks : list Z;
  mw_offset : nat;
}.
Implicit Types (w : MetaBlockWriter).

Definition MetaBlockWriter_new (fresh : list Z) bm : SingleFileBlockManager * MetaBlockWriter :=
  let '(bm, id) := GetFreeBlockId bm in
  (bm, mkMetaBlockWriter id (memcpy_at 0 (le_encode 8 (-1)) fresh) [] 8).

Definition MetaBlockWriter_Flush (s : SingleFileBlockManager * MetaBlockWriter) : SingleFileBlockManager * MetaBlockWriter :=
  let '(bm, w) := s in
  if (8 <? mw_offset w)%nat then
    (BlockManager_Write (mw_buffer w) (mw_block_id w) bm,
     mkMetaBlockWriter (mw_block_id w) (mw_buffer w) (mw_written_blocks w ++ [mw_block_id w]) 8)
  else s.

(** The body of the loop: the current block is full. *)
Definition MetaBlockWriter_next_block (s : SingleFileBlockManager * MetaBlockWriter) : SingleFileBlockManager * MetaBlockWriter :=
  let '(bm, w) := s in
  let '(bm, new_block_id) := GetFreeBlockId bm in
  let w := mkMetaBlockWriter (mw_block_id w) (memcpy_at 0 (le_encode 8 new_block_id) (mw_buffer w))
             (mw_written_blocks w) (mw_offset w) in
  let '(bm, w) := MetaBlockWriter_Flush (bm, w) in
  (bm, mkMetaBlockWriter new_block_id (memcpy_at 0 (le_encode 8 (-1)) (mw_buffer w)) (mw_written_blocks w) (mw_offset w)).

Definition MetaBlockWriter_copy (buffer : list Z) w : MetaBlockWriter :=
  mkMetaBlockWriter (mw_block_id w) (memcpy_at (mw_offset w) buffer (mw_buffer w)) (mw_written_blocks w)
    (mw_offset w + length buffer).

Fixpoint MetaBlockWriter_WriteData_loop (fuel : nat) (s : SingleFileBlockManager * MetaBlockWriter) (buffer : list Z)
    : SingleFileBlockManager * MetaBlockWriter :=
  let '(bm, w) := s in
  if (BLOCK_SIZE <? mw_offset w + length buffer)%nat then
    match fuel with
    | O => s
    | S fuel =>
        let copy_amount := (BLOCK_SIZE - mw_offset w)%nat in
        let w := if (0 <? copy_amount)%nat then MetaBlockWriter_copy (take copy_amount buffer) w else w in
        MetaBlockWriter_WriteData_loop fuel (MetaBlockWriter_next_block (bm, w)) (drop copy_amount buffer)
    end
  else (bm, MetaBlockWriter_copy buffer w).

Definition MetaBlockWriter_WriteData (s : SingleFileBlockManager * MetaBlockWriter) (buffer : list Z)
    : SingleFileBlockManager * MetaBlockWriter :=
  MetaBlockWriter_WriteData_loop (S (length buffer)) s buffer.

(** ** [MetaBlockReader]

    A reader looks at the blocks of the file and at nothing else of the block
    manager; the blocks that it marks as modified are collected. *)

Record MetaBlockReader : Set := mkMetaBlockReader {
  mr_buffer : list Z;
  mr_offset : nat;
  mr_next_block : Z;
  mr_read_blocks : list Z;
}.
Implicit Types (r : MetaBlockReader).

Section reading_blocks.
Context (bm : SingleFileBlockManager).

(** [ReadNewBlock]; the block is read through the buffer manager. *)
Definition ReadNewBlock (read_blocks : list Z) (id : Z) : res MetaBlockReader :=
  buffer ← BlockManager_Read bm id;
  Ok (mkMetaBlockReader buffer 8 (s64 (le_decode (take 8 buffer))) (read_blocks ++ [id])).

Definition MetaBlockReader_new (block_id : Z) : res MetaBlockReader := ReadNewBlock [] block_id.

Fixpoint MetaBlockReader_ReadData_loop (fuel : nat) r (read_size : nat) (acc : list Z) : res (list Z * MetaBlockReader) :=
  if (length (mr_buffer r) <? mr_offset r + read_size)%nat then
    match fuel with
    | O => Throw (UndefinedBehaviour "the read does not end")
    | S fuel =>
        let to_read := (length (mr_buffer r) - mr_offset r)%nat in
        let acc := acc ++ take to_read (drop (mr_offset r) (mr_buffer r)) in
        r ← ReadNewBlock (mr_read_blocks r) (mr_next_block r);
        MetaBlockReader_ReadData_loop fuel r (read_size - to_read) acc
    end
  else
    Ok (acc ++ take read_size (drop (mr_offset r) (mr_buffer r)),
        mkMetaBlockReader (mr_buffer r) (mr_offset r + read_size) (mr_next_block r) (mr_read_blocks r)).

Definition MetaBlockReader_ReadData r (read_size : nat) : res (list Z * MetaBlockReader) :=
  MetaBlockReader_ReadData_loop (S read_size) r read_size [].
End reading_blocks.

(** ** Lemmas: checksums *)

Definition word (z : Z) : Prop := 0 <= z < 2 ^ 64.

Lemma lxor_word a b : word a → word b → word (Z.lxor a b).
Proof.
  intros [Ha1 Ha2] [Hb1 Hb2]. split; [by apply Z.lxor_nonneg|].
  destruct (decide (Z.lxor a b = 0)) as [->|Hne]; [lia|].
  apply Z.log2_lt_pow2; [pose proof (proj2 (Z.lxor_nonneg a b)); lia|].
  pose proof (Z.log2_lxor a b Ha1 Hb1) as Hl.
  destruct (decide (a = 0)) as [->|Ha0], (decide (b = 0)) as [->|Hb0]; rewrite ?Z.lxor_0_l, ?Z.lxor_0_r in *; try done.
  - apply Z.log2_lt_pow2; lia.
  - apply Z.log2_lt_pow2; lia.
  - pose proof (proj1 (Z.log2_lt_pow2 a 64 ltac:(lia)) Ha2). pose proof (proj1 (Z.log2_lt_pow2 b 64 ltac:(lia)) Hb2). lia.
Qed.

Lemma murmurhash64_word x : word (murmurhash64 x).
Proof.
  unfold murmurhash64. change 0xffffffffffffffff with (Z.ones 64). rewrite Z.land_ones by lia. apply Z.mod_pos_bound. lia.
Qed.

Lemma Hash_bytes_word val : word (Hash_bytes val).
Proof.
  unfold Hash_bytes. assert (word 5381) as H by (split; lia). revert H. generalize 5381.
  induction val as [|c val IH]; intros h Hh; [done|]. apply IH. by apply wrapU_range.
Qed.

Lemma checksum_words_word n buffer result : (length buffer <= n)%nat → word result → word (checksum_words result buffer).
Proof.
  revert buffer result. induction n as [|n IH]; intros buffer result Hn Hr.
  { by destruct buffer; [|cbn in Hn; lia]. }
  destruct buffer as [|b0 [|b1 [|b2 [|b3 [|b4 [|b5 [|b6 [|b7 rest]]]]]]]]; cbn [checksum_words]; [done|..].
  1-7: apply lxor_word; [done|apply Hash_bytes_word].
  apply IH; [cbn in Hn; lia|]. apply lxor_word; [done|apply murmurhash64_word].
Qed.

Lemma Checksum_word buffer : word (Checksum buffer).
Proof. apply (checksum_words_word (length buffer)); [done|]. split; lia. Qed.

#[global] Opaque Checksum.

Lemma FileBuffer_Read_Write buffer h location : FileBuffer_Read (FileBuffer_Write buffer h location) location = Ok buffer.
Proof.
  unfold FileBuffer_Read, FileBuffer_Write, handle_Write. cbn [fh_content]. rewrite lookup_insert_eq.
  rewrite drop_app_length', take_app_length' by (symmetry; apply length_le_encode).
  by rewrite le_decode_encode, Z.eqb_refl by apply Checksum_word.
Qed.

Lemma FileBuffer_Read_other buffer h location location' :
  location ≠ location' → FileBuffer_Read (FileBuffer_Write buffer h location) location' = FileBuffer_Read h location'.
Proof. intros Hne. unfold FileBuffer_Read, FileBuffer_Write, handle_Write. cbn [fh_content]. by rewrite lookup_insert_ne. Qed.

Lemma BLOCK_SIZE_large : (1024 <= BLOCK_SIZE)%nat.
Proof. unfold BLOCK_SIZE, BLOCK_ALLOC_SIZE, BLOCK_HEADER_SIZE. lia. Qed.

Lemma BLOCK_SIZE_small : Z.of_nat BLOCK_SIZE < 2 ^ 63.
Proof. unfold BLOCK_SIZE, BLOCK_ALLOC_SIZE, BLOCK_HEADER_SIZE. lia. Qed.

Lemma BLOCK_ALLOC_SIZE_pos : 0 < Z.of_nat BLOCK_ALLOC_SIZE.
Proof. unfold BLOCK_ALLOC_SIZE. lia. Qed.

Lemma FILE_HEADER_SIZE_large : (1024 <= FILE_HEADER_SIZE - BLOCK_HEADER_SIZE)%nat ∧ (BLOCK_HEADER_SIZE <= FILE_HEADER_SIZE)%nat.
Proof. unfold FILE_HEADER_SIZE, BLOCK_HEADER_SIZE. lia. Qed.

#[global] Opaque BLOCK_SIZE BLOCK_ALLOC_SIZE FILE_HEADER_SIZE BLOCK_HEADER_SIZE.

(** Blocks do not overlap, nor do they overlap the headers. *)
Lemma block_location_inj id id' : block_location id = block_location id' → id = id'.
Proof. unfold block_location. pose proof BLOCK_ALLOC_SIZE_pos. nia. Qed.

Lemma block_location_ge id : 0 <= id → BLOCK_START <= block_location id.
Proof. unfold block_location. pose proof BLOCK_ALLOC_SIZE_pos. nia. Qed.

(** ** Lemmas: the set of free blocks *)

Lemma elem_of_set_insert x y l : y ∈ set_insert x l ↔ y = x ∨ y ∈ l.
Proof.
  induction l as [|z l IH]; cbn [set_insert]; [set_solver|].
  destruct (Z.ltb_spec x z); [set_solver|]. destruct (Z.eqb_spec x z) as [->|]; set_solver.
Qed.

Lemma sorted_set_insert x l : StronglySorted Z.lt l → StronglySorted Z.lt (set_insert x l).
Proof.
  induction 1 as [|z l Hl IH Hz]; cbn [set_insert]; [by repeat constructor|].
  destruct (Z.ltb_spec x z). { repeat constructor; [done..|]. eapply Forall_impl; [exact Hz|]. intros. lia. }
  destruct (Z.eqb_spec x z) as [->|]; [by constructor|]. constructor; [done|].
  rewrite Forall_forall in *. intros y [->|Hy]%elem_of_set_insert; [lia|by apply Hz].
Qed.

Lemma elem_of_set_erase x y l : y ∈ set_erase x l ↔ y ∈ l ∧ y ≠ x.
Proof.
  unfold set_erase. rewrite !list_elem_of_In, filter_In, negb_true_iff, Z.eqb_neq. done.
Qed.

Lemma sorted_set_erase x l : StronglySorted Z.lt l → StronglySorted Z.lt (set_erase x l).
Proof.
  unfold set_erase. induction 1 as [|z l Hl IH Hz]; cbn; [constructor|].
  destruct (Z.eqb_spec z x); cbn; [done|]. constructor; [done|].
  rewrite Forall_forall in *. intros y Hy. apply Hz. apply (elem_of_set_erase x y l) in Hy. tauto.
Qed.

#[global] Arguments set_erase : simpl never.

(** The invariant of the free list, and the blocks in use. *)
Definition bm_ok bm : Prop :=
  StronglySorted Z.lt (bm_free_list bm) ∧ Forall (λ id, 0 <= id < bm_max_block bm) (bm_free_list bm) ∧ 0 <= bm_max_block bm.

Definition allocated bm (id : Z) : Prop := 0 <= id < bm_max_block bm ∧ id ∉ bm_free_list bm.

(** [GetFreeBlockId] allocates a block that was free, and nothing else changes. *)
Lemma GetFreeBlockId_spec bm bm' id :
  bm_ok bm → GetFreeBlockId bm = (bm', id) →
  bm_ok bm' ∧ 0 <= id ∧ ¬ allocated bm id ∧ (∀ id', allocated bm' id' ↔ id' = id ∨ allocated bm id') ∧
  bm' = set_blocks (bm_free_list bm') (bm_modified_blocks bm) (bm_max_block bm') bm ∧
  bm_free_list bm' = set_erase id (bm_free_list bm) ∧ bm_max_block bm <= bm_max_block bm'.
Proof.
  intros (Hs & Hf & Hm). unfold GetFreeBlockId. destruct (bm_free_list bm) as [|block l] eqn:Hl; intros Heq; apply pair_eq in Heq as [<- <-].
  - unfold bm_ok, allocated. cbn -[set_erase]. rewrite Hl. split_and!; try done; try lia.
    intros id'. assert (id' ∉ @nil Z) by set_solver.
    split; [intros [? _]; destruct (decide (id' = bm_max_block bm)); [by left|right]|intros [->|[? _]]]; (split; [lia|done]).
  - unfold bm_ok, allocated. cbn -[set_erase]. rewrite Hl.
    assert (0 <= block < bm_max_block bm) by (by inversion Hf).
    split_and!; [by apply sorted_set_erase| |lia|lia| | |done|done|done].
    + rewrite Forall_forall in *. intros y [Hy _]%elem_of_set_erase. by apply Hf.
    + intros [_ H']. apply H'. left.
    + intros id'. rewrite elem_of_set_erase. destruct (decide (id' = block)) as [->|]; [|tauto].
      split; [tauto|]. intros _. split; [done|]. tauto.
Qed.

(** ** Lemmas: what an operation leaves alone

    [extends own bm bm']: from [bm] to [bm'] only the blocks [own] and blocks
    that were not in use were written, and no block in use was freed. *)

Definition apply_op (content : gmap Z (list Z)) (op : FileOp) : gmap Z (list Z) :=
  match op with WriteAt location bytes => <[location := bytes]> content | SyncFile => content end.

Definition block_write (own : list Z) bm (op : FileOp) : Prop :=
  ∃ id bytes, op = WriteAt (block_location id) bytes ∧ 0 <= id ∧ (id ∈ own ∨ ¬ allocated bm id).

Record extends (own : list Z) bm bm' : Prop := {
  ext_ops : ∃ ops, fh_trace (bm_handle bm') = fh_trace (bm_handle bm) ++ ops ∧
    fh_content (bm_handle bm') = foldl apply_op (fh_content (bm_handle bm)) ops ∧ Forall (block_write own bm) ops;
  ext_alloc : ∀ id, allocated bm id → allocated bm' id;
  ext_same : bm' = set_handle (bm_handle bm') (set_blocks (bm_free_list bm') (bm_modified_blocks bm') (bm_max_block bm') bm);
  ext_max : bm_max_block bm <= bm_max_block bm';
}.

Lemma extends_refl own bm : extends own bm bm.
Proof. split; [exists []; split_and!; [by rewrite app_nil_r|done|constructor]|done|by destruct bm|done]. Qed.

Lemma extends_trans own own1 bm bm1 bm2 :
  extends own bm bm1 → extends own1 bm1 bm2 → (∀ id, id ∈ own1 → id ∈ own ∨ ¬ allocated bm id) → extends own bm bm2.
Proof.
  intros [(ops1 & Ht1 & Hc1 & Hf1) Ha1 He1 Hm1] [(ops2 & Ht2 & Hc2 & Hf2) Ha2 He2 Hm2] Hown. split.
  - exists (ops1 ++ ops2). rewrite Ht2, Hc2, Ht1, Hc1, app_assoc, foldl_app. split_and!; [done..|].
    apply Forall_app. split; [done|]. eapply Forall_impl; [exact Hf2|].
    intros op (id & bytes & -> & Hid & [Ho|Hna]); exists id, bytes; naive_solver.
  - auto.
  - rewrite He2, He1. reflexivity.
  - lia.
Qed.

Lemma apply_ops_other ops content location :
  (∀ bytes, WriteAt location bytes ∉ ops) → foldl apply_op content ops !! location = content !! location.
Proof.
  revert content. induction ops as [|op ops IH]; intros content Hno; [done|]. cbn [foldl]. rewrite IH by set_solver.
  destruct op as [l bs|]; cbn [apply_op]; [|done]. rewrite lookup_insert_ne; [done|]. intros ->. apply (Hno bs). left.
Qed.

Lemma extends_content own bm bm' location :
  extends own bm bm' → (∀ id, 0 <= id → location = block_location id → allocated bm id ∧ id ∉ own) →
  fh_content (bm_handle bm') !! location = fh_content (bm_handle bm) !! location.
Proof.
  intros [(ops & _ & Hc & Hf) _ _ _] Hloc. rewrite Hc. apply apply_ops_other. intros bytes Hin.
  rewrite Forall_forall in Hf. destruct (Hf _ Hin) as (id & bs & [= Heq _] & Hid & Hor). destruct (Hloc id Hid Heq). naive_solver.
Qed.

Lemma extends_read own bm bm' id :
  extends own bm bm' → allocated bm id → id ∉ own → BlockManager_Read bm' id = BlockManager_Read bm id.
Proof.
  intros He Ha Hn. unfold BlockManager_Read, FileBuffer_Read. rewrite (extends_content _ _ _ _ He); [done|].
  intros id' _ <-%block_location_inj. done.
Qed.

(** ** Chains of blocks

    [linked bm ids next]: each block of [ids] is full and starts with the id
    of the following one, the last with [next]. *)

Fixpoint linked bm (ids : list Z) (next : Z) : Prop :=
  match ids with
  | [] => True
  | id :: ids =>
      (∃ piece, BlockManager_Read bm id = Ok (le_encode 8 (hd next ids) ++ piece) ∧
         length piece = (BLOCK_SIZE - 8)%nat) ∧ linked bm ids next
  end.

Definition block_data bm (id : Z) : list Z :=
  match BlockManager_Read bm id with Ok buffer => drop 8 buffer | Throw _ => [] end.

Lemma linked_app bm ids ids' next : linked bm (ids ++ ids') next ↔ linked bm ids (hd next ids') ∧ linked bm ids' next.
Proof.
  induction ids as [|id ids IH]; cbn [app linked]; [tauto|]. rewrite IH.
  replace (hd next (ids ++ ids')) with (hd (hd next ids') ids) by by destruct ids. tauto.
Qed.

Lemma linked_read bm bm' ids next :
  (∀ id, id ∈ ids → BlockManager_Read bm' id = BlockManager_Read bm id) → linked bm ids next → linked bm' ids next.
Proof.
  induction ids as [|id ids IH]; cbn [linked]; [done|]. intros Hread [H Hl]. rewrite Hread by left. split; [done|].
  apply IH; [|done]. intros id' Hin. apply Hread. by right.
Qed.

Lemma block_data_read bm bm' ids :
  (∀ id, id ∈ ids → BlockManager_Read bm' id = BlockManager_Read bm id) → ids ≫= block_data bm' = ids ≫= block_data bm.
Proof.
  induction ids as [|id ids IH]; intros Hread; [done|]. rewrite !bind_cons, IH by (intros; apply Hread; by right).
  f_equal. unfold block_data. by rewrite Hread by left.
Qed.

(** ** Lemmas: the writer *)

Definition writer_ids w : list Z := mw_written_blocks w ++ [mw_block_id w].

Record writer_ok bm w : Prop := {
  wo_length : length (mw_buffer w) = BLOCK_SIZE;
  wo_offset : (8 <= mw_offset w <= BLOCK_SIZE)%nat;
  wo_next : take 8 (mw_buffer w) = le_encode 8 (-1);
  wo_nodup : NoDup (writer_ids w);
  wo_allocated : Forall (allocated bm) (writer_ids w);
  wo_linked : linked bm (mw_written_blocks w) (mw_block_id w);
}.

(** What was written since the writer was created. *)
Definition writer_data bm w : list Z :=
  (mw_written_blocks w ≫= block_data bm) ++ drop 8 (take (mw_offset w) (mw_buffer w)).

(** What a writer may do to the file and to its blocks. *)
Definition framed (s s' : SingleFileBlockManager * MetaBlockWriter) : Prop :=
  extends (writer_ids s.2) s.1 s'.1 ∧ bm_modified_blocks s'.1 = bm_modified_blocks s.1 ∧
  ∃ new, writer_ids s'.2 = writer_ids s.2 ++ new ∧ Forall (λ id, ¬ allocated s.1 id) new.

Lemma framed_refl s : framed s s.
Proof. split; [apply extends_refl|]. split; [done|]. exists []. by rewrite app_nil_r. Qed.

Lemma framed_same bm w w' : writer_ids w' = writer_ids w → framed (bm, w) (bm, w').
Proof. intros He. split; [apply extends_refl|]. split; [done|]. exists []. by rewrite app_nil_r. Qed.

Lemma framed_trans s s1 s2 : framed s s1 → framed s1 s2 → framed s s2.
Proof.
  intros (He1 & Hm1 & new1 & Hn1 & Hf1) (He2 & Hm2 & new2 & Hn2 & Hf2). rewrite Forall_forall in Hf1, Hf2. split; [|split; [congruence|]].
  - eapply extends_trans; [exact He1|exact He2|]. intros id. rewrite Hn1, elem_of_app. intros [?|?]; auto.
  - exists (new1 ++ new2). rewrite Hn2, Hn1, app_assoc. split; [done|]. rewrite Forall_app, !Forall_forall.
    split; [done|]. intros id Hin Ha. by eapply (Hf2 id), (ext_alloc _ _ _ He1).
Qed.

(** A writer does not notice what happens to other blocks. *)
Lemma writer_ok_extends own bm bm' w :
  writer_ok bm w → extends own bm bm' → (∀ id, id ∈ writer_ids w → id ∉ own) →
  writer_ok bm' w ∧ writer_data bm' w = writer_data bm w.
Proof.
  intros [H1 H2 H3 H4 H5 H6] He Hown. rewrite Forall_forall in H5.
  assert (∀ id, id ∈ mw_written_blocks w → BlockManager_Read bm' id = BlockManager_Read bm id) as Hread.
  { intros id Hin. assert (id ∈ writer_ids w) by (apply elem_of_app; by left). eapply extends_read; eauto. }
  split.
  - split; [done..| |by eapply linked_read]. rewrite Forall_forall. intros id Hin. by eapply ext_alloc; [|apply H5].
  - unfold writer_data. by rewrite (block_data_read bm bm').
Qed.

Lemma MetaBlockWriter_copy_spec bm w b :
  writer_ok bm w → (mw_offset w + length b <= BLOCK_SIZE)%nat →
  writer_ok bm (MetaBlockWriter_copy b w) ∧ writer_data bm (MetaBlockWriter_copy b w) = writer_data bm w ++ b.
Proof.
  intros [H1 H2 H3 H4 H5 H6] Hle. split.
  - split; cbn [MetaBlockWriter_copy mw_buffer mw_offset mw_written_blocks]; [|lia| |done..].
    + by rewrite length_memcpy_at by lia.
    + rewrite <-H3. unfold memcpy_at. rewrite take_app_le by (rewrite length_take; lia). rewrite take_take. f_equal. lia.
  - unfold writer_data. cbn [MetaBlockWriter_copy mw_buffer mw_offset mw_written_blocks].
    rewrite take_memcpy_at, <-app_assoc by lia. f_equal. rewrite skipn_app, length_take.
    replace (8 - mw_offset w `min` length (mw_buffer w))%nat with 0%nat by lia. done.
Qed.

Lemma set_block_link id buffer :
  length buffer = BLOCK_SIZE → memcpy_at 0 (le_encode 8 id) buffer = le_encode 8 id ++ drop 8 buffer.
Proof. intros. unfold memcpy_at. by rewrite length_le_encode. Qed.

Lemma BlockManager_Write_spec own buffer id bm :
  allocated bm id → id ∈ own →
  extends own bm (BlockManager_Write buffer id bm) ∧ BlockManager_Read (BlockManager_Write buffer id bm) id = Ok buffer ∧
  (∀ id', allocated (BlockManager_Write buffer id bm) id' ↔ allocated bm id') ∧
  (∀ id', id' ≠ id → BlockManager_Read (BlockManager_Write buffer id bm) id' = BlockManager_Read bm id').
Proof.
  intros Ha Hin. split_and!.
  - split; [|done|done|done]. eexists [_]. split_and!; [reflexivity..|]. constructor; [|constructor].
    exists id. eexists. split; [reflexivity|]. split; [apply Ha|by left].
  - unfold BlockManager_Read. destruct (Z.ltb_spec id 0); [unfold allocated in Ha; lia|]. apply FileBuffer_Read_Write.
  - done.
  - intros id' Hne. unfold BlockManager_Read. destruct (id' <? 0); [done|]. apply FileBuffer_Read_other.
    intros ?%block_location_inj. congruence.
Qed.

Lemma extends_GetFreeBlockId own bm bm' id : bm_ok bm → GetFreeBlockId bm = (bm', id) → extends own bm bm'.
Proof.
  intros Hok Hg. destruct (GetFreeBlockId_spec _ _ _ Hok Hg) as (_ & _ & _ & Ha & He & _ & Hm). rewrite He in *.
  split; [|intros; apply Ha; by right|done|done]. exists []. rewrite app_nil_r. done.
Qed.

Lemma MetaBlockWriter_next_block_spec bm w bm' w' :
  bm_ok bm → writer_ok bm w → mw_offset w = BLOCK_SIZE → MetaBlockWriter_next_block (bm, w) = (bm', w') →
  bm_ok bm' ∧ writer_ok bm' w' ∧ writer_data bm' w' = writer_data bm w ∧ framed (bm, w) (bm', w') ∧ mw_offset w' = 8%nat.
Proof.
  intros Hbm Hw Hoff. unfold MetaBlockWriter_next_block. destruct (GetFreeBlockId bm) as [bm1 new] eqn:Hg.
  destruct (GetFreeBlockId_spec _ _ _ Hbm Hg) as (Hbm1 & Hnew & Hna & Halloc & Hbm1eq & _).
  assert (bm_modified_blocks bm1 = bm_modified_blocks bm) as Hmod1 by by rewrite Hbm1eq.
  pose proof (extends_GetFreeBlockId (writer_ids w) _ _ _ Hbm Hg) as He1.
  destruct (writer_ok_extends [] bm bm1 w Hw) as [Hw1 Hd1]; [by eapply extends_GetFreeBlockId|set_solver|].
  pose proof BLOCK_SIZE_large as HB. pose proof (wo_nodup _ _ Hw) as Hnd. pose proof (wo_length _ _ Hw) as Hlen.
  unfold MetaBlockWriter_Flush. cbn [mw_offset mw_written_blocks mw_block_id mw_buffer]. rewrite Hoff.
  destruct (Nat.ltb_spec 8 BLOCK_SIZE); [|lia]. rewrite (set_block_link new) by done. cbn [mw_buffer mw_written_blocks mw_offset].
  set (block := le_encode 8 new ++ drop 8 (mw_buffer w)).
  assert (length block = BLOCK_SIZE) as Hbl by (subst block; len).
  destruct (BlockManager_Write_spec (writer_ids w) block (mw_block_id w) bm1) as (He2 & Hr & Ha2 & Hro).
  { pose proof (wo_allocated _ _ Hw1) as Hf. rewrite Forall_forall in Hf. apply Hf, elem_of_app. right. by left. }
  { apply elem_of_app. right. by left. }
  intros Heq; apply pair_eq in Heq as [<- <-]. set (bm2 := BlockManager_Write block (mw_block_id w) bm1) in *.
  assert (∀ id, id ∈ mw_written_blocks w → BlockManager_Read bm2 id = BlockManager_Read bm1 id) as Hread.
  { intros id Hin. apply Hro. intros ->. unfold writer_ids in Hnd. apply NoDup_app in Hnd as (_ & Hdis & _).
    by apply (Hdis _ Hin), list_elem_of_singleton. }
  split; [exact Hbm1|]. split; [|split; [|split]].
  - split; cbn [mw_buffer mw_offset mw_written_blocks mw_block_id].
    + rewrite set_block_link by done. len.
    + lia.
    + rewrite set_block_link by done. by rewrite take_app_length' by (by rewrite length_le_encode).
    + unfold writer_ids. cbn. apply NoDup_app. split; [done|]. split; [|apply NoDup_singleton].
      intros id Hin ->%list_elem_of_singleton. pose proof (wo_allocated _ _ Hw) as Hf. rewrite Forall_forall in Hf. by apply Hna, Hf.
    + unfold writer_ids. cbn. apply Forall_app. split; [|constructor; [apply Ha2, Halloc; by left|constructor]].
      eapply Forall_impl; [exact (wo_allocated _ _ Hw1)|]. intros id Hid. by apply Ha2.
    + apply linked_app. split; [apply (linked_read bm1); [done|exact (wo_linked _ _ Hw1)]|]. cbn [linked hd]. split; [|done].
      exists (drop 8 (mw_buffer w)). split; [exact Hr|]. rewrite length_drop. lia.
  - unfold writer_data at 1. cbn [mw_buffer mw_offset mw_written_blocks]. rewrite bind_app, bind_singleton.
    rewrite (block_data_read bm1 bm2) by done. rewrite <-Hd1. unfold writer_data. rewrite <-app_assoc. f_equal.
    unfold block_data. rewrite Hr. rewrite skipn_firstn_comm, Nat.sub_diag, take_0, app_nil_r. subst block.
    rewrite drop_app_length' by (by rewrite length_le_encode). rewrite (take_ge (mw_buffer w)); [done|]. lia.
  - split; [eapply extends_trans; [exact He1|exact He2|by left]|]. split; [exact Hmod1|].
    exists [new]. cbn. split; [done|]. by repeat constructor.
  - done.
Qed.

Lemma MetaBlockWriter_WriteData_loop_spec fuel bm w b :
  bm_ok bm → writer_ok bm w → (length b + (if mw_offset w =? BLOCK_SIZE then 1 else 0) <= fuel)%nat →
  let s' := MetaBlockWriter_WriteData_loop fuel (bm, w) b in
  bm_ok s'.1 ∧ writer_ok s'.1 s'.2 ∧ writer_data s'.1 s'.2 = writer_data bm w ++ b ∧ framed (bm, w) s' ∧
  (mw_offset s'.2 = 8%nat → b = [] ∧ mw_written_blocks s'.2 = mw_written_blocks w).
Proof.
  revert bm w b. induction fuel as [|fuel IH]; intros bm w b Hbm Hw Hf; pose proof (wo_offset _ _ Hw) as Ho;
    cbn [MetaBlockWriter_WriteData_loop];
    (destruct (Nat.ltb_spec BLOCK_SIZE (mw_offset w + length b));
     [|destruct (MetaBlockWriter_copy_spec bm w b Hw) as [Hw' Hd]; [lia|];
        split; [done|split; [done|split; [done|split; [by apply framed_same|]]]];
        cbn; intros; split; [apply nil_length_inv; lia|done]]).
  { destruct (Nat.eqb_spec (mw_offset w) BLOCK_SIZE); lia. }
  set (n := (BLOCK_SIZE - mw_offset w)%nat).
  assert (length (take n b) = n) as Htl by (subst n; len).
  destruct (MetaBlockWriter_copy_spec bm w (take n b) Hw) as [Hw1 Hd1]; [subst n; lia|].
  set (w1 := if (0 <? n)%nat then _ else w).
  assert (w1 = MetaBlockWriter_copy (take n b) w) as Hw1eq.
  { subst w1. destruct (Nat.ltb_spec 0 n); [done|]. replace n with 0%nat by lia. rewrite take_0. unfold MetaBlockWriter_copy, memcpy_at.
    cbn. rewrite Nat.add_0_r, take_drop. by destruct w. }
  assert (mw_offset w1 = BLOCK_SIZE) as Ho1 by (rewrite Hw1eq; cbn; rewrite Htl; subst n; lia).
  rewrite <-Hw1eq in Hw1, Hd1. assert (framed (bm, w) (bm, w1)) as Hfr1.
  { by rewrite Hw1eq; apply framed_same. }
  clearbody w1. destruct (MetaBlockWriter_next_block (bm, w1)) as [bm2 w2] eqn:Hnb.
  destruct (MetaBlockWriter_next_block_spec bm w1 bm2 w2 Hbm Hw1 Ho1 Hnb) as (Hbm2 & Hw2 & Hd2 & Hfr2 & Ho2).
  pose proof BLOCK_SIZE_large.
  destruct (IH bm2 w2 (drop n b) Hbm2 Hw2) as (Hbm3 & Hw3 & Hd3 & Hfr3 & Hn3).
  { rewrite Ho2, length_drop. destruct (Nat.eqb_spec 8 BLOCK_SIZE); [lia|].
    destruct (Nat.eqb_spec (mw_offset w) BLOCK_SIZE); subst n; lia. }
  split; [done|]. split; [done|]. split; [|split].
  - by rewrite Hd3, Hd2, Hd1, <-app_assoc, take_drop.
  - eapply framed_trans; [exact Hfr1|]. eapply framed_trans; [exact Hfr2|exact Hfr3].
  - intros [He _]%Hn3. apply (f_equal length) in He. rewrite length_drop in He. cbn in He. subst n. lia.
Qed.

Lemma MetaBlockWriter_WriteData_fits bm w b :
  (mw_offset w + length b <= BLOCK_SIZE)%nat → MetaBlockWriter_WriteData (bm, w) b = (bm, MetaBlockWriter_copy b w).
Proof.
  intros Hle. unfold MetaBlockWriter_WriteData. cbn [MetaBlockWriter_WriteData_loop].
  destruct (Nat.ltb_spec BLOCK_SIZE (mw_offset w + length b)); [lia|done].
Qed.

(** Writes of any size, in terms of the sequence of bytes written so far. *)
Definition MetaBlock_ser_ok (s : SingleFileBlockManager * MetaBlockWriter) : Prop :=
  bm_ok s.1 ∧ writer_ok s.1 s.2 ∧ (mw_offset s.2 = 8%nat → mw_written_blocks s.2 = []).

Lemma MetaBlockWriter_WriteData_spec s b :
  MetaBlock_ser_ok s →
  MetaBlock_ser_ok (MetaBlockWriter_WriteData s b) ∧
  writer_data (MetaBlockWriter_WriteData s b).1 (MetaBlockWriter_WriteData s b).2 = writer_data s.1 s.2 ++ b ∧
  framed s (MetaBlockWriter_WriteData s b).
Proof.
  destruct s as [bm w]. intros (Hbm & Hw & Hn).
  destruct (MetaBlockWriter_WriteData_loop_spec (S (length b)) bm w b Hbm Hw) as (H1 & H2 & H3 & H4 & H5); [case_match; lia|].
  split; [|done]. split_and!; [done..|]. intros Ho. fold (MetaBlockWriter_WriteData (bm, w) b) in *. destruct (H5 Ho) as [Hb He]. rewrite He.
  apply Hn. unfold MetaBlockWriter_WriteData in Ho. subst b. pose proof (wo_offset _ _ Hw).
  cbn [MetaBlockWriter_WriteData_loop length fst snd] in *. destruct (Nat.ltb_spec BLOCK_SIZE (mw_offset w + 0)); [lia|]. cbn in Ho. lia.
Qed.

#[export] Program Instance MetaBlockWriter_Serializer : Serializer (SingleFileBlockManager * MetaBlockWriter) := {
  ser_ok := MetaBlock_ser_ok;
  WriteData := MetaBlockWriter_WriteData;
  written s := writer_data s.1 s.2;
}.
Next Obligation. intros s b Hs. by apply MetaBlockWriter_WriteData_spec. Qed.
Next Obligation. intros s b Hs. by apply MetaBlockWriter_WriteData_spec. Qed.

Lemma MetaBlockWriter_new_spec fresh bm bm' w :
  bm_ok bm → length fresh = BLOCK_SIZE → MetaBlockWriter_new fresh bm = (bm', w) →
  MetaBlock_ser_ok (bm', w) ∧ writer_data bm' w = [] ∧ extends [] bm bm' ∧
  writer_ids w = [mw_block_id w] ∧ ¬ allocated bm (mw_block_id w) ∧
  bm_free_list bm' = set_erase (mw_block_id w) (bm_free_list bm) ∧ bm_modified_blocks bm' = bm_modified_blocks bm.
Proof.
  intros Hbm Hf. unfold MetaBlockWriter_new. destruct (GetFreeBlockId bm) as [bm1 id] eqn:Hg.
  destruct (GetFreeBlockId_spec _ _ _ Hbm Hg) as (Hbm1 & Hid & Hna & Ha & Hbm1eq & Hfl & _).
  intros Heq; apply pair_eq in Heq as [<- <-]. pose proof BLOCK_SIZE_large.
  split_and!; [split; [done|]; split; [split; cbn [fst snd mw_buffer mw_offset mw_written_blocks mw_block_id]|done]|..].
  - rewrite set_block_link by done. len.
  - lia.
  - rewrite set_block_link by done. by rewrite take_app_length' by (by rewrite length_le_encode).
  - apply NoDup_singleton.
  - constructor; [|constructor]. apply Ha. by left.
  - done.
  - unfold writer_data. cbn [mw_written_blocks mw_offset mw_buffer]. by rewrite skipn_firstn_comm.
  - by eapply extends_GetFreeBlockId.
  - done.
  - done.
  - done.
  - by rewrite Hbm1eq.
Qed.

(** After the last flush the blocks of the writer are a chain that starts with what was written. *)
Lemma MetaBlockWriter_Flush_spec s :
  MetaBlock_ser_ok s → written s ≠ [] →
  let s' := MetaBlockWriter_Flush s in
  bm_ok s'.1 ∧ linked s'.1 (mw_written_blocks s'.2) (-1) ∧ mw_written_blocks s'.2 = writer_ids s.2 ∧
  extends (writer_ids s.2) s.1 s'.1 ∧ (∃ pad, mw_written_blocks s'.2 ≫= block_data s'.1 = written s ++ pad) ∧
  bm_free_list s'.1 = bm_free_list s.1 ∧ bm_max_block s'.1 = bm_max_block s.1 ∧ bm_modified_blocks s'.1 = bm_modified_blocks s.1.
Proof.
  destruct s as [bm w]. intros (Hbm & Hw & Hn). cbn [fst snd] in *. intros Hne. unfold MetaBlockWriter_Flush.
  assert (8 < mw_offset w)%nat as Hoff.
  { pose proof (wo_offset _ _ Hw) as Ho. destruct (decide (mw_offset w = 8%nat)) as [He|]; [|lia]. exfalso. apply Hne.
    cbn. unfold writer_data. by rewrite (Hn He), He, skipn_firstn_comm, Nat.sub_diag, take_0. }
  destruct (Nat.ltb_spec 8 (mw_offset w)); [|lia]. cbn [fst snd mw_written_blocks].
  pose proof (wo_allocated _ _ Hw) as Hal. rewrite Forall_forall in Hal.
  assert (mw_block_id w ∈ writer_ids w) as Hin by (apply elem_of_app; right; by left).
  destruct (BlockManager_Write_spec (writer_ids w) (mw_buffer w) (mw_block_id w) bm (Hal _ Hin) Hin) as (He & Hr & Ha & Hro).
  set (bm2 := BlockManager_Write _ _ _) in *.
  assert (∀ id, id ∈ mw_written_blocks w → BlockManager_Read bm2 id = BlockManager_Read bm id) as Hread.
  { intros id Hid. apply Hro. intros ->. pose proof (wo_nodup _ _ Hw) as Hnd. unfold writer_ids in Hnd. apply NoDup_app in Hnd as (_ & Hdis & _).
    by apply (Hdis _ Hid), list_elem_of_singleton. }
  split_and!; [done| |done|done| |done|done|done].
  - apply linked_app. split; [apply (linked_read bm); [done|exact (wo_linked _ _ Hw)]|]. cbn [linked hd]. split; [|done].
    exists (drop 8 (mw_buffer w)). rewrite length_drop, <-(wo_next _ _ Hw), take_drop, (wo_length _ _ Hw). done.
  - exists (drop (mw_offset w) (mw_buffer w)). rewrite bind_app, bind_singleton, (block_data_read bm bm2) by done.
    cbn [written MetaBlockWriter_Serializer]. unfold writer_data. rewrite <-app_assoc. f_equal. unfold block_data. rewrite Hr. cbn [fst snd].
    rewrite <-(take_drop (mw_offset w) (mw_buffer w)) at 1. rewrite skipn_app, length_take.
    f_equal. pose proof (wo_length _ _ Hw). pose proof (wo_offset _ _ Hw). rewrite Nat.min_l by lia.
    by replace (8 - mw_offset w)%nat with 0%nat by lia.
Qed.

(** ** Lemmas: the reader *)

(** Chains do not repeat blocks: they are no longer than the file. *)
Definition chain_fuel bm : nat := size (fh_content (bm_handle bm)).

Fixpoint chain_data bm (fuel : nat) (id : Z) : list Z :=
  match fuel with
  | O => []
  | S fuel =>
      match BlockManager_Read bm id with
      | Ok buffer => drop 8 buffer ++ chain_data bm fuel (s64 (le_decode (take 8 buffer)))
      | Throw _ => []
      end
  end.

Definition valid_id (id : Z) : Prop := 0 <= id < 2 ^ 63.

Lemma hd_valid ids : Forall valid_id ids → - 2 ^ 63 <= hd (-1) ids < 2 ^ 63.
Proof. destruct 1 as [|id ids Hid _]; cbn; unfold valid_id in *; lia. Qed.

Lemma chain_data_linked bm ids fuel :
  linked bm ids (-1) → Forall valid_id ids → (length ids <= fuel)%nat →
  chain_data bm fuel (hd (-1) ids) = ids ≫= block_data bm.
Proof.
  revert fuel. induction ids as [|id ids IH]; intros fuel Hl Hv Hf.
  { by destruct fuel. }
  destruct fuel as [|fuel]; [cbn in Hf; lia|]. destruct Hl as [(piece & Hr & _) Hl]. inversion_clear Hv as [|? ? Hid Hv'].
  rewrite bind_cons. cbn [hd chain_data]. unfold block_data at 1. rewrite Hr, take_app_length' by (by rewrite length_le_encode).
  rewrite s64_le_decode by (by apply hd_valid). f_equal. apply IH; [done..|cbn in Hf; lia].
Qed.

(** A chain of different blocks is not longer than the file. *)
Lemma linked_length bm ids next : NoDup ids → linked bm ids next → (length ids <= chain_fuel bm)%nat.
Proof.
  intros Hnd Hl. unfold chain_fuel. rewrite <-size_dom.
  assert (NoDup (block_location <$> ids)) as Hnd'.
  { apply NoDup_fmap_2; [|done]. intros x y. apply block_location_inj. }
  rewrite <-(length_fmap block_location), <-(size_list_to_set (C := gset Z) _ Hnd'). apply subseteq_size.
  intros l [id [-> Hid]]%elem_of_list_to_set%list_elem_of_fmap. clear -Hl Hid.
  induction ids as [|id' ids IH]; [by apply not_elem_of_nil in Hid|]. destruct Hl as [(piece & Hr & _) Hl].
  apply elem_of_cons in Hid as [->|Hid]; [|by apply IH].
  unfold BlockManager_Read, FileBuffer_Read in Hr. destruct (id' <? 0); [done|]. apply elem_of_dom.
  destruct (fh_content (bm_handle bm) !! block_location id'); [done|discriminate].
Qed.

Record reader_ok bm r : Prop := {
  ro_length : length (mr_buffer r) = BLOCK_SIZE;
  ro_offset : (8 <= mr_offset r <= BLOCK_SIZE)%nat;
  ro_chain : ∃ ids, linked bm ids (-1) ∧ Forall valid_id ids ∧ (length ids <= chain_fuel bm)%nat ∧ mr_next_block r = hd (-1) ids;
}.

Definition reader_remaining bm r : list Z :=
  drop (mr_offset r) (mr_buffer r) ++ chain_data bm (chain_fuel bm) (mr_next_block r).

Lemma ReadNewBlock_spec bm read_blocks id ids :
  linked bm (id :: ids) (-1) → Forall valid_id (id :: ids) → (length (id :: ids) <= chain_fuel bm)%nat →
  ∃ r, ReadNewBlock bm read_blocks id = Ok r ∧ reader_ok bm r ∧ mr_offset r = 8%nat ∧
    reader_remaining bm r = (id :: ids) ≫= block_data bm.
Proof.
  intros [(piece & Hr & Hp) Hl] Hv Hlen. inversion_clear Hv as [|? ? Hid Hv']. unfold ReadNewBlock. rewrite Hr. cbn [mbind res_bind].
  eexists. split; [reflexivity|]. pose proof BLOCK_SIZE_large. rewrite take_app_length' by (by rewrite length_le_encode).
  rewrite s64_le_decode by (by apply hd_valid). cbn in Hlen. split_and!.
  - split; cbn [mr_buffer mr_offset mr_next_block]; [len|lia|]. exists ids. split_and!; [done..|lia|done].
  - done.
  - unfold reader_remaining. cbn [mr_buffer mr_offset mr_next_block]. rewrite chain_data_linked by (done || lia).
    rewrite bind_cons. f_equal. unfold block_data. by rewrite Hr.
Qed.

Lemma reader_remaining_length bm r n :
  reader_ok bm r → (n <= length (drop (mr_offset r) (mr_buffer r)))%nat →
  take n (reader_remaining bm r) = take n (drop (mr_offset r) (mr_buffer r)).
Proof. intros _ Hn. unfold reader_remaining. by rewrite take_app_le. Qed.

Lemma MetaBlockReader_ReadData_loop_spec bm fuel r n acc :
  reader_ok bm r → (n + (if mr_offset r =? BLOCK_SIZE then 1 else 0) <= fuel)%nat →
  if (n <=? length (reader_remaining bm r))%nat
  then ∃ r', MetaBlockReader_ReadData_loop bm fuel r n acc = Ok (acc ++ take n (reader_remaining bm r), r') ∧
         reader_ok bm r' ∧ reader_remaining bm r' = drop n (reader_remaining bm r)
  else ∃ e, MetaBlockReader_ReadData_loop bm fuel r n acc = Throw e.
Proof.
  revert r n acc. induction fuel as [|fuel IH]; intros r n acc Hok Hf; pose proof Hok as [Hlen Ho Hch];
    cbn [MetaBlockReader_ReadData_loop]; rewrite Hlen;
    (destruct (Nat.ltb_spec BLOCK_SIZE (mr_offset r + n));
      [|assert (n <= length (drop (mr_offset r) (mr_buffer r)))%nat by len;
        destruct (Nat.leb_spec n (length (reader_remaining bm r))) as [_|Hgt];
         [|unfold reader_remaining in Hgt; rewrite length_app in Hgt; lia];
        eexists; split; [by rewrite reader_remaining_length|]; split;
         [split; cbn; [done|lia|exact Hch]|];
        unfold reader_remaining; cbn [mr_buffer mr_offset mr_next_block]; rewrite skipn_app, drop_drop;
        replace (n - length _)%nat with 0%nat by lia; done]).
  { destruct (Nat.eqb_spec (mr_offset r) BLOCK_SIZE); lia. }
  set (k := (BLOCK_SIZE - mr_offset r)%nat). destruct Hch as ([|id ids] & Hl & Hv & Hli & Hnext).
  { rewrite Hnext. cbn [hd]. unfold ReadNewBlock at 1, BlockManager_Read at 1. cbn [mbind res_bind].
    unfold reader_remaining. rewrite Hnext, chain_data_linked with (ids := []) by (done || cbn; lia).
    rewrite app_nil_r, length_drop. destruct (Nat.leb_spec n (length (mr_buffer r) - mr_offset r)); [lia|]. eauto. }
  rewrite Hnext. cbn [hd]. destruct (ReadNewBlock_spec bm (mr_read_blocks r) id ids Hl Hv Hli) as (r1 & -> & Hok1 & Ho1 & Hrem1).
  cbn [mbind res_bind]. pose proof BLOCK_SIZE_large.
  specialize (IH r1 (n - k)%nat (acc ++ take k (drop (mr_offset r) (mr_buffer r))) Hok1).
  assert (reader_remaining bm r = drop (mr_offset r) (mr_buffer r) ++ reader_remaining bm r1) as Hrem.
  { unfold reader_remaining at 1. rewrite Hnext, Hrem1, chain_data_linked by done. done. }
  assert (length (drop (mr_offset r) (mr_buffer r)) = k) as Hk by (rewrite length_drop; lia).
  rewrite Hrem, length_app, Hk.
  assert ((n - k <=? length (reader_remaining bm r1))%nat = (n <=? k + length (reader_remaining bm r1))%nat) as Heq by (bools; lia || done).
  rewrite <-Heq. rewrite Ho1 in IH. destruct (n - k <=? length (reader_remaining bm r1))%nat.
  - destruct IH as (r' & -> & Hok' & Hrem'). { destruct (Nat.eqb_spec 8 BLOCK_SIZE), (Nat.eqb_spec (mr_offset r) BLOCK_SIZE); subst k; lia. }
    exists r'. split; [|split; [done|]].
    + rewrite <-app_assoc. do 3 f_equal. rewrite (take_ge (drop _ _) k) by lia. rewrite firstn_app, Hk, (take_ge (drop _ _) n) by (subst k; lia). done.
    + rewrite Hrem', skipn_app, Hk, (drop_ge (drop _ _) n) by (subst k; lia). done.
  - apply IH. destruct (Nat.eqb_spec 8 BLOCK_SIZE), (Nat.eqb_spec (mr_offset r) BLOCK_SIZE); subst k; lia.
Qed.

#[program] Definition MetaBlockReader_Deserializer bm : Deserializer MetaBlockReader := {|
  des_ok := reader_ok bm;
  ReadData := MetaBlockReader_ReadData bm;
  remaining := reader_remaining bm;
|}.
Next Obligation.
  intros bm r n Hok Hn. pose proof (MetaBlockReader_ReadData_loop_spec bm (S n) r n [] Hok ltac:(case_match; lia)) as H.
  by rewrite (proj2 (Nat.leb_le _ _) Hn) in H.
Qed.
Next Obligation.
  intros bm r n Hok Hn. pose proof (MetaBlockReader_ReadData_loop_spec bm (S n) r n [] Hok ltac:(case_match; lia)) as H.
  by rewrite (proj2 (Nat.leb_gt _ _) Hn) in H.
Qed.

(** A chain is read from its first block. *)
Lemma MetaBlockReader_new_spec bm ids :
  linked bm ids (-1) → NoDup ids → Forall valid_id ids → ids ≠ [] →
  ∃ r, MetaBlockReader_new bm (hd (-1) ids) = Ok r ∧ reader_ok bm r ∧ mr_offset r = 8%nat ∧
    reader_remaining bm r = ids ≫= block_data bm.
Proof.
  intros Hl Hnd Hv Hne. destruct ids as [|id ids]; [done|]. apply ReadNewBlock_spec; [done..|by eapply linked_length].
Qed.

(** ** Two writers at work on one file

    [session bm0 bm w1 w2]: since [bm0], only [w1] and [w2] have changed the file. *)

Record session bm0 bm w1 w2 : Prop := {
  se_first : MetaBlock_ser_ok (bm, w1);
  se_second : MetaBlock_ser_ok (bm, w2);
  se_disjoint : ∀ id, id ∈ writer_ids w1 → id ∉ writer_ids w2;
  se_base : extends [] bm0 bm;
  se_new : ∀ id, id ∈ writer_ids w1 ∨ id ∈ writer_ids w2 → ¬ allocated bm0 id;
}.

Lemma session_comm bm0 bm w1 w2 : session bm0 bm w1 w2 → session bm0 bm w2 w1.
Proof. intros [H1 H2 Hd Hb Hn]. split; [done..|intros id H2' H1'; by eapply Hd|done|]. intros id [?|?]; apply Hn; auto. Qed.

Lemma session_open bm0 bm1 bm2 w1 w2 fresh1 fresh2 :
  bm_ok bm0 → length fresh1 = BLOCK_SIZE → length fresh2 = BLOCK_SIZE →
  MetaBlockWriter_new fresh1 bm0 = (bm1, w1) → MetaBlockWriter_new fresh2 bm1 = (bm2, w2) →
  session bm0 bm2 w1 w2 ∧ writer_data bm2 w1 = [] ∧ writer_data bm2 w2 = [] ∧ bm_modified_blocks bm2 = bm_modified_blocks bm0.
Proof.
  intros Hbm Hf1 Hf2 H1 H2.
  destruct (MetaBlockWriter_new_spec _ _ _ _ Hbm Hf1 H1) as ((Hbm1 & Hw1 & Hn1) & Hd1 & He1 & Hi1 & Hna1 & _ & Hm1).
  destruct (MetaBlockWriter_new_spec _ _ _ _ Hbm1 Hf2 H2) as ((Hbm2 & Hw2 & Hn2) & Hd2 & He2 & Hi2 & Hna2 & _ & Hm2).
  cbn [fst snd] in *. destruct (writer_ok_extends [] bm1 bm2 w1 Hw1 He2 ltac:(set_solver)) as [Hw1' Hd1'].
  pose proof (wo_allocated _ _ Hw1) as Ha1. rewrite Forall_forall in Ha1.
  split; [|split; [congruence|split; [done|congruence]]]. split.
  - done.
  - done.
  - intros id Hin. rewrite Hi2. intros ->%list_elem_of_singleton. by apply Hna2, Ha1.
  - eapply extends_trans; [exact He1|exact He2|set_solver].
  - rewrite Hi1, Hi2. intros id [->%list_elem_of_singleton| ->%list_elem_of_singleton]; [done|].
    intros Ha. by apply Hna2, (ext_alloc _ _ _ He1).
Qed.

(** A write of the one leaves the data of the other as it is. *)
Lemma session_write bm0 bm w1 w2 b :
  session bm0 bm w1 w2 →
  let s' := MetaBlockWriter_WriteData (bm, w1) b in
  session bm0 s'.1 s'.2 w2 ∧ writer_data s'.1 s'.2 = writer_data bm w1 ++ b ∧ writer_data s'.1 w2 = writer_data bm w2 ∧
  framed (bm, w1) s'.
Proof.
  intros [H1 H2 Hd Hb Hn]. destruct (MetaBlockWriter_WriteData_spec (bm, w1) b H1) as (Hok & Hdata & Hframed). pose proof Hframed as (He & _ & new & Hids & Hnew).
  cbn zeta. destruct (MetaBlockWriter_WriteData (bm, w1) b) as [bm' w1']. cbn [fst snd] in *.
  destruct H2 as (Hbm & Hw2 & Hn2). cbn [fst snd] in *.
  destruct (writer_ok_extends _ bm bm' w2 Hw2 He) as [Hw2' Hd2']. { intros id Hin Hin1. by eapply Hd. }
  pose proof (wo_allocated _ _ Hw2) as Ha2. rewrite Forall_forall in Ha2, Hnew.
  split; [|split; [done|split; [done|exact Hframed]]]. split.
  - done.
  - split; [apply Hok|done].
  - intros id. rewrite Hids, elem_of_app. intros [Hin|Hin]; [by apply Hd|]. intros Hin2. by apply (Hnew id), Ha2.
  - eapply extends_trans; [exact Hb|exact He|]. intros id Hin. right. apply Hn. by left.
  - intros id. rewrite Hids, elem_of_app. intros [[Hin|Hin]|Hin]; [apply Hn; by left| |apply Hn; by right].
    intros Ha. by apply (Hnew id Hin), (ext_alloc _ _ _ Hb).
Qed.

Lemma MetaBlockWriter_Flush_empty s : MetaBlock_ser_ok s → written s = [] → MetaBlockWriter_Flush s = s.
Proof.
  destruct s as [bm w]. intros (_ & Hw & _) He. unfold MetaBlockWriter_Flush. cbn [fst snd] in *.
  destruct (Nat.ltb_spec 8 (mw_offset w)); [|done]. apply (f_equal length) in He. cbn [written MetaBlockWriter_Serializer] in He.
  unfold writer_data in He. pose proof (wo_length _ _ Hw). pose proof (wo_offset _ _ Hw).
  rewrite length_app, length_drop, length_take in He. cbn in He. lia.
Qed.

(** What is left of a writer on the disk. *)
Definition on_disk bm (ids data : list Z) : Prop :=
  NoDup ids ∧ linked bm ids (-1) ∧ Forall (allocated bm) ids ∧ ∃ pad, ids ≫= block_data bm = data ++ pad.

Lemma on_disk_extends own bm bm' ids data :
  on_disk bm ids data → extends own bm bm' → (∀ id, id ∈ ids → id ∉ own) → on_disk bm' ids data.
Proof.
  intros (Hnd & Hl & Ha & pad & Hdata) He Hown. rewrite Forall_forall in Ha.
  assert (∀ id, id ∈ ids → BlockManager_Read bm' id = BlockManager_Read bm id) as Hread.
  { intros id Hin. eapply extends_read; eauto. }
  split_and!; [done|by eapply linked_read| |exists pad; by rewrite (block_data_read bm bm')].
  rewrite Forall_forall. intros id Hin. by eapply ext_alloc; [|apply Ha].
Qed.

Lemma Flush_on_disk s : MetaBlock_ser_ok s → written s ≠ [] →
  on_disk (MetaBlockWriter_Flush s).1 (writer_ids s.2) (written s) ∧ mw_written_blocks (MetaBlockWriter_Flush s).2 = writer_ids s.2.
Proof.
  intros Hok Hne. destruct (MetaBlockWriter_Flush_spec s Hok Hne) as (_ & Hl & Hids & He & Hpad & _). rewrite Hids in *.
  destruct Hok as (_ & Hw & _). pose proof (wo_allocated _ _ Hw) as Ha. split; [|done]. split_and!; [apply Hw|done| |done].
  eapply Forall_impl; [exact Ha|]. intros id. apply (ext_alloc _ _ _ He).
Qed.

(** The end of a session: both writers are flushed. *)
Lemma session_close bm0 bm w1 w2 bm1 bm2 w1' w2' :
  session bm0 bm w1 w2 → MetaBlockWriter_Flush (bm, w1) = (bm1, w1') → MetaBlockWriter_Flush (bm1, w2) = (bm2, w2') →
  bm_ok bm2 ∧ extends [] bm0 bm2 ∧ bm_modified_blocks bm2 = bm_modified_blocks bm ∧
  (∀ id, allocated bm id → id ∉ writer_ids w1 → id ∉ writer_ids w2 → allocated bm2 id ∧ BlockManager_Read bm2 id = BlockManager_Read bm id) ∧
  (writer_data bm w1 ≠ [] → on_disk bm2 (writer_ids w1) (writer_data bm w1) ∧ mw_written_blocks w1' = writer_ids w1) ∧
  (writer_data bm w2 ≠ [] → on_disk bm2 (writer_ids w2) (writer_data bm w2) ∧ mw_written_blocks w2' = writer_ids w2).
Proof.
  intros [H1 H2 Hd Hb Hn] Hf1 Hf2.
  assert (bm_ok bm1 ∧ extends (writer_ids w1) bm bm1 ∧ bm_modified_blocks bm1 = bm_modified_blocks bm) as (Hbm1 & He1 & Hm1).
  { destruct (decide (written (bm, w1) = [])) as [He|Hne].
    - rewrite (MetaBlockWriter_Flush_empty _ H1 He) in Hf1. apply pair_eq in Hf1 as [<- _]. split; [apply H1|split; [apply extends_refl|done]].
    - destruct (MetaBlockWriter_Flush_spec _ H1 Hne) as (Hbm & _ & _ & He & _ & _ & _ & Hm). rewrite Hf1 in *. done. }
  destruct (writer_ok_extends _ _ _ w2 (proj1 (proj2 H2)) He1) as [Hw2 Hd2].
  { intros id Hin Hin1. by eapply Hd. }
  assert (MetaBlock_ser_ok (bm1, w2)) as H2'. { split; [done|]. split; [done|apply H2]. }
  assert (bm_ok bm2 ∧ extends (writer_ids w2) bm1 bm2 ∧ bm_modified_blocks bm2 = bm_modified_blocks bm1) as (Hbm2 & He2 & Hm2).
  { destruct (decide (written (bm1, w2) = [])) as [He|Hne].
    - rewrite (MetaBlockWriter_Flush_empty _ H2' He) in Hf2. apply pair_eq in Hf2 as [<- _]. split; [done|split; [apply extends_refl|done]].
    - destruct (MetaBlockWriter_Flush_spec _ H2' Hne) as (Hbm & _ & _ & He & _ & _ & _ & Hm). rewrite Hf2 in *. done. }
  cbn [fst snd] in *. split_and!.
  - done.
  - eapply extends_trans; [eapply extends_trans; [exact Hb|exact He1|]|exact He2|]; intros id Hin; right; apply Hn; auto.
  - congruence.
  - intros id Ha Hn1 Hn2. pose proof (ext_alloc _ _ _ He1 id Ha) as Ha1. split; [by apply (ext_alloc _ _ _ He2)|].
    rewrite (extends_read _ _ _ _ He2 Ha1 Hn2). by apply (extends_read _ _ _ _ He1).
  - intros Hne. destruct (Flush_on_disk _ H1 Hne) as [Hdisk Hwb]. rewrite Hf1 in *. split; [|done].
    eapply on_disk_extends; [exact Hdisk|exact He2|]. apply Hd.
  - intros Hne. rewrite <-Hd2 in *. destruct (Flush_on_disk _ H2' Hne) as [Hdisk Hwb]. rewrite Hf2 in *. done.
Qed.

Definition read_back bm (id : Z) (n : nat) : res (list Z) :=
  r ← MetaBlockReader_new bm id; '(data, _) ← MetaBlockReader_ReadData bm r n; Ok data.

Lemma linked_read_back bm ids data pad :
  linked bm ids (-1) → NoDup ids → Forall valid_id ids → ids ≠ [] → ids ≫= block_data bm = data ++ pad →
  read_back bm (hd (-1) ids) (length data) = Ok data.
Proof.
  intros Hl Hnd Hv Hne Hdata. destruct (MetaBlockReader_new_spec bm ids Hl Hnd Hv Hne) as (r & Hr & Hok & _ & Hrem).
  unfold read_back. rewrite Hr. cbn [mbind res_bind]. rewrite Hdata in Hrem.
  destruct (@ReadData_enough _ (MetaBlockReader_Deserializer bm) r (length data) Hok) as (r' & Hread & _).
  { cbn [remaining MetaBlockReader_Deserializer]. rewrite Hrem, length_app. lia. }
  cbn [ReadData remaining MetaBlockReader_Deserializer] in Hread. rewrite Hread, Hrem, take_app_length. reflexivity.
Qed.

(** A chain on the disk, read from its first block, gives its data. *)
Lemma on_disk_valid bm ids data : on_disk bm ids data → bm_max_block bm <= 2 ^ 63 → Forall valid_id ids.
Proof. intros (_ & _ & Ha & _) Hmax. eapply Forall_impl; [exact Ha|]. intros id [Hid _]. unfold valid_id. lia. Qed.

Lemma on_disk_read_back bm ids data :
  on_disk bm ids data → ids ≠ [] → bm_max_block bm <= 2 ^ 63 → read_back bm (hd (-1) ids) (length data) = Ok data.
Proof.
  intros Hd Hne Hmax. pose proof (on_disk_valid _ _ _ Hd Hmax) as Hv. destruct Hd as (Hnd & Hl & _ & pad & Hdata).
  by eapply linked_read_back.
Qed.

(** ** Reading back what two interleaved writers wrote *)

Definition write_one (s : SingleFileBlockManager * MetaBlockWriter * MetaBlockWriter) (op : bool * list Z) :
    SingleFileBlockManager * MetaBlockWriter * MetaBlockWriter :=
  let '(bm, w1, w2) := s in
  if op.1 then let '(bm, w1) := MetaBlockWriter_WriteData (bm, w1) op.2 in (bm, w1, w2)
  else let '(bm, w2) := MetaBlockWriter_WriteData (bm, w2) op.2 in (bm, w1, w2).

(** The block manager at the end, and the first block of each writer. *)
Definition two_writers (fresh1 fresh2 : list Z) bm (ops : list (bool * list Z)) : SingleFileBlockManager * Z * Z :=
  let '(bm, w1) := MetaBlockWriter_new fresh1 bm in
  let '(bm, w2) := MetaBlockWriter_new fresh2 bm in
  let id1 := mw_block_id w1 in
  let id2 := mw_block_id w2 in
  let '(bm, w1, w2) := foldl write_one (bm, w1, w2) ops in
  let '(bm, _) := MetaBlockWriter_Flush (bm, w1) in
  let '(bm, _) := MetaBlockWriter_Flush (bm, w2) in
  (bm, id1, id2).

Definition written_by (side : bool) (ops : list (bool * list Z)) : list Z :=
  ops ≫= λ op, if Bool.eqb op.1 side then op.2 else [].

Lemma session_writes bm0 ops bm w1 w2 bm' w1' w2' :
  session bm0 bm w1 w2 → foldl write_one (bm, w1, w2) ops = (bm', w1', w2') →
  session bm0 bm' w1' w2' ∧ writer_data bm' w1' = writer_data bm w1 ++ written_by true ops ∧
  writer_data bm' w2' = writer_data bm w2 ++ written_by false ops ∧
  (∃ new, writer_ids w1' = writer_ids w1 ++ new) ∧ ∃ new, writer_ids w2' = writer_ids w2 ++ new.
Proof.
  revert bm w1 w2. induction ops as [|[[] b] ops IH]; intros bm w1 w2 Hs.
  - intros Heq. apply pair_eq in Heq as [Heq <-]. apply pair_eq in Heq as [<- <-]. unfold written_by. cbn. rewrite !app_nil_r.
    split_and!; [done..| |]; exists []; by rewrite app_nil_r.
  - cbn [foldl write_one fst snd]. pose proof (session_write bm0 bm w1 w2 b Hs) as H. cbn zeta in H.
    destruct (MetaBlockWriter_WriteData (bm, w1) b) as [bm1 w1'']. cbn [fst snd] in H. destruct H as (Hs1 & Hd1 & Hd2 & _ & _ & new & Hn & _). cbn [snd] in Hn.
    intros Heq. destruct (IH _ _ _ Hs1 Heq) as (Hs' & -> & -> & (new' & ->) & Hn2). rewrite Hd1, Hd2, Hn.
    unfold written_by. rewrite !bind_cons. cbn [fst snd Bool.eqb]. rewrite app_nil_l, <-!app_assoc. eauto 6.
  - cbn [foldl write_one fst snd]. pose proof (session_write bm0 bm w2 w1 b (session_comm _ _ _ _ Hs)) as H. cbn zeta in H.
    destruct (MetaBlockWriter_WriteData (bm, w2) b) as [bm1 w2'']. cbn [fst snd] in H. destruct H as (Hs1 & Hd1 & Hd2 & _ & _ & new & Hn & _). cbn [snd] in Hn.
    intros Heq. destruct (IH _ _ _ (session_comm _ _ _ _ Hs1) Heq) as (Hs' & -> & -> & Hn2 & new' & ->). rewrite Hd1, Hd2, Hn.
    unfold written_by. rewrite !bind_cons. cbn [fst snd Bool.eqb]. rewrite app_nil_l, <-!app_assoc. eauto 6.
Qed.

(** C16: whatever two meta block writers write in turns to one database file,
    in pieces of any size and across any number of blocks, is what readers
    that start at their first blocks read after both were flushed, and the
    blocks that were in use before still hold what they held. *)
Theorem interleaved_chains_roundtrip bm fresh1 fresh2 ops :
  bm_ok bm → length fresh1 = BLOCK_SIZE → length fresh2 = BLOCK_SIZE →
  bm_max_block (two_writers fresh1 fresh2 bm ops).1.1 <= 2 ^ 63 →
  let '(bm', id1, id2) := two_writers fresh1 fresh2 bm ops in
  (written_by true ops ≠ [] → read_back bm' id1 (length (written_by true ops)) = Ok (written_by true ops)) ∧
  (written_by false ops ≠ [] → read_back bm' id2 (length (written_by false ops)) = Ok (written_by false ops)) ∧
  ∀ id, allocated bm id → allocated bm' id ∧ BlockManager_Read bm' id = BlockManager_Read bm id.
Proof.
  intros Hbm Hf1 Hf2. unfold two_writers.
  destruct (MetaBlockWriter_new fresh1 bm) as [bm1 w1] eqn:Hn1. destruct (MetaBlockWriter_new fresh2 bm1) as [bm2 w2] eqn:Hn2.
  destruct (session_open _ _ _ _ _ _ _ Hbm Hf1 Hf2 Hn1 Hn2) as (Hs & Hd1 & Hd2 & _).
  destruct (foldl write_one (bm2, w1, w2) ops) as [[bm3 w1'] w2'] eqn:Hw.
  destruct (session_writes _ _ _ _ _ _ _ _ Hs Hw) as (Hs' & Hd1' & Hd2' & (new1 & Hi1) & new2 & Hi2).
  destruct (MetaBlockWriter_Flush (bm3, w1')) as [bm4 w1''] eqn:Hfl1. destruct (MetaBlockWriter_Flush (bm4, w2')) as [bm5 w2''] eqn:Hfl2.
  destruct (session_close _ _ _ _ _ _ _ _ Hs' Hfl1 Hfl2) as (Hbm5 & He & _ & _ & Hdisk1 & Hdisk2). cbn [fst]. intros Hmax.
  destruct (MetaBlockWriter_new_spec _ _ _ _ Hbm Hf1 Hn1) as ((Hbm1 & _) & _ & _ & Hid1 & _).
  destruct (MetaBlockWriter_new_spec _ _ _ _ Hbm1 Hf2 Hn2) as (_ & _ & _ & Hid2 & _).
  rewrite Hi1, Hid1, Hd1', Hd1 in Hdisk1. rewrite Hi2, Hid2, Hd2', Hd2 in Hdisk2. split_and!.
  - intros Hne. by apply (on_disk_read_back _ _ _ (proj1 (Hdisk1 Hne))).
  - intros Hne. by apply (on_disk_read_back _ _ _ (proj1 (Hdisk2 Hne))).
  - intros id Ha. split; [by eapply ext_alloc|]. by apply (extends_read []); [..|apply not_elem_of_nil].
Qed.

Definition empty_file : SingleFileBlockManager := mkBlockManager (mkFileHandle ∅ []) 1 [] ∅ (-1) 0 (-1) 0 false false.

Definition witness_ops : list (bool * list Z) := [(true, [1; 2]); (false, [3]); (true, [4])].

Definition witness_memory : list Z := replicate BLOCK_SIZE 7.

Lemma interleaved_chains_roundtrip_witness :
  read_back (two_writers witness_memory witness_memory empty_file witness_ops).1.1
    (two_writers witness_memory witness_memory empty_file witness_ops).1.2 3 = Ok [1; 2; 4] ∧
  read_back (two_writers witness_memory witness_memory empty_file witness_ops).1.1
    (two_writers witness_memory witness_memory empty_file witness_ops).2 1 = Ok [3].
Proof.
  pose proof (interleaved_chains_roundtrip empty_file witness_memory witness_memory witness_ops) as H.
  destruct (two_writers _ _ _ _) as [[bm' id1] id2] eqn:Heq.
  destruct H as (H1 & H2 & _); [split_and!; [constructor|constructor|done]|apply length_replicate..| |].
  - rewrite <-Heq. clear.
    pose proof BLOCK_SIZE_large. unfold two_writers, MetaBlockWriter_new, empty_file, witness_ops.
    cbn [GetFreeBlockId bm_free_list set_blocks bm_max_block bm_modified_blocks mw_block_id foldl write_one fst snd].
    repeat (rewrite MetaBlockWriter_WriteData_fits by (cbn [MetaBlockWriter_copy mw_offset length]; lia); cbn [write_one fst snd]).
    unfold MetaBlockWriter_Flush, MetaBlockWriter_copy. cbn [mw_offset]. cbn -[witness_memory Z.pow]. lia.
  - split; [by apply H1|by apply H2].
Defined.
