(* ===== verification/DatabaseFile.v ===== *)
(** * The life of the database file: creation, opening, checkpoints, crashes

    Models the constructor, [LoadFreeList] and [WriteHeader] of
    src/src/storage/single_file_block_manager.cpp.  [crashes] says which
    contents the file can have after the process or the machine has stopped.

    Theorems: opening a file finds the header, the root and the free list of the
    last checkpoint; a crash at any point of a checkpoint leaves the previous
    checkpoint or the new one, provided that the free list is not written over
    a block of the previous one; and an ordinary sequence of two checkpoints
    does write it over the root block of the previous one. *)

From S2P Require Import Prelude Serializer BlockManager.

(** ** Creating and opening a file *)

Definition HEADER_1 : Z := Z.of_nat FILE_HEADER_SIZE.
Definition HEADER_2 : Z := Z.of_nat FILE_HEADER_SIZE * 2.

Definition new_main_header : MainHeader := mkMainHeader VERSION_NUMBER (replicate FLAG_COUNT 0).

Definition new_database_header : DatabaseHeader := mkDatabaseHeader 0 INVALID_BLOCK INVALID_BLOCK 0.

(** The constructor with [create_new]; it leaves [meta_block] and
    [free_list_id] as they are in memory, here [garbage]. *)
Definition SingleFileBlockManager_create (garbage : Z * Z) (use_direct_io : bool) : SingleFileBlockManager :=
  let handle := mkFileHandle ∅ [] in
  let buffer := SerializeHeaderStructure MainHeader_Serialize new_main_header header_buffer in
  let handle := FileBuffer_Write buffer handle 0 in
  let buffer := SerializeHeaderStructure DatabaseHeader_Serialize new_database_header header_buffer in
  let handle := FileBuffer_Write buffer handle HEADER_1 in
  let buffer := SerializeHeaderStructure DatabaseHeader_Serialize new_database_header buffer in
  let handle := FileBuffer_Write buffer handle HEADER_2 in
  mkBlockManager (handle_Sync handle) 1 [] ∅ garbage.1 0 garbage.2 0 false use_direct_io.

(** The constructor for an existing file. *)
Definition SingleFileBlockManager_open (content : gmap Z (list Z)) (read_only use_direct_io : bool) : res SingleFileBlockManager :=
  let handle := mkFileHandle content [] in
  buffer ← FileBuffer_Read handle 0;
  header ← DeserializeHeaderStructure MainHeader_Deserialize buffer;
  if negb (version_number header =? VERSION_NUMBER) then
    Throw (IOException "Trying to read a database file with version number %lld, but we can only read version %lld.")
  else
    buffer ← FileBuffer_Read handle HEADER_1;
    h1 ← DeserializeHeaderStructure DatabaseHeader_Deserialize buffer;
    buffer ← FileBuffer_Read handle HEADER_2;
    h2 ← DeserializeHeaderStructure DatabaseHeader_Deserialize buffer;
    Ok (if iteration h2 <? iteration h1 then BlockManager_Initialize handle 0 h1 read_only use_direct_io
        else BlockManager_Initialize handle 1 h2 read_only use_direct_io).

(** [LoadFreeList]; the blocks that the reader visits become modified. *)
Definition LoadFreeList (bm : SingleFileBlockManager) : res SingleFileBlockManager :=
  if bm_read_only bm then Ok bm
  else if bm_free_list_id bm =? INVALID_BLOCK then Ok bm
  else
    let source := MetaBlockReader_Deserializer bm in
    reader ← MetaBlockReader_new bm (bm_free_list_id bm);
    '(free_list_count, reader) ← Read 8 reader;
    '(ids, reader) ← Read_times (Z.to_nat free_list_count) ReadBlockId reader;
    Ok (set_blocks (foldl (λ l id, set_insert id l) [] ids)
          (list_to_set (mr_read_blocks reader) ∪ bm_modified_blocks bm) (bm_max_block bm) bm).

(** ** [WriteHeader] *)

Implicit Types (bm : SingleFileBlockManager).

(** All modified blocks can be written to again. *)
Definition free_modified_blocks bm : SingleFileBlockManager :=
  set_blocks (foldr set_insert (bm_free_list bm) (elements (bm_modified_blocks bm))) ∅ (bm_max_block bm) bm.

(** The writing of the free list.  The loop runs over the list as it is after
    the first block was taken from it: [GetFreeBlockId] only takes ids that the
    loop has passed. *)
Definition WriteFreeList (fresh : list Z) bm : SingleFileBlockManager * MetaBlockWriter * Z :=
  let '(bm, writer) := MetaBlockWriter_new fresh bm in
  let id := mw_block_id writer in
  let bm := set_blocks (set_erase id (bm_free_list bm)) ({[id]} ∪ bm_modified_blocks bm) (bm_max_block bm) bm in
  let free_list := bm_free_list bm in
  let s := Write 8 (bm, writer) (Z.of_nat (length free_list)) in
  (MetaBlockWriter_Flush (foldl (Write 8) s free_list), id).

(** The free list's part of the header. *)
Definition WriteHeader_free_list (fresh : list Z) bm : SingleFileBlockManager * Z :=
  match bm_free_list bm with
  | [] => (bm, INVALID_BLOCK)
  | _ :: _ => let '(bm, _, id) := WriteFreeList fresh bm in (bm, id)
  end.

Definition set_header (active iteration : Z) bm : SingleFileBlockManager :=
  mkBlockManager (bm_handle bm) active (bm_free_list bm) (bm_modified_blocks bm) (bm_meta_block bm)
    (bm_max_block bm) (bm_free_list_id bm) iteration (bm_read_only bm) (bm_use_direct_io bm).

(** Where the next header goes. *)
Definition next_header_location bm : Z := if bm_active_header bm =? 1 then HEADER_1 else HEADER_2.

Definition WriteHeader (fresh : list Z) (meta_block : Z) bm : SingleFileBlockManager :=
  let iteration := u64 (bm_iteration_count bm + 1) in
  let block_count := bm_max_block bm in
  let bm := set_header (bm_active_header bm) iteration bm in
  let '(bm, free_list) := WriteHeader_free_list fresh (free_modified_blocks bm) in
  let bm := if bm_use_direct_io bm then bm else set_handle (handle_Sync (bm_handle bm)) bm in
  let buffer := Store_DatabaseHeader (mkDatabaseHeader iteration meta_block free_list block_count) header_buffer in
  let bm := set_handle (FileBuffer_Write buffer (bm_handle bm) (next_header_location bm)) bm in
  let bm := set_header (1 - bm_active_header bm) iteration bm in
  set_handle (handle_Sync (bm_handle bm)) bm.

(** ** Crashes

    Writes become durable when the file is synced, with direct I/O when they
    return.  A header is written completely or not at all (it lies in one
    4 KB sector); a block that was being written can hold anything. *)

Definition crashes (use_direct_io : bool) (before : gmap Z (list Z)) (ops : list FileOp) (after : gmap Z (list Z)) : Prop :=
  ∃ durable pending rest, ops = durable ++ pending ++ rest ∧ SyncFile ∉ pending ∧
    (if use_direct_io then (length pending <= 1)%nat else durable = [] ∨ last durable = Some SyncFile) ∧
    ∀ location, after !! location = foldl apply_op before durable !! location ∨
      ∃ bytes, WriteAt location bytes ∈ pending ∧ (after !! location = Some bytes ∨ BLOCK_START <= location).

(** ** Lemmas: headers *)

Section header_codecs.
Context {D : Type} `{!Deserializer D}.

Lemma decodes_ReadBlockId id : - 2 ^ 63 <= id < 2 ^ 63 → decodes (λ d : D, ReadBlockId d) (le_encode 8 id) id.
Proof. apply decodes_ReadInt64. Qed.

Definition header_valid (h : DatabaseHeader) : Prop :=
  inU 64 (iteration h) ∧ inS 64 (meta_block h) ∧ inS 64 (free_list h) ∧ inU 64 (block_count h).

Definition header_bytes (h : DatabaseHeader) : list Z :=
  le_encode 8 (iteration h) ++ le_encode 8 (meta_block h) ++ le_encode 8 (free_list h) ++ le_encode 8 (block_count h).

Lemma decodes_DatabaseHeader h : header_valid h → decodes (λ d : D, DatabaseHeader_Deserialize d) (header_bytes h) h.
Proof.
  intros (Hi & Hm & Hf & Hb). destruct h as [i m f b]. unfold header_bytes. cbn [iteration meta_block free_list block_count] in *.
  rewrite <-(app_nil_r (le_encode 8 b)).
  apply decodes_bind with i; [by apply decodes_Read|]. apply decodes_bind with m; [by apply decodes_ReadBlockId|].
  apply decodes_bind with f; [by apply decodes_ReadBlockId|]. apply decodes_bind with b; [by apply decodes_Read|]. apply decodes_ret.
Qed.
End header_codecs.

Lemma length_header_bytes h : length (header_bytes h) = 32%nat.
Proof. unfold header_bytes. by rewrite !length_app, !length_le_encode. Qed.

Lemma DeserializeHeaderStructure_DatabaseHeader h rest :
  header_valid h → DeserializeHeaderStructure DatabaseHeader_Deserialize (header_bytes h ++ rest) = Ok h.
Proof.
  intros Hv. unfold DeserializeHeaderStructure.
  destruct (decodes_DatabaseHeader h Hv (BufferedDeserializer_new (header_bytes h ++ rest)) rest) as (d & -> & _); [|cbn|done].
  - split; cbn; lia.
  - by rewrite firstn_all.
Qed.

Lemma Store_DatabaseHeader_bytes h : Store_DatabaseHeader h header_buffer = header_bytes h ++ drop 32 header_buffer.
Proof. unfold Store_DatabaseHeader, memcpy_at. fold (header_bytes h). by rewrite length_header_bytes. Qed.

Lemma written_DatabaseHeader h : written (DatabaseHeader_Serialize (BufferedSerializer_new FILE_HEADER_SIZE) h) = header_bytes h.
Proof.
  assert (ser_ok (BufferedSerializer_new FILE_HEADER_SIZE)) as Hok.
  { split_and!; cbn; [pose proof FILE_HEADER_SIZE_large; lia|apply length_replicate|lia]. }
  unfold DatabaseHeader_Serialize, Write. repeat rewrite WriteData_written by (repeat apply WriteData_ok; done).
  cbn [written BufferedSerializer_Serializer BufferedSerializer_new bs_size]. rewrite take_0. unfold header_bytes. by rewrite <-!app_assoc.
Qed.

(** Both ways of writing a header give the same bytes. *)
Lemma SerializeHeaderStructure_Store h buffer :
  SerializeHeaderStructure DatabaseHeader_Serialize h buffer = Store_DatabaseHeader h buffer.
Proof. unfold SerializeHeaderStructure, Store_DatabaseHeader. by rewrite written_DatabaseHeader. Qed.

Definition main_header_bytes : list Z := MAGIC_BYTES ++ le_encode 8 VERSION_NUMBER ++ replicate 32 0.

Lemma written_MainHeader : written (MainHeader_Serialize (BufferedSerializer_new FILE_HEADER_SIZE) new_main_header) = main_header_bytes.
Proof.
  assert (ser_ok (BufferedSerializer_new FILE_HEADER_SIZE)) as Hok.
  { split_and!; cbn; [pose proof FILE_HEADER_SIZE_large; lia|apply length_replicate|lia]. }
  unfold MainHeader_Serialize, new_main_header. cbn [version_number flags FLAG_COUNT replicate foldl]. unfold Write.
  repeat rewrite WriteData_written by (repeat apply WriteData_ok; done).
  cbn [written BufferedSerializer_Serializer BufferedSerializer_new bs_size]. rewrite take_0. reflexivity.
Qed.

Lemma DeserializeHeaderStructure_MainHeader rest :
  DeserializeHeaderStructure MainHeader_Deserialize (main_header_bytes ++ rest) = Ok new_main_header.
Proof.
  unfold DeserializeHeaderStructure.
  assert (decodes (λ d : BufferedDeserializer, MainHeader_Deserialize d) main_header_bytes new_main_header) as Hdec.
  { unfold main_header_bytes. apply (decodes_bind (λ d, ReadData d 4) _ MAGIC_BYTES _ MAGIC_BYTES).
    { apply (decodes_ReadData MAGIC_BYTES). }
    rewrite bool_decide_eq_true_2 by done. cbn [negb]. apply decodes_bind with VERSION_NUMBER; [by apply decodes_Read|].
    rewrite <-(app_nil_r (replicate 32 0)). apply decodes_bind with (replicate FLAG_COUNT 0); [|apply decodes_ret].
    apply (decodes_times (Read 8) (λ _, le_encode 8 0) (replicate FLAG_COUNT 0)).
    repeat constructor; by apply decodes_Read. }
  destruct (Hdec (BufferedDeserializer_new (main_header_bytes ++ rest)) rest) as (d & -> & _); [split; cbn; lia| |done].
  cbn [remaining BufferedDeserializer_Deserializer BufferedDeserializer_new bd_ptr bd_endptr bd_data]. by rewrite firstn_all, drop_0.
Qed.

(** ** The headers of a file *)

Definition region (buffer : list Z) : list Z := le_encode BLOCK_HEADER_SIZE (Checksum buffer) ++ buffer.

Definition main_header_at (content : gmap Z (list Z)) : Prop :=
  ∃ rest, content !! 0 = Some (region (main_header_bytes ++ rest)).

Definition header_at (content : gmap Z (list Z)) (location : Z) (h : DatabaseHeader) : Prop :=
  header_valid h ∧ ∃ rest, content !! location = Some (region (header_bytes h ++ rest)).

Lemma FileBuffer_Read_region content trace location buffer :
  content !! location = Some (region buffer) → FileBuffer_Read (mkFileHandle content trace) location = Ok buffer.
Proof.
  intros Hl. rewrite <-(FileBuffer_Read_Write buffer (mkFileHandle content trace) location).
  unfold FileBuffer_Read, FileBuffer_Write, handle_Write. cbn [fh_content]. by rewrite Hl, lookup_insert_eq.
Qed.

(** The header with the higher iteration is taken, the second one of two equal ones. *)
Lemma open_spec content h1 h2 read_only use_direct_io :
  main_header_at content → header_at content HEADER_1 h1 → header_at content HEADER_2 h2 →
  SingleFileBlockManager_open content read_only use_direct_io =
    Ok (if iteration h2 <? iteration h1 then BlockManager_Initialize (mkFileHandle content []) 0 h1 read_only use_direct_io
        else BlockManager_Initialize (mkFileHandle content []) 1 h2 read_only use_direct_io).
Proof.
  intros (r0 & H0) (Hv1 & r1 & H1) (Hv2 & r2 & H2). unfold SingleFileBlockManager_open.
  rewrite (FileBuffer_Read_region _ _ _ _ H0). cbn [mbind res_bind]. rewrite DeserializeHeaderStructure_MainHeader.
  cbn [mbind res_bind version_number new_main_header]. rewrite Z.eqb_refl. cbn [negb].
  rewrite (FileBuffer_Read_region _ _ _ _ H1). cbn [mbind res_bind]. rewrite DeserializeHeaderStructure_DatabaseHeader by done.
  cbn [mbind res_bind]. rewrite (FileBuffer_Read_region _ _ _ _ H2). cbn [mbind res_bind].
  by rewrite DeserializeHeaderStructure_DatabaseHeader by done.
Qed.

(** [opened bm h other]: the file that [bm] works on has the active header [h]. *)
Record opened bm (h other : DatabaseHeader) : Prop := {
  op_main : main_header_at (fh_content (bm_handle bm));
  op_active : bm_active_header bm = 0 ∧ header_at (fh_content (bm_handle bm)) HEADER_1 h ∧
      header_at (fh_content (bm_handle bm)) HEADER_2 other ∧ iteration other < iteration h ∨
    bm_active_header bm = 1 ∧ header_at (fh_content (bm_handle bm)) HEADER_2 h ∧
      header_at (fh_content (bm_handle bm)) HEADER_1 other ∧ iteration other <= iteration h;
  op_iteration : bm_iteration_count bm = iteration h;
}.

Lemma header_locations : 0 < HEADER_1 < HEADER_2 ∧ HEADER_2 < BLOCK_START.
Proof. unfold HEADER_1, HEADER_2, BLOCK_START. pose proof FILE_HEADER_SIZE_large. lia. Qed.

Lemma SingleFileBlockManager_create_opened garbage use_direct_io :
  opened (SingleFileBlockManager_create garbage use_direct_io) new_database_header new_database_header ∧
  bm_ok (SingleFileBlockManager_create garbage use_direct_io).
Proof.
  pose proof header_locations as Hl. split; [|by split_and!; [constructor..|]]. unfold SingleFileBlockManager_create.
  rewrite !SerializeHeaderStructure_Store. split; cbn [bm_handle handle_Sync FileBuffer_Write handle_Write fh_content bm_active_header bm_iteration_count].
  - unfold main_header_at, SerializeHeaderStructure, memcpy_at. rewrite written_MainHeader. eexists.
    rewrite !lookup_insert_ne, lookup_insert_eq by lia. reflexivity.
  - right. split; [done|]. assert (header_valid new_database_header) as Hv by (by repeat split).
    assert (∀ l : list Z, Store_DatabaseHeader new_database_header l = header_bytes new_database_header ++ drop 32 l) as Hs.
    { intros l. unfold Store_DatabaseHeader, memcpy_at. fold (header_bytes new_database_header). by rewrite length_header_bytes. }
    rewrite !Hs. split; [|split; [|done]]; (split; [done|]; eexists).
    + by rewrite lookup_insert_eq.
    + by rewrite lookup_insert_ne, lookup_insert_eq by lia.
  - done.
Qed.

Lemma opened_open bm h other read_only use_direct_io :
  opened bm h other →
  SingleFileBlockManager_open (fh_content (bm_handle bm)) read_only use_direct_io =
    Ok (BlockManager_Initialize (mkFileHandle (fh_content (bm_handle bm)) []) (bm_active_header bm) h read_only use_direct_io).
Proof.
  intros [Hm [(-> & H1 & H2 & Hi)|(-> & H2 & H1 & Hi)] _]; rewrite (open_spec _ _ _ _ _ Hm H1 H2); f_equal; bools; done || lia.
Qed.

(** ** Lemmas: writing the free list *)

Lemma foldl_Write_spec (s : SingleFileBlockManager * MetaBlockWriter) l :
  MetaBlock_ser_ok s →
  MetaBlock_ser_ok (foldl (Write 8) s l) ∧ written (foldl (Write 8) s l) = written s ++ (l ≫= le_encode 8) ∧
  framed s (foldl (Write 8) s l).
Proof.
  revert s. induction l as [|z l IH]; intros s Hs; cbn [foldl].
  - rewrite app_nil_r. split; [exact Hs|]. split; [done|apply framed_refl].
  - destruct (MetaBlockWriter_WriteData_spec s (le_encode 8 z) Hs) as (Hs1 & Hw1 & Hf1).
    destruct (IH (MetaBlockWriter_WriteData s (le_encode 8 z)) Hs1) as (Hs2 & Hw2 & Hf2). split; [done|]. split; [|by eapply framed_trans].
    etransitivity; [exact Hw2|]. rewrite bind_cons, app_assoc. f_equal. exact Hw1.
Qed.

Lemma foldl_Write_fits bm w l :
  (mw_offset w + 8 * length l <= BLOCK_SIZE)%nat →
  ∃ w', foldl (Write 8) (bm, w) l = (bm, w') ∧ mw_offset w' = (mw_offset w + 8 * length l)%nat ∧ mw_block_id w' = mw_block_id w.
Proof.
  revert w. induction l as [|z l IH]; intros w Hle; cbn [foldl length] in *.
  - exists w. split_and!; [done|lia|done].
  - assert (Write 8 (bm, w) z = (bm, MetaBlockWriter_copy (le_encode 8 z) w)) as ->.
    { apply MetaBlockWriter_WriteData_fits. rewrite length_le_encode. lia. }
    destruct (IH (MetaBlockWriter_copy (le_encode 8 z) w)) as (w' & -> & Ho & Hi).
    { cbn [MetaBlockWriter_copy mw_offset]. rewrite length_le_encode. lia. }
    exists w'. split; [done|]. rewrite Ho, Hi. cbn [MetaBlockWriter_copy mw_offset mw_block_id]. rewrite length_le_encode. split; [lia|done].
Qed.

Lemma extends_mark own modified bm : extends own bm (set_blocks (bm_free_list bm) modified (bm_max_block bm) bm).
Proof. split; [exists []; rewrite app_nil_r; done|done|by destruct bm|done]. Qed.

Lemma set_erase_notin x l : x ∉ l → set_erase x l = l.
Proof.
  induction l as [|y l IH]; [done|]. intros [Hne Hni]%not_elem_of_cons. unfold set_erase. cbn.
  destruct (Z.eqb_spec y x); [congruence|]. cbn. f_equal. by apply IH.
Qed.

Lemma set_erase_head x l : StronglySorted Z.lt (x :: l) → set_erase x (x :: l) = l.
Proof.
  intros [Hs Hx]%StronglySorted_inv. unfold set_erase. cbn. rewrite Z.eqb_refl. cbn. apply set_erase_notin.
  rewrite Forall_forall in Hx. intros Hin. specialize (Hx _ Hin). lia.
Qed.

Definition free_list_bytes (l : list Z) : list Z := le_encode 8 (Z.of_nat (length l)) ++ (l ≫= le_encode 8).

Lemma WriteFreeList_start fresh bm id l :
  bm_ok bm → length fresh = BLOCK_SIZE → bm_free_list bm = id :: l →
  ∃ bm1 w, MetaBlock_ser_ok (bm1, w) ∧ written (bm1, w) = [] ∧ writer_ids w = [id] ∧ mw_offset w = 8%nat ∧ extends [] bm bm1 ∧
    bm_handle bm1 = bm_handle bm ∧ bm_free_list bm1 = l ∧ bm_max_block bm1 = bm_max_block bm ∧
    WriteFreeList fresh bm = (MetaBlockWriter_Flush (foldl (Write 8) (bm1, w) (Z.of_nat (length l) :: l)), id).
Proof.
  intros Hbm Hf Hl. unfold WriteFreeList. destruct (MetaBlockWriter_new fresh bm) as [bm1 w] eqn:Hnew.
  destruct (MetaBlockWriter_new_spec _ _ _ _ Hbm Hf Hnew) as ((Hbm1 & Hw & Hn) & Hd & He & Hids & Hna & Hfl & _).
  unfold MetaBlockWriter_new, GetFreeBlockId in Hnew. rewrite Hl in Hnew. apply pair_eq in Hnew as [Hbm1eq Hweq].
  assert (mw_block_id w = id) as Hid by (by rewrite <-Hweq). assert (bm_handle bm1 = bm_handle bm) as Hh by (by rewrite <-Hbm1eq).
  assert (bm_max_block bm1 = bm_max_block bm) as Hmx by (by rewrite <-Hbm1eq).
  assert (mw_offset w = 8%nat) as Ho by (by rewrite <-Hweq). clear Hweq Hbm1eq. rewrite Hid in *.
  assert (bm_free_list bm1 = l) as Hfl1. { rewrite Hfl, Hl. apply set_erase_head. rewrite <-Hl. apply Hbm. }
  assert (set_erase id (bm_free_list bm1) = bm_free_list bm1) as Her.
  { apply set_erase_notin. rewrite Hfl, elem_of_set_erase. tauto. }
  rewrite Her. set (bm2 := set_blocks _ _ _ _). exists bm2, w. cbn [fst snd] in *.
  pose proof (extends_mark [] ({[id]} ∪ bm_modified_blocks bm1) bm1) as He2. fold bm2 in He2.
  destruct (writer_ok_extends [] bm1 bm2 w Hw He2) as [Hw2 Hd2]; [set_solver|].
  split; [done|]. split; [cbn [written MetaBlockWriter_Serializer fst snd]; congruence|]. split; [done|]. split; [exact Ho|].
  split; [eapply extends_trans; [exact He|exact He2|set_solver]|]. split; [exact Hh|]. split; [exact Hfl1|]. split; [exact Hmx|].
  assert (bm_free_list bm2 = l) as -> by exact Hfl1. done.
Qed.

Lemma WriteFreeList_spec fresh bm id l :
  bm_ok bm → length fresh = BLOCK_SIZE → bm_free_list bm = id :: l →
  ∃ bm' w, WriteFreeList fresh bm = (bm', w, id) ∧ bm_ok bm' ∧ extends [] bm bm' ∧
    (∃ ids, on_disk bm' (id :: ids) (free_list_bytes l)) ∧
    ((16 + 8 * length l <= BLOCK_SIZE)%nat →
      bm_free_list bm' = l ∧ bm_max_block bm' = bm_max_block bm ∧ ∃ bytes, bm_handle bm' = handle_Write (bm_handle bm) bytes (block_location id)).
Proof.
  intros Hbm Hf Hl. destruct (WriteFreeList_start fresh bm id l Hbm Hf Hl) as (bm1 & w & Hok & Hw & Hids & Ho & He & Hh & Hfl & Hmx & ->).
  destruct (foldl_Write_spec (bm1, w) (Z.of_nat (length l) :: l) Hok) as (Hok2 & Hw2 & He2 & _ & new & Hn2 & Hnew2).
  pose proof (foldl_Write_fits bm1 w (Z.of_nat (length l) :: l)) as Hfits.
  destruct (foldl (Write 8) (bm1, w) _) as [bm2 w2]. rewrite Hw, app_nil_l in Hw2. cbn [fst snd] in *.
  assert (written (bm2, w2) ≠ []) as Hne by (rewrite Hw2; done).
  pose proof (MetaBlockWriter_Flush_spec _ Hok2 Hne) as Hflush. destruct (Flush_on_disk _ Hok2 Hne) as [Hdisk Hwb].
  cbn zeta in Hflush. destruct (MetaBlockWriter_Flush (bm2, w2)) as [bm3 w3] eqn:Hfe. cbn [fst snd] in *.
  destruct Hflush as (Hbm3 & Hl3 & _ & He3 & _ & Hfl3 & Hmx3 & _). exists bm3, w3. split; [done|]. split; [done|].
  destruct (WriteFreeList_start fresh bm id l Hbm Hf Hl) as (_ & _ & _).
  assert (¬ allocated bm id) as Hna by (unfold allocated; rewrite Hl; intros [_ H]; apply H; by left).
  split_and!.
  - eapply extends_trans; [eapply extends_trans; [exact He|exact He2|]|exact He3|].
    + rewrite Hids. intros i ->%list_elem_of_singleton. by right.
    + rewrite Hn2, Hids. intros i [->%list_elem_of_singleton|Hin]%elem_of_app; [by right|]. right. intros Ha.
      rewrite Forall_forall in Hnew2. by apply (Hnew2 i Hin), (ext_alloc _ _ _ He).
  - exists new. rewrite Hn2, Hids, Hw2 in Hdisk. exact Hdisk.
  - intros Hle. destruct Hfits as (w' & Heq & Ho' & Hid'). { rewrite Ho. cbn [length]. lia. }
    apply pair_eq in Heq as [-> ->]. split; [congruence|]. split; [congruence|]. unfold MetaBlockWriter_Flush in Hfe.
    destruct (Nat.ltb_spec 8 (mw_offset w')); [|rewrite Ho', Ho in *; cbn [length] in *; lia].
    apply pair_eq in Hfe as [<- _]. rewrite Hid'. assert (mw_block_id w = id) as ->.
    { unfold writer_ids in Hids. destruct (mw_written_blocks w) as [|? []]; cbn in Hids; congruence. }
    cbn [bm_handle BlockManager_Write set_handle]. rewrite Hh. eexists. reflexivity.
Qed.

(** ** Lemmas: [WriteHeader] *)

Lemma free_modified_blocks_spec bm id : id ∈ bm_free_list (free_modified_blocks bm) ↔ id ∈ bm_modified_blocks bm ∨ id ∈ bm_free_list bm.
Proof.
  cbn. rewrite <-elem_of_elements. induction (elements (bm_modified_blocks bm)) as [|x l IH]; cbn [foldr].
  - rewrite elem_of_nil. tauto.
  - rewrite elem_of_set_insert, elem_of_cons, IH. tauto.
Qed.

(** The modified blocks are blocks of the file. *)
Definition modified_ok bm : Prop := ∀ id, id ∈ bm_modified_blocks bm → 0 <= id < bm_max_block bm.

Lemma free_modified_blocks_ok bm : bm_ok bm → modified_ok bm → bm_ok (free_modified_blocks bm).
Proof.
  intros (Hs & Hf & Hm) Hmod. split_and!.
  - cbn. clear -Hs. induction (elements (bm_modified_blocks bm)) as [|x l IH]; [done|]. by apply sorted_set_insert.
  - rewrite Forall_forall in *. intros id [Hin|Hin]%free_modified_blocks_spec; [by apply Hmod|by apply Hf].
  - done.
Qed.

(** [bm] when [WriteHeader] comes to the free list. *)
Definition WriteHeader_start bm : SingleFileBlockManager :=
  set_header (bm_active_header bm) (u64 (bm_iteration_count bm + 1)) (free_modified_blocks bm).

Lemma WriteHeader_start_ok bm : bm_ok bm → modified_ok bm → bm_ok (WriteHeader_start bm).
Proof. apply free_modified_blocks_ok. Qed.

(** What [WriteHeader] does: the free list is written to blocks that are free
    now, everything is synced, the header is written and synced. *)
Lemma WriteHeader_spec fresh meta bm :
  bm_ok bm → modified_ok bm → length fresh = BLOCK_SIZE →
  ∃ bm2 free_id, bm_ok bm2 ∧ extends [] (WriteHeader_start bm) bm2 ∧
    (let header := mkDatabaseHeader (u64 (bm_iteration_count bm + 1)) meta free_id (bm_max_block bm) in
    let bytes := region (Store_DatabaseHeader header header_buffer) in
    let handle := if bm_use_direct_io bm then bm_handle bm2 else handle_Sync (bm_handle bm2) in
    WriteHeader fresh meta bm =
      set_handle (handle_Sync (handle_Write handle bytes (next_header_location bm)))
        (set_header (1 - bm_active_header bm) (iteration header) bm2)) ∧
    match bm_free_list (WriteHeader_start bm) with
    | [] => free_id = INVALID_BLOCK ∧ bm2 = WriteHeader_start bm
    | id :: l => free_id = id ∧ (∃ ids, on_disk bm2 (id :: ids) (free_list_bytes l)) ∧
        ((16 + 8 * length l <= BLOCK_SIZE)%nat → bm_free_list bm2 = l ∧ bm_max_block bm2 = bm_max_block bm ∧
          ∃ bytes, bm_handle bm2 = handle_Write (bm_handle bm) bytes (block_location id))
    end.
Proof.
  intros Hbm Hmod Hf. pose proof (WriteHeader_start_ok bm Hbm Hmod) as Hbm1. unfold WriteHeader.
  change (free_modified_blocks (set_header _ _ bm)) with (WriteHeader_start bm). unfold WriteHeader_free_list.
  destruct (bm_free_list (WriteHeader_start bm)) as [|id l] eqn:Hfl.
  - exists (WriteHeader_start bm), INVALID_BLOCK. split; [done|]. split; [apply extends_refl|]. split; [|done].
    unfold WriteHeader_start. cbn. by destruct (bm_use_direct_io bm).
  - destruct (WriteFreeList_spec fresh _ id l Hbm1 Hf Hfl) as (bm2 & w & -> & Hbm2 & He & Hdisk & Hone).
    exists bm2, id. split; [done|]. split; [done|]. split; [|done].
    pose proof (ext_same _ _ _ He) as Hsame. rewrite Hsame. unfold WriteHeader_start. cbn. by destruct (bm_use_direct_io bm).
Qed.

(** ** Lemmas: the headers while the file changes *)

Lemma header_location_not_block location id : location < BLOCK_START → 0 <= id → location ≠ block_location id.
Proof. intros Hl Hid ->. pose proof (block_location_ge id Hid). lia. Qed.

(** Only the content at the three header locations matters. *)
Lemma opened_content bm bm' h other :
  opened bm h other → bm_active_header bm' = bm_active_header bm → bm_iteration_count bm' = bm_iteration_count bm →
  (∀ location, location < BLOCK_START → fh_content (bm_handle bm') !! location = fh_content (bm_handle bm) !! location) →
  opened bm' h other.
Proof.
  intros [Hm Ha Hi] Heqa Heqi Hc. pose proof header_locations. unfold main_header_at, header_at in *.
  split; [|rewrite Heqa|congruence]; unfold main_header_at, header_at; rewrite !Hc by lia; done.
Qed.

Lemma extends_headers own bm bm' location :
  extends own bm bm' → location < BLOCK_START → fh_content (bm_handle bm') !! location = fh_content (bm_handle bm) !! location.
Proof.
  intros He Hl. apply (extends_content own); [done|]. intros id Hid ->. pose proof (block_location_ge id Hid). lia.
Qed.

Lemma opened_extends own bm bm' h other : opened bm h other → extends own bm bm' → opened bm' h other.
Proof.
  intros Ho He. eapply opened_content; [exact Ho| | |intros; by eapply extends_headers]; by rewrite (ext_same _ _ _ He).
Qed.

Lemma header_at_stored content location h :
  header_valid h → content !! location = Some (region (Store_DatabaseHeader h header_buffer)) → header_at content location h.
Proof. intros Hv Hc. split; [done|]. rewrite Store_DatabaseHeader_bytes in Hc. eauto. Qed.

(** The header that [WriteHeader] writes. *)
Definition written_header (meta free_id : Z) bm : DatabaseHeader :=
  mkDatabaseHeader (u64 (bm_iteration_count bm + 1)) meta free_id (bm_max_block bm).

(** The id that it writes for the free list. *)
Definition free_list_block bm : Z := hd INVALID_BLOCK (bm_free_list (WriteHeader_start bm)).

Lemma written_header_valid meta bm :
  bm_ok bm → modified_ok bm → inS 64 meta → bm_max_block bm <= 2 ^ 63 → header_valid (written_header meta (free_list_block bm) bm).
Proof.
  intros Hbm Hmod Hm Hmax. destruct (WriteHeader_start_ok bm Hbm Hmod) as (_ & Hf & _).
  assert (inS 64 (free_list_block bm)) as Hfl.
  { unfold free_list_block. destruct Hf as [|id l Hid _]; cbn in *; unfold inS, INVALID_BLOCK; lia. }
  destruct Hbm as (_ & _ & H0). split_and!; [apply (wrapU_range 64); lia|apply Hm|apply Hfl|..].
  cbn. unfold inU. lia.
Qed.


(** After [WriteHeader] the new header is the active one. *)
Lemma WriteHeader_opened fresh meta bm h other :
  bm_ok bm → modified_ok bm → length fresh = BLOCK_SIZE → opened bm h other →
  inS 64 meta → bm_max_block bm <= 2 ^ 63 → iteration h + 1 < 2 ^ 64 →
  opened (WriteHeader fresh meta bm) (written_header meta (free_list_block bm) bm) h ∧
  bm_active_header (WriteHeader fresh meta bm) = 1 - bm_active_header bm.
Proof.
  intros Hbm Hmod Hf Ho Hmeta Hmax Hit. pose proof (written_header_valid meta bm Hbm Hmod Hmeta Hmax) as Hv.
  destruct (WriteHeader_spec fresh meta bm Hbm Hmod Hf) as (bm2 & free_id & Hbm2 & He & Heq & Hcase).
  assert (free_id = free_list_block bm) as ->.
  { unfold free_list_block. destruct (bm_free_list (WriteHeader_start bm)); by destruct Hcase as [-> _]. }
  cbn zeta in Heq. fold (written_header meta (free_list_block bm) bm) in Heq. set (header := written_header _ _ bm) in *. rewrite Heq. split; [|done].
  pose proof (op_iteration _ _ _ Ho) as Hic.
  assert (iteration header = iteration h + 1) as Hin.
  { unfold header, written_header. cbn [iteration]. rewrite Hic. apply wrapU_small.
    assert (0 <= iteration h) by (destruct Ho as [_ [(_ & [[Hi _] _] & _)|(_ & [[Hi _] _] & _)] _]; unfold inU in Hi; lia). split; lia. }
  assert (∀ location, location < BLOCK_START →
    fh_content (bm_handle bm2) !! location = fh_content (bm_handle bm) !! location) as Hc.
  { intros location Hl. by rewrite (extends_headers _ _ _ _ He Hl). }
  assert (∀ location, fh_content (if bm_use_direct_io bm then bm_handle bm2 else handle_Sync (bm_handle bm2)) !! location =
    fh_content (bm_handle bm2) !! location) as Hc' by (intros; by destruct (bm_use_direct_io bm)).
  destruct Ho as [(rest & Hm) Ha _]. pose proof header_locations as Hlocs.
  split; cbn [bm_handle set_handle handle_Sync handle_Write fh_content bm_active_header set_header bm_iteration_count].
  - unfold main_header_at. exists rest. assert (next_header_location bm = HEADER_1 ∨ next_header_location bm = HEADER_2).
    { unfold next_header_location. destruct (_ =? _); auto. }
    rewrite lookup_insert_ne, Hc', Hc by lia. done.
  - unfold next_header_location. destruct Ha as [(-> & (Hvh & r1 & H1) & _ & Hi)|(-> & (Hvh & r1 & H1) & _ & Hi)]; cbn [Z.eqb Pos.eqb]; [right|left].
    + split; [done|]. split; [apply header_at_stored; [done|by rewrite lookup_insert_eq]|]. split; [|lia].
      split; [done|]. exists r1. rewrite lookup_insert_ne, Hc', Hc by lia. done.
    + split; [done|]. split; [apply header_at_stored; [done|by rewrite lookup_insert_eq]|]. split; [|lia].
      split; [done|]. exists r1. rewrite lookup_insert_ne, Hc', Hc by lia. done.
  - done.
Qed.

(** ** Restarting *)

Lemma foldl_set_insert acc l :
  StronglySorted Z.lt (acc ++ l) → foldl (λ l id, set_insert id l) acc l = acc ++ l.
Proof.
  revert acc. induction l as [|x l IH]; intros acc Hs; cbn [foldl]; [by rewrite app_nil_r|].
  assert (set_insert x acc = acc ++ [x]) as ->.
  { clear IH. induction acc as [|y acc IHa]; [done|]. cbn in Hs. apply StronglySorted_inv in Hs as [Hs Hy]. cbn [set_insert app].
    rewrite Forall_forall in Hy. specialize (Hy x ltac:(set_solver)). destruct (Z.ltb_spec x y); [lia|]. destruct (Z.eqb_spec x y); [lia|].
    f_equal. by apply IHa. }
  rewrite IH; [|by rewrite <-app_assoc]. by rewrite <-app_assoc.
Qed.

Lemma LoadFreeList_spec bm ids l pad :
  linked bm (bm_free_list_id bm :: ids) (-1) → NoDup (bm_free_list_id bm :: ids) → Forall valid_id (bm_free_list_id bm :: ids) →
  (bm_free_list_id bm :: ids) ≫= block_data bm = free_list_bytes l ++ pad → StronglySorted Z.lt l → Forall valid_id l →
  Z.of_nat (length l) < 2 ^ 64 → bm_read_only bm = false →
  ∃ modified, LoadFreeList bm = Ok (set_blocks l modified (bm_max_block bm) bm).
Proof.
  intros Hl Hnd Hv Hdata Hs Hlv Hlen Hro. unfold LoadFreeList. rewrite Hro.
  destruct (Z.eqb_spec (bm_free_list_id bm) INVALID_BLOCK) as [Hi|_].
  { apply Forall_cons in Hv as [[] _]. unfold INVALID_BLOCK in Hi. lia. }
  destruct (MetaBlockReader_new_spec bm _ Hl Hnd Hv ltac:(done)) as (r & Hr & Hok & _ & Hrem). cbn [hd] in Hr. rewrite Hr.
  cbn [mbind res_bind]. rewrite Hdata in Hrem.
  assert (@decodes _ (MetaBlockReader_Deserializer bm) _
    (λ d, '(n, d) ← @Read _ (MetaBlockReader_Deserializer bm) 8 d; Read_times (Z.to_nat n) (@ReadBlockId _ (MetaBlockReader_Deserializer bm)) d)
    (free_list_bytes l) l) as Hdec.
  { unfold free_list_bytes. apply decodes_bind with (Z.of_nat (length l)); [apply decodes_Read; split; [lia|exact Hlen]|].
    rewrite Nat2Z.id. apply decodes_times. eapply Forall_impl; [exact Hlv|]. intros id Hid. apply decodes_ReadBlockId. unfold valid_id in Hid. lia. }
  destruct (Hdec r pad Hok Hrem) as (r' & Hread & _). cbn beta in Hread.
  destruct (@Read _ (MetaBlockReader_Deserializer bm) 8 r) as [[n r1]|]; [|done]. cbn [mbind res_bind] in *. rewrite Hread.
  cbn [mbind res_bind]. rewrite (foldl_set_insert [] l) by done. eauto.
Qed.

Lemma linked_content bm bm' ids next :
  fh_content (bm_handle bm') = fh_content (bm_handle bm) → linked bm ids next →
  linked bm' ids next ∧ ids ≫= block_data bm' = ids ≫= block_data bm.
Proof.
  intros Hc Hl. assert (∀ id, BlockManager_Read bm' id = BlockManager_Read bm id) as Hread.
  { intros id. unfold BlockManager_Read, FileBuffer_Read. by rewrite Hc. }
  split; [eapply linked_read; [intros; apply Hread|exact Hl]|by apply block_data_read].
Qed.

Lemma sorted_length l (max : Z) : StronglySorted Z.lt l → Forall (λ id, 0 <= id < max) l → Z.of_nat (length l) <= Z.max 0 max.
Proof.
  intros Hs. assert (∀ lo, lo <= max → Forall (λ id, lo <= id < max) l → Z.of_nat (length l) <= max - lo) as H.
  { induction Hs as [|x l Hs IH Hx]; intros lo Hlo Hf; cbn [length]; [lia|]. apply Forall_cons in Hf as [Hx' Hf].
    assert (Z.of_nat (length l) <= max - (x + 1)); [apply IH; [lia|]|lia]. rewrite Forall_forall in *. intros y Hy.
    specialize (Hx y Hy). specialize (Hf y Hy). lia. }
  intros Hf. destruct (decide (0 <= max)); [specialize (H 0 ltac:(lia) Hf); lia|].
  destruct Hf; cbn; lia.
Qed.

(** The free list on the disk after [WriteHeader]. *)
Lemma WriteHeader_free_list_spec fresh meta bm :
  bm_ok bm → modified_ok bm → length fresh = BLOCK_SIZE →
  ∃ bm2, bm_ok bm2 ∧ extends [] (WriteHeader_start bm) bm2 ∧ bm_free_list (WriteHeader fresh meta bm) = bm_free_list bm2 ∧
    bm_max_block (WriteHeader fresh meta bm) = bm_max_block bm2 ∧
    (∀ id, 0 <= id → fh_content (bm_handle (WriteHeader fresh meta bm)) !! block_location id = fh_content (bm_handle bm2) !! block_location id) ∧
    match bm_free_list (WriteHeader_start bm) with
    | [] => bm_free_list bm2 = []
    | id :: l => (∃ ids, on_disk bm2 (id :: ids) (free_list_bytes l)) ∧ ((16 + 8 * length l <= BLOCK_SIZE)%nat → bm_free_list bm2 = l)
    end.
Proof.
  intros Hbm Hmod Hf. destruct (WriteHeader_spec fresh meta bm Hbm Hmod Hf) as (bm2 & free_id & Hbm2 & He & Heq & Hcase).
  exists bm2. cbn zeta in Heq. rewrite Heq. split; [done|]. split; [done|]. split; [done|]. split; [done|]. split.
  - intros id Hid. pose proof header_locations. cbn [bm_handle set_handle handle_Sync handle_Write fh_content].
    rewrite lookup_insert_ne; [by destruct (bm_use_direct_io bm)|]. apply header_location_not_block; [|done].
    unfold next_header_location. destruct (_ =? _); lia.
  - destruct (bm_free_list (WriteHeader_start bm)) as [|id l] eqn:Hfl; [by destruct Hcase as [_ ->]|].
    destruct Hcase as (_ & Hdisk & Hone). split; [done|]. intros Hle. by apply Hone.
Qed.

Lemma extends_read_handle bm bm' id :
  0 <= id → fh_content (bm_handle bm') !! block_location id = fh_content (bm_handle bm) !! block_location id →
  BlockManager_Read bm' id = BlockManager_Read bm id.
Proof. intros Hid Hc. unfold BlockManager_Read, FileBuffer_Read. by rewrite Hc. Qed.

(** The block manager after opening the file that [WriteHeader] left. *)
Definition reopened fresh meta bm : SingleFileBlockManager :=
  BlockManager_Initialize (mkFileHandle (fh_content (bm_handle (WriteHeader fresh meta bm))) [])
    (bm_active_header (WriteHeader fresh meta bm)) (written_header meta (free_list_block bm) bm) false (bm_use_direct_io bm).

Lemma reopened_load fresh meta bm :
  bm_ok bm → modified_ok bm → length fresh = BLOCK_SIZE → bm_max_block (WriteHeader fresh meta bm) <= 2 ^ 63 →
  ∃ modified, LoadFreeList (reopened fresh meta bm) =
    Ok (set_blocks (set_erase (free_list_block bm) (bm_free_list (WriteHeader_start bm))) modified (bm_max_block bm) (reopened fresh meta bm)).
Proof.
  intros Hbm Hmod Hf Hmax. destruct (WriteHeader_free_list_spec fresh meta bm Hbm Hmod Hf) as (bmw & _ & He & _ & Hmx & Hcont & Hcase).
  pose proof (ext_max _ _ _ He) as Hmm. change (bm_max_block (WriteHeader_start bm)) with (bm_max_block bm) in Hmm.
  destruct (WriteHeader_start_ok bm Hbm Hmod) as (Hsort & Hrange & _).
  change (bm_max_block (WriteHeader_start bm)) with (bm_max_block bm) in Hrange.
  assert (bm_free_list_id (reopened fresh meta bm) = free_list_block bm) as Hid by done. unfold free_list_block in *.
  destruct (bm_free_list (WriteHeader_start bm)) as [|id l]; cbn [hd] in *.
  { exists (bm_modified_blocks (reopened fresh meta bm)). unfold LoadFreeList. rewrite Hid. done. }
  rewrite set_erase_head by done. destruct Hcase as [(ids & Hnd & Hlk & Hal & pad & Hdata) _]. rewrite Forall_forall in Hal.
  assert (∀ i, i ∈ id :: ids → BlockManager_Read (reopened fresh meta bm) i = BlockManager_Read bmw i) as Hread.
  { intros i Hi. apply extends_read_handle; [apply (Hal i Hi)|]. apply Hcont, (Hal i Hi). }
  apply StronglySorted_inv in Hsort as [Hsort _]. apply Forall_cons in Hrange as [_ Hrange].
  assert (Hload : ∃ modified, LoadFreeList (reopened fresh meta bm) =
    Ok (set_blocks l modified (bm_max_block (reopened fresh meta bm)) (reopened fresh meta bm))); [|exact Hload].
  apply (LoadFreeList_spec _ ids l pad); rewrite ?Hid.
  - by eapply linked_read.
  - done.
  - rewrite Forall_forall. intros i [Hi _]%Hal. unfold valid_id. lia.
  - by rewrite (block_data_read bmw).
  - done.
  - eapply Forall_impl; [exact Hrange|]. cbn beta. intros i Hi. unfold valid_id. lia.
  - pose proof (sorted_length l _ Hsort Hrange). lia.
  - done.
Qed.

Lemma opened_iteration bm h other : opened bm h other → 0 <= bm_iteration_count bm.
Proof. intros [_ [(_ & [[[Hi _] _] _] & _)|(_ & [[[Hi _] _] _] & _)] ->]; exact Hi. Qed.

(** Blocks that are in use and not modified survive [WriteHeader]. *)
Lemma WriteHeader_keeps fresh meta bm id :
  bm_ok bm → modified_ok bm → length fresh = BLOCK_SIZE → allocated bm id → id ∉ bm_modified_blocks bm →
  fh_content (bm_handle (WriteHeader fresh meta bm)) !! block_location id = fh_content (bm_handle bm) !! block_location id.
Proof.
  intros Hbm Hmod Hf Ha Hnm. destruct (WriteHeader_free_list_spec fresh meta bm Hbm Hmod Hf) as (bmw & _ & He & _ & _ & Hcont & _).
  rewrite Hcont by apply Ha. rewrite (extends_content [] (WriteHeader_start bm)); [done|done|].
  intros id' _ <-%block_location_inj. split; [|apply not_elem_of_nil]. split; [apply Ha|].
  intros [?|?]%free_modified_blocks_spec; [done|]. by apply Ha.
Qed.

(** A free list that fits into one block. *)
Definition one_block_free_list bm : Prop := (8 + 8 * length (bm_free_list (WriteHeader_start bm)) <= BLOCK_SIZE)%nat.

Lemma WriteHeader_max_ge fresh meta bm :
  bm_ok bm → modified_ok bm → length fresh = BLOCK_SIZE → bm_max_block bm <= bm_max_block (WriteHeader fresh meta bm).
Proof.
  intros Hbm Hmod Hf. destruct (WriteHeader_free_list_spec fresh meta bm Hbm Hmod Hf) as (bmw & _ & He & _ & -> & _). exact (ext_max _ _ _ He).
Qed.

Lemma WriteHeader_max_block fresh meta bm :
  bm_ok bm → modified_ok bm → length fresh = BLOCK_SIZE → one_block_free_list bm →
  bm_max_block (WriteHeader fresh meta bm) = bm_max_block bm.
Proof.
  intros Hbm Hmod Hf Hone. destruct (WriteHeader_spec fresh meta bm Hbm Hmod Hf) as (bm2 & free_id & _ & _ & Heq & Hcase).
  cbn zeta in Heq. rewrite Heq. cbn [bm_max_block set_handle set_header]. unfold one_block_free_list in Hone.
  destruct (bm_free_list (WriteHeader_start bm)) as [|id l]; [by destruct Hcase as [_ ->]|].
  apply Hcase. cbn [length] in Hone. lia.
Qed.

(** A small open database: block 0 is free, block 1 is in use. *)
Definition demo : SingleFileBlockManager := set_blocks [0] ∅ 2 (SingleFileBlockManager_create (0, 0) false).

Lemma demo_free_list : bm_free_list (WriteHeader_start demo) = [0].
Proof. vm_compute. reflexivity. Qed.

Lemma demo_ok : opened demo new_database_header new_database_header ∧ bm_ok demo ∧ modified_ok demo ∧ one_block_free_list demo.
Proof.
  destruct (SingleFileBlockManager_create_opened (0, 0) false) as [Ho _].
  split; [eapply opened_content; [exact Ho|done..]|]. split; [|split].
  - split_and!; cbn; [repeat constructor|constructor; [lia|constructor]|lia].
  - intros id Hid. by apply not_elem_of_empty in Hid.
  - unfold one_block_free_list. pose proof BLOCK_SIZE_large.
    rewrite demo_free_list. cbn. lia.
Qed.

(** C15: after [WriteHeader], opening the file again takes the new header: the
    root, the number of blocks and the iteration of the checkpoint; the free
    list that is loaded consists of the blocks that were free or modified,
    without the block that holds it, and it is the free list in memory when it
    fits into one block; the blocks that were neither free nor modified hold
    what they held. *)
Theorem WriteHeader_restart fresh meta bm h other :
  bm_ok bm → modified_ok bm → length fresh = BLOCK_SIZE → opened bm h other → inS 64 meta → iteration h + 1 < 2 ^ 64 →
  bm_max_block (WriteHeader fresh meta bm) <= 2 ^ 63 →
  ∃ bm1 bm2, SingleFileBlockManager_open (fh_content (bm_handle (WriteHeader fresh meta bm))) false (bm_use_direct_io bm) = Ok bm1 ∧
    LoadFreeList bm1 = Ok bm2 ∧
    GetMetaBlock bm2 = meta ∧ TotalBlocks bm2 = TotalBlocks bm ∧ bm_iteration_count bm2 = bm_iteration_count bm + 1 ∧
    opened bm2 (written_header meta (free_list_block bm) bm) h ∧
    (∀ id, id ∈ bm_free_list bm2 ↔ id ≠ free_list_block bm ∧ (id ∈ bm_modified_blocks bm ∨ id ∈ bm_free_list bm)) ∧
    ((8 + 8 * length (bm_free_list (WriteHeader_start bm)) <= BLOCK_SIZE)%nat →
      bm_free_list bm2 = bm_free_list (WriteHeader fresh meta bm)) ∧
    ∀ id, allocated bm id → id ∉ bm_modified_blocks bm → BlockManager_Read bm2 id = BlockManager_Read bm id.
Proof.
  intros Hbm Hmod Hf Ho Hmeta Hit Hmax.
  destruct (WriteHeader_free_list_spec fresh meta bm Hbm Hmod Hf) as (bmw & _ & He & Hfl & Hmx & _ & Hcase).
  pose proof (ext_max _ _ _ He) as Hmm. change (bm_max_block (WriteHeader_start bm)) with (bm_max_block bm) in Hmm.
  destruct (WriteHeader_opened fresh meta bm h other Hbm Hmod Hf Ho Hmeta ltac:(lia) Hit) as [Ho' _].
  destruct (reopened_load fresh meta bm Hbm Hmod Hf Hmax) as (modified & Hload).
  exists (reopened fresh meta bm). eexists. split; [by apply (opened_open _ _ h)|]. split; [exact Hload|]. split; [done|]. split; [done|].
  assert (iteration (written_header meta (free_list_block bm) bm) = bm_iteration_count bm + 1) as Hic.
  { apply wrapU_small. pose proof (opened_iteration _ _ _ Ho). rewrite (op_iteration _ _ _ Ho) in *. split; lia. }
  split; [exact Hic|]. split; [eapply opened_content; [exact Ho'|done|by rewrite (op_iteration _ _ _ Ho')|done]|]. split; [|split].
  - intros id. cbn [bm_free_list set_blocks]. rewrite elem_of_set_erase. pose proof (free_modified_blocks_spec bm id) as Hfm.
    change (bm_free_list (WriteHeader_start bm)) with (bm_free_list (free_modified_blocks bm)). tauto.
  - cbn [bm_free_list set_blocks]. rewrite Hfl. destruct (WriteHeader_start_ok bm Hbm Hmod) as (Hsort & _).
    unfold free_list_block. destruct (bm_free_list (WriteHeader_start bm)) as [|id l]; [by rewrite Hcase|]. cbn [hd length].
    intros Hle. rewrite set_erase_head by done. symmetry. apply Hcase. lia.
  - intros id Ha Hnm. apply extends_read_handle; [apply Ha|]. by apply WriteHeader_keeps.
Qed.

Lemma WriteHeader_restart_witness :
  ∃ bm1 bm2, SingleFileBlockManager_open (fh_content (bm_handle (WriteHeader (replicate BLOCK_SIZE 0) 1 demo))) false false = Ok bm1 ∧
    LoadFreeList bm1 = Ok bm2 ∧ GetMetaBlock bm2 = 1 ∧ TotalBlocks bm2 = 2 ∧
    BlockManager_Read bm2 1 = BlockManager_Read demo 1.
Proof.
  destruct demo_ok as (Ho & Hbm & Hmod & Hone).
  destruct (WriteHeader_restart (replicate BLOCK_SIZE 0) 1 demo new_database_header new_database_header Hbm Hmod)
    as (bm1 & bm2 & H1 & H2 & H3 & H4 & _ & _ & _ & _ & H5).
  - apply length_replicate.
  - exact Ho.
  - split; lia.
  - reflexivity.
  - rewrite (WriteHeader_max_block _ _ demo Hbm Hmod (length_replicate _ _) Hone). change (2 <= 2 ^ 63). lia.
  - exists bm1, bm2. split; [exact H1|]. split; [exact H2|]. split; [exact H3|]. split; [exact H4|].
    apply H5; [split; [change (0 <= 1 < 2); lia|by intros ?%list_elem_of_singleton]|apply not_elem_of_empty].
Defined.

(** ** Crashing during a checkpoint *)

Definition pre_header (use_direct_io : bool) (ops : list FileOp) : list FileOp :=
  if use_direct_io then ops else ops ++ [SyncFile].

(** Everything that is written between the start of a checkpoint, [bm0], and its end. *)
Lemma WriteHeader_ops fresh meta bm0 bm :
  extends [] bm0 bm → bm_ok bm → modified_ok bm → length fresh = BLOCK_SIZE → one_block_free_list bm →
  (bm_free_list (WriteHeader_start bm) ≠ [] → ¬ allocated bm0 (free_list_block bm)) →
  ∃ ops bytes, Forall (block_write [] bm0) ops ∧
    let all := pre_header (bm_use_direct_io bm) ops ++ [WriteAt (next_header_location bm) bytes; SyncFile] in
    fh_trace (bm_handle (WriteHeader fresh meta bm)) = fh_trace (bm_handle bm0) ++ all ∧
    fh_content (bm_handle (WriteHeader fresh meta bm)) = foldl apply_op (fh_content (bm_handle bm0)) all.
Proof.
  intros He Hbm Hmod Hf Hone Hfree. destruct (WriteHeader_spec fresh meta bm Hbm Hmod Hf) as (bm2 & free_id & _ & _ & Heq & Hcase).
  destruct (ext_ops _ _ _ He) as (ops & Htr & Hc & Hops).
  assert (∃ ops2, fh_trace (bm_handle bm2) = fh_trace (bm_handle bm0) ++ ops2 ∧
    fh_content (bm_handle bm2) = foldl apply_op (fh_content (bm_handle bm0)) ops2 ∧ Forall (block_write [] bm0) ops2) as (ops2 & Ht2 & Hc2 & Hops2).
  { destruct (WriteHeader_start_ok bm Hbm Hmod) as (_ & Hr & _). unfold one_block_free_list, free_list_block in *.
    destruct (bm_free_list (WriteHeader_start bm)) as [|id l]; [destruct Hcase as [_ ->]; by exists ops|].
    destruct Hcase as (_ & _ & Hw). cbn [length] in Hone. destruct Hw as (_ & _ & bs & ->); [lia|].
    exists (ops ++ [WriteAt (block_location id) bs]). cbn [handle_Write fh_trace fh_content].
    rewrite Htr, Hc, app_assoc, foldl_app. split_and!; [done..|]. apply Forall_app. split; [done|]. constructor; [|constructor].
    exists id, bs. split; [done|]. apply Forall_cons in Hr as [[Hr _] _]. split; [done|]. right. by apply Hfree. }
  exists ops2. eexists. split; [done|]. cbn zeta in Heq |- *. rewrite Heq. unfold pre_header.
  cbn [bm_handle set_handle handle_Sync handle_Write fh_trace fh_content]. destruct (bm_use_direct_io bm).
  - rewrite Ht2, Hc2, foldl_app. split; [by rewrite <-!app_assoc|reflexivity].
  - cbn [handle_Sync fh_trace fh_content]. rewrite Ht2, Hc2, !foldl_app. split; [by rewrite <-!app_assoc|reflexivity].
Qed.

Lemma snoc_cases {A} (l : list A) : l = [] ∨ ∃ l' x, l = l' ++ [x].
Proof. destruct l as [|x l' _] using rev_ind; eauto. Qed.

Lemma pending_not_synced direct ops durable pending :
  pre_header direct ops = durable ++ pending → SyncFile ∉ pending → direct = false → pending = [].
Proof.
  intros Heq Hs ->. cbn in Heq. destruct (snoc_cases pending) as [->|(p & x & ->)]; [done|].
  rewrite app_assoc in Heq. apply app_inj_tail in Heq as [_ <-]. set_solver.
Qed.

(** The point of a crash: before the header, while it is written, or after it. *)
Lemma crash_points direct ops header durable pending rest :
  pre_header direct ops ++ [header; SyncFile] = durable ++ pending ++ rest → SyncFile ∉ pending →
  (direct = true → (length pending <= 1)%nat) →
  (∃ more, pre_header direct ops = durable ++ pending ++ more) ∨
  durable = pre_header direct ops ∧ pending = [header] ∨
  pending = [] ∧ (durable = pre_header direct ops ++ [header] ∨ durable = pre_header direct ops ++ [header; SyncFile]).
Proof.
  intros Heq Hs Hd. rewrite app_assoc in Heq. apply app_eq_app in Heq as (l & [[Hp _]|[Hdq Hl]]).
  { left. exists l. by rewrite Hp, <-app_assoc. }
  destruct l as [|x [|y l]]; cbn in Hl.
  - left. exists []. rewrite app_nil_r. by rewrite app_nil_r in Hdq.
  - right. injection Hl as <- _. destruct (snoc_cases pending) as [->|(q & x & ->)]; [rewrite app_nil_r in Hdq; auto|].
    rewrite app_assoc in Hdq. apply app_inj_tail in Hdq as [Hdq ->]. left.
    assert (q = []) as ->; [|by rewrite app_nil_r in Hdq].
    destruct direct; [specialize (Hd eq_refl); rewrite length_app in Hd; cbn in Hd; apply nil_length_inv; lia|].
    eapply pending_not_synced; [by symmetry|set_solver|done].
  - right. injection Hl as <- <- Hl. destruct l; [|done]. destruct (snoc_cases pending) as [->|(q & x & ->)].
    { rewrite app_nil_r in Hdq. auto. }
    rewrite app_assoc in Hdq. change [header; SyncFile] with ([header] ++ [SyncFile]) in Hdq. rewrite app_assoc in Hdq.
    apply app_inj_tail in Hdq as [_ ->]. set_solver.
Qed.

(** Writes to blocks that were free leave headers and blocks in use as they were. *)
Lemma block_writes_other bm0 ops content location :
  Forall (block_write [] bm0) ops → (∀ id, location = block_location id → allocated bm0 id) →
  foldl apply_op content ops !! location = content !! location ∧ ∀ bytes, WriteAt location bytes ∉ ops.
Proof.
  intros Hops Hl. assert (∀ bytes, WriteAt location bytes ∉ ops) as Hno; [|split; [by apply apply_ops_other|done]].
  intros bytes Hin. rewrite Forall_forall in Hops. destruct (Hops _ Hin) as (id & bs & [= Heq _] & _ & [H|H]); [set_solver|].
  by apply H, Hl.
Qed.

Definition old_location bm0 (location : Z) : Prop := location < BLOCK_START ∨ ∃ id, location = block_location id ∧ allocated bm0 id.

Lemma pre_header_other bm0 direct ops location bytes :
  Forall (block_write [] bm0) ops → old_location bm0 location → WriteAt location bytes ∉ pre_header direct ops.
Proof.
  intros Hops Hold Hin. assert (WriteAt location bytes ∈ ops) as Hin'.
  { unfold pre_header in Hin. destruct direct; [done|]. apply elem_of_app in Hin as [?|?%list_elem_of_singleton]; done. }
  rewrite Forall_forall in Hops. destruct (Hops _ Hin') as (id & bs & [= -> _] & Hid & [H|H]); [set_solver|].
  destruct Hold as [Hlt|(id' & <-%block_location_inj & Ha)]; [|done]. pose proof (block_location_ge id Hid). lia.
Qed.

(** A crash leaves what was there, wherever it matters, or everything that was written. *)
Lemma crash_old_or_new bm0 direct ops location bytes before after :
  Forall (block_write [] bm0) ops → location < BLOCK_START →
  crashes direct before (pre_header direct ops ++ [WriteAt location bytes; SyncFile]) after →
  (∀ l, old_location bm0 l → after !! l = before !! l) ∨
  after = foldl apply_op before (pre_header direct ops ++ [WriteAt location bytes; SyncFile]).
Proof.
  intros Hops Hloc (durable & pending & rest & Heq & Hs & Hd & Hafter).
  assert (direct = true → (length pending <= 1)%nat) as Hd' by by destruct direct.
  destruct (crash_points _ _ _ _ _ _ Heq Hs Hd') as [(more & Hp)|[(-> & ->)|(-> & Hdur)]].
  - left. intros l Hl. pose proof (λ bs, pre_header_other bm0 direct ops l bs Hops Hl) as Hno. rewrite Hp in Hno.
    destruct (Hafter l) as [->|(bs & Hin & _)]; [|set_solver]. apply apply_ops_other. set_solver.
  - destruct (decide (after !! location = Some bytes)) as [Hnew|Hnn].
    + right. apply map_eq. intros l. rewrite foldl_app. cbn [foldl apply_op].
      destruct (decide (l = location)) as [->|Hne]; [by rewrite lookup_insert_eq|]. rewrite lookup_insert_ne by done.
      destruct (Hafter l) as [Hl|(bs & [= ->]%list_elem_of_singleton & _)]; [exact Hl|done].
    + left. intros l Hl. pose proof (λ bs, pre_header_other bm0 direct ops l bs Hops Hl) as Hno.
      destruct (Hafter l) as [->|(bs & [= -> ->]%list_elem_of_singleton & [Hc|Hc])]; [by apply apply_ops_other|done|lia].
  - right. apply map_eq. intros l. destruct (Hafter l) as [->|(bs & Hin & _)]; [|by apply not_elem_of_nil in Hin].
    destruct Hdur as [->| ->]; rewrite !foldl_app; reflexivity.
Qed.

Lemma next_header_location_lt bm : next_header_location bm < BLOCK_START.
Proof. pose proof header_locations. unfold next_header_location. destruct (_ =? _); lia. Qed.

(** C8: a checkpoint survives a crash at any moment.  From the state [bm0] at its
    start, data is written to blocks that are not in use, and then
    [WriteHeader] is called.  Whenever the machine stops, and whatever the
    writes that were not yet synced leave in blocks (a header is written whole
    or not at all), the file can be opened and has the old root, free list and
    blocks, or the new ones -- provided that the free list goes to one block
    that was not in use at the start, which the code does not ensure: see
    [free_list_over_root]. *)
Theorem checkpoint_crash_safe fresh meta bm0 bm h other ops after read_only :
  opened bm0 h other → bm_ok bm → modified_ok bm → length fresh = BLOCK_SIZE → extends [] bm0 bm →
  inS 64 meta → iteration h + 1 < 2 ^ 64 → bm_max_block bm <= 2 ^ 63 →
  one_block_free_list bm → (bm_free_list (WriteHeader_start bm) ≠ [] → ¬ allocated bm0 (free_list_block bm)) →
  fh_trace (bm_handle (WriteHeader fresh meta bm)) = fh_trace (bm_handle bm0) ++ ops →
  crashes (bm_use_direct_io bm) (fh_content (bm_handle bm0)) ops after →
  ∃ bm', SingleFileBlockManager_open after read_only (bm_use_direct_io bm) = Ok bm' ∧
    (GetMetaBlock bm' = meta_block h ∧ bm_free_list_id bm' = free_list h ∧ TotalBlocks bm' = block_count h ∧
       (∀ id, allocated bm0 id → BlockManager_Read bm' id = BlockManager_Read bm0 id) ∨
     GetMetaBlock bm' = meta ∧ bm_free_list_id bm' = free_list_block bm ∧ TotalBlocks bm' = bm_max_block bm ∧
       ∀ id, BlockManager_Read bm' id = BlockManager_Read (WriteHeader fresh meta bm) id).
Proof.
  intros Ho Hbm Hmod Hf He Hmeta Hit Hmax Hone Hfree Htr Hcr.
  destruct (WriteHeader_ops fresh meta bm0 bm He Hbm Hmod Hf Hone Hfree) as (ops' & bytes & Hops & Htr' & Hc'). cbn zeta in Htr', Hc'.
  assert (ops = pre_header (bm_use_direct_io bm) ops' ++ [WriteAt (next_header_location bm) bytes; SyncFile]) as ->.
  { rewrite Htr' in Htr. by apply app_inv_head in Htr. }
  destruct (crash_old_or_new bm0 _ _ _ _ _ _ Hops (next_header_location_lt bm) Hcr) as [Hold| ->].
  - assert (opened (set_handle (mkFileHandle after []) bm0) h other) as Ho'.
    { eapply opened_content; [exact Ho|done|done|]. intros l Hl. cbn. apply Hold. by left. }
    exists (BlockManager_Initialize (mkFileHandle after []) (bm_active_header bm0) h read_only (bm_use_direct_io bm)).
    split; [by apply (opened_open _ _ _ _ _ Ho')|]. left. split_and!; [done..|].
    intros id Ha. apply extends_read_handle; [apply Ha|]. apply Hold. right. eauto.
  - destruct (WriteHeader_opened fresh meta bm h other Hbm Hmod Hf (opened_extends _ _ _ _ _ Ho He) Hmeta Hmax Hit) as [Ho' _].
    rewrite <-Hc'. eexists. split; [by apply (opened_open _ _ _ _ _ Ho')|]. right. split_and!; [done..|].
    intros id. unfold BlockManager_Read. by destruct (id <? 0).
Qed.

Lemma checkpoint_crash_safe_witness :
  ∃ ops bm', fh_trace (bm_handle (WriteHeader (replicate BLOCK_SIZE 0) 1 demo)) = fh_trace (bm_handle demo) ++ ops ∧
    SingleFileBlockManager_open (fh_content (bm_handle demo)) true false = Ok bm' ∧
    (GetMetaBlock bm' = -1 ∨ GetMetaBlock bm' = 1).
Proof.
  destruct demo_ok as (Ho & Hbm & Hmod & Hone).
  assert (bm_free_list (WriteHeader_start demo) ≠ [] → ¬ allocated demo (free_list_block demo)) as Hfree.
  { intros _ [_ Hn]. apply Hn. unfold free_list_block. rewrite demo_free_list. by left. }
  destruct (WriteHeader_ops (replicate BLOCK_SIZE 0) 1 demo demo) as (ops & bytes & _ & Htr & _);
    [apply extends_refl|exact Hbm|exact Hmod|apply length_replicate|exact Hone|exact Hfree|]. cbn zeta in Htr.
  assert (crashes (bm_use_direct_io demo) (fh_content (bm_handle demo))
    (pre_header (bm_use_direct_io demo) ops ++ [WriteAt (next_header_location demo) bytes; SyncFile]) (fh_content (bm_handle demo))) as Hcr.
  { exists [], [], (pre_header (bm_use_direct_io demo) ops ++ [WriteAt (next_header_location demo) bytes; SyncFile]).
    split; [reflexivity|]. split; [apply not_elem_of_nil|]. split; [by left|]. by left. }
  destruct (checkpoint_crash_safe (replicate BLOCK_SIZE 0) 1 demo demo new_database_header new_database_header _
    (fh_content (bm_handle demo)) true Ho Hbm Hmod (length_replicate _ _) (extends_refl _ _) ltac:(split; lia) eq_refl
    ltac:(change (2 <= 2 ^ 63); lia) Hone Hfree Htr Hcr) as (bm' & Hopen & Hcase).
  eexists _, bm'. split; [exact Htr|]. split; [exact Hopen|]. destruct Hcase as [[H _]|[H _]]; [left|right]; exact H.
Defined.

(** C22: when the free list goes to the root block of the active checkpoint, the
    database is lost in a crash between the two syncs of [WriteHeader]: the
    file opens with the old header, and a reader of its root block reads the
    free list. *)
Theorem free_list_over_root fresh meta bm h other l :
  opened bm h other → bm_ok bm → modified_ok bm → length fresh = BLOCK_SIZE → bm_max_block bm <= 2 ^ 63 →
  bm_use_direct_io bm = false → one_block_free_list bm → bm_free_list (WriteHeader_start bm) = meta_block h :: l →
  ∃ ops after bm', fh_trace (bm_handle (WriteHeader fresh meta bm)) = fh_trace (bm_handle bm) ++ ops ∧
    crashes false (fh_content (bm_handle bm)) ops after ∧
    SingleFileBlockManager_open after false false = Ok bm' ∧ GetMetaBlock bm' = meta_block h ∧
    read_back bm' (GetMetaBlock bm') (8 + 8 * length l) = Ok (free_list_bytes l).
Proof.
  intros Ho Hbm Hmod Hf Hmax Hdio Hone Hfl. destruct (WriteHeader_spec fresh meta bm Hbm Hmod Hf) as (bm2 & free_id & Hbm2 & He & Heq & Hcase).
  unfold one_block_free_list in Hone. rewrite Hfl in Hone, Hcase. cbn [length] in Hone.
  destruct Hcase as (-> & (ids & Hdisk) & Hsingle). destruct Hsingle as (_ & Hmx & bytes & Hh); [lia|].
  cbn zeta in Heq. rewrite Heq, Hdio, Hh. cbn [bm_handle set_handle handle_Sync handle_Write fh_trace].
  eexists (([WriteAt (block_location (meta_block h)) bytes; SyncFile]) ++ _), (fh_content (bm_handle bm2)), _. split; [by rewrite <-!app_assoc|].
  split; [|split; [|split]].
  - eexists [WriteAt (block_location (meta_block h)) bytes; SyncFile], [], _. split; [reflexivity|]. split; [apply not_elem_of_nil|]. split; [by right|].
    intros location. left. by rewrite Hh.
  - apply (opened_open (set_header (bm_active_header bm) (bm_iteration_count bm) bm2) h other).
    eapply opened_content; [exact Ho|done|done|]. intros location Hl. apply (extends_headers _ _ _ _ He Hl).
  - done.
  - assert (length (free_list_bytes l) = 8 + 8 * length l)%nat as <-.
    { unfold free_list_bytes. rewrite length_app, length_le_encode. f_equal. clear. induction l as [|x l IH]; [done|].
      rewrite bind_cons, length_app, length_le_encode, IH. cbn. lia. }
    pose proof (on_disk_valid _ _ _ Hdisk ltac:(lia)) as Hv. destruct Hdisk as (Hnd & Hl & _ & pad & Hdata).
    destruct (linked_content bm2 (BlockManager_Initialize (mkFileHandle (fh_content (bm_handle bm2)) []) (bm_active_header bm) h false false) _ _ eq_refl Hl) as [Hl' Hd'].
    rewrite Hdata in Hd'. by apply (linked_read_back _ (meta_block h :: ids) _ pad).
Qed.

(** The state in the second checkpoint of a database: the first one has the
    root 0, which is now modified, and block 1; the second one wrote block 2. *)
Definition demo2 (fresh : list Z) : SingleFileBlockManager :=
  set_blocks [] {[0]} 3 (WriteHeader fresh 0 (set_blocks [] ∅ 2 (SingleFileBlockManager_create (0, 0) false))).

Lemma demo2_opened fresh : length fresh = BLOCK_SIZE → ∃ h other, meta_block h = 0 ∧ opened (demo2 fresh) h other.
Proof.
  intros Hf. set (bm := set_blocks [] ∅ 2 (SingleFileBlockManager_create (0, 0) false)).
  destruct (SingleFileBlockManager_create_opened (0, 0) false) as [Ho _].
  assert (opened bm new_database_header new_database_header) as Ho' by (eapply opened_content; [exact Ho|done..]).
  destruct (WriteHeader_opened fresh 0 bm _ _ ltac:(split_and!; [constructor|constructor|done]) ltac:(intros id []%not_elem_of_empty) Hf Ho')
    as [Ho2 _]; [split; lia|done|done|].
  eexists _, _. split; [|eapply opened_content; [exact Ho2|done..]]. done.
Qed.

Lemma free_list_over_root_witness :
  ∃ ops after bm', fh_trace (bm_handle (WriteHeader (replicate BLOCK_SIZE 0) 2 (demo2 (replicate BLOCK_SIZE 0)))) =
      fh_trace (bm_handle (demo2 (replicate BLOCK_SIZE 0))) ++ ops ∧
    crashes false (fh_content (bm_handle (demo2 (replicate BLOCK_SIZE 0)))) ops after ∧
    SingleFileBlockManager_open after false false = Ok bm' ∧ GetMetaBlock bm' = 0 ∧ read_back bm' 0 8 = Ok (free_list_bytes []).
Proof.
  pose proof (length_replicate BLOCK_SIZE 0) as Hlen. destruct (demo2_opened _ Hlen) as (h & other & Hroot & Ho).
  assert (bm_free_list (WriteHeader_start (demo2 (replicate BLOCK_SIZE 0))) = [0]) as Hfl.
  { unfold demo2. cbn [WriteHeader_start set_header free_modified_blocks set_blocks bm_free_list bm_modified_blocks].
    by rewrite elements_singleton. }
  pose proof BLOCK_SIZE_large.
  destruct (free_list_over_root (replicate BLOCK_SIZE 0) 2 (demo2 (replicate BLOCK_SIZE 0)) h other [] Ho)
    as (ops & after & bm' & H1 & H2 & H3 & H4 & H5).
  - split_and!; [constructor|constructor|done].
  - intros id Hid. change (id ∈ ({[0]} : gset Z)) in Hid. apply elem_of_singleton in Hid as ->. change (0 <= 0 < 3). lia.
  - exact Hlen.
  - change (3 <= 2 ^ 63). lia.
  - unfold demo2. cbn [set_blocks bm_use_direct_io]. unfold WriteHeader. reflexivity.
  - unfold one_block_free_list. rewrite Hfl. cbn. lia.
  - rewrite Hfl, Hroot. reflexivity.
  - exists ops, after, bm'. rewrite H4, Hroot in H5. split; [exact H1|]. split; [exact H2|]. split; [exact H3|].
    split; [by rewrite H4|exact H5].
Defined.
