(* ===== verification/ValueCodec.v ===== *)
(** * Serialization of values and statistics

    Models [GetInternalType] of src/src/common/types.cpp, [Value::Serialize] and
    [Value::Deserialize] of src/src/common/types/value.cpp, and the
    serialization of statistics in src/src/storage/statistics/base_statistics.cpp,
    numeric_statistics.cpp and validity_statistics.cpp.  A value of fixed width
    is a number: signed integers with their sign, others by their bits.

    Theorem: values of every type that can be written are read back.  The codecs
    of the statistics are used for the columns in checkpoints; the statistics of
    a BIGINT column do not keep whether there are NULLs. *)

From S2P Require Import Prelude Constants Serializer Statistics UpdateSegment UpdateKinds CatalogCodec.

(** ** [LogicalType::GetInternalType], on the numbers of [LogicalTypeId] *)

Definition GetInternalType (t : LogicalType) : res PhysicalType :=
  match lt_id t with
  | 10 => Ok BOOL
  | 11 => Ok INT8
  | 26 => Ok UINT8
  | 12 => Ok INT16
  | 27 => Ok UINT16
  | 1 | 15 | 13 => Ok INT32
  | 28 => Ok UINT32
  | 14 | 16 | 17 => Ok INT64
  | 29 => Ok UINT64
  | 50 => Ok INT128
  | 19 => Ok FLOAT
  | 20 => Ok DOUBLE
  | 18 =>
      if lt_width t <=? 4 then Ok INT16
      else if lt_width t <=? 9 then Ok INT32
      else if lt_width t <=? 18 then Ok INT64
      else if lt_width t <=? 38 then Ok INT128
      else Throw (NotImplementedException "Widths bigger than 38 are not supported")
  | 22 | 21 | 24 => Ok VARCHAR
  | 25 => Ok INTERVAL
  | 100 => Ok STRUCT
  | 101 => Ok LIST
  | 102 => Ok MAP
  | 52 => Ok HASH
  | 51 => Ok POINTER
  | 53 => Ok BIT
  | 103 | 3 | 0 | 2 => Ok INVALID_TYPE
  | _ => Throw (ConversionException "Invalid LogicalType")
  end.

(** ** Values *)

Inductive ValueData : Set :=
| FixedWidth (z : Z)
| StringValue (str_value : list Z).

Record Value : Set := mkValue {
  value_type : LogicalType;
  is_null : bool;
  value_data : ValueData;
}.

(** [Value(type)] *)
Definition Value_null (t : LogicalType) : Value := mkValue t true (FixedWidth 0).

(** The C++ type that is written or read, and whether it has a sign. *)
Definition serialized_type (t : PhysicalType) : option (nat * bool) :=
  match t with
  | BOOL | INT8 => Some (1%nat, true)
  | INT16 => Some (2%nat, true)
  | INT32 => Some (4%nat, true)
  | INT64 => Some (8%nat, true)
  | UINT8 => Some (1%nat, false)
  | UINT16 => Some (2%nat, false)
  | UINT32 => Some (4%nat, false)
  | UINT64 => Some (8%nat, false)
  | INT128 => Some (16%nat, true)
  | FLOAT => Some (4%nat, false)
  | DOUBLE => Some (8%nat, false)
  | POINTER => Some (8%nat, false)
  | INTERVAL => Some (16%nat, false)
  | _ => None
  end.

Section serialize.
Context {S : Type} `{!Serializer S}.

Definition Value_Serialize (serializer : S) (v : Value) : res S :=
  let serializer := LogicalType_Serialize serializer (value_type v) in
  let serializer := Write 1 serializer (of_bool (is_null v)) in
  if negb (is_null v) then
    t ← GetInternalType (value_type v);
    match serialized_type t, value_data v with
    | Some (n, _), FixedWidth z => Ok (Write n serializer z)
    | Some _, StringValue _ => Throw (UndefinedBehaviour "the union has no number")
    | None, data =>
        match t, data with
        | VARCHAR, StringValue str_value => Ok (WriteString serializer str_value)
        | VARCHAR, FixedWidth _ => Ok (WriteString serializer [])
        | _, _ => Throw (NotImplementedException "Value type not implemented for serialization!")
        end
    end
  else Ok serializer.
End serialize.

Section deserialize.
Context {D : Type} `{!Deserializer D}.

Definition Value_Deserialize (source : D) : res (Value * D) :=
  '(type, source) ← LogicalType_Deserialize source;
  '(is_null, source) ← ReadBool source;
  if (is_null : bool) then Ok (Value_null type, source)
  else
    t ← GetInternalType type;
    match serialized_type t with
    | Some (n, signed) =>
        '(bits, source) ← Read n source;
        Ok (mkValue type false (FixedWidth (if (signed : bool) then wrapS (8 * Z.of_nat n) bits else bits)), source)
    | None =>
        match t with
        | VARCHAR =>
            '(str_value, source) ← ReadString source;
            Ok (mkValue type false (StringValue str_value), source)
        | _ => Throw (NotImplementedException "Value type not implemented for deserialization")
        end
    end.
End deserialize.

(** Values that exist: NULL, or a value of the width of its type. *)
Definition Value_ok (v : Value) : Prop :=
  LogicalType_valid (value_type v) ∧
  if is_null v then value_data v = FixedWidth 0
  else
    match GetInternalType (value_type v) with
    | Ok t =>
        match serialized_type t, value_data v with
        | Some (n, true), FixedWidth z => inS (8 * Z.of_nat n) z
        | Some (n, false), FixedWidth z => inU (8 * Z.of_nat n) z
        | None, StringValue str_value => t = VARCHAR ∧ valid_string str_value
        | _, _ => False
        end
    | Throw _ => False
    end.

Definition Value_pieces (v : Value) : list (list Z) :=
  LogicalType_pieces (value_type v) ++ [le_encode 1 (of_bool (is_null v))] ++
  if is_null v then []
  else
    match GetInternalType (value_type v) with
    | Ok t =>
        match serialized_type t, value_data v with
        | Some (n, _), FixedWidth z => [le_encode n z]
        | _, StringValue str_value => string_pieces str_value
        | _, _ => []
        end
    | Throw _ => []
    end.

Lemma Value_Serialize_writes {S} `{!Serializer S} v (s : S) : Value_ok v → Value_Serialize s v = Ok (foldl WriteData s (Value_pieces v)).
Proof.
  intros [_ Hv]. unfold Value_Serialize, Value_pieces. rewrite (LogicalType_Serialize_writes (value_type v) s), !foldl_app. cbn [foldl]. revert Hv.
  destruct (is_null v); cbn [negb]; [done|]. destruct (GetInternalType (value_type v)) as [t|e]; [|done]. cbn [mbind res_bind].
  destruct (serialized_type t) as [[n []]|]; destruct (value_data v) as [z|str]; intros Hv; try done.
  destruct Hv as [-> _]. by rewrite writes_WriteString.
Qed.

Lemma wrapS_decode n z : (0 < n)%nat → inS (8 * Z.of_nat n) z → wrapS (8 * Z.of_nat n) (le_decode (le_encode n z)) = z.
Proof.
  intros Hn Hz. rewrite le_decode_encode_mod. unfold wrapS. rewrite Zplus_mod_idemp_l. apply (wrapS_small (8 * Z.of_nat n)); [lia|done].
Qed.

Lemma decodes_fixed {D} `{!Deserializer D} n z signed :
  (0 < n)%nat → (if (signed : bool) then inS (8 * Z.of_nat n) z else inU (8 * Z.of_nat n) z) →
  decodes (λ d : D, '(bits, d) ← Read n d; Ok (if signed then wrapS (8 * Z.of_nat n) bits else bits, d)) (le_encode n z) z.
Proof.
  intros Hn Hz d rest Hd Hrem. destruct (decodes_ReadData (le_encode n z) d rest Hd Hrem) as (d' & Hr & Hd' & Hrem').
  rewrite length_le_encode in Hr. exists d'. unfold Read. rewrite Hr. cbn [mbind res_bind]. split; [|done]. do 2 f_equal.
  destruct signed; [by apply wrapS_decode|by apply le_decode_encode].
Qed.

Lemma serialized_type_pos t n signed : serialized_type t = Some (n, signed) → (0 < n)%nat.
Proof. destruct t; cbn; intros [= <- <-]; lia. Qed.

Lemma Value_Deserialize_decodes {D} `{!Deserializer D} v : Value_ok v → decodes (λ d : D, Value_Deserialize d) (mjoin (Value_pieces v)) v.
Proof.
  intros [Ht Hv]. unfold Value_pieces. rewrite !join_app. unfold Value_Deserialize.
  eapply decodes_bind; [exact (Deserialize_decodes (E := LogicalType) (value_type v) Ht)|]. eapply decodes_bind; [cbn [mjoin list_join]; rewrite app_nil_r; apply decodes_ReadBool|].
  destruct v as [t null data]. cbn [value_type is_null value_data] in *. destruct null; [subst data; apply decodes_ret|].
  revert Hv. destruct (GetInternalType t) as [ty|]; [|done]. cbn [mbind res_bind]. destruct (serialized_type ty) as [[n signed]|] eqn:Hty; intros Hv.
  - destruct data as [z|]; [|by destruct signed]. cbn [mjoin list_join]. rewrite app_nil_r. intros d rest Hd Hrem.
    destruct (decodes_fixed n z signed (serialized_type_pos _ _ _ Hty) ltac:(by destruct signed) d rest Hd Hrem) as (d' & Hr & H).
    exists d'. split; [|done]. destruct (Read n d) as [[bits d1]|]; [|done]. cbn [mbind res_bind] in *. by injection Hr as -> ->.
  - destruct data as [|str]; [done|]. destruct Hv as [-> Hs]. rewrite <-(app_nil_r (mjoin _)). eapply decodes_bind; [by apply decodes_string|apply decodes_ret].
Qed.

(** ** Statistics

    [BaseStatistics::Serialize] writes [CanHaveNull] first; [Deserialize] keeps
    it when there are no NULLs. *)

Definition BIGINT : LogicalType := mkLogicalType 14 0 0 [] [].

Definition BIGINT_Value (z : Z) : Value := mkValue BIGINT false (FixedWidth z).

(** [NumericStatistics::Serialize] of a BIGINT column. *)
Definition NumericStatistics_Serialize {S} `{!Serializer S} (serializer : S) (stats : NumericStatistics) : res S :=
  let serializer := Write 1 serializer (of_bool (CanHaveNull (ns_validity stats))) in
  serializer ← Value_Serialize serializer (BIGINT_Value (ns_min stats));
  Value_Serialize serializer (BIGINT_Value (ns_max stats)).

Definition Value_number (v : Value) : res Z :=
  match is_null v, value_data v with
  | false, FixedWidth z => Ok z
  | _, _ => Throw (UndefinedBehaviour "the statistics have no number")
  end.

(** [BaseStatistics::Deserialize] with [NumericStatistics::Deserialize] *)
Definition NumericStatistics_Deserialize {D} `{!Deserializer D} (source : D) : res (NumericStatistics * D) :=
  '(can_have_null, source) ← ReadBool source;
  '(min, source) ← Value_Deserialize source;
  '(max, source) ← Value_Deserialize source;
  min ← Value_number min;
  max ← Value_number max;
  Ok (mkNumericStatistics min max (if negb can_have_null then Some (mkValidityStatistics can_have_null) else None), source).

Definition ValidityStatistics_Serialize {S} `{!Serializer S} (serializer : S) (stats : ValidityStatistics) : S :=
  let serializer := Write 1 serializer (of_bool (CanHaveNull None)) in
  Write 1 serializer (of_bool (has_null stats)).

Definition ValidityStatistics_Deserialize {D} `{!Deserializer D} (source : D) : res (ValidityStatistics * D) :=
  '(_, source) ← ReadBool source;
  '(has_null, source) ← ReadBool source;
  Ok (mkValidityStatistics has_null, source).

(** What is kept: the bounds, and that there are no NULLs. *)
Definition NumericStatistics_valid (stats : NumericStatistics) : Prop :=
  inS 64 (ns_min stats) ∧ inS 64 (ns_max stats) ∧ ns_validity stats ≠ Some (mkValidityStatistics true).

Definition NumericStatistics_pieces (stats : NumericStatistics) : list (list Z) :=
  [le_encode 1 (of_bool (CanHaveNull (ns_validity stats)))] ++ Value_pieces (BIGINT_Value (ns_min stats)) ++ Value_pieces (BIGINT_Value (ns_max stats)).

Lemma BIGINT_valid : LogicalType_valid BIGINT.
Proof. split_and!; try done; split; cbn; lia. Qed.

(** The bytes of a BIGINT value do not depend on its range. *)
Lemma BIGINT_Value_Serialize {S} `{!Serializer S} z (s : S) : Value_Serialize s (BIGINT_Value z) = Ok (foldl WriteData s (Value_pieces (BIGINT_Value z))).
Proof. unfold Value_Serialize, Value_pieces. by rewrite (LogicalType_Serialize_writes BIGINT s), !foldl_app. Qed.

Lemma NumericStatistics_Serialize_writes {S} `{!Serializer S} stats (s : S) :
  NumericStatistics_Serialize s stats = Ok (foldl WriteData s (NumericStatistics_pieces stats)).
Proof.
  unfold NumericStatistics_Serialize, NumericStatistics_pieces. rewrite !foldl_app. rewrite BIGINT_Value_Serialize. cbn [mbind res_bind].
  by rewrite BIGINT_Value_Serialize.
Qed.

Lemma NumericStatistics_decodes {D} `{!Deserializer D} stats :
  NumericStatistics_valid stats → decodes (λ d : D, NumericStatistics_Deserialize d) (mjoin (NumericStatistics_pieces stats)) stats.
Proof.
  intros (Hmin & Hmax & Hv). unfold NumericStatistics_pieces. rewrite !join_app. cbn [mjoin list_join]. rewrite app_nil_r. unfold NumericStatistics_Deserialize.
  assert (∀ z, inS 64 z → Value_ok (BIGINT_Value z)) as Hok by (intros z Hz; split; [apply BIGINT_valid|exact Hz]).
  eapply decodes_bind; [apply decodes_ReadBool|]. eapply decodes_bind; [by apply Value_Deserialize_decodes, Hok|].
  rewrite <-(app_nil_r (mjoin _)). eapply decodes_bind; [by apply Value_Deserialize_decodes, Hok|]. cbn [Value_number BIGINT_Value is_null value_data mbind res_bind].
  destruct stats as [mn mx [[[]]|]]; cbn [ns_min ns_max ns_validity CanHaveNull has_null negb] in *; [done|apply decodes_ret..].
Qed.

#[global] Program Instance NumericStatistics_codec : Codec NumericStatistics := {|
  Serialize S _ s stats := match NumericStatistics_Serialize s stats with Ok s => s | Throw _ => s end;
  Deserialize D _ := NumericStatistics_Deserialize;
  pieces := NumericStatistics_pieces;
  valid := NumericStatistics_valid;
|}.
Next Obligation. intros S ? stats s. by rewrite NumericStatistics_Serialize_writes. Qed.
Next Obligation. intros. by apply NumericStatistics_decodes. Qed.

#[global] Program Instance ValidityStatistics_codec : Codec ValidityStatistics := {|
  Serialize S _ := ValidityStatistics_Serialize;
  Deserialize D _ := ValidityStatistics_Deserialize;
  pieces stats := [le_encode 1 (of_bool true); le_encode 1 (of_bool (has_null stats))];
  valid _ := True;
|}.
Next Obligation. done. Qed.
Next Obligation.
  intros D ? [null] _. cbn [mjoin list_join]. rewrite app_nil_r. unfold ValidityStatistics_Deserialize. eapply decodes_bind; [apply (decodes_ReadBool true)|].
  rewrite <-(app_nil_r (le_encode _ _)). eapply decodes_bind; [apply decodes_ReadBool|]. apply decodes_ret.
Qed.

(** Values of all types that have a format are written, and read back by any
    deserializer, with the sign of signed integers. *)
Theorem Value_roundtrip {S D} `{!Serializer S, !Deserializer D} v (ser : S) (d : D) rest :
  Value_ok v → ser_ok ser → des_ok d →
  ∃ ser', Value_Serialize ser v = Ok ser' ∧
    (written ser' ++ rest = written ser ++ remaining d → ∃ d', Value_Deserialize d = Ok (v, d') ∧ remaining d' = rest).
Proof.
  intros Hv Hs Hd. rewrite Value_Serialize_writes by done. eexists. split; [done|]. intros Hw.
  destruct (writes_encodes (λ s : S, foldl WriteData s (Value_pieces v)) (Value_pieces v) ltac:(done) ser Hs) as [_ Hw'].
  rewrite Hw', <-app_assoc in Hw. apply app_inv_head in Hw. destruct (Value_Deserialize_decodes v Hv d rest Hd (eq_sym Hw)) as (d' & Hr & _ & Hrem). eauto.
Qed.
