(* ===== verification/ColumnSegment.v ===== *)
(** * The segments of columns

    Models the uncompressed segments of src/src/storage/numeric_segment.cpp and
    src/src/storage/table/validity_segment.cpp over the bytes of their blocks,
    with src/src/storage/uncompressed_segment.cpp, and the segments of a column
    around them: src/src/storage/table/transient_segment.cpp and
    persistent_segment.cpp.  What the two kinds of segments promise is the class
    [SegmentKindLaws]: rows are appended, and read back.

    Theorem: appending part of a vector to a validity segment stores the
    validity of the first rows of the vector instead, so that NULLs move when an
    append continues in the next segment. *)

From S2P Require Import Prelude Constants Serializer ValidityMask Statistics UpdateSegment UpdateKinds SegmentTree BlockManager.

Notation VS := STANDARD_VECTOR_SIZE (only parsing).

(** ** Vectors that are appended

    [VectorData]: the selection, the data and the validity of its entries. *)

Record VectorData : Set := mkVectorData {
  vd_sel : list nat;
  vd_data : list Z;
  vd_validity : ValidityMask;
}.

(** ** What the kinds of segments do with a block *)

Class SegmentKind (T St : Type) : Type := {
  (** the constructor: the number of vectors, and the initialised memory *)
  max_vector_count : nat;
  initial_buffer : list Z → list Z;
  (** [Append]: statistics, block and number of tuples before; offset and count *)
  Append : St → list Z → nat → VectorData → nat → nat → St * list Z * nat;
  (** [FetchBaseData], into the result *)
  FetchBaseData : list Z → nat → nat → list T → list T;
  (** [FetchRow] *)
  SegmentFetchRow : list Z → nat → T → T;
  (** [RevertAppend], from a row of the block *)
  RevertBlock : nat → list Z → list Z;
  (** the result vector that [Vector::Reference] makes *)
  Reference : list T → list T;
  (** [Vector::Orrify] of a flat vector *)
  Orrify : list T → VectorData;
}.

Section elements.
Context (size : nat).

(** The element at a position of an array in memory, and an assignment to it. *)
Definition load_at (i : nat) (buffer : list Z) : list Z := take size (drop (i * size) buffer).

Definition store_at (i : nat) (bytes buffer : list Z) : list Z := memcpy_at (i * size) bytes buffer.
End elements.

(** ** [NumericSegment] *)

Section numeric.
Context (type_size : nat).
(** The value with these bytes: signed or unsigned. *)
Context (of_bits : Z → Z).
Context {St : Type} (Update : St → Z → St).

Definition numeric_max_vector_count : nat := Nat.min (BLOCK_SIZE / (type_size * VS)) 80.

(** [AppendLoop]; the target is the vector at [target] elements. *)
Definition AppendLoop (st : St) (buffer : list Z) (target target_offset : nat) (adata : VectorData) (offset count : nat) : St * list Z :=
  let assign source_idx i '(st, buffer) :=
    let v := vd_data adata !!! source_idx in
    (Update st v, store_at type_size (target + (target_offset + i)) (le_encode type_size v) buffer) in
  if negb (AllValid (vd_validity adata)) then
    for_ 0 count (λ i s,
      let source_idx := vd_sel adata !!! (offset + i)%nat in
      let is_null := negb (RowIsValid (vd_validity adata) source_idx) in
      if negb is_null then assign source_idx i s else s) (st, buffer)
  else for_ 0 count (λ i s, assign (vd_sel adata !!! (offset + i)%nat) i s) (st, buffer).

Fixpoint NumericSegment_Append_loop (fuel : nat) (st : St) (buffer : list Z) (tuple_count : nat) (data : VectorData) (offset count : nat)
    : St * list Z * nat :=
  match fuel with
  | O => (st, buffer, tuple_count)
  | S fuel =>
      if (count =? 0)%nat then (st, buffer, tuple_count)
      else
        let vector_index := (tuple_count / VS)%nat in
        if (vector_index =? numeric_max_vector_count)%nat then (st, buffer, tuple_count)
        else
          let current_tuple_count := (tuple_count - vector_index * VS)%nat in
          let append_count := Nat.min (VS - current_tuple_count) count in
          let '(st, buffer) := AppendLoop st buffer (vector_index * VS) current_tuple_count data offset append_count in
          NumericSegment_Append_loop fuel st buffer (tuple_count + append_count) data (offset + append_count) (count - append_count)
  end.

(** Every round appends a row, so [count] rounds and one are enough. *)
Definition NumericSegment_Append (st : St) (buffer : list Z) (tuple_count : nat) (data : VectorData) (offset count : nat) : St * list Z * nat :=
  let '(st, buffer, total) := NumericSegment_Append_loop (S count) st buffer tuple_count data offset count in
  (st, buffer, (total - tuple_count)%nat).

Definition numeric_value (buffer : list Z) (row : nat) : Z := of_bits (le_decode (load_at type_size row buffer)).

(** [GetVectorCount] *)
Definition GetVectorCount (tuple_count vector_index : nat) : nat := Nat.min VS (tuple_count - vector_index * VS).

(** [memcpy] of the elements of one vector. *)
Definition NumericSegment_FetchBaseData (buffer : list Z) (tuple_count vector_index : nat) (result : list Z) : list Z :=
  let count := GetVectorCount tuple_count vector_index in
  (numeric_value buffer <$> seq (vector_index * VS) count) ++ drop count result.

Definition NumericSegment_FetchRow (buffer : list Z) (row_id : nat) (result : Z) : Z :=
  let vector_index := (row_id / VS)%nat in
  let id_in_vector := (row_id - vector_index * VS)%nat in
  numeric_value buffer (vector_index * VS + id_in_vector).
End numeric.

(** ** [ValiditySegment] *)

(** [validity_t] entries of the mask in a block. *)
Definition load_entry (buffer : list Z) (entry_idx : nat) : Z := le_decode (load_at 8 entry_idx buffer).

Definition validity_max_vector_count : nat := Nat.min (BLOCK_SIZE / (STANDARD_ENTRY_COUNT * 8)) 80.

Definition validity_buffer (fresh : list Z) : list Z := replicate BLOCK_SIZE 255 ++ drop BLOCK_SIZE fresh.

(** [mask.RowIsValidUnsafe] and [mask.SetInvalidUnsafe] on a block *)
Definition validity_value (buffer : list Z) (row : nat) : bool :=
  let '(entry_idx, idx_in_entry) := GetEntryIndex row in
  RowIsValid_entry (load_entry buffer entry_idx) idx_in_entry.

Definition block_SetInvalid (buffer : list Z) (row : nat) : list Z :=
  let '(entry_idx, idx_in_entry) := GetEntryIndex row in
  store_at 8 entry_idx
    (le_encode 8 (Z.land (load_entry buffer entry_idx) (Z.lnot (Z.shiftl 1 (Z.of_nat idx_in_entry))))) buffer.

Definition ValiditySegment_Append (stats : ValidityStatistics) (buffer : list Z) (tuple_count : nat) (data : VectorData) (offset vcount : nat)
    : ValidityStatistics * list Z * nat :=
  let append_count := Nat.min vcount (validity_max_vector_count * VS - tuple_count) in
  if AllValid (vd_validity data) then (stats, buffer, append_count)
  else
    let '(stats, buffer) :=
      for_ 0 append_count (λ i '(stats, buffer),
        let idx := vd_sel data !!! i in
        if negb (RowIsValidUnsafe (vd_validity data) idx) then
          (mkValidityStatistics true, block_SetInvalid buffer (tuple_count + i))
        else (stats, buffer)) (stats, buffer) in
    (stats, buffer, append_count).

Definition ValiditySegment_FetchBaseData (buffer : list Z) (tuple_count vector_index : nat) (result : list bool) : list bool :=
  let vector_mask := Some ((λ e, load_entry buffer (vector_index * STANDARD_ENTRY_COUNT + e)) <$> seq 0 STANDARD_ENTRY_COUNT) in
  if negb (CheckAllValid vector_mask VS) then
    RowIsValid (ValidityMask_Copy vector_mask VS) <$> seq 0 VS
  else result.

Definition ValiditySegment_FetchRow (buffer : list Z) (row_id : nat) (result : bool) : bool :=
  if negb (validity_value buffer row_id) then false else result.

(** [mask.SetValid] on the word that starts at a byte. *)
Definition byte_SetValid (byte_pos bit : nat) (buffer : list Z) : list Z :=
  let word := le_decode (take 8 (drop byte_pos buffer)) in
  memcpy_at byte_pos (le_encode 8 (Z.lor word (Z.shiftl 1 (Z.of_nat bit)))) buffer.

Definition ValiditySegment_RevertBlock (start_bit : nat) (buffer : list Z) : list Z :=
  let byte_pos := (start_bit / 8)%nat in
  let '(buffer, revert_start) :=
    if negb (start_bit mod 8 =? 0)%nat then
      let bit_start := (byte_pos * 8)%nat in
      let bit_end := ((byte_pos + 1) * 8)%nat in
      (for_ start_bit bit_end (λ i buffer, byte_SetValid byte_pos (i - bit_start) buffer) buffer, (bit_end / 8)%nat)
    else (buffer, byte_pos) in
  memcpy_at revert_start (replicate (BLOCK_SIZE - revert_start) 255) buffer.

(** The mask of a flat vector with these rows. *)
Definition mask_of (l : list bool) : ValidityMask :=
  for_ 0 (length l) (λ i (m : ValidityMask), if (l !!! i : bool) then m else SetInvalid m i) None.

(** ** The two kinds *)

(** Columns of 64-bit integers. *)
Definition BIGINT_of_bits (z : Z) : Z := wrapS 64 z.

#[global] Instance NumericSegmentKind : SegmentKind Z NumericStatistics := {|
  max_vector_count := numeric_max_vector_count 8;
  initial_buffer fresh := fresh;
  Append := NumericSegment_Append 8 NumericStatistics_Update;
  FetchBaseData := NumericSegment_FetchBaseData 8 BIGINT_of_bits;
  SegmentFetchRow buffer row _ := numeric_value 8 BIGINT_of_bits buffer row;
  RevertBlock _ buffer := buffer;
  Reference intermediate := intermediate;
  Orrify l := mkVectorData (seq 0 (length l)) l None;
|}.

#[global] Instance ValiditySegmentKind : SegmentKind bool ValidityStatistics := {|
  max_vector_count := validity_max_vector_count;
  initial_buffer := validity_buffer;
  Append := ValiditySegment_Append;
  FetchBaseData := ValiditySegment_FetchBaseData;
  SegmentFetchRow := ValiditySegment_FetchRow;
  RevertBlock := ValiditySegment_RevertBlock;
  Reference _ := replicate VS true;
  Orrify l := mkVectorData (seq 0 (length l)) [] (mask_of l);
|}.

(** ** Lemmas: arrays in memory *)

Lemma lookup_memcpy_at off bytes buffer k :
  (off + length bytes <= length buffer)%nat →
  memcpy_at off bytes buffer !! k = if decide (off <= k < off + length bytes)%nat then bytes !! (k - off)%nat else buffer !! k.
Proof.
  intros Hle. unfold memcpy_at. assert (length (take off buffer) = off) as Hlen by (rewrite length_take; lia).
  destruct (decide (k < off)%nat).
  - rewrite lookup_app_l by lia. rewrite lookup_take_lt by lia. rewrite decide_False by lia. done.
  - rewrite lookup_app_r by lia. rewrite Hlen. destruct (decide (k < off + length bytes)%nat).
    + rewrite lookup_app_l by lia. by rewrite decide_True by lia.
    + rewrite lookup_app_r by lia. rewrite lookup_drop, decide_False by lia. f_equal. lia.
Qed.

Lemma lookup_load_at size i buffer k : load_at size i buffer !! k = if decide (k < size)%nat then buffer !! (i * size + k)%nat else None.
Proof.
  unfold load_at. case_decide; [by rewrite lookup_take_lt, lookup_drop by done|]. apply lookup_ge_None. rewrite length_take. lia.
Qed.

Lemma load_store_at size i j bytes buffer :
  length bytes = size → (i * size + size <= length buffer)%nat →
  load_at size j (store_at size i bytes buffer) = if decide (i = j) then bytes else load_at size j buffer.
Proof.
  intros Hb Hle. apply list_eq. intros k. unfold store_at. rewrite lookup_load_at.
  destruct (decide (k < size)%nat) as [Hk|Hk].
  - rewrite lookup_memcpy_at by lia. destruct (decide (i = j)) as [->|Hne].
    + rewrite decide_True by lia. f_equal. lia.
    + assert (¬ (i * size <= j * size + k < i * size + length bytes)%nat) as Hout.
      { rewrite Hb. intros [H1 H2]. apply Hne. assert (i < S j ∧ j < S i)%nat by (split; apply (Nat.mul_lt_mono_pos_r size); nia). lia. }
      by rewrite lookup_load_at, decide_False, decide_True by done.
  - destruct (decide (i = j)); [symmetry; apply lookup_ge_None; lia|]. rewrite lookup_load_at. by rewrite decide_False.
Qed.

Lemma length_store_at size i bytes buffer :
  length bytes = size → (i * size + size <= length buffer)%nat → length (store_at size i bytes buffer) = length buffer.
Proof. intros. apply length_memcpy_at. lia. Qed.

(** ** Bits of memory *)

Definition bytes_ok (buffer : list Z) : Prop := Forall (λ b, 0 <= b < 256) buffer.

Lemma testbit_byte b z n : 0 <= b < 256 → 0 <= n → Z.testbit (b + 256 * z) n = if n <? 8 then Z.testbit b n else Z.testbit z (n - 8).
Proof.
  intros Hb Hn. change 256 with (2 ^ 8). destruct (Z.ltb_spec n 8).
  - rewrite <-(Z.mod_pow2_bits_low (b + 2 ^ 8 * z) 8) by lia. rewrite Z.mul_comm, Z.mod_add by lia. by rewrite (Z.mod_small b) by (change (2 ^ 8) with 256; lia).
  - replace n with ((n - 8) + 8) at 1 by lia. rewrite <-Z.div_pow2_bits by lia. rewrite Z.mul_comm, Z.div_add by lia. by rewrite (Z.div_small b) by (change (2 ^ 8) with 256; lia).
Qed.

Lemma le_decode_testbit l q s : bytes_ok l → (q < length l)%nat → 0 <= s < 8 → Z.testbit (le_decode l) (8 * Z.of_nat q + s) = Z.testbit (l !!! q) s.
Proof.
  intros Hl. revert q. induction Hl as [|b l Hb Hl IH]; intros q Hq Hs; [cbn in Hq; lia|]. cbn [le_decode]. rewrite testbit_byte by lia.
  destruct q as [|q]; [by rewrite (proj2 (Z.ltb_lt _ _)) by lia|]. rewrite (proj2 (Z.ltb_ge _ _)) by lia.
  replace (8 * Z.of_nat (S q) + s - 8) with (8 * Z.of_nat q + s) by lia. apply IH; [cbn in Hq; lia|done].
Qed.

Lemma le_encode_bytes_ok n z : bytes_ok (le_encode n z).
Proof. revert z. induction n as [|n IH]; intros z; constructor; [apply Z.mod_pos_bound; lia|apply IH]. Qed.

Lemma le_encode_testbit n z q s : (q < n)%nat → 0 <= s < 8 → Z.testbit (le_encode n z !!! q) s = Z.testbit z (8 * Z.of_nat q + s).
Proof.
  intros Hq Hs. rewrite <-le_decode_testbit by (rewrite ?length_le_encode; auto using le_encode_bytes_ok).
  rewrite le_decode_encode_mod. by rewrite Z.mod_pow2_bits_low by lia.
Qed.

Lemma bytes_ok_memcpy off b buffer : bytes_ok b → bytes_ok buffer → bytes_ok (memcpy_at off b buffer).
Proof. intros Hb Hbuf. unfold memcpy_at, bytes_ok. rewrite !Forall_app. auto using Forall_take, Forall_drop. Qed.

(** The bits of a block, in the order of the rows. *)
Definition bit_at (buffer : list Z) (r : nat) : bool := Z.testbit (buffer !!! (r / 8)%nat) (Z.of_nat (r mod 8)).

Lemma bit_position r : (r = 8 * (r / 8) + r mod 8 ∧ r mod 8 < 8)%nat.
Proof. split; [apply Nat.div_mod_eq|by apply Nat.mod_upper_bound]. Qed.

Lemma word_testbit buffer off r : bytes_ok buffer → (off + 8 <= length buffer)%nat → (off <= r / 8 < off + 8)%nat →
  Z.testbit (le_decode (take 8 (drop off buffer))) (Z.of_nat r - 8 * Z.of_nat off) = bit_at buffer r.
Proof.
  intros Hb Hl Hr. destruct (bit_position r) as [He Hm]. unfold bit_at.
  replace (Z.of_nat r - 8 * Z.of_nat off) with (8 * Z.of_nat (r / 8 - off) + Z.of_nat (r mod 8)) by lia.
  rewrite le_decode_testbit; [|by apply Forall_take, Forall_drop|rewrite length_take, length_drop; lia|lia].
  rewrite lookup_total_take_lt, lookup_total_drop by lia. do 2 f_equal. lia.
Qed.

Lemma bit_memcpy off b buffer r : (off + length b <= length buffer)%nat →
  bit_at (memcpy_at off b buffer) r =
    if decide (off <= r / 8 < off + length b)%nat then Z.testbit (b !!! (r / 8 - off)%nat) (Z.of_nat (r mod 8)) else bit_at buffer r.
Proof.
  intros Hl. unfold bit_at. rewrite !list_lookup_total_alt, lookup_memcpy_at by done. by case_decide.
Qed.

(** A word whose bit for row [r0] is set. *)
Lemma byte_SetValid_spec off bit buffer r : bytes_ok buffer → (off + 8 <= length buffer)%nat → (bit < 8)%nat →
  let buffer' := byte_SetValid off bit buffer in
  length buffer' = length buffer ∧ bytes_ok buffer' ∧ bit_at buffer' r = if decide (r = off * 8 + bit)%nat then true else bit_at buffer r.
Proof.
  intros Hb Hl Hbit. unfold byte_SetValid. set (word := le_decode _).
  split; [apply length_memcpy_at; rewrite length_le_encode; lia|]. split; [by apply bytes_ok_memcpy, Hb; apply le_encode_bytes_ok|].
  rewrite bit_memcpy by (rewrite length_le_encode; lia). rewrite length_le_encode. destruct (bit_position r) as [He Hm]. case_decide as Hin.
  - rewrite le_encode_testbit by lia. replace (8 * Z.of_nat (r / 8 - off) + Z.of_nat (r mod 8)) with (Z.of_nat r - 8 * Z.of_nat off) by lia.
    rewrite Z.lor_spec, Z.shiftl_1_l. unfold word. rewrite word_testbit by done. case_decide as Hr.
    + subst r. replace (Z.of_nat (off * 8 + bit) - 8 * Z.of_nat off) with (Z.of_nat bit) by lia. rewrite Z.pow2_bits_true by lia. apply orb_true_r.
    + rewrite Z.pow2_bits_false by lia. apply orb_false_r.
  - rewrite decide_False; [done|]. intros ->. apply Hin. rewrite Nat.div_add_l, Nat.div_small by lia. lia.
Qed.

(** ** What segments promise *)

Class SegmentKindLaws (T St : Type) `{!SegmentKind T St} : Type := {
  row_value : list Z → nat → T;
  (** values that can be stored *)
  value_ok : T → Prop;
  (** the part of a block behind the tuples, as [Append] needs it *)
  clean : list Z → nat → Prop;
  (** the value that [Append] takes for a row *)
  appended : VectorData → nat → nat → option T;
  max_vector_count_pos : (0 < max_vector_count (T := T) (St := St))%nat;
  initial_buffer_spec fresh : length fresh = BLOCK_SIZE →
    length (initial_buffer (T := T) (St := St) fresh) = BLOCK_SIZE ∧ clean (initial_buffer (T := T) (St := St) fresh) 0;
  Append_spec (st : St) buffer tuple_count data offset count :
    let n := Nat.min count (max_vector_count (T := T) (St := St) * VS - tuple_count) in
    length buffer = BLOCK_SIZE → clean buffer tuple_count → (tuple_count <= max_vector_count (T := T) (St := St) * VS)%nat →
    ∃ st' buffer', Append (T := T) st buffer tuple_count data offset count = (st', buffer', n) ∧
      length buffer' = BLOCK_SIZE ∧ clean buffer' (tuple_count + n) ∧
      (∀ i, (i < tuple_count)%nat → row_value buffer' i = row_value buffer i) ∧
      ∀ i v, (i < n)%nat → appended data offset i = Some v → value_ok v → row_value buffer' (tuple_count + i) = v;
  row_value_ok buffer i : value_ok (row_value buffer i);
  RevertBlock_spec buffer tuple_count start_row :
    length buffer = BLOCK_SIZE → clean buffer tuple_count → (start_row < max_vector_count (T := T) (St := St) * VS)%nat →
    let buffer' := RevertBlock (T := T) (St := St) start_row buffer in
    length buffer' = BLOCK_SIZE ∧ clean buffer' start_row ∧ ∀ i, (i < start_row)%nat → row_value buffer' i = row_value buffer i;
  FetchBaseData_spec buffer tuple_count vector_index result :
    (tuple_count <= max_vector_count (T := T) (St := St) * VS)%nat → (vector_index * VS < tuple_count)%nat → length result = VS →
    let result' := FetchBaseData (T := T) (St := St) buffer tuple_count vector_index (Reference (T := T) (St := St) result) in
    length result' = VS ∧
    ∀ i, (i < VS)%nat → (vector_index * VS + i < tuple_count)%nat → result' !! i = Some (row_value buffer (vector_index * VS + i));
  Orrify_spec (l : list T) i : (length l <= VS)%nat → (i < length l)%nat → appended (Orrify (T := T) (St := St) l) 0 i = l !! i;
}.

(** ** Numeric segments *)

Lemma BLOCK_SIZE_vectors : (80 * STANDARD_VECTOR_SIZE * 1 <= BLOCK_SIZE)%nat ∧ (8 * STANDARD_VECTOR_SIZE <= BLOCK_SIZE)%nat ∧
  (STANDARD_ENTRY_COUNT * 8 * 80 + 8 <= BLOCK_SIZE)%nat.
Proof. split_and!; apply Nat.leb_le; vm_compute; reflexivity. Qed.

Section numeric_lemmas.
Context (type_size : nat) (of_bits : Z → Z) {St : Type} (Update : St → Z → St).
Hypothesis type_size_pos : (0 < type_size)%nat.
Hypothesis type_size_small : (type_size * VS <= BLOCK_SIZE)%nat.
Implicit Types (buffer : list Z) (data : VectorData).

Notation max := (numeric_max_vector_count type_size).
Notation value := (numeric_value type_size of_bits).

Lemma numeric_max_pos : (0 < max)%nat.
Proof.
  unfold numeric_max_vector_count. apply Nat.min_glb_lt; [|lia]. apply Nat.div_str_pos. split; [|done].
  apply Nat.mul_pos_pos; [done|apply STANDARD_VECTOR_SIZE_pos].
Qed.

Lemma numeric_max_fits row : (row < max * VS)%nat → (row * type_size + type_size <= BLOCK_SIZE)%nat.
Proof.
  intros Hrow. assert (max * (type_size * VS) <= BLOCK_SIZE)%nat as Hm.
  { etransitivity; [apply Nat.mul_le_mono_r, Nat.le_min_l|]. rewrite Nat.mul_comm. apply Nat.Div0.mul_div_le. }
  nia.
Qed.

(** The value of an entry that is not NULL. *)
Definition numeric_appended data (offset i : nat) : option Z :=
  let source_idx := vd_sel data !!! (offset + i)%nat in
  if RowIsValid (vd_validity data) source_idx then Some (vd_data data !!! source_idx) else None.

Definition stores_ok (v : Z) : Prop := of_bits (v mod 2 ^ (8 * Z.of_nat type_size)) = v.

Definition same_rows (n : nat) buffer buffer' : Prop := ∀ i, (i < n)%nat → value buffer' i = value buffer i.

Lemma value_store_at i j v buffer : (i * type_size + type_size <= length buffer)%nat → stores_ok v →
  value (store_at type_size i (le_encode type_size v) buffer) j = if decide (i = j) then v else value buffer j.
Proof.
  intros Hle Hv. unfold numeric_value. rewrite load_store_at by (apply length_le_encode || done).
  case_decide; [|done]. by rewrite le_decode_encode_mod.
Qed.

Lemma value_store_at_other i j b buffer : length b = type_size → (i * type_size + type_size <= length buffer)%nat → i ≠ j →
  value (store_at type_size i b buffer) j = value buffer j.
Proof. intros. unfold numeric_value. rewrite load_store_at by done. by rewrite decide_False. Qed.

(** One round stores [count] entries from row [row] on. *)
Lemma AppendLoop_spec st buffer target target_offset data offset count :
  let row := (target + target_offset)%nat in
  (∀ i, (i < count)%nat → ((row + i) * type_size + type_size <= length buffer)%nat) →
  let '(_, buffer') := AppendLoop type_size Update st buffer target target_offset data offset count in
  length buffer' = length buffer ∧ (∀ j, (j < row ∨ row + count <= j)%nat → value buffer' j = value buffer j) ∧
  ∀ i v, (i < count)%nat → numeric_appended data offset i = Some v → stores_ok v → value buffer' (row + i) = v.
Proof.
  intros row Hfit.
  assert (∀ body, (∀ i st buffer, body i (st, buffer) = let source_idx := vd_sel data !!! (offset + i)%nat in
      if RowIsValid (vd_validity data) source_idx then
        (Update st (vd_data data !!! source_idx), store_at type_size (target + (target_offset + i)) (le_encode type_size (vd_data data !!! source_idx)) buffer)
      else (st, buffer)) →
    let '(_, buffer') := for_ 0 count body (st, buffer) in
    length buffer' = length buffer ∧ (∀ j, (j < row ∨ row + count <= j)%nat → value buffer' j = value buffer j) ∧
    ∀ i v, (i < count)%nat → numeric_appended data offset i = Some v → stores_ok v → value buffer' (row + i) = v) as Hbody.
  { intros body Hbody. set (P := λ (n : nat) (s : St * list Z), length s.2 = length buffer ∧
      (∀ j, (j < row ∨ row + n <= j)%nat → value s.2 j = value buffer j) ∧
      ∀ i v, (i < n)%nat → numeric_appended data offset i = Some v → stores_ok v → value s.2 (row + i) = v).
    pose proof (for_ind P 0 count body (st, buffer)) as H. destruct (for_ 0 count body (st, buffer)) as [st' buffer'].
    apply H; [lia|split_and!; [done|done|intros; lia]|]. clear H. intros n [s b] Hn (Hl & Hsame & Hval). unfold P. cbn [snd] in *.
    rewrite Hbody. cbv zeta. specialize (Hfit n ltac:(lia)). replace (target + (target_offset + n))%nat with (row + n)%nat by lia.
    destruct (RowIsValid (vd_validity data) (vd_sel data !!! (offset + n)%nat)) eqn:Hv; cbn [snd].
    - rewrite length_store_at by (rewrite ?length_le_encode, ?Hl; done). split; [done|]. split.
      + intros j Hj. rewrite value_store_at_other by (rewrite ?length_le_encode, ?Hl; done || lia). apply Hsame. lia.
      + intros i v Hi Ha Hok. destruct (decide (i = n)) as [->|].
        * unfold numeric_appended in Ha. rewrite Hv in Ha. injection Ha as ->. rewrite value_store_at by (rewrite ?Hl; done). by rewrite decide_True.
        * rewrite value_store_at_other by (rewrite ?length_le_encode, ?Hl; done || lia). apply Hval; [lia|done..].
    - split; [done|]. split; [intros j Hj; apply Hsame; lia|]. intros i v Hi Ha Hok. destruct (decide (i = n)) as [->|]; [|apply Hval; [lia|done..]].
      unfold numeric_appended in Ha. by rewrite Hv in Ha. }
  unfold AppendLoop. destruct (vd_validity data) as [words|] eqn:Hd; cbn [AllValid negb]; apply Hbody.
  - intros i s b. cbv zeta. by destruct (RowIsValid (Some words) (vd_sel data !!! (offset + i)%nat)).
  - intros i s b. done.
Qed.

Lemma NumericSegment_Append_loop_spec fuel st buffer tuple_count data offset count :
  (count < fuel)%nat → length buffer = BLOCK_SIZE → (tuple_count <= max * VS)%nat →
  let n := Nat.min count (max * VS - tuple_count) in
  let '(_, buffer', total) := NumericSegment_Append_loop type_size Update fuel st buffer tuple_count data offset count in
  total = (tuple_count + n)%nat ∧ length buffer' = BLOCK_SIZE ∧ same_rows tuple_count buffer buffer' ∧
  ∀ i v, (i < n)%nat → numeric_appended data offset i = Some v → stores_ok v → value buffer' (tuple_count + i) = v.
Proof.
  pose proof STANDARD_VECTOR_SIZE_pos as HVS.
  revert st buffer tuple_count offset count. induction fuel as [|fuel IH]; intros st buffer tc offset count Hfuel Hlen Htc; [lia|]. cbv zeta.
  cbn [NumericSegment_Append_loop]. destruct (Nat.eqb_spec count 0) as [->|Hc]; [split_and!; [lia|done|done|intros; lia]|].
  pose proof (Nat.div_mod tc VS ltac:(lia)) as Hdm. pose proof (Nat.mod_upper_bound tc VS ltac:(lia)) as Hmod.
  destruct (Nat.eqb_spec (tc / VS) max) as [Heq|Hne].
  { rewrite Heq in Hdm. split_and!; [lia|done|done|]. intros i v Hi. lia. }
  assert (tc / VS < max)%nat as Hlt.
  { assert (tc / VS <= max)%nat; [|lia]. apply Nat.Div0.div_le_upper_bound. lia. }
  set (ac := Nat.min (VS - (tc - tc / VS * VS)) count).
  assert (0 < ac ∧ tc + ac <= max * VS)%nat as [Hac Hfit].
  { unfold ac. split; [lia|]. assert (S (tc / VS) * VS <= max * VS)%nat by (apply Nat.mul_le_mono_r; lia). lia. }
  pose proof (AppendLoop_spec st buffer (tc / VS * VS) (tc - tc / VS * VS) data offset ac) as Hloop. cbv zeta in Hloop.
  replace (tc / VS * VS + (tc - tc / VS * VS))%nat with tc in Hloop by lia.
  destruct (AppendLoop type_size Update st buffer (tc / VS * VS) (tc - tc / VS * VS) data offset ac) as [st1 buffer1].
  destruct Hloop as (Hl1 & Hsame1 & Hval1); [intros i Hi; rewrite Hlen; apply numeric_max_fits; lia|].
  specialize (IH st1 buffer1 (tc + ac)%nat (offset + ac)%nat (count - ac)%nat ltac:(lia) ltac:(congruence) Hfit). cbv zeta in IH.
  destruct (NumericSegment_Append_loop type_size Update fuel st1 buffer1 (tc + ac) data (offset + ac) (count - ac)) as [[st2 buffer2] total].
  destruct IH as (-> & Hl2 & Hsame2 & Hval2). assert (ac <= count)%nat by (unfold ac; lia). split_and!; [lia|done| |].
  - intros i Hi. rewrite Hsame2 by lia. apply Hsame1. lia.
  - intros i v Hi Ha Hok. destruct (decide (i < ac)%nat).
    + rewrite Hsame2 by lia. by apply Hval1.
    + replace (tc + i)%nat with (tc + ac + (i - ac))%nat by lia. apply Hval2; [lia| |done].
      unfold numeric_appended in *. by replace (offset + ac + (i - ac))%nat with (offset + i)%nat by lia.
Qed.

(** What holds of the statistics after every update. *)
Lemma NumericSegment_Append_stats (P : St → Prop) st buffer tuple_count data offset count :
  P st → (∀ i v st, (i < count)%nat → numeric_appended data offset i = Some v → P st → P (Update st v)) →
  P (NumericSegment_Append type_size Update st buffer tuple_count data offset count).1.1.
Proof.
  assert (∀ st buffer target target_offset offset n, P st → (∀ i v st, (i < n)%nat → numeric_appended data offset i = Some v → P st → P (Update st v)) →
    P (AppendLoop type_size Update st buffer target target_offset data offset n).1) as Hloop.
  { clear. intros st buffer target target_offset offset n Hst Hup. unfold AppendLoop.
    destruct (AllValid (vd_validity data)) eqn:Hv; cbn [negb]; apply (for_ind (λ _ s, P s.1)); try done || lia; intros i [s b] Hi Hs; cbn [fst] in *.
    - apply (Hup i); [lia| |done]. unfold numeric_appended. by destruct (vd_validity data).
    - destruct (RowIsValid (vd_validity data) (vd_sel data !!! (offset + i)%nat)) eqn:Hr; cbn [negb fst]; [|done].
      apply (Hup i); [lia| |done]. unfold numeric_appended. by rewrite Hr. }
  intros Hst Hup. unfold NumericSegment_Append. generalize (S count) as fuel. intros fuel.
  assert (P (NumericSegment_Append_loop type_size Update fuel st buffer tuple_count data offset count).1.1) as H;
    [|by destruct (NumericSegment_Append_loop _ _ _ _ _ _ _ _ _) as [[? ?] ?]].
  revert st buffer tuple_count offset count Hst Hup. induction fuel as [|fuel IH]; intros st buffer tc offset count Hst Hup; [done|]. cbn [NumericSegment_Append_loop].
  destruct (count =? 0)%nat; [done|]. destruct (tc / VS =? max)%nat; [done|]. set (ac := Nat.min _ count).
  pose proof (Hloop st buffer (tc / VS * VS)%nat (tc - tc / VS * VS)%nat offset ac Hst) as Hl. destruct (AppendLoop _ _ _ _ _ _ _ _ _) as [st1 buffer1]. cbn [fst] in Hl.
  apply IH; [apply Hl; intros i v s Hi; apply Hup; unfold ac in Hi; lia|]. intros i v s Hi Ha. apply (Hup (ac + i)%nat); [lia|].
  unfold numeric_appended in *. by rewrite Nat.add_assoc.
Qed.

Lemma NumericSegment_FetchBaseData_spec buffer tuple_count vector_index result :
  (vector_index * VS < tuple_count)%nat → length result = VS →
  let result' := NumericSegment_FetchBaseData type_size of_bits buffer tuple_count vector_index result in
  length result' = VS ∧
  ∀ i, (i < VS)%nat → (vector_index * VS + i < tuple_count)%nat → result' !! i = Some (value buffer (vector_index * VS + i)).
Proof.
  intros Hlt Hlen. unfold NumericSegment_FetchBaseData, GetVectorCount. split; [rewrite length_app, length_fmap, length_seq, length_drop; lia|].
  intros i Hi Hrow. rewrite lookup_app_l by (rewrite length_fmap, length_seq; lia). by rewrite list_lookup_fmap, lookup_seq_lt by lia.
Qed.
End numeric_lemmas.

(** ** Validity segments *)

Section validity_lemmas.
Implicit Types (buffer : list Z) (data : VectorData).

Notation max := validity_max_vector_count.

Lemma validity_max_pos : (0 < max)%nat.
Proof.
  unfold validity_max_vector_count. apply Nat.min_glb_lt; [|lia]. apply Nat.div_str_pos. pose proof BLOCK_SIZE_vectors as (_ & _ & H).
  assert (0 < STANDARD_ENTRY_COUNT)%nat by (apply Nat.ltb_lt; vm_compute; reflexivity). lia.
Qed.

Lemma VS_entries : VS = (STANDARD_ENTRY_COUNT * bits)%nat.
Proof. apply Nat.eqb_eq. vm_compute. reflexivity. Qed.

Lemma validity_max_fits row : (row < max * VS)%nat → (row / bits * 8 + 8 <= BLOCK_SIZE)%nat.
Proof.
  intros Hrow. rewrite VS_entries in Hrow. assert (row / bits < max * STANDARD_ENTRY_COUNT)%nat as Hlt.
  { apply Nat.Div0.div_lt_upper_bound. lia. }
  pose proof BLOCK_SIZE_vectors as (_ & _ & Hb). assert (max <= 80)%nat by apply Nat.le_min_r.
  assert (max * STANDARD_ENTRY_COUNT <= 80 * STANDARD_ENTRY_COUNT)%nat by (apply Nat.mul_le_mono_r; done). lia.
Qed.

Lemma validity_value_testbit buffer row : validity_value buffer row = Z.testbit (load_entry buffer (row / bits)) (Z.of_nat (row mod bits)).
Proof. unfold validity_value, GetEntryIndex. apply RowIsValid_entry_testbit. Qed.

Lemma block_SetInvalid_spec buffer r s : (r / bits * 8 + 8 <= length buffer)%nat →
  length (block_SetInvalid buffer r) = length buffer ∧
  validity_value (block_SetInvalid buffer r) s = if decide (s = r) then false else validity_value buffer s.
Proof.
  intros Hr. unfold block_SetInvalid, GetEntryIndex. split; [by apply length_store_at; rewrite ?length_le_encode|].
  rewrite !validity_value_testbit. unfold load_entry at 1. rewrite load_store_at by (rewrite ?length_le_encode; done).
  destruct (decide (r / bits = s / bits)%nat) as [He|He].
  - rewrite le_decode_encode_mod, Z.mod_pow2_bits_low.
    2: { destruct (entry_split s) as [_ H]. rewrite BITS_PER_VALUE_eq in *. lia. }
    rewrite Z.land_spec, Z.lnot_spec, Z.shiftl_1_l, <-He by lia. destruct (decide (s = r)) as [->|Hne].
    + rewrite Z.pow2_bits_true by lia. apply andb_false_r.
    + rewrite Z.pow2_bits_false, andb_true_r; [done|]. intros Heq. apply Hne, same_row; [done|lia].
  - rewrite decide_False by (intros ->; done). done.
Qed.

(** The entry that is appended does not depend on the offset. *)
Definition validity_appended data (offset i : nat) : option bool := Some (RowIsValid (vd_validity data) (vd_sel data !!! i)).

Definition validity_clean buffer (n : nat) : Prop := bytes_ok buffer ∧ ∀ i, (n <= i < max * VS)%nat → validity_value buffer i = true.

Lemma ValiditySegment_Append_spec stats buffer tuple_count data offset count :
  let n := Nat.min count (max * VS - tuple_count) in
  length buffer = BLOCK_SIZE → validity_clean buffer tuple_count →
  ∃ stats' buffer', ValiditySegment_Append stats buffer tuple_count data offset count = (stats', buffer', n) ∧
    length buffer' = BLOCK_SIZE ∧ validity_clean buffer' (tuple_count + n) ∧
    (∀ i, (i < tuple_count)%nat → validity_value buffer' i = validity_value buffer i) ∧
    ∀ i v, (i < n)%nat → validity_appended data offset i = Some v → validity_value buffer' (tuple_count + i) = v.
Proof.
  intros n Hlen [Hbytes Hclean]. unfold ValiditySegment_Append. fold n. unfold validity_appended.
  destruct (vd_validity data) as [words|] eqn:Hv; cbn [AllValid]; cycle 1.
  { exists stats, buffer. split_and!; [done|done| |done|].
    - split; [done|]. intros i Hi. apply Hclean. lia.
    - intros i v Hi [= <-]. apply Hclean. lia. }
  set (P := λ (k : nat) (s : ValidityStatistics * list Z), (length s.2 = BLOCK_SIZE ∧ bytes_ok s.2) ∧
    ∀ i, (i < max * VS)%nat → validity_value s.2 i =
      if decide (tuple_count <= i < tuple_count + k)%nat then RowIsValid (Some words) (vd_sel data !!! (i - tuple_count)%nat) else validity_value buffer i).
  match goal with |- context [for_ 0 n ?body ?s] => set (b := body); pose proof (for_ind P 0 n b s) as HP end.
  destruct (for_ 0 n b (stats, buffer)) as [stats' buffer'] eqn:Hfor.
  destruct HP as [[Hl Hbytes'] Hval]; [lia|split; [done|intros i Hi; by rewrite decide_False by lia]| |].
  { intros k [st bf] Hk [[Hl Hbf] Hval]. unfold P, b. cbn [snd] in *.
    change (RowIsValidUnsafe (Some words)) with (RowIsValid (Some words)).
    destruct (RowIsValid (Some words) (vd_sel data !!! k)) eqn:Hr; cbn [negb snd].
    - split; [done|]. intros i Hi. rewrite Hval by done. destruct (decide (i = tuple_count + k)%nat) as [->|].
      + rewrite decide_False, decide_True by lia. replace (tuple_count + k - tuple_count)%nat with k by lia. rewrite Hr. apply Hclean. lia.
      + by repeat case_decide; try lia.
    - destruct (block_SetInvalid_spec bf (tuple_count + k) 0) as [Hl' _]; [rewrite Hl; apply validity_max_fits; lia|].
      split; [split; [congruence|by apply bytes_ok_memcpy; [apply le_encode_bytes_ok|]]|]. intros i Hi.
      destruct (block_SetInvalid_spec bf (tuple_count + k) i) as [_ ->]; [rewrite Hl; apply validity_max_fits; lia|]. rewrite Hval by done.
      destruct (decide (i = tuple_count + k)%nat) as [->|].
      + rewrite decide_True by lia. by replace (tuple_count + k - tuple_count)%nat with k by lia.
      + by repeat case_decide; try lia. }
  cbn [snd] in *. exists stats', buffer'. split_and!; [done|done| | |].
  - split; [done|]. intros i Hi. rewrite Hval, decide_False by lia. apply Hclean. lia.
  - intros i Hi. destruct (decide (tuple_count <= max * VS)%nat).
    + by rewrite Hval, decide_False by lia.
    + assert (n = 0%nat) as Hn by lia. rewrite Hn, for_done in Hfor by lia. by injection Hfor as _ <-.
  - intros i v Hi [= <-]. rewrite Hval, decide_True by lia. by replace (tuple_count + i - tuple_count)%nat with i by lia.
Qed.

Lemma validity_buffer_spec fresh : length fresh = BLOCK_SIZE → length (validity_buffer fresh) = BLOCK_SIZE ∧ validity_clean (validity_buffer fresh) 0.
Proof.
  intros Hf. unfold validity_buffer. rewrite drop_ge, app_nil_r by lia. split; [apply length_replicate|]. split; [by apply Forall_replicate; lia|]. intros i [_ Hi].
  rewrite validity_value_testbit. unfold load_entry.
  assert (load_at 8 (i / bits) (replicate BLOCK_SIZE 255) = replicate 8 255) as ->.
  { apply list_eq. intros k. rewrite lookup_load_at. pose proof (validity_max_fits i Hi). case_decide.
    - rewrite !lookup_replicate_2 by lia. done.
    - symmetry. apply lookup_ge_None. rewrite length_replicate. lia. }
  change (le_decode (replicate 8 255)) with MAX_ENTRY. apply MAX_ENTRY_testbit, entry_split.
Qed.

(** Rows of a block are its bits. *)
Lemma validity_value_bit buffer r : bytes_ok buffer → (r / bits * 8 + 8 <= length buffer)%nat → validity_value buffer r = bit_at buffer r.
Proof.
  intros Hb Hl. pose proof BITS_PER_VALUE_eq as HB. pose proof (Nat.div_mod_eq r bits) as Hdm. pose proof (Nat.mod_upper_bound r bits ltac:(lia)) as Hm.
  rewrite validity_value_testbit. unfold load_entry, load_at. rewrite <-(word_testbit buffer (r / bits * 8) r Hb Hl).
  - f_equal. lia.
  - rewrite HB in *. pose proof (bit_position r). lia.
Qed.

(** Reverting an append: the rows before [n] stay, the others are valid again. *)
Lemma ValiditySegment_RevertBlock_spec buffer m n : length buffer = BLOCK_SIZE → validity_clean buffer m → (n < max * VS)%nat →
  let buffer' := ValiditySegment_RevertBlock n buffer in
  length buffer' = BLOCK_SIZE ∧ validity_clean buffer' n ∧ ∀ i, (i < n)%nat → validity_value buffer' i = validity_value buffer i.
Proof.
  intros Hlen [Hbytes _] Hn buffer'. pose proof BLOCK_SIZE_vectors as (_ & _ & Hbs). pose proof (bit_position n) as [Hpos Hmod].
  assert (n / 8 + 8 <= BLOCK_SIZE)%nat as Hfit.
  { pose proof VS_entries as HV. rewrite BITS_PER_VALUE_eq in HV. assert (max <= 80)%nat by apply Nat.le_min_r.
    assert (max * VS <= 80 * VS)%nat by (by apply Nat.mul_le_mono_r). lia. }
  assert (∃ buffer1 start, ValiditySegment_RevertBlock n buffer = memcpy_at start (replicate (BLOCK_SIZE - start) 255) buffer1 ∧
    (n <= start * 8 ∧ start <= BLOCK_SIZE)%nat ∧ length buffer1 = BLOCK_SIZE ∧ bytes_ok buffer1 ∧
    ∀ r, (r / 8 < start)%nat → bit_at buffer1 r = if decide (r < n)%nat then bit_at buffer r else true) as (buffer1 & start & Heq & Hstart & Hl1 & Hb1 & Hbits).
  { unfold ValiditySegment_RevertBlock. destruct (Nat.eqb_spec (n mod 8) 0) as [Hz|Hz]; cbn [negb].
    - exists buffer, (n / 8)%nat. split_and!; [done|lia..|done|done|]. intros r Hr. pose proof (bit_position r). by rewrite decide_True by lia.
    - set (P := λ (k : nat) b, length b = BLOCK_SIZE ∧ bytes_ok b ∧
        ∀ r, (r / 8 < S (n / 8))%nat → bit_at b r = if decide (n <= r < k)%nat then true else bit_at buffer r).
      assert (P ((n / 8 + 1) * 8)%nat (for_ n ((n / 8 + 1) * 8) (λ i b, byte_SetValid (n / 8) (i - n / 8 * 8) b) buffer)) as (H1 & H2 & H3).
      { apply (for_ind P); [lia|split_and!; [done|done|]; intros r Hr; by rewrite decide_False by lia|].
        intros k b Hk (H1 & H2 & H3). pose proof (λ r, byte_SetValid_spec (n / 8) (k - n / 8 * 8) b r H2 ltac:(lia) ltac:(lia)) as Hset. split_and!.
        - destruct (Hset 0%nat) as (-> & _). done.
        - by destruct (Hset 0%nat) as (_ & ? & _).
        - intros r Hr. destruct (Hset r) as (_ & _ & ->). rewrite H3 by done. repeat case_decide; done || lia. }
      eexists _, _. split; [reflexivity|]. rewrite Nat.div_mul by lia. split_and!; [lia|lia|exact H1|exact H2|].
      intros r Hr. rewrite H3 by lia. pose proof (bit_position r). repeat case_decide; done || lia. }
  assert (length buffer' = BLOCK_SIZE) as Hl' by (unfold buffer'; rewrite Heq; rewrite length_memcpy_at; rewrite ?length_replicate; lia).
  assert (bytes_ok buffer') as Hb' by (unfold buffer'; rewrite Heq; apply bytes_ok_memcpy; [apply Forall_replicate; lia|done]).
  assert (∀ r, (r < max * VS)%nat → validity_value buffer' r = if decide (r < n)%nat then validity_value buffer r else true) as Hval.
  { intros r Hr. pose proof (validity_max_fits r Hr) as Hfr.
    rewrite (validity_value_bit buffer r), (validity_value_bit buffer' r) by (rewrite ?Hl', ?Hlen; done). unfold buffer'. rewrite Heq.
    assert (r / 8 < BLOCK_SIZE)%nat as Hr8.
    { pose proof BITS_PER_VALUE_eq. pose proof (bit_position r). pose proof (Nat.div_mod_eq r bits). pose proof (Nat.mod_upper_bound r bits ltac:(lia)). lia. }
    rewrite bit_memcpy by (rewrite length_replicate; lia). rewrite length_replicate. case_decide as Hin; [|apply Hbits; lia].
    rewrite lookup_total_replicate_2 by lia. pose proof (bit_position r) as [Hr1 Hr2]. rewrite decide_False by lia.
    revert Hr2. generalize (r mod 8)%nat. intros k Hk. do 8 (destruct k as [|k]; [reflexivity|]). lia. }
  split_and!; [done| |].
  - split; [done|]. intros i Hi. by rewrite Hval, decide_False by lia.
  - intros i Hi. by rewrite Hval, decide_True by lia.
Qed.

Lemma vector_row k i : ((k * VS + i) / bits = k * STANDARD_ENTRY_COUNT + i / bits ∧ (k * VS + i) mod bits = i mod bits)%nat.
Proof.
  pose proof BITS_PER_VALUE_eq. rewrite VS_entries. replace (k * (STANDARD_ENTRY_COUNT * bits) + i)%nat with (i + k * STANDARD_ENTRY_COUNT * bits)%nat by lia.
  rewrite Nat.div_add, Nat.Div0.mod_add by lia. split; [lia|done].
Qed.

Lemma ValiditySegment_FetchBaseData_spec buffer tuple_count vector_index :
  let result' := ValiditySegment_FetchBaseData buffer tuple_count vector_index (replicate VS true) in
  length result' = VS ∧ ∀ i, (i < VS)%nat → result' !! i = Some (validity_value buffer (vector_index * VS + i)).
Proof.
  unfold ValiditySegment_FetchBaseData. set (words := (λ e, load_entry buffer (vector_index * STANDARD_ENTRY_COUNT + e)) <$> seq 0 STANDARD_ENTRY_COUNT).
  assert (∀ e, (e < STANDARD_ENTRY_COUNT)%nat → words !!! e = load_entry buffer (vector_index * STANDARD_ENTRY_COUNT + e)) as Hw.
  { intros e He. apply list_lookup_total_correct. unfold words. by rewrite list_lookup_fmap, lookup_seq_lt by done. }
  assert (∀ i, (i < VS)%nat → (i / bits < STANDARD_ENTRY_COUNT)%nat) as Hent.
  { intros i Hi. rewrite VS_entries in Hi. apply Nat.Div0.div_lt_upper_bound. lia. }
  assert (∀ i, validity_value buffer (vector_index * VS + i) =
    Z.testbit (load_entry buffer (vector_index * STANDARD_ENTRY_COUNT + i / bits)) (Z.of_nat (i mod bits))) as Hval.
  { intros i. rewrite validity_value_testbit. by destruct (vector_row vector_index i) as [-> ->]. }
  destruct (CheckAllValid (Some words) VS) eqn:Hall; cbn [negb].
  - split; [apply length_replicate|]. intros i Hi. rewrite lookup_replicate_2 by done. f_equal. rewrite Hval.
    unfold CheckAllValid in Hall. apply Nat.eqb_eq in Hall. rewrite (proj2 (count_all (λ i, AllValid_entry (words !!! i)) _)) in Hall.
    specialize (Hall _ (EntryCount_lt i VS Hi)). rewrite Hw in Hall by auto. apply Z.eqb_eq in Hall. rewrite Hall.
    symmetry. apply MAX_ENTRY_testbit, entry_split.
  - split; [by rewrite length_fmap, length_seq|]. intros i Hi. rewrite list_lookup_fmap, lookup_seq_lt by done. cbn [fmap option_fmap option_map Nat.add]. f_equal.
    cbn [ValidityMask_Copy]. rewrite RowIsValid_testbit, Hval. unfold ValidityData_copy. rewrite for_insert_lookup by (rewrite length_replicate; by apply EntryCount_lt).
    rewrite (proj2 (Nat.ltb_lt _ _) (EntryCount_lt i VS Hi)). by rewrite Hw by auto.
Qed.

Lemma mask_of_spec l i : (length l <= VS)%nat → (i < length l)%nat → RowIsValid (mask_of l) i = l !!! i.
Proof.
  intros Hl Hi. unfold mask_of.
  set (P := λ (n : nat) (m : ValidityMask), (VS <= capacity m)%nat ∧ ∀ j, (j < VS)%nat → RowIsValid m j = if (j <? n)%nat then l !!! j else true).
  assert (P (length l) (for_ 0 (length l) (λ i (m : ValidityMask), if (l !!! i : bool) then m else SetInvalid m i) None)) as [_ HP].
  { apply (for_ind P); [lia| |].
    - split; [|done]. cbn [capacity]. change (EntryCount VS) with STANDARD_ENTRY_COUNT. rewrite VS_entries at 1. lia.
    - intros k m Hk [Hc Hm]. assert (∀ j, (j <? S k)%nat = (j <? k)%nat || (j =? k)%nat) as Hj.
      { intros j. destruct (Nat.ltb_spec j (S k)), (Nat.ltb_spec j k), (Nat.eqb_spec j k); done || lia. }
      destruct (l !!! k) eqn:Hlk.
      + split; [done|]. intros j Hjv. rewrite Hm, Hj by done. destruct (Nat.ltb_spec j k); [done|]. destruct (Nat.eqb_spec j k) as [->|]; done.
      + split; [by rewrite (capacity_Set m k false : capacity (SetInvalid m k) = _)|]. intros j Hjv.
        pose proof (RowIsValid_Set m k false j ltac:(lia) ltac:(lia)) as Hset. cbn [ValidityMask_Set] in Hset. rewrite Hset, Hm, Hj by lia.
        destruct (Nat.ltb_spec j k), (Nat.eqb_spec j k), (decide (j = k)); subst; cbn [orb]; first [done | lia | congruence]. }
  rewrite HP by lia. by rewrite (proj2 (Nat.ltb_lt _ _) Hi).
Qed.
End validity_lemmas.

(** ** The two kinds keep the promises *)

Lemma BIGINT_stores_ok v : inS 64 v → stores_ok 8 BIGINT_of_bits v.
Proof.
  intros Hv. unfold stores_ok, BIGINT_of_bits. change (8 * Z.of_nat 8) with 64.
  unfold wrapS, wrapU. rewrite Zplus_mod_idemp_l. by apply (wrapS_small 64).
Qed.

#[global] Program Instance NumericSegmentKindLaws : SegmentKindLaws Z NumericStatistics := {|
  row_value := numeric_value 8 BIGINT_of_bits;
  value_ok := inS 64;
  clean _ _ := True;
  appended := numeric_appended;
|}.
Next Obligation. apply numeric_max_pos; [lia|]. apply BLOCK_SIZE_vectors. Qed.
Next Obligation. done. Qed.
Next Obligation.
  intros st buffer tc data offset count. cbv zeta. intros Hlen _ Htc. cbn [Append NumericSegmentKind max_vector_count]. unfold NumericSegment_Append.
  pose proof (NumericSegment_Append_loop_spec 8 BIGINT_of_bits NumericStatistics_Update ltac:(lia) (proj1 (proj2 BLOCK_SIZE_vectors)) (S count) st buffer tc data offset count
    ltac:(lia) Hlen Htc) as H. cbv zeta in H.
  destruct (NumericSegment_Append_loop 8 NumericStatistics_Update (S count) st buffer tc data offset count) as [[st' buffer'] total].
  destruct H as (-> & Hl & Hsame & Hval). exists st', buffer'. split; [f_equal; lia|]. split; [exact Hl|]. split; [exact I|]. split; [exact Hsame|].
  intros i v Hi Ha Hok. apply Hval; [done|done|]. by apply BIGINT_stores_ok.
Qed.
Next Obligation. intros buffer i. apply wrapS_range. lia. Qed.
Next Obligation. done. Qed.
Next Obligation. intros buffer tc k result _ Hk Hl. exact (NumericSegment_FetchBaseData_spec 8 BIGINT_of_bits ltac:(lia) (proj1 (proj2 BLOCK_SIZE_vectors)) buffer tc k result Hk Hl). Qed.
Next Obligation.
  intros l i _ Hi. cbn [Orrify NumericSegmentKind]. unfold numeric_appended. cbn [vd_sel vd_data vd_validity RowIsValid Nat.add].
  rewrite lookup_total_seq_lt by done. symmetry. by apply list_lookup_lookup_total_lt.
Qed.

#[global] Program Instance ValiditySegmentKindLaws : SegmentKindLaws bool ValidityStatistics := {|
  row_value := validity_value;
  value_ok _ := True;
  clean := validity_clean;
  appended := validity_appended;
|}.
Next Obligation. apply validity_max_pos. Qed.
Next Obligation. apply validity_buffer_spec. Qed.
Next Obligation.
  intros st buffer tc data offset count n Hl Hc _. destruct (ValiditySegment_Append_spec st buffer tc data offset count Hl Hc) as (st' & b' & H1 & H2 & H3 & H4 & H5).
  exists st', b'. split_and!; [done..|]. intros i v Hi Ha _. by apply H5.
Qed.
Next Obligation. done. Qed.
Next Obligation. intros buffer tc n Hl Hc Hn. by apply (ValiditySegment_RevertBlock_spec buffer tc). Qed.
Next Obligation. intros buffer tc k result _ _ _. destruct (ValiditySegment_FetchBaseData_spec buffer tc k) as [H1 H2]. split; [done|auto]. Qed.
Next Obligation.
  intros l i Hl Hi. cbn [Orrify ValiditySegmentKind]. unfold validity_appended. cbn [vd_sel vd_validity].
  rewrite lookup_total_seq_lt by done. rewrite Nat.add_0_l, mask_of_spec by done. symmetry. by apply list_lookup_lookup_total_lt.
Qed.
