(* ===== verification/ColumnData.v ===== *)
(** * Columns: segments, appends and checkpoints

    Models src/src/storage/column_data.cpp with the segments of
    src/src/storage/table/transient_segment.cpp and persistent_segment.cpp, for
    columns of any kind of ColumnSegment.v: how rows are appended and reverted,
    and how [ColumnData::Checkpoint] writes the rows with their committed
    updates to blocks, with the walk over the update segments in
    src/src/storage/table/update_segment.cpp.  Blocks on the disk are read
    through the block manager; uninitialised memory is a parameter. *)

From S2P Require Import Prelude Constants Serializer MorselInfo ValidityMask UpdateSegment SegmentTree CatalogCodec BlockManager ColumnSegment.

(** ** Segments *)

(** [BlockHandle]: memory, or a block of the file. *)
Inductive BlockHandle : Set :=
| InMemory (buffer : list Z)
| OnDisk (block_id : Z).

Definition Pin (bm : SingleFileBlockManager) (block : BlockHandle) : res (list Z) :=
  match block with InMemory buffer => Ok buffer | OnDisk block_id => BlockManager_Read bm block_id end.

Record UncompressedSegment : Set := mkUncompressedSegment {
  block : BlockHandle;
  tuple_count : nat;
  row_start : nat;
}.

(** A persistent segment knows its block. *)
Inductive ColumnSegmentType : Set :=
| TRANSIENT
| PERSISTENT (block_id : Z).

Record ColumnSegment (St : Type) : Type := mkColumnSegment {
  segment_type : ColumnSegmentType;
  segment_start : nat;
  segment_count : nat;
  segment_data : UncompressedSegment;
  segment_stats : St;
}.
Arguments mkColumnSegment {_}.
Arguments segment_type {_}.
Arguments segment_start {_}.
Arguments segment_count {_}.
Arguments segment_data {_}.
Arguments segment_stats {_}.

#[global] Instance ColumnSegment_Segment {St} : Segment (ColumnSegment St) := {| seg_start := segment_start; seg_count := segment_count |}.

#[global] Instance UpdateSegment_Segment {T St} : Segment (UpdateSegment T St * nat) := {| seg_start u := us_start u.1; seg_count := snd |}.

(** [ColumnData]; an update segment comes with its number of rows. *)
Record ColumnData (T St : Type) : Type := mkColumnData {
  type : LogicalType;
  data : list (ColumnSegment St);
  updates : list (UpdateSegment T St * nat);
  statistics : St;
  persistent_rows : nat;
}.
Arguments mkColumnData {_ _}.
Arguments type {_ _}.
Arguments data {_ _}.
Arguments updates {_ _}.
Arguments statistics {_ _}.
Arguments persistent_rows {_ _}.

(** [DataPointer], and what a checkpoint writes of a column. *)
Record DataPointer (St : Type) : Type := mkDataPointer {
  dp_row_start : nat;
  dp_tuple_count : nat;
  dp_block_id : Z;
  dp_offset : nat;
  dp_statistics : St;
}.
Arguments mkDataPointer {_}.
Arguments dp_row_start {_}.
Arguments dp_tuple_count {_}.
Arguments dp_block_id {_}.
Arguments dp_offset {_}.
Arguments dp_statistics {_}.

Record PersistentColumnData (St : Type) : Type := mkPersistentColumnData {
  pc_stats : St;
  pc_pointers : list (DataPointer St);
}.
Arguments mkPersistentColumnData {_}.
Arguments pc_stats {_}.
Arguments pc_pointers {_}.

Definition null_segment {A} : res A := Throw (UndefinedBehaviour "a null segment is used").

Definition the {A} (o : option A) : res A := match o with Some a => Ok a | None => null_segment end.

Section column.
Context {T V St : Type} `{!Inhabited T, !UpdateKind T V St, !SegmentKind T St}.
Implicit Types (bm : SingleFileBlockManager) (seg : ColumnSegment St) (c : ColumnData T St) (us : list (UpdateSegment T St * nat)).

Notation Append := (Append (T := T) (St := St)).
Notation FetchBaseData := (FetchBaseData (T := T) (St := St)).
Notation initial_buffer := (initial_buffer (T := T) (St := St)).
Notation RevertBlock := (RevertBlock (T := T) (St := St)).

Definition TransientSegment_new (fresh : list Z) (start : nat) : ColumnSegment St :=
  mkColumnSegment TRANSIENT start 0 (mkUncompressedSegment (InMemory (initial_buffer fresh)) 0 start) empty_statistics.

Definition PersistentSegment_new (block_id : Z) (start count : nat) (stats : St) : ColumnSegment St :=
  mkColumnSegment (PERSISTENT block_id) start count (mkUncompressedSegment (OnDisk block_id) count start) stats.

Definition ToTemporary bm (u : UncompressedSegment) : res (SingleFileBlockManager * UncompressedSegment) :=
  match block u with
  | InMemory _ => Ok (bm, u)
  | OnDisk block_id =>
      let bm := MarkBlockAsModified block_id bm in
      current ← Pin bm (block u);
      Ok (bm, mkUncompressedSegment (InMemory current) (tuple_count u) (row_start u))
  end.

(** [TransientSegment(PersistentSegment &)] *)
Definition TransientSegment_from bm seg : res (SingleFileBlockManager * ColumnSegment St) :=
  match segment_type seg, block (segment_data seg) with
  | PERSISTENT block_id, OnDisk id =>
      if block_id =? id then
        '(bm, u) ← ToTemporary bm (segment_data seg);
        Ok (bm, mkColumnSegment TRANSIENT (segment_start seg) (segment_count seg) u (segment_stats seg))
      else Ok (bm, mkColumnSegment TRANSIENT (segment_start seg) (segment_count seg) (segment_data seg) (segment_stats seg))
  | _, _ => Ok (bm, mkColumnSegment TRANSIENT (segment_start seg) (segment_count seg) (segment_data seg) (segment_stats seg))
  end.

Definition Segment_Scan bm seg (vector_index : nat) (result : list T) : res (list T) :=
  buffer ← Pin bm (block (segment_data seg));
  Ok (FetchBaseData buffer (tuple_count (segment_data seg)) vector_index result).

(** [TransientSegment::Append]; the pages of the block are written in memory. *)
Definition TransientSegment_Append bm seg (vdata : VectorData) (offset count : nat) : res (ColumnSegment St * nat) :=
  let u := segment_data seg in
  buffer ← Pin bm (block u);
  let '(stats, buffer, appended) := Append (segment_stats seg) buffer (tuple_count u) vdata offset count in
  Ok (mkColumnSegment (segment_type seg) (segment_start seg) (segment_count seg + appended)
        (mkUncompressedSegment (InMemory buffer) (tuple_count u + appended) (row_start u)) stats, appended).

Definition TransientSegment_RevertAppend bm seg (start_row : nat) : res (ColumnSegment St) :=
  let u := segment_data seg in
  buffer ← Pin bm (block u);
  Ok (mkColumnSegment (segment_type seg) (segment_start seg) (start_row - segment_start seg)
        (mkUncompressedSegment (InMemory (RevertBlock (start_row - row_start u) buffer)) (start_row - row_start u) (row_start u))
        (segment_stats seg)).

(** ** Appending *)

Definition set_data (d : list (ColumnSegment St)) c : ColumnData T St := mkColumnData (type c) d (updates c) (statistics c) (persistent_rows c).

Definition set_updates us c : ColumnData T St := mkColumnData (type c) (data c) us (statistics c) (persistent_rows c).

Definition set_statistics (st : St) c : ColumnData T St := mkColumnData (type c) (data c) (updates c) st (persistent_rows c).

Definition AppendTransientSegment (fresh : list Z) (start_row : nat) c : ColumnData T St :=
  set_data (AppendSegment (data c) (TransientSegment_new fresh start_row)) c.

Definition AppendUpdateSegment (start_row count : nat) c : ColumnData T St :=
  set_updates (updates c ++ [(UpdateSegment_new (V := V) start_row (statistics c), count)]) c.

Definition set_last {A} (a : A) (l : list A) : list A := take (length l - 1) l ++ [a].

Definition InitializeAppend (fresh : list Z) bm c : res (SingleFileBlockManager * ColumnData T St) :=
  let c := match data c with [] => AppendTransientSegment fresh (persistent_rows c) c | _ => c end in
  let c := match updates c with [] => AppendUpdateSegment 0 0 c | _ => c end in
  seg ← the (GetLastSegment (data c));
  match segment_type seg with
  | PERSISTENT _ =>
      '(bm, transient) ← TransientSegment_from bm seg;
      Ok (bm, set_data (set_last transient (data c)) c)
  | TRANSIENT => Ok (bm, c)
  end.

(** The first loop of [AppendData]: every round adds a row, so [count] rounds are enough. *)
Fixpoint append_to_updates (fuel remaining : nat) c : res (ColumnData T St) :=
  if (remaining =? 0)%nat then Ok c
  else
    match fuel with
    | O => Throw (UndefinedBehaviour "out of fuel")
    | S fuel =>
        '(g, count) ← the (last (updates c));
        let to_append_elements := Nat.min remaining (MORSEL_SIZE - count) in
        let count := (count + to_append_elements)%nat in
        let c := set_updates (set_last (g, count) (updates c)) c in
        let c := if (count =? MORSEL_SIZE)%nat then AppendUpdateSegment (us_start g + count) 0 c else c in
        append_to_updates fuel (remaining - to_append_elements) c
    end.

(** The second one: a new segment takes at least one row.  [fresh n] is the
    memory of the [n]-th segment. *)
Fixpoint append_to_segments (fuel : nat) (fresh : nat → list Z) bm (vdata : VectorData) (offset count : nat) c : res (ColumnData T St) :=
  match fuel with
  | O => Throw (UndefinedBehaviour "out of fuel")
  | S fuel =>
      seg ← the (GetLastSegment (data c));
      '(seg, copied_elements) ← TransientSegment_Append bm seg vdata offset count;
      let c := set_statistics (MergeStatistics (statistics c) (segment_stats seg)) (set_data (set_last seg (data c)) c) in
      if (copied_elements =? count)%nat then Ok c
      else
        let c := AppendTransientSegment (fresh (length (data c))) (segment_start seg + segment_count seg) c in
        append_to_segments fuel fresh bm vdata (offset + copied_elements) (count - copied_elements) c
  end.

Definition AppendData (fresh : nat → list Z) bm (vdata : VectorData) (count : nat) c : res (ColumnData T St) :=
  c ← append_to_updates count count c;
  append_to_segments (S (S count)) fresh bm vdata 0 count c.

Definition RevertAppend bm (start_row : nat) c : res (ColumnData T St) :=
  seg ← the (last (data c));
  if (segment_start seg + segment_count seg <=? start_row)%nat then Ok c
  else
    segment_index ← GetSegmentIndex (data c) start_row;
    transient ← the (data c !! segment_index);
    transient ← TransientSegment_RevertAppend bm transient start_row;
    let c := set_data (take segment_index (data c) ++ [transient]) c in
    update_segment_idx ← GetSegmentIndex (updates c) start_row;
    '(g, _) ← the (updates c !! update_segment_idx);
    Ok (set_updates (take update_segment_idx (updates c) ++ [(g, (start_row - us_start g)%nat)]) c).

(** ** The walk over the update segments

    A pointer to an update segment is its position in the tree. *)

Definition segment_at us (j : nat) : res (UpdateSegment T St) := u ← the (us !! j); Ok u.1.

(** The inner loop of [HasUpdates]: the segment, its base and the index in it. *)
Fixpoint skip_segments (fuel : nat) us (j base_vector_index vector_index : nat) : res (nat * nat * nat) :=
  if (vector_index <? MORSEL_VECTOR_COUNT)%nat then Ok (j, base_vector_index, vector_index)
  else
    match fuel with
    | O => Throw (UndefinedBehaviour "out of fuel")
    | S fuel =>
        g ← segment_at us (S j);
        skip_segments fuel us (S j) (us_start g / STANDARD_VECTOR_SIZE) (vector_index - MORSEL_VECTOR_COUNT)
    end.

Fixpoint HasUpdates_loop (n : nat) us (j base_vector_index i : nat) : res bool :=
  match n with
  | O => Ok false
  | S n =>
      let vector_index := (i - base_vector_index)%nat in
      '(j, base_vector_index, vector_index) ← skip_segments vector_index us j base_vector_index vector_index;
      g ← segment_at us j;
      if UpdateSegment_HasUpdates_vector g vector_index then Ok true
      else HasUpdates_loop n us j base_vector_index (S i)
  end.

(** [UpdateSegment::HasUpdates(start_vector_index, end_vector_index)] *)
Definition HasUpdates us (j start_vector_index end_vector_index : nat) : res bool :=
  g ← segment_at us j;
  HasUpdates_loop (S end_vector_index - start_vector_index) us j (us_start g / STANDARD_VECTOR_SIZE) start_vector_index.

Fixpoint FindSegment_loop (fuel : nat) us (j base_vector_index end_vector_index : nat) : res nat :=
  if (end_vector_index <? base_vector_index + MORSEL_VECTOR_COUNT)%nat then Ok j
  else
    match fuel with
    | O => Throw (UndefinedBehaviour "out of fuel")
    | S fuel =>
        _ ← segment_at us (S j);
        FindSegment_loop fuel us (S j) (base_vector_index + MORSEL_VECTOR_COUNT) end_vector_index
    end.

Definition FindSegment us (j end_vector_index : nat) : res nat :=
  g ← segment_at us j;
  FindSegment_loop end_vector_index us j (us_start g / STANDARD_VECTOR_SIZE) end_vector_index.

(** ** Checkpoints

    [ColumnCheckpointState] with the file; the current segment is its block in
    memory, its number of tuples and its statistics.  [fresh n] is the memory of
    the segment that is made when [n] pointers are there. *)

Record ColumnCheckpointState : Type := mkColumnCheckpointState {
  ck_block_manager : SingleFileBlockManager;
  ck_current_segment : option (list Z * nat * St);
  ck_global_stats : St;
  ck_new_tree : list (ColumnSegment St);
  ck_data_pointers : list (DataPointer St);
}.
Implicit Types (st : ColumnCheckpointState).

Context (fresh : nat → list Z).

Definition CreateEmptySegment st : ColumnCheckpointState :=
  mkColumnCheckpointState (ck_block_manager st) (Some (initial_buffer (fresh (length (ck_data_pointers st))), 0%nat, empty_statistics))
    (ck_global_stats st) (ck_new_tree st) (ck_data_pointers st).

Definition next_row (pointers : list (DataPointer St)) : nat :=
  match last pointers with Some p => dp_row_start p + dp_tuple_count p | None => 0 end.

Definition FlushSegment st : res ColumnCheckpointState :=
  '(buffer, tuple_count, segment_stats) ← the (ck_current_segment st);
  if (tuple_count =? 0)%nat then Ok st
  else
    let '(bm, block_id) := GetFreeBlockId (ck_block_manager st) in
    let data_pointer := mkDataPointer (next_row (ck_data_pointers st)) tuple_count block_id 0 segment_stats in
    let persistent_segment := PersistentSegment_new block_id (dp_row_start data_pointer) tuple_count segment_stats in
    Ok (mkColumnCheckpointState (BlockManager_Write buffer block_id bm) None (MergeStatistics (ck_global_stats st) segment_stats)
          (AppendSegment (ck_new_tree st) persistent_segment) (ck_data_pointers st ++ [data_pointer])).

(** [AppendData] of the state; a new segment takes a row, so the fuel is enough. *)
Fixpoint Checkpoint_AppendData (fuel : nat) (vdata : VectorData) (offset count : nat) st : res ColumnCheckpointState :=
  match fuel with
  | O => Throw (UndefinedBehaviour "out of fuel")
  | S fuel =>
      if (count =? 0)%nat then Ok st
      else
        '(buffer, tuple_count, segment_stats) ← the (ck_current_segment st);
        let '(segment_stats, buffer, appended) := Append segment_stats buffer tuple_count vdata offset count in
        let st := mkColumnCheckpointState (ck_block_manager st) (Some (buffer, (tuple_count + appended)%nat, segment_stats))
                    (ck_global_stats st) (ck_new_tree st) (ck_data_pointers st) in
        if (appended =? count)%nat then Ok st
        else
          st ← FlushSegment st;
          Checkpoint_AppendData fuel vdata (offset + appended) (count - appended) (CreateEmptySegment st)
  end.

(** A position in the update segments, [update_segment] and [update_vector_index]. *)
Definition Position : Type := nat * nat.

(** An unchanged persistent segment. *)
Definition keep_segment us seg (block_id : Z) (end_vector_index : nat) (position : Position) st : res (Position * ColumnCheckpointState) :=
  '(_, tuple_count, _) ← the (ck_current_segment st);
  st ← (if (0 <? tuple_count)%nat then st ← FlushSegment st; Ok (CreateEmptySegment st) else Ok st);
  let pointer := mkDataPointer (segment_start seg) (segment_count seg) block_id 0 (segment_stats seg) in
  j ← FindSegment us position.1 end_vector_index;
  Ok ((j, end_vector_index),
      mkColumnCheckpointState (ck_block_manager st) (ck_current_segment st) (MergeStatistics (ck_global_stats st) (segment_stats seg))
        (AppendSegment (ck_new_tree st) seg) (ck_data_pointers st ++ [pointer])).

(** The loop over the vectors of a segment that is written again; [n] are left. *)
Fixpoint rewrite_vectors (n : nat) us seg (vector_index base_update_index : nat) (position : Position) (intermediate : list T) st
    : res (Position * list T * ColumnCheckpointState) :=
  match n with
  | O => Ok (position, intermediate, st)
  | S n =>
      let count := Nat.min (segment_count seg - vector_index * STANDARD_VECTOR_SIZE) STANDARD_VECTOR_SIZE in
      scan_vector ← Segment_Scan (ck_block_manager st) seg vector_index (Reference (T := T) (St := St) intermediate);
      g ← segment_at us position.1;
      let scan_vector := FetchCommitted g (position.2 - base_update_index) scan_vector in
      st ← Checkpoint_AppendData (S (S count)) (Orrify (T := T) (St := St) scan_vector) 0 count st;
      let update_vector_index := S position.2 in
      let '(j, base_update_index) :=
        if (MORSEL_VECTOR_COUNT <=? update_vector_index - base_update_index)%nat then (S position.1, (base_update_index + MORSEL_VECTOR_COUNT)%nat)
        else (position.1, base_update_index) in
      rewrite_vectors n us seg (S vector_index) base_update_index (j, update_vector_index) scan_vector st
  end.

(** The number of rounds of the loop. *)
Definition vector_count (count : nat) : nat := ((count + (STANDARD_VECTOR_SIZE - 1)) / STANDARD_VECTOR_SIZE)%nat.

Definition rewrite_segment us seg (position : Position) (intermediate : list T) st : res (Position * list T * ColumnCheckpointState) :=
  g ← segment_at us position.1;
  rewrite_vectors (vector_count (segment_count seg)) us seg 0 (us_start g / STANDARD_VECTOR_SIZE) position intermediate st.

Definition mark_modified (block_id : Z) st : ColumnCheckpointState :=
  mkColumnCheckpointState (MarkBlockAsModified block_id (ck_block_manager st)) (ck_current_segment st) (ck_global_stats st)
    (ck_new_tree st) (ck_data_pointers st).

Fixpoint checkpoint_segments us (segments : list (ColumnSegment St)) (position : Position) (intermediate : list T) st : res ColumnCheckpointState :=
  match segments with
  | [] => Ok st
  | seg :: segments =>
      match segment_type seg with
      | PERSISTENT block_id =>
          let start_vector_index := (segment_start seg / STANDARD_VECTOR_SIZE)%nat in
          let end_vector_index := ((segment_start seg + segment_count seg) / STANDARD_VECTOR_SIZE)%nat in
          has_updates ← HasUpdates us position.1 start_vector_index end_vector_index;
          if (has_updates : bool) then
            '(position, intermediate, st) ← rewrite_segment us seg position intermediate (mark_modified block_id st);
            checkpoint_segments us segments position intermediate st
          else
            '(position, st) ← keep_segment us seg block_id end_vector_index position st;
            checkpoint_segments us segments position intermediate st
      | TRANSIENT =>
          '(position, intermediate, st) ← rewrite_segment us seg position intermediate st;
          checkpoint_segments us segments position intermediate st
      end
  end.

(** [intermediate]: the memory of the vector. *)
Definition ColumnData_Checkpoint (intermediate : list T) bm c : res (SingleFileBlockManager * ColumnData T St * PersistentColumnData St) :=
  let st := mkColumnCheckpointState bm None empty_statistics [] [] in
  match data c with
  | [] => Ok (bm, c, mkPersistentColumnData (ck_global_stats st) [])
  | segments =>
      st ← checkpoint_segments (updates c) segments (0%nat, 0%nat) intermediate (CreateEmptySegment st);
      st ← FlushSegment st;
      let c := set_data (Replace segments (ck_new_tree st)) c in
      let c := set_updates ((λ u, (ClearUpdates (V := V) u.1, u.2)) <$> updates c) c in
      Ok (ck_block_manager st, c, mkPersistentColumnData (ck_global_stats st) (ck_data_pointers st))
  end.
End column.

(** ** The data pointers in the file *)

Section pointers.
Context {T St : Type} `{!Codec St}.

(** [FlushToDisk] *)
Definition WriteDataPointer {S} `{!Serializer S} (s : S) (p : DataPointer St) : S :=
  let s := Write 8 s (Z.of_nat (dp_row_start p)) in
  let s := Write 8 s (Z.of_nat (dp_tuple_count p)) in
  let s := Write 8 s (dp_block_id p) in
  let s := Write 4 s (Z.of_nat (dp_offset p)) in
  Serialize s (dp_statistics p).

Definition FlushToDisk {S} `{!Serializer S} (s : S) (p : PersistentColumnData St) : S :=
  let s := Serialize s (pc_stats p) in
  let s := Write 8 s (Z.of_nat (length (pc_pointers p))) in
  foldl WriteDataPointer s (pc_pointers p).

(** [BaseDeserialize] *)
Definition ReadDataPointer {D} `{!Deserializer D} (source : D) : res (DataPointer St * D) :=
  '(row_start, source) ← Read 8 source;
  '(tuple_count, source) ← Read 8 source;
  '(block_id, source) ← ReadBlockId source;
  '(offset, source) ← Read 4 source;
  '(stats, source) ← Deserialize source;
  Ok (mkDataPointer (Z.to_nat row_start) (Z.to_nat tuple_count) block_id (Z.to_nat offset) stats, source).

Definition BaseDeserialize {D} `{!Deserializer D} (source : D) : res (PersistentColumnData St * D) :=
  '(stats, source) ← Deserialize source;
  '(data_pointer_count, source) ← Read 8 source;
  '(pointers, source) ← Read_times (Z.to_nat data_pointer_count) ReadDataPointer source;
  Ok (mkPersistentColumnData stats pointers, source).

(** [result.total_rows] and [result.segments] *)
Definition pc_total_rows (p : PersistentColumnData St) : nat := sum_list (dp_tuple_count <$> pc_pointers p).

Definition pc_segments (p : PersistentColumnData St) : list (ColumnSegment St) :=
  (λ d, PersistentSegment_new (dp_block_id d) (dp_row_start d) (dp_tuple_count d) (dp_statistics d)) <$> pc_pointers p.
End pointers.

(** ** Loading *)

Section loading.
Context {T V St : Type} `{!UpdateKind T V St}.

(** The update segments of the loaded rows: one round for each, and one more. *)
Fixpoint initialize_updates (fuel row_count : nat) (c : ColumnData T St) : ColumnData T St :=
  match fuel with
  | O => c
  | S fuel =>
      if (row_count <? persistent_rows c)%nat then
        let next := Nat.min (row_count + MORSEL_SIZE) (persistent_rows c) in
        initialize_updates fuel next (AppendUpdateSegment (V := V) row_count (next - row_count) c)
      else if (row_count mod MORSEL_SIZE =? 0)%nat then AppendUpdateSegment (V := V) row_count 0 c
      else c
  end.

(** [ColumnData::Initialize] *)
Definition ColumnData_Initialize (p : PersistentColumnData St) (c : ColumnData T St) : res (ColumnData T St) :=
  let c := set_statistics (pc_stats p) c in
  let c := mkColumnData (type c) (data c) (updates c) (statistics c) (pc_total_rows p) in
  let segment_rows := sum_list (segment_count <$> pc_segments p) in
  let c := set_data (foldl AppendSegment (data c) (pc_segments p)) c in
  if negb (segment_rows =? persistent_rows c)%nat then Throw (Exception "Segment rows does not match total rows stored in column...")
  else Ok (initialize_updates (S (S (persistent_rows c))) 0 c).

(** [ColumnData::ColumnData] *)
Definition ColumnData_new (t : LogicalType) : ColumnData T St := mkColumnData t [] [] empty_statistics 0.
End loading.
