(* ===== verification/ColumnRows.v ===== *)
(** * The rows of a column

    What it means that the segments of a column (ColumnData.v) hold certain
    rows, and that its update segments hold committed updates of them: the
    invariant of the theorems about appends and checkpoints.  The block of a
    segment, in memory or in the file, has the rows; update segments start at
    multiples of their size and have sorted entries for rows of the column. *)

From S2P Require Import Prelude Constants Serializer MorselInfo ValidityMask Statistics UpdateSegment SegmentTree CatalogCodec BlockManager DatabaseFile ColumnSegment ColumnData.

Notation VS := STANDARD_VECTOR_SIZE (only parsing).
Notation MVC := MORSEL_VECTOR_COUNT (only parsing).

(** ** Statistics in the file *)

Class StatisticsLaws (T V St : Type) `{!UpdateKind T V St, !SegmentKind T St, !SegmentKindLaws T St, !Codec St} : Prop := {
  valid_empty : valid (empty_statistics (T := T) (V := V) (St := St));
  valid_Merge st1 st2 : valid st1 → valid st2 → valid (MergeStatistics (T := T) (V := V) st1 st2);
  valid_Append (st : St) buffer tuple_count data offset count :
    valid st → (∀ i v, (i < count)%nat → appended (T := T) (St := St) data offset i = Some v → value_ok (T := T) (St := St) v) →
    valid (Append (T := T) st buffer tuple_count data offset count).1.1;
}.

Section column.
Context {T V St : Type} `{!Inhabited T, !UpdateKind T V St, !SegmentKind T St, !SegmentKindLaws T St, !Codec St, !StatisticsLaws T V St}.
Implicit Types (bm : SingleFileBlockManager) (seg : ColumnSegment St) (c : ColumnData T St) (us : list (UpdateSegment T St * nat)) (vs : list T).

Notation capacity := (max_vector_count (T := T) (St := St) * VS)%nat.
Notation row_value := (row_value (T := T) (St := St)).

(** ** The rows of segments *)

Definition block_rows (buffer : list Z) (n : nat) : list T := row_value buffer <$> seq 0 n.

Record block_holds (buffer : list Z) vs : Prop := {
  bh_length : length buffer = BLOCK_SIZE;
  bh_clean : clean (T := T) (St := St) buffer (length vs);
  bh_fits : (length vs <= capacity)%nat;
  bh_rows : ∀ i, (i < length vs)%nat → vs !! i = Some (row_value buffer i);
}.

Record segment_ok bm seg (start : nat) vs : Prop := {
  so_start : segment_start seg = start;
  so_row_start : row_start (segment_data seg) = start;
  so_count : segment_count seg = length vs;
  so_tuples : tuple_count (segment_data seg) = length vs;
  so_block : ∃ buffer, Pin bm (block (segment_data seg)) = Ok buffer ∧ block_holds buffer vs;
  so_type : match segment_type seg with
            | PERSISTENT id => block (segment_data seg) = OnDisk id ∧ vs ≠ []
            | TRANSIENT => ∃ buffer, block (segment_data seg) = InMemory buffer
            end;
  so_stats : valid (segment_stats seg);
}.

Lemma transient_ok bm n start vs buffer st :
  n = length vs → block_holds buffer vs → valid st →
  segment_ok bm (mkColumnSegment TRANSIENT start n (mkUncompressedSegment (InMemory buffer) n start) st) start vs.
Proof. intros -> Hb Hs. split; [reflexivity..|by exists buffer|by exists buffer|exact Hs]. Qed.

(** Segments one after the other; all start with a whole vector. *)
Fixpoint segments_ok bm (segs : list (ColumnSegment St)) (start : nat) vs : Prop :=
  match segs with
  | [] => vs = []
  | seg :: segs => ∃ vs1 vs2, vs = vs1 ++ vs2 ∧ Nat.divide VS start ∧ segment_ok bm seg start vs1 ∧ segments_ok bm segs (start + length vs1) vs2
  end.

(** The blocks of the file that segments use. *)
Definition segment_blocks seg : list Z := match block (segment_data seg) with OnDisk id => [id] | InMemory _ => [] end.

Lemma segments_ok_snoc bm segs start vs seg vs' :
  segments_ok bm segs start vs → Nat.divide VS (start + length vs) → segment_ok bm seg (start + length vs) vs' →
  segments_ok bm (segs ++ [seg]) start (vs ++ vs').
Proof.
  revert start vs. induction segs as [|s segs IH]; intros start vs; cbn [segments_ok app].
  - intros ->. cbn [length app]. rewrite Nat.add_0_r. intros Hd Hs. exists vs', []. rewrite app_nil_r. done.
  - intros (vs1 & vs2 & -> & Hd & Hs & Hss) Hd' Hs'. rewrite length_app, Nat.add_assoc in Hd', Hs'.
    exists vs1, (vs2 ++ vs'). rewrite app_assoc. split_and!; [done..|]. by apply IH.
Qed.

Lemma segments_ok_last bm segs start vs seg :
  segments_ok bm (segs ++ [seg]) start vs →
  ∃ vs1 vs2, vs = vs1 ++ vs2 ∧ segments_ok bm segs start vs1 ∧ Nat.divide VS (start + length vs1) ∧ segment_ok bm seg (start + length vs1) vs2.
Proof.
  revert start vs. induction segs as [|s segs IH]; intros start vs; cbn [segments_ok app].
  - intros (vs1 & vs2 & -> & Hd & Hs & ->). exists [], vs1. cbn [length]. by rewrite app_nil_r, Nat.add_0_r.
  - intros (vs1 & vs2 & -> & Hd & Hs & (vs3 & vs4 & -> & Hss & Hd' & Hs')%IH). exists (vs1 ++ vs3), vs4. rewrite length_app, <-app_assoc, Nat.add_assoc.
    split_and!; [done| |done|done]. by exists vs1, vs3.
Qed.

Lemma segment_ok_read bm bm' seg start vs :
  (∀ id, id ∈ segment_blocks seg → BlockManager_Read bm' id = BlockManager_Read bm id) → segment_ok bm seg start vs → segment_ok bm' seg start vs.
Proof.
  intros Hr [H1 H2 H3 H4 (buffer & Hp & Hb) H6 H7]. split; try done. exists buffer. split; [|done]. unfold segment_blocks in Hr.
  destruct (block (segment_data seg)); cbn in *; [done|]. rewrite Hr; [done|by left].
Qed.

Lemma segments_ok_read bm bm' segs start vs :
  (∀ id, id ∈ segs ≫= segment_blocks → BlockManager_Read bm' id = BlockManager_Read bm id) → segments_ok bm segs start vs → segments_ok bm' segs start vs.
Proof.
  revert start vs. induction segs as [|s segs IH]; intros start vs Hr; [done|]. cbn [segments_ok].
  intros (vs1 & vs2 & -> & Hd & Hs & Hss). exists vs1, vs2. split_and!; [done..| |].
  - eapply segment_ok_read; [|exact Hs]. intros id Hin. apply Hr. rewrite bind_cons, elem_of_app. by left.
  - apply IH; [|done]. intros id Hin. apply Hr. rewrite bind_cons, elem_of_app. by right.
Qed.

(** Rows that are appended to a block: those of the entries that are not NULL
    are stored. *)
Lemma Append_block (st : St) buffer vs vdata offset count :
  block_holds buffer vs → valid st →
  (∀ i v, (i < count)%nat → appended (T := T) (St := St) vdata offset i = Some v → value_ok (T := T) (St := St) v) →
  let k := Nat.min count (capacity - length vs) in
  ∃ st' buffer' ws, Append (T := T) st buffer (length vs) vdata offset count = (st', buffer', k) ∧ length ws = k ∧
    block_holds buffer' (vs ++ ws) ∧ valid st' ∧ ∀ i v, (i < k)%nat → appended (T := T) (St := St) vdata offset i = Some v → ws !! i = Some v.
Proof.
  intros [Hl Hclean Hfits Hrows] Hs Hws k.
  destruct (Append_spec (T := T) st buffer (length vs) vdata offset count Hl Hclean Hfits) as (st' & buffer' & Ha & Hl' & Hclean' & Hsame & Hval).
  fold k in Ha, Hclean', Hval. set (ws := (λ i, row_value buffer' (length vs + i)) <$> seq 0 k).
  assert (length ws = k) as Hk by (unfold ws; by rewrite length_fmap, length_seq).
  assert (∀ i, (i < k)%nat → ws !! i = Some (row_value buffer' (length vs + i))) as Hlk.
  { intros i Hi. unfold ws. by rewrite list_lookup_fmap, lookup_seq_lt by done. }
  exists st', buffer', ws. split_and!; [done|done| | |].
  - split; [done|by rewrite length_app, Hk|rewrite length_app; lia|].
    intros i Hi. rewrite length_app in Hi. destruct (decide (i < length vs)%nat).
    + rewrite lookup_app_l by done. rewrite Hrows by done. by rewrite Hsame.
    + rewrite lookup_app_r, Hlk by lia. do 2 f_equal. lia.
  - assert (valid (Append (T := T) st buffer (length vs) vdata offset count).1.1) as Hv; [|by rewrite Ha in Hv].
    by apply (valid_Append (T := T) (V := V)).
  - intros i v Hi Hap. rewrite Hlk by done. f_equal. apply Hval; [done|done|]. apply (Hws i v); [lia|done].
Qed.

Lemma block_holds_empty (fresh : list Z) : length fresh = BLOCK_SIZE → block_holds (initial_buffer (T := T) (St := St) fresh) [].
Proof.
  intros Hf. destruct (initial_buffer_spec (T := T) (St := St) fresh Hf) as [H1 H2]. split; [done|done|cbn; lia|cbn; lia].
Qed.

(** ** Committed updates *)

(** The entries with the newest values of a vector. *)
Definition base_entries (g : UpdateSegment T St) (k : nat) : list (nat * T) :=
  match root_at g k ≫= (λ base, us_heap g !! base) with Some info => entries info | None => [] end.

Definition base_ok (g : UpdateSegment T St) : Prop := ∀ k base, (k < MVC)%nat → root_at g k = Some base →
  ∃ info, us_heap g !! base = Some info ∧ sorted_keys (entries info) ∧ length (tuples info) = length (tuple_data info) ∧
    Forall (λ t, t < VS)%nat (tuples info) ∧ Forall (λ kv, value_ok (T := T) (St := St) kv.2) (entries info).

Definition vector_entries us (k : nat) : list (nat * T) :=
  match us !! (k / MVC)%nat with Some u => base_entries u.1 (k mod MVC) | None => [] end.

(** The update segments of a column with [rows] rows. *)
Record updates_ok us (rows : nat) : Prop := {
  uo_length : length us = S (rows / MORSEL_SIZE);
  uo_segment j u : us !! j = Some u → us_start u.1 = (j * MORSEL_SIZE)%nat ∧ u.2 = Nat.min MORSEL_SIZE (rows - j * MORSEL_SIZE) ∧ base_ok u.1;
  uo_rows k i v : value_in (vector_entries us k) i = Some v → (k * VS + i < rows)%nat;
}.

Definition vector_updated us (k : nat) : bool :=
  match us !! (k / MVC)%nat with Some u => UpdateSegment_HasUpdates_vector u.1 (k mod MVC) | None => false end.

(** The rows of a column with the newest values: those are committed when no
    transaction is running. *)
Definition committed_value us (r : nat) (v : T) : T := default v (value_in (vector_entries us (r / VS)) (r mod VS)).

Definition committed us vs : list T := imap (committed_value us) vs.

Lemma MORSEL_SIZE_vectors : MORSEL_SIZE = (VS * MVC)%nat.
Proof. reflexivity. Qed.

Lemma MORSEL_SIZE_pos : (0 < MORSEL_SIZE)%nat.
Proof. rewrite MORSEL_SIZE_vectors. apply Nat.mul_pos_pos; [apply STANDARD_VECTOR_SIZE_pos|apply MVC_pos]. Qed.

Lemma vector_segment k rows : (k <= rows / VS)%nat → (k / MVC < S (rows / MORSEL_SIZE))%nat.
Proof.
  intros Hk. rewrite MORSEL_SIZE_vectors, <-Nat.Div0.div_div. apply Nat.lt_succ_r. by apply Nat.Div0.div_le_mono.
Qed.

Lemma start_vector (g : UpdateSegment T St) j : us_start g = (j * MORSEL_SIZE)%nat → (us_start g / VS = j * MVC)%nat.
Proof.
  intros ->. pose proof STANDARD_VECTOR_SIZE_pos. rewrite MORSEL_SIZE_vectors.
  replace (j * (VS * MVC))%nat with (j * MVC * VS)%nat by lia. apply Nat.div_mul. lia.
Qed.

Lemma not_updated us k : vector_updated us k = false → vector_entries us k = [].
Proof.
  unfold vector_updated, vector_entries, base_entries, UpdateSegment_HasUpdates_vector. destruct (us !! (k / MVC)%nat) as [u|]; [|done].
  by destruct (root_at u.1 (k mod MVC)).
Qed.

Lemma FetchCommitted_spec g k (result : list T) : base_ok g → (k < MVC)%nat → length result = VS →
  length (FetchCommitted g k result) = VS ∧
  ∀ i v, (i < VS)%nat → result !! i = Some v → FetchCommitted g k result !! i = Some (default v (value_in (base_entries g k) i)).
Proof.
  intros Hg Hk Hl. unfold FetchCommitted, base_entries. destruct (root_at g k) as [base|] eqn:Hr; cbn [mbind option_bind]; [|by split].
  destruct (Hg k base Hk Hr) as (info & -> & Hs & Hlen & Hlt & _). split; [by apply length_MergeUpdateInfo|].
  intros i v Hi Hv. rewrite MergeUpdateInfo_lookup by done. destruct (value_in (entries info) i); [done|by rewrite Hv].
Qed.

Lemma length_committed us vs : length (committed us vs) = length vs.
Proof. apply length_imap. Qed.

Lemma committed_lookup us vs r v : vs !! r = Some v → committed us vs !! r = Some (committed_value us r v).
Proof. intros Hv. unfold committed. by rewrite list_lookup_imap, Hv. Qed.

(** ** Columns *)

(** The rows of a column in memory, without the updates. *)
Record column_data_ok bm c vs : Prop := {
  cd_segments : segments_ok bm (data c) 0 vs;
  cd_updates : data c = [] ∧ updates c = [] ∨ updates_ok (updates c) (length vs);
  cd_persistent : (persistent_rows c <= length vs)%nat;
}.

Definition persistent_block seg : list Z := match segment_type seg with PERSISTENT id => [id] | TRANSIENT => [] end.

Lemma segments_ok_type bm segs start vs seg : segments_ok bm segs start vs → seg ∈ segs → segment_blocks seg = persistent_block seg.
Proof.
  revert start vs. induction segs as [|s segs IH]; intros start vs Hs Hin; [by apply elem_of_nil in Hin|].
  destruct Hs as (vs1 & vs2 & -> & _ & Hseg & Hs). apply elem_of_cons in Hin as [->|Hin]; [|by eapply IH].
  pose proof (so_type _ _ _ _ Hseg) as H. unfold segment_blocks, persistent_block. destruct (segment_type s); [by destruct H as [buffer ->]|by destruct H as [-> _]].
Qed.

Lemma segments_ok_rows bm segs start vs : segments_ok bm segs start vs → sum_list (segment_count <$> segs) = length vs.
Proof.
  revert start vs. induction segs as [|seg segs IH]; intros start vs; cbn [segments_ok]; [by intros ->|].
  intros (vs1 & vs2 & -> & _ & Hseg & Hs). rewrite fmap_cons. cbn [sum_list sum_list_with]. fold (sum_list (segment_count <$> segs)).
  rewrite length_app, (so_count _ _ _ _ Hseg). f_equal. by eapply IH.
Qed.

Lemma committed_none us vs : (∀ k, vector_entries us k = []) → committed us vs = vs.
Proof.
  intros Hn. apply list_eq. intros r. unfold committed. rewrite list_lookup_imap. destruct (vs !! r) as [v|]; [|done]. cbn. unfold committed_value. by rewrite Hn.
Qed.

(** No updates. *)
Definition no_updates us : Prop := ∀ j u, us !! j = Some u → us_root u.1 = None.

Lemma no_updates_entries us k : no_updates us → vector_entries us k = [].
Proof.
  intros Hn. unfold vector_entries, base_entries. destruct (us !! (k / MVC)%nat) as [u|] eqn:Hk; [|done]. unfold root_at. by rewrite (Hn _ _ Hk).
Qed.

Lemma no_updates_ok (g : UpdateSegment T St) : us_root g = None → base_ok g.
Proof. intros Hr k base _. unfold root_at. by rewrite Hr. Qed.
Lemma no_updates_segments us rows :
  no_updates us → length us = S (rows / MORSEL_SIZE) →
  (∀ j u, us !! j = Some u → us_start u.1 = (j * MORSEL_SIZE)%nat ∧ u.2 = Nat.min MORSEL_SIZE (rows - j * MORSEL_SIZE)) → updates_ok us rows.
Proof.
  intros Hn Hl Hu. split; [done| |].
  - intros j u Hj. destruct (Hu j u Hj) as [H1 H2]. split_and!; [done|done|by eapply no_updates_ok, Hn].
  - intros k i v. by rewrite (no_updates_entries us k Hn).
Qed.
End column.
