(* ===== verification/ColumnAppend.v ===== *)
(** * Appending to columns

    Theorems about [InitializeAppend], [AppendData] and [RevertAppend] of
    ColumnData.v: an append keeps the rows of the column and adds those of the
    vector, over as many segments as it needs, with the update segments in step;
    reverting it leaves the rows before. *)

From S2P Require Import Prelude Constants Serializer MorselInfo ValidityMask Statistics UpdateSegment SegmentTree CatalogCodec BlockManager ColumnSegment ColumnData ColumnRows.

Notation VS := STANDARD_VECTOR_SIZE (only parsing).
Notation MVC := MORSEL_VECTOR_COUNT (only parsing).

Section column.
Context {T V St : Type} `{!Inhabited T, !UpdateKind T V St, !SegmentKind T St, !SegmentKindLaws T St, !Codec St, !StatisticsLaws T V St}.
Implicit Types (bm : SingleFileBlockManager) (seg : ColumnSegment St) (c : ColumnData T St) (us : list (UpdateSegment T St * nat)) (vs : list T).

Notation capacity := (max_vector_count (T := T) (St := St) * VS)%nat.

(** ** Update segments *)

Lemma updates_ok_last us rows : updates_ok us rows →
  ∃ us0 g, us = us0 ++ [(g, rows mod MORSEL_SIZE)%nat] ∧ length us0 = (rows / MORSEL_SIZE)%nat ∧ us_start g = (rows / MORSEL_SIZE * MORSEL_SIZE)%nat.
Proof.
  pose proof MORSEL_SIZE_pos. intros [Hl Hu _]. destruct us as [|[g n] us0 _] using rev_ind; [done|]. rewrite length_app in Hl. cbn in Hl.
  exists us0, g. destruct (Hu (length us0) (g, n)) as (Hs & Hn & _); [by rewrite list_lookup_middle|]. cbn in Hs, Hn.
  assert (length us0 = rows / MORSEL_SIZE)%nat as Hlen by lia. rewrite Hlen in *. split_and!; [|done|done]. do 3 f_equal. rewrite Hn.
  pose proof (Nat.div_mod_eq rows MORSEL_SIZE). pose proof (Nat.mod_upper_bound rows MORSEL_SIZE ltac:(lia)). lia.
Qed.

Lemma vector_entries_app us0 g n m us1 k : no_updates us1 → vector_entries (us0 ++ (g, n) :: us1) k = vector_entries (us0 ++ [(g, m)]) k.
Proof.
  intros Hn. unfold vector_entries. destruct (lt_eq_lt_dec (k / MVC) (length us0)) as [[Hlt|Heq]|Hgt].
  - by rewrite !lookup_app_l by done.
  - rewrite Heq. by rewrite !list_lookup_middle by done.
  - rewrite !lookup_app_r by lia. destruct (k / MVC - length us0)%nat as [|i] eqn:Hi; [lia|]. cbn.
    destruct (us1 !! i) as [u|] eqn:Hu; [|done]. unfold base_entries, root_at. by rewrite (Hn _ _ Hu).
Qed.

(** The update segments after [rows] rows became [rows + m], within a segment or up to its end. *)
Lemma updates_ok_grow us0 g rows m st :
  updates_ok (us0 ++ [(g, rows mod MORSEL_SIZE)%nat]) rows → length us0 = (rows / MORSEL_SIZE)%nat → (rows mod MORSEL_SIZE + m <= MORSEL_SIZE)%nat →
  let count := (rows mod MORSEL_SIZE + m)%nat in
  let us := us0 ++ (g, count) :: if (count =? MORSEL_SIZE)%nat then [(UpdateSegment_new (V := V) (us_start g + count) st, 0%nat)] else [] in
  updates_ok us (rows + m) ∧ ∀ k, vector_entries us k = vector_entries (us0 ++ [(g, rows mod MORSEL_SIZE)%nat]) k.
Proof.
  intros Hok Hl Hm count us. pose proof MORSEL_SIZE_pos as HM. pose proof (Nat.div_mod_eq rows MORSEL_SIZE) as Hdm.
  pose proof (Nat.mod_upper_bound rows MORSEL_SIZE ltac:(lia)) as Hmod.
  assert (∀ k, vector_entries us k = vector_entries (us0 ++ [(g, rows mod MORSEL_SIZE)%nat]) k) as Hent.
  { intros k. apply vector_entries_app. destruct (count =? MORSEL_SIZE)%nat; [|done]. intros [|j] u Hj; [|done]. by injection Hj as <-. }
  split; [|done]. destruct Hok as [_ Hu Hr].
  destruct (Hu (length us0) (g, rows mod MORSEL_SIZE)%nat) as (Hs & _ & Hb); [by rewrite list_lookup_middle|]. cbn in Hs, Hb.
  split; [| |intros k i v; rewrite Hent; intros Hv; apply Hr in Hv; lia].
  - unfold us. rewrite length_app, Hl. destruct (Nat.eqb_spec count MORSEL_SIZE) as [Hc|Hc]; cbn [length].
    + assert ((rows + m) / MORSEL_SIZE = S (rows / MORSEL_SIZE))%nat as ->; [|lia]. symmetry. apply (Nat.div_unique _ _ _ 0); lia.
    + assert ((rows + m) / MORSEL_SIZE = rows / MORSEL_SIZE)%nat as ->; [|lia]. symmetry. apply (Nat.div_unique _ _ _ count); lia.
  - intros j u Hj. unfold us in Hj. destruct (lt_eq_lt_dec j (length us0)) as [[Hlt|Heq]|Hgt].
    + rewrite lookup_app_l in Hj by done. destruct (Hu j u) as (H1 & H2 & H3); [by rewrite lookup_app_l|]. split_and!; [done| |done]. rewrite H2.
      assert (S j * MORSEL_SIZE <= rows / MORSEL_SIZE * MORSEL_SIZE)%nat by (apply Nat.mul_le_mono_r; lia). lia.
    + subst j. rewrite list_lookup_middle in Hj by done. injection Hj as <-. cbn [fst snd]. split_and!; [done| |done]. rewrite Hl. lia.
    + rewrite lookup_app_r in Hj by lia. destruct (j - length us0)%nat as [|i] eqn:Hi; [lia|]. cbn in Hj.
      destruct (Nat.eqb_spec count MORSEL_SIZE) as [Hc|Hc]; [|done]. destruct i as [|i]; [|done]. injection Hj as <-. cbn [fst snd].
      assert (j = S (length us0)) as -> by lia. split_and!; [cbn; lia| |by apply no_updates_ok]. rewrite Hl. lia.
Qed.

Lemma append_to_updates_ok fuel n rows c :
  updates_ok (updates c) rows → (n <= fuel)%nat →
  ∃ us, append_to_updates (V := V) fuel n c = Ok (set_updates us c) ∧ updates_ok us (rows + n) ∧ ∀ k, vector_entries us k = vector_entries (updates c) k.
Proof.
  pose proof MORSEL_SIZE_pos as HM. revert n rows c. induction fuel as [|fuel IH]; intros n rows c Hok Hn.
  { assert (n = 0%nat) as -> by lia. exists (updates c). rewrite Nat.add_0_r. by destruct c. }
  cbn [append_to_updates]. destruct (Nat.eqb_spec n 0) as [->|Hn0]; [exists (updates c); rewrite Nat.add_0_r; by destruct c|].
  destruct (updates_ok_last _ _ Hok) as (us0 & g & Heq & Hl & Hs). rewrite Heq. rewrite last_snoc. cbn [the mbind res_bind].
  pose proof (Nat.mod_upper_bound rows MORSEL_SIZE ltac:(lia)) as Hmod. set (m := Nat.min n (MORSEL_SIZE - rows mod MORSEL_SIZE)).
  rewrite Heq in Hok. destruct (updates_ok_grow us0 g rows m (statistics c) Hok Hl ltac:(lia)) as [Hok' Hent].
  unfold set_last. rewrite length_app. cbn [length]. rewrite Nat.add_sub, take_app_length.
  match goal with |- context [append_to_updates fuel (n - m) ?c1] => set (c1' := c1) end.
  assert (c1' = set_updates (us0 ++ (g, (rows mod MORSEL_SIZE + m)%nat) ::
    if (rows mod MORSEL_SIZE + m =? MORSEL_SIZE)%nat then [(UpdateSegment_new (V := V) (us_start g + (rows mod MORSEL_SIZE + m)) (statistics c), 0%nat)] else []) c) as ->.
  { unfold c1'. destruct (Nat.eqb_spec (rows mod MORSEL_SIZE + m) MORSEL_SIZE); [|done]. unfold AppendUpdateSegment, set_updates. cbn. by rewrite <-app_assoc. }
  destruct (IH (n - m)%nat (rows + m)%nat (set_updates _ c) Hok') as (us & -> & Hok2 & Hent2); [lia|]. exists us. split; [done|].
  replace (rows + n)%nat with (rows + m + (n - m))%nat by lia. split; [done|]. intros k. rewrite Hent2. cbn [updates set_updates]. by rewrite Hent.
Qed.

(** ** Segments *)

Section append.
Context (bm : SingleFileBlockManager) (fresh : nat → list Z).
Hypothesis fresh_length : ∀ n, length (fresh n) = BLOCK_SIZE.

Lemma TransientSegment_new_ok n start : segment_ok bm (TransientSegment_new (V := V) (fresh n) start) start [].
Proof.
  split; try done; [eexists; split; [done|by apply block_holds_empty]|by eexists|apply (valid_empty (T := T) (V := V))].
Qed.

Lemma TransientSegment_Append_ok seg start vs vdata offset count :
  segment_ok bm seg start vs → segment_type seg = TRANSIENT →
  (∀ i v, (i < count)%nat → appended (T := T) (St := St) vdata offset i = Some v → value_ok (T := T) (St := St) v) →
  let k := Nat.min count (capacity - length vs) in
  ∃ seg' ws, TransientSegment_Append (T := T) bm seg vdata offset count = Ok (seg', k) ∧ length ws = k ∧ segment_ok bm seg' start (vs ++ ws) ∧
    segment_type seg' = TRANSIENT ∧ ∀ i v, (i < k)%nat → appended (T := T) (St := St) vdata offset i = Some v → ws !! i = Some v.
Proof.
  intros [H1 H2 H3 H4 (buffer & Hp & Hb) H6 H7] Htype Hok k. unfold TransientSegment_Append. rewrite Hp, H4. cbn [mbind res_bind].
  destruct (Append_block (segment_stats seg) buffer vs vdata offset count Hb H7 Hok) as (st' & buffer' & ws & -> & Hl & Hb' & Hst & Hval). fold k in Hl, Hval.
  eexists _, ws. split; [reflexivity|]. split_and!; [done| |done|done]. rewrite Htype.
  split; cbn; rewrite ?length_app, ?Hl; try lia; [by eexists|by eexists|done].
Qed.

Lemma segment_blocks_app segs segs' : (segs ++ segs') ≫= persistent_block = (segs ≫= persistent_block) ++ (segs' ≫= persistent_block (St := St)).
Proof. apply bind_app. Qed.

(** The loop over the segments: every round fills a segment, or is the last one. *)
Lemma append_to_segments_ok fuel vdata offset count c segs seg vs1 vs2 :
  data c = segs ++ [seg] → segment_type seg = TRANSIENT → segments_ok bm segs 0 vs1 → Nat.divide VS (length vs1) → segment_ok bm seg (length vs1) vs2 →
  (∀ off i v, appended (T := T) (St := St) vdata off i = Some v → value_ok (T := T) (St := St) v) →
  (∀ off i, (off + i < offset + count)%nat → appended (T := T) (St := St) vdata off i = appended vdata 0 (off + i)) →
  (if decide (length vs2 = capacity) then S count < fuel else count < fuel)%nat →
  ∃ ws st' segs' seg', append_to_segments (V := V) fuel fresh bm vdata offset count c = Ok (set_statistics st' (set_data (segs' ++ [seg']) c)) ∧
    length ws = count ∧ segments_ok bm (segs' ++ [seg']) 0 (vs1 ++ vs2 ++ ws) ∧ segment_type seg' = TRANSIENT ∧
    (segs' ++ [seg']) ≫= persistent_block = data c ≫= persistent_block ∧
    ∀ i v, (i < count)%nat → appended (T := T) (St := St) vdata 0 (offset + i) = Some v → ws !! i = Some v.
Proof.
  pose proof STANDARD_VECTOR_SIZE_pos as HV. pose proof (max_vector_count_pos (T := T) (St := St)) as Hmax. intros Hdata Htype Hs Hd Hseg Hok Hoff Hfuel.
  revert offset count c segs seg vs1 vs2 Hdata Htype Hs Hd Hseg Hoff Hfuel.
  induction fuel as [|fuel IH]; intros offset count c segs seg vs1 vs2 Hdata Htype Hs Hd Hseg Hoff Hfuel; [case_decide; lia|].
  cbn [append_to_segments]. unfold GetLastSegment. rewrite Hdata, last_snoc. cbn [the mbind res_bind].
  destruct (TransientSegment_Append_ok seg (length vs1) vs2 vdata offset count Hseg Htype) as (seg1 & ws & -> & Hl & Hseg1 & Htype1 & Hval); [intros i v _; apply Hok|].
  set (k := Nat.min count (capacity - length vs2)) in *. cbn [mbind res_bind].
  unfold set_last. rewrite length_app. cbn [length]. rewrite Nat.add_sub, take_app_length.
  assert (length vs2 <= capacity)%nat as Hfit by (destruct (so_block _ _ _ _ Hseg) as (b & _ & Hb); apply (bh_fits _ _ Hb)).
  assert (persistent_block seg1 = persistent_block seg) as Hpb by (unfold persistent_block; by rewrite Htype, Htype1).
  assert (∀ i v, (i < k)%nat → appended (T := T) (St := St) vdata 0 (offset + i) = Some v → ws !! i = Some v) as Hval'.
  { intros i v Hi Ha. apply Hval; [done|]. rewrite Hoff by lia. done. }
  destruct (Nat.eqb_spec k count) as [Hk|Hk].
  - exists ws, (MergeStatistics (T := T) (V := V) (statistics c) (segment_stats seg1)), segs, seg1. split_and!; [done|congruence| |done| |].
    + rewrite app_assoc. rewrite <-app_assoc. apply segments_ok_snoc; [done|done|done].
    + by rewrite !segment_blocks_app, !bind_cons, Hpb.
    + intros i v Hi. apply Hval'. lia.
  - assert (length (vs2 ++ ws) = capacity) as Hfull by (rewrite length_app; lia).
    set (new := TransientSegment_new (V := V) (fresh (length (segs ++ [seg1]))) (length vs1 + length (vs2 ++ ws))).
    destruct (IH (offset + k)%nat (count - k)%nat
      (AppendTransientSegment (V := V) (fresh (length (segs ++ [seg1]))) (length vs1 + length (vs2 ++ ws))
        (set_statistics (MergeStatistics (T := T) (V := V) (statistics c) (segment_stats seg1)) (set_data (segs ++ [seg1]) c)))
      (segs ++ [seg1]) new (vs1 ++ vs2 ++ ws) []) as (ws' & st' & segs' & seg' & Heq & Hl' & Hs' & Htype' & Hb' & Hval2).
    + done.
    + done.
    + apply segments_ok_snoc; done.
    + rewrite length_app. apply Nat.divide_add_r; [done|]. rewrite Hfull. by exists (max_vector_count (T := T) (St := St)).
    + rewrite length_app. apply TransientSegment_new_ok.
    + intros off i Hi. apply Hoff. lia.
    + rewrite decide_False by (cbn; nia). case_decide; lia.
    + rewrite (so_start _ _ _ _ Hseg1), (so_count _ _ _ _ Hseg1). cbn [data set_statistics set_data]. rewrite Heq.
      exists (ws ++ ws'), st', segs', seg'. split_and!; [done| | |done| |].
      * rewrite length_app. lia.
      * by rewrite <-!app_assoc in Hs'.
      * rewrite Hb'. cbn [data set_statistics set_data AppendTransientSegment AppendSegment]. unfold AppendSegment.
        rewrite !segment_blocks_app, !bind_cons, Hpb. cbn. by rewrite !app_nil_r.
      * intros i v Hi Ha. destruct (decide (i < k)%nat); [rewrite lookup_app_l by lia; by apply Hval'|].
        rewrite lookup_app_r by lia. rewrite Hl. apply Hval2; [lia|]. by replace (offset + k + (i - k))%nat with (offset + i)%nat by lia.
Qed.

(** An append that fills the last segment and ends in the next one, for any
    vector: the rows of the second segment are those that [Append] finds from the
    offset on. *)
Lemma append_two_segments fuel vdata count c segs seg vs1 vs2 :
  data c = segs ++ [seg] → segment_type seg = TRANSIENT → segments_ok bm segs 0 vs1 → Nat.divide VS (length vs1) → segment_ok bm seg (length vs1) vs2 →
  (∀ off i v, appended (T := T) (St := St) vdata off i = Some v → value_ok (T := T) (St := St) v) →
  let k := (capacity - length vs2)%nat in
  (k < count <= k + capacity)%nat →
  ∃ ws1 ws2 st' segs' seg', append_to_segments (V := V) (S (S fuel)) fresh bm vdata 0 count c = Ok (set_statistics st' (set_data (segs' ++ [seg']) c)) ∧
    length ws1 = k ∧ length ws2 = (count - k)%nat ∧ segments_ok bm (segs' ++ [seg']) 0 (vs1 ++ vs2 ++ ws1 ++ ws2) ∧
    (∀ i v, (i < k)%nat → appended (T := T) (St := St) vdata 0 i = Some v → ws1 !! i = Some v) ∧
    (∀ i v, (i < count - k)%nat → appended (T := T) (St := St) vdata k i = Some v → ws2 !! i = Some v).
Proof.
  intros Hdata Htype Hs Hd Hseg Hok k Hcount.
  assert (length vs2 <= capacity)%nat as Hfit by (destruct (so_block _ _ _ _ Hseg) as (b & _ & Hb); apply (bh_fits _ _ Hb)).
  destruct (TransientSegment_Append_ok seg (length vs1) vs2 vdata 0 count Hseg Htype) as (seg1 & ws1 & Ha1 & Hl1 & Hseg1 & Htype1 & Hval1); [intros i v _; apply Hok|].
  fold k in Ha1, Hl1, Hval1. rewrite Nat.min_r in Ha1, Hl1, Hval1 by lia. set (start := (length vs1 + length (vs2 ++ ws1))%nat).
  assert (length (vs2 ++ ws1) = capacity) as Hfull by (rewrite length_app; lia).
  destruct (TransientSegment_Append_ok (TransientSegment_new (V := V) (fresh (length (segs ++ [seg1]))) start) start [] vdata k (count - k))
    as (seg2 & ws2 & Ha2 & Hl2 & Hseg2 & Htype2 & Hval2); [apply TransientSegment_new_ok|done|intros i v _; apply Hok|]. cbn [length] in *.
  rewrite Nat.min_l in Ha2, Hl2, Hval2 by lia.
  cbn [append_to_segments]. unfold GetLastSegment. rewrite Hdata, last_snoc. cbn [the mbind res_bind]. rewrite Ha1. cbn [mbind res_bind].
  unfold set_last. rewrite length_app. cbn [length]. rewrite Nat.add_sub, take_app_length, (proj2 (Nat.eqb_neq k count)) by lia.
  rewrite (so_start _ _ _ _ Hseg1), (so_count _ _ _ _ Hseg1). fold start. cbn [data set_statistics set_data AppendTransientSegment]. unfold AppendSegment.
  rewrite last_snoc. cbn [the mbind res_bind]. rewrite Nat.add_0_l, Ha2. cbn [mbind res_bind].
  rewrite (length_app (segs ++ [seg1])). cbn [length]. rewrite Nat.add_sub, take_app_length, Nat.eqb_refl.
  eexists ws1, ws2, _, (segs ++ [seg1]), seg2. split; [reflexivity|]. split_and!; [done|done| |done|done].
  replace (vs1 ++ vs2 ++ ws1 ++ ws2) with ((vs1 ++ vs2 ++ ws1) ++ [] ++ ws2) by (cbn; by rewrite <-!app_assoc).
  apply segments_ok_snoc; [by apply segments_ok_snoc| |].
  - rewrite Nat.add_0_l, length_app. apply Nat.divide_add_r; [done|]. rewrite Hfull. by exists (max_vector_count (T := T) (St := St)).
  - rewrite Nat.add_0_l, length_app. exact Hseg2.
Qed.
End append.

(** ** Appending to a column *)

Lemma TransientSegment_from_ok bm seg start vs id :
  segment_ok bm seg start vs → segment_type seg = PERSISTENT id →
  ∃ seg', TransientSegment_from bm seg = Ok (MarkBlockAsModified id bm, seg') ∧ segment_type seg' = TRANSIENT ∧ segment_ok (MarkBlockAsModified id bm) seg' start vs.
Proof.
  intros [H1 H2 H3 H4 (buffer & Hp & Hb) H6 H7] Htype. rewrite Htype in H6. destruct H6 as [H6 _]. unfold TransientSegment_from, ToTemporary. rewrite Htype, H6, Z.eqb_refl.
  rewrite H6 in Hp. change (Pin (MarkBlockAsModified id bm) (OnDisk id)) with (Pin bm (OnDisk id)). rewrite Hp. cbn [mbind res_bind].
  eexists. split; [reflexivity|]. split; [done|]. split; cbn; try done; by eexists.
Qed.

Lemma committed_ext us us' vs : (∀ k, vector_entries us k = vector_entries us' k) → committed us vs = committed us' vs.
Proof. intros Hk. apply imap_ext. intros r v _. unfold committed_value. by rewrite Hk. Qed.

Lemma updates_ok_new st : updates_ok [(UpdateSegment_new (V := V) 0 st, 0%nat)] 0.
Proof.
  pose proof MORSEL_SIZE_pos. apply no_updates_segments; [|by rewrite Nat.Div0.div_0_l|]; intros [|j] u Hj; try done; injection Hj as <-; [done|].
  split; [done|cbn; lia].
Qed.

(** After [InitializeAppend] the last segment is in memory; its block in the
    file, if there is one, is to be freed. *)
Lemma InitializeAppend_ok (fresh0 : list Z) bm c vs :
  length fresh0 = BLOCK_SIZE → column_data_ok bm c vs →
  ∃ bm' c' segs seg, InitializeAppend (V := V) fresh0 bm c = Ok (bm', c') ∧ data c' = segs ++ [seg] ∧ segment_type seg = TRANSIENT ∧
    column_data_ok bm' c' vs ∧ updates_ok (updates c') (length vs) ∧ (∀ k, vector_entries (updates c') k = vector_entries (updates c) k) ∧
    ((bm' = bm ∧ data c' ≫= persistent_block = data c ≫= persistent_block) ∨
     ∃ id, bm' = MarkBlockAsModified id bm ∧ data c ≫= persistent_block = (data c' ≫= persistent_block) ++ [id]).
Proof.
  intros Hf [Hs Hu Hp]. unfold InitializeAppend.
  set (c1 := match data c with [] => _ | _ => c end). set (c2 := match updates c1 with [] => _ | _ => c1 end).
  assert (segments_ok bm (data c1) 0 vs ∧ data c1 ≠ [] ∧ updates c1 = updates c ∧ persistent_rows c1 = persistent_rows c ∧
    data c1 ≫= persistent_block = data c ≫= persistent_block) as (Hs1 & Hne & Hu1 & Hp1 & Hb1).
  { unfold c1. destruct (data c) as [|s segs] eqn:Hd; [|rewrite Hd; by split_and!]. cbn in Hs. subst vs. cbn in Hp. assert (persistent_rows c = 0%nat) as H0 by lia.
    split_and!; [|by cbn; rewrite Hd|done|done|by cbn; rewrite Hd]. cbn [data AppendTransientSegment set_data]. rewrite Hd, H0. cbn [AppendSegment app segments_ok].
    exists [], []. split_and!; [done|apply Nat.divide_0_r| |done]. by apply (TransientSegment_new_ok bm (λ _, fresh0) (λ _, Hf) 0). }
  assert (updates_ok (updates c2) (length vs) ∧ (∀ k, vector_entries (updates c2) k = vector_entries (updates c) k) ∧ data c2 = data c1 ∧
    persistent_rows c2 = persistent_rows c1) as (Hu2 & He2 & Hd2 & Hp2).
  { unfold c2. destruct (updates c1) as [|u us] eqn:Hus.
    - destruct Hu as [[Hd Hu]|Hu]; [|rewrite <-Hu1 in Hu; pose proof (uo_length _ _ Hu) as Hl; done].
      rewrite Hd in Hs. cbn in Hs. subst vs. unfold AppendUpdateSegment. cbn [updates set_updates data]. rewrite Hus. cbn [app length]. split_and!; [apply updates_ok_new| |done|done].
      intros k. rewrite Hu. unfold vector_entries. rewrite lookup_nil. destruct ((_ :: _) !! (k / MVC)%nat) as [u|] eqn:Hk; [|done].
      destruct (k / MVC)%nat; [|done]. by injection Hk as <-.
    - destruct Hu as [[_ Hu]|Hu]; [congruence|]. rewrite Hus, Hu1. by split_and!. }
  rewrite <-Hd2 in Hs1, Hne, Hb1. unfold GetLastSegment. destruct (data c2) as [|seg segs _] eqn:Hd using rev_ind; [done|]. rewrite last_snoc. cbn [the mbind res_bind].
  destruct (segment_type seg) as [|id] eqn:Htype.
  - exists bm, c2, segs, seg. split_and!; [done|done|done| |done|done|left; split; [done|by rewrite Hd]]. split; [by rewrite Hd|by right|lia].
  - destruct (segments_ok_last _ _ _ _ _ Hs1) as (vs1 & vs2 & -> & Hs2 & Hdiv & Hseg). destruct (TransientSegment_from_ok _ _ _ _ _ Hseg Htype) as (seg' & -> & Htype' & Hseg').
    cbn [mbind res_bind]. eexists (MarkBlockAsModified id bm), _, segs, seg'. split; [reflexivity|]. cbn [data set_data updates].
    unfold set_last. rewrite ?Hd, length_app. cbn [length]. rewrite Nat.add_sub, take_app_length. split_and!; [done|done| |done|done|].
    + split; cbn [data set_data updates persistent_rows]; [|by right|lia]. apply segments_ok_snoc; [by eapply segments_ok_read; [|exact Hs2]|done|done].
    + right. exists id. split; [done|]. rewrite <-Hb1, !bind_app, !bind_cons. cbn. unfold persistent_block. rewrite Htype, Htype'. by rewrite !app_nil_r.
Qed.

(** A vector whose values can be stored, and whose entries [Append] finds at its
    offset. *)
Definition appends (vdata : VectorData) (count : nat) : Prop :=
  (∀ off i v, appended (T := T) (St := St) vdata off i = Some v → value_ok (T := T) (St := St) v) ∧
  ∀ off i, (off + i < count)%nat → appended (T := T) (St := St) vdata off i = appended vdata 0 (off + i).

(** C34: appending to a column, [ColumnData::InitializeAppend] and [AppendData]: it
    succeeds, also across segments, and the column has its rows and updates, and
    then as many rows more, with the values of the entries of the vector that are
    not NULL.  The entries must not depend on the offset ([appends]), which
    [validity_append_shift] shows to be needed for validity masks that do not
    fit into the last segment.  If the last segment was in a block of the file
    it is in memory then, and its block is marked as modified. *)
Theorem column_append_rows (fresh0 : list Z) (fresh : nat → list Z) bm c vs vdata count :
  length fresh0 = BLOCK_SIZE → (∀ n, length (fresh n) = BLOCK_SIZE) → column_data_ok bm c vs → appends vdata count →
  ∃ bm' c1 c2 ws, InitializeAppend (V := V) fresh0 bm c = Ok (bm', c1) ∧ AppendData (V := V) fresh bm' vdata count c1 = Ok c2 ∧ length ws = count ∧
    column_data_ok bm' c2 (vs ++ ws) ∧ committed (updates c2) (vs ++ ws) = committed (updates c) vs ++ ws ∧
    (∀ i v, (i < count)%nat → appended (T := T) (St := St) vdata 0 i = Some v → ws !! i = Some v) ∧
    ((bm' = bm ∧ data c2 ≫= persistent_block = data c ≫= persistent_block) ∨
     ∃ id, bm' = MarkBlockAsModified id bm ∧ data c ≫= persistent_block = (data c2 ≫= persistent_block) ++ [id]).
Proof.
  intros Hf0 Hf Hok [Hval Hoff]. destruct (InitializeAppend_ok fresh0 bm c vs Hf0 Hok) as (bm' & c1 & segs & seg & -> & Hd1 & Htype & [Hs1 _ Hp1] & Hu1 & He1 & Hbm).
  destruct (append_to_updates_ok count count (length vs) c1 Hu1 ltac:(lia)) as (us & Hup & Hus & Hes).
  rewrite Hd1 in Hs1. destruct (segments_ok_last _ _ _ _ _ Hs1) as (vs1 & vs2 & -> & Hs2 & Hdiv & Hseg).
  destruct (append_to_segments_ok bm' fresh Hf (S (S count)) vdata 0 count (set_updates us c1) segs seg vs1 vs2) as (ws & st' & segs' & seg' & Happ & Hl & Hs' & _ & Hb' & Hv');
    [done|done|done|done|done|done|done|case_decide; lia|].
  eexists bm', c1, _, ws. split; [done|]. split; [unfold AppendData; rewrite Hup; cbn [mbind res_bind]; exact Happ|]. cbn [data updates set_statistics set_data set_updates]. split_and!; [done| | |done|].
  - split; cbn [data updates set_statistics set_data set_updates persistent_rows].
    + by rewrite <-app_assoc.
    + right. by rewrite length_app, Hl.
    + rewrite length_app. lia.
  - unfold committed. rewrite imap_app. f_equal.
    + apply imap_ext. intros r v _. unfold committed_value. by rewrite Hes, He1.
    + apply list_eq. intros i. rewrite list_lookup_imap. destruct (ws !! i) as [v|]; [|done]. cbn. f_equal. unfold committed_value.
      destruct (value_in (vector_entries us _) _) as [v'|] eqn:Hin; [|done]. rewrite Hes in Hin. apply (uo_rows _ _ Hu1) in Hin.
      pose proof (Nat.div_mod_eq (length (vs1 ++ vs2) + i) VS). lia.
  - rewrite Hb'. cbn [data set_updates]. exact Hbm.
Qed.

(** ** Reverting an append *)

Lemma segments_ok_lookup bm segs start vs i seg :
  segments_ok bm segs start vs → segs !! i = Some seg →
  ∃ vs1 vs2 vs3, vs = vs1 ++ vs2 ++ vs3 ∧ segments_ok bm (take i segs) start vs1 ∧ Nat.divide VS (start + length vs1) ∧ segment_ok bm seg (start + length vs1) vs2.
Proof.
  revert start vs i. induction segs as [|s segs IH]; intros start vs i Hs Hi; [done|].
  destruct Hs as (ws & ws' & -> & Hd & Hseg & Hs). destruct i as [|i]; cbn in Hi.
  - injection Hi as ->. exists [], ws, ws'. cbn [length]. by rewrite Nat.add_0_r.
  - destruct (IH _ _ _ Hs Hi) as (vs1 & vs2 & vs3 & -> & Hs1 & Hd1 & Hseg1). exists (ws ++ vs1), vs2, vs3. rewrite length_app, Nat.add_assoc, <-app_assoc.
    split_and!; [done| |done|done]. by exists ws, vs1.
Qed.

Lemma segments_ok_tree bm segs vs :
  segments_ok bm segs 0 vs → segs ≠ [] → Z.of_nat (length vs) < 2 ^ 63 → Z.of_nat (length segs) < 2 ^ 63 → tree_ok segs ∧ tree_rows segs = length vs.
Proof.
  intros Hs Hne Hv Hl.
  assert (∀ i seg, segs !! i = Some seg → ∃ vs1 vs2 vs3, vs = vs1 ++ vs2 ++ vs3 ∧ segments_ok bm (take i segs) 0 vs1 ∧
    segment_start seg = length vs1 ∧ seg_end seg = length (vs1 ++ vs2)) as Hlk.
  { intros i seg Hi. destruct (segments_ok_lookup _ _ _ _ _ _ Hs Hi) as (vs1 & vs2 & vs3 & -> & H1 & _ & Hseg). exists vs1, vs2, vs3.
    pose proof (so_start _ _ _ _ Hseg) as H2. pose proof (so_count _ _ _ _ Hseg) as H3. split_and!; [done|done|done|]. unfold seg_end. cbn. rewrite length_app. lia. }
  split; [split|].
  - intros seg Hi. destruct (Hlk _ _ Hi) as (vs1 & vs2 & vs3 & -> & H1 & H2 & _). rewrite take_0 in H1. cbn in H1. by subst vs1.
  - intros i a b Ha Hb. destruct (Hlk _ _ Ha) as (vs1 & vs2 & vs3 & Heq & H1 & _ & H2). destruct (Hlk _ _ Hb) as (ws1 & ws2 & ws3 & Heq' & H3 & H4 & _).
    cbn [seg_start ColumnSegment_Segment]. rewrite H4, H2. pose proof (segments_ok_rows _ _ _ _ H1) as R1. pose proof (segments_ok_rows _ _ _ _ H3) as R3.
    rewrite (take_S_r _ _ _ Ha), fmap_app in R3. cbn in R3. rewrite sum_list_with_app in R3. cbn in R3. unfold seg_end in H2. cbn in H2.
    destruct (Hlk _ _ Ha) as (vs1' & vs2' & _ & _ & H1' & H5 & _). pose proof (segments_ok_rows _ _ _ _ H1') as R1'. rewrite length_app in *. unfold sum_list in *. lia.
  - done.
  - intros seg (i & Hi)%list_elem_of_lookup. destruct (Hlk _ _ Hi) as (vs1 & vs2 & vs3 & -> & _ & _ & H2). rewrite H2. rewrite !length_app in *. lia.
  - done.
  - unfold tree_rows. destruct segs as [|seg segs _] using rev_ind; [done|]. rewrite last_snoc. cbn.
    destruct (segments_ok_last _ _ _ _ _ Hs) as (vs1 & vs2 & -> & _ & _ & Hseg). unfold seg_end. cbn. rewrite (so_start _ _ _ _ Hseg), (so_count _ _ _ _ Hseg), length_app. lia.
Qed.

Lemma updates_ok_tree us rows : updates_ok us rows → Z.of_nat rows < 2 ^ 62 → tree_ok us ∧ tree_rows us = rows.
Proof.
  intros [Hl Hu _] Hr. pose proof MORSEL_SIZE_pos as HM. pose proof (Nat.div_mod_eq rows MORSEL_SIZE) as Hdm. pose proof (Nat.mod_upper_bound rows MORSEL_SIZE ltac:(lia)) as Hmod.
  assert (∀ j u, us !! j = Some u → us_start u.1 = (j * MORSEL_SIZE)%nat ∧ seg_end u = Nat.min (S j * MORSEL_SIZE) rows ∧ (j <= rows / MORSEL_SIZE)%nat) as Hlk.
  { intros j u Hj. destruct (Hu j u Hj) as (H1 & H2 & _). pose proof (lookup_lt_Some _ _ _ Hj) as Hlt. split_and!; [done| |lia]. unfold seg_end. cbn [seg_start seg_count UpdateSegment_Segment].
    rewrite H1, H2. assert (j * MORSEL_SIZE <= rows / MORSEL_SIZE * MORSEL_SIZE)%nat by (apply Nat.mul_le_mono_r; lia). lia. }
  assert (rows / MORSEL_SIZE <= rows)%nat by (apply Nat.Div0.div_le_upper_bound; nia).
  split; [split|].
  - intros u Hj. destruct (Hlk _ _ Hj) as (H1 & _). exact H1.
  - intros j a b Ha Hb. destruct (Hlk _ _ Ha) as (_ & H1 & _). destruct (Hlk _ _ Hb) as (H2 & _ & H3). cbn [seg_start UpdateSegment_Segment]. rewrite H2, H1.
    assert (S j * MORSEL_SIZE <= rows / MORSEL_SIZE * MORSEL_SIZE)%nat by (apply Nat.mul_le_mono_r; lia). lia.
  - by intros ->.
  - intros u (j & Hj)%list_elem_of_lookup. destruct (Hlk _ _ Hj) as (_ & -> & _). lia.
  - rewrite Hl. lia.
  - unfold tree_rows. rewrite last_lookup, Hl. cbn [pred]. destruct (lookup_lt_is_Some_2 us (rows / MORSEL_SIZE) ltac:(lia)) as [u Hj]. rewrite Hj.
    change (seg_end u = rows). destruct (Hlk _ _ Hj) as (_ & -> & _). lia.
Qed.

Lemma TransientSegment_RevertAppend_ok bm seg start vs row :
  segment_ok bm seg start vs → segment_type seg = TRANSIENT → (start <= row < start + length vs)%nat →
  ∃ seg', TransientSegment_RevertAppend (T := T) bm seg row = Ok seg' ∧ segment_ok bm seg' start (take (row - start) vs) ∧ segment_type seg' = TRANSIENT.
Proof.
  intros [H1 H2 H3 H4 (buffer & Hp & Hb) H6 H7] Htype Hrow. unfold TransientSegment_RevertAppend. rewrite Hp. cbn [mbind res_bind]. rewrite H1, H2, Htype.
  destruct Hb as [Hl Hc Hfits Hrows]. destruct (RevertBlock_spec (T := T) (St := St) buffer (length vs) (row - start) Hl Hc ltac:(lia)) as (Hl' & Hc' & Hsame).
  eexists. split; [reflexivity|]. split; [|done]. assert (length (take (row - start) vs) = row - start)%nat as Hlen by (rewrite length_take; lia).
  split; cbn; rewrite ?Hlen; try done; [|by eexists]. eexists. split; [reflexivity|]. split; [done|by rewrite Hlen|lia|].
  intros i Hi. rewrite Hlen in Hi. rewrite lookup_take_lt by done. rewrite Hrows by lia. by rewrite Hsame.
Qed.

(** Update segments that are cut off behind a row. *)
Lemma updates_ok_take us rows row g n :
  updates_ok us rows → (row < rows)%nat → us !! (row / MORSEL_SIZE)%nat = Some (g, n) →
  (∀ k i v, value_in (vector_entries us k) i = Some v → (k * VS + i < row)%nat) →
  let us' := take (row / MORSEL_SIZE) us ++ [(g, (row - us_start g)%nat)] in
  updates_ok us' row ∧ ∀ vs, (length vs <= row)%nat → committed us' vs = committed us vs.
Proof.
  intros [Hl Hu Hr] Hrow Hg Hup us'. pose proof MORSEL_SIZE_pos as HM. set (j := (row / MORSEL_SIZE)%nat) in *.
  pose proof (Nat.div_mod_eq row MORSEL_SIZE) as Hdm. pose proof (Nat.mod_upper_bound row MORSEL_SIZE ltac:(lia)) as Hmod. fold j in Hdm.
  pose proof (lookup_lt_Some _ _ _ Hg) as Hj. assert (length (take j us) = j) as Hlt by (rewrite length_take; lia).
  assert (∀ k, (k / MVC <= j)%nat → vector_entries us' k = vector_entries us k) as Hent.
  { intros k Hk. unfold vector_entries, us'. destruct (decide (k / MVC < j)%nat).
    - rewrite lookup_app_l by lia. by rewrite lookup_take_lt.
    - assert (k / MVC = j)%nat as -> by lia. by rewrite list_lookup_middle, Hg. }
  assert (∀ k, (j < k / MVC)%nat → vector_entries us' k = []) as Hnone.
  { intros k Hk. unfold vector_entries. rewrite (proj2 (lookup_ge_None _ _)); [done|]. unfold us'. rewrite length_app. cbn. lia. }
  split; [split|].
  - unfold us'. rewrite length_app, Hlt. cbn. lia.
  - intros i u Hi. unfold us' in Hi. destruct (decide (i < j)%nat).
    + rewrite lookup_app_l, lookup_take_lt in Hi by lia. destruct (Hu i u Hi) as (H1 & H2 & H3). split_and!; [done| |done]. rewrite H2.
      assert (S i * MORSEL_SIZE <= j * MORSEL_SIZE)%nat by (apply Nat.mul_le_mono_r; lia). lia.
    + assert (i = j) as ->. { apply lookup_lt_Some in Hi. rewrite length_app, Hlt in Hi. cbn in Hi. lia. }
      rewrite list_lookup_middle in Hi by done. injection Hi as <-. destruct (Hu _ _ Hg) as (H1 & _ & H3). cbn [fst snd] in *. split_and!; [done|lia|done].
  - intros k i v Hv. destruct (decide (k / MVC <= j)%nat); [rewrite Hent in Hv by done; by eapply Hup|]. rewrite Hnone in Hv by lia. done.
  - intros vs Hvs. apply imap_ext. intros r v Hv. apply lookup_lt_Some in Hv. unfold committed_value. rewrite Hent; [done|].
    unfold j. rewrite MORSEL_SIZE_vectors, <-Nat.Div0.div_div. apply Nat.Div0.div_le_mono, Nat.Div0.div_le_mono. lia.
Qed.

(** [ColumnData::RevertAppend]: the column has the rows before the first one
    that is reverted, with their updates. *)
Theorem column_revert_append bm c vs row :
  column_data_ok bm c vs → data c ≠ [] → Z.of_nat (length vs) < 2 ^ 62 → Z.of_nat (length (data c)) < 2 ^ 63 → (persistent_rows c <= row)%nat →
  (∀ seg, seg ∈ data c → segment_type seg ≠ TRANSIENT → (seg_end seg <= row)%nat) →
  (∀ k i v, value_in (vector_entries (updates c) k) i = Some v → (k * VS + i < row)%nat) →
  ∃ c', RevertAppend (T := T) bm row c = Ok c' ∧ column_data_ok bm c' (take row vs) ∧
    committed (updates c') (take row vs) = take row (committed (updates c) vs).
Proof.
  intros Hcd Hne Hlen Hsegs Hp Hpers Hup. pose proof Hcd as [Hs Hu Hpr]. destruct Hu as [[? _]|Hu]; [done|].
  destruct (segments_ok_tree bm (data c) vs Hs Hne ltac:(lia) Hsegs) as [Htree Hrows]. destruct (updates_ok_tree _ _ Hu Hlen) as [Hutree Hurows].
  assert (Hrows' := Hrows). unfold RevertAppend. unfold tree_rows in Hrows'. destruct (last (data c)) as [l|] eqn:Hlast; [|by apply last_None in Hlast].
  unfold seg_end in Hrows'. cbn in Hrows'. cbn [the mbind res_bind]. rewrite Hrows'. destruct (Nat.leb_spec (length vs) row) as [Hge|Hlt].
  { exists c. rewrite !take_ge by (rewrite ?length_committed; lia). by split_and!. }
  destruct (tree_covers _ _ Htree ltac:(by rewrite Hrows)) as (i & seg & Hi & Hc). rewrite (GetSegmentIndex_found _ _ _ _ Htree Hi Hc). cbn [mbind res_bind]. rewrite Hi. cbn [the mbind res_bind].
  destruct (segments_ok_lookup _ _ _ _ _ _ Hs Hi) as (vs1 & vs2 & vs3 & -> & Hs1 & Hd & Hseg). rewrite Nat.add_0_l in Hd, Hseg.
  unfold contains, seg_end in Hc. cbn in Hc. rewrite (so_start _ _ _ _ Hseg), (so_count _ _ _ _ Hseg) in Hc.
  assert (segment_type seg = TRANSIENT) as Htype.
  { destruct (segment_type seg) eqn:Ht; [done|]. exfalso. specialize (Hpers seg (list_elem_of_lookup_2 _ _ _ Hi)). unfold seg_end in Hpers. cbn in Hpers.
    rewrite (so_start _ _ _ _ Hseg), (so_count _ _ _ _ Hseg) in Hpers. rewrite Ht in Hpers. specialize (Hpers ltac:(done)). lia. }
  destruct (TransientSegment_RevertAppend_ok _ _ _ _ row Hseg Htype Hc) as (seg' & -> & Hseg' & Htype'). cbn [mbind res_bind updates set_data].
  pose proof MORSEL_SIZE_pos as HM. pose proof (Nat.div_mod_eq row MORSEL_SIZE) as Hdm. pose proof (Nat.mod_upper_bound row MORSEL_SIZE ltac:(lia)) as Hmod.
  destruct (lookup_lt_is_Some_2 (updates c) (row / MORSEL_SIZE)%nat) as [[g n] Hg].
  { rewrite (uo_length _ _ Hu). apply Nat.lt_succ_r, Nat.Div0.div_le_mono. lia. }
  destruct (uo_segment _ _ Hu _ _ Hg) as (Hg1 & Hg2 & _). cbn [fst snd] in Hg1, Hg2.
  rewrite (GetSegmentIndex_found (updates c) row (row / MORSEL_SIZE) (g, n)); [|done|done|unfold contains, seg_end; cbn; lia]. cbn [mbind res_bind]. rewrite Hg. cbn [the mbind res_bind].
  destruct (updates_ok_take _ _ row g n Hu Hlt Hg Hup) as [Hu' Hcom]. eexists. split; [reflexivity|].
  assert (take row (vs1 ++ vs2 ++ vs3) = vs1 ++ take (row - length vs1) vs2) as Htake.
  { rewrite take_app_ge, take_app_le by lia. done. }
  assert (length (take row (vs1 ++ vs2 ++ vs3)) = row) as Hl' by (rewrite length_take; lia). split.
  - split; cbn [data updates set_data set_updates persistent_rows].
    + rewrite Htake. by apply segments_ok_snoc.
    + right. by rewrite Hl'.
    + by rewrite Hl'.
  - cbn [updates set_updates]. rewrite Hcom by lia. apply list_eq. intros r. unfold committed. rewrite list_lookup_imap.
    destruct (decide (r < row)%nat); [by rewrite !lookup_take_lt, list_lookup_imap by done|]. by rewrite !lookup_take_ge by lia.
Qed.
End column.
