(* ===== verification/ColumnCheckpoint.v ===== *)
(** * What a checkpoint makes of a column

    Theorems about [ColumnData_Checkpoint] of ColumnData.v: the blocks that it
    points to hold the rows of the column with the committed updates, blocks
    without updates are kept as they are, all other blocks are new; the column
    that is left, and the one that is loaded after a restart, have these rows.
    So columns keep the promises of [ColumnStorage], and the theorems of
    CheckpointManager.v hold for them. *)

From S2P Require Import Prelude Constants Serializer MorselInfo ValidityMask Statistics UpdateSegment SegmentTree CatalogCodec BlockManager DatabaseFile ColumnSegment ColumnData ColumnRows.

Notation VS := STANDARD_VECTOR_SIZE (only parsing).
Notation MVC := MORSEL_VECTOR_COUNT (only parsing).

Section column.
Context {T V St : Type} `{!Inhabited T, !UpdateKind T V St, !SegmentKind T St, !SegmentKindLaws T St, !Codec St, !StatisticsLaws T V St}.
Implicit Types (bm : SingleFileBlockManager) (seg : ColumnSegment St) (c : ColumnData T St) (us : list (UpdateSegment T St * nat)) (vs : list T).

Notation capacity := (max_vector_count (T := T) (St := St) * VS)%nat.
Notation row_value := (row_value (T := T) (St := St)).


(** ** The walk over the update segments *)

Lemma segment_at_ok us rows j : updates_ok us rows → (j < S (rows / MORSEL_SIZE))%nat →
  ∃ u, us !! j = Some u ∧ segment_at us j = Ok u.1 ∧ (us_start u.1 / VS = j * MVC)%nat ∧ base_ok u.1.
Proof.
  intros [Hl Hu _] Hj. rewrite <-Hl in Hj. destruct (lookup_lt_is_Some_2 us j Hj) as [u Hlk]. exists u. unfold segment_at. rewrite Hlk.
  destruct (Hu j u Hlk) as (Hs & _ & Hb). split_and!; [done..| |done]. by apply start_vector.
Qed.

Lemma skip_segments_spec us rows fuel j k vi : updates_ok us rows → (k <= rows / VS)%nat → k = (j * MVC + vi)%nat → (vi <= fuel)%nat →
  skip_segments fuel us j (j * MVC) vi = Ok ((k / MVC)%nat, (k / MVC * MVC)%nat, (k mod MVC)%nat).
Proof.
  intros Hu Hk. pose proof MVC_pos. revert j vi. induction fuel as [|fuel IH]; intros j vi -> Hf; cbn [skip_segments]; destruct (Nat.ltb_spec vi MVC).
  1,3: rewrite Nat.div_add_l, Nat.div_small, Nat.add_0_r by lia; by rewrite Nat.add_comm, Nat.Div0.mod_add, Nat.mod_small.
  - lia.
  - destruct (segment_at_ok us rows (S j) Hu) as (u & _ & Hat & Hst & _).
    { assert (S j <= (j * MVC + vi) / MVC)%nat by (apply Nat.div_le_lower_bound; lia). pose proof (vector_segment _ _ Hk). lia. }
    rewrite Hat. cbn [mbind res_bind]. rewrite Hst. apply IH; lia.
Qed.

Lemma HasUpdates_loop_spec us rows n j i : updates_ok us rows → (j <= i / MVC)%nat → (i + n <= S (rows / VS))%nat →
  HasUpdates_loop n us j (j * MVC) i = Ok (existsb (vector_updated us) (seq i n)).
Proof.
  intros Hu. pose proof MVC_pos. revert j i. induction n as [|n IH]; intros j i Hj Hn; [done|]. cbn [HasUpdates_loop seq existsb].
  assert (j * MVC <= i)%nat as Hle. { etransitivity; [by apply Nat.mul_le_mono_r|]. rewrite Nat.mul_comm. apply Nat.Div0.mul_div_le. }
  rewrite (skip_segments_spec us rows _ j i) by (done || lia). cbn [mbind res_bind].
  destruct (segment_at_ok us rows (i / MVC) Hu) as (u & Hlk & -> & _); [apply vector_segment; lia|]. cbn [mbind res_bind].
  assert (vector_updated us i = UpdateSegment_HasUpdates_vector u.1 (i mod MVC)) as -> by (unfold vector_updated; by rewrite Hlk).
  destruct (UpdateSegment_HasUpdates_vector u.1 (i mod MVC)); [done|]. cbn [orb]. apply IH; [apply Nat.Div0.div_le_mono; lia|lia].
Qed.

Lemma HasUpdates_spec us rows j sv ev : updates_ok us rows → (j <= sv / MVC)%nat → (sv <= ev <= rows / VS)%nat →
  HasUpdates us j sv ev = Ok (existsb (vector_updated us) (seq sv (S ev - sv))).
Proof.
  intros Hu Hj He. unfold HasUpdates. destruct (segment_at_ok us rows j Hu) as (u & _ & Hat & Hst & _).
  { pose proof (vector_segment sv rows ltac:(lia)). lia. }
  rewrite Hat. cbn [mbind res_bind]. rewrite Hst. apply (HasUpdates_loop_spec us rows); [done|done|lia].
Qed.

Lemma FindSegment_spec us rows j k : updates_ok us rows → (j <= k / MVC)%nat → (k <= rows / VS)%nat → FindSegment us j k = Ok (k / MVC)%nat.
Proof.
  intros Hu Hj Hk. pose proof MVC_pos. unfold FindSegment. pose proof (vector_segment k rows Hk) as Hlt.
  destruct (segment_at_ok us rows j Hu ltac:(lia)) as (u & _ & Hat & Hst & _). rewrite Hat. cbn [mbind res_bind]. rewrite Hst. clear Hat Hst.
  assert (k / MVC - j <= k)%nat as Hf. { pose proof (Nat.Div0.div_le_mono k (k * MVC) MVC ltac:(nia)) as H'. rewrite Nat.div_mul in H' by lia. lia. }
  revert Hf. generalize k at 2 3 as fuel. intros fuel Hf. revert j Hj Hf. induction fuel as [|fuel IH]; intros j Hj Hf; cbn [FindSegment_loop].
  all: pose proof (Nat.div_mod_eq k MVC) as Hdm; pose proof (Nat.mod_upper_bound k MVC ltac:(lia)) as Hmod.
  all: destruct (Nat.ltb_spec k (j * MVC + MVC)) as [Hc|Hc]; [f_equal; assert (k / MVC < S j)%nat by (apply Nat.Div0.div_lt_upper_bound; lia); lia|].
  all: assert (S j <= k / MVC)%nat as Hs by (apply Nat.div_le_lower_bound; lia).
  { lia. }
  destruct (segment_at_ok us rows (S j) Hu ltac:(lia)) as (u' & _ & -> & _ & _). cbn [mbind res_bind].
  replace (j * MVC + MVC)%nat with (S j * MVC)%nat by lia. apply IH; lia.
Qed.

(** ** The state of a checkpoint *)

Section checkpoint.
Context (bm0 : SingleFileBlockManager) (kept replaced : list Z) (fresh : nat → list Z).
Hypothesis fresh_length : ∀ n, length (fresh n) = BLOCK_SIZE.
Implicit Types (st : ColumnCheckpointState (St := St)).

Definition pointer_segments (pointers : list (DataPointer St)) : list (ColumnSegment St) := pc_segments (mkPersistentColumnData empty_statistics pointers).

(** The rows [vs] are in the blocks of the pointers. *)
Record flushed st vs : Prop := {
  fl_manager : bm_ok (ck_block_manager st);
  fl_extends : extends [] bm0 (ck_block_manager st);
  fl_modified id : id ∈ bm_modified_blocks (ck_block_manager st) → id ∈ bm_modified_blocks bm0 ∨ id ∈ replaced;
  fl_tree : ck_new_tree st = pointer_segments (ck_data_pointers st);
  fl_segments : segments_ok (ck_block_manager st) (ck_new_tree st) 0 vs;
  fl_blocks p : p ∈ ck_data_pointers st → allocated (ck_block_manager st) (dp_block_id p) ∧ (allocated bm0 (dp_block_id p) → dp_block_id p ∈ kept);
  fl_offsets p : p ∈ ck_data_pointers st → dp_offset p = 0%nat;
  fl_global : valid (ck_global_stats st);
  fl_max : bm_max_block (ck_block_manager st) <= bm_max_block bm0 + Z.of_nat (length (ck_data_pointers st));
}.

Record current_ok (current : list Z * nat * St) vs : Prop := {
  co_count : current.1.2 = length vs;
  co_block : block_holds current.1.1 vs;
  co_stats : valid current.2;
}.

(** ... and then those of the current segment. *)
Definition written_rows st vs : Prop :=
  ∃ vs1 vs2 current, vs = vs1 ++ vs2 ∧ flushed st vs1 ∧ ck_current_segment st = Some current ∧ current_ok current vs2 ∧
    (Nat.divide VS (length vs1) ∨ vs2 = []).

Lemma next_row_spec bm pointers start vs : segments_ok bm (pointer_segments pointers) start vs →
  (pointers = [] → start = 0%nat) → next_row pointers = (start + length vs)%nat.
Proof.
  unfold next_row. revert start vs. induction pointers as [|p pointers IH]; intros start vs Hs Hstart; cbn in Hs.
  - subst vs. cbn. by rewrite Hstart.
  - destruct Hs as (vs1 & vs2 & -> & _ & Hp & Hs). rewrite length_app, Nat.add_assoc.
    destruct pointers as [|p' pointers]; [|rewrite <-(IH _ _ Hs ltac:(done)); done].
    cbn in Hs. subst vs2. cbn. rewrite Nat.add_0_r. pose proof (so_start _ _ _ _ Hp) as H1. pose proof (so_count _ _ _ _ Hp) as H2. cbn in H1, H2. lia.
Qed.

Lemma flushed_blocks st vs id : flushed st vs → id ∈ ck_new_tree st ≫= segment_blocks → allocated (ck_block_manager st) id.
Proof.
  intros Hf Hin. rewrite (fl_tree _ _ Hf) in Hin. apply list_elem_of_bind in Hin as (seg & Hid & Hseg).
  unfold pointer_segments, pc_segments in Hseg. apply list_elem_of_fmap in Hseg as (p & -> & Hp).
  apply list_elem_of_singleton in Hid as ->. by apply (fl_blocks _ _ Hf).
Qed.

Lemma empty_current n : current_ok (initial_buffer (T := T) (St := St) (fresh n), 0%nat, empty_statistics (T := T) (V := V)) [].
Proof. split; [done|by apply block_holds_empty|apply (valid_empty (T := T) (V := V))]. Qed.

Lemma CreateEmptySegment_ok st vs : flushed st vs → written_rows (CreateEmptySegment (V := V) fresh st) vs.
Proof.
  intros Hf. eexists vs, [], _. rewrite app_nil_r. split_and!; [done|by destruct Hf|reflexivity|apply empty_current|by right].
Qed.

(** [FlushSegment]: the rows of the current segment go to a new block. *)
Lemma FlushSegment_ok st vs : written_rows st vs →
  ∃ st', FlushSegment (V := V) st = Ok st' ∧ flushed st' vs ∧ (∀ current, ck_current_segment st = Some current → current.1.2 = 0%nat → st' = st) ∧
    (length (ck_data_pointers st) <= length (ck_data_pointers st'))%nat.
Proof.
  intros (vs1 & vs2 & [[buffer n] stats] & -> & Hf & Hc & [Hn Hb Hs] & Hd). cbn [fst snd] in *. unfold FlushSegment. rewrite Hc. cbn [the mbind res_bind].
  destruct (Nat.eqb_spec n 0) as [Hz|Hz].
  { exists st. split; [done|]. assert (vs2 = []) as -> by (apply length_zero_iff_nil; congruence). rewrite app_nil_r. by split_and!. }
  destruct (GetFreeBlockId (ck_block_manager st)) as [bm1 id] eqn:Hg. pose proof Hf as [Hbm He Hmod Htree Hsegs Hblocks Hoff Hglobal Hfmax].
  destruct (GetFreeBlockId_spec _ _ _ Hbm Hg) as (Hbm1 & Hid & Hna & Hal & Hsame & _). pose proof (extends_GetFreeBlockId [] _ _ _ Hbm Hg) as He1.
  assert (allocated bm1 id) as Ha by (apply Hal; by left).
  destruct (BlockManager_Write_spec [id] buffer id bm1 Ha ltac:(by left)) as (He2 & Hr & Ha2 & _).
  assert (extends [] (ck_block_manager st) (BlockManager_Write buffer id bm1)) as He3.
  { eapply extends_trans; [exact He1|exact He2|]. intros i ->%list_elem_of_singleton. by right. }
  eexists. split; [reflexivity|]. split; [|split; [by intros ? [= <-]|cbn; rewrite length_app; cbn; lia]].
  split; cbn [ck_block_manager ck_new_tree ck_data_pointers ck_global_stats].
  - done.
  - eapply extends_trans; [exact He|exact He3|]. by intros i ?%not_elem_of_nil.
  - cbn [BlockManager_Write set_handle bm_modified_blocks]. rewrite Hsame. exact Hmod.
  - unfold AppendSegment, pointer_segments, pc_segments. rewrite Htree. cbn [pc_pointers]. by rewrite fmap_app.
  - rewrite Htree in Hsegs. pose proof (next_row_spec _ _ _ _ Hsegs ltac:(done)) as Hnext. cbn [Nat.add] in Hnext. rewrite <-Htree in Hsegs.
    apply segments_ok_snoc; [|destruct Hd as [?| ->]; [done|by destruct Hz]|].
    + eapply segments_ok_read; [|exact Hsegs]. intros i Hi. eapply extends_read; [exact He3| |apply not_elem_of_nil]. by eapply flushed_blocks.
    + cbn [Nat.add dp_row_start]. rewrite Hnext. split; cbn; try done; [exists buffer; by split|]. split; [done|]. intros ->. by destruct Hz.
  - intros p [Hp|Hp%list_elem_of_singleton]%elem_of_app.
    + destruct (Hblocks p Hp) as [H1 H2]. split; [|done]. by apply (ext_alloc _ _ _ He3).
    + subst p. cbn [dp_block_id]. split; [by apply Ha2|]. intros Hin. destruct Hna. by apply (ext_alloc _ _ _ He).
  - intros p [Hp|Hp%list_elem_of_singleton]%elem_of_app; [by apply Hoff|by subst p].
  - by apply (valid_Merge (T := T) (V := V)).
  - rewrite length_app. cbn [length BlockManager_Write set_handle bm_max_block]. assert (bm_max_block bm1 <= bm_max_block (ck_block_manager st) + 1); [|lia].
    unfold GetFreeBlockId in Hg. destruct (bm_free_list (ck_block_manager st)); apply pair_eq in Hg as [<- _]; cbn; lia.
Qed.

(** Rows that are appended to the current segment. *)
Lemma Append_current buffer n stats vs vdata ws :
  current_ok (buffer, n, stats) vs → (∀ i v, ws !! i = Some v → appended (T := T) (St := St) vdata 0 i = Some v ∧ value_ok (T := T) (St := St) v) →
  let k := Nat.min (length ws) (capacity - n) in
  ∃ stats' buffer', Append (T := T) stats buffer n vdata 0 (length ws) = (stats', buffer', k) ∧ current_ok (buffer', (n + k)%nat, stats') (vs ++ take k ws).
Proof.
  intros [Hn Hb Hs] Hws k. cbn [fst snd] in *. subst n. destruct (Append_block stats buffer vs vdata 0 (length ws) Hb Hs) as (stats' & buffer' & ws' & Ha & Hl & Hb' & Hs' & Hval).
  { intros i v Hi Hap. destruct (lookup_lt_is_Some_2 ws i Hi) as [v' Hv']. destruct (Hws _ _ Hv') as [H1 H2]. congruence. }
  fold k in Ha, Hl, Hval. assert (ws' = take k ws) as ->.
  { apply list_eq_same_length with k; [rewrite length_take; lia|done|]. intros i v v' Hi Hv Hv'. apply lookup_take_Some in Hv' as [Hv' _].
    destruct (Hws _ _ Hv') as [H1 _]. pose proof (Hval i v' Hi H1). congruence. }
  exists stats', buffer'. split; [exact Ha|]. split; cbn [fst snd]; [|done|done]. rewrite length_app, Hl. lia.
Qed.

(** At a whole vector, at most a vector of rows is written at once, and
    goes to one segment: this is why the offset is always zero. *)
Lemma Checkpoint_AppendData_ok st vs vdata ws :
  written_rows st vs → Nat.divide VS (length vs) → (0 < length ws <= VS)%nat →
  (∀ i v, ws !! i = Some v → appended (T := T) (St := St) vdata 0 i = Some v ∧ value_ok (T := T) (St := St) v) →
  ∃ st', Checkpoint_AppendData (V := V) fresh (S (S (length ws))) vdata 0 (length ws) st = Ok st' ∧ written_rows st' (vs ++ ws).
Proof.
  intros Hw Hd [Hpos Hle] Hws. pose proof Hw as (vs1 & vs2 & [[buffer n] stats] & -> & Hf & Hc & Hcur & Hd1).
  pose proof STANDARD_VECTOR_SIZE_pos as HVS. pose proof (max_vector_count_pos (T := T) (St := St)) as Hmax.
  assert (n = length vs2) as Hn by apply (co_count _ _ Hcur). pose proof (bh_fits _ _ (co_block _ _ Hcur)) as Hfits.
  assert (Nat.divide VS (length vs1)) as Hd1' by (destruct Hd1 as [?| ->]; [done|by rewrite app_nil_r in Hd]).
  assert (Nat.divide VS (length vs2)) as [q Hq] by (rewrite length_app in Hd; by apply (Nat.divide_add_cancel_r _ (length vs1))).
  destruct (Append_current buffer n stats vs2 vdata ws Hcur Hws) as (stats' & buffer' & Ha & Hcur').
  cbn [Checkpoint_AppendData]. rewrite (proj2 (Nat.eqb_neq (length ws) 0)), Hc by lia. cbn [the mbind res_bind]. rewrite Ha.
  destruct (decide (length vs2 = capacity)) as [Hfull|Hroom].
  - replace (Nat.min (length ws) (capacity - n)) with 0%nat in * by lia. rewrite (proj2 (Nat.eqb_neq 0 (length ws))) by lia.
    rewrite take_0, app_nil_r in Hcur'. set (st1 := mkColumnCheckpointState _ _ _ _ _).
    assert (written_rows st1 (vs1 ++ vs2)) as Hw1. { exists vs1, vs2, (buffer', (n + 0)%nat, stats'). split_and!; [done|by destruct Hf|done|done|by left]. }
    destruct (FlushSegment_ok st1 _ Hw1) as (st2 & -> & Hf2 & _). cbn [mbind res_bind]. rewrite Nat.sub_0_r. cbn [Nat.add].
    cbn [Checkpoint_AppendData]. rewrite (proj2 (Nat.eqb_neq (length ws) 0)) by lia. cbn [CreateEmptySegment ck_current_segment the mbind res_bind].
    pose proof (empty_current (length (ck_data_pointers st2))) as Hcur3.
    destruct (Append_current _ _ _ [] vdata ws Hcur3 Hws) as (stats2 & buffer2 & -> & Hcur4).
    rewrite Nat.min_l in * by nia. rewrite take_ge, app_nil_l in Hcur4 by done. rewrite Nat.eqb_refl. eexists. split; [reflexivity|].
    exists (vs1 ++ vs2), ws. eexists. split_and!; [done| |reflexivity|exact Hcur4|by left]. by destruct Hf2.
  - assert (length vs2 + VS <= capacity)%nat as Hroom'.
    { assert (S q <= max_vector_count (T := T) (St := St))%nat; [|nia]. apply Nat.nlt_ge. intros Hlt. apply Hroom. nia. }
    rewrite Nat.min_l in * by lia. rewrite take_ge in Hcur' by done.
    rewrite Nat.eqb_refl. eexists. split; [reflexivity|].
    exists vs1, (vs2 ++ ws). eexists. rewrite app_assoc. split_and!; [done| |reflexivity|exact Hcur'|by left]. by destruct Hf.
Qed.

(** ** Segments that are written again *)

Lemma block_allocated st vs id : flushed st vs → allocated bm0 id → BlockManager_Read (ck_block_manager st) id = BlockManager_Read bm0 id.
Proof. intros Hf Ha. eapply extends_read; [apply (fl_extends _ _ Hf)|done|apply not_elem_of_nil]. Qed.

Lemma segment_ok_now st ws seg start vs : written_rows st ws → Forall (allocated bm0) (segment_blocks seg) → segment_ok bm0 seg start vs →
  segment_ok (ck_block_manager st) seg start vs.
Proof.
  intros (ws1 & ws2 & cur & -> & Hf & _) Ha. rewrite Forall_forall in Ha. apply segment_ok_read. intros id Hid. eapply block_allocated; [exact Hf|by apply Ha].
Qed.

(** The vector at row [k * VS] of a segment, with the committed updates. *)
Lemma Segment_Scan_spec bm seg start svs k intermediate :
  segment_ok bm seg start svs → (k * VS < length svs)%nat → length intermediate = VS →
  ∃ scanned, Segment_Scan bm seg k (Reference (T := T) (St := St) intermediate) = Ok scanned ∧ length scanned = VS ∧
    ∀ i v, (i < VS)%nat → svs !! (k * VS + i)%nat = Some v → scanned !! i = Some v ∧ value_ok (T := T) (St := St) v.
Proof.
  intros [_ _ _ Ht (buffer & Hp & Hb) _ _] Hk Hl. unfold Segment_Scan. rewrite Hp, Ht. cbn [mbind res_bind].
  destruct (FetchBaseData_spec (T := T) (St := St) buffer (length svs) k intermediate (bh_fits _ _ Hb) Hk Hl) as [Hl' Hv].
  eexists. split; [reflexivity|]. split; [done|]. intros i v Hi Hs. pose proof (lookup_lt_Some _ _ _ Hs) as Hlt.
  rewrite Hv by done. rewrite (bh_rows _ _ Hb) in Hs by done. injection Hs as <-. split; [done|apply row_value_ok].
Qed.

Lemma value_in_entry (l : list (nat * T)) i v : value_in l i = Some v → (i, v) ∈ l.
Proof. induction l as [|[t x] l IH]; cbn; [done|]. case_decide; [intros [= ->]; subst; by left|right; by apply IH]. Qed.

Lemma vector_entries_ok us rows k i v : updates_ok us rows → value_in (vector_entries us k) i = Some v → value_ok (T := T) (St := St) v.
Proof.
  intros Hu. unfold vector_entries, base_entries. destruct (us !! (k / MVC)%nat) as [u|] eqn:Hk; [|done]. cbn.
  destruct (root_at u.1 (k mod MVC)) as [base|] eqn:Hr; cbn [mbind option_bind]; [|done].
  pose proof MVC_pos. destruct (uo_segment _ _ Hu _ _ Hk) as (_ & _ & Hb).
  destruct (Hb _ _ (Nat.mod_upper_bound k MVC ltac:(lia)) Hr) as (info & -> & _ & _ & _ & Hf). rewrite Forall_forall in Hf.
  intros Hin%value_in_entry. exact (Hf _ Hin).
Qed.

(** One round of the loop: the vector with its committed updates is appended. *)
Lemma rewrite_vector us all start seg svs k scanned st :
  updates_ok us (length all) → Nat.divide VS start → svs = take (length svs) (drop start all) → (start + length svs <= length all)%nat →
  (k * VS < length svs)%nat → length scanned = VS →
  (∀ i v, (i < VS)%nat → svs !! (k * VS + i)%nat = Some v → scanned !! i = Some v ∧ value_ok (T := T) (St := St) v) →
  written_rows st (take (start + k * VS) (committed us all)) → segment_count seg = length svs →
  let uv := (start / VS + k)%nat in
  let count := Nat.min (segment_count seg - k * VS) VS in
  ∃ g st', segment_at us (uv / MVC) = Ok g ∧ (us_start g / VS = uv / MVC * MVC)%nat ∧
    length (FetchCommitted g (uv - uv / MVC * MVC) scanned) = VS ∧
    Checkpoint_AppendData (V := V) fresh (S (S count)) (Orrify (T := T) (St := St) (FetchCommitted g (uv - uv / MVC * MVC) scanned)) 0 count st = Ok st' ∧
    written_rows st' (take (start + Nat.min (length svs) (S k * VS)) (committed us all)).
Proof.
  intros Hu Hd Hsvs Hall Hk Hl Hscan Hw Hcount uv count. pose proof MVC_pos as HM. pose proof STANDARD_VECTOR_SIZE_pos as HV.
  destruct Hd as [q Hq]. assert (start / VS = q)%nat as Hsq by (subst start; apply Nat.div_mul; lia).
  assert (∀ i, (i < VS)%nat → (start + k * VS + i) / VS = uv ∧ (start + k * VS + i) mod VS = i)%nat as Hrow.
  { intros i Hi. replace (start + k * VS + i)%nat with (i + uv * VS)%nat by (unfold uv; nia).
    rewrite Nat.div_add, Nat.Div0.mod_add, Nat.div_small, Nat.mod_small by lia. lia. }
  destruct (segment_at_ok us (length all) (uv / MVC) Hu) as (u & Hlk & Hat & Hst & Hb).
  { apply vector_segment. apply Nat.div_le_lower_bound; [lia|]. unfold uv. nia. }
  assert (uv - uv / MVC * MVC = uv mod MVC)%nat as Hmod by (pose proof (Nat.div_mod_eq uv MVC); lia). rewrite Hmod.
  pose proof (Nat.mod_upper_bound uv MVC ltac:(lia)) as Hlt.
  destruct (FetchCommitted_spec u.1 (uv mod MVC) scanned Hb Hlt Hl) as [Hlf Hf].
  set (result := FetchCommitted u.1 (uv mod MVC) scanned) in *. set (ws := take count result).
  assert (length ws = count) as Hlw by (unfold ws; rewrite length_take; lia).
  assert (∀ i, (i < count)%nat → ∃ v, all !! (start + k * VS + i)%nat = Some v ∧ result !! i = Some (committed_value us (start + k * VS + i) v) ∧
    value_ok (T := T) (St := St) (committed_value us (start + k * VS + i) v)) as Hres.
  { intros i Hi. destruct (lookup_lt_is_Some_2 svs (k * VS + i)%nat ltac:(lia)) as [v Hv].
    destruct (Hscan i v ltac:(lia) Hv) as [Hs Hok]. exists v.
    rewrite Hsvs, lookup_take_lt, lookup_drop, Nat.add_assoc in Hv by lia. split; [done|].
    unfold committed_value. destruct (Hrow i ltac:(lia)) as [-> ->].
    rewrite (Hf i v) by (done || lia). unfold vector_entries. rewrite Hlk. split; [done|].
    destruct (value_in (base_entries u.1 (uv mod MVC)) i) as [v'|] eqn:Hin; [|done]. cbn.
    apply (vector_entries_ok us (length all) uv i v' Hu). unfold vector_entries. by rewrite Hlk. }
  assert (take (start + Nat.min (length svs) (S k * VS)) (committed us all) = take (start + k * VS) (committed us all) ++ ws) as Heq.
  { apply list_eq. intros r. destruct (decide (r < start + k * VS)%nat).
    - rewrite lookup_app_l by (rewrite length_take, length_committed; lia). by rewrite !lookup_take_lt by lia.
    - rewrite lookup_app_r by (rewrite length_take, length_committed; lia). rewrite length_take, length_committed.
      replace (r - _)%nat with (r - (start + k * VS))%nat by lia. unfold ws. destruct (decide (r - (start + k * VS) < count)%nat).
      + destruct (Hres (r - (start + k * VS))%nat ltac:(done)) as (v & Hv & Hr & _). rewrite !lookup_take_lt by lia. rewrite Hr.
        replace (start + k * VS + (r - (start + k * VS)))%nat with r in Hv |- * by lia. by apply committed_lookup.
      + rewrite !lookup_take_ge by lia. done. }
  destruct (Checkpoint_AppendData_ok st _ (Orrify (T := T) (St := St) result) ws Hw) as (st' & Ha & Hw').
  - rewrite length_take, length_committed, Nat.min_l by lia. exists (q + k)%nat. nia.
  - lia.
  - intros i v Hi. unfold ws in Hi. apply lookup_take_Some in Hi as [Hi Hic]. destruct (Hres i Hic) as (v' & _ & Hr & Hok).
    rewrite Hr in Hi. injection Hi as <-. rewrite Orrify_spec by lia. by rewrite Hr.
  - rewrite Hlw in Ha. exists u.1, st'. rewrite Heq. by split_and!.
Qed.

(** The whole loop; the position is that of the next vector. *)
Lemma rewrite_vectors_ok us all start seg svs n k intermediate st :
  updates_ok us (length all) → Nat.divide VS start → svs = take (length svs) (drop start all) → (start + length svs <= length all)%nat →
  segment_ok bm0 seg start svs → Forall (allocated bm0) (segment_blocks seg) → (n + k = vector_count (length svs))%nat → length intermediate = VS →
  written_rows st (take (start + Nat.min (length svs) (k * VS)) (committed us all)) →
  let uv := (start / VS + k)%nat in
  ∃ intermediate' st', rewrite_vectors (V := V) fresh n us seg k (uv / MVC * MVC) ((uv / MVC)%nat, uv) intermediate st =
      Ok (((uv + n) / MVC)%nat, (uv + n)%nat, intermediate', st') ∧
    length intermediate' = VS ∧ written_rows st' (take (start + length svs) (committed us all)).
Proof.
  intros Hu Hd Hsvs Hall Hseg Hal. pose proof MVC_pos as HM. pose proof STANDARD_VECTOR_SIZE_pos as HV.
  revert k intermediate st. induction n as [|n IH]; intros k intermediate st Hn Hl Hw uv.
  - cbn [rewrite_vectors]. exists intermediate, st. rewrite Nat.add_0_r. split_and!; [done..|].
    replace (Nat.min (length svs) (k * VS)) with (length svs) in Hw; [done|]. cbn in Hn. subst k. unfold vector_count.
    pose proof (Nat.div_mod_eq (length svs + (VS - 1)) VS). pose proof (Nat.mod_upper_bound (length svs + (VS - 1)) VS ltac:(lia)). lia.
  - assert (k * VS < length svs)%nat as Hk.
    { assert (k < vector_count (length svs))%nat as Hlt by lia. unfold vector_count in Hlt.
      pose proof (Nat.Div0.mul_div_le (length svs + (VS - 1)) VS). nia. }
    cbn [rewrite_vectors]. rewrite Nat.min_r in Hw by lia.
    destruct (Segment_Scan_spec _ _ _ _ k intermediate (segment_ok_now _ _ _ _ _ Hw Hal Hseg) Hk Hl) as (scanned & -> & Hls & Hscan).
    destruct (rewrite_vector us all start seg svs k scanned st Hu Hd Hsvs Hall Hk Hls Hscan Hw (so_count _ _ _ _ Hseg)) as (g & st1 & Hat & _ & Hlf & Ha & Hw1).
    fold uv in Hat, Hlf, Ha. cbn [mbind res_bind fst snd]. rewrite Hat. cbn [mbind res_bind]. rewrite Ha. cbn [mbind res_bind].
    assert ((if (MVC <=? S uv - uv / MVC * MVC)%nat then (S (uv / MVC), (uv / MVC * MVC + MVC)%nat) else ((uv / MVC)%nat, (uv / MVC * MVC)%nat)) =
      ((S uv / MVC)%nat, (S uv / MVC * MVC)%nat)) as ->.
    { pose proof (Nat.div_mod_eq uv MVC). pose proof (Nat.mod_upper_bound uv MVC ltac:(lia)). destruct (Nat.leb_spec MVC (S uv - uv / MVC * MVC)).
      - assert (S uv / MVC = S (uv / MVC))%nat as ->; [|f_equal; lia]. symmetry. apply (Nat.div_unique _ _ _ 0); lia.
      - assert (S uv / MVC = uv / MVC)%nat as ->; [|done]. symmetry. apply (Nat.div_unique _ _ _ (S (uv mod MVC))); lia. }
    specialize (IH (S k) (FetchCommitted g (uv - uv / MVC * MVC) scanned) st1 ltac:(lia) Hlf Hw1). cbv zeta in IH.
    replace (start / VS + S k)%nat with (S uv) in IH by (unfold uv; lia). destruct IH as (i' & st' & -> & Hi & Hw').
    exists i', st'. rewrite Nat.add_succ_r, <-Nat.add_succ_l. by split_and!.
Qed.

(** The vectors of a segment, the last one to look at included. *)
Definition segment_updated us seg : bool :=
  existsb (vector_updated us) (seq (segment_start seg / VS) (S ((segment_start seg + segment_count seg) / VS) - segment_start seg / VS)).

Lemma rewrite_segment_ok us all start seg svs intermediate st :
  updates_ok us (length all) → Nat.divide VS start → svs = take (length svs) (drop start all) → (start + length svs <= length all)%nat →
  segment_ok bm0 seg start svs → Forall (allocated bm0) (segment_blocks seg) → length intermediate = VS →
  written_rows st (take start (committed us all)) →
  ∃ position intermediate' st', rewrite_segment (V := V) fresh us seg ((start / VS / MVC)%nat, (start / VS)%nat) intermediate st = Ok (position, intermediate', st') ∧
    (Nat.divide VS (start + length svs) → position = ((start + length svs) / VS / MVC, (start + length svs) / VS)%nat) ∧
    length intermediate' = VS ∧ written_rows st' (take (start + length svs) (committed us all)).
Proof.
  intros Hu Hd Hsvs Hall Hseg Hal Hl Hw. pose proof STANDARD_VECTOR_SIZE_pos as HV. unfold rewrite_segment.
  destruct (segment_at_ok us (length all) (start / VS / MVC) Hu) as (u & _ & Hat & Hst & _); [apply vector_segment, Nat.Div0.div_le_mono; lia|].
  cbn [fst]. rewrite Hat. cbn [mbind res_bind]. rewrite Hst, (so_count _ _ _ _ Hseg).
  destruct (rewrite_vectors_ok us all start seg svs (vector_count (length svs)) 0 intermediate st Hu Hd Hsvs Hall Hseg Hal) as (i' & st' & Heq & Hi & Hw').
  { by rewrite Nat.add_0_r. }
  { done. }
  { by rewrite Nat.mul_0_l, Nat.min_0_r, Nat.add_0_r. }
  rewrite Nat.add_0_r in Heq. rewrite Heq. eexists _, i', st'. split; [reflexivity|]. split; [|done].
  destruct Hd as [q Hq]. intros [q' Hq']. assert (start / VS + vector_count (length svs) = (start + length svs) / VS)%nat as ->; [|done].
  rewrite Hq', Nat.div_mul, Hq, Nat.div_mul by lia. assert (length svs = (q' - q) * VS)%nat as -> by nia. unfold vector_count.
  rewrite Nat.div_add_l, (Nat.div_small (VS - 1)) by lia. nia.
Qed.

Lemma not_updated_rows us all start seg svs :
  segment_ok bm0 seg start svs → segment_updated us seg = false → svs = take (length svs) (drop start all) → (start + length svs <= length all)%nat →
  take (start + length svs) (committed us all) = take start (committed us all) ++ svs.
Proof.
  intros Hseg Hup Hsvs Hall. pose proof STANDARD_VECTOR_SIZE_pos as HV. apply list_eq. intros r.
  assert (length (take start (committed us all)) = start) as Hlt by (rewrite length_take, length_committed; lia).
  destruct (decide (r < start)%nat) as [Hr|Hr].
  { rewrite lookup_app_l by lia. by rewrite !lookup_take_lt by lia. }
  rewrite lookup_app_r, Hlt by lia. destruct (decide (r < start + length svs)%nat) as [Hr'|Hr'].
  2: { rewrite lookup_take_ge by lia. symmetry. apply lookup_ge_None. lia. }
  rewrite lookup_take_lt by lia. rewrite Hsvs, lookup_take_lt, lookup_drop by lia. replace (start + (r - start))%nat with r by lia.
  destruct (lookup_lt_is_Some_2 all r ltac:(lia)) as [v Hv]. rewrite (committed_lookup us all r v Hv), Hv. f_equal. unfold committed_value.
  rewrite not_updated; [done|]. unfold segment_updated in Hup. rewrite (so_start _ _ _ _ Hseg), (so_count _ _ _ _ Hseg) in Hup.
  apply not_true_iff_false. intros Hin. apply not_true_iff_false in Hup. destruct Hup. apply existsb_exists. exists (r / VS)%nat. split; [|done].
  apply in_seq. assert (start / VS <= r / VS)%nat by (apply Nat.Div0.div_le_mono; lia).
  assert (r / VS <= (start + length svs) / VS)%nat by (apply Nat.Div0.div_le_mono; lia). lia.
Qed.

(** A segment that is kept: its block holds the committed rows. *)
Lemma keep_segment_ok us all start seg svs id j st :
  updates_ok us (length all) → Nat.divide VS start → svs = take (length svs) (drop start all) → (start + length svs <= length all)%nat →
  segment_ok bm0 seg start svs → segment_type seg = PERSISTENT id → allocated bm0 id → id ∈ kept → segment_updated us seg = false →
  (j <= start / VS / MVC)%nat → written_rows st (take start (committed us all)) →
  let ev := ((start + length svs) / VS)%nat in
  ∃ st', keep_segment (V := V) fresh us seg id ev (j, (start / VS)%nat) st = Ok ((ev / MVC)%nat, ev, st') ∧
    written_rows st' (take (start + length svs) (committed us all)).
Proof.
  intros Hu Hd Hsvs Hall Hseg Htype Hal Hkept Hup Hj Hw ev. unfold keep_segment. pose proof Hw as (vs1 & vs2 & [[buffer n] stats] & Heq & Hf & Hc & Hcur & Hd1).
  rewrite Hc. cbn [the mbind res_bind].
  assert (∃ st1 current, (if (0 <? n)%nat then st ← FlushSegment (V := V) st; Ok (CreateEmptySegment (V := V) fresh st) else Ok st) = Ok st1 ∧
    flushed st1 (take start (committed us all)) ∧ ck_current_segment st1 = Some current ∧ current_ok current []) as (st1 & current & -> & Hf1 & Hc1 & Hcur1).
  { destruct (Nat.ltb_spec 0 n) as [Hn|Hn].
    - destruct (FlushSegment_ok st _ Hw) as (st2 & -> & Hf2 & _). cbn [mbind res_bind]. eexists _, _. split; [reflexivity|].
      split; [by destruct Hf2|]. split; [reflexivity|apply empty_current].
    - pose proof (co_count _ _ Hcur) as Hz. cbn [fst snd] in Hz. assert (vs2 = []) as -> by (apply length_zero_iff_nil; lia). rewrite app_nil_r in Heq.
      exists st, (buffer, n, stats). by rewrite Heq. }
  cbn [mbind res_bind fst]. rewrite (FindSegment_spec us (length all)); [|done| |].
  2: { etransitivity; [exact Hj|]. apply Nat.Div0.div_le_mono, Nat.Div0.div_le_mono. lia. }
  2: { apply Nat.Div0.div_le_mono. lia. }
  cbn [mbind res_bind]. eexists. split; [reflexivity|]. rewrite (not_updated_rows us all start seg svs) by done.
  eexists _, [], current. rewrite app_nil_r. split; [reflexivity|]. split; [|split; [exact Hc1|split; [exact Hcur1|by right]]].
  pose proof Hseg as [H1 H2 H3 H4 H5 H6 H7]. rewrite Htype in H6. destruct Hf1 as [Hbm He Hmod Htree Hsegs Hblocks Hoff Hglobal Hfmax].
  assert (length (take start (committed us all)) = start) as Hlt by (rewrite length_take, length_committed; lia).
  split; cbn [ck_block_manager ck_new_tree ck_data_pointers ck_global_stats]; try done.
  - unfold AppendSegment, pointer_segments, pc_segments. rewrite Htree. cbn [pc_pointers]. rewrite fmap_app. f_equal. cbn. f_equal.
    destruct seg as [ty ss sc [bl tc rs] sstats]. cbn in *. destruct H6 as [-> _]. subst. done.
  - apply segments_ok_snoc; [done|by rewrite Nat.add_0_l, Hlt|]. rewrite Nat.add_0_l, Hlt. eapply segment_ok_read; [|exact Hseg].
    intros i Hi. unfold segment_blocks in Hi. rewrite (proj1 H6) in Hi. apply list_elem_of_singleton in Hi as ->. eapply extends_read; [exact He|done|apply not_elem_of_nil].
  - intros p [Hp|Hp%list_elem_of_singleton]%elem_of_app; [by apply Hblocks|]. subst p. cbn [dp_block_id]. split; [by apply (ext_alloc _ _ _ He)|done].
  - intros p [Hp|Hp%list_elem_of_singleton]%elem_of_app; [by apply Hoff|by subst p].
  - by apply (valid_Merge (T := T) (V := V)).
  - rewrite length_app. cbn [length]. lia.
Qed.

Lemma mark_modified_ok id st vs : id ∈ replaced → written_rows st vs → written_rows (mark_modified id st) vs.
Proof.
  intros Hin (vs1 & vs2 & current & -> & [Hbm He Hmod Htree Hsegs Hblocks Hoff Hglobal Hfmax] & Hc & Hcur & Hd). exists vs1, vs2, current.
  split; [done|]. split; [|done]. split; cbn [mark_modified ck_block_manager ck_new_tree ck_data_pointers ck_global_stats]; try done.
  - eapply extends_trans; [exact He|apply (extends_mark [])|]. by intros i ?%not_elem_of_nil.
  - intros i [->%elem_of_singleton|Hi]%elem_of_union; [by right|by apply Hmod].
  - eapply segments_ok_read; [|exact Hsegs]. done.
Qed.

(** The loop over the segments. *)
Lemma checkpoint_segments_ok us all segs start position intermediate st :
  updates_ok us (length all) → segments_ok bm0 segs start (drop start all) → (start <= length all)%nat →
  Forall (λ seg, Forall (allocated bm0) (segment_blocks seg) ∧
    ∀ id, segment_type seg = PERSISTENT id → if segment_updated us seg then id ∈ replaced else id ∈ kept) segs →
  (Nat.divide VS start → position = (start / VS / MVC, start / VS)%nat) → length intermediate = VS →
  written_rows st (take start (committed us all)) →
  ∃ st', checkpoint_segments (V := V) fresh us segs position intermediate st = Ok st' ∧ written_rows st' (committed us all).
Proof.
  intros Hu. revert start position intermediate st. induction segs as [|seg segs IH]; intros start position intermediate st Hs Hle Hal Hpos Hl Hw.
  { cbn in Hs. assert (length all <= start)%nat as Hge. { apply (f_equal length) in Hs. rewrite length_drop in Hs. cbn in Hs. lia. }
    exists st. split; [done|]. by rewrite take_ge in Hw by (rewrite length_committed; lia). }
  destruct Hs as (svs & rest & Heq & Hd & Hseg & Hs). apply Forall_cons in Hal as [[Hal Hin] Hals]. rewrite (Hpos Hd). cbn [checkpoint_segments].
  assert (svs = take (length svs) (drop start all)) as Hsvs by (by rewrite Heq, take_app_length).
  assert (start + length svs <= length all)%nat as Hfit. { apply (f_equal length) in Heq. rewrite length_drop, length_app in Heq. lia. }
  assert (rest = drop (start + length svs) all) as -> by (by rewrite <-drop_drop, Heq, drop_app_length).
  pose proof (so_start _ _ _ _ Hseg) as H1. pose proof (so_count _ _ _ _ Hseg) as H3. pose proof (so_type _ _ _ _ Hseg) as H6.
  assert (∀ st, written_rows st (take start (committed us all)) → ∃ st',
    ('(position, intermediate, st) ← rewrite_segment (V := V) fresh us seg ((start / VS / MVC)%nat, (start / VS)%nat) intermediate st;
     checkpoint_segments (V := V) fresh us segs position intermediate st) = Ok st' ∧ written_rows st' (committed us all)) as Hrewrite.
  { intros st1 Hw1. destruct (rewrite_segment_ok us all start seg svs intermediate st1 Hu Hd Hsvs Hfit Hseg Hal Hl Hw1) as (p' & i' & st2 & -> & Hp & Hi & Hw2).
    cbn [mbind res_bind]. eapply IH; [exact Hs|done|done|exact Hp|done|exact Hw2]. }
  destruct (segment_type seg) as [|id] eqn:Htype; [by apply Hrewrite|]. rewrite H1, H3. cbn [fst].
  rewrite (HasUpdates_spec us (length all)); [|done|done|split; apply Nat.Div0.div_le_mono; lia]. cbn [mbind res_bind].
  specialize (Hin id eq_refl). pose proof (eq_refl : segment_updated us seg = segment_updated us seg) as Hup.
  unfold segment_updated in Hup at 1. rewrite H1, H3 in Hup. rewrite Hup. destruct (segment_updated us seg) eqn:Hupd.
  - apply Hrewrite. by apply mark_modified_ok.
  - assert (allocated bm0 id) as Hida. { unfold segment_blocks in Hal. rewrite (proj1 H6) in Hal. by apply Forall_inv in Hal. }
    destruct (keep_segment_ok us all start seg svs id (start / VS / MVC) st Hu Hd Hsvs Hfit Hseg Htype Hida Hin Hupd ltac:(done) Hw) as (st2 & -> & Hw2).
    cbn [mbind res_bind]. eapply IH; [exact Hs|done|done|done|done|exact Hw2].
Qed.
End checkpoint.

(** ** Columns *)

(** The blocks that a checkpoint keeps, and those that it replaces. *)
Definition column_kept c : list Z := filter (λ seg, segment_updated (updates c) seg = false) (data c) ≫= persistent_block.

Definition column_replaced c : list Z := filter (λ seg, segment_updated (updates c) seg = true) (data c) ≫= persistent_block.

Lemma column_blocks c id : id ∈ column_kept c ++ column_replaced c ↔ id ∈ data c ≫= persistent_block.
Proof.
  unfold column_kept, column_replaced. rewrite elem_of_app, !list_elem_of_bind. setoid_rewrite list_elem_of_filter. split; [naive_solver|].
  intros (seg & Hid & Hin). destruct (segment_updated (updates c) seg) eqn:H; [right|left]; exists seg; auto.
Qed.

Lemma column_data_ok_read bm bm' c vs :
  (∀ id, id ∈ column_kept c ++ column_replaced c → BlockManager_Read bm' id = BlockManager_Read bm id) → column_data_ok bm c vs → column_data_ok bm' c vs.
Proof.
  intros Hr [Hs Hu Hp]. split; [|done..]. eapply segments_ok_read; [|exact Hs]. intros id (seg & Hid & Hin)%list_elem_of_bind.
  apply Hr, column_blocks, list_elem_of_bind. exists seg. split; [|done]. by rewrite <-(segments_ok_type _ _ _ _ _ Hs Hin).
Qed.

(** ** The checkpoint of a column

    The rows [vs] with the committed updates are in the blocks of the
    pointers, in the file and in the column; nothing that was in the file is
    overwritten. *)
Definition checkpointed bm c vs bm' c' (p : PersistentColumnData St) : Prop :=
  bm_ok bm' ∧ extends [] bm bm' ∧
  (∀ id, id ∈ bm_modified_blocks bm' → id ∈ bm_modified_blocks bm ∨ id ∈ column_replaced c) ∧
  segments_ok bm' (pc_segments p) 0 (committed (updates c) vs) ∧ pc_total_rows p = length vs ∧
  column_data_ok bm' c' (committed (updates c) vs) ∧ committed (updates c') (committed (updates c) vs) = committed (updates c) vs ∧
  (∀ d, d ∈ pc_pointers p → allocated bm' (dp_block_id d) ∧ (allocated bm (dp_block_id d) → dp_block_id d ∈ column_kept c)) ∧
  bm_max_block bm' <= bm_max_block bm + Z.of_nat (length (pc_pointers p)).

Lemma ColumnData_Checkpoint_ok (fresh : nat → list Z) intermediate bm c vs :
  (∀ n, length (fresh n) = BLOCK_SIZE) → length intermediate = VS → bm_ok bm → column_data_ok bm c vs →
  Forall (allocated bm) (column_kept c ++ column_replaced c) →
  ∃ bm' c' p, ColumnData_Checkpoint (V := V) fresh intermediate bm c = Ok (bm', c', p) ∧ checkpointed bm c vs bm' c' p ∧
    valid (pc_stats p) ∧ ∀ d, d ∈ pc_pointers p → dp_offset d = 0%nat.
Proof.
  intros Hfresh Hl Hbm Hcd Hal. pose proof Hcd as [Hs Hu Hpr]. unfold ColumnData_Checkpoint, checkpointed. destruct (data c) as [|seg segs] eqn:Hdata.
  - cbn in Hs. subst vs. eexists bm, c, _. split; [reflexivity|]. cbn [pc_stats pc_pointers].
    split; [|split; [apply (valid_empty (T := T) (V := V))|by intros d ?%elem_of_nil]].
    split_and!; [done|apply extends_refl|auto|done|done|done|done|by intros d ?%elem_of_nil|cbn; lia].
  - set (st0 := mkColumnCheckpointState bm None _ _ _). destruct Hu as [[? _]|Hu]; [done|].
    assert (flushed bm (column_kept c) (column_replaced c) st0 []) as Hf0.
    { split; try done; [apply extends_refl|auto|by intros p ?%elem_of_nil|by intros p ?%elem_of_nil|apply (valid_empty (T := T) (V := V))|cbn; lia]. }
    pose proof (CreateEmptySegment_ok bm (column_kept c) (column_replaced c) fresh Hfresh st0 [] Hf0) as Hw0.
    destruct (checkpoint_segments_ok bm (column_kept c) (column_replaced c) fresh Hfresh (updates c) vs (seg :: segs) 0 (0%nat, 0%nat) intermediate
      (CreateEmptySegment (V := V) fresh st0)) as (st1 & -> & Hw1); [done|by rewrite drop_0|lia| | |done|done|].
    { apply Forall_forall. intros s Hin. rewrite <-Hdata in Hin. split.
      - apply Forall_forall. intros id Hid. rewrite Forall_forall in Hal. apply Hal, column_blocks, list_elem_of_bind. exists s.
        rewrite <-Hdata in Hs. by rewrite <-(segments_ok_type _ _ _ _ _ Hs Hin).
      - intros id Hid. destruct (segment_updated (updates c) s) eqn:Hup; apply list_elem_of_bind; exists s.
        all: unfold persistent_block; rewrite Hid, list_elem_of_filter; split; [by left|done]. }
    { intros _. pose proof STANDARD_VECTOR_SIZE_pos. pose proof MVC_pos. by rewrite !Nat.Div0.div_0_l. }
    cbn [mbind res_bind].
    destruct (FlushSegment_ok bm (column_kept c) (column_replaced c) st1 _ Hw1) as (st2 & -> & Hf2 & _). cbn [mbind res_bind].
    destruct Hf2 as [Hbm2 He2 Hmod2 Htree2 Hsegs2 Hblocks2 Hoff2 Hglobal2 Hfmax2]. pose proof (segments_ok_rows _ _ _ _ Hsegs2) as Hrows. rewrite length_committed in Hrows.
    eexists _, _, _. split; [reflexivity|]. cbn [pc_stats pc_pointers]. split; [|done].
    rewrite Htree2 in Hsegs2, Hrows. unfold pointer_segments in Hsegs2, Hrows. split_and!; try done.
    + rewrite <-Hrows. unfold pc_total_rows, pc_segments. cbn [pc_pointers]. rewrite <-list_fmap_compose. reflexivity.
    + split; cbn [data set_updates set_data updates Replace persistent_rows]; [| |by rewrite length_committed].
      * rewrite Htree2. exact Hsegs2.
      * right. rewrite length_committed. destruct Hu as [Hlu Huu _]. apply no_updates_segments; [by intros j u (u0 & -> & _)%list_lookup_fmap_Some|by rewrite length_fmap|].
        intros j u (u0 & -> & Hju)%list_lookup_fmap_Some. destruct (Huu j u0 Hju) as (H1 & H2 & _). by split.
    + apply committed_none. intros k. apply no_updates_entries. intros j u (u0 & -> & Hju)%list_lookup_fmap_Some. done.
Qed.

(** ** Loading a column *)

Definition loaded_segment (st : St) (rows j : nat) : UpdateSegment T St * nat :=
  (UpdateSegment_new (V := V) (j * MORSEL_SIZE) st, Nat.min MORSEL_SIZE (rows - j * MORSEL_SIZE)).

Lemma initialize_updates_spec fuel k c :
  (k * MORSEL_SIZE <= persistent_rows c)%nat → updates c = loaded_segment (statistics c) (persistent_rows c) <$> seq 0 k →
  (S (persistent_rows c - k * MORSEL_SIZE) < fuel)%nat →
  initialize_updates (V := V) fuel (k * MORSEL_SIZE) c =
    set_updates (loaded_segment (statistics c) (persistent_rows c) <$> seq 0 (S (persistent_rows c / MORSEL_SIZE))) c.
Proof.
  pose proof MORSEL_SIZE_pos as HM. set (rows := persistent_rows c). set (st := statistics c). revert k c rows st.
  induction fuel as [|fuel IH]; intros k c rows st Hk Hc Hf; [lia|]. cbn [initialize_updates]. fold rows.
  assert (∀ n, n = Nat.min MORSEL_SIZE (rows - k * MORSEL_SIZE) →
    AppendUpdateSegment (V := V) (k * MORSEL_SIZE) n c = set_updates (loaded_segment st rows <$> seq 0 (S k)) c) as Happ.
  { intros n ->. unfold AppendUpdateSegment. by rewrite Hc, seq_S, fmap_app. }
  destruct (Nat.ltb_spec (k * MORSEL_SIZE) rows) as [Hlt|Hge].
  - rewrite Happ by lia. destruct (decide (S k * MORSEL_SIZE <= rows)%nat) as [Hle|Hgt].
    + replace (Nat.min (k * MORSEL_SIZE + MORSEL_SIZE) rows) with (S k * MORSEL_SIZE)%nat by lia.
      rewrite IH; [done|done|done|]. cbn [set_updates persistent_rows]. fold rows. lia.
    + rewrite Nat.min_r by lia. assert (rows / MORSEL_SIZE = k)%nat as -> by (symmetry; apply (Nat.div_unique _ _ _ (rows - k * MORSEL_SIZE)); lia).
      destruct fuel as [|fuel]; [lia|]. cbn [initialize_updates set_updates persistent_rows]. fold rows. rewrite Nat.ltb_irrefl.
      rewrite (proj2 (Nat.eqb_neq _ _)); [done|].
      assert (rows mod MORSEL_SIZE = rows - k * MORSEL_SIZE)%nat as ->; [|lia]. symmetry. apply (Nat.mod_unique _ _ k); lia.
  - assert (k * MORSEL_SIZE = rows)%nat as Heq by lia. rewrite Nat.Div0.mod_mul, Nat.eqb_refl. rewrite Happ by lia.
    assert (rows / MORSEL_SIZE = k)%nat as -> by (rewrite <-Heq; apply Nat.div_mul; lia). done.
Qed.

Lemma loaded_updates_ok st rows : let us := loaded_segment st rows <$> seq 0 (S (rows / MORSEL_SIZE)) in no_updates us ∧ updates_ok us rows.
Proof.
  intros us. assert (∀ j u, us !! j = Some u → u = loaded_segment st rows j) as Hlk.
  { intros j u (k & -> & Hk)%list_lookup_fmap_Some. by apply lookup_seq in Hk as [-> _]. }
  assert (no_updates us) as Hn by (intros j u Hj; by apply Hlk in Hj as ->). split; [done|].
  apply no_updates_segments; [done|unfold us; by rewrite length_fmap, length_seq|]. intros j u Hj. apply Hlk in Hj as ->. by split.
Qed.

(** A column that is loaded from pointers has the rows of their blocks. *)
Lemma ColumnData_Initialize_ok bm (p : PersistentColumnData St) t vs :
  segments_ok bm (pc_segments p) 0 vs →
  ∃ c, ColumnData_Initialize (V := V) p (ColumnData_new (V := V) t) = Ok c ∧ column_data_ok bm c vs ∧ committed (updates c) vs = vs ∧
    type c = t ∧ data c = pc_segments p ∧ statistics c = pc_stats p.
Proof.
  intros Hs. pose proof (segments_ok_rows _ _ _ _ Hs) as Hrows.
  assert (pc_total_rows p = length vs) as Htotal. { rewrite <-Hrows. unfold pc_total_rows, pc_segments. rewrite <-list_fmap_compose. reflexivity. }
  unfold ColumnData_Initialize. cbn [ColumnData_new set_statistics set_data persistent_rows type data updates statistics].
  rewrite Hrows, Htotal, Nat.eqb_refl. cbn [negb].
  assert (foldl AppendSegment [] (pc_segments p) = pc_segments p) as ->.
  { assert (∀ l acc : list (ColumnSegment St), foldl AppendSegment acc l = acc ++ l) as H; [|by rewrite H].
    intros l. induction l as [|s l IH]; intros acc; cbn; [by rewrite app_nil_r|]. unfold AppendSegment in *. by rewrite IH, <-app_assoc. }
  match goal with |- context [initialize_updates _ _ ?c] => set (c0 := c) end.
  pose proof (initialize_updates_spec (S (S (length vs))) 0 c0 ltac:(cbn; lia) eq_refl ltac:(cbn; lia)) as Hi. change (persistent_rows c0) with (length vs) in Hi.
  rewrite Nat.mul_0_l in Hi. rewrite Hi.
  destruct (loaded_updates_ok (pc_stats p) (length vs)) as [Hn Hok].
  eexists. split; [reflexivity|]. split; [|split; [|split; [|split]; reflexivity]].
  - split; [exact Hs|by right|done].
  - apply committed_none. intros k. by apply no_updates_entries.
Qed.

(** ** The pointers in the file *)

Definition data_pointer_pieces (d : DataPointer St) : list (list Z) :=
  [le_encode 8 (Z.of_nat (dp_row_start d)); le_encode 8 (Z.of_nat (dp_tuple_count d)); le_encode 8 (dp_block_id d); le_encode 4 (Z.of_nat (dp_offset d))] ++
  pieces (dp_statistics d).

Definition persistent_pieces (p : PersistentColumnData St) : list (list Z) :=
  pieces (pc_stats p) ++ [le_encode 8 (Z.of_nat (length (pc_pointers p)))] ++ (pc_pointers p ≫= data_pointer_pieces).

Record pointer_ok (d : DataPointer St) : Prop := {
  po_row_start : Z.of_nat (dp_row_start d) < 2 ^ 64;
  po_tuple_count : Z.of_nat (dp_tuple_count d) < 2 ^ 64;
  po_block_id : 0 <= dp_block_id d < 2 ^ 63;
  po_offset : dp_offset d = 0%nat;
  po_statistics : valid (dp_statistics d);
}.

Record persistent_ok (p : PersistentColumnData St) : Prop := {
  pp_stats : valid (pc_stats p);
  pp_count : Z.of_nat (length (pc_pointers p)) < 2 ^ 64;
  pp_pointers : Forall pointer_ok (pc_pointers p);
}.

Lemma FlushToDisk_writes {S} `{!Serializer S} p : writes (λ s : S, FlushToDisk s p) (persistent_pieces p).
Proof.
  unfold FlushToDisk, persistent_pieces. apply (writes_seq (λ s : S, Serialize s (pc_stats p)) (λ s, foldl WriteDataPointer (Write 8 s _) _)); [apply Serialize_writes|].
  apply (writes_seq (λ s : S, Write 8 s _) (λ s, foldl WriteDataPointer s _)); [apply writes_Write|]. apply writes_foldl. intros d _ s. unfold WriteDataPointer.
  by rewrite Serialize_writes.
Qed.

Lemma decodes_ReadDataPointer {D} `{!Deserializer D} d : pointer_ok d → decodes (λ s : D, ReadDataPointer s) (mjoin (data_pointer_pieces d)) d.
Proof.
  intros [H1 H2 H3 H4 H5]. unfold data_pointer_pieces. rewrite join_app. cbn [mjoin list_join]. rewrite <-!app_assoc, app_nil_l. unfold ReadDataPointer.
  eapply decodes_bind; [apply decodes_Read; cbn; lia|]. eapply decodes_bind; [apply decodes_Read; cbn; lia|].
  eapply decodes_bind; [apply decodes_ReadInt64; lia|]. rewrite H4. eapply decodes_bind; [apply decodes_Read; cbn; lia|].
  rewrite <-(app_nil_r (mjoin _)). eapply decodes_bind; [by apply Deserialize_decodes|]. rewrite !Nat2Z.id. destruct d. cbn in *. subst. apply decodes_ret.
Qed.

Lemma decodes_BaseDeserialize {D} `{!Deserializer D} p : persistent_ok p → decodes (λ s : D, BaseDeserialize s) (mjoin (persistent_pieces p)) p.
Proof.
  intros [H1 H2 H3]. unfold persistent_pieces. rewrite !join_app, join_bind. cbn [mjoin list_join]. rewrite app_nil_r. unfold BaseDeserialize.
  eapply decodes_bind; [by apply Deserialize_decodes|]. eapply decodes_bind; [apply decodes_Read; cbn; lia|]. rewrite Nat2Z.id.
  rewrite <-(app_nil_r (_ ≫= _)). eapply decodes_bind.
  - apply (decodes_times _ (λ d, mjoin (data_pointer_pieces d))). eapply Forall_impl; [exact H3|]. intros d Hd. by apply decodes_ReadDataPointer.
  - destruct p. apply decodes_ret.
Qed.

(** Segments of pointers: every one has a row, and is in the column. *)
Lemma pointer_segments_bounds bm (pointers : list (DataPointer St)) start vs :
  segments_ok bm (pointer_segments pointers) start vs →
  (length pointers <= length vs)%nat ∧
  Forall (λ d, (dp_row_start d + dp_tuple_count d <= start + length vs)%nat ∧ valid (dp_statistics d)) pointers.
Proof.
  revert start vs. induction pointers as [|d pointers IH]; intros start vs; [intros _; by split; [cbn; lia|]|].
  intros (vs1 & vs2 & -> & _ & Hd & Hs). destruct (IH _ _ Hs) as [Hl Hf].
  pose proof (so_start _ _ _ _ Hd) as H1. pose proof (so_count _ _ _ _ Hd) as H2. destruct (so_type _ _ _ _ Hd) as [_ Hne]. pose proof (so_stats _ _ _ _ Hd) as H3.
  cbn in H1, H2, H3. rewrite length_app. destruct vs1 as [|v vs1]; [done|]. cbn [length] in *. split; [lia|].
  constructor; [split; [lia|done]|]. eapply Forall_impl; [exact Hf|]. intros d' [? ?]. split; [lia|done].
Qed.

Lemma checkpointed_persistent bm c vs bm' c' p :
  checkpointed bm c vs bm' c' p → valid (pc_stats p) → (∀ d, d ∈ pc_pointers p → dp_offset d = 0%nat) →
  bm_max_block bm' <= 2 ^ 63 → Z.of_nat (length vs) < 2 ^ 64 → persistent_ok p.
Proof.
  intros (_ & _ & _ & Hs & _ & _ & _ & Hb & _) Hv Ho Hmax Hlen. destruct (pointer_segments_bounds _ _ _ _ Hs) as [Hl Hf]. rewrite length_committed in *.
  split; [done|lia|]. rewrite Forall_forall in Hf |- *. intros d Hd. destruct (Hf d Hd) as [H1 H2]. destruct (Hb d Hd) as [[[H3 H4] _] _].
  split; [lia|lia|lia|by apply Ho|done].
Qed.

(** C14: a column survives a checkpoint and a restart.  The checkpoint of a column
    with these rows and committed updates succeeds; afterwards the rows with the
    updates are in the file and in the column, the updates are gone, the blocks
    of segments without updates are used again and those with updates are marked
    as modified, nothing in use is overwritten, and what is written of the column
    is read back by any deserializer and loads a column with these rows and
    without updates. *)
Theorem column_checkpoint_restart (fresh : nat → list Z) intermediate bm c vs :
  (∀ n, length (fresh n) = BLOCK_SIZE) → length intermediate = VS → bm_ok bm → column_data_ok bm c vs →
  Forall (allocated bm) (column_kept c ++ column_replaced c) → Z.of_nat (length vs) < 2 ^ 64 →
  ∃ bm' c' p, ColumnData_Checkpoint (V := V) fresh intermediate bm c = Ok (bm', c', p) ∧ checkpointed bm c vs bm' c' p ∧
    (bm_max_block bm' <= 2 ^ 63 → ∀ S D `{!Serializer S, !Deserializer D} (ser : S) (d : D) rest,
      ser_ok ser → des_ok d → written (FlushToDisk ser p) ++ rest = written ser ++ remaining d →
      ∃ d' loaded, BaseDeserialize d = Ok (p, d') ∧ remaining d' = rest ∧
        ColumnData_Initialize (V := V) p (ColumnData_new (V := V) (type c)) = Ok loaded ∧
        column_data_ok bm' loaded (committed (updates c) vs) ∧ committed (updates loaded) (committed (updates c) vs) = committed (updates c) vs).
Proof.
  intros Hfresh Hl Hbm Hok Hal Hlen.
  destruct (ColumnData_Checkpoint_ok fresh intermediate bm c vs Hfresh Hl Hbm Hok Hal) as (bm' & c' & p & Hc & Hck & Hv & Ho).
  exists bm', c', p. split; [done|]. split; [done|]. intros Hmax S D HS HD ser d rest Hser Hd Heq.
  pose proof (checkpointed_persistent _ _ _ _ _ _ Hck Hv Ho Hmax Hlen) as Hp. pose proof Hck as (_ & _ & _ & Hs & _).
  destruct (writes_encodes (λ s : S, FlushToDisk s p) _ (FlushToDisk_writes p) ser Hser) as [_ Hw].
  rewrite Hw, <-app_assoc in Heq. apply app_inv_head in Heq. destruct (decodes_BaseDeserialize p Hp d rest Hd (eq_sym Heq)) as (d' & Hr & _ & Hrem).
  destruct (ColumnData_Initialize_ok bm' p (type c) _ Hs) as (loaded & Hi & Hlok & Hcom & _). exists d', loaded. by split_and!.
Qed.
End column.
