(* ===== verification/CheckpointManager.v ===== *)
(** * Checkpoints: writing the catalog and the tables to the file

    Models src/src/storage/checkpoint_manager.cpp, the order of the writes of
    src/src/storage/checkpoint/table_data_writer.cpp and table_data_reader.cpp,
    and of the columns in src/src/storage/table/standard_column_data.cpp.  What a
    column writes (blocks of data, and pointers to them) is an interface, the
    class [ColumnStorage], as are the trees of the parser.

    Theorems: after a checkpoint and a restart the catalog and the tables are
    those that were written, with the committed rows, and the log is empty; a
    checkpoint that is interrupted before its header leaves the old ones. *)

From S2P Require Import Prelude Constants Serializer MorselInfo SegmentTree DataTable CatalogCodec TableVersions WriteAheadLog BlockManager DatabaseFile.

(** ** The columns of tables

    [CheckpointColumn], the part of [ColumnData::Checkpoint] before
    [FlushToDisk], writes the data of a column to free blocks, marks the blocks
    that it replaces, keeps the others, and gives the pointers to the data. *)

Class ColumnStorage (Column Pointers : Type) : Type := {
  CheckpointColumn : Column → SingleFileBlockManager → SingleFileBlockManager * Pointers;
  WritePointers {S : Type} `{!Serializer S} : S → Pointers → S;
  ReadPointers {D : Type} `{!Deserializer D} : LogicalType → D → res (Pointers * D);
  total_rows : Pointers → nat;
  data_type : Column → LogicalType;
  row_count : Column → nat;
  kept_blocks : Column → list Z;
  replaced_blocks : Column → list Z;
  pointer_blocks : Pointers → list Z;
  pointer_pieces : Pointers → list (list Z);
  (** the blocks of the column hold its data *)
  column_ok : SingleFileBlockManager → Column → Prop;
  (** the blocks of the pointers hold the data of the column *)
  stored : SingleFileBlockManager → Pointers → Column → Prop;
  CheckpointColumn_spec c bm bm' p :
    bm_ok bm → column_ok bm c → Forall (allocated bm) (kept_blocks c ++ replaced_blocks c) → CheckpointColumn c bm = (bm', p) →
    bm_ok bm' ∧ extends [] bm bm' ∧ (∀ id, id ∈ bm_modified_blocks bm' → id ∈ bm_modified_blocks bm ∨ id ∈ replaced_blocks c) ∧
    total_rows p = row_count c ∧ stored bm' p c ∧
    (∀ id, id ∈ pointer_blocks p → allocated bm' id ∧ (allocated bm id → id ∈ kept_blocks c)) ∧
    (bm_max_block bm' <= 2 ^ 63 → ∀ (D : Type) `{!Deserializer D}, decodes (λ d : D, ReadPointers (data_type c) d) (mjoin (pointer_pieces p)) p);
  WritePointers_writes {S : Type} `{!Serializer S} p : writes (λ s : S, WritePointers s p) (pointer_pieces p);
  column_ok_read bm bm' c :
    (∀ id, id ∈ kept_blocks c ++ replaced_blocks c → BlockManager_Read bm' id = BlockManager_Read bm id) → column_ok bm c → column_ok bm' c;
  stored_read bm bm' p c :
    (∀ id, id ∈ pointer_blocks p → BlockManager_Read bm' id = BlockManager_Read bm id) → stored bm p c → stored bm' p c;
}.

(** [StandardColumnData]: values and validity. *)
Record StandardColumn (Column : Type) : Type := mkStandardColumn {
  main_column : Column;
  validity : Column;
}.
Arguments mkStandardColumn {_}.
Arguments main_column {_}.
Arguments validity {_}.

(** [LogicalType(LogicalTypeId::VALIDITY)] *)
Definition VALIDITY_TYPE : LogicalType := mkLogicalType 53 0 0 [] [].

(** A table: its catalog entry, its columns (in memory, or the pointers to
    them) and its rows. *)
Record StoredTable (ParsedExpression Column : Type) : Type := mkStoredTable {
  table_entry : TableCatalogEntry ParsedExpression;
  column_data : list (StandardColumn Column);
  table_rows : DataTable;
}.
Arguments mkStoredTable {_ _}.
Arguments table_entry {_ _}.
Arguments column_data {_ _}.
Arguments table_rows {_ _}.

(** A schema and the results of the scans of its catalog sets. *)
Record StoredSchema (ParsedExpression SelectStatement Column : Type) : Type := mkStoredSchema {
  schema_name : list Z;
  sequences : list SequenceCatalogEntry;
  tables : list (StoredTable ParsedExpression Column);
  views : list (ViewCatalogEntry SelectStatement);
  macros : list (MacroCatalogEntry ParsedExpression);
}.
Arguments mkStoredSchema {_ _ _}.
Arguments schema_name {_ _ _}.
Arguments sequences {_ _ _}.
Arguments tables {_ _ _}.
Arguments views {_ _ _}.
Arguments macros {_ _ _}.

Section checkpoints.
Context {ParsedExpression SelectStatement Column Pointers : Type}.
Context `{!Codec ParsedExpression, !Codec SelectStatement, !ColumnStorage Column Pointers}.

Notation Table := (StoredTable ParsedExpression).
Notation Schema := (StoredSchema ParsedExpression SelectStatement).

(** ** Writing *)

Record CheckpointState : Type := mkCheckpointState {
  block_manager : SingleFileBlockManager;
  metadata_writer : MetaBlockWriter;
  tabledata_writer : MetaBlockWriter;
}.
Implicit Types (cs : CheckpointState).

Notation Writer := (SingleFileBlockManager * MetaBlockWriter)%type.

Definition on_metadata (f : Writer → Writer) cs : CheckpointState :=
  let '(bm, w) := f (block_manager cs, metadata_writer cs) in mkCheckpointState bm w (tabledata_writer cs).

Definition on_tabledata (f : Writer → Writer) cs : CheckpointState :=
  let '(bm, w) := f (block_manager cs, tabledata_writer cs) in mkCheckpointState bm (metadata_writer cs) w.

(** [ColumnData::Checkpoint] *)
Definition WriteColumnData cs (c : Column) : CheckpointState :=
  let '(bm, p) := CheckpointColumn c (block_manager cs) in
  on_tabledata (λ s, WritePointers s p) (mkCheckpointState bm (metadata_writer cs) (tabledata_writer cs)).

(** [StandardColumnData::Checkpoint] *)
Definition WriteStandardColumn cs (c : StandardColumn Column) : CheckpointState :=
  WriteColumnData (WriteColumnData cs (main_column c)) (validity c).

Definition WriteTableData cs (table : Table Column) : CheckpointState :=
  let cs := foldl WriteStandardColumn cs (column_data table) in
  on_tabledata (λ s, CheckpointDeletes s (dt_versions (table_rows table))) cs.

Definition WriteTable cs (table : Table Column) : CheckpointState :=
  let cs := on_metadata (λ s, Serialize s (table_entry table)) cs in
  let cs := on_metadata (λ s, Write 8 s (mw_block_id (tabledata_writer cs))) cs in
  let cs := on_metadata (λ s, Write 8 s (Z.of_nat (mw_offset (tabledata_writer cs)))) cs in
  WriteTableData cs table.

Definition WriteSchema cs (schema : Schema Column) : CheckpointState :=
  let cs := on_metadata (λ s, WriteString s (schema_name schema)) cs in
  let cs := on_metadata (λ s, WriteList (λ s e, Serialize s e) s (sequences schema)) cs in
  let cs := on_metadata (λ s, Write 4 s (Z.of_nat (length (tables schema)))) cs in
  let cs := foldl WriteTable cs (tables schema) in
  let cs := on_metadata (λ s, WriteList (λ s e, Serialize s e) s (views schema)) cs in
  on_metadata (λ s, WriteList (λ s e, Serialize s e) s (macros schema)) cs.

Definition new_writers (fresh1 fresh2 : list Z) (bm : SingleFileBlockManager) : CheckpointState :=
  let '(bm, w1) := MetaBlockWriter_new fresh1 bm in
  let '(bm, w2) := MetaBlockWriter_new fresh2 bm in
  mkCheckpointState bm w1 w2.

Definition WriteSchemas cs (schemas : list (Schema Column)) : CheckpointState :=
  let cs := on_metadata (λ s, Write 4 s (Z.of_nat (length schemas))) cs in
  foldl WriteSchema cs schemas.

Definition FlushWriters cs : CheckpointState := on_tabledata MetaBlockWriter_Flush (on_metadata MetaBlockWriter_Flush cs).

Definition mark_all (ids : list Z) (bm : SingleFileBlockManager) : SingleFileBlockManager :=
  foldl (λ bm id, MarkBlockAsModified id bm) bm ids.

Inductive CheckpointAbort : Set := NO_ABORT | DEBUG_ABORT_BEFORE_TRUNCATE | DEBUG_ABORT_BEFORE_HEADER.

(** [fresh]: the uninitialised memory of the three writers. *)
Definition CreateCheckpoint (abort : CheckpointAbort) (fresh : list Z * list Z * list Z) (schemas : list (Schema Column))
    (bm : SingleFileBlockManager) (wal : WriteAheadLog) : out (SingleFileBlockManager * WriteAheadLog) () :=
  let cs := new_writers fresh.1.1 fresh.1.2 bm in
  let meta_block := mw_block_id (metadata_writer cs) in
  let cs := FlushWriters (WriteSchemas cs schemas) in
  let wal := WriteAheadLog_Flush (WriteCheckpoint meta_block wal) in
  match abort with
  | DEBUG_ABORT_BEFORE_HEADER =>
      Raise (block_manager cs, wal) (IOException "Checkpoint aborted before header write because of PRAGMA checkpoint_abort flag")
  | _ =>
      let bm := WriteHeader fresh.2 meta_block (block_manager cs) in
      match abort with
      | DEBUG_ABORT_BEFORE_TRUNCATE =>
          Raise (bm, wal) (IOException "Checkpoint aborted before truncate because of PRAGMA checkpoint_abort flag")
      | _ =>
          let wal := WriteAheadLog_Truncate 0 wal in
          let bm := mark_all (mw_written_blocks (metadata_writer cs)) bm in
          let bm := mark_all (mw_written_blocks (tabledata_writer cs)) bm in
          Ret (bm, wal) ()
      end
  end.

(** ** Loading *)

Section loading.
Context (bm : SingleFileBlockManager).

#[local] Instance source_reader : Deserializer MetaBlockReader := MetaBlockReader_Deserializer bm.

Definition set_offset (offset : nat) (r : MetaBlockReader) : MetaBlockReader :=
  mkMetaBlockReader (mr_buffer r) offset (mr_next_block r) (mr_read_blocks r).

(** The blocks that another reader marked as modified. *)
Definition also_read (ids : list Z) (r : MetaBlockReader) : MetaBlockReader :=
  mkMetaBlockReader (mr_buffer r) (mr_offset r) (mr_next_block r) (mr_read_blocks r ++ ids).

(** [StandardColumnData::Deserialize] *)
Definition ReadStandardColumn (type : LogicalType) (reader : MetaBlockReader) : res (StandardColumn Pointers * MetaBlockReader) :=
  '(main, reader) ← ReadPointers type reader;
  '(valid, reader) ← ReadPointers VALIDITY_TYPE reader;
  Ok (mkStandardColumn main valid, reader).

(** The loop over the columns; [table_count] is that of the first one. *)
Fixpoint ReadColumns (table_count : option nat) (columns : list (ColumnDefinition ParsedExpression)) (reader : MetaBlockReader)
    : res (list (StandardColumn Pointers) * MetaBlockReader) :=
  match columns with
  | [] => Ok ([], reader)
  | column :: columns =>
      '(data, reader) ← ReadStandardColumn (column_type column) reader;
      let rows := total_rows (main_column data) in
      if bool_decide (default rows table_count = rows) then
        '(rest, reader) ← ReadColumns (Some rows) columns reader;
        Ok (data :: rest, reader)
      else Throw (Exception "Column length mismatch in table load!")
  end.

(** [TableDataReader::ReadTableData], and the table that is made of the result. *)
Definition ReadTableData (columns : list (ColumnDefinition ParsedExpression)) (reader : MetaBlockReader)
    : res (list (StandardColumn Pointers) * DataTable * MetaBlockReader) :=
  '(data, reader) ← ReadColumns None columns reader;
  let rows := match data with [] => 0%nat | c :: _ => total_rows (main_column c) end in
  '(versions, reader) ← ReadVersions rows reader;
  Ok (data, DataTable_load rows versions, reader).

Definition ReadTable (reader : MetaBlockReader) : res (Table Pointers * MetaBlockReader) :=
  '(info, reader) ← Deserialize reader;
  '(block_id, reader) ← ReadBlockId reader;
  '(offset, reader) ← Read 8 reader;
  table_data_reader ← MetaBlockReader_new bm block_id;
  '(columns, rows, table_data_reader) ← ReadTableData (table_columns info) (set_offset (Z.to_nat offset) table_data_reader);
  Ok (mkStoredTable info columns rows, also_read (mr_read_blocks table_data_reader) reader).

Definition ReadSchema (reader : MetaBlockReader) : res (Schema Pointers * MetaBlockReader) :=
  '(name, reader) ← ReadString reader;
  '(sequences, reader) ← ReadList (λ d, Deserialize d) reader;
  '(table_count, reader) ← Read 4 reader;
  '(tables, reader) ← Read_times (Z.to_nat table_count) ReadTable reader;
  '(views, reader) ← ReadList (λ d, Deserialize d) reader;
  '(macros, reader) ← ReadList (λ d, Deserialize d) reader;
  Ok (mkStoredSchema name sequences tables views macros, reader).

(** The schemas that are created, and the block manager: all blocks that were read are modified. *)
Definition LoadFromStorage : res (list (Schema Pointers) * SingleFileBlockManager) :=
  let meta_block := GetMetaBlock bm in
  if meta_block <? 0 then Ok ([], bm)
  else
    reader ← MetaBlockReader_new bm meta_block;
    '(schema_count, reader) ← Read 4 reader;
    '(schemas, reader) ← Read_times (Z.to_nat schema_count) ReadSchema reader;
    Ok (schemas, mark_all (mr_read_blocks reader) bm).
End loading.

(** ** Lemmas: what a checkpoint does to the file and to its two streams *)

Definition csession bm0 cs : Prop := session bm0 (block_manager cs) (metadata_writer cs) (tabledata_writer cs).

Definition meta_stream cs : list Z := writer_data (block_manager cs) (metadata_writer cs).

Definition data_stream cs : list Z := writer_data (block_manager cs) (tabledata_writer cs).

Section steps.
Context (bm0 : SingleFileBlockManager) (freed : Z → Prop).

(** A block that the checkpoint does not write to. *)
Definition aside cs (id : Z) : Prop :=
  allocated (block_manager cs) id ∧ id ∉ writer_ids (metadata_writer cs) ∧ id ∉ writer_ids (tabledata_writer cs).

Record cs_extends cs cs' : Prop := {
  cx_meta : meta_stream cs `prefix_of` meta_stream cs';
  cx_data : data_stream cs `prefix_of` data_stream cs';
  cx_meta_ids : writer_ids (metadata_writer cs) `prefix_of` writer_ids (metadata_writer cs');
  cx_data_ids : writer_ids (tabledata_writer cs) `prefix_of` writer_ids (tabledata_writer cs');
  cx_aside id : aside cs id → aside cs' id ∧ BlockManager_Read (block_manager cs') id = BlockManager_Read (block_manager cs) id;
  cx_max : bm_max_block (block_manager cs) <= bm_max_block (block_manager cs');
  cx_modified id : id ∈ bm_modified_blocks (block_manager cs') → id ∈ bm_modified_blocks (block_manager cs) ∨ freed id;
}.

Lemma cs_extends_refl cs : cs_extends cs cs.
Proof. split; try done; auto with lia. Qed.

Lemma cs_extends_trans cs cs1 cs2 : cs_extends cs cs1 → cs_extends cs1 cs2 → cs_extends cs cs2.
Proof.
  intros [H1 H2 H3 H4 H5 Hm H6] [K1 K2 K3 K4 K5 Km K6]. split; try (etransitivity; eassumption).
  - intros id Ha. destruct (H5 id Ha) as [Ha1 Hr1]. destruct (K5 id Ha1) as [Ha2 Hr2]. split; [done|congruence].
  - intros id Hin. destruct (K6 id Hin); [by apply H6|by right].
Qed.

Definition step (f : CheckpointState → CheckpointState) : Prop := ∀ cs, csession bm0 cs → csession bm0 (f cs) ∧ cs_extends cs (f cs).

Lemma step_id : step (λ cs, cs).
Proof. intros cs Hcs. split; [done|apply cs_extends_refl]. Qed.

Lemma step_comp f g : step f → step g → step (λ cs, g (f cs)).
Proof.
  intros Hf Hg cs Hcs. destruct (Hf cs Hcs) as [H1 E1]. destruct (Hg _ H1) as [H2 E2]. split; [done|]. by eapply cs_extends_trans.
Qed.

Lemma step_foldl {T} (f : CheckpointState → T → CheckpointState) l : (∀ x, x ∈ l → step (λ cs, f cs x)) → step (λ cs, foldl f cs l).
Proof.
  induction l as [|x l IH]; intros Hf; [apply step_id|]. cbn [foldl].
  apply (step_comp (λ cs, f cs x) (λ cs, foldl f cs l)); [apply Hf; by left|]. apply IH. intros y Hy. apply Hf. by right.
Qed.

Lemma framed_aside (s s' : Writer) id :
  framed s s' → allocated s.1 id → id ∉ writer_ids s.2 →
  allocated s'.1 id ∧ id ∉ writer_ids s'.2 ∧ BlockManager_Read s'.1 id = BlockManager_Read s.1 id.
Proof.
  intros (He & _ & new & Hids & Hnew) Ha Hn. rewrite Forall_forall in Hnew. split_and!.
  - by apply (ext_alloc _ _ _ He).
  - rewrite Hids, elem_of_app. intros [?|Hin]; [done|]. by apply (Hnew id Hin).
  - by eapply extends_read.
Qed.

(** One call of [WriteData] on either stream. *)
Lemma metadata_WriteData b cs : csession bm0 cs →
  let cs' := on_metadata (λ s, WriteData s b) cs in
  csession bm0 cs' ∧ cs_extends cs cs' ∧ meta_stream cs' = meta_stream cs ++ b ∧ data_stream cs' = data_stream cs.
Proof.
  destruct cs as [bm w1 w2]. intros Hs. pose proof (session_write bm0 bm w1 w2 b Hs) as H. cbn zeta in H. unfold on_metadata.
  cbn [block_manager metadata_writer tabledata_writer]. change (WriteData (bm, w1) b) with (MetaBlockWriter_WriteData (bm, w1) b).
  destruct (MetaBlockWriter_WriteData (bm, w1) b) as [bm' w1'] eqn:Hw. cbn [fst snd] in H. destruct H as (Hs' & Hd1 & Hd2 & Hfr).
  split; [exact Hs'|]. split; [|split; [exact Hd1|exact Hd2]].
  destruct Hfr as (He & Hmod & new & Hids & Hnew) eqn:Hfreq. split; unfold meta_stream, data_stream, aside; cbn [block_manager metadata_writer tabledata_writer].
  - rewrite Hd1. by eexists.
  - by rewrite Hd2.
  - cbn in Hids. rewrite Hids. by eexists.
  - done.
  - intros id (Ha & H1 & H2). destruct (framed_aside (bm, w1) (bm', w1') id) as (Ha' & Hn' & Hr); [by split; [|split; [|exists new]]|done..].
  - apply (ext_max _ _ _ He).
  - cbn in Hmod. rewrite Hmod. auto.
Qed.

Lemma tabledata_WriteData b cs : csession bm0 cs →
  let cs' := on_tabledata (λ s, WriteData s b) cs in
  csession bm0 cs' ∧ cs_extends cs cs' ∧ data_stream cs' = data_stream cs ++ b ∧ meta_stream cs' = meta_stream cs.
Proof.
  destruct cs as [bm w1 w2]. intros Hs. pose proof (session_write bm0 bm w2 w1 b (session_comm _ _ _ _ Hs)) as H. cbn zeta in H. unfold on_tabledata.
  cbn [block_manager metadata_writer tabledata_writer]. change (WriteData (bm, w2) b) with (MetaBlockWriter_WriteData (bm, w2) b).
  destruct (MetaBlockWriter_WriteData (bm, w2) b) as [bm' w2'] eqn:Hw. cbn [fst snd] in H. destruct H as (Hs' & Hd1 & Hd2 & Hfr).
  split; [apply session_comm, Hs'|]. split; [|split; [exact Hd1|exact Hd2]].
  destruct Hfr as (He & Hmod & new & Hids & Hnew) eqn:Hfreq. split; unfold meta_stream, data_stream, aside; cbn [block_manager metadata_writer tabledata_writer].
  - by rewrite Hd2.
  - rewrite Hd1. by eexists.
  - done.
  - cbn in Hids. rewrite Hids. by eexists.
  - intros id (Ha & H1 & H2). destruct (framed_aside (bm, w2) (bm', w2') id) as (Ha' & Hn' & Hr); [by split; [|split; [|exists new]]|done..].
  - apply (ext_max _ _ _ He).
  - cbn in Hmod. rewrite Hmod. auto.
Qed.

Lemma on_metadata_foldl (ps : list (list Z)) cs : on_metadata (λ s, foldl WriteData s ps) cs = foldl (λ cs b, on_metadata (λ s, WriteData s b) cs) cs ps.
Proof.
  revert cs. induction ps as [|b ps IH]; intros cs; [by destruct cs|]. cbn [foldl]. rewrite <-IH. unfold on_metadata.
  destruct (WriteData (block_manager cs, metadata_writer cs) b). done.
Qed.

Lemma on_tabledata_foldl (ps : list (list Z)) cs : on_tabledata (λ s, foldl WriteData s ps) cs = foldl (λ cs b, on_tabledata (λ s, WriteData s b) cs) cs ps.
Proof.
  revert cs. induction ps as [|b ps IH]; intros cs; [by destruct cs|]. cbn [foldl]. rewrite <-IH. unfold on_tabledata.
  destruct (WriteData (block_manager cs, tabledata_writer cs) b). done.
Qed.

(** Everything that is written in pieces to one stream. *)
Lemma metadata_writes f ps cs : writes f ps → csession bm0 cs →
  csession bm0 (on_metadata f cs) ∧ cs_extends cs (on_metadata f cs) ∧
  meta_stream (on_metadata f cs) = meta_stream cs ++ mjoin ps ∧ data_stream (on_metadata f cs) = data_stream cs.
Proof.
  intros Hf Hcs. assert (on_metadata f cs = on_metadata (λ s, foldl WriteData s ps) cs) as -> by (unfold on_metadata; by rewrite Hf).
  rewrite on_metadata_foldl. clear f Hf. revert cs Hcs. induction ps as [|b ps IH]; intros cs Hcs; cbn [foldl mjoin list_join].
  { rewrite app_nil_r. split_and!; [done|apply cs_extends_refl|done..]. }
  destruct (metadata_WriteData b cs Hcs) as (H1 & E1 & M1 & D1). destruct (IH _ H1) as (H2 & E2 & M2 & D2).
  split; [done|]. split; [by eapply cs_extends_trans|]. split; [by rewrite M2, M1, <-app_assoc|by rewrite D2].
Qed.

Lemma tabledata_writes f ps cs : writes f ps → csession bm0 cs →
  csession bm0 (on_tabledata f cs) ∧ cs_extends cs (on_tabledata f cs) ∧
  data_stream (on_tabledata f cs) = data_stream cs ++ mjoin ps ∧ meta_stream (on_tabledata f cs) = meta_stream cs.
Proof.
  intros Hf Hcs. assert (on_tabledata f cs = on_tabledata (λ s, foldl WriteData s ps) cs) as -> by (unfold on_tabledata; by rewrite Hf).
  rewrite on_tabledata_foldl. clear f Hf. revert cs Hcs. induction ps as [|b ps IH]; intros cs Hcs; cbn [foldl mjoin list_join].
  { rewrite app_nil_r. split_and!; [done|apply cs_extends_refl|done..]. }
  destruct (tabledata_WriteData b cs Hcs) as (H1 & E1 & M1 & D1). destruct (IH _ H1) as (H2 & E2 & M2 & D2).
  split; [done|]. split; [by eapply cs_extends_trans|]. split; [by rewrite M2, M1, <-app_assoc|by rewrite D2].
Qed.

(** ** Lemmas: reading the finished file *)

Context (bmf : SingleFileBlockManager).

#[local] Instance finished_reader : Deserializer MetaBlockReader := source_reader bmf.

(** [bmf] has the finished chain of table data, and what the checkpoint left aside. *)
Record finished cs : Prop := {
  fi_chain : data_stream cs ≠ [] → ∃ ids data pad, linked bmf ids (-1) ∧ NoDup ids ∧ Forall valid_id ids ∧ ids ≫= block_data bmf = data ++ pad ∧
    writer_ids (tabledata_writer cs) `prefix_of` ids ∧ data_stream cs `prefix_of` data;
  fi_max : bm_max_block (block_manager cs) <= 2 ^ 63;
  fi_aside id : aside cs id → ¬ freed id → BlockManager_Read bmf id = BlockManager_Read (block_manager cs) id;
}.

Lemma finished_extends cs cs' : cs_extends cs cs' → finished cs' → finished cs.
Proof.
  intros He [Hc Hmax Ha]. split.
  - intros Hne. destruct Hc as (ids & data & pad & H1 & H2 & H3 & H4 & H5 & H6).
    { destruct (cx_data _ _ He) as [d ->]. by intros [? _]%app_nil. }
    exists ids, data, pad. split_and!; [done..| |]; (etransitivity; [|eassumption]); apply He.
  - etransitivity; [apply (cx_max _ _ He)|done].
  - intros id Hid Hf. destruct (cx_aside _ _ He id Hid) as [Hid' Hr]. by rewrite Ha, Hr.
Qed.

(** What [f] adds to a stream is decoded by [rd] to a value with [Q]. *)
Definition sends {T} (content : CheckpointState → list Z) (f : CheckpointState → CheckpointState)
    (rd : MetaBlockReader → res (T * MetaBlockReader)) (Q : T → Prop) : Prop :=
  ∀ cs m, csession bm0 cs → content (f cs) = content cs ++ m → finished (f cs) → ∃ v, Q v ∧ decodes rd m v.

(** The two streams. *)
Class Stream (content : CheckpointState → list Z) : Prop := stream_grows cs cs' : cs_extends cs cs' → content cs `prefix_of` content cs'.

#[local] Instance meta_Stream : Stream meta_stream.
Proof. intros cs cs' He. apply He. Qed.

#[local] Instance data_Stream : Stream data_stream.
Proof. intros cs cs' He. apply He. Qed.

Lemma sends_bind {T U} content `{!Stream content} f g rd (rd' : T → MetaBlockReader → res (U * MetaBlockReader)) Q Q' :
  step f → sends content f rd Q → step g → (∀ v, Q v → sends content g (rd' v) Q') →
  sends content (λ cs, g (f cs)) (λ r, '(v, r) ← rd r; rd' v r) Q'.
Proof.
  intros Sf Hf Sg Hg cs m Hcs Hm Hfin. destruct (Sf cs Hcs) as [Hcs1 E1]. destruct (Sg _ Hcs1) as [_ E2].
  destruct (stream_grows _ _ E1) as [m1 H1]. destruct (stream_grows _ _ E2) as [m2 H2].
  rewrite H2, H1, <-app_assoc in Hm. apply app_inv_head in Hm as <-.
  destruct (Hf cs m1 Hcs H1 (finished_extends _ _ E2 Hfin)) as (v & Hv & Hd1).
  destruct (Hg v Hv (f cs) m2 Hcs1 H2 Hfin) as (u & Hu & Hd2). exists u. split; [done|]. by apply decodes_bind with v.
Qed.

Lemma sends_ret {T} content (v : T) (Q : T → Prop) : Q v → sends content (λ cs, cs) (λ r, Ok (v, r)) Q.
Proof.
  intros Hv cs m _ Hm _. exists v. split; [done|]. rewrite <-(app_nil_r (content cs)) in Hm at 1. apply app_inv_head in Hm as <-. apply decodes_ret.
Qed.

Lemma sends_times {T U} content `{!Stream content} (f : CheckpointState → T → CheckpointState) (rd : MetaBlockReader → res (U * MetaBlockReader)) (Q : T → U → Prop) l :
  (∀ x, x ∈ l → step (λ cs, f cs x) ∧ sends content (λ cs, f cs x) rd (Q x)) →
  sends content (λ cs, foldl f cs l) (Read_times (length l) rd) (Forall2 Q l).
Proof.
  induction l as [|x l IH]; intros Hf.
  { apply (sends_ret content [] (Forall2 Q [])). constructor. }
  cbn [foldl length Read_times]. destruct (Hf x ltac:(by left)) as [Sx Hx].
  apply (sends_bind content (λ cs, f cs x) (λ cs, foldl f cs l) rd _ (Q x)); [done|done| |].
  { apply step_foldl. intros y Hy. apply Hf. by right. }
  intros u Hu cs m Hcs Hm Hfin. destruct (IH (λ y Hy, Hf y (list_elem_of_further _ _ _ Hy)) cs m Hcs Hm Hfin) as (us & Hus & Hd).
  exists (u :: us). split; [by constructor|]. rewrite <-(app_nil_r m). by apply decodes_bind with us; [|apply decodes_ret].
Qed.

Lemma metadata_step f ps : writes f ps → step (on_metadata f).
Proof. intros Hf cs Hcs. destruct (metadata_writes f ps cs Hf Hcs) as (H1 & H2 & _). done. Qed.

Lemma tabledata_step f ps : writes f ps → step (on_tabledata f).
Proof. intros Hf cs Hcs. destruct (tabledata_writes f ps cs Hf Hcs) as (H1 & H2 & _). done. Qed.

Lemma metadata_sends {T} f ps rd (v : T) : writes f ps → decodes rd (mjoin ps) v → sends meta_stream (on_metadata f) rd (eq v).
Proof.
  intros Hf Hd cs m Hcs Hm _. destruct (metadata_writes f ps cs Hf Hcs) as (_ & _ & H & _). rewrite H in Hm. apply app_inv_head in Hm as <-. by exists v.
Qed.

Lemma tabledata_sends {T} f ps rd (v : T) : writes f ps → decodes rd (mjoin ps) v → sends data_stream (on_tabledata f) rd (eq v).
Proof.
  intros Hf Hd cs m Hcs Hm _. destruct (tabledata_writes f ps cs Hf Hcs) as (_ & _ & H & _). rewrite H in Hm. apply app_inv_head in Hm as <-. by exists v.
Qed.

(** ** Lemmas: the columns *)

(** Columns whose blocks belong to the file at the start. *)
Record column_fits (c : Column) : Prop := {
  cf_ok : column_ok bm0 c;
  cf_allocated : Forall (allocated bm0) (kept_blocks c ++ replaced_blocks c);
  cf_kept id : id ∈ kept_blocks c → ¬ freed id;
  cf_replaced id : id ∈ replaced_blocks c → freed id;
}.

Hypothesis freed_allocated : ∀ id, freed id → allocated bm0 id.

Definition column_loaded (c : Column) (p : Pointers) : Prop := total_rows p = row_count c ∧ stored bmf p c.

Lemma session_aside cs id : csession bm0 cs → allocated bm0 id → aside cs id ∧ BlockManager_Read (block_manager cs) id = BlockManager_Read bm0 id.
Proof.
  intros [H1 H2 Hd Hb Hn] Ha. split.
  - split; [by apply (ext_alloc _ _ _ Hb)|]. split; intros Hin; eapply Hn; eauto.
  - eapply extends_read; [exact Hb|done|apply not_elem_of_nil].
Qed.

Lemma CheckpointColumn_step cs c bm p :
  csession bm0 cs → column_fits c → CheckpointColumn c (block_manager cs) = (bm, p) →
  let cs' := mkCheckpointState bm (metadata_writer cs) (tabledata_writer cs) in
  csession bm0 cs' ∧ cs_extends cs cs' ∧ meta_stream cs' = meta_stream cs ∧ data_stream cs' = data_stream cs ∧ total_rows p = row_count c ∧
  stored bm p c ∧ (∀ id, id ∈ pointer_blocks p → aside cs' id ∧ ¬ freed id) ∧
  (bm_max_block bm <= 2 ^ 63 → ∀ (D : Type) (HD : Deserializer D), decodes (λ d : D, ReadPointers (data_type c) d) (mjoin (pointer_pieces p)) p).
Proof.
  destruct cs as [bm1 w1 w2]. intros Hcs [Hok Hal Hkept Hrep] Hc. pose proof Hcs as [H1 H2 Hd Hb Hn]. cbn [block_manager metadata_writer tabledata_writer] in *.
  rewrite Forall_forall in Hal.
  destruct (CheckpointColumn_spec c bm1 bm p) as (Hbm & He & Hmod & Hrows & Hst & Hblocks & Hdec); [apply H1| | |done|].
  { eapply column_ok_read; [|exact Hok]. intros id Hin. eapply extends_read; [exact Hb|by apply Hal|apply not_elem_of_nil]. }
  { rewrite Forall_forall. intros id Hin. by apply (ext_alloc _ _ _ Hb), Hal. }
  destruct H1 as (Hbm1 & Hw1 & Hn1), H2 as (_ & Hw2 & Hn2). cbn [fst snd] in *.
  destruct (writer_ok_extends [] bm1 bm w1 Hw1 He ltac:(set_solver)) as [Hw1' Hd1].
  destruct (writer_ok_extends [] bm1 bm w2 Hw2 He ltac:(set_solver)) as [Hw2' Hd2].
  pose proof (wo_allocated _ _ Hw1) as Ha1. pose proof (wo_allocated _ _ Hw2) as Ha2. rewrite Forall_forall in Ha1, Ha2. cbn zeta. split_and!.
  - split; [done..| |done]. eapply extends_trans; [exact Hb|exact He|set_solver].
  - split; unfold meta_stream, data_stream, aside; cbn [block_manager metadata_writer tabledata_writer]; [by rewrite Hd1|by rewrite Hd2|done|done| |apply (ext_max _ _ _ He)|].
    + intros id (Ha & Hi1 & Hi2). split; [split; [by apply (ext_alloc _ _ _ He)|done]|]. eapply extends_read; [exact He|done|apply not_elem_of_nil].
    + intros id [Hin|Hin]%Hmod; [by left|right; by apply Hrep].
  - exact Hd1.
  - exact Hd2.
  - done.
  - done.
  - intros id Hin. destruct (Hblocks id Hin) as [Ha Hk]. unfold aside. cbn [block_manager metadata_writer tabledata_writer].
    assert (∀ ids : list Z, (∀ i, i ∈ ids → allocated bm1 i ∧ ¬ allocated bm0 i) → id ∉ ids) as Hfree.
    { intros ids Hids Hi. destruct (Hids id Hi) as [Hai Hni]. apply Hni, Hal, elem_of_app. left. by apply Hk. }
    split; [split; [done|split; apply Hfree]|].
    + intros i Hi. split; [by apply Ha1|by apply Hn; left].
    + intros i Hi. split; [by apply Ha2|by apply Hn; right].
    + intros Hf. apply (Hkept id); [|done]. apply Hk, (ext_alloc _ _ _ Hb). by apply freed_allocated.
  - done.
Qed.

Lemma WriteColumnData_sends c :
  column_fits c → step (λ cs, WriteColumnData cs c) ∧
    (∀ cs, csession bm0 cs → meta_stream (WriteColumnData cs c) = meta_stream cs) ∧
    sends data_stream (λ cs, WriteColumnData cs c) (ReadPointers (data_type c)) (column_loaded c).
Proof.
  intros Hc. split_and!; [intros cs Hcs|intros cs Hcs|intros cs m Hcs Hm Hfin].
  all: unfold WriteColumnData in *; destruct (CheckpointColumn c (block_manager cs)) as [bm p] eqn:Hcc;
    destruct (CheckpointColumn_step cs c bm p Hcs Hc Hcc) as (Hcs' & He & Hms & Hds & Hrows & Hst & Hb & Hdec);
    destruct (tabledata_writes _ _ _ (WritePointers_writes p) Hcs') as (Hcs2 & He2 & Hd2 & Hm2).
  - split; [done|]. by eapply cs_extends_trans.
  - by rewrite Hm2.
  - rewrite Hd2, Hds in Hm. apply app_inv_head in Hm as <-. pose proof (finished_extends _ _ He2 Hfin) as Hfin1. exists p. split; [|apply Hdec, (fi_max _ Hfin1)]. split; [done|].
    eapply stored_read; [|exact Hst]. intros id Hin. destruct (Hb id Hin) as [Ha Hf].
    by apply (fi_aside _ Hfin1).
Qed.

Record standard_column_fits (c : StandardColumn Column) : Prop := {
  sf_main : column_fits (main_column c);
  sf_validity : column_fits (validity c);
  sf_type : data_type (validity c) = VALIDITY_TYPE;
}.

Definition standard_column_loaded (c : StandardColumn Column) (p : StandardColumn Pointers) : Prop :=
  column_loaded (main_column c) (main_column p) ∧ column_loaded (validity c) (validity p).

Lemma WriteStandardColumn_sends c :
  standard_column_fits c → step (λ cs, WriteStandardColumn cs c) ∧
    (∀ cs, csession bm0 cs → meta_stream (WriteStandardColumn cs c) = meta_stream cs) ∧
    sends data_stream (λ cs, WriteStandardColumn cs c) (ReadStandardColumn bmf (data_type (main_column c))) (standard_column_loaded c).
Proof.
  intros [Hm Hv Ht]. destruct (WriteColumnData_sends _ Hm) as (S1 & M1 & D1), (WriteColumnData_sends _ Hv) as (S2 & M2 & D2).
  unfold WriteStandardColumn, ReadStandardColumn. rewrite Ht in D2. split_and!.
  - by apply (step_comp (λ cs, WriteColumnData cs _) (λ cs, WriteColumnData cs _)).
  - intros cs Hcs. rewrite M2 by (by apply S1). by apply M1.
  - apply (sends_bind data_stream (λ cs, WriteColumnData cs _) (λ cs, WriteColumnData cs _) _ _ (column_loaded (main_column c))); [done|done|done|].
    intros p Hp. apply (sends_bind data_stream (λ cs, WriteColumnData cs _) (λ cs, cs) _ _ (column_loaded (validity c))); [done|done|apply step_id|].
    intros q Hq. by apply (sends_ret data_stream (mkStandardColumn p q)).
Qed.

Lemma WriteColumns_step columns : Forall standard_column_fits columns → step (λ cs, foldl WriteStandardColumn cs columns).
Proof. rewrite Forall_forall. intros Hc. apply step_foldl. intros c Hin. by apply WriteStandardColumn_sends, Hc. Qed.

Lemma WriteColumns_meta columns cs :
  Forall standard_column_fits columns → csession bm0 cs → meta_stream (foldl WriteStandardColumn cs columns) = meta_stream cs.
Proof.
  intros Hc. revert cs. induction Hc as [|c columns Hc Hcs IH]; intros cs Hs; [done|]. cbn [foldl].
  destruct (WriteStandardColumn_sends c Hc) as (S & M & _). rewrite IH by (by apply S). by apply M.
Qed.

Lemma WriteColumns_sends rows columns definitions table_count :
  Forall standard_column_fits columns → Forall2 (λ c d, data_type (main_column c) = column_type d) columns definitions →
  Forall (λ c, row_count (main_column c) = rows) columns → table_count = None ∨ table_count = Some rows →
  sends data_stream (λ cs, foldl WriteStandardColumn cs columns) (ReadColumns bmf table_count definitions) (Forall2 standard_column_loaded columns).
Proof.
  intros Hc Ht. revert table_count Hc. induction Ht as [|c d columns definitions Hcd Ht IH]; intros table_count Hc Hr Htc.
  { by apply (sends_ret data_stream [] (Forall2 standard_column_loaded [])). }
  apply Forall_cons in Hc as [Hc Hcs], Hr as [Hr Hrs]. cbn [foldl ReadColumns]. rewrite <-Hcd.
  destruct (WriteStandardColumn_sends c Hc) as (S & _ & D).
  apply (sends_bind data_stream (λ cs, WriteStandardColumn cs c) (λ cs, foldl WriteStandardColumn cs columns) _ _ (standard_column_loaded c));
    [done|done|by apply WriteColumns_step|].
  intros p Hp. assert (total_rows (main_column p) = rows) as -> by (destruct Hp as [[-> _] _]; done).
  rewrite bool_decide_true by (by destruct Htc as [-> | ->]).
  apply (sends_bind data_stream (λ cs, foldl WriteStandardColumn cs columns) (λ cs, cs) _ _ (Forall2 standard_column_loaded columns));
    [by apply WriteColumns_step|by apply IH; [..|right]|apply step_id|].
  intros ps Hps. apply (sends_ret data_stream (p :: ps)). by constructor.
Qed.

(** ** Lemmas: tables *)

Record table_fits (t : Table Column) : Prop := {
  tf_entry : valid (table_entry t);
  tf_columns : Forall standard_column_fits (column_data t);
  tf_types : Forall2 (λ c d, data_type (main_column c) = column_type d) (column_data t) (table_columns (table_entry t));
  tf_nonempty : column_data t ≠ [];
  tf_rows : Forall (λ c, row_count (main_column c) = dt_total_rows (table_rows t)) (column_data t);
  tf_versions : ∃ vs, table_refines (table_rows t) vs ∧ Forall plain_version vs ∧
    ∀ i m, dt_versions (table_rows t) !! i = Some m → checkpointable m (length (slice i vs));
}.

(** The rows after a restart. *)
Definition rows_loaded (dt dt' : DataTable) : Prop :=
  ∃ vs, table_refines dt vs ∧ Forall plain_version vs ∧ table_refines dt' (checkpointed <$> vs).

Record table_loaded (t : Table Column) (t' : Table Pointers) : Prop := {
  tl_entry : table_entry t' = table_entry t;
  tl_columns : Forall2 standard_column_loaded (column_data t) (column_data t');
  tl_rows : rows_loaded (table_rows t) (table_rows t');
}.

Lemma WriteTableData_step t : table_fits t →
  step (λ cs, WriteTableData cs t) ∧
  ∀ cs, csession bm0 cs → meta_stream (WriteTableData cs t) = meta_stream cs ∧ data_stream (WriteTableData cs t) ≠ [].
Proof.
  intros Ht. pose proof (WriteColumns_step _ (tf_columns _ Ht)) as Hc.
  pose proof (CheckpointDeletes_writes (S := Writer) (dt_versions (table_rows t))) as Hw. unfold WriteTableData. split.
  - apply (step_comp (λ cs, foldl WriteStandardColumn cs _) (on_tabledata _)); [done|by eapply tabledata_step].
  - intros cs Hcs. destruct (Hc cs Hcs) as [Hcs1 _]. destruct (tabledata_writes _ _ _ Hw Hcs1) as (_ & _ & -> & ->).
    split; [apply WriteColumns_meta; [apply Ht|done]|]. destruct (tf_versions _ Ht) as (vs & Hvs & _).
    pose proof (tree_nonempty _ (vr_tree _ _ (tr_versions _ _ Hvs))) as Hne. intros [_ Hnil]%app_nil.
    destruct (dt_versions (table_rows t)) as [|m ms]; [done|]. rewrite bind_cons, join_app in Hnil. apply app_nil in Hnil as [Hnil _].
    apply (f_equal length) in Hnil. unfold MorselInfo_pieces in Hnil. destruct (m_root m); cbn [mjoin list_join] in Hnil;
      rewrite length_app, length_le_encode in Hnil; discriminate Hnil.
Qed.

Lemma WriteTableData_sends t cs d :
  table_fits t → csession bm0 cs → data_stream (WriteTableData cs t) = data_stream cs ++ d → finished (WriteTableData cs t) →
  ∃ columns rows d1 d2, d = d1 ++ d2 ∧ decodes (ReadTableData bmf (table_columns (table_entry t))) d1 (columns, rows) ∧
    Forall2 standard_column_loaded (column_data t) columns ∧ rows_loaded (table_rows t) rows.
Proof.
  intros Ht Hcs Hd Hfin. pose proof (WriteColumns_step _ (tf_columns _ Ht) cs Hcs) as [Hcs1 E1].
  pose proof (CheckpointDeletes_writes (S := Writer) (dt_versions (table_rows t))) as Hw.
  unfold WriteTableData in *. destruct (tabledata_writes _ _ _ Hw Hcs1) as (_ & E2 & H2 & _).
  destruct (stream_grows _ _ E1) as [d1 H1]. rewrite H2, H1, <-app_assoc in Hd. apply app_inv_head in Hd as <-.
  destruct (WriteColumns_sends (dt_total_rows (table_rows t)) _ _ None (tf_columns _ Ht) (tf_types _ Ht) (tf_rows _ Ht) (or_introl eq_refl) cs d1 Hcs H1
    (finished_extends _ _ E2 Hfin)) as (columns & Hcols & Hdec).
  destruct (tf_versions _ Ht) as (vs & Hvs & Hplain & Hcp).
  destruct (DataTable_checkpoint_image (table_rows t) vs Hvs Hplain Hcp) as (b1 & b2 & versions & Hb & Hdecv & Hrows).
  exists columns, (DataTable_load (dt_total_rows (table_rows t)) versions), (d1 ++ b1), b2. rewrite Hb, app_assoc. split; [done|].
  split; [|split; [done|by exists vs]]. unfold ReadTableData. apply decodes_bind with columns; [exact Hdec|].
  assert (match columns with [] => 0%nat | c :: _ => total_rows (main_column c) end = dt_total_rows (table_rows t)) as ->.
  { pose proof (tf_nonempty _ Ht). pose proof (tf_rows _ Ht) as Hr. destruct Hcols as [|c p ? ? [[-> _] _] _]; [done|]. by apply Forall_cons in Hr as [-> _]. }
  rewrite <-(app_nil_r b1). apply decodes_bind with versions; [exact Hdecv|apply decodes_ret].
Qed.

(** ** Lemmas: where the data of a table starts *)

Lemma linked_data_length bm ids next : linked bm ids next → length (ids ≫= block_data bm) = (length ids * (BLOCK_SIZE - 8))%nat.
Proof.
  induction ids as [|id ids IH]; [done|]. intros [(piece & Hr & Hp) Hl]. rewrite bind_cons, length_app, IH by done.
  unfold block_data. rewrite Hr. cbn [length]. rewrite length_drop, length_app, length_le_encode. lia.
Qed.

Lemma writer_data_length bm w : writer_ok bm w →
  length (writer_data bm w) = (length (mw_written_blocks w) * (BLOCK_SIZE - 8) + (mw_offset w - 8))%nat.
Proof.
  intros [Hl Ho _ _ _ Hlk]. unfold writer_data. rewrite length_app, (linked_data_length _ _ _ Hlk), length_drop, length_take. lia.
Qed.

Lemma set_offset_ok bm r offset :
  reader_ok bm r → mr_offset r = 8%nat → (8 <= offset <= BLOCK_SIZE)%nat →
  reader_ok bm (set_offset offset r) ∧ reader_remaining bm (set_offset offset r) = drop (offset - 8) (reader_remaining bm r).
Proof.
  intros [Hl Ho Hc] H8 Hoff. split; [by split|]. unfold reader_remaining, set_offset. cbn [mr_offset mr_buffer mr_next_block].
  rewrite skipn_app, length_drop, drop_drop, H8. replace (offset - 8 - (length (mr_buffer r) - 8))%nat with 0%nat by lia.
  by replace (8 + (offset - 8))%nat with offset by lia.
Qed.

Lemma read_position cs cs' d :
  csession bm0 cs → cs_extends cs cs' → data_stream cs' = data_stream cs ++ d → data_stream cs' ≠ [] → finished cs' →
  inS 64 (mw_block_id (tabledata_writer cs)) ∧ (mw_offset (tabledata_writer cs) <= BLOCK_SIZE)%nat ∧
  ∃ r rest, MetaBlockReader_new bmf (mw_block_id (tabledata_writer cs)) = Ok r ∧
    reader_ok bmf (set_offset (mw_offset (tabledata_writer cs)) r) ∧
    reader_remaining bmf (set_offset (mw_offset (tabledata_writer cs)) r) = d ++ rest.
Proof.
  intros Hcs He Hd Hne [Hchain _]. destruct (Hchain Hne) as (ids & data & pad & Hlk & Hnd & Hv & Hdata & Hids & Hpre). set (w := tabledata_writer cs).
  assert (writer_ok (block_manager cs) w) as Hw by apply Hcs. pose proof (wo_offset _ _ Hw) as Hoff.
  destruct (cx_data_ids _ _ He) as [new Hnew], Hids as [more Hmore], Hpre as [dmore Hdmore]. fold w in Hnew.
  assert (ids = mw_written_blocks w ++ (mw_block_id w :: new ++ more)) as Hsplit.
  { rewrite Hmore, Hnew. unfold writer_ids. by rewrite <-!app_assoc. }
  rewrite Hsplit in Hlk, Hdata, Hnd, Hv. apply linked_app in Hlk as [Hlk1 Hlk2]. apply NoDup_app in Hnd as (_ & _ & Hnd).
  apply Forall_app in Hv as [_ Hv]. split.
  { apply Forall_cons in Hv as [Hid _]. unfold valid_id in Hid. split; lia. }
  split; [lia|]. destruct (MetaBlockReader_new_spec bmf _ Hlk2 Hnd Hv ltac:(done)) as (r & Hr & Hok & H8 & Hrem). cbn [hd] in Hr.
  destruct (set_offset_ok bmf r (mw_offset w) Hok H8 Hoff) as [Hok' Hrem']. exists r, (dmore ++ pad). split; [done|]. split; [done|].
  rewrite Hrem', Hrem. rewrite bind_app in Hdata.
  assert (d ++ dmore ++ pad = drop (length (data_stream cs)) ((data_stream cs ++ d) ++ dmore ++ pad)) as ->.
  { by rewrite <-app_assoc, drop_app_length. }
  rewrite <-Hd, app_assoc, <-Hdmore, <-Hdata. unfold data_stream. fold w. rewrite (writer_data_length _ _ Hw), <-(linked_data_length _ _ _ Hlk1).
  rewrite <-drop_drop, drop_app_length. done.
Qed.

Lemma WriteTable_sends t : table_fits t →
  step (λ cs, WriteTable cs t) ∧ sends meta_stream (λ cs, WriteTable cs t) (ReadTable bmf) (table_loaded t).
Proof.
  intros Ht. destruct (WriteTableData_step t Ht) as [Sd Md].
  assert (∀ n z, writes (λ s : Writer, Write n s z) [le_encode n z]) as Hw by (intros n z; apply writes_Write).
  pose proof (Serialize_writes (S := Writer) (table_entry t)) as Hwe.
  assert (∀ cs, csession bm0 cs → ∃ cs1, tabledata_writer cs1 = tabledata_writer cs ∧ WriteTable cs t = WriteTableData cs1 t ∧
    csession bm0 cs1 ∧ cs_extends cs cs1 ∧ data_stream cs1 = data_stream cs ∧
    meta_stream cs1 = meta_stream cs ++ mjoin (pieces (table_entry t)) ++
      le_encode 8 (mw_block_id (tabledata_writer cs)) ++ le_encode 8 (Z.of_nat (mw_offset (tabledata_writer cs)))) as Hmeta.
  { intros cs Hcs. unfold WriteTable. cbn zeta.
    assert (∀ f cs, tabledata_writer (on_metadata f cs) = tabledata_writer cs) as Htw.
    { intros f [bm w1 w2]. unfold on_metadata. cbn. by destruct (f (bm, w1)). }
    destruct (metadata_writes _ _ _ Hwe Hcs) as (H1 & E1 & M1 & D1). set (cs1 := on_metadata _ cs) in *.
    destruct (metadata_writes _ _ _ (Hw 8%nat (mw_block_id (tabledata_writer cs1))) H1) as (H2 & E2 & M2 & D2). set (cs2 := on_metadata _ cs1) in *.
    destruct (metadata_writes _ _ _ (Hw 8%nat (Z.of_nat (mw_offset (tabledata_writer cs2)))) H2) as (H3 & E3 & M3 & D3).
    set (cs3 := on_metadata _ cs2) in *. exists cs3. split; [unfold cs3, cs2, cs1; by rewrite !Htw|]. split; [done|]. split; [done|]. split; [eapply cs_extends_trans; [|exact E3]; by eapply cs_extends_trans|].
    split; [by rewrite D3, D2, D1|]. rewrite M3, M2, M1. cbn [mjoin list_join]. rewrite !app_nil_r, <-!app_assoc. unfold cs2, cs1. by rewrite !Htw. }
  split.
  - intros cs Hcs. destruct (Hmeta cs Hcs) as (cs1 & _ & -> & Hcs1 & E1 & _). destruct (Sd cs1 Hcs1) as [Hcs2 E2].
    split; [done|]. by eapply cs_extends_trans.
  - intros cs m Hcs Hm Hfin. destruct (Hmeta cs Hcs) as (cs1 & Htw & Heq & Hcs1 & E1 & D1 & M1). rewrite Heq in Hm, Hfin.
    destruct (Md cs1 Hcs1) as [Hms Hne]. rewrite Hms, M1 in Hm. apply app_inv_head in Hm as <-. destruct (Sd cs1 Hcs1) as [Hcs2 E2].
    destruct (stream_grows (content := data_stream) _ _ E2) as [d Hd].
    destruct (WriteTableData_sends t cs1 d Ht Hcs1 Hd Hfin) as (columns & rows & d1 & d2 & -> & Hdec & Hcols & Hrows).
    destruct (read_position cs1 _ _ Hcs1 E2 Hd Hne Hfin) as (Hid & Hoff & r & rest & Hr & Hok & Hrem). rewrite Htw in *.
    exists (mkStoredTable (table_entry t) columns rows). split; [by split|]. unfold ReadTable.
    apply decodes_bind with (table_entry t); [apply Deserialize_decodes, Ht|].
    apply decodes_bind with (mw_block_id (tabledata_writer cs)); [apply decodes_ReadBlockId; exact Hid|].
    rewrite <-(app_nil_r (le_encode _ _)). pose proof BLOCK_SIZE_small.
    apply decodes_bind with (Z.of_nat (mw_offset (tabledata_writer cs))); [apply decodes_Read; split; lia|].
    intros d rest' Hokd Hremd. rewrite Hr, Nat2Z.id. cbn [mbind res_bind]. rewrite <-app_assoc in Hrem.
    destruct (Hdec _ _ Hok Hrem) as (r' & -> & _). cbn [mbind res_bind]. eexists. split; [reflexivity|]. split; [|done].
    destruct Hokd as [? ? ?]. by split.
Qed.

(** ** Lemmas: schemas *)

Record schema_fits (s : Schema Column) : Prop := {
  sf_name : valid_string (schema_name s);
  sf_sequences : valid_list (sequences s);
  sf_table_count : short (tables s);
  sf_tables : Forall table_fits (tables s);
  sf_views : valid_list (views s);
  sf_macros : valid_list (macros s);
}.

Record schema_loaded (s : Schema Column) (s' : Schema Pointers) : Prop := {
  sl_name : schema_name s' = schema_name s;
  sl_sequences : sequences s' = sequences s;
  sl_tables : Forall2 table_loaded (tables s) (tables s');
  sl_views : views s' = views s;
  sl_macros : macros s' = macros s;
}.

Lemma metadata_both {T} f ps rd (v : T) : writes f ps → decodes rd (mjoin ps) v → step (on_metadata f) ∧ sends meta_stream (on_metadata f) rd (eq v).
Proof. intros Hf Hd. split; [by eapply metadata_step|by eapply metadata_sends]. Qed.

Lemma WriteTables_sends l : Forall table_fits l →
  step (λ cs, foldl WriteTable cs l) ∧ sends meta_stream (λ cs, foldl WriteTable cs l) (Read_times (length l) (ReadTable bmf)) (Forall2 table_loaded l).
Proof.
  intros Hl. rewrite Forall_forall in Hl. split.
  - apply step_foldl. intros t Ht. by apply WriteTable_sends, Hl.
  - apply sends_times; [apply _|]. intros t Ht. by apply WriteTable_sends, Hl.
Qed.

Lemma WriteSchema_sends s : schema_fits s →
  step (λ cs, WriteSchema cs s) ∧ sends meta_stream (λ cs, WriteSchema cs s) (ReadSchema bmf) (schema_loaded s).
Proof.
  intros [Hn Hsq Htc Ht Hv Hm]. unfold WriteSchema, ReadSchema. cbn zeta.
  destruct (metadata_both (λ w, WriteString w (schema_name s)) _ _ _ (writes_WriteString _) (decodes_string _ Hn)) as [S1 D1].
  destruct (metadata_both (λ w, WriteList (λ s e, Serialize s e) w (sequences s)) _ _ _ (writes_WriteList _) (decodes_ReadList _ Hsq)) as [S2 D2].
  assert (decodes (Read 4) (mjoin [le_encode 4 (Z.of_nat (length (tables s)))]) (Z.of_nat (length (tables s)))) as Hd3.
  { cbn [mjoin list_join]. rewrite app_nil_r. apply decodes_Read. split; [lia|exact Htc]. }
  destruct (metadata_both (λ w, Write 4 w (Z.of_nat (length (tables s)))) _ _ _ (writes_Write _ _) Hd3) as [S3 D3].
  destruct (WriteTables_sends _ Ht) as [S4 D4].
  destruct (metadata_both (λ w, WriteList (λ s e, Serialize s e) w (views s)) _ _ _ (writes_WriteList _) (decodes_ReadList _ Hv)) as [S5 D5].
  destruct (metadata_both (λ w, WriteList (λ s e, Serialize s e) w (macros s)) _ _ _ (writes_WriteList _) (decodes_ReadList _ Hm)) as [S6 D6].
  assert (step (λ cs, on_metadata (λ w, WriteList (λ s e, Serialize s e) w (macros s)) (on_metadata (λ w, WriteList (λ s e, Serialize s e) w (views s)) cs))) as S56
    by by apply (step_comp (on_metadata _) (on_metadata _)).
  assert (step (λ cs, on_metadata (λ w, WriteList (λ s e, Serialize s e) w (macros s)) (on_metadata (λ w, WriteList (λ s e, Serialize s e) w (views s))
    (foldl WriteTable cs (tables s))))) as S456 by by apply (step_comp (λ cs, foldl WriteTable cs _) (λ cs, on_metadata _ (on_metadata _ cs))).
  pose proof (step_comp _ (λ cs, on_metadata _ (on_metadata _ (foldl WriteTable cs _))) S3 S456) as S3456.
  pose proof (step_comp _ (λ cs, on_metadata _ (on_metadata _ (foldl WriteTable (on_metadata _ cs) _))) S2 S3456) as S23456.
  split; [exact (step_comp _ (λ cs, on_metadata _ (on_metadata _ (foldl WriteTable (on_metadata _ (on_metadata _ cs)) _))) S1 S23456)|].
  apply (sends_bind meta_stream _ _ _ _ _ _ S1 D1 S23456). intros ? <-.
  apply (sends_bind meta_stream _ _ _ _ _ _ S2 D2 S3456). intros ? <-.
  apply (sends_bind meta_stream _ _ _ _ _ _ S3 D3 S456). intros ? <-. rewrite Nat2Z.id.
  apply (sends_bind meta_stream _ _ _ _ _ _ S4 D4 S56). intros ts Hts.
  apply (sends_bind meta_stream _ _ _ _ _ _ S5 D5 S6). intros ? <-.
  apply (sends_bind meta_stream _ (λ cs, cs) _ _ _ _ S6 D6 step_id). intros ? <-.
  apply (sends_ret meta_stream (mkStoredSchema _ _ ts _ _)). by split.
Qed.

Lemma WriteSchemas_sends schemas : short schemas → Forall schema_fits schemas →
  step (λ cs, WriteSchemas cs schemas) ∧ (∀ cs, csession bm0 cs → meta_stream (WriteSchemas cs schemas) ≠ []) ∧
  sends meta_stream (λ cs, WriteSchemas cs schemas) (λ r, '(schema_count, r) ← Read 4 r; Read_times (Z.to_nat schema_count) (ReadSchema bmf) r)
    (Forall2 schema_loaded schemas).
Proof.
  intros Hs Hf. rewrite Forall_forall in Hf. unfold WriteSchemas.
  assert (decodes (Read 4) (mjoin [le_encode 4 (Z.of_nat (length schemas))]) (Z.of_nat (length schemas))) as Hd1.
  { cbn [mjoin list_join]. rewrite app_nil_r. apply decodes_Read. split; [lia|exact Hs]. }
  destruct (metadata_both (λ w, Write 4 w (Z.of_nat (length schemas))) _ _ _ (writes_Write _ _) Hd1) as [S1 D1].
  assert (step (λ cs, foldl WriteSchema cs schemas)) as S2. { apply step_foldl. intros s Hin. by apply WriteSchema_sends, Hf. }
  split; [by apply (step_comp (on_metadata _) (λ cs, foldl WriteSchema cs schemas))|]. split.
  { intros cs Hcs. destruct (metadata_writes (λ w, Write 4 w (Z.of_nat (length schemas))) _ cs (writes_Write _ _) Hcs) as (Hcs1 & _ & Hm & _).
    destruct (S2 _ Hcs1) as [_ E2]. destruct (cx_meta _ _ E2) as [m ->]. rewrite Hm. intros [[_ Hnil]%app_nil _]%app_nil.
    apply (f_equal length) in Hnil. cbn [mjoin list_join] in Hnil. rewrite app_nil_r, length_le_encode in Hnil. discriminate Hnil. }
  apply (sends_bind meta_stream _ _ _ _ _ _ S1 D1 S2). intros ? <-. rewrite Nat2Z.id.
  apply sends_times; [apply _|]. intros s Hin. by apply WriteSchema_sends, Hf.
Qed.
End steps.

(** ** Theorems *)

(** A catalog that can be written: the blocks that are given up with the
    checkpoint, which contain the modified ones, are in use and different from
    those that columns keep. *)
Definition catalog_fits (bm : SingleFileBlockManager) (schemas : list (Schema Column)) : Prop :=
  ∃ freed : Z → Prop, (∀ id, id ∈ bm_modified_blocks bm → freed id) ∧ (∀ id, freed id → allocated bm id) ∧
    short schemas ∧ Forall (schema_fits bm freed) schemas.

Lemma mark_all_handle ids bm : bm_handle (mark_all ids bm) = bm_handle bm ∧ bm_max_block (mark_all ids bm) = bm_max_block bm.
Proof. revert bm. induction ids as [|id ids IH]; intros bm; [done|]. apply (IH (MarkBlockAsModified id bm)). Qed.

(** The writers at the start. *)
Lemma new_writers_session fresh1 fresh2 bm :
  bm_ok bm → length fresh1 = BLOCK_SIZE → length fresh2 = BLOCK_SIZE →
  let cs := new_writers fresh1 fresh2 bm in
  csession bm cs ∧ meta_stream cs = [] ∧ bm_modified_blocks (block_manager cs) = bm_modified_blocks bm ∧
  writer_ids (metadata_writer cs) = [mw_block_id (metadata_writer cs)].
Proof.
  intros Hbm Hf1 Hf2. unfold new_writers.
  destruct (MetaBlockWriter_new fresh1 bm) as [bm1 w1] eqn:Hn1, (MetaBlockWriter_new fresh2 bm1) as [bm2 w2] eqn:Hn2.
  destruct (session_open _ _ _ _ _ _ _ Hbm Hf1 Hf2 Hn1 Hn2) as (Hs & Hd1 & _ & Hmod).
  destruct (MetaBlockWriter_new_spec _ _ _ _ Hbm Hf1 Hn1) as (_ & _ & _ & Hi & _). done.
Qed.

Lemma Flush_max_block bm w : bm_max_block (MetaBlockWriter_Flush (bm, w)).1 = bm_max_block bm.
Proof. unfold MetaBlockWriter_Flush. cbn [fst snd]. by case_match. Qed.

(** A chain that another manager of the file reads. *)
Lemma on_disk_chain bm bmf ids data : on_disk bm ids data → bm_max_block bm <= 2 ^ 63 →
  (∀ id, id ∈ ids → BlockManager_Read bmf id = BlockManager_Read bm id) →
  ∃ pad, linked bmf ids (-1) ∧ NoDup ids ∧ Forall valid_id ids ∧ ids ≫= block_data bmf = data ++ pad.
Proof.
  intros Hd Hmax Hr. pose proof (on_disk_valid _ _ _ Hd Hmax) as Hv. destruct Hd as (Hnd & Hlk & Ha & pad & Hdata).
  exists pad. split_and!; [by eapply linked_read|done|done|by rewrite (block_data_read bm)].
Qed.

(** The finished file is loaded. *)
Lemma LoadFromStorage_spec bm freed bmf cs0 schemas ids pad :
  (∀ id, freed id → allocated bm id) → short schemas → Forall (schema_fits bm freed) schemas → csession bm cs0 → meta_stream cs0 = [] →
  let cs := WriteSchemas cs0 schemas in
  finished freed bmf cs → linked bmf ids (-1) → NoDup ids → Forall valid_id ids → hd (-1) ids = GetMetaBlock bmf → ids ≠ [] →
  ids ≫= block_data bmf = meta_stream cs ++ pad →
  ∃ schemas' bmf', LoadFromStorage bmf = Ok (schemas', bmf') ∧ Forall2 (schema_loaded bmf) schemas schemas'.
Proof.
  intros Hfreed Hshort Hfits Hcs0 Hm0 cs Hfin Hlk Hnd Hv Hhd Hids Hdata.
  destruct (WriteSchemas_sends bm freed bmf Hfreed schemas Hshort Hfits) as (_ & _ & D).
  destruct (D cs0 (meta_stream cs) Hcs0) as (schemas' & Hloaded & Hdec); [by rewrite Hm0|done|]. destruct ids as [|root ids]; [done|].
  destruct (MetaBlockReader_new_spec bmf _ Hlk Hnd Hv ltac:(done)) as (r & Hr & Hok & _ & Hrem). cbn [hd] in Hr, Hhd.
  rewrite Hdata in Hrem. destruct (Hdec r pad Hok Hrem) as (r' & Hrd & _ & _).
  unfold LoadFromStorage. rewrite <-Hhd. destruct (Z.ltb_spec root 0); [apply Forall_cons in Hv as [[? _] _]; lia|].
  rewrite Hr. cbn [mbind res_bind] in *. destruct (Read 4 r) as [[c r1]|e]; [|discriminate Hrd]. cbn [mbind res_bind] in *.
  exists schemas'. eexists. split; [|exact Hloaded]. rewrite Hrd. reflexivity.
Qed.

(** The state after the flush of the writers. *)
Lemma checkpoint_written fresh1 fresh2 schemas bm :
  bm_ok bm → length fresh1 = BLOCK_SIZE → length fresh2 = BLOCK_SIZE → catalog_fits bm schemas →
  let cs0 := new_writers fresh1 fresh2 bm in
  let root := mw_block_id (metadata_writer cs0) in
  let bm' := block_manager (FlushWriters (WriteSchemas cs0 schemas)) in
  bm_ok bm' ∧ extends [] bm bm' ∧ allocated bm' root ∧ ¬ allocated bm root ∧
  (∀ id, id ∈ bm_modified_blocks bm' → allocated bm id) ∧
  ∀ bmf, bm_max_block bm' <= 2 ^ 63 → GetMetaBlock bmf = root →
    (∀ id, allocated bm' id → id ∉ bm_modified_blocks bm' → BlockManager_Read bmf id = BlockManager_Read bm' id) →
    ∃ schemas' bmf', LoadFromStorage bmf = Ok (schemas', bmf') ∧ Forall2 (schema_loaded bmf) schemas schemas'.
Proof.
  intros Hbm Hf1 Hf2 (freed & Hmodified & Hfreed & Hshort & Hfits). cbn zeta.
  destruct (new_writers_session fresh1 fresh2 bm Hbm Hf1 Hf2) as (Hcs0 & Hm0 & Hmod0 & Hids0).
  set (cs0 := new_writers fresh1 fresh2 bm) in *. set (root := mw_block_id (metadata_writer cs0)) in *.
  destruct (WriteSchemas_sends bm freed bm Hfreed schemas Hshort Hfits) as (Sw & Hne & _). destruct (Sw cs0 Hcs0) as [Hcs1 E1].
  specialize (Hne cs0 Hcs0). clear Sw. set (cs1 := WriteSchemas cs0 schemas) in *.
  destruct (cx_meta_ids _ _ _ E1) as [new Hnew]. rewrite Hids0 in Hnew. cbn [app] in Hnew.
  assert (∀ id, id ∈ bm_modified_blocks (block_manager cs1) → freed id) as Hmod1.
  { intros id [Hin|?]%(cx_modified _ _ _ E1); [|done]. rewrite Hmod0 in Hin. by apply Hmodified. }
  unfold FlushWriters, on_metadata. pose proof (Flush_max_block (block_manager cs1) (metadata_writer cs1)) as Hmx1.
  destruct (MetaBlockWriter_Flush (block_manager cs1, metadata_writer cs1)) as [bm1 w1'] eqn:Hfl1.
  unfold on_tabledata. cbn [block_manager metadata_writer tabledata_writer fst] in *. pose proof (Flush_max_block bm1 (tabledata_writer cs1)) as Hmx2.
  destruct (MetaBlockWriter_Flush (bm1, tabledata_writer cs1)) as [bm2 w2'] eqn:Hfl2. cbn [block_manager fst] in *.
  destruct (session_close _ _ _ _ _ _ _ _ Hcs1 Hfl1 Hfl2) as (Hbm2 & He2 & Hmod2 & Haside & Hdisk1 & Hdisk2).
  destruct (Hdisk1 Hne) as [Hdisk _]. pose proof Hcs1 as [_ _ _ _ Hnewids].
  assert (∀ id, id ∈ writer_ids (metadata_writer cs1) ∨ id ∈ writer_ids (tabledata_writer cs1) → id ∉ bm_modified_blocks bm2) as Hnm.
  { intros id Hin Hm. rewrite Hmod2 in Hm. by apply (Hnewids id Hin), Hfreed, Hmod1. }
  assert (root ∈ writer_ids (metadata_writer cs1)) as Hroot by (rewrite Hnew; by left).
  pose proof Hdisk as (_ & _ & Halloc & _). rewrite Forall_forall in Halloc. split_and!.
  1-5: first [done | by apply Halloc | by apply Hnewids; left | intros id Hin; rewrite Hmod2 in Hin; by apply Hfreed, Hmod1].
  intros bmf Hmax Hgm Hread. assert (finished freed bmf cs1) as Hfin.
  { split; [|lia|].
    - intros Hdne. destruct (Hdisk2 Hdne) as [Hd2 _]. pose proof Hd2 as (_ & _ & Ha2 & _). rewrite Forall_forall in Ha2.
      destruct (on_disk_chain _ bmf _ _ Hd2 Hmax) as (pad & ? & ? & ? & ?); [intros id Hin; apply Hread; [by apply Ha2|apply Hnm; by right]|].
      exists (writer_ids (tabledata_writer cs1)), (data_stream cs1), pad. by split_and!.
    - intros id (Ha & Hn1 & Hn2) Hf. destruct (Haside id Ha Hn1 Hn2) as [Ha2 <-]. apply Hread; [done|]. rewrite Hmod2. intros Hin. by apply Hf, Hmod1. }
  destruct (on_disk_chain _ bmf _ _ Hdisk Hmax) as (pad & Hlk & Hnd & Hv & Hdata); [intros id Hin; apply Hread; [by apply Halloc|apply Hnm; by left]|].
  eapply (LoadFromStorage_spec bm freed bmf cs0 schemas); [exact Hfreed|done|done|done|done|exact Hfin|exact Hlk|done|done| | |exact Hdata];
    rewrite Hnew; [by rewrite Hgm|done].
Qed.

(** A checkpoint that is written completely, opened and loaded. *)
Lemma checkpoint_reopened fresh1 fresh2 fresh3 schemas bm h other :
  bm_ok bm → length fresh1 = BLOCK_SIZE → length fresh2 = BLOCK_SIZE → length fresh3 = BLOCK_SIZE → catalog_fits bm schemas →
  opened bm h other → iteration h + 1 < 2 ^ 64 →
  let cs0 := new_writers fresh1 fresh2 bm in
  let root := mw_block_id (metadata_writer cs0) in
  let bm' := WriteHeader fresh3 root (block_manager (FlushWriters (WriteSchemas cs0 schemas))) in
  bm_max_block bm' <= 2 ^ 63 →
  ∃ bm1 bm2 schemas' bm3,
    SingleFileBlockManager_open (fh_content (bm_handle bm')) false (bm_use_direct_io bm) = Ok bm1 ∧ LoadFreeList bm1 = Ok bm2 ∧
    LoadFromStorage bm2 = Ok (schemas', bm3) ∧ Forall2 (schema_loaded bm2) schemas schemas' ∧ GetMetaBlock bm1 = root.
Proof.
  intros Hbm Hf1 Hf2 Hf3 Hfits Ho Hit cs0 root bm' Hmax.
  destruct (checkpoint_written fresh1 fresh2 schemas bm Hbm Hf1 Hf2 Hfits) as (Hbmw & He & Hroot & _ & Hmod & Hload).
  fold cs0 root in Hbmw, He, Hroot, Hmod, Hload. unfold bm' in *. set (bmw := block_manager (FlushWriters (WriteSchemas cs0 schemas))) in *.
  assert (modified_ok bmw) as Hmodw. { intros id Hin. destruct (Hmod id Hin) as [? _]. pose proof (ext_max _ _ _ He). lia. }
  pose proof (opened_extends _ _ _ _ _ Ho He) as How. pose proof (WriteHeader_max_ge fresh3 root bmw Hbmw Hmodw Hf3) as Hge.
  assert (inS 64 root) as Hid. { destruct Hroot as [? _]. split; lia. }
  destruct (WriteHeader_opened fresh3 root bmw h other Hbmw Hmodw Hf3 How Hid ltac:(lia) Hit) as [Ho' _].
  destruct (reopened_load fresh3 root bmw Hbmw Hmodw Hf3 Hmax) as (modified & Hfl).
  assert (bm_use_direct_io bm = bm_use_direct_io bmw) as Hdio by (by rewrite (ext_same _ _ _ He)).
  set (bm2 := set_blocks _ modified _ _) in Hfl.
  destruct (Hload bm2) as (schemas' & bm3 & Hl & Hs); [lia|done| |].
  - intros id Ha Hnm. apply extends_read_handle; [apply Ha|]. by apply WriteHeader_keeps.
  - exists (reopened fresh3 root bmw), bm2, schemas', bm3. rewrite Hdio. split; [by apply (opened_open _ _ h)|]. done.
Qed.

(** C11: a database survives a checkpoint and a restart.  For a catalog that fits
    ([catalog_fits]: names, counts and ids within their fields, columns whose
    blocks hold their data and are in use, and version infos without rows of a
    failed append behind the last row), [CreateCheckpoint] without an abort
    succeeds and empties the log; opening the file that it leaves and loading it
    gives the same schemas, in order, with the same sequences, views and macros,
    and tables with the same catalog entries, with columns whose blocks hold
    their data, and with rows that have the versions of committed or of deleted
    rows. *)
Theorem checkpoint_roundtrip fresh schemas bm wal h other :
  bm_ok bm → length fresh.1.1 = BLOCK_SIZE → length fresh.1.2 = BLOCK_SIZE → length fresh.2 = BLOCK_SIZE → catalog_fits bm schemas →
  opened bm h other → iteration h + 1 < 2 ^ 64 →
  ∃ bm' wal', CreateCheckpoint NO_ABORT fresh schemas bm wal = Ret (bm', wal') () ∧ fw_file (writer wal') = [] ∧
    (bm_max_block bm' <= 2 ^ 63 →
     ∃ bm1 bm2 schemas' bm3,
       SingleFileBlockManager_open (fh_content (bm_handle bm')) false (bm_use_direct_io bm) = Ok bm1 ∧ LoadFreeList bm1 = Ok bm2 ∧
       LoadFromStorage bm2 = Ok (schemas', bm3) ∧ Forall2 (schema_loaded bm2) schemas schemas').
Proof.
  intros Hbm Hf1 Hf2 Hf3 Hfits Ho Hit. unfold CreateCheckpoint. eexists _, _. split; [reflexivity|]. split; [done|].
  set (cs := FlushWriters _) in *.
  destruct (mark_all_handle (mw_written_blocks (tabledata_writer cs)) (mark_all (mw_written_blocks (metadata_writer cs))
    (WriteHeader fresh.2 (mw_block_id (metadata_writer (new_writers fresh.1.1 fresh.1.2 bm))) (block_manager cs)))) as [-> ->].
  destruct (mark_all_handle (mw_written_blocks (metadata_writer cs))
    (WriteHeader fresh.2 (mw_block_id (metadata_writer (new_writers fresh.1.1 fresh.1.2 bm))) (block_manager cs))) as [-> ->].
  intros Hmax. destruct (checkpoint_reopened _ _ _ schemas bm h other Hbm Hf1 Hf2 Hf3 Hfits Ho Hit Hmax) as (bm1 & bm2 & schemas' & bm3 & H1 & H2 & H3 & H4 & _).
  eauto 10.
Qed.

(** ** An interrupted checkpoint and the log *)

Section log.
Context {DataChunk DB Rows : Type} `{!Codec DataChunk, !ReplayTarget DB Rows ParsedExpression SelectStatement DataChunk}.

Notation Entry := (WALEntry ParsedExpression SelectStatement DataChunk).
Notation Replay := (WriteAheadLog_Replay (ParsedExpression := ParsedExpression) (SelectStatement := SelectStatement) (DataChunk := DataChunk) (Table := Rows)).

Lemma checkpoint_logged (transactions : list (list Entry)) wal root :
  wal_idle wal → fw_file (writer wal) = log_bytes transactions →
  fw_file (writer (WriteAheadLog_Flush (WriteCheckpoint root wal))) = log_bytes (transactions ++ [[CheckpointEntry root]]).
Proof.
  intros Hidle Hlog. destruct (write_transaction_spec [CheckpointEntry (ParsedExpression := ParsedExpression) (SelectStatement := SelectStatement)
    (DataChunk := DataChunk) root] wal (proj1 Hidle)) as (_ & Hw & Hf).
  change (WriteAheadLog_Flush (WriteCheckpoint root wal)) with (write_transaction wal [CheckpointEntry (ParsedExpression := ParsedExpression)
    (SelectStatement := SelectStatement) (DataChunk := DataChunk) root]).
  rewrite Hf, Hw, (wal_idle_written _ Hidle), Hlog. unfold log_bytes. by rewrite bind_app, bind_singleton.
Qed.

Lemma Replay_checkpoint (IsRootBlock : Z → bool) (transactions : list (list Entry)) root (d : DB) :
  Forall (Forall entry_valid) transactions → 0 <= root < 2 ^ 63 →
  Replay IsRootBlock (log_bytes (transactions ++ [[CheckpointEntry root]])) d =
    if IsRootBlock root then Ok (true, Destroy (BeginTransaction d))
    else match execute_log (transactions ++ [[CheckpointEntry root]]) (BeginTransaction d, None) with
         | Ret (d, _) _ => Ok (false, Destroy d)
         | Raise (d, _) _ => d ← Rollback d; Ok (false, Destroy d)
         end.
Proof.
  intros Hv Hroot. rewrite Replay_complete.
  - assert (last_checkpoint (transactions ++ [[CheckpointEntry root]]) = root) as ->.
    { unfold last_checkpoint. by rewrite join_app, foldl_app. }
    by rewrite (proj2 (Z.eqb_neq root (-1))) by lia.
  - by destruct transactions.
  - apply Forall_app. split; [done|]. repeat constructor; cbn; unfold inS; lia.
Qed.

(** C13: a checkpoint that is interrupted at one of the two debug aborts of the
    code loses nothing and does nothing twice, for a catalog that fits and a log
    of whole transactions.  When it stops before the header, the file opens with
    the old root, every block that was in use is as it was, and the transactions
    of the log are replayed.  When it stops before the log is truncated, the
    file opens with the new root, from which the catalog is loaded, and the log
    is skipped. *)
Theorem interrupted_checkpoint_recovers fresh schemas bm wal h other (transactions : list (list Entry)) (d : DB) :
  bm_ok bm → length fresh.1.1 = BLOCK_SIZE → length fresh.1.2 = BLOCK_SIZE → length fresh.2 = BLOCK_SIZE → catalog_fits bm schemas →
  opened bm h other → iteration h + 1 < 2 ^ 64 → meta_block h = -1 ∨ allocated bm (meta_block h) →
  wal_idle wal → fw_file (writer wal) = log_bytes transactions → Forall (Forall entry_valid) transactions →
  ∃ bm1 wal1 e1 bm2 wal2 e2 root,
    CreateCheckpoint DEBUG_ABORT_BEFORE_HEADER fresh schemas bm wal = Raise (bm1, wal1) e1 ∧
    CreateCheckpoint DEBUG_ABORT_BEFORE_TRUNCATE fresh schemas bm wal = Raise (bm2, wal2) e2 ∧
    (bm_max_block bm2 <= 2 ^ 63 →
     (∃ old, SingleFileBlockManager_open (fh_content (bm_handle bm1)) false (bm_use_direct_io bm) = Ok old ∧ GetMetaBlock old = meta_block h ∧
        bm_free_list_id old = free_list h ∧ (∀ id, allocated bm id → BlockManager_Read old id = BlockManager_Read bm id) ∧
        Replay (IsRootBlock old) (fw_file (writer wal1)) d =
          match execute_log (transactions ++ [[CheckpointEntry root]]) (BeginTransaction d, None) with
          | Ret (d, _) _ => Ok (false, Destroy d)
          | Raise (d, _) _ => d ← Rollback d; Ok (false, Destroy d)
          end) ∧
     ∃ new new' schemas' new'', SingleFileBlockManager_open (fh_content (bm_handle bm2)) false (bm_use_direct_io bm) = Ok new ∧
        LoadFreeList new = Ok new' ∧ LoadFromStorage new' = Ok (schemas', new'') ∧ Forall2 (schema_loaded new') schemas schemas' ∧
        Replay (IsRootBlock new) (fw_file (writer wal2)) d = Ok (true, Destroy (BeginTransaction d))).
Proof.
  intros Hbm Hf1 Hf2 Hf3 Hfits Ho Hit Hold Hidle Hlog Hv. unfold CreateCheckpoint.
  eexists _, _, _, _, _, _, (mw_block_id (metadata_writer (new_writers fresh.1.1 fresh.1.2 bm))). split; [reflexivity|]. split; [reflexivity|]. intros Hmax.
  destruct (checkpoint_written fresh.1.1 fresh.1.2 schemas bm Hbm Hf1 Hf2 Hfits) as (Hbmw & He & Hroot & Hna & Hmod & _).
  set (root := mw_block_id _) in *. set (bmw := block_manager _) in *.
  assert (modified_ok bmw) as Hmodw. { intros id Hin. destruct (Hmod id Hin) as [? _]. pose proof (ext_max _ _ _ He). lia. }
  pose proof (WriteHeader_max_ge fresh.2 root bmw Hbmw Hmodw Hf3) as Hge.
  assert (0 <= root < 2 ^ 63) as Hid by (destruct Hroot as [? _]; lia). rewrite !(checkpoint_logged transactions) by done. split.
  - exists (BlockManager_Initialize (mkFileHandle (fh_content (bm_handle bmw)) []) (bm_active_header bmw) h false (bm_use_direct_io bm)).
    split; [apply (opened_open _ _ other), (opened_extends _ _ _ _ _ Ho He)|]. split; [done|]. split; [done|]. split.
    + intros id Ha. rewrite <-(extends_read [] bm bmw id He Ha (not_elem_of_nil _)). by apply extends_read_handle; [apply Ha|].
    + rewrite Replay_checkpoint by done. unfold IsRootBlock. cbn [BlockManager_Initialize bm_meta_block].
      destruct (Z.eqb_spec root (meta_block h)) as [Heq|]; [|done]. destruct Hold as [Hm|Ha]; [lia|]. by rewrite <-Heq in Ha.
  - destruct (checkpoint_reopened _ _ _ schemas bm h other Hbm Hf1 Hf2 Hf3 Hfits Ho Hit Hmax) as (b1 & b2 & schemas' & b3 & H1 & H2 & H3 & H4 & H5).
    exists b1, b2, schemas', b3. split_and!; [done..|]. rewrite Replay_checkpoint by done. unfold IsRootBlock. unfold GetMetaBlock in H5. rewrite H5.
    fold root. by rewrite Z.eqb_refl.
Qed.
End log.
End checkpoints.

(** ** An example: columns of bytes

    A column whose data is in memory, written to one new block. *)

Record ByteColumn : Set := mkByteColumn {
  byte_type : LogicalType;
  byte_values : list Z;
}.

Definition ByteColumn_Checkpoint (c : ByteColumn) (bm : SingleFileBlockManager) : SingleFileBlockManager * (Z * nat) :=
  let '(bm, id) := GetFreeBlockId bm in
  (BlockManager_Write (byte_values c) id bm, (id, length (byte_values c))).

Definition BytePointers_Write {S} `{!Serializer S} (s : S) (p : Z * nat) : S := Write 8 (Write 8 s p.1) (Z.of_nat p.2).

Definition BytePointers_Read {D} `{!Deserializer D} (d : D) : res (Z * nat * D) :=
  '(id, d) ← ReadBlockId d;
  '(count, d) ← Read 8 d;
  Ok ((id, Z.to_nat count), d).

Lemma ByteColumn_Checkpoint_spec c bm bm' p :
  bm_ok bm → Z.of_nat (length (byte_values c)) < 2 ^ 64 → ByteColumn_Checkpoint c bm = (bm', p) →
  bm_ok bm' ∧ extends [] bm bm' ∧ bm_modified_blocks bm' = bm_modified_blocks bm ∧
  p.2 = length (byte_values c) ∧ BlockManager_Read bm' p.1 = Ok (byte_values c) ∧ allocated bm' p.1 ∧ ¬ allocated bm p.1 ∧
  (bm_max_block bm' <= 2 ^ 63 → ∀ (D : Type) `{!Deserializer D},
    decodes (λ d : D, BytePointers_Read d) (mjoin [le_encode 8 p.1; le_encode 8 (Z.of_nat p.2)]) p).
Proof.
  intros Hbm Hlen. unfold ByteColumn_Checkpoint. destruct (GetFreeBlockId bm) as [bm1 id] eqn:Hg. intros Heq. apply pair_eq in Heq as [<- <-].
  destruct (GetFreeBlockId_spec _ _ _ Hbm Hg) as (Hbm1 & Hid & Hna & Hal & Hsame & _). pose proof (extends_GetFreeBlockId [] _ _ _ Hbm Hg) as He1.
  assert (allocated bm1 id) as Ha by (apply Hal; by left).
  destruct (BlockManager_Write_spec [id] (byte_values c) id bm1 Ha ltac:(by left)) as (He2 & Hr & Ha2 & _). cbn [fst snd]. split_and!.
  - done.
  - eapply extends_trans; [exact He1|exact He2|]. intros i ->%list_elem_of_singleton. by right.
  - cbn [BlockManager_Write set_handle bm_modified_blocks]. by rewrite Hsame.
  - done.
  - exact Hr.
  - by apply Ha2.
  - done.
  - intros Hmax D HD. assert (0 <= id < 2 ^ 63) as Hid2 by (destruct Ha as [? _]; change (bm_max_block bm1 <= 2 ^ 63) in Hmax; lia).
    unfold BytePointers_Read. cbn [mjoin list_join]. eapply decodes_bind; [apply decodes_ReadBlockId; lia|].
    eapply decodes_bind; [apply decodes_u64; split; lia|]. rewrite Nat2Z.id. apply decodes_ret.
Qed.

#[local] Program Instance ByteColumn_storage : ColumnStorage ByteColumn (Z * nat) := {|
  CheckpointColumn := ByteColumn_Checkpoint;
  WritePointers S _ := BytePointers_Write;
  ReadPointers D _ _ := BytePointers_Read;
  total_rows := snd;
  data_type := byte_type;
  row_count c := length (byte_values c);
  kept_blocks _ := [];
  replaced_blocks _ := [];
  pointer_blocks p := [p.1];
  pointer_pieces p := [le_encode 8 p.1; le_encode 8 (Z.of_nat p.2)];
  column_ok _ c := Z.of_nat (length (byte_values c)) < 2 ^ 64;
  stored bm p c := BlockManager_Read bm p.1 = Ok (byte_values c);
|}.
Next Obligation.
  intros c bm bm' p Hbm Hok _ Hc. destruct (ByteColumn_Checkpoint_spec c bm bm' p Hbm Hok Hc) as (H1 & H2 & H3 & H4 & H5 & H6 & H7 & H8).
  split_and!; [done|done| |done|done| |done].
  - intros id. rewrite H3. auto.
  - by intros id ->%list_elem_of_singleton.
Qed.
Next Obligation. by intros S ? p s. Qed.
Next Obligation. done. Qed.
Next Obligation. intros bm bm' p c Hr Hs. cbn in *. rewrite Hr; [done|by left]. Qed.

(** At most [n] blocks are taken from a file without free blocks. *)
Definition takes (n : nat) cs cs' : Prop := bm_free_list (block_manager cs) = [] →
  bm_free_list (block_manager cs') = [] ∧ bm_max_block (block_manager cs') <= bm_max_block (block_manager cs) + Z.of_nat n.

Lemma GetFreeBlockId_takes bm : bm_free_list bm = [] →
  bm_free_list (GetFreeBlockId bm).1 = [] ∧ bm_max_block (GetFreeBlockId bm).1 = bm_max_block bm + 1.
Proof. intros Hl. unfold GetFreeBlockId. rewrite Hl. done. Qed.

Lemma WriteData_loop_takes fuel bm w b : bm_free_list bm = [] →
  let bm' := (MetaBlockWriter_WriteData_loop fuel (bm, w) b).1 in
  bm_free_list bm' = [] ∧ bm_max_block bm' <= bm_max_block bm + Z.of_nat fuel.
Proof.
  revert bm w b. induction fuel as [|fuel IH]; intros bm w b Hl; cbn [MetaBlockWriter_WriteData_loop]; case_match; try (cbn; split; [done|lia]).
  set (w' := if (0 <? BLOCK_SIZE - mw_offset w)%nat then _ else w). unfold MetaBlockWriter_next_block.
  destruct (GetFreeBlockId bm) as [bm1 id] eqn:Hg. pose proof (GetFreeBlockId_takes bm Hl) as [Hl1 Hm1]. rewrite Hg in Hl1, Hm1. cbn [fst] in *.
  set (w1 := mkMetaBlockWriter _ _ _ _). destruct (MetaBlockWriter_Flush (bm1, w1)) as [bm2 w2] eqn:Hfl.
  assert (bm_free_list bm2 = [] ∧ bm_max_block bm2 = bm_max_block bm1) as [Hl2 Hm2].
  { replace bm2 with (MetaBlockWriter_Flush (bm1, w1)).1 by by rewrite Hfl. unfold MetaBlockWriter_Flush. by case_match. }
  edestruct (IH bm2) as [H1 H2]; [done|]. split; [exact H1|]. lia.
Qed.

Lemma takes_trans n m cs cs1 cs2 : takes m cs1 cs2 → takes n cs cs1 → takes (n + m) cs cs2.
Proof. intros H2 H1 Hl. destruct (H1 Hl) as [H3 H4]. destruct (H2 H3) as [H5 H6]. split; [done|lia]. Qed.

Lemma takes_foldl {T} (n : T → nat) (f : CheckpointState → T → CheckpointState) l :
  (∀ cs x, takes (n x) cs (f cs x)) → ∀ cs, takes (sum_list (n <$> l)) cs (foldl f cs l).
Proof.
  intros Hf. induction l as [|x l IH]; intros cs; [intros Hl; split; [done|cbn; lia]|]. cbn [foldl fmap list_fmap].
  change (sum_list (n x :: (n <$> l))) with (n x + sum_list (n <$> l))%nat. eapply takes_trans; [apply IH|apply Hf].
Qed.

Definition pieces_blocks (ps : list (list Z)) : nat := sum_list ((λ b, S (length b)) <$> ps).

Lemma takes_metadata f ps cs : writes f ps → takes (pieces_blocks ps) cs (on_metadata f cs).
Proof.
  intros Hf. assert (on_metadata f cs = on_metadata (λ s, foldl WriteData s ps) cs) as -> by (unfold on_metadata; by rewrite Hf).
  rewrite on_metadata_foldl. revert cs. apply takes_foldl. intros cs b Hl. unfold on_metadata. cbn [WriteData MetaBlockWriter_Serializer].
  pose proof (WriteData_loop_takes (S (length b)) _ (metadata_writer cs) b Hl) as H. unfold MetaBlockWriter_WriteData. by case_match.
Qed.

Lemma takes_tabledata f ps cs : writes f ps → takes (pieces_blocks ps) cs (on_tabledata f cs).
Proof.
  intros Hf. assert (on_tabledata f cs = on_tabledata (λ s, foldl WriteData s ps) cs) as -> by (unfold on_tabledata; by rewrite Hf).
  rewrite on_tabledata_foldl. revert cs. apply takes_foldl. intros cs b Hl. unfold on_tabledata. cbn [WriteData MetaBlockWriter_Serializer].
  pose proof (WriteData_loop_takes (S (length b)) _ (tabledata_writer cs) b Hl) as H. unfold MetaBlockWriter_WriteData. by case_match.
Qed.

Lemma pieces_blocks_words n l : pieces_blocks (le_encode n <$> l) = (length l * S n)%nat.
Proof.
  induction l as [|z l IH]; [done|]. cbn [fmap list_fmap length]. unfold pieces_blocks in *. cbn [fmap list_fmap].
  change (sum_list (S (length (le_encode n z)) :: ?r)) with (S (length (le_encode n z)) + sum_list r)%nat. rewrite IH, length_le_encode. lia.
Qed.

Lemma takes_Write n z cs : takes (S n) cs (on_metadata (λ s, Write n s z) cs).
Proof.
  assert (pieces_blocks (le_encode n <$> [z]) = S n) as <- by (rewrite pieces_blocks_words; cbn; lia). apply takes_metadata, writes_Write.
Qed.

Lemma takes_column (c : ByteColumn) cs : takes 19 cs (WriteColumnData cs c).
Proof.
  intros Hl. unfold WriteColumnData. cbn [CheckpointColumn ByteColumn_storage]. unfold ByteColumn_Checkpoint.
  pose proof (GetFreeBlockId_takes (block_manager cs) Hl) as [H1 H2]. destruct (GetFreeBlockId (block_manager cs)) as [bm id]. cbn [fst] in *.
  destruct (takes_tabledata _ _ (mkCheckpointState (BlockManager_Write (byte_values c) id bm) (metadata_writer cs) (tabledata_writer cs))
    (WritePointers_writes (id, length (byte_values c))) H1) as [H3 H4].
  change (pieces_blocks (pointer_pieces _)) with (pieces_blocks (le_encode 8 <$> [id; Z.of_nat (length (byte_values c))])) in H4.
  rewrite (pieces_blocks_words 8 [id; Z.of_nat (length (byte_values c))]) in H4.
  split; [exact H3|]. cbn [block_manager BlockManager_Write set_handle bm_max_block length] in H4. lia.
Qed.

Definition table_blocks (t : StoredTable (list Z) ByteColumn) : nat :=
  pieces_blocks (pieces (table_entry t)) + 9 + 9 + sum_list ((λ _, 38%nat) <$> column_data t) +
  pieces_blocks (dt_versions (table_rows t) ≫= MorselInfo_pieces).

Lemma takes_table cs (t : StoredTable (list Z) ByteColumn) : takes (table_blocks t) cs (WriteTable cs t).
Proof.
  unfold WriteTable, WriteTableData. eapply takes_trans; [apply takes_tabledata, CheckpointDeletes_writes|].
  eapply takes_trans; [apply takes_foldl; intros cs' c; apply (takes_trans 19 19 _ (WriteColumnData cs' (main_column c))); apply takes_column|].
  eapply takes_trans; [apply takes_Write|]. eapply takes_trans; [apply takes_Write|]. apply takes_metadata, Serialize_writes.
Qed.

Definition schema_blocks (s : StoredSchema (list Z) (list Z) ByteColumn) : nat :=
  pieces_blocks (string_pieces (schema_name s)) + pieces_blocks (list_pieces (sequences s)) + 5 + sum_list (table_blocks <$> tables s) +
  pieces_blocks (list_pieces (views s)) + pieces_blocks (list_pieces (macros s)).

Lemma takes_schemas cs (l : list (StoredSchema (list Z) (list Z) ByteColumn)) :
  takes (5 + sum_list (schema_blocks <$> l)) cs (WriteSchemas cs l).
Proof.
  unfold WriteSchemas. eapply takes_trans; [|apply takes_Write]. apply takes_foldl. clear cs l. intros cs s. unfold WriteSchema, schema_blocks.
  eapply takes_trans; [apply takes_metadata, writes_WriteList|]. eapply takes_trans; [apply takes_metadata, writes_WriteList|].
  eapply takes_trans; [apply takes_foldl, takes_table|]. eapply takes_trans; [apply takes_Write|].
  eapply takes_trans; [apply takes_metadata, writes_WriteList|]. apply takes_metadata, writes_WriteString.
Qed.

(** One schema with one table of 2000 rows in one column. *)
Definition ex_column : StandardColumn ByteColumn :=
  mkStandardColumn (mkByteColumn (mkLogicalType 11 0 0 [] []) (replicate (Z.to_nat 2000) 5)) (mkByteColumn VALIDITY_TYPE (replicate 250 255)).

Definition ex_entry : TableCatalogEntry (list Z) := mkTable [109] [116] [mkColumnDefinition [97] (mkLogicalType 11 0 0 [] []) None] [].

Definition ex_schema : StoredSchema (list Z) (list Z) ByteColumn := mkStoredSchema [109] [] [mkStoredTable ex_entry [ex_column] ex_table] [] [].


Definition ex_file : SingleFileBlockManager := SingleFileBlockManager_create (0, 0) false.

Definition ex_memory : list Z * list Z * list Z := (replicate BLOCK_SIZE 1, replicate BLOCK_SIZE 2, replicate BLOCK_SIZE 3).

Lemma ex_schema_fits : catalog_fits ex_file [ex_schema].
Proof.
  exists (λ _, False). split; [intros id []%not_elem_of_empty|]. split; [done|]. split; [reflexivity|]. constructor; [|constructor]. split; cbn [schema_name sequences tables views macros ex_schema].
  - reflexivity.
  - split; [reflexivity|constructor].
  - reflexivity.
  - constructor; [|constructor]. split; cbn [table_entry column_data table_rows].
    + split_and!; [reflexivity|reflexivity| |split; [reflexivity|constructor]]. split; [reflexivity|]. repeat constructor; reflexivity || lia.
    + constructor; [|constructor]. split; [| |done]; (split; [|constructor|intros ? []%not_elem_of_nil|intros ? []%not_elem_of_nil]);
        cbn [column_ok ByteColumn_storage byte_values ex_column main_column validity]; rewrite length_replicate; reflexivity.
    + repeat constructor.
    + done.
    + constructor; [|constructor]. cbn [row_count ByteColumn_storage byte_values ex_column main_column]. rewrite length_replicate. reflexivity.
    + exists (append_versions (Z.to_nat 2000) 7 []). split; [apply ex_table_refines|]. split; [|apply ex_table_checkpointable].
      apply Forall_replicate. split; split; vm_compute; discriminate.
  - split; [reflexivity|constructor].
  - split; [reflexivity|constructor].
Qed.

Lemma ex_blocks : Z.of_nat (2 + (5 + sum_list (schema_blocks <$> [ex_schema]))) <= 2 ^ 63.
Proof. vm_compute. discriminate. Qed.

Lemma ex_memory_length : length ex_memory.1.1 = BLOCK_SIZE ∧ length ex_memory.1.2 = BLOCK_SIZE ∧ length ex_memory.2 = BLOCK_SIZE.
Proof. unfold ex_memory. cbn [fst snd]. by rewrite !length_replicate. Qed.

Lemma Flush_free_list bm w : bm_free_list (MetaBlockWriter_Flush (bm, w)).1 = bm_free_list bm.
Proof. unfold MetaBlockWriter_Flush. cbn [fst snd]. by case_match. Qed.

Lemma FlushWriters_takes cs : takes 0 cs (FlushWriters cs).
Proof.
  intros Hl. unfold FlushWriters, on_metadata, on_tabledata. pose proof (Flush_free_list (block_manager cs) (metadata_writer cs)) as H1.
  pose proof (Flush_max_block (block_manager cs) (metadata_writer cs)) as H2. destruct (MetaBlockWriter_Flush (block_manager cs, metadata_writer cs)) as [bm w].
  cbn [block_manager metadata_writer tabledata_writer fst] in *. pose proof (Flush_free_list bm (tabledata_writer cs)) as H3.
  pose proof (Flush_max_block bm (tabledata_writer cs)) as H4. destruct (MetaBlockWriter_Flush (bm, tabledata_writer cs)) as [bm' w'].
  cbn [block_manager fst] in *. split; [congruence|lia].
Qed.

Lemma ex_written : let bmw := block_manager (FlushWriters (WriteSchemas (new_writers ex_memory.1.1 ex_memory.1.2 ex_file) [ex_schema])) in
  bm_free_list bmw = [] ∧ bm_max_block bmw <= 2 ^ 63.
Proof.
  assert (bm_free_list (block_manager (new_writers ex_memory.1.1 ex_memory.1.2 ex_file)) = [] ∧
    bm_max_block (block_manager (new_writers ex_memory.1.1 ex_memory.1.2 ex_file)) = 2) as [Hl Hm] by done.
  destruct (takes_trans _ _ _ _ _ (FlushWriters_takes _) (takes_schemas _ [ex_schema]) Hl) as [H1 H2]. split; [exact H1|].
  etransitivity; [exact H2|]. rewrite Hm. pose proof ex_blocks. lia.
Qed.

Lemma ex_max_block root :
  bm_max_block (WriteHeader ex_memory.2 root (block_manager (FlushWriters (WriteSchemas (new_writers ex_memory.1.1 ex_memory.1.2 ex_file) [ex_schema])))) <= 2 ^ 63.
Proof.
  destruct ex_memory_length as (Hf1 & Hf2 & Hf3). destruct (SingleFileBlockManager_create_opened (0, 0) false) as [_ Hbm].
  destruct (checkpoint_written ex_memory.1.1 ex_memory.1.2 [ex_schema] ex_file Hbm Hf1 Hf2 ex_schema_fits)
    as (Hok & _ & _ & _ & Hmod & _). destruct ex_written as [Hl Hm].
  revert Hok Hmod Hl Hm. generalize (block_manager (FlushWriters (WriteSchemas (new_writers ex_memory.1.1 ex_memory.1.2 ex_file) [ex_schema]))) as bmw.
  intros bmw Hok Hmod Hl Hm. assert (bm_modified_blocks bmw = ∅) as Hempty.
  { apply set_eq. intros id. split; [|intros Hin; destruct (not_elem_of_empty id Hin)]. intros Hin. destruct (Hmod id Hin) as [H _]. change (0 <= id < 0) in H. lia. }
  rewrite WriteHeader_max_block; [exact Hm|exact Hok| |exact Hf3|].
  - intros id. rewrite Hempty. intros Hin. destruct (not_elem_of_empty id Hin).
  - unfold one_block_free_list. cbn [WriteHeader_start set_header free_modified_blocks set_blocks bm_free_list]. rewrite Hempty, elements_empty, Hl.
    pose proof BLOCK_SIZE_large. cbn [foldr length]. lia.
Qed.

Lemma CreateCheckpoint_max_block (fresh : list Z * list Z * list Z) (schemas : list (StoredSchema (list Z) (list Z) ByteColumn)) bm wal bm' wal' :
  CreateCheckpoint NO_ABORT fresh schemas bm wal = Ret (bm', wal') () ∨
    (∃ e, CreateCheckpoint DEBUG_ABORT_BEFORE_TRUNCATE fresh schemas bm wal = Raise (bm', wal') e) →
  ∃ root, bm_max_block bm' =
    bm_max_block (WriteHeader fresh.2 root (block_manager (FlushWriters (WriteSchemas (new_writers fresh.1.1 fresh.1.2 bm) schemas)))).
Proof.
  unfold CreateCheckpoint. intros [Hc|[e Hc]]; [injection Hc as <- _|injection Hc as <- _ _]; eexists; [|reflexivity].
  by rewrite !(proj2 (mark_all_handle _ _)).
Qed.

Lemma checkpoint_roundtrip_witness :
  ∃ bm wal bm1 bm2 loaded bm3, CreateCheckpoint NO_ABORT ex_memory [ex_schema] ex_file two_transactions_log = Ret (bm, wal) () ∧
    fw_file (writer wal) = [] ∧ SingleFileBlockManager_open (fh_content (bm_handle bm)) false false = Ok bm1 ∧ LoadFreeList bm1 = Ok bm2 ∧
    LoadFromStorage (ParsedExpression := list Z) (SelectStatement := list Z) bm2 = Ok ([loaded], bm3) ∧ schema_name loaded = [109] ∧ table_entry <$> tables loaded = [ex_entry].
Proof.
  destruct ex_memory_length as (Hf1 & Hf2 & Hf3). destruct (SingleFileBlockManager_create_opened (0, 0) false) as [Ho Hbm].
  destruct (checkpoint_roundtrip ex_memory [ex_schema] ex_file two_transactions_log new_database_header new_database_header Hbm)
    as (bm & wal & Hc & Hw & Hload).
  - exact Hf1.
  - exact Hf2.
  - exact Hf3.
  - exact ex_schema_fits.
  - exact Ho.
  - reflexivity.
  - assert (bm_max_block bm <= 2 ^ 63) as Hmax.
    { destruct (CreateCheckpoint_max_block ex_memory [ex_schema] ex_file two_transactions_log bm wal) as [root ->]; [left; exact Hc|]. apply ex_max_block. }
    destruct (Hload Hmax) as (bm1 & bm2 & schemas' & bm3 & H1 & H2 & H3 & H4).
    inversion H4 as [|? loaded ? ? [Hn _ Ht _ _] Hnil]; subst. inversion Hnil; subst. exists bm, wal, bm1, bm2, loaded, bm3.
    split; [exact Hc|]. split; [exact Hw|]. split; [exact H1|]. split; [exact H2|]. split; [exact H3|]. split; [exact Hn|].
    cbn [tables ex_schema] in Ht. inversion Ht as [|? t ? ? [He _ _] Hnil']; subst. inversion Hnil'; subst. cbn. by rewrite He.
Defined.

#[local] Existing Instance schemas_target.

Lemma interrupted_checkpoint_recovers_witness :
  ∃ bm wal e old, CreateCheckpoint DEBUG_ABORT_BEFORE_HEADER ex_memory [ex_schema] ex_file two_transactions_log = Raise (bm, wal) e ∧
    SingleFileBlockManager_open (fh_content (bm_handle bm)) false false = Ok old ∧ GetMetaBlock old = -1 ∧
    WriteAheadLog_Replay (ParsedExpression := list Z) (SelectStatement := list Z) (DataChunk := list Z) (Table := ()) (IsRootBlock old)
      (fw_file (writer wal)) ([], []) = Ok (false, ([[97]; [98]; [99; 100]], [[97]; [98]; [99; 100]])).
Proof.
  destruct ex_memory_length as (Hf1 & Hf2 & Hf3). destruct (SingleFileBlockManager_create_opened (0, 0) false) as [Ho Hbm].
  destruct (write_log_spec two_transactions _ (proj1 (wal_ok_Initialize []))) as (Hok & _ & Hfile).
  destruct (interrupted_checkpoint_recovers (DataChunk := list Z) (Rows := ()) ex_memory [ex_schema] ex_file two_transactions_log
    new_database_header new_database_header two_transactions ([], []) Hbm)
    as (bm & wal & e & bm' & wal' & e' & root & Hc & Hc' & Hload).
  - exact Hf1.
  - exact Hf2.
  - exact Hf3.
  - exact ex_schema_fits.
  - exact Ho.
  - reflexivity.
  - by left.
  - split; [exact Hok|vm_compute; reflexivity].
  - exact (Hfile ltac:(discriminate)).
  - apply two_transactions_valid.
  - assert (bm_max_block bm' <= 2 ^ 63) as Hmax.
    { destruct (CreateCheckpoint_max_block ex_memory [ex_schema] ex_file two_transactions_log bm' wal') as [root' ->]; [right; exists e'; exact Hc'|]. apply ex_max_block. }
    destruct (Hload Hmax) as [(old & H1 & H2 & _ & _ & H3) _]. exists bm, wal, e, old. split; [exact Hc|]. split; [exact H1|]. split; [exact H2|].
    rewrite H3. reflexivity.
Defined.
