(* ===== verification/StandardColumn.v ===== *)
(** * Columns of values and of validity

    Columns of ColumnData.v as the columns of src/src/storage/checkpoint_manager.cpp:
    BIGINT columns with their validity columns keep the promises of the class
    [ColumnStorage], so that the theorems of CheckpointManager.v hold for them,
    and what is loaded from their pointers has their rows with the updates.

    Theorems: the columns of a catalog have their rows, with the committed updates,
    after a checkpoint and a restart; and a vector that is appended to a validity
    column and does not fit into its last segment continues in the next segment
    with its first entries again (src/src/storage/table/validity_segment.cpp). *)

From S2P Require Import Prelude Constants Serializer MorselInfo ValidityMask Statistics UpdateSegment UpdateKinds SegmentTree CatalogCodec ValueCodec BlockManager DatabaseFile.
From S2P Require Import DataTable TableVersions WriteAheadLog ColumnSegment ColumnData ColumnRows ColumnAppend ColumnCheckpoint CheckpointManager.

Notation VS := STANDARD_VECTOR_SIZE (only parsing).

(** ** Statistics *)

#[global] Instance NumericStatisticsLaws : StatisticsLaws Z FlatVector NumericStatistics.
Proof.
  split.
  - split_and!; cbn; try done; split; cbn; lia.
  - intros s1 s2 (H1 & H2 & H3) (H4 & H5 & H6). split_and!; cbn in *.
    + by destruct (ns_min s2 <? ns_min s1).
    + by destruct (ns_max s1 <? ns_max s2).
    + destruct (ns_validity s1) as [[[]]|], (ns_validity s2) as [[[]]|]; cbn; done.
  - intros st buffer tc data offset count Hst Hok.
    change (NumericStatistics_valid (NumericSegment_Append 8 NumericStatistics_Update st buffer tc data offset count).1.1).
    apply (NumericSegment_Append_stats 8 NumericStatistics_Update ltac:(lia) (proj1 (proj2 BLOCK_SIZE_vectors)) NumericStatistics_valid); [exact Hst|]. intros i v s Hi Ha (H1 & H2 & H3).
    pose proof (Hok i v Hi Ha : inS 64 v) as Hv.
    split_and!; cbn [NumericStatistics_Update ns_min ns_max ns_validity]; [by destruct (v <? ns_min s)|by destruct (ns_max s <? v)|done].
Qed.

#[global] Instance ValidityStatisticsLaws : StatisticsLaws bool ValidityMask ValidityStatistics.
Proof. by split. Qed.

(** ** Columns in checkpoints

    A column with the rows that it has. *)

Inductive StoredColumn : Type :=
| NumericColumn (c : ColumnData Z NumericStatistics) (rows : list Z)
| ValidityColumn (c : ColumnData bool ValidityStatistics) (rows : list bool).

Inductive StoredPointers : Type :=
| NumericPointers (p : PersistentColumnData NumericStatistics)
| ValidityPointers (p : PersistentColumnData ValidityStatistics).

Section storage.
(** Uninitialised memory: of the segments that are written, and of the vectors. *)
Context (fresh : nat → list Z) (numeric_memory : list Z) (validity_memory : list bool).
Hypothesis fresh_length : ∀ n, length (fresh n) = BLOCK_SIZE.
Hypothesis numeric_memory_length : length numeric_memory = VS.
Hypothesis validity_memory_length : length validity_memory = VS.

(** The checkpoint of a column as the interface has it, which has no exceptions:
    those that fit throw none ([kind_checkpoint]). *)
Definition StoredColumn_Checkpoint (c : StoredColumn) (bm : SingleFileBlockManager) : SingleFileBlockManager * StoredPointers :=
  match c with
  | NumericColumn c _ =>
      match ColumnData_Checkpoint (V := FlatVector) fresh numeric_memory bm c with
      | Ok (bm, _, p) => (bm, NumericPointers p)
      | Throw _ => (bm, NumericPointers (mkPersistentColumnData (statistics c) []))
      end
  | ValidityColumn c _ =>
      match ColumnData_Checkpoint (V := ValidityMask) fresh validity_memory bm c with
      | Ok (bm, _, p) => (bm, ValidityPointers p)
      | Throw _ => (bm, ValidityPointers (mkPersistentColumnData (statistics c) []))
      end
  end.

Definition StoredPointers_Write {S} `{!Serializer S} (s : S) (p : StoredPointers) : S :=
  match p with NumericPointers p => FlushToDisk s p | ValidityPointers p => FlushToDisk s p end.

(** [ColumnData::Deserialize] *)
Definition StoredPointers_Read {D} `{!Deserializer D} (t : LogicalType) (source : D) : res (StoredPointers * D) :=
  if lt_id t =? lt_id VALIDITY_TYPE then
    '(p, source) ← BaseDeserialize source; Ok (ValidityPointers p, source)
  else '(p, source) ← BaseDeserialize source; Ok (NumericPointers p, source).

Definition StoredColumn_type (c : StoredColumn) : LogicalType := match c with NumericColumn c _ => type c | ValidityColumn c _ => type c end.

Definition stored_ok (bm : SingleFileBlockManager) (c : StoredColumn) : Prop :=
  match c with
  | NumericColumn c rows => column_data_ok bm c rows ∧ Z.of_nat (length rows) < 2 ^ 64 ∧ type c = BIGINT
  | ValidityColumn c rows => column_data_ok bm c rows ∧ Z.of_nat (length rows) < 2 ^ 64 ∧ type c = VALIDITY_TYPE
  end.

(** The blocks of the pointers have the rows of the column with the committed updates. *)
Definition pointers_hold (bm : SingleFileBlockManager) (p : StoredPointers) (c : StoredColumn) : Prop :=
  match p, c with
  | NumericPointers p, NumericColumn c rows => segments_ok bm (pc_segments p) 0 (committed (updates c) rows)
  | ValidityPointers p, ValidityColumn c rows => segments_ok bm (pc_segments p) 0 (committed (updates c) rows)
  | _, _ => False
  end.

Definition stored_pointer_blocks (p : StoredPointers) : list Z :=
  match p with NumericPointers p => dp_block_id <$> pc_pointers p | ValidityPointers p => dp_block_id <$> pc_pointers p end.

Lemma pc_segments_blocks {St} (p : PersistentColumnData St) : pc_segments p ≫= segment_blocks = dp_block_id <$> pc_pointers p.
Proof. unfold pc_segments. induction (pc_pointers p) as [|d l IH]; [done|]. rewrite !fmap_cons, bind_cons, IH. done. Qed.

(** One kind of column: what the class promises of its checkpoint. *)
Lemma kind_checkpoint {T V St} `{!Inhabited T, !UpdateKind T V St, !SegmentKind T St, !SegmentKindLaws T St, !Codec St, !StatisticsLaws T V St}
    memory (c : ColumnData T St) rows bm :
  length memory = VS → bm_ok bm → column_data_ok bm c rows → Z.of_nat (length rows) < 2 ^ 64 → Forall (allocated bm) (column_kept c ++ column_replaced c) →
  ∃ bm' c' p, ColumnData_Checkpoint (V := V) fresh memory bm c = Ok (bm', c', p) ∧
    bm_ok bm' ∧ extends [] bm bm' ∧ (∀ id, id ∈ bm_modified_blocks bm' → id ∈ bm_modified_blocks bm ∨ id ∈ column_replaced c) ∧
    pc_total_rows p = length rows ∧ segments_ok bm' (pc_segments p) 0 (committed (updates c) rows) ∧
    (∀ id, id ∈ dp_block_id <$> pc_pointers p → allocated bm' id ∧ (allocated bm id → id ∈ column_kept c)) ∧
    (bm_max_block bm' <= 2 ^ 63 → persistent_ok p).
Proof.
  intros Hm Hbm Hok Hlen Hal. destruct (ColumnData_Checkpoint_ok fresh memory bm c rows fresh_length Hm Hbm Hok Hal) as (bm' & c' & p & Hc & Hck & Hv & Ho).
  exists bm', c', p. split; [done|]. pose proof Hck as (H1 & H2 & H3 & H4 & H5 & _ & _ & H8 & _). split_and!; [done..| |].
  - intros id (d & -> & Hd)%list_elem_of_fmap. by apply H8.
  - intros Hmax. by eapply checkpointed_persistent.
Qed.

#[local] Program Instance StoredColumn_storage : ColumnStorage StoredColumn StoredPointers := {|
  CheckpointColumn := StoredColumn_Checkpoint;
  WritePointers S _ := StoredPointers_Write;
  ReadPointers D _ := StoredPointers_Read;
  total_rows p := match p with NumericPointers p => pc_total_rows p | ValidityPointers p => pc_total_rows p end;
  data_type := StoredColumn_type;
  row_count c := match c with NumericColumn _ rows => length rows | ValidityColumn _ rows => length rows end;
  kept_blocks c := match c with NumericColumn c _ => column_kept c | ValidityColumn c _ => column_kept c end;
  replaced_blocks c := match c with NumericColumn c _ => column_replaced c | ValidityColumn c _ => column_replaced c end;
  pointer_blocks := stored_pointer_blocks;
  pointer_pieces p := match p with NumericPointers p => persistent_pieces p | ValidityPointers p => persistent_pieces p end;
  column_ok := stored_ok;
  stored := pointers_hold;
|}.
Next Obligation.
  intros [c rows|c rows] bm bm' p Hbm (Hok & Hlen & Ht) Hal Hc; cbn in Hc.
  - destruct (kind_checkpoint (V := FlatVector) numeric_memory c rows bm numeric_memory_length Hbm Hok Hlen Hal) as (bm1 & c1 & p1 & Heq & H1 & H2 & H3 & H4 & H5 & H6 & H7).
    rewrite Heq in Hc. injection Hc as <- <-. split_and!; [done..|]. intros Hmax D HD. unfold StoredPointers_Read. cbn [StoredColumn_type]. rewrite Ht. cbn [lt_id BIGINT VALIDITY_TYPE Z.eqb Pos.eqb].
    rewrite <-(app_nil_r (mjoin _)). eapply decodes_bind; [apply decodes_BaseDeserialize; by apply H7|apply decodes_ret].
  - destruct (kind_checkpoint (V := ValidityMask) validity_memory c rows bm validity_memory_length Hbm Hok Hlen Hal) as (bm1 & c1 & p1 & Heq & H1 & H2 & H3 & H4 & H5 & H6 & H7).
    rewrite Heq in Hc. injection Hc as <- <-. split_and!; [done..|]. intros Hmax D HD. unfold StoredPointers_Read. cbn [StoredColumn_type]. rewrite Ht. cbn [lt_id VALIDITY_TYPE Z.eqb Pos.eqb].
    rewrite <-(app_nil_r (mjoin _)). eapply decodes_bind; [apply decodes_BaseDeserialize; by apply H7|apply decodes_ret].
Qed.
Next Obligation. intros S ? [p|p]; apply FlushToDisk_writes. Qed.
Next Obligation. intros bm bm' [c rows|c rows] Hr (Hok & H); (split; [by eapply column_data_ok_read|done]). Qed.
Next Obligation.
  intros bm bm' [p|p] [c rows|c rows] Hr Hs; cbn in *; try done.
  all: eapply segments_ok_read; [|exact Hs]; intros id Hid; apply Hr; by rewrite <-pc_segments_blocks.
Qed.
End storage.

(** ** After a restart *)

(** A column that is made of pointers that hold the data of another. *)
Definition reloaded {T V St} `{!Inhabited T, !UpdateKind T V St, !SegmentKind T St, !SegmentKindLaws T St, !Codec St}
    (bm : SingleFileBlockManager) (p : PersistentColumnData St) (c : ColumnData T St) (rows : list T) : Prop :=
  ∃ c', ColumnData_Initialize (V := V) p (ColumnData_new (V := V) (type c)) = Ok c' ∧ type c' = type c ∧
    column_data_ok bm c' (committed (updates c) rows) ∧ committed (updates c') (committed (updates c) rows) = committed (updates c) rows.

Definition stored_reloaded (bm : SingleFileBlockManager) (c : StoredColumn) (p : StoredPointers) : Prop :=
  match p, c with
  | NumericPointers p, NumericColumn c rows => reloaded (V := FlatVector) bm p c rows
  | ValidityPointers p, ValidityColumn c rows => reloaded (V := ValidityMask) bm p c rows
  | _, _ => False
  end.

Lemma pointers_hold_reloaded bm p c : pointers_hold bm p c → stored_reloaded bm c p.
Proof.
  destruct p as [p|p], c as [c rows|c rows]; cbn; try done; intros Hs.
  - destruct (ColumnData_Initialize_ok (V := FlatVector) bm p (type c) _ Hs) as (c' & H1 & H2 & H3 & H4 & _). exists c'. by split_and!.
  - destruct (ColumnData_Initialize_ok (V := ValidityMask) bm p (type c) _ Hs) as (c' & H1 & H2 & H3 & H4 & _). exists c'. by split_and!.
Qed.

(** C12: the rows of columns survive a checkpoint and a restart, from the blocks up.
    For a catalog that fits, whose tables have BIGINT columns with their validity
    columns: [CreateCheckpoint] without an abort succeeds, and from the file that
    it leaves the same schemas and tables are loaded, with columns of which
    [ColumnData::Initialize] makes columns that have the rows of those that were
    written, with their committed updates and no updates of their own.  This
    instantiates [ColumnStorage] with the columns of ColumnData.v. *)
Theorem columns_survive_restart {ParsedExpression SelectStatement} `{!Codec ParsedExpression, !Codec SelectStatement}
    memory numeric_memory validity_memory
    (Hf : ∀ n : nat, length (memory n) = BLOCK_SIZE) (Hn : length numeric_memory = VS) (Hv : length validity_memory = VS)
    fresh (schemas : list (StoredSchema ParsedExpression SelectStatement StoredColumn)) bm wal h other :
  let storage := StoredColumn_storage memory numeric_memory validity_memory Hf Hn Hv in
  bm_ok bm → length fresh.1.1 = BLOCK_SIZE → length fresh.1.2 = BLOCK_SIZE → length fresh.2 = BLOCK_SIZE → catalog_fits bm schemas →
  opened bm h other → iteration h + 1 < 2 ^ 64 →
  ∃ bm' wal', CreateCheckpoint NO_ABORT fresh schemas bm wal = Ret (bm', wal') () ∧
    (bm_max_block bm' <= 2 ^ 63 →
     ∃ bm1 bm2 schemas' bm3,
       SingleFileBlockManager_open (fh_content (bm_handle bm')) false (bm_use_direct_io bm) = Ok bm1 ∧ LoadFreeList bm1 = Ok bm2 ∧
       LoadFromStorage (ParsedExpression := ParsedExpression) (SelectStatement := SelectStatement) bm2 = Ok (schemas', bm3) ∧
       Forall2 (λ s s', Forall2 (λ t t', Forall2 (λ c c', stored_reloaded bm2 (main_column c) (main_column c') ∧ stored_reloaded bm2 (validity c) (validity c'))
         (column_data t) (column_data t')) (tables s) (tables s')) schemas schemas').
Proof.
  intros storage Hbm Hf1 Hf2 Hf3 Hfits Ho Hit. unfold CreateCheckpoint. eexists _, _. split; [reflexivity|].
  set (cs := FlushWriters _) in *.
  destruct (mark_all_handle (mw_written_blocks (tabledata_writer cs)) (mark_all (mw_written_blocks (metadata_writer cs))
    (WriteHeader fresh.2 (mw_block_id (metadata_writer (new_writers fresh.1.1 fresh.1.2 bm))) (block_manager cs)))) as [-> ->].
  destruct (mark_all_handle (mw_written_blocks (metadata_writer cs))
    (WriteHeader fresh.2 (mw_block_id (metadata_writer (new_writers fresh.1.1 fresh.1.2 bm))) (block_manager cs))) as [-> ->].
  intros Hmax. destruct (checkpoint_reopened _ _ _ schemas bm h other Hbm Hf1 Hf2 Hf3 Hfits Ho Hit Hmax) as (bm1 & bm2 & schemas' & bm3 & H1 & H2 & H3 & H4 & _).
  exists bm1, bm2, schemas', bm3. split_and!; [done..|]. eapply Forall2_impl; [exact H4|]. intros s s' [_ _ Ht _ _].
  eapply Forall2_impl; [exact Ht|]. intros t t' [_ Hc _]. eapply Forall2_impl; [exact Hc|]. intros c c' [[_ Hm] [_ Hvc]].
  split; by apply pointers_hold_reloaded.
Qed.

(** ** Appends to validity columns *)

Lemma vector_fits : (VS <= validity_max_vector_count * VS)%nat.
Proof. pose proof validity_max_pos. nia. Qed.

(** A vector that does not fit into the last segment of a validity column: the
    rows in the next segment have the validity of the first entries of the vector,
    not of the ones that follow, because [ValiditySegment::Append] does not use
    [offset]. *)
Theorem validity_append_shift (fresh : nat → list Z) bm (c : ColumnData bool ValidityStatistics) rows seg vdata count :
  (∀ n, length (fresh n) = BLOCK_SIZE) → column_data_ok bm c rows → last (data c) = Some seg → segment_type seg = TRANSIENT →
  let room := (validity_max_vector_count * VS - segment_count seg)%nat in
  (room < count <= VS)%nat →
  ∃ c' ws, AppendData (V := ValidityMask) fresh bm vdata count c = Ok c' ∧ length ws = count ∧ column_data_ok bm c' (rows ++ ws) ∧
    ∀ i, (i < count)%nat →
      ws !! i = Some (RowIsValid (vd_validity vdata) (vd_sel vdata !!! (if (i <? room)%nat then i else i - room)%nat)).
Proof.
  intros Hf [Hs Hu Hp] Hlast Htype room Hcount. apply last_Some in Hlast as [segs Hd]. destruct Hu as [[H _]|Hu]; [rewrite H in Hd; by destruct segs|].
  rewrite Hd in Hs. destruct (segments_ok_last _ _ _ _ _ Hs) as (vs1 & vs2 & -> & Hs1 & Hdiv & Hseg). rewrite Nat.add_0_l in Hdiv, Hseg.
  unfold AppendData. destruct (append_to_updates_ok (V := ValidityMask) count count _ c Hu ltac:(lia)) as (us & -> & Hus & _). cbn [mbind res_bind].
  assert (room = validity_max_vector_count * VS - length vs2)%nat as Hroom by (unfold room; by rewrite (so_count _ _ _ _ Hseg)). pose proof vector_fits.
  destruct (append_two_segments (V := ValidityMask) bm fresh Hf count vdata count (set_updates us c) segs seg vs1 vs2 Hd Htype Hs1 Hdiv Hseg ltac:(done))
    as (ws1 & ws2 & st' & segs' & seg' & -> & Hl1 & Hl2 & Hs' & Hv1 & Hv2); [change (max_vector_count (T := bool) (St := ValidityStatistics)) with validity_max_vector_count; lia|].
  cbn [max_vector_count ValiditySegmentKind] in *. rewrite <-Hroom in *.
  eexists _, (ws1 ++ ws2). split; [reflexivity|]. split; [rewrite length_app; lia|]. split.
  - split; cbn [data updates set_statistics set_data set_updates persistent_rows].
    + by rewrite <-!app_assoc.
    + right. rewrite length_app. replace (length (ws1 ++ ws2)) with count by (rewrite length_app; lia). done.
    + rewrite length_app. lia.
  - intros i Hi. destruct (Nat.ltb_spec i room).
    + rewrite lookup_app_l by lia. by apply Hv1.
    + rewrite lookup_app_r by lia. rewrite Hl1. apply Hv2; [lia|done].
Qed.

(** ** Examples *)

Definition zero_memory (n : nat) : list Z := replicate BLOCK_SIZE 0.

Lemma zero_memory_length n : length (zero_memory n) = BLOCK_SIZE.
Proof. apply length_replicate. Qed.

Definition small_vector : VectorData := mkVectorData (seq 0 3) [10; 20; 30] None.

Lemma small_vector_value off i : appended (T := Z) (St := NumericStatistics) small_vector off i = Some ([10; 20; 30] !!! (seq 0 3 !!! (off + i)%nat)).
Proof. done. Qed.

Lemma small_vector_ok off i v : appended (T := Z) (St := NumericStatistics) small_vector off i = Some v → inS 64 v.
Proof.
  rewrite small_vector_value. intros [= <-]. assert (∀ k, inS 64 ([10; 20; 30] !!! k)) as H; [|apply H].
  intros k. rewrite list_lookup_total_alt. destruct ([10; 20; 30] !! k) as [z|] eqn:Hk; cbn [default]; [|split; done].
  apply list_elem_of_lookup_2 in Hk. repeat (apply elem_of_cons in Hk as [->|Hk]; [split; done|]). by apply elem_of_nil in Hk.
Qed.

Lemma three_rows {A} (l : list A) a b c : length l = 3%nat → l !! 0%nat = Some a → l !! 1%nat = Some b → l !! 2%nat = Some c → l = [a; b; c].
Proof. destruct l as [|x [|y [|z [|w l]]]]; cbn; intros; simplify_eq; done. Qed.

Lemma column_append_rows_witness : ∃ bm c1 c2,
  InitializeAppend (V := FlatVector) (zero_memory 0) ex_file (ColumnData_new (V := FlatVector) BIGINT) = Ok (bm, c1) ∧
  AppendData (V := FlatVector) zero_memory bm small_vector 3 c1 = Ok c2 ∧
  column_data_ok bm c2 [10; 20; 30] ∧ committed (updates c2) [10; 20; 30] = [10; 20; 30].
Proof.
  destruct (column_append_rows (V := FlatVector) (zero_memory 0) zero_memory ex_file (ColumnData_new (V := FlatVector) BIGINT) [] small_vector 3)
    as (bm & c1 & c2 & ws & H1 & H2 & H3 & H4 & H5 & H6 & _).
  - apply zero_memory_length.
  - apply zero_memory_length.
  - split; [done|by left|done].
  - split; [apply small_vector_ok|done].
  - assert (ws = [10; 20; 30]) as -> by (apply three_rows; [exact H3|apply H6; [lia|reflexivity]..]).
    exists bm, c1, c2. split; [exact H1|]. split; [exact H2|]. split; [exact H4|exact H5].
Defined.

(** Three rows in memory, and an update of the second one. *)
Definition small_append : NumericStatistics * list Z * nat :=
  NumericSegment_Append 8 NumericStatistics_Update (empty_statistics (T := Z) (V := FlatVector)) (zero_memory 0) 0 small_vector 0 3.

Definition small_segment : ColumnSegment NumericStatistics :=
  mkColumnSegment TRANSIENT 0 3 (mkUncompressedSegment (InMemory small_append.1.2) 3 0) small_append.1.1.

Definition small_updates : UpdateSegment Z NumericStatistics :=
  mkUpdateSegment 0 (Some (Some 0%nat :: replicate (MORSEL_VECTOR_COUNT - 1) None)) {[0%nat := mkUpdateInfo 0 0 [1%nat] [99] None None]}
    (empty_statistics (T := Z) (V := FlatVector)) (empty_statistics (T := Z) (V := FlatVector)).

Definition small_column : ColumnData Z NumericStatistics :=
  mkColumnData BIGINT [small_segment] [(small_updates, 3%nat)] small_append.1.1 0.

Lemma MORSEL_SIZE_large : (3 < MORSEL_SIZE)%nat.
Proof.
  rewrite MORSEL_SIZE_vectors. assert (3 < VS)%nat by (apply Nat.ltb_lt; vm_compute; reflexivity). pose proof MVC_pos. nia.
Qed.

Lemma small_root k : root_at small_updates k = if decide (k = 0)%nat then Some 0%nat else None.
Proof.
  unfold root_at. cbn [us_root small_updates]. destruct k as [|k]; [done|]. rewrite decide_False by done. cbn.
  destruct (_ !! k) as [x|] eqn:Hx; [|done]. apply lookup_replicate in Hx as [-> _]. done.
Qed.

Lemma small_entries k : vector_entries [(small_updates, 3%nat)] k = if decide (k = 0)%nat then [(1%nat, 99)] else [].
Proof.
  unfold vector_entries. pose proof MVC_pos. destruct (k / MORSEL_VECTOR_COUNT)%nat as [|j] eqn:Hj; cbn [lookup list_lookup].
  - unfold base_entries. assert (k < MORSEL_VECTOR_COUNT)%nat by (apply Nat.div_small_iff in Hj; lia). cbn [fst]. rewrite small_root, Nat.mod_small by done.
    by case_decide.
  - rewrite decide_False; [done|]. intros ->. by rewrite Nat.Div0.div_0_l in Hj.
Qed.

Lemma small_column_ok : column_data_ok ex_file small_column [10; 20; 30].
Proof.
  pose proof MORSEL_SIZE_large as HM. split; [|right|cbn; lia].
  - exists [10; 20; 30], []. split; [done|]. split; [apply Nat.divide_0_r|]. split; [|done].
    destruct (Append_block (T := Z) (V := FlatVector) (empty_statistics (T := Z) (V := FlatVector)) (zero_memory 0) [] small_vector 0 3)
      as (st' & buffer' & ws & Ha & Hl & Hb & Hst & Hv).
    + exact (block_holds_empty (T := Z) (St := NumericStatistics) (zero_memory 0) (zero_memory_length 0)).
    + apply (valid_empty (T := Z) (V := FlatVector)).
    + intros i v _. apply small_vector_ok.
    + assert (Nat.min 3 (max_vector_count (T := Z) (St := NumericStatistics) * VS - 0) = 3)%nat as Hk.
      { apply Nat.min_l. pose proof (max_vector_count_pos (T := Z) (St := NumericStatistics)).
        assert (3 < VS)%nat by (apply Nat.ltb_lt; vm_compute; reflexivity). nia. }
      cbn [length] in *. rewrite Hk in *. assert (ws = [10; 20; 30]) as -> by (apply three_rows; [exact Hl|apply Hv; [lia|reflexivity]..]).
      assert (small_segment = mkColumnSegment TRANSIENT 0 3 (mkUncompressedSegment (InMemory buffer') 3 0) st') as ->.
      { unfold small_segment. change small_append with (Append (T := Z) (empty_statistics (T := Z) (V := FlatVector)) (zero_memory 0) 0 small_vector 0 3).
        rewrite Ha. reflexivity. }
      exact (transient_ok ex_file 3 0 [10; 20; 30] buffer' st' eq_refl Hb Hst).
  - split.
    + cbn [length updates small_column]. by rewrite Nat.div_small by lia.
    + intros [|j] u Hj; [|done]. injection Hj as <-. cbn [fst snd]. split_and!; [done|change (length _) with 3%nat; rewrite Nat.mul_0_l, Nat.sub_0_r; lia|].
      intros k base Hk. rewrite small_root. case_decide; [|done]. intros [= <-]. eexists. split; [reflexivity|]. split_and!.
      * repeat constructor.
      * done.
      * constructor; [apply Nat.ltb_lt; vm_compute; reflexivity|done].
      * constructor; [split; cbn; lia|done].
    + intros k i v. cbn [updates small_column]. rewrite small_entries. case_decide; [|done]. cbn. case_decide; [|done]. intros _. subst. cbn. lia.
Qed.

Lemma small_committed : committed (updates small_column) [10; 20; 30] = [10; 99; 30].
Proof.
  assert (∀ r v, (r < 3)%nat → committed_value [(small_updates, 3%nat)] r v = if decide (r = 1)%nat then 99 else v) as Hv.
  { intros r v Hr. unfold committed_value. assert (3 < VS)%nat by (apply Nat.ltb_lt; vm_compute; reflexivity).
    rewrite Nat.div_small, Nat.mod_small, small_entries, decide_True by (done || lia). cbn. repeat case_decide; done || lia. }
  unfold committed. cbn [imap updates small_column]. unfold compose. by rewrite !Hv by lia.
Qed.

Lemma column_checkpoint_restart_witness : ∃ bm c p,
  ColumnData_Checkpoint (V := FlatVector) zero_memory (replicate VS 0) ex_file small_column = Ok (bm, c, p) ∧
  segments_ok bm (pc_segments p) 0 [10; 99; 30] ∧ column_data_ok bm c [10; 99; 30] ∧
  ∃ d loaded, BaseDeserialize (BufferedDeserializer_new (written (FlushToDisk (BufferedSerializer_new 16) p))) = Ok (p, d) ∧
    ColumnData_Initialize (V := FlatVector) p (ColumnData_new (V := FlatVector) BIGINT) = Ok loaded ∧ column_data_ok bm loaded [10; 99; 30].
Proof.
  destruct (column_checkpoint_restart (V := FlatVector) zero_memory (replicate VS 0) ex_file small_column [10; 20; 30]) as (bm & c & p & Hc & Hck & Hload).
  - apply zero_memory_length.
  - apply length_replicate.
  - exact (proj2 (SingleFileBlockManager_create_opened (0, 0) false)).
  - exact small_column_ok.
  - constructor.
  - reflexivity.
  - exists bm, c, p. split; [exact Hc|]. rewrite small_committed in Hload. unfold checkpointed in Hck. rewrite small_committed in Hck.
    destruct Hck as (_ & _ & _ & Hs & _ & Hcd & _ & _ & Hmax). split; [exact Hs|]. split; [exact Hcd|].
    destruct (pointer_segments_bounds (V := FlatVector) bm (pc_pointers p) 0 [10; 99; 30] Hs) as [Hl _].
    destruct (Hload ltac:(cbn in Hl, Hmax; lia) _ _ _ _ (BufferedSerializer_new 16)
      (BufferedDeserializer_new (written (FlushToDisk (BufferedSerializer_new 16) p))) []) as (d & loaded & H1 & _ & H2 & H3 & _).
    + split_and!; cbn; lia || done.
    + split; cbn [bd_ptr bd_endptr bd_data BufferedDeserializer_new]; lia.
    + rewrite app_nil_r. cbn [remaining BufferedDeserializer_Deserializer BufferedDeserializer_new bd_ptr bd_endptr bd_data]. rewrite drop_0, take_ge by done. done.
    + exists d, loaded. split; [exact H1|]. split; [exact H2|exact H3].
Defined.

Lemma column_revert_append_witness : ∃ c, RevertAppend (T := Z) ex_file 2 small_column = Ok c ∧ column_data_ok ex_file c [10; 20] ∧
  committed (updates c) [10; 20] = [10; 99].
Proof.
  destruct (column_revert_append (T := Z) ex_file small_column [10; 20; 30] 2) as (c & H1 & H2 & H3).
  - exact small_column_ok.
  - done.
  - reflexivity.
  - reflexivity.
  - cbn. lia.
  - intros seg ->%list_elem_of_singleton. done.
  - intros k i v. cbn [updates small_column]. rewrite small_entries. case_decide; [|done]. cbn. case_decide; [|done]. intros _. subst. cbn. lia.
  - exists c. split; [exact H1|]. split; [exact H2|]. rewrite small_committed in H3. exact H3.
Defined.

Lemma all_valid_block n : (n <= validity_max_vector_count * VS)%nat →
  block_holds (T := bool) (St := ValidityStatistics) (validity_buffer (zero_memory 0)) (replicate n true).
Proof.
  intros Hn. destruct (validity_buffer_spec (zero_memory 0) (zero_memory_length 0)) as [H1 [H2 H3]].
  split; rewrite ?length_replicate; [exact H1| |exact Hn|].
  - split; [exact H2|]. intros i Hi. apply H3. lia.
  - intros i Hi. rewrite lookup_replicate_2 by done. f_equal. symmetry. apply H3. lia.
Qed.

(** A validity column of [n] rows that are not NULL, in one segment. *)
Definition valid_column (n : nat) : ColumnData bool ValidityStatistics :=
  mkColumnData VALIDITY_TYPE
    [mkColumnSegment TRANSIENT 0 n (mkUncompressedSegment (InMemory (validity_buffer (zero_memory 0))) n 0) (mkValidityStatistics false)]
    (loaded_segment (V := ValidityMask) (mkValidityStatistics false) n <$> seq 0 (S (n / MORSEL_SIZE))) (mkValidityStatistics false) 0.

Lemma valid_column_ok bm n : (n <= validity_max_vector_count * VS)%nat → column_data_ok bm (valid_column n) (replicate n true).
Proof.
  intros Hfit. split.
  - exists (replicate n true), []. rewrite app_nil_r. split; [reflexivity|]. split; [apply Nat.divide_0_r|]. split; [|reflexivity].
    apply transient_ok; [by rewrite length_replicate|by apply all_valid_block|exact I].
  - right. rewrite length_replicate. apply (loaded_updates_ok (V := ValidityMask)).
  - cbn [persistent_rows valid_column]. lia.
Qed.

(** A table with this column and the one in memory above. *)
Definition small_table : DataTable :=
  match DataTable.InitializeAppend DataTable_new (Transaction_new 0 7 0) 3 with Ok (dt, _) => dt | Throw _ => DataTable_new end.

Definition small_entry : TableCatalogEntry (list Z) := mkTable [109] [116] [mkColumnDefinition [97] BIGINT None] [].

Definition small_schema : StoredSchema (list Z) (list Z) StoredColumn :=
  mkStoredSchema [109] []
    [mkStoredTable small_entry [mkStandardColumn (NumericColumn small_column [10; 20; 30]) (ValidityColumn (valid_column 3) (replicate 3 true))] small_table] [] [].

#[local] Instance small_storage : ColumnStorage StoredColumn StoredPointers :=
  StoredColumn_storage zero_memory (replicate VS 0) (replicate VS true) zero_memory_length (length_replicate VS 0) (length_replicate VS true).

Lemma small_table_refines : table_refines small_table (append_versions 3 7 []).
Proof.
  unfold small_table. destruct (InitializeAppend_spec DataTable_new [] (Transaction_new 0 7 0) 3)
    as (dt & -> & Hdt & _); [apply DataTable_new_refines|done|by vm_compute|exact Hdt].
Qed.

Lemma small_table_checkpointable i m :
  dt_versions small_table !! i = Some m → checkpointable m (length (slice i (append_versions 3 7 []))).
Proof.
  intros Hi. pose proof (vr_morsels _ _ (tr_versions _ _ small_table_refines) _ _ Hi) as Hr. apply checkpointableb_spec; [apply Hr|].
  destruct i as [|i]; [|apply lookup_lt_Some in Hi; by vm_compute in Hi; lia].
  assert (m = default (MorselInfo_new 0) (dt_versions small_table !! 0%nat)) as -> by by rewrite Hi. vm_compute. reflexivity.
Qed.

Lemma small_schema_fits : catalog_fits ex_file [small_schema].
Proof.
  exists (λ _, False). split; [intros id []%not_elem_of_empty|]. split; [done|]. split; [reflexivity|]. constructor; [|constructor].
  split; cbn [schema_name sequences tables views macros small_schema].
  - reflexivity.
  - split; [reflexivity|constructor].
  - reflexivity.
  - constructor; [|constructor]. split; cbn [table_entry column_data table_rows].
    + split_and!; [reflexivity|reflexivity| |split; [reflexivity|constructor]]. split; [reflexivity|]. constructor; [|constructor].
      split; [reflexivity|]. split; [apply BIGINT_valid|exact I].
    + constructor; [|constructor]. split; [| |reflexivity]; (split; [|constructor|intros ? []%not_elem_of_nil|intros ? []%not_elem_of_nil]).
      * split; [exact small_column_ok|]. split; reflexivity.
      * split; [|split; reflexivity]. apply valid_column_ok. apply Nat.leb_le. vm_compute. reflexivity.
    + repeat constructor.
    + discriminate.
    + constructor; [reflexivity|constructor].
    + exists (append_versions 3 7 []). split; [apply small_table_refines|]. split; [|apply small_table_checkpointable].
      apply (Forall_replicate _ 3). split; split; vm_compute; discriminate.
  - split; [reflexivity|constructor].
  - split; [reflexivity|constructor].
Qed.

Lemma columns_survive_restart_witness :
  ∃ bm wal, CreateCheckpoint NO_ABORT ex_memory [small_schema] ex_file two_transactions_log = Ret (bm, wal) () ∧
    (bm_max_block bm <= 2 ^ 63 → ∃ bm1 bm2 s bm3 t p q c, SingleFileBlockManager_open (fh_content (bm_handle bm)) false false = Ok bm1 ∧ LoadFreeList bm1 = Ok bm2 ∧
       LoadFromStorage (ParsedExpression := list Z) (SelectStatement := list Z) bm2 = Ok ([s], bm3) ∧ tables s = [t] ∧ column_data t = [mkStandardColumn (NumericPointers p) q] ∧
       ColumnData_Initialize (V := FlatVector) p (ColumnData_new (V := FlatVector) BIGINT) = Ok c ∧ column_data_ok bm2 c [10; 99; 30]).
Proof.
  destruct ex_memory_length as (Hf1 & Hf2 & Hf3). destruct (SingleFileBlockManager_create_opened (0, 0) false) as [Ho Hbm].
  destruct (columns_survive_restart zero_memory (replicate VS 0) (replicate VS true) zero_memory_length (length_replicate VS 0) (length_replicate VS true)
    ex_memory [small_schema] ex_file two_transactions_log new_database_header new_database_header Hbm) as (bm & wal & Hc & Hload).
  - exact Hf1.
  - exact Hf2.
  - exact Hf3.
  - exact small_schema_fits.
  - exact Ho.
  - reflexivity.
  - exists bm, wal. split; [exact Hc|]. intros Hmax. destruct (Hload Hmax) as (bm1 & bm2 & schemas' & bm3 & H1 & H2 & H3 & H4).
    apply Forall2_cons_inv_l in H4 as (s & rest & Ht & ->%Forall2_nil_inv_l & ->). cbn [tables small_schema] in Ht.
    apply Forall2_cons_inv_l in Ht as (t & rest & Hcols & ->%Forall2_nil_inv_l & Hts). cbn [column_data] in Hcols.
    apply Forall2_cons_inv_l in Hcols as ([p q] & rest & [Hm _] & ->%Forall2_nil_inv_l & Hcs). cbn [main_column] in Hm.
    destruct p as [p|p]; [|destruct Hm]. destruct Hm as (c & Hi & _ & Hok & _). rewrite small_committed in Hok.
    exists bm1, bm2, s, bm3, t, p, q, c. split_and!; [exact H1|exact H2|exact H3|exact Hts|exact Hcs|exact Hi|exact Hok].
Defined.

(** A validity column with room for one row: appending a valid and a NULL entry. *)
Definition full_rows : nat := validity_max_vector_count * VS - 1.

Definition full_column : ColumnData bool ValidityStatistics := valid_column full_rows.

Definition null_vector : VectorData := mkVectorData [0%nat; 1%nat] [] (SetInvalid None 1).

Lemma full_rows_fit : (full_rows <= validity_max_vector_count * VS)%nat ∧ (validity_max_vector_count * VS - full_rows = 1)%nat.
Proof. unfold full_rows. pose proof vector_fits. assert (3 < VS)%nat by (apply Nat.ltb_lt; vm_compute; reflexivity). lia. Qed.

Lemma full_column_ok : column_data_ok ex_file full_column (replicate full_rows true).
Proof. apply valid_column_ok, full_rows_fit. Qed.

Lemma validity_append_shift_witness :
  RowIsValid (vd_validity null_vector) (vd_sel null_vector !!! 1%nat) = false ∧
  ∃ c, AppendData (V := ValidityMask) zero_memory ex_file null_vector 2 full_column = Ok c ∧
    column_data_ok ex_file c (replicate full_rows true ++ [true; true]).
Proof.
  split; [vm_compute; reflexivity|].
  destruct (validity_append_shift zero_memory ex_file full_column (replicate full_rows true)
    (mkColumnSegment TRANSIENT 0 full_rows (mkUncompressedSegment (InMemory (validity_buffer (zero_memory 0))) full_rows 0) (mkValidityStatistics false))
    null_vector 2) as (c & ws & H1 & H2 & H3 & H4).
  - apply zero_memory_length.
  - exact full_column_ok.
  - reflexivity.
  - reflexivity.
  - cbn [segment_count]. rewrite (proj2 full_rows_fit). split; [lia|]. apply Nat.leb_le. vm_compute. reflexivity.
  - exists c. split; [exact H1|]. assert (ws = [true; true]) as ->; [|exact H3].
    cbn [segment_count] in H4. rewrite (proj2 full_rows_fit) in H4.
    apply list_eq_same_length with 2%nat; [reflexivity|exact H2|]. intros i x y Hi Hx Hy. rewrite H4 in Hx by exact Hi.
    destruct i as [|[|i]]; [| |lia]; vm_compute in Hx, Hy; congruence.
Defined.
